(* ===== verification/_CoqProject ===== *)
-Q . S2P
Prelude.v
Utf8.v
Ordered.v
Version.v
ErrorId.v
Events.v
Aggregate.v
Testing.v
Books.v
Value.v
Wire.v
Envelope.v
Wake.v
WakeNostd.v
RawStore.v
Import.v
Log.v
InMemory.v
Subscription.v
LiveInMemory.v
Conformance.v
ConformanceSpec.v
ConformanceSub.v
ConformanceRace.v
Repository.v
Transforms.v
Migration.v
Derive.v
Decoded.v
Execute.v
Checkpoint.v
Projection.v
Todos.v
SignedEvents.v
State.v
Snapshot.v
ConformanceAtomic.v
Command.v
Engine.v
Host.v
WireKey.v
Lsm.v
Fjall.v
FjallSpec.v
FjallContract.v
FjallState.v
TodosHttp.v
FjallHistory.v
FjallBlocking.v
FjallAsync.v
Cbor.v
CborSpec.v
CborChunk.v
CborWriter.v
Export.v
FjallExport.v
Backup.v
CborCodec.v
Pg.v
PgDb.v
PgInv.v
PgStore.v
PgAppend.v
PgScan.v
PgRead.v
PgView.v
PgExport.v
PgWake.v
PgAtomic.v
PgSide.v
PgSystem.v
Gate.v
Examples.v
MigrationExample.v
EngineExample.v
FjallExample.v
BackupExample.v
PgExample.v
