(* ===== verification/Prelude.v ===== *)
(** * Mnesis: a verification library for an event-sourcing stack

    Mnesis is an event-sourcing library in Rust.  An aggregate decides commands
    into events and folds events into a state ([src/crates/mnesis]); a store keeps
    one append-only stream of events per aggregate and one global order over all of
    them ([src/crates/store], with adapters under [src/adapters]); a repository
    joins the two (load = read and replay, save = encode, append and fold);
    subscriptions, projections, snapshots and backups are built on the store's
    reads, and a command host serves retried commands ([src/crates/command]).

    ** The files and the code they model

    - [Prelude] (this file): results, panics, 64-bit arithmetic with explicit
      overflow, bytes and little-endian integers, generic list lemmas, hints.
    - [Utf8]: UTF-8 decoding, for [str] and its character boundaries, decimal numerals.
    - [Ordered]: ordered maps and sets ([BTreeMap], [BTreeSet]) as sorted lists.
    - [Version]: [version.rs] ([Version], [VersionRun]).
    - [ErrorId]: [error_id.rs], the bounded label writer.
    - [Events]: [events.rs], non-empty bounded event batches, [events!].
    - [Aggregate]: [aggregate.rs], [saga.rs], [error.rs]: the aggregate root with
      replay, commit, command handling and reactions; a user fold may panic, which
      poisons the root.  [Testing] has the given-when-then fixtures ([testing.rs]).
    - [Value], [Wire], [Envelope]: [value.rs], [wire.rs], [envelope.rs]: caps of the
      persisted fields, the binary frame, pending and persisted envelopes.
    - [Wake]: [src/crates/wake], the registry of per-stream wake channels.
    - [RawStore]: [store.rs], [stream_id.rs]: the interface of a raw event store.
      Class [RawEventStore] has the operations, class [RawEventStoreSpec] the laws
      a client may use, stated with an abstract log per stream: a conflict changes
      nothing, and an append that ends in an error of the store's own may have committed
      its whole batch.
    - [Import]: [import.rs], per-stream and whole-chunk import over that interface.
    - [InMemory]: the in-memory adapter ([inmemory/src/lib.rs], [batch.rs]); it
      proves the laws of [RawEventStoreSpec] and of the atomic append.
    - [Subscription]: [subscription.rs], [subscription_cursor.rs], [catchup.rs],
      [step.rs], [wake.rs]: the catch-up and live cursor as a step function at the
      grain of the source's awaits, so that other tasks run between its steps.
      [LiveInMemory] instantiates it by the in-memory store with pending wakes.
    - The conformance kit for adapters ([src/crates/store-testing]): [Conformance] has
      the rows and the sequential checks ([row.rs], [sequence.rs], [boundary.rs]),
      [ConformanceSub] those that subscribe and reopen ([sequence.rs], [lifecycle.rs]),
      [ConformanceRace] those that spawn tasks ([linearizability.rs]),
      [ConformanceAtomic] those of atomic appends and snapshots ([atomic.rs],
      [snapshot.rs]); with [ConformanceSpec] they prove that a store which keeps the
      contract and is in working order passes.  A check that panics on an error of the
      store's own has failed, so that working order is a class of its own
      ([Conformance.ServesKit] and its companions): such errors do not occur for the
      sizes the kit uses.
    - [Repository]: [repository.rs], [codec.rs], [upcasting.rs], [conflict.rs],
      [metadata.rs]: load and save; codecs and metadata providers are parameters.
    - [Transforms], [Derive]: the procedural macros ([src/crates/macros]): the
      [transforms] attribute with its graph of schema migrations and the code it emits,
      the [aggregate] attribute and the [DomainEvent] derive.  [Migration] joins the
      emitted upcaster and the repository.
    - [Execute]: [execute.rs], [saga.rs] of the store: execute and react.
    - [Checkpoint], [Projection]: [checkpoint.rs], [projection.rs] and the in-memory
      checkpoint store: conditional writes, and workers that fold the log.
    - [State], [Snapshot]: [state.rs], [snapshot.rs] and the in-memory snapshot
      store: triggers, the codec bridge, snapshot-backed load and save.
    - [Command], [Engine]: [command/src/model.rs], [command/src/engine.rs]: acceptance
      records and their codec, the adapted aggregate, and the engine that executes
      requests at most once although its appends may time out and land later.
    - [Host]: [command/src/host.rs], the task that serves commands from a bounded
      queue: admission, the task loop, the drop of its inbox, stop, panic and resume,
      as a step relation over all tasks.
    - [WakeNostd]: [src/crates/wake-nostd], one eventcount for all streams, at the
      grain of its atomic steps.
    - [Decoded]: [decoded.rs], typed views over raw and phase-tagged streams.
    - [Log]: the abstract event log that the adapters implement.
    - The embedded adapter ([adapters/fjall/src]): [WireKey] has the key codecs and
      their order, [Lsm] the storage engine as a parameter, [Fjall] the operations of
      the storage, [FjallState] snapshots and checkpoints, [FjallBlocking] the worker
      and its batched scans, [FjallAsync] the public store, [FjallExport] the export
      sessions; [FjallSpec], [FjallContract] and [FjallHistory] have the proofs that
      they implement the log.
    - Backups: [Cbor] ([cbor.rs]: writer, decoder, salvage), [CborSpec], [CborChunk],
      [CborWriter] (its proofs), [CborCodec] (a concrete codec), [Export]
      ([export.rs] and the sessions of the in-memory adapter), [Backup] (from export
      to import).
    - The PostgreSQL adapter ([adapters/postgres/src]): [Pg] has its values, [PgDb] the
      database as a parameter and its statements, [PgStore] the append, [PgRead] the
      scans, [PgAtomic] the atomic append, [PgSide] checkpoints and snapshots, [PgView]
      read-only views and the opening of a store ([schema.rs], [history.rs],
      [builder.rs]), [PgExport] the export sessions ([store/export.rs]), [PgWake] the
      listener task and wake registrations ([wake.rs]); [PgInv],
      [PgAppend] and [PgScan] have the invariants and the shared steps of the proofs,
      and [PgSystem] all sessions together.
    - [Gate]: the mutation-testing gate ([src/mutants-gate]), from the report to the
      exit code.
    - Applications ([src/examples]): [Books] ([closing-the-books]: a shift and a register
      with checked amounts), [SignedEvents] ([signed-events]: a signed and chained
      register and its re-verifying reader), [Todos] and [TodosHttp] ([axum-todos]: the
      aggregate, the read model with its loop, the request handlers).
    - [Examples], [MigrationExample], [EngineExample], [FjallExample], [BackupExample],
      [PgExample]: concrete runs at which the theorems are applied.

    ** How the code is modelled

    - [Result] is [result], code that may unwind returns [panicking], the [?]
      operator is [let?]; machine integers are [Z] with their bounds and checked
      operations written out; byte strings are lists of [byte]; hash maps are
      [gmap].
    - A [&mut self] method returns the new value of [self] next to its result.
      Traits are classes, with a second class for the laws of an implementation;
      client theorems use the laws only, and an instance discharges them.
    - Concurrency: code that awaits is cut at its awaits.  A read that overlaps
      other writers takes a schedule, the store it finds at each of its polls, each a
      later state of the one before; systems of several tasks are
      step relations with theorems on every reachable state.  The PostgreSQL adapter is
      written as programs whose nodes are SQL statements; a weakest precondition ([wp])
      lets every other session move between two statements, and [PgSystem] shows that
      each session does to the others only what they may rely on.
    - Third-party code is a parameter with its documented behaviour as hypotheses:
      user folds, handlers, codecs, JSON, files, the embedded migrations, the
      container crates, the storage engine
      ([Lsm]), minicbor and crc32c, sinks, tokio's channels, [event_listener], and
      PostgreSQL with its driver ([PgDb.documented], one clause per statement).  Nothing
      is assumed of a fold but that it is a function that may panic.  Targets are the
      class [Target]; theorems that need 64-bit sizes say so.

    ** What the theorems show

    - Kernel: replay accepts exactly the consecutive histories within the limit;
      commit equals replay; a rejected call changes nothing; a panic poisons for
      good ([Aggregate]).
    - Bytes: frames round trip, decoding stays in bounds on any input, validated
      fields encode without panics ([Wire], [Envelope], [ErrorId]).
    - Store: an append is exactly an append to the abstract log, atomic appends are
      all or nothing, paginated reads deliver each event once under concurrent
      appends ([RawStore], [InMemory], [Import]).
    - Waking and subscriptions: no wakeup is lost, a subscription yields each event
      once and in order under every interleaving ([Wake], [Subscription]).
    - Repository: save then load is the identity, a stale save persists nothing and
      conflicts, a failed save leaves the root as it was and may be retried without
      storing an event twice, a load returns the fold of a prefix ([Repository],
      [Execute], [Snapshot]).
    - Migrations: the macro accepts exactly the graphs in which every declared schema
      leads to the latest one, the code it emits always ends there, and a history
      written under older schemas loads as if it had been written under the latest
      ([Transforms], [Migration]).
    - Commands: under every interleaving of engines, lost answers and late appends the
      stream is a serial history with each request at most once, a receipt is the
      record's, and a write that could still land is never forgotten ([Engine]).
      The theorems are rely-guarantee style: [Engine.move] is what any writer may do
      to the store, and each call is shown to do only that.
    - Projections: the durable record is the fold of exactly the events up to its
      position, whatever races or fails ([Checkpoint], [Projection]).
    - Embedded store: appends simulate the log whatever the engine reports, histories
      only grow over closings and openings, failed or not, batched scans are exact,
      export sessions are frozen ([FjallSpec], [FjallContract], [FjallHistory],
      [FjallBlocking], [FjallExport]).
    - Backups: a finished chunk decodes to what was exported, any other bytes of a
      writer are refused, salvage recovers exactly the records that are whole, and a
      backup restores exactly ([CborWriter], [Backup]).
    - Host: calls are served in admission order and answered at most once, a stopped
      host ends and hands over every write that could still land ([Host]).
    - PostgreSQL store: under any interleaving of sessions, failures and doubtful
      commits the tables stay consistent, appends and checkpoint commits happen exactly
      as reported, and scans deliver a repeatable list without a gap ([PgSystem]); a
      store opens only on the schema of its binary ([PgView]), and an export session
      delivers one state of the store ([PgExport]); a subscriber waits no longer than
      the rescan interval although the listener may die ([PgWake]).
    - Tools: every store that keeps the contract and is in working order passes the
      conformance kit, however the kit's tasks interleave ([ConformanceRace], and
      [ConformanceAtomic] and [ConformanceSub] for the optional capabilities), a
      fixture's verdict is what the kernel does ([Testing]), and the gate succeeds only on a complete report without survivors ([Gate]).
    - Applications: histories are balanced books and replay to the live state ([Books]),
      the reader of the signed register accepts exactly the genuine logs, and the head of
      a chain binds its history unless the hash collides ([SignedEvents]), the read model
      of the todo service mirrors its aggregates and a read sees the write whose position
      it names ([Todos], [TodosHttp]).

    ** Bounds and fuel

    Loops whose length depends on the store take fuel: [Repository.load] one unit
    per polled event, where [load_exact] shows that one more than the aggregate's
    replay limit is always enough ([Engine.LOAD_POLLS] is that number for the command
    engine); [Subscription.run_alone] a number of turns, with the number that reaches
    the next item given in its lemmas.  [Cbor.decode_chunk] takes the length of its
    input plus one, and its soundness theorem shows it never runs out; a scan of the
    PostgreSQL store is consumed for a number of items ([PgScan.collect]); the
    conformance kit drains cursors and takes the turns of subscribers with fuel, of which
    3000 is shown to be enough; the upcaster emitted by [transforms] takes one turn per
    function and one more.  All other recursion is structural.  Page sizes, caps and chunk sizes are the constants
    of the source.

    ** Not modelled

    The creation of threads and timers, the tuning of keyspaces, what survives a crash of
    the machine, pointer alignment, the run of PostgreSQL's migrations, the text of the
    gate's report, typestate builders, metrics, tracing, the start and stop of the todo
    server and the remaining examples, which are scripts.  The macros are
    modelled from the parsed syntax on; spans and the tokens they copy are left out.  The
    conformance kit is modelled without its clock. *)

From stdpp Require Export base gmap list numbers countable fin_maps.
From coqutil Require Export Byte.

Open Scope Z_scope.
Set Default Proof Using "Type".

(** ** Results, options and panics

    [result A E] is Rust's [Result<A, E>]; [let?] is the [?] operator.
    [panicking A] is the outcome of code that may unwind instead of returning. *)

Inductive result (A E : Type) : Type :=
| Ok (a : A)
| Err (e : E).
Arguments Ok {A E} a.
Arguments Err {A E} e.

Inductive panicking (A : Type) : Type :=
| Returns (a : A)
| Panics.
Arguments Returns {A} a.
Arguments Panics {A}.

(** [expect] and [unwrap] of an option and of a result, and code that goes on if it did
    not panic. *)
Definition expect {A} (o : option A) : panicking A := match o with Some a => Returns a | None => Panics end.
Definition expect_ok {A E} (r : result A E) : panicking A := match r with Ok a => Returns a | Err _ => Panics end.
Definition panicking_try {A B} (p : panicking A) (k : A -> panicking B) : panicking B := match p with Returns a => k a | Panics => Panics end.

Definition result_bind {A B E} (r : result A E) (k : A -> result B E) : result B E :=
  match r with
  | Ok a => k a
  | Err e => Err e
  end.

Definition result_map {A B E} (f : A -> B) (r : result A E) : result B E :=
  match r with
  | Ok a => Ok (f a)
  | Err e => Err e
  end.

Definition map_err {A E F} (f : E -> F) (r : result A E) : result A F :=
  match r with
  | Ok a => Ok a
  | Err e => Err (f e)
  end.

Definition ok_or {A E} (o : option A) (e : E) : result A E :=
  match o with
  | Some a => Ok a
  | None => Err e
  end.

Definition is_ok {A E} (r : result A E) : bool :=
  match r with
  | Ok _ => true
  | Err _ => false
  end.

(** [Option<Result<A, E>>::transpose]. *)
Definition transpose {A E} (o : option (result A E)) : result (option A) E :=
  match o with
  | None => Ok None
  | Some (Ok a) => Ok (Some a)
  | Some (Err e) => Err e
  end.

Declare Scope mnesis_scope.
Delimit Scope mnesis_scope with mnesis.
Notation "'let?' x ':=' e 'in' k" := (result_bind e (fun x => k))
  (at level 10, x pattern, e at level 200, k at level 200) : mnesis_scope.
Open Scope mnesis_scope.

(** A fallible call that may also panic. *)
Notation outcome A E := (panicking (result A E)).

Definition outcome_bind {A B E} (r : outcome A E) (k : A -> outcome B E) : outcome B E :=
  match r with
  | Panics => Panics
  | Returns (Err e) => Returns (Err e)
  | Returns (Ok a) => k a
  end.
Notation "'let!' x ':=' e 'in' k" := (outcome_bind e (fun x => k))
  (at level 10, x pattern, e at level 200, k at level 200) : mnesis_scope.

Definition outcome_map_err {A E F} (f : E -> F) (r : outcome A E) : outcome A F :=
  match r with
  | Panics => Panics
  | Returns r => Returns (map_err f r)
  end.

Lemma outcome_bind_Ok {A B E} (r : outcome A E) (k : A -> outcome B E) b :
  outcome_bind r k = Returns (Ok b) <-> exists a, r = Returns (Ok a) /\ k a = Returns (Ok b).
Proof. destruct r as [[]|]; simpl; naive_solver. Qed.

Lemma outcome_bind_Err {A B E} (r : outcome A E) (k : A -> outcome B E) e :
  outcome_bind r k = Returns (Err e) <-> r = Returns (Err e) \/ exists a, r = Returns (Ok a) /\ k a = Returns (Err e).
Proof. destruct r as [[]|]; simpl; naive_solver. Qed.

#[export] Instance result_eq_dec `{EqDecision A, EqDecision E} : EqDecision (result A E).
Proof. solve_decision. Defined.

Lemma result_bind_Ok {A B E} (r : result A E) (k : A -> result B E) b :
  result_bind r k = Ok b <-> exists a, r = Ok a /\ k a = Ok b.
Proof. destruct r; simpl; naive_solver. Qed.

Lemma result_bind_Err {A B E} (r : result A E) (k : A -> result B E) e :
  result_bind r k = Err e <-> r = Err e \/ exists a, r = Ok a /\ k a = Err e.
Proof. destruct r; simpl; naive_solver. Qed.

Lemma ok_or_Ok {A E} (o : option A) (e : E) a : ok_or o e = Ok a <-> o = Some a.
Proof. destruct o; simpl; naive_solver. Qed.

Lemma map_err_Ok {A E F} (f : E -> F) (r : result A E) a :
  map_err f r = Ok a <-> r = Ok a.
Proof. destruct r; simpl; naive_solver. Qed.

Lemma seq_Ok {A B E} (r : result B E) (k : result A E) a :
  (let? _ := r in k) = Ok a <-> is_ok r = true /\ k = Ok a.
Proof. destruct r; simpl; naive_solver. Qed.

Lemma is_ok_map_err {A E F} (f : E -> F) (r : result A E) : is_ok (map_err f r) = is_ok r.
Proof. by destruct r. Qed.

(** ** Machine integers

    A [u16]/[u32]/[u64] is a [Z] kept in its range by the checked operations;
    [usize] depends on the target, which is at least 32 bits wide. *)

Definition u8_max : Z := 2 ^ 8 - 1.
Definition u16_max : Z := 2 ^ 16 - 1.
Definition u32_max : Z := 2 ^ 32 - 1.
Definition u64_max : Z := 2 ^ 64 - 1.

Class Target := MkTarget {
  usize_max : Z;
  usize_max_lo : u32_max <= usize_max;
  usize_max_hi : usize_max <= u64_max;
}.

Definition target64 : Target.
Proof. refine (MkTarget u64_max _ _); vm_compute; discriminate. Defined.
Definition target32 : Target.
Proof. refine (MkTarget u32_max _ _); vm_compute; discriminate. Defined.

(** [checked_add]/[checked_sub] at an unsigned type with maximum [max]. *)
Definition checked_add (max a b : Z) : option Z :=
  if a + b <=? max then Some (a + b) else None.
Definition checked_sub (a b : Z) : option Z :=
  if b <=? a then Some (a - b) else None.
(** [T::try_from] into the unsigned type with maximum [max]. *)
Definition try_from (max a : Z) : option Z :=
  if (0 <=? a) && (a <=? max) then Some a else None.
(** [u64::wrapping_add]. *)
Definition u64_wrapping_add (a b : Z) : Z := (a + b) mod 2 ^ 64.

Lemma checked_add_Some max a b c :
  checked_add max a b = Some c <-> c = a + b /\ a + b <= max.
Proof. unfold checked_add. destruct (Z.leb_spec (a + b) max); naive_solver lia. Qed.

Lemma checked_add_None max a b : checked_add max a b = None <-> max < a + b.
Proof. unfold checked_add. destruct (Z.leb_spec (a + b) max); naive_solver lia. Qed.

Lemma checked_sub_Some a b c : checked_sub a b = Some c <-> c = a - b /\ b <= a.
Proof. unfold checked_sub. destruct (Z.leb_spec b a); naive_solver lia. Qed.

Lemma try_from_Some max a c : try_from max a = Some c <-> c = a /\ 0 <= a <= max.
Proof.
  unfold try_from. destruct (Z.leb_spec 0 a), (Z.leb_spec a max); simpl; naive_solver lia.
Qed.

Lemma try_from_None max a : try_from max a = None <-> ~ (0 <= a <= max).
Proof.
  unfold try_from. destruct (Z.leb_spec 0 a), (Z.leb_spec a max); simpl; naive_solver lia.
Qed.

Lemma checked_add_ok max a b : a + b <= max -> checked_add max a b = Some (a + b).
Proof. intros ?. by apply checked_add_Some. Qed.

Lemma try_from_ok max a : 0 <= a <= max -> try_from max a = Some a.
Proof. intros ?. by apply try_from_Some. Qed.

Lemma ltb_false a b : b <= a -> (a <? b) = false.
Proof. lia. Qed.

(** Runs the checked arithmetic of the goal whose side conditions [lia] proves. *)
Ltac run_checked :=
  repeat (first [ rewrite checked_add_ok by lia | rewrite try_from_ok by lia
                | rewrite ltb_false by lia ]; simpl).

(** ** [core::num::NonZero]

    The validity proof is a boolean equation, so two values with the same number
    are equal without any axiom. *)

Definition nz_in (max z : Z) : bool := (1 <=? z) && (z <=? max).

Record NonZero (max : Z) : Type := MkNonZero {
  nz_get : Z;
  nz_ok : nz_in max nz_get = true;
}.
Arguments MkNonZero {max} _ _.
Arguments nz_get {max} _.
Arguments nz_ok {max} _.

Definition nz_new {max} (z : Z) : option (NonZero max) :=
  match nz_in max z as b return nz_in max z = b -> option (NonZero max) with
  | true => fun H => Some (MkNonZero z H)
  | false => fun _ => None
  end eq_refl.

Definition nz_checked_add {max} (n : NonZero max) (k : Z) : option (NonZero max) :=
  nz_new (nz_get n + k).

Lemma nz_range {max} (n : NonZero max) : 1 <= nz_get n <= max.
Proof. destruct n as [z H]; simpl. unfold nz_in in H. lia. Qed.

Lemma nz_get_inj {max} (a b : NonZero max) : nz_get a = nz_get b -> a = b.
Proof.
  destruct a as [x Hx], b as [y Hy]; simpl. intros ->. f_equal.
  apply Eqdep_dec.UIP_dec, bool_dec.
Qed.

Lemma nz_new_get {max} (n : NonZero max) : nz_new (nz_get n) = Some n.
Proof.
  unfold nz_new. destruct n as [z H]; simpl.
  generalize (@eq_refl bool (nz_in max z)).
  generalize (nz_in max z) at 2 3. intros b e. destruct b; [|congruence].
  f_equal. by apply nz_get_inj.
Qed.

Lemma nz_new_Some {max} z (n : NonZero max) : nz_new z = Some n <-> z = nz_get n.
Proof.
  split; [|intros ->; apply nz_new_get].
  unfold nz_new. generalize (@eq_refl bool (nz_in max z)).
  generalize (nz_in max z) at 2 3. intros [] e ?; naive_solver.
Qed.

Lemma nz_new_None {max} z : (nz_new z : option (NonZero max)) = None <-> ~ (1 <= z <= max).
Proof.
  split.
  - intros H [H1 H2]. assert (nz_in max z = true) as E by (unfold nz_in; lia).
    pose proof (nz_new_get (MkNonZero z E)) as G. simpl in G. congruence.
  - intros H. destruct (nz_new z) as [n|] eqn:E; [|done].
    apply nz_new_Some in E as ->. pose proof (nz_range n). lia.
Qed.

#[export] Instance nonzero_eq_dec max : EqDecision (NonZero max).
Proof.
  refine (fun a b => cast_if (decide (nz_get a = nz_get b))); [by apply nz_get_inj|congruence].
Defined.

#[export] Instance nonzero_countable max : Countable (NonZero max) :=
  inj_countable nz_get nz_new nz_new_get.

(** ** Bytes *)

#[export] Instance byte_eq_dec : EqDecision byte := Byte.byte_eq_dec.
#[export] Instance byte_countable : Countable byte :=
  inj_countable' byte.unsigned byte.of_Z byte.of_Z_unsigned.

(** A buffer ([&[u8]], [Vec<u8>], [bytes::Bytes]) is its content. *)
Notation bytes := (list byte).

(** [slice.len()]. *)
Definition len {A} (l : list A) : Z := Z.of_nat (length l).

(** [&buf[start..end]] for an in-range [start <= end <= len]. *)
Definition slice {A} (l : list A) (start stop : Z) : list A :=
  take (Z.to_nat (stop - start)) (drop (Z.to_nat start) l).

Lemma len_nonneg {A} (l : list A) : 0 <= len l.
Proof. unfold len; lia. Qed.
Lemma len_nil {A} : len (@nil A) = 0.
Proof. done. Qed.
Lemma len_cons {A} (x : A) l : len (x :: l) = 1 + len l.
Proof. unfold len; simpl; lia. Qed.
Lemma len_app {A} (l k : list A) : len (l ++ k) = len l + len k.
Proof. unfold len. rewrite length_app. lia. Qed.
Lemma len_replicate {A} n (x : A) : len (replicate n x) = Z.of_nat n.
Proof. unfold len. by rewrite length_replicate. Qed.

Create Rewrite HintDb mnesis_len.
#[export] Hint Rewrite @len_nil @len_cons @len_app @len_replicate : mnesis_len.

Ltac len_solve := autorewrite with mnesis_len in *; try lia.

(** The middle of a concatenation is recovered by slicing at its bounds. *)
Lemma slice_middle {A} (a b c : list A) start stop :
  start = len a -> stop = len a + len b -> slice (a ++ b ++ c) start stop = b.
Proof.
  intros -> ->. unfold slice, len.
  rewrite Nat2Z.id, drop_app_length.
  replace (Z.to_nat _) with (length b) by lia. apply take_app_length.
Qed.

Lemma slice_suffix {A} (a b : list A) start stop :
  start = len a -> stop = len (a ++ b) -> slice (a ++ b) start stop = b.
Proof.
  intros -> ->. rewrite <- (app_nil_r b) at 1.
  apply slice_middle; len_solve.
Qed.

Lemma slice_prefix {A} (a b : list A) stop : stop = len a -> slice (a ++ b) 0 stop = a.
Proof. intros ->. apply (slice_middle [] a b); len_solve. Qed.

(** Filters that keep everything or nothing. *)
Lemma filter_all {X} (P : X -> Prop) `{!forall x, Decision (P x)} l : Forall P l -> filter P l = l.
Proof. induction 1; [done|]. by rewrite filter_cons_True, IHForall. Qed.

Lemma filter_none {X} (P : X -> Prop) `{!forall x, Decision (P x)} l : Forall (fun x => ~ P x) l -> filter P l = [].
Proof. induction 1; [done|]. by rewrite filter_cons_False. Qed.

Lemma elem_of_drop {A} (x : A) n l : x ∈ drop n l -> x ∈ l.
Proof. intros [i Hi]%list_elem_of_lookup. rewrite lookup_drop in Hi. by eapply list_elem_of_lookup_2. Qed.

(** The first [n] results of a stream that delivers [l] and then ends. *)
Fixpoint ended {A} (n : nat) (l : list A) : list (option A) :=
  match n with
  | O => []
  | S n => head l :: ended n (tail l)
  end.

Lemma ended_nil {A} n : ended n (@nil A) = replicate n None.
Proof. induction n as [|n IH]; simpl; [done|by rewrite IH]. Qed.

Lemma length_ended {A} n (l : list A) : length (ended n l) = n.
Proof. revert l. induction n as [|n IH]; intros l; simpl; [done|by rewrite IH]. Qed.

Lemma Forall2_impl_in {A B} (P Q : A -> B -> Prop) l k :
  Forall2 P l k -> (forall x y, x ∈ l -> P x y -> Q x y) -> Forall2 Q l k.
Proof.
  induction 1 as [|x y l k Hxy _ IH]; intros HPQ; constructor.
  - apply HPQ; [left|done].
  - apply IH. intros x' y' Hx'. apply HPQ. by right.
Qed.

(** A fallible map has one result. *)
Lemma Forall2_Ok_functional {A B E} (f : A -> result B E) l k1 k2 :
  Forall2 (fun x y => f x = Ok y) l k1 -> Forall2 (fun x y => f x = Ok y) l k2 -> k1 = k2.
Proof.
  intros H1. revert k2. induction H1 as [|x y l k1 Hy _ IH]; intros k2; [by intros ->%Forall2_nil_inv_l|].
  intros (y' & k2' & Hy' & H2 & ->)%Forall2_cons_inv_l. f_equal; [congruence|by apply IH].
Qed.

(** [simplify_eq], also for two equations on the same [result] or [panicking]. *)
Ltac simplify_outcome :=
  repeat (simplify_eq/=; match goal with
  | H1 : ?x = Returns _, H2 : ?x = Returns _ |- _ => rewrite H1 in H2; injection H2 as ?
  | H1 : ?x = Returns _, H2 : ?x = Panics |- _ => congruence
  | H1 : ?x = Ok _, H2 : ?x = Ok _ |- _ => rewrite H1 in H2; injection H2 as ?
  | H1 : ?x = Ok _, H2 : ?x = Err _ |- _ => congruence
  end); simplify_eq/=.

(** Case analysis on the boolean comparisons and options in sight. *)
Ltac break_match :=
  repeat match goal with
  | |- context [match ?x with _ => _ end] => destruct x eqn:?
  | H : context [match ?x with _ => _ end] |- _ => destruct x eqn:?
  end.
