(* ===== verification/Utf8.v ===== *)
(** * UTF-8 strings: the parts of [core::str] the code relies on

    A [&str] is its bytes.  [from_utf8] follows the well-formedness table of the
    Unicode standard (no overlong forms, no surrogates, nothing above U+10FFFF).  Decimal
    numerals are printed and parsed here too. *)

From Stdlib Require String DecimalN DecimalPos.
From S2P Require Import Prelude.

(** The bytes of a string literal. *)
Definition text (s : String.string) : bytes := String.list_byte_of_string s.

(** ** Decimal numbers *)

Fixpoint digits (d : Decimal.uint) : bytes :=
  match d with
  | Decimal.Nil => []
  | Decimal.D0 d => byte.of_Z 48 :: digits d
  | Decimal.D1 d => byte.of_Z 49 :: digits d
  | Decimal.D2 d => byte.of_Z 50 :: digits d
  | Decimal.D3 d => byte.of_Z 51 :: digits d
  | Decimal.D4 d => byte.of_Z 52 :: digits d
  | Decimal.D5 d => byte.of_Z 53 :: digits d
  | Decimal.D6 d => byte.of_Z 54 :: digits d
  | Decimal.D7 d => byte.of_Z 55 :: digits d
  | Decimal.D8 d => byte.of_Z 56 :: digits d
  | Decimal.D9 d => byte.of_Z 57 :: digits d
  end.

(** [Display] of an unsigned integer. *)
Definition dec (z : Z) : bytes := digits (N.to_uint (Z.to_N z)).

(** A decimal numeral has digits only, and determines its number. *)
Lemma digits_chars d : Forall (fun c => 48 <= byte.unsigned c <= 57) (digits d).
Proof. by induction d; simpl; repeat constructor. Qed.

Lemma digits_inj d d' : digits d = digits d' -> d = d'.
Proof. revert d'. induction d as [|d IH|d IH|d IH|d IH|d IH|d IH|d IH|d IH|d IH|d IH]; intros [] E; try discriminate E; [done|..]; injection E as E; by rewrite (IH _ E). Qed.

Lemma dec_inj a b : 0 <= a -> 0 <= b -> dec a = dec b -> a = b.
Proof. intros Ha Hb E%digits_inj%DecimalN.Unsigned.to_uint_inj. lia. Qed.

(** [str::parse::<u64>]: an optional [+] and at least one digit, checked at each step. *)
Definition digit_of (c : byte) : option Z :=
  let n := byte.unsigned c - 48 in if (0 <=? n) && (n <=? 9) then Some n else None.

Fixpoint parse_digits (acc : Z) (s : bytes) : option Z :=
  match s with
  | [] => Some acc
  | c :: s =>
      match digit_of c with
      | Some d => if 10 * acc + d <=? u64_max then parse_digits (10 * acc + d) s else None
      | None => None
      end
  end.

Definition parse_u64 (s : bytes) : option Z :=
  match s with
  | [] => None
  | c :: rest => if (byte.unsigned c =? 43) && negb (len rest =? 0) then parse_digits 0 rest else parse_digits 0 s
  end.

Lemma of_uint_acc_grows d acc : (acc <= Pos.of_uint_acc d acc)%positive.
Proof. revert acc. induction d as [|d IH|d IH|d IH|d IH|d IH|d IH|d IH|d IH|d IH|d IH]; intros acc; cbn [Pos.of_uint_acc]; [lia|..]; (etrans; [|apply IH]); lia. Qed.

Lemma parse_digits_acc d acc :
  Zpos (Pos.of_uint_acc d acc) <= u64_max -> parse_digits (Zpos acc) (digits d) = Some (Zpos (Pos.of_uint_acc d acc)).
Proof.
  revert acc. induction d as [|d IH|d IH|d IH|d IH|d IH|d IH|d IH|d IH|d IH|d IH]; intros acc Hb; [done|..];
    cbn [Pos.of_uint_acc digits parse_digits] in *;
    match goal with |- context [digit_of ?c] => let v := eval vm_compute in (digit_of c) in change (digit_of c) with v end; cbv iota beta;
    match type of Hb with Zpos (Pos.of_uint_acc ?d ?a) <= _ => pose proof (of_uint_acc_grows d a) as Hg; 
      match goal with |- context [?x <=? u64_max] => replace x with (Zpos a) by lia end;
      rewrite (proj2 (Z.leb_le (Zpos a) u64_max)) by lia end; by apply IH.
Qed.

Lemma parse_digits_dec d : Z.of_N (N.of_uint d) <= u64_max -> parse_digits 0 (digits d) = Some (Z.of_N (N.of_uint d)).
Proof.
  induction d as [|d IH|d IH|d IH|d IH|d IH|d IH|d IH|d IH|d IH|d IH]; intros Hb; [done|by apply IH|..]; 
    by apply (parse_digits_acc d).
Qed.

(** A number that is printed is read back. *)
Lemma parse_u64_dec z : 0 <= z <= u64_max -> parse_u64 (dec z) = Some z.
Proof.
  intros Hz. assert (parse_digits 0 (dec z) = Some z) as Hp.
  { unfold dec. assert (Z.of_N (N.of_uint (N.to_uint (Z.to_N z))) = z) as E by (rewrite DecimalN.Unsigned.of_to; lia).
    rewrite parse_digits_dec; rewrite E; [done|lia]. }
  unfold parse_u64. destruct (dec z) as [|c rest] eqn:E.
  - unfold dec in E. destruct (Z.to_N z) as [|p]; [done|]. cbn in E. destruct (Pos.to_uint p) eqn:Eu; try discriminate E.
    by destruct (DecimalPos.Unsigned.to_uint_nonnil p).
  - pose proof (digits_chars (N.to_uint (Z.to_N z))) as Hc. unfold dec in E. rewrite E in Hc. apply Forall_cons in Hc as [Hc _].
    destruct (Z.eqb_spec (byte.unsigned c) 43); [lia|]. done.
Qed.

(** ** Well-formed UTF-8 *)

Definition in_bounds (lo hi x : Z) : bool := (lo <=? x) && (x <=? hi).

(** A continuation byte [0b10xx_xxxx]. *)
Definition is_cont (b : byte) : bool := in_bounds 128 191 (byte.unsigned b).

Definition char1 (b0 : byte) : bool := byte.unsigned b0 <=? 127.
Definition char2 (b0 b1 : byte) : bool :=
  in_bounds 194 223 (byte.unsigned b0) && is_cont b1.
Definition char3 (b0 b1 b2 : byte) : bool :=
  let x := byte.unsigned b0 in let y := byte.unsigned b1 in
  (((x =? 224) && in_bounds 160 191 y)
   || ((in_bounds 225 236 x || in_bounds 238 239 x) && in_bounds 128 191 y)
   || ((x =? 237) && in_bounds 128 159 y))
  && is_cont b2.
Definition char4 (b0 b1 b2 b3 : byte) : bool :=
  let x := byte.unsigned b0 in let y := byte.unsigned b1 in
  (((x =? 240) && in_bounds 144 191 y)
   || (in_bounds 241 243 x && in_bounds 128 191 y)
   || ((x =? 244) && in_bounds 128 143 y))
  && is_cont b2 && is_cont b3.

(** Length of the longest prefix made of whole, well-formed characters. *)
Fixpoint utf8_prefix (l : bytes) : Z :=
  match l with
  | [] => 0
  | b0 :: l1 =>
      if char1 b0 then 1 + utf8_prefix l1 else
      match l1 with
      | [] => 0
      | b1 :: l2 =>
          if char2 b0 b1 then 2 + utf8_prefix l2 else
          match l2 with
          | [] => 0
          | b2 :: l3 =>
              if char3 b0 b1 b2 then 3 + utf8_prefix l3 else
              match l3 with
              | [] => 0
              | b3 :: l4 =>
                  if char4 b0 b1 b2 b3 then 4 + utf8_prefix l4 else 0
              end
          end
      end
  end.

Record Utf8Error : Type := MkUtf8Error { valid_up_to : Z }.

(** [core::str::from_utf8]; a successful check returns the same bytes. *)
Definition from_utf8 (l : bytes) : result bytes Utf8Error :=
  if utf8_prefix l =? len l then Ok l else Err (MkUtf8Error (utf8_prefix l)).

Definition utf8_valid (l : bytes) : bool := is_ok (from_utf8 l).

(** [str::is_char_boundary]. *)
Definition is_char_boundary (s : bytes) (pos : Z) : bool :=
  if pos =? 0 then true
  else if pos =? len s then true
  else match s !! Z.to_nat pos with
       | Some b => negb (is_cont b)
       | None => false
       end.

(** ** Characters *)

(** One well-formed character. *)
Definition is_char (c : bytes) : bool :=
  match c with
  | [b0] => char1 b0
  | [b0; b1] => char2 b0 b1
  | [b0; b1; b2] => char3 b0 b1 b2
  | [b0; b1; b2; b3] => char4 b0 b1 b2 b3
  | _ => false
  end.

Lemma char_lead c b0 tl : c = b0 :: tl -> is_char c = true -> is_cont b0 = false.
Proof.
  intros ->. unfold is_char, char1, char2, char3, char4, is_cont, in_bounds.
  destruct tl as [|b1 [|b2 [|b3 [|b4 tl]]]]; lia.
Qed.

Lemma char_tail c b0 tl : c = b0 :: tl -> is_char c = true -> Forall (fun b => is_cont b = true) tl.
Proof.
  intros ->. unfold is_char, char1, char2, char3, char4, is_cont, in_bounds.
  destruct tl as [|b1 [|b2 [|b3 [|b4 tl]]]]; intros H; repeat constructor; lia.
Qed.

Lemma char_nonempty c : is_char c = true -> exists b0 tl, c = b0 :: tl.
Proof. destruct c; [done|eauto]. Qed.

(** The character classes are disjoint, so the scan is deterministic. *)
Lemma utf8_prefix_char c rest : is_char c = true -> utf8_prefix (c ++ rest) = len c + utf8_prefix rest.
Proof.
  intros H. destruct c as [|b0 [|b1 [|b2 [|b3 [|b4 tl]]]]]; simpl in H; try done;
    unfold len; simpl app; cbn [utf8_prefix length].
  - by rewrite H.
  - assert (char1 b0 = false) as -> by (unfold char2, char1, in_bounds in *; lia).
    by rewrite H.
  - assert (char1 b0 = false) as -> by (unfold char3, char1, in_bounds in *; lia).
    assert (char2 b0 b1 = false) as -> by (unfold char3, char2, in_bounds in *; lia).
    by rewrite H.
  - assert (char1 b0 = false) as -> by (unfold char4, char1, in_bounds in *; lia).
    assert (char2 b0 b1 = false) as -> by (unfold char4, char2, in_bounds in *; lia).
    assert (char3 b0 b1 b2 = false) as -> by (unfold char4, char3, in_bounds in *; lia).
    by rewrite H.
Qed.

Lemma utf8_prefix_concat cs rest :
  Forall (fun c => is_char c = true) cs -> utf8_prefix (concat cs ++ rest) = len (concat cs) + utf8_prefix rest.
Proof.
  induction 1 as [|c cs Hc _ IH]; simpl; [len_solve|].
  rewrite <- app_assoc, utf8_prefix_char by done. rewrite IH. len_solve.
Qed.

(** The scan always splits its input into characters and an ill-formed rest. *)
Lemma utf8_prefix_split l :
  exists cs rest, l = concat cs ++ rest /\ Forall (fun c => is_char c = true) cs /\ utf8_prefix l = len (concat cs).
Proof.
  induction l as [l IH] using (well_founded_induction (well_founded_ltof _ (@length byte))).
  destruct l as [|b0 l1]; [by exists [], []|].
  assert (forall c tl, b0 :: l1 = c ++ tl -> is_char c = true ->
    exists cs rest, b0 :: l1 = concat cs ++ rest /\ Forall (fun c => is_char c = true) cs
      /\ utf8_prefix (b0 :: l1) = len (concat cs)) as Hstep.
  { intros c tl E Hc. destruct (char_nonempty c Hc) as (x & y & ->).
    destruct (IH tl) as (cs & rest & Etl & Hcs & Hp).
    { unfold ltof. rewrite E, length_app. simpl. lia. }
    exists ((x :: y) :: cs), rest. rewrite E, Etl at 1. split; [by simpl; rewrite app_assoc|].
    split; [by constructor|]. rewrite E, utf8_prefix_char, Hp by done.
    cbn [concat]. by rewrite len_app. }
  destruct (char1 b0) eqn:E1; [by apply (Hstep [b0] l1)|].
  destruct l1 as [|b1 l2]; [exists [], [b0]; simpl; by rewrite E1|].
  destruct (char2 b0 b1) eqn:E2; [by apply (Hstep [b0; b1] l2)|].
  destruct l2 as [|b2 l3]; [exists [], [b0; b1]; simpl; by rewrite E1, E2|].
  destruct (char3 b0 b1 b2) eqn:E3; [by apply (Hstep [b0; b1; b2] l3)|].
  destruct l3 as [|b3 l4]; [exists [], [b0; b1; b2]; simpl; by rewrite E1, E2, E3|].
  destruct (char4 b0 b1 b2 b3) eqn:E4; [by apply (Hstep [b0; b1; b2; b3] l4)|].
  exists [], (b0 :: b1 :: b2 :: b3 :: l4). simpl. by rewrite E1, E2, E3, E4.
Qed.

Lemma utf8_valid_chars l :
  utf8_valid l = true <-> exists cs, l = concat cs /\ Forall (fun c => is_char c = true) cs.
Proof.
  unfold utf8_valid, from_utf8. split.
  - intros H. destruct (utf8_prefix_split l) as (cs & rest & -> & Hcs & Hp).
    exists cs. split; [|done]. rewrite Hp, len_app in H.
    destruct (Z.eqb_spec (len (concat cs)) (len (concat cs) + len rest)) as [E|]; [|done].
    assert (rest = []) as -> by (destruct rest; [done|rewrite len_cons in E; pose proof (len_nonneg rest); lia]).
    by rewrite app_nil_r.
  - intros (cs & -> & Hcs).
    pose proof (utf8_prefix_concat cs [] Hcs) as E. rewrite app_nil_r in E. simpl in E.
    rewrite E, Z.add_0_r, Z.eqb_refl. done.
Qed.

Lemma utf8_valid_app l k : utf8_valid l = true -> utf8_valid k = true -> utf8_valid (l ++ k) = true.
Proof.
  rewrite !utf8_valid_chars. intros (cs & -> & Hcs) (ds & -> & Hds).
  exists (cs ++ ds). split; [by rewrite concat_app|by apply Forall_app].
Qed.

Lemma chars_boundary cs n :
  Forall (fun c => is_char c = true) cs -> (n <= length (concat cs))%nat ->
  is_char_boundary (concat cs) (Z.of_nat n) = true ->
  exists ds, take n (concat cs) = concat ds /\ Forall (fun c => is_char c = true) ds.
Proof.
  intros Hcs. revert n. induction Hcs as [|c cs Hc Hcs IH]; intros n Hn Hb.
  - exists []. cbn [concat]. by rewrite take_nil.
  - destruct (char_nonempty c Hc) as (b0 & tl & E).
    destruct (decide (n = 0)%nat) as [->|Hn0]; [by exists []|].
    cbn [concat] in *. rewrite length_app in Hn.
    destruct (decide (n < length c)%nat) as [Hlt|Hge].
    + exfalso. unfold is_char_boundary in Hb.
      destruct (Z.eqb_spec (Z.of_nat n) 0); [lia|].
      destruct (Z.eqb_spec (Z.of_nat n) (len (c ++ concat cs))) as [E'|]; [rewrite len_app in E'; unfold len in E'; lia|].
      rewrite Nat2Z.id, lookup_app_l in Hb by done.
      destruct n as [|n]; [lia|]. rewrite E in Hb, Hlt. simpl in Hb, Hlt.
      destruct (lookup_lt_is_Some_2 tl n) as [b Hlb]; [lia|]. rewrite Hlb in Hb.
      pose proof (char_tail _ _ _ E Hc) as Ht. rewrite Forall_lookup in Ht. rewrite (Ht _ _ Hlb) in Hb. done.
    + destruct (IH (n - length c)%nat) as (ds & Eds & Hds); [lia| |].
      * unfold is_char_boundary in *.
        destruct (Z.eqb_spec (Z.of_nat (n - length c)) 0); [done|].
        destruct (Z.eqb_spec (Z.of_nat n) 0); [lia|].
        destruct (Z.eqb_spec (Z.of_nat (n - length c)) (len (concat cs))); [done|].
        destruct (Z.eqb_spec (Z.of_nat n) (len (c ++ concat cs))) as [E'|];
          [rewrite len_app in E'; unfold len in *; lia|].
        rewrite Nat2Z.id in *. by rewrite lookup_app_r in Hb by lia.
      * exists (c :: ds). cbn [concat]. split; [|by constructor].
        rewrite take_app_ge by lia. by rewrite Eds.
Qed.

(** Cutting a valid string at a character boundary leaves a valid string. *)
Lemma utf8_valid_cut s n :
  utf8_valid s = true -> (n <= length s)%nat -> is_char_boundary s (Z.of_nat n) = true ->
  utf8_valid (take n s) = true.
Proof.
  intros (cs & -> & Hcs)%utf8_valid_chars Hn Hb. apply utf8_valid_chars.
  destruct (chars_boundary cs n Hcs Hn Hb) as (ds & -> & Hds). eauto.
Qed.
