(* ===== verification/Ordered.v ===== *)
(** * Ordered collections

    [Ord] with its derived instances, and the standard library's [BTreeSet] and
    [BTreeMap]: a set is the sorted list of its elements and a map the list of its
    entries sorted by key, as they iterate. *)

From S2P Require Import Prelude.

(** ** Derived orders *)

(** [Ord]: a total order as a three-way comparison. *)
Class Ord (A : Type) := {
  cmp : A -> A -> comparison;
  cmp_eq x y : cmp x y = Eq <-> x = y;
  cmp_flip x y : cmp y x = CompOpp (cmp x y);
  cmp_trans x y z : cmp x y = Lt -> cmp y z = Lt -> cmp x z = Lt;
}.

#[export] Instance ord_Z : Ord Z.
Proof. refine {| cmp := Z.compare |}; [apply Z.compare_eq_iff|intros; apply Z.compare_antisym|intros x y z; rewrite !Z.compare_lt_iff; lia]. Defined.

Definition cmp_then (c d : comparison) : comparison := match c with Eq => d | _ => c end.

#[export] Instance ord_prod {A B} `{!Ord A, !Ord B} : Ord (A * B).
Proof.
  refine {| cmp p q := cmp_then (cmp p.1 q.1) (cmp p.2 q.2) |}.
  - intros [a b] [c d]. cbn. destruct (cmp a c) eqn:H; cbn; [apply cmp_eq in H as ->|..].
    + rewrite cmp_eq. naive_solver.
    + split; [done|]. intros [= -> ->]. by rewrite (proj2 (cmp_eq _ _) eq_refl) in H.
    + split; [done|]. intros [= -> ->]. by rewrite (proj2 (cmp_eq _ _) eq_refl) in H.
  - intros [a b] [c d]. cbn. rewrite (cmp_flip a c), (cmp_flip b d). by destruct (cmp a c).
  - intros [a b] [c d] [e f]. cbn. destruct (cmp a c) eqn:H1, (cmp c e) eqn:H2; try done; cbn; intros H3 H4;
      try (apply cmp_eq in H1 as ->); try (apply cmp_eq in H2 as ->).
    + rewrite (proj2 (cmp_eq e e) eq_refl). cbn. by eapply cmp_trans.
    + by rewrite H2.
    + by rewrite H1.
    + by rewrite (cmp_trans _ _ _ H1 H2).
Defined.

#[export] Instance ord_option {A} `{!Ord A} : Ord (option A).
Proof.
  refine {| cmp p q := match p, q with None, None => Eq | None, Some _ => Lt | Some _, None => Gt | Some a, Some b => cmp a b end |}.
  - intros [a|] [b|]; try done. rewrite cmp_eq. naive_solver.
  - intros [a|] [b|]; try done. apply cmp_flip.
  - intros [a|] [b|] [c|]; try done. apply cmp_trans.
Defined.

Fixpoint cmp_list {A} `{!Ord A} (p q : list A) : comparison :=
  match p, q with
  | [], [] => Eq
  | [], _ => Lt
  | _, [] => Gt
  | a :: p, b :: q => cmp_then (cmp a b) (cmp_list p q)
  end.

#[export] Instance ord_list {A} `{!Ord A} : Ord (list A).
Proof.
  assert (forall x : A, cmp x x = Eq) as Hrefl by (intros; by apply cmp_eq).
  refine {| cmp := cmp_list |}.
  - induction x as [|a p IH]; intros [|b q]; try done. cbn. destruct (cmp a b) eqn:H; cbn.
    + apply cmp_eq in H as ->. rewrite IH. naive_solver.
    + split; [done|]. intros [= -> ->]. by rewrite Hrefl in H.
    + split; [done|]. intros [= -> ->]. by rewrite Hrefl in H.
  - induction x as [|a p IH]; intros [|b q]; try done. cbn. rewrite (cmp_flip a b), IH. by destruct (cmp a b).
  - induction x as [|a p IH]; intros [|b q] [|c r]; try done. cbn. destruct (cmp a b) eqn:H1, (cmp b c) eqn:H2; try done; cbn; intros H3 H4;
      try (apply cmp_eq in H1 as ->); try (apply cmp_eq in H2 as ->).
    + rewrite Hrefl. cbn. by eapply IH.
    + by rewrite H2.
    + by rewrite H1.
    + by rewrite (cmp_trans _ _ _ H1 H2).
Defined.

(** A derived order compares the fields in turn. *)
Definition ord_of {A B} `{!Ord B} (f : A -> B) (Hf : forall x y, f x = f y -> x = y) : Ord A.
Proof.
  refine {| cmp x y := cmp (f x) (f y) |}.
  - intros. rewrite cmp_eq. naive_solver.
  - intros. apply cmp_flip.
  - intros. by eapply cmp_trans.
Defined.

#[export] Instance ord_byte : Ord byte.
Proof. apply (ord_of byte.unsigned). intros x y H. by rewrite <- (byte.of_Z_unsigned x), <- (byte.of_Z_unsigned y), H. Defined.

#[export] Instance ord_nonzero max : Ord (NonZero max).
Proof. apply (ord_of nz_get). intros. by apply nz_get_inj. Defined.

(** ** Ordered sets and maps *)

Section ordered.
Context {A : Type} `{!Ord A}.

(** [BTreeSet::insert] and [BTreeSet::remove], with what they return. *)
Fixpoint set_insert (x : A) (l : list A) : bool * list A :=
  match l with
  | [] => (true, [x])
  | y :: l' =>
      match cmp x y with
      | Lt => (true, x :: y :: l')
      | Eq => (false, l)
      | Gt => let '(b, r) := set_insert x l' in (b, y :: r)
      end
  end.

Fixpoint set_remove (x : A) (l : list A) : bool * list A :=
  match l with
  | [] => (false, [])
  | y :: l' =>
      match cmp x y with
      | Lt => (false, l)
      | Eq => (true, l')
      | Gt => let '(b, r) := set_remove x l' in (b, y :: r)
      end
  end.

(** [BTreeMap::entry(k).or_default().push(v)] and [BTreeMap::get]. *)
Fixpoint entry_push {V} (k : A) (v : V) (m : list (A * list V)) : list (A * list V) :=
  match m with
  | [] => [(k, [v])]
  | (k', vs) :: m' =>
      match cmp k k' with
      | Lt => (k, [v]) :: m
      | Eq => (k', vs ++ [v]) :: m'
      | Gt => (k', vs) :: entry_push k v m'
      end
  end.

Fixpoint get {V} (k : A) (m : list (A * V)) : option V :=
  match m with
  | [] => None
  | (k', v) :: m => match cmp k k' with Eq => Some v | _ => get k m end
  end.

(** [let latest = map.entry(k).or_insert(v); *latest = ( *latest).max(v)]. *)
Fixpoint entry_max (k : A) (v : Z) (m : list (A * Z)) : list (A * Z) :=
  match m with
  | [] => [(k, v)]
  | (k', w) :: m' =>
      match cmp k k' with
      | Lt => (k, v) :: m
      | Eq => (k', Z.max w v) :: m'
      | Gt => (k', w) :: entry_max k v m'
      end
  end.

Definition contains (x : A) (l : list A) : bool := existsb (fun y => match cmp x y with Eq => true | _ => false end) l.

(** What iterates in order: each element before all later ones. *)
Fixpoint sorted (l : list A) : Prop :=
  match l with [] => True | x :: l => (forall y, y ∈ l -> cmp x y = Lt) /\ sorted l end.

Lemma cmp_refl (x : A) : cmp x x = Eq.
Proof. by apply cmp_eq. Qed.

Lemma cmp_gt (x y : A) : cmp x y = Gt <-> cmp y x = Lt.
Proof. rewrite (cmp_flip x y). by destruct (cmp x y). Qed.

Lemma contains_spec x l : contains x l = true <-> x ∈ l.
Proof.
  unfold contains. rewrite existsb_exists. setoid_rewrite <- list_elem_of_In. split.
  - intros (y & Hy & Hc). destruct (cmp x y) eqn:E; [|done..]. by apply cmp_eq in E as ->.
  - intros Hx. exists x. by rewrite cmp_refl.
Qed.

(** Membership in a sorted list. *)
Ltac mem := repeat (setoid_rewrite elem_of_cons || setoid_rewrite elem_of_nil); naive_solver.

Lemma set_insert_spec x l b r :
  sorted l -> set_insert x l = (b, r) -> sorted r /\ (b = true <-> x ∉ l) /\ (forall y, y ∈ r <-> y = x \/ y ∈ l).
Proof.
  revert b r. induction l as [|y l IH]; intros b r; cbn [set_insert sorted].
  - intros _ [= <- <-]. cbn. mem.
  - intros [Hy Hs]. destruct (cmp x y) eqn:Hc.
    + apply cmp_eq in Hc as ->. intros [= <- <-]. mem.
    + intros [= <- <-]. assert (x ∉ y :: l) as Hn.
      { intros [->|Hx]%elem_of_cons; [by rewrite cmp_refl in Hc|]. apply Hy in Hx. rewrite (cmp_flip x y), Hc in Hx. done. }
      split_and!; [|done|mem]. cbn. split; [|done]. intros z [->|Hz]%elem_of_cons; [done|]. eapply cmp_trans; [done|by apply Hy].
    + destruct (set_insert x l) as [b' r'] eqn:Hi. intros [= <- <-]. destruct (IH b' r' Hs eq_refl) as (Hr & Hb & Hin).
      split_and!; [|rewrite Hb, elem_of_cons; split; [|tauto]; intros Hx [->|?]; [by rewrite cmp_refl in Hc|done]|intros z; rewrite !elem_of_cons, Hin; tauto].
      cbn. split; [|done]. intros z [->|Hz]%Hin; [by apply cmp_gt|by apply Hy].
Qed.

Lemma set_remove_spec x l b r :
  sorted l -> set_remove x l = (b, r) -> sorted r /\ (b = true <-> x ∈ l) /\ (forall y, y ∈ r <-> y <> x /\ y ∈ l).
Proof.
  revert b r. induction l as [|y l IH]; intros b r; cbn [set_remove sorted].
  - intros _ [= <- <-]. cbn. mem.
  - intros [Hy Hs]. assert (y ∉ l) as Hyl by (intros H%Hy; by rewrite cmp_refl in H). destruct (cmp x y) eqn:Hc.
    + apply cmp_eq in Hc as ->. intros [= <- <-]. mem.
    + intros [= <- <-]. assert (x ∉ y :: l) as Hn.
      { intros [->|Hx]%elem_of_cons; [by rewrite cmp_refl in Hc|]. apply Hy in Hx. rewrite (cmp_flip x y), Hc in Hx. done. }
      split_and!; [done|by split; [|intros ?%Hn]|]. intros z. split; [|tauto]. intros Hz. split; [by intros ->|done].
    + destruct (set_remove x l) as [b' r'] eqn:Hi. intros [= <- <-]. destruct (IH b' r' Hs eq_refl) as (Hr & Hb & Hin).
      assert (x <> y) as Hne by (intros ->; by rewrite cmp_refl in Hc).
      split_and!; [|rewrite Hb, elem_of_cons; naive_solver|intros z; rewrite !elem_of_cons, Hin; naive_solver].
      cbn. split; [|done]. intros z [_ Hz]%Hin. by apply Hy.
Qed.

Lemma get_Some {V} (k : A) (v : V) m : sorted m.*1 -> get k m = Some v <-> (k, v) ∈ m.
Proof.
  induction m as [|[k' w] m IH]; cbn; [intros _; rewrite elem_of_nil; done|]. intros [Hk Hs]. rewrite elem_of_cons. destruct (cmp k k') eqn:Hc.
  - apply cmp_eq in Hc as ->. split; [intros [= ->]; by left|]. intros [[= ->]|Hin]; [done|].
    specialize (Hk k' (list_elem_of_fmap_2 fst _ _ Hin)). by rewrite cmp_refl in Hk.
  - rewrite (IH Hs). split; [by right|]. intros [[= -> ->]|?]; [by rewrite cmp_refl in Hc|done].
  - rewrite (IH Hs). split; [by right|]. intros [[= -> ->]|?]; [by rewrite cmp_refl in Hc|done].
Qed.

Lemma entry_push_keys {V} (k : A) (v : V) m :
  sorted m.*1 -> sorted (entry_push k v m).*1 /\ (forall y, y ∈ (entry_push k v m).*1 <-> y = k \/ y ∈ m.*1).
Proof.
  induction m as [|[k' vs] m IH]; cbn.
  { intros _. split; [split; [by intros y ?%elem_of_nil|done]|]. intros y. rewrite elem_of_cons. tauto. }
  intros [Hk Hs]. destruct (cmp k k') eqn:Hc; cbn.
  - apply cmp_eq in Hc as ->. split; [done|]. intros y. rewrite elem_of_cons. tauto.
  - split; [|intros y; rewrite !elem_of_cons; tauto]. split; [|done].
    intros z [->|Hz]%elem_of_cons; [done|]. eapply cmp_trans; [done|by apply Hk].
  - destruct (IH Hs) as [Hs' Hin]. split; [|intros y; rewrite !elem_of_cons, Hin; tauto]. split; [|done].
    intros z [->|Hz]%Hin; [by apply cmp_gt|by apply Hk].
Qed.

Lemma get_push {V} (k k' : A) (v : V) m :
  sorted m.*1 -> get k' (entry_push k v m) = match cmp k' k with Eq => Some (default [] (get k m) ++ [v]) | _ => get k' m end.
Proof.
  induction m as [|[k1 vs] m IH]; cbn; [done|]. intros [Hk Hs]. specialize (IH Hs).
  destruct (cmp k k1) eqn:Hc; cbn; [apply cmp_eq in Hc as ->; by destruct (cmp k' k1)| |].
  - rewrite (cmp_flip k k'). destruct (cmp k k') eqn:Hk'; cbn; [|done..]. apply cmp_eq in Hk' as <-. f_equal.
    destruct (get k m) as [w|] eqn:Hg; [|done]. apply get_Some in Hg; [|done]. specialize (Hk k (list_elem_of_fmap_2 fst _ _ Hg)).
    by rewrite (cmp_flip k k1), Hc in Hk.
  - destruct (cmp k' k1) eqn:Hk1; [|done..]. apply cmp_eq in Hk1 as ->. by rewrite (cmp_flip k k1), Hc.
Qed.
Lemma entry_max_keys k v m :
  sorted m.*1 -> sorted (entry_max k v m).*1 /\ (forall y, y ∈ (entry_max k v m).*1 <-> y = k \/ y ∈ m.*1).
Proof.
  induction m as [|[k' w] m IH]; cbn.
  { intros _. split; [split; [by intros y ?%elem_of_nil|done]|]. intros y. rewrite elem_of_cons. tauto. }
  intros [Hk Hs]. destruct (cmp k k') eqn:Hc; cbn.
  - apply cmp_eq in Hc as ->. split; [done|]. intros y. rewrite elem_of_cons. tauto.
  - split; [|intros y; rewrite !elem_of_cons; tauto]. split; [|done].
    intros z [->|Hz]%elem_of_cons; [done|]. eapply cmp_trans; [done|by apply Hk].
  - destruct (IH Hs) as [Hs' Hin]. split; [|intros y; rewrite !elem_of_cons, Hin; tauto]. split; [|done].
    intros z [->|Hz]%Hin; [by apply cmp_gt|by apply Hk].
Qed.

Lemma get_max (k k' : A) v m :
  sorted m.*1 -> get k' (entry_max k v m) = match cmp k' k with Eq => Some (from_option (fun w => Z.max w v) v (get k m)) | _ => get k' m end.
Proof.
  induction m as [|[k1 w] m IH]; cbn; [done|]. intros [Hk Hs]. specialize (IH Hs).
  destruct (cmp k k1) eqn:Hc; cbn; [apply cmp_eq in Hc as ->; by destruct (cmp k' k1)| |].
  - rewrite (cmp_flip k k'). destruct (cmp k k') eqn:Hk'; cbn; [|done..]. apply cmp_eq in Hk' as <-. f_equal.
    destruct (get k m) as [u|] eqn:Hg; [|done]. apply get_Some in Hg; [|done]. specialize (Hk k (list_elem_of_fmap_2 fst _ _ Hg)).
    by rewrite (cmp_flip k k1), Hc in Hk.
  - destruct (cmp k' k1) eqn:Hk1; [|done..]. apply cmp_eq in Hk1 as ->. by rewrite (cmp_flip k k1), Hc.
Qed.

Lemma get_None {V} (k : A) (m : list (A * V)) : get k m = None <-> k ∉ m.*1.
Proof.
  induction m as [|[k' w] m IH]; cbn; [split; [by intros _ ?%elem_of_nil|done]|]. rewrite not_elem_of_cons. destruct (cmp k k') eqn:Hc.
  - apply cmp_eq in Hc as ->. split; [done|]. naive_solver.
  - rewrite IH. split; [|naive_solver]. split; [intros ->; by rewrite cmp_refl in Hc|done].
  - rewrite IH. split; [|naive_solver]. split; [intros ->; by rewrite cmp_refl in Hc|done].
Qed.
End ordered.
