(* ===== verification/Version.v ===== *)
(** * Event versions (crates/mnesis/src/version.rs)

    [Version] is a [NonZeroU64] stream position.  [run] validates a whole run of
    consecutive versions up front; [VersionRun] is the iterator it returns. *)

From S2P Require Import Prelude.

Record Version : Type := MkVersion { version_nz : NonZero u64_max }.

#[export] Instance version_eq_dec : EqDecision Version.
Proof. solve_decision. Defined.

Definition as_u64 (v : Version) : Z := nz_get (version_nz v).

Definition INITIAL : Version := MkVersion (MkNonZero (max := u64_max) 1 eq_refl).

Definition next (v : Version) : option Version :=
  match nz_checked_add (version_nz v) 1 with
  | Some n => Some (MkVersion n)
  | None => None
  end.

Definition new (v : Z) : option Version :=
  match nz_new v with
  | Some n => Some (MkVersion n)
  | None => None
  end.

(** The order derived on [Version] and on [Option<Version>] ([None] first). *)
Definition version_leb (a b : Version) : bool := as_u64 a <=? as_u64 b.
Definition option_version_leb (a b : option Version) : bool :=
  match a, b with
  | None, _ => true
  | Some _, None => false
  | Some x, Some y => version_leb x y
  end.

Record VersionRun : Type := MkVersionRun { vr_next : Version; vr_remaining : Z }.

Definition run (start : Version) (length : Z) : option VersionRun :=
  match checked_sub length 1 with
  | None => Some (MkVersionRun start 0)
  | Some last_index =>
      match try_from u64_max last_index with
      | None => None
      | Some last_offset =>
          match checked_add u64_max (as_u64 start) last_offset with
          | None => None
          | Some last_raw =>
              match new last_raw with
              | None => None
              | Some _ => Some (MkVersionRun start length)
              end
          end
      end
  end.

(** [Iterator::next] of [VersionRun]: the item and the advanced iterator. *)
Definition run_next (r : VersionRun) : option Version * VersionRun :=
  match checked_sub (vr_remaining r) 1 with
  | None => (None, r)
  | Some remaining =>
      let advanced :=
        if 0 <? remaining
        then match next (vr_next r) with
             | Some n => n
             | None => vr_next r
             end
        else vr_next r in
      (Some (vr_next r), MkVersionRun advanced remaining)
  end.

(** Drain the iterator; [fuel] bounds the number of polls. *)
Fixpoint run_collect (fuel : nat) (r : VersionRun) : list Version :=
  match fuel with
  | O => []
  | S fuel =>
      match run_next r with
      | (None, _) => []
      | (Some v, r') => v :: run_collect fuel r'
      end
  end.

Record VersionedEvent (E : Type) : Type := MkVersionedEvent { ve_version : Version; ve_event : E }.
Arguments MkVersionedEvent {E} _ _.
Arguments ve_version {E} _.
Arguments ve_event {E} _.

(** [VersionedEvent::into_parts]. *)
Definition into_parts {E} (v : VersionedEvent E) : Version * E := (ve_version v, ve_event v).

(** ** Basic facts *)

Lemma version_range v : 1 <= as_u64 v <= u64_max.
Proof. apply nz_range. Qed.

Lemma as_u64_inj a b : as_u64 a = as_u64 b -> a = b.
Proof. destruct a, b; unfold as_u64; simpl. intros ?%nz_get_inj. by subst. Qed.

Lemma new_Some z v : new z = Some v <-> z = as_u64 v.
Proof.
  unfold new, as_u64. destruct v as [n]. simpl. rewrite <- nz_new_Some.
  destruct (nz_new z); naive_solver.
Qed.

Lemma new_None z : new z = None <-> ~ (1 <= z <= u64_max).
Proof. unfold new. rewrite <- nz_new_None. destruct (nz_new z); naive_solver. Qed.

Lemma new_as_u64 v : new (as_u64 v) = Some v.
Proof. by apply new_Some. Qed.

Lemma new_in_range z : 1 <= z <= u64_max -> exists v, new z = Some v /\ as_u64 v = z.
Proof.
  intros H. destruct (new z) as [v|] eqn:E; [|by apply new_None in E].
  exists v. split; [done|]. by apply new_Some in E.
Qed.

Lemma next_new v : next v = new (as_u64 v + 1).
Proof. done. Qed.

Lemma next_Some v w : next v = Some w <-> as_u64 w = as_u64 v + 1.
Proof. rewrite next_new, new_Some. naive_solver. Qed.

Lemma next_None v : next v = None <-> as_u64 v = u64_max.
Proof. rewrite next_new, new_None. pose proof (version_range v). lia. Qed.

Lemma as_u64_INITIAL : as_u64 INITIAL = 1.
Proof. done. Qed.

(** A run of consecutive versions, as a specification: [vs] is
    [start, start + 1, ...]. *)
Fixpoint consecutive (start : Z) (vs : list Version) : Prop :=
  match vs with
  | [] => True
  | v :: vs => as_u64 v = start /\ consecutive (start + 1) vs
  end.

Lemma consecutive_lookup start vs i v :
  consecutive start vs -> vs !! i = Some v -> as_u64 v = start + Z.of_nat i.
Proof.
  revert start i. induction vs as [|w vs IH]; intros start i Hc Hl; [done|].
  destruct Hc as [Hw Hc]. destruct i as [|i]; simpl in Hl; [simplify_eq; lia|].
  rewrite (IH _ i Hc Hl). lia.
Qed.

Lemma consecutive_last start vs v : consecutive start vs -> last vs = Some v -> as_u64 v = start + len vs - 1.
Proof.
  intros Hc Hl. rewrite last_lookup in Hl. pose proof (lookup_lt_Some _ _ _ Hl).
  rewrite (consecutive_lookup _ _ _ _ Hc Hl). unfold len. lia.
Qed.

Lemma consecutive_app start vs ws :
  consecutive start (vs ++ ws) <-> consecutive start vs /\ consecutive (start + len vs) ws.
Proof.
  revert start. induction vs as [|v vs IH]; intros start; simpl.
  - rewrite len_nil, Z.add_0_r. tauto.
  - rewrite IH, len_cons. replace (start + 1 + len vs) with (start + (1 + len vs)) by lia. tauto.
Qed.

Lemma consecutive_drop start vs n : consecutive start vs -> consecutive (start + Z.of_nat n) (drop n vs).
Proof.
  revert start n. induction vs as [|v vs IH]; intros start [|n] Hc; simpl; try done; [by rewrite Z.add_0_r|].
  destruct Hc as [_ Hc]. replace (start + Z.of_nat (S n)) with (start + 1 + Z.of_nat n) by lia. by apply IH.
Qed.

Lemma run_collect_spec n r :
  vr_remaining r = Z.of_nat n -> as_u64 (vr_next r) + Z.of_nat n - 1 <= u64_max ->
  forall fuel, (n <= fuel)%nat ->
  length (run_collect fuel r) = n /\ consecutive (as_u64 (vr_next r)) (run_collect fuel r).
Proof.
  revert r. induction n as [|n IH]; intros r Hr Hb fuel Hf.
  - destruct fuel as [|fuel]; simpl; [done|]. unfold run_next.
    rewrite Hr. done.
  - destruct fuel as [|fuel]; [lia|]. simpl. unfold run_next.
    destruct (checked_sub (vr_remaining r) 1) as [rem|] eqn:Hs;
      [|unfold checked_sub in Hs; destruct (Z.leb_spec 1 (vr_remaining r)); [done|lia]].
    apply checked_sub_Some in Hs as [-> Hle]. simpl.
    set (r' := MkVersionRun _ _).
    destruct n as [|n].
    + destruct fuel; simpl; [done|]. unfold run_next. subst r'. simpl.
      rewrite Hr. done.
    + destruct (next (vr_next r)) as [w|] eqn:Hw;
        [|apply next_None in Hw; lia].
      apply next_Some in Hw.
      assert (as_u64 (vr_next r') = as_u64 (vr_next r) + 1) as Hn.
      { subst r'. simpl. destruct (Z.ltb_spec 0 (vr_remaining r - 1)); [done|lia]. }
      destruct (IH r') with (fuel := fuel) as [Hl Hc]; [subst r'; simpl; lia|lia|lia|].
      rewrite Hl. split; [done|]. split; [done|]. by rewrite Hn in Hc.
Qed.

(** [Version::run] accepts a run exactly when its last version fits in a
    [u64], and an accepted run yields exactly [length] consecutive versions
    starting at [start], however often the iterator is polled beyond its end. *)
Theorem run_exact start n :
  match run start (Z.of_nat n) with
  | Some r =>
      as_u64 start + Z.of_nat n - 1 <= u64_max \/ n = O
  | None => u64_max < as_u64 start + Z.of_nat n - 1
  end /\
  forall r fuel, run start (Z.of_nat n) = Some r -> (n <= fuel)%nat ->
    length (run_collect fuel r) = n /\ consecutive (as_u64 start) (run_collect fuel r).
Proof.
  pose proof (version_range start) as Hs.
  unfold run. destruct (checked_sub (Z.of_nat n) 1) as [li|] eqn:Hc.
  - apply checked_sub_Some in Hc as [-> Hn].
    destruct (try_from u64_max (Z.of_nat n - 1)) as [off|] eqn:Ht.
    + apply try_from_Some in Ht as [-> Hr].
      destruct (checked_add u64_max (as_u64 start) (Z.of_nat n - 1)) as [lr|] eqn:Ha.
      * apply checked_add_Some in Ha as [-> Hle].
        destruct (new_in_range (as_u64 start + (Z.of_nat n - 1))) as (w & -> & _); [lia|].
        split; [left; lia|]. intros r fuel [= <-] Hf.
        apply (run_collect_spec n (MkVersionRun start (Z.of_nat n))); simpl; [done|lia|done].
      * apply checked_add_None in Ha. split; [lia|done].
    + apply try_from_None in Ht. split; [lia|done].
  - assert (n = O) as -> by (unfold checked_sub in Hc; destruct (Z.leb_spec 1 (Z.of_nat n)); [done|lia]).
    split; [by right|]. intros r fuel [= <-] _.
    apply (run_collect_spec 0 (MkVersionRun start 0)); simpl; [done|lia|lia].
Qed.
