(* ===== verification/ErrorId.v ===== *)
(** * Bounded diagnostic labels (crates/mnesis/src/error_id.rs)

    [from_display] fills an [ArrayString<N>] from the [write_str] chunks a
    [Display] implementation emits and marks a truncated label with an ellipsis.
    [arrayvec::ArrayString] is third-party code: its two operations are the
    fields of [ArrayString], with their documented behaviour as laws. *)

From S2P Require Import Prelude Utf8.

Class ArrayString := {
  (** [ArrayString::<N>::try_push_str]; [None] is the [CapacityError], which
      leaves the buffer as it was. *)
  try_push_str : Z -> bytes -> bytes -> option bytes;
  (** [ArrayString::truncate] at a character boundary. *)
  truncate : bytes -> Z -> bytes;
  try_push_str_fits : forall cap buf s,
    len buf + len s <= cap -> try_push_str cap buf s = Some (buf ++ s);
  try_push_str_full : forall cap buf s,
    cap < len buf + len s -> try_push_str cap buf s = None;
  truncate_spec : forall buf n,
    0 <= n <= len buf -> is_char_boundary buf n = true -> truncate buf n = take (Z.to_nat n) buf;
}.

Section with_array_string.
Context {AS : ArrayString}.

Definition DEFAULT_ERROR_ID_CAP : Z := 64.

(** U+2026 in UTF-8. *)
Definition ELLIPSIS : bytes := [byte.of_Z 226; byte.of_Z 128; byte.of_Z 166].

(** The [while] loop of [truncate_at_char_boundary], from [pos] down. *)
Fixpoint boundary_loop (s : bytes) (pos : nat) : nat :=
  match pos with
  | O => O
  | S below => if is_char_boundary s (Z.of_nat pos) then pos else boundary_loop s below
  end.

Definition truncate_at_char_boundary (s : bytes) (limit : Z) : Z :=
  if len s <=? limit then len s else Z.of_nat (boundary_loop s (Z.to_nat limit)).

(** [buf.try_push_str(s).ok()]. *)
Definition push_ignoring (cap : Z) (buf s : bytes) : bytes :=
  match try_push_str cap buf s with
  | Some buf' => buf'
  | None => buf
  end.

Record Filler : Type := MkFiller { f_buf : bytes; f_truncated : bool }.

Definition filler_new : Filler := MkFiller [] false.

(** [Filler::write_str]. *)
Definition write_str (N : Z) (f : Filler) (s : bytes) : Filler :=
  if f_truncated f then f
  else
    let remaining := N - len (f_buf f) in
    if len s <=? remaining then MkFiller (push_ignoring N (f_buf f) s) false
    else
      let stop := truncate_at_char_boundary s remaining in
      MkFiller (push_ignoring N (f_buf f) (slice s 0 stop)) true.

Definition append_ellipsis (N : Z) (buf : bytes) : bytes :=
  if N <? len ELLIPSIS then buf
  else
    let target := N - len ELLIPSIS in
    let cut := truncate_at_char_boundary buf target in
    push_ignoring N (truncate buf cut) ELLIPSIS.

Definition finish (N : Z) (f : Filler) : bytes :=
  if f_truncated f then append_ellipsis N (f_buf f) else f_buf f.

(** [ErrorId::<N>::from_display] of a value whose [Display] writes [chunks]. *)
Definition from_display (N : Z) (chunks : list bytes) : bytes :=
  finish N (fold_left (write_str N) chunks filler_new).

(** ** Lemmas *)

Lemma boundary_loop_le s pos : (boundary_loop s pos <= pos)%nat.
Proof. induction pos as [|pos IH]; simpl; [done|]. destruct (is_char_boundary _ _); lia. Qed.

Lemma boundary_loop_boundary s pos : is_char_boundary s (Z.of_nat (boundary_loop s pos)) = true.
Proof.
  induction pos as [|pos IH]; [done|]. cbn [boundary_loop].
  by destruct (is_char_boundary s (Z.of_nat (S pos))) eqn:E.
Qed.

Lemma truncate_at_spec s limit :
  0 <= limit ->
  0 <= truncate_at_char_boundary s limit <= Z.min limit (len s)
  /\ is_char_boundary s (truncate_at_char_boundary s limit) = true.
Proof.
  intros Hl. unfold truncate_at_char_boundary.
  destruct (Z.leb_spec (len s) limit) as [Hle|Hgt].
  - pose proof (len_nonneg s). split; [lia|]. unfold is_char_boundary.
    rewrite Z.eqb_refl. by destruct (_ =? 0).
  - pose proof (boundary_loop_le s (Z.to_nat limit)). split; [lia|].
    apply boundary_loop_boundary.
Qed.

Lemma slice_from_zero {A} (s : list A) stop : slice s 0 stop = take (Z.to_nat stop) s.
Proof. unfold slice. by rewrite Z.sub_0_r, drop_0. Qed.

Lemma len_take {A} (s : list A) n : 0 <= n <= len s -> len (take (Z.to_nat n) s) = n.
Proof. unfold len. intros. rewrite length_take. lia. Qed.

Lemma cut_valid s n :
  utf8_valid s = true -> 0 <= n <= len s -> is_char_boundary s n = true ->
  utf8_valid (take (Z.to_nat n) s) = true.
Proof.
  intros Hv Hn Hb. apply utf8_valid_cut; [done|unfold len in Hn; lia|]. by rewrite Z2Nat.id by lia.
Qed.

(** What the filler has accumulated after some chunks. *)
Record filler_ok (N : Z) (written : bytes) (f : Filler) : Prop := {
  fo_len : len (f_buf f) <= N;
  fo_valid : utf8_valid (f_buf f) = true;
  fo_prefix : f_buf f `prefix_of` written;
  fo_trunc : if f_truncated f then N < len written else f_buf f = written;
}.

Lemma write_str_ok N written f s :
  utf8_valid s = true -> filler_ok N written f -> filler_ok N (written ++ s) (write_str N f s).
Proof.
  intros Hs [Hl Hv Hp Ht]. unfold write_str. destruct (f_truncated f) eqn:Ef.
  - constructor; [done|done|by apply prefix_app_r|]. rewrite Ef. len_solve.
    pose proof (len_nonneg s). lia.
  - destruct (Z.leb_spec (len s) (N - len (f_buf f))) as [Hfit|Hover].
    + unfold push_ignoring. rewrite try_push_str_fits by lia.
      constructor; simpl; [len_solve|by apply utf8_valid_app| |by rewrite Ht].
      by rewrite Ht.
    + destruct (truncate_at_spec s (N - len (f_buf f))) as [Hr Hb]; [lia|].
      set (stop := truncate_at_char_boundary _ _) in *.
      rewrite slice_from_zero. unfold push_ignoring.
      rewrite try_push_str_fits by (rewrite len_take by lia; lia).
      constructor; simpl.
      * rewrite len_app, len_take by lia. lia.
      * apply utf8_valid_app; [done|]. apply cut_valid; [done|lia|done].
      * rewrite Ht. apply prefix_app. apply prefix_take.
      * rewrite len_app, <- Ht. lia.
Qed.

Lemma filler_fold_ok N chunks written f :
  Forall (fun s => utf8_valid s = true) chunks -> filler_ok N written f ->
  filler_ok N (written ++ concat chunks) (fold_left (write_str N) chunks f).
Proof.
  intros Hc. revert written f. induction Hc as [|s chunks Hs _ IH]; intros written f Hf.
  - cbn [concat fold_left]. by rewrite app_nil_r.
  - cbn [concat fold_left]. rewrite app_assoc. apply IH. by apply write_str_ok.
Qed.

Lemma ELLIPSIS_valid : utf8_valid ELLIPSIS = true.
Proof. reflexivity. Qed.

Lemma append_ellipsis_spec N buf :
  3 <= N -> utf8_valid buf = true ->
  exists cut, append_ellipsis N buf = take cut buf ++ ELLIPSIS
    /\ (cut <= length buf)%nat /\ utf8_valid (take cut buf) = true
    /\ len (take cut buf) <= N - 3.
Proof.
  intros HN Hv. unfold append_ellipsis. change (len ELLIPSIS) with 3.
  destruct (Z.ltb_spec N 3); [lia|].
  destruct (truncate_at_spec buf (N - 3)) as [Hr Hb]; [lia|].
  set (cut := truncate_at_char_boundary buf (N - 3)) in *.
  exists (Z.to_nat cut). rewrite truncate_spec by (done || lia).
  unfold push_ignoring. rewrite try_push_str_fits by (rewrite len_take by lia; change (len ELLIPSIS) with 3; lia).
  split; [done|]. split; [unfold len in Hr; lia|].
  split; [apply cut_valid; [done|lia|done]|]. rewrite len_take; lia.
Qed.

Lemma filled_ok N chunks :
  0 <= N -> Forall (fun s => utf8_valid s = true) chunks -> filler_ok N (concat chunks) (fold_left (write_str N) chunks filler_new).
Proof.
  intros HN Hc. apply (filler_fold_ok N chunks [] filler_new Hc).
  constructor; simpl; [rewrite len_nil; lia|done|done|done].
Qed.

Lemma from_display_valid N chunks :
  3 <= N -> Forall (fun s => utf8_valid s = true) chunks ->
  len (from_display N chunks) <= N /\ utf8_valid (from_display N chunks) = true.
Proof.
  intros HN Hc. destruct (filled_ok N chunks ltac:(lia) Hc) as [Hl Hv _ _]. unfold from_display, finish.
  set (f := fold_left _ _ _) in *. destruct (f_truncated f); [|done].
  destruct (append_ellipsis_spec N (f_buf f) HN Hv) as (cut & -> & Hcut & Hvc & Hlc).
  split; [rewrite len_app; change (len ELLIPSIS) with 3; lia|by apply utf8_valid_app].
Qed.

(** An error label never exceeds its capacity and is always valid
    UTF-8; a value that fits is reproduced exactly, and one that does not fit is
    a strict prefix of the value followed by the ellipsis marker, so truncation
    is never silent. *)
Theorem error_id_bounded N chunks :
  3 <= N -> Forall (fun s => utf8_valid s = true) chunks ->
  let text := concat chunks in
  let label := from_display N chunks in
  len label <= N /\ utf8_valid label = true
  /\ (len text <= N -> label = text)
  /\ (N < len text -> exists kept, label = kept ++ ELLIPSIS /\ kept `prefix_of` text).
Proof.
  intros HN Hc text label. destruct (from_display_valid N chunks HN Hc) as [Hlen Hval].
  destruct (filled_ok N chunks ltac:(lia) Hc) as [Hl Hv Hp Ht].
  split; [done|]. split; [done|]. subst text label. unfold from_display, finish.
  set (f := fold_left _ _ _) in *. destruct (f_truncated f) eqn:Ef.
  - destruct (append_ellipsis_spec N (f_buf f) HN Hv) as (cut & -> & _). split; [lia|].
    intros _. exists (take cut (f_buf f)). split; [done|]. etrans; [apply prefix_take|done].
  - split; [done|]. rewrite <- Ht. lia.
Qed.

End with_array_string.

(** A concrete bounded string, used to evaluate the model. *)
Definition list_array_string : ArrayString.
Proof.
  refine {| try_push_str cap buf s := if len buf + len s <=? cap then Some (buf ++ s) else None;
            truncate buf n := take (Z.to_nat n) buf |}.
  - intros cap buf s Hl. by destruct (Z.leb_spec (len buf + len s) cap); [|lia].
  - intros cap buf s Hl. by destruct (Z.leb_spec (len buf + len s) cap); [lia|].
  - done.
Defined.

Lemma error_id_bounded_witness :
  let text := replicate 6 (byte.of_Z 65) in
  len (from_display (AS := list_array_string) 5 [text]) <= 5
  /\ from_display (AS := list_array_string) 5 [text] = replicate 2 (byte.of_Z 65) ++ ELLIPSIS.
Proof.
  split; [|vm_compute; reflexivity].
  apply (error_id_bounded (AS := list_array_string) 5 [replicate 6 (byte.of_Z 65)]); [lia|].
  repeat constructor.
Defined.
