(* ===== verification/Events.v ===== *)
(** * Decided events (crates/mnesis/src/events.rs)

    [Events<E, N>] is a first event plus at most [N] more in an
    [arrayvec::ArrayVec].  The vector's [try_push] is third-party code: it is the
    field of [ArrayVec], with its documented behaviour as laws. *)

From S2P Require Import Prelude.

Class ArrayVec := {
  (** [ArrayVec::<T, N>::try_push]; [None] is the [CapacityError]. *)
  try_push : forall {T : Type}, Z -> list T -> T -> option (list T);
  try_push_room : forall T cap (v : list T) x,
    len v < cap -> try_push cap v x = Some (v ++ [x]);
  try_push_full : forall T cap (v : list T) x,
    cap <= len v -> try_push cap v x = None;
}.

(** The capacity [N] is a parameter of the type, as in the source. *)
Record Events (E : Type) (N : Z) : Type := MkEvents { first : E; rest : list E }.
Arguments MkEvents {E N} _ _.
Arguments first {E N} _.
Arguments rest {E N} _.

#[export] Instance events_eq_dec `{EqDecision E} N : EqDecision (Events E N).
Proof. solve_decision. Defined.

Section with_array_vec.
Context {AV : ArrayVec} {E : Type} {N : Z}.

Definition events_new (event : E) : Events E N := MkEvents event [].

(** [Events::add] panics when the collection is at capacity. *)
Definition add (es : Events E N) (event : E) : panicking (Events E N) :=
  match try_push N (rest es) event with
  | Some v => Returns (MkEvents (first es) v)
  | None => Panics
  end.

(** [Events::iter] and the owning iterator: the head, then the rest in order. *)
Definition iter (es : Events E N) : list E := first es :: rest es.

Definition events_len (es : Events E N) : Z := len (rest es) + 1.

Definition is_empty (es : Events E N) : bool := false.

(** The [events![head, tail...]] macro. *)
Definition events_macro (head : E) (tail : list E) : panicking (Events E N) :=
  fold_left (fun acc e => match acc with Returns es => add es e | Panics => Panics end)
    tail (Returns (events_new head)).

(** The type's own invariant: the vector never exceeds its capacity. *)
Definition events_ok (es : Events E N) : Prop := len (rest es) <= N.

Lemma add_spec es e :
  add es e = if len (rest es) <? N then Returns (MkEvents (first es) (rest es ++ [e])) else Panics.
Proof.
  unfold add. destruct (Z.ltb_spec (len (rest es)) N).
  - by rewrite try_push_room.
  - by rewrite try_push_full.
Qed.

Lemma events_fold_panics tail :
  fold_left (fun acc e => match acc with Returns es => add es e | Panics => Panics end)
    tail (@Panics (Events E N)) = Panics.
Proof. by induction tail. Qed.

Lemma events_fold_spec tail es :
  fold_left (fun acc e => match acc with Returns es => add es e | Panics => Panics end)
    tail (Returns es) =
  if (len (rest es) + len tail <=? N) || (len tail =? 0)
  then Returns (MkEvents (first es) (rest es ++ tail)) else Panics.
Proof.
  revert es. induction tail as [|e tail IH]; intros es; cbn [fold_left].
  - rewrite len_nil, Z.eqb_refl, orb_true_r, app_nil_r. by destruct es.
  - rewrite add_spec, len_cons. pose proof (len_nonneg tail).
    destruct (Z.ltb_spec (len (rest es)) N).
    + rewrite IH. simpl. rewrite len_app, len_cons, len_nil, <- app_assoc. simpl.
      destruct (Z.leb_spec (len (rest es) + (1 + 0) + len tail) N),
        (Z.leb_spec (len (rest es) + (1 + len tail)) N), (Z.eqb_spec (len tail) 0),
        (Z.eqb_spec (1 + len tail) 0); simpl; try done; lia.
    + rewrite events_fold_panics.
      destruct (Z.leb_spec (len (rest es) + (1 + len tail)) N),
        (Z.eqb_spec (1 + len tail) 0); simpl; try done; lia.
Qed.

(** The [events!] macro returns exactly the listed events in order
    whenever they fit the declared capacity of [N + 1], never an empty
    collection, and panics exactly when they do not fit. *)
Theorem events_macro_exact head tail :
  0 <= N ->
  (len tail <= N -> exists es, events_macro head tail = Returns es /\ iter es = head :: tail
     /\ events_len es = 1 + len tail /\ events_ok es)
  /\ (N < len tail -> events_macro head tail = Panics).
Proof.
  intros HN. unfold events_macro. rewrite events_fold_spec. simpl. rewrite len_nil.
  pose proof (len_nonneg tail). split; intros Hl.
  - destruct (Z.leb_spec (0 + len tail) N); [|lia]. simpl. eexists; split; [done|].
    unfold iter, events_len, events_ok. simpl. split; [done|]. split; lia.
  - destruct (Z.leb_spec (0 + len tail) N), (Z.eqb_spec (len tail) 0); simpl; try done; lia.
Qed.

End with_array_vec.

(** A concrete vector, used to evaluate the model. *)
Definition list_array_vec : ArrayVec.
Proof.
  refine {| try_push T cap v x := if len v <? cap then Some (v ++ [x]) else None |}.
  - intros T cap v x Hl. by destruct (Z.ltb_spec (len v) cap); [|lia].
  - intros T cap v x Hl. by destruct (Z.ltb_spec (len v) cap); [lia|].
Defined.

Lemma events_macro_exact_witness :
  (exists es : Events Z 2,
     events_macro (AV := list_array_vec) 7 [8; 9] = Returns es /\ iter es = [7; 8; 9])
  /\ events_macro (AV := list_array_vec) (N := 1) 7 [8; 9] = Panics.
Proof.
  split.
  - destruct (events_macro_exact (AV := list_array_vec) (N := 2) 7 [8; 9] ltac:(lia)) as [Hfit _].
    destruct (Hfit ltac:(vm_compute; discriminate)) as (es & He & Hi & _). by exists es.
  - apply (events_macro_exact (AV := list_array_vec) (N := 1) 7 [8; 9]); [lia|reflexivity].
Defined.
