(* ===== verification/Aggregate.v ===== *)
(** * The kernel: aggregates, sagas and rehydration
      (crates/mnesis/src/aggregate.rs, saga.rs, error.rs)

    The application supplies the fold [apply], which may panic; while it runs the
    root holds no state, so a panic leaves the root poisoned.  Every operation is
    a function from the root to the root it leaves behind and an outcome. *)

From S2P Require Import Prelude Utf8 Version Events.

(** ** Application traits *)

(** [AggregateState] and [Aggregate]: the application's types and fold. *)
Class Aggregate {T : Target} := {
  State : Type;
  Event : Type;
  AError : Type;
  Id : Type;
  initial : State;
  (** [AggregateState::apply]; the application may panic. *)
  apply : State -> Event -> panicking State;
  (** [DomainEvent::name], a [&'static str]: well-formed UTF-8 by its type. *)
  event_name : Event -> bytes;
  event_name_utf8 : forall e, utf8_valid (event_name e) = true;
  (** [Id: AsRef<[u8]>], the stable storage key. *)
  id_as_ref : Id -> bytes;
  MAX_REHYDRATION_EVENTS : NonZero usize_max;
}.

Lemma one_million_fits {T : Target} : nz_in usize_max 1000000 = true.
Proof. pose proof usize_max_lo. unfold nz_in, u32_max in *. lia. Qed.

Definition DEFAULT_MAX_REHYDRATION_EVENTS {T : Target} : NonZero usize_max :=
  MkNonZero 1000000 one_million_fits.

(** [Handle<C, N>]: the pure decision function. *)
Class Handle {T : Target} (A : Aggregate) (C : Type) (N : Z) := {
  decide_command : State -> C -> result (option (Events Event N)) AError;
}.

(** [Saga] and [React<E, N>]: routing, reaction and intent projection. *)
Class Saga {T : Target} (A : Aggregate) := {
  CorrelationKey : Type;
  Command : Type;
  intent_for : Event -> option Command;
}.

Class React {T : Target} (A : Aggregate) (S : Saga A) (Ev : Type) (N : Z) := {
  correlate : Ev -> option CorrelationKey;
  react_to : State -> Ev -> result (option (Events Event N)) AError;
}.

(** ** Errors *)

Inductive KernelError : Type :=
| PoisonedAggregate
| VersionMismatch (expected actual : Version)
| RehydrationLimitExceeded (max : Z)
| KVersionOverflow.

Inductive DecisionError (E : Type) : Type :=
| DKernel (e : KernelError)
| DDomain (e : E).
Arguments DKernel {E} _.
Arguments DDomain {E} _.

(** ** The aggregate root *)

Section root.
Context {T : Target} {A : Aggregate}.

Record AggregateRoot : Type := MkRoot {
  root_id : Id;
  root_state : option State;
  root_version : option Version;
  replayed_events : Z;
}.

Definition root_new (id : Id) : AggregateRoot := MkRoot id (Some initial) None 0.

Definition restore (id : Id) (st : State) (version : Version) : AggregateRoot :=
  MkRoot id (Some st) (Some version) 0.

Definition state (r : AggregateRoot) : result State KernelError :=
  ok_or (root_state r) PoisonedAggregate.

Definition set_state (r : AggregateRoot) (s : option State) : AggregateRoot :=
  MkRoot (root_id r) s (root_version r) (replayed_events r).

Definition set_version (r : AggregateRoot) (v : Version) : AggregateRoot :=
  MkRoot (root_id r) (root_state r) (Some v) (replayed_events r).

Definition set_replayed (r : AggregateRoot) (n : Z) : AggregateRoot :=
  MkRoot (root_id r) (root_state r) (root_version r) n.

(** [AggregateRoot::handle] and [AggregateRoot::react]. *)
Definition handle {C N} `{!Handle A C N} (r : AggregateRoot) (cmd : C)
  : result (option (Events Event N)) (DecisionError AError) :=
  let? st := map_err DKernel (state r) in
  map_err DDomain (decide_command st cmd).

Definition react {S : Saga A} {Ev N} `{!React A S Ev N} (r : AggregateRoot) (ev : Ev)
  : result (option (Events Event N)) (DecisionError AError) :=
  let? st := map_err DKernel (state r) in
  map_err DDomain (react_to st ev).

(** The application fold over an owned state. *)
Fixpoint apply_all (s : State) (events : list Event) : panicking State :=
  match events with
  | [] => Returns s
  | e :: events =>
      match apply s e with
      | Returns s' => apply_all s' events
      | Panics => Panics
      end
  end.

(** [fold_events]: the state is taken out before application code runs and put
    back only once every event has been folded. *)
Definition fold_events (r : AggregateRoot) (events : list Event)
  : AggregateRoot * panicking (result unit KernelError) :=
  match root_state r with
  | None => (r, Returns (Err PoisonedAggregate))
  | Some current =>
      let taken := set_state r None in
      match apply_all current events with
      | Returns s => (set_state taken (Some s), Returns (Ok tt))
      | Panics => (taken, Panics)
      end
  end.

Definition apply_events {N} (r : AggregateRoot) (events : Events Event N)
  : AggregateRoot * panicking (result unit KernelError) :=
  fold_events r (iter events).

(** The version the next replayed event must carry. *)
Definition expected_version (r : AggregateRoot) : result Version KernelError :=
  match root_version r with
  | None => Ok INITIAL
  | Some v => ok_or (next v) KVersionOverflow
  end.

(** The checks [replay] makes before it touches the root; the result is the new
    replay count. *)
Definition replay_checks (r : AggregateRoot) (version : Version) : result Z KernelError :=
  let? _ := state r in
  let? expected := expected_version r in
  if decide (version = expected) then
    let limit := nz_get MAX_REHYDRATION_EVENTS in
    if limit <=? replayed_events r then Err (RehydrationLimitExceeded limit)
    else ok_or (checked_add usize_max (replayed_events r) 1) (RehydrationLimitExceeded limit)
  else Err (VersionMismatch expected version).

Definition replay (r : AggregateRoot) (version : Version) (event : Event)
  : AggregateRoot * panicking (result unit KernelError) :=
  match replay_checks r version with
  | Err e => (r, Returns (Err e))
  | Ok completed =>
      match fold_events r [event] with
      | (r', Returns (Ok _)) => (set_version (set_replayed r' completed) version, Returns (Ok tt))
      | (r', o) => (r', o)
      end
  end.

Definition commit_version {N} (r : AggregateRoot) (events : Events Event N)
  : result Version KernelError :=
  let? _ := state r in
  let? tail := ok_or (try_from u64_max (len (rest events))) KVersionOverflow in
  let? count := ok_or (checked_add u64_max tail 1) KVersionOverflow in
  let current := match root_version r with None => 0 | Some v => as_u64 v end in
  let? ending := ok_or (checked_add u64_max current count) KVersionOverflow in
  ok_or (new ending) KVersionOverflow.

Definition commit_persisted {N} (r : AggregateRoot) (events : Events Event N)
  : AggregateRoot * panicking (result unit KernelError) :=
  match commit_version r events with
  | Err e => (r, Returns (Err e))
  | Ok version => apply_events (set_version r version) events
  end.

(** Replaying a whole stream, stopping at the first failure. *)
Fixpoint replay_all (r : AggregateRoot) (history : list (Version * Event))
  : AggregateRoot * panicking (result unit KernelError) :=
  match history with
  | [] => (r, Returns (Ok tt))
  | (v, e) :: history =>
      match replay r v e with
      | (r', Returns (Ok _)) => replay_all r' history
      | (r', o) => (r', o)
      end
  end.

Lemma apply_all_app s es fs :
  apply_all s (es ++ fs) =
    match apply_all s es with Returns s' => apply_all s' fs | Panics => Panics end.
Proof. revert s. induction es as [|e es IH]; intros s; simpl; [done|]. by destruct (apply s e). Qed.

(** ** Rehydration *)

(** The version as a number, [0] for a fresh aggregate. *)
Definition current_of (r : AggregateRoot) : Z :=
  match root_version r with None => 0 | Some v => as_u64 v end.

Definition limit : Z := nz_get MAX_REHYDRATION_EVENTS.

Lemma expected_version_spec r v : expected_version r = Ok v <-> as_u64 v = current_of r + 1.
Proof.
  unfold expected_version, current_of. destruct (root_version r) as [w|].
  - rewrite ok_or_Ok. apply next_Some.
  - split; [intros [= <-]; done|]. intros Hv. f_equal. apply as_u64_inj.
    by rewrite as_u64_INITIAL.
Qed.

Lemma replay_checks_spec r v n :
  replay_checks r v = Ok n <->
  is_Some (root_state r) /\ as_u64 v = current_of r + 1
  /\ replayed_events r < limit /\ n = replayed_events r + 1.
Proof.
  unfold replay_checks, state. fold limit.
  pose proof (nz_range MAX_REHYDRATION_EVENTS) as Hlim. fold limit in Hlim.
  destruct (root_state r) as [s|]; simpl; [|by split; [done|intros [[? ?] _]]].
  destruct (expected_version r) as [ex|e] eqn:Hex; simpl.
  - apply expected_version_spec in Hex. destruct (decide (v = ex)) as [->|Hne].
    + destruct (Z.leb_spec limit (replayed_events r)); [split; [done|lia]|].
      rewrite ok_or_Ok, checked_add_Some.
      split; [intros [-> ?]; split_and!; eauto|intros (_ & _ & ? & ->); split; [done|]; unfold limit in *; lia].
    + split; [done|]. intros (_ & Hv & _). by destruct Hne; apply as_u64_inj; lia.
  - split; [done|]. intros (_ & Hv & _). apply expected_version_spec in Hv. congruence.
Qed.

Lemma replay_ok r v e r' :
  replay r v e = (r', Returns (Ok tt)) <->
  exists s s', root_state r = Some s /\ apply s e = Returns s'
    /\ as_u64 v = current_of r + 1 /\ replayed_events r < limit
    /\ r' = MkRoot (root_id r) (Some s') (Some v) (replayed_events r + 1).
Proof.
  unfold replay. destruct (replay_checks r v) as [n|err] eqn:Hc.
  - apply replay_checks_spec in Hc as ([s Hs] & Hv & Hlt & ->).
    unfold fold_events. rewrite Hs. simpl. destruct (apply s e) as [s'|] eqn:Ha; simpl.
    + split; [intros [= <-]; by exists s, s'|]. intros (s0 & s1 & ? & ? & _ & _ & ->). by simplify_outcome.
    + split; [done|]. intros (s0 & s1 & ? & ? & _). by simplify_outcome.
  - split; [done|]. intros (s & s' & Hs & _ & Hv & Hlt & _).
    assert (replay_checks r v = Ok (replayed_events r + 1)) as E; [|congruence].
    apply replay_checks_spec. rewrite Hs. eauto.
Qed.

Lemma replay_succeeds r s v e s' :
  root_state r = Some s -> apply s e = Returns s' -> as_u64 v = current_of r + 1 ->
  replayed_events r < limit ->
  replay r v e = (MkRoot (root_id r) (Some s') (Some v) (replayed_events r + 1), Returns (Ok tt)).
Proof. intros. apply replay_ok. by exists s, s'. Qed.

(** Replaying a stream succeeds exactly on a gapless continuation of the root's
    version that fits the replay budget and whose fold does not panic. *)
Lemma replay_all_ok r s history r' :
  root_state r = Some s -> replayed_events r <= limit ->
  replay_all r history = (r', Returns (Ok tt)) <->
  consecutive (current_of r + 1) history.*1
  /\ replayed_events r + len history <= limit
  /\ exists s', apply_all s history.*2 = Returns s'
     /\ r' = MkRoot (root_id r) (Some s')
               (match last history.*1 with Some v => Some v | None => root_version r end)
               (replayed_events r + len history).
Proof.
  revert r s. induction history as [|[v e] history IH]; intros r s Hs Hle; cbn [replay_all fmap list_fmap consecutive apply_all].
  - rewrite len_nil, Z.add_0_r. split.
    + intros [= <-]. split; [done|]. split; [done|]. exists s. split; [done|].
      rewrite <- Hs. by destruct r.
    + intros (_ & _ & s' & [= <-] & ->). rewrite <- Hs. by destruct r.
  - rewrite len_cons. destruct (replay r v e) as [r1 o] eqn:Hr.
    destruct o as [[[]|err]|].
    + apply replay_ok in Hr as (s0 & s1 & Hs0 & Ha & Hv & Hlt & ->). simplify_outcome.
      rewrite Ha, (IH _ s1) by (done || (simpl; lia)).
      unfold current_of at 1. simpl. rewrite Hv.
      replace (replayed_events r + (1 + len history)) with (replayed_events r + 1 + len history) by lia.
      assert (last (v :: history.*1) = Some (default v (last history.*1))) as ->
        by (rewrite last_cons; by destruct (last history.*1)).
      split; intros Hx; [destruct Hx as (? & ? & s' & ? & ->)|destruct Hx as ([? ?] & ? & s' & ? & ->)];
        (split_and!; [done..|]); exists s'; (split; [done|]); by destruct (last history.*1).
    + split; [done|]. intros ([Hv _] & Hb & s' & Ha & _). simpl in Hv, Ha. exfalso.
      pose proof (len_nonneg history).
      destruct (apply s e) as [s1|] eqn:He; [|done].
      rewrite (replay_succeeds r s v e s1) in Hr; [done..|lia].
    + split; [done|]. intros ([Hv _] & Hb & s' & Ha & _). simpl in Hv, Ha. exfalso.
      pose proof (len_nonneg history).
      destruct (apply s e) as [s1|] eqn:He; [|done].
      rewrite (replay_succeeds r s v e s1) in Hr; [done..|lia].
Qed.

(** Replaying a stream onto a fresh aggregate succeeds exactly when
    its versions are [1, 2, 3, ...] without gap, repeat or reordering, there are
    at most [MAX_REHYDRATION_EVENTS] of them, and the application fold does not
    panic; the root then holds the left fold of the events over the initial state,
    the last event's version and the number of replayed events. *)
Theorem rehydrate_exact id history r' :
  replay_all (root_new id) history = (r', Returns (Ok tt)) <->
  consecutive 1 history.*1 /\ len history <= limit
  /\ exists s, apply_all initial history.*2 = Returns s
       /\ r' = MkRoot id (Some s) (last history.*1) (len history).
Proof.
  rewrite (replay_all_ok _ initial) by (done || (simpl; pose proof (nz_range MAX_REHYDRATION_EVENTS); unfold limit; lia)).
  simpl. unfold current_of. simpl. change (0 + 1) with 1. rewrite Z.add_0_l.
  by destruct (last history.*1).
Qed.

(** ** Committing decided events *)

Lemma commit_version_spec {N} r (es : Events Event N) v :
  commit_version r es = Ok v <->
  is_Some (root_state r) /\ as_u64 v = current_of r + len (iter es).
Proof.
  unfold commit_version, state, iter. fold (current_of r). rewrite len_cons.
  pose proof (len_nonneg (rest es)) as Hl.
  assert (0 <= current_of r) as Hc
    by (unfold current_of; destruct (root_version r) as [w|]; [pose proof (version_range w)|]; lia).
  pose proof (version_range v) as Hv.
  destruct (root_state r) as [s|]; simpl; [|split; [done|]; by intros [[? ?] _]].
  destruct (try_from u64_max (len (rest es))) as [t|] eqn:Ht; simpl.
  - apply try_from_Some in Ht as [-> Ht].
    destruct (checked_add u64_max (len (rest es)) 1) as [c|] eqn:Ha; simpl.
    + apply checked_add_Some in Ha as [-> Ha].
      destruct (checked_add u64_max (current_of r) (len (rest es) + 1)) as [d|] eqn:Hb; simpl.
      * apply checked_add_Some in Hb as [-> Hb]. rewrite ok_or_Ok, new_Some.
        split; [intros; split; [eauto|lia]|intros [_ ?]; lia].
      * apply checked_add_None in Hb. split; [done|lia].
    + apply checked_add_None in Ha. split; [done|lia].
  - apply try_from_None in Ht. split; [done|lia].
Qed.

Lemma commit_ok {N} r (es : Events Event N) r' :
  commit_persisted r es = (r', Returns (Ok tt)) <->
  exists s s' v, root_state r = Some s /\ apply_all s (iter es) = Returns s'
    /\ as_u64 v = current_of r + len (iter es)
    /\ r' = MkRoot (root_id r) (Some s') (Some v) (replayed_events r).
Proof.
  unfold commit_persisted, apply_events. destruct (commit_version r es) as [v|err] eqn:Hc.
  - apply commit_version_spec in Hc as ([s Hs] & Hv).
    unfold fold_events. cbn [set_version root_state]. rewrite Hs.
    destruct (apply_all s (iter es)) as [s'|] eqn:Ha.
    + split; [intros [= <-]; by exists s, s', v|].
      intros (s0 & s1 & w & ? & ? & Hw & ->). simplify_outcome. by replace w with v by (apply as_u64_inj; lia).
    + split; [done|]. intros (s0 & s1 & w & ? & ? & _). by simplify_outcome.
  - split; [done|]. intros (s & s' & v & Hs & _ & Hv & _).
    assert (commit_version r es = Ok v) as E; [|congruence]. apply commit_version_spec. rewrite Hs. eauto.
Qed.

(** C25: folding a persisted batch into a live root with
    [commit_persisted] gives exactly the identity, state and version that
    reloading the same events from the store by [replay] gives, provided the
    batch fits the version space and the replay budget. *)
Theorem commit_equals_replay {N} r (es : Events Event N) vs s :
  root_state r = Some s ->
  consecutive (current_of r + 1) vs -> length vs = length (iter es) ->
  replayed_events r + len (iter es) <= limit ->
  forall s' v,
    (exists n, commit_persisted r es = (MkRoot (root_id r) (Some s') (Some v) n, Returns (Ok tt))) <->
    (exists n, replay_all r (zip vs (iter es)) = (MkRoot (root_id r) (Some s') (Some v) n, Returns (Ok tt))).
Proof.
  intros Hs Hc Hl Hb s' v.
  pose proof (len_nonneg (iter es)) as Hn.
  assert ((zip vs (iter es)).*1 = vs) as E1 by (apply fst_zip; lia).
  assert ((zip vs (iter es)).*2 = iter es) as E2 by (apply snd_zip; lia).
  assert (len (zip vs (iter es)) = len (iter es)) as E3
    by (unfold len; rewrite length_zip_with; lia).
  destruct (last_is_Some vs) as [_ [w Hw]]; [by intros ->|].
  assert (as_u64 w = current_of r + len (iter es)) as Hwv.
  { rewrite last_lookup in Hw. apply (consecutive_lookup _ _ _ _ Hc) in Hw.
    unfold len. rewrite Hw, <- Hl. destruct vs; [by simpl in *|simpl; lia]. }
  split.
  - intros [n (s0 & s1 & v0 & ? & Ha & Hv & [= -> -> ->])%commit_ok]. simplify_outcome.
    exists (replayed_events r + len (iter es)).
    apply (replay_all_ok r s); [done|lia|]. rewrite E1, E2, E3, Hw. split_and!; [done..|].
    exists s1. split; [done|]. by replace v0 with w by (apply as_u64_inj; lia).
  - intros [n (_ & _ & s1 & Ha & E)%(replay_all_ok r s)]; [|done|lia].
    rewrite E1, Hw in E. rewrite E2 in Ha. simplify_outcome. exists (replayed_events r).
    apply commit_ok. by exists s, s1, w.
Qed.

(** ** Poisoning *)

(** One state-changing call on a root, with its outcome. *)
Inductive root_step : AggregateRoot -> panicking (result unit KernelError) -> AggregateRoot -> Prop :=
| step_replay r v e r' o : replay r v e = (r', o) -> root_step r o r'
| step_commit N r (es : Events Event N) r' o : commit_persisted r es = (r', o) -> root_step r o r'.

(** A sequence of calls and the outcomes it produced. *)
Inductive root_steps : AggregateRoot -> list (panicking (result unit KernelError)) -> AggregateRoot -> Prop :=
| steps_nil r : root_steps r [] r
| steps_cons r o r1 os r2 : root_step r o r1 -> root_steps r1 os r2 -> root_steps r (o :: os) r2.

Lemma fold_panics r es r' : fold_events r es = (r', Panics) -> root_state r' = None.
Proof.
  unfold fold_events. destruct (root_state r); [|done].
  destruct (apply_all _ _); [done|]. by intros [= <-].
Qed.

Lemma step_panics r r' : root_step r Panics r' -> root_state r' = None.
Proof.
  inversion 1 as [? v e ? ? Hr|? ? es ? ? Hc]; simplify_outcome.
  - unfold replay in Hr. destruct (replay_checks r v); [|done].
    destruct (fold_events r [e]) as [r1 [[[]|]|]] eqn:Hf; simplify_outcome. by eapply fold_panics.
  - unfold commit_persisted in Hc. destruct (commit_version r es); [|done]. by eapply fold_panics.
Qed.

Lemma step_poisoned r o r' : root_state r = None -> root_step r o r' -> r' = r /\ o = Returns (Err PoisonedAggregate).
Proof.
  intros Hn. inversion 1 as [? v e ? ? Hr|? ? es ? ? Hc]; simplify_outcome.
  - unfold replay, replay_checks, state in Hr. rewrite Hn in Hr. by simplify_eq/=.
  - unfold commit_persisted, commit_version, state in Hc. rewrite Hn in Hc. by simplify_eq/=.
Qed.

(** Once an application fold has panicked inside [replay] or
    [commit_persisted], the root is poisoned for good: every later call, in any
    order and number, returns [PoisonedAggregate] and changes nothing, and
    neither a partially folded nor a replacement state is ever exposed. *)
Theorem panic_poisons_forever r r1 os r2 :
  root_step r Panics r1 -> root_steps r1 os r2 ->
  r2 = r1 /\ Forall (fun o => o = Returns (Err PoisonedAggregate)) os
  /\ state r2 = Err PoisonedAggregate
  /\ forall C N (HC : Handle A C N) (c : C), handle r2 c = Err (DKernel PoisonedAggregate).
Proof.
  intros Hp%step_panics Hs.
  assert (r2 = r1 /\ Forall (fun o => o = Returns (Err PoisonedAggregate)) os) as [-> Hall].
  { induction Hs as [r0|r0 o ra os rb Hstep _ IH]; [done|].
    destruct (step_poisoned _ _ _ Hp Hstep) as [-> ->].
    destruct (IH Hp) as [-> ?]. split; [done|]. by constructor. }
  split; [done|]. split; [done|]. unfold handle, state. rewrite Hp. split; [done|]. intros. done.
Qed.

(** A call the kernel rejects leaves the root exactly as it was, so a
    rejected event or batch consumes neither version nor replay budget. *)
Theorem rejection_preserves_root r err r' :
  root_step r (Returns (Err err)) r' -> r' = r.
Proof.
  inversion 1 as [? v e ? ? Hr|? ? es ? ? Hc]; simplify_outcome.
  - unfold replay in Hr. destruct (replay_checks r v) as [n|] eqn:Hk; [|by simplify_eq].
    apply replay_checks_spec in Hk as ([s Hs] & _). unfold fold_events in Hr. rewrite Hs in Hr.
    simpl in Hr. by destruct (apply s e).
  - unfold commit_persisted in Hc. destruct (commit_version r es) as [v|] eqn:Hv; [|by simplify_eq].
    apply commit_version_spec in Hv as ([s Hs] & _). unfold apply_events, fold_events in Hc.
    cbn [set_version root_state] in Hc. rewrite Hs in Hc. by destruct (apply_all s (iter es)).
Qed.

End root.

(** ** Witnesses: a counter whose fold panics on the byte 255 *)

Definition counter (T : Target) : Aggregate.
Proof.
  refine {| State := Z; Event := byte; AError := unit; Id := bytes; initial := 0;
    apply s e := if byte.unsigned e =? 255 then Panics else Returns (s + byte.unsigned e);
    event_name _ := [byte.of_Z 65]; id_as_ref id := id;
    MAX_REHYDRATION_EVENTS := MkNonZero 3 _ |}.
  - reflexivity.
  - pose proof usize_max_lo. unfold nz_in, u32_max in *. lia.
Defined.

Section counter_witnesses.
#[local] Existing Instance target64.
#[local] Existing Instance counter.

Definition counter_root : AggregateRoot := root_new [byte.of_Z 1].

Definition version_two : Version := MkVersion (MkNonZero (max := u64_max) 2 eq_refl).

Lemma commit_equals_replay_witness :
  exists n, replay_all counter_root (zip [INITIAL; version_two] [byte.of_Z 5; byte.of_Z 2]) =
    (MkRoot [byte.of_Z 1] (Some 7) (Some version_two) n, Returns (Ok tt)).
Proof.
  apply (commit_equals_replay (N := 1) counter_root (MkEvents (byte.of_Z 5) [byte.of_Z 2])
    [INITIAL; version_two] 0 eq_refl).
  - repeat split.
  - reflexivity.
  - vm_compute. discriminate.
  - eexists. vm_compute. reflexivity.
Defined.

Lemma panic_poisons_forever_witness :
  exists r1, root_step counter_root Panics r1 /\ state r1 = Err PoisonedAggregate.
Proof.
  destruct (replay counter_root INITIAL (byte.of_Z 255)) as [r1 o] eqn:E.
  assert (o = Panics) as -> by (apply (f_equal snd) in E; vm_compute in E; congruence).
  exists r1. split; [by apply step_replay in E|].
  apply (panic_poisons_forever counter_root r1 [] r1); [by apply step_replay in E|apply steps_nil].
Defined.

Lemma rejection_preserves_root_witness :
  exists r' e, root_step counter_root (Returns (Err e)) r' /\ r' = counter_root.
Proof.
  exists (replay counter_root version_two (byte.of_Z 1)).1, (VersionMismatch INITIAL version_two).
  assert (root_step counter_root (Returns (Err (VersionMismatch INITIAL version_two)))
    (replay counter_root version_two (byte.of_Z 1)).1) as H by (apply (step_replay counter_root version_two (byte.of_Z 1)); reflexivity).
  split; [exact H|]. exact (rejection_preserves_root counter_root _ _ H).
Defined.

End counter_witnesses.
