(* ===== verification/Testing.v ===== *)
(** * The test fixtures (crates/mnesis/src/testing.rs)

    A fixture drives the kernel without a store: it replays a history, hands one
    command or event to the decision function, folds what was decided, and compares.
    An assertion that fails panics, so a test is a value of [panicking] and passes when
    it returns. *)

From S2P Require Import Prelude Utf8 Version Events Aggregate.

(** Chaining calls that may panic. *)
Definition panicking_bind {A B} (p : panicking A) (k : A -> panicking B) : panicking B :=
  match p with Returns a => k a | Panics => Panics end.

Definition assert (b : bool) : panicking () := if b then Returns () else Panics.

Declare Scope fixture_scope.
Notation "p ▷ k" := (panicking_bind p k) (at level 50, left associativity) : fixture_scope.
Open Scope fixture_scope.

Section fixture.
Context {T : Target} {A : Aggregate}.

(** ** The aggregate fixture *)

Definition fixture_state (root : AggregateRoot) : panicking State :=
  match state root with Ok st => Returns st | Err _ => Panics end.

Record AggregateFixture : Type := MkFixture { fixture_id : Id }.

Definition with_id (id : Id) : AggregateFixture := MkFixture id.

(** The loop of [given]: the versions are 1, 2, 3, ... *)
Fixpoint replay_history (root : AggregateRoot) (version : Version) (history : list Event) : panicking AggregateRoot :=
  match history with
  | [] => Returns root
  | event :: history =>
      match replay root version event with
      | (root, Returns (Ok _)) => replay_history root (default version (next version)) history
      | _ => Panics
      end
  end.

Record Given : Type := MkGiven { given_root : AggregateRoot }.

Definition given (self : AggregateFixture) (history : list Event) : panicking Given :=
  replay_history (root_new (fixture_id self)) INITIAL history ▷ fun root => Returns (MkGiven root).

Definition given_expect_state (self : Given) (assertion : State -> panicking ()) : panicking Given :=
  fixture_state (given_root self) ▷ assertion ▷ fun _ => Returns self.

Section acted.
Context {C : Type} {N : Z} `{!Handle A C N}.

Record Acted : Type := MkActed { acted_root : AggregateRoot; acted_result : result (option (Events Event N)) AError }.

(** Folding decided events; nothing is folded otherwise. *)
Definition fold_decided (root : AggregateRoot) (r : result (option (Events Event N)) AError) : panicking AggregateRoot :=
  match r with
  | Ok (Some events) =>
      match apply_events root events with
      | (root, Returns (Ok _)) => Returns root
      | _ => Panics
      end
  | _ => Returns root
  end.

Definition when (cmd : C) (self : Given) : panicking Acted :=
  fixture_state (given_root self) ▷ fun st =>
    let r := decide_command st cmd in
    fold_decided (given_root self) r ▷ fun root => Returns (MkActed root r).

Definition then_expect_events `{!EqDecision Event} (expected : list Event) (self : Acted) : panicking Acted :=
  match acted_result self with
  | Ok (Some produced) => assert (bool_decide (iter produced = expected)) ▷ fun _ => Returns self
  | _ => Panics
  end.

Definition then_expect_ignored (self : Acted) : panicking Acted :=
  match acted_result self with Ok None => Returns self | _ => Panics end.

Definition then_expect_error_matching (predicate : AError -> bool) (self : Acted) : panicking Acted :=
  match acted_result self with
  | Err actual => assert (predicate actual) ▷ fun _ => Returns self
  | Ok _ => Panics
  end.

Definition then_expect_error `{!EqDecision AError} (expected : AError) (self : Acted) : panicking Acted :=
  match acted_result self with
  | Err actual => assert (bool_decide (actual = expected)) ▷ fun _ => Returns self
  | Ok _ => Panics
  end.

Definition then_expect_state (assertion : State -> panicking ()) (self : Acted) : panicking Acted :=
  fixture_state (acted_root self) ▷ assertion ▷ fun _ => Returns self.

End acted.

(** ** The saga fixture *)

Section reacted.
Context {S : Saga A} {Ev : Type} {N : Z} `{!React A S Ev N}.

Definition saga_given (id : Id) (history : list Event) : panicking Given :=
  replay_history (root_new id) INITIAL history ▷ fun root => Returns (MkGiven root).

Record SagaReacted : Type := MkReacted {
  reacted_root : AggregateRoot;
  reacted_result : result (option (Events Event N)) AError;
  reacted_commands : list Command;
}.

Definition saga_when (event : Ev) (self : Given) : panicking SagaReacted :=
  fixture_state (given_root self) ▷ fun st =>
    let r := react_to st event in
    let commands := match r with Ok (Some events) => omap intent_for (iter events) | _ => [] end in
    fold_decided (given_root self) r ▷ fun root => Returns (MkReacted root r commands).

Definition saga_expect_events `{!EqDecision Event} (expected : list Event) (self : SagaReacted) : panicking SagaReacted :=
  match reacted_result self with
  | Ok (Some produced) => assert (bool_decide (iter produced = expected)) ▷ fun _ => Returns self
  | _ => Panics
  end.

Definition then_expect_commands `{!EqDecision Command} (expected : list Command) (self : SagaReacted) : panicking SagaReacted :=
  assert (bool_decide (reacted_commands self = expected)) ▷ fun _ => Returns self.

Definition saga_expect_ignored (self : SagaReacted) : panicking SagaReacted :=
  match reacted_result self with Ok None => Returns self | _ => Panics end.

Definition saga_expect_error_matching (predicate : AError -> bool) (self : SagaReacted) : panicking SagaReacted :=
  match reacted_result self with
  | Err actual => assert (predicate actual) ▷ fun _ => Returns self
  | Ok _ => Panics
  end.

Definition saga_expect_error `{!EqDecision AError} (expected : AError) (self : SagaReacted) : panicking SagaReacted :=
  match reacted_result self with
  | Err actual => assert (bool_decide (actual = expected)) ▷ fun _ => Returns self
  | Ok _ => Panics
  end.

Definition saga_expect_state (assertion : State -> panicking ()) (self : SagaReacted) : panicking SagaReacted :=
  fixture_state (reacted_root self) ▷ assertion ▷ fun _ => Returns self.

End reacted.

(** ** What a verdict means *)

Lemma bind_returns {X Y} (p : panicking X) (k : X -> panicking Y) b :
  p ▷ k = Returns b <-> exists a, p = Returns a /\ k a = Returns b.
Proof. destruct p; cbn; naive_solver. Qed.

Lemma assert_returns b u : assert b = Returns u <-> b = true.
Proof. destruct b, u; cbn; naive_solver. Qed.

(** The kernel reloads [history] from a store that numbers it 1, 2, 3, ... *)
Definition rehydrated (id : Id) (history : list Event) (r : AggregateRoot) : Prop :=
  exists vs, consecutive 1 vs /\ length vs = length history /\ replay_all (root_new id) (zip vs history) = (r, Returns (Ok tt)).

Lemma replay_history_exact root v history root' :
  replay_history root v history = Returns root' <->
  exists vs, consecutive (as_u64 v) vs /\ length vs = length history /\ replay_all root (zip vs history) = (root', Returns (Ok tt)).
Proof.
  revert root v. induction history as [|e history IH]; intros root v; cbn [replay_history].
  - split; [intros [= <-]; by exists []|]. intros (vs & _ & Hl & Hr). destruct vs; [|done]. cbn in Hr. by injection Hr as <-.
  - split.
    + destruct (replay root v e) as [r1 [[[]|err]|]] eqn:Hr; [|done..]. intros Hh. destruct (next v) as [n|] eqn:Hn; cbn in Hh.
      * apply IH in Hh as (vs & Hc & Hl & Ha). apply next_Some in Hn. exists (v :: vs). split; [|split]; [|cbn; lia|].
        -- cbn. split; [done|]. by rewrite <- Hn.
        -- cbn. by rewrite Hr.
      * destruct history as [|e' history]; [exists [v]; cbn; rewrite Hr; cbn in Hh; injection Hh as ->; repeat split|].
        exfalso. cbn in Hh. apply replay_ok in Hr as (s & s' & _ & _ & _ & _ & ->).
        unfold replay at 1, replay_checks in Hh. cbn in Hh. by rewrite Hn in Hh.
    + intros (vs & Hc & Hl & Ha). destruct vs as [|w vs]; [done|]. cbn in Hc, Hl, Ha. destruct Hc as [Hw Hc].
      apply as_u64_inj in Hw as ->. destruct (replay root v e) as [r1 [[[]|err]|]]; [|done..].
      destruct (next v) as [n|] eqn:Hn; cbn.
      * apply IH. exists vs. apply next_Some in Hn. rewrite Hn. split_and!; [done|lia|done].
      * destruct vs as [|w vs]; [destruct history; [|done]; cbn in Ha |- *; by injection Ha as ->|].
        exfalso. cbn in Hc. destruct Hc as [Hw _]. apply next_Some in Hw. congruence.
Qed.

Lemma given_exact f history g :
  given f history = Returns g <-> rehydrated (fixture_id f) history (given_root g).
Proof.
  unfold given. rewrite bind_returns. setoid_rewrite replay_history_exact. unfold rehydrated. rewrite as_u64_INITIAL.
  destruct g as [r]. cbn. split; [by intros (a & ? & [= <-])|by eauto].
Qed.

(** What a rehydrated root is. *)
Lemma rehydrated_root id history r :
  rehydrated id history r -> exists st, root_state r = Some st /\ root_id r = id /\ current_of r = len history.
Proof.
  intros (vs & Hc & Hl & Hr). apply rehydrate_exact in Hr as (_ & _ & st & _ & ->). exists st. split_and!; [done..|].
  unfold current_of. cbn. rewrite fst_zip by lia. destruct (last vs) as [v|] eqn:Hv.
  - apply (consecutive_last _ _ _ Hc) in Hv. unfold len in *. lia.
  - apply last_None in Hv as ->. unfold len. by destruct history.
Qed.

(** Folding decided events is what a commit of them does to the state. *)
Lemma fold_decided_exact {N} id history r (es : Events Event N) root :
  rehydrated id history r -> len history + len (iter es) <= u64_max ->
  fold_decided r (Ok (Some es)) = Returns root <->
  exists r', commit_persisted r es = (r', Returns (Ok tt)) /\ root = set_state r (root_state r').
Proof.
  intros Hr Hb. destruct (rehydrated_root _ _ _ Hr) as (st & Hs & _ & Hc). setoid_rewrite commit_ok.
  cbn. unfold apply_events, fold_events. rewrite Hs. destruct (apply_all st (iter es)) as [st'|] eqn:Ha.
  - split; [|by intros (? & (? & ? & ? & ? & ? & _ & ->) & ->); simplify_outcome].
    intros [= <-]. pose proof (len_nonneg history).
    assert (1 <= len (iter es)) by (unfold iter; rewrite len_cons; pose proof (len_nonneg (rest es)); lia).
    destruct (new (len history + len (iter es))) as [v|] eqn:Hv; [|apply new_None in Hv; lia].
    apply new_Some in Hv. eexists. split; [by exists st, st', v; rewrite Hc|]. done.
  - split; [done|]. intros (? & (? & ? & ? & ? & ? & _) & _). by simplify_outcome.
Qed.

Section verdicts.
Context {C : Type} {N : Z} `{!Handle A C N} `{!EqDecision Event, !EqDecision AError}.

Lemma when_exact f history cmd a :
  given f history ▷ when cmd = Returns a <->
  exists r st, rehydrated (fixture_id f) history r /\ root_state r = Some st /\
    acted_result a = decide_command st cmd /\ fold_decided r (decide_command st cmd) = Returns (acted_root a).
Proof.
  rewrite bind_returns. setoid_rewrite given_exact. unfold when. split.
  - intros (g & Hg & Hw). destruct (rehydrated_root _ _ _ Hg) as (st & Hs & _). unfold fixture_state, state in Hw. rewrite Hs in Hw.
    cbn in Hw. apply bind_returns in Hw as (root & Hf & [= <-]). by exists (given_root g), st.
  - intros (r & st & Hg & Hs & Hres & Hf). exists (MkGiven r). split; [done|]. unfold fixture_state, state. cbn. rewrite Hs. cbn.
    rewrite Hf. cbn. f_equal. destruct a. cbn in *. by rewrite Hres.
Qed.

Lemma handled r st (cmd : C) d : root_state r = Some st -> handle r cmd = map_err DDomain d <-> decide_command st cmd = d.
Proof.
  intros Hs. unfold handle, state. rewrite Hs. cbn. destruct (decide_command st cmd), d; cbn; naive_solver.
Qed.

(** A fixture test passes exactly when the kernel does what it expects: the history
    reloads as the versions 1, 2, 3, ..., and on that root the command decides exactly
    the expected events and they commit, or decides nothing, or is rejected with exactly
    the expected error.  The state a passing test goes on to inspect is the state after
    that commit, or the reloaded one when nothing was decided. *)
Theorem fixture_verdict_exact f history (cmd : C) a :
  (forall expected, len history + len expected <= u64_max ->
    given f history ▷ when cmd ▷ then_expect_events expected = Returns a <->
    exists r es r', rehydrated (fixture_id f) history r /\ handle r cmd = Ok (Some es) /\ iter es = expected /\
      commit_persisted r es = (r', Returns (Ok tt)) /\ a = MkActed (set_state r (root_state r')) (Ok (Some es))) /\
  (given f history ▷ when cmd ▷ then_expect_ignored = Returns a <->
    exists r, rehydrated (fixture_id f) history r /\ handle r cmd = Ok None /\ a = MkActed r (Ok None)) /\
  (forall expected, given f history ▷ when cmd ▷ then_expect_error expected = Returns a <->
    exists r, rehydrated (fixture_id f) history r /\ handle r cmd = Err (DDomain expected) /\ a = MkActed r (Err expected)).
Proof.
  split_and!; [intros expected Hb| |intros expected]; rewrite bind_returns; setoid_rewrite when_exact; split.
  - intros (a0 & (r & st & Hr & Hs & Hres & Hf) & Ht). unfold then_expect_events in Ht.
    destruct (acted_result a0) as [[es|]|] eqn:Ha; [|done..]. apply bind_returns in Ht as (u & Heq%assert_returns & [= <-]).
    apply bool_decide_eq_true in Heq. rewrite <- Hres in Hf. subst expected.
    apply (fold_decided_exact _ _ _ _ _ Hr Hb) in Hf as (r' & Hcm & Hroot).
    exists r, es, r'. split_and!; [done|by apply (handled r st cmd (Ok (Some es)))|done..|]. destruct a0; cbn in *. by subst.
  - intros (r & es & r' & Hr & Hh & <- & Hcm & ->). destruct (rehydrated_root _ _ _ Hr) as (st & Hs & _).
    apply (handled r st cmd (Ok (Some es)) Hs) in Hh. exists (MkActed (set_state r (root_state r')) (Ok (Some es))). split.
    + exists r, st. split_and!; [done..|by rewrite Hh|]. rewrite Hh. apply (fold_decided_exact _ _ _ _ _ Hr Hb). by exists r'.
    + unfold then_expect_events. cbn. by rewrite bool_decide_true.
  - intros (a0 & (r & st & Hr & Hs & Hres & Hf) & Ht). unfold then_expect_ignored in Ht.
    destruct (acted_result a0) as [[es|]|] eqn:Ha; [done| |done]. injection Ht as <-. rewrite <- Hres in Hf. cbn in Hf.
    exists r. split_and!; [done|by apply (handled r st cmd (Ok None))|]. destruct a0; cbn in *. naive_solver.
  - intros (r & Hr & Hh & ->). destruct (rehydrated_root _ _ _ Hr) as (st & Hs & _).
    apply (handled r st cmd (Ok None) Hs) in Hh. exists (MkActed r (Ok None)). split; [|done].
    exists r, st. split_and!; [done..|by rewrite Hh|by rewrite Hh].
  - intros (a0 & (r & st & Hr & Hs & Hres & Hf) & Ht). unfold then_expect_error in Ht.
    destruct (acted_result a0) as [|e] eqn:Ha; [done|]. apply bind_returns in Ht as (u & Heq%assert_returns & [= <-]).
    apply bool_decide_eq_true in Heq as <-. rewrite <- Hres in Hf. cbn in Hf.
    exists r. split_and!; [done|by apply (handled r st cmd (Err e))|]. destruct a0; cbn in *. naive_solver.
  - intros (r & Hr & Hh & ->). destruct (rehydrated_root _ _ _ Hr) as (st & Hs & _).
    apply (handled r st cmd (Err expected) Hs) in Hh. exists (MkActed r (Err expected)). split.
    + exists r, st. split_and!; [done..|by rewrite Hh|by rewrite Hh].
    + unfold then_expect_error. cbn. by rewrite bool_decide_true.
Qed.
End verdicts.

Section saga_verdicts.
Context {S : Saga A} {Ev : Type} {N : Z} `{!React A S Ev N} `{!EqDecision Event, !EqDecision Command}.

Lemma saga_when_exact id history ev a :
  saga_given id history ▷ saga_when ev = Returns a <->
  exists r st, rehydrated id history r /\ root_state r = Some st /\ fold_decided r (react_to st ev) = Returns (reacted_root a) /\
    reacted_result a = react_to st ev /\
    reacted_commands a = match react_to st ev with Ok (Some es) => omap intent_for (iter es) | _ => [] end.
Proof.
  rewrite bind_returns. change (saga_given id history) with (given (with_id id) history). setoid_rewrite given_exact. unfold saga_when. split.
  - intros (g & Hg & Hw). destruct (rehydrated_root _ _ _ Hg) as (st & Hs & _). unfold fixture_state, state in Hw. rewrite Hs in Hw.
    cbn in Hw. apply bind_returns in Hw as (root & Hf & [= <-]). by exists (given_root g), st.
  - intros (r & st & Hg & Hs & Hf & Hres & Hc). exists (MkGiven r). split; [done|]. unfold fixture_state, state. cbn. rewrite Hs. cbn.
    rewrite Hf. cbn. f_equal. destruct a. cbn in *. by rewrite Hres, Hc.
Qed.

Lemma reacted r st (ev : Ev) d : root_state r = Some st -> react r ev = map_err DDomain d <-> react_to st ev = d.
Proof. intros Hs. unfold react, state. rewrite Hs. cbn. destruct (react_to st ev), d; cbn; naive_solver. Qed.

(** A saga test passes exactly when the kernel does what it expects: the saga's
    history reloads, and on that root the incoming event makes it record exactly the
    expected events, which commit, and the intents projected from them, in order, are
    exactly the expected commands; or the event is ignored and no command goes out. *)
Theorem saga_fixture_verdict_exact id history (ev : Ev) a :
  (forall expected commands, len history + len expected <= u64_max ->
    saga_given id history ▷ saga_when ev ▷ saga_expect_events expected ▷ then_expect_commands commands = Returns a <->
    exists r es r', rehydrated id history r /\ react r ev = Ok (Some es) /\ iter es = expected /\ omap intent_for expected = commands /\
      commit_persisted r es = (r', Returns (Ok tt)) /\ a = MkReacted (set_state r (root_state r')) (Ok (Some es)) commands) /\
  (saga_given id history ▷ saga_when ev ▷ saga_expect_ignored = Returns a <->
    exists r, rehydrated id history r /\ react r ev = Ok None /\ a = MkReacted r (Ok None) []).
Proof.
  split; [intros expected commands Hb; rewrite bind_returns; setoid_rewrite bind_returns|rewrite bind_returns]; setoid_rewrite saga_when_exact; split.
  - intros (a1 & (a0 & (r & st & Hr & Hs & Hf & Hres & Hc) & Ht) & Hk). unfold saga_expect_events in Ht.
    destruct (reacted_result a0) as [[es|]|] eqn:Ha; [|done..]. apply bind_returns in Ht as (u & Heq%assert_returns & [= <-]).
    destruct Hk as (u1 & Hcs%assert_returns & [= <-]). apply bool_decide_eq_true in Heq, Hcs. rewrite <- Hres in Hf, Hc. subst expected.
    apply (fold_decided_exact _ _ _ _ _ Hr Hb) in Hf as (r' & Hcm & Hroot).
    exists r, es, r'. split_and!; [done|by apply (reacted r st ev (Ok (Some es)))|done|congruence|done|]. destruct a0; cbn in *. by subst.
  - intros (r & es & r' & Hr & Hh & <- & <- & Hcm & ->). destruct (rehydrated_root _ _ _ Hr) as (st & Hs & _).
    apply (reacted r st ev (Ok (Some es)) Hs) in Hh. set (a := MkReacted _ _ _). exists a. split; [exists a; split|].
    + exists r, st. rewrite Hh. split_and!; [done|done|by apply (fold_decided_exact _ _ _ _ _ Hr Hb); exists r'|done|done].
    + unfold saga_expect_events. cbn. by rewrite bool_decide_true.
    + exists tt. split; [by apply assert_returns, bool_decide_eq_true|done].
  - intros (a0 & (r & st & Hr & Hs & Hf & Hres & Hc) & Ht). unfold saga_expect_ignored in Ht.
    destruct (reacted_result a0) as [[es|]|] eqn:Ha; [done| |done]. injection Ht as <-. rewrite <- Hres in Hf, Hc. cbn in Hf.
    exists r. split_and!; [done|by apply (reacted r st ev (Ok None))|]. destruct a0; cbn in *. naive_solver.
  - intros (r & Hr & Hh & ->). destruct (rehydrated_root _ _ _ Hr) as (st & Hs & _).
    apply (reacted r st ev (Ok None) Hs) in Hh. exists (MkReacted r (Ok None) []). split; [|done].
    exists r, st. by rewrite Hh.
Qed.
End saga_verdicts.

End fixture.

(** ** A test of the counter *)

Section counter_test.
#[local] Existing Instance target64.
#[local] Existing Instance counter.

#[local] Instance add_one : Handle (counter target64) byte 0 := {|
  decide_command st c := if byte.unsigned c =? 0 then Ok None else Ok (Some (MkEvents c [])) |}.
#[local] Instance byte_events : EqDecision (Event (Aggregate := counter target64)) := _ : EqDecision byte.

Definition five : byte := byte.of_Z 5.
Definition acted : Acted (A := counter target64) (N := 0) :=
  MkActed (MkRoot [] (Some 10) (Some INITIAL) 1) (Ok (Some (MkEvents five []))).

Lemma fixture_verdict_exact_witness :
  exists r es r', rehydrated (A := counter target64) [] [five] r /\ handle (N := 0) r five = Ok (Some es) /\ iter es = [five] /\
    commit_persisted r es = (r', Returns (Ok tt)) /\ acted = MkActed (set_state r (root_state r')) (Ok (Some es)).
Proof.
  apply (fixture_verdict_exact (N := 0) (with_id (A := counter target64) []) [five] five acted).
  - vm_compute. discriminate.
  - vm_compute. reflexivity.
Defined.
End counter_test.
