(* ===== verification/Books.v ===== *)
(** * Closing the books (examples/closing-the-books/src/main.rs)

    An application of the kernel without a store: histories kept as lists, a cashier's
    shift whose closing event carries the float to the next shift, and a register that
    never closes.  Amounts are checked 64-bit integers; a history that overflows leaves
    a state that refuses every further command.

    The theorems show that a root and the history recorded for it never drift apart
    (replaying the history rebuilds the state and the version), and that the histories
    commands make are balanced books: one opening, sums that fit 64 bits, at most one
    closing, whose overage or shortage is the exact difference of the tender. *)

From Stdlib Require Import String.
From S2P Require Import Prelude Utf8 Version Events Aggregate.
Close Scope string_scope.
Open Scope list_scope.

(** ** A stand-in for the repository *)

Lemma consecutive_unique start vs ws : consecutive start vs -> consecutive start ws -> length vs = length ws -> vs = ws.
Proof.
  revert start ws. induction vs as [|v vs IH]; intros start [|w ws]; cbn; try done. intros [Hv Hvs] [Hw Hws] [= Hl].
  f_equal; [apply as_u64_inj; congruence|by eapply IH].
Qed.

Section history.
Context {T : Target} {A : Aggregate}.
Notation History := (list (Version * Event)).

(** [record]: the decided events are added with their versions, the root folds them. *)
Definition record {N} (root : AggregateRoot) (history : History) (decided : Events Event N) : panicking (AggregateRoot * History) :=
  panicking_try (expect_ok (commit_version root decided)) (fun _ =>
  panicking_try (match root_version root with None => Returns INITIAL | Some v => expect (next v) end) (fun first =>
  panicking_try (expect (run first (events_len decided))) (fun run =>
  let pushed := zip (run_collect (Z.to_nat (events_len decided)) run) (iter decided) in
  match commit_persisted root decided with
  | (root, Returns (Ok _)) => Returns (root, history ++ pushed)
  | _ => Panics
  end))).

(** [replay_stream]. *)
Definition replay_stream (id : Id) (history : History) : panicking AggregateRoot :=
  match replay_all (root_new id) history with
  | (root, Returns (Ok _)) => Returns root
  | _ => Panics
  end.

(** Roots and histories made by recording what [decides] allows. *)
Inductive driven {N} (decides : AggregateRoot -> Events Event N -> Prop) (id : Id) : AggregateRoot -> History -> Prop :=
| driven_new : driven decides id (root_new id) []
| driven_record r h decided r' h' :
    driven decides id r h -> decides r decided -> record r h decided = Returns (r', h') -> driven decides id r' h'.

Lemma commit_first {N} r (decided : Events Event N) v :
  commit_version r decided = Ok v ->
  exists first run, match root_version r with None => Returns INITIAL | Some v => expect (next v) end = Returns first
    /\ Version.run first (events_len decided) = Some run
    /\ length (run_collect (Z.to_nat (events_len decided)) run) = length (iter decided)
    /\ consecutive (current_of r + 1) (run_collect (Z.to_nat (events_len decided)) run).
Proof.
  intros [_ Hv]%commit_version_spec.
  assert (events_len decided = Z.of_nat (length (iter decided))) as El by (unfold events_len, iter, len; simpl; lia).
  unfold len in Hv. pose proof (version_range v) as Hr.
  assert (1 <= Z.of_nat (length (iter decided))) as H1 by (unfold iter; simpl; lia).
  destruct (expected_version r) as [first|] eqn:He;
    [|unfold expected_version, current_of in *; destruct (root_version r) as [w|]; [|done];
      destruct (next w) eqn:Hn; [done|apply next_None in Hn; lia]].
  pose proof He as Hf. apply expected_version_spec in Hf.
  destruct (run_exact first (length (iter decided))) as [Hrun Hall].
  destruct (run first (Z.of_nat (length (iter decided)))) as [rn|] eqn:Ern; [|lia].
  exists first, rn. rewrite El, Nat2Z.id. rewrite <- Hf. split_and!; [|done|by eapply Hall..].
  unfold expected_version in He. destruct (root_version r) as [w|]; [|by simplify_eq].
  apply ok_or_Ok in He. by rewrite He.
Qed.

(** Recording succeeds exactly when the batch fits the version space and the fold does
    not panic; it adds the batch under the next versions. *)
Lemma record_spec {N} r h (decided : Events Event N) r' h' :
  record r h decided = Returns (r', h') <->
  exists s s' vs v, root_state r = Some s /\ apply_all s (iter decided) = Returns s' /\
    h' = h ++ zip vs (iter decided) /\ length vs = length (iter decided) /\ consecutive (current_of r + 1) vs /\
    as_u64 v = current_of r + len (iter decided) /\ r' = MkRoot (root_id r) (Some s') (Some v) (replayed_events r).
Proof.
  unfold record. destruct (commit_version r decided) as [cv|err] eqn:Hc; cbn [expect_ok panicking_try].
  - destruct (commit_first _ _ _ Hc) as (first & rn & -> & Hrun & Hl & Hcs). cbn [panicking_try].
    rewrite Hrun. cbn [expect panicking_try].
    split.
    + destruct (commit_persisted r decided) as [r1 [[[]|]|]] eqn:Hp; [|done..]. intros [= <- <-].
      apply commit_ok in Hp as (s & s' & v & Hs & Ha & Hv & ->).
      by exists s, s', (run_collect (Z.to_nat (events_len decided)) rn), v.
    + intros (s & s' & vs & w & Hs & Ha & -> & Hvl & Hvc & Hw & ->).
      assert (commit_persisted r decided = (MkRoot (root_id r) (Some s') (Some w) (replayed_events r), Returns (Ok tt))) as ->
        by (apply commit_ok; by exists s, s', w).
      by rewrite (consecutive_unique _ _ _ Hvc Hcs ltac:(congruence)).
  - split; [done|]. intros (s & s' & vs & w & Hs & _ & _ & _ & _ & Hw & _).
    enough (commit_version r decided = Ok w) by congruence. apply commit_version_spec. by rewrite Hs.
Qed.

(** What a driven root and its history have in common. *)
Lemma driven_inv {N} decides id r h :
  driven (N := N) decides id r h ->
  root_id r = id /\ replayed_events r = 0 /\ consecutive 1 h.*1 /\ current_of r = len h
  /\ exists s, root_state r = Some s /\ apply_all initial h.*2 = Returns s.
Proof.
  induction 1 as [|r h es r' h' _ (Hid & Hre & Hcs & Hcur & s & Hs & Ha) _ Hrec];
    [by split_and!; [..|exists initial]|].
  apply record_spec in Hrec as (s0 & s' & vs & v & Hs0 & Has & -> & Hl & Hc & Hv & ->). simplify_eq.
  assert ((zip vs (iter es)).*1 = vs) as E1 by (apply fst_zip; lia).
  assert ((zip vs (iter es)).*2 = iter es) as E2 by (apply snd_zip; lia).
  assert (len (zip vs (iter es)) = len (iter es)) as E3 by (unfold len; rewrite length_zip_with; lia).
  cbn. rewrite !fmap_app, E1, E2, len_app, E3, apply_all_app, Ha, Has. split_and!; try done.
  - apply consecutive_app. split; [done|]. unfold len. rewrite length_fmap. change (Z.of_nat (length h)) with (len h).
    by rewrite <- Hcur, Z.add_comm.
  - unfold current_of. cbn. lia.
  - by exists s'.
Qed.

(** A root and its recorded history never drift apart. *)
Lemma driven_replays {N} decides id r h :
  driven (N := N) decides id r h -> len h <= limit ->
  exists r', replay_stream id h = Returns r' /\ root_id r' = id /\ root_state r' = root_state r /\ root_version r' = root_version r.
Proof.
  intros (Hid & _ & Hcs & Hcur & s & Hs & Ha)%driven_inv Hl.
  exists (MkRoot id (Some s) (last h.*1) (len h)). unfold replay_stream.
  rewrite (proj2 (rehydrate_exact id h _) (conj Hcs (conj Hl (ex_intro _ s (conj Ha eq_refl))))).
  rewrite Hs. split_and!; [done..|]. cbn. unfold current_of in Hcur. destruct h as [|x h].
  - destruct (root_version r) as [w|]; [|done]. pose proof (version_range w). rewrite len_nil in Hcur. lia.
  - destruct (last (x :: h).*1) as [v|] eqn:E; [|by apply last_None in E].
    rewrite last_lookup, length_fmap in E. apply (consecutive_lookup _ _ _ _ Hcs) in E. cbn in E.
    unfold len in Hcur. cbn in Hcur. destruct (root_version r) as [w|]; [|lia]. f_equal. apply as_u64_inj. lia.
Qed.
End history.

Section demo_steps.
Context {T : Target} {A : Aggregate}.

(** The demos' calls: [handle(cmd).expect(..).expect(..)], and [record] of what it gave. *)
Definition decide_events {C N} `{!Handle A C N} (root : AggregateRoot) (cmd : C) : panicking (Events Event N) :=
  panicking_try (expect_ok (handle root cmd)) expect.

Definition decide_and_record {C N} `{!Handle A C N} (at_ : AggregateRoot * list (Version * Event)) (cmd : C)
  : panicking (AggregateRoot * list (Version * Event)) :=
  panicking_try (decide_events at_.1 cmd) (record at_.1 at_.2).

Fixpoint repeat_command {C N} `{!Handle A C N} (n : nat) (at_ : AggregateRoot * list (Version * Event)) (cmd : C)
  : panicking (AggregateRoot * list (Version * Event)) :=
  match n with
  | O => Returns at_
  | S n => panicking_try (decide_and_record at_ cmd) (fun at_ => repeat_command n at_ cmd)
  end.
End demo_steps.

(** A [u64] amount. *)
Definition amount_ok (n : Z) : Prop := 0 <= n <= u64_max.
Definition amounts_ok (l : list Z) : Prop := Forall amount_ok l.
Definition total (l : list Z) : Z := fold_right Z.add 0 l.

Lemma total_snoc l n : total (l ++ [n]) = total l + n.
Proof. induction l as [|m l IH]; cbn; [lia|]. unfold total in IH. lia. Qed.

Lemma total_nonneg l : amounts_ok l -> 0 <= total l.
Proof. induction 1 as [|n l [? ?] _ IH]; cbn; [lia|]. unfold total in IH. lia. Qed.

(** ** The cashier's shift *)

Module Shift.

Record CashierShiftId : Type := MkShiftId { register : bytes; shift_number : Z; urn : bytes }.

Definition id_new (register : bytes) (shift_number : Z) : CashierShiftId :=
  MkShiftId register shift_number (text "urn:cashier_shift:" ++ register ++ text ":" ++ dec shift_number).

Record ShiftOpened : Type := MkShiftOpened { so_opening_float : Z }.
Record TransactionRegistered : Type := MkTransaction { tr_amount : Z }.
Record ShiftClosed : Type := MkShiftClosed { declared_tender : Z; overage : Z; shortage : Z; final_float : Z }.

Inductive ShiftEvent : Type :=
| Opened (e : ShiftOpened)
| Registered (e : TransactionRegistered)
| Closed (e : ShiftClosed).

Inductive ShiftError : Type :=
| AlreadyOpen
| NotOpen
| AmountOverflow (total amount : Z).

Record ShiftState : Type := MkShiftState {
  opening_float : Z;
  registered_total : result Z ShiftError;
  is_open : bool;
  closed : bool;
}.

Definition total_after (s : ShiftState) (amount : Z) : result Z ShiftError :=
  let? total := registered_total s in
  let? updated := ok_or (checked_add u64_max total amount) (AmountOverflow total amount) in
  let? _ := ok_or (checked_add u64_max (opening_float s) updated) (AmountOverflow (opening_float s) updated) in
  Ok updated.

Definition shift_initial : ShiftState := MkShiftState 0 (Ok 0) false false.

Definition shift_apply (s : ShiftState) (event : ShiftEvent) : ShiftState :=
  match registered_total s with
  | Err _ => s
  | Ok _ =>
      match event with
      | Opened e => MkShiftState (so_opening_float e) (Ok 0) true (closed s)
      | Registered e => MkShiftState (opening_float s) (total_after s (tr_amount e)) (is_open s) (closed s)
      | Closed _ => MkShiftState (opening_float s) (registered_total s) false true
      end
  end.

Section aggregate.
Context {T : Target}.

#[export] Instance cashier_shift : Aggregate := {
  State := ShiftState;
  Event := ShiftEvent;
  AError := ShiftError;
  Id := CashierShiftId;
  initial := shift_initial;
  apply s e := Returns (shift_apply s e);
  event_name e := match e with Opened _ => text "Opened" | Registered _ => text "TransactionRegistered" | Closed _ => text "Closed" end;
  event_name_utf8 e := match e with Opened _ | Registered _ | Closed _ => eq_refl end;
  id_as_ref := urn;
  MAX_REHYDRATION_EVENTS := DEFAULT_MAX_REHYDRATION_EVENTS;
}.

Record OpenShift : Type := MkOpenShift { os_opening_float : Z }.
Record RegisterTransaction : Type := MkRegisterTransaction { rt_amount : Z }.
Record CloseShift : Type := MkCloseShift { cs_declared_tender : Z }.

Definition handle_open_shift (s : ShiftState) (cmd : OpenShift) : result (option (Events ShiftEvent 0)) ShiftError :=
  let? _ := registered_total s in
  if is_open s || closed s then Err AlreadyOpen
  else Ok (Some (events_new (Opened (MkShiftOpened (os_opening_float cmd))))).

Definition handle_register_transaction (s : ShiftState) (cmd : RegisterTransaction) : result (option (Events ShiftEvent 0)) ShiftError :=
  let? _ := registered_total s in
  if negb (is_open s) then Err NotOpen
  else
    let? _ := total_after s (rt_amount cmd) in
    Ok (Some (events_new (Registered (MkTransaction (rt_amount cmd))))).

Definition handle_close_shift (s : ShiftState) (cmd : CloseShift) : result (option (Events ShiftEvent 0)) ShiftError :=
  let? total := registered_total s in
  if negb (is_open s) then Err NotOpen
  else
    let? expected := ok_or (checked_add u64_max (opening_float s) total) (AmountOverflow (opening_float s) total) in
    let tender := cs_declared_tender cmd in
    let difference := Z.abs (tender - expected) in
    let overage := if expected <? tender then difference else 0 in
    let shortage := if tender <? expected then difference else 0 in
    Ok (Some (events_new (Closed (MkShiftClosed tender overage shortage tender)))).

#[export] Instance open_handler : Handle cashier_shift OpenShift 0 := {| decide_command := handle_open_shift |}.
#[export] Instance register_handler : Handle cashier_shift RegisterTransaction 0 := {| decide_command := handle_register_transaction |}.
#[export] Instance close_handler : Handle cashier_shift CloseShift 0 := {| decide_command := handle_close_shift |}.

(** A command of the shift whose amount is a [u64]. *)
Definition shift_decides (r : AggregateRoot) (es : Events ShiftEvent 0) : Prop :=
  (exists n, amount_ok n /\ handle r (MkOpenShift n) = Ok (Some es))
  \/ (exists n, amount_ok n /\ handle r (MkRegisterTransaction n) = Ok (Some es))
  \/ (exists n, amount_ok n /\ handle r (MkCloseShift n) = Ok (Some es)).

(** Balanced books: the events of a shift and the state they leave. *)
Definition takings (amounts : list Z) : list ShiftEvent := (fun n => Registered (MkTransaction n)) <$> amounts.

Definition settled (float sum : Z) (c : ShiftClosed) : Prop :=
  declared_tender c + shortage c = float + sum + overage c
  /\ (overage c = 0 \/ shortage c = 0) /\ 0 <= overage c /\ 0 <= shortage c
  /\ final_float c = declared_tender c /\ amount_ok (final_float c).

Inductive book : list ShiftEvent -> ShiftState -> Prop :=
| book_new : book [] shift_initial
| book_open float amounts :
    amount_ok float -> amounts_ok amounts -> float + total amounts <= u64_max ->
    book (Opened (MkShiftOpened float) :: takings amounts) (MkShiftState float (Ok (total amounts)) true false)
| book_closed float amounts c :
    amount_ok float -> amounts_ok amounts -> float + total amounts <= u64_max -> settled float (total amounts) c ->
    book (Opened (MkShiftOpened float) :: takings amounts ++ [Closed c]) (MkShiftState float (Ok (total amounts)) false true).

Lemma total_after_ok s n t m :
  registered_total s = Ok t -> 0 <= opening_float s ->
  total_after s n = Ok m <-> m = t + n /\ opening_float s + m <= u64_max.
Proof.
  intros Ht Hf. unfold total_after. rewrite Ht. cbn.
  destruct (checked_add u64_max t n) as [u|] eqn:E1; cbn.
  - apply checked_add_Some in E1 as [-> E1]. destruct (checked_add u64_max (opening_float s) (t + n)) as [w|] eqn:E2; cbn.
    + apply checked_add_Some in E2 as [-> E2]. naive_solver.
    + apply checked_add_None in E2. split; [done|]. lia.
  - apply checked_add_None in E1. split; [done|]. lia.
Qed.

Lemma book_command evs s r es :
  book evs s -> root_state r = Some s -> shift_decides r es ->
  exists e, es = events_new e /\ book (evs ++ [e]) (shift_apply s e).
Proof.
  intros Hb Hs Hd. unfold shift_decides, handle, state in Hd. rewrite Hs in Hd. cbn -[total_after] in Hd.
  destruct Hd as [(n & Hn & Hd)|[(n & Hn & Hd)|(n & Hn & Hd)]].
  - destruct Hb as [|float l|float l c]; cbn in Hd; simplify_eq/=.
    eexists. split; [done|]. apply (book_open n []); [done|by constructor|cbn; unfold amount_ok in Hn; lia].
  - destruct Hb as [|float l Hf Hl Ht|float l c]; cbn -[total_after] in Hd; simplify_eq.
    set (s := MkShiftState float (Ok (total l)) true false) in *.
    destruct (total_after s n) as [m|] eqn:E; cbn -[total_after] in Hd; simplify_eq.
    pose proof E as [-> Hm]%(total_after_ok s n (total l)); [|done|unfold amount_ok in Hf; cbn; lia].
    eexists. split; [done|]. unfold shift_apply. cbn -[total_after]. rewrite E, <- total_snoc.
    replace [Registered (MkTransaction n)] with (takings [n]) by done. unfold takings. rewrite <- fmap_app.
    apply book_open; [done|apply Forall_app; split; [done|by constructor]|]. rewrite total_snoc. cbn in Hm. lia.
  - destruct Hb as [|float l Hf Hl Ht|float l c]; cbn in Hd; simplify_eq/=.
    unfold handle_close_shift in Hd. cbn in Hd. rewrite checked_add_ok in Hd by done. cbn in Hd. simplify_eq/=.
    eexists. split; [done|]. cbn [app]. apply book_closed; [done..|]. unfold settled, amount_ok in *. cbn.
    destruct (Z.ltb_spec (float + total l) n), (Z.ltb_spec n (float + total l)); lia.
Qed.

Lemma driven_book id r h : driven shift_decides id r h -> exists s, root_state r = Some s /\ book h.*2 s.
Proof.
  induction 1 as [|r h es r' h' _ (s & Hs & Hb) Hd Hrec]; [exists shift_initial; split; [done|constructor]|].
  destruct (book_command _ _ _ _ Hb Hs Hd) as (e & -> & Hb').
  apply record_spec in Hrec as (s0 & s' & vs & v & Hs0 & Ha & -> & Hl & _ & _ & ->).
  cbn in Ha, Hl. simplify_eq. exists (shift_apply s e). split; [done|].
  rewrite fmap_app, snd_zip by (cbn; lia). done.
Qed.

(** The history that commands make for a cashier's shift is a balanced book: nothing,
    or one opening followed by the transactions, or those and one closing.  The float and
    the takings together fit 64 bits, the state holds exactly their sums, and the closing
    settles them: tender and shortage are float, takings and overage, at most one of
    shortage and overage is not zero, and the float carried on is the tender.  While the
    shift is open a close is never refused, a transaction is accepted exactly if the
    books still fit 64 bits with it, and what is decided is recorded while a version is
    left.  Replaying the history rebuilds the state and the version. *)
Theorem shift_books_balance id r h :
  driven shift_decides id r h ->
  exists s, root_state r = Some s /\ book h.*2 s
    /\ (len h <= limit -> exists r', replay_stream id h = Returns r' /\ root_state r' = Some s /\ root_version r' = root_version r)
    /\ (forall n, amount_ok n -> is_open s = true -> exists es, handle r (MkCloseShift n) = Ok (Some es))
    /\ (forall n sum, amount_ok n -> is_open s = true -> registered_total s = Ok sum ->
         (exists es, handle r (MkRegisterTransaction n) = Ok (Some es)) <-> opening_float s + sum + n <= u64_max)
    /\ (forall es, shift_decides r es -> current_of r < u64_max -> exists r' h', record r h es = Returns (r', h')).
Proof.
  intros Hdr. destruct (driven_book _ _ _ Hdr) as (s & Hs & Hb). exists s. do 2 (split; [done|]).
  unfold shift_decides, handle, state. rewrite Hs. cbn [ok_or map_err result_bind].
  split_and!.
  - intros Hl. destruct (driven_replays _ _ _ _ Hdr Hl) as (r' & ? & _ & Hst & ?). exists r'. by rewrite Hst.
  - intros n Hn Ho. destruct Hb as [|float l Hf Hl Ht|]; [done| |done].
    cbn. unfold handle_close_shift. cbn. rewrite checked_add_ok by done. by eexists.
  - intros n sum Hn Ho Hsum. cbn. unfold handle_register_transaction. rewrite Hsum, Ho. cbn.
    assert (0 <= opening_float s) as Hf by (destruct Hb; cbn; unfold amount_ok in *; lia).
    pose proof (fun m => total_after_ok s n sum m Hsum Hf) as Hta.
    destruct (total_after s n) as [m|e] eqn:E; cbn.
    + pose proof (proj1 (Hta m) eq_refl) as [-> ?]. split; [lia|]. by eexists.
    + split; [by intros [? ?]|]. intros Hle. enough (Err e = Ok (sum + n)) by done. apply Hta. lia.
  - intros es Hd Hv. destruct (book_command _ _ _ es Hb Hs) as (e & -> & _).
    { unfold shift_decides, handle, state. by rewrite Hs. }
    destruct (driven_inv _ _ _ _ Hdr) as (_ & _ & _ & Hcur & _). pose proof (len_nonneg h).
    destruct (new_in_range (current_of r + 1)) as (v & Ev & Hv'); [lia|]. do 2 eexists.
    apply record_spec. exists s, (shift_apply s e), [v], v. split_and!; try done; cbn; lia.
Qed.

(** A history whose sums overflow leaves a state nothing changes any more, and every
    command is answered with the overflow. *)
Lemma shift_overflow_sticks s e :
  registered_total s = Err e ->
  (forall evs, foldl shift_apply s evs = s) /\ (forall c, handle_open_shift s c = Err e)
  /\ (forall c, handle_register_transaction s c = Err e) /\ (forall c, handle_close_shift s c = Err e).
Proof.
  intros He. unfold handle_open_shift, handle_register_transaction, handle_close_shift. rewrite He. split_and!; try done.
  intros evs. induction evs as [|ev evs IH]; [done|]. cbn. unfold shift_apply at 2. by rewrite He.
Qed.
End aggregate.

(** Shifts have different storage keys, whatever the registers are called. *)
Lemma last_separator {A} (c : A) l d l' d' : c ∉ d -> c ∉ d' -> l ++ c :: d = l' ++ c :: d' -> l = l' /\ d = d'.
Proof.
  intros Hd Hd' [([|x k] & -> & E)|([|x k] & -> & E)]%app_eq_inv; cbn in E; simplify_eq/=;
    try (by rewrite ?app_nil_r); exfalso; set_solver.
Qed.

Lemma shift_keys_distinct reg n reg' n' :
  0 <= n -> 0 <= n' -> urn (id_new reg n) = urn (id_new reg' n') -> reg = reg' /\ n = n'.
Proof.
  intros Hn Hn' E. cbn in E. simplify_eq. assert (forall z, byte.of_Z 58 ∉ dec z) as Hno.
  { intros z Hin. pose proof (digits_chars (N.to_uint (Z.to_N z))) as Hc. rewrite Forall_forall in Hc. apply Hc in Hin.
    vm_compute in Hin. naive_solver lia. }
  destruct (last_separator (byte.of_Z 58) reg (dec n) reg' (dec n')) as [-> Hdec]; [done..|]. by split; [|apply dec_inj].
Qed.
End Shift.

(** ** The register that never closes *)

Module Register.

Definition RegisterId : Type := bytes.

Record RegisterOpened : Type := MkRegisterOpened { ro_opening_float : Z }.
Record SaleRegistered : Type := MkSaleRegistered { sr_amount : Z }.

Inductive RegisterEvent : Type :=
| Opened (e : RegisterOpened)
| Sale (e : SaleRegistered).

Inductive RegisterError : Type :=
| AlreadyOpen
| NotOpen
| AmountOverflow (total amount : Z).

Record RegisterState : Type := MkRegisterState { float : result Z RegisterError; is_open : bool }.

Definition float_after (s : RegisterState) (amount : Z) : result Z RegisterError :=
  let? total := float s in
  ok_or (checked_add u64_max total amount) (AmountOverflow total amount).

Definition register_initial : RegisterState := MkRegisterState (Ok 0) false.

Definition register_apply (s : RegisterState) (event : RegisterEvent) : RegisterState :=
  match float s with
  | Err _ => s
  | Ok _ =>
      match event with
      | Opened e => MkRegisterState (Ok (ro_opening_float e)) true
      | Sale e => MkRegisterState (float_after s (sr_amount e)) (is_open s)
      end
  end.

Section aggregate.
Context {T : Target}.

#[export] Instance cash_register : Aggregate := {
  State := RegisterState;
  Event := RegisterEvent;
  AError := RegisterError;
  Id := RegisterId;
  initial := register_initial;
  apply s e := Returns (register_apply s e);
  event_name e := match e with Opened _ => text "Opened" | Sale _ => text "Sale" end;
  event_name_utf8 e := match e with Opened _ | Sale _ => eq_refl end;
  id_as_ref id := id;
  MAX_REHYDRATION_EVENTS := DEFAULT_MAX_REHYDRATION_EVENTS;
}.

Record OpenRegister : Type := MkOpenRegister { or_opening_float : Z }.
Record RegisterSale : Type := MkRegisterSale { rs_amount : Z }.

Definition handle_open_register (s : RegisterState) (cmd : OpenRegister) : result (option (Events RegisterEvent 0)) RegisterError :=
  let? _ := float s in
  if is_open s then Err AlreadyOpen
  else Ok (Some (events_new (Opened (MkRegisterOpened (or_opening_float cmd))))).

Definition handle_register_sale (s : RegisterState) (cmd : RegisterSale) : result (option (Events RegisterEvent 0)) RegisterError :=
  let? _ := float s in
  if negb (is_open s) then Err NotOpen
  else
    let? _ := float_after s (rs_amount cmd) in
    Ok (Some (events_new (Sale (MkSaleRegistered (rs_amount cmd))))).

#[export] Instance open_handler : Handle cash_register OpenRegister 0 := {| decide_command := handle_open_register |}.
#[export] Instance sale_handler : Handle cash_register RegisterSale 0 := {| decide_command := handle_register_sale |}.

Definition register_decides (r : AggregateRoot) (es : Events RegisterEvent 0) : Prop :=
  (exists n, amount_ok n /\ handle r (MkOpenRegister n) = Ok (Some es))
  \/ (exists n, amount_ok n /\ handle r (MkRegisterSale n) = Ok (Some es)).

Definition sales (amounts : list Z) : list RegisterEvent := (fun n => Sale (MkSaleRegistered n)) <$> amounts.

(** The events of a register and the state they leave. *)
Inductive journal : list RegisterEvent -> RegisterState -> Prop :=
| journal_new : journal [] register_initial
| journal_open n amounts :
    amount_ok n -> amounts_ok amounts -> n + total amounts <= u64_max ->
    journal (Opened (MkRegisterOpened n) :: sales amounts) (MkRegisterState (Ok (n + total amounts)) true).

Lemma journal_command evs s r es :
  journal evs s -> root_state r = Some s -> register_decides r es ->
  exists e, es = events_new e /\ journal (evs ++ [e]) (register_apply s e).
Proof.
  intros Hj Hs Hd. unfold register_decides, handle, state in Hd. rewrite Hs in Hd. cbn -[float_after] in Hd.
  destruct Hd as [(n & Hn & Hd)|(n & Hn & Hd)].
  - destruct Hj as [|m l]; cbn in Hd; simplify_eq. eexists. split; [done|]. cbn.
    replace (Ok n : result Z RegisterError) with (Ok (n + total []) : result Z RegisterError) by (cbn; by rewrite Z.add_0_r).
    apply (journal_open n []); [done|by constructor|unfold amount_ok in Hn; cbn; lia].
  - destruct Hj as [|m l Hm Hl Ht]; cbn -[checked_add] in Hd; simplify_eq.
    destruct (checked_add u64_max (m + total l) n) as [u|] eqn:E; cbn -[checked_add] in Hd; simplify_eq.
    eexists. split; [done|]. unfold register_apply, float_after. cbn -[checked_add]. rewrite E. cbn.
    apply checked_add_Some in E as [-> E]. rewrite <- Z.add_assoc, <- total_snoc.
    replace [Sale (MkSaleRegistered n)] with (sales [n]) by done. unfold sales. rewrite <- fmap_app.
    apply journal_open; [done|apply Forall_app; split; [done|by constructor]|]. rewrite total_snoc. lia.
Qed.

(** The history commands make for a register is one opening followed by the sales, its
    float is exactly their sum, which fits 64 bits, and replaying the history rebuilds
    the state and the version. *)
Theorem register_float_exact id r h :
  driven register_decides id r h ->
  exists s, root_state r = Some s /\ journal h.*2 s
    /\ (len h <= limit -> exists r', replay_stream id h = Returns r' /\ root_state r' = Some s /\ root_version r' = root_version r).
Proof.
  intros Hdr. enough (exists s, root_state r = Some s /\ journal h.*2 s) as (s & Hs & Hj).
  { exists s. do 2 (split; [done|]). intros Hl. destruct (driven_replays _ _ _ _ Hdr Hl) as (r' & ? & _ & Hst & ?).
    exists r'. by rewrite Hst. }
  induction Hdr as [|r h es r' h' _ (s & Hs & Hj) Hd Hrec]; [exists register_initial; split; [done|constructor]|].
  destruct (journal_command _ _ _ _ Hj Hs Hd) as (e & -> & Hj').
  apply record_spec in Hrec as (s0 & s' & vs & v & Hs0 & Ha & -> & Hl & _ & _ & ->).
  cbn in Ha, Hl. simplify_eq. exists (register_apply s e). split; [done|]. rewrite fmap_app, snd_zip by (cbn; lia). done.
Qed.

Lemma register_overflow_sticks s e :
  float s = Err e ->
  (forall evs, foldl register_apply s evs = s) /\ (forall c, handle_open_register s c = Err e) /\ (forall c, handle_register_sale s c = Err e).
Proof.
  intros He. unfold handle_open_register, handle_register_sale. rewrite He. split_and!; try done.
  intros evs. induction evs as [|ev evs IH]; [done|]. cbn. unfold register_apply at 2. by rewrite He.
Qed.
End aggregate.
End Register.

(** ** The demos: what they print *)

Section demos.
Context {T : Target}.
#[local] Existing Instances Register.open_handler Register.sale_handler.
#[local] Existing Instances Shift.open_handler Shift.register_handler Shift.close_handler.

(** The number of events replayed and the float. *)
Definition run_long_lived_demo : panicking (Z * Z) :=
  let id : Register.RegisterId := text "till-1" in
  let register := root_new (T := T) (A := Register.cash_register) id in
  panicking_try (decide_and_record (register, []) (Register.MkOpenRegister 100)) (fun at_ =>
  panicking_try (repeat_command 5000 at_ (Register.MkRegisterSale 1)) (fun at_ =>
  let stream := at_.2 in
  panicking_try (replay_stream (A := Register.cash_register) id stream) (fun root =>
  panicking_try (expect_ok (state root)) (fun st =>
  panicking_try (expect_ok (Register.float st)) (fun current => Returns (len stream, current)))))).

(** The length of the first shift's stream and its final float, then the length of the
    second shift's stream and its registered total. *)
Definition run_cashier_shift_demo : panicking (Z * Z * (Z * Z)) :=
  let shift1_id := Shift.id_new (text "till-1") 1 in
  let shift1 := root_new (T := T) (A := Shift.cashier_shift) shift1_id in
  panicking_try (decide_and_record (shift1, []) (Shift.MkOpenShift 100)) (fun at_ =>
  panicking_try (repeat_command 10 at_ (Shift.MkRegisterTransaction 1)) (fun at_ =>
  panicking_try (decide_events at_.1 (Shift.MkCloseShift 110)) (fun closed =>
  panicking_try (expect (head (omap (fun e => match e with
    | Shift.Closed c => Some (Shift.final_float c)
    | Shift.Opened _ | Shift.Registered _ => None
    end) (iter closed)))) (fun final_float =>
  panicking_try (record at_.1 at_.2 closed) (fun at1 =>
  let shift2_id := Shift.id_new (Shift.register shift1_id) (Shift.shift_number shift1_id + 1) in
  let shift2 := root_new (T := T) (A := Shift.cashier_shift) shift2_id in
  panicking_try (decide_and_record (shift2, []) (Shift.MkOpenShift final_float)) (fun at_ =>
  panicking_try (repeat_command 10 at_ (Shift.MkRegisterTransaction 1)) (fun at2 =>
  panicking_try (replay_stream (A := Shift.cashier_shift) shift2_id at2.2) (fun shift2_root =>
  panicking_try (expect_ok (state shift2_root)) (fun st =>
  panicking_try (expect_ok (Shift.registered_total st)) (fun registered =>
  Returns (len at1.2, final_float, (len at2.2, registered)))))))))))).
End demos.

(** Both demos run to their end: reading the register's float replays every event, the
    current shift only its own. *)
Example long_lived_demo_prints : run_long_lived_demo (T := target64) = Returns (5001, 5100).
Proof. vm_compute. reflexivity. Qed.

Example cashier_shift_demo_prints : run_cashier_shift_demo (T := target64) = Returns (12, 110, (11, 10)).
Proof. vm_compute. reflexivity. Qed.

(** ** Witness: a shift opened with 100, a sale of 20, closed with 115 *)

Section shift_witness.
#[local] Existing Instance target64.
#[local] Existing Instances Shift.cashier_shift Shift.open_handler Shift.register_handler Shift.close_handler.
#[local] Notation at_shift := (AggregateRoot (A := Shift.cashier_shift) * list (Version * Shift.ShiftEvent))%type.

Definition returned {A} (a : A) (p : panicking A) : A := match p with Returns b => b | Panics => a end.
Definition till : Shift.CashierShiftId := Shift.id_new (text "till-1") 1.
Definition till_new : at_shift := (root_new (A := Shift.cashier_shift) till, []).
Definition till_open : at_shift := returned till_new (decide_and_record till_new (Shift.MkOpenShift 100)).
Definition till_sold : at_shift := returned till_open (decide_and_record till_open (Shift.MkRegisterTransaction 20)).
Definition till_closed : at_shift := returned till_sold (decide_and_record till_sold (Shift.MkCloseShift 115)).

Lemma till_driven : driven Shift.shift_decides till till_closed.1 till_closed.2.
Proof.
  assert (forall n, 0 <= n <= 1000 -> amount_ok n) as Hok by (unfold amount_ok, u64_max; lia).
  apply (driven_record _ _ till_sold.1 till_sold.2 (events_new (Shift.Closed (Shift.MkShiftClosed 115 0 5 115)))); [|by right; right; exists 115; split; [apply Hok|]|reflexivity].
  apply (driven_record _ _ till_open.1 till_open.2 (events_new (Shift.Registered (Shift.MkTransaction 20)))); [|by right; left; exists 20; split; [apply Hok|]|reflexivity].
  apply (driven_record _ _ till_new.1 till_new.2 (events_new (Shift.Opened (Shift.MkShiftOpened 100)))); [|by left; exists 100; split; [apply Hok|]|reflexivity].
  exact (driven_new Shift.shift_decides till).
Qed.

Lemma shift_books_balance_witness :
  till_closed.2.*2 = [Shift.Opened (Shift.MkShiftOpened 100); Shift.Registered (Shift.MkTransaction 20); Shift.Closed (Shift.MkShiftClosed 115 0 5 115)]
  /\ exists s, root_state till_closed.1 = Some s /\ Shift.book till_closed.2.*2 s.
Proof.
  split; [vm_compute; reflexivity|].
  destruct (Shift.shift_books_balance till till_closed.1 till_closed.2 till_driven) as (s & Hs & Hb & _). by exists s.
Defined.
End shift_witness.
