(* ===== verification/Value.v ===== *)
(** * Validated envelope fields (crates/store/src/value.rs) *)

From S2P Require Import Prelude Utf8 Version.

Definition MAX_EVENT_TYPE_LEN : Z := u16_max.
Definition MAX_METADATA_LEN : Z := u32_max - 1.
Definition MAX_PAYLOAD_LEN : Z := u32_max.

Inductive ValueError : Type :=
| EventTypeTooLong (actual : Z)
| EventTypeInvalidUtf8 (valid_up_to : Z) (source : Utf8Error)
| PayloadTooLong (actual : Z)
| MetadataTooLong (actual : Z)
| MetadataEmpty
| SchemaVersionZero.

Record EventType : Type := MkEventType { et_bytes : bytes }.
Record Payload : Type := MkPayload { pl_bytes : bytes }.
Record Metadata : Type := MkMetadata { md_bytes : bytes }.
Record SchemaVersion : Type := MkSchemaVersion { sv_nz : NonZero u32_max }.

#[export] Instance event_type_eq_dec : EqDecision EventType.
Proof. solve_decision. Defined.
#[export] Instance payload_eq_dec : EqDecision Payload.
Proof. solve_decision. Defined.
#[export] Instance metadata_eq_dec : EqDecision Metadata.
Proof. solve_decision. Defined.
#[export] Instance schema_version_eq_dec : EqDecision SchemaVersion.
Proof. solve_decision. Defined.

Module EventType.
(** [EventType::from_static_str]: a literal is UTF-8; an oversize one panics. *)
Definition from_static_str (s : bytes) : panicking EventType :=
  if len s <=? MAX_EVENT_TYPE_LEN then Returns (MkEventType s) else Panics.
Definition from_bytes (b : bytes) : result EventType ValueError :=
  if MAX_EVENT_TYPE_LEN <? len b then Err (EventTypeTooLong (len b))
  else
    let? _ := map_err (fun e => EventTypeInvalidUtf8 (valid_up_to e) e) (from_utf8 b) in
    Ok (MkEventType b).
End EventType.

Module Payload.
Definition from_bytes (b : bytes) : result Payload ValueError :=
  if MAX_PAYLOAD_LEN <? len b then Err (PayloadTooLong (len b)) else Ok (MkPayload b).
End Payload.

Module Metadata.
Definition from_bytes (b : bytes) : result Metadata ValueError :=
  if bool_decide (b = []) then Err MetadataEmpty
  else if MAX_METADATA_LEN <? len b then Err (MetadataTooLong (len b))
  else Ok (MkMetadata b).
End Metadata.

Module SchemaVersion.
Definition INITIAL : SchemaVersion := MkSchemaVersion (MkNonZero (max := u32_max) 1 eq_refl).
Definition get (sv : SchemaVersion) : Z := nz_get (sv_nz sv).
Definition from_u32 (value : Z) : result SchemaVersion ValueError :=
  ok_or (MkSchemaVersion <$> nz_new value) SchemaVersionZero.
End SchemaVersion.

(** ** The invariants the newtypes own *)

Definition event_type_ok (e : EventType) : Prop :=
  utf8_valid (et_bytes e) = true /\ len (et_bytes e) <= MAX_EVENT_TYPE_LEN.
Definition payload_ok (p : Payload) : Prop := len (pl_bytes p) <= MAX_PAYLOAD_LEN.
Definition metadata_ok (m : Metadata) : Prop := 1 <= len (md_bytes m) <= MAX_METADATA_LEN.

Lemma event_type_from_bytes_spec b e :
  EventType.from_bytes b = Ok e <-> e = MkEventType b /\ event_type_ok e.
Proof.
  unfold EventType.from_bytes, event_type_ok, utf8_valid.
  destruct (Z.ltb_spec MAX_EVENT_TYPE_LEN (len b)).
  - split; [done|]. intros [-> [_ ?]]. simpl in *. lia.
  - destruct (from_utf8 b) eqn:E; simpl.
    + split; [intros [= <-]; simpl; by rewrite E|]. by intros [-> _].
    + split; [done|]. intros [-> [Hv _]]. simpl in Hv. by rewrite E in Hv.
Qed.

Lemma payload_from_bytes_spec b p :
  Payload.from_bytes b = Ok p <-> p = MkPayload b /\ payload_ok p.
Proof.
  unfold Payload.from_bytes, payload_ok. destruct (Z.ltb_spec MAX_PAYLOAD_LEN (len b)).
  - split; [done|]. intros [-> ?]. simpl in *. lia.
  - split; [by intros [= <-]|]. by intros [-> _].
Qed.

Lemma metadata_from_bytes_spec b m :
  Metadata.from_bytes b = Ok m <-> m = MkMetadata b /\ metadata_ok m.
Proof.
  unfold Metadata.from_bytes, metadata_ok. case_bool_decide as Hb.
  - subst. split; [done|]. intros [-> Hl]. simpl in Hl. rewrite len_nil in Hl. lia.
  - assert (1 <= len b) by (destruct b; [done|rewrite len_cons; pose proof (len_nonneg b0); lia]).
    destruct (Z.ltb_spec MAX_METADATA_LEN (len b)).
    + split; [done|]. intros [-> ?]. simpl in *. lia.
    + split; [by intros [= <-]|]. by intros [-> _].
Qed.

Lemma schema_range sv : 1 <= SchemaVersion.get sv <= u32_max.
Proof. apply nz_range. Qed.

Lemma schema_from_u32_get sv : SchemaVersion.from_u32 (SchemaVersion.get sv) = Ok sv.
Proof.
  unfold SchemaVersion.from_u32, SchemaVersion.get. rewrite nz_new_get. by destruct sv.
Qed.
