(* ===== verification/Wire.v ===== *)
(** * The frame format (crates/store/src/wire.rs)

    [encode_frame] is layout arithmetic ([plan]) followed by a buffer fill
    ([execute]); [decode_frame] reads a V2 frame, and a V1 frame by skipping its
    eight [global_seq] bytes.  Payload offsets are multiples of 16. *)

From S2P Require Import Prelude Utf8 Version Value.
From coqutil Require Import Word.LittleEndianList.

Definition PAYLOAD_ALIGN : Z := 16.
Definition HEADER_FIXED_SIZE : Z := 11.
Definition VERSION_OFFSET : Z := 0.
Definition SCHEMA_VERSION_OFFSET : Z := 1.
Definition HEADER_FIXED_SIZE_V1 : Z := 19.
Definition SCHEMA_VERSION_OFFSET_V1 : Z := 9.
Definition META_LEN_ABSENT : Z := u32_max.

Definition align_padding (offset align : Z) : Z := (align - offset mod align) mod align.

(** [to_le_bytes] and [from_le_bytes] at [n] bytes. *)
Definition to_le_bytes (n : nat) (z : Z) : bytes := le_split n z.
Definition from_le_bytes (b : bytes) : Z := le_combine b.

Inductive FrameFormatVersion : Type := V1 | V2.

Definition CURRENT : FrameFormatVersion := V2.

Definition to_u8 (v : FrameFormatVersion) : Z :=
  match v with V1 => 1 | V2 => 2 end.

Definition from_u8 (b : Z) : option FrameFormatVersion :=
  if b =? 1 then Some V1 else if b =? 2 then Some V2 else None.

(** [core::ops::Range<u32>]. *)
Record Range : Type := MkRange { r_start : Z; r_end : Z }.

Record FrameHeader : Type := MkFrameHeader {
  format_version : FrameFormatVersion;
  fh_schema_version : Z;
  event_type_len : Z;
  metadata_len : option Z;
}.

Inductive WireError : Type :=
| FrameLengthOverflow (header padding payload : Z).

Inductive DecodeError : Type :=
| ValueTooShort (min actual : Z)
| UnsupportedFrameVersion (version : Z)
| EventTypeTruncated (et_len value_len : Z)
| MetadataTruncated (meta_len value_len : Z)
| OffsetOverflow (value_len : Z)
| CorruptSchemaVersion.

Record FrameOffsets : Type := MkFrameOffsets {
  fo_event_type : Range;
  fo_metadata : option Range;
  fo_payload : Range;
}.

Record EncodedFrame : Type := MkEncodedFrame { ef_value : bytes; ef_offsets : FrameOffsets }.

Record DecodedFrame : Type := MkDecodedFrame { df_schema_version : SchemaVersion; df_offsets : FrameOffsets }.

Record FrameLayout : Type := MkFrameLayout {
  fl_event_type : Range;
  fl_metadata : option Range;
  fl_payload : Range;
  fl_padding : Z;
  fl_total : Z;
}.

Record FramePlan : Type := MkFramePlan {
  fp_header : FrameHeader;
  fp_event_type_bytes : bytes;
  fp_metadata : option bytes;
  fp_payload : bytes;
  fp_layout : FrameLayout;
}.

Section wire.
Context {T : Target}.

(** [FrameHeader::from_validated_lengths]: a length that does not fit its wire
    field panics ([expect]). *)
Definition from_validated_lengths (fv : FrameFormatVersion) (schema_version et_len : Z)
  (meta_len : option Z) : panicking FrameHeader :=
  match try_from u16_max et_len with
  | None => Panics
  | Some et =>
      match meta_len with
      | None => Returns (MkFrameHeader fv schema_version et None)
      | Some n =>
          match try_from u32_max n with
          | None => Panics
          | Some m => Returns (MkFrameHeader fv schema_version et (Some m))
          end
      end
  end.

(** The bytes [FrameHeader::write_into] appends to the buffer. *)
Definition write_into (h : FrameHeader) : bytes :=
  let meta_field := default META_LEN_ABSENT (metadata_len h) in
  [byte.of_Z (to_u8 (format_version h))]
  ++ to_le_bytes 4 (fh_schema_version h)
  ++ to_le_bytes 2 (event_type_len h)
  ++ to_le_bytes 4 meta_field.

(** [value.get(off..).and_then(first_chunk)] for a chunk of [n] bytes. *)
Definition get_chunk (value : bytes) (off : Z) (n : nat) : option bytes :=
  if len value <? off then None
  else let chunk := take n (drop (Z.to_nat off) value) in
       if Nat.eqb (length chunk) n then Some chunk else None.

Definition read_from (value : bytes) : result FrameHeader DecodeError :=
  if len value <? HEADER_FIXED_SIZE then Err (ValueTooShort HEADER_FIXED_SIZE (len value))
  else
    let version_byte := match value !! Z.to_nat VERSION_OFFSET with
                        | Some b => byte.unsigned b | None => 0 end in
    let? fv := ok_or (from_u8 version_byte) (UnsupportedFrameVersion version_byte) in
    let '(schema_off, minimum) :=
      match fv with
      | V1 => (SCHEMA_VERSION_OFFSET_V1, HEADER_FIXED_SIZE_V1)
      | V2 => (SCHEMA_VERSION_OFFSET, HEADER_FIXED_SIZE)
      end in
    let? chunk := ok_or (get_chunk value schema_off 10) (ValueTooShort minimum (len value)) in
    let schema_version := from_le_bytes (slice chunk 0 4) in
    let et_len := from_le_bytes (slice chunk 4 6) in
    let meta_field := from_le_bytes (slice chunk 6 10) in
    Ok (MkFrameHeader fv schema_version et_len
          (if meta_field =? META_LEN_ABSENT then None else Some meta_field)).

Definition length_overflow (header padding payload : Z) : WireError :=
  FrameLengthOverflow header padding payload.

(** [FrameLayout::compute_from_validated_lengths]. *)
Definition compute_layout (et_len : Z) (meta_len : option Z) (payload_len : Z)
  : result FrameLayout WireError :=
  let meta_len_usize := default 0 meta_len in
  let? pre_payload_len :=
    ok_or (checked_add usize_max HEADER_FIXED_SIZE et_len
             ≫= fun n => checked_add usize_max n meta_len_usize)
          (length_overflow HEADER_FIXED_SIZE 0 payload_len) in
  let padding := align_padding pre_payload_len PAYLOAD_ALIGN in
  let overflow := length_overflow pre_payload_len padding payload_len in
  let? total :=
    ok_or (checked_add usize_max pre_payload_len padding
             ≫= fun n => checked_add usize_max n payload_len) overflow in
  let? event_type_start := ok_or (try_from u32_max HEADER_FIXED_SIZE) overflow in
  let? event_type_len_u32 := ok_or (try_from u32_max et_len) overflow in
  let? event_type_end := ok_or (checked_add u32_max event_type_start event_type_len_u32) overflow in
  let? metadata_range :=
    transpose ((fun n =>
      let? n_u32 := ok_or (try_from u32_max n) overflow in
      let? stop := ok_or (checked_add u32_max event_type_end n_u32) overflow in
      Ok (MkRange event_type_end stop)) <$> meta_len) in
  let? payload_start_usize := ok_or (checked_add usize_max pre_payload_len padding) overflow in
  let? payload_start := ok_or (try_from u32_max payload_start_usize) overflow in
  let? payload_len_u32 := ok_or (try_from u32_max payload_len) overflow in
  let? payload_end := ok_or (checked_add u32_max payload_start payload_len_u32) overflow in
  Ok (MkFrameLayout (MkRange event_type_start event_type_end) metadata_range
        (MkRange payload_start payload_end) padding total).

Definition plan (sv : SchemaVersion) (et : EventType) (pl : Payload) (md : option Metadata)
  : panicking (result FramePlan WireError) :=
  let event_type_bytes := et_bytes et in
  let metadata_bytes := md_bytes <$> md in
  let payload_bytes := pl_bytes pl in
  match compute_layout (len event_type_bytes) (len <$> metadata_bytes) (len payload_bytes) with
  | Err e => Returns (Err e)
  | Ok layout =>
      match from_validated_lengths CURRENT (SchemaVersion.get sv) (len event_type_bytes)
              (len <$> metadata_bytes) with
      | Panics => Panics
      | Returns header =>
          Returns (Ok (MkFramePlan header event_type_bytes metadata_bytes payload_bytes layout))
      end
  end.

Definition execute (p : FramePlan) : EncodedFrame :=
  let buf := write_into (fp_header p) ++ fp_event_type_bytes p in
  let buf := match fp_metadata p with Some m => buf ++ m | None => buf end in
  let buf := buf ++ replicate (Z.to_nat (fl_padding (fp_layout p))) (byte.of_Z 0) in
  let buf := buf ++ fp_payload p in
  MkEncodedFrame buf
    (MkFrameOffsets (fl_event_type (fp_layout p)) (fl_metadata (fp_layout p)) (fl_payload (fp_layout p))).

Definition encode_frame (sv : SchemaVersion) (et : EventType) (pl : Payload) (md : option Metadata)
  : panicking (result EncodedFrame WireError) :=
  match plan sv et pl md with
  | Returns r => Returns (result_map execute r)
  | Panics => Panics
  end.

Definition decode_frame_body (value : bytes) (header : FrameHeader) (header_size : Z)
  : result DecodedFrame DecodeError :=
  let overflow := OffsetOverflow (len value) in
  let? schema_version :=
    map_err (fun _ => CorruptSchemaVersion) (SchemaVersion.from_u32 (fh_schema_version header)) in
  let et_len := event_type_len header in
  let et_start := header_size in
  let? et_end := ok_or (checked_add usize_max et_start et_len) overflow in
  if len value <? et_end then Err (EventTypeTruncated et_len (len value))
  else
    let? (metadata_range, post_meta) :=
      match metadata_len header with
      | None => Ok (None, et_end)
      | Some meta_len =>
          let? meta_len_usize := ok_or (try_from usize_max meta_len) overflow in
          let? meta_end := ok_or (checked_add usize_max et_end meta_len_usize) overflow in
          if len value <? meta_end then Err (MetadataTruncated meta_len (len value))
          else
            let? m_start_u32 := ok_or (try_from u32_max et_end) overflow in
            let? m_end_u32 := ok_or (try_from u32_max meta_end) overflow in
            Ok (Some (MkRange m_start_u32 m_end_u32), meta_end)
      end in
    let padding := align_padding post_meta PAYLOAD_ALIGN in
    let? payload_start := ok_or (checked_add usize_max post_meta padding) overflow in
    let payload_end := len value in
    if payload_end <? payload_start then Err overflow
    else
      let? et_start_u32 := ok_or (try_from u32_max et_start) overflow in
      let? et_end_u32 := ok_or (try_from u32_max et_end) overflow in
      let? payload_start_u32 := ok_or (try_from u32_max payload_start) overflow in
      let? payload_end_u32 := ok_or (try_from u32_max payload_end) overflow in
      Ok (MkDecodedFrame schema_version
            (MkFrameOffsets (MkRange et_start_u32 et_end_u32) metadata_range
               (MkRange payload_start_u32 payload_end_u32))).

Definition decode_frame (value : bytes) : result DecodedFrame DecodeError :=
  let? header := read_from value in
  let header_size :=
    match format_version header with
    | V1 => HEADER_FIXED_SIZE_V1
    | V2 => HEADER_FIXED_SIZE
    end in
  decode_frame_body value header header_size.

(** ** Layout *)

(** The closed form of the layout the encoder computes. *)
Definition pre_payload (hdr : Z) (et : bytes) (md : option bytes) : Z :=
  hdr + len et + default 0 (len <$> md).
Definition payload_offset (hdr : Z) (et : bytes) (md : option bytes) : Z :=
  pre_payload hdr et md + align_padding (pre_payload hdr et md) PAYLOAD_ALIGN.
Definition layout_offsets (hdr : Z) (et : bytes) (md : option bytes) (pl : bytes) : FrameOffsets :=
  MkFrameOffsets (MkRange hdr (hdr + len et))
    ((fun m => MkRange (hdr + len et) (hdr + len et + len m)) <$> md)
    (MkRange (payload_offset hdr et md) (payload_offset hdr et md + len pl)).
(** Everything after a frame's fixed header. *)
Definition frame_tail (hdr : Z) (et : bytes) (md : option bytes) (pl : bytes) : bytes :=
  et ++ default [] md
  ++ replicate (Z.to_nat (align_padding (pre_payload hdr et md) PAYLOAD_ALIGN)) (byte.of_Z 0) ++ pl.

Lemma align_padding_spec n :
  0 <= align_padding n PAYLOAD_ALIGN < 16 /\ (n + align_padding n PAYLOAD_ALIGN) mod 16 = 0.
Proof. unfold align_padding, PAYLOAD_ALIGN. Z.to_euclidean_division_equations. lia. Qed.

Lemma default_len (md : option bytes) : default 0 (len <$> md) = len (default [] md).
Proof. by destruct md. Qed.

Lemma compute_layout_Ok (et : bytes) (md : option bytes) (pl : bytes) :
  payload_offset HEADER_FIXED_SIZE et md + len pl <= u32_max ->
  compute_layout (len et) (len <$> md) (len pl) =
    Ok (MkFrameLayout
          (fo_event_type (layout_offsets HEADER_FIXED_SIZE et md pl))
          (fo_metadata (layout_offsets HEADER_FIXED_SIZE et md pl))
          (fo_payload (layout_offsets HEADER_FIXED_SIZE et md pl))
          (align_padding (pre_payload HEADER_FIXED_SIZE et md) PAYLOAD_ALIGN)
          (payload_offset HEADER_FIXED_SIZE et md + len pl)).
Proof.
  unfold payload_offset, layout_offsets. intros Hle.
  pose proof (align_padding_spec (pre_payload HEADER_FIXED_SIZE et md)) as [? _].
  pose proof (len_nonneg et). pose proof (len_nonneg pl). pose proof usize_max_lo.
  assert (0 <= HEADER_FIXED_SIZE) by done.
  unfold payload_offset, pre_payload in *.
  destruct md as [m|]; simpl in *; [pose proof (len_nonneg m)|];
    unfold compute_layout; simpl; run_checked; reflexivity.
Qed.

Lemma compute_layout_Err (et : bytes) (md : option bytes) (pl : bytes) :
  u32_max < payload_offset HEADER_FIXED_SIZE et md + len pl ->
  exists h p, compute_layout (len et) (len <$> md) (len pl) = Err (FrameLengthOverflow h p (len pl)).
Proof.
  intros Hgt.
  destruct (compute_layout (len et) (len <$> md) (len pl)) as [l|[h p q]] eqn:E.
  - exfalso. unfold compute_layout in E.
    unfold payload_offset, pre_payload in Hgt.
    repeat (apply result_bind_Ok in E as (? & Hx & E);
            first [apply ok_or_Ok in Hx | clear Hx];
            try (apply bind_Some in Hx as (? & ? & ?));
            rewrite ?checked_add_Some, ?try_from_Some in *; destruct_and?; subst).
    lia.
  - exists h, p. do 2 f_equal.
    unfold compute_layout, length_overflow in E.
    repeat (apply result_bind_Err in E as [E|(? & _ & E)];
            [try (unfold ok_or in E; case_match; by simplify_eq)|]); try done.
    destruct md as [m|]; [|done]. simpl in E. unfold ok_or in E.
    destruct (try_from _ _); simpl in E; [|naive_solver].
    destruct (checked_add _ _ _); naive_solver.
Qed.

(** ** Header *)

Lemma from_to_le_bytes n z : 0 <= z < 2 ^ (Z.of_nat n * 8) -> from_le_bytes (to_le_bytes n z) = z.
Proof. intros ?. unfold from_le_bytes, to_le_bytes. rewrite le_combine_split. by apply Z.mod_small. Qed.

Lemma len_to_le_bytes n z : len (to_le_bytes n z) = Z.of_nat n.
Proof. unfold len, to_le_bytes. by rewrite length_le_split. Qed.

(** The three fixed fields both frame formats carry. *)
Definition header_fields (schema et_len : Z) (meta : option Z) : bytes :=
  to_le_bytes 4 schema ++ to_le_bytes 2 et_len ++ to_le_bytes 4 (default META_LEN_ABSENT meta).

Definition header_ok (schema et_len : Z) (meta : option Z) : Prop :=
  0 <= schema <= u32_max /\ 0 <= et_len <= u16_max /\
  match meta with Some m => 0 <= m <= MAX_METADATA_LEN | None => True end.

(** [prefix] is the version byte, for V1 with the [global_seq] after it. *)
Definition header_prefix (fv : FrameFormatVersion) (prefix : bytes) : Prop :=
  match fv with
  | V1 => exists seq, len seq = 8 /\ prefix = byte.of_Z 1 :: seq
  | V2 => prefix = [byte.of_Z 2]
  end.

Definition header_size (fv : FrameFormatVersion) : Z :=
  match fv with V1 => HEADER_FIXED_SIZE_V1 | V2 => HEADER_FIXED_SIZE end.

Lemma len_header_fields schema et_len meta : len (header_fields schema et_len meta) = 10.
Proof. unfold header_fields. by rewrite !len_app, !len_to_le_bytes. Qed.

Lemma get_chunk_middle (a chunk c : bytes) off n :
  off = len a -> length chunk = n -> get_chunk (a ++ chunk ++ c) off n = Some chunk.
Proof.
  intros -> <-. unfold get_chunk. rewrite ltb_false.
  - unfold len. by rewrite Nat2Z.id, drop_app_length, take_app_length, Nat.eqb_refl.
  - rewrite len_app. pose proof (len_nonneg (chunk ++ c)). lia.
Qed.

(** The fields read back from the ten fixed bytes. *)
Lemma header_fields_parse schema et_len meta :
  header_ok schema et_len meta ->
  let chunk := header_fields schema et_len meta in
  from_le_bytes (slice chunk 0 4) = schema /\
  from_le_bytes (slice chunk 4 6) = et_len /\
  from_le_bytes (slice chunk 6 10) = default META_LEN_ABSENT meta /\
  (if default META_LEN_ABSENT meta =? META_LEN_ABSENT then None
   else Some (default META_LEN_ABSENT meta)) = meta.
Proof.
  intros (Hs & He & Hm) chunk. unfold chunk, header_fields.
  unfold u32_max, u16_max, MAX_METADATA_LEN, META_LEN_ABSENT in *.
  change (slice (?a ++ ?b) 0 4) with (slice ([] ++ a ++ b) 0 4).
  rewrite (slice_middle []), (slice_middle (to_le_bytes 4 schema)),
    (app_assoc (to_le_bytes 4 schema)), slice_suffix;
    try (rewrite ?len_app, !len_to_le_bytes; lia); try done.
  rewrite !from_to_le_bytes; [|destruct meta; simpl; unfold u32_max in *; lia..].
  split_and!; try done.
  destruct meta as [m|]; simpl; [|done].
  destruct (Z.eqb_spec m u32_max); unfold u32_max in *; [lia|done].
Qed.

Lemma header_prefix_spec fv prefix :
  header_prefix fv prefix ->
  len prefix = header_size fv - 10 /\ exists tl, prefix = byte.of_Z (to_u8 fv) :: tl.
Proof.
  destruct fv; simpl; [intros (seq & Hseq & ->)|intros ->; eauto].
  rewrite len_cons, Hseq. eauto.
Qed.

Lemma read_from_fields fv prefix schema et_len meta rest :
  header_prefix fv prefix -> header_ok schema et_len meta ->
  read_from (prefix ++ header_fields schema et_len meta ++ rest) =
    Ok (MkFrameHeader fv schema et_len meta).
Proof.
  intros [Hlen [tl Htl]]%header_prefix_spec Hok.
  pose proof (len_header_fields schema et_len meta) as Hf.
  pose proof (header_fields_parse _ _ _ Hok) as (E1 & E2 & E3 & E4).
  generalize dependent (header_fields schema et_len meta). intros fields Hf E1 E2 E3.
  unfold read_from. rewrite ltb_false.
  2: { rewrite !len_app, Hf. pose proof (len_nonneg rest). destruct fv; simpl in Hlen;
       unfold HEADER_FIXED_SIZE_V1, HEADER_FIXED_SIZE in *; lia. }
  rewrite Htl at 1. simpl.
  replace (byte.unsigned (byte.of_Z (to_u8 fv))) with (to_u8 fv) by (by destruct fv).
  replace (from_u8 (to_u8 fv)) with (Some fv) by (by destruct fv). simpl.
  destruct fv; simpl; (rewrite get_chunk_middle by first [by rewrite Hlen | unfold len in Hf; lia]);
    simpl; by rewrite E1, E2, E3, E4.
Qed.

Lemma write_into_fields schema et_len meta :
  write_into (MkFrameHeader V2 schema et_len meta) = [byte.of_Z 2] ++ header_fields schema et_len meta.
Proof. reflexivity. Qed.

(** ** Body *)

Lemma len_frame_tail hdr et md pl :
  0 <= hdr -> hdr + len (frame_tail hdr et md pl) = payload_offset hdr et md + len pl.
Proof.
  intros ?. unfold frame_tail, payload_offset.
  pose proof (align_padding_spec (pre_payload hdr et md)) as [? _].
  rewrite !len_app, len_replicate.
  assert (pre_payload hdr et md = hdr + len et + len (default [] md)) by (unfold pre_payload; by rewrite default_len).
  lia.
Qed.

Lemma payload_offset_bounds hdr et md :
  0 <= hdr ->
  hdr + len et + default 0 (len <$> md) <= payload_offset hdr et md /\
  payload_offset hdr et md < hdr + len et + default 0 (len <$> md) + 16 /\
  payload_offset hdr et md mod 16 = 0.
Proof.
  intros ?. unfold payload_offset.
  pose proof (align_padding_spec (pre_payload hdr et md)) as [? ?].
  split_and!; unfold pre_payload in *; lia.
Qed.

(** The decoder's body, run on a well-formed tail after [hdr] header bytes. *)
Lemma decode_body_Ok fv hdr sv et md pl value :
  0 <= hdr ->
  len value = payload_offset hdr et md + len pl ->
  len value <= u32_max ->
  decode_frame_body value
    (MkFrameHeader fv (SchemaVersion.get sv) (len et) (len <$> md)) hdr =
    Ok (MkDecodedFrame sv (layout_offsets hdr et md pl)).
Proof.
  intros Hh Hlen Hmax. unfold decode_frame_body. simpl.
  rewrite schema_from_u32_get. simpl.
  pose proof (payload_offset_bounds hdr et md Hh) as (? & ? & _).
  pose proof (len_nonneg et). pose proof (len_nonneg pl). pose proof usize_max_lo.
  unfold layout_offsets. rewrite <- Hlen. unfold payload_offset, pre_payload in *.
  destruct md as [m|]; simpl in *; [pose proof (len_nonneg m)|];
    rewrite ?Z.add_0_r in *; run_checked; reflexivity.
Qed.

(** A frame of either format, from its header prefix and its fields. *)
Lemma decode_frame_fields fv prefix sv et md pl :
  header_prefix fv prefix ->
  header_ok (SchemaVersion.get sv) (len et) (len <$> md) ->
  payload_offset (header_size fv) et md + len pl <= u32_max ->
  decode_frame (prefix ++ header_fields (SchemaVersion.get sv) (len et) (len <$> md)
                  ++ frame_tail (header_size fv) et md pl) =
    Ok (MkDecodedFrame sv (layout_offsets (header_size fv) et md pl)).
Proof.
  intros Hp Hok Hmax. unfold decode_frame.
  rewrite (read_from_fields fv) by done. cbn [result_bind format_version].
  assert (0 <= header_size fv) as Hh by (destruct fv; done).
  pose proof (len_frame_tail (header_size fv) et md pl Hh).
  pose proof (header_prefix_spec _ _ Hp) as [Hl _].
  change (match fv with V1 => HEADER_FIXED_SIZE_V1 | V2 => HEADER_FIXED_SIZE end) with (header_size fv).
  apply (decode_body_Ok fv); [done|rewrite !len_app, len_header_fields; lia..].
Qed.

(** The slices the offsets name. *)
Definition slices (value : bytes) (o : FrameOffsets) : bytes * option bytes * bytes :=
  let at_ r := slice value (r_start r) (r_end r) in
  (at_ (fo_event_type o), at_ <$> fo_metadata o, at_ (fo_payload o)).

Lemma slices_layout hdr (prefix et : bytes) md pl :
  len prefix = hdr ->
  slices (prefix ++ frame_tail hdr et md pl) (layout_offsets hdr et md pl) = (et, md, pl).
Proof.
  intros <-. pose proof (len_nonneg prefix) as Hh.
  pose proof (len_frame_tail (len prefix) et md pl Hh) as Hl.
  unfold slices, layout_offsets, frame_tail in *. simpl. f_equal; [f_equal|].
  - by rewrite slice_middle.
  - destruct md as [m|]; simpl; [|done]. f_equal.
    rewrite (app_assoc prefix). apply slice_middle; by rewrite !len_app.
  - rewrite !app_assoc, <- !app_assoc in *.
    rewrite (app_assoc et), (app_assoc (et ++ _)), app_assoc.
    apply slice_suffix; rewrite ?len_app in *; lia.
Qed.

(** ** The format's guarantees *)

Lemma fields_header_ok sv et md :
  event_type_ok et -> from_option metadata_ok True md ->
  header_ok (SchemaVersion.get sv) (len (et_bytes et)) (len <$> (md_bytes <$> md)).
Proof.
  intros [_ He] Hm. pose proof (schema_range sv). pose proof (len_nonneg (et_bytes et)).
  unfold header_ok, MAX_EVENT_TYPE_LEN in *. split_and!; try lia.
  destruct md as [m|]; simpl in *; [|done]. unfold metadata_ok in Hm. lia.
Qed.

Lemma from_validated_lengths_Ok fv schema et_len meta :
  header_ok schema et_len meta ->
  from_validated_lengths fv schema et_len meta = Returns (MkFrameHeader fv schema et_len meta).
Proof.
  intros (_ & He & Hm). unfold from_validated_lengths, MAX_METADATA_LEN in *.
  destruct meta; run_checked; reflexivity.
Qed.

(** The reference V2 frame: header, fields, zero padding, payload. *)
Definition v2_frame sv et pl md : EncodedFrame :=
  MkEncodedFrame
    ([byte.of_Z 2]
     ++ header_fields (SchemaVersion.get sv) (len (et_bytes et)) (len <$> (md_bytes <$> md))
     ++ frame_tail HEADER_FIXED_SIZE (et_bytes et) (md_bytes <$> md) (pl_bytes pl))
    (layout_offsets HEADER_FIXED_SIZE (et_bytes et) (md_bytes <$> md) (pl_bytes pl)).

(** The bytes and offsets of an encoded frame, whenever encoding succeeds. *)
Lemma encode_frame_bytes sv et pl md :
  event_type_ok et -> from_option metadata_ok True md ->
  payload_offset HEADER_FIXED_SIZE (et_bytes et) (md_bytes <$> md) + len (pl_bytes pl) <= u32_max ->
  encode_frame sv et pl md = Returns (Ok (v2_frame sv et pl md)).
Proof.
  intros He Hm Hle. unfold encode_frame, plan.
  rewrite compute_layout_Ok, from_validated_lengths_Ok by auto using fields_header_ok.
  cbn [result_map]. unfold execute, v2_frame, frame_tail. cbn [fp_header fp_event_type_bytes fp_metadata fp_payload fp_layout fl_padding].
  unfold CURRENT. rewrite write_into_fields. do 3 f_equal.
  destruct md as [m|]; simpl; by rewrite <- ?app_assoc.
Qed.

Lemma encode_frame_Ok_inv sv et pl md frame :
  event_type_ok et -> from_option metadata_ok True md ->
  encode_frame sv et pl md = Returns (Ok frame) ->
  frame = v2_frame sv et pl md /\
  payload_offset HEADER_FIXED_SIZE (et_bytes et) (md_bytes <$> md) + len (pl_bytes pl) <= u32_max.
Proof.
  intros He Hm E.
  destruct (decide (payload_offset HEADER_FIXED_SIZE (et_bytes et) (md_bytes <$> md) + len (pl_bytes pl) <= u32_max))
    as [Hle|Hgt].
  - rewrite encode_frame_bytes in E by done. split; [congruence|done].
  - destruct (compute_layout_Err (et_bytes et) (md_bytes <$> md) (pl_bytes pl)) as (h & p & E'); [lia|].
    unfold encode_frame, plan in E. by rewrite E' in E.
Qed.

Lemma slices_v2_frame sv et pl md :
  slices (ef_value (v2_frame sv et pl md)) (ef_offsets (v2_frame sv et pl md)) =
    (et_bytes et, md_bytes <$> md, pl_bytes pl).
Proof.
  unfold v2_frame. cbn [ef_value ef_offsets]. rewrite app_assoc.
  apply slices_layout. by rewrite len_app, len_header_fields.
Qed.

Lemma len_v2_frame sv et pl md :
  len (ef_value (v2_frame sv et pl md)) =
    payload_offset HEADER_FIXED_SIZE (et_bytes et) (md_bytes <$> md) + len (pl_bytes pl).
Proof.
  rewrite <- len_frame_tail by done. unfold v2_frame. cbn [ef_value].
  rewrite !len_app, len_header_fields.
  change (len [byte.of_Z 2]) with 1. change HEADER_FIXED_SIZE with 11. lia.
Qed.

(** On validated fields, [encode_frame] never panics and fails
    exactly when the frame would not fit [u32] offsets, on every target; when it
    succeeds the payload starts at a multiple of 16 and the buffer is exactly as
    long as the offsets say. *)
Theorem encode_frame_total sv et pl md :
  event_type_ok et -> from_option metadata_ok True md ->
  let stop := payload_offset HEADER_FIXED_SIZE (et_bytes et) (md_bytes <$> md) + len (pl_bytes pl) in
  (stop <= u32_max /\
     exists frame, encode_frame sv et pl md = Returns (Ok frame) /\
       len (ef_value frame) = stop /\
       r_end (fo_payload (ef_offsets frame)) = stop /\
       r_start (fo_payload (ef_offsets frame)) mod PAYLOAD_ALIGN = 0) \/
  (u32_max < stop /\
     exists h p, encode_frame sv et pl md = Returns (Err (FrameLengthOverflow h p (len (pl_bytes pl))))).
Proof.
  intros He Hm stop. destruct (decide (stop <= u32_max)) as [Hle|Hgt]; [left|right; split; [lia|]].
  - split; [done|]. rewrite encode_frame_bytes by done. eexists; split; [done|].
    split_and!; [apply len_v2_frame|done|by apply payload_offset_bounds].
  - destruct (compute_layout_Err (et_bytes et) (md_bytes <$> md) (pl_bytes pl)) as (h & p & E); [lia|].
    exists h, p. unfold encode_frame, plan. by rewrite E.
Qed.

(** C23: decoding an encoded frame gives back the schema version and the
    offsets the encoder reported, and slicing the buffer at them gives back the
    event type, the metadata (absent and present told apart) and the payload. *)
Theorem encode_decode_roundtrip sv et pl md frame :
  event_type_ok et -> from_option metadata_ok True md ->
  encode_frame sv et pl md = Returns (Ok frame) ->
  decode_frame (ef_value frame) = Ok (MkDecodedFrame sv (ef_offsets frame)) /\
  slices (ef_value frame) (ef_offsets frame) = (et_bytes et, md_bytes <$> md, pl_bytes pl).
Proof.
  intros He Hm [-> Hle]%encode_frame_Ok_inv; try done. split; [|apply slices_v2_frame].
  apply (decode_frame_fields V2); auto using fields_header_ok; done.
Qed.

(** A V1 frame decodes to the same fields whatever its [global_seq] bytes are. *)
Theorem decode_v1_frame seq sv et pl md :
  event_type_ok et -> from_option metadata_ok True md -> len seq = 8 ->
  payload_offset HEADER_FIXED_SIZE_V1 (et_bytes et) (md_bytes <$> md) + len (pl_bytes pl) <= u32_max ->
  let value := (byte.of_Z 1 :: seq)
    ++ header_fields (SchemaVersion.get sv) (len (et_bytes et)) (len <$> (md_bytes <$> md))
    ++ frame_tail HEADER_FIXED_SIZE_V1 (et_bytes et) (md_bytes <$> md) (pl_bytes pl) in
  exists d, decode_frame value = Ok d /\ df_schema_version d = sv /\
    slices value (df_offsets d) = (et_bytes et, md_bytes <$> md, pl_bytes pl).
Proof.
  intros He Hm Hs Hle value. eexists. split_and!.
  - apply (decode_frame_fields V1); simpl; eauto using fields_header_ok.
  - done.
  - unfold value. rewrite app_assoc. apply slices_layout.
    by rewrite len_app, len_header_fields, len_cons, Hs.
Qed.

Lemma from_le_bytes_nonneg b : 0 <= from_le_bytes b.
Proof. unfold from_le_bytes. pose proof (le_combine_bound b). lia. Qed.

Lemma read_from_ranges value h :
  read_from value = Ok h -> 0 <= event_type_len h /\ from_option (Z.le 0) True (metadata_len h).
Proof.
  unfold read_from. destruct (len value <? HEADER_FIXED_SIZE); [done|].
  intros (fv & _ & E)%result_bind_Ok.
  destruct (match fv with V1 => _ | V2 => _ end) as [off minimum].
  apply result_bind_Ok in E as (chunk & _ & E). simplify_eq/=.
  split; [apply from_le_bytes_nonneg|].
  destruct (_ =? _); simpl; [done|apply from_le_bytes_nonneg].
Qed.

(** The event type, the metadata and the payload follow each other inside the buffer. *)
Definition offsets_ordered (value : bytes) (o : FrameOffsets) : Prop :=
  let et_end := r_end (fo_event_type o) in
  0 < r_start (fo_event_type o) <= et_end /\
  from_option (fun m => r_start m = et_end /\ r_start m <= r_end m <= r_start (fo_payload o)) True (fo_metadata o) /\
  et_end <= r_start (fo_payload o) <= r_end (fo_payload o) /\
  r_end (fo_payload o) = len value /\ len value <= u32_max /\
  r_start (fo_payload o) mod PAYLOAD_ALIGN = 0.

Lemma decode_body_sound value h hs d :
  0 < hs -> 0 <= event_type_len h -> from_option (Z.le 0) True (metadata_len h) ->
  decode_frame_body value h hs = Ok d -> offsets_ordered value (df_offsets d).
Proof.
  intros Hhs Het Hmeta. unfold decode_frame_body.
  intros (sv & _ & E)%result_bind_Ok.
  apply result_bind_Ok in E as (et_end & Hend & E).
  destruct (Z.ltb_spec (len value) et_end); [done|].
  apply result_bind_Ok in E as ([mr post] & Hm & E).
  apply result_bind_Ok in E as (start & Hstart & E).
  destruct (Z.ltb_spec (len value) start); [done|].
  repeat (apply result_bind_Ok in E as (? & ?%ok_or_Ok & E)).
  rewrite !ok_or_Ok, ?try_from_Some, ?checked_add_Some in *. destruct_and?. simplify_eq/=.
  pose proof (align_padding_spec post) as [? ?].
  assert (hs + event_type_len h <= post /\
    from_option (fun m => r_start m = hs + event_type_len h /\ r_start m <= r_end m <= post) True mr) as [Hpost Hr].
  { destruct (metadata_len h) as [ml|]; simpl in Hmeta, Hm; [|by simplify_eq].
    repeat (apply result_bind_Ok in Hm as (? & ?%ok_or_Ok & Hm); try case_match; try done).
    rewrite ?try_from_Some, ?checked_add_Some in *. destruct_and?. simplify_eq/=. lia. }
  unfold offsets_ordered. simpl. split_and!; try lia; try done. destruct mr; simpl in *; [lia|done].
Qed.

Lemma decode_frame_sound value d :
  decode_frame value = Ok d -> offsets_ordered value (df_offsets d).
Proof.
  unfold decode_frame. intros (h & Hh & E)%result_bind_Ok.
  set (hs := match format_version h with V1 => _ | V2 => _ end) in E.
  assert (0 < hs) as Hhs by (unfold hs; destruct (format_version h); done).
  pose proof (read_from_ranges _ _ Hh) as [Het Hmeta].
  by apply (decode_body_sound _ h hs).
Qed.

(** Whatever bytes [decode_frame] accepts, the ranges it reports
    are ordered and inside the buffer, the payload starts at a multiple of 16 and
    runs to the end; and it refuses every buffer that does not start with a known
    version byte. *)
Theorem decode_frame_in_bounds value d :
  decode_frame value = Ok d ->
  offsets_ordered value (df_offsets d) /\
  exists b, value !! 0%nat = Some b /\ from_u8 (byte.unsigned b) <> None.
Proof.
  intros E. split; [by apply decode_frame_sound|].
  unfold decode_frame, read_from in E. apply result_bind_Ok in E as (h & E & _).
  destruct (len value <? HEADER_FIXED_SIZE) eqn:Hl; [done|].
  apply result_bind_Ok in E as (fv & Hfv%ok_or_Ok & _).
  destruct value as [|b value]; [done|]. exists b. split; [done|]. simpl in Hfv. congruence.
Qed.

End wire.

(** ** Witnesses *)

Definition sample_event_type : EventType := MkEventType [byte.of_Z 65; byte.of_Z 66].
Definition sample_metadata : Metadata := MkMetadata [byte.of_Z 1; byte.of_Z 2; byte.of_Z 3].
Definition sample_payload : Payload := MkPayload [byte.of_Z 9; byte.of_Z 8].

Lemma sample_fields_ok : event_type_ok sample_event_type /\ metadata_ok sample_metadata.
Proof. split; [split|split]; vm_compute; done. Qed.

Lemma encode_frame_total_witness :
  exists frame, encode_frame (T := target64) SchemaVersion.INITIAL sample_event_type sample_payload
    (Some sample_metadata) = Returns (Ok frame) /\ len (ef_value frame) = 18.
Proof.
  destruct (encode_frame_total (T := target64) SchemaVersion.INITIAL sample_event_type sample_payload
    (Some sample_metadata)) as [(_ & frame & E & L & _)|[H _]].
  - apply sample_fields_ok.
  - apply sample_fields_ok.
  - exists frame. split; [exact E|]. rewrite L. reflexivity.
  - exfalso. revert H. vm_compute. done.
Defined.

Lemma encode_decode_roundtrip_witness :
  exists frame, encode_frame (T := target64) SchemaVersion.INITIAL sample_event_type sample_payload
    None = Returns (Ok frame) /\
    decode_frame (T := target64) (ef_value frame) =
      Ok (MkDecodedFrame SchemaVersion.INITIAL (ef_offsets frame)).
Proof.
  eexists. split; [vm_compute; reflexivity|].
  apply (encode_decode_roundtrip (T := target64) SchemaVersion.INITIAL sample_event_type sample_payload None);
    [apply sample_fields_ok|exact I|vm_compute; reflexivity].
Defined.

Lemma decode_v1_frame_witness :
  exists d, decode_frame (T := target64)
    ((byte.of_Z 1 :: replicate 8 (byte.of_Z 7))
     ++ header_fields 1 2 None
     ++ frame_tail HEADER_FIXED_SIZE_V1 (et_bytes sample_event_type) None (pl_bytes sample_payload)) = Ok d.
Proof.
  destruct (decode_v1_frame (T := target64) (replicate 8 (byte.of_Z 7)) SchemaVersion.INITIAL
    sample_event_type sample_payload None) as (d & E & _).
  - apply sample_fields_ok.
  - exact I.
  - reflexivity.
  - vm_compute. discriminate.
  - exists d. exact E.
Defined.

Lemma decode_frame_in_bounds_witness :
  exists d, decode_frame (T := target64)
    (ef_value (v2_frame SchemaVersion.INITIAL sample_event_type sample_payload None)) = Ok d /\
    r_start (fo_payload (df_offsets d)) mod PAYLOAD_ALIGN = 0.
Proof.
  eexists. split; [vm_compute; reflexivity|].
  apply (decode_frame_in_bounds (T := target64)
    (ef_value (v2_frame SchemaVersion.INITIAL sample_event_type sample_payload None))).
  vm_compute. reflexivity.
Defined.
