(* ===== verification/Envelope.v ===== *)
(** * Pending and persisted envelopes (crates/store/src/envelope.rs)

    A [PendingEnvelope] holds validated fields on their way to a store; a
    [PersistedEnvelope] is a frame buffer with the ranges of its fields, whose
    accessors slice it without checking again. *)

From S2P Require Import Prelude Utf8 Version Value Wire.

Inductive EnvelopeError : Type :=
| RangeOutOfBounds (start stop buf_len : Z)
| InvalidUtf8 (start stop : Z) (source : Utf8Error)
| EventTypeRangeTooLong (actual max : Z)
| MetadataRangeTooLong (actual max : Z)
| MetadataRangeEmpty
| EnvelopeValue (e : ValueError).

Inductive ForDecodeError : Type :=
| ForDecodeValue (e : ValueError)
| ForDecodeWire (e : WireError)
| ForDecodeEnvelope (e : EnvelopeError).

(** [alloc::borrow::Cow]. *)
Inductive Cow (A : Type) : Type :=
| Borrowed (a : A)
| Owned (a : A).
Arguments Borrowed {A} a.
Arguments Owned {A} a.

Definition cow_get {A} (c : Cow A) : A :=
  match c with Borrowed a => a | Owned a => a end.

Record PendingEnvelope : Type := MkPendingEnvelope {
  pe_version : Version;
  pe_event_type : EventType;
  pe_schema_version : SchemaVersion;
  pe_payload : Payload;
  pe_metadata : option Metadata;
}.

#[export] Instance pending_envelope_eq_dec : EqDecision PendingEnvelope.
Proof. solve_decision. Defined.

(** The non-empty run handed to [append]. *)
Module PendingBatch.
Record t : Type := MkBatch { first : PendingEnvelope; rest : list PendingEnvelope }.
Definition of_one (only : PendingEnvelope) : t := MkBatch only [].
Definition from_parts (f : PendingEnvelope) (r : list PendingEnvelope) : t := MkBatch f r.
Definition new (envelopes : list PendingEnvelope) : option t :=
  match envelopes with
  | [] => None
  | f :: r => Some (MkBatch f r)
  end.
Definition last (b : t) : PendingEnvelope := List.last (rest b) (first b).
Definition iter (b : t) : list PendingEnvelope := first b :: rest b.
(** [NonZeroUsize::MIN.saturating_add(rest.len())]. *)
Definition len `{Target} (b : t) : Z := Z.min usize_max (1 + Prelude.len (rest b)).
End PendingBatch.

(** ** The typestate builder *)

Record WithVersion : Type := MkWithVersion { wv_version : Version }.
Record WithEventType : Type := MkWithEventType { we_version : Version; we_event_type : EventType }.
Record WithPayload : Type := MkWithPayload {
  wp_version : Version;
  wp_event_type : EventType;
  wp_payload : bytes;
  wp_schema_version : SchemaVersion;
  wp_metadata : option bytes;
}.

Definition pending_envelope (version : Version) : WithVersion := MkWithVersion version.

Module Builder.
Definition event_type (b : WithVersion) (name : bytes) : panicking WithEventType :=
  match EventType.from_static_str name with
  | Returns et => Returns (MkWithEventType (wv_version b) et)
  | Panics => Panics
  end.
Definition event_type_bytes (b : WithVersion) (raw : bytes) : result WithEventType EnvelopeError :=
  let? et := map_err EnvelopeValue (EventType.from_bytes raw) in
  Ok (MkWithEventType (wv_version b) et).
Definition payload (b : WithEventType) (raw : bytes) : WithPayload :=
  MkWithPayload (we_version b) (we_event_type b) raw SchemaVersion.INITIAL None.
Definition schema_version (b : WithPayload) (sv : SchemaVersion) : WithPayload :=
  MkWithPayload (wp_version b) (wp_event_type b) (wp_payload b) sv (wp_metadata b).
Definition metadata (b : WithPayload) (raw : bytes) : WithPayload :=
  MkWithPayload (wp_version b) (wp_event_type b) (wp_payload b) (wp_schema_version b) (Some raw).
Definition build (b : WithPayload) : result PendingEnvelope EnvelopeError :=
  let? pl := map_err EnvelopeValue (Payload.from_bytes (wp_payload b)) in
  let? md := map_err EnvelopeValue (transpose (Metadata.from_bytes <$> wp_metadata b)) in
  Ok (MkPendingEnvelope (wp_version b) (wp_event_type b) (wp_schema_version b) pl md).
End Builder.

(** ** Persisted envelopes *)

Record PersistedEnvelope : Type := MkPersistedEnvelope {
  ps_version : Version;
  ps_schema_version : SchemaVersion;
  ps_value : bytes;
  ps_event_type_range : Range;
  ps_payload_range : Range;
  ps_metadata_range : option Range;
}.

Definition check_range (range : Range) (n : Z) : result () EnvelopeError :=
  if (n <? r_end range) || (r_end range <? r_start range)
  then Err (RangeOutOfBounds (r_start range) (r_end range) n)
  else Ok ().

Definition check_metadata_cap (r : Range) : result () EnvelopeError :=
  let meta_range_len := r_end r - r_start r in
  if meta_range_len =? 0 then Err MetadataRangeEmpty
  else if MAX_METADATA_LEN <? meta_range_len
  then Err (MetadataRangeTooLong meta_range_len MAX_METADATA_LEN)
  else Ok ().

Module PersistedEnvelope.
Definition try_new (version : Version) (value : bytes) (schema_version : SchemaVersion)
  (event_type_range payload_range : Range) (metadata_range : option Range)
  : result PersistedEnvelope EnvelopeError :=
  let n := Prelude.len value in
  let? _ := check_range event_type_range n in
  let? _ := check_range payload_range n in
  let? _ := match metadata_range with Some m => check_range m n | None => Ok () end in
  let et_range_len := r_end event_type_range - r_start event_type_range in
  if MAX_EVENT_TYPE_LEN <? et_range_len
  then Err (EventTypeRangeTooLong et_range_len MAX_EVENT_TYPE_LEN)
  else
    let? _ := match metadata_range with Some m => check_metadata_cap m | None => Ok () end in
    let? _ := map_err (InvalidUtf8 (r_start event_type_range) (r_end event_type_range))
                (from_utf8 (slice value (r_start event_type_range) (r_end event_type_range))) in
    Ok (MkPersistedEnvelope version schema_version value event_type_range payload_range metadata_range).

Definition slice_range (env : PersistedEnvelope) (r : Range) : bytes :=
  slice (ps_value env) (r_start r) (r_end r).
Definition event_type (env : PersistedEnvelope) : bytes := slice_range env (ps_event_type_range env).
Definition payload (env : PersistedEnvelope) : bytes := slice_range env (ps_payload_range env).
Definition metadata (env : PersistedEnvelope) : option bytes :=
  slice_range env <$> ps_metadata_range env.
(** [from_validated_bytes] wraps without checking. *)
Definition event_type_value (env : PersistedEnvelope) : EventType := MkEventType (event_type env).
Definition payload_value (env : PersistedEnvelope) : Payload := MkPayload (payload env).
Definition metadata_value (env : PersistedEnvelope) : option Metadata := MkMetadata <$> metadata env.

(** [try_new] on a freshly encoded frame; [encode_frame]'s panic unwinds through. *)
Definition from_frame (version : Version) (sv : SchemaVersion) (md_range : FrameOffsets -> option Range)
  (r : panicking (result EncodedFrame WireError))
  : panicking (result PersistedEnvelope ForDecodeError) :=
  match r with
  | Panics => Panics
  | Returns r => Returns (
      let? frame := map_err ForDecodeWire r in
      map_err ForDecodeEnvelope
        (try_new version (ef_value frame) sv (fo_event_type (ef_offsets frame))
           (fo_payload (ef_offsets frame)) (md_range (ef_offsets frame))))
  end.

Section decode.
Context {T : Target}.

Definition for_transformed_decode (self : PersistedEnvelope) (et : bytes) (schema : SchemaVersion)
  (pl : bytes) : panicking (result (Cow PersistedEnvelope) ForDecodeError) :=
  if bool_decide (et = event_type self) && bool_decide (schema = ps_schema_version self)
     && bool_decide (pl = payload self)
  then Returns (Ok (Borrowed self))
  else
    match (if bool_decide (et = event_type self) then Ok (event_type_value self)
           else EventType.from_bytes et) with
    | Err e => Returns (Err (ForDecodeValue e))
    | Ok event =>
        match (if bool_decide (pl = payload self) then Ok (payload_value self)
               else Payload.from_bytes pl) with
        | Err e => Returns (Err (ForDecodeValue e))
        | Ok data =>
            match from_frame (ps_version self) schema fo_metadata
                    (encode_frame schema event data (metadata_value self)) with
            | Panics => Panics
            | Returns r => Returns (result_map Owned r)
            end
        end
    end.

Definition for_decode (et pl : bytes) : panicking (result PersistedEnvelope ForDecodeError) :=
  match EventType.from_bytes et with
  | Err e => Returns (Err (ForDecodeValue e))
  | Ok et =>
      match Payload.from_bytes pl with
      | Err e => Returns (Err (ForDecodeValue e))
      | Ok pl =>
          let sv := SchemaVersion.INITIAL in
          from_frame INITIAL sv (fun _ => None) (encode_frame sv et pl None)
      end
  end.

End decode.
End PersistedEnvelope.

(** [PendingEnvelope::from_persisted]. *)
Definition from_persisted (p : PersistedEnvelope) : PendingEnvelope :=
  MkPendingEnvelope (ps_version p) (PersistedEnvelope.event_type_value p) (ps_schema_version p)
    (PersistedEnvelope.payload_value p) (PersistedEnvelope.metadata_value p).

(** ** Invariants *)

Definition pending_ok (pe : PendingEnvelope) : Prop :=
  event_type_ok (pe_event_type pe) /\ payload_ok (pe_payload pe) /\
  from_option metadata_ok True (pe_metadata pe).

(** [Range<u32>]: the bounds the type gives. *)
Definition range_u32 (r : Range) : Prop := 0 <= r_start r /\ 0 <= r_end r <= u32_max.

Definition range_within (r : Range) (n : Z) : Prop := 0 <= r_start r <= r_end r /\ r_end r <= n.

(** What [try_new] establishes; the accessors rely on it. *)
Definition persisted_ok (env : PersistedEnvelope) : Prop :=
  let n := len (ps_value env) in
  range_within (ps_event_type_range env) n /\ range_within (ps_payload_range env) n /\
  from_option (fun r => range_within r n) True (ps_metadata_range env) /\
  pending_ok (from_persisted env).

Lemma check_range_Ok r n : range_u32 r -> is_ok (check_range r n) = true <-> range_within r n.
Proof.
  unfold check_range, range_within, range_u32.
  destruct (Z.ltb_spec n (r_end r)), (Z.ltb_spec (r_end r) (r_start r)); simpl; naive_solver lia.
Qed.

Lemma check_metadata_cap_Ok r :
  is_ok (check_metadata_cap r) = true <-> r_end r <> r_start r /\ r_end r - r_start r <= MAX_METADATA_LEN.
Proof.
  unfold check_metadata_cap.
  destruct (Z.eqb_spec (r_end r - r_start r) 0), (Z.ltb_spec MAX_METADATA_LEN (r_end r - r_start r));
    naive_solver lia.
Qed.

Lemma len_slice {A} (l : list A) r : range_within r (len l) -> len (slice l (r_start r) (r_end r)) = r_end r - r_start r.
Proof.
  unfold range_within, slice, len. intros ?. rewrite length_take, length_drop. lia.
Qed.

(** [try_new] accepts exactly the field ranges that satisfy the invariant. *)
Lemma try_new_spec v value sv etr plr mdr env :
  range_u32 etr -> range_u32 plr -> from_option range_u32 True mdr ->
  PersistedEnvelope.try_new v value sv etr plr mdr = Ok env <->
  env = MkPersistedEnvelope v sv value etr plr mdr /\ persisted_ok env.
Proof.
  intros He Hp Hm. unfold PersistedEnvelope.try_new.
  rewrite !seq_Ok, !check_range_Ok by done.
  assert (is_ok match mdr with Some m => check_range m (len value) | None => Ok () end = true <->
          from_option (fun r => range_within r (len value)) True mdr) as ->
    by (destruct mdr; simpl in *; [by apply check_range_Ok|done]).
  unfold persisted_ok, pending_ok, from_persisted, event_type_ok, payload_ok.
  split.
  - intros (Het & Hpl & Hmd & E). destruct (Z.ltb_spec MAX_EVENT_TYPE_LEN (r_end etr - r_start etr)); [done|].
    rewrite !seq_Ok in E. destruct E as (Hcap & Hu & E). simplify_eq.
    rewrite is_ok_map_err in Hu. split_and!; try done; simpl.
    + unfold PersistedEnvelope.event_type, PersistedEnvelope.slice_range; simpl. by rewrite len_slice.
    + unfold PersistedEnvelope.payload, PersistedEnvelope.slice_range; simpl. rewrite len_slice by done.
      unfold MAX_PAYLOAD_LEN, range_within, range_u32 in *. lia.
    + destruct mdr as [m|]; simpl in *; [|done]. apply check_metadata_cap_Ok in Hcap.
      unfold metadata_ok, PersistedEnvelope.slice_range; simpl. rewrite len_slice by done.
      unfold range_within in *. lia.
  - intros (-> & Het & Hpl & Hmd & (Hu & Hetl) & _ & Hmdl).
    cbn in Hetl, Hu, Hmdl, Het, Hpl, Hmd. unfold PersistedEnvelope.event_type, PersistedEnvelope.slice_range in *; simpl in *.
    split_and!; try done. rewrite len_slice in Hetl by done.
    rewrite ltb_false, !seq_Ok, is_ok_map_err by lia. split_and!; try done.
    destruct mdr as [m|]; [|done]. apply check_metadata_cap_Ok. simpl in *.
    unfold metadata_ok, PersistedEnvelope.slice_range in Hmdl; simpl in Hmdl.
    rewrite len_slice in Hmdl by done. lia.
Qed.

(** ** Frames and envelopes *)

Section frames.
Context {T : Target}.

Lemma v2_ranges sv et pl md :
  payload_offset HEADER_FIXED_SIZE (et_bytes et) (md_bytes <$> md) + len (pl_bytes pl) <= u32_max ->
  let frame := v2_frame sv et pl md in
  let within r := range_u32 r /\ range_within r (len (ef_value frame)) in
  within (fo_event_type (ef_offsets frame)) /\ within (fo_payload (ef_offsets frame)) /\
  from_option within True (fo_metadata (ef_offsets frame)).
Proof.
  intros Hle frame within. unfold within, range_within, frame. rewrite !len_v2_frame.
  pose proof (payload_offset_bounds HEADER_FIXED_SIZE (et_bytes et) (md_bytes <$> md)) as (H1 & H2 & _); [done|].
  pose proof (len_nonneg (et_bytes et)). pose proof (len_nonneg (pl_bytes pl)).
  assert (0 <= HEADER_FIXED_SIZE) by done. unfold range_u32.
  destruct md as [m|]; cbn in H1, H2, Hle |- *; [pose proof (len_nonneg (md_bytes m))|]; split_and!; try done; lia.
Qed.

Lemma from_persisted_slices v sv value o e m p :
  slices value o = (e, m, p) ->
  from_persisted (MkPersistedEnvelope v sv value (fo_event_type o) (fo_payload o) (fo_metadata o)) =
    MkPendingEnvelope v (MkEventType e) sv (MkPayload p) (MkMetadata <$> m).
Proof. unfold slices. intros. by simplify_eq. Qed.

(** The envelope rebuilt from an encoded frame carries the encoded fields. *)
Lemma try_new_v2_frame v sv et pl md :
  event_type_ok et -> payload_ok pl -> from_option metadata_ok True md ->
  payload_offset HEADER_FIXED_SIZE (et_bytes et) (md_bytes <$> md) + len (pl_bytes pl) <= u32_max ->
  let frame := v2_frame sv et pl md in
  exists env,
    PersistedEnvelope.try_new v (ef_value frame) sv (fo_event_type (ef_offsets frame))
      (fo_payload (ef_offsets frame)) (fo_metadata (ef_offsets frame)) = Ok env /\
    persisted_ok env /\ from_persisted env = MkPendingEnvelope v et sv pl md.
Proof.
  intros He Hp Hm Hle frame.
  destruct (v2_ranges sv et pl md Hle) as ([??] & [??] & Hmr).
  set (env := MkPersistedEnvelope v sv (ef_value frame) (fo_event_type (ef_offsets frame))
     (fo_payload (ef_offsets frame)) (fo_metadata (ef_offsets frame))).
  assert (from_persisted env = MkPendingEnvelope v et sv pl md) as Hfp.
  { unfold env. erewrite from_persisted_slices by apply slices_v2_frame.
    destruct et, pl, md as [[]|]; done. }
  exists env. rewrite try_new_spec; try done.
  - assert (persisted_ok env).
    { unfold persisted_ok. rewrite Hfp. split_and!; try done.
      destruct md; [apply Hmr|done]. }
    done.
  - destruct md; [apply Hmr|done].
Qed.

(** Ranges reported by the decoder fit the envelope's [Range<u32>]. *)
Lemma decode_frame_ranges value d :
  decode_frame value = Ok d ->
  range_u32 (fo_event_type (df_offsets d)) /\ range_u32 (fo_payload (df_offsets d)) /\
  from_option range_u32 True (fo_metadata (df_offsets d)).
Proof.
  intros (? & Hm & ? & ? & ? & _)%decode_frame_sound. unfold range_u32. split_and!; try lia.
  destruct (fo_metadata (df_offsets d)); simpl in *; [lia|done].
Qed.

(** Reusing the stored field and validating the given bytes agree. *)
Lemma reuse_event_type self et :
  event_type_ok (MkEventType et) ->
  (if bool_decide (et = PersistedEnvelope.event_type self) then Ok (PersistedEnvelope.event_type_value self)
   else EventType.from_bytes et) = Ok (MkEventType et).
Proof.
  intros Hok. case_bool_decide as H; [by rewrite H|]. by apply event_type_from_bytes_spec.
Qed.

Lemma reuse_payload self pl :
  payload_ok (MkPayload pl) ->
  (if bool_decide (pl = PersistedEnvelope.payload self) then Ok (PersistedEnvelope.payload_value self)
   else Payload.from_bytes pl) = Ok (MkPayload pl).
Proof.
  intros Hok. case_bool_decide as H; [by rewrite H|]. by apply payload_from_bytes_spec.
Qed.

(** An envelope that is encoded, decoded and rebuilt by [try_new] the
    way an adapter's read path does is the pending envelope that was written. *)
Theorem persist_roundtrip pe frame :
  pending_ok pe ->
  encode_frame (pe_schema_version pe) (pe_event_type pe) (pe_payload pe) (pe_metadata pe) =
    Returns (Ok frame) ->
  exists d env,
    decode_frame (ef_value frame) = Ok d /\
    PersistedEnvelope.try_new (pe_version pe) (ef_value frame) (df_schema_version d)
      (fo_event_type (df_offsets d)) (fo_payload (df_offsets d)) (fo_metadata (df_offsets d)) = Ok env /\
    from_persisted env = pe.
Proof.
  intros (He & Hp & Hm) [-> Hle]%encode_frame_Ok_inv; try done.
  destruct (try_new_v2_frame (pe_version pe) (pe_schema_version pe) _ _ _ He Hp Hm Hle) as (env & E & _ & Hf).
  set (frame := v2_frame _ _ _ _) in *.
  exists (MkDecodedFrame (pe_schema_version pe) (ef_offsets frame)), env.
  split_and!; [|exact E|by destruct pe].
  apply (decode_frame_fields V2); auto using fields_header_ok; done.
Qed.

(** Whatever bytes were on disk, an envelope the read path accepts
    has in-range field slices that satisfy the value newtypes' invariants, which
    the unchecked constructors [event_type_value] and [metadata_value] rely on. *)
Theorem read_path_sound v value d env :
  decode_frame value = Ok d ->
  PersistedEnvelope.try_new v value (df_schema_version d) (fo_event_type (df_offsets d))
    (fo_payload (df_offsets d)) (fo_metadata (df_offsets d)) = Ok env ->
  persisted_ok env.
Proof.
  intros Hd E. destruct (decode_frame_ranges _ _ Hd) as (? & ? & ?).
  by apply try_new_spec in E as [-> ?].
Qed.

(** The outcome of re-framing validated fields: the envelope, or a frame too long. *)
Lemma from_frame_encode v sv et pl md :
  event_type_ok et -> payload_ok pl -> from_option metadata_ok True md ->
  (exists env, PersistedEnvelope.from_frame v sv fo_metadata (encode_frame sv et pl md) = Returns (Ok env) /\
     persisted_ok env /\ from_persisted env = MkPendingEnvelope v et sv pl md) \/
  (exists e, PersistedEnvelope.from_frame v sv fo_metadata (encode_frame sv et pl md) = Returns (Err e) /\
     u32_max < payload_offset HEADER_FIXED_SIZE (et_bytes et) (md_bytes <$> md) + len (pl_bytes pl)).
Proof.
  intros He Hp Hm.
  destruct (decide (payload_offset HEADER_FIXED_SIZE (et_bytes et) (md_bytes <$> md) + len (pl_bytes pl) <= u32_max))
    as [Hle|Hgt].
  - left. destruct (try_new_v2_frame v sv _ _ _ He Hp Hm Hle) as (env & E & ? & Hf).
    exists env. rewrite encode_frame_bytes by done. unfold PersistedEnvelope.from_frame.
    cbn [map_err result_bind]. by rewrite E.
  - right. destruct (compute_layout_Err (et_bytes et) (md_bytes <$> md) (pl_bytes pl)) as (h & p & E'); [lia|].
    eexists. unfold encode_frame, plan. rewrite E'. split; [done|lia].
Qed.

(** [for_transformed_decode] never panics; it gives an envelope with
    the transformed event type, schema version and payload and this envelope's
    version and metadata, unless a field or the frame is too long for the format. *)
Theorem transformed_decode_exact self et schema pl :
  persisted_ok self -> utf8_valid et = true ->
  (exists c, PersistedEnvelope.for_transformed_decode self et schema pl = Returns (Ok c) /\
     persisted_ok (cow_get c) /\
     from_persisted (cow_get c) =
       MkPendingEnvelope (ps_version self) (MkEventType et) schema (MkPayload pl)
         (PersistedEnvelope.metadata_value self)) \/
  (exists e, PersistedEnvelope.for_transformed_decode self et schema pl = Returns (Err e) /\
     (MAX_EVENT_TYPE_LEN < len et \/ MAX_PAYLOAD_LEN < len pl \/
      u32_max < payload_offset HEADER_FIXED_SIZE et (PersistedEnvelope.metadata self) + len pl)).
Proof.
  intros Hok Hu. pose proof Hok as (_ & _ & _ & Het & Hpl & Hmd).
  unfold PersistedEnvelope.for_transformed_decode.
  destruct (bool_decide (et = _) && _ && _) eqn:Hsame.
  { left. eexists; split; [done|]. rewrite !andb_true_iff, !bool_decide_eq_true in Hsame.
    destruct Hsame as [[-> ->] ->]. done. }
  destruct (decide (MAX_EVENT_TYPE_LEN < len et)) as [?|Hetl].
  { right. rewrite bool_decide_false by (intros ->; destruct Het as [_ ?]; simpl in *; lia).
    unfold EventType.from_bytes. rewrite (proj2 (Z.ltb_lt _ _)) by done. eauto. }
  destruct (decide (MAX_PAYLOAD_LEN < len pl)) as [Hlong|Hpll].
  { right. rewrite (reuse_event_type self et) by (split; [done|simpl; lia]).
    rewrite bool_decide_false by (intros ->; unfold payload_ok in Hpl; simpl in *; lia).
    unfold Payload.from_bytes. rewrite (proj2 (Z.ltb_lt _ _)) by done. eauto. }
  rewrite (reuse_event_type self et), (reuse_payload self pl) by (try split; simpl; unfold payload_ok; simpl; done || lia).
  destruct (from_frame_encode (ps_version self) schema (MkEventType et) (MkPayload pl)
     (PersistedEnvelope.metadata_value self)) as [(env & -> & ? & ?)|(e & -> & Hgt)];
    [split; simpl; done || lia|unfold payload_ok; simpl; lia|done|left; eauto|right].
  eexists; split; [done|]. right; right. revert Hgt. simpl.
  unfold PersistedEnvelope.metadata_value. by destruct (PersistedEnvelope.metadata self).
Qed.

End frames.

(** ** Building *)

Lemma transpose_map_Ok {A B E} (f : A -> result B E) (o : option A) p :
  transpose (f <$> o) = Ok p <->
  match o, p with Some a, Some b => f a = Ok b | None, None => True | _, _ => False end.
Proof. destruct o as [a|], p; simpl; try destruct (f a); naive_solver. Qed.

(** [build] accepts exactly the raw fields the newtypes accept, unchanged. *)
Lemma build_spec b pe :
  event_type_ok (wp_event_type b) ->
  Builder.build b = Ok pe <->
  pe = MkPendingEnvelope (wp_version b) (wp_event_type b) (wp_schema_version b)
         (MkPayload (wp_payload b)) (MkMetadata <$> wp_metadata b) /\ pending_ok pe.
Proof.
  intros He. unfold Builder.build, pending_ok. split.
  - intros (pl & [-> Hpl]%map_err_Ok%payload_from_bytes_spec & E)%result_bind_Ok.
    apply result_bind_Ok in E as (md & Hmd%map_err_Ok & E). simplify_eq/=.
    apply transpose_map_Ok in Hmd.
    destruct (wp_metadata b) as [m|], md as [m'|]; try done.
    apply metadata_from_bytes_spec in Hmd as [-> ?]. done.
  - intros [-> (_ & Hpl & Hmd)]. simpl in *.
    rewrite (proj2 (payload_from_bytes_spec _ _) (conj eq_refl Hpl)). simpl.
    destruct (wp_metadata b) as [m|]; simpl in *; [|done].
    by rewrite (proj2 (metadata_from_bytes_spec _ _) (conj eq_refl Hmd)).
Qed.

(** ** Witnesses *)

Definition sample_envelope (v : Version) : PendingEnvelope :=
  MkPendingEnvelope v sample_event_type SchemaVersion.INITIAL sample_payload (Some sample_metadata).

Lemma sample_envelope_ok v : pending_ok (sample_envelope v).
Proof. split_and!; [apply sample_fields_ok|vm_compute; done|apply sample_fields_ok]. Qed.

Definition sample_frame : EncodedFrame :=
  v2_frame SchemaVersion.INITIAL sample_event_type sample_payload (Some sample_metadata).

Definition sample_persisted : PersistedEnvelope :=
  MkPersistedEnvelope INITIAL SchemaVersion.INITIAL (ef_value sample_frame)
    (MkRange 11 13) (MkRange 16 18) (Some (MkRange 13 16)).

Lemma sample_persisted_ok : persisted_ok sample_persisted.
Proof. split_and!; vm_compute; done. Qed.

Lemma persist_roundtrip_witness :
  exists d env, decode_frame (T := target64) (ef_value sample_frame) = Ok d /\
    PersistedEnvelope.try_new INITIAL (ef_value sample_frame) (df_schema_version d)
      (fo_event_type (df_offsets d)) (fo_payload (df_offsets d)) (fo_metadata (df_offsets d)) = Ok env /\
    from_persisted env = sample_envelope INITIAL.
Proof.
  apply (persist_roundtrip (T := target64) (sample_envelope INITIAL) sample_frame).
  - apply sample_envelope_ok.
  - vm_compute. reflexivity.
Defined.

Lemma read_path_sound_witness : persisted_ok sample_persisted.
Proof.
  apply (read_path_sound (T := target64) INITIAL (ef_value sample_frame)
    (MkDecodedFrame SchemaVersion.INITIAL
       (MkFrameOffsets (MkRange 11 13) (Some (MkRange 13 16)) (MkRange 16 18)))).
  - vm_compute. reflexivity.
  - vm_compute. reflexivity.
Defined.

Lemma transformed_decode_exact_witness :
  exists c, PersistedEnvelope.for_transformed_decode (T := target64) sample_persisted
    [byte.of_Z 67] SchemaVersion.INITIAL [] = Returns (Ok (Owned c)).
Proof.
  destruct (transformed_decode_exact (T := target64) sample_persisted [byte.of_Z 67] SchemaVersion.INITIAL [])
    as [(c & E & _)|(e & E & _)].
  - apply sample_persisted_ok.
  - reflexivity.
  - vm_compute in E. eexists. vm_compute. reflexivity.
  - vm_compute in E. discriminate E.
Defined.
