(* ===== verification/Wake.v ===== *)
(** * The per-stream wake registry (crates/wake/src/lib.rs)

    Each stream with a live registration has a [watch] channel whose value is a
    wrapping generation; [wake] bumps it and the store-wide [$all] generation.
    [tokio::sync::watch] is third-party code: a channel's state and a receiver's
    seen position are the types of [Watch], with the documented behaviour of the
    operations the registry calls as laws.  Channels are shared between the
    registry and the waits armed on them, so they live in a heap and are named by
    a channel id; a channel whose sender was dropped is no longer in the heap. *)

From S2P Require Import Prelude.

Class Watch := {
  Chan : Type;
  Rx : Type;
  chan_new : Z -> Chan;
  borrow : Chan -> Z;
  send_modify : (Z -> Z) -> Chan -> Chan;
  subscribe : Chan -> Rx;
  mark_unchanged : Chan -> Rx -> Rx;
  (** [changed()] resolves without waiting. *)
  has_changed : Chan -> Rx -> bool;
  borrow_new z : borrow (chan_new z) = z;
  borrow_modify f c : borrow (send_modify f c) = f (borrow c);
  (** A receiver that has marked the current value seen waits for the next
      [send_modify], and from then on is changed until it marks again. *)
  mark_unchanged_seen c r : has_changed c (mark_unchanged c r) = false;
  mark_unchanged_modify f c r : has_changed (send_modify f c) (mark_unchanged c r) = true;
  changed_stays f c r : has_changed c r = true -> has_changed (send_modify f c) r = true;
}.

Inductive NotifyError : Type := SubscriberOverflow.

Notation ChanId := nat (only parsing).

Record Entry : Type := MkEntry { gen_tx : ChanId; subscribers : Z }.

Section registry.
Context {T : Target} {W : Watch}.

(** The registry and the heap of live channels; [fresh] is the next unused id. *)
Record StreamNotifiers : Type := MkNotifiers {
  map : gmap bytes Entry;
  all_gen_tx : ChanId;
  heap : gmap ChanId Chan;
  fresh : ChanId;
}.

Definition notifiers_new : StreamNotifiers :=
  MkNotifiers ∅ 0%nat {[0%nat := chan_new 0]} 1%nat.

Record SubscriptionGuard : Type := MkGuard { guard_key : bytes }.
Record WakeReg : Type := MkWakeReg { reg_chan : ChanId; reg_rx : Rx; reg_guard : option SubscriptionGuard }.

(** [entry(key).or_insert_with(..)]: the entry and the registry that holds it. *)
Definition entry_or_insert (n : StreamNotifiers) (key : bytes) : Entry * StreamNotifiers :=
  match map n !! key with
  | Some entry => (entry, n)
  | None =>
      let entry := MkEntry (fresh n) 0 in
      (entry, MkNotifiers (<[key := entry]> (map n)) (all_gen_tx n)
                (<[fresh n := chan_new 0]> (heap n)) (S (fresh n)))
  end.

(** [gen_tx.subscribe()]: the registry owns the sender, so the channel is in the
    heap (see [inv_live] and [inv_all] below). *)
Definition rx_of (n : StreamNotifiers) (c : ChanId) : Rx :=
  subscribe (default (chan_new 0) (heap n !! c)).

(** The inserted entry stays in the map when the count overflows. *)
Definition register_entry (n : StreamNotifiers) (key : bytes)
  : StreamNotifiers * result (SubscriptionGuard * ChanId * Rx) NotifyError :=
  let '(entry, n) := entry_or_insert n key in
  match checked_add usize_max (subscribers entry) 1 with
  | None => (n, Err SubscriberOverflow)
  | Some count =>
      let n' := MkNotifiers (<[key := MkEntry (gen_tx entry) count]> (map n)) (all_gen_tx n) (heap n) (fresh n) in
      (n', Ok (MkGuard key, gen_tx entry, rx_of n' (gen_tx entry)))
  end.

Definition register (n : StreamNotifiers) (stream : option bytes)
  : StreamNotifiers * result WakeReg NotifyError :=
  match stream with
  | None => (n, Ok (MkWakeReg (all_gen_tx n) (rx_of n (all_gen_tx n)) None))
  | Some s =>
      match register_entry n s with
      | (n', Err e) => (n', Err e)
      | (n', Ok (guard, c, rx)) => (n', Ok (MkWakeReg c rx (Some guard)))
      end
  end.

Definition bump (c : ChanId) (h : gmap ChanId Chan) : gmap ChanId Chan :=
  alter (send_modify (fun g => u64_wrapping_add g 1)) c h.

(** The two critical sections of [wake]. *)
Definition wake_stream (n : StreamNotifiers) (stream : bytes) : StreamNotifiers :=
  match map n !! stream with
  | Some entry => MkNotifiers (map n) (all_gen_tx n) (bump (gen_tx entry) (heap n)) (fresh n)
  | None => n
  end.
Definition wake_all (n : StreamNotifiers) : StreamNotifiers :=
  MkNotifiers (map n) (all_gen_tx n) (bump (all_gen_tx n) (heap n)) (fresh n).
Definition wake (n : StreamNotifiers) (stream : bytes) : StreamNotifiers :=
  wake_all (wake_stream n stream).

Definition generation (n : StreamNotifiers) (stream : bytes) : Z :=
  match map n !! stream with
  | Some e => from_option borrow 0 (heap n !! gen_tx e)
  | None => 0
  end.
Definition all_generation (n : StreamNotifiers) : Z := from_option borrow 0 (heap n !! all_gen_tx n).
Definition active_streams (n : StreamNotifiers) : Z := Z.of_nat (size (map n)).

(** [release]: reaping an entry drops its sender. *)
Definition release (n : StreamNotifiers) (key : bytes) : StreamNotifiers :=
  match map n !! key with
  | None => n
  | Some entry =>
      match checked_sub (subscribers entry) 1 with
      | None | Some 0 =>
          MkNotifiers (delete key (map n)) (all_gen_tx n) (delete (gen_tx entry) (heap n)) (fresh n)
      | Some remaining =>
          MkNotifiers (<[key := MkEntry (gen_tx entry) remaining]> (map n)) (all_gen_tx n) (heap n) (fresh n)
      end
  end.

(** Dropping a guard while the registry is alive. *)
Definition guard_drop (n : StreamNotifiers) (g : SubscriptionGuard) : StreamNotifiers :=
  release n (guard_key g).

(** [arm]: a future holding its own receiver, marked at the instant of the call. *)
Record Wait : Type := MkWait { wait_chan : ChanId; wait_rx : Rx }.

Definition arm (n : StreamNotifiers) (r : WakeReg) : Wait :=
  MkWait (reg_chan r)
    (match heap n !! reg_chan r with Some ch => mark_unchanged ch (reg_rx r) | None => reg_rx r end).

(** The armed future is ready: its channel changed, or its sender is gone. *)
Definition wait_ready (n : StreamNotifiers) (w : Wait) : bool :=
  match heap n !! wait_chan w with
  | Some ch => has_changed ch (wait_rx w)
  | None => true
  end.

(** ** The registry as a machine *)

Inductive op : Type :=
| OpRegister (stream : bytes)
| OpDrop (stream : bytes)
| OpWakeStream (stream : bytes)
| OpWakeAll.

(** The live guards, as a list of keys, evolve with the registry. *)
Inductive reg_step : StreamNotifiers * list bytes -> op -> StreamNotifiers * list bytes -> Prop :=
| step_register n n' gs key g c rx :
    register_entry n key = (n', Ok (g, c, rx)) -> reg_step (n, gs) (OpRegister key) (n', key :: gs)
| step_register_full n n' gs key e :
    register_entry n key = (n', Err e) -> reg_step (n, gs) (OpRegister key) (n', gs)
| step_drop n gs gs' key :
    gs ≡ₚ key :: gs' -> reg_step (n, gs) (OpDrop key) (guard_drop n (MkGuard key), gs')
| step_wake_stream n gs key : reg_step (n, gs) (OpWakeStream key) (wake_stream n key, gs)
| step_wake_all n gs : reg_step (n, gs) OpWakeAll (wake_all n, gs).

Inductive reg_steps : StreamNotifiers * list bytes -> list op -> StreamNotifiers * list bytes -> Prop :=
| reg_nil s : reg_steps s [] s
| reg_cons s o s1 os s2 : reg_step s o s1 -> reg_steps s1 os s2 -> reg_steps s (o :: os) s2.

(** How many guards a key has. *)
Definition guards_of (key : bytes) (gs : list bytes) : Z := len (filter (eq key) gs).

(** Channels are allocated below [fresh], the [$all] channel is alive and nobody
    else's, and every entry has its own live channel. *)
Record chan_inv (n : StreamNotifiers) : Prop := MkChanInv {
  inv_fresh : forall c, is_Some (heap n !! c) -> (c < fresh n)%nat;
  inv_all : is_Some (heap n !! all_gen_tx n);
  inv_live : forall key e, map n !! key = Some e -> is_Some (heap n !! gen_tx e) /\ gen_tx e <> all_gen_tx n;
  inv_distinct : forall k1 k2 e1 e2, map n !! k1 = Some e1 -> map n !! k2 = Some e2 ->
    gen_tx e1 = gen_tx e2 -> k1 = k2;
}.

(** An entry's count is the number of live guards of its key, which is positive. *)
Definition count_inv (n : StreamNotifiers) (gs : list bytes) : Prop :=
  forall key, guards_of key gs = from_option subscribers 0 (map n !! key) /\
    from_option (fun e => 1 <= subscribers e <= usize_max) True (map n !! key).

Definition reg_inv (s : StreamNotifiers * list bytes) : Prop := chan_inv s.1 /\ count_inv s.1 s.2.

(** ** Invariant *)

Lemma reg_inv_new : reg_inv (notifiers_new, []).
Proof.
  split; [|intros key; done]. split; simpl; try done. intros c. rewrite lookup_singleton_is_Some. lia.
Qed.

Lemma guards_of_cons key k gs : guards_of key (k :: gs) = (if decide (key = k) then 1 else 0) + guards_of key gs.
Proof. unfold guards_of. rewrite filter_cons. destruct (decide (key = k)); [by rewrite len_cons|done]. Qed.

Lemma guards_of_perm key gs gs' : gs ≡ₚ gs' -> guards_of key gs = guards_of key gs'.
Proof. unfold guards_of, len. by intros ->. Qed.

Lemma guards_of_nonneg key gs : 0 <= guards_of key gs.
Proof. apply len_nonneg. Qed.

Lemma bump_is_Some c h c' : is_Some (bump c h !! c') <-> is_Some (h !! c').
Proof. unfold bump. by rewrite lookup_alter_is_Some. Qed.

Lemma chan_inv_bump n c : chan_inv n -> chan_inv (MkNotifiers (map n) (all_gen_tx n) (bump c (heap n)) (fresh n)).
Proof. intros [Hf Ha Hl Hd]. split; simpl; intros *; rewrite ?bump_is_Some; eauto. Qed.

Lemma chan_inv_set_count n key e count :
  map n !! key = Some e -> chan_inv n ->
  chan_inv (MkNotifiers (<[key := MkEntry (gen_tx e) count]> (map n)) (all_gen_tx n) (heap n) (fresh n)).
Proof.
  intros Hk [Hf Ha Hl Hd]. split; simpl; try done.
  - intros k e' [[<- <-]|[? He]]%lookup_insert_Some; simpl; eauto.
  - intros k1 k2 e1 e2 [[<- <-]|[? H1]]%lookup_insert_Some [[<- <-]|[? H2]]%lookup_insert_Some; simpl; eauto.
Qed.

Lemma chan_inv_reap n key e :
  map n !! key = Some e -> chan_inv n ->
  chan_inv (MkNotifiers (delete key (map n)) (all_gen_tx n) (delete (gen_tx e) (heap n)) (fresh n)).
Proof.
  intros Hk [Hf Ha Hl Hd]. split; simpl.
  - intros c [_ ?]%lookup_delete_is_Some. auto.
  - rewrite lookup_delete_ne; [done|]. by apply (Hl key).
  - intros k e' [? He]%lookup_delete_Some. destruct (Hl _ _ He). split; [|done].
    rewrite lookup_delete_ne; [done|]. intros Hx. by destruct (Hd _ _ _ _ Hk He Hx).
  - intros k1 k2 e1 e2 [_ ?]%lookup_delete_Some [_ ?]%lookup_delete_Some. eauto.
Qed.

Lemma chan_inv_insert n key :
  map n !! key = None -> chan_inv n ->
  chan_inv (MkNotifiers (<[key := MkEntry (fresh n) 0]> (map n)) (all_gen_tx n)
              (<[fresh n := chan_new 0]> (heap n)) (S (fresh n))).
Proof.
  intros Hk [Hf Ha Hl Hd].
  assert (forall k e, map n !! k = Some e -> gen_tx e <> fresh n) as Hnf.
  { intros k e [He%Hf _]%Hl. lia. }
  split; simpl.
  - intros c [->|[_ ?%Hf]]%lookup_insert_is_Some; lia.
  - apply lookup_insert_is_Some'. auto.
  - intros k e [[<- <-]|[? He]]%lookup_insert_Some; simpl.
    + rewrite lookup_insert_eq. split; [eauto|]. intros E. apply Hf in Ha. lia.
    + destruct (Hl _ _ He). split; [|done]. apply lookup_insert_is_Some'. auto.
  - intros k1 k2 e1 e2 [[<- <-]|[? H1]]%lookup_insert_Some [[<- <-]|[? H2]]%lookup_insert_Some; simpl; intros E; try done.
    + by destruct (Hnf _ _ H2).
    + by destruct (Hnf _ _ H1).
    + eauto.
Qed.

Lemma entry_or_insert_spec n key entry n1 :
  chan_inv n -> entry_or_insert n key = (entry, n1) ->
  chan_inv n1 /\ map n1 !! key = Some entry /\
  subscribers entry = from_option subscribers 0 (map n !! key) /\
  (forall k, k <> key -> map n1 !! k = map n !! k).
Proof.
  intros Hinv E. unfold entry_or_insert in E.
  destruct (map n !! key) as [e|] eqn:Hk; simplify_eq/=; [done|].
  split; [by apply chan_inv_insert|]. rewrite lookup_insert_eq. split_and!; try done.
  intros k ?. by rewrite lookup_insert_ne.
Qed.

(** Registering: one more guard on the key's entry, or nothing but a full count. *)
Lemma register_entry_spec n gs key n' r :
  reg_inv (n, gs) -> register_entry n key = (n', r) ->
  match r with
  | Ok (g, c, rx) => g = MkGuard key /\ (gen_tx <$> map n' !! key = Some c) /\ reg_inv (n', key :: gs)
  | Err _ => n' = n
  end.
Proof.
  intros [Hch Hc] E. unfold register_entry in E. simpl in *.
  destruct (entry_or_insert n key) as [entry n1] eqn:E1.
  destruct (entry_or_insert_spec _ _ _ _ Hch E1) as (Hch1 & Hm & Hs & Ho).
  destruct (Hc key) as [Hg Hp]. pose proof (guards_of_nonneg key gs).
  destruct (checked_add usize_max (subscribers entry) 1) as [count|] eqn:Hadd; simplify_eq/=.
  - apply checked_add_Some in Hadd as [-> Hle]. rewrite lookup_insert_eq. split_and!; [done..|].
    split; [by apply chan_inv_set_count|]. intros k. simpl. rewrite guards_of_cons.
    destruct (decide (k = key)) as [->|Hne]; [rewrite lookup_insert_eq|rewrite lookup_insert_ne, Ho by done]; simpl;
      [lia|apply Hc].
  - apply checked_add_None in Hadd. unfold entry_or_insert in E1.
    destruct (map n !! key) eqn:Hk; simplify_eq; [done|].
    simpl in *. pose proof usize_max_lo. unfold u32_max in *. lia.
Qed.

Lemma release_spec n gs gs' key :
  reg_inv (n, gs) -> gs ≡ₚ key :: gs' -> reg_inv (release n key, gs').
Proof.
  intros [Hch Hc] Hgs. simpl in *.
  assert (forall k, guards_of k gs = (if decide (k = key) then 1 else 0) + guards_of k gs') as Hg
    by (intros k; rewrite (guards_of_perm _ _ _ Hgs); apply guards_of_cons).
  destruct (Hc key) as [Hk Hp]. pose proof (guards_of_nonneg key gs').
  pose proof (Hg key) as Hkey. rewrite decide_True in Hkey by done.
  assert (forall k, k <> key -> guards_of k gs' = guards_of k gs) as Hrest
    by (intros k Hne; rewrite Hg, decide_False by done; lia).
  unfold release. destruct (map n !! key) as [e|] eqn:He; simpl in *; [|lia].
  unfold checked_sub. rewrite (proj2 (Z.leb_le _ _)) by lia.
  destruct (subscribers e - 1) as [|rem|rem] eqn:Hrem; [| |lia].
  - split; [by apply chan_inv_reap|]. intros k. simpl. destruct (decide (k = key)) as [->|Hne].
    + rewrite lookup_delete_eq. simpl. lia.
    + rewrite lookup_delete_ne, Hrest by done. apply Hc.
  - split; [by apply chan_inv_set_count|]. intros k. simpl. destruct (decide (k = key)) as [->|Hne].
    + rewrite lookup_insert_eq. simpl. lia.
    + rewrite lookup_insert_ne, Hrest by done. apply Hc.
Qed.

Lemma wake_stream_inv n gs key : reg_inv (n, gs) -> reg_inv (wake_stream n key, gs).
Proof.
  intros [Hch Hc]. unfold wake_stream. destruct (map n !! key); [|done].
  split; [by apply chan_inv_bump|done].
Qed.

Lemma reg_inv_step s o s' : reg_inv s -> reg_step s o s' -> reg_inv s'.
Proof.
  intros Hinv. inversion 1 as [n n' gs key g c rx E|n n' gs key e E|n gs gs' key Hgs|n gs key|n gs]; subst.
  - by apply (register_entry_spec _ _ _ _ _ Hinv) in E as (_ & _ & ?).
  - by apply (register_entry_spec _ _ _ _ _ Hinv) in E as ->.
  - by eapply release_spec.
  - by apply wake_stream_inv.
  - destruct Hinv as [Hch Hc]. split; [by apply chan_inv_bump|done].
Qed.

Lemma reg_inv_steps s os s' : reg_inv s -> reg_steps s os s' -> reg_inv s'.
Proof. intros Hinv. induction 1; eauto using reg_inv_step. Qed.

(** ** Lifecycle *)

Lemma guards_of_positive key gs : 1 <= guards_of key gs <-> key ∈ gs.
Proof.
  unfold guards_of. split.
  - destruct (filter (eq key) gs) as [|k l] eqn:E; [rewrite len_nil; lia|]. intros _.
    assert (k ∈ filter (eq key) gs) as Hk by (rewrite E; left). by apply list_elem_of_filter in Hk as [-> ?].
  - intros Hin. destruct (filter (eq key) gs) as [|k l] eqn:E.
    + assert (key ∈ filter (eq key) gs) as Hk by (by apply list_elem_of_filter). rewrite E in Hk. inversion Hk.
    + rewrite len_cons. pose proof (len_nonneg l). lia.
Qed.

(** After any sequence of registrations, drops and wakes the map holds
    an entry for a stream exactly while some guard of it is alive, and the entry
    counts its guards, so entries are reaped with their last subscriber. *)
Theorem entry_iff_live_guard os n gs key :
  reg_steps (notifiers_new, []) os (n, gs) ->
  (is_Some (map n !! key) <-> key ∈ gs) /\
  from_option subscribers 0 (map n !! key) = guards_of key gs.
Proof.
  intros [_ Hc]%reg_inv_steps; [|apply reg_inv_new]. simpl in Hc. destruct (Hc key) as [Hg Hp].
  rewrite <- guards_of_positive, Hg. destruct (map n !! key) as [e|]; simpl in *.
  - split; [|done]. split; [lia|eauto].
  - split; [|done]. split; [intros [? ?]; done|lia].
Qed.

(** ** Waits *)

(** The channel a registration on [target] ([None] is [$all]) watches. *)
Definition chan_of (n : StreamNotifiers) (target : option bytes) : option ChanId :=
  match target with
  | Some key => gen_tx <$> map n !! key
  | None => Some (all_gen_tx n)
  end.

(** Channel [c] is the live channel of [target], or it is gone for good. *)
Definition chan_tracks (n : StreamNotifiers) (target : option bytes) (c : ChanId) : Prop :=
  (c < fresh n)%nat /\ (heap n !! c = None \/ chan_of n target = Some c).

(** The operation wakes [target]. *)
Definition wakes (target : option bytes) (o : op) : bool :=
  match o, target with
  | OpWakeStream k, Some key => bool_decide (k = key)
  | OpWakeAll, None => true
  | _, _ => false
  end.

Definition bumped (ch : Chan) : Chan := send_modify (fun g => u64_wrapping_add g 1) ch.

Lemma bump_lookup c h c' :
  bump c h !! c' = (if decide (c = c') then bumped <$> h !! c' else h !! c').
Proof.
  unfold bump. destruct (decide (c = c')) as [->|Hne];
    [by rewrite lookup_alter_eq|by rewrite lookup_alter_ne].
Qed.

Lemma register_entry_frame n key n' r target c :
  register_entry n key = (n', r) -> (c < fresh n)%nat ->
  heap n' !! c = heap n !! c /\ (fresh n <= fresh n')%nat /\
  (is_Some (chan_of n target) -> chan_of n' target = chan_of n target).
Proof.
  intros E Hc. unfold register_entry, entry_or_insert in E.
  destruct (map n !! key) as [e|] eqn:Hk; simpl in E;
    [destruct (checked_add usize_max (subscribers e) 1)|destruct (checked_add usize_max 0 1)];
    simplify_eq/=; split_and!; try lia; try done;
    try (rewrite lookup_insert_ne by lia; done);
    destruct target as [k|]; simpl; try done;
    rewrite fmap_is_Some; intros [e' He]; destruct (decide (k = key)) as [->|Hne];
    rewrite ?lookup_insert_eq, ?lookup_insert_ne by done; rewrite ?Hk, ?He; try done; congruence.
Qed.

Lemma tracks_release n key target c :
  chan_inv n -> (c < fresh n)%nat -> heap n !! c = None \/ chan_of n target = Some c ->
  chan_tracks (release n key) target c /\
  (heap (release n key) !! c = None \/ heap (release n key) !! c = heap n !! c).
Proof.
  intros Hch Hf Ht. unfold chan_tracks, release. destruct (map n !! key) as [e|] eqn:Hk; [|auto].
  assert (forall count,
    chan_of (MkNotifiers (<[key := MkEntry (gen_tx e) count]> (map n)) (all_gen_tx n) (heap n) (fresh n)) target
      = chan_of n target) as Hset.
  { intros count. destruct target as [k|]; [|done]. simpl.
    destruct (decide (k = key)) as [->|]; [by rewrite lookup_insert_eq, Hk|by rewrite lookup_insert_ne]. }
  assert (forall h' m', h' = delete (gen_tx e) (heap n) -> m' = delete key (map n) ->
    let n' := MkNotifiers m' (all_gen_tx n) h' (fresh n) in
    chan_tracks n' target c /\ (h' !! c = None \/ h' !! c = heap n !! c)) as Hdel.
  { intros h' m' -> ->. unfold chan_tracks. simpl. destruct (decide (gen_tx e = c)) as [<-|Hne].
    - rewrite lookup_delete_eq. auto.
    - rewrite lookup_delete_ne by done. split; [split; [done|]|by right].
      destruct Ht as [?|Ht]; [by left|right]. destruct target as [k|]; simpl in *; [|done].
      rewrite lookup_delete_ne; [done|]. intros ->. rewrite Hk in Ht. by simplify_eq/=. }
  destruct (checked_sub (subscribers e) 1) as [[|?|?]|]; simpl; rewrite ?Hset; auto; by apply Hdel.
Qed.

(** What one operation does to the channel a target watches: it is bumped by the
    operations that wake the target, and otherwise stays as it is or is dropped. *)
Lemma tracks_step s o s' target c :
  reg_inv s -> reg_step s o s' -> chan_tracks s.1 target c ->
  chan_tracks s'.1 target c /\
  (heap s'.1 !! c = None \/
   heap s'.1 !! c = (if wakes target o then bumped <$> heap s.1 !! c else heap s.1 !! c)).
Proof.
  intros [Hch Hc] Hstep [Hf Ht]. unfold chan_tracks.
  inversion Hstep as [n n' gs k g c' rx E|n n' gs k e E|n gs gs' k Hgs|n gs k|n gs]; subst; simpl in *.
  1,2: apply (register_entry_frame _ _ _ _ target c) in E as (-> & ? & Hm); [|done];
    (split; [|by right; destruct target]); (split; [lia|]);
    (destruct Ht as [?|Ht]; [by left|right]); rewrite Hm; eauto.
  - unfold guard_drop. simpl. apply tracks_release; done.
  - unfold wake_stream. destruct (map n !! k) as [e|] eqn:Hk; simpl.
    2:{ split; [done|]. destruct target as [key|]; [|by right]. case_bool_decide; [subst|by right].
        destruct Ht as [Ht|Ht]; [by left|]. simpl in Ht. by rewrite Hk in Ht. }
    rewrite bump_lookup. destruct Ht as [Ht|Ht].
    { rewrite Ht. split; [split; [done|]|]; left; by destruct (decide _). }
    destruct target as [key|]; simpl in Ht.
    + split; [split; [done|by right]|right]. destruct (map n !! key) as [e'|] eqn:Hkey; simplify_eq/=.
      destruct (decide (gen_tx e = gen_tx e')) as [Heq|Hne].
      * rewrite bool_decide_true; [done|]. by eapply (inv_distinct n).
      * rewrite bool_decide_false; [done|]. intros ->. congruence.
    + simplify_eq/=. rewrite decide_False by (by apply (inv_live n Hch k)). split; [split; auto|auto].
  - rewrite bump_lookup. destruct Ht as [Ht|Ht].
    { rewrite Ht. split; [split; [done|]|]; left; by destruct (decide _). }
    destruct target as [key|]; simpl in Ht.
    + destruct (map n !! key) as [e'|] eqn:Hkey; simplify_eq/=.
      destruct (inv_live n Hch _ _ Hkey). rewrite decide_False by done. rewrite Hkey. auto.
    + simplify_eq/=. rewrite decide_True by done. auto.
Qed.

(** Along a run the watched channel is bumped once per waking operation, unless
    it was dropped. *)
Lemma tracks_steps s os s' target c :
  reg_inv s -> reg_steps s os s' -> chan_tracks s.1 target c ->
  heap s'.1 !! c = None \/
  heap s'.1 !! c = Nat.iter (length (filter (fun o => wakes target o = true) os)) bumped <$> heap s.1 !! c.
Proof.
  intros Hinv Hs. induction Hs as [s|s o s1 os s2 Hstep Hs IH]; intros Ht.
  { right. simpl. symmetry. apply option_fmap_id. }
  destruct (tracks_step _ _ _ _ _ Hinv Hstep Ht) as [Ht1 Hh].
  destruct (IH (reg_inv_step _ _ _ Hinv Hstep) Ht1) as [?|E]; [by left|].
  rewrite E. destruct Hh as [->|Hh]; [by left|]. right. rewrite Hh, filter_cons.
  destruct (wakes target o); [|done]. cbn [length decide].
  rewrite <- option_fmap_compose. apply option_fmap_ext. intros ch. unfold compose.
  by rewrite <- Nat.iter_succ_r.
Qed.

Lemma tracks_run s os s' target c :
  reg_inv s -> reg_steps s os s' -> chan_tracks s.1 target c -> chan_tracks s'.1 target c.
Proof.
  intros Hinv Hs. induction Hs as [|s o s1 os s2 Hstep _ IH]; [done|]. intros Ht.
  apply IH; [by eapply reg_inv_step|by eapply tracks_step].
Qed.

Lemma register_tracks n gs target n' reg :
  reg_inv (n, gs) -> register n target = (n', Ok reg) ->
  reg_inv (n', match target with Some key => key :: gs | None => gs end) /\
  chan_tracks n' target (reg_chan reg).
Proof.
  intros Hinv E. destruct target as [key|]; simpl in E.
  - destruct (register_entry n key) as [n1 [[[g c] rx]|]] eqn:E1; simplify_eq/=.
    apply (register_entry_spec _ _ _ _ _ Hinv) in E1 as (_ & Hc & Hinv1). split; [done|].
    split; [|by right]. destruct Hinv1 as [Hch _]. simpl in Hch.
    destruct (map n' !! key) as [e|] eqn:He; simplify_eq/=.
    apply (inv_fresh _ Hch). by apply (inv_live _ Hch key).
  - simplify_eq/=. split; [done|]. destruct Hinv as [Hch _]. split; [|by right].
    apply (inv_fresh _ Hch), (inv_all _ Hch).
Qed.

(** The guard of a registration on [target]. *)
Definition own (target : option bytes) : list bytes := match target with Some key => [key] | None => [] end.

Lemma register_held n gs target n' reg :
  reg_inv (n, gs) -> register n target = (n', Ok reg) ->
  reg_inv (n', own target ++ gs) /\ chan_of n' target = Some (reg_chan reg).
Proof.
  intros Hinv E. destruct target as [key|]; simpl in E; [|by simplify_eq/=].
  destruct (register_entry n key) as [n1 [[[g c] rx]|]] eqn:E1; simplify_eq/=.
  by apply (register_entry_spec _ _ _ _ _ Hinv) in E1 as (_ & ? & ?).
Qed.

Lemma filter_nonempty (f : op -> bool) os :
  length (filter (fun o => f o = true) os) <> 0%nat <-> exists o, o ∈ os /\ f o = true.
Proof.
  rewrite length_zero_iff_nil. split.
  - destruct (filter _ os) as [|o l] eqn:Hfl; [done|]. intros _.
    assert (o ∈ filter (fun o => f o = true) os) as Ho by (rewrite Hfl; left).
    apply list_elem_of_filter in Ho as [??]. eauto.
  - intros (o & Ho & Hw) Hnil.
    assert (o ∈ filter (fun o => f o = true) os) as Hx by (by apply list_elem_of_filter).
    rewrite Hnil in Hx. inversion Hx.
Qed.

Lemma iter_bumped_changed k ch r :
  has_changed (Nat.iter k bumped ch) (mark_unchanged ch r) = negb (Nat.eqb k 0).
Proof.
  induction k as [|k IH]; simpl in *; [apply mark_unchanged_seen|].
  destruct k as [|k]; [apply mark_unchanged_modify|by apply changed_stays].
Qed.

(** A wait armed while its channel is tracked resolves on the wakes of its target. *)
Lemma armed_ready target reg n gs os n' gs' :
  reg_inv (n, gs) -> chan_tracks n target (reg_chan reg) -> reg_steps (n, gs) os (n', gs') ->
  wait_ready n' (arm n reg) = true <->
  (exists o, o ∈ os /\ wakes target o = true) \/ heap n' !! reg_chan reg = None.
Proof.
  intros Hinv Ht Hs.
  destruct (tracks_steps _ _ _ _ _ Hinv Hs Ht) as [E|E]; unfold wait_ready, arm; simpl in *.
  { rewrite E. naive_solver. }
  rewrite E. destruct (heap n !! reg_chan reg) as [ch|]; simpl; [|naive_solver].
  rewrite iter_bumped_changed, negb_true_iff, Nat.eqb_neq, filter_nonempty. naive_solver.
Qed.

(** ** Held registrations

    A registration that is held keeps its guard: the operations of everybody else
    run on the other guards [gs] only. *)

Lemma reg_inv_perm n gs gs' : gs ≡ₚ gs' -> reg_inv (n, gs) -> reg_inv (n, gs').
Proof. intros Hp [Hch Hc]. split; [done|]. intros key. cbn [fst snd]. by rewrite <- (guards_of_perm key _ _ Hp). Qed.

(** What the others do is a step on all guards. *)
Lemma others_step n gs o n' gs' held :
  reg_step (n, gs) o (n', gs') -> exists gs1, gs1 ≡ₚ held ++ gs' /\ reg_step (n, held ++ gs) o (n', gs1).
Proof.
  inversion 1 as [? ? ? k g c rx E|? ? ? k e E|? ? ? k Hgs|? ? k|]; subst.
  - exists (k :: held ++ gs). split; [apply Permutation_middle|by eapply step_register].
  - exists (held ++ gs'). split; [done|by eapply step_register_full].
  - exists (held ++ gs'). split; [done|]. apply step_drop. rewrite Hgs. symmetry. apply Permutation_middle.
  - exists (held ++ gs'). split; [done|apply step_wake_stream].
  - exists (held ++ gs'). split; [done|apply step_wake_all].
Qed.

(** The release of another guard of the same stream leaves the entry: it counts the
    held guard too. *)
Lemma held_release n gs gs' k target c :
  reg_inv (n, own target ++ gs) -> gs ≡ₚ k :: gs' -> chan_of n target = Some c -> chan_of (release n k) target = Some c.
Proof.
  intros [_ Hc] Hgs Ht. unfold release. destruct (map n !! k) as [e|] eqn:Hk; [|done].
  destruct target as [key|]; [|by destruct (checked_sub _ _) as [[]|]]. simpl in *.
  destruct (decide (key = k)) as [->|Hne].
  2:{ destruct (checked_sub _ _) as [[]|]; simpl; by rewrite ?lookup_delete_ne, ?lookup_insert_ne. }
  destruct (Hc k) as [Hg _]. rewrite Hk in Hg, Ht. simpl in Hg, Ht.
  rewrite guards_of_cons, decide_True, (guards_of_perm _ _ _ Hgs), guards_of_cons, decide_True in Hg by done.
  pose proof (guards_of_nonneg k gs'). unfold checked_sub. rewrite (proj2 (Z.leb_le _ _)) by lia.
  destruct (subscribers e - 1) as [|rem|rem] eqn:Hrem; [lia| |lia]. simpl. by rewrite lookup_insert_eq.
Qed.

Lemma held_step n gs o n' gs' target c :
  reg_inv (n, own target ++ gs) -> chan_of n target = Some c -> reg_step (n, gs) o (n', gs') ->
  reg_inv (n', own target ++ gs') /\ chan_of n' target = Some c.
Proof.
  intros Hinv Ht Hstep. split.
  - destruct (others_step _ _ _ _ _ (own target) Hstep) as (gs1 & Hp & Hs).
    apply (reg_inv_perm _ _ _ Hp). by eapply reg_inv_step.
  - inversion Hstep as [? ? ? k g c' rx E|? ? ? k e E|? ? ? k Hgs|? ? k|]; subst.
    1,2: assert (c < fresh n)%nat as Hf by (apply (inv_fresh n (proj1 Hinv)); destruct target as [key|]; simpl in Ht;
        [apply fmap_Some in Ht as (e' & He & ->); by apply (inv_live n (proj1 Hinv) key)|injection Ht as <-; apply Hinv]);
      apply (register_entry_frame _ _ _ _ target c) in E as (_ & _ & Hm); [|done]; rewrite Hm; eauto.
    + by eapply held_release.
    + unfold wake_stream. by destruct (map n !! k).
    + done.
Qed.

Lemma chan_of_live n gs target c : reg_inv (n, gs) -> chan_of n target = Some c -> is_Some (heap n !! c).
Proof.
  intros [Hch _] Ht. destruct target as [key|]; simpl in Ht; [|injection Ht as <-; apply Hch].
  apply fmap_Some in Ht as (e & He & ->). by apply (inv_live n Hch key).
Qed.

(** The channel of a held registration is bumped by the wakes of its target and
    changed by nothing else. *)
Lemma held_run n gs os n' gs' target c :
  reg_inv (n, own target ++ gs) -> chan_of n target = Some c -> reg_steps (n, gs) os (n', gs') ->
  reg_inv (n', own target ++ gs') /\ chan_of n' target = Some c /\
  heap n' !! c = Nat.iter (length (filter (fun o => wakes target o = true) os)) bumped <$> heap n !! c.
Proof.
  intros Hinv Ht Hs. remember (n, gs) as s eqn:Es. remember (n', gs') as s' eqn:Es'. revert n gs Es Hinv Ht.
  induction Hs as [s|s o [n1 gs1] os s2 Hstep Hs IH]; intros n gs -> Hinv Ht.
  { injection Es' as <- <-. split_and!; [done..|]. simpl. symmetry. apply option_fmap_id. }
  destruct (held_step _ _ _ _ _ _ _ Hinv Ht Hstep) as [Hinv1 Ht1].
  destruct (IH Es' n1 gs1 eq_refl Hinv1 Ht1) as (? & ? & ->). split_and!; [done..|].
  destruct (others_step _ _ _ _ _ (own target) Hstep) as (gsx & _ & Hsx).
  assert (chan_tracks n target c) as Htr.
  { split; [|by right]. apply (inv_fresh n (proj1 Hinv)). by eapply chan_of_live. }
  destruct (tracks_step _ _ _ _ _ Hinv Hsx Htr) as [_ [Hn|Hh]]; simpl in *.
  { destruct (chan_of_live _ _ _ _ Hinv1 Ht1) as [? Hx]. congruence. }
  rewrite Hh, filter_cons. destruct (wakes target o); [|done]. cbn [length decide].
  rewrite <- option_fmap_compose. apply option_fmap_ext. intros ch. unfold compose. by rewrite <- Nat.iter_succ_r.
Qed.

(** C27: as long as a registration is held, a wait armed on it at any point is ready
    exactly when its target has been woken since the wait was armed: no wake that
    follows [arm] is lost, and nothing else resolves it, whatever registrations and
    wakes interleave and however many other registrations are dropped, those of the
    same stream included ([gs0] are the guards of the others). *)
Theorem wait_ready_iff_woken target os n0 gs0 n1 reg os1 n2 gs2 os2 n3 gs3 :
  reg_steps (notifiers_new, []) os (n0, gs0) ->
  register n0 target = (n1, Ok reg) ->
  reg_steps (n1, gs0) os1 (n2, gs2) ->
  reg_steps (n2, gs2) os2 (n3, gs3) ->
  wait_ready n3 (arm n2 reg) = true <-> exists o, o ∈ os2 /\ wakes target o = true.
Proof.
  intros H0%reg_inv_steps Hreg H1 H2; [|apply reg_inv_new].
  destruct (register_held _ _ _ _ _ H0 Hreg) as [Hinv1 Ht1].
  destruct (held_run _ _ _ _ _ _ _ Hinv1 Ht1 H1) as (Hinv2 & Ht2 & _).
  destruct (held_run _ _ _ _ _ _ _ Hinv2 Ht2 H2) as (_ & _ & E).
  destruct (chan_of_live _ _ _ _ Hinv2 Ht2) as [ch Hch].
  unfold wait_ready, arm. cbn [wait_chan wait_rx]. rewrite E, Hch. cbn [fmap option_fmap option_map].
  rewrite iter_bumped_changed, negb_true_iff, Nat.eqb_neq. apply filter_nonempty.
Qed.

End registry.

(** ** Witnesses: a channel that counts its modifications *)

Definition counter_watch : Watch.
Proof.
  refine {| Chan := Z * nat; Rx := nat;
    chan_new z := (z, O);
    borrow c := c.1;
    send_modify f c := (f c.1, S c.2);
    subscribe c := c.2;
    mark_unchanged c _ := c.2;
    has_changed c r := (r <? c.2)%nat |}; simpl.
  - done.
  - done.
  - intros [z v] _. apply Nat.ltb_irrefl.
  - intros f [z v] _. apply Nat.ltb_lt. simpl. lia.
  - intros f [z v] r ?%Nat.ltb_lt. apply Nat.ltb_lt. simpl in *. lia.
Defined.

Definition stream_a : bytes := [byte.of_Z 97].

Lemma entry_iff_live_guard_witness :
  is_Some (map (register_entry (T := target64) (W := counter_watch) notifiers_new stream_a).1 !! stream_a) <-> stream_a ∈ [stream_a].
Proof.
  apply (entry_iff_live_guard (T := target64) (W := counter_watch) [OpRegister stream_a]).
  eapply reg_cons; [|apply reg_nil].
  eapply step_register. reflexivity.
Defined.

(** Two registrations of a stream; the other one is dropped, and the wait on the held
    one is not ready until the stream is woken. *)
Lemma wait_ready_iff_woken_witness :
  let R := register_entry (T := target64) (W := counter_watch) in
  let n0 := (R notifiers_new stream_a).1 in
  exists n1 reg, register (T := target64) (W := counter_watch) n0 (Some stream_a) = (n1, Ok reg) /\
    let n2 := guard_drop n1 (MkGuard stream_a) in
    (wait_ready n2 (arm n1 reg) = true <-> exists o, o ∈ [OpDrop stream_a] /\ wakes (Some stream_a) o = true) /\
    (wait_ready (wake_stream n2 stream_a) (arm n1 reg) = true <->
     exists o, o ∈ [OpDrop stream_a; OpWakeStream stream_a] /\ wakes (Some stream_a) o = true).
Proof.
  intros R n0. eexists _, _. split; [reflexivity|]. intros n2.
  assert (reg_steps (T := target64) (W := counter_watch) (notifiers_new, []) [OpRegister stream_a] (n0, [stream_a])) as H0
    by (eapply reg_cons; [eapply step_register; reflexivity|apply reg_nil]).
  split.
  - eapply (wait_ready_iff_woken (T := target64) (W := counter_watch) (Some stream_a) [OpRegister stream_a] n0 [stream_a] _ _
      [] _ [stream_a] [OpDrop stream_a] n2 []); [exact H0|reflexivity|apply reg_nil|].
    eapply reg_cons; [apply step_drop; reflexivity|apply reg_nil].
  - eapply (wait_ready_iff_woken (T := target64) (W := counter_watch) (Some stream_a) [OpRegister stream_a] n0 [stream_a] _ _
      [] _ [stream_a] [OpDrop stream_a; OpWakeStream stream_a] (wake_stream n2 stream_a) []); [exact H0|reflexivity|apply reg_nil|].
    eapply reg_cons; [apply step_drop; reflexivity|]. eapply reg_cons; [apply step_wake_stream|apply reg_nil].
Defined.
