(* ===== verification/WakeNostd.v ===== *)
(** * The no-std wake source (crates/wake-nostd/src/lib.rs)

    One eventcount for the whole store: a generation that every wake bumps, and an
    [event_listener::Event] on which armed futures park.  A wake is two atomic steps,
    the bump and the notification, and so is the first poll of an armed future, its
    registration and its second look at the generation; steps of all tasks
    interleave in any order.  The event is a parameter with its documented laws.  The
    source's fences make the interleavings sequentially consistent. *)

From S2P Require Import Prelude.

(** [event_listener::Event]: a listener is registered when [listen] returns, and
    [notify(usize::MAX)] reaches every listener that is registered. *)
Class EventListener := {
  Event : Type;
  Listener : Type;
  event_new : Event;
  listen : Event -> Event * Listener;
  notify : Event -> Event;
  registered : Event -> Listener -> Prop;
  notified : Event -> Listener -> bool;
  listen_registers e e' l : listen e = (e', l) -> registered e' l;
  listen_keeps e e' l l' : listen e = (e', l) -> registered e l' ->
    registered e' l' /\ (notified e l' = true -> notified e' l' = true);
  notify_reaches e l : registered e l -> registered (notify e) l /\ notified (notify e) l = true;
}.

Section wake_nostd.
Context `{EL : EventListener}.

(** [Inner], shared by the source and its registrations. *)
Record Inner : Type := MkInner { generation : Z; event : Event }.

(** [GlobalWake::new]. *)
Definition global_wake_new : Inner := MkInner 0 event_new.

(** [register]: the handle is the shared state itself, whatever the stream. *)
Definition register (i : Inner) (_ : option bytes) : result Inner Empty_set := Ok i.

(** The generation is an [AtomicU32]; [fetch_add] wraps. *)
Definition fetch_add (g : Z) : Z := (g + 1) mod 2 ^ 32.

(** [wake], as its two atomic steps. *)
Definition wake_bump (i : Inner) : Inner := MkInner (fetch_add (generation i)) (event i).
Definition wake_notify (i : Inner) : Inner := MkInner (generation i) (notify (event i)).

(** The future of [arm]: armed, registered but not yet rechecked, parked, done. *)
Inductive Arm : Type :=
| Armed (seen : Z)
| Listening (seen : Z) (listener : Listener)
| Parked (listener : Listener)
| Done.

Definition arm (i : Inner) : Arm := Armed (generation i).

(** One atomic step of a poll of the future. *)
Definition poll_step (i : Inner) (f : Arm) : Inner * Arm :=
  match f with
  | Armed seen => let '(e, l) := listen (event i) in (MkInner (generation i) e, Listening seen l)
  | Listening seen l => (i, if negb (generation i =? seen) then Done else Parked l)
  | Parked l => (i, if notified (event i) l then Done else Parked l)
  | Done => (i, Done)
  end.

(** A poll runs these steps until it returns. *)
Definition poll (i : Inner) (f : Arm) : Arm :=
  let '(i, f) := poll_step i f in
  let '(i, f) := poll_step i f in
  let '(i, f) := poll_step i f in f.

(** ** All tasks together

    The state has one armed future, the wakes between their two steps, each with
    whether it bumped after the future was armed, the number of bumps since then,
    and whether one of those wakes has completed. *)
Record Sys : Type := MkSys {
  sys_inner : Inner;
  sys_arm : Arm;
  sys_waking : list bool;
  sys_bumps : Z;
  sys_woken : bool;
}.

Definition armed_now (i : Inner) (before : nat) : Sys := MkSys i (arm i) (replicate before false) 0 false.

Inductive sys_step : Sys -> Sys -> Prop :=
| step_bump i f w n k : sys_step (MkSys i f w n k) (MkSys (wake_bump i) f (w ++ [true]) (n + 1) k)
| step_notify i f w1 after w2 n k :
    sys_step (MkSys i f (w1 ++ after :: w2) n k) (MkSys (wake_notify i) f (w1 ++ w2) n (k || after))
(** Another registration listens. *)
| step_other i f w n k e l :
    listen (event i) = (e, l) -> sys_step (MkSys i f w n k) (MkSys (MkInner (generation i) e) f w n k)
| step_poll i f w n k i' f' : poll_step i f = (i', f') -> sys_step (MkSys i f w n k) (MkSys i' f' w n k).

(** What the future can rely on at each of its points. *)
Definition arm_inv (g0 : Z) (x : Sys) : Prop :=
  match sys_arm x with
  | Armed seen => seen = g0
  | Listening seen l => seen = g0 /\ registered (event (sys_inner x)) l
  | Parked l => registered (event (sys_inner x)) l /\ (sys_woken x = true -> notified (event (sys_inner x)) l = true)
  | Done => True
  end.

Record sys_inv (g0 : Z) (x : Sys) : Prop := MkSysInv {
  si_bumps : 0 <= sys_bumps x;
  si_generation : generation (sys_inner x) = (g0 + sys_bumps x) mod 2 ^ 32;
  si_since : sys_woken x = true \/ true ∈ sys_waking x -> 1 <= sys_bumps x;
  si_arm : sys_bumps x < 2 ^ 32 -> arm_inv g0 x;
}.

Lemma bumped_differs g n : 0 <= g < 2 ^ 32 -> 1 <= n < 2 ^ 32 -> (g + n) mod 2 ^ 32 <> g.
Proof.
  intros Hg Hn He. destruct (Z_lt_le_dec (g + n) (2 ^ 32)) as [H|H].
  - rewrite Z.mod_small in He by lia. lia.
  - rewrite <- (Z_mod_plus_full (g + n) (-1)) in He. rewrite Z.mod_small in He by lia. lia.
Qed.

(** A registration keeps what the future relies on. *)
Lemma listen_arm_inv g0 i f w n k e l :
  arm_inv g0 (MkSys i f w n k) -> listen (event i) = (e, l) -> arm_inv g0 (MkSys (MkInner (generation i) e) f w n k).
Proof.
  intros Hf Hl. destruct f as [seen|seen l'|l'|]; cbn in *; [done| | |done].
  - destruct Hf as [-> Hr]. split; [done|]. by apply (listen_keeps _ _ _ l' Hl).
  - destruct Hf as [Hr Hn]. destruct (listen_keeps _ _ _ l' Hl Hr). auto.
Qed.

Lemma sys_step_inv g0 x y : 0 <= g0 < 2 ^ 32 -> sys_inv g0 x -> sys_step x y -> sys_inv g0 y.
Proof.
  intros Hg0 [Hb Hg Hs Hf] Hst. destruct Hst as [i f w n k|i f w1 after w2 n k|i f w n k e l Hl|i f w n k i' f' Hp]; cbn in *.
  - split; cbn; [lia| |lia|].
    + unfold fetch_add. rewrite Hg, Zplus_mod_idemp_l. f_equal. lia.
    + intros Hn. specialize (Hf ltac:(lia)). by destruct f.
  - split; cbn; [done|done| |].
    + intros [[?| ->]%orb_true_iff|Hin]; apply Hs; [by left|right; set_solver|right; set_solver].
    + intros Hn. specialize (Hf Hn). destruct f as [seen|seen l'|l'|]; cbn in *; [done| | |done].
      * destruct Hf as [-> Hr]. split; [done|]. by apply notify_reaches.
      * destruct Hf as [Hr _]. destruct (notify_reaches _ _ Hr). auto.
  - split; cbn; [done..|]. intros Hn. by eapply listen_arm_inv, Hl; auto.
  - destruct f as [seen|seen l|l|]; cbn in Hp.
    + destruct (listen (event i)) as [e l] eqn:Hl. injection Hp as <- <-. split; cbn; [done..|]. intros Hn.
      split; [exact (Hf Hn)|by eapply listen_registers].
    + injection Hp as <- <-. split; cbn; [done..|]. intros Hn. destruct (Hf Hn) as [-> Hr]. cbn in Hr.
      destruct (Z.eqb_spec (generation i) g0) as [He|]; cbn; [|done]. split; [done|]. intros Hk.
      exfalso. apply (bumped_differs g0 n Hg0); [|congruence]. split; [by apply Hs; left|done].
    + injection Hp as <- <-. split; cbn; [done..|]. intros Hn. specialize (Hf Hn). by destruct (notified (event i) l).
    + injection Hp as <- <-. by split.
Qed.

Lemma armed_now_inv i before : 0 <= generation i < 2 ^ 32 -> sys_inv (generation i) (armed_now i before).
Proof.
  intros Hg. split; cbn; [done|by rewrite Z.add_0_r, Z.mod_small| |done].
  intros [?|Hin]; [done|]. by apply elem_of_replicate in Hin as [].
Qed.

(** C28: no wakeup is lost.  A future is armed while any number of wakes are between
    their two steps; bumps, notifications, registrations of others and the steps of
    its own poll then interleave in any order.  Once a wake that started after the
    future was armed has completed, the next poll of the future returns, provided
    fewer than 2^32 wakes fell in between, so that the 32-bit generation cannot come
    round. *)
Theorem global_wake_not_lost i before x :
  0 <= generation i < 2 ^ 32 -> rtc sys_step (armed_now i before) x ->
  sys_bumps x < 2 ^ 32 -> sys_woken x = true -> poll (sys_inner x) (sys_arm x) = Done.
Proof.
  intros Hg Hr Hn Hw. assert (sys_inv (generation i) x) as [Hb Hgen Hs Hf].
  { pose proof (armed_now_inv i before Hg) as H0. revert H0. induction Hr as [|x y z Hst _ IH]; [done|].
    intros Hi. apply IH; [done..|]. by eapply sys_step_inv. }
  specialize (Hf Hn). assert (generation (sys_inner x) <> generation i) as Hne.
  { rewrite Hgen. apply bumped_differs; [done|]. split; [by apply Hs; left|done]. }
  unfold poll, arm_inv in *. destruct (sys_arm x) as [seen|seen l|l|]; cbn in *; [| | |done].
  - subst seen. destruct (listen _) as [e l]. cbn. by rewrite (proj2 (Z.eqb_neq _ _) Hne).
  - destruct Hf as [-> _]. by rewrite (proj2 (Z.eqb_neq _ _) Hne).
  - by rewrite (proj2 Hf Hw).
Qed.

(** A future is not woken by nothing: alone after [arm] it parks. *)
Lemma armed_alone_parks i : (forall e e' l, listen e = (e', l) -> notified e' l = false) -> exists l, poll i (arm i) = Parked l.
Proof.
  intros Hnew. unfold poll, arm. cbn. destruct (listen (event i)) as [e l] eqn:Hl. cbn.
  rewrite Z.eqb_refl. cbn. rewrite (Hnew _ _ _ Hl). by exists l.
Qed.

End wake_nostd.

(** ** A concrete event

    Listeners are numbered; a notification reaches those handed out so far. *)

Definition counting_event : EventListener.
Proof.
  refine {| Event := nat * nat; Listener := nat; event_new := (0, 0)%nat;
    listen e := ((S e.1, e.2), e.1); notify e := (e.1, e.1);
    registered e l := (l < e.1)%nat; notified e l := (l <? e.2)%nat |}.
  - intros [n m] e' l [= <- <-]. cbn. lia.
  - intros [n m] e' l l' [= <- <-]. cbn. auto with lia.
  - intros [n m] l. cbn. split; [done|]. by apply Nat.ltb_lt.
Defined.

(** The wake of another task falls between the registration and the recheck. *)
Definition rung : Inner (EL := counting_event) := MkInner (EL := counting_event) 1 (1, 1)%nat.
Definition unrung : Inner (EL := counting_event) := MkInner (EL := counting_event) 1 (1, 0)%nat.
Definition listening : Arm (EL := counting_event) := Listening (EL := counting_event) 0 0%nat.

Lemma global_wake_not_lost_witness : poll rung listening = Done.
Proof.
  apply (global_wake_not_lost global_wake_new 0 (MkSys rung listening [] 1 true)); [by split| |reflexivity|reflexivity].
  eapply rtc_l; [eapply step_poll; reflexivity|].
  eapply rtc_l; [apply step_bump|].
  apply rtc_once. apply (step_notify unrung listening [] true []).
Defined.
