(* ===== verification/RawStore.v ===== *)
(** * The byte-level store contract (crates/store/src/store.rs, stream_id.rs, error.rs)

    Stream keys, the append contract every adapter validates through
    [validate_append_versions], and the interface an adapter offers to the layers
    above it: the [RawEventStore] operations with the guarantees its documentation
    promises, stated over the logical content of the store. *)

From S2P Require Import Prelude Utf8 ErrorId Version Value Wire Envelope.

(** ** Stream keys *)

Record StreamKey : Type := MkStreamKey { sk_bytes : bytes }.

#[export] Instance stream_key_eq_dec : EqDecision StreamKey.
Proof. solve_decision. Defined.
#[export] Instance stream_key_countable : Countable StreamKey :=
  inj_countable' sk_bytes MkStreamKey (fun k => match k with MkStreamKey _ => eq_refl end).

Module StreamKey.
Definition from_bytes (b : bytes) : StreamKey := MkStreamKey b.
Definition from_slice (b : bytes) : StreamKey := MkStreamKey b.
Definition as_bytes (k : StreamKey) : bytes := sk_bytes k.
Definition into_bytes (k : StreamKey) : bytes := sk_bytes k.

(** A lowercase hex digit. *)
Definition hex_digit (n : Z) : byte := byte.of_Z (if n <? 10 then 48 + n else 87 + n).
(** [write!(f, "{byte:02x}")]. *)
Definition hex_byte (b : byte) : bytes :=
  [hex_digit (Z.shiftr (byte.unsigned b) 4); hex_digit (Z.land (byte.unsigned b) 15)].

(** The chunks [Display::fmt] writes. *)
Definition fmt (k : StreamKey) : list bytes :=
  match from_utf8 (sk_bytes k) with
  | Ok s => [s]
  | Err _ => [byte.of_Z 48; byte.of_Z 120] :: (hex_byte <$> sk_bytes k)
  end.
(** [to_string]. *)
Definition display (k : StreamKey) : bytes := concat (fmt k).
End StreamKey.

(** ** Errors *)

(** [ErrorId]: at most [DEFAULT_ERROR_ID_CAP] bytes of label. *)
Definition ErrorId : Type := bytes.

Inductive AppendError (E : Type) : Type :=
| AppendConflict (stream_id : ErrorId) (expected actual : option Version)
| AppendStore (e : E).
Arguments AppendConflict {E} _ _ _.
Arguments AppendStore {E} _.

Inductive AppendValidationError : Type :=
| ValidationConflict (stream_id : ErrorId) (expected actual : option Version)
| ValidationVersionOverflow.

Section validate.
Context {AS : ArrayString}.

Definition error_id (id : StreamKey) : ErrorId := from_display DEFAULT_ERROR_ID_CAP (StreamKey.fmt id).

(** The strict-sequentiality loop. *)
Fixpoint validate_sequence (id : StreamKey) (next : Z) (envelopes : list PendingEnvelope)
  : result () AppendValidationError :=
  match envelopes with
  | [] => Ok ()
  | env :: envelopes =>
      let? next := ok_or (checked_add u64_max next 1) ValidationVersionOverflow in
      if negb (as_u64 (pe_version env) =? next)
      then Err (ValidationConflict (error_id id) (new next) (Some (pe_version env)))
      else validate_sequence id next envelopes
  end.

Definition validate_append_versions (current : Z) (expected : option Version)
  (envelopes : PendingBatch.t) (id : StreamKey) : result () AppendValidationError :=
  let actual := if current =? 0 then None else new current in
  if negb (bool_decide (expected = actual))
  then Err (ValidationConflict (error_id id) expected actual)
  else validate_sequence id current (PendingBatch.iter envelopes).

(** ** The append contract *)

(** The head version of a stream of [n] events: [None] when it is fresh. *)
Definition head_version (n : Z) : option Version := if n =? 0 then None else new n.

Definition versions (envs : list PendingEnvelope) : list Version := pe_version <$> envs.

Lemma head_version_raw e n : 0 <= n <= u64_max -> from_option as_u64 0 e = n <-> e = head_version n.
Proof.
  intros Hn. unfold head_version. destruct (Z.eqb_spec n 0) as [->|Hne].
  - destruct e as [v|]; simpl; [pose proof (version_range v)|]; naive_solver lia.
  - destruct e as [v|]; simpl.
    + destruct (new n) as [w|] eqn:E; [|apply new_None in E; lia]. apply new_Some in E as ->.
      split; [intros ?%as_u64_inj; congruence|congruence].
    + destruct (new n) eqn:E; [|apply new_None in E; lia]. split; [lia|done].
Qed.

Lemma head_version_inj m n :
  0 <= m <= u64_max -> 0 <= n <= u64_max -> head_version m = head_version n -> m = n.
Proof.
  intros Hm Hn Heq. pose proof (proj2 (head_version_raw (head_version n) n Hn) eq_refl) as H1.
  pose proof (proj2 (head_version_raw (head_version m) m Hm) eq_refl) as H2. rewrite Heq in H2. lia.
Qed.

Lemma validate_sequence_Ok id next envs :
  is_ok (validate_sequence id next envs) = true <-> consecutive (next + 1) (versions envs).
Proof.
  revert next. induction envs as [|env envs IH]; intros next; simpl; [done|].
  pose proof (version_range (pe_version env)).
  destruct (checked_add u64_max next 1) as [m|] eqn:E; simpl.
  - apply checked_add_Some in E as [-> ?]. destruct (Z.eqb_spec (as_u64 (pe_version env)) (next + 1)) as [->|Hne]; simpl.
    + rewrite IH. naive_solver.
    + naive_solver.
  - apply checked_add_None in E. split; [done|]. lia.
Qed.

(** An append is accepted exactly when [expected] names the current
    head (none for a fresh stream) and the batch continues it without gap, repeat
    or overflow; a stale [expected] is always reported as a conflict with the
    actual head, and running past [u64::MAX] never is. *)
Theorem validate_append_exact current expected batch id :
  0 <= current <= u64_max ->
  (validate_append_versions current expected batch id = Ok () <->
     expected = head_version current /\ consecutive (current + 1) (versions (PendingBatch.iter batch))) /\
  (expected <> head_version current ->
     validate_append_versions current expected batch id =
       Err (ValidationConflict (error_id id) expected (head_version current))) /\
  (current = u64_max -> expected = head_version current ->
     validate_append_versions current expected batch id = Err ValidationVersionOverflow).
Proof.
  intros Hc. unfold validate_append_versions. fold (head_version current). split_and!.
  - case_bool_decide as He; cbn [negb]; [|naive_solver].
    rewrite <- (validate_sequence_Ok id).
    destruct (validate_sequence _ _ _) as [[]|]; cbn [is_ok]; (split; [done|]); by intros [_ ?].
  - intros Hne. by rewrite bool_decide_false.
  - intros -> ->. by rewrite bool_decide_true.
Qed.

End validate.

(** ** The interface of an adapter

    [append], [read_stream] and the polls of the stream it returns, as functions
    of the store state they see.  A store's logical content is the list of pending
    envelopes each stream holds, in version order. *)

Class RawEventStore (S : Type) := {
  SError : Type;
  AllPos : Type;
  Cursor : Type;
  append : S -> StreamKey -> option Version -> PendingBatch.t ->
    S * panicking (result AllPos (AppendError SError));
  read_stream : S -> StreamKey -> Version -> result Cursor SError;
  (** One [next()] on an open stream, against the store as it is then. *)
  stream_next : S -> Cursor -> panicking (option (result PersistedEnvelope SError) * Cursor);
}.
Arguments SError S {_}.
Arguments AllPos S {_}.
Arguments Cursor S {_}.

Definition batch_ok (b : PendingBatch.t) : Prop := Forall pending_ok (PendingBatch.iter b).

(** The content of one stream: valid envelopes, versions [1, 2, 3, ...]. *)
Definition stream_ok (envs : list PendingEnvelope) : Prop :=
  Forall pending_ok envs /\ consecutive 1 (versions envs) /\ len envs <= u64_max.

(** What an append that returned an error has left of its stream.  A conflict changes
    nothing.  After an error of the store's own the batch may have been committed all
    the same (the acknowledgement was lost), whole and at its expected version. *)
Definition left_by {E} (e : AppendError E) (expected : option Version) (b : PendingBatch.t)
  (envs envs' : list PendingEnvelope) : Prop :=
  envs' = envs \/
  (exists x, e = AppendStore x) /\ expected = head_version (len envs) /\ envs' = envs ++ PendingBatch.iter b.

(** What an adapter promises.  [cursor_at s0 s c id v]: the cursor [c], opened on
    stream [id] when the store was [s0] and last polled when it was [s], delivers
    version [v] next. *)
Class RawEventStoreSpec (S : Type) {R : RawEventStore S} := {
  store_inv : S -> Prop;
  stream_of : S -> StreamKey -> list PendingEnvelope;
  cursor_at : S -> S -> Cursor S -> StreamKey -> Z -> Prop;
  (** Keys and batches of the adapter's format; it may refuse others before it looks
      at the stream. *)
  storable : StreamKey -> PendingBatch.t -> Prop;
  stream_of_ok s id : store_inv s -> stream_ok (stream_of s id);
  append_no_panic s id expected b :
    store_inv s -> batch_ok b -> (append s id expected b).2 <> Panics;
  append_committed s id expected b s' p :
    store_inv s -> batch_ok b -> append s id expected b = (s', Returns (Ok p)) ->
    store_inv s' /\ expected = head_version (len (stream_of s id)) /\
    stream_of s' id = stream_of s id ++ PendingBatch.iter b /\
    (forall id', id' <> id -> stream_of s' id' = stream_of s id');
  append_failed s id expected b s' e :
    store_inv s -> batch_ok b -> append s id expected b = (s', Returns (Err e)) ->
    store_inv s' /\ left_by e expected b (stream_of s id) (stream_of s' id) /\
    (forall id', id' <> id -> stream_of s' id' = stream_of s id');
  append_stale s id expected b :
    store_inv s -> batch_ok b -> storable id b -> expected <> head_version (len (stream_of s id)) ->
    exists l, (append s id expected b).2 =
      Returns (Err (AppendConflict l expected (head_version (len (stream_of s id)))));
  (** A conflict is reported for a well-numbered batch only when it is one. *)
  append_conflict s id expected b s' l wanted actual :
    store_inv s -> batch_ok b ->
    consecutive (from_option as_u64 0 expected + 1) (versions (PendingBatch.iter b)) ->
    append s id expected b = (s', Returns (Err (AppendConflict l wanted actual))) ->
    expected <> head_version (len (stream_of s id));
  read_stream_opens s id from c :
    store_inv s -> read_stream s id from = Ok c -> cursor_at s s c id (as_u64 from);
  (** A poll delivers the next version of the stream as it is now; the stream ends
      only once everything it held when it was opened has been delivered. *)
  stream_next_spec s0 s s' c id v :
    store_inv s' -> (forall k, stream_of s k `prefix_of` stream_of s' k) ->
    cursor_at s0 s c id v ->
    (exists env c', stream_next s' c = Returns (Some (Ok env), c') /\
       stream_of s' id !! Z.to_nat (v - 1) = Some (from_persisted env) /\
       persisted_ok env /\ cursor_at s0 s' c' id (v + 1)) \/
    (exists c', stream_next s' c = Returns (None, c') /\ len (stream_of s0 id) < v);
}.

Section append_facts.
Context {S : Type} {R : RawEventStore S} {RS : RawEventStoreSpec S}.

(** An append that does not expect the head of its stream changes nothing. *)
Lemma append_stale_same s id expected b s' e :
  store_inv s -> batch_ok b -> append s id expected b = (s', Returns (Err e)) ->
  expected <> head_version (len (stream_of s id)) -> store_inv s' /\ forall id', stream_of s' id' = stream_of s id'.
Proof.
  intros Hi Hb E Hne. destruct (append_failed _ _ _ _ _ _ Hi Hb E) as (Hi' & Hl & Ho). split; [done|]. intros id'.
  destruct (decide (id' = id)) as [->|]; [|by apply Ho]. by destruct Hl as [?|(_ & ? & _)].
Qed.

(** A conflict changes nothing. *)
Lemma append_conflict_same s id expected b s' l wanted actual :
  store_inv s -> batch_ok b -> append s id expected b = (s', Returns (Err (AppendConflict l wanted actual))) ->
  store_inv s' /\ forall id', stream_of s' id' = stream_of s id'.
Proof.
  intros Hi Hb E. destruct (append_failed _ _ _ _ _ _ Hi Hb E) as (Hi' & Hl & Ho). split; [done|]. intros id'.
  destruct (decide (id' = id)) as [->|]; [|by apply Ho]. by destruct Hl as [?|([x [=]] & _)].
Qed.

(** Whatever an append answers, streams only grow. *)
Lemma append_grows s id expected b s' o :
  store_inv s -> batch_ok b -> append s id expected b = (s', o) ->
  store_inv s' /\ forall id', stream_of s id' `prefix_of` stream_of s' id'.
Proof.
  intros Hi Hb E. assert (exists envs, store_inv s' /\ stream_of s' id = stream_of s id ++ envs /\
    forall id', id' <> id -> stream_of s' id' = stream_of s id') as (envs & Hi' & Hs & Ho).
  { destruct o as [[p|e]|].
    - destruct (append_committed _ _ _ _ _ _ Hi Hb E) as (? & _ & ? & ?). by eexists.
    - destruct (append_failed _ _ _ _ _ _ Hi Hb E) as (? & [?|(_ & _ & ?)] & ?); [exists []; by rewrite app_nil_r|by eexists].
    - pose proof (append_no_panic s id expected b Hi Hb) as Hn. by rewrite E in Hn. }
  split; [done|]. intros id'. destruct (decide (id' = id)) as [->|Hne]; [rewrite Hs; by eexists|by rewrite Ho].
Qed.

End append_facts.

(** The label of a stream key does not determine the key: the binary
    key [ff] and the text key ["0xff"] print alike, so only the bytes may identify
    a stream.  The bytes [de ad] are themselves well-formed UTF-8 and do not print
    like the text ["0xdead"]. *)
Theorem display_not_injective :
  (exists k1 k2, k1 <> k2 /\ StreamKey.display k1 = StreamKey.display k2) /\
  StreamKey.display (MkStreamKey [byte.of_Z 222; byte.of_Z 173]) <>
    StreamKey.display (MkStreamKey (byte.of_Z <$> [48; 120; 100; 101; 97; 100])).
Proof.
  split; [|vm_compute; discriminate].
  exists (MkStreamKey [byte.of_Z 255]), (MkStreamKey (byte.of_Z <$> [48; 120; 102; 102])).
  split; [done|reflexivity].
Qed.

(** ** Witness *)

Lemma validate_append_exact_witness :
  validate_append_versions (AS := list_array_string) 0 None (PendingBatch.of_one (sample_envelope INITIAL))
    (MkStreamKey []) = Ok () <->
  None = head_version 0 /\ consecutive 1 (versions [sample_envelope INITIAL]).
Proof.
  apply (validate_append_exact (AS := list_array_string) 0 None
    (PendingBatch.of_one (sample_envelope INITIAL)) (MkStreamKey [])).
  split; vm_compute; discriminate.
Defined.
