(* ===== verification/Import.v ===== *)
(** * Importing a backup (crates/store/src/import.rs)

    [plan_section] turns the blocks of one stream into the longest appendable run;
    [import_per_stream] appends each run on its own, [import_whole_chunk] commits
    all of them or none.  Both are generic in the store: they are verified against
    the [RawEventStore] interface and the [AtomicAppend] interface below. *)

From S2P Require Import Prelude ErrorId Version Value Wire Envelope RawStore.

Inductive Atomicity : Type := WholeChunk | PerStream.

Inductive StreamOutcome : Type :=
| Complete (version : Version)
| Corrupt (reached : option Version)
| Mismatch (reached : option Version) (got : Version).

Definition is_complete (o : StreamOutcome) : bool :=
  match o with Complete _ => true | _ => false end.

Definition reached (o : StreamOutcome) : option Version :=
  match o with
  | Complete v => Some v
  | Corrupt r | Mismatch r _ => r
  end.

Record StreamReport : Type := MkStreamReport { report_stream : StreamKey; report_outcome : StreamOutcome }.

Record ImportReport : Type := MkImportReport { report_streams : list StreamReport }.

Definition unfinished (r : ImportReport) : list StreamReport :=
  filter (fun s => is_complete (report_outcome s) = false) (report_streams r).
Definition all_complete (r : ImportReport) : bool :=
  forallb (fun s => is_complete (report_outcome s)) (report_streams r).

Inductive AbortReason : Type :=
| AbortCorrupt
| AbortMismatch (expected got : Version).

Inductive InvalidRun : Type :=
| NonSequential (index : Z) (expected actual : Version)
| RunVersionOverflow (index : Z).

Record InvalidRoute : Type := MkInvalidRoute { route_target : StreamKey; first_index : Z; route_index : Z }.

Inductive ImportError (E : Type) : Type :=
| ImportInvalidRun (e : InvalidRun)
| ImportInvalidRoute (e : InvalidRoute)
| Aborted (stream : StreamKey) (reason : AbortReason)
| ImportStore (e : E)
| ImportVersionOverflow.
Arguments ImportInvalidRun {E} _.
Arguments ImportInvalidRoute {E} _.
Arguments Aborted {E} _ _.
Arguments ImportStore {E} _.
Arguments ImportVersionOverflow {E}.

Inductive AtomicAppendError (E : Type) : Type :=
| AtomicInvalidRun (e : InvalidRun)
| AtomicInvalidRoute (e : InvalidRoute)
| AtomicConflict (index : Z) (actual : option Version)
| AtomicStore (e : E).
Arguments AtomicInvalidRun {E} _.
Arguments AtomicInvalidRoute {E} _.
Arguments AtomicConflict {E} _ _.
Arguments AtomicStore {E} _.

Inductive ImportBlock : Type :=
| BlockEvent (e : PersistedEnvelope)
| BlockCorrupt.

Record StreamSection : Type := MkSection { origin : bytes; blocks : list ImportBlock }.

Record PlannedAppend : Type := MkPlanned {
  target : StreamKey;
  planned_expected : option Version;
  planned_head : PendingEnvelope;
  planned_tail : list PendingEnvelope;
}.

(** [PlannedAppend::batch]. *)
Definition batch (w : PlannedAppend) : PendingBatch.t :=
  PendingBatch.from_parts (planned_head w) (planned_tail w).

(** ** Validation of a set of writes *)

Fixpoint validate_run (index : Z) (nxt : option Version) (envs : list PendingEnvelope)
  : result () InvalidRun :=
  match envs with
  | [] => Ok ()
  | env :: envs =>
      let? expected := ok_or nxt (RunVersionOverflow index) in
      let actual := pe_version env in
      if negb (bool_decide (actual = expected)) then Err (NonSequential index expected actual)
      else validate_run index (next expected) envs
  end.

(** [expected_version.map_or(Some(Version::INITIAL), Version::next)]. *)
Definition first_of_run (expected : option Version) : option Version :=
  match expected with None => Some INITIAL | Some v => next v end.

Fixpoint validate_atomic_runs_from (index : Z) (writes : list PlannedAppend) : result () InvalidRun :=
  match writes with
  | [] => Ok ()
  | w :: writes =>
      let? _ := validate_run index (first_of_run (planned_expected w)) (PendingBatch.iter (batch w)) in
      validate_atomic_runs_from (index + 1) writes
  end.
Definition validate_atomic_runs (writes : list PlannedAppend) : result () InvalidRun :=
  validate_atomic_runs_from 0 writes.

Fixpoint validate_distinct_from (seen : gmap bytes Z) (index : Z) (targets : list StreamKey)
  : result () InvalidRoute :=
  match targets with
  | [] => Ok ()
  | t :: targets =>
      match seen !! sk_bytes t with
      | Some first => Err (MkInvalidRoute t first index)
      | None => validate_distinct_from (<[sk_bytes t := index]> seen) (index + 1) targets
      end
  end.
Definition validate_distinct_targets (targets : list StreamKey) : result () InvalidRoute :=
  validate_distinct_from ∅ 0 targets.

Definition route_sections (sections : list StreamSection) (route : bytes -> StreamKey)
  : result (list StreamKey) InvalidRoute :=
  let targets := (fun s => route (origin s)) <$> sections in
  let? _ := validate_distinct_targets targets in
  Ok targets.

(** ** The planner *)

Inductive Halt : Type :=
| HaltComplete
| HaltCorrupt
| HaltGap (got : Version).

Inductive SectionPlan : Type :=
| PlanEmpty
| PlanFirstCorrupt
| PlanRun (first : Version) (expected_version : option Version) (head : PendingEnvelope)
    (tail : list PendingEnvelope) (last : Version) (halt : Halt).

Inductive PlanError : Type := PlanVersionOverflow.

(** The [loop] that extends the run: the tail, its last version and the halt. *)
Fixpoint plan_loop (last : Version) (bs : list ImportBlock)
  : result (list PendingEnvelope * Version * Halt) PlanError :=
  match bs with
  | [] => Ok ([], last, HaltComplete)
  | BlockCorrupt :: _ => Ok ([], last, HaltCorrupt)
  | BlockEvent event :: bs =>
      let? expected_next := ok_or (next last) PlanVersionOverflow in
      if negb (bool_decide (ps_version event = expected_next))
      then Ok ([], last, HaltGap (ps_version event))
      else
        let? (tail, last', halt) := plan_loop (ps_version event) bs in
        Ok (from_persisted event :: tail, last', halt)
  end.

Definition plan_section (section : StreamSection) : result SectionPlan PlanError :=
  match blocks section with
  | [] => Ok PlanEmpty
  | BlockCorrupt :: _ => Ok PlanFirstCorrupt
  | BlockEvent first_event :: bs =>
      let first := ps_version first_event in
      let expected_version := checked_sub (as_u64 first) 1 ≫= new in
      let head := from_persisted first_event in
      let? (tail, last, halt) := plan_loop first bs in
      Ok (PlanRun first expected_version head tail last halt)
  end.

(** ** The importer *)

Class AtomicAppend (S : Type) {R : RawEventStore S} := {
  atomic_append_many : S -> list PlannedAppend ->
    S * panicking (result (option (AllPos S)) (AtomicAppendError (SError S)));
}.

(** The content of the streams after the writes [ws]. *)
Definition writes_to (ws : list PlannedAppend) (id : StreamKey) : list PendingEnvelope :=
  ws ≫= (fun w => if decide (target w = id) then PendingBatch.iter (batch w) else []).

Definition write_ok (w : PlannedAppend) : Prop := batch_ok (batch w).

(** What an adapter promises about [atomic_append_many]: every write or none, and after
    a conflict none; after an error of the store's own all of them may have been
    committed. *)
Class AtomicAppendSpec (S : Type) {R : RawEventStore S} {RS : RawEventStoreSpec S} {AA : AtomicAppend S} := {
  atomic_no_panic s ws :
    store_inv s -> Forall write_ok ws -> (atomic_append_many s ws).2 <> Panics;
  atomic_committed s ws s' p :
    store_inv s -> Forall write_ok ws -> atomic_append_many s ws = (s', Returns (Ok p)) ->
    store_inv s' /\ NoDup (target <$> ws) /\
    Forall (fun w => planned_expected w = head_version (len (stream_of s (target w)))) ws /\
    forall id, stream_of s' id = stream_of s id ++ writes_to ws id;
  atomic_failed s ws s' e :
    store_inv s -> Forall write_ok ws -> atomic_append_many s ws = (s', Returns (Err e)) ->
    store_inv s' /\
    ((forall id, stream_of s' id = stream_of s id) \/
     (exists x, e = AtomicStore x) /\ NoDup (target <$> ws) /\
     Forall (fun w => planned_expected w = head_version (len (stream_of s (target w)))) ws /\
     forall id, stream_of s' id = stream_of s id ++ writes_to ws id);
}.

(** ** Validation lemmas *)

Lemma validate_run_Ok index v envs :
  is_ok (validate_run index (new v) envs) = true -> consecutive v (versions envs).
Proof.
  revert v. induction envs as [|env envs IH]; intros v; simpl; [done|].
  destruct (new v) as [w|] eqn:E; simpl; [|done]. apply new_Some in E as ->.
  case_bool_decide as Hv; simpl; [|done]. rewrite Hv, next_new. naive_solver.
Qed.

Lemma first_of_run_new e : first_of_run e = new (from_option as_u64 0 e + 1).
Proof. destruct e as [v|]; simpl; [apply next_new|]. symmetry. by apply new_Some. Qed.

Lemma validate_atomic_runs_Ok index ws :
  is_ok (validate_atomic_runs_from index ws) = true ->
  Forall (fun w => consecutive (from_option as_u64 0 (planned_expected w) + 1)
                     (versions (PendingBatch.iter (batch w)))) ws.
Proof.
  revert index. induction ws as [|w ws IH]; intros index; cbn [validate_atomic_runs_from]; [done|].
  destruct (validate_run _ _ _) eqn:E; cbn [result_bind]; [|done]. intros Hws. constructor; [|by eapply IH].
  apply (validate_run_Ok index). by rewrite <- first_of_run_new, E.
Qed.

Lemma validate_distinct_Ok seen index ts :
  is_ok (validate_distinct_from seen index ts) = true <->
  NoDup ts /\ Forall (fun t => seen !! sk_bytes t = None) ts.
Proof.
  revert seen index. induction ts as [|t ts IH]; intros seen index; simpl.
  { split; [split; constructor|done]. }
  rewrite NoDup_cons, Forall_cons. destruct (seen !! sk_bytes t) eqn:E; simpl; [naive_solver|].
  rewrite IH. rewrite !Forall_forall. split.
  - intros [Hd Hs]. split_and!; try done.
    + intros Hin. specialize (Hs _ Hin). by rewrite lookup_insert_eq in Hs.
    + intros u Hu. specialize (Hs _ Hu). by apply lookup_insert_None in Hs as [? _].
  - intros ([Hni Hd] & _ & Hs). split; [done|]. intros u Hu. apply lookup_insert_None.
    split; [by apply Hs|]. intros Heq. apply Hni. by destruct t, u; simpl in *; subst.
Qed.

Definition map_atomic_conflict {E} (firsts : list Version) (writes : list PlannedAppend)
  (index : Z) (actual : option Version) : ImportError E :=
  let get {A} (l : list A) := match l !! Z.to_nat index with Some x => Some x | None => head l end in
  match get firsts, get writes with
  | Some got, Some write =>
      match actual with
      | Some h =>
          match next h with
          | Some expected => Aborted (target write) (AbortMismatch expected got)
          | None => ImportVersionOverflow
          end
      | None => Aborted (target write) (AbortMismatch INITIAL got)
      end
  | _, _ => ImportVersionOverflow
  end.

Section importer.
Context {S : Type} {R : RawEventStore S} {AA : AtomicAppend S}.

(** What [append] did to one planned run, as the section's outcome. *)
Definition run_outcome (first last : Version) (halt : Halt)
  (r : result (AllPos S) (AppendError (SError S))) : result StreamOutcome (ImportError (SError S)) :=
  match r with
  | Ok _ => Ok match halt with
               | HaltComplete => Complete last
               | HaltCorrupt => Corrupt (Some last)
               | HaltGap got => Mismatch (Some last) got
               end
  | Err (AppendConflict _ _ _) => Ok (Mismatch None first)
  | Err (AppendStore e) => Err (ImportStore e)
  end.

Fixpoint per_stream_loop (s : S) (pairs : list (StreamSection * StreamKey)) (reports : list StreamReport)
  : S * panicking (result ImportReport (ImportError (SError S))) :=
  match pairs with
  | [] => (s, Returns (Ok (MkImportReport reports)))
  | (section, t) :: pairs =>
      match plan_section section with
      | Err PlanVersionOverflow => (s, Returns (Err ImportVersionOverflow))
      | Ok PlanEmpty => per_stream_loop s pairs reports
      | Ok PlanFirstCorrupt => per_stream_loop s pairs (reports ++ [MkStreamReport t (Corrupt None)])
      | Ok (PlanRun first expected hd tl last halt) =>
          match append s t expected (PendingBatch.from_parts hd tl) with
          | (s', Panics) => (s', Panics)
          | (s', Returns r) =>
              match run_outcome first last halt r with
              | Err e => (s', Returns (Err e))
              | Ok outcome => per_stream_loop s' pairs (reports ++ [MkStreamReport t outcome])
              end
          end
      end
  end.

Definition import_per_stream (s : S) (sections : list StreamSection) (route : bytes -> StreamKey)
  : S * panicking (result ImportReport (ImportError (SError S))) :=
  match route_sections sections route with
  | Err e => (s, Returns (Err (ImportInvalidRoute e)))
  | Ok targets => per_stream_loop s (zip sections targets) []
  end.

(** Phase 1 of the whole-chunk import: [writes], [firsts] and [lasts]. *)
Fixpoint plan_writes (pairs : list (StreamSection * StreamKey))
  : result (list PlannedAppend * list Version * list Version) (ImportError (SError S)) :=
  match pairs with
  | [] => Ok ([], [], [])
  | (section, t) :: pairs =>
      match plan_section section with
      | Err PlanVersionOverflow => Err ImportVersionOverflow
      | Ok PlanEmpty => plan_writes pairs
      | Ok PlanFirstCorrupt => Err (Aborted t AbortCorrupt)
      | Ok (PlanRun first expected hd tl last halt) =>
          match halt with
          | HaltCorrupt => Err (Aborted t AbortCorrupt)
          | HaltGap got =>
              match next last with
              | None => Err ImportVersionOverflow
              | Some expected => Err (Aborted t (AbortMismatch expected got))
              end
          | HaltComplete =>
              let? (writes, firsts, lasts) := plan_writes pairs in
              Ok (MkPlanned t expected hd tl :: writes, first :: firsts, last :: lasts)
          end
      end
  end.

Definition import_whole_chunk (s : S) (sections : list StreamSection) (route : bytes -> StreamKey)
  : S * panicking (result ImportReport (ImportError (SError S))) :=
  match route_sections sections route with
  | Err e => (s, Returns (Err (ImportInvalidRoute e)))
  | Ok targets =>
      match plan_writes (zip sections targets) with
      | Err e => (s, Returns (Err e))
      | Ok (writes, firsts, lasts) =>
          match atomic_append_many s writes with
          | (s', Panics) => (s', Panics)
          | (s', Returns (Ok _)) =>
              (s', Returns (Ok (MkImportReport
                 (zip_with (fun w last => MkStreamReport (target w) (Complete last)) writes lasts))))
          | (s', Returns (Err e)) =>
              (s', Returns (Err match e with
                 | AtomicConflict index actual => map_atomic_conflict firsts writes index actual
                 | AtomicStore e => ImportStore e
                 | AtomicInvalidRoute e => ImportInvalidRoute e
                 | AtomicInvalidRun e => ImportInvalidRun e
                 end))
          end
      end
  end.

Definition import (s : S) (sections : list StreamSection) (route : bytes -> StreamKey) (a : Atomicity)
  : S * panicking (result ImportReport (ImportError (SError S))) :=
  match a with
  | PerStream => import_per_stream s sections route
  | WholeChunk => import_whole_chunk s sections route
  end.

End importer.

(** ** What the planner plans *)

(** The blocks left after the run, as the halt describes them. *)
Definition halt_describes (last : Version) (halt : Halt) (rest : list ImportBlock) : Prop :=
  match halt with
  | HaltComplete => rest = []
  | HaltCorrupt => exists tl, rest = BlockCorrupt :: tl
  | HaltGap got => exists e tl, rest = BlockEvent e :: tl /\ got = ps_version e /\ as_u64 got <> as_u64 last + 1
  end.

Lemma plan_loop_spec last bs :
  match plan_loop last bs with
  | Err PlanVersionOverflow => exists evs e tl, bs = (BlockEvent <$> evs) ++ BlockEvent e :: tl /\
      consecutive (as_u64 last + 1) (ps_version <$> evs) /\ as_u64 last + len evs = u64_max
  | Ok (tail, last', halt) => exists evs rest, bs = (BlockEvent <$> evs) ++ rest /\
      tail = from_persisted <$> evs /\ consecutive (as_u64 last + 1) (ps_version <$> evs) /\
      as_u64 last' = as_u64 last + len evs /\ halt_describes last' halt rest
  end.
Proof.
  revert last. induction bs as [|[e|] bs IH]; intros last; simpl.
  - exists [], []. rewrite len_nil. split_and!; done || lia.
  - destruct (next last) as [w|] eqn:Hn; simpl.
    + apply next_Some in Hn. case_bool_decide as Hv; simpl.
      * specialize (IH (ps_version e)). assert (as_u64 (ps_version e) = as_u64 last + 1) as Hle by (rewrite Hv; done).
        destruct (plan_loop (ps_version e) bs) as [[[tail last'] halt]|[]]; simpl.
        -- destruct IH as (evs & rest & -> & -> & Hc & Hl & Hh). exists (e :: evs), rest.
           rewrite len_cons. rewrite Hle in Hc. split_and!; try done. lia.
        -- destruct IH as (evs & e' & tl & -> & Hc & Hl). exists (e :: evs), e', tl. rewrite len_cons.
           rewrite Hle in Hc. split_and!; try done. lia.
      * exists [], (BlockEvent e :: bs). rewrite len_nil. split_and!; try done; [lia|].
        exists e, bs. split_and!; try done. intros Heq. apply Hv, as_u64_inj. lia.
    + apply next_None in Hn. exists [], e, bs. rewrite len_nil. split_and!; done || lia.
  - exists [], (BlockCorrupt :: bs). rewrite len_nil. split_and!; try done; [lia|]. by eexists.
Qed.

(** The run a section contributes. *)
Definition run_of (sec : StreamSection) : list PendingEnvelope :=
  match plan_section sec with
  | Ok (PlanRun _ _ hd tl _ _) => hd :: tl
  | _ => []
  end.

Definition section_ok (sec : StreamSection) : Prop :=
  Forall (fun b => match b with BlockEvent e => persisted_ok e | BlockCorrupt => True end) (blocks sec).

(** A planned run is the longest gapless run of intact events the section starts
    with, it expects the version before its first, and the halt says why it ends. *)
Lemma plan_section_run sec first expected hd tl last halt :
  plan_section sec = Ok (PlanRun first expected hd tl last halt) ->
  exists evs rest, blocks sec = (BlockEvent <$> evs) ++ rest /\ hd :: tl = from_persisted <$> evs /\
    consecutive (as_u64 first) (versions (hd :: tl)) /\ expected = head_version (as_u64 first - 1) /\
    as_u64 last = as_u64 first + len (hd :: tl) - 1 /\ halt_describes last halt rest.
Proof.
  unfold plan_section. destruct (blocks sec) as [|[e|] bs]; [done| |done].
  pose proof (plan_loop_spec (ps_version e) bs) as Hloop.
  destruct (plan_loop (ps_version e) bs) as [[[tail last'] halt']|[]]; simpl; [|done]. intros [= <- <- <- <- <- <-].
  destruct Hloop as (evs & rest & -> & -> & Hc & Hl & Hh). exists (e :: evs), rest.
  assert (versions (from_persisted <$> evs) = ps_version <$> evs) as Hv
    by (unfold versions; rewrite <- list_fmap_compose; by apply list_fmap_ext).
  split_and!; try done.
  - by rewrite Hv.
  - pose proof (version_range (ps_version e)). unfold checked_sub, head_version.
    rewrite (proj2 (Z.leb_le _ _)) by lia. simpl. destruct (Z.eqb_spec (as_u64 (ps_version e) - 1) 0) as [->|]; done.
  - rewrite len_cons. unfold len in *. rewrite length_fmap. lia.
Qed.

Lemma run_of_ok sec : section_ok sec -> Forall pending_ok (run_of sec).
Proof.
  unfold run_of, section_ok. intros Hok. destruct (plan_section sec) as [[| |first ex hd tl last halt]|] eqn:E; try done.
  apply plan_section_run in E as (evs & rest & Hb & -> & _). rewrite Hb in Hok.
  apply Forall_app in Hok as [Hok _]. rewrite Forall_fmap in Hok. rewrite Forall_fmap.
  eapply Forall_impl; [exact Hok|]. simpl. by intros e (_ & _ & _ & ?).
Qed.

(** ** Imports against the interface *)

Definition nonempty_section (p : StreamSection * StreamKey) : Prop := blocks p.1 <> [].
#[local] Instance nonempty_section_dec p : Decision (nonempty_section p).
Proof.
  unfold nonempty_section. destruct (blocks p.1); [right|left]; naive_solver.
Defined.

(** The routed sections that carry blocks: the ones a report mentions. *)
Definition routed (pairs : list (StreamSection * StreamKey)) : list (StreamSection * StreamKey) :=
  filter nonempty_section pairs.

Definition imported (sec : StreamSection) (o : StreamOutcome) : list PendingEnvelope :=
  match reached o with Some _ => run_of sec | None => [] end.

(** A reported section: [Complete] means every block of it, intact and gapless. *)
Definition outcome_describes (sec : StreamSection) (o : StreamOutcome) : Prop :=
  match o with
  | Complete v => exists evs, blocks sec = BlockEvent <$> evs /\ run_of sec = from_persisted <$> evs
  | _ => True
  end.

Section correctness.
Context {S : Type} {R : RawEventStore S} {RS : RawEventStoreSpec S}.

Definition section_imported (s s' : S) (p : StreamSection * StreamKey) (r : StreamReport) : Prop :=
  report_stream r = p.2 /\ outcome_describes p.1 (report_outcome r) /\
  stream_of s' p.2 = stream_of s p.2 ++ imported p.1 (report_outcome r).

Lemma routed_cons_empty sec t pairs : blocks sec = [] -> routed ((sec, t) :: pairs) = routed pairs.
Proof. intros E. unfold routed. rewrite filter_cons, decide_False; [done|]. unfold nonempty_section. simpl. naive_solver. Qed.

Lemma routed_cons sec t pairs : blocks sec <> [] -> routed ((sec, t) :: pairs) = (sec, t) :: routed pairs.
Proof. intros E. unfold routed. by rewrite filter_cons, decide_True. Qed.

Lemma routed_target p pairs : p ∈ routed pairs -> p.2 ∈ pairs.*2.
Proof. unfold routed. intros [_ ?]%list_elem_of_filter. by apply list_elem_of_fmap_2. Qed.

Lemma plan_empty sec : plan_section sec = Ok PlanEmpty <-> blocks sec = [].
Proof.
  unfold plan_section. destruct (blocks sec) as [|[e|] bs]; try done.
  destruct (plan_loop (ps_version e) bs) as [[[??]?]|]; simpl; naive_solver.
Qed.

(** One appended run, described by its outcome. *)
Lemma run_outcome_spec s sec t first expected hd tl last halt s' r o :
  store_inv s -> section_ok sec -> plan_section sec = Ok (PlanRun first expected hd tl last halt) ->
  append s t expected (PendingBatch.from_parts hd tl) = (s', Returns r) -> run_outcome first last halt r = Ok o ->
  store_inv s' /\ outcome_describes sec o /\ stream_of s' t = stream_of s t ++ imported sec o /\
  forall id, id <> t -> stream_of s' id = stream_of s id.
Proof.
  intros Hinv Hok Hplan E Ho.
  assert (run_of sec = hd :: tl) as Hrun by (unfold run_of; by rewrite Hplan).
  assert (batch_ok (PendingBatch.from_parts hd tl)) as Hb
    by (change (Forall pending_ok (hd :: tl)); rewrite <- Hrun; by apply run_of_ok).
  destruct r as [p|e].
  - destruct (append_committed _ _ _ _ _ _ Hinv Hb E) as (? & _ & Hst & Hother).
    simpl in Ho, Hst. assert (reached o = Some last) as Hreach by (destruct halt; simplify_eq; done).
    unfold imported. rewrite Hreach, Hrun. split_and!; try done.
    destruct halt; simplify_eq/=; try done.
    apply plan_section_run in Hplan as (evs & rest & Hbl & Hev & _ & _ & _ & Hh). simpl in Hh. subst rest.
    rewrite app_nil_r in Hbl. exists evs. by rewrite Hrun, Hev.
  - destruct e; simplify_eq/=. destruct (append_conflict_same _ _ _ _ _ _ _ _ Hinv Hb E) as [? Hsame].
    rewrite app_nil_r. split_and!; auto.
Qed.

Lemma per_stream_loop_spec s pairs acc s' rep :
  store_inv s -> Forall (fun p => section_ok p.1) pairs -> NoDup pairs.*2 ->
  per_stream_loop s pairs acc = (s', Returns (Ok rep)) ->
  store_inv s' /\ (forall id, id ∉ pairs.*2 -> stream_of s' id = stream_of s id) /\
  exists rs, report_streams rep = acc ++ rs /\ Forall2 (section_imported s s') (routed pairs) rs.
Proof.
  revert s acc. induction pairs as [|[sec t] pairs IH]; intros s acc Hinv Hok Hnd; cbn [per_stream_loop].
  { intros [= <- <-]. split_and!; [done|done|]. exists []. rewrite app_nil_r. split; [done|constructor]. }
  apply Forall_cons in Hok as [Hsec Hok]. rewrite fmap_cons in *. apply NoDup_cons in Hnd as [Hni Hnd]. simpl in *.
  destruct (plan_section sec) as [[| |first ex hd tl last halt]|[]] eqn:Hplan; [| | |done].
  - apply plan_empty in Hplan. rewrite routed_cons_empty by done. intros E.
    destruct (IH s acc Hinv Hok Hnd E) as (? & Hfr & ?). split_and!; try done.
    intros id Hid. apply Hfr. set_solver.
  - intros E. destruct (IH s _ Hinv Hok Hnd E) as (? & Hfr & rs & Hrep & Hall). rewrite <- app_assoc in Hrep.
    rewrite routed_cons by (intros Hx; apply plan_empty in Hx; congruence). split_and!; [done| |].
    + intros id Hid. apply Hfr. set_solver.
    + eexists. split; [exact Hrep|]. constructor; [|done]. split_and!; [done|done|].
      simpl. by rewrite app_nil_r, Hfr.
  - destruct (append s t ex (PendingBatch.from_parts hd tl)) as [s1 [r|]] eqn:Ea; [|done].
    destruct (run_outcome first last halt r) as [o|] eqn:Ho; [|done]. intros E.
    destruct (run_outcome_spec _ _ _ _ _ _ _ _ _ _ _ _ Hinv Hsec Hplan Ea Ho) as (Hinv1 & Hd & Hst & Hother).
    destruct (IH s1 _ Hinv1 Hok Hnd E) as (? & Hfr & rs & Hrep & Hall). rewrite <- app_assoc in Hrep.
    rewrite routed_cons by (intros Hx; apply plan_empty in Hx; congruence). split_and!; [done| |].
    + intros id Hid. rewrite Hfr by set_solver. apply Hother. set_solver.
    + eexists. split; [exact Hrep|]. constructor.
      * split_and!; [done|done|]. simpl. by rewrite Hfr, Hst.
      * eapply Forall2_impl_in; [exact Hall|]. intros p r' Hp (? & ? & Hs). split_and!; try done.
        rewrite Hs, Hother; [done|]. intros <-. by apply Hni, routed_target.
Qed.

Lemma route_sections_Ok sections route ts :
  route_sections sections route = Ok ts ->
  ts = (fun s => route (origin s)) <$> sections /\ NoDup ts.
Proof.
  unfold route_sections. intros (u & Hd & [= <-])%result_bind_Ok. split; [done|].
  apply (validate_distinct_Ok ∅ 0). unfold validate_distinct_targets in Hd. by rewrite Hd.
Qed.

Definition routes (sections : list StreamSection) (route : bytes -> StreamKey) : list (StreamSection * StreamKey) :=
  (fun s => (s, route (origin s))) <$> sections.

Lemma zip_routes sections route : zip sections ((fun s => route (origin s)) <$> sections) = routes sections route.
Proof. induction sections; [done|]. simpl. by f_equal. Qed.

Lemma routes_fst (sections : list StreamSection) route (P : StreamSection -> Prop) :
  Forall P sections -> Forall (fun p => P p.1) (routes sections route).
Proof. unfold routes. intros. by apply Forall_fmap. Qed.

Lemma routes_snd sections route : (routes sections route).*2 = (fun s => route (origin s)) <$> sections.
Proof. unfold routes. by rewrite <- list_fmap_compose. Qed.

(** A per-stream import that reports has one report per
    section with blocks, in order, and the report is the truth about the store:
    each target stream grew by exactly the run its outcome claims ([Complete]: all
    of the section's events; a corrupt block or gap: the intact run before it; a
    version conflict or a corrupt first block: nothing), and no other stream
    changed. *)
Theorem import_per_stream_reports_truth s sections route s' rep :
  store_inv s -> Forall section_ok sections ->
  import_per_stream s sections route = (s', Returns (Ok rep)) ->
  store_inv s' /\
  Forall2 (section_imported s s') (routed (routes sections route)) (report_streams rep) /\
  forall id, id ∉ (fun sec => route (origin sec)) <$> sections -> stream_of s' id = stream_of s id.
Proof.
  intros Hinv Hok. unfold import_per_stream.
  destruct (route_sections sections route) as [ts|] eqn:Hr; [|done].
  apply route_sections_Ok in Hr as [-> Hnd]. rewrite zip_routes. intros E.
  apply per_stream_loop_spec in E as (? & Hfr & rs & -> & Hall); [|done|by apply routes_fst|by rewrite routes_snd].
  split_and!; try done. intros id Hid. apply Hfr. by rewrite routes_snd.
Qed.

(** Phase 1 of the whole-chunk import. *)
Definition planned_for (p : StreamSection * StreamKey) (w : PlannedAppend) : Prop :=
  target w = p.2 /\ PendingBatch.iter (batch w) = run_of p.1 /\
  exists evs, blocks p.1 = BlockEvent <$> evs /\ run_of p.1 = from_persisted <$> evs.

Lemma plan_writes_spec pairs ws firsts lasts :
  plan_writes pairs = Ok (ws, firsts, lasts) ->
  Forall2 planned_for (routed pairs) ws /\ length lasts = length ws.
Proof.
  revert ws firsts lasts. induction pairs as [|[sec t] pairs IH]; intros ws firsts lasts; cbn [plan_writes].
  { intros [= <- <- <-]. split; [constructor|done]. }
  destruct (plan_section sec) as [[| |first ex hd tl last halt]|[]] eqn:Hplan; [| |destruct halt|]; try done.
  - apply plan_empty in Hplan. rewrite routed_cons_empty by done. apply IH.
  - intros ([[ws' fs'] ls'] & Hw & [= <- <- <-])%result_bind_Ok. destruct (IH _ _ _ Hw) as [Hall Hlen].
    rewrite routed_cons by (intros Hx; apply plan_empty in Hx; congruence).
    split; [|simpl; lia]. constructor; [|done].
    assert (run_of sec = hd :: tl) as Hrun by (unfold run_of; by rewrite Hplan). split_and!; try done.
    apply plan_section_run in Hplan as (evs & rest & Hbl & Hev & _ & _ & _ & Hh). simpl in Hh. subst rest.
    rewrite app_nil_r in Hbl. exists evs. simpl. by rewrite Hrun, Hev.
  - by destruct (next last).
Qed.

Lemma planned_ok ps ws :
  Forall2 planned_for ps ws -> Forall (fun p => section_ok p.1) ps -> Forall write_ok ws.
Proof.
  induction 1 as [|p w ps ws (_ & Hb & _) _ IH]; [constructor|]. intros [? ?]%Forall_cons.
  constructor; [|by apply IH]. unfold write_ok, batch_ok. rewrite Hb. by apply run_of_ok.
Qed.

Lemma planned_targets ps ws : Forall2 planned_for ps ws -> target <$> ws = ps.*2.
Proof. induction 1 as [|p w ps ws (Ht & _) _ IH]; [done|]. csimpl. by rewrite Ht, IH. Qed.

Lemma writes_to_none ws id : id ∉ target <$> ws -> writes_to ws id = [].
Proof.
  unfold writes_to. induction ws as [|w ws IH]; [done|]. rewrite fmap_cons. intros Hni. rewrite bind_cons.
  rewrite decide_False by set_solver. apply IH. set_solver.
Qed.

Lemma writes_to_run ps ws p :
  Forall2 planned_for ps ws -> NoDup ps.*2 -> p ∈ ps -> writes_to ws p.2 = run_of p.1.
Proof.
  induction 1 as [|q w ps ws (Ht & Hb & _) Hall IH]; [by rewrite elem_of_nil|].
  rewrite fmap_cons, elem_of_cons. intros [Hni Hnd]%NoDup_cons [->|Hp]; unfold writes_to; rewrite bind_cons.
  - rewrite decide_True, Hb by done. fold (writes_to ws q.2).
    by rewrite writes_to_none, app_nil_r by (by rewrite (planned_targets _ _ Hall)).
  - rewrite decide_False; [by apply IH|]. rewrite Ht. intros Heq. apply Hni. rewrite Heq. by apply list_elem_of_fmap_2.
Qed.

Lemma not_routed pairs sec t :
  NoDup pairs.*2 -> (sec, t) ∈ pairs -> blocks sec = [] -> t ∉ (routed pairs).*2.
Proof.
  intros Hnd Hin Hnil Hr. apply list_elem_of_fmap in Hr as ([sec' t'] & -> & Hp).
  unfold routed in Hp. apply list_elem_of_filter in Hp as [Hne Hp].
  assert (sec' = sec) as ->; [|done].
  apply list_elem_of_lookup in Hin as [i Hi], Hp as [j Hj].
  assert (i = j) as <-.
  { eapply (NoDup_lookup pairs.*2); [done|by rewrite list_lookup_fmap, Hi|by rewrite list_lookup_fmap, Hj]. }
  congruence.
Qed.

Context {AA : AtomicAppend S} {AAS : AtomicAppendSpec S}.

(** What a whole-chunk import did, by its result. *)
(** Every section is intact and gapless, each target stream has grown by all of its
    section's events, and no other stream has changed. *)
Definition all_imported (s s' : S) (sections : list StreamSection) (route : bytes -> StreamKey) : Prop :=
  (forall sec, sec ∈ sections ->
     exists evs, blocks sec = BlockEvent <$> evs /\
       stream_of s' (route (origin sec)) = stream_of s (route (origin sec)) ++ (from_persisted <$> evs)) /\
  forall id, id ∉ (fun sec => route (origin sec)) <$> sections -> stream_of s' id = stream_of s id.

(** The writes of a plan import all sections. *)
Lemma planned_imported s s' sections route ws :
  NoDup (routes sections route).*2 -> Forall2 planned_for (routed (routes sections route)) ws ->
  (forall id, stream_of s' id = stream_of s id ++ writes_to ws id) -> all_imported s s' sections route.
Proof.
  intros Hnd Hall Hst.
  assert (NoDup (routed (routes sections route)).*2) as Hnd'
    by (eapply sublist_NoDup; [exact Hnd|]; apply fmap_sublist, sublist_filter).
  split.
  - intros sec Hsec. assert ((sec, route (origin sec)) ∈ routes sections route) as Hin0
      by (by apply (list_elem_of_fmap_2 (fun s => (s, route (origin s))))).
    destruct (decide (nonempty_section (sec, route (origin sec)))) as [Hne|Hnil].
    + assert ((sec, route (origin sec)) ∈ routed (routes sections route)) as Hin
        by (unfold routed; by apply list_elem_of_filter).
      destruct (proj1 (list_elem_of_lookup _ _) Hin) as [i Hi].
      destruct (Forall2_lookup_l _ _ _ _ _ Hall Hi) as (w & _ & _ & _ & evs & Hb & Hrun).
      exists evs. split; [done|].
      rewrite Hst, (writes_to_run _ _ (sec, route (origin sec)) Hall Hnd' Hin : writes_to ws (route (origin sec)) = _).
      by rewrite Hrun.
    + exists []. rewrite Hst, writes_to_none; [by destruct (blocks sec) eqn:E; [|destruct Hnil; unfold nonempty_section; simpl; rewrite E]|].
      rewrite (planned_targets _ _ Hall). eapply not_routed; [exact Hnd|exact Hin0|].
      destruct (blocks sec) eqn:E; [done|]. destruct Hnil. unfold nonempty_section. simpl. by rewrite E.
  - intros id Hid. rewrite Hst, writes_to_none, app_nil_r; [done|]. rewrite (planned_targets _ _ Hall).
    intros Hin. apply Hid. rewrite <- routes_snd. apply list_elem_of_fmap in Hin as (p' & -> & Hp'). by apply routed_target.
Qed.

Lemma import_whole_chunk_spec s sections route s' r :
  store_inv s -> Forall section_ok sections ->
  import_whole_chunk s sections route = (s', r) ->
  store_inv s' /\
  ((exists e, r = Returns (Err e) /\
      ((forall id, stream_of s' id = stream_of s id) \/ (exists x, e = ImportStore x) /\ all_imported s s' sections route)) \/
   (exists rep, r = Returns (Ok rep) /\ all_complete rep = true /\
      (report_stream <$> report_streams rep) = (routed (routes sections route)).*2 /\ all_imported s s' sections route)).
Proof.
  intros Hinv Hok. unfold import_whole_chunk.
  destruct (route_sections sections route) as [ts|] eqn:Hr; [|intros [= <- <-]; eauto 8].
  apply route_sections_Ok in Hr as [-> Hnd]. rewrite zip_routes. rewrite <- routes_snd in Hnd.
  destruct (plan_writes (routes sections route)) as [[[ws firsts] lasts]|] eqn:Hp; [|intros [= <- <-]; eauto 8].
  apply plan_writes_spec in Hp as [Hall Hlen].
  assert (Forall write_ok ws) as Hws.
  { eapply planned_ok; [exact Hall|]. unfold routed. apply (routes_fst _ route) in Hok.
    rewrite Forall_forall in *. intros p [_ ?]%list_elem_of_filter. auto. }
  pose proof (atomic_no_panic s ws Hinv Hws) as Hnp.
  destruct (atomic_append_many s ws) as [s1 [[p|e]|]] eqn:Ea; [| |done]; intros [= <- <-].
  2:{ destruct (atomic_failed _ _ _ _ Hinv Hws Ea) as [Hinv1 Hor]. split; [done|]. left. eexists. split; [done|].
      destruct Hor as [Hsame|([x ->] & _ & _ & Hst)]; [by left|right]. split; [by eexists|by eapply planned_imported]. }
  destruct (atomic_committed _ _ _ _ Hinv Hws Ea) as (Hinv1 & _ & _ & Hst).
  split; [done|]. right. eexists. split; [done|]. simpl. split_and!; [| |by eapply planned_imported].
  - unfold all_complete. simpl. apply forallb_forall. intros x Hx%list_elem_of_In.
    apply elem_of_lookup_zip_with in Hx as (i & w & v & -> & _). done.
  - rewrite <- (planned_targets _ _ Hall). clear -Hlen. revert lasts Hlen.
    induction ws as [|w ws IH]; intros [|v lasts] Hlen; simpl in *; try done. f_equal. apply IH. lia.
Qed.

(** A whole-chunk import is all or nothing: it never panics; a report means that every
    section was intact and gapless and that each target stream grew by all of its
    section's events, with every stream reported complete and no other changed; an
    error leaves every stream as it was, except that after an error of the store's own
    the whole chunk may have been imported. *)
Theorem import_whole_chunk_all_or_nothing s sections route s' r :
  store_inv s -> Forall section_ok sections ->
  import_whole_chunk s sections route = (s', r) ->
  store_inv s' /\
  ((exists e, r = Returns (Err e) /\
      ((forall id, stream_of s' id = stream_of s id) \/ (exists x, e = ImportStore x) /\ all_imported s s' sections route)) \/
   (exists rep, r = Returns (Ok rep) /\ all_complete rep = true /\
      (report_stream <$> report_streams rep) = (routed (routes sections route)).*2 /\ all_imported s s' sections route)).
Proof. apply import_whole_chunk_spec. Qed.

End correctness.
