(* ===== verification/Log.v ===== *)
(** * The abstract event log

    What every adapter represents: one log of attributed envelopes.  A stream is the
    log's restriction to a key, and an event's position in [$all] is its place in
    the log.  [InMemory] and [FjallSpec] prove that their stores simulate it. *)

From S2P Require Import Prelude Version Value Wire Envelope RawStore Import.

Notation Log := (list (StreamKey * PendingEnvelope)).

Definition log_stream (id : StreamKey) (l : Log) : list PendingEnvelope :=
  (filter (fun e => e.1 = id) l).*2.

(** The entries an append of [envs] to [id] adds. *)
Definition tag_log (id : StreamKey) (envs : list PendingEnvelope) : Log := (fun pe => (id, pe)) <$> envs.

(** An envelope whose frame is within the [u32] offsets of the wire format. *)
Definition fits (pe : PendingEnvelope) : Prop :=
  payload_offset HEADER_FIXED_SIZE (et_bytes (pe_event_type pe)) (md_bytes <$> pe_metadata pe)
    + len (pl_bytes (pe_payload pe)) <= u32_max.

#[export] Instance fits_dec pe : Decision (fits pe).
Proof. unfold fits. apply _. Defined.

(** The frame of an envelope. *)
Definition frame_bytes (pe : PendingEnvelope) : bytes :=
  ef_value (v2_frame (pe_schema_version pe) (pe_event_type pe) (pe_payload pe) (pe_metadata pe)).

Lemma log_stream_app id l1 l2 : log_stream id (l1 ++ l2) = log_stream id l1 ++ log_stream id l2.
Proof. unfold log_stream. by rewrite filter_app, fmap_app. Qed.

Lemma log_stream_tag id envs : log_stream id (tag_log id envs) = envs.
Proof.
  unfold log_stream, tag_log. induction envs as [|pe envs IH]; [done|].
  rewrite fmap_cons, filter_cons, decide_True by done. csimpl. by rewrite IH.
Qed.

Lemma log_stream_tag_ne id id' envs : id' <> id -> log_stream id' (tag_log id envs) = [].
Proof.
  intros Hne. unfold log_stream, tag_log. induction envs as [|pe envs IH]; [done|].
  rewrite fmap_cons, filter_cons, decide_False by (simpl; congruence). done.
Qed.

Lemma log_stream_prefix id l l' : l `prefix_of` l' -> log_stream id l `prefix_of` log_stream id l'.
Proof. intros [k ->]. rewrite log_stream_app. by eexists. Qed.

Lemma len_log_stream id l : len (log_stream id l) <= len l.
Proof.
  unfold log_stream, len. rewrite length_fmap.
  pose proof (length_filter (fun e : StreamKey * PendingEnvelope => e.1 = id) l). lia.
Qed.

Lemma len_tag_log id envs : len (tag_log id envs) = len envs.
Proof. unfold tag_log, len. by rewrite length_fmap. Qed.

Lemma Forall_log_stream (P : PendingEnvelope -> Prop) id l :
  Forall (fun e => P e.2) l -> Forall P (log_stream id l).
Proof.
  intros Hl. unfold log_stream. rewrite Forall_fmap. rewrite Forall_forall in *.
  intros e [_ He]%list_elem_of_filter. by apply Hl.
Qed.

Lemma stream_version envs i pe :
  consecutive 1 (versions envs) -> envs !! i = Some pe -> as_u64 (pe_version pe) = 1 + Z.of_nat i.
Proof.
  intros Hc Hi. eapply consecutive_lookup; [exact Hc|]. unfold versions. by rewrite list_lookup_fmap, Hi.
Qed.

(** A stream stays consecutive when a batch that continues it is added. *)
Lemma consecutive_extend id l envs k :
  consecutive 1 (versions (log_stream k l)) ->
  consecutive (len (log_stream id l) + 1) (versions envs) ->
  consecutive 1 (versions (log_stream k (l ++ tag_log id envs))).
Proof.
  intros Hv Hc. rewrite log_stream_app. unfold versions in *. rewrite fmap_app, consecutive_app.
  split; [done|]. unfold len. rewrite length_fmap. fold (len (log_stream k l)).
  destruct (decide (k = id)) as [->|Hne].
  - rewrite log_stream_tag. by rewrite Z.add_comm.
  - by rewrite log_stream_tag_ne.
Qed.

(** ** Several runs *)

Definition writes_log (ws : list PlannedAppend) : Log :=
  ws ≫= (fun w => tag_log (target w) (PendingBatch.iter (batch w))).

Lemma log_stream_writes ws id : log_stream id (writes_log ws) = writes_to ws id.
Proof.
  unfold writes_log, writes_to. induction ws as [|w ws IH]; [done|].
  rewrite !bind_cons, log_stream_app, IH. f_equal. destruct (decide (target w = id)) as [<-|Hne].
  - apply log_stream_tag.
  - by apply log_stream_tag_ne.
Qed.
