(* ===== verification/InMemory.v ===== *)
(** * The in-memory adapter (adapters/inmemory/src/lib.rs, crates/store/src/batch.rs)

    [Inner] is the state behind the adapter's single mutex; a critical section is
    one function on it.  [read_stream] and [read_all] return paginating cursors
    whose polls each take the lock once at most, so a poll is a function of the
    store as it is then. *)

From S2P Require Import Prelude ErrorId Version Value Wire Envelope RawStore Wake Import Log.

(** ** Batch sizes *)

Definition MAX_BATCH : Z := 4096.
Definition DEFAULT_BATCH : Z := 256.

(** A validated [usize] in [1..=MAX_BATCH]. *)
Record BatchSize : Type := MkBatchSize { bs_value : NonZero MAX_BATCH }.
Record BatchSizeError : Type := MkBatchSizeError { requested : Z; max_batch : Z }.

Module BatchSize.
Definition DEFAULT : BatchSize := MkBatchSize (MkNonZero (max := MAX_BATCH) DEFAULT_BATCH eq_refl).
Definition new (n : Z) : result BatchSize BatchSizeError :=
  match nz_new n with
  | Some v => Ok (MkBatchSize v)
  | None => Err (MkBatchSizeError n MAX_BATCH)
  end.
Definition get (b : BatchSize) : Z := nz_get (bs_value b).
End BatchSize.

(** ** Positions and frames *)

Inductive InMemoryStoreError : Type :=
| CorruptVersion
| StoreVersionOverflow
| GlobalSeqOverflow
| StoreWire (e : WireError)
| EnvelopeCorrupt (version : Z) (source : EnvelopeError)
| StoreSubscription (e : NotifyError).

Record InMemoryAllPos : Type := MkPos { pos_nz : NonZero u64_max }.

#[export] Instance pos_eq_dec : EqDecision InMemoryAllPos.
Proof. solve_decision. Defined.

Module Pos.
Definition INITIAL : InMemoryAllPos := MkPos (MkNonZero (max := u64_max) 1 eq_refl).
Definition new (v : Z) : option InMemoryAllPos := MkPos <$> nz_new v.
Definition as_u64 (p : InMemoryAllPos) : Z := nz_get (pos_nz p).
Definition next (p : InMemoryAllPos) : option InMemoryAllPos := MkPos <$> nz_checked_add (pos_nz p) 1.
End Pos.

Record StoredFrame : Type := MkStoredFrame {
  sf_version : Z;
  sf_value : bytes;
  sf_offsets : FrameOffsets;
  sf_schema_version : SchemaVersion;
}.

(** [BTreeMap<InMemoryAllPos, V>]: its entries in key order. *)
Notation btree V := (list (InMemoryAllPos * V)).
Fixpoint btree_insert {V} (p : InMemoryAllPos) (v : V) (m : btree V) : btree V :=
  match m with
  | [] => [(p, v)]
  | (q, w) :: m =>
      if Pos.as_u64 p <? Pos.as_u64 q then (p, v) :: (q, w) :: m
      else if Pos.as_u64 p =? Pos.as_u64 q then (q, v) :: m
      else (q, w) :: btree_insert p v m
  end.
(** [range((lower, Unbounded))] with [lower] unbounded or excluded. *)
Definition btree_after {V} (after : option InMemoryAllPos) (m : btree V) : btree V :=
  match after with
  | None => m
  | Some p => filter (fun e => Pos.as_u64 p < Pos.as_u64 e.1) m
  end.

Record Inner : Type := MkInner {
  streams : gmap StreamKey (list StoredFrame);
  next_global_seq : InMemoryAllPos;
  global_index : btree (StreamKey * StoredFrame);
}.

Definition inner_default : Inner := MkInner ∅ Pos.INITIAL [].

Section store.
Context {T : Target} {AS : ArrayString} {W : Watch}.

Record InMemoryStore : Type := MkStore {
  inner : Inner;
  notifiers : StreamNotifiers;
  batch_size : BatchSize;
}.

Definition with_batch_size (b : BatchSize) : InMemoryStore := MkStore inner_default notifiers_new b.
Definition store_new : InMemoryStore := with_batch_size BatchSize.DEFAULT.

Definition encode_pending_to_frame (env : PendingEnvelope) : outcome StoredFrame InMemoryStoreError :=
  let! frame := outcome_map_err StoreWire
    (encode_frame (pe_schema_version env) (pe_event_type env) (pe_payload env) (pe_metadata env)) in
  Returns (Ok (MkStoredFrame (as_u64 (pe_version env)) (ef_value frame) (ef_offsets frame)
                 (pe_schema_version env))).

Definition frame_to_envelope (frame : StoredFrame) : result PersistedEnvelope InMemoryStoreError :=
  match new (sf_version frame) with
  | None => Err CorruptVersion
  | Some version =>
      map_err (EnvelopeCorrupt (sf_version frame))
        (PersistedEnvelope.try_new version (sf_value frame) (sf_schema_version frame)
           (fo_event_type (sf_offsets frame)) (fo_payload (sf_offsets frame))
           (fo_metadata (sf_offsets frame)))
  end.

(** [slice::partition_point] of a partitioned slice. *)
Fixpoint partition_point {A} (p : A -> bool) (l : list A) : nat :=
  match l with
  | [] => O
  | x :: l => if p x then S (partition_point p l) else O
  end.

Definition scan_batch (rows : list StoredFrame) (from batch : Z) : list StoredFrame :=
  let start := partition_point (fun row => sf_version row <? from) rows in
  take (Z.to_nat batch) (drop start rows).

Definition inmemory_validation_err (id : StreamKey) (e : AppendValidationError)
  : AppendError InMemoryStoreError :=
  match e with
  | ValidationConflict _ expected actual => AppendConflict (error_id id) expected actual
  | ValidationVersionOverflow => AppendStore StoreVersionOverflow
  end.

(** ** Writing *)

(** The staging loop: rows tagged with their positions, the last position
    assigned and the next one.  [last] seeds [last_assigned]. *)
Fixpoint stage_rows (seq last : InMemoryAllPos) (envs : list PendingEnvelope)
  : outcome (list (InMemoryAllPos * StoredFrame) * InMemoryAllPos * InMemoryAllPos) InMemoryStoreError :=
  match envs with
  | [] => Returns (Ok ([], last, seq))
  | env :: envs =>
      let! frame := encode_pending_to_frame env in
      let! seq' := Returns (ok_or (Pos.next seq) GlobalSeqOverflow) in
      let! (rows, last', seq'') := stage_rows seq' seq envs in
      Returns (Ok ((seq, frame) :: rows, last', seq''))
  end.

(** The length of a stream as a [u64]. *)
Definition current_len (s : Inner) (id : StreamKey) : option Z :=
  try_from u64_max (len (default [] (streams s !! id))).

Definition index_rows (id : StreamKey) (rows : list (InMemoryAllPos * StoredFrame))
  (m : btree (StreamKey * StoredFrame)) : btree (StreamKey * StoredFrame) :=
  fold_left (fun m '(p, frame) => btree_insert p (id, frame) m) rows m.

(** [streams.entry(id).or_default().extend(frames)]. *)
Definition extend_stream (id : StreamKey) (frames : list StoredFrame)
  (m : gmap StreamKey (list StoredFrame)) : gmap StreamKey (list StoredFrame) :=
  <[id := default [] (m !! id) ++ frames]> m.

(** The critical section of [append]. *)
Definition append_inner (s : Inner) (id : StreamKey) (expected_version : option Version)
  (envelopes : PendingBatch.t) : Inner * outcome InMemoryAllPos (AppendError InMemoryStoreError) :=
  let planned :=
    let! current := Returns (ok_or (current_len s id) (AppendStore StoreVersionOverflow)) in
    let! _ := Returns (map_err (inmemory_validation_err id)
                (validate_append_versions current expected_version envelopes id)) in
    outcome_map_err AppendStore
      (stage_rows (next_global_seq s) (next_global_seq s) (PendingBatch.iter envelopes)) in
  match planned with
  | Panics => (s, Panics)
  | Returns (Err e) => (s, Returns (Err e))
  | Returns (Ok (rows, last_assigned, seq)) =>
      (MkInner (extend_stream id rows.*2 (streams s)) seq (index_rows id rows (global_index s)),
       Returns (Ok last_assigned))
  end.

(** [append]: the critical section, then the wake once the lock is released. *)
Definition store_append (s : InMemoryStore) (id : StreamKey) (expected_version : option Version)
  (envelopes : PendingBatch.t) : InMemoryStore * outcome InMemoryAllPos (AppendError InMemoryStoreError) :=
  match append_inner (inner s) id expected_version envelopes with
  | (i, Returns (Ok p)) => (MkStore i (wake (notifiers s) (sk_bytes id)) (batch_size s), Returns (Ok p))
  | (i, r) => (MkStore i (notifiers s) (batch_size s), r)
  end.

(** Head check of each write against its committed stream. *)
Fixpoint check_heads (s : Inner) (index : Z) (writes : list PlannedAppend)
  : result () (AtomicAppendError InMemoryStoreError) :=
  match writes with
  | [] => Ok ()
  | w :: writes =>
      let? actual_raw := ok_or (current_len s (target w)) (AtomicStore StoreVersionOverflow) in
      let expected_raw := from_option as_u64 0 (planned_expected w) in
      if negb (actual_raw =? expected_raw) then Err (AtomicConflict index (new actual_raw))
      else check_heads s (index + 1) writes
  end.

(** Phase 2: stage every run. *)
Fixpoint stage_writes (seq last : InMemoryAllPos) (writes : list PlannedAppend)
  : outcome (list (StreamKey * list (InMemoryAllPos * StoredFrame)) * InMemoryAllPos * InMemoryAllPos)
      InMemoryStoreError :=
  match writes with
  | [] => Returns (Ok ([], last, seq))
  | w :: writes =>
      let! (rows, last', seq') := stage_rows seq last (PendingBatch.iter (batch w)) in
      let! (staged, last'', seq'') := stage_writes seq' last' writes in
      Returns (Ok ((target w, rows) :: staged, last'', seq''))
  end.

(** Phase 3: the counter, the index, the streams. *)
Definition commit_staged (s : Inner) (staged : list (StreamKey * list (InMemoryAllPos * StoredFrame)))
  (seq : InMemoryAllPos) : Inner :=
  MkInner (fold_left (fun m '(key, rows) => extend_stream key rows.*2 m) staged (streams s)) seq
    (fold_left (fun m '(key, rows) => index_rows key rows m) staged (global_index s)).

Definition atomic_append_inner (s : Inner) (writes : list PlannedAppend)
  : Inner * outcome (option InMemoryAllPos) (AtomicAppendError InMemoryStoreError) :=
  if bool_decide (writes = []) then (s, Returns (Ok None))
  else
    let planned :=
      let! _ := Returns (map_err AtomicInvalidRoute (validate_distinct_targets (target <$> writes))) in
      let! _ := Returns (map_err AtomicInvalidRun (validate_atomic_runs writes)) in
      let! _ := Returns (check_heads s 0 writes) in
      outcome_map_err AtomicStore (stage_writes (next_global_seq s) (next_global_seq s) writes) in
    match planned with
    | Panics => (s, Panics)
    | Returns (Err e) => (s, Returns (Err e))
    | Returns (Ok (staged, last_assigned, seq)) =>
        (commit_staged s staged seq, Returns (Ok (Some last_assigned)))
    end.

Definition store_atomic_append (s : InMemoryStore) (writes : list PlannedAppend)
  : InMemoryStore * outcome (option InMemoryAllPos) (AtomicAppendError InMemoryStoreError) :=
  match atomic_append_inner (inner s) writes with
  | (i, Returns (Ok p)) =>
      (MkStore i (fold_left (fun n w => wake n (sk_bytes (target w))) writes (notifiers s)) (batch_size s),
       Returns (Ok p))
  | (i, r) => (MkStore i (notifiers s) (batch_size s), r)
  end.

(** ** Reading *)

(** [ReadState]; [prev_version] exists in builds with debug assertions. *)
Record ReadState : Type := MkReadState {
  rs_stream_id : StreamKey;
  rs_from : Version;
  rs_last_version : option Version;
  rs_batch_size : Z;
  rs_buffer : list StoredFrame;
  rs_done : bool;
  rs_prev_version : option Z;
}.

Definition set_buffer (s : ReadState) (buffer : list StoredFrame) (done : bool) : ReadState :=
  MkReadState (rs_stream_id s) (rs_from s) (rs_last_version s) (rs_batch_size s) buffer done (rs_prev_version s).

Definition next_read_version (s : ReadState) : result Version InMemoryStoreError :=
  match rs_last_version s with
  | None => Ok (rs_from s)
  | Some v => ok_or (next v) StoreVersionOverflow
  end.

Definition refill (i : Inner) (s : ReadState) (from : Version) : ReadState :=
  let batch := match streams i !! rs_stream_id s with
               | Some rows => scan_batch rows (as_u64 from) (rs_batch_size s)
               | None => []
               end in
  set_buffer s batch (len batch <? rs_batch_size s).

(** Yielding a buffered row; the monotonicity [debug_assert!] panics in [debug]
    builds. *)
Definition yield_row (debug : bool) (row : StoredFrame) (rest : list StoredFrame) (s : ReadState)
  : panicking (option (result PersistedEnvelope InMemoryStoreError) * option ReadState) :=
  if debug && from_option (fun prev => negb (prev <? sf_version row)) false (rs_prev_version s) then Panics
  else
    match frame_to_envelope row with
    | Ok env =>
        Returns (Some (Ok env),
          Some (MkReadState (rs_stream_id s) (rs_from s) (Some (ps_version env)) (rs_batch_size s) rest
                  (rs_done s) (Some (sf_version row))))
    | Err e =>
        Returns (Some (Err e),
          Some (MkReadState (rs_stream_id s) (rs_from s) (rs_last_version s) (rs_batch_size s) rest
                  true (Some (sf_version row))))
    end.

(** One [next()] of the fused [unfold]: the closure's loop makes at most one
    refill before it yields or ends; [None] is the finished stream, which stays
    finished. *)
Definition poll (debug : bool) (i : Inner) (c : option ReadState)
  : panicking (option (result PersistedEnvelope InMemoryStoreError) * option ReadState) :=
  match c with
  | None => Returns (None, None)
  | Some s =>
      match rs_buffer s with
      | row :: rest => yield_row debug row rest s
      | [] =>
          if rs_done s then Returns (None, None)
          else
            match next_read_version s with
            | Err e => Returns (Some (Err e), Some (set_buffer s [] true))
            | Ok from =>
                let s := refill i s from in
                match rs_buffer s with
                | [] => Returns (None, None)
                | row :: rest => yield_row debug row rest s
                end
            end
      end
  end.

Definition store_read_stream (s : InMemoryStore) (id : StreamKey) (from : Version)
  : result (option ReadState) InMemoryStoreError :=
  Ok (Some (MkReadState id from None (BatchSize.get (batch_size s)) [] false None)).

(** [GlobalReadState] and the [$all] stream. *)
Record GlobalReadState : Type := MkGlobalReadState {
  gs_after : option InMemoryAllPos;
  gs_batch_size : Z;
  gs_buffer : list (InMemoryAllPos * (StreamKey * StoredFrame));
  gs_done : bool;
}.

Definition global_refill (i : Inner) (s : GlobalReadState) : GlobalReadState :=
  let batch := take (Z.to_nat (gs_batch_size s)) (btree_after (gs_after s) (global_index i)) in
  MkGlobalReadState (gs_after s) (gs_batch_size s) batch (len batch <? gs_batch_size s).

Definition AllItem : Type := InMemoryAllPos * StreamKey * PersistedEnvelope.

Definition yield_all (e : InMemoryAllPos * (StreamKey * StoredFrame))
  (rest : list (InMemoryAllPos * (StreamKey * StoredFrame))) (s : GlobalReadState)
  : option (result AllItem InMemoryStoreError) * option GlobalReadState :=
  let '(pos, (key, frame)) := e in
  match frame_to_envelope frame with
  | Ok env => (Some (Ok (pos, key, env)),
      Some (MkGlobalReadState (Some pos) (gs_batch_size s) rest (gs_done s)))
  | Err e => (Some (Err e), Some (MkGlobalReadState (gs_after s) (gs_batch_size s) rest true))
  end.

Definition poll_all (i : Inner) (c : option GlobalReadState)
  : option (result AllItem InMemoryStoreError) * option GlobalReadState :=
  match c with
  | None => (None, None)
  | Some s =>
      match gs_buffer s with
      | e :: rest => yield_all e rest s
      | [] =>
          if gs_done s then (None, None)
          else
            let s := global_refill i s in
            match gs_buffer s with
            | [] => (None, None)
            | e :: rest => yield_all e rest s
            end
      end
  end.

Definition read_all (s : InMemoryStore) (from : option InMemoryAllPos)
  : result (option GlobalReadState) InMemoryStoreError :=
  Ok (Some (MkGlobalReadState from (BatchSize.get (batch_size s)) [] false)).

(** [list_streams]: the keys, in the map's order. *)
Definition list_streams (s : InMemoryStore) : list StreamKey := (map_to_list (streams (inner s))).*1.

(** ** The log the adapter represents *)

(** The stored frame of an envelope that fits the frame format. *)
Definition frame_of (pe : PendingEnvelope) : StoredFrame :=
  let frame := v2_frame (pe_schema_version pe) (pe_event_type pe) (pe_payload pe) (pe_metadata pe) in
  MkStoredFrame (as_u64 (pe_version pe)) (ef_value frame) (ef_offsets frame) (pe_schema_version pe).

(** The index entries of a log whose first event has position [start]. *)
Fixpoint index_of (start : Z) (l : Log) (idx : btree (StreamKey * StoredFrame)) : Prop :=
  match l, idx with
  | [], [] => True
  | (k, pe) :: l, (p, e) :: idx => Pos.as_u64 p = start /\ e = (k, frame_of pe) /\ index_of (start + 1) l idx
  | _, _ => False
  end.

(** The simulation relation: the index, the streams and the counter all describe
    the same log. *)
Record represents (l : Log) (s : Inner) : Prop := MkRepresents {
  rep_ok : Forall (fun e => pending_ok e.2 /\ fits e.2) l;
  rep_index : index_of 1 l (global_index s);
  rep_streams : forall id, default [] (streams s !! id) = frame_of <$> log_stream id l;
  rep_versions : forall id, consecutive 1 (versions (log_stream id l));
  rep_next : Pos.as_u64 (next_global_seq s) = 1 + len l;
}.

(** ** Frames *)

Lemma pos_range p : 1 <= Pos.as_u64 p <= u64_max.
Proof. apply nz_range. Qed.

Lemma pos_next_Some p q : Pos.next p = Some q <-> Pos.as_u64 q = Pos.as_u64 p + 1.
Proof.
  unfold Pos.next, nz_checked_add, Pos.as_u64. destruct q as [q]. rewrite fmap_Some. simpl.
  setoid_rewrite nz_new_Some. naive_solver.
Qed.

Lemma pos_inj p q : Pos.as_u64 p = Pos.as_u64 q -> p = q.
Proof. destruct p, q. unfold Pos.as_u64. simpl. by intros ->%nz_get_inj. Qed.

Lemma encode_pending_spec pe :
  pending_ok pe ->
  (fits pe /\ encode_pending_to_frame pe = Returns (Ok (frame_of pe))) \/
  (~ fits pe /\ exists e, encode_pending_to_frame pe = Returns (Err (StoreWire e))).
Proof.
  intros (He & Hp & Hm). unfold encode_pending_to_frame, fits.
  destruct (decide (payload_offset HEADER_FIXED_SIZE (et_bytes (pe_event_type pe)) (md_bytes <$> pe_metadata pe)
    + len (pl_bytes (pe_payload pe)) <= u32_max)) as [Hle|Hgt]; [left|right]; (split; [done|]).
  - by rewrite encode_frame_bytes.
  - destruct (compute_layout_Err (et_bytes (pe_event_type pe)) (md_bytes <$> pe_metadata pe)
      (pl_bytes (pe_payload pe))) as (h & p & E); [lia|].
    unfold encode_frame, plan. rewrite E. simpl. eauto.
Qed.

(** A stored frame reads back as the envelope it was written from. *)
Lemma frame_reads_back pe :
  pending_ok pe -> fits pe ->
  exists env, frame_to_envelope (frame_of pe) = Ok env /\ persisted_ok env /\ from_persisted env = pe.
Proof.
  intros (He & Hp & Hm) Hf.
  destruct (try_new_v2_frame (pe_version pe) (pe_schema_version pe) _ _ _ He Hp Hm Hf) as (env & E & ? & Hfp).
  exists env. split_and!; [|done|by destruct pe].
  unfold frame_to_envelope, frame_of. cbn [sf_version sf_value sf_offsets sf_schema_version].
  by rewrite new_as_u64, E.
Qed.

(** ** Staging *)

Definition tag_rows (id : StreamKey) (rows : list (InMemoryAllPos * StoredFrame))
  : btree (StreamKey * StoredFrame) := (fun r => (r.1, (id, r.2))) <$> rows.

Lemma stage_rows_spec id seq last envs :
  Forall pending_ok envs ->
  match stage_rows seq last envs with
  | Panics => False
  | Returns (Err _) => ~ (Forall fits envs /\ Pos.as_u64 seq + len envs <= u64_max)
  | Returns (Ok (rows, last', seq')) =>
      Forall fits envs /\ rows.*2 = frame_of <$> envs /\
      index_of (Pos.as_u64 seq) (tag_log id envs) (tag_rows id rows) /\
      Pos.as_u64 seq' = Pos.as_u64 seq + len envs /\
      (envs = [] -> last' = last) /\ (envs <> [] -> Pos.as_u64 last' = Pos.as_u64 seq + len envs - 1)
  end.
Proof.
  revert seq last. induction envs as [|pe envs IH]; intros seq last Hok; simpl.
  { rewrite len_nil. split_and!; done || lia. }
  apply Forall_cons in Hok as [Hpe Hok].
  rewrite len_cons. pose proof (len_nonneg envs).
  destruct (encode_pending_spec pe Hpe) as [[Hf ->]|[Hnf [e ->]]]; simpl; [|by intros [[]%Forall_cons _]].
  destruct (Pos.next seq) as [seq'|] eqn:Hn; simpl.
  2:{ intros [_ Hle]. apply fmap_None, nz_new_None in Hn. pose proof (pos_range seq).
      unfold Pos.as_u64 in *. lia. }
  apply pos_next_Some in Hn. specialize (IH seq' seq Hok).
  destruct (stage_rows seq' seq envs) as [[[[rows last'] seq'']|e]|]; csimpl; [| |done].
  2:{ intros [[_ ?]%Forall_cons ?]. apply IH. split; [done|lia]. }
  destruct IH as (Hfit & Hr & Hi & Hs & Hl0 & Hl1).
  rewrite Hn in Hi.
  split_and!; try done; [by constructor|by rewrite Hr|lia|].
  intros _. destruct (decide (envs = [])) as [->|Hne].
  - rewrite Hl0 by done. rewrite len_nil. lia.
  - rewrite Hl1 by done. lia.
Qed.

(** ** The index *)

Lemma index_of_app start l1 l2 i1 i2 :
  index_of start l1 i1 -> index_of (start + len l1) l2 i2 -> index_of start (l1 ++ l2) (i1 ++ i2).
Proof.
  revert start i1. induction l1 as [|[k pe] l1 IH]; intros start [|[p e] i1]; simpl; try done.
  - by rewrite len_nil, Z.add_0_r.
  - rewrite len_cons. intros (? & ? & ?) H2. split_and!; try done. apply IH; [done|].
    by replace (start + 1 + len l1) with (start + (1 + len l1)) by lia.
Qed.

Lemma index_of_below start l idx :
  index_of start l idx -> Forall (fun e => Pos.as_u64 e.1 < start + len l) idx.
Proof.
  revert start idx. induction l as [|[k pe] l IH]; intros start [|[p e] idx]; simpl; try done.
  rewrite len_cons. intros (Hp & _ & Hi). pose proof (len_nonneg l). constructor; [simpl; lia|].
  apply IH in Hi. eapply Forall_impl; [exact Hi|]. simpl. intros ?; lia.
Qed.

Lemma btree_insert_last {V} p (v : V) m :
  Forall (fun e => Pos.as_u64 e.1 < Pos.as_u64 p) m -> btree_insert p v m = m ++ [(p, v)].
Proof.
  induction m as [|[q w] m IH]; [done|]. intros [Hq Hm]%Forall_cons. simpl in *.
  rewrite ltb_false, (proj2 (Z.eqb_neq _ _)) by lia. by rewrite IH.
Qed.

Lemma index_rows_spec id l m start envs rows :
  index_of 1 l m -> start = 1 + len l -> index_of start (tag_log id envs) (tag_rows id rows) ->
  index_of 1 (l ++ tag_log id envs) (index_rows id rows m).
Proof.
  revert l m start envs. induction rows as [|[p f] rows IH]; intros l m start [|pe envs]; simpl; try done.
  { intros Hm _ _. by rewrite app_nil_r. }
  intros Hm -> (Hp & [= ->] & Hi).
  rewrite btree_insert_last by (rewrite Hp; by apply index_of_below).
  change ((id, pe) :: tag_log id envs) with ([(id, pe)] ++ tag_log id envs). rewrite app_assoc.
  eapply IH; [|done|].
  - apply index_of_app; [done|]. simpl. done.
  - rewrite len_app, len_cons, len_nil. by replace (1 + (len l + (1 + 0))) with (1 + len l + 1) by lia.
Qed.

(** ** Appending *)

Lemma represents_default : represents [] inner_default.
Proof. split; try done. Qed.

Lemma represents_bound l s : represents l s -> 1 + len l <= u64_max.
Proof. intros Hr. pose proof (pos_range (next_global_seq s)). rewrite (rep_next _ _ Hr) in H. lia. Qed.

Lemma current_len_spec l s id : represents l s -> current_len s id = Some (len (log_stream id l)).
Proof.
  intros Hr. unfold current_len. rewrite (rep_streams _ _ Hr).
  pose proof (represents_bound _ _ Hr). pose proof (len_log_stream id l).
  pose proof (len_nonneg (log_stream id l)).
  unfold len in *. rewrite length_fmap. apply try_from_ok. lia.
Qed.

(** Adding a staged run to a represented store. *)
Lemma represents_extend l s id envs rows seq :
  represents l s -> Forall pending_ok envs -> Forall fits envs ->
  consecutive (len (log_stream id l) + 1) (versions envs) ->
  rows.*2 = frame_of <$> envs ->
  index_of (Pos.as_u64 (next_global_seq s)) (tag_log id envs) (tag_rows id rows) ->
  Pos.as_u64 seq = Pos.as_u64 (next_global_seq s) + len envs ->
  represents (l ++ tag_log id envs)
    (MkInner (extend_stream id rows.*2 (streams s)) seq (index_rows id rows (global_index s))).
Proof.
  intros [Hok Hi Hs Hv Hn] Hp Hf Hc Hrows Hidx Hseq. rewrite Hrows. split; simpl.
  - apply Forall_app. split; [done|]. unfold tag_log. rewrite Forall_fmap.
    rewrite Forall_forall in *. intros pe Hpe. simpl. auto.
  - by eapply index_rows_spec.
  - intros k. unfold extend_stream. rewrite log_stream_app, fmap_app.
    destruct (decide (k = id)) as [->|Hne].
    + by rewrite lookup_insert_eq, log_stream_tag, <- Hs.
    + by rewrite lookup_insert_ne, log_stream_tag_ne, app_nil_r by done.
  - intros k. apply consecutive_extend; [apply Hv|done].
  - rewrite Hseq, Hn, len_app. unfold tag_log, len. rewrite length_fmap. lia.
Qed.

Lemma validate_Ok_iff current expected b id :
  is_ok (validate_append_versions current expected b id) = true <->
  expected = head_version current /\ consecutive (current + 1) (versions (PendingBatch.iter b)).
Proof.
  unfold validate_append_versions. fold (head_version current).
  case_bool_decide as He; cbn [negb]; [|naive_solver].
  rewrite validate_sequence_Ok. naive_solver.
Qed.

(** Every outcome of an append, against the log. *)
Lemma append_inner_spec l s id expected b :
  represents l s -> batch_ok b ->
  match append_inner s id expected b with
  | (_, Panics) => False
  | (s', Returns (Err _)) => s' = s
  | (s', Returns (Ok p)) =>
      expected = head_version (len (log_stream id l)) /\
      represents (l ++ tag_log id (PendingBatch.iter b)) s' /\
      Pos.as_u64 p = len l + len (PendingBatch.iter b)
  end.
Proof.
  intros Hr Hb. unfold append_inner. rewrite (current_len_spec l) by done.
  cbn [ok_or outcome_bind].
  pose proof (validate_Ok_iff (len (log_stream id l)) expected b id) as Hv.
  destruct (validate_append_versions _ _ _ _) as [[]|e]; cbn [is_ok map_err outcome_bind] in *; [|done].
  destruct (proj1 Hv eq_refl) as [He Hc].
  pose proof (stage_rows_spec id (next_global_seq s) (next_global_seq s) (PendingBatch.iter b) Hb) as Hst.
  destruct (stage_rows _ _ _) as [[[[rows last'] seq']|e]|]; cbn [outcome_map_err map_err]; [|done|done].
  destruct Hst as (Hf & Hrows & Hidx & Hseq & _ & Hlast).
  split_and!; [done|by apply represents_extend|].
  rewrite Hlast, (rep_next _ _ Hr) by done. lia.
Qed.

Lemma append_stale_conflict l s id expected b :
  represents l s -> expected <> head_version (len (log_stream id l)) ->
  append_inner s id expected b =
    (s, Returns (Err (AppendConflict (error_id id) expected (head_version (len (log_stream id l)))))).
Proof.
  intros Hr Hne. unfold append_inner. rewrite (current_len_spec l) by done.
  cbn [ok_or outcome_bind]. unfold validate_append_versions. fold (head_version (len (log_stream id l))).
  by rewrite bool_decide_false.
Qed.

(** C1: an append on the adapter is exactly an append to the abstract log:
    it succeeds when [expected] names the stream's head, the batch continues it,
    every envelope fits a frame and positions remain, and then the log grows by
    the whole batch and the position returned is the last event's; in every other
    case nothing changes, and it never panics. *)
Theorem append_refines_log l s id expected b :
  represents l s -> batch_ok b ->
  let es := PendingBatch.iter b in
  let n := len (log_stream id l) in
  (forall s' p, append_inner s id expected b = (s', Returns (Ok p)) ->
     represents (l ++ tag_log id es) s' /\ Pos.as_u64 p = len l + len es) /\
  ((exists s' p, append_inner s id expected b = (s', Returns (Ok p))) <->
     expected = head_version n /\ consecutive (n + 1) (versions es) /\ Forall fits es /\
     1 + len l + len es <= u64_max) /\
  (forall s' r, append_inner s id expected b = (s', r) ->
     (exists p, r = Returns (Ok p)) \/ (exists e, r = Returns (Err e) /\ s' = s)).
Proof.
  intros Hr Hb es n. pose proof (append_inner_spec l s id expected b Hr Hb) as Hspec. split_and!.
  - intros s' p E. rewrite E in Hspec. naive_solver.
  - split.
    + intros (s' & p & E). rewrite E in Hspec. destruct Hspec as (He & Hr' & Hp).
      split_and!; [done| | |].
      * pose proof (rep_versions _ _ Hr' id) as Hv. unfold versions in *.
        rewrite log_stream_app, log_stream_tag, fmap_app, consecutive_app in Hv. destruct Hv as [_ Hv].
        unfold len in Hv. rewrite length_fmap in Hv. by rewrite Z.add_comm.
      * pose proof (rep_ok _ _ Hr') as Hok. apply Forall_app in Hok as [_ Hok].
        unfold tag_log in Hok. rewrite Forall_fmap in Hok. eapply Forall_impl; [exact Hok|]. simpl. naive_solver.
      * apply represents_bound in Hr'. rewrite len_app in Hr'. unfold tag_log, len in Hr'.
        rewrite length_fmap in Hr'. unfold len, es. lia.
    + intros (He & Hc & Hf & Hle). unfold append_inner. rewrite (current_len_spec l) by done.
      cbn [ok_or outcome_bind].
      pose proof (proj2 (validate_Ok_iff n expected b id) (conj He Hc)) as Hv. unfold n in Hv.
      destruct (validate_append_versions _ _ _ _) as [[]|]; [|done]. cbn [map_err outcome_bind].
      pose proof (stage_rows_spec id (next_global_seq s) (next_global_seq s) es Hb) as Hst. unfold es in Hst.
      destruct (stage_rows _ _ _) as [[[[rows last'] seq']|e]|]; cbn [outcome_map_err map_err]; [eauto| |done].
      destruct Hst. split; [done|]. rewrite (rep_next _ _ Hr). done.
  - intros s' r E. rewrite E in Hspec. destruct r as [[p|e]|]; naive_solver.
Qed.

(** ** Paginated reads *)

(** The log a store's index spells. *)
Definition log_of (s : Inner) : Log :=
  omap (fun '(_, (k, f)) =>
    match frame_to_envelope f with Ok env => Some (k, from_persisted env) | Err _ => None end)
    (global_index s).

Lemma index_log_of start l idx :
  index_of start l idx -> Forall (fun e => pending_ok e.2 /\ fits e.2) l ->
  omap (fun '(_, (k, f)) =>
    match frame_to_envelope f with Ok env => Some (k, from_persisted env) | Err _ => None end) idx = l.
Proof.
  revert start idx. induction l as [|[k pe] l IH]; intros start [|[p e] idx]; simpl; try done.
  intros (_ & -> & Hi) [[Hok Hf] Hl]%Forall_cons. simpl in *.
  destruct (frame_reads_back pe Hok Hf) as (env & -> & _ & ->). f_equal. by eapply IH.
Qed.

Lemma represents_log_of l s : represents l s -> log_of s = l.
Proof. intros Hr. eapply index_log_of; [apply (rep_index _ _ Hr)|apply (rep_ok _ _ Hr)]. Qed.

Lemma log_stream_ok l s id :
  represents l s -> stream_ok (log_stream id l) /\ Forall fits (log_stream id l).
Proof.
  intros Hr. pose proof (represents_bound _ _ Hr). pose proof (len_log_stream id l).
  assert (Forall (fun pe => pending_ok pe /\ fits pe) (log_stream id l)) as Hall.
  { unfold log_stream. rewrite Forall_fmap. pose proof (rep_ok _ _ Hr) as Hok.
    rewrite Forall_forall in *. intros e [_ He]%list_elem_of_filter. by apply Hok. }
  rewrite Forall_and in Hall. destruct Hall. split; [|done].
  split_and!; [done|apply (rep_versions _ _ Hr)|lia].
Qed.

Lemma stream_below_max l s id : represents l s -> len (log_stream id l) < u64_max.
Proof. intros Hr. pose proof (represents_bound _ _ Hr). pose proof (len_log_stream id l). lia. Qed.

Lemma partition_point_consecutive from envs start :
  consecutive start (versions envs) ->
  partition_point (fun row => sf_version row <? from) (frame_of <$> envs) =
    Nat.min (Z.to_nat (from - start)) (length envs).
Proof.
  revert start. induction envs as [|pe envs IH]; intros start; [simpl; lia|].
  intros [Hv Hc]. csimpl. destruct (Z.ltb_spec (as_u64 (pe_version pe)) from).
  - rewrite (IH (start + 1)) by done. lia.
  - lia.
Qed.

Lemma scan_batch_spec envs from batch :
  consecutive 1 (versions envs) ->
  scan_batch (frame_of <$> envs) from batch =
    frame_of <$> take (Z.to_nat batch) (drop (Z.to_nat (from - 1)) envs).
Proof.
  intros Hc. unfold scan_batch. rewrite (partition_point_consecutive _ _ 1) by done.
  rewrite fmap_take, fmap_drop. f_equal.
  destruct (decide (Z.to_nat (from - 1) <= length envs)%nat).
  - by rewrite Nat.min_l.
  - rewrite !drop_ge; rewrite ?length_fmap; lia || done.
Qed.

(** A cursor on stream [id], whose content was [envs0] when it was opened and is
    now [envs], delivers version [v] next. *)
Record read_state_at (envs0 envs : list PendingEnvelope) (s : ReadState) (id : StreamKey) (v : Z) : Prop := MkReadAt {
  ra_id : rs_stream_id s = id;
  ra_batch : 1 <= rs_batch_size s;
  ra_next : match rs_last_version s with
            | None => as_u64 (rs_from s) = v
            | Some w => as_u64 w + 1 = v /\ as_u64 w <= len envs
            end;
  ra_pos : 1 <= v;
  ra_buffer : rs_buffer s `prefix_of` (frame_of <$> drop (Z.to_nat (v - 1)) envs);
  ra_done : rs_done s = true -> len envs0 < v + len (rs_buffer s);
  ra_prev : from_option (fun p => p < v) True (rs_prev_version s);
}.

Lemma read_state_grows envs0 envs envs' s id v :
  envs `prefix_of` envs' -> read_state_at envs0 envs s id v -> read_state_at envs0 envs' s id v.
Proof.
  intros [k ->] [Hi Hb Hn Hp Hbuf Hd Hpr]. split; try done.
  - destruct (rs_last_version s); [|done]. rewrite len_app. pose proof (len_nonneg k). lia.
  - etrans; [exact Hbuf|]. rewrite drop_app, fmap_app. apply prefix_app_r. done.
Qed.

(** Yielding the head of the buffer. *)
Lemma yield_row_spec debug envs0 envs row rest s id v :
  stream_ok envs -> Forall fits envs -> read_state_at envs0 envs s id v -> rs_buffer s = row :: rest ->
  exists env s', yield_row debug row rest s = Returns (Some (Ok env), Some s') /\
    envs !! Z.to_nat (v - 1) = Some (from_persisted env) /\ persisted_ok env /\
    read_state_at envs0 envs s' id (v + 1).
Proof.
  intros (Hok & Hc & _) Hf [Hi Hb Hn Hp Hbuf Hd Hpr] E. rewrite E in *.
  destruct Hbuf as [k Hk]. destruct (drop (Z.to_nat (v - 1)) envs) as [|pe tl] eqn:Hdr; [done|].
  simpl in Hk. injection Hk as <- Hk.
  assert (envs !! Z.to_nat (v - 1) = Some pe) as Hl
    by (by rewrite <- (Nat.add_0_r (Z.to_nat (v - 1))), <- lookup_drop, Hdr).
  assert (drop (Z.to_nat (v + 1 - 1)) envs = tl) as Htl.
  { replace (Z.to_nat (v + 1 - 1)) with (Z.to_nat (v - 1) + 1)%nat by lia.
    by rewrite <- drop_drop, Hdr. }
  pose proof (stream_version _ _ _ Hc Hl) as Hver.
  pose proof (lookup_lt_Some _ _ _ Hl) as Hlt.
  rewrite Forall_forall in Hok, Hf.
  destruct (frame_reads_back pe) as (env & Hfe & Hpo & Hfp); [by apply Hok; eapply list_elem_of_lookup_2|
    by apply Hf; eapply list_elem_of_lookup_2|].
  assert (ps_version env = pe_version pe) as Hve by (by rewrite <- Hfp).
  assert (debug && from_option (fun prev => negb (prev <? sf_version (frame_of pe))) false (rs_prev_version s) = false) as Hdbg.
  { destruct debug, (rs_prev_version s) as [p|]; simpl in *; try done. apply negb_false_iff, Z.ltb_lt. lia. }
  unfold yield_row. rewrite Hdbg, Hfe. do 2 eexists. split_and!; [done|by rewrite Hl, Hfp|done|].
  split; simpl; try done; rewrite ?Hve; try lia.
  - unfold len. lia.
  - rewrite Htl. exists k. done.
  - intros Hdone. specialize (Hd Hdone). rewrite len_cons in Hd. lia.
Qed.

Lemma next_read_version_spec envs0 envs s id v :
  read_state_at envs0 envs s id v -> len envs < u64_max ->
  exists w, next_read_version s = Ok w /\ as_u64 w = v.
Proof.
  intros [_ _ Hn _ _ _ _] Hb. unfold next_read_version. destruct (rs_last_version s) as [w|]; [|eauto].
  destruct Hn as [Hn Hle]. destruct (next w) as [u|] eqn:E.
  - apply next_Some in E. exists u. split; [done|lia].
  - apply next_None in E. lia.
Qed.

(** The refill is the next page of the stream as it is now. *)
Lemma refill_spec l i envs0 s id v w :
  represents l i -> read_state_at envs0 (log_stream id l) s id v -> as_u64 w = v ->
  envs0 `prefix_of` log_stream id l -> rs_buffer s = [] ->
  let s' := refill i s w in
  read_state_at envs0 (log_stream id l) s' id v /\
  (rs_buffer s' = [] -> len envs0 < v).
Proof.
  intros Hr [Hi Hb Hn Hp _ _ Hpr] Hw [k Hpre] Hempty s'.
  set (envs := log_stream id l) in *.
  assert (rs_buffer s' = frame_of <$> take (Z.to_nat (rs_batch_size s)) (drop (Z.to_nat (v - 1)) envs)) as Hbuf.
  { unfold s', refill, set_buffer. simpl. rewrite Hi.
    pose proof (rep_streams _ _ Hr id) as Hs.
    destruct (streams i !! id) as [rows|]; simpl in Hs; unfold envs.
    - rewrite Hs, Hw. apply scan_batch_spec, (rep_versions _ _ Hr).
    - destruct (log_stream id l); [|done]. by rewrite drop_nil, take_nil. }
  assert (len (rs_buffer s') = Z.min (rs_batch_size s) (len envs - Z.min (v - 1) (len envs))) as Hlen.
  { rewrite Hbuf. unfold len. rewrite length_fmap, length_take, length_drop. lia. }
  assert (len envs0 <= len envs) as Hle by (rewrite Hpre, len_app; pose proof (len_nonneg k); lia).
  split.
  - split; simpl; try done.
    + change (rs_buffer s' `prefix_of` (frame_of <$> drop (Z.to_nat (v - 1)) envs)). rewrite Hbuf.
      exists (frame_of <$> drop (Z.to_nat (rs_batch_size s)) (drop (Z.to_nat (v - 1)) envs)).
      by rewrite <- fmap_app, take_drop.
    + change (len (rs_buffer s') <? rs_batch_size s = true -> len envs0 < v + len (rs_buffer s')).
      intros ?%Z.ltb_lt. lia.
  - intros E. rewrite E, len_nil in Hlen. lia.
Qed.

(** A cursor, finished or not. *)
Definition cursor_inv (envs0 envs : list PendingEnvelope) (c : option ReadState) (id : StreamKey) (v : Z) : Prop :=
  envs0 `prefix_of` envs /\
  match c with None => len envs0 < v | Some s => read_state_at envs0 envs s id v end.

Lemma poll_spec debug l i envs0 envs c id v :
  represents l i -> envs `prefix_of` log_stream id l -> cursor_inv envs0 envs c id v ->
  (exists env c', poll debug i c = Returns (Some (Ok env), c') /\
     log_stream id l !! Z.to_nat (v - 1) = Some (from_persisted env) /\
     persisted_ok env /\ cursor_inv envs0 (log_stream id l) c' id (v + 1)) \/
  (poll debug i c = Returns (None, None) /\ len envs0 < v).
Proof.
  intros Hr Hpre [H0 Hc]. destruct (log_stream_ok l i id Hr) as [Hok Hf].
  assert (envs0 `prefix_of` log_stream id l) as H0' by (by etrans).
  destruct c as [s|]; [|right; done].
  apply (read_state_grows _ _ _ _ _ _ Hpre) in Hc. unfold poll.
  assert (forall row rest s1, read_state_at envs0 (log_stream id l) s1 id v -> rs_buffer s1 = row :: rest ->
    exists env c', yield_row debug row rest s1 = Returns (Some (Ok env), c') /\
     log_stream id l !! Z.to_nat (v - 1) = Some (from_persisted env) /\
     persisted_ok env /\ cursor_inv envs0 (log_stream id l) c' id (v + 1)) as Hy.
  { intros row rest s1 H1 E1.
    destruct (yield_row_spec debug _ _ _ _ _ _ _ Hok Hf H1 E1) as (env & s' & ? & ? & ? & ?).
    exists env, (Some s'). done. }
  destruct (rs_buffer s) as [|row rest] eqn:E; [|left; by eapply Hy].
  destruct (rs_done s) eqn:Hd.
  { right. split; [done|]. pose proof (ra_done _ _ _ _ _ Hc Hd) as Hx. rewrite E, len_nil in Hx. lia. }
  destruct (next_read_version_spec _ _ _ _ _ Hc) as (w & -> & Hw); [by eapply stream_below_max|].
  cbv zeta.
  destruct (refill_spec _ _ _ _ _ _ w Hr Hc Hw H0' E) as [Hs' Hend].
  destruct (rs_buffer (refill i s w)) as [|row rest] eqn:E'.
  - right. split; [done|]. by apply Hend.
  - left. by eapply Hy.
Qed.

(** ** The interface *)

#[export] Instance inmemory_raw (debug : bool) : RawEventStore InMemoryStore := {
  SError := InMemoryStoreError;
  AllPos := InMemoryAllPos;
  Cursor := option ReadState;
  append := store_append;
  read_stream := store_read_stream;
  stream_next s c := poll debug (inner s) c;
}.

Definition store_represents (s : InMemoryStore) : Prop := represents (log_of (inner s)) (inner s).

Lemma store_append_spec s id expected b :
  store_represents s -> batch_ok b ->
  match store_append s id expected b with
  | (_, Panics) => False
  | (s', Returns (Err _)) => s' = s
  | (s', Returns (Ok p)) =>
      expected = head_version (len (log_stream id (log_of (inner s)))) /\
      represents (log_of (inner s) ++ tag_log id (PendingBatch.iter b)) (inner s')
  end.
Proof.
  intros Hr Hb. pose proof (append_inner_spec _ _ id expected b Hr Hb) as Hspec.
  unfold store_append. destruct (append_inner (inner s) id expected b) as [i [[p|e]|]]; [|by destruct s; simplify_eq/=|done].
  naive_solver.
Qed.

Lemma append_conflict_stale l s id expected b s' k wanted actual :
  represents l s -> consecutive (from_option as_u64 0 expected + 1) (versions (PendingBatch.iter b)) ->
  append_inner s id expected b = (s', Returns (Err (AppendConflict k wanted actual))) ->
  expected <> head_version (len (log_stream id l)).
Proof.
  intros Hr Hc E Heq. assert (0 <= len (log_stream id l) <= u64_max) as Hb.
  { destruct (log_stream_ok _ _ id Hr) as [(_ & _ & ?) _]. pose proof (len_nonneg (log_stream id l)). lia. }
  assert (from_option as_u64 0 expected = len (log_stream id l)) as Hex by (by apply head_version_raw).
  unfold append_inner in E. rewrite (current_len_spec l) in E by done.
  cbn [ok_or outcome_bind] in E. unfold validate_append_versions in E. fold (head_version (len (log_stream id l))) in E.
  rewrite bool_decide_true in E by done. cbn [negb] in E. rewrite Hex in Hc.
  apply (validate_sequence_Ok id) in Hc.
  destruct (validate_sequence _ _ _) as [[]|]; [|done]. cbn [map_err outcome_bind] in E.
  by destruct (stage_rows _ _ _) as [[[[? ?] ?]|]|].
Qed.

#[export] Instance inmemory_spec (debug : bool) : @RawEventStoreSpec InMemoryStore (inmemory_raw debug).
Proof.
  refine (Build_RawEventStoreSpec InMemoryStore (inmemory_raw debug)
    store_represents
    (fun s id => log_stream id (log_of (inner s)))
    (fun s0 s c id v =>
      cursor_inv (log_stream id (log_of (inner s0))) (log_stream id (log_of (inner s))) c id v)
    (fun _ _ => True)
    _ _ _ _ _ _ _ _); simpl.
  - intros s id Hr. by destruct (log_stream_ok _ _ id Hr).
  - intros s id expected b Hr Hb. pose proof (store_append_spec s id expected b Hr Hb).
    by destruct (store_append s id expected b) as [s' [[|]|]].
  - intros s id expected b s' p Hr Hb E. pose proof (store_append_spec s id expected b Hr Hb) as H.
    rewrite E in H. destruct H as [He Hr']. unfold store_represents.
    rewrite (represents_log_of _ _ Hr'). split_and!; [done|done|by rewrite log_stream_app, log_stream_tag|].
    intros id' ?. by rewrite log_stream_app, log_stream_tag_ne, app_nil_r.
  - intros s id expected b s' e Hr Hb E. pose proof (store_append_spec s id expected b Hr Hb) as H.
    rewrite E in H. subst s'. by split_and!; [|left|].
  - intros s id expected b Hr Hb _ Hne. exists (error_id id). unfold store_append.
    by rewrite (append_stale_conflict _ _ _ _ _ Hr Hne).
  - intros s id expected b s' l w a Hr _ Hc E. unfold store_append in E.
    destruct (append_inner (inner s) id expected b) as [i r] eqn:Ea.
    apply (append_conflict_stale _ _ _ _ _ i l w a Hr Hc). rewrite Ea. destruct r as [[|]|]; by simplify_eq/=.
  - intros s id from c Hr [= <-]. split; [done|].
    pose proof (version_range from).
    split; simpl; try done; [apply nz_range|lia|apply prefix_nil].
  - intros s0 s s' c id v Hr Hpre Hc. apply (poll_spec debug (log_of (inner s')) (inner s')) in Hc as [?|?]; eauto.
Defined.

(** ** Atomic appends *)

Lemma check_heads_Ok l s index ws :
  represents l s -> is_ok (check_heads s index ws) = true ->
  Forall (fun w => from_option as_u64 0 (planned_expected w) = len (log_stream (target w) l)) ws.
Proof.
  intros Hr. revert index. induction ws as [|w ws IH]; intros index; simpl; [done|].
  rewrite (current_len_spec l) by done. simpl.
  destruct (Z.eqb_spec (len (log_stream (target w) l)) (from_option as_u64 0 (planned_expected w))); simpl; [|done].
  intros. constructor; [done|by eapply IH].
Qed.

(** Staging and committing distinct runs that continue their streams. *)
Lemma stage_writes_spec l s last ws :
  represents l s -> Forall write_ok ws -> NoDup (target <$> ws) ->
  Forall (fun w => consecutive (len (log_stream (target w) l) + 1) (versions (PendingBatch.iter (batch w)))) ws ->
  match stage_writes (next_global_seq s) last ws with
  | Panics => False
  | Returns (Err _) => True
  | Returns (Ok (staged, last', seq')) =>
      represents (l ++ writes_log ws) (commit_staged s staged seq') /\
      (ws = [] -> last' = last) /\ (ws <> [] -> Pos.as_u64 last' = len l + len (writes_log ws))
  end.
Proof.
  revert l s last. induction ws as [|w ws IH]; intros l s last Hr Hok Hnd Hc; cbn [stage_writes].
  { unfold writes_log, commit_staged. simpl. rewrite app_nil_r. split_and!; try done. by destruct s. }
  apply Forall_cons in Hok as [Hw Hok]. apply Forall_cons in Hc as [Hcw Hc].
  rewrite fmap_cons in Hnd. apply NoDup_cons in Hnd as [Hni Hnd].
  pose proof (stage_rows_spec (target w) (next_global_seq s) last (PendingBatch.iter (batch w)) Hw) as Hst.
  destruct (stage_rows _ _ _) as [[[[rows last1] seq1]|e]|]; cbn [outcome_bind]; [|done|done].
  destruct Hst as (Hf & Hrows & Hidx & Hseq & _ & Hlast1).
  set (s1 := MkInner (extend_stream (target w) rows.*2 (streams s)) seq1 (index_rows (target w) rows (global_index s))).
  assert (represents (l ++ tag_log (target w) (PendingBatch.iter (batch w))) s1) as Hr1
    by (by apply represents_extend).
  specialize (IH _ s1 last1 Hr1 Hok Hnd). change (next_global_seq s1) with seq1 in IH.
  lapply IH; clear IH.
  2:{ rewrite Forall_forall in *. intros w' Hw'.
      rewrite log_stream_app, log_stream_tag_ne, app_nil_r; [by apply Hc|].
      intros E. apply Hni. rewrite <- E. by apply list_elem_of_fmap_2. }
  destruct (stage_writes seq1 last1 ws) as [[[[staged last'] seq']|e]|]; cbn [outcome_bind]; intros IH; [|done|done].
  - destruct IH as (Hrep & Hl0 & Hl1).
    unfold writes_log. rewrite bind_cons, app_assoc. fold (writes_log ws). split_and!; [done|done|].
    intros _. rewrite len_app. destruct (decide (ws = [])) as [->|Hne].
    + rewrite Hl0, Hlast1, (rep_next _ _ Hr) by done.
      change (len (writes_log [])) with 0. unfold tag_log, len. rewrite length_fmap. lia.
    + rewrite Hl1, len_app by done. lia.
Qed.

Lemma atomic_append_spec l s ws :
  represents l s -> Forall write_ok ws ->
  match atomic_append_inner s ws with
  | (_, Panics) => False
  | (s', Returns (Err _)) => s' = s
  | (s', Returns (Ok p)) =>
      represents (l ++ writes_log ws) s' /\ NoDup (target <$> ws) /\
      Forall (fun w => planned_expected w = head_version (len (log_stream (target w) l))) ws /\
      Pos.as_u64 <$> p = (if decide (ws = []) then None else Some (len l + len (writes_log ws)))
  end.
Proof.
  intros Hr Hok. unfold atomic_append_inner. case_bool_decide as Hws.
  { subst. unfold writes_log. simpl. rewrite app_nil_r. split_and!; try done. constructor. }
  destruct (validate_distinct_targets (target <$> ws)) as [[]|] eqn:Hd; cbn [map_err outcome_bind]; [|done].
  destruct (validate_atomic_runs ws) as [[]|] eqn:Hv; cbn [map_err outcome_bind]; [|done].
  destruct (check_heads s 0 ws) as [[]|] eqn:Hh; cbn [outcome_bind]; [|done].
  assert (NoDup (target <$> ws)) as Hnd.
  { apply (validate_distinct_Ok ∅ 0). unfold validate_distinct_targets in Hd. by rewrite Hd. }
  pose proof (validate_atomic_runs_Ok 0 ws) as Hruns. unfold validate_atomic_runs in Hv. rewrite Hv in Hruns.
  pose proof (check_heads_Ok l s 0 ws Hr) as Hheads. rewrite Hh in Hheads.
  specialize (Hruns eq_refl). specialize (Hheads eq_refl).
  pose proof (stage_writes_spec l s (next_global_seq s) ws Hr Hok Hnd) as Hst.
  assert (Forall (fun w => consecutive (len (log_stream (target w) l) + 1) (versions (PendingBatch.iter (batch w)))) ws) as Hc.
  { rewrite Forall_forall in *. intros w Hw. rewrite <- (Hheads w Hw). by apply Hruns. }
  specialize (Hst Hc).
  destruct (stage_writes _ _ _) as [[[[staged last'] seq']|e]|]; cbn [outcome_map_err map_err]; [|done|done].
  destruct Hst as (Hrep & _ & Hlast). split_and!; [done|done| |].
  - eapply Forall_impl; [exact Hheads|]. simpl. intros w Hw.
    apply head_version_raw; [|done]. pose proof (represents_bound _ _ Hr).
    pose proof (len_log_stream (target w) l). pose proof (len_nonneg (log_stream (target w) l)). lia.
  - rewrite decide_False by done. simpl. by rewrite Hlast.
Qed.

#[export] Instance inmemory_atomic (debug : bool) : @AtomicAppend InMemoryStore (inmemory_raw debug) :=
  Build_AtomicAppend InMemoryStore (inmemory_raw debug) store_atomic_append.

Lemma store_atomic_spec s ws :
  store_represents s -> Forall write_ok ws ->
  match store_atomic_append s ws with
  | (_, Panics) => False
  | (s', Returns (Err _)) => s' = s
  | (s', Returns (Ok p)) =>
      represents (log_of (inner s) ++ writes_log ws) (inner s') /\ NoDup (target <$> ws) /\
      Forall (fun w => planned_expected w = head_version (len (log_stream (target w) (log_of (inner s))))) ws
  end.
Proof.
  intros Hr Hok. pose proof (atomic_append_spec _ _ ws Hr Hok) as Hspec. unfold store_atomic_append.
  destruct (atomic_append_inner (inner s) ws) as [i [[p|e]|]]; [|by destruct s; simplify_eq/=|done].
  naive_solver.
Qed.

#[export] Instance inmemory_atomic_spec (debug : bool) :
  @AtomicAppendSpec InMemoryStore (inmemory_raw debug) (inmemory_spec debug) (inmemory_atomic debug).
Proof.
  split; simpl.
  - intros s ws Hr Hok. pose proof (store_atomic_spec s ws Hr Hok).
    by destruct (store_atomic_append s ws) as [s' [[|]|]].
  - intros s ws s' p Hr Hok E. pose proof (store_atomic_spec s ws Hr Hok) as H. rewrite E in H.
    destruct H as (Hr' & Hnd & He). unfold store_represents. rewrite (represents_log_of _ _ Hr').
    split_and!; try done. intros id. by rewrite log_stream_app, log_stream_writes.
  - intros s ws s' e Hr Hok E. pose proof (store_atomic_spec s ws Hr Hok) as H. rewrite E in H. subst s'.
    split; [done|by left].
Qed.

(** ** Reads that interleave with appends *)

(** The stores a cursor is polled against, each at least as long as the one
    before; [lf] is the last log. *)
Inductive grows : Log -> list Inner -> Log -> Prop :=
| grows_nil l : grows l [] l
| grows_cons l l' i sts lf : l `prefix_of` l' -> represents l' i -> grows l' sts lf -> grows l (i :: sts) lf.

Lemma grows_prefix l sts lf : grows l sts lf -> l `prefix_of` lf.
Proof. induction 1; [done|]. by etrans. Qed.

(** The outcomes of successive polls; [None] if one of them panicked. *)
Fixpoint drive (debug : bool) (sts : list Inner) (c : option ReadState)
  : option (list (option (result PersistedEnvelope InMemoryStoreError))) :=
  match sts with
  | [] => Some []
  | i :: sts =>
      match poll debug i c with
      | Panics => None
      | Returns (o, c') => cons o <$> drive debug sts c'
      end
  end.

Lemma drive_finished debug sts : drive debug sts None = Some (replicate (length sts) None).
Proof. induction sts as [|i sts IH]; [done|]. simpl. by rewrite IH. Qed.

(** What a list of poll outcomes delivers of [tail], the events from the starting
    point on: a prefix, in order, then the end of the stream and nothing more. *)
Definition delivers {A B} (view : A -> B) (tail : list B) (enough : Z -> Prop)
  (outs : list (option (result A InMemoryStoreError))) : Prop :=
  exists xs m, outs = (Some ∘ Ok <$> xs) ++ replicate m None /\
    view <$> xs `prefix_of` tail /\ ((0 < m)%nat -> enough (len xs)).

Lemma drop_lookup_cons {A} (l : list A) n x : l !! n = Some x -> drop n l = x :: drop (S n) l.
Proof. apply drop_S. Qed.

Lemma drive_spec debug l sts lf envs0 c id v :
  grows l sts lf -> cursor_inv envs0 (log_stream id l) c id v -> 1 <= v ->
  exists outs, drive debug sts c = Some outs /\ length outs = length sts /\
    delivers from_persisted (drop (Z.to_nat (v - 1)) (log_stream id lf))
      (fun k => len envs0 < v + k) outs.
Proof.
  intros Hg. revert c v. induction Hg as [l|l l' i sts lf Hpre Hr Hg IH]; intros c v Hc Hv; simpl.
  { exists []. split_and!; [done..|]. exists [], O. split_and!; [done|apply prefix_nil|lia]. }
  destruct (poll_spec debug l' i envs0 _ c id v Hr (log_stream_prefix id _ _ Hpre) Hc)
    as [(env & c' & -> & Hl & _ & Hc')|[-> Hend]].
  - destruct (IH c' (v + 1)) as (outs & -> & Hlen & xs & m & -> & Hxs & Hm); [done|lia|].
    eexists. split_and!; [done|simpl; lia|]. exists (env :: xs), m. split_and!; [done| |].
    + rewrite (drop_lookup_cons _ _ (from_persisted env)).
      * rewrite fmap_cons. apply prefix_cons. by replace (S (Z.to_nat (v - 1))) with (Z.to_nat (v + 1 - 1)) by lia.
      * eapply prefix_lookup_Some; [exact Hl|]. apply log_stream_prefix. by eapply grows_prefix.
    + intros Hm'. specialize (Hm Hm'). rewrite len_cons. lia.
  - rewrite drive_finished. eexists. split_and!; [done|simpl; by rewrite length_replicate|].
    exists [], (S (length sts)). split_and!; [done|apply prefix_nil|]. intros _. rewrite len_nil. lia.
Qed.

(** C21: however appends interleave with the polls of a per-stream read, the
    read delivers the stream's events from the inclusive starting version on, in
    version order, without gap, repeat or reordering across page boundaries; it
    ends only after everything the stream held when it was opened, stays ended,
    and neither panics (its monotonicity assertion included) nor errs. *)
Theorem paginated_read_exact debug l s sts lf id from c :
  represents l (inner s) -> grows l sts lf -> store_read_stream s id from = Ok c ->
  exists outs, drive debug sts c = Some outs /\ length outs = length sts /\
    delivers from_persisted (drop (Z.to_nat (as_u64 from - 1)) (log_stream id lf))
      (fun k => len (log_stream id l) < as_u64 from + k) outs.
Proof.
  intros Hr Hg [= <-]. pose proof (version_range from).
  apply (drive_spec debug l sts lf (log_stream id l)); [done| |lia].
  split; [done|]. split; simpl; try done; [apply nz_range|lia|apply prefix_nil].
Qed.

(** ** The [$all] read *)

Lemma btree_after_index start l idx p :
  index_of start l idx -> start <= Pos.as_u64 p + 1 ->
  btree_after (Some p) idx = drop (Z.to_nat (Pos.as_u64 p + 1 - start)) idx.
Proof.
  unfold btree_after. revert start idx. induction l as [|[k pe] l IH]; intros start [|[q e] idx]; simpl; try done.
  { by rewrite drop_nil. }
  intros (Hq & -> & Hi) Hle. rewrite filter_cons. simpl.
  destruct (decide (Pos.as_u64 p < Pos.as_u64 q)).
  - replace (Z.to_nat (Pos.as_u64 p + 1 - start)) with O by lia. simpl. f_equal.
    clear IH Hle. assert (Pos.as_u64 p < start + 1) as Hlt by lia. clear Hq.
    revert start idx Hi Hlt. induction l as [|[k' pe'] l IH]; intros start [|[q' e'] idx]; simpl; try done.
    intros (Hq' & _ & Hi) Hlt. rewrite filter_cons, decide_True by (simpl; lia). f_equal.
    apply (IH (start + 1)); [done|lia].
  - replace (Z.to_nat (Pos.as_u64 p + 1 - start)) with (S (Z.to_nat (Pos.as_u64 p + 1 - (start + 1)))) by lia.
    simpl. apply IH; [done|lia].
Qed.

Lemma index_of_lookup start l idx i p k f :
  index_of start l idx -> idx !! i = Some (p, (k, f)) ->
  exists pe, l !! i = Some (k, pe) /\ f = frame_of pe /\ Pos.as_u64 p = start + Z.of_nat i.
Proof.
  revert start idx i. induction l as [|[k' pe] l IH]; intros start [|[q e] idx] i; simpl; try done.
  intros (Hq & -> & Hi). destruct i as [|i]; simpl.
  - intros [= -> <- <-]. exists pe. split_and!; [done|done|lia].
  - intros (pe' & ? & ? & ?)%(IH (start + 1)); [|done]. exists pe'. split_and!; [done|done|lia].
Qed.

Lemma index_of_length start l idx : index_of start l idx -> length idx = length l.
Proof.
  revert start idx. induction l as [|[k pe] l IH]; intros start [|[q e] idx]; simpl; try done.
  intros (_ & _ & ?%IH). lia.
Qed.

(** Positions are determined by the log, so an index only grows at its end. *)
Lemma index_of_prefix start l l' idx idx' :
  index_of start l idx -> index_of start l' idx' -> l `prefix_of` l' -> idx `prefix_of` idx'.
Proof.
  revert start l' idx idx'. induction l as [|[k pe] l IH]; intros start l' [|[q e] idx] idx'; simpl; try done.
  { intros _ _ _. apply prefix_nil. }
  intros (Hq & -> & Hi) Hi' [m ->]. destruct idx' as [|[q' e'] idx']; simpl in Hi'; [done|].
  destruct Hi' as (Hq' & -> & Hi'). replace q' with q by (apply pos_inj; lia).
  apply prefix_cons. eapply IH; [done|done|]. by exists m.
Qed.

(** The cursor, last polled against index [idx] and opened on a log of [n0]
    events, has delivered up to position [a]. *)
Record global_state_at (n0 : Z) (idx : btree (StreamKey * StoredFrame)) (s : GlobalReadState) (a : Z) : Prop := MkGlobalAt {
  ga_batch : 1 <= gs_batch_size s;
  ga_after : from_option Pos.as_u64 0 (gs_after s) = a;
  ga_buffer : gs_buffer s `prefix_of` drop (Z.to_nat a) idx;
  ga_done : gs_done s = true -> n0 <= a + len (gs_buffer s);
}.

Definition global_inv (n0 : Z) (idx : btree (StreamKey * StoredFrame)) (c : option GlobalReadState) (a : Z) : Prop :=
  match c with None => n0 <= a | Some s => global_state_at n0 idx s a end.

(** An [$all] item as the log sees it. *)
Definition item_view (x : AllItem) : Z * StreamKey * PendingEnvelope :=
  (Pos.as_u64 x.1.1, x.1.2, from_persisted x.2).

(** The log with its positions. *)
Definition log_view (l : Log) : list (Z * StreamKey * PendingEnvelope) :=
  imap (fun i e => (1 + Z.of_nat i, e.1, e.2)) l.

Lemma yield_all_spec n0 l i e rest s a :
  represents l i -> global_state_at n0 (global_index i) s a -> gs_buffer s = e :: rest ->
  exists x c', yield_all e rest s = (Some (Ok x), c') /\
    log_view l !! Z.to_nat a = Some (item_view x) /\ global_inv n0 (global_index i) c' (a + 1).
Proof.
  intros Hr [Hb Ha Hbuf Hd] E. rewrite E in *. destruct e as [p [k f]].
  assert (0 <= a) by (destruct (gs_after s) as [q|]; simpl in Ha; [pose proof (pos_range q)|]; lia).
  destruct Hbuf as [tl Htl].
  assert (global_index i !! Z.to_nat a = Some (p, (k, f))) as Hl
    by (rewrite <- (Nat.add_0_r (Z.to_nat a)), <- lookup_drop, Htl; done).
  destruct (index_of_lookup _ _ _ _ _ _ _ (rep_index _ _ Hr) Hl) as (pe & Hpe & -> & Hp).
  pose proof (rep_ok _ _ Hr) as Hok. rewrite Forall_lookup in Hok. destruct (Hok _ _ Hpe) as [Hpo Hf]. simpl in *.
  destruct (frame_reads_back pe Hpo Hf) as (env & -> & _ & Hfp). do 2 eexists. split_and!; [done| |].
  - unfold log_view, item_view. rewrite list_lookup_imap, Hpe. simpl. rewrite Hp, Hfp. by rewrite Z2Nat.id by done.
  - split; simpl; try done; [lia| |].
    + exists tl. replace (Z.to_nat (a + 1)) with (Z.to_nat a + 1)%nat by lia. by rewrite <- drop_drop, Htl.
    + intros Hdone. specialize (Hd Hdone). rewrite len_cons in Hd. lia.
Qed.

Lemma global_refill_spec n0 l i s a :
  represents l i -> global_state_at n0 (global_index i) s a -> n0 <= len l ->
  global_state_at n0 (global_index i) (global_refill i s) a /\
  (gs_buffer (global_refill i s) = [] -> n0 <= a).
Proof.
  intros Hr [Hb Ha _ _] Hn.
  assert (0 <= a) by (destruct (gs_after s) as [q|]; simpl in Ha; [pose proof (pos_range q)|]; lia).
  assert (btree_after (gs_after s) (global_index i) = drop (Z.to_nat a) (global_index i)) as Haft.
  { destruct (gs_after s) as [q|]; simpl in Ha; subst a; [|done].
    rewrite (btree_after_index 1 l) by (apply (rep_index _ _ Hr) || (pose proof (pos_range q); lia)).
    by replace (Pos.as_u64 q + 1 - 1) with (Pos.as_u64 q) by lia. }
  pose proof (index_of_length _ _ _ (rep_index _ _ Hr)) as Hil.
  set (buf := take (Z.to_nat (gs_batch_size s)) (drop (Z.to_nat a) (global_index i))).
  assert (len buf = Z.min (gs_batch_size s) (len l - Z.min a (len l))) as Hlen.
  { unfold buf, len in *. rewrite length_take, length_drop. lia. }
  unfold global_refill. rewrite Haft. fold buf. split; [split; simpl; try done|simpl].
  - exists (drop (Z.to_nat (gs_batch_size s)) (drop (Z.to_nat a) (global_index i))). unfold buf. by rewrite take_drop.
  - intros ?%Z.ltb_lt. lia.
  - intros E. rewrite E, len_nil in Hlen. lia.
Qed.

Lemma poll_all_spec n0 l i idx c a :
  represents l i -> idx `prefix_of` global_index i -> n0 <= len l -> global_inv n0 idx c a ->
  (exists x c', poll_all i c = (Some (Ok x), c') /\ log_view l !! Z.to_nat a = Some (item_view x) /\
     global_inv n0 (global_index i) c' (a + 1)) \/
  (poll_all i c = (None, None) /\ n0 <= a).
Proof.
  intros Hr [tl Htl] Hn Hc. destruct c as [s|]; [|by right].
  assert (global_state_at n0 (global_index i) s a) as Hs.
  { destruct Hc as [Hb Ha Hbuf Hd]. split; try done. etrans; [exact Hbuf|]. rewrite Htl, drop_app. by apply prefix_app_r. }
  unfold poll_all. destruct (gs_buffer s) as [|e rest] eqn:E; [|left; by eapply yield_all_spec].
  destruct (gs_done s) eqn:Hd.
  { right. split; [done|]. pose proof (ga_done _ _ _ _ Hs Hd) as Hx. rewrite E, len_nil in Hx. lia. }
  destruct (global_refill_spec _ _ _ _ _ Hr Hs Hn) as [Hs' Hend].
  cbv zeta. destruct (gs_buffer (global_refill i s)) as [|e rest] eqn:E'; [right|left].
  - split; [done|]. by apply Hend.
  - by eapply yield_all_spec.
Qed.

Fixpoint drive_all (sts : list Inner) (c : option GlobalReadState)
  : list (option (result AllItem InMemoryStoreError)) :=
  match sts with
  | [] => []
  | i :: sts => let '(o, c') := poll_all i c in o :: drive_all sts c'
  end.

Lemma drive_all_spec l i0 sts lf n0 c a :
  represents l i0 -> grows l sts lf -> n0 <= len l -> 0 <= a -> global_inv n0 (global_index i0) c a ->
  delivers item_view (drop (Z.to_nat a) (log_view lf)) (fun k => n0 <= a + k) (drive_all sts c).
Proof.
  intros Hr Hg. revert i0 Hr c a. induction Hg as [l|l l' i sts lf Hpre Hr' Hg IH]; intros i0 Hr c a Hn Ha Hc; simpl.
  { exists [], O. split_and!; [done|apply prefix_nil|lia]. }
  assert (n0 <= len l') as Hn' by (destruct Hpre as [m ->]; rewrite len_app; pose proof (len_nonneg m); lia).
  pose proof (index_of_prefix _ _ _ _ _ (rep_index _ _ Hr) (rep_index _ _ Hr') Hpre) as Hidx.
  destruct (poll_all_spec n0 l' i _ c a Hr' Hidx Hn' Hc) as [(x & c' & -> & Hl & Hc')|[-> Hend]].
  - destruct (IH i Hr' c' (a + 1)) as (xs & m & -> & Hxs & Hm); [done|lia|done|].
    exists (x :: xs), m. split_and!; [done| |].
    + rewrite (drop_lookup_cons _ _ (item_view x)).
      * rewrite fmap_cons. apply prefix_cons. by replace (S (Z.to_nat a)) with (Z.to_nat (a + 1)) by lia.
      * eapply prefix_lookup_Some; [exact Hl|]. destruct (grows_prefix _ _ _ Hg) as [m' ->].
        unfold log_view. rewrite imap_app. by eexists.
    + intros Hm'. specialize (Hm Hm'). rewrite len_cons. lia.
  - assert (drive_all sts None = replicate (length sts) None) as ->.
    { clear. induction sts as [|i sts IH]; [done|]. simpl. by rewrite IH. }
    exists [], (S (length sts)). split_and!; [done|apply prefix_nil|]. intros _. rewrite len_nil. lia.
Qed.

(** The [$all] read delivers the log strictly after the given position,
    every event once, in position order, each tagged with the position and the
    stream it was appended under, however appends interleave with its polls; it
    ends only after everything the store held when it was opened. *)
Theorem paginated_read_all_exact l s sts lf from c :
  represents l (inner s) -> grows l sts lf -> read_all s from = Ok c ->
  let a := from_option Pos.as_u64 0 from in
  delivers item_view (drop (Z.to_nat a) (log_view lf)) (fun k => len l <= a + k) (drive_all sts c).
Proof.
  intros Hr Hg [= <-] a. apply (drive_all_spec l (inner s) sts lf (len l)); [done|done|done| |].
  - unfold a. destruct from as [p|]; simpl; [pose proof (pos_range p)|]; lia.
  - split; simpl; [apply nz_range|done|apply prefix_nil|done].
Qed.

(** [atomic_append_many] writes every run or nothing: it commits only
    when the targets are distinct and each run continues its stream's committed
    head, the log then grows by all runs in order and the position returned is the
    last one; otherwise the store is as it was, and it never panics. *)
Theorem atomic_append_all_or_nothing l s ws s' r :
  represents l s -> Forall write_ok ws -> atomic_append_inner s ws = (s', r) ->
  (exists p, r = Returns (Ok p) /\ represents (l ++ writes_log ws) s' /\ NoDup (target <$> ws) /\
     Forall (fun w => planned_expected w = head_version (len (log_stream (target w) l))) ws /\
     Pos.as_u64 <$> p = (if decide (ws = []) then None else Some (len l + len (writes_log ws)))) \/
  (exists e, r = Returns (Err e) /\ s' = s).
Proof.
  intros Hr Hok E. pose proof (atomic_append_spec l s ws Hr Hok) as Hspec. rewrite E in Hspec.
  destruct r as [[p|e]|]; naive_solver.
Qed.

End store.

(** ** Witnesses *)

Definition sample_key : StreamKey := MkStreamKey [byte.of_Z 97].
Definition sample_batch : PendingBatch.t := PendingBatch.of_one (sample_envelope INITIAL).

Lemma sample_batch_ok : batch_ok sample_batch.
Proof. constructor; [apply sample_envelope_ok|constructor]. Qed.

Lemma append_refines_log_witness :
  exists s' p, append_inner (T := target64) (AS := list_array_string) inner_default sample_key None sample_batch
    = (s', Returns (Ok p)).
Proof.
  apply (append_refines_log (T := target64) (AS := list_array_string) [] inner_default sample_key None sample_batch).
  - apply represents_default.
  - apply sample_batch_ok.
  - split_and!; try done. constructor; [vm_compute; discriminate|constructor].
Defined.

Lemma atomic_append_all_or_nothing_witness :
  exists s' p, atomic_append_inner (T := target64) inner_default
    [MkPlanned sample_key None (sample_envelope INITIAL) []] = (s', Returns (Ok (Some p))) /\
  represents (writes_log [MkPlanned sample_key None (sample_envelope INITIAL) []]) s'.
Proof.
  destruct (atomic_append_inner (T := target64) inner_default
    [MkPlanned sample_key None (sample_envelope INITIAL) []]) as [s' r] eqn:E.
  destruct (atomic_append_all_or_nothing (T := target64) [] inner_default
    [MkPlanned sample_key None (sample_envelope INITIAL) []] s' r) as [(p & -> & Hr & _ & _ & Hp)|(e & -> & _)].
  - apply represents_default.
  - constructor; [apply sample_batch_ok|constructor].
  - exact E.
  - destruct p as [p|]; [|discriminate Hp]. exists s', p. split; [reflexivity|exact Hr].
  - exfalso. apply (f_equal snd) in E. vm_compute in E. discriminate E.
Defined.

Definition sample_store : InMemoryStore (W := counter_watch) := store_new (W := counter_watch).

(** The store after one append. *)
Definition sample_inner : Inner :=
  (append_inner (T := target64) (AS := list_array_string) inner_default sample_key None sample_batch).1.

Lemma sample_inner_represents : represents [(sample_key, sample_envelope INITIAL)] sample_inner.
Proof.
  pose proof (append_inner_spec (T := target64) (AS := list_array_string) [] inner_default sample_key None
    sample_batch represents_default sample_batch_ok) as H.
  unfold sample_inner. destruct (append_inner _ _ _ _) as [s' r] eqn:E.
  destruct r as [[p|e]|]; [by destruct H as (_ & ? & _)| |done].
  apply (f_equal snd) in E. vm_compute in E. discriminate E.
Qed.

(** An empty store that is appended to between the polls. *)
Lemma sample_grows :
  grows [] [sample_inner; sample_inner] [(sample_key, sample_envelope INITIAL)].
Proof.
  econstructor; [apply prefix_nil|apply sample_inner_represents|].
  econstructor; [reflexivity|apply sample_inner_represents|constructor].
Qed.

Lemma paginated_read_exact_witness :
  exists outs, drive true [sample_inner; sample_inner]
    (Some (MkReadState sample_key INITIAL None 256 [] false None)) = Some outs /\ length outs = 2%nat /\
    delivers from_persisted [sample_envelope INITIAL] (fun k => 0 < 1 + k) outs.
Proof.
  apply (paginated_read_exact (W := counter_watch) true [] sample_store [sample_inner; sample_inner]
    [(sample_key, sample_envelope INITIAL)] sample_key INITIAL).
  - apply represents_default.
  - apply sample_grows.
  - reflexivity.
Defined.

Lemma paginated_read_all_exact_witness :
  delivers item_view [(1, sample_key, sample_envelope INITIAL)] (fun k => 0 <= 0 + k)
    (drive_all [sample_inner; sample_inner] (Some (MkGlobalReadState None 256 [] false))).
Proof.
  apply (paginated_read_all_exact (W := counter_watch) [] sample_store [sample_inner; sample_inner]
    [(sample_key, sample_envelope INITIAL)] None).
  - apply represents_default.
  - apply sample_grows.
  - reflexivity.
Defined.

Definition sample_section : StreamSection := MkSection [byte.of_Z 97] [BlockEvent sample_persisted].

Lemma sample_section_ok : Forall section_ok [sample_section].
Proof. constructor; [constructor; [apply sample_persisted_ok|constructor]|constructor]. Qed.

Section import_witness.
#[local] Existing Instance counter_watch.
#[local] Existing Instance list_array_string.
#[local] Existing Instance target64.

Lemma import_per_stream_reports_truth_witness :
  exists s' rep, import_per_stream (R := inmemory_raw true) sample_store [sample_section] MkStreamKey
      = (s', Returns (Ok rep)) /\
    Forall2 (section_imported (R := inmemory_raw true) (RS := inmemory_spec true) sample_store s')
      (routed (routes [sample_section] MkStreamKey)) (report_streams rep).
Proof.
  destruct (import_per_stream (R := inmemory_raw true) sample_store [sample_section] MkStreamKey)
    as [s' [[rep|e]|]] eqn:E.
  - exists s', rep. split; [reflexivity|].
    apply (import_per_stream_reports_truth (RS := inmemory_spec true) sample_store [sample_section] MkStreamKey s' rep).
    + apply represents_default.
    + apply sample_section_ok.
    + exact E.
  - exfalso. apply (f_equal snd) in E. vm_compute in E. discriminate E.
  - exfalso. apply (f_equal snd) in E. vm_compute in E. discriminate E.
Defined.

Lemma import_whole_chunk_all_or_nothing_witness :
  exists s' rep, import_whole_chunk (R := inmemory_raw true) (AA := inmemory_atomic true) sample_store
      [sample_section] MkStreamKey = (s', Returns (Ok rep)) /\ all_complete rep = true.
Proof.
  destruct (import_whole_chunk (R := inmemory_raw true) (AA := inmemory_atomic true) sample_store
    [sample_section] MkStreamKey) as [s' r] eqn:E.
  destruct (import_whole_chunk_all_or_nothing (RS := inmemory_spec true) (AAS := inmemory_atomic_spec true)
    sample_store [sample_section] MkStreamKey s' r) as [_ [(e & -> & _)|(rep & -> & Hc & _)]].
  - apply represents_default.
  - apply sample_section_ok.
  - exact E.
  - exfalso. apply (f_equal snd) in E. vm_compute in E. discriminate E.
  - exists s', rep. split; [reflexivity|exact Hc].
Defined.

End import_witness.
