(* ===== verification/Subscription.v ===== *)
(** * Live subscriptions (crates/store/src/subscription.rs, subscription_cursor.rs,
      catchup.rs, step.rs, wake.rs)

    The catch-up-then-live-tail loop.  [live_step] is one turn of the loop between
    two points where it awaits something, so that commits and wakes by other tasks
    can fall between any two turns; [sys_step] is that interleaving.  The loop is
    generic in its target, the [Catchup] interface; [stream_catchup] and
    [all_catchup] are the two targets over a raw store and its wake source. *)

From S2P Require Import Prelude Version Value Wire Envelope RawStore.

(** ** Step (step.rs) *)

Inductive Step (A : Type) : Type :=
| StepEvent (x : A)
| StepCaughtUp.
Arguments StepEvent {A} _.
Arguments StepCaughtUp {A}.

Module Step.
Definition event {A} (s : Step A) : option A := match s with StepEvent x => Some x | StepCaughtUp => None end.
Definition is_caught_up {A} (s : Step A) : bool := match s with StepCaughtUp => true | StepEvent _ => false end.
Definition map {A B} (f : A -> B) (s : Step A) : Step B :=
  match s with StepEvent x => StepEvent (f x) | StepCaughtUp => StepCaughtUp end.
End Step.

(** ** The seams *)

(** The [WakeSource] and [WakeRegistration] traits; [wake_ready] tells whether a
    future returned by [arm] has resolved. *)
Class WakeSource (S : Type) := {
  Registration : Type;
  WError : Type;
  WWait : Type;
  wake_register : S -> option bytes -> S * result Registration WError;
  wake_arm : S -> Registration -> WWait;
  wake_ready : S -> WWait -> bool;
}.
Arguments Registration S {_}.
Arguments WError S {_}.
Arguments WWait S {_}.

(** The [Catchup] trait: a scan strictly after a position, fused with a wait. *)
Class Catchup (S : Type) := {
  CPosition : Type;
  Item : Type;
  Scan : Type;
  CError : Type;
  CWait : Type;
  read_after : S -> option CPosition -> result Scan CError;
  scan_next : S -> Scan -> panicking (option (result Item CError) * Scan);
  position_of : Item -> CPosition;
  catchup_arm : S -> CWait;
  catchup_ready : S -> CWait -> bool;
}.
Arguments CPosition S {_}.
Arguments Item S {_}.
Arguments Scan S {_}.
Arguments CError S {_}.
Arguments CWait S {_}.

(** ** The loop (subscription_cursor.rs) *)

Definition CATCHUP_CHUNK : Z := 1024.

Section live.
Context {T : Target} {S : Type} {C : Catchup S}.

(** Where the loop is between two awaits: at its top; armed, about to open the
    confirming scan; about to poll that scan; or parked on the armed wait. *)
Inductive Pc : Type :=
| Top
| Armed (wait : CWait S)
| Probing (wait : CWait S) (probe : Scan S)
| Parked (wait : CWait S).

Record LiveState : Type := MkLive {
  live_from : option (CPosition S);
  live_scan : option (Scan S);
  drained_in_chunk : Z;
  caught_up : bool;
  pc : Pc;
}.

Definition live_stepped (from : option (CPosition S)) : LiveState := MkLive from None 0 false Top.

Notation Output := (result (Step (Item S)) (CError S)).

(** A turn: what it yields to the consumer, if anything, and the state it leaves.
    [None] when the loop is parked on a wait that is not ready. *)
Definition live_step (s : S) (l : LiveState) : panicking (option (option Output * LiveState)) :=
  match pc l with
  | Top =>
      match live_scan l with
      | None =>
          match read_after s (live_from l) with
          | Ok scan => Returns (Some (None, MkLive (live_from l) (Some scan) 0 (caught_up l) Top))
          | Err e => Returns (Some (Some (Err e), l))
          end
      | Some scan =>
          match scan_next s scan with
          | Panics => Panics
          | Returns (Some (Ok item), scan) =>
              (* overflow panics in builds with overflow checks *)
              match checked_add usize_max (drained_in_chunk l) 1 with
              | None => Panics
              | Some drained =>
                  let keep := if CATCHUP_CHUNK <=? drained then None else Some scan in
                  Returns (Some (Some (Ok (StepEvent item)),
                    MkLive (Some (position_of item)) keep drained (caught_up l) Top))
              end
          | Returns (Some (Err e), _) =>
              Returns (Some (Some (Err e), MkLive (live_from l) None (drained_in_chunk l) (caught_up l) Top))
          | Returns (None, _) =>
              Returns (Some (None,
                MkLive (live_from l) None (drained_in_chunk l) (caught_up l) (Armed (catchup_arm s))))
          end
      end
  | Armed wait =>
      match read_after s (live_from l) with
      | Ok probe =>
          Returns (Some (None, MkLive (live_from l) (live_scan l) (drained_in_chunk l) (caught_up l) (Probing wait probe)))
      | Err e =>
          Returns (Some (Some (Err e), MkLive (live_from l) (live_scan l) (drained_in_chunk l) (caught_up l) Top))
      end
  | Probing wait probe =>
      match scan_next s probe with
      | Panics => Panics
      | Returns (Some (Ok item), probe) =>
          Returns (Some (Some (Ok (StepEvent item)),
            MkLive (Some (position_of item)) (Some probe) 1 (caught_up l) Top))
      | Returns (Some (Err e), _) =>
          Returns (Some (Some (Err e), MkLive (live_from l) (live_scan l) (drained_in_chunk l) (caught_up l) Top))
      | Returns (None, _) =>
          if caught_up l
          then Returns (Some (None, MkLive (live_from l) (live_scan l) (drained_in_chunk l) true (Parked wait)))
          else Returns (Some (Some (Ok StepCaughtUp),
                 MkLive (live_from l) (live_scan l) (drained_in_chunk l) true Top))
      end
  | Parked wait =>
      if catchup_ready s wait
      then Returns (Some (None, MkLive (live_from l) (live_scan l) (drained_in_chunk l) (caught_up l) Top))
      else Returns None
  end.

(** The loop on its own for at most [n] turns: what it yields, and where it ends. *)
Fixpoint run_alone (n : nat) (s : S) (l : LiveState) : panicking (list Output * LiveState) :=
  match n with
  | O => Returns ([], l)
  | Datatypes.S n =>
      match live_step s l with
      | Panics => Panics
      | Returns None => Returns ([], l)
      | Returns (Some (o, l)) =>
          match run_alone n s l with
          | Panics => Panics
          | Returns (os, l) => Returns (from_option (fun o => [o]) [] o ++ os, l)
          end
      end
  end.

(** ** What a target promises

    Its events, in order; [index from] is how many of them are at or before [from].
    [scan_at s0 s c a]: the scan, opened when the store was [s0] and last polled
    when it was [s], has delivered up to the [a]-th event.  [grows] is what other
    tasks may do; while [owed] holds, a commit to the target has not yet been
    announced. *)
Class CatchupSpec := {
  EventView : Type;
  view : Item S -> EventView;
  catchup_inv : S -> Prop;
  events : S -> list EventView;
  index : option (CPosition S) -> Z;
  grows : S -> S -> Prop;
  owed : S -> Prop;
  scan_at : S -> S -> Scan S -> Z -> Prop;
  grows_refl s : grows s s;
  grows_trans s1 s2 s3 : grows s1 s2 -> grows s2 s3 -> grows s1 s3;
  grows_inv s s' : catchup_inv s -> grows s s' -> catchup_inv s';
  grows_events s s' : catchup_inv s -> grows s s' -> events s `prefix_of` events s';
  index_nonneg p : 0 <= index p;
  read_after_opens s from c : catchup_inv s -> read_after s from = Ok c -> scan_at s s c (index from);
  scan_next_spec s0 s s' c a :
    catchup_inv s -> grows s s' -> scan_at s0 s c a ->
    (exists x c', scan_next s' c = Returns (Some (Ok x), c') /\ events s' !! Z.to_nat a = Some (view x) /\
       index (Some (position_of x)) = a + 1 /\ scan_at s0 s' c' (a + 1)) \/
    (exists c', scan_next s' c = Returns (None, c') /\ len (events s0) <= a);
  arm_ready s0 s :
    catchup_inv s0 -> grows s0 s -> ~ owed s -> events s <> events s0 ->
    catchup_ready s (catchup_arm s0) = true;
}.
End live.
Arguments Pc S {_}.
Arguments LiveState S {_}.
Arguments CatchupSpec S {_}.

Section correctness.
Context {T : Target} {S : Type} {C : Catchup S} {CS : CatchupSpec S}.

Notation Output := (result (Step (Item S)) (CError S)).

(** The loop among the activity of other tasks. *)
Inductive sys_steps : S * LiveState S -> list Output -> S * LiveState S -> Prop :=
| sys_done z : sys_steps z [] z
| sys_env s s' l os z : grows s s' -> sys_steps (s', l) os z -> sys_steps (s, l) os z
| sys_turn s l o l' os z :
    live_step s l = Returns (Some (o, l')) -> sys_steps (s, l') os z ->
    sys_steps (s, l) (from_option (fun o => [o]) [] o ++ os) z.

(** The events among what was yielded. *)
Definition event_of (o : Output) : option EventView :=
  match o with Ok (StepEvent x) => Some (view x) | _ => None end.
Definition delivered (os : list Output) : list EventView := omap event_of os.

(** [a] events are behind the loop; [s0] is a store the subscription was already
    open on.  A parked loop has seen the end of a scan opened after it armed. *)
Definition pc_inv (s0 s : S) (l : LiveState S) (a : Z) : Prop :=
  match pc l with
  | Top => True
  | Armed w => exists s1, w = catchup_arm s1 /\ grows s0 s1 /\ grows s1 s
  | Probing w probe => exists s1 s2 s3, w = catchup_arm s1 /\ grows s0 s1 /\ grows s1 s2 /\ grows s2 s3 /\
      grows s3 s /\ scan_at s2 s3 probe a
  | Parked w => exists s1, w = catchup_arm s1 /\ grows s0 s1 /\ grows s1 s /\ len (events s1) <= a
  end.

Record live_inv (s0 s : S) (l : LiveState S) (a : Z) : Prop := MkLiveInv {
  li_start : catchup_inv s0 /\ grows s0 s;
  li_from : index (live_from l) = a;
  li_scan : forall c, live_scan l = Some c -> 0 <= drained_in_chunk l < CATCHUP_CHUNK /\
    exists s1 s2, grows s0 s2 /\ grows s2 s /\ scan_at s1 s2 c a;
  li_pc : pc_inv s0 s l a;
  li_wait : pc l <> Top -> live_scan l = None;
}.

Lemma live_inv_grows s0 s s' l a : live_inv s0 s l a -> grows s s' -> live_inv s0 s' l a.
Proof.
  intros [[Hi Hs] Hf Hsc Hpc Hw] Hg. split; [split; [done|by eapply grows_trans]|done| | |done].
  - intros c Hc. destruct (Hsc c Hc) as (? & s1 & s2 & ? & ? & ?). split; [done|].
    exists s1, s2. split_and!; [done|by eapply grows_trans|done].
  - unfold pc_inv in *. destruct (pc l); [done| | |].
    + destruct Hpc as (s1 & -> & ? & ?). exists s1. split_and!; [done|done|by eapply grows_trans].
    + destruct Hpc as (s1 & s2 & s3 & -> & ? & ? & ? & ? & ?). exists s1, s2, s3.
      split_and!; try done; by eapply grows_trans.
    + destruct Hpc as (s1 & -> & ? & ? & ?). exists s1. split_and!; [done|done|by eapply grows_trans|done].
Qed.

(** A turn never panics; it yields the next event, or leaves the position alone;
    the marker comes once the events of [s0] are behind. *)
Definition turn_ok (s0 s : S) (l : LiveState S) (a : Z) (o : option Output) (l' : LiveState S) : Prop :=
  match o with
  | Some (Ok (StepEvent x)) =>
      events s !! Z.to_nat a = Some (view x) /\ live_inv s0 s l' (a + 1) /\ caught_up l' = caught_up l
  | Some (Ok StepCaughtUp) =>
      live_inv s0 s l' a /\ caught_up l = false /\ caught_up l' = true /\ len (events s0) <= a
  | _ => live_inv s0 s l' a /\ caught_up l' = caught_up l
  end.

Lemma turn_scan s0 s l a c :
  live_inv s0 s l a -> pc l = Top -> live_scan l = Some c ->
  exists o l', live_step s l = Returns (Some (o, l')) /\ turn_ok s0 s l a o l'.
Proof.
  intros [[Hi Hs] Hf Hsc Hpc _] Ht Ec.
  unfold live_step. rewrite Ht, Ec. destruct (Hsc c Ec) as (Hd & s1 & s2 & Hs2 & Hg & Hat).
  destruct (scan_next_spec s1 s2 s c a) as [(x & c' & -> & Hx & Hix & Hat')|(c' & -> & _)];
    [by eapply grows_inv|done|done| |].
  - rewrite checked_add_ok by (pose proof usize_max_lo; unfold CATCHUP_CHUNK, u32_max in *; lia).
    do 2 eexists. split; [done|]. split_and!; [done| |done].
    split; simpl; [done|done| |done|done]. intros c0. destruct (CATCHUP_CHUNK <=? _) eqn:E; [done|].
    intros [= <-]. apply Z.leb_gt in E. split; [lia|]. exists s1, s.
    split_and!; [done|apply grows_refl|done].
  - do 2 eexists. split; [done|]. split; [|done]. split; simpl; [done|done|done| |done].
    exists s. split_and!; [done|done|apply grows_refl].
Qed.

Lemma turn_open s0 s l a :
  live_inv s0 s l a -> pc l = Top -> live_scan l = None ->
  exists o l', live_step s l = Returns (Some (o, l')) /\ turn_ok s0 s l a o l'.
Proof.
  intros [[Hi Hs] Hf Hsc Hpc _] Ht Ec. pose proof (grows_inv _ _ Hi Hs) as Hi'.
  unfold live_step. rewrite Ht, Ec. destruct (read_after s (live_from l)) as [c|e] eqn:E.
  - do 2 eexists. split; [done|]. split; [|done]. apply (read_after_opens _ _ _ Hi') in E. rewrite Hf in E.
    split; simpl; [done|done| |done|done]. intros c0 [= <-]. split; [done|].
    exists s, s. split_and!; [done|apply grows_refl|done].
  - do 2 eexists. split; [done|]. split; [|done].
    split; [done|done|by rewrite Ec|by unfold pc_inv; rewrite Ht|done].
Qed.

(** Turns that keep the position. *)
Lemma live_inv_keep s0 s l l' a :
  live_inv s0 s l a -> live_from l' = live_from l -> live_scan l' = None -> pc_inv s0 s l' a -> live_inv s0 s l' a.
Proof. intros [Hs Hf _ _ _] E1 E2 Hpc. split; [done|by rewrite E1|by rewrite E2|done|done]. Qed.

Lemma turn_probe s0 s l a w probe :
  live_inv s0 s l a -> pc l = Probing w probe ->
  exists o l', live_step s l = Returns (Some (o, l')) /\ turn_ok s0 s l a o l'.
Proof.
  intros Hl Ht. pose proof Hl as [[Hi Hs] Hf _ Hpc Hw]. rewrite Ht in Hw. unfold pc_inv in Hpc.
  unfold live_step. rewrite Ht in *. destruct Hpc as (s1 & s2 & s3 & -> & H01 & H12 & H23 & H3 & Hat).
  assert (grows s0 s3) as H03 by (eapply grows_trans; [|done]; by eapply grows_trans).
  destruct (scan_next_spec s2 s3 s probe a) as [(x & c' & -> & Hx & Hix & Hat')|(c' & -> & Hend)];
    [by eapply grows_inv|done|done| |].
  - do 2 eexists. split; [done|]. split_and!; [done| |done]. split; simpl; [done|done| |done|done].
    intros c [= <-]. split; [done|]. exists s2, s. split_and!; [done|apply grows_refl|done].
  - assert (forall x, grows s0 x -> grows x s2 -> len (events x) <= a) as Hle.
    { intros x Hx0 Hx2. pose proof (grows_events _ _ (grows_inv _ _ Hi Hx0) Hx2) as [tl Htl].
      rewrite Htl, len_app in Hend. pose proof (len_nonneg tl). lia. }
    destruct (caught_up l) eqn:Ecu; do 2 eexists; (split; [done|]).
    + split; [|done]. apply (live_inv_keep _ _ _ _ _ Hl); [done|by apply Hw|]. exists s1.
      split_and!; [done|done|by eapply grows_trans; [|eapply grows_trans]|by apply Hle].
    + split_and!; [|done|done|].
      * apply (live_inv_keep _ _ _ _ _ Hl); [done|by apply Hw|done].
      * apply Hle; [apply grows_refl|exact (grows_trans _ _ _ H01 H12)].
Qed.

Lemma turn_spec s0 s l a :
  live_inv s0 s l a ->
  (exists o l', live_step s l = Returns (Some (o, l')) /\ turn_ok s0 s l a o l') \/
  (exists w, pc l = Parked w /\ catchup_ready s w = false /\ live_step s l = Returns None).
Proof.
  intros Hl. pose proof Hl as [[Hi Hs] Hf Hsc Hpc Hw]. destruct (pc l) as [|w|w probe|w] eqn:Ht.
  - left. destruct (live_scan l) eqn:Ec; [by eapply turn_scan|by eapply turn_open].
  - left. unfold live_step, pc_inv in *. rewrite Ht in *.
    destruct (read_after s (live_from l)) as [c|e] eqn:E; do 2 eexists; (split; [done|]).
    + apply (read_after_opens _ _ _ (grows_inv _ _ Hi Hs)) in E. rewrite Hf in E. split; [|done].
      apply (live_inv_keep _ _ _ _ _ Hl); [done|by apply Hw|]. destruct Hpc as (s1 & -> & ? & ?). exists s1, s, s.
      split_and!; try done; apply grows_refl.
    + split; [|done]. apply (live_inv_keep _ _ _ _ _ Hl); [done|by apply Hw|done].
  - left. by eapply turn_probe.
  - unfold live_step. rewrite Ht. destruct (catchup_ready s w) eqn:E; [left|right; eauto].
    do 2 eexists. split; [done|]. split; [|done]. apply (live_inv_keep _ _ _ _ _ Hl); [done|by apply Hw|done].
Qed.

Lemma live_inv_start s from : catchup_inv s -> live_inv s s (live_stepped from) (index from).
Proof. intros Hi. split; simpl; [split; [done|apply grows_refl]|done|done|done|done]. Qed.

Definition caught_up_mark : Output := Ok StepCaughtUp.

Lemma sys_grows z os z' : sys_steps z os z' -> grows z.1 z'.1.
Proof.
  induction 1 as [z|s1 s2 l1 os z Hg _ IH|s1 l1 o l2 os z _ _ IH]; simpl in *; [apply grows_refl| |done].
  by eapply grows_trans.
Qed.

Lemma delivered_app os1 os2 : delivered (os1 ++ os2) = delivered os1 ++ delivered os2.
Proof. unfold delivered. by rewrite omap_app. Qed.

(** What a run that starts with [a] events behind it has yielded by the store [s']. *)
Definition run_ok (s0 s' : S) (cu : bool) (a : Z) (os : list Output) : Prop :=
  delivered os `prefix_of` drop (Z.to_nat a) (events s') /\
  (cu = true -> caught_up_mark ∉ os) /\
  (forall os1 os2, os = os1 ++ caught_up_mark :: os2 ->
     len (events s0) <= a + len (delivered os1) /\ caught_up_mark ∉ os1 /\ caught_up_mark ∉ os2).

Lemma run_ok_cons s0 s' cu cu' a o os :
  o <> caught_up_mark -> (cu = true -> cu' = true) ->
  run_ok s0 s' cu' (a + len (delivered [o])) os ->
  delivered (o :: os) `prefix_of` drop (Z.to_nat a) (events s') ->
  run_ok s0 s' cu a (o :: os).
Proof.
  intros Ho Hcu (_ & Hc & Hm) Hp. split_and!; [done|intros ?; rewrite not_elem_of_cons; auto|].
  intros [|o' os1] os2 E; [by injection E as ? _|]. injection E as <- ->. destruct (Hm os1 os2 eq_refl) as (H1 & H2 & H3).
  change (o :: os1) with ([o] ++ os1). rewrite delivered_app, len_app.
  split_and!; [lia| |done]. apply not_elem_of_cons. auto.
Qed.

Lemma run_ok_mark s0 s' a os :
  len (events s0) <= a -> run_ok s0 s' true a os -> run_ok s0 s' false a (caught_up_mark :: os).
Proof.
  intros Hl (Hp & Hc & Hm). split_and!; [done|done|]. intros [|o os1] os2 E; simplify_eq/=.
  - rewrite Z.add_0_r. split_and!; [done|set_solver|auto].
  - destruct (Hc eq_refl). set_solver.
Qed.

Lemma run_spec s0 s l os s' l' a :
  sys_steps (s, l) os (s', l') -> live_inv s0 s l a -> 0 <= a ->
  live_inv s0 s' l' (a + len (delivered os)) /\ run_ok s0 s' (caught_up l) a os.
Proof.
  intros H. remember (s, l) as z eqn:Ez. remember (s', l') as z' eqn:Ez'.
  revert s l a Ez. induction H as [z|s1 s2 l1 os z Hg _ IH|s1 l1 o l2 os z Hstep Hsteps IH]; intros s l a Ez Hinv Ha.
  - simplify_eq. unfold run_ok, delivered. simpl. change (len (@nil EventView)) with 0. rewrite Z.add_0_r.
    split_and!; [done|apply prefix_nil|set_solver|]. intros os1 os2 E. by destruct os1.
  - simplify_eq. eapply IH; [done|done| |done]. by eapply live_inv_grows.
  - simplify_eq. destruct (turn_spec _ _ _ _ Hinv) as [(o' & l'' & E & Hok)|(w & _ & _ & E)]; [|congruence].
    rewrite Hstep in E. injection E as <- <-. specialize (IH eq_refl s l2).
    assert (events s `prefix_of` events s') as Hpre.
    { destruct Hinv as [[Hi Hs] _ _ _ _]. apply grows_events; [by eapply grows_inv|by apply sys_grows in Hsteps]. }
    destruct o as [[[x|]|e]|]; simpl in Hok; cbn [from_option app].
    + destruct Hok as (Hx & Hinv' & Hcu). destruct (IH (a + 1) eq_refl Hinv' ltac:(lia)) as [Hf Hr].
      change (delivered (Ok (StepEvent x) :: os)) with (view x :: delivered os). rewrite len_cons.
      split; [by replace (a + (1 + len (delivered os))) with (a + 1 + len (delivered os)) by lia|].
      eapply run_ok_cons; [done| |exact Hr|]; [congruence|]. destruct Hr as [Hp _].
      change (delivered (Ok (StepEvent x) :: os)) with (view x :: delivered os).
      rewrite (drop_S _ (view x)) by (by eapply prefix_lookup_Some). apply prefix_cons.
      by replace (Datatypes.S (Z.to_nat a)) with (Z.to_nat (a + 1)) by lia.
    + destruct Hok as (Hinv' & Hcu & Hcu' & Hl). destruct (IH a eq_refl Hinv' Ha) as [Hf Hr].
      rewrite Hcu, Hcu' in *. split; [done|by apply run_ok_mark].
    + destruct Hok as (Hinv' & Hcu). destruct (IH a eq_refl Hinv' Ha) as [Hf Hr]. split; [done|].
      eapply run_ok_cons; [done| | |by destruct Hr]; [|rewrite Z.add_0_r; exact Hr]. congruence.
    + destruct Hok as (Hinv' & Hcu). destruct (IH a eq_refl Hinv' Ha) as [Hf Hr]. by rewrite Hcu in Hr.
Qed.

(** C4: however commits and wakes by other tasks fall between the turns of
    the loop, and whatever reads fail, a subscription opened after [from] has
    delivered a prefix of the target's events after [from]: every event once, in
    order, none skipped.  It yields the caught-up marker at most once, and only
    after every event that was committed when it was opened; and it never panics. *)
Theorem subscription_exactly_once s0 from os s l :
  catchup_inv s0 -> sys_steps (s0, live_stepped from) os (s, l) ->
  delivered os `prefix_of` drop (Z.to_nat (index from)) (events s) /\
  (forall os1 os2, os = os1 ++ caught_up_mark :: os2 ->
     drop (Z.to_nat (index from)) (events s0) `prefix_of` delivered os1 /\
     caught_up_mark ∉ os1 /\ caught_up_mark ∉ os2) /\
  live_step s l <> Panics.
Proof.
  intros Hi Hs. pose proof (index_nonneg from) as Ha.
  destruct (run_spec _ _ _ _ _ _ _ Hs (live_inv_start _ _ Hi) Ha) as (Hinv & Hp & _ & Hm).
  split_and!; [done| |].
  - intros os1 os2 E. destruct (Hm os1 os2 E) as (Hl & ? & ?). split_and!; [|done|done].
    apply sys_grows in Hs. simpl in Hs. destruct (grows_events _ _ Hi Hs) as [tl Htl].
    assert (delivered os1 `prefix_of` drop (Z.to_nat (index from)) (events s)) as Hp1.
    { etrans; [|exact Hp]. rewrite E, delivered_app. by eexists. }
    rewrite Htl, drop_app in Hp1.
    destruct (prefix_weak_total (drop (Z.to_nat (index from)) (events s0)) (delivered os1) _
      (prefix_app_r _ _ _ (reflexivity _)) Hp1) as [?|[k Hk]]; [done|].
    exists []. rewrite app_nil_r. apply (f_equal length) in Hk as Hk'. rewrite length_app, length_drop in Hk'.
    destruct k as [|v k]; [by rewrite app_nil_r in Hk|]. unfold len in Hl. simpl in Hk'. lia.
  - destruct (turn_spec _ _ _ _ Hinv) as [(o & l' & -> & _)|(w & _ & _ & ->)]; done.
Qed.

(** ** Progress *)

(** On its own, the loop yields the [a]-th event within [n] turns, nothing before
    it but possibly the marker. *)
Definition yields_next (n : nat) (s : S) (l : LiveState S) (a : Z) : Prop :=
  exists k pre x l', (k <= n)%nat /\ run_alone k s l = Returns (pre ++ [Ok (StepEvent x)], l') /\
    delivered pre = [] /\ events s !! Z.to_nat a = Some (view x).

Lemma yields_now s l x l' a :
  live_step s l = Returns (Some (Some (Ok (StepEvent x)), l')) -> events s !! Z.to_nat a = Some (view x) ->
  yields_next 1 s l a.
Proof. intros E Hx. exists 1%nat, [], x, l'. simpl. rewrite E. done. Qed.

Lemma yields_later n s l o l' a :
  live_step s l = Returns (Some (o, l')) -> delivered (from_option (fun o => [o]) [] o) = [] ->
  yields_next n s l' a -> yields_next (Datatypes.S n) s l a.
Proof.
  intros E Ho (k & pre & x & l'' & Hk & Hr & Hp & Hx).
  exists (Datatypes.S k), (from_option (fun o => [o]) [] o ++ pre), x, l''. simpl. rewrite E, Hr.
  split_and!; [lia|by rewrite <- app_assoc|by rewrite delivered_app, Ho, Hp|done].
Qed.

Lemma yields_more n m s l a : yields_next n s l a -> (n <= m)%nat -> yields_next m s l a.
Proof. intros (k & pre & x & l' & ? & ?) ?. exists k, pre, x, l'. split; [lia|done]. Qed.

(** Turns on a store nobody touches are a run of the system. *)
Lemma run_alone_steps n s l os l' : run_alone n s l = Returns (os, l') -> sys_steps (s, l) os (s, l').
Proof.
  revert l os. induction n as [|n IH]; intros l os; simpl; [intros [= <- <-]; constructor|].
  destruct (live_step s l) as [[[o l1]|]|] eqn:E; [|intros [= <- <-]; constructor|done].
  destruct (run_alone n s l1) as [[os1 l2]|] eqn:E1; [|done]. intros [= <- <-].
  eapply sys_turn; [exact E|]. by apply IH.
Qed.

Lemma sys_steps_app z os z' os' z'' : sys_steps z os z' -> sys_steps z' os' z'' -> sys_steps z (os ++ os') z''.
Proof.
  induction 1; [done| |]; intros Hs; [by eapply sys_env; [|auto]|]. rewrite <- app_assoc. by eapply sys_turn; [|auto].
Qed.

Definition readable (s : S) : Prop := forall p, is_ok (read_after s p) = true.

(** A scan opened on [s] itself has the next event. *)
Lemma fresh_scan_yields s c a :
  catchup_inv s -> scan_at s s c a -> a < len (events s) ->
  exists x c', scan_next s c = Returns (Some (Ok x), c') /\ events s !! Z.to_nat a = Some (view x).
Proof.
  intros Hi Hat Hlt.
  destruct (scan_next_spec s s s c a Hi (grows_refl s) Hat) as [(x & c' & ? & ? & _)|(c' & _ & ?)]; [eauto|lia].
Qed.

Lemma reopen_yields s l a :
  catchup_inv s -> readable s -> pc l = Top -> live_scan l = None -> index (live_from l) = a ->
  a < len (events s) -> yields_next 2 s l a.
Proof.
  intros Hi Hr Ht Hn Hf Hlt. specialize (Hr (live_from l)).
  destruct (read_after s (live_from l)) as [c|] eqn:E; [|done].
  pose proof (read_after_opens _ _ _ Hi E) as Hat. rewrite Hf in Hat.
  destruct (fresh_scan_yields _ _ _ Hi Hat Hlt) as (x & c' & Ex & Hx).
  eapply yields_later; [unfold live_step; by rewrite Ht, Hn, E|done|].
  eapply yields_now; [|exact Hx]. unfold live_step. simpl. rewrite Ex.
  rewrite checked_add_ok by (pose proof usize_max_lo; unfold u32_max in *; lia). done.
Qed.

Lemma probe_yields s l a w :
  catchup_inv s -> readable s -> pc l = Armed w -> index (live_from l) = a -> a < len (events s) ->
  yields_next 2 s l a.
Proof.
  intros Hi Hr Ht Hf Hlt. specialize (Hr (live_from l)).
  destruct (read_after s (live_from l)) as [c|] eqn:E; [|done].
  pose proof (read_after_opens _ _ _ Hi E) as Hat. rewrite Hf in Hat.
  destruct (fresh_scan_yields _ _ _ Hi Hat Hlt) as (x & c' & Ex & Hx).
  eapply yields_later; [unfold live_step; by rewrite Ht, E|done|].
  eapply yields_now; [|exact Hx]. unfold live_step. simpl. by rewrite Ex.
Qed.

Lemma parked_yields s0 s l a w :
  live_inv s0 s l a -> readable s -> ~ owed s -> pc l = Parked w -> a < len (events s) -> yields_next 3 s l a.
Proof.
  intros [[Hi Hs] Hf _ Hpc Hw] Hr Ho Ht Hlt. unfold pc_inv in Hpc. rewrite Ht in *.
  destruct Hpc as (s1 & -> & H01 & H1 & Hl).
  assert (catchup_ready s (catchup_arm s1) = true) as Hready.
  { apply arm_ready; [by eapply grows_inv|done|done|]. intros E. rewrite E in Hlt. lia. }
  eapply yields_later; [unfold live_step; by rewrite Ht, Hready|done|].
  apply reopen_yields; simpl; [by eapply grows_inv|done|done|by apply Hw|done|done].
Qed.

Lemma scanning_yields s0 s l a c :
  live_inv s0 s l a -> readable s -> pc l = Top -> live_scan l = Some c -> a < len (events s) -> yields_next 3 s l a.
Proof.
  intros [[Hi Hg] Hf Hsc _ _] Hr Ht Ec Hlt.
  destruct (Hsc c Ec) as (Hd & s1 & s2 & Hs2 & Hg2 & Hat).
  destruct (scan_next_spec s1 s2 s c a) as [(x & c' & En & Hx & _)|(c' & En & _)]; [by eapply grows_inv|done|done| |].
  - eapply yields_more; [eapply yields_now; [|exact Hx]|lia]. unfold live_step. rewrite Ht, Ec, En.
    rewrite checked_add_ok by (pose proof usize_max_lo; unfold CATCHUP_CHUNK, u32_max in *; lia). done.
  - eapply yields_later; [unfold live_step; by rewrite Ht, Ec, En|done|].
    eapply probe_yields; [by eapply grows_inv|done|done|done|done].
Qed.

Lemma probing_yields s0 s l a w probe :
  live_inv s0 s l a -> readable s -> ~ owed s -> pc l = Probing w probe -> a < len (events s) -> yields_next 4 s l a.
Proof.
  intros Hl Hr Ho Ht Hlt. destruct (turn_probe _ _ _ _ _ _ Hl Ht) as (o & l' & E & Hok).
  pose proof Hl as [[Hi Hg] Hf _ Hpc Hw]. unfold pc_inv in Hpc. unfold live_step in E. rewrite Ht in *.
  destruct Hpc as (s1 & s2 & s3 & -> & H01 & H12 & H23 & H3 & Hat).
  assert (grows s0 s3) as H03 by (eapply grows_trans; [|done]; by eapply grows_trans).
  destruct (scan_next_spec s2 s3 s probe a) as [(x & c' & En & Hx & _)|(c' & En & _)]; [by eapply grows_inv|done|done| |].
  - eapply yields_more; [eapply yields_now; [|exact Hx]|lia]. unfold live_step. by rewrite Ht, En.
  - rewrite En in E. destruct (caught_up l) eqn:Ecu; injection E as <- <-.
    + eapply yields_later; [unfold live_step; by rewrite Ht, En, Ecu|done|]. destruct Hok as [Hok _].
      by eapply parked_yields.
    + eapply yields_later; [unfold live_step; by rewrite Ht, En, Ecu|done|].
      eapply yields_more; [apply reopen_yields; simpl|lia]; [by eapply grows_inv|done|done|by apply Hw|done|done].
Qed.

(** C5: in every state the loop can reach, once the commits to its
    target have been announced and the store can be read, an undelivered event is
    yielded within four turns: no interleaving of commits, wakes and arming leaves
    the loop parked in front of an event. *)
Theorem no_lost_wakeup s0 from os s l :
  catchup_inv s0 -> sys_steps (s0, live_stepped from) os (s, l) ->
  ~ owed s -> readable s -> index from + len (delivered os) < len (events s) ->
  yields_next 4 s l (index from + len (delivered os)).
Proof.
  intros Hi0 Hs Ho Hr Hlt.
  destruct (run_spec _ _ _ _ _ _ _ Hs (live_inv_start _ _ Hi0) (index_nonneg from)) as (Hinv & _).
  set (a := index from + len (delivered os)) in *. pose proof Hinv as [[Hi Hg] Hf _ _ _].
  pose proof (grows_inv _ _ Hi Hg) as His. destruct (pc l) as [|w|w probe|w] eqn:Ht.
  - destruct (live_scan l) as [c|] eqn:Ec; eapply yields_more;
      [by eapply scanning_yields|lia|by eapply reopen_yields|lia].
  - eapply yields_more; [by eapply probe_yields|lia].
  - by eapply probing_yields.
  - eapply yields_more; [by eapply parked_yields|lia].
Qed.

End correctness.

(** ** The two targets (catchup.rs) *)

(** The [$all] half of the [RawEventStore] trait. *)
Class RawAllStore (S : Type) {R : RawEventStore S} := {
  AllCursor : Type;
  store_read_all : S -> option (AllPos S) -> result AllCursor (SError S);
  all_next : S -> AllCursor ->
    panicking (option (result (AllPos S * StreamKey * PersistedEnvelope) (SError S)) * AllCursor);
}.
Arguments AllCursor S {_ _}.

Section targets.
Context {T : Target} {S : Type} {R : RawEventStore S} {WS : WakeSource S}.

Record StreamCatchup : Type := MkStreamCatchup { sc_id : StreamKey; sc_reg : Registration S }.

(** [StreamCatchup::new]: register first, then build. *)
Definition stream_catchup_new (s : S) (id_bytes : bytes) : S * result StreamCatchup (WError S) :=
  match wake_register s (Some id_bytes) with
  | (s', Ok reg) => (s', Ok (MkStreamCatchup (StreamKey.from_slice id_bytes) reg))
  | (s', Err e) => (s', Err e)
  end.

Definition tag_version {E} (item : result PersistedEnvelope E) : result (Version * PersistedEnvelope) E :=
  result_map (fun env => (ps_version env, env)) item.

(** The version a scan strictly after [from] starts at; none after the last one. *)
Definition resume (from : option Version) : option Version :=
  match from with None => Some INITIAL | Some v => next v end.

(** The scan is the tagged stream, or the empty one ([None]). *)
Definition stream_catchup (c : StreamCatchup) : Catchup S := {|
  CPosition := Version;
  Item := Version * PersistedEnvelope;
  Scan := option (Cursor S);
  CError := SError S;
  CWait := WWait S;
  read_after s from :=
    match resume from with
    | Some v => result_map Some (read_stream s (sc_id c) v)
    | None => Ok None
    end;
  scan_next s scan :=
    match scan with
    | None => Returns (None, None)
    | Some cursor =>
        match stream_next s cursor with
        | Panics => Panics
        | Returns (item, cursor) => Returns (match item with Some item => Some (tag_version item) | None => None end, Some cursor)
        end
    end;
  position_of item := item.1;
  catchup_arm s := wake_arm s (sc_reg c);
  catchup_ready := wake_ready |}.

(** [Subscription::subscribe]: the loop over the stream target, and what its items
    become for the consumer, who gets the envelope without the tag. *)
Definition subscribe (s : S) (id : bytes) (from : option Version)
  : S * result { c : StreamCatchup & @LiveState S (stream_catchup c) } (WError S) :=
  match stream_catchup_new s id with
  | (s', Ok c) => (s', Ok (existT c (@live_stepped S (stream_catchup c) from)))
  | (s', Err e) => (s', Err e)
  end.

Definition subscribe_item {E} (item : result (Step (Version * PersistedEnvelope)) E) : result (Step PersistedEnvelope) E :=
  result_map (Step.map snd) item.

Context {RA : RawAllStore S}.

Record AllCatchup : Type := MkAllCatchup { ac_reg : Registration S }.

Definition all_catchup_new (s : S) : S * result AllCatchup (WError S) :=
  match wake_register s None with
  | (s', Ok reg) => (s', Ok (MkAllCatchup reg))
  | (s', Err e) => (s', Err e)
  end.

Definition all_catchup (c : AllCatchup) : Catchup S := {|
  CPosition := AllPos S;
  Item := AllPos S * StreamKey * PersistedEnvelope;
  Scan := AllCursor S;
  CError := SError S;
  CWait := WWait S;
  read_after := store_read_all;
  scan_next := all_next;
  position_of item := item.1.1;
  catchup_arm s := wake_arm s (ac_reg c);
  catchup_ready := wake_ready |}.

Definition subscribe_all (s : S) (from : option (AllPos S))
  : S * result { c : AllCatchup & @LiveState S (all_catchup c) } (WError S) :=
  match all_catchup_new s with
  | (s', Ok c) => (s', Ok (existT c (@live_stepped S (all_catchup c) from)))
  | (s', Err e) => (s', Err e)
  end.

End targets.

(** ** What the targets need of a live store

    [activity] is what other tasks do to the store between two turns;
    [unannounced s target]: a commit of the target has not been followed by its
    wake yet; [reg_on]: the registration follows the target's wakes. *)
Class LiveSpec (S : Type) {R : RawEventStore S} {RS : RawEventStoreSpec S} {WS : WakeSource S} := {
  activity : S -> S -> Prop;
  unannounced : S -> option bytes -> Prop;
  reg_on : S -> option bytes -> Registration S -> Prop;
  activity_refl s : activity s s;
  activity_trans s1 s2 s3 : activity s1 s2 -> activity s2 s3 -> activity s1 s3;
  activity_inv s s' : store_inv s -> activity s s' -> store_inv s';
  activity_streams s s' id : store_inv s -> activity s s' -> stream_of s id `prefix_of` stream_of s' id;
  reg_on_stays s s' t r : store_inv s -> reg_on s t r -> activity s s' -> reg_on s' t r;
  register_on s s' t r : store_inv s -> wake_register s t = (s', Ok r) ->
    store_inv s' /\ reg_on s' t r /\ forall id, stream_of s' id = stream_of s id;
  arm_stream s0 s key r :
    store_inv s0 -> reg_on s0 (Some key) r -> activity s0 s -> ~ unannounced s (Some key) ->
    stream_of s (MkStreamKey key) <> stream_of s0 (MkStreamKey key) -> wake_ready s (wake_arm s0 r) = true;
}.

(** The same for [$all]: the store as one log, whose [n]-th event is at position [n]. *)
Class LiveAllSpec (S : Type) {R : RawEventStore S} {RS : RawEventStoreSpec S} {WS : WakeSource S}
    {RA : RawAllStore S} {L : LiveSpec S} := {
  all_of : S -> list (StreamKey * PendingEnvelope);
  all_pos : AllPos S -> Z;
  all_cursor_at : S -> S -> AllCursor S -> Z -> Prop;
  all_pos_positive p : 0 < all_pos p;
  activity_all s s' : store_inv s -> activity s s' -> all_of s `prefix_of` all_of s';
  read_all_opens s from c : store_inv s -> store_read_all s from = Ok c ->
    all_cursor_at s s c (from_option all_pos 0 from);
  all_next_spec s0 s s' c a :
    store_inv s -> activity s s' -> all_cursor_at s0 s c a ->
    (exists p id env c', all_next s' c = Returns (Some (Ok (p, id, env)), c') /\
       all_of s' !! Z.to_nat a = Some (id, from_persisted env) /\ all_pos p = a + 1 /\ all_cursor_at s0 s' c' (a + 1)) \/
    (exists c', all_next s' c = Returns (None, c') /\ len (all_of s0) <= a);
  arm_all s0 s r :
    store_inv s0 -> reg_on s0 None r -> activity s0 s -> ~ unannounced s None ->
    all_of s <> all_of s0 -> wake_ready s (wake_arm s0 r) = true;
}.

Section target_specs.
Context {T : Target} {S : Type} {R : RawEventStore S} {RS : RawEventStoreSpec S} {WS : WakeSource S} {L : LiveSpec S}.

Lemma stream_lookup_version s id n pe :
  store_inv s -> stream_of s id !! n = Some pe -> as_u64 (pe_version pe) = 1 + Z.of_nat n.
Proof.
  intros Hi Hl. destruct (stream_of_ok s id Hi) as (_ & Hc & _).
  eapply (consecutive_lookup 1); [exact Hc|]. unfold versions. rewrite list_lookup_fmap, Hl. done.
Qed.

Lemma resume_spec from v : resume from = Some v -> as_u64 v = from_option as_u64 0 from + 1.
Proof. destruct from as [w|]; simpl; [apply next_Some|by intros [= <-]]. Qed.

Definition stream_scan_at (id : StreamKey) (s0 s : S) (c : option (Cursor S)) (a : Z) : Prop :=
  0 <= a /\ store_inv s0 /\
  match c with None => u64_max <= a | Some c => cursor_at s0 s c id (a + 1) end.

Lemma stream_scan_opens (c : @StreamCatchup S WS) s from scan :
  store_inv s -> read_after (Catchup := stream_catchup c) s from = Ok scan ->
  stream_scan_at (sc_id c) s s scan (from_option as_u64 0 from).
Proof.
  intros Hi E. simpl in E.
  assert (0 <= from_option as_u64 0 from) by (destruct from as [w|]; simpl; [pose proof (version_range w)|]; lia).
  destruct (resume from) as [v|] eqn:Er.
  - destruct (read_stream s (sc_id c) v) as [cur|] eqn:Ec; [|done]. injection E as <-.
    split_and!; [done|done|]. rewrite <- (resume_spec _ _ Er). by apply read_stream_opens.
  - injection E as <-. destruct from as [w|]; [|done]. apply next_None in Er. split_and!; [done|done|simpl; lia].
Qed.

Lemma stream_scan_next (c : @StreamCatchup S WS) s0 s s' scan a :
  store_inv s -> activity s s' -> stream_scan_at (sc_id c) s0 s scan a ->
  (exists x scan', scan_next (Catchup := stream_catchup c) s' scan = Returns (Some (Ok x), scan') /\
     stream_of s' (sc_id c) !! Z.to_nat a = Some (from_persisted x.2) /\
     as_u64 x.1 = a + 1 /\ stream_scan_at (sc_id c) s0 s' scan' (a + 1)) \/
  (exists scan', scan_next (Catchup := stream_catchup c) s' scan = Returns (None, scan') /\
     len (stream_of s0 (sc_id c)) <= a).
Proof.
  intros Hi Ha (Hnn & Hi0 & Hat). pose proof (activity_inv _ _ Hi Ha) as Hi'. destruct scan as [cur|]; simpl.
  - destruct (stream_next_spec s0 s s' cur (sc_id c) (a + 1) Hi') as [(env & c' & -> & Hl & _ & Hat')|(c' & -> & Hend)];
      [intros k; by apply activity_streams|done| |].
    + left. replace (a + 1 - 1) with a in Hl by lia. do 2 eexists. split_and!; [done|done| |].
      * pose proof (stream_lookup_version _ _ _ _ Hi' Hl) as Hv. simpl in *. lia.
      * split_and!; [lia|done|done].
    + right. eexists. split; [done|]. lia.
  - right. eexists. split; [done|]. destruct (stream_of_ok s0 (sc_id c) Hi0) as (_ & _ & ?). lia.
Qed.

(** A registered stream target keeps the contract of [Catchup]. *)
Definition stream_catchup_spec (c : @StreamCatchup S WS) : @CatchupSpec S (stream_catchup c).
Proof.
  refine (@Build_CatchupSpec S (stream_catchup c) PendingEnvelope (fun x => from_persisted x.2)
    (fun s => store_inv s /\ reg_on s (Some (sk_bytes (sc_id c))) (sc_reg c))
    (fun s => stream_of s (sc_id c)) (from_option as_u64 0) activity
    (fun s => unannounced s (Some (sk_bytes (sc_id c)))) (stream_scan_at (sc_id c)) _ _ _ _ _ _ _ _).
  - apply activity_refl.
  - apply activity_trans.
  - intros s s' [Hi Hr] Ha. split; [by eapply activity_inv|by eapply reg_on_stays].
  - intros s s' [Hi _] Ha. by apply activity_streams.
  - intros [v|]; simpl; [pose proof (version_range v)|]; lia.
  - intros s from scan [Hi _]. by apply stream_scan_opens.
  - intros s0 s s' scan a [Hi _] Ha Hat. by eapply stream_scan_next.
  - intros s0 s [Hi Hr] Ha Ho Hne. eapply arm_stream; [done|done|done|done|]. by destruct (sc_id c).
Defined.

Context {RA : RawAllStore S} {LA : LiveAllSpec S}.

Definition all_catchup_spec (c : @AllCatchup S WS) : @CatchupSpec S (all_catchup c).
Proof.
  refine (@Build_CatchupSpec S (all_catchup c) (StreamKey * PendingEnvelope) (fun x => (x.1.2, from_persisted x.2))
    (fun s => store_inv s /\ reg_on s None (ac_reg c)) all_of (from_option all_pos 0) activity
    (fun s => unannounced s None) all_cursor_at _ _ _ _ _ _ _ _).
  - apply activity_refl.
  - apply activity_trans.
  - intros s s' [Hi Hr] Ha. split; [by eapply activity_inv|by eapply reg_on_stays].
  - intros s s' [Hi _] Ha. by apply activity_all.
  - intros [p|]; simpl; [pose proof (all_pos_positive p)|]; lia.
  - intros s from scan [Hi _]. by apply read_all_opens.
  - intros s0 s s' scan a [Hi _] Ha Hat.
    destruct (all_next_spec s0 s s' scan a Hi Ha Hat) as [(p & id & env & c' & E & Hl & Hp & Hat')|?]; [left|by right].
    exists (p, id, env), c'. done.
  - intros s0 s [Hi Hr] Ha Ho Hne. by eapply arm_all.
Defined.

End target_specs.
