(* ===== verification/LiveInMemory.v ===== *)
(** * Subscriptions over the in-memory store (adapters/inmemory/src/lib.rs)

    The store together with the wakes that appends still owe: [append] commits
    under its lock, releases it, and only then wakes the stream's and the [$all]
    subscribers, so a subscriber may run between the commit and either wake.  The
    contracts that subscriptions rely on hold in every such state. *)

From S2P Require Import Prelude ErrorId Version Value Wire Envelope Wake RawStore Import Log InMemory Subscription.

Section live.
Context {T : Target} {AS : ArrayString} {W : Watch} (debug : bool).

Record LiveStore : Type := MkLiveStore {
  lv_store : InMemoryStore;
  lv_owed : list op;
  lv_guards : list bytes;
}.

Definition lv_inner (s : LiveStore) : Inner := inner (lv_store s).
Definition lv_registry (s : LiveStore) : StreamNotifiers * list bytes := (notifiers (lv_store s), lv_guards s).

Definition set_registry (s : LiveStore) (n : StreamNotifiers) (gs : list bytes) : LiveStore :=
  MkLiveStore (MkStore (lv_inner s) n (batch_size (lv_store s))) (lv_owed s) gs.

(** ** The traits *)

#[export] Instance live_raw : RawEventStore LiveStore := {
  SError := InMemoryStoreError;
  AllPos := InMemoryAllPos;
  Cursor := option ReadState;
  append s id expected b :=
    let '(st, r) := store_append (lv_store s) id expected b in (MkLiveStore st (lv_owed s) (lv_guards s), r);
  read_stream s := store_read_stream (lv_store s);
  stream_next s c := poll debug (lv_inner s) c;
}.

#[export] Instance live_all : RawAllStore LiveStore := {
  AllCursor := option GlobalReadState;
  store_read_all s := read_all (lv_store s);
  all_next s c := Returns (poll_all (lv_inner s) c);
}.

(** [WakeSource for InMemoryStore] delegates to the registry. *)
#[export] Instance live_wake : WakeSource LiveStore := {
  Registration := WakeReg;
  WError := NotifyError;
  WWait := Wait;
  wake_register s t :=
    let '(n, r) := register (notifiers (lv_store s)) t in
    (set_registry s n (match t, r with Some key, Ok _ => key :: lv_guards s | _, _ => lv_guards s end), r);
  wake_arm s := arm (notifiers (lv_store s));
  wake_ready s := wait_ready (notifiers (lv_store s));
}.

(** ** What other tasks do *)

(** A commit to [ids] owes the two wakes of each. *)
Definition owes (ids : list StreamKey) : list op := ids ≫= fun id => [OpWakeStream (sk_bytes id); OpWakeAll].

Definition committed (s : LiveStore) (i : Inner) (ids : list StreamKey) : LiveStore :=
  MkLiveStore (MkStore i (notifiers (lv_store s)) (batch_size (lv_store s))) (lv_owed s ++ owes ids) (lv_guards s).

Inductive act : LiveStore -> LiveStore -> Prop :=
| act_append s id expected b i p :
    batch_ok b -> append_inner (lv_inner s) id expected b = (i, Returns (Ok p)) -> act s (committed s i [id])
| act_atomic s ws i p :
    Forall write_ok ws -> atomic_append_inner (lv_inner s) ws = (i, Returns (Ok p)) ->
    act s (committed s i (target <$> ws))
| act_announce s o owed n gs :
    lv_owed s ≡ₚ o :: owed -> reg_step (lv_registry s) o (n, gs) ->
    act s (MkLiveStore (MkStore (lv_inner s) n (batch_size (lv_store s))) owed gs)
| act_registry s o n gs :
    reg_step (lv_registry s) o (n, gs) -> act s (set_registry s n gs).

Definition live_ok (s : LiveStore) : Prop := store_represents (lv_store s) /\ reg_inv (lv_registry s).

Definition lv_log (s : LiveStore) : Log := log_of (lv_inner s).

(** The target saw nothing between the two logs. *)
Definition unchanged (t : option bytes) (l l' : Log) : Prop :=
  match t with Some key => log_stream (MkStreamKey key) l' = log_stream (MkStreamKey key) l | None => l' = l end.

Definition owed_to (s : LiveStore) (t : option bytes) : Prop := exists o, o ∈ lv_owed s /\ wakes t o = true.

(** A step keeps the contracts, extends the log, and owes a wake to every target
    that saw the extension. *)
Lemma act_log s s' :
  live_ok s -> act s s' ->
  store_represents (lv_store s') /\ lv_log s `prefix_of` lv_log s' /\
  forall t, unchanged t (lv_log s) (lv_log s') \/ owed_to s' t.
Proof.
  intros [Hr _] Ha. destruct Ha as [s id expected b i p Hb E|s ws i p Hw E|s o owed n gs _ _|s o n gs _].
  - pose proof (append_inner_spec _ _ id expected b Hr Hb) as Hs. unfold lv_inner in E. rewrite E in Hs.
    destruct Hs as (_ & Hs & _). unfold store_represents, lv_log, lv_inner. simpl.
    rewrite (represents_log_of _ _ Hs). split_and!; [done|by eexists|]. intros [key|].
    + destruct (decide (id = MkStreamKey key)) as [->|Hne].
      * right. exists (OpWakeStream key). split; [|by apply bool_decide_true]. simpl. set_solver.
      * left. unfold unchanged. by rewrite log_stream_app, log_stream_tag_ne, app_nil_r.
    + right. exists OpWakeAll. split; [|done]. simpl. set_solver.
  - pose proof (atomic_append_spec _ _ ws Hr Hw) as Hs. unfold lv_inner in E. rewrite E in Hs.
    destruct Hs as (Hs & _). unfold store_represents, lv_log, lv_inner. simpl.
    rewrite (represents_log_of _ _ Hs). split_and!; [done|by eexists|]. intros [key|].
    + destruct (decide (MkStreamKey key ∈ target <$> ws)) as [Hin|Hni].
      * right. exists (OpWakeStream key). split; [|by apply bool_decide_true]. simpl.
        rewrite elem_of_app. right. apply list_elem_of_bind. eexists. split; [|exact Hin]. simpl. left.
      * left. unfold unchanged. by rewrite log_stream_app, log_stream_writes, writes_to_none, app_nil_r.
    + destruct ws as [|w ws]; [left; simpl; by rewrite app_nil_r|]. right. exists OpWakeAll. split; [|done]. simpl. set_solver.
  - split_and!; [done|done|]. intros [key|]; by left.
  - split_and!; [done|done|]. intros [key|]; by left.
Qed.

(** What a step does to the registry: at most one operation, and an owed wake goes
    away only by being made. *)
Lemma act_registry_step s s' t :
  act s s' ->
  exists os, reg_steps (lv_registry s) os (lv_registry s') /\
    (owed_to s t -> owed_to s' t \/ exists o, o ∈ os /\ wakes t o = true).
Proof.
  intros Ha. destruct Ha as [s id expected b i p Hb E|s ws i p Hw E|s o owed n gs Ho Hs|s o n gs Hs].
  - exists []. split; [constructor|]. intros (o & ? & ?). left. exists o. split; [simpl; set_solver|done].
  - exists []. split; [constructor|]. intros (o & ? & ?). left. exists o. split; [simpl; set_solver|done].
  - exists [o]. split; [econstructor; [exact Hs|constructor]|]. intros (o' & Hin & Hw). rewrite Ho in Hin.
    apply elem_of_cons in Hin as [->|Hin]; [right; exists o; split; [left|done]|left; by exists o'].
  - exists [o]. split; [econstructor; [exact Hs|constructor]|]. intros (o' & Hin & Hw). left. by exists o'.
Qed.

Lemma reg_steps_app z os z' os' z'' : reg_steps z os z' -> reg_steps z' os' z'' -> reg_steps z (os ++ os') z''.
Proof. induction 1; [done|]. intros. simpl. econstructor; eauto. Qed.

Lemma act_ok s s' : live_ok s -> act s s' -> live_ok s'.
Proof.
  intros Hok Ha. destruct (act_log _ _ Hok Ha) as (Hr & _ & _).
  destruct (act_registry_step _ _ None Ha) as (os & Hs & _). split; [done|].
  eapply reg_inv_steps; [apply Hok|done].
Qed.

(** After any activity, a target that saw an extension was woken or is owed a wake. *)
Lemma activity_spec s0 s t :
  rtc act s0 s -> live_ok s0 ->
  live_ok s /\ lv_log s0 `prefix_of` lv_log s /\
  exists os, reg_steps (lv_registry s0) os (lv_registry s) /\
    (unchanged t (lv_log s0) (lv_log s) \/ (exists o, o ∈ os /\ wakes t o = true) \/ owed_to s t).
Proof.
  intros H Hok. revert s H. apply rtc_ind_r.
  { split_and!; [done|done|]. exists []. split; [constructor|]. left. by destruct t. }
  intros s1 s H Ha (Hok1 & Hp1 & os & Hs & Hc). destruct (act_log _ _ Hok1 Ha) as (_ & Hp & Hu).
  split_and!; [by eapply act_ok|by etrans|]. destruct (act_registry_step _ _ t Ha) as (os' & Hs' & Ho).
  exists (os ++ os'). split; [by eapply reg_steps_app|].
  destruct (Hu t) as [Hsame|?]; [|by right; right].
  destruct Hc as [Hc|[(o & ? & ?)|Hc]].
  - left. destruct t; simpl in *; congruence.
  - right. left. exists o. split; [set_solver|done].
  - destruct (Ho Hc) as [?|(o & ? & ?)]; [by right; right|]. right. left. exists o. split; [set_solver|done].
Qed.

(** ** The contracts *)

#[export] Instance live_raw_spec : RawEventStoreSpec LiveStore.
Proof.
  refine (@Build_RawEventStoreSpec LiveStore live_raw live_ok
    (fun s id => log_stream id (lv_log s))
    (fun s0 s c id v => cursor_inv (log_stream id (lv_log s0)) (log_stream id (lv_log s)) c id v)
    (fun _ _ => True)
    _ _ _ _ _ _ _ _); simpl.
  - intros s id [Hr _]. by destruct (log_stream_ok _ _ id Hr).
  - intros s id expected b [Hr _] Hb. pose proof (store_append_spec (lv_store s) id expected b Hr Hb).
    by destruct (store_append (lv_store s) id expected b) as [s' [[|]|]].
  - intros s id expected b s' p [Hr Hg] Hb E.
    pose proof (store_append_spec (lv_store s) id expected b Hr Hb) as H.
    destruct (store_append (lv_store s) id expected b) as [st r] eqn:Es. injection E as <- ->.
    destruct H as [He Hr']. unfold live_ok, store_represents, lv_log, lv_inner. simpl.
    rewrite (represents_log_of _ _ Hr'). split_and!; [done| |done|by rewrite log_stream_app, log_stream_tag|].
    + unfold store_append in Es. destruct (append_inner _ _ _ _) as [i [[|]|]]; simplify_eq/=.
      eapply reg_inv_steps; [exact Hg|].
      eapply reg_cons; [apply step_wake_stream|eapply reg_cons; [apply step_wake_all|apply reg_nil]].
    + intros id' ?. by rewrite log_stream_app, log_stream_tag_ne, app_nil_r.
  - intros s id expected b s' e [Hr Hg] Hb E. pose proof (store_append_spec (lv_store s) id expected b Hr Hb) as H.
    destruct (store_append (lv_store s) id expected b) as [st r]. injection E as <- ->. subst st. split_and!; [done|by left|done].
  - intros s id expected b [Hr _] Hb _ Hne. exists (error_id id). unfold store_append.
    by rewrite (append_stale_conflict _ _ _ _ _ Hr Hne).
  - intros s id expected b s' l w a [Hr _] _ Hc E. unfold store_append in E. unfold lv_log.
    destruct (append_inner (inner (lv_store s)) id expected b) as [i r] eqn:Ea.
    apply (append_conflict_stale _ _ _ _ _ i l w a Hr Hc). rewrite Ea. destruct r as [[|]|]; by simplify_eq/=.
  - intros s id from c [Hr _] [= <-]. split; [done|]. pose proof (version_range from).
    split; simpl; try done; [apply nz_range|lia|apply prefix_nil].
  - intros s0 s s' c id v [Hr _] Hpre Hc. apply (poll_spec debug (lv_log s') (lv_inner s')) in Hc as [?|?]; eauto.
Defined.

Lemma arm_after_activity s0 s t r :
  live_ok s0 -> chan_tracks (notifiers (lv_store s0)) t (reg_chan r) -> rtc act s0 s -> ~ owed_to s t ->
  ~ unchanged t (lv_log s0) (lv_log s) -> wake_ready s (wake_arm s0 r) = true.
Proof.
  intros Hok Ht Ha Ho Hne. destruct (activity_spec _ _ t Ha Hok) as (_ & _ & os & Hs & [?|[Hw|?]]); [done| |done].
  simpl. eapply armed_ready; [apply Hok|done|exact Hs|by left].
Qed.

#[export] Instance live_spec : LiveSpec LiveStore.
Proof.
  refine (@Build_LiveSpec LiveStore live_raw live_raw_spec live_wake (rtc act) owed_to
    (fun s t r => chan_tracks (notifiers (lv_store s)) t (reg_chan r)) _ _ _ _ _ _ _).
  - intros s. apply rtc_refl.
  - intros s1 s2 s3. intros ??; by etrans.
  - intros s s' Hok Ha. by destruct (activity_spec _ _ None Ha Hok).
  - intros s s' id Hok Ha. apply log_stream_prefix. by destruct (activity_spec _ _ None Ha Hok) as (_ & ? & _).
  - intros s s' t r Hok Ht Ha. destruct (activity_spec _ _ t Ha Hok) as (_ & _ & os & Hs & _).
    exact (tracks_run _ _ _ _ _ (proj2 Hok) Hs Ht).
  - intros s s' t r [Hr Hg] E. simpl in E. destruct (register (notifiers (lv_store s)) t) as [n r'] eqn:Er.
    injection E as <- ->. destruct (register_tracks _ _ _ _ _ Hg Er) as [Hg' Ht].
    split_and!; [split; [done|]|done|done]. by destruct t.
  - intros s0 s key r Hok Ht Ha Ho Hne. by eapply arm_after_activity.
Defined.

#[export] Instance live_all_spec : LiveAllSpec LiveStore.
Proof.
  refine (@Build_LiveAllSpec LiveStore live_raw live_raw_spec live_wake live_all live_spec lv_log Pos.as_u64
    (fun s0 s c a => 0 <= a /\ lv_log s0 `prefix_of` lv_log s /\ global_inv (len (lv_log s0)) (global_index (lv_inner s)) c a)
    _ _ _ _ _).
  - intros p. pose proof (pos_range p). lia.
  - intros s s' Hok Ha. by destruct (activity_spec _ _ None Ha Hok) as (_ & ? & _).
  - intros s from c [Hr _] [= <-]. split_and!; [destruct from as [p|]; simpl; [pose proof (pos_range p)|]; lia|done|].
    split; simpl; [apply nz_range|done|apply prefix_nil|done].
  - intros s0 s s' c a Hok Ha (Hnn & Hp0 & Hc). destruct (activity_spec _ _ None Ha Hok) as (Hok' & Hp & _).
    assert (lv_log s0 `prefix_of` lv_log s') as Hp' by (by etrans).
    assert (len (lv_log s0) <= len (lv_log s')) as Hle.
    { destruct Hp' as [k ->]. rewrite len_app. pose proof (len_nonneg k). lia. }
    destruct (poll_all_spec (len (lv_log s0)) (lv_log s') (lv_inner s') (global_index (lv_inner s)) c a) as
      [(x & c' & E & Hl & Hc')|[E Hend]]; [apply Hok'| |done|done| |].
    + eapply index_of_prefix; [apply (rep_index _ _ (proj1 Hok))|apply (rep_index _ _ (proj1 Hok'))|done].
    + left. destruct x as [[p id] env]. exists p, id, env, c'. simpl. rewrite E. split; [done|].
      unfold log_view in Hl. rewrite list_lookup_imap in Hl.
      destruct (lv_log s' !! Z.to_nat a) as [[id' pe]|] eqn:El; simplify_eq/=. unfold item_view in *. simplify_eq/=.
      split_and!; [done|lia|lia|done|done].
    + right. exists None. simpl. by rewrite E.
  - intros s0 s r Hok Ht Ha Ho Hne. by apply (arm_after_activity s0 s None r).
Defined.

End live.

(** ** A concrete subscription *)

#[local] Existing Instance target64.
#[local] Existing Instance counter_watch.
#[local] Existing Instance list_array_string.

Definition live0 : LiveStore := MkLiveStore sample_store [] [].

Lemma live0_ok : live_ok live0.
Proof. split; [apply represents_default|apply reg_inv_new]. Qed.

(** A subscriber on the sample stream from its beginning. *)
Definition opened : LiveStore := (subscribe (R := live_raw true) live0 (sk_bytes sample_key) None).1.
Definition sub_catchup : StreamCatchup :=
  MkStreamCatchup sample_key (MkWakeReg 1%nat (rx_of (notifiers (lv_store opened)) 1%nat) (Some (MkGuard (sk_bytes sample_key)))).
#[local] Instance sub_target : Catchup LiveStore := stream_catchup (R := live_raw true) sub_catchup.
#[local] Instance sub_spec : CatchupSpec LiveStore := stream_catchup_spec (RS := live_raw_spec true) (L := live_spec true) sub_catchup.

Lemma opened_is : subscribe (R := live_raw true) live0 (sk_bytes sample_key) None =
  (opened, Ok (existT sub_catchup (live_stepped None))).
Proof. reflexivity. Qed.

Lemma opened_ok : catchup_inv opened.
Proof.
  pose proof (register_on (LiveSpec := live_spec true) live0 opened (Some (sk_bytes sample_key)) (sc_reg sub_catchup) live0_ok) as H.
  destruct H as (? & ? & _); [reflexivity|done].
Qed.

(** Turn by turn: the loop drains the empty stream, tells the consumer it is caught
    up, and parks. *)
Definition parked : panicking (list (result (Step (Item LiveStore)) (CError LiveStore)) * LiveState LiveStore) :=
  run_alone 10 opened (live_stepped None).

Definition parked_state : LiveState LiveStore :=
  MkLive None None 0 true (Parked (arm (notifiers (lv_store opened)) (sc_reg sub_catchup))).

Lemma parked_is : parked = Returns ([caught_up_mark], parked_state).
Proof. reflexivity. Qed.

(** Then another task appends to the stream, and announces it. *)
Definition appended : Inner := (append_inner (lv_inner opened) sample_key None sample_batch).1.
Definition announced : LiveStore :=
  MkLiveStore (MkStore appended (wake (notifiers (lv_store opened)) (sk_bytes sample_key)) (batch_size (lv_store opened)))
    [] (lv_guards opened).

Lemma opened_to_announced : rtc act opened announced.
Proof.
  eapply rtc_l; [eapply (act_append opened sample_key None sample_batch appended);
    [apply sample_batch_ok|reflexivity]|].
  eapply rtc_l; [eapply (act_announce (committed opened appended [sample_key]) (OpWakeStream (sk_bytes sample_key)) [OpWakeAll]);
    [reflexivity|apply step_wake_stream]|].
  eapply rtc_l; [eapply (act_announce _ OpWakeAll []); [reflexivity|apply step_wake_all]|]. apply rtc_refl.
Qed.

Lemma parked_run : sys_steps (opened, live_stepped None) [caught_up_mark] (announced, parked_state).
Proof.
  apply (sys_steps_app _ [caught_up_mark] (opened, parked_state) []).
  - apply (run_alone_steps 10), parked_is.
  - eapply sys_env; [exact opened_to_announced|constructor].
Qed.

(** The parked subscriber is woken and delivers the event. *)
Lemma no_lost_wakeup_witness : yields_next 4 announced parked_state 0.
Proof.
  change 0 with (index None + len (delivered [caught_up_mark])).
  apply (no_lost_wakeup opened None [caught_up_mark] announced parked_state).
  - exact opened_ok.
  - exact parked_run.
  - intros (o & Ho & _). inversion Ho.
  - intros p. destruct p as [v|]; [|reflexivity]. simpl. by destruct (next v).
  - reflexivity.
Defined.

Lemma subscription_exactly_once_witness :
  exists os l, sys_steps (announced, live_stepped None) os (announced, l) /\ length os = 2%nat /\
    delivered os `prefix_of` [sample_envelope INITIAL].
Proof.
  assert (match run_alone 6 announced (live_stepped None) with Returns (os, _) => length os | Panics => 0 end = 2)%nat
    as Hl by (vm_compute; reflexivity).
  destruct (run_alone 6 announced (live_stepped None)) as [[os l]|] eqn:E; [|discriminate Hl].
  apply run_alone_steps in E. exists os, l. split; [exact E|]. split; [exact Hl|].
  destruct (subscription_exactly_once announced None os announced l) as [H _].
  - exact (grows_inv _ _ opened_ok opened_to_announced).
  - exact E.
  - exact H.
Defined.
