(* ===== verification/Conformance.v ===== *)
(** * The conformance kit for store adapters
      (crates/store-testing/src: row.rs, sequence.rs, boundary.rs)

    The checks an adapter's author runs, as programs over the interface of a store: the
    sequential checks of streams, of the order of all events and of rejected input.  A
    check passes or panics; one that panics has failed, which is [Violated], or
    [Refused e] where the panic carries an error [e] that the store reported of its
    own.  Loops over a cursor take fuel.  The checks of subscriptions and reopening are
    in [ConformanceSub], those of concurrent tasks in [ConformanceRace]. *)

From Stdlib Require Import String Sorted.
From stdpp Require Import pretty.
From S2P Require Import Prelude Utf8 ErrorId Version Value Wire Envelope Wake RawStore Import Log InMemory Subscription LiveInMemory.
Close Scope string_scope.
Open Scope list_scope.

(** ** Rows (row.rs) *)

Record ConformanceRow : Type := MkRow {
  cr_version : Z;
  cr_event_type : bytes;
  cr_schema_version : Z;
  cr_payload : bytes;
  cr_metadata : option bytes;
}.

#[export] Instance row_eq_dec : EqDecision ConformanceRow.
Proof. solve_decision. Defined.

Definition row_new (version : Z) (event_type payload : bytes) : ConformanceRow := MkRow version event_type 1 payload None.
Definition with_schema_version (r : ConformanceRow) (schema_version : Z) : ConformanceRow :=
  MkRow (cr_version r) (cr_event_type r) schema_version (cr_payload r) (cr_metadata r).
Definition with_metadata (r : ConformanceRow) (metadata : bytes) : ConformanceRow :=
  MkRow (cr_version r) (cr_event_type r) (cr_schema_version r) (cr_payload r) (Some metadata).


Definition envelope_for (row : ConformanceRow) : panicking PendingEnvelope :=
  panicking_try (expect (new (cr_version row))) (fun version =>
  panicking_try (expect_ok (Builder.event_type_bytes (pending_envelope version) (cr_event_type row))) (fun typed =>
  panicking_try (expect_ok (SchemaVersion.from_u32 (cr_schema_version row))) (fun schema =>
  let staged := Builder.schema_version (Builder.payload typed (cr_payload row)) schema in
  let staged := match cr_metadata row with Some m => Builder.metadata staged m | None => staged end in
  expect_ok (Builder.build staged)))).

Definition row_of (env : PersistedEnvelope) : ConformanceRow :=
  MkRow (as_u64 (ps_version env)) (PersistedEnvelope.event_type env) (SchemaVersion.get (ps_schema_version env))
    (PersistedEnvelope.payload env) (PersistedEnvelope.metadata env).

(** The order of positions the store trait asks for. *)
Class AllPosition (P : Type) := {
  pos_ltb : P -> P -> bool;
  pos_eq_dec :: EqDecision P;
}.

(** ** Checks *)

(** A program over a store of type [S] that may report errors of type [E]. *)
Section program.
Context {S E : Type}.

Inductive Verdict (A : Type) : Type :=
| Passed (a : A)
| Violated
| Refused (e : E)
| Unfinished.
#[global] Arguments Passed {A}.
#[global] Arguments Violated {A}.
#[global] Arguments Refused {A}.
#[global] Arguments Unfinished {A}.

Definition program (A : Type) : Type := S -> S * Verdict A.

Definition pass {A} (a : A) : program A := fun s => (s, Passed a).
Definition fail {A} : program A := fun s => (s, Violated).
Definition refuse {A} (e : E) : program A := fun s => (s, Refused e).
Definition kbind {A B} (m : program A) (k : A -> program B) : program B := fun s =>
  match m s with
  | (s, Passed a) => k a s
  | (s, Violated) => (s, Violated)
  | (s, Refused e) => (s, Refused e)
  | (s, Unfinished) => (s, Unfinished)
  end.

Definition must {A} (p : panicking A) : program A := match p with Returns a => pass a | Panics => fail end.
Definition assert (b : bool) : program () := if b then pass () else fail.
Definition index {A} (l : list A) (i : nat) : program A := must (expect (l !! i)).
(** [for x in l { f(x) }]. *)
Fixpoint for_each {X} (l : list X) (f : X -> program ()) : program () :=
  match l with [] => pass () | x :: l => kbind (f x) (fun _ => for_each l f) end.
End program.
#[global] Arguments Verdict : clear implicits.
#[global] Arguments program : clear implicits.
Notation "'let+' x ':=' m 'in' k" := (kbind m (fun x => k)) (at level 200, x name, m at level 100, k at level 200).

Section kit.
Context {S : Type} {R : RawEventStore S} {RA : RawAllStore S} {AP : AllPosition (AllPos S)} (fuel : nat).
Notation check := (program S (SError S)).

(** [store.append(..).await]. *)
Definition kit_append (id : StreamKey) (expected : option Version) (b : PendingBatch.t) : check (result (AllPos S) (AppendError (SError S))) :=
  fun s => match append s id expected b with (s, Returns r) => (s, Passed r) | (s, Panics) => (s, Violated) end.

(** [unwrap_or_else(|e| panic!(..))] and [expect_err] of an append. *)
Definition unwrap_append (r : result (AllPos S) (AppendError (SError S))) : check (AllPos S) :=
  match r with Ok p => pass p | Err (AppendConflict _ _ _) => fail | Err (AppendStore e) => refuse e end.
Definition expect_err {A} (r : result A (AppendError (SError S))) : check (AppendError (SError S)) :=
  match r with Ok _ => fail | Err e => pass e end.

(** [rows.iter().map(envelope_for).collect()]. *)
Fixpoint envelopes_for (rows : list ConformanceRow) : panicking (list PendingEnvelope) :=
  match rows with
  | [] => Returns []
  | row :: rows => panicking_try (envelope_for row) (fun env => panicking_try (envelopes_for rows) (fun envs => Returns (env :: envs)))
  end.

Definition append_rows (id : StreamKey) (rows : list ConformanceRow) : check () :=
  match rows with
  | [] => pass ()
  | _ =>
      let+ envs := must (envelopes_for rows) in
      let+ batch := must (expect (PendingBatch.new envs)) in
      let+ r := kit_append id None batch in
      let+ _ := unwrap_append r in
      pass ()
  end.

Definition append_event_at (id : StreamKey) (version : Z) (payload : bytes) : check (AllPos S) :=
  let expected := new (Z.max 0 (version - 1)) in
  let+ env := must (envelope_for (row_new version (text "E") payload)) in
  let+ r := kit_append id expected (PendingBatch.of_one env) in
  unwrap_append r.

Definition append_event (id : StreamKey) (version : Z) (payload : bytes) : check () :=
  let+ _ := append_event_at id version payload in pass ().

(** Draining a cursor of one stream. *)
Fixpoint drain_loop (n : nat) (c : Cursor S) : check (list PersistedEnvelope * Cursor S) :=
  match n with
  | O => fun s => (s, Unfinished)
  | Datatypes.S n => fun s =>
      match stream_next s c with
      | Panics => (s, Violated)
      | Returns (None, c) => (s, Passed ([], c))
      | Returns (Some (Err e), _) => (s, Refused e)
      | Returns (Some (Ok env), c) => (let+ p := drain_loop n c in pass (env :: p.1, p.2)) s
      end
  end.

Definition open_stream (id : StreamKey) (from : Version) : check (Cursor S) := fun s =>
  match read_stream s id from with Ok c => (s, Passed c) | Err e => (s, Refused e) end.

Definition drain_stream (id : StreamKey) (from : Version) : check (list ConformanceRow) :=
  let+ c := open_stream id from in
  let+ p := drain_loop fuel c in
  pass (row_of <$> p.1).

(** The items of a cursor over all streams, at most [limit] of them. *)
Notation AllItem := (AllPos S * StreamKey * PersistedEnvelope)%type.

Definition open_all (from : option (AllPos S)) : check (AllCursor S) := fun s =>
  match store_read_all s from with Ok c => (s, Passed c) | Err e => (s, Refused e) end.

Fixpoint drain_items (n : nat) (c : AllCursor S) : check (list AllItem) :=
  match n with
  | O => fun s => (s, Unfinished)
  | Datatypes.S n => fun s =>
      match all_next s c with
      | Panics => (s, Violated)
      | Returns (None, _) => (s, Passed [])
      | Returns (Some (Err e), _) => (s, Refused e)
      | Returns (Some (Ok item), c) => (let+ items := drain_items n c in pass (item :: items)) s
      end
  end.

Definition drain_raw (from : option (AllPos S)) : check (list AllItem) :=
  let+ c := open_all from in drain_items fuel c.
Definition drain_all (from : option (AllPos S)) : check (list (AllPos S * bytes)) :=
  let+ items := drain_raw from in
  pass ((fun i : AllItem => (i.1.1, PersistedEnvelope.payload i.2)) <$> items).
Definition drain_all_attributed (from : option (AllPos S)) : check (list (AllPos S * bytes * bytes)) :=
  let+ items := drain_raw from in
  pass ((fun i : AllItem => (i.1.1, StreamKey.as_bytes i.1.2, PersistedEnvelope.payload i.2)) <$> items).
Definition drain_all_with_metadata (from : option (AllPos S)) : check (list (AllPos S * option bytes * bytes)) :=
  let+ items := drain_raw from in
  pass ((fun i : AllItem => (i.1.1, PersistedEnvelope.metadata i.2, PersistedEnvelope.payload i.2)) <$> items).

(** [windows(2)]. *)
Fixpoint strictly_increasing (positions : list (AllPos S)) : bool :=
  match positions with
  | p :: (q :: _) as rest => pos_ltb p q && strictly_increasing rest
  | _ => true
  end.
Definition assert_strictly_increasing {A} (items : list (AllPos S * A)) : check () := assert (strictly_increasing items.*1).

(** ** sequence.rs *)

Definition key (s : string) : StreamKey := StreamKey.from_slice (text s).
Definition bytes_of (l : list Z) : bytes := byte.of_Z <$> l.
Definition version_of (v : Z) : check Version := must (expect (new v)).
Definition plain_rows (n : Z) : list ConformanceRow := (fun v => row_new v (text "E") []) <$> seqZ 1 n.

Definition check_empty_read_yields_none : check () :=
  let+ got := drain_stream (key "missing") INITIAL in
  assert (bool_decide (got = [])).

Definition round_trip_rows : list ConformanceRow :=
  [row_new 1 (text "Created") [];
   with_schema_version (row_new 2 (text "user.signed_up") (bytes_of [0])) 7;
   with_metadata (row_new 3 (text "ÉvénementUTF8") (replicate 64 (byte.of_Z 0))) (bytes_of [1; 2; 3]);
   with_schema_version (row_new 4 (text "with spaces 123") (replicate 64 (byte.of_Z 255))) u32_max;
   row_new 5 (text "E") (bytes_of (seqZ 0 256));
   row_new 6 (text "E") ((fun i => byte.of_Z (i mod 256)) <$> seqZ 0 4096)].

Definition check_append_then_read_round_trips : check () :=
  let+ _ := append_rows (key "round-trip") round_trip_rows in
  let+ got := drain_stream (key "round-trip") INITIAL in
  assert (bool_decide (got = round_trip_rows)).

(** [n] more polls of an ended stream. *)
Fixpoint polls_none (n : nat) (c : Cursor S) : check () :=
  match n with
  | O => pass ()
  | Datatypes.S n => fun s =>
      match stream_next s c with
      | Returns (None, c) => polls_none n c s
      | _ => (s, Violated)
      end
  end.

Definition check_versions_strictly_monotonic_and_fused : check () :=
  let+ _ := append_rows (key "monotonic") (plain_rows 64) in
  let+ c := open_stream (key "monotonic") INITIAL in
  let+ p := drain_loop fuel c in
  let+ _ := assert (bool_decide ((fun env => as_u64 (ps_version env)) <$> p.1 = seqZ 1 64)) in
  polls_none 8 p.2.

Definition check_large_stream_completes : check () :=
  let+ _ := append_rows (key "large") (plain_rows 1500) in
  let+ got := drain_stream (key "large") INITIAL in
  assert (bool_decide (cr_version <$> got = seqZ 1 1500)).

Definition check_read_stream_from_is_inclusive : check () :=
  let+ _ := append_rows (key "inclusive") (plain_rows 5) in
  let+ third := version_of 3 in
  let+ got := drain_stream (key "inclusive") third in
  assert (bool_decide (cr_version <$> got = [3; 4; 5])).

Definition check_append_conflict_is_surfaced : check () :=
  let id := key "conflict" in
  let+ _ := append_rows id [row_new 1 (text "E") (bytes_of [1]); row_new 2 (text "E") (bytes_of [2])] in
  let+ env := must (envelope_for (row_new 1 (text "E") (bytes_of [9]))) in
  let+ r := kit_append id None (PendingBatch.of_one env) in
  let+ err := expect_err r in
  let+ _ := match err with
            | AppendConflict _ _ actual => assert (bool_decide (actual = new 2))
            | AppendStore e => refuse e
            end in
  let+ got := drain_stream id INITIAL in
  let+ _ := assert (len got =? 2) in
  let+ first := index got 0 in
  let+ _ := assert (bool_decide (cr_payload first = bytes_of [1])) in
  let+ second := index got 1 in
  assert (bool_decide (cr_payload second = bytes_of [2])).

Definition check_append_retry_after_conflict_succeeds : check () :=
  let id := key "retry" in
  let+ _ := append_rows id [row_new 1 (text "E") (bytes_of [1])] in
  let+ stale := must (envelope_for (row_new 1 (text "E") (bytes_of [9]))) in
  let+ r := kit_append id None (PendingBatch.of_one stale) in
  let+ _ := expect_err r in
  let+ retry := must (envelope_for (row_new 2 (text "E") (bytes_of [2]))) in
  let+ r := kit_append id (new 1) (PendingBatch.of_one retry) in
  let+ _ := unwrap_append r in
  let+ got := drain_stream id INITIAL in
  assert (bool_decide (cr_version <$> got = [1; 2])).

Definition check_all_empty_store_yields_none : check () :=
  let+ got := drain_all None in
  assert (bool_decide (got = [])).

Definition check_all_global_order_across_streams : check () :=
  let a := key "a" in
  let b := key "b" in
  let+ _ := append_event a 1 (text "a1") in
  let+ _ := append_event a 2 (text "a2") in
  let+ _ := append_event b 1 (text "b1") in
  let+ _ := append_event a 3 (text "a3") in
  let+ _ := append_event a 4 (text "a4") in
  let+ got := drain_all None in
  let+ _ := assert (bool_decide (got.*2 = [text "a1"; text "a2"; text "b1"; text "a3"; text "a4"])) in
  assert_strictly_increasing got.

Definition check_all_metadata_round_trips : check () :=
  let a := key "a" in
  let b := key "b" in
  let row0 := row_new 1 (text "A") (text "a1") in
  let row1 := with_metadata (row_new 1 (text "B") (text "b1")) (bytes_of [1; 2; 3]) in
  let row2 := with_metadata (row_new 2 (text "A") (text "a2")) (bytes_of [4; 5]) in
  let+ _ := append_rows a [row0; row2] in
  let+ _ := append_rows b [row1] in
  let+ got := drain_all_with_metadata None in
  let+ _ := assert (bool_decide (got.*2 = [text "a1"; text "a2"; text "b1"])) in
  let+ _ := assert (bool_decide (got.*1.*2 = [None; Some (bytes_of [4; 5]); Some (bytes_of [1; 2; 3])])) in
  assert_strictly_increasing ((fun g => (g.1.1, g.2)) <$> got).

(** The payload at a position. *)
Definition payload_at (all : list (AllPos S * bytes)) (p : AllPos S) : check bytes :=
  must (expect (snd <$> head (filter (fun i => i.1 = p) all))).

Definition check_append_returns_assigned_all_position : check () :=
  let a := key "a" in
  let b := key "b" in
  let+ a1 := append_event_at a 1 (text "a1") in
  let+ a2 := append_event_at a 2 (text "a2") in
  let+ b1 := append_event_at b 1 (text "b1") in
  let+ _ := assert (pos_ltb a1 a2) in
  let+ _ := assert (pos_ltb a2 b1) in
  let+ all := drain_all None in
  let+ got := payload_at all a1 in
  let+ _ := assert (bool_decide (got = text "a1")) in
  let+ got := payload_at all a2 in
  let+ _ := assert (bool_decide (got = text "a2")) in
  let+ got := payload_at all b1 in
  assert (bool_decide (got = text "b1")).

Definition check_multi_event_append_returns_last_position : check () :=
  let rows := [row_new 1 (text "E") (text "v1"); row_new 2 (text "E") (text "v2"); row_new 3 (text "E") (text "v3")] in
  let+ envs := must (envelopes_for rows) in
  let+ batch := must (expect (PendingBatch.new envs)) in
  let+ r := kit_append (key "multi") None batch in
  let+ returned := unwrap_append r in
  let+ all := drain_all None in
  let+ last := must (expect (last all)) in
  let+ _ := assert (bool_decide (returned = last.1)) in
  let+ _ := assert (bool_decide (last.2 = text "v3")) in
  let+ first := index all 0 in
  assert (negb (bool_decide (returned = first.1))).

Definition check_all_items_carry_their_stream_key : check () :=
  let alpha := key "alpha" in
  let beta := key "beta" in
  let+ _ := append_event alpha 1 (text "a1") in
  let+ _ := append_event beta 1 (text "b1") in
  let+ _ := append_event alpha 2 (text "a2") in
  let+ got := drain_all_attributed None in
  assert (bool_decide ((fun g => (g.1.2, g.2)) <$> got = [(text "alpha", text "a1"); (text "beta", text "b1"); (text "alpha", text "a2")])).

Definition check_all_from_is_exclusive : check () :=
  let a := key "a" in
  let+ _ := append_event a 1 (text "a1") in
  let+ _ := append_event a 2 (text "a2") in
  let+ _ := append_event a 3 (text "a3") in
  let+ full := drain_all None in
  let+ _ := assert (len full =? 3) in
  let+ first := index full 0 in
  let checkpoint := first.1 in
  let+ rest := drain_all (Some checkpoint) in
  let+ _ := assert (bool_decide (rest.*2 = [text "a2"; text "a3"])) in
  let+ next := index rest 0 in
  assert (pos_ltb checkpoint next.1).

(** The interleaved appends of [check_all_multi_resume_cycles], from the [i]th on. *)
Definition labelled (s : string) (v : Z) : bytes := text s ++ text (pretty (Z.to_N v)).
Fixpoint append_interleaved (n : nat) (i va vb : Z) : check (list bytes) :=
  match n with
  | O => pass []
  | Datatypes.S n =>
      if i mod 2 =? 0 then
        let p := labelled "a" (va + 1) in
        let+ _ := append_event (key "a") (va + 1) p in
        let+ expected := append_interleaved n (i + 1) (va + 1) vb in
        pass (p :: expected)
      else
        let p := labelled "b" (vb + 1) in
        let+ _ := append_event (key "b") (vb + 1) p in
        let+ expected := append_interleaved n (i + 1) va (vb + 1) in
        pass (p :: expected)
  end.

(** At most [n] items of an open cursor. *)
Fixpoint take_items (n : nat) (c : AllCursor S) : check (list AllItem) :=
  match n with
  | O => pass []
  | Datatypes.S n => fun s =>
      match all_next s c with
      | Panics => (s, Violated)
      | Returns (None, _) => (s, Passed [])
      | Returns (Some (Err e), _) => (s, Refused e)
      | Returns (Some (Ok item), c) => (let+ items := take_items n c in pass (item :: items)) s
      end
  end.

(** The resume cycles: three items each, until a cycle has none. *)
Fixpoint resume_cycles (n : nat) (checkpoint : option (AllPos S)) : check (list (AllPos S * bytes)) :=
  match n with
  | O => fun s => (s, Unfinished)
  | Datatypes.S n =>
      let+ c := open_all checkpoint in
      let+ items := take_items 3 c in
      match last items with
      | None => pass []
      | Some i =>
          let+ acc := resume_cycles n (Some i.1.1) in
          pass (((fun i : AllItem => (i.1.1, PersistedEnvelope.payload i.2)) <$> items) ++ acc)
      end
  end.

Definition check_all_multi_resume_cycles : check () :=
  let+ expected := append_interleaved 10 0 0 0 in
  let+ full := drain_all None in
  let+ _ := assert (bool_decide (full.*2 = expected)) in
  let+ acc := resume_cycles fuel None in
  let+ _ := assert (bool_decide (acc.*2 = full.*2)) in
  assert_strictly_increasing acc.

Definition check_all_boundary_then_new_append : check () :=
  let a := key "a" in
  let b := key "b" in
  let+ _ := append_event a 1 (text "a1") in
  let+ _ := append_event b 1 (text "b1") in
  let+ full := drain_all None in
  let+ _ := assert (len full =? 2) in
  let+ last := must (expect (last full)) in
  let+ empty := drain_all (Some last.1) in
  let+ _ := assert (bool_decide (empty = [])) in
  let+ _ := append_event a 2 (text "a2") in
  let+ after := drain_all (Some last.1) in
  let+ _ := assert (bool_decide (after.*2 = [text "a2"])) in
  let+ first := index after 0 in
  assert (pos_ltb last.1 first.1).

Definition check_read_stream_inclusive_read_all_exclusive_coexist : check () :=
  let a := key "a" in
  let+ _ := append_event a 1 (text "a1") in
  let+ _ := append_event a 2 (text "a2") in
  let+ _ := append_event a 3 (text "a3") in
  let+ second := version_of 2 in
  let+ got := drain_stream a second in
  let+ _ := assert (bool_decide (cr_version <$> got = [2; 3])) in
  let+ full := drain_all None in
  let+ _ := assert (len full =? 3) in
  let+ of_a2 := index full 1 in
  let+ after := drain_all (Some of_a2.1) in
  assert (bool_decide (after.*2 = [text "a3"])).

(** ** boundary.rs *)

Definition check_conflict_leaves_store_unchanged : check () :=
  let id := key "unchanged" in
  let+ _ := append_rows id [with_metadata (row_new 1 (text "E") (bytes_of [1])) (bytes_of [7]); row_new 2 (text "E") (bytes_of [2])] in
  let+ before_stream := drain_stream id INITIAL in
  let+ before_all := drain_all None in
  let+ stale := must (envelope_for (row_new 1 (text "E") (bytes_of [9]))) in
  let+ r := kit_append id None (PendingBatch.of_one stale) in
  let+ _ := expect_err r in
  let+ after_stream := drain_stream id INITIAL in
  let+ after_all := drain_all None in
  let+ _ := assert (bool_decide (after_stream = before_stream)) in
  assert (len after_all =? len before_all).

(** [matches!(err, AppendError::Conflict { .. })]. *)
Definition assert_conflict (err : AppendError (SError S)) : check () :=
  match err with AppendConflict _ _ _ => pass () | AppendStore e => refuse e end.

Definition check_version_gap_batch_rejected : check () :=
  let id := key "gap" in
  let+ envs := must (envelopes_for [row_new 1 (text "E") (bytes_of [1]); row_new 3 (text "E") (bytes_of [3])]) in
  let+ batch := must (expect (PendingBatch.new envs)) in
  let+ r := kit_append id None batch in
  let+ err := expect_err r in
  let+ _ := assert_conflict err in
  let+ got := drain_stream id INITIAL in
  assert (bool_decide (got = [])).

Definition check_wrong_first_version_rejected : check () :=
  let id := key "first" in
  let+ envs := must (envelopes_for [row_new 3 (text "E") (bytes_of [3])]) in
  let+ batch := must (expect (PendingBatch.new envs)) in
  let+ r := kit_append id None batch in
  let+ err := expect_err r in
  let+ _ := assert_conflict err in
  let+ got := drain_stream id INITIAL in
  assert (bool_decide (got = [])).

Definition check_metadata_absent_vs_present_distinct : check () :=
  let id := key "meta" in
  let+ _ := append_rows id [row_new 1 (text "E") (bytes_of [1]); with_metadata (row_new 2 (text "E") (bytes_of [2])) (bytes_of [0]);
                            with_metadata (row_new 3 (text "E") (bytes_of [3])) (bytes_of [1; 2; 3])] in
  let+ got := drain_stream id INITIAL in
  let+ first := index got 0 in
  let+ _ := assert (bool_decide (cr_metadata first = None)) in
  let+ second := index got 1 in
  let+ _ := assert (bool_decide (cr_metadata second = Some (bytes_of [0]))) in
  let+ third := index got 2 in
  assert (bool_decide (cr_metadata third = Some (bytes_of [1; 2; 3]))).

Definition long_event_type : bytes := replicate (Z.to_nat u16_max) (byte.of_Z 97).

Definition check_max_length_event_type_round_trips : check () :=
  let id := key "maxtype" in
  let+ typed := must (expect_ok (Builder.event_type_bytes (pending_envelope INITIAL) long_event_type)) in
  let+ env := must (expect_ok (Builder.build (Builder.payload typed (bytes_of [1])))) in
  let+ r := kit_append id None (PendingBatch.of_one env) in
  let+ _ := unwrap_append r in
  let+ got := drain_stream id INITIAL in
  let+ first := index got 0 in
  assert (bool_decide (cr_event_type first = long_event_type)).

Definition large_payload : bytes := (fun i => byte.of_Z (i mod 251)) <$> seqZ 0 1048576.

Definition check_large_payload_round_trips : check () :=
  let id := key "large-payload" in
  let+ _ := append_rows id [row_new 1 (text "E") large_payload] in
  let+ got := drain_stream id INITIAL in
  let+ _ := assert (len got =? 1) in
  let+ first := index got 0 in
  assert (bool_decide (cr_payload first = large_payload)).

Definition check_prefix_stream_ids_isolated : check () :=
  let a := key "a" in
  let ab := key "ab" in
  let unicode := key "поток-流" in
  let binary := StreamKey.from_slice (bytes_of [0; 255; 66]) in
  let+ _ := append_rows a [row_new 1 (text "E") (bytes_of [1])] in
  let+ _ := append_rows ab [row_new 1 (text "E") (bytes_of [2]); row_new 2 (text "E") (bytes_of [3])] in
  let+ _ := append_rows unicode [row_new 1 (text "E") (bytes_of [4])] in
  let+ _ := append_rows binary [row_new 1 (text "E") (bytes_of [5])] in
  let+ got_a := drain_stream a INITIAL in
  let+ _ := assert (len got_a =? 1) in
  let+ row := index got_a 0 in
  let+ _ := assert (bool_decide (cr_payload row = bytes_of [1])) in
  let+ got_ab := drain_stream ab INITIAL in
  let+ _ := assert (len got_ab =? 2) in
  let+ got_u := drain_stream unicode INITIAL in
  let+ _ := assert (len got_u =? 1) in
  let+ row := index got_u 0 in
  let+ _ := assert (bool_decide (cr_payload row = bytes_of [4])) in
  let+ got_binary := drain_stream binary INITIAL in
  let+ _ := assert (len got_binary =? 1) in
  let+ row := index got_binary 0 in
  assert (bool_decide (cr_payload row = bytes_of [5])).

(** [conformance!], its sequential stream and log checks. *)
Definition kit_checks : list (check ()) :=
  [check_empty_read_yields_none; check_append_then_read_round_trips; check_versions_strictly_monotonic_and_fused;
   check_large_stream_completes; check_read_stream_from_is_inclusive; check_append_conflict_is_surfaced;
   check_append_retry_after_conflict_succeeds; check_all_empty_store_yields_none; check_all_global_order_across_streams;
   check_all_metadata_round_trips; check_append_returns_assigned_all_position; check_multi_event_append_returns_last_position;
   check_all_items_carry_their_stream_key; check_all_from_is_exclusive; check_all_multi_resume_cycles;
   check_all_boundary_then_new_append; check_read_stream_inclusive_read_all_exclusive_coexist;
   check_conflict_leaves_store_unchanged; check_version_gap_batch_rejected; check_wrong_first_version_rejected;
   check_metadata_absent_vs_present_distinct; check_max_length_event_type_round_trips; check_large_payload_round_trips;
   check_prefix_stream_ids_isolated].
End kit.

(** Strictly after a position. *)
Definition is_after {P} `{!AllPosition P} (from : option P) (p : P) : bool := match from with Some q => pos_ltb q p | None => true end.

(** ** What the kit needs of a store

    The contract of streams ([RawEventStoreSpec]), and that the store is one log: an
    append adds its events at increasing positions and returns the last of them, a scan
    delivers what is strictly after its position, and a stream that has ended stays
    ended. *)
Class AllLogSpec (S : Type) {R : RawEventStore S} {RS : RawEventStoreSpec S} {RA : RawAllStore S} {AP : AllPosition (AllPos S)} := {
  all_log : S -> list (AllPos S * StreamKey * PendingEnvelope);
  scan_at : S -> AllCursor S -> list (AllPos S * StreamKey * PendingEnvelope) -> Prop;
  stream_ended : Cursor S -> Prop;
  pos_order : StrictOrder (fun p q : AllPos S => pos_ltb p q = true);
  log_increasing s : store_inv s -> StronglySorted (fun p q => pos_ltb p q = true) (all_log s).*1.*1;
  append_logged s id expected b s' p :
    store_inv s -> batch_ok b -> append s id expected b = (s', Returns (Ok p)) ->
    exists ps, length ps = length (PendingBatch.iter b) /\ last ps = Some p /\
      all_log s' = all_log s ++ zip_with (fun p e => (p, id, e)) ps (PendingBatch.iter b);
  append_unlogged s id expected b s' e :
    store_inv s -> batch_ok b -> append s id expected b = (s', Returns (Err e)) ->
    (forall id', stream_of s' id' = stream_of s id') -> all_log s' = all_log s;
  scan_opens s from c :
    store_inv s -> store_read_all s from = Ok c ->
    scan_at s c (filter (fun i => is_after from i.1.1 = true) (all_log s));
  scan_delivers s c l :
    store_inv s -> scan_at s c l ->
    (exists e c', all_next s c = Returns (Some (Err e), c')) \/
    match l with
    | [] => exists c', all_next s c = Returns (None, c')
    | i :: l => exists env c', all_next s c = Returns (Some (Ok (i.1, env)), c') /\ from_persisted env = i.2 /\ scan_at s c' l
    end;
  stream_ends s c c' : stream_next s c = Returns (None, c') -> stream_ended c';
  stream_stays_ended s c : stream_ended c -> exists c', stream_next s c = Returns (None, c') /\ stream_ended c';
}.

(** ** A store in working order

    The kit panics on an error the store reports of its own, so that a store passes it
    only if it serves what the kit asks for: keys and values of the sizes the kit uses,
    in a store that holds no more events than its longest check writes. *)

Definition ROOM : Z := 3000.
Definition KEY_BYTES : Z := 64.
Definition VALUE_BYTES : Z := 1048576.

Definition kit_key (id : StreamKey) : Prop := 1 <= len (sk_bytes id) <= KEY_BYTES.
Definition kit_envelope (pe : PendingEnvelope) : Prop :=
  pending_ok pe /\ len (pl_bytes (pe_payload pe)) <= VALUE_BYTES /\ from_option (fun m => len (md_bytes m) <= VALUE_BYTES) True (pe_metadata pe).
Definition kit_batch (b : PendingBatch.t) : Prop := Forall kit_envelope (PendingBatch.iter b).

Class ServesKit (S : Type) {R : RawEventStore S} {RS : RawEventStoreSpec S} {RA : RawAllStore S} {AP : AllPosition (AllPos S)} {AL : AllLogSpec S} := {
  kit_storable id b : kit_key id -> kit_batch b -> storable id b;
  append_serves s id expected b s' x :
    store_inv s -> kit_key id -> kit_batch b -> len (all_log s) + len (PendingBatch.iter b) <= ROOM ->
    append s id expected b <> (s', Returns (Err (AppendStore x)));
  read_serves s id from : store_inv s -> kit_key id -> is_ok (read_stream s id from) = true;
  scan_serves s from : store_inv s -> is_ok (store_read_all s from) = true;
  scan_goes_on s c l x c' : store_inv s -> scan_at s c l -> all_next s c <> Returns (Some (Err x), c');
}.
