(* ===== verification/ConformanceSpec.v ===== *)
(** * Every store that keeps the contract passes the conformance kit

    The kit of [Conformance] against the laws of [RawEventStoreSpec] and [AllLogSpec]:
    every check passes on a store that keeps them and is in working order
    ([ServesKit]).  The in-memory store does. *)

From Stdlib Require Import String Sorted.
From S2P Require Import Prelude Utf8 ErrorId Version Value Wire Envelope Wake RawStore Import Log InMemory Subscription LiveInMemory Conformance.
Close Scope string_scope.
Open Scope list_scope.

(** ** Rows and envelopes *)

Definition pending_row (pe : PendingEnvelope) : ConformanceRow :=
  MkRow (as_u64 (pe_version pe)) (et_bytes (pe_event_type pe)) (SchemaVersion.get (pe_schema_version pe))
    (pl_bytes (pe_payload pe)) (md_bytes <$> pe_metadata pe).

(** The rows of a batch. *)
Definition batch_rows (b : PendingBatch.t) : list ConformanceRow := pending_row <$> PendingBatch.iter b.

Lemma row_of_pending env : row_of env = pending_row (from_persisted env).
Proof.
  unfold row_of, pending_row, from_persisted. cbn. f_equal. unfold PersistedEnvelope.metadata_value. by destruct (PersistedEnvelope.metadata env).
Qed.

(** The rows the envelope builder accepts, of the sizes the kit uses. *)
Definition row_ok (row : ConformanceRow) : Prop :=
  1 <= cr_version row <= u64_max /\ event_type_ok (MkEventType (cr_event_type row)) /\ 1 <= cr_schema_version row <= u32_max /\
  len (cr_payload row) <= VALUE_BYTES /\ from_option (fun m => 1 <= len m <= VALUE_BYTES) True (cr_metadata row).

Lemma plain_ok v payload : 1 <= v <= u64_max -> len payload <= VALUE_BYTES -> row_ok (row_new v (text "E") payload).
Proof. intros Hv Hp. unfold row_ok. cbn. split_and!; try done; try lia. Qed.

Lemma plain_rows_length n : length (plain_rows n) = Z.to_nat n.
Proof. unfold plain_rows. by rewrite length_fmap, length_seqZ. Qed.

Lemma plain_rows_ok n : 0 <= n <= u64_max -> Forall row_ok (plain_rows n) /\ cr_version <$> plain_rows n = seqZ 1 n /\ len (plain_rows n) = n.
Proof.
  intros Hn. unfold plain_rows. split_and!.
  - apply Forall_fmap, Forall_forall. intros v Hv%elem_of_seqZ. apply plain_ok; [lia|by vm_compute].
  - rewrite <- list_fmap_compose. apply list_fmap_id.
  - unfold len. rewrite length_fmap, length_seqZ. lia.
Qed.

Lemma envelope_for_ok row :
  row_ok row -> exists env, envelope_for row = Returns env /\ kit_envelope env /\ pending_row env = row.
Proof.
  intros (Hv & He & Hs & Hp & Hm). destruct row as [v et sv pl md]. cbn [cr_version cr_event_type cr_schema_version cr_payload cr_metadata] in *.
  unfold envelope_for. cbn [cr_version cr_event_type cr_schema_version cr_payload cr_metadata].
  destruct (new v) as [ver|] eqn:Hn; [|by apply new_None in Hn]. apply new_Some in Hn as ->. cbn [expect panicking_try].
  unfold Builder.event_type_bytes. rewrite (proj2 (event_type_from_bytes_spec et _) (conj eq_refl He)). cbn [map_err result_bind expect_ok panicking_try].
  destruct (nz_new (max := u32_max) sv) as [n|] eqn:Hz; [|by apply nz_new_None in Hz]. apply nz_new_Some in Hz as ->.
  unfold SchemaVersion.from_u32. rewrite nz_new_get. cbn [fmap option_fmap option_map ok_or expect_ok panicking_try].
  set (staged := match md with Some m => _ | None => _ end).
  set (env := MkPendingEnvelope ver (MkEventType et) (MkSchemaVersion n) (MkPayload pl) (MkMetadata <$> md)).
  assert (pending_ok env) as Hok.
  { unfold pending_ok, payload_ok, metadata_ok, MAX_PAYLOAD_LEN, MAX_METADATA_LEN, u32_max, VALUE_BYTES in *.
    split_and!; [done|cbn; lia|]. destruct md; cbn in *; [lia|done]. }
  assert (Builder.build staged = Ok env) as -> by (apply build_spec; subst staged; destruct md; cbn; done).
  exists env. split_and!; [done|split_and!; [done|done|destruct md; cbn in *; [lia|done]]|]. unfold pending_row, env. cbn. f_equal. by destruct md.
Qed.

Lemma envelopes_for_ok rows :
  Forall row_ok rows -> exists envs, envelopes_for rows = Returns envs /\ Forall kit_envelope envs /\ pending_row <$> envs = rows.
Proof.
  induction 1 as [|row rows Hr _ (envs & He & Hok & Hrows)]; [by exists []|].
  destruct (envelope_for_ok row Hr) as (env & Henv & Hp & Hrow). exists (env :: envs). cbn. rewrite Henv. cbn. rewrite He. cbn.
  split_and!; [done|by constructor|]. by rewrite Hrow, Hrows.
Qed.

Lemma kit_batch_ok b : kit_batch b -> batch_ok b.
Proof. intros H. eapply Forall_impl; [exact H|]. by intros ? [? _]. Qed.

(** ** Reasoning about checks *)

(** Rows that are valid by evaluation. *)
Ltac rows_ok := repeat (apply Forall_cons; split); try apply Forall_nil; try done; unfold row_ok; cbn; split_and!; by vm_compute.

(** The log has room: by evaluation, or by the lengths of its parts. *)
Ltac roomy := first [by vm_compute | unfold ROOM, batch_rows, len; rewrite ?length_app, ?length_zip_with, ?plain_rows_length, ?length_fmap;
  cbn [length PendingBatch.iter PendingBatch.of_one PendingBatch.first PendingBatch.rest] in *; lia].

Section rules.
Context {S E : Type}.

(** The check passes on [s], and [Q] holds then. *)
Definition holds {A} (s : S) (m : program S E A) (Q : A -> S -> Prop) : Prop :=
  match m s with
  | (s', Passed a) => Q a s'
  | _ => False
  end.

Lemma holds_bind {A B} s (m : program S E A) (k : A -> program S E B) Q : holds s m (fun a s' => holds s' (k a) Q) -> holds s (kbind m k) Q.
Proof. unfold holds, kbind. by destruct (m s) as [s' []]. Qed.

Lemma holds_mono {A} s (m : program S E A) (P Q : A -> S -> Prop) : holds s m P -> (forall a s', P a s' -> Q a s') -> holds s m Q.
Proof. unfold holds. destruct (m s) as [s' []]; auto. Qed.

Lemma holds_pass {A} s (a : A) (Q : A -> S -> Prop) : Q a s -> holds s (pass a) Q.
Proof. done. Qed.

Lemma holds_assert s b (Q : () -> S -> Prop) : b = true -> Q tt s -> holds s (assert b) Q.
Proof. by intros ->. Qed.

Lemma holds_must {A} s (p : panicking A) a (Q : A -> S -> Prop) : p = Returns a -> Q a s -> holds s (must p) Q.
Proof. by intros ->. Qed.

Lemma holds_index {A} s (l : list A) i x (Q : A -> S -> Prop) : l !! i = Some x -> Q x s -> holds s (index l i) Q.
Proof. unfold index. by intros ->. Qed.

Lemma holds_for_each {X} (I : S -> Prop) (l : list X) (f : X -> program S E ()) s0 :
  I s0 -> (forall x s0, x ∈ l -> I s0 -> holds s0 (f x) (fun _ s1 => I s1)) -> holds s0 (for_each l f) (fun _ s1 => I s1).
Proof.
  revert s0. induction l as [|x l IH]; intros s0 Hi Hf; [done|]. cbn [for_each]. apply holds_bind.
  eapply holds_mono; [apply Hf; [left|done]|]. intros u s1 Hi1. apply IH; [done|]. intros y s2 Hy. apply Hf. by right.
Qed.

Definition passes (s : S) (m : program S E ()) : Prop := holds s m (fun _ _ => True).

(** The check ends without a panic. *)
Definition accepted (s : S) (m : program S E ()) : Prop := (m s).2 = Passed ().

Lemma passes_accepted s m : passes s m -> accepted s m.
Proof. unfold passes, holds, accepted. by destruct (m s) as [s' [[]| | |]]. Qed.
End rules.

Section spec.
Context {S : Type} {R : RawEventStore S} {RS : RawEventStoreSpec S} {RA : RawAllStore S} {AP : AllPosition (AllPos S)} {AL : AllLogSpec S} {SK : ServesKit S}.
Notation check := (program S (SError S)).
Notation LogRow := (AllPos S * StreamKey * ConformanceRow)%type.

(** ** What a store shows *)

Definition upd (id : StreamKey) (rows : list ConformanceRow) (C : StreamKey -> list ConformanceRow) : StreamKey -> list ConformanceRow :=
  fun id' => if decide (id' = id) then rows else C id'.

Lemma upd_same id rows C : upd id rows C id = rows.
Proof. unfold upd. by rewrite decide_True. Qed.

Lemma upd_other id id' rows C : id' <> id -> upd id rows C id' = C id'.
Proof. intros. unfold upd. by rewrite decide_False. Qed.

Definition logged (i : AllPos S * StreamKey * PendingEnvelope) : LogRow := (i.1, pending_row i.2).

Record shows (s : S) (C : StreamKey -> list ConformanceRow) (L : list LogRow) : Prop := MkShows {
  sh_inv : store_inv s;
  sh_streams id : pending_row <$> stream_of s id = C id;
  sh_log : logged <$> all_log s = L;
}.

Lemma shows_len s C L id : shows s C L -> len (stream_of s id) = len (C id).
Proof. intros [_ <- _]. unfold len. by rewrite length_fmap. Qed.

Lemma shows_increasing s C L : shows s C L -> StronglySorted (fun p q => pos_ltb p q = true) L.*1.*1.
Proof.
  intros [Hi _ <-]. assert ((logged <$> all_log s).*1 = (all_log s).*1) as -> by (by rewrite <- list_fmap_compose).
  by apply log_increasing.
Qed.

Lemma consecutive_rows start envs :
  consecutive start (versions envs) <-> cr_version <$> (pending_row <$> envs) = seqZ start (len envs).
Proof.
  revert start. induction envs as [|env envs IH]; intros start; [done|].
  rewrite len_cons, !fmap_cons. cbn [versions fmap list_fmap consecutive]. fold (versions envs).
  rewrite (IH (start + 1)), (seqZ_cons start) by (pose proof (len_nonneg envs); lia).
  replace (Z.succ start) with (start + 1) by lia. replace (Z.pred (1 + len envs)) with (len envs) by lia.
  cbn [pending_row cr_version]. split; [by intros [-> ->]|by intros [= -> ->]].
Qed.

(** ** Appends *)

Lemma holds_append s C L id expected b Q :
  shows s C L -> kit_key id -> kit_batch b -> len L + len (batch_rows b) <= ROOM ->
  (forall s' p ps, shows s' (upd id (C id ++ batch_rows b) C) (L ++ zip_with (fun p r => (p, id, r)) ps (batch_rows b)) ->
     length ps = length (batch_rows b) -> last ps = Some p -> expected = head_version (len (C id)) ->
     consecutive 1 (versions (stream_of s id ++ PendingBatch.iter b)) -> Q (Ok p) s') ->
  (forall s' l wanted actual, shows s' C L ->
     (expected <> head_version (len (C id)) -> wanted = expected /\ actual = head_version (len (C id))) ->
     ~ (consecutive (from_option as_u64 0 expected + 1) (versions (PendingBatch.iter b)) /\ expected = head_version (len (C id))) ->
     Q (Err (AppendConflict l wanted actual)) s') ->
  holds s (kit_append id expected b) Q.
Proof.
  intros Hs Hk Hkb Hroom Hok Herr. pose proof (shows_len s C L id Hs) as Hlen. destruct Hs as [Hi Hst Hlog].
  pose proof (kit_batch_ok b Hkb) as Hb. unfold holds, kit_append.
  pose proof (append_no_panic s id expected b Hi Hb) as Hnp. destruct (append s id expected b) as [s' [[p|e]|]] eqn:Ha; [| |done].
  - destruct (append_committed _ _ _ _ _ _ Hi Hb Ha) as (Hi' & He & Hid & Hoth).
    destruct (append_logged _ _ _ _ _ _ Hi Hb Ha) as (ps & Hps & Hlast & Hl). rewrite Hlen in He.
    apply (Hok s' p ps); [split; [done| |]| | done|done|].
    + intros id'. unfold upd, batch_rows. case_decide as Hd; [subst id'; by rewrite Hid, fmap_app, Hst|by rewrite Hoth].
    + rewrite Hl, fmap_app, Hlog. f_equal. unfold batch_rows. clear. revert ps. induction (PendingBatch.iter b) as [|e l IH]; intros [|p ps]; cbn; try done. by rewrite IH.
    + unfold batch_rows. by rewrite length_fmap.
    + rewrite <- Hid. apply (stream_of_ok s' id Hi').
  - destruct e as [l wanted actual|x].
    + destruct (append_conflict_same _ _ _ _ _ _ _ _ Hi Hb Ha) as (Hi' & Hsame). apply (Herr s').
      * split; [done|intros id'; by rewrite Hsame|]. by rewrite (append_unlogged _ _ _ _ _ _ Hi Hb Ha Hsame).
      * rewrite <- Hlen. intros Hne. destruct (append_stale s id expected b Hi Hb (kit_storable id b Hk Hkb) Hne) as [l' Hl]. rewrite Ha in Hl. by injection Hl.
      * rewrite <- Hlen. intros [Hc He]. by apply (append_conflict _ _ _ _ _ _ _ _ Hi Hb Hc Ha).
    + destruct (append_serves s id expected b s' x Hi Hk Hkb); [|done]. rewrite <- Hlog in Hroom. unfold batch_rows, len in *. by rewrite !length_fmap in Hroom.
Qed.

(** An append of rows to a fresh stream. *)
Lemma holds_append_rows s C L id rows Q :
  shows s C L -> kit_key id -> len L + len rows <= ROOM ->
  C id = [] -> rows <> [] -> Forall row_ok rows -> cr_version <$> rows = seqZ 1 (len rows) ->
  (forall s' ps, shows s' (upd id rows C) (L ++ zip_with (fun p r => (p, id, r)) ps rows) -> length ps = length rows -> Q tt s') ->
  holds s (append_rows id rows) Q.
Proof.
  intros Hs Hk Hroom Hid Hne Hok Hv HQ. destruct rows as [|row rows]; [done|]. unfold append_rows.
  destruct (envelopes_for_ok _ Hok) as (envs & He & Hp & Hrows). apply holds_bind. eapply holds_must; [exact He|].
  destruct envs as [|env envs]; [done|]. apply holds_bind. eapply holds_must; [done|]. apply holds_bind.
  set (b := PendingBatch.MkBatch env envs). assert (batch_rows b = row :: rows) as Hb by done.
  apply (holds_append s C L id None b); [done|done|done|by rewrite Hb| |].
  - intros s' p ps Hs' Hps _ _ _. rewrite Hb, Hid in *. cbn [app] in Hs'. apply holds_bind. exact (HQ s' ps Hs' Hps).
  - intros s' l w a _ _ Hno. destruct Hno. split; [|by rewrite Hid].
    apply consecutive_rows. fold (batch_rows b). rewrite Hb, Hv. f_equal. rewrite <- Hb. unfold batch_rows, len. by rewrite length_fmap.
Qed.

(** An append of one event to the end of its stream. *)
Lemma holds_append_event_at s C L id v payload Q :
  shows s C L -> kit_key id -> len L + 1 <= ROOM -> v = len (C id) + 1 -> v <= u64_max -> len payload <= VALUE_BYTES ->
  let row := row_new v (text "E") payload in
  (forall s' p, shows s' (upd id (C id ++ [row]) C) (L ++ [(p, id, row)]) -> Q p s') ->
  holds s (append_event_at id v payload) Q.
Proof.
  intros Hs Hk Hroom -> Hmax Hp row HQ. pose proof (len_nonneg (C id)). unfold append_event_at.
  destruct (envelope_for_ok row) as (env & He & Hok & Hrow); [apply plain_ok; [lia|exact Hp]|].
  apply holds_bind. eapply holds_must; [exact He|]. apply holds_bind. set (b := PendingBatch.of_one env).
  assert (batch_rows b = [row]) as Hb by (unfold batch_rows; cbn; by rewrite Hrow).
  assert (new (Z.max 0 (len (C id) + 1 - 1)) = head_version (len (C id))) as ->.
  { rewrite Z.max_r by lia. replace (len (C id) + 1 - 1) with (len (C id)) by lia. unfold head_version.
    destruct (Z.eqb_spec (len (C id)) 0) as [->|]; [|done]. apply new_None. lia. }
  assert (from_option as_u64 0 (head_version (len (C id))) = len (C id)) as Hraw by (apply head_version_raw; [lia|done]).
  apply (holds_append s C L id _ b); [done|done|by constructor|by rewrite Hb| |].
  - intros s' p ps Hs' Hps Hlast _ _. rewrite Hb in *. destruct ps as [|q [|]]; try done. injection Hlast as ->. by apply HQ.
  - intros s' l w a _ _ Hno. destruct Hno. split; [|done].
    apply consecutive_rows. fold (batch_rows b). rewrite Hb, Hraw. done.
Qed.

Lemma holds_append_event s C L id v payload Q :
  shows s C L -> kit_key id -> len L + 1 <= ROOM -> v = len (C id) + 1 -> v <= u64_max -> len payload <= VALUE_BYTES ->
  let row := row_new v (text "E") payload in
  (forall s' p, shows s' (upd id (C id ++ [row]) C) (L ++ [(p, id, row)]) -> Q tt s') ->
  holds s (append_event id v payload) Q.
Proof. intros Hs Hk Hroom Hv Hm Hp row HQ. unfold append_event. apply holds_bind. eapply holds_append_event_at; eauto. Qed.

(** An append that cannot go on from the head of its stream. *)
Lemma holds_rejected s C L id expected b Q :
  shows s C L -> kit_key id -> kit_batch b -> len L + len (batch_rows b) <= ROOM ->
  ~ (expected = head_version (len (C id)) /\ cr_version <$> batch_rows b = seqZ (len (C id) + 1) (len (batch_rows b))) ->
  (forall s' l wanted actual, shows s' C L ->
     (expected <> head_version (len (C id)) -> wanted = expected /\ actual = head_version (len (C id))) -> Q (Err (AppendConflict l wanted actual)) s') ->
  holds s (kit_append id expected b) Q.
Proof.
  intros Hs Hk Hb Hroom Hno HQ. apply (holds_append s C L id expected b); [done|done|done|done| |].
  - intros s' p ps _ _ _ He Hc. destruct Hno. split; [done|]. unfold versions in Hc. rewrite fmap_app in Hc. apply consecutive_app in Hc as [_ Hc].
    replace (len (pe_version <$> stream_of s id)) with (len (C id)) in Hc by (rewrite <- (shows_len s C L id Hs); unfold len; by rewrite length_fmap).
    rewrite Z.add_comm in Hc. apply consecutive_rows in Hc. fold (batch_rows b) in Hc. rewrite Hc. f_equal. unfold batch_rows, len. by rewrite length_fmap.
  - intros s' l w a Hs' Hst _. by apply HQ.
Qed.

(** ** Reads *)

Lemma holds_drain_loop s C L id c n v Q :
  shows s C L -> cursor_at s s c id v -> 1 <= v -> (length (drop (Z.to_nat (v - 1)) (C id)) < n)%nat ->
  (forall envs c', row_of <$> envs = drop (Z.to_nat (v - 1)) (C id) -> stream_ended c' -> Q (envs, c') s) ->
  holds s (drain_loop n c) Q.
Proof.
  intros Hs. revert c v Q. induction n as [|n IH]; intros c v Q Hc Hv Hn HQ; [lia|].
  unfold holds. cbn [drain_loop]. pose proof (sh_inv _ _ _ Hs) as Hi.
  destruct (stream_next_spec s s s c id v Hi ltac:(done) Hc) as [(env & c' & -> & Hl & _ & Hc')|(c' & Hnext & Hend)].
  - assert (C id !! Z.to_nat (v - 1) = Some (row_of env)) as Hrow.
    { rewrite <- (sh_streams _ _ _ Hs id), list_lookup_fmap, Hl. cbn. by rewrite row_of_pending. }
    rewrite (drop_S _ _ _ Hrow) in Hn. cbn in Hn.
    assert (Datatypes.S (Z.to_nat (v - 1)) = Z.to_nat (v + 1 - 1)) as Hsucc by lia. rewrite Hsucc in Hn.
    apply holds_bind. eapply (IH c' (v + 1)); [done|lia|lia|]. intros envs c'' Hr He. apply holds_pass. apply HQ; [|done].
    cbn [fst]. rewrite fmap_cons, Hr, (drop_S _ _ _ Hrow), Hsucc. done.
  - rewrite Hnext. apply HQ; [|by eapply stream_ends]. symmetry. apply drop_ge. rewrite (shows_len _ _ _ id Hs) in Hend. unfold len in Hend. lia.
Qed.

Lemma holds_open_stream s C L id from Q :
  shows s C L -> kit_key id -> (forall c, cursor_at s s c id (as_u64 from) -> Q c s) -> holds s (open_stream id from) Q.
Proof.
  intros Hs Hk HQ. unfold holds, open_stream. pose proof (read_serves s id from (sh_inv _ _ _ Hs) Hk) as Hserves.
  destruct (read_stream s id from) as [c|e] eqn:Hr; [|done].
  apply HQ. eapply read_stream_opens; [apply Hs|done].
Qed.

Lemma holds_drain_stream s C L fuel id from Q :
  shows s C L -> kit_key id -> (length (C id) < fuel)%nat -> Q (drop (Z.to_nat (as_u64 from - 1)) (C id)) s -> holds s (drain_stream fuel id from) Q.
Proof.
  intros Hs Hk Hf HQ. pose proof (version_range from). unfold drain_stream. apply holds_bind. eapply holds_open_stream; [done|done|]. intros c Hc. apply holds_bind.
  eapply holds_drain_loop; [done|done|lia|rewrite length_drop; lia|]. intros envs c' Hr _. apply holds_pass. cbn [fst]. by rewrite Hr.
Qed.

Definition read (i : AllPos S * StreamKey * PersistedEnvelope) : LogRow := (i.1, row_of i.2).

Lemma holds_drain_items s C L c l n Q :
  shows s C L -> scan_at s c l -> (length l < n)%nat -> (forall items, read <$> items = logged <$> l -> Q items s) -> holds s (drain_items n c) Q.
Proof.
  intros Hs. revert c l Q. induction n as [|n IH]; intros c l Q Hc Hn HQ; [lia|].
  unfold holds. cbn [drain_items]. destruct (scan_delivers s c l (sh_inv _ _ _ Hs) Hc) as [(e & c' & He)|Hd]; [by apply (scan_goes_on _ _ _ _ _ (sh_inv _ _ _ Hs) Hc) in He|]. destruct l as [|i l].
  - destruct Hd as [c' ->]. by apply HQ.
  - destruct Hd as (env & c' & -> & He & Hc'). apply holds_bind. cbn in Hn. eapply (IH c' l); [done|lia|]. intros items Hit. apply holds_pass, HQ.
    rewrite !fmap_cons, Hit. f_equal. unfold read, logged. cbn. by rewrite row_of_pending, He.
Qed.

Lemma holds_open_all s C L from Q :
  shows s C L ->
  (forall c l, scan_at s c l -> logged <$> l = filter (fun i => is_after from i.1.1 = true) L -> Q c s) -> holds s (open_all from) Q.
Proof.
  intros Hs HQ. unfold holds, open_all. pose proof (scan_serves s from (sh_inv _ _ _ Hs)) as Hserves.
  destruct (store_read_all s from) as [c|e] eqn:Ho; [|done].
  apply (scan_opens s from c (sh_inv _ _ _ Hs)) in Ho. apply (HQ c _ Ho). rewrite <- (sh_log _ _ _ Hs). clear. induction (all_log s) as [|i l IH]; [done|].
  rewrite fmap_cons, !filter_cons. cbn. destruct (decide (is_after from i.1.1 = true)); [by rewrite fmap_cons, IH|done].
Qed.

Lemma holds_drain_raw s C L fuel from Q :
  shows s C L -> (length L < fuel)%nat ->
  (forall items, read <$> items = filter (fun i => is_after from i.1.1 = true) L -> Q items s) -> holds s (drain_raw fuel from) Q.
Proof.
  intros Hs Hf HQ. unfold drain_raw. apply holds_bind. eapply holds_open_all; [done|]. intros c l Hc Hl.
  eapply holds_drain_items; [done|done| |intros items Hit; apply HQ; by rewrite Hit].
  pose proof (length_filter (fun i : LogRow => is_after from i.1.1 = true) L) as Hle. rewrite <- Hl, length_fmap in Hle. lia.
Qed.

Lemma holds_take_items s C L c l n Q :
  shows s C L -> scan_at s c l -> (forall items, read <$> items = logged <$> take n l -> Q items s) -> holds s (take_items n c) Q.
Proof.
  intros Hs. revert c l Q. induction n as [|n IH]; intros c l Q Hc HQ; [by apply HQ|].
  unfold holds. cbn [take_items]. destruct (scan_delivers s c l (sh_inv _ _ _ Hs) Hc) as [(e & c' & He)|Hd]; [by apply (scan_goes_on _ _ _ _ _ (sh_inv _ _ _ Hs) Hc) in He|]. destruct l as [|i l].
  - destruct Hd as [c' ->]. by apply HQ.
  - destruct Hd as (env & c' & -> & He & Hc'). apply holds_bind. eapply (IH c' l); [done|]. intros items Hit. apply holds_pass, HQ.
    cbn [take]. rewrite !fmap_cons, Hit. f_equal. unfold read, logged. cbn. by rewrite row_of_pending, He.
Qed.

Lemma holds_drain_all s C L fuel from Q :
  shows s C L -> (length L < fuel)%nat ->
  Q ((fun i : LogRow => (i.1.1, cr_payload i.2)) <$> filter (fun i => is_after from i.1.1 = true) L) s -> holds s (drain_all fuel from) Q.
Proof.
  intros Hs Hf HQ. unfold drain_all. apply holds_bind. eapply holds_drain_raw; [done|done|]. intros items Hit. apply holds_pass.
  rewrite <- Hit, <- list_fmap_compose in HQ. exact HQ.
Qed.

(** ** Positions *)

Lemma increasing_sorted (ps : list (AllPos S)) : StronglySorted (fun p q => pos_ltb p q = true) ps -> strictly_increasing ps = true.
Proof.
  induction 1 as [|p ps Hs IH Hp]; [done|]. destruct ps as [|q ps]; [done|]. cbn [strictly_increasing]. apply Forall_cons in Hp as [-> _]. exact IH.
Qed.

(** A scan from a position of the log starts with the event after it. *)
Lemma filter_after (L1 L2 : list LogRow) i :
  StronglySorted (fun p q => pos_ltb p q = true) (L1 ++ i :: L2).*1.*1 ->
  filter (fun j => is_after (Some i.1.1) j.1.1 = true) (L1 ++ i :: L2) = L2.
Proof.
  destruct (pos_order (S := S)) as [Hirr Htr]. induction L1 as [|j L1 IH]; cbn [app fmap list_fmap]; intros Hs.
  - apply StronglySorted_inv in Hs as [_ Hs]. rewrite filter_cons_False by (apply Hirr). apply filter_all.
    rewrite !Forall_fmap in Hs. exact Hs.
  - apply StronglySorted_inv in Hs as [Hs Hj]. rewrite filter_cons_False; [by apply IH|]. cbn. intros Hlt.
    rewrite !Forall_fmap, Forall_app, Forall_cons in Hj. destruct Hj as (_ & Hj & _). cbn in Hj. apply (Hirr i.1.1). by apply (Htr _ j.1.1).
Qed.

Lemma positions_of (L : list LogRow) : ((fun i : LogRow => (i.1.1, cr_payload i.2)) <$> L).*1 = L.*1.*1.
Proof. induction L as [|i L IH]; [done|]. cbn. by f_equal. Qed.

Lemma filter_from_start (L : list LogRow) : filter (fun j => is_after None j.1.1 = true) L = L.
Proof. apply filter_all, Forall_forall. done. Qed.

(** ** The checks *)

Section checks.
Context (fuel : nat) (Hfuel : (2000 <= fuel)%nat).
Context (s : S) (Hfresh : shows s (fun _ => []) []).

Lemma empty_read_yields_none : passes s (check_empty_read_yields_none fuel).
Proof using All. unfold passes, check_empty_read_yields_none. apply holds_bind. eapply holds_drain_stream; [exact Hfresh|by vm_compute|cbn; lia|]. by apply holds_assert. Qed.

Lemma all_empty_store_yields_none : passes s (check_all_empty_store_yields_none fuel).
Proof using All. unfold passes, check_all_empty_store_yields_none. apply holds_bind. eapply holds_drain_all; [exact Hfresh|cbn; lia|]. by apply holds_assert. Qed.

(** One event, or a batch of rows on a fresh stream, appended to what [H] shows. *)
Ltac event H s p H' := apply holds_bind; eapply holds_append_event; [exact H|by vm_compute|roomy|by vm_compute..|]; intros s p H'.
Ltac rows H s ps H' Hl := apply holds_bind; eapply holds_append_rows; [exact H|by vm_compute|roomy|by vm_compute|done|rows_ok|by vm_compute|]; intros s ps H' Hl.
Ltac reads H := apply holds_bind; eapply holds_drain_stream; [exact H|by vm_compute|rewrite ?upd_same, ?plain_rows_length; cbn; lia|].
Ltac isolated H := apply holds_bind; eapply holds_drain_stream; [exact H|by vm_compute|by vm_compute; lia|].
Ltac scans H := apply holds_bind; eapply holds_drain_all; [exact H|cbn; lia|].
Ltac asserts := first [apply holds_bind; apply holds_assert; [by vm_compute|] | apply holds_assert; [by vm_compute|done]].
Ltac nth := apply holds_bind; eapply holds_index; [done|].

Lemma holds_plain_rows s0 C L id n Q :
  shows s0 C L -> kit_key id -> len L + n <= ROOM -> C id = [] -> 0 < n <= u64_max ->
  (forall s' ps, shows s' (upd id (plain_rows n) C) (L ++ zip_with (fun p r => (p, id, r)) ps (plain_rows n)) -> Q tt s') ->
  holds s0 (append_rows id (plain_rows n)) Q.
Proof using All.
  intros Hs Hk Hroom Hid Hn HQ. destruct (plain_rows_ok n ltac:(lia)) as (Hok & Hv & Hl).
  eapply holds_append_rows; [done|done|by rewrite Hl|done|intros Hnil; rewrite Hnil, len_nil in Hl; lia|done|by rewrite Hl|eauto].
Qed.

Lemma append_then_read_round_trips : passes s (check_append_then_read_round_trips fuel).
Proof using All.
  unfold passes, check_append_then_read_round_trips.
  rows Hfresh s1 ps H1 Hl. reads H1. rewrite upd_same. apply holds_assert; [|done]. by apply bool_decide_eq_true.
Qed.

Lemma versions_strictly_monotonic_and_fused : passes s (check_versions_strictly_monotonic_and_fused fuel).
Proof using All.
  unfold passes, check_versions_strictly_monotonic_and_fused.
  apply holds_bind. eapply holds_plain_rows; [exact Hfresh|by vm_compute|by vm_compute|done|by vm_compute|]. intros s1 ps H1.
  apply holds_bind. eapply holds_open_stream; [exact H1|by vm_compute|]. intros c Hc. apply holds_bind.
  eapply holds_drain_loop; [exact H1|exact Hc|by vm_compute|rewrite upd_same, length_drop, plain_rows_length; lia|]. intros envs c' Hr He.
  apply holds_bind. apply holds_assert.
  - apply bool_decide_eq_true. rewrite upd_same in Hr. apply (f_equal (fmap cr_version)) in Hr. rewrite <- list_fmap_compose in Hr.
    etrans; [exact Hr|]. apply (plain_rows_ok 64). by vm_compute.
  - cbn [snd]. generalize 8%nat. intros n. revert c' He. induction n as [|n IH]; intros c' He; [done|]. destruct (stream_stays_ended s1 c' He) as (c'' & Hn & He').
    unfold holds. cbn [polls_none]. rewrite Hn. by apply IH.
Qed.

Lemma large_stream_completes : passes s (check_large_stream_completes fuel).
Proof using All.
  unfold passes, check_large_stream_completes.
  apply holds_bind. eapply holds_plain_rows; [exact Hfresh|by vm_compute|by vm_compute|done|by vm_compute|]. intros s1 ps H1.
  destruct (plain_rows_ok 1500 ltac:(by vm_compute)) as (_ & Hv & Hl).
  apply holds_bind. eapply holds_drain_stream; [exact H1|by vm_compute|rewrite upd_same; unfold len in Hl; lia|]. rewrite upd_same. apply holds_assert; [|done].
  by apply bool_decide_eq_true.
Qed.

Lemma read_stream_from_is_inclusive : passes s (check_read_stream_from_is_inclusive fuel).
Proof using All.
  unfold passes, check_read_stream_from_is_inclusive.
  apply holds_bind. eapply holds_plain_rows; [exact Hfresh|by vm_compute|by vm_compute|done|by vm_compute|]. intros s1 ps H1.
  apply holds_bind. destruct (new 3) as [v|] eqn:Hv; [|done]. eapply holds_must; [by rewrite Hv|]. apply new_Some in Hv.
  reads H1. rewrite upd_same, <- Hv. asserts.
Qed.

(** The envelope of a row. *)
Ltac envelope row env Hok Hrow :=
  let He := fresh in destruct (envelope_for_ok row) as (env & He & Hok & Hrow); [rows_ok|]; apply holds_bind; eapply holds_must; [exact He|].

Lemma one_ok env : kit_envelope env -> kit_batch (PendingBatch.of_one env).
Proof. intros Hok. apply Forall_cons. split; [done|apply Forall_nil; done]. Qed.

Lemma one_rows env row : pending_row env = row -> batch_rows (PendingBatch.of_one env) = [row].
Proof. unfold batch_rows. cbn. by intros ->. Qed.

Lemma append_conflict_is_surfaced : passes s (check_append_conflict_is_surfaced fuel).
Proof using All.
  unfold passes, check_append_conflict_is_surfaced. cbn zeta. rows Hfresh s1 ps H1 Hl.
  envelope (row_new 1 (text "E") (bytes_of [9])) env Hok Hrow. apply holds_bind.
  eapply holds_rejected; [exact H1|by vm_compute|by apply one_ok|roomy|by intros [? _]|]. intros s2 l w a H2 Hconf. apply holds_bind. apply holds_pass.
  destruct Hconf as [-> ->]; [done|]. asserts. reads H2. rewrite upd_same. cbn [drop Z.to_nat].
  asserts. nth. asserts. nth. asserts.
Qed.

Lemma append_retry_after_conflict_succeeds : passes s (check_append_retry_after_conflict_succeeds fuel).
Proof using All.
  unfold passes, check_append_retry_after_conflict_succeeds. cbn zeta. rows Hfresh s1 ps H1 Hl.
  envelope (row_new 1 (text "E") (bytes_of [9])) env Hok Hrow. apply holds_bind.
  eapply holds_rejected; [exact H1|by vm_compute|by apply one_ok|roomy|by intros [? _]|]. intros s2 l w a H2 _. apply holds_bind. apply holds_pass.
  envelope (row_new 2 (text "E") (bytes_of [2])) env2 Hok2 Hrow2. apply holds_bind.
  eapply holds_append; [exact H2|by vm_compute|by apply one_ok|rewrite (one_rows _ _ Hrow2); roomy| |].
  - intros s3 p ps' H3 _ _ _ _. apply holds_bind. rewrite (one_rows _ _ Hrow2) in H3. apply holds_pass. reads H3. rewrite !upd_same. asserts.
  - intros s3 l' w' a' _ _ Hno. destruct Hno. split; [|by rewrite upd_same; vm_compute].
    apply consecutive_rows. fold (batch_rows (PendingBatch.of_one env2)). by rewrite (one_rows _ _ Hrow2).
Qed.

Lemma all_global_order_across_streams : passes s (check_all_global_order_across_streams fuel).
Proof using All.
  unfold passes, check_all_global_order_across_streams.
  apply holds_bind. eapply holds_append_event; [exact Hfresh|by vm_compute|roomy|by vm_compute..|]. intros s1 p1 H1.
  apply holds_bind. eapply holds_append_event; [exact H1|by vm_compute|roomy|by vm_compute..|]. intros s2 p2 H2.
  apply holds_bind. eapply holds_append_event; [exact H2|by vm_compute|roomy|by vm_compute..|]. intros s3 p3 H3.
  apply holds_bind. eapply holds_append_event; [exact H3|by vm_compute|roomy|by vm_compute..|]. intros s4 p4 H4.
  apply holds_bind. eapply holds_append_event; [exact H4|by vm_compute|roomy|by vm_compute..|]. intros s5 p5 H5.
  apply holds_bind. eapply holds_drain_all; [exact H5|cbn; lia|]. rewrite filter_from_start.
  apply holds_bind. apply holds_assert; [by vm_compute|]. apply holds_assert; [|done]. apply increasing_sorted. exact (shows_increasing _ _ _ H5).
Qed.

Lemma holds_drain_with s0 C L from {X} (f : AllPos S * StreamKey * PersistedEnvelope -> X) (g : LogRow -> X) Q :
  (forall i, f i = g (read i)) -> shows s0 C L -> (length L < fuel)%nat ->
  Q (g <$> filter (fun i => is_after from i.1.1 = true) L) s0 -> holds s0 (kbind (drain_raw fuel from) (fun items => pass (f <$> items))) Q.
Proof using All.
  intros Hfg Hs Hf HQ. apply holds_bind. eapply holds_drain_raw; [done|done|]. intros items Hit. apply holds_pass.
  rewrite <- Hit, <- list_fmap_compose in HQ. erewrite list_fmap_ext; [exact HQ|]. intros ? i _. apply Hfg.
Qed.

Lemma all_metadata_round_trips : passes s (check_all_metadata_round_trips fuel).
Proof using All.
  unfold passes, check_all_metadata_round_trips. cbn zeta. rows Hfresh s1 ps1 H1 Hl1. rows H1 s2 ps2 H2 Hl2.
  destruct ps1 as [|p1 [|p2 [|]]], ps2 as [|p3 [|]]; try done. apply holds_bind.
  eapply (holds_drain_with _ _ _ _ _ (fun i => (i.1.1, cr_metadata i.2, cr_payload i.2))); [done|exact H2|cbn; lia|]. rewrite filter_from_start.
  asserts. asserts. apply holds_assert; [|done]. apply increasing_sorted. exact (shows_increasing _ _ _ H2).
Qed.

(** The first event at a position of the log. *)
Lemma filter_at (L1 L2 : list LogRow) i :
  StronglySorted (fun p q => pos_ltb p q = true) (L1 ++ i :: L2).*1.*1 ->
  filter (fun j : AllPos S * bytes => j.1 = i.1.1) ((fun j : LogRow => (j.1.1, cr_payload j.2)) <$> (L1 ++ i :: L2)) = [(i.1.1, cr_payload i.2)].
Proof using All.
  destruct (pos_order (S := S)) as [Hirr Htr]. induction L1 as [|j L1 IH]; cbn [app fmap list_fmap]; intros Hs.
  - apply StronglySorted_inv in Hs as [_ Hs]. rewrite filter_cons_True by done. f_equal. apply filter_none.
    rewrite !Forall_fmap in *. eapply Forall_impl; [exact Hs|]. cbn. intros j Hj Heq. rewrite Heq in Hj. by apply (Hirr i.1.1).
  - apply StronglySorted_inv in Hs as [Hs Hj]. rewrite filter_cons_False; [by apply IH|]. cbn. intros Heq.
    rewrite !Forall_fmap, Forall_app, Forall_cons in Hj. destruct Hj as (_ & Hj & _). cbn in Hj. rewrite Heq in Hj. by apply (Hirr i.1.1).
Qed.

Lemma holds_payload_at s0 L p L1 i L2 Q :
  L = L1 ++ i :: L2 -> i.1.1 = p -> StronglySorted (fun p q => pos_ltb p q = true) L.*1.*1 ->
  Q (cr_payload i.2) s0 -> holds s0 (payload_at ((fun j : LogRow => (j.1.1, cr_payload j.2)) <$> L) p) Q.
Proof using All. intros -> <- Hs HQ. eapply holds_must; [by rewrite filter_at|done]. Qed.

Lemma append_returns_assigned_all_position : passes s (check_append_returns_assigned_all_position fuel).
Proof using All.
  unfold passes, check_append_returns_assigned_all_position. cbn zeta.
  apply holds_bind. eapply holds_append_event_at; [exact Hfresh|by vm_compute|roomy|by vm_compute..|]. intros s1 p1 H1.
  apply holds_bind. eapply holds_append_event_at; [exact H1|by vm_compute|roomy|by vm_compute..|]. intros s2 p2 H2.
  apply holds_bind. eapply holds_append_event_at; [exact H2|by vm_compute|roomy|by vm_compute..|]. intros s3 p3 H3.
  pose proof (shows_increasing _ _ _ H3) as Hs. cbn [app] in Hs.
  pose proof Hs as [[_ [H23 _]%Forall_cons]%StronglySorted_inv [H12 _]%Forall_cons]%StronglySorted_inv.
  apply holds_bind. apply holds_assert; [done|]. apply holds_bind. apply holds_assert; [done|]. scans H3. rewrite filter_from_start. cbn [app].
  apply holds_bind. eapply (holds_payload_at _ _ _ []); [done|done|exact Hs|]. asserts.
  apply holds_bind. eapply (holds_payload_at _ _ _ [_]); [done|done|exact Hs|]. asserts.
  apply holds_bind. eapply (holds_payload_at _ _ _ [_; _]); [done|done|exact Hs|]. asserts.
Qed.

Lemma multi_event_append_returns_last_position : passes s (check_multi_event_append_returns_last_position fuel).
Proof using All.
  unfold passes, check_multi_event_append_returns_last_position. cbn zeta.
  destruct (envelopes_for_ok [row_new 1 (text "E") (text "v1"); row_new 2 (text "E") (text "v2"); row_new 3 (text "E") (text "v3")])
    as (envs & He & Hok & Hrows); [rows_ok|]. apply holds_bind. eapply holds_must; [exact He|].
  destruct envs as [|e1 envs]; [done|]. apply holds_bind. eapply holds_must; [done|]. apply holds_bind.
  set (b := PendingBatch.MkBatch e1 envs). assert (batch_rows b = _) as Hb by (exact Hrows).
  eapply (holds_append _ _ _ _ _ b); [exact Hfresh|by vm_compute|exact Hok|by rewrite Hb| |].
  - intros s1 p ps H1 Hl Hlast _ _. rewrite Hb in *. destruct ps as [|p1 [|p2 [|p3 [|]]]]; try done. injection Hlast as ->.
    apply holds_bind. apply holds_pass. pose proof (shows_increasing _ _ _ H1) as [_ [_ [H13 _]%Forall_cons]%Forall_cons]%StronglySorted_inv.
    scans H1. rewrite filter_from_start. apply holds_bind. eapply holds_must; [done|]. apply holds_bind.
    apply holds_assert; [by apply bool_decide_eq_true|]. asserts. nth. apply holds_assert; [|done]. apply negb_true_iff, bool_decide_eq_false.
    cbn. intros ->. destruct (pos_order (S := S)) as [Hirr _]. by apply (Hirr p1).
  - intros s1 l w a _ _ Hno. destruct Hno. split; [|done]. apply consecutive_rows. fold (batch_rows b). rewrite Hb. unfold len. rewrite <- (length_fmap pending_row). fold (batch_rows b). by rewrite Hb.
Qed.

(** A scan from the position of an event of the log. *)
Lemma holds_scan_after s0 C L p k i Q :
  shows s0 C L -> (length L < fuel)%nat -> L !! k = Some i -> i.1.1 = p ->
  Q ((fun i : LogRow => (i.1.1, cr_payload i.2)) <$> drop (Datatypes.S k) L) s0 -> holds s0 (drain_all fuel (Some p)) Q.
Proof using All.
  intros Hs Hf HL <- HQ. eapply holds_drain_all; [exact Hs|done|]. pose proof (shows_increasing _ _ _ Hs) as Hi.
  rewrite <- (take_drop_middle L k i HL) in Hi at 1. rewrite <- (take_drop_middle L k i HL) at 1. by rewrite filter_after.
Qed.
Ltac resumes H k := apply holds_bind; eapply (holds_scan_after _ _ _ _ k); [exact H|cbn; lia|done|done|]; cbn [app drop].

Lemma all_items_carry_their_stream_key : passes s (check_all_items_carry_their_stream_key fuel).
Proof using All.
  unfold passes, check_all_items_carry_their_stream_key. cbn zeta. event Hfresh s1 p1 H1. event H1 s2 p2 H2. event H2 s3 p3 H3. apply holds_bind.
  eapply (holds_drain_with _ _ _ _ _ (fun i => (i.1.1, StreamKey.as_bytes i.1.2, cr_payload i.2))); [done|exact H3|cbn; lia|]. rewrite filter_from_start. asserts.
Qed.

Lemma all_from_is_exclusive : passes s (check_all_from_is_exclusive fuel).
Proof using All.
  unfold passes, check_all_from_is_exclusive. cbn zeta. event Hfresh s1 p1 H1. event H1 s2 p2 H2. event H2 s3 p3 H3.
  pose proof (shows_increasing _ _ _ H3) as Hs. cbn [app] in Hs. pose proof Hs as [_ [H12 _]%Forall_cons]%StronglySorted_inv.
  scans H3. rewrite filter_from_start. asserts. nth. cbn [fst]. resumes H3 0%nat. asserts. nth. by apply holds_assert.
Qed.

Lemma all_boundary_then_new_append : passes s (check_all_boundary_then_new_append fuel).
Proof using All.
  unfold passes, check_all_boundary_then_new_append. cbn zeta. event Hfresh s1 p1 H1. event H1 s2 p2 H2.
  pose proof (shows_increasing _ _ _ H2) as Hs2. cbn [app] in Hs2. scans H2. rewrite filter_from_start. asserts.
  apply holds_bind. eapply holds_must; [done|]. cbn [fst app]. resumes H2 1%nat. asserts.
  event H2 s3 p3 H3. pose proof (shows_increasing _ _ _ H3) as Hs3. cbn [app] in Hs3.
  pose proof Hs3 as [[_ [H23 _]%Forall_cons]%StronglySorted_inv _]%StronglySorted_inv.
  resumes H3 1%nat. asserts. nth. by apply holds_assert.
Qed.

Lemma read_stream_inclusive_read_all_exclusive_coexist : passes s (check_read_stream_inclusive_read_all_exclusive_coexist fuel).
Proof using All.
  unfold passes, check_read_stream_inclusive_read_all_exclusive_coexist. cbn zeta. event Hfresh s1 p1 H1. event H1 s2 p2 H2. event H2 s3 p3 H3.
  pose proof (shows_increasing _ _ _ H3) as Hs. cbn [app] in Hs.
  apply holds_bind. destruct (new 2) as [v|] eqn:Hv; [|done]. eapply holds_must; [by rewrite Hv|]. apply new_Some in Hv.
  reads H3. rewrite !upd_same, <- Hv. asserts. scans H3. rewrite filter_from_start. asserts. nth. cbn [fst]. resumes H3 1%nat. asserts.
Qed.

(** The resume cycles go on where the last one stopped. *)
Lemma holds_resume_cycles s0 C L n done rest checkpoint Q :
  shows s0 C L -> L = done ++ rest -> checkpoint = (fun i : LogRow => i.1.1) <$> last done -> (length rest < n)%nat ->
  Q ((fun i : LogRow => (i.1.1, cr_payload i.2)) <$> rest) s0 -> holds s0 (resume_cycles n checkpoint) Q.
Proof using All.
  intros Hs. revert done rest checkpoint Q. induction n as [|n IH]; intros dn rest checkpoint Q HL Hc Hn HQ; [lia|]. cbn [resume_cycles].
  apply holds_bind. eapply holds_open_all; [exact Hs|]. intros c l Hat Hl.
  assert (filter (fun i : LogRow => is_after checkpoint i.1.1 = true) L = rest) as Hf.
  { pose proof (shows_increasing _ _ _ Hs) as Hi. subst L checkpoint. destruct dn as [|d dn _] using rev_ind; [apply filter_from_start|].
    rewrite last_snoc, <- app_assoc in *. by apply filter_after. }
  rewrite Hf in Hl. apply holds_bind. eapply holds_take_items; [exact Hs|exact Hat|]. intros items Hit. rewrite fmap_take, Hl in Hit.
  assert (last (read <$> items) = last (take 3 rest)) as Hlast by (by rewrite Hit). rewrite fmap_last in Hlast.
  destruct (last items) as [i|] eqn:Hi; cbn in Hlast.
  - apply holds_bind. eapply (IH (dn ++ take 3 rest) (drop 3 rest)); [by rewrite <- app_assoc, take_drop| | |].
    + rewrite last_app, <- Hlast. done.
    + destruct rest as [|r rest]; [done|]. rewrite length_drop. cbn in Hn |- *. lia.
    + apply holds_pass. rewrite <- (take_drop 3 rest), fmap_app, <- Hit, <- list_fmap_compose in HQ. exact HQ.
  - destruct rest as [|r rest]; [|by destruct rest as [|? [|? ?]]]. done.
Qed.

Lemma labelled_ok v : 1 <= v <= 10 -> len (labelled "a" v) <= VALUE_BYTES /\ len (labelled "b" v) <= VALUE_BYTES.
Proof using All.
  intros Hv. assert (Forall (fun v => len (labelled "a" v) <= VALUE_BYTES /\ len (labelled "b" v) <= VALUE_BYTES) (seqZ 1 10)) as H
    by (repeat constructor; by vm_compute).
  rewrite Forall_forall in H. apply H, elem_of_seqZ. lia.
Qed.

Lemma holds_interleaved s0 C L n i va vb Q :
  shows s0 C L -> len L + Z.of_nat n <= ROOM -> va = len (C (key "a")) -> vb = len (C (key "b")) -> va + Z.of_nat n <= 10 -> vb + Z.of_nat n <= 10 ->
  (forall s' C' items, shows s' C' (L ++ items) -> length items = n -> Q ((fun i : LogRow => cr_payload i.2) <$> items) s') ->
  holds s0 (append_interleaved n i va vb) Q.
Proof using All.
  revert s0 C L i va vb Q. induction n as [|n IH]; intros s0 C L i va vb Q Hs Hroom -> -> Ha Hb HQ.
  { apply holds_pass. apply (HQ s0 C []); [by rewrite app_nil_r|done]. }
  pose proof (len_nonneg (C (key "a"))). pose proof (len_nonneg (C (key "b"))). cbn [append_interleaved]. destruct (_ =? 0).
  - destruct (labelled_ok (len (C (key "a")) + 1)) as [Hp _]; [lia|].
    apply holds_bind. eapply holds_append_event; [exact Hs|by vm_compute|lia|done|unfold u64_max; lia|exact Hp|]. intros s1 p H1. apply holds_bind.
    eapply IH; [exact H1|rewrite len_app; change (len [_]) with 1; lia|rewrite upd_same, len_app; done|by rewrite upd_other|lia|lia|]. intros s2 C2 items H2 Hl. apply holds_pass.
    rewrite <- app_assoc in H2. apply (HQ s2 C2 (_ :: items) H2). cbn. by rewrite Hl.
  - destruct (labelled_ok (len (C (key "b")) + 1)) as [_ Hp]; [lia|].
    apply holds_bind. eapply holds_append_event; [exact Hs|by vm_compute|lia|done|unfold u64_max; lia|exact Hp|]. intros s1 p H1. apply holds_bind.
    eapply IH; [exact H1|rewrite len_app; change (len [_]) with 1; lia|by rewrite upd_other|rewrite upd_same, len_app; done|lia|lia|]. intros s2 C2 items H2 Hl. apply holds_pass.
    rewrite <- app_assoc in H2. apply (HQ s2 C2 (_ :: items) H2). cbn. by rewrite Hl.
Qed.

Lemma all_multi_resume_cycles : passes s (check_all_multi_resume_cycles fuel).
Proof using All.
  unfold passes, check_all_multi_resume_cycles. apply holds_bind. eapply holds_interleaved; [exact Hfresh|by vm_compute|done|done|done|done|].
  intros s1 C1 items H1 Hl. cbn [app] in H1. apply holds_bind. eapply holds_drain_all; [exact H1|lia|]. rewrite filter_from_start.
  apply holds_bind. apply holds_assert; [apply bool_decide_eq_true; by rewrite <- list_fmap_compose|].
  apply holds_bind. eapply (holds_resume_cycles _ _ _ _ [] items); [exact H1|done|done|lia|].
  apply holds_bind. apply holds_assert; [by apply bool_decide_eq_true|]. apply holds_assert; [|done].
  apply increasing_sorted. rewrite positions_of. exact (shows_increasing _ _ _ H1).
Qed.

(** ** boundary.rs *)

Lemma conflict_leaves_store_unchanged : passes s (check_conflict_leaves_store_unchanged fuel).
Proof using All.
  unfold passes, check_conflict_leaves_store_unchanged. cbn zeta. rows Hfresh s1 ps H1 Hl. destruct ps as [|p1 [|p2 [|]]]; try done.
  reads H1. scans H1. envelope (row_new 1 (text "E") (bytes_of [9])) env Hok Hrow. apply holds_bind.
  eapply holds_rejected; [exact H1|by vm_compute|by apply one_ok|roomy|by intros [? _]|]. intros s2 l w a H2 _. apply holds_bind. apply holds_pass.
  reads H2. scans H2. apply holds_bind. apply holds_assert; [by apply bool_decide_eq_true|]. apply holds_assert; [apply Z.eqb_refl|done].
Qed.

(** A batch that does not start a stream at its first version without a gap. *)
Lemma holds_bad_batch id rows (k : check ()) :
  kit_key id -> len rows <= ROOM -> rows <> [] -> Forall row_ok rows -> cr_version <$> rows <> seqZ 1 (len rows) ->
  (forall s', shows s' (fun _ => []) [] -> holds s' k (fun _ _ => True)) ->
  passes s (let+ envs := must (envelopes_for rows) in
          let+ batch := must (expect (PendingBatch.new envs)) in
          let+ r := kit_append id None batch in
          let+ err := expect_err r in
          let+ _ := assert_conflict err in k).
Proof using All.
  intros Hkey Hroom Hne Hok Hv Hk. destruct (envelopes_for_ok _ Hok) as (envs & He & Hp & Hrows). apply holds_bind. eapply holds_must; [exact He|].
  destruct envs as [|e1 envs]; [by destruct rows|]. apply holds_bind. eapply holds_must; [done|]. apply holds_bind.
  set (b := PendingBatch.MkBatch e1 envs). assert (batch_rows b = rows) as Hb by (exact Hrows).
  eapply (holds_rejected _ _ _ _ _ b); [exact Hfresh|done|exact Hp|by rewrite Hb|by rewrite Hb; intros [_ ?]|]. intros s1 l w a H1 _.
  apply holds_bind. apply holds_pass. apply holds_bind. apply holds_pass. by apply Hk.
Qed.

Lemma version_gap_batch_rejected : passes s (check_version_gap_batch_rejected fuel).
Proof using All.
  apply (holds_bad_batch (key "gap")); [by vm_compute|done|done|rows_ok|done|]. intros s1 H1. reads H1. asserts.
Qed.

Lemma wrong_first_version_rejected : passes s (check_wrong_first_version_rejected fuel).
Proof using All.
  apply (holds_bad_batch (key "first")); [by vm_compute|done|done|rows_ok|done|]. intros s1 H1. reads H1. asserts.
Qed.

Lemma metadata_absent_vs_present_distinct : passes s (check_metadata_absent_vs_present_distinct fuel).
Proof using All.
  unfold passes, check_metadata_absent_vs_present_distinct. cbn zeta. rows Hfresh s1 ps H1 Hl. reads H1. rewrite upd_same. cbn [drop Z.to_nat].
  nth. asserts. nth. asserts. nth. asserts.
Qed.

Lemma long_type_ok : event_type_ok (MkEventType long_event_type).
Proof using.
  split; [vm_compute; done|]. unfold len, long_event_type. cbn [et_bytes]. rewrite length_replicate, Z2Nat.id by done. apply Z.le_refl.
Qed.

Lemma max_length_event_type_round_trips : passes s (check_max_length_event_type_round_trips fuel).
Proof using All.
  unfold passes, check_max_length_event_type_round_trips. cbn zeta. pose proof long_type_ok as Ht. remember long_event_type as et eqn:Het. clear Het.
  apply holds_bind. unfold Builder.event_type_bytes. rewrite (proj2 (event_type_from_bytes_spec et _) (conj eq_refl Ht)).
  eapply holds_must; [done|]. apply holds_bind.
  set (env := MkPendingEnvelope INITIAL (MkEventType et) SchemaVersion.INITIAL (MkPayload (bytes_of [1])) None).
  assert (pending_ok env) as Hok by (split_and!; [exact Ht|by vm_compute|done]).
  eapply (holds_must _ _ env); [exact (f_equal expect_ok (proj2 (build_spec (Builder.payload (MkWithEventType INITIAL (MkEventType et)) (bytes_of [1])) env Ht) (conj eq_refl Hok)))|]. apply holds_bind.
  assert (batch_rows (PendingBatch.of_one env) = [row_new 1 et (bytes_of [1])]) as Hb by (by apply one_rows).
  eapply holds_append; [exact Hfresh|by vm_compute|by apply one_ok|by rewrite Hb| |].
  - intros s1 p ps H1 _ _ _ _. rewrite Hb in H1. apply holds_bind. apply holds_pass. reads H1. rewrite upd_same. cbn [drop Z.to_nat]. nth.
    apply holds_assert; [by apply bool_decide_eq_true|done].
  - intros s1 l w a _ _ Hno. by destruct Hno.
Qed.

Lemma large_payload_fits : len large_payload <= VALUE_BYTES.
Proof using. unfold large_payload, len. rewrite length_fmap, length_seqZ, Z2Nat.id by done. apply Z.le_refl. Qed.

Lemma large_payload_round_trips : passes s (check_large_payload_round_trips fuel).
Proof using All.
  unfold passes, check_large_payload_round_trips. cbn zeta.
  pose proof large_payload_fits as Hp. remember large_payload as pl eqn:Hpl. clear Hpl.
  apply holds_bind. eapply holds_append_rows; [exact Hfresh|by vm_compute|unfold len; cbn [length]; unfold ROOM; lia|done|done|apply Forall_cons; split; [by apply plain_ok|by apply Forall_nil]|done|].
  intros s1 ps H1 _. reads H1. rewrite upd_same. cbn [drop Z.to_nat]. apply holds_bind. apply holds_assert; [done|]. nth. apply holds_assert; [by apply bool_decide_eq_true|done].
Qed.

Lemma prefix_stream_ids_isolated : passes s (check_prefix_stream_ids_isolated fuel).
Proof using All.
  unfold passes, check_prefix_stream_ids_isolated. cbn zeta.
  rows Hfresh s1 ps1 H1 Hl1. rows H1 s2 ps2 H2 Hl2. rows H2 s3 ps3 H3 Hl3. rows H3 s4 ps4 H4 Hl4.
  isolated H4. asserts. nth. asserts. isolated H4. asserts. isolated H4. asserts. nth. asserts. isolated H4. asserts. nth. asserts.
Qed.
End checks.

Ltac kit H := apply Forall_cons_2; [exact (passes_accepted _ _ H)|].

(** Every store that keeps the contract and is in working order passes the sequential
    checks.  On a fresh store whose streams and log obey the laws that the repositories,
    subscriptions and projections rely on, and which serves what the kit asks for
    without errors of its own, every check of the kit ends and passes: what the kit
    demands of append, of stream reads, of the order and resumption of all events and
    of rejected input follows from the contract. *)
Theorem conformance_kit_accepts fuel s :
  (2000 <= fuel)%nat -> store_inv s -> (forall id, stream_of s id = []) -> all_log s = [] ->
  Forall (accepted s) (kit_checks fuel).
Proof.
  intros Hf Hi Hst Hlog. assert (shows s (fun _ => []) []) as Hs by (split; [done|intros id; by rewrite Hst|by rewrite Hlog]).
  unfold kit_checks.
  kit (empty_read_yields_none fuel Hf s Hs).
  kit (append_then_read_round_trips fuel Hf s Hs).
  kit (versions_strictly_monotonic_and_fused fuel Hf s Hs).
  kit (large_stream_completes fuel Hf s Hs).
  kit (read_stream_from_is_inclusive fuel Hf s Hs).
  kit (append_conflict_is_surfaced fuel Hf s Hs).
  kit (append_retry_after_conflict_succeeds fuel Hf s Hs).
  kit (all_empty_store_yields_none fuel Hf s Hs).
  kit (all_global_order_across_streams fuel Hf s Hs).
  kit (all_metadata_round_trips fuel Hf s Hs).
  kit (append_returns_assigned_all_position fuel Hf s Hs).
  kit (multi_event_append_returns_last_position fuel Hf s Hs).
  kit (all_items_carry_their_stream_key fuel Hf s Hs).
  kit (all_from_is_exclusive fuel Hf s Hs).
  kit (all_multi_resume_cycles fuel Hf s Hs).
  kit (all_boundary_then_new_append fuel Hf s Hs).
  kit (read_stream_inclusive_read_all_exclusive_coexist fuel Hf s Hs).
  kit (conflict_leaves_store_unchanged fuel Hf s Hs).
  kit (version_gap_batch_rejected fuel Hf s Hs).
  kit (wrong_first_version_rejected fuel Hf s Hs).
  kit (metadata_absent_vs_present_distinct fuel Hf s Hs).
  kit (max_length_event_type_round_trips fuel Hf s Hs).
  kit (large_payload_round_trips fuel Hf s Hs).
  kit (prefix_stream_ids_isolated fuel Hf s Hs).
  by apply Forall_nil.
Qed.
End spec.

(** ** The in-memory store *)

#[export] Instance inmemory_position : AllPosition InMemoryAllPos := {| pos_ltb p q := Pos.as_u64 p <? Pos.as_u64 q |}.

(** The [n]th position, from 1. *)
Definition nth_pos (n : Z) : InMemoryAllPos := default Pos.INITIAL (Pos.new n).

Lemma nth_pos_u64 n : 1 <= n <= u64_max -> Pos.as_u64 (nth_pos n) = n.
Proof.
  intros Hn. unfold nth_pos, Pos.new, Pos.as_u64. destruct (nz_new (max := u64_max) n) as [z|] eqn:Hz; [|by apply nz_new_None in Hz].
  apply nz_new_Some in Hz. done.
Qed.

Lemma spec_pos_inj p q : Pos.as_u64 p = Pos.as_u64 q -> p = q.
Proof. destruct p as [p], q as [q]. unfold Pos.as_u64. cbn. intros H. f_equal. by apply nz_get_inj. Qed.

Definition numbered_log (start : Z) (l : Log) : list (InMemoryAllPos * StreamKey * PendingEnvelope) :=
  zip_with (fun n e => (nth_pos n, e.1, e.2)) (seqZ start (len l)) l.

Lemma numbered_log_nil start : numbered_log start [] = [].
Proof. done. Qed.

Lemma numbered_log_cons start e l : numbered_log start (e :: l) = (nth_pos start, e.1, e.2) :: numbered_log (start + 1) l.
Proof.
  unfold numbered_log. rewrite len_cons, seqZ_cons by (pose proof (len_nonneg l); lia).
  cbn. replace (Z.succ start) with (start + 1) by lia. replace (Z.pred (1 + len l)) with (len l) by lia. done.
Qed.

Lemma numbered_log_entries start l : (fun i => (i.1.2, i.2)) <$> numbered_log start l = l.
Proof.
  revert start. induction l as [|[id env] l IH]; intros start; [done|]. rewrite numbered_log_cons, fmap_cons, IH. done.
Qed.

Lemma numbered_log_app start l l' : numbered_log start (l ++ l') = numbered_log start l ++ numbered_log (start + len l) l'.
Proof.
  revert start. induction l as [|e l IH]; intros start; [by rewrite len_nil, Z.add_0_r|].
  cbn [app]. rewrite !numbered_log_cons, IH, len_cons. cbn [app].
  by replace (start + (1 + len l)) with (start + 1 + len l) by lia.
Qed.

Lemma numbered_log_lookup start l i e : l !! i = Some e -> numbered_log start l !! i = Some (nth_pos (start + Z.of_nat i), e.1, e.2).
Proof.
  revert start i. induction l as [|x l IH]; intros start i; [done|]. rewrite numbered_log_cons. destruct i as [|i].
  - intros [= ->]. cbn. by rewrite Z.add_0_r.
  - intros H%(IH (start + 1)). etrans; [exact H|]. by replace (start + Z.of_nat (Datatypes.S i)) with (start + 1 + Z.of_nat i) by lia.
Qed.

Lemma numbered_tagged start id envs :
  numbered_log start (tag_log id envs) = zip_with (fun p e => (p, id, e)) (nth_pos <$> seqZ start (len envs)) envs.
Proof.
  revert start. induction envs as [|e envs IH]; intros start; [done|]. unfold tag_log. rewrite fmap_cons, numbered_log_cons. fold (tag_log id envs).
  rewrite IH, len_cons, (seqZ_cons start) by (pose proof (len_nonneg envs); lia).
  replace (Z.succ start) with (start + 1) by lia. replace (Z.pred (1 + len envs)) with (len envs) by lia. done.
Qed.

(** What comes after a position is the rest of the log from it. *)
Lemma numbered_log_after start l (q : Z) :
  1 <= start -> start + len l - 1 <= u64_max ->
  filter (fun i : InMemoryAllPos * StreamKey * PendingEnvelope => (q <? Pos.as_u64 i.1.1) = true) (numbered_log start l)
  = drop (Z.to_nat (q + 1 - start)) (numbered_log start l).
Proof.
  revert start. induction l as [|e l IH]; intros start Hs Hm; [by rewrite numbered_log_nil, drop_nil|]. rewrite len_cons in Hm.
  pose proof (len_nonneg l). rewrite numbered_log_cons. destruct (Z.ltb_spec q start) as [Hlt|Hge].
  - replace (Z.to_nat (q + 1 - start)) with 0%nat by lia. rewrite drop_0.
    rewrite filter_cons_True by (cbn; rewrite nth_pos_u64 by lia; by apply Z.ltb_lt). f_equal. rewrite IH by lia.
    replace (Z.to_nat (q + 1 - (start + 1))) with 0%nat by lia. by rewrite drop_0.
  - rewrite filter_cons_False by (cbn; rewrite nth_pos_u64 by lia; rewrite Z.ltb_lt; lia). rewrite IH by lia.
    replace (Z.to_nat (q + 1 - start)) with (Datatypes.S (Z.to_nat (q + 1 - (start + 1)))) by lia. done.
Qed.

Lemma numbered_log_sorted start l :
  1 <= start -> start + len l - 1 <= u64_max -> StronglySorted (fun p q => pos_ltb p q = true) (numbered_log start l).*1.*1.
Proof.
  revert start. induction l as [|e l IH]; intros start Hs Hm; [constructor|]. rewrite len_cons in Hm. pose proof (len_nonneg l).
  rewrite numbered_log_cons. cbn [fmap list_fmap fst]. constructor; [apply IH; lia|].
  rewrite !Forall_fmap. apply Forall_forall. intros i Hi. apply list_elem_of_lookup in Hi as [k Hk]. cbn.
  destruct (l !! k) as [x|] eqn:Hx.
  - rewrite (numbered_log_lookup _ _ _ _ Hx) in Hk. injection Hk as <-. apply lookup_lt_Some in Hx. cbn. unfold len in *.
    rewrite !nth_pos_u64 by lia. apply Z.ltb_lt. lia.
  - apply lookup_lt_Some in Hk. apply lookup_ge_None in Hx. unfold numbered_log in Hk. rewrite length_zip_with in Hk. lia.
Qed.

Section live.
Context {T : Target} {AS : ArrayString} {W : Watch} (debug : bool).
#[local] Existing Instance live_raw.
#[local] Existing Instance live_all.
#[local] Existing Instance live_wake.
#[local] Existing Instance live_raw_spec.
#[local] Existing Instance live_spec.
#[local] Existing Instance live_all_spec.

Lemma live_log_bound s : live_ok s -> 1 + len (lv_log s) <= u64_max.
Proof. intros [Hr _]. pose proof (rep_next _ _ Hr) as Hn. pose proof (pos_range (next_global_seq (inner (lv_store s)))). unfold lv_log, lv_inner. lia. Qed.

Lemma poll_None i c c' : poll debug i c = Returns (None, c') -> c' = None.
Proof.
  unfold poll, yield_row. intros H. repeat (case_match; try done; simplify_eq/=; try done).
Qed.

#[export] Instance live_log_spec : @AllLogSpec LiveStore (live_raw debug) (live_raw_spec debug) (live_all debug) inmemory_position.
Proof.
  refine (@Build_AllLogSpec LiveStore (live_raw debug) (live_raw_spec debug) (live_all debug) inmemory_position
    (fun s => numbered_log 1 (lv_log s))
    (fun s c l => exists a, 0 <= a /\ all_cursor_at (LiveAllSpec := live_all_spec debug) s s c a /\ l = drop (Z.to_nat a) (numbered_log 1 (lv_log s)))
    (fun c => c = None) _ _ _ _ _ _ _ _).
  - split; [intros p H%Z.ltb_lt; lia|intros p q r H1%Z.ltb_lt H2%Z.ltb_lt; apply Z.ltb_lt; lia].
  - intros s Hok. apply numbered_log_sorted; [lia|]. pose proof (live_log_bound s Hok). lia.
  - intros s id expected b s' p Hok Hb E. cbn in E.
    pose proof (append_inner_spec _ _ id expected b (proj1 Hok) Hb) as Hspec. unfold store_append in E.
    destruct (append_inner (inner (lv_store s)) id expected b) as [i [[q|e]|]] eqn:Ei; [|done|done]. injection E as <- <-.
    destruct Hspec as (_ & Hr & Hp). pose proof (pos_range q) as Hq. set (envs := PendingBatch.iter b) in *.
    change (log_of (inner (lv_store s))) with (lv_log s) in *.
    exists (nth_pos <$> seqZ (1 + len (lv_log s)) (len envs)). split_and!.
    + rewrite length_fmap, length_seqZ. unfold len. lia.
    + assert (0 < len envs) by (unfold envs, PendingBatch.iter; rewrite len_cons; pose proof (len_nonneg (PendingBatch.rest b)); lia). pose proof (len_nonneg (lv_log s)).
      rewrite fmap_last, last_lookup, length_seqZ.
      rewrite (proj2 (lookup_seqZ _ _ (pred (Z.to_nat (len envs))) (len (lv_log s) + len envs))) by lia. cbn. f_equal.
      apply spec_pos_inj. rewrite nth_pos_u64 by lia. done.
    + unfold lv_log at 1. cbn [lv_inner lv_store inner]. rewrite (represents_log_of _ _ Hr), numbered_log_app. f_equal. apply numbered_tagged.
  - intros s id expected b s' e Hok Hb E. cbn in E. pose proof (append_inner_spec _ _ id expected b (proj1 Hok) Hb) as Hspec. unfold store_append in E.
    destruct (append_inner (inner (lv_store s)) id expected b) as [i [[q|e']|]] eqn:Ei; [done| |done].
    injection E as <- _. unfold lv_log, lv_inner. cbn [lv_store inner]. by rewrite Hspec.
  - intros s from c Hok E. pose proof (read_all_opens (LiveAllSpec := live_all_spec debug) s from c Hok E) as Hat. pose proof (live_log_bound s Hok).
    exists (from_option all_pos 0 from). split_and!; [destruct from as [p|]; cbn; [pose proof (pos_range p)|]; lia|done|].
    destruct from as [p|]; cbn [from_option is_after].
    + etrans; [apply (numbered_log_after 1 (lv_log s) (Pos.as_u64 p)); lia|]. f_equal. cbn. lia.
    + rewrite drop_0. apply filter_all, Forall_forall. done.
  - intros s c l Hok (a & Ha & Hat & ->).
    destruct (all_next_spec (LiveAllSpec := live_all_spec debug) s s s c a Hok (activity_refl s) Hat) as
      [(p & id & env & c' & E & Hl & Hp & Hat')|(c' & E & Hend)]; right.
    + pose proof (live_log_bound s Hok). pose proof (lookup_lt_Some _ _ _ Hl) as Hlt. apply (numbered_log_lookup 1) in Hl as Hn. change (all_of s) with (lv_log s) in *.
      rewrite (drop_S _ _ _ Hn). exists env, c'. split_and!; [|done|].
      * assert (p = nth_pos (1 + Z.of_nat (Z.to_nat a))) as <-; [|exact E]. apply spec_pos_inj. unfold len in *. rewrite nth_pos_u64 by lia. cbn in Hp. lia.
      * exists (a + 1). split_and!; [lia|done|]. f_equal. lia.
    + rewrite drop_ge; [exists c'; exact E|]. change (all_of s) with (lv_log s) in Hend. unfold numbered_log. rewrite length_zip_with, length_seqZ. unfold len in *. lia.
  - intros s c c' H. exact (poll_None (lv_inner s) c c' H).
  - intros s c ->. by exists None.
Defined.

(** An append that fits reports no error of the store's own. *)
Lemma kit_fits pe : kit_envelope pe -> fits pe.
Proof.
  intros ((Het & _ & _) & Hp & Hm). unfold fits, payload_offset. pose proof (align_padding_spec (pre_payload HEADER_FIXED_SIZE (et_bytes (pe_event_type pe)) (md_bytes <$> pe_metadata pe))) as [? _].
  destruct Het as [_ Het]. unfold pre_payload, HEADER_FIXED_SIZE, VALUE_BYTES, MAX_EVENT_TYPE_LEN, u16_max, u32_max in *. destruct (pe_metadata pe); cbn in *; lia.
Qed.

Lemma validate_sequence_fits id start envs : start + len envs <= u64_max -> validate_sequence id start envs <> Err ValidationVersionOverflow.
Proof.
  revert start. induction envs as [|env envs IH]; intros start; [done|]. rewrite len_cons. pose proof (len_nonneg envs). intros Hle.
  cbn [validate_sequence]. rewrite checked_add_ok by lia. cbn [ok_or result_bind]. destruct (negb _); [done|]. apply IH. lia.
Qed.

Lemma append_inner_serves l i id expected b i' x :
  represents l i -> kit_batch b -> len l + len (PendingBatch.iter b) <= ROOM ->
  append_inner i id expected b <> (i', Returns (Err (AppendStore x))).
Proof.
  intros Hr Hb Hroom E. destruct (decide (expected = head_version (len (log_stream id l)))) as [He|Hne]; [|by rewrite (append_stale_conflict l) in E].
  assert (len (log_stream id l) <= len l) as Hle.
  { unfold log_stream, len. rewrite length_fmap. pose proof (length_filter (fun e : StreamKey * PendingEnvelope => e.1 = id) l). lia. }
  unfold append_inner in E. rewrite (current_len_spec l) in E by done. cbn [ok_or outcome_bind] in E.
  unfold validate_append_versions in E. fold (head_version (len (log_stream id l))) in E. rewrite bool_decide_true in E by done. cbn [negb] in E.
  pose proof (validate_sequence_fits id (len (log_stream id l)) (PendingBatch.iter b)) as Hv. unfold ROOM, u64_max in *.
  destruct (validate_sequence _ _ _) as [[]|[]]; cbn [map_err outcome_bind inmemory_validation_err] in E; [|done|by apply Hv; [lia|]].
  pose proof (stage_rows_spec id (next_global_seq i) (next_global_seq i) (PendingBatch.iter b) (kit_batch_ok b Hb)) as Hst.
  destruct (stage_rows _ _ _) as [[[[rows last'] seq']|e]|]; cbn [outcome_map_err map_err] in E; [done| |done]. apply Hst.
  rewrite (rep_next _ _ Hr). split; [|unfold u64_max; lia]. eapply Forall_impl; [exact Hb|]. apply kit_fits.
Qed.

#[export] Instance live_serves : @ServesKit LiveStore (live_raw debug) (live_raw_spec debug) (live_all debug) inmemory_position live_log_spec.
Proof.
  split.
  - done.
  - intros s id expected b s' x [Hr _] _ Hb Hroom E. cbn in E. unfold store_append in E.
    pose proof (append_inner_serves (lv_log s) (inner (lv_store s)) id expected b (inner (lv_store s')) x Hr Hb) as Hno.
    destruct (append_inner (inner (lv_store s)) id expected b) as [i [[p|e]|]]; [done| |done]. injection E as <- ->. cbn in Hno. apply Hno; [|done].
    cbn in Hroom. unfold numbered_log, len in *. rewrite length_zip_with, length_seqZ in Hroom. lia.
  - done.
  - done.
  - intros s c l x c' Hok (a & Ha & Hat & _) E.
    destruct (all_next_spec (LiveAllSpec := live_all_spec debug) s s s c a Hok (activity_refl s) Hat) as
      [(p & id & env & c'' & E' & _)|(c'' & E' & _)]; by rewrite E in E'.
Qed.
End live.

(** ** Witness *)

#[local] Existing Instance target64.
#[local] Existing Instance counter_watch.
#[local] Existing Instance list_array_string.

Lemma conformance_kit_accepts_witness :
  Forall (accepted live0) (kit_checks (R := live_raw true) (RA := live_all true) (AP := inmemory_position) 2000).
Proof.
  apply (conformance_kit_accepts (RS := live_raw_spec true) (AL := live_log_spec true) (SK := live_serves true)); [lia|exact live0_ok|done|done].
Defined.

(** The kit finds what the fields of a conflict are when a batch has a gap: the version
    that was due and the one that came, not the heads of the stream. *)
Lemma gap_conflict_fields :
  (append (RawEventStore := live_raw true) live0 (key "gap") None
     (PendingBatch.from_parts (sample_envelope INITIAL) [sample_envelope (default INITIAL (new 3))])).2 =
  Returns (Err (AppendConflict (error_id (key "gap")) (new 2) (new 3))).
Proof. vm_compute. reflexivity. Qed.
