(* ===== verification/ConformanceSub.v ===== *)
(** * The conformance kit for subscriptions and reopening
      (crates/store-testing/src: sequence.rs, lifecycle.rs)

    The checks of the kit that subscribe and that reopen the store.  A subscriber is
    the loop of [Subscription], taken turn by turn on a store that nobody else touches:
    a [next()] that would time out is one whose loop is parked. *)

From Stdlib Require Import String Sorted.
From S2P Require Import Prelude Utf8 ErrorId Version Value Wire Envelope Wake RawStore Import Log InMemory Subscription LiveInMemory Conformance ConformanceSpec.
Close Scope string_scope.
Open Scope list_scope.

Section kit.
Context {T : Target} {S : Type} {R : RawEventStore S} {RA : RawAllStore S} {AP : AllPosition (AllPos S)} {WS : WakeSource S} (fuel : nat).
(** The errors a store may report of its own: of a read or an append, or of a registration. *)
Notation KError := (SError S + WError S)%type.
Notation check := (program S KError).

(** A check of [Conformance] among these. *)
Definition lift {A} (m : program S (SError S) A) : check A := fun s =>
  match m s with
  | (s, Passed a) => (s, Passed a)
  | (s, Violated) => (s, Violated)
  | (s, Refused e) => (s, Refused (inl e))
  | (s, Unfinished) => (s, Unfinished)
  end.

(** ** Subscribers *)

(** [timeout(WAIT, stream.next())] and what the kit makes of it, in at most [n] turns. *)
Fixpoint next_turns {C : Catchup S} (wrap : CError S -> KError) (n : nat) (l : LiveState S) : check (Step (Item S) * LiveState S) := fun s =>
  match n with
  | O => (s, Unfinished)
  | Datatypes.S n =>
      match live_step s l with
      | Panics | Returns None => (s, Violated)
      | Returns (Some (None, l)) => next_turns wrap n l s
      | Returns (Some (Some (Ok step), l)) => (s, Passed (step, l))
      | Returns (Some (Some (Err e), _)) => (s, Refused (wrap e))
      end
  end.

(** An open subscription of one stream: its registration and the state of its loop. *)
Definition Sub : Type := { c : StreamCatchup & @LiveState S (stream_catchup c) }.
Definition AllSub : Type := { c : AllCatchup & @LiveState S (all_catchup c) }.

Definition open_sub (id : bytes) (from : option Version) : check Sub := fun s =>
  match Subscription.subscribe s id from with
  | (s, Ok sub) => (s, Passed sub)
  | (s, Err e) => (s, Refused (inr e))
  end.
Definition open_all_sub (from : option (AllPos S)) : check AllSub := fun s =>
  match subscribe_all s from with
  | (s, Ok sub) => (s, Passed sub)
  | (s, Err e) => (s, Refused (inr e))
  end.

(** The turns of one [next()] on a store that nobody else touches. *)
Definition TURNS : nat := 5.

Definition next_step (sub : Sub) : check (Step PersistedEnvelope * Sub) :=
  let+ r := next_turns (C := stream_catchup (projT1 sub)) inl TURNS (projT2 sub) in
  pass (Step.map snd r.1, existT (projT1 sub) r.2).
Definition next_all_step (sub : AllSub) : check (Step (AllPos S * StreamKey * PersistedEnvelope) * AllSub) :=
  let+ r := next_turns (C := all_catchup (projT1 sub)) inl TURNS (projT2 sub) in
  pass (r.1, existT (projT1 sub) r.2).

Definition expect_event {X} (step : Step X) : check X := match step with StepEvent x => pass x | StepCaughtUp => fail end.
Definition expect_caught_up {X} (step : Step X) : check () := match step with StepEvent _ => fail | StepCaughtUp => pass () end.

(** The next item must be the event with this version. *)
Definition expect_version (sub : Sub) (want : Z) : check (PersistedEnvelope * Sub) :=
  let+ r := next_step sub in
  let+ env := expect_event r.1 in
  let+ _ := assert (as_u64 (ps_version env) =? want) in
  pass (env, r.2).
Definition expect_boundary (sub : Sub) : check Sub :=
  let+ r := next_step sub in
  let+ _ := expect_caught_up r.1 in
  pass r.2.

(** [while let Step::Event(env) = next_step(..)]. *)
Fixpoint drain_backlog (n : nat) (sub : Sub) : check (list PersistedEnvelope * Sub) :=
  match n with
  | O => fun s => (s, Unfinished)
  | Datatypes.S n =>
      let+ r := next_step sub in
      match r.1 with
      | StepCaughtUp => pass ([], r.2)
      | StepEvent env => let+ rest := drain_backlog n r.2 in pass (env :: rest.1, rest.2)
      end
  end.
Fixpoint drain_all_backlog (n : nat) (sub : AllSub) : check (list (AllPos S * StreamKey * PersistedEnvelope) * AllSub) :=
  match n with
  | O => fun s => (s, Unfinished)
  | Datatypes.S n =>
      let+ r := next_all_step sub in
      match r.1 with
      | StepCaughtUp => pass ([], r.2)
      | StepEvent item => let+ rest := drain_all_backlog n r.2 in pass (item :: rest.1, rest.2)
      end
  end.

(** ** sequence.rs *)

(** [for v in from..=to { append_event(.., v, payload(v)) }]. *)
Fixpoint append_versions (id : StreamKey) (payload : Z -> bytes) (vs : list Z) : check () :=
  match vs with
  | [] => pass ()
  | v :: vs => let+ _ := lift (append_event id v (payload v)) in append_versions id payload vs
  end.
Fixpoint expect_versions (sub : Sub) (wants : list Z) : check Sub :=
  match wants with
  | [] => pass sub
  | want :: wants => let+ r := expect_version sub want in expect_versions r.2 wants
  end.

Definition check_subscription_backlog_then_caught_up_then_live : check () :=
  let id := key "sub-proto" in
  let+ _ := append_versions id (labelled "p") [1; 2; 3] in
  let+ sub := open_sub (text "sub-proto") None in
  let+ sub := expect_versions sub [1; 2; 3] in
  let+ sub := expect_boundary sub in
  let+ _ := lift (append_event id 4 (text "p4")) in
  let+ _ := expect_version sub 4 in
  pass ().

Definition check_subscription_resume_strict_after : check () :=
  let id := key "sub-resume" in
  let+ _ := append_versions id (fun _ => text "p") [1; 2; 3; 4; 5] in
  let+ third := must (expect (new 3)) in
  let+ sub := open_sub (text "sub-resume") (Some third) in
  let+ _ := expect_version sub 4 in
  pass ().

Definition check_subscription_all_backlog_then_caught_up_then_live : check () :=
  let a := key "a" in
  let b := key "b" in
  let+ _ := lift (append_event a 1 (text "a1")) in
  let+ _ := lift (append_event b 1 (text "b1")) in
  let+ _ := lift (append_event a 2 (text "a2")) in
  let+ sub := open_all_sub None in
  let+ r := drain_all_backlog fuel sub in
  let backlog := r.1 in
  let+ _ := assert (bool_decide ((fun i => PersistedEnvelope.payload i.2) <$> backlog = [text "a1"; text "b1"; text "a2"])) in
  let+ _ := assert (bool_decide ((fun i => StreamKey.as_bytes i.1.2) <$> backlog = [text "a"; text "b"; text "a"])) in
  let+ _ := lift (assert_strictly_increasing ((fun i => (i.1.1, @nil byte)) <$> backlog)) in
  let+ last := must (expect (last backlog)) in
  let+ _ := lift (append_event b 2 (text "b2")) in
  let+ live := next_all_step r.2 in
  let+ item := expect_event live.1 in
  let+ _ := assert (bool_decide (PersistedEnvelope.payload item.2 = text "b2")) in
  let+ _ := assert (bool_decide (StreamKey.as_bytes item.1.2 = text "b")) in
  assert (pos_ltb last.1.1 item.1.1).

Definition check_subscription_absent_stream_waits_then_delivers : check () :=
  let+ sub := open_sub (text "ghost") None in
  let+ sub := expect_boundary sub in
  let+ _ := lift (append_event (key "ghost") 1 (text "first")) in
  let+ r := expect_version sub 1 in
  assert (bool_decide (PersistedEnvelope.payload r.1 = text "first")).

Definition check_two_subscribers_same_stream_both_receive : check () :=
  let id := key "fanout" in
  let+ _ := lift (append_event id 1 (text "p1")) in
  let+ a := open_sub (text "fanout") None in
  let+ b := open_sub (text "fanout") None in
  let+ a := expect_versions a [1] in
  let+ a := expect_boundary a in
  let+ b := expect_versions b [1] in
  let+ b := expect_boundary b in
  let+ _ := lift (append_event id 2 (text "p2")) in
  let+ _ := expect_version a 2 in
  let+ _ := expect_version b 2 in
  pass ().

Definition check_subscription_large_backlog_crosses_chunk_seam : check () :=
  let+ _ := lift (append_rows (key "sub-chunk") (plain_rows 2500)) in
  let+ sub := open_sub (text "sub-chunk") None in
  let+ r := drain_backlog fuel sub in
  assert (bool_decide ((fun env => as_u64 (ps_version env)) <$> r.1 = seqZ 1 2500)).

Definition check_subscription_beyond_head_filters_below_bound : check () :=
  let id := key "beyond-head" in
  let+ _ := append_versions id (labelled "p") [1; 2] in
  let+ fifth := must (expect (new 5)) in
  let+ sub := open_sub (text "beyond-head") (Some fifth) in
  let+ sub := expect_boundary sub in
  let+ _ := append_versions id (labelled "p") [3; 4; 5; 6] in
  let+ _ := expect_version sub 6 in
  pass ().

(** The checks of [conformance!] that subscribe. *)
Definition subscription_checks : list (check ()) :=
  [check_subscription_backlog_then_caught_up_then_live; check_subscription_resume_strict_after;
   check_subscription_all_backlog_then_caught_up_then_live; check_subscription_absent_stream_waits_then_delivers;
   check_two_subscribers_same_stream_both_receive; check_subscription_large_backlog_crosses_chunk_seam;
   check_subscription_beyond_head_filters_below_bound].

(** ** lifecycle.rs *)

Section lifecycle.
(** The closure of the adapter that closes the store and opens it again. *)
Context (reopen : S -> S).

Definition kit_reopen : check () := fun s => (reopen s, Passed ()).

Definition check_reopen_preserves_events : check () :=
  let id := key "persist" in
  let rows := [with_metadata (row_new 1 (text "Created") (bytes_of [1])) (bytes_of [7]);
               with_schema_version (row_new 2 (text "Updated") (bytes_of [2])) 3] in
  let+ _ := lift (append_rows id rows) in
  let+ before := lift (drain_stream fuel id INITIAL) in
  let+ _ := kit_reopen in
  let+ after := lift (drain_stream fuel id INITIAL) in
  assert (bool_decide (after = before)).

Definition check_reopen_preserves_position_watermark : check () :=
  let a := key "a" in
  let b := key "b" in
  let+ _ := lift (append_event a 1 (text "a1")) in
  let+ _ := lift (append_event b 1 (text "b1")) in
  let+ before := lift (drain_all fuel None) in
  let+ last := must (expect (last before)) in
  let+ _ := kit_reopen in
  let+ _ := lift (append_event a 2 (text "a2")) in
  let+ resumed := lift (drain_all fuel (Some last.1)) in
  let+ _ := assert (len resumed =? 1) in
  let+ first := index resumed 0 in
  let+ _ := assert (bool_decide (first.2 = text "a2")) in
  assert (pos_ltb last.1 first.1).

Definition check_reopen_conflict_state_intact : check () :=
  let id := key "head" in
  let+ _ := lift (append_event id 1 (text "p1")) in
  let+ _ := lift (append_event id 2 (text "p2")) in
  let+ _ := kit_reopen in
  let+ stale := must (envelope_for (row_new 1 (text "E") (bytes_of [9]))) in
  let+ r := lift (kit_append id None (PendingBatch.of_one stale)) in
  let+ _ := lift (expect_err r) in
  let+ _ := lift (append_event id 3 (text "p3")) in
  let+ got := lift (drain_stream fuel id INITIAL) in
  assert (bool_decide (cr_version <$> got = [1; 2; 3])).

Definition check_reopen_subscription_catches_up : check () :=
  let id := key "reopen-sub" in
  let+ _ := append_versions id (fun _ => text "p") [1; 2; 3] in
  let+ _ := kit_reopen in
  let+ sub := open_sub (text "reopen-sub") None in
  let+ r := drain_backlog fuel sub in
  assert (bool_decide ((fun env => as_u64 (ps_version env)) <$> r.1 = [1; 2; 3])).

(** [conformance_lifecycle!]. *)
Definition lifecycle_checks : list (check ()) :=
  [check_reopen_preserves_events; check_reopen_preserves_position_watermark;
   check_reopen_conflict_state_intact; check_reopen_subscription_catches_up].
End lifecycle.
End kit.

(** ** One [next()] on a store that nobody else touches *)

Section next.
Context {T : Target} {S : Type} {R : RawEventStore S} {WS : WakeSource S} {C : Catchup S} {CS : CatchupSpec S}.
Notation KError := (SError S + WError S)%type.
Notation at_index := Subscription.index.

(** The loop is between two items, [a] events behind it. *)
Record standing (s : S) (l : LiveState S) (a : Z) : Prop := MkStanding {
  st_top : pc l = Top;
  st_inv : catchup_inv s;
  st_from : at_index (live_from l) = a;
  st_scan : forall c, live_scan l = Some c -> 0 <= drained_in_chunk l < CATCHUP_CHUNK /\
    exists s1 s2, catchup_inv s2 /\ grows s2 s /\ Subscription.scan_at s1 s2 c a;
}.

Lemma standing_start s from : catchup_inv s -> standing s (live_stepped from) (at_index from).
Proof. intros Hi. by split. Qed.

Lemma standing_grows s s' l a : standing s l a -> grows s s' -> standing s' l a.
Proof.
  intros [Ht Hi Hf Hsc] Hg. split; [done|by eapply grows_inv|done|]. intros c Hc. destruct (Hsc c Hc) as (? & s1 & s2 & ? & ? & ?).
  split; [done|]. exists s1, s2. split_and!; [done|by eapply grows_trans|done].
Qed.

Context (wrap : CError S -> KError) (s : S) (a : Z) (Q : Step (Item S) * LiveState S -> S -> Prop).
(** What the consumer makes of an event, and of the marker. *)
Context (cu : bool).
Context (on_event : forall x l', events s !! Z.to_nat a = Some (view x) -> at_index (Some (position_of x)) = a + 1 ->
  standing s l' (a + 1) -> caught_up l' = cu -> Q (StepEvent x, l') s).
Context (on_mark : forall l', len (events s) <= a -> cu = false -> standing s l' a -> caught_up l' = true -> Q (StepCaughtUp, l') s).
Context (Ha : 0 <= a) (Hlive : cu = true -> a < len (events s)) (Hread : readable s).

(** From the confirming scan on: the event it finds, or the marker. *)
Lemma armed_next n w l :
  pc l = Armed w -> catchup_inv s -> at_index (live_from l) = a -> live_scan l = None -> caught_up l = cu ->
  holds s (next_turns wrap (Datatypes.S (Datatypes.S n)) l) Q.
Proof using All.
  intros Ht Hi Hf Hn Hcu. unfold holds. cbn [next_turns]. unfold live_step at 1. rewrite Ht.
  pose proof (Hread (live_from l)) as Hserves.
  destruct (read_after s (live_from l)) as [probe|e] eqn:Ep; [|done]. apply (read_after_opens _ _ _ Hi) in Ep. rewrite Hf in Ep.
  unfold live_step. cbn [pc caught_up].
  destruct (scan_next_spec s s s probe a Hi (grows_refl s) Ep) as [(x & c' & -> & Hx & Hix & Hat)|(c' & -> & Hend)].
  - apply on_event; [done|done| |done]. split; cbn; [done|done|done|]. intros c [= <-]. split; [done|]. exists s, s. split_and!; [done|apply grows_refl|done].
  - destruct (caught_up l) eqn:Ec; [by specialize (Hlive (eq_sym Hcu)); lia|]. apply on_mark; [done|done| |done].
    split; cbn; [done|done|done|]. by rewrite Hn.
Qed.

Lemma scanning_next n c l :
  pc l = Top -> catchup_inv s -> at_index (live_from l) = a -> live_scan l = Some c -> caught_up l = cu -> 0 <= drained_in_chunk l < CATCHUP_CHUNK ->
  (exists s1 s2, catchup_inv s2 /\ grows s2 s /\ Subscription.scan_at s1 s2 c a) ->
  holds s (next_turns wrap (Datatypes.S (Datatypes.S (Datatypes.S n))) l) Q.
Proof using All.
  intros Ht Hi Hf Hc Hcu Hd (s1 & s2 & Hi2 & Hg & Hat). unfold holds. cbn [next_turns]. unfold live_step at 1. rewrite Ht, Hc.
  destruct (scan_next_spec s1 s2 s c a Hi2 Hg Hat) as [(x & c' & -> & Hx & Hix & Hat')|(c' & -> & _)].
  - rewrite checked_add_ok by (pose proof usize_max_lo; unfold CATCHUP_CHUNK, u32_max in *; lia).
    apply on_event; [done|done| |done]. split; cbn; [done|done|done|]. intros c0. destruct (CATCHUP_CHUNK <=? _) eqn:E; [done|]. intros [= <-].
    apply Z.leb_gt in E. split; [lia|]. exists s1, s. split_and!; [done|apply grows_refl|done].
  - apply (armed_next n (catchup_arm s)); done.
Qed.

(** A loop that has an event in front of it, or has not said that it caught up. *)
Lemma holds_next l : standing s l a -> caught_up l = cu -> holds s (next_turns wrap TURNS l) Q.
Proof using All.
  intros [Ht Hi Hf Hsc] Hcu. unfold TURNS. destruct (live_scan l) as [c|] eqn:Ec.
  - destruct (Hsc c eq_refl). by eapply scanning_next.
  - unfold holds. cbn [next_turns]. unfold live_step at 1. rewrite Ht, Ec. pose proof (Hread (live_from l)) as Hserves.
    destruct (read_after s (live_from l)) as [c|e] eqn:E; [|done].
    apply (read_after_opens _ _ _ Hi) in E. rewrite Hf in E.
    apply (scanning_next 1 c (MkLive (live_from l) (Some c) 0 (caught_up l) Top)); try done. exists s, s. split_and!; [done|apply grows_refl|done].
Qed.
End next.

(** ** What the kit needs of a live store

    An append and a registration are activity that other subscribers see, a registration
    commits nothing, and positions are ordered as the log is. *)

Class SubscribableSpec (S : Type) {R : RawEventStore S} {RS : RawEventStoreSpec S} {RA : RawAllStore S} {AP : AllPosition (AllPos S)}
    {AL : AllLogSpec S} {WS : WakeSource S} {L : LiveSpec S} {LA : LiveAllSpec S} := {
  append_activity s id expected b s' r :
    store_inv s -> batch_ok b -> append s id expected b = (s', Returns r) -> activity s s';
  register_activity s t s' r :
    store_inv s -> wake_register s t = (s', Ok r) -> activity s s' /\ all_log s' = all_log s;
  all_of_log s : store_inv s -> all_of s = (fun i => (i.1.2, i.2)) <$> all_log s;
  pos_by_index p q : pos_ltb p q = (all_pos p <? all_pos q);
}.

(** In working order: the registrations the kit holds at a time are granted.  [crowd] is
    how many are held. *)
Definition CROWD : Z := 2.

Class ServesSubscribers (S : Type) {R : RawEventStore S} {RS : RawEventStoreSpec S} {WS : WakeSource S} := {
  crowd : S -> Z;
  register_serves s t : store_inv s -> crowd s < CROWD -> exists s' r, wake_register s t = (s', Ok r) /\ crowd s' <= crowd s + 1;
  append_crowd s id expected b s' r : append s id expected b = (s', Returns r) -> crowd s' <= crowd s;
}.

Section sub_spec.
Context {T : Target} {S : Type} {R : RawEventStore S} {RS : RawEventStoreSpec S} {RA : RawAllStore S} {AP : AllPosition (AllPos S)} {AL : AllLogSpec S}.
Context {WS : WakeSource S} {L : LiveSpec S} {LA : LiveAllSpec S} {SU : SubscribableSpec S} {SK : ServesKit S} {SS : ServesSubscribers S}.
Notation KError := (SError S + WError S)%type.
Notation check := (program S KError).

Lemma holds_lift {A} (P : S -> Prop) s (m : program S (SError S) A) (Q : A -> S -> Prop) :
  P (m s).1 -> holds s m (fun a s' => P s' -> Q a s') -> holds s (lift m) Q.
Proof. unfold holds, lift. destruct (m s) as [s' []]; auto. Qed.

Lemma holds_lifted {A} s (m : program S (SError S) A) (Q : A -> S -> Prop) : holds s m Q -> holds s (lift m) Q.
Proof. unfold holds, lift. by destruct (m s) as [s' []]. Qed.

(** *** Appends *)

(** What every append keeps, the appends of the kit keep. *)
Section keeps.
Context (P : S -> Prop) (s : S) (Hi : store_inv s) (Hs : P s).
Context (append_keeps : forall id expected b s' r, batch_ok b -> append s id expected b = (s', Returns r) -> P s').

Lemma kit_append_keeps id expected b : batch_ok b -> P (kit_append id expected b s).1.
Proof using All.
  intros Hb. unfold kit_append. pose proof (append_no_panic s id expected b Hi Hb) as Hnp.
  destruct (append s id expected b) as [s' [r|]] eqn:E; [|done]. by apply (append_keeps _ _ _ _ _ Hb E).
Qed.

Lemma append_event_keeps id v payload : 1 <= v <= u64_max -> len payload <= VALUE_BYTES -> P (append_event id v payload s).1.
Proof using All.
  intros Hv Hp. unfold append_event, append_event_at. destruct (envelope_for_ok (row_new v (text "E") payload)) as (env & He & Hok & _); [by apply plain_ok|].
  unfold kbind. rewrite He. cbn [must pass]. pose proof (kit_append_keeps id (new (Z.max 0 (v - 1))) (PendingBatch.of_one env) (kit_batch_ok _ (one_ok _ Hok))) as Ha.
  destruct (kit_append id _ _ s) as [s' [[p|[]]| | |]]; done.
Qed.

Lemma append_rows_keeps id rows : Forall row_ok rows -> P (append_rows id rows s).1.
Proof using All.
  intros Hr. unfold append_rows. destruct rows as [|row rows]; [done|].
  destruct (envelopes_for_ok _ Hr) as (envs & He & Hok & Hrows). unfold kbind. rewrite He. cbn [must pass]. destruct envs as [|env envs]; [done|].
  cbn [PendingBatch.new expect must pass]. pose proof (kit_append_keeps id None (PendingBatch.from_parts env envs) (kit_batch_ok (PendingBatch.from_parts env envs) Hok)) as Ha.
  destruct (kit_append id _ _ s) as [s' [[p|[]]| | |]]; done.
Qed.
End keeps.

Lemma holds_event s C Lg id v payload (Q : () -> S -> Prop) :
  shows s C Lg -> kit_key id -> len Lg + 1 <= ROOM -> v = len (C id) + 1 -> v <= u64_max -> len payload <= VALUE_BYTES ->
  let row := row_new v (text "E") payload in
  (forall s' p, activity s s' -> crowd s' <= crowd s -> shows s' (upd id (C id ++ [row]) C) (Lg ++ [(p, id, row)]) -> Q tt s') ->
  holds s (lift (append_event id v payload)) Q.
Proof.
  intros Hs Hk Hroom Hv Hm Hp row HQ. pose proof (sh_inv _ _ _ Hs) as Hi. apply (holds_lift (fun s' => activity s s' /\ crowd s' <= crowd s)).
  - pose proof (len_nonneg (C id)). apply append_event_keeps; [done|split; [apply activity_refl|lia]| |lia|done].
    intros id' expected b s' r Hb E. split; [by eapply append_activity|by eapply append_crowd].
  - eapply holds_append_event; [exact Hs|done..|]. intros s' p Hs' [Ha Hc]. by eapply HQ.
Qed.

(** *** Subscribers of a stream *)

(** The subscriber has the first [a] events of the stream behind it. *)
Definition sub_at (s : S) (sub : Sub) (id : StreamKey) (a : Z) (cu : bool) : Prop :=
  sc_id (projT1 sub) = id /\ kit_key id /\ standing (CS := stream_catchup_spec (projT1 sub)) s (projT2 sub) a /\
  caught_up (projT2 sub) = cu.

Lemma sub_stays s s' sub id a cu : sub_at s sub id a cu -> activity s s' -> sub_at s' sub id a cu.
Proof. intros (Hid & Hk & Hst & Hcu) Ha. split_and!; [done|done| |done]. by eapply standing_grows. Qed.

Lemma stream_readable (c : @StreamCatchup S WS) s : store_inv s -> kit_key (sc_id c) -> readable (C := stream_catchup c) s.
Proof.
  intros Hi Hk p. cbn. destruct (resume p) as [v|]; [|done]. pose proof (read_serves s (sc_id c) v Hi Hk) as H. by destruct (read_stream s (sc_id c) v).
Qed.

Lemma shows_registered s s' t r C Lg : shows s C Lg -> wake_register s t = (s', Ok r) -> shows s' C Lg.
Proof.
  intros [Hi Hst Hlog] E. destruct (register_on _ _ _ _ Hi E) as (Hi' & _ & Hs). destruct (register_activity _ _ _ _ Hi E) as (_ & Hl).
  split; [done|intros id; by rewrite Hs|by rewrite Hl].
Qed.

Lemma holds_open_sub s C Lg k from (Q : Sub -> S -> Prop) :
  shows s C Lg -> kit_key (MkStreamKey k) -> crowd s < CROWD ->
  (forall s' sub, activity s s' -> crowd s' <= crowd s + 1 -> shows s' C Lg -> sub_at s' sub (MkStreamKey k) (from_option as_u64 0 from) false -> Q sub s') ->
  holds s (open_sub k from) Q.
Proof.
  intros Hs Hk Hcr HQ. unfold holds, open_sub, Subscription.subscribe, stream_catchup_new.
  destruct (register_serves s (Some k) (sh_inv _ _ _ Hs) Hcr) as (s' & r & E & Hcr'). rewrite E. pose proof (shows_registered _ _ _ _ _ _ Hs E) as Hs'.
  destruct (register_activity _ _ _ _ (sh_inv _ _ _ Hs) E) as [Ha _]. destruct (register_on _ _ _ _ (sh_inv _ _ _ Hs) E) as (Hi' & Hr & _).
  apply HQ; [done|done|done|]. split_and!; [done|done| |done]. by apply (standing_start (CS := stream_catchup_spec _)).
Qed.

Lemma holds_next_step s C Lg sub id a cu (Q : Step PersistedEnvelope * Sub -> S -> Prop) :
  shows s C Lg -> sub_at s sub id a cu -> 0 <= a -> (cu = true -> a < len (C id)) ->
  (forall env sub', C id !! Z.to_nat a = Some (row_of env) -> sub_at s sub' id (a + 1) cu -> projT1 sub' = projT1 sub -> Q (StepEvent env, sub') s) ->
  (forall sub', len (C id) <= a -> cu = false -> sub_at s sub' id a true -> projT1 sub' = projT1 sub -> Q (StepCaughtUp, sub') s) ->
  holds s (next_step sub) Q.
Proof.
  intros Hs (Hid & Hk & Hst & Hcu) Ha Hlive He Hm. destruct sub as [c l]. cbn [projT1 projT2] in *. unfold next_step. cbn [projT1 projT2]. apply holds_bind.
  apply (holds_next (CS := stream_catchup_spec c) inl s a _ cu); [| |done| |apply stream_readable; [apply Hs|by rewrite Hid]|done|done].
  - intros x l' Hx _ Hst' Hcu'. apply holds_pass. apply He; [|done|done]. rewrite <- (sh_streams _ _ _ Hs), list_lookup_fmap.
    change (stream_of s (sc_id c) !! Z.to_nat a = Some (from_persisted x.2)) in Hx. rewrite Hid in Hx. rewrite Hx. cbn. by rewrite row_of_pending.
  - intros l' Hl Hcu' Hst' Hc. apply holds_pass. apply Hm; [|done|done|done]. rewrite <- (shows_len _ _ _ id Hs), <- Hid. exact Hl.
  - change (cu = true -> a < len (stream_of s (sc_id c))). by rewrite Hid, (shows_len _ _ _ id Hs).
Qed.

Lemma holds_expect_version s C Lg sub id a cu row want (Q : PersistedEnvelope * Sub -> S -> Prop) :
  shows s C Lg -> sub_at s sub id a cu -> 0 <= a -> C id !! Z.to_nat a = Some row -> cr_version row = want ->
  (forall env sub', row_of env = row -> sub_at s sub' id (a + 1) cu -> Q (env, sub') s) ->
  holds s (expect_version sub want) Q.
Proof.
  intros Hs Hsub Ha Hrow <- HQ. unfold expect_version. apply holds_bind. pose proof (lookup_lt_Some _ _ _ Hrow).
  eapply holds_next_step; [done|done|done|unfold len; lia| |unfold len; lia].
  intros env sub' He Hsub' _. rewrite Hrow in He. injection He as ->. apply holds_bind, holds_pass. apply holds_bind, holds_assert; [apply Z.eqb_refl|]. by apply HQ.
Qed.

Lemma holds_boundary s C Lg sub id a (Q : Sub -> S -> Prop) :
  shows s C Lg -> sub_at s sub id a false -> 0 <= a -> len (C id) <= a ->
  (forall sub', sub_at s sub' id a true -> Q sub' s) -> holds s (expect_boundary sub) Q.
Proof.
  intros Hs Hsub Ha Hl HQ. unfold expect_boundary. apply holds_bind. eapply holds_next_step; [done|done|done|done| |].
  - intros env sub' Hx%lookup_lt_Some. unfold len in Hl. lia.
  - intros sub' _ _ Hsub' _. apply holds_bind, holds_pass. by apply HQ.
Qed.

Lemma holds_backlog s C Lg n sub id a (Q : list PersistedEnvelope * Sub -> S -> Prop) :
  shows s C Lg -> sub_at s sub id a false -> 0 <= a -> (length (drop (Z.to_nat a) (C id)) < n)%nat ->
  (forall envs sub' a', row_of <$> envs = drop (Z.to_nat a) (C id) -> a' = Z.max a (len (C id)) -> sub_at s sub' id a' true -> projT1 sub' = projT1 sub -> Q (envs, sub') s) ->
  holds s (drain_backlog n sub) Q.
Proof.
  intros Hs. revert sub a Q. induction n as [|n IH]; intros sub a Q Hsub Ha Hn HQ; [lia|]. cbn [drain_backlog]. apply holds_bind.
  eapply holds_next_step; [done|done|done|done| |].
  - intros env sub' Hx Hsub' Hreg. apply holds_bind. pose proof (lookup_lt_Some _ _ _ Hx) as Hlt. rewrite (drop_S _ _ _ Hx) in Hn. cbn in Hn.
    assert (Datatypes.S (Z.to_nat a) = Z.to_nat (a + 1)) as Hsucc by lia.
    rewrite Hsucc in Hn. apply (IH sub' (a + 1)); [done|lia|lia|]. intros envs sub'' a' Hr Ha' Hsub'' Hreg'. apply holds_pass. apply (HQ _ _ a'); [|unfold len in *; lia|done|by etrans].
    cbn [fst]. by rewrite fmap_cons, Hr, (drop_S _ _ _ Hx), Hsucc.
  - intros sub' Hl _ Hsub' Hreg. apply holds_pass. apply (HQ _ _ a); [|lia|done|done]. symmetry. apply drop_ge. unfold len in Hl. lia.
Qed.

(** *** Subscribers of all events *)

Definition all_sub_at (s : S) (sub : AllSub) (a : Z) (cu : bool) : Prop :=
  standing (CS := all_catchup_spec (projT1 sub)) s (projT2 sub) a /\ caught_up (projT2 sub) = cu.

Lemma all_sub_stays s s' sub a cu : all_sub_at s sub a cu -> activity s s' -> all_sub_at s' sub a cu.
Proof. intros (Hst & Hcu) Ha. split; [|done]. by eapply standing_grows. Qed.

Lemma holds_open_all_sub s C Lg from (Q : AllSub -> S -> Prop) :
  shows s C Lg -> crowd s < CROWD ->
  (forall s' sub, activity s s' -> crowd s' <= crowd s + 1 -> shows s' C Lg -> all_sub_at s' sub (from_option all_pos 0 from) false -> Q sub s') ->
  holds s (open_all_sub from) Q.
Proof.
  intros Hs Hcr HQ. unfold holds, open_all_sub, subscribe_all, all_catchup_new.
  destruct (register_serves s None (sh_inv _ _ _ Hs) Hcr) as (s' & r & E & Hcr'). rewrite E. pose proof (shows_registered _ _ _ _ _ _ Hs E) as Hs'.
  destruct (register_activity _ _ _ _ (sh_inv _ _ _ Hs) E) as [Ha _]. destruct (register_on _ _ _ _ (sh_inv _ _ _ Hs) E) as (Hi' & Hr & _).
  apply HQ; [done|done|done|]. split; [|done]. by apply (standing_start (CS := all_catchup_spec _)).
Qed.

(** The log without its positions, and a delivered item as an entry of it. *)
Definition entries (Lg : list (AllPos S * StreamKey * ConformanceRow)) : list (StreamKey * ConformanceRow) := (fun i => (i.1.2, i.2)) <$> Lg.
Definition entry_of (i : AllPos S * StreamKey * PersistedEnvelope) : StreamKey * ConformanceRow := (i.1.2, row_of i.2).

Lemma shows_entries s C Lg : shows s C Lg -> entries Lg = (fun e => (e.1, pending_row e.2)) <$> all_of s.
Proof. intros [Hi _ <-]. unfold entries. rewrite (all_of_log s Hi), <- !list_fmap_compose. done. Qed.

Lemma holds_next_all_step s C Lg sub a cu (Q : Step (AllPos S * StreamKey * PersistedEnvelope) * AllSub -> S -> Prop) :
  shows s C Lg -> all_sub_at s sub a cu -> 0 <= a -> (cu = true -> a < len Lg) ->
  (forall i sub', entries Lg !! Z.to_nat a = Some (entry_of i) -> all_pos i.1.1 = a + 1 -> all_sub_at s sub' (a + 1) cu -> Q (StepEvent i, sub') s) ->
  (forall sub', len Lg <= a -> cu = false -> all_sub_at s sub' a true -> Q (StepCaughtUp, sub') s) ->
  holds s (next_all_step sub) Q.
Proof.
  intros Hs (Hst & Hcu) Ha Hlive He Hm. destruct sub as [c l]. cbn [projT1 projT2] in *. unfold next_all_step. cbn [projT1 projT2]. apply holds_bind.
  assert (len (all_of s) = len Lg) as Hlen.
  { pose proof (f_equal length (shows_entries _ _ _ Hs)) as H. unfold entries in H. rewrite !length_fmap in H. unfold len. by rewrite H. }
  apply (holds_next (CS := all_catchup_spec c) inl s a _ cu); [| |done| |intros p; apply (scan_serves s p), Hs|done|done].
  - intros x l' Hx Hp Hst' Hcu'. apply holds_pass. apply He; [|exact Hp|done]. rewrite (shows_entries _ _ _ Hs), list_lookup_fmap.
    change (all_of s !! Z.to_nat a = Some (x.1.2, from_persisted x.2)) in Hx. rewrite Hx. unfold entry_of. cbn. by rewrite row_of_pending.
  - intros l' Hl Hcu' Hst' Hc. apply holds_pass. apply Hm; [|done|done]. rewrite <- Hlen. exact Hl.
  - change (cu = true -> a < len (all_of s)). by rewrite Hlen.
Qed.

Lemma holds_all_backlog s C Lg n sub a (Q : list (AllPos S * StreamKey * PersistedEnvelope) * AllSub -> S -> Prop) :
  shows s C Lg -> all_sub_at s sub a false -> 0 <= a <= len Lg -> (Z.to_nat (len Lg - a) < n)%nat ->
  (forall items sub', entry_of <$> items = drop (Z.to_nat a) (entries Lg) -> (fun i => all_pos i.1.1) <$> items = seqZ (a + 1) (len Lg - a) ->
     all_sub_at s sub' (len Lg) true -> Q (items, sub') s) ->
  holds s (drain_all_backlog n sub) Q.
Proof.
  intros Hs. revert sub a Q. induction n as [|n IH]; intros sub a Q Hsub Ha Hn HQ; [lia|]. cbn [drain_all_backlog]. apply holds_bind.
  eapply holds_next_all_step; [done|done|lia|done| |].
  - intros i sub' Hx Hp Hsub'. apply holds_bind. pose proof (lookup_lt_Some _ _ _ Hx) as Hlt. unfold entries in Hlt. rewrite length_fmap in Hlt. assert (a < len Lg) by (unfold len; lia).
    apply (IH sub' (a + 1)); [done|lia|lia|]. intros items sub'' Hr Hps Hsub''. apply holds_pass. apply HQ; [| |done]; cbn [fst].
    + rewrite fmap_cons, Hr, (drop_S _ _ _ Hx). by replace (Z.to_nat (a + 1)) with (Datatypes.S (Z.to_nat a)) by lia.
    + rewrite fmap_cons, Hps, Hp, (seqZ_cons (a + 1)) by lia. f_equal. f_equal; lia.
  - intros sub' Hl _ Hsub'. assert (a = len Lg) as -> by lia. apply holds_pass. apply HQ; [| |done]; cbn.
    + symmetry. apply drop_ge. unfold entries. rewrite length_fmap. unfold len. lia.
    + by rewrite Z.sub_diag.
Qed.

(** *** The checks *)

Section checks.
Context (fuel : nat) (Hfuel : (3000 <= fuel)%nat).
Context (s : S) (Hfresh : shows s (fun _ => []) []) (Halone : crowd s <= 0).

(** The registrations so far leave room for one more. *)
Ltac granted := unfold CROWD; lia.
Ltac event H s H' Ha := apply holds_bind; eapply holds_event; [exact H|by vm_compute|roomy|by vm_compute|done|by vm_compute|]; let Hc := fresh "Hcrowd" in intros s ? Ha Hc H'.
Ltac opens H s sub H' Ha Hs := apply holds_bind; eapply holds_open_sub; [exact H|by vm_compute|granted|]; let Hc := fresh "Hcrowd" in intros s sub Ha Hc H' Hs.
Ltac arrives H Hs sub Hs' :=
  let env := fresh "env" in let He := fresh "He" in
  apply holds_bind; eapply holds_expect_version; [exact H|exact Hs|by vm_compute|vm_compute; reflexivity|reflexivity|]; intros env sub He Hs'; cbn [fst snd].
Ltac boundary H Hs sub Hs' := apply holds_bind; eapply holds_boundary; [exact H|exact Hs|by vm_compute|by vm_compute|]; intros sub Hs'.

Lemma subscription_backlog_then_caught_up_then_live : passes s check_subscription_backlog_then_caught_up_then_live.
Proof using All.
  unfold passes, check_subscription_backlog_then_caught_up_then_live. cbn zeta. apply holds_bind. cbn [append_versions].
  event Hfresh s1 H1 Ha1. event H1 s2 H2 Ha2. event H2 s3 H3 Ha3. apply holds_pass. opens H3 s4 sub H4 Ha4 Hs.
  apply holds_bind. cbn [expect_versions]. arrives H4 Hs sub1 Hs1. arrives H4 Hs1 sub2 Hs2. arrives H4 Hs2 sub3 Hs3. apply holds_pass.
  boundary H4 Hs3 sub4 Hs4. event H4 s5 H5 Ha5. pose proof (sub_stays _ _ _ _ _ _ Hs4 Ha5) as Hs5. arrives H5 Hs5 sub6 Hs6. done.
Qed.

Lemma subscription_resume_strict_after : passes s check_subscription_resume_strict_after.
Proof using All.
  unfold passes, check_subscription_resume_strict_after. cbn zeta. apply holds_bind. cbn [append_versions].
  event Hfresh s1 H1 Ha1. event H1 s2 H2 Ha2. event H2 s3 H3 Ha3. event H3 s4 H4 Ha4. event H4 s5 H5 Ha5. apply holds_pass.
  apply holds_bind. eapply holds_must; [vm_compute; reflexivity|]. opens H5 s6 sub H6 Ha6 Hs. arrives H6 Hs sub1 Hs1. done.
Qed.

Lemma subscription_absent_stream_waits_then_delivers : passes s check_subscription_absent_stream_waits_then_delivers.
Proof using All.
  unfold passes, check_subscription_absent_stream_waits_then_delivers. opens Hfresh s1 sub H1 Ha1 Hs. boundary H1 Hs sub1 Hs1.
  event H1 s2 H2 Ha2. pose proof (sub_stays _ _ _ _ _ _ Hs1 Ha2) as Hs2. arrives H2 Hs2 sub3 Hs3.
  apply holds_assert; [|done]. apply bool_decide_eq_true. exact (f_equal cr_payload He).
Qed.

Lemma two_subscribers_same_stream_both_receive : passes s check_two_subscribers_same_stream_both_receive.
Proof using All.
  unfold passes, check_two_subscribers_same_stream_both_receive. cbn zeta. event Hfresh s1 H1 Ha1. opens H1 s2 a H2 Ha2 Hsa. opens H2 s3 b H3 Ha3 Hsb.
  apply (fun H => sub_stays _ _ _ _ _ _ H Ha3) in Hsa. apply holds_bind. cbn [expect_versions]. arrives H3 Hsa a1 Ha. apply holds_pass. boundary H3 Ha a2 Hb.
  apply holds_bind. cbn [expect_versions]. arrives H3 Hsb b1 Hb1. apply holds_pass. boundary H3 Hb1 b2 Hb2. event H3 s4 H4 Ha4.
  apply (fun H => sub_stays _ _ _ _ _ _ H Ha4) in Hb, Hb2. arrives H4 Hb a3 Ha3'. arrives H4 Hb2 b3 Hb3. done.
Qed.

Lemma subscription_beyond_head_filters_below_bound : passes s check_subscription_beyond_head_filters_below_bound.
Proof using All.
  unfold passes, check_subscription_beyond_head_filters_below_bound. cbn zeta. apply holds_bind. cbn [append_versions].
  event Hfresh s1 H1 Ha1. event H1 s2 H2 Ha2. apply holds_pass. apply holds_bind. eapply holds_must; [vm_compute; reflexivity|].
  opens H2 s3 sub H3 Ha3 Hs. boundary H3 Hs sub1 Hs1. apply holds_bind. event H3 s4 H4 Ha4. event H4 s5 H5 Ha5. event H5 s6 H6 Ha6. event H6 s7 H7 Ha7. apply holds_pass.
  apply (fun H => sub_stays _ _ _ _ _ _ H Ha4), (fun H => sub_stays _ _ _ _ _ _ H Ha5), (fun H => sub_stays _ _ _ _ _ _ H Ha6), (fun H => sub_stays _ _ _ _ _ _ H Ha7) in Hs1.
  arrives H7 Hs1 sub2 Hs2. done.
Qed.

Lemma subscription_all_backlog_then_caught_up_then_live : passes s (check_subscription_all_backlog_then_caught_up_then_live fuel).
Proof using All.
  unfold passes, check_subscription_all_backlog_then_caught_up_then_live. cbn zeta. event Hfresh s1 H1 Ha1. event H1 s2 H2 Ha2. event H2 s3 H3 Ha3.
  apply holds_bind. eapply holds_open_all_sub; [exact H3|granted|]. intros s4 sub Ha4 Hc4 H4 Hs.
  apply holds_bind. eapply holds_all_backlog; [exact H4|exact Hs|by vm_compute|change ((3 < fuel)%nat); lia|]. intros items sub1 Hi Hp Hs1.
  change (entry_of <$> items = [(key "a", row_new 1 (text "E") (text "a1")); (key "b", row_new 1 (text "E") (text "b1")); (key "a", row_new 2 (text "E") (text "a2"))]) in Hi.
  change ((fun i => all_pos i.1.1) <$> items = [1; 2; 3]) in Hp. destruct items as [|i1 [|i2 [|i3 [|]]]]; try done.
  injection Hp as Hp1 Hp2 Hp3.
  apply holds_bind. apply holds_assert; [apply bool_decide_eq_true; exact (f_equal (List.map (fun e => cr_payload e.2)) Hi)|].
  apply holds_bind. apply holds_assert; [apply bool_decide_eq_true; exact (f_equal (List.map (fun e => StreamKey.as_bytes e.1)) Hi)|].
  assert (strictly_increasing [i1.1.1; i2.1.1; i3.1.1] = true) as Hinc by (cbn; by rewrite !pos_by_index, Hp1, Hp2, Hp3).
  apply holds_bind, holds_lifted. apply holds_assert; [exact Hinc|]. apply holds_bind. eapply holds_must; [done|].
  event H4 s5 H5 Ha5. pose proof (all_sub_stays _ _ _ _ _ Hs1 Ha5) as Hs5.
  apply holds_bind. eapply holds_next_all_step; [exact H5|exact Hs5|done|done| |done]. intros i4 sub5 Hi4 Hp4 _.
  change (Some (key "b", row_new 2 (text "E") (text "b2")) = Some (entry_of i4)) in Hi4. apply (inj Some) in Hi4. symmetry in Hi4.
  apply holds_bind, holds_pass. apply holds_bind. apply holds_assert; [apply bool_decide_eq_true; exact (f_equal (fun e => cr_payload e.2) Hi4)|].
  apply holds_bind. apply holds_assert; [apply bool_decide_eq_true; exact (f_equal (fun e => StreamKey.as_bytes e.1) Hi4)|]. apply holds_assert; [|done]. by rewrite pos_by_index, Hp3, Hp4.
Qed.

Lemma subscription_large_backlog_crosses_chunk_seam : passes s (check_subscription_large_backlog_crosses_chunk_seam fuel).
Proof using All.
  unfold passes, check_subscription_large_backlog_crosses_chunk_seam. destruct (plain_rows_ok 2500) as (Hok & Hv & Hl); [done|].
  remember (plain_rows 2500) as rows eqn:Er. clear Er. apply holds_bind.
  apply (holds_lift (fun s' => crowd s' <= crowd s)); [apply append_rows_keeps; [apply Hfresh|lia|intros; by eapply append_crowd|done]|].
  eapply holds_append_rows; [exact Hfresh|by vm_compute|by rewrite Hl|done|by destruct rows|done|by rewrite Hl|]. intros s1 ps H1 Hps Hc1.
  opens H1 s2 sub H2 Ha2 Hs. apply holds_bind. eapply holds_backlog; [exact H2|exact Hs|done|rewrite length_drop; unfold key, upd; rewrite decide_True by done; unfold len in Hl; lia|].
  intros envs sub' a' Henvs _ _ _. apply holds_assert; [|done]. apply bool_decide_eq_true. cbn [fst]. rewrite <- Hv.
  unfold key in Henvs. cbn [from_option Z.to_nat drop] in Henvs. unfold upd in Henvs. rewrite decide_True in Henvs by done. change (row_of <$> envs = rows) in Henvs. rewrite <- Henvs, <- list_fmap_compose. done.
Qed.

(** *** Reopening *)

Section reopening.
Context (reopen : S -> S).
(** What is stored outlives the store. *)
Context (reopen_keeps : forall s, store_inv s ->
  store_inv (reopen s) /\ (forall id, stream_of (reopen s) id = stream_of s id) /\ all_log (reopen s) = all_log s /\ crowd (reopen s) <= crowd s).

Lemma holds_reopen s0 C Lg (Q : () -> S -> Prop) :
  shows s0 C Lg -> (shows (reopen s0) C Lg -> crowd (reopen s0) <= crowd s0 -> Q tt (reopen s0)) -> holds s0 (kit_reopen reopen) Q.
Proof using reopen_keeps.
  intros [Hi Hst Hlog] HQ. destruct (reopen_keeps s0 Hi) as (Hi' & Hs & Hl & Hc). apply HQ; [|done]. split; [done|intros id; by rewrite Hs|by rewrite Hl].
Qed.

Ltac reopens H H' := apply holds_bind; eapply holds_reopen; [exact H|]; let Hc := fresh "Hcrowd" in intros H' Hc.
Ltac reads H := apply holds_bind; apply holds_lifted; eapply holds_drain_stream; [exact H|by vm_compute|by vm_compute; lia|].
Ltac scans H := apply holds_bind; apply holds_lifted; eapply holds_drain_all; [exact H|cbn; lia|].

Lemma reopen_preserves_events : passes s (check_reopen_preserves_events fuel reopen).
Proof using All.
  unfold passes, check_reopen_preserves_events. cbn zeta. apply holds_bind. apply holds_lifted.
  eapply holds_append_rows; [exact Hfresh|by vm_compute|by vm_compute|done|done|rows_ok|done|]. intros s1 ps H1 _. reads H1. reopens H1 H2. reads H2.
  apply holds_assert; [by apply bool_decide_eq_true|done].
Qed.

Lemma reopen_preserves_position_watermark : passes s (check_reopen_preserves_position_watermark fuel reopen).
Proof using All.
  unfold passes, check_reopen_preserves_position_watermark. cbn zeta. apply holds_bind, holds_lifted. eapply holds_append_event; [exact Hfresh|by vm_compute|roomy|by vm_compute..|].
  intros s1 p1 H1. apply holds_bind, holds_lifted. eapply holds_append_event; [exact H1|by vm_compute|roomy|by vm_compute..|]. intros s2 p2 H2. scans H2. rewrite filter_from_start.
  apply holds_bind. eapply holds_must; [done|]. reopens H2 H3. apply holds_bind, holds_lifted. eapply holds_append_event; [exact H3|by vm_compute|roomy|by vm_compute..|]. intros s4 p4 H4.
  pose proof (shows_increasing _ _ _ H4) as Hs. cbn [app] in Hs. pose proof Hs as [Hs' [_ [H14 _]%Forall_cons]%Forall_cons]%StronglySorted_inv.
  pose proof Hs' as [_ [H24 _]%Forall_cons]%StronglySorted_inv. scans H4. cbn [app fst is_after].
  assert (filter (fun i : AllPos S * StreamKey * ConformanceRow => pos_ltb p2 i.1.1 = true)
    [(p1, key "a", row_new 1 (text "E") (text "a1")); (p2, key "b", row_new 1 (text "E") (text "b1")); (p4, key "a", row_new 2 (text "E") (text "a2"))]
    = [(p4, key "a", row_new 2 (text "E") (text "a2"))]) as Hf.
  { destruct (pos_order (S := S)) as [Hirr Htr]. pose proof Hs as [_ [H12 _]%Forall_cons]%StronglySorted_inv.
    rewrite filter_cons_False by (cbn; intros H; exact (Hirr _ (Htr _ _ _ H H12))). rewrite filter_cons_False by (cbn; apply Hirr). by rewrite filter_cons_True. }
  rewrite Hf. apply holds_bind. apply holds_assert; [done|]. apply holds_bind. eapply holds_index; [done|].
  apply holds_bind. apply holds_assert; [by apply bool_decide_eq_true|]. by apply holds_assert.
Qed.

Lemma reopen_conflict_state_intact : passes s (check_reopen_conflict_state_intact fuel reopen).
Proof using All.
  unfold passes, check_reopen_conflict_state_intact. cbn zeta. apply holds_bind, holds_lifted. eapply holds_append_event; [exact Hfresh|by vm_compute|roomy|by vm_compute..|].
  intros s1 p1 H1. apply holds_bind, holds_lifted. eapply holds_append_event; [exact H1|by vm_compute|roomy|by vm_compute..|]. intros s2 p2 H2. reopens H2 H3.
  destruct (envelope_for_ok (row_new 1 (text "E") (bytes_of [9]))) as (env & He & Hok & _); [by apply plain_ok|].
  apply holds_bind. eapply holds_must; [exact He|]. apply holds_bind, holds_lifted. eapply holds_rejected; [exact H3|by vm_compute|by apply one_ok|roomy|by intros [? _]|].
  intros s4 l w a H4 _. apply holds_bind, holds_lifted. apply holds_pass. apply holds_bind, holds_lifted. eapply holds_append_event; [exact H4|by vm_compute|roomy|by vm_compute..|].
  intros s5 p5 H5. reads H5. by apply holds_assert.
Qed.

Lemma reopen_subscription_catches_up : passes s (check_reopen_subscription_catches_up fuel reopen).
Proof using All.
  unfold passes, check_reopen_subscription_catches_up. cbn zeta. apply holds_bind. cbn [append_versions].
  event Hfresh s1 H1 Ha1. event H1 s2 H2 Ha2. event H2 s3 H3 Ha3. apply holds_pass. reopens H3 H4. opens H4 s5 sub H5 Ha5 Hs.
  apply holds_bind. eapply holds_backlog; [exact H5|exact Hs|done|change ((3 < fuel)%nat); lia|]. intros envs sub' a' Henvs _ _ _. apply holds_assert; [|done].
  apply bool_decide_eq_true. apply (f_equal (fmap cr_version)) in Henvs. rewrite <- list_fmap_compose in Henvs. exact Henvs.
Qed.
End reopening.
End checks.

Ltac kit H := apply Forall_cons_2; [exact H|].

Lemma subscription_checks_pass fuel s : (3000 <= fuel)%nat -> shows s (fun _ => []) [] -> crowd s <= 0 -> Forall (passes s) (subscription_checks fuel).
Proof.
  intros Hf Hs Hc. unfold subscription_checks.
  kit (subscription_backlog_then_caught_up_then_live fuel Hf s Hs Hc).
  kit (subscription_resume_strict_after fuel Hf s Hs Hc).
  kit (subscription_all_backlog_then_caught_up_then_live fuel Hf s Hs Hc).
  kit (subscription_absent_stream_waits_then_delivers fuel Hf s Hs Hc).
  kit (two_subscribers_same_stream_both_receive fuel Hf s Hs Hc).
  kit (subscription_large_backlog_crosses_chunk_seam fuel Hf s Hs Hc).
  kit (subscription_beyond_head_filters_below_bound fuel Hf s Hs Hc).
  apply Forall_nil_2.
Qed.

(** A store in working order whose contents outlive it passes the checks that reopen it. *)
Theorem lifecycle_kit_accepts fuel s reopen :
  (3000 <= fuel)%nat -> store_inv s -> (forall id, stream_of s id = []) -> all_log s = [] -> crowd s <= 0 ->
  (forall s, store_inv s -> store_inv (reopen s) /\ (forall id, stream_of (reopen s) id = stream_of s id) /\
     all_log (reopen s) = all_log s /\ crowd (reopen s) <= crowd s) ->
  Forall (accepted s) (lifecycle_checks fuel reopen).
Proof.
  intros Hf Hi Hst Hlog Hc Hre. assert (shows s (fun _ => []) []) as Hs by (split; [done|intros id; by rewrite Hst|by rewrite Hlog]).
  unfold lifecycle_checks.
  kit (passes_accepted _ _ (reopen_preserves_events fuel Hf s Hs Hc reopen Hre)).
  kit (passes_accepted _ _ (reopen_preserves_position_watermark fuel Hf s Hs Hc reopen Hre)).
  kit (passes_accepted _ _ (reopen_conflict_state_intact fuel Hf s Hs Hc reopen Hre)).
  kit (passes_accepted _ _ (reopen_subscription_catches_up fuel Hf s Hs Hc reopen Hre)).
  apply Forall_nil_2.
Qed.
End sub_spec.

(** ** The in-memory store *)

Section live.
Context {T : Target} {AS : ArrayString} {W : Watch} (debug : bool).
#[local] Existing Instance live_raw.
#[local] Existing Instance live_all.
#[local] Existing Instance live_wake.
#[local] Existing Instance live_raw_spec.
#[local] Existing Instance live_spec.
#[local] Existing Instance live_all_spec.
#[local] Existing Instance live_log_spec.

(** An append of the store is its commit followed by the wakes it owes. *)
Lemma live_append_acts s id expected b s' r :
  live_ok s -> batch_ok b -> append (RawEventStore := live_raw debug) s id expected b = (s', Returns r) -> rtc act s s'.
Proof.
  intros [Hr _] Hb E. cbn in E. unfold store_append in E. destruct (append_inner (inner (lv_store s)) id expected b) as [i [[p|e]|]] eqn:Ei; [| |done].
  - assert (s' = MkLiveStore (MkStore i (wake (notifiers (lv_store s)) (sk_bytes id)) (batch_size (lv_store s))) (lv_owed s) (lv_guards s)) as -> by congruence. clear E.
    eapply rtc_l; [exact (act_append s id expected b i p Hb Ei)|]. set (s1 := committed s i [id]).
    set (s2 := MkLiveStore (MkStore i (wake_stream (notifiers (lv_store s)) (sk_bytes id)) (batch_size (lv_store s))) (lv_owed s ++ [OpWakeAll]) (lv_guards s)).
    apply (rtc_l _ _ s2).
    + apply (act_announce s1 (OpWakeStream (sk_bytes id))); [|apply step_wake_stream]. unfold s1, committed, owes. cbn. by rewrite Permutation_middle.
    + apply rtc_once. apply (act_announce s2 OpWakeAll (lv_owed s)); [|apply step_wake_all]. unfold s2. cbn. by rewrite Permutation_app_comm.
  - pose proof (append_inner_spec _ _ id expected b Hr Hb) as Hspec. rewrite Ei in Hspec. subst i.
    assert (s' = s) as -> by (destruct s as [[]]; cbn in *; congruence). apply rtc_refl.
Qed.

Lemma live_register_acts s t s' r : live_ok s -> wake_register (WakeSource := live_wake) s t = (s', Ok r) -> rtc act s s'.
Proof.
  intros _ E. cbn in E. destruct t as [key|]; cbn in E.
  - destruct (register_entry (notifiers (lv_store s)) key) as [n [[[g c] rx]|e]] eqn:Er; injection E as <- E; [|done].
    eapply rtc_l; [|apply rtc_refl]. by eapply act_registry, step_register.
  - injection E as <- _. destruct s as [[]]. apply rtc_refl.
Qed.

#[export] Instance live_subscribable :
  @SubscribableSpec LiveStore (live_raw debug) (live_raw_spec debug) (live_all debug) inmemory_position (live_log_spec debug) live_wake (live_spec debug) (live_all_spec debug).
Proof.
  split.
  - intros s id expected b s' r Hi Hb E. by eapply live_append_acts.
  - intros s t s' r Hi E. split; [by eapply live_register_acts|]. cbn in E.
    destruct (register (notifiers (lv_store s)) t) as [n r']. by injection E as <- _.
  - intros s _. cbn. change ((fun i => (i.1.2, i.2)) <$> numbered_log 1 (lv_log s)) with ((fun i : InMemoryAllPos * StreamKey * PendingEnvelope => (i.1.2, i.2)) <$> numbered_log 1 (lv_log s)).
    by rewrite numbered_log_entries.
  - done.
Qed.

#[export] Instance live_serves_subscribers : @ServesSubscribers LiveStore (live_raw debug) (live_raw_spec debug) live_wake.
Proof.
  refine (@Build_ServesSubscribers LiveStore (live_raw debug) (live_raw_spec debug) live_wake (fun s => len (lv_guards s)) _ _).
  - intros s [k|] [_ [_ Hcount]] Hlt; cbn; [|do 2 eexists; split; [done|cbn; lia]].
    unfold register_entry, entry_or_insert. destruct (Hcount k) as [Hk _]. assert (guards_of k (lv_guards s) <= len (lv_guards s)) as Hle.
    { unfold guards_of, len. pose proof (length_filter (eq k) (lv_guards s)). lia. }
    pose proof (guards_of_nonneg k (lv_guards s)). pose proof usize_max_lo. unfold CROWD, u32_max in *. cbn in Hk.
    destruct (map (notifiers (lv_store s)) !! k) as [e|]; cbn in Hk |- *; (rewrite checked_add_ok by lia); do 2 eexists; (split; [done|]); cbn; rewrite len_cons; lia.
  - intros s id expected b s' r E. cbn in E. destruct (store_append (lv_store s) id expected b) as [st o]. injection E as <- _. cbn. lia.
Defined.
End live.

(** ** Witness *)

#[local] Existing Instance target64.
#[local] Existing Instance counter_watch.
#[local] Existing Instance list_array_string.

(** What is stored, with nobody subscribed to it. *)
Definition reopened (s : LiveStore) : LiveStore := MkLiveStore (MkStore (lv_inner s) notifiers_new (batch_size (lv_store s))) [] [].

Lemma lifecycle_kit_accepts_witness :
  Forall (accepted live0) (lifecycle_checks (R := live_raw true) (RA := live_all true) (AP := inmemory_position) (WS := live_wake) 3000 reopened).
Proof.
  apply (lifecycle_kit_accepts (RS := live_raw_spec true) (AL := live_log_spec true) (L := live_spec true) (LA := live_all_spec true)
    (SK := live_serves true) (SS := live_serves_subscribers true));
    [lia|exact live0_ok|done|done|done|]. intros s [Hr _]. split_and!; [split; [exact Hr|apply reg_inv_new]|done|done|cbn; apply len_nonneg].
Defined.
