(* ===== verification/ConformanceRace.v ===== *)
(** * The conformance kit for concurrent tasks (crates/store-testing/src/linearizability.rs)

    The checks that spawn tasks, with the interleaving of the tasks as a parameter: the
    order in which racing appends reach the store, the merge of several writers, and
    how many appends of a writer fall before each turn of a subscriber's loop.  Appends
    are whole and a subscriber is interrupted at each of its awaits; [Subscription] has
    the finer grain, where a commit and its wakes are separate steps.  A [next()] that
    times out is one whose loop is parked when no writer is left. *)

From Stdlib Require Import String Sorted.
From S2P Require Import Prelude Utf8 ErrorId Version Value Wire Envelope Wake RawStore Import Log InMemory Subscription LiveInMemory Conformance ConformanceSpec ConformanceSub.
Close Scope string_scope.
Open Scope list_scope.

Definition WRITERS : Z := 8.
Definition PER_STREAM : Z := 5.

Section kit.
Context {T : Target} {S : Type} {R : RawEventStore S} {RA : RawAllStore S} {AP : AllPosition (AllPos S)} {WS : WakeSource S} (fuel : nat).
Notation KError := (SError S + WError S)%type.
Notation check := (program S KError).
Notation AppendResult := (result (AllPos S) (AppendError (SError S))).

(** ** Racing appends *)

(** The body of a writer's task after the barrier. *)
Definition race_append (id : StreamKey) (i : Z) : check AppendResult :=
  let+ env := must (envelope_for (row_new 1 (text "E") (bytes_of [i]))) in
  lift (kit_append id None (PendingBatch.of_one env)).

(** The writers in the order in which the store takes their appends. *)
Fixpoint run_race (id : StreamKey) (order : list Z) : check (list (Z * AppendResult)) :=
  match order with
  | [] => pass []
  | i :: order => let+ r := race_append id i in let+ rs := run_race id order in pass ((i, r) :: rs)
  end.

Definition result_of (rs : list (Z * AppendResult)) (i : Z) : option AppendResult := snd <$> List.find (fun r => r.1 =? i) rs.

(** [for (i, h) in handles.into_iter().enumerate() { match h.await .. }]: the winners and
    the number of conflicts. *)
Fixpoint join_race (rs : list (Z * AppendResult)) (handles : list Z) : check (list Z * Z) :=
  match handles with
  | [] => pass ([], 0)
  | i :: handles =>
      let+ r := must (expect (result_of rs i)) in
      match r with
      | Ok _ => let+ rest := join_race rs handles in pass (i :: rest.1, rest.2)
      | Err (AppendConflict _ _ _) => let+ rest := join_race rs handles in pass (rest.1, rest.2 + 1)
      | Err (AppendStore e) => refuse (inl e)
      end
  end.

Definition check_concurrent_same_stream_single_winner (order : list Z) : check () :=
  let id := key "race" in
  let+ rs := run_race id order in
  let+ joined := join_race rs (seqZ 0 WRITERS) in
  let+ _ := assert (len joined.1 =? 1) in
  let+ _ := assert (joined.2 =? WRITERS - 1) in
  let+ got := lift (drain_stream fuel id INITIAL) in
  let+ _ := assert (len got =? 1) in
  let+ row := index got 0 in
  let+ winner := index joined.1 0 in
  assert (bool_decide (cr_payload row = bytes_of [winner])).

(** ** Writers of distinct streams *)

(** [format!("s{i}")] and [format!("s{i}v{v}")]. *)
Definition writer_key (i : Z) : StreamKey := StreamKey.from_slice (labelled "s" i).
Definition writer_payload (i v : Z) : bytes := labelled "s" i ++ labelled "v" v.

(** A merge of the writers' loops: each entry is one iteration of that writer. *)
Fixpoint run_writers (written : Z -> Z) (schedule : list Z) : check () :=
  match schedule with
  | [] => pass ()
  | i :: schedule =>
      let v := written i + 1 in
      let+ _ := lift (append_event (writer_key i) v (writer_payload i v)) in
      run_writers (fun j => if j =? i then v else written j) schedule
  end.

Definition check_concurrent_distinct_streams_all_land (schedule : list Z) : check () :=
  let+ _ := run_writers (fun _ => 0) schedule in
  let+ all := lift (drain_all fuel None) in
  let+ _ := assert (len all =? WRITERS * PER_STREAM) in
  let+ _ := lift (assert_strictly_increasing all) in
  for_each (seqZ 0 WRITERS) (fun i =>
    let+ got := lift (drain_stream fuel (writer_key i) INITIAL) in
    assert (bool_decide (cr_payload <$> got = writer_payload i <$> seqZ 1 PER_STREAM))).

(** ** A subscriber beside a writer *)

(** Up to [k] more operations of the writer. *)
Fixpoint advance (k : nat) (writer : list (check ())) : check (list (check ())) :=
  match k, writer with
  | Datatypes.S k, op :: writer => let+ _ := op in advance k writer
  | _, _ => pass writer
  end.

(** [timeout(WAIT, stream.next())] beside the writer's task: before each turn the plan says
    how far the writer gets, and while the loop is parked the writer goes on. *)
Fixpoint next_beside {C : Catchup S} (wrap : CError S -> KError) (n : nat) (plan : list nat) (writer : list (check ())) (l : LiveState S)
  : check (Step (Item S) * LiveState S * (list nat * list (check ()))) :=
  match n with
  | O => fun s => (s, Unfinished)
  | Datatypes.S n =>
      let+ writer := advance (hd 0%nat plan) writer in
      fun s =>
        match live_step s l with
        | Panics => (s, Violated)
        | Returns None =>
            match writer with
            | [] => (s, Violated)
            | op :: writer => (let+ _ := op in next_beside wrap n (tl plan) writer l) s
            end
        | Returns (Some (None, l)) => next_beside wrap n (tl plan) writer l s
        | Returns (Some (Some (Ok step), l)) => (s, Passed (step, l, (tl plan, writer)))
        | Returns (Some (Some (Err e), _)) => (s, Refused (wrap e))
        end
  end.

Definition next_step_beside (plan : list nat) (writer : list (check ())) (sub : Sub)
  : check (Step PersistedEnvelope * Sub * (list nat * list (check ()))) :=
  let+ r := next_beside (C := stream_catchup (projT1 sub)) inl fuel plan writer (projT2 sub) in
  pass (Step.map snd r.1.1, existT (projT1 sub) r.1.2, r.2).

Definition check_wake_after_idle (plan : list nat) : check () :=
  let id := key "wake-idle" in
  let+ _ := lift (append_event id 1 (text "p1")) in
  let+ sub := open_sub (text "wake-idle") None in
  let+ drained := drain_backlog fuel sub in
  let writer := [lift (append_event id 2 (text "p2"))] in
  let+ woke := next_step_beside plan writer drained.2 in
  let+ env := expect_event woke.1.1 in
  let+ _ := assert (as_u64 (ps_version env) =? 2) in
  let+ _ := advance (length woke.2.2) woke.2.2 in
  pass ().

Definition BACKLOG : Z := 100.
Definition LIVE : Z := 100.

(** [while versions.len() < want_events || caught_up == 0]; [n] bounds the iterations. *)
Fixpoint boundary_loop (n : nat) (want_events : Z) (versions : list Z) (marks : Z) (plan : list nat) (writer : list (check ())) (sub : Sub)
  : check (list Z * Z * list (check ())) :=
  if (len versions <? want_events) || (marks =? 0) then
    match n with
    | O => fun s => (s, Unfinished)
    | Datatypes.S n =>
        let+ r := next_step_beside plan writer sub in
        match r.1.1 with
        | StepEvent env => boundary_loop n want_events (versions ++ [as_u64 (ps_version env)]) marks r.2.1 r.2.2 r.1.2
        | StepCaughtUp => boundary_loop n want_events versions (marks + 1) r.2.1 r.2.2 r.1.2
        end
    end
  else pass (versions, marks, writer).

Definition check_caught_up_boundary_race (plan : list nat) : check () :=
  let id := key "boundary-race" in
  let+ _ := lift (append_rows id (plain_rows BACKLOG)) in
  let+ sub := open_sub (text "boundary-race") None in
  let writer := (fun v => lift (append_event id v (text "live"))) <$> seqZ (BACKLOG + 1) LIVE in
  let+ r := boundary_loop fuel (BACKLOG + LIVE) [] 0 plan writer sub in
  let+ _ := advance (length r.2) r.2 in
  let+ _ := assert (r.1.2 =? 1) in
  assert (bool_decide (r.1.1 = seqZ 1 (BACKLOG + LIVE))).
End kit.

(** ** Racing appends *)

Section race.
Context {T : Target} {S : Type} {R : RawEventStore S} {RS : RawEventStoreSpec S} {RA : RawAllStore S} {AP : AllPosition (AllPos S)} {AL : AllLogSpec S} {WS : WakeSource S} {SK : ServesKit S}.
Notation KError := (SError S + WError S)%type.
Notation check := (program S KError).
Notation AppendResult := (result (AllPos S) (AppendError (SError S))).

Definition refused_by_store (r : AppendResult) : bool := match r with Err (AppendStore _) => true | _ => false end.

Definition race_row (i : Z) : ConformanceRow := row_new 1 (text "E") (bytes_of [i]).

(** What the racers so far have left behind: the first of them has won. *)
Definition raced (rows : list ConformanceRow) (rs : list (Z * AppendResult)) : Prop :=
  (rows = [] /\ rs = []) \/
  (exists w, rows = [race_row w] /\ w ∈ rs.*1 /\ Forall (fun r => is_ok r.2 = (r.1 =? w) /\ refused_by_store r.2 = false) rs).

Lemma holds_race_append s C Lg id i (Q : AppendResult -> S -> Prop) :
  shows s C Lg -> kit_key id -> len Lg + 1 <= ROOM -> C id = [] \/ (exists w, C id = [race_row w]) ->
  (forall s' C' Lg' r, shows s' C' Lg' -> len Lg' <= len Lg + 1 -> refused_by_store r = false ->
     (C id = [] /\ is_ok r = true /\ C' id = [race_row i]) \/ (C' id = C id /\ is_ok r = false /\ C id <> []) -> Q r s') ->
  holds s (race_append id i) Q.
Proof.
  intros Hs Hk Hroom Hrows HQ. unfold race_append. destruct (envelope_for_ok (race_row i)) as (env & He & Hok & Hrow); [apply plain_ok; done|].
  apply holds_bind. eapply holds_must; [exact He|]. apply holds_lifted. assert (batch_rows (PendingBatch.of_one env) = [race_row i]) as Hb by (by apply one_rows).
  eapply holds_append; [exact Hs|done|by apply one_ok|by rewrite Hb| |].
  - intros s' p ps Hs' Hps _ Hh _. rewrite Hb in *. destruct Hrows as [Hn|[w Hw]]; [|by rewrite Hw in Hh].
    eapply HQ; [exact Hs'|unfold len; rewrite length_app, length_zip_with; cbn in *; lia|done|]. left. rewrite upd_same, Hn. done.
  - intros s' l w a Hs' _ Hno. eapply HQ; [exact Hs'|lia|done|]. right. split_and!; [done|done|]. intros Hn.
    apply Hno. split; [|by rewrite Hn]. apply consecutive_rows. fold (batch_rows (PendingBatch.of_one env)). by rewrite Hb.
Qed.

Lemma raced_step rows rs i r rows' :
  raced rows rs -> i ∉ rs.*1 -> refused_by_store r = false ->
  (rows = [] /\ is_ok r = true /\ rows' = [race_row i]) \/ (rows' = rows /\ is_ok r = false /\ rows <> []) ->
  raced rows' (rs ++ [(i, r)]).
Proof.
  intros Hr Hi Hst [(-> & Hok & ->)|(-> & Hok & Hne)]; right.
  - destruct Hr as [[_ ->]|(w & ? & _)]; [|done]. exists i. split_and!; [done|cbn; set_solver|]. constructor; [|done]. cbn. by rewrite Hok, Z.eqb_refl.
  - destruct Hr as [[-> _]|(w & -> & Hw & Hall)]; [done|]. exists w. split_and!; [done|rewrite fmap_app; set_solver|].
    apply Forall_app. split; [done|]. constructor; [|done]. cbn. rewrite Hok. destruct (Z.eqb_spec i w) as [->|]; [|done]. by destruct Hi.
Qed.

Lemma holds_run_race s C Lg id order done_ (Q : list (Z * AppendResult) -> S -> Prop) :
  shows s C Lg -> kit_key id -> len Lg + len order <= ROOM -> raced (C id) done_ -> NoDup (done_.*1 ++ order) ->
  (forall s' C' Lg' rs, shows s' C' Lg' -> raced (C' id) (done_ ++ rs) -> rs.*1 = order -> Q rs s') ->
  holds s (run_race id order) Q.
Proof.
  revert s C Lg done_ Q. induction order as [|i order IH]; intros s C Lg dn Q Hs Hk Hroom Hr Hnd HQ.
  - apply holds_pass. eapply HQ; [exact Hs|by rewrite app_nil_r|done].
  - rewrite len_cons in Hroom. pose proof (len_nonneg order). cbn [run_race]. apply holds_bind. eapply holds_race_append; [exact Hs|done|lia|destruct Hr as [[-> _]|(w & -> & _)]; eauto|].
    intros s1 C1 Lg1 r Hs1 Hlen Hst Hstep. assert (i ∉ dn.*1) as Hi.
    { apply NoDup_app in Hnd as (_ & Hdis & _). intros Hin. apply (Hdis i Hin). left. }
    pose proof (raced_step _ _ _ _ _ Hr Hi Hst Hstep) as Hr1. apply holds_bind.
    eapply (IH s1 C1 Lg1 (dn ++ [(i, r)])); [done|done|lia|done| |].
    + rewrite fmap_app. cbn. by rewrite <- app_assoc.
    + intros s2 C2 Lg2 rs Hs2 Hr2 Hrs. apply holds_pass. eapply HQ; [exact Hs2| |cbn; by rewrite Hrs]. by rewrite <- app_assoc in Hr2.
Qed.

Lemma result_of_joined (rs : list (Z * AppendResult)) i : i ∈ rs.*1 -> exists r, result_of rs i = Some r /\ (i, r) ∈ rs.
Proof.
  intros [[j r] [-> Hin]]%list_elem_of_fmap. unfold result_of. cbn. destruct (List.find (fun r => r.1 =? j) rs) as [[k q]|] eqn:E.
  - apply find_some in E as [Hq Hk%Z.eqb_eq]. cbn in Hk. subst k. exists q. split; [done|]. by apply list_elem_of_In.
  - exfalso. apply list_elem_of_In in Hin. pose proof (find_none _ _ E _ Hin) as Hn. cbn in Hn. by rewrite Z.eqb_refl in Hn.
Qed.

Lemma holds_join s (rs : list (Z * AppendResult)) w handles (Q : list Z * Z -> S -> Prop) :
  Forall (fun i => i ∈ rs.*1) handles -> Forall (fun r => is_ok r.2 = (r.1 =? w) /\ refused_by_store r.2 = false) rs ->
  (forall c, len (filter (fun i => i = w) handles) + c = len handles -> Q (filter (fun i => i = w) handles, c) s) ->
  holds s (join_race rs handles) Q.
Proof.
  intros Hin Hok. revert Q. induction Hin as [|i handles (r & Hr & Hmem)%result_of_joined _ IH]; intros Q HQ; [by apply holds_pass, HQ|].
  cbn [join_race]. apply holds_bind. eapply holds_must; [by rewrite Hr|]. pose proof (proj1 (Forall_forall _ _) Hok _ Hmem) as [Hi Hst]. cbn in Hi, Hst.
  rewrite filter_cons in HQ. destruct r as [p|[l e a|e]]; cbn in Hi; [| |done]; apply holds_bind, IH; intros c Hc; apply holds_pass; cbn [fst snd].
  - rewrite decide_True in HQ by (by apply Z.eqb_eq). apply HQ. rewrite !len_cons. lia.
  - rewrite decide_False in HQ by (by apply Z.eqb_neq). apply HQ. rewrite len_cons. lia.
Qed.

Lemma concurrent_same_stream_single_winner fuel s order :
  (2000 <= fuel)%nat -> shows s (fun _ => []) [] -> order ≡ₚ seqZ 0 WRITERS -> passes s (check_concurrent_same_stream_single_winner fuel order).
Proof.
  intros Hf Hs Ho. unfold passes, check_concurrent_same_stream_single_winner. cbn zeta. apply holds_bind.
  eapply (holds_run_race _ _ _ _ _ []); [exact Hs|by vm_compute|unfold len; by rewrite Ho|by left|rewrite Ho; apply NoDup_seqZ|]. intros s1 C1 Lg1 rs Hs1 Hr Hrs. cbn [app] in Hr. apply holds_bind.
  assert (Forall (fun i => i ∈ rs.*1) (seqZ 0 WRITERS)) as Hall by (apply Forall_forall; intros i Hi; by rewrite Hrs, Ho).
  destruct Hr as [[_ ->]|(w & Hrow & Hw & Hok)].
  - exfalso. apply Permutation_length in Ho. by rewrite <- Hrs in Ho.
  - assert (0 <= w < 8) as Hwb by (by rewrite Hrs, Ho in Hw; apply elem_of_seqZ in Hw).
    eapply holds_join; [done|exact Hok|]. intros c Hc. assert (filter (fun i => i = w) (seqZ 0 WRITERS) = [w]) as Hfw.
    { assert (w = 0 \/ w = 1 \/ w = 2 \/ w = 3 \/ w = 4 \/ w = 5 \/ w = 6 \/ w = 7) as Hcases by lia.
      destruct Hcases as [->|[->|[->|[->|[->|[->|[->| ->]]]]]]]; reflexivity. }
    rewrite Hfw in *. assert (c = WRITERS - 1) as -> by (change (len (seqZ 0 WRITERS)) with 8 in Hc; change (len [w]) with 1 in Hc; unfold WRITERS; lia).
    apply holds_bind. apply holds_assert; [done|]. apply holds_bind. apply holds_assert; [done|]. apply holds_bind, holds_lifted.
    eapply holds_drain_stream; [exact Hs1|by vm_compute|rewrite Hrow; cbn; lia|]. rewrite Hrow. cbn [drop Z.to_nat].
    apply holds_bind. apply holds_assert; [done|]. apply holds_bind. eapply holds_index; [done|]. apply holds_bind. eapply holds_index; [done|].
    apply holds_assert; [by apply bool_decide_eq_true|done].
Qed.

(** *** Writers of distinct streams *)

Lemma writer_key_inj i j : 0 <= i < WRITERS -> 0 <= j < WRITERS -> writer_key i = writer_key j -> i = j.
Proof.
  intros Hi Hj. assert (Forall (fun i => Forall (fun j => writer_key i = writer_key j -> i = j) (seqZ 0 WRITERS)) (seqZ 0 WRITERS)) as H.
  { apply (bool_decide_unpack _). by vm_compute. }
  rewrite Forall_forall in H. specialize (H i). rewrite Forall_forall in H. apply H; apply elem_of_seqZ; lia.
Qed.

Lemma writer_key_ok i : 0 <= i < WRITERS -> kit_key (writer_key i).
Proof.
  intros Hi. assert (Forall (fun i => 1 <= len (sk_bytes (writer_key i)) /\ len (sk_bytes (writer_key i)) <= KEY_BYTES) (seqZ 0 WRITERS)) as H.
  { apply (bool_decide_unpack _). by vm_compute. }
  rewrite Forall_forall in H. apply H, elem_of_seqZ. lia.
Qed.

Lemma writer_payload_ok i v : 0 <= i < WRITERS -> 1 <= v <= PER_STREAM -> len (writer_payload i v) <= VALUE_BYTES.
Proof.
  intros Hi Hv. assert (Forall (fun i => Forall (fun v => len (writer_payload i v) <= VALUE_BYTES) (seqZ 1 PER_STREAM)) (seqZ 0 WRITERS)) as H.
  { apply (bool_decide_unpack _). by vm_compute. }
  rewrite Forall_forall in H. specialize (H i). rewrite Forall_forall in H. apply H; apply elem_of_seqZ; lia.
Qed.

Definition writer_rows (i n : Z) : list ConformanceRow := (fun v => row_new v (text "E") (writer_payload i v)) <$> seqZ 1 n.

Lemma writer_rows_len i n : 0 <= n -> len (writer_rows i n) = n.
Proof. intros. unfold writer_rows, len. rewrite length_fmap, length_seqZ. lia. Qed.

Lemma writer_rows_snoc i n : 0 <= n -> writer_rows i (n + 1) = writer_rows i n ++ [row_new (n + 1) (text "E") (writer_payload i (n + 1))].
Proof. intros. unfold writer_rows. rewrite seqZ_app by lia. rewrite fmap_app, (Z.add_comm 1 n). done. Qed.

Definition turns_of (i : Z) (schedule : list Z) : Z := len (filter (fun j => j = i) schedule).

Lemma turns_of_cons i j schedule : turns_of i (j :: schedule) = (if j =? i then 1 else 0) + turns_of i schedule.
Proof. unfold turns_of. rewrite filter_cons. destruct (Z.eqb_spec j i); case_decide; try done. by rewrite len_cons. Qed.

Lemma holds_run_writers s C Lg written schedule (Q : () -> S -> Prop) :
  shows s C Lg -> len Lg + len schedule <= ROOM -> Forall (fun i => 0 <= i < WRITERS) schedule ->
  (forall i, 0 <= i < WRITERS -> 0 <= written i /\ C (writer_key i) = writer_rows i (written i) /\ written i + turns_of i schedule <= PER_STREAM) ->
  (forall s' C' Lg', shows s' C' Lg' -> length Lg' = (length Lg + length schedule)%nat ->
     (forall i, 0 <= i < WRITERS -> C' (writer_key i) = writer_rows i (written i + turns_of i schedule)) -> Q tt s') ->
  holds s (run_writers written schedule) Q.
Proof.
  revert s C Lg written Q. induction schedule as [|i schedule IH]; intros s C Lg written Q Hs Hroom Hall Hw HQ.
  - apply holds_pass. eapply HQ; [exact Hs|cbn; lia|]. intros i Hi. destruct (Hw i Hi) as (_ & -> & _). change (turns_of i []) with 0. by rewrite Z.add_0_r.
  - apply Forall_cons in Hall as [Hi Hall]. cbn [run_writers]. apply holds_bind, holds_lifted. destruct (Hw i Hi) as (Hnn & Hrows & Hle).
    rewrite len_cons in Hroom. pose proof (len_nonneg schedule). rewrite turns_of_cons, Z.eqb_refl in Hle. assert (0 <= turns_of i schedule) by apply len_nonneg. unfold PER_STREAM in *.
    eapply holds_append_event; [exact Hs|by apply writer_key_ok|lia|by rewrite Hrows, writer_rows_len|unfold u64_max; lia|apply writer_payload_ok; unfold PER_STREAM; lia|].
    intros s1 p Hs1. eapply IH; [exact Hs1|rewrite len_app; change (len [_]) with 1; lia|done| |].
    + intros j Hj. destruct (Hw j Hj) as (Hnj & Hrj & Hlj). rewrite turns_of_cons in Hlj. rewrite (Z.eqb_sym i j) in Hlj. destruct (Z.eqb_spec j i) as [->|Hne].
      * rewrite upd_same, Hrows, writer_rows_snoc by lia. split_and!; [lia|done|lia].
      * rewrite upd_other by (intros Heq; by apply Hne, writer_key_inj). split_and!; [lia|done|lia].
    + intros s2 C2 Lg2 Hs2 Hl2 Hrows2. eapply HQ; [exact Hs2|rewrite Hl2, length_app; cbn; lia|]. intros j Hj. rewrite (Hrows2 j Hj), turns_of_cons, (Z.eqb_sym i j).
      destruct (Z.eqb_spec j i) as [->|]; f_equal; lia.
Qed.

Lemma concurrent_distinct_streams_all_land fuel s schedule :
  (2000 <= fuel)%nat -> shows s (fun _ => []) [] -> schedule ≡ₚ (seqZ 0 WRITERS ≫= replicate (Z.to_nat PER_STREAM)) ->
  passes s (check_concurrent_distinct_streams_all_land fuel schedule).
Proof.
  intros Hf Hs Hsch. unfold passes, check_concurrent_distinct_streams_all_land. set (rounds := seqZ 0 WRITERS ≫= replicate (Z.to_nat PER_STREAM)) in *.
  assert (forall i, 0 <= i < WRITERS -> turns_of i schedule = PER_STREAM) as Hturns.
  { intros i Hi. assert (turns_of i schedule = turns_of i rounds) as -> by (unfold turns_of, len; by rewrite Hsch).
    assert (Forall (fun i => turns_of i rounds = PER_STREAM) (seqZ 0 WRITERS)) as H by (apply (bool_decide_unpack _); by vm_compute).
    rewrite Forall_forall in H. apply H, elem_of_seqZ. lia. }
  assert (length schedule = 40%nat) as Hlen by (by rewrite Hsch).
  apply holds_bind. eapply holds_run_writers; [exact Hs|unfold len; by rewrite Hlen| | |].
  - rewrite Hsch. apply (bool_decide_unpack _). by vm_compute.
  - intros i Hi. rewrite (Hturns i Hi). done.
  - intros s1 C1 Lg1 Hs1 Hl Hrows. rewrite Hlen in Hl. cbn in Hl. apply holds_bind, holds_lifted. eapply holds_drain_all; [exact Hs1|lia|]. rewrite filter_from_start.
    apply holds_bind. apply holds_assert; [apply Z.eqb_eq; unfold len; by rewrite length_fmap, Hl|]. apply holds_bind, holds_lifted.
    apply holds_assert; [rewrite positions_of; apply increasing_sorted; exact (shows_increasing _ _ _ Hs1)|].
    eapply holds_mono; [apply (holds_for_each (fun s' => s' = s1)); [done|]|done]. intros i s' Hi%elem_of_seqZ ->.
    apply holds_bind, holds_lifted. eapply holds_drain_stream; [exact Hs1|by apply writer_key_ok|rewrite Hrows, Hturns by lia; change ((5 < fuel)%nat); lia|].
    rewrite Hrows, Hturns by lia. apply holds_assert; [|done]. apply bool_decide_eq_true. change (cr_payload <$> writer_rows i (0 + PER_STREAM) = writer_payload i <$> seqZ 1 PER_STREAM).
    unfold writer_rows. by rewrite <- list_fmap_compose.
Qed.
End race.

(** ** A subscriber beside a writer *)

Section beside.
Context {T : Target} {S : Type} {R : RawEventStore S} {WS : WakeSource S} {C : Catchup S} {CS : CatchupSpec S}.
Notation KError := (SError S + WError S)%type.
Notation check := (program S KError).

(** The store while the writer still has these operations to do: each of them grows it,
    in the end it holds [total] events, everything is announced, and a wait that was just
    armed is not ready. *)
Context (World : S -> list (check ()) -> Prop) (total : Z).
Context (world_inv : forall s w, World s w -> catchup_inv s /\ ~ owed s /\ catchup_ready s (catchup_arm s) = false).
Context (world_reads : forall s w, World s w -> readable s).
Context (world_done : forall s, World s [] -> len (events s) = total).
Context (world_op : forall s op w, World s (op :: w) -> holds s op (fun _ s' => grows s s' /\ World s' w)).

Lemma holds_advance k s w (Q : list (check ()) -> S -> Prop) :
  World s w ->
  (forall s' w', World s' w' -> grows s s' -> (s' = s /\ w' = w \/ (length w' < length w)%nat) -> Q w' s') -> holds s (advance k w) Q.
Proof using world_inv world_op.
  revert s w Q. induction k as [|k IH]; intros s w Q Hw HQ; [apply holds_pass, HQ; [done|apply grows_refl|by left]|].
  destruct w as [|op w]; [apply holds_pass, HQ; [done|apply grows_refl|by left]|]. cbn [advance]. apply holds_bind.
  eapply holds_mono; [by apply world_op|]. intros _ s1 [Hg1 Hw1]. apply IH; [done|]. intros s2 w2 Hw2 Hg2 Hlt. apply HQ; [done|by eapply grows_trans|].
  right. cbn. destruct Hlt as [[_ ->]|?]; lia.
Qed.

(** The wait the loop holds was armed on the store as it is. *)
Definition quiet (s : S) (l : LiveState S) : Prop :=
  match pc l with Top => True | Armed w | Probing w _ | Parked w => w = catchup_arm s end.
Definition parked_after_mark (l : LiveState S) : Prop := match pc l with Parked _ => caught_up l = true | _ => True end.

Definition phase (l : LiveState S) : nat :=
  match pc l with
  | Top => if live_scan l then 3 else 4
  | Armed _ => 2
  | Probing _ _ => 1
  | Parked _ => 0
  end.

(** A turn that yields nothing goes on towards the wait, or leaves it because it is ready. *)
Lemma silent_turn s l l' :
  live_step s l = Returns (Some (None, l')) -> parked_after_mark l ->
  parked_after_mark l' /\
  ((phase l' < phase l)%nat /\ (quiet s l -> quiet s l') \/ (exists w, pc l = Parked w /\ catchup_ready s w = true /\ pc l' = Top)).
Proof.
  unfold live_step, parked_after_mark, quiet, phase. intros E Hp. destruct (pc l) as [|w|w probe|w] eqn:Ht.
  - destruct (live_scan l) as [c|].
    + destruct (scan_next s c) as [[[[item|e]|] scan]|]; try done; [by destruct (checked_add _ _ _)|].
      injection E as <-. cbn. split; [done|]. left. split; [lia|done].
    + destruct (read_after s (live_from l)) as [scan|e]; [|done]. injection E as <-. cbn. split; [done|]. left. split; [lia|done].
  - destruct (read_after s (live_from l)) as [probe|e]; [|done]. injection E as <-. cbn. split; [done|]. left. split; [lia|done].
  - destruct (scan_next s probe) as [[[[item|e]|] scan]|]; try done. destruct (caught_up l); [|done]. injection E as <-. cbn. split; [done|]. left. split; [lia|done].
  - destruct (catchup_ready s w) eqn:Er; [|done]. injection E as <-. cbn. split; [done|]. right. by exists w.
Qed.

Lemma phase_bound l : (phase l <= 4)%nat.
Proof. unfold phase. destruct (pc l); [destruct (live_scan l)| | |]; lia. Qed.

Context (wrap : CError S -> KError) (s0 : S) (a : Z) (cu : bool) (k0 : nat) (Q : Step (Item S) * LiveState S * (list nat * list (check ())) -> S -> Prop).
Context (on_event : forall s x l p w, events s !! Z.to_nat a = Some (view x) -> World s w -> live_inv s0 s l (a + 1) -> caught_up l = cu ->
  parked_after_mark l -> (length w <= k0)%nat -> Q (StepEvent x, l, (p, w)) s).
Context (on_mark : forall s l p w, len (events s0) <= a -> cu = false -> World s w -> live_inv s0 s l a -> caught_up l = true ->
  parked_after_mark l -> (length w <= k0)%nat -> Q (StepCaughtUp, l, (p, w)) s).
Context (Hlive : cu = true -> a < total).

(** On a store that can be read, a turn reports no error. *)
Lemma turn_serves s l l' e b : live_inv s0 s l b -> readable s -> live_step s l <> Returns (Some (Some (Err e), l')).
Proof using.
  intros Hl Hr. pose proof Hl as [[Hi Hs] _ Hsc Hpc _]. pose proof (Hr (live_from l)) as Hread. unfold live_step, pc_inv in *. destruct (pc l) as [|w|w probe|w].
  - destruct (live_scan l) as [c|] eqn:Ec; [|by destruct (read_after s (live_from l))]. destruct (Hsc c eq_refl) as (_ & s1 & s2 & Hs2 & Hg & Hat).
    destruct (scan_next_spec s1 s2 s c b (grows_inv _ _ Hi Hs2) Hg Hat) as [(x & c' & -> & _)|(c' & -> & _)]; [by destruct (checked_add _ _ _)|done].
  - by destruct (read_after s (live_from l)).
  - destruct Hpc as (s1 & s2 & s3 & _ & H01 & H12 & H23 & H3 & Hat).
    destruct (scan_next_spec s2 s3 s probe b) as [(x & c' & -> & _)|(c' & -> & _)]; [|done|done|done|by destruct (caught_up l)].
    eapply grows_inv; [exact Hi|]. by eapply grows_trans; [|eapply grows_trans].
  - by destruct (catchup_ready s w).
Qed.

(** What an output leaves is at the top of the loop. *)
Lemma output_at_top s l step l' : live_step s l = Returns (Some (Some (Ok step), l')) -> pc l' = Top.
Proof using.
  unfold live_step. intros E. destruct (pc l) as [|w|w probe|w]; repeat (case_match; simplify_eq/=; try done).
Qed.

(** A loop that is parked for good has nothing in front of it. *)
Lemma parked_waits s l w wt :
  live_inv s0 s l a -> World s w -> pc l = Parked wt -> catchup_ready s wt = false -> parked_after_mark l -> caught_up l = cu -> w <> [].
Proof using All.
  intros [[Hi Hg] Hf _ Hpc _] HW Ht Hnr Hpm Hcu ->. unfold pc_inv, parked_after_mark in *. rewrite Ht in *. destruct Hpc as (s1 & -> & H01 & H1 & Hl).
  destruct (world_inv _ _ HW) as (_ & Ho & _). rewrite Hcu in Hpm. specialize (Hlive Hpm). rewrite (arm_ready s1 s) in Hnr; [done|by eapply grows_inv|done|done|].
  intros He. rewrite <- (world_done s HW), He in Hlive. lia.
Qed.

(** However the writer is interleaved, [next()] ends: with the next event, or with the
    marker; every round of the loop uses up an operation of the writer. *)
Lemma holds_beside n plan w l d s :
  live_inv s0 s l a -> World s w -> parked_after_mark l -> caught_up l = cu -> (d = 0%nat -> quiet s l) -> (d <= 1)%nat -> (length w <= k0)%nat ->
  (8 * length w + 7 * d + phase l < n)%nat -> holds s (next_beside wrap n plan w l) Q.
Proof using All.
  revert plan w l d s. induction n as [|n IH]; intros plan w l d s Hl HW Hpm Hcu Hq Hd Hk Hn; [lia|]. cbn [next_beside]. apply holds_bind.
  eapply holds_advance; [done|]. intros s1 w1 HW1 Hg1 Hlt. apply (live_inv_grows _ _ _ _ _ Hl) in Hg1 as Hl1.
  assert (exists d1, (d1 <= 1)%nat /\ (d1 = 0%nat -> quiet s1 l) /\ (length w1 <= k0)%nat /\ (8 * length w1 + 7 * d1 + phase l < Datatypes.S n)%nat) as (d1 & Hd1 & Hq1 & Hk1 & Hn1).
  { destruct Hlt as [[-> ->]|Hlt]; [by exists d|]. exists 1%nat. split_and!; [lia|done|lia|lia]. }
  destruct (turn_spec _ _ _ _ Hl1) as [(o & l2 & E & Hok)|(wt & Ht & Hnr & E)]; unfold holds; rewrite E.
  - destruct o as [[[x|]|e]|]; cbn in Hok; [| |by apply (turn_serves _ _ _ _ _ Hl1 (world_reads _ _ HW1)) in E|].
    + destruct Hok as (Hx & Hl2 & Hcu2). apply on_event; [done|done|done|congruence|unfold parked_after_mark; by rewrite (output_at_top _ _ _ _ E)|lia].
    + destruct Hok as (Hl2 & Hcu1 & Hcu2 & Hle). apply on_mark; [done|congruence|done|done|done|unfold parked_after_mark; by rewrite (output_at_top _ _ _ _ E)|lia].
    + destruct Hok as (Hl2 & Hcu2). destruct (silent_turn _ _ _ E Hpm) as (Hpm2 & [[Hph Hq2]|(wt & Ht & Hr & Htop)]).
      * apply (IH _ _ _ d1); [done|done|done|congruence|auto|done|lia|lia].
      * destruct d1 as [|d1].
        { specialize (Hq1 eq_refl). unfold quiet in Hq1. rewrite Ht in Hq1. subst wt. destruct (world_inv _ _ HW1) as (_ & _ & Hqr). congruence. }
        pose proof (phase_bound l2). apply (IH _ _ _ 0%nat); [done|done|done|congruence|intros _; unfold quiet; by rewrite Htop|lia|lia|lia].
  - destruct w1 as [|op w1]; [by eapply (parked_waits s1 l [])|]. apply holds_bind. eapply holds_mono; [by apply world_op|]. intros _ s2 [Hg2 HW2].
    cbn [length] in *. apply (IH _ _ _ 1%nat); [by eapply live_inv_grows|done|done|done|done|lia|lia|lia].
Qed.
End beside.

(** What the kit needs of wakes beside a writer: a registration keeps its sender, a wait
    that was just armed is not ready, and what is done leaves nothing unannounced. *)
Class QuietSpec (S : Type) {R : RawEventStore S} {RS : RawEventStoreSpec S} {WS : WakeSource S} {L : LiveSpec S} := {
  sender_alive : S -> Registration S -> Prop;
  alive_quiet s r : sender_alive s r -> wake_ready s (wake_arm s r) = false;
  register_alive s t s' r : store_inv s -> wake_register s t = (s', Ok r) -> sender_alive s' r;
  append_alive s id expected b s' x r :
    store_inv s -> batch_ok b -> append s id expected b = (s', Returns x) -> sender_alive s r -> sender_alive s' r;
  register_announced s t s' r t' : wake_register s t = (s', Ok r) -> unannounced s' t' -> unannounced s t';
  append_announced s id expected b s' x t : append s id expected b = (s', Returns x) -> unannounced s' t -> unannounced s t;
}.

Section wakes.
Context {T : Target} {S : Type} {R : RawEventStore S} {RS : RawEventStoreSpec S} {RA : RawAllStore S} {AP : AllPosition (AllPos S)} {AL : AllLogSpec S}.
Context {WS : WakeSource S} {L : LiveSpec S} {LA : LiveAllSpec S} {SU : SubscribableSpec S} {QS : QuietSpec S} {SK : ServesKit S} {SS : ServesSubscribers S}.
Notation KError := (SError S + WError S)%type.
Notation check := (program S KError).

Definition announced (s : S) : Prop := forall t, ~ unannounced s t.

(** The store with a subscriber of [id], whose stream goes on to [total] events. *)
Definition writing (c : @StreamCatchup S WS) (payload : bytes) (total : Z) (s : S) (w : list (check ())) : Prop :=
  exists C Lg, shows s C Lg /\ reg_on s (Some (sk_bytes (sc_id c))) (sc_reg c) /\ announced s /\ sender_alive s (sc_reg c) /\
    kit_key (sc_id c) /\ len Lg + (total - len (C (sc_id c))) <= ROOM /\ len (C (sc_id c)) <= total /\ w = (fun v => lift (append_event (sc_id c) v payload)) <$> seqZ (len (C (sc_id c)) + 1) (total - len (C (sc_id c))).

Lemma writing_inv c payload total s w :
  writing c payload total s w ->
  catchup_inv (CatchupSpec := stream_catchup_spec c) s /\ ~ owed (CatchupSpec := stream_catchup_spec c) s /\
  catchup_ready (Catchup := stream_catchup c) s (catchup_arm (Catchup := stream_catchup c) s) = false.
Proof.
  intros (C & Lg & Hs & Hr & Ha & Hq & _). split_and!; [split; [by destruct Hs|done]|apply Ha|by apply alive_quiet].
Qed.

Lemma writing_reads c payload total s w : writing c payload total s w -> readable (C := stream_catchup c) s.
Proof. intros (C & Lg & Hs & _ & _ & _ & Hk & _). by apply stream_readable; [apply Hs|]. Qed.

Lemma writing_done c payload total s : writing c payload total s [] -> len (events (CatchupSpec := stream_catchup_spec c) s) = total.
Proof.
  intros (C & Lg & Hs & _ & _ & _ & _ & _ & Hle & Hw). change (len (stream_of s (sc_id c)) = total). rewrite (shows_len _ _ _ _ Hs).
  symmetry in Hw. apply fmap_nil_inv in Hw. apply (f_equal length) in Hw. rewrite length_seqZ in Hw. cbn in Hw. lia.
Qed.

Lemma writing_op c payload total s op w :
  total <= u64_max -> len payload <= VALUE_BYTES -> writing c payload total s (op :: w) ->
  holds s op (fun _ s' => activity s s' /\ writing c payload total s' w).
Proof.
  intros Hmax Hp (C & Lg & Hs & Hr & Ha & Hq & Hk & Hroom & Hle & Hw). pose proof (sh_inv _ _ _ Hs) as Hi. pose proof (len_nonneg (C (sc_id c))) as Hnn.
  set (m := len (C (sc_id c))) in *. destruct (decide (m = total)) as [Heq|Hne].
  { assert (total - m = 0) as H0 by lia. by rewrite H0 in Hw. }
  rewrite seqZ_cons in Hw by lia. rewrite fmap_cons in Hw. injection Hw as -> ->.
  apply (holds_lift (fun s' => activity s s' /\ announced s' /\ sender_alive s' (sc_reg c))).
  - apply append_event_keeps; [done|by split_and!; [apply activity_refl| |]| |lia|done]. intros id expected b s' x Hb E.
    split_and!; [by eapply append_activity|intros t Ht; eapply (Ha t), append_announced; eauto|by eapply append_alive].
  - eapply holds_append_event; [exact Hs|done|lia|done|lia|done|]. intros s' p Hs' (Hact & Ha' & Hq'). split; [done|]. exists (upd (sc_id c) (C (sc_id c) ++ [row_new (m + 1) (text "E") payload]) C).
    exists (Lg ++ [(p, sc_id c, row_new (m + 1) (text "E") payload)]). rewrite upd_same, !len_app. change (len [_]) with 1. fold m.
    split_and!; [exact Hs'|by eapply reg_on_stays|done|done|done|lia|lia|].
    f_equal. f_equal; lia.
Qed.

Lemma standing_live {C : Catchup S} {CS : CatchupSpec S} s l a : standing s l a -> exists s0, live_inv s0 s l a.
Proof.
  intros [Ht Hi Hf Hsc]. destruct (live_scan l) as [c|] eqn:Ec.
  - destruct (Hsc c eq_refl) as (Hd & s1 & s2 & Hi2 & Hg & Hat). exists s2. split; [done|done| |unfold pc_inv; by rewrite Ht|by rewrite Ht].
    intros c' Hc. rewrite Hc in Ec. injection Ec as ->. split; [done|]. exists s1, s2. split_and!; [apply grows_refl|done|done].
  - exists s. split; [by split; [|apply grows_refl]|done|by rewrite Ec|unfold pc_inv; by rewrite Ht|by rewrite Ht].
Qed.

(** The loop of the subscriber, [a] events behind it, beside the writer. *)
Definition racing (c : @StreamCatchup S WS) (payload : bytes) (total : Z) (s0 s : S) (l : @LiveState S (stream_catchup c)) (a : Z) (cu : bool) (w : list (check ())) : Prop :=
  live_inv (CS := stream_catchup_spec c) s0 s l a /\ writing c payload total s w /\ parked_after_mark (C := stream_catchup c) l /\
  caught_up l = cu.

Section race.
Context (c : @StreamCatchup S WS) (payload : bytes) (total : Z) (fuel : nat) (s0 : S).
Context (Hmax : total <= u64_max) (Hpayload : len payload <= VALUE_BYTES).

Lemma holds_next_step_beside s l a cu w plan (Q : Step PersistedEnvelope * Sub * (list nat * list (check ())) -> S -> Prop) :
  racing c payload total s0 s l a cu w -> 0 <= a -> (cu = true -> a < total) -> (8 * length w + 11 < fuel)%nat ->
  (forall s' env l' p w', as_u64 (ps_version env) = a + 1 -> a < total -> racing c payload total s0 s' l' (a + 1) cu w' -> (length w' <= length w)%nat ->
     Q (StepEvent env, existT c l', (p, w')) s') ->
  (forall s' l' p w', cu = false -> racing c payload total s0 s' l' a true w' -> (length w' <= length w)%nat -> Q (StepCaughtUp, existT c l', (p, w')) s') ->
  holds s (next_step_beside fuel plan w (existT c l)) Q.
Proof using All.
  intros (Hl & HW & Hpm & Hcu) Ha Hlive Hf He Hm. unfold next_step_beside. cbn [projT1 projT2]. apply holds_bind.
  eapply (holds_beside (CS := stream_catchup_spec c) (writing c payload total) total (writing_inv c payload total) (writing_reads c payload total) (writing_done c payload total)
    (fun s op w => writing_op c payload total s op w Hmax Hpayload) inl s0 a cu (length w) _ _ _ Hlive _ plan w l 1);
    [exact Hl|exact HW|exact Hpm|exact Hcu|done|lia|lia|pose proof (phase_bound (C := stream_catchup c) l); lia].
  Unshelve.
  - intros s1 x l1 p w1 Hx HW1 Hl1 Hcu1 Hpm1 Hlen. apply holds_pass. change (stream_of s1 (sc_id c) !! Z.to_nat a = Some (from_persisted x.2)) in Hx.
    pose proof HW1 as (C & Lg & Hs1 & _ & _ & _ & _ & _ & Hle & _). pose proof (stream_lookup_version _ _ _ _ (sh_inv _ _ _ Hs1) Hx) as Hv. cbn in Hv.
    apply lookup_lt_Some in Hx. pose proof (shows_len _ _ _ (sc_id c) Hs1) as Hls. unfold len in Hls, Hle. cbn. apply He; [cbn; lia|lia|by split_and!|done].
  - intros s1 l1 p w1 _ Hc HW1 Hl1 Hcu1 Hpm1 Hlen. apply holds_pass. by apply Hm.
Qed.

(** The writer's task, joined. *)
Lemma holds_finish k s w (Q : list (check ()) -> S -> Prop) :
  writing c payload total s w -> (forall s' w', writing c payload total s' w' -> Q w' s') -> holds s (advance k w) Q.
Proof using Hmax Hpayload LA SU T SK SS.
  intros HW HQ. eapply (holds_advance (CS := stream_catchup_spec c) (writing c payload total) (writing_inv c payload total)
    (fun s op w => writing_op c payload total s op w Hmax Hpayload)); [exact HW|]. intros s1 w1 HW1 _ _. by apply HQ.
Qed.

Lemma holds_boundary_loop n s l a cu w plan marks (Q : list Z * Z * list (check ()) -> S -> Prop) :
  racing c payload total s0 s l a cu w -> 0 <= a <= total -> marks = (if cu then 1 else 0) -> (8 * length w + 11 < fuel)%nat ->
  (Z.to_nat (total - a) + (if cu then 0 else 1) <= n)%nat ->
  (forall s' w', writing c payload total s' w' -> Q (seqZ 1 total, 1, w') s') ->
  holds s (boundary_loop fuel n total (seqZ 1 a) marks plan w (existT c l)) Q.
Proof using All.
  revert s l a cu w plan marks. induction n as [|n IH]; intros s l a cu w plan marks Hr Ha -> Hf Hn HQ.
  - destruct cu; [|lia]. assert (a = total) as -> by lia. cbn [boundary_loop]. assert (len (seqZ 1 total) = total) as -> by (unfold len; rewrite length_seqZ; lia).
    rewrite Z.ltb_irrefl. apply holds_pass. apply HQ. by destruct Hr as (_ & ? & _).
  - cbn [boundary_loop]. assert (len (seqZ 1 a) = a) as Hlen by (unfold len; rewrite length_seqZ; lia). rewrite Hlen.
    destruct ((a <? total) || ((if cu then 1 else 0) =? 0)) eqn:Hgo.
    + apply holds_bind. eapply holds_next_step_beside; [exact Hr|lia| |done| |].
      * intros ->. rewrite orb_false_r in Hgo. by apply Z.ltb_lt.
      * intros s1 env l1 p w1 Hv Hlt Hr1 Hw1. cbn [fst snd]. assert (seqZ 1 a ++ [as_u64 (ps_version env)] = seqZ 1 (a + 1)) as ->.
        { rewrite Hv, seqZ_app by lia. by rewrite (Z.add_comm 1 a). }
        apply (IH s1 l1 (a + 1) cu); [done|lia|done|lia|destruct cu; lia|done].
      * intros s1 l1 p w1 -> Hr1 Hw1. cbn [fst snd]. apply (IH s1 l1 a true); [done|lia|done|lia|lia|done].
    + apply orb_false_iff in Hgo as [Hge%Z.ltb_ge Hc%Z.eqb_neq]. destruct cu; [|done]. assert (a = total) as -> by lia. apply holds_pass. apply HQ. by destruct Hr as (_ & ? & _).
Qed.
End race.

(** Nothing is unannounced, and there are no more subscribers than at [s0]. *)
Definition undisturbed (s0 s1 : S) : Prop := announced s1 /\ crowd s1 <= crowd s0.

Lemma append_undisturbed s1 id expected b s' r : announced s1 -> append s1 id expected b = (s', Returns r) -> undisturbed s1 s'.
Proof. intros Ha E. split; [intros t Ht; eapply (Ha t), append_announced; eauto|by eapply append_crowd]. Qed.

Lemma append_event_announced s1 id v p : store_inv s1 -> announced s1 -> 1 <= v <= u64_max -> len p <= VALUE_BYTES -> undisturbed s1 (append_event id v p s1).1.
Proof. intros Hi Ha Hv Hp. apply append_event_keeps; [done|split; [done|lia]| |done|done]. intros. by eapply append_undisturbed. Qed.

Lemma append_rows_announced s1 id rows : store_inv s1 -> announced s1 -> Forall row_ok rows -> undisturbed s1 (append_rows id rows s1).1.
Proof. intros Hi Ha Hr. apply append_rows_keeps; [done|split; [done|lia]| |done]. intros. by eapply append_undisturbed. Qed.

Lemma holds_open_alive s1 C Lg k (Q : Sub -> S -> Prop) :
  shows s1 C Lg -> kit_key (MkStreamKey k) -> crowd s1 < CROWD -> announced s1 ->
  (forall s' c l, shows s' C Lg -> announced s' -> sender_alive s' (sc_reg c) -> reg_on s' (Some k) (sc_reg c) ->
     sub_at s' (existT c l) (MkStreamKey k) 0 false -> Q (existT c l) s') ->
  holds s1 (open_sub k None) Q.
Proof.
  intros Hs Hk Hc Ha HQ. unfold holds, open_sub, Subscription.subscribe, stream_catchup_new.
  destruct (register_serves s1 (Some k) (sh_inv _ _ _ Hs) Hc) as (s' & r & E & _). rewrite E. pose proof (shows_registered _ _ _ _ _ _ Hs E) as Hs'.
  destruct (register_on _ _ _ _ (sh_inv _ _ _ Hs) E) as (Hi' & Hr & _).
  apply HQ; [done|intros t Ht; eapply (Ha t), register_announced; eauto|exact (register_alive _ _ _ _ (sh_inv _ _ _ Hs) E)|done|].
  split_and!; [done|done| |done]. by apply (standing_start (CS := stream_catchup_spec _)).
Qed.

Section checks.
Context (fuel : nat) (Hfuel : (3000 <= fuel)%nat).
Context (s : S) (Hfresh : shows s (fun _ => []) []) (Hann : announced s) (Halone : crowd s <= 0).

Lemma wake_after_idle plan : passes s (check_wake_after_idle fuel plan).
Proof using All.
  unfold passes, check_wake_after_idle. cbn zeta. pose proof (sh_inv _ _ _ Hfresh) as Hi. apply holds_bind.
  apply (holds_lift (undisturbed s)); [by apply append_event_announced|]. eapply holds_append_event; [exact Hfresh|by vm_compute|roomy|by vm_compute..|]. intros s1 p H1 [Ha1 Hc1].
  apply holds_bind. eapply holds_open_alive; [exact H1|by vm_compute|unfold CROWD; lia|exact Ha1|]. intros s2 c l H2 Ha2 Hal Hreg Hsub.
  apply holds_bind. eapply holds_backlog; [exact H2|exact Hsub|done|change ((1 < fuel)%nat); lia|]. intros envs [c' l'] a' _ Ha' (Hid & Hk & Hst & Hcu) Hc. cbn [projT1 projT2] in *. subst c'.
  assert (a' = 1) as -> by (rewrite Ha'; by vm_compute).
  destruct (standing_live _ _ _ Hst) as [s0 Hl]. cbn [snd]. apply holds_bind.
  assert (racing c (text "p2") 2 s0 s2 l' 1 true [lift (append_event (key "wake-idle") 2 (text "p2"))]) as Hr.
  { split_and!; [exact Hl| |unfold parked_after_mark; destruct Hst as [Ht _ _ _]; by rewrite Ht|done].
    eexists _, _. split_and!; [exact H2|by rewrite Hid|done|done|by rewrite Hid|by rewrite Hid|by rewrite Hid|by rewrite Hid]. }
  eapply holds_next_step_beside; [| |exact Hr|done|done|cbn; lia| |]; [done|done| |done].
  intros s3 env l3 p3 w3 Hv _ Hr3 _. cbn [fst snd]. apply holds_bind, holds_pass. apply holds_bind. apply holds_assert; [by rewrite Hv|]. apply holds_bind.
  eapply holds_finish; [| |exact (proj1 (proj2 Hr3))|]; done.
Qed.

Lemma caught_up_boundary_race plan : passes s (check_caught_up_boundary_race fuel plan).
Proof using All.
  unfold passes, check_caught_up_boundary_race. cbn zeta. pose proof (sh_inv _ _ _ Hfresh) as Hi. destruct (plain_rows_ok BACKLOG) as (Hok & Hv & Hlen); [done|].
  remember (plain_rows BACKLOG) as rows eqn:Er. clear Er. apply holds_bind. apply (holds_lift (undisturbed s)); [by apply append_rows_announced|].
  eapply holds_append_rows; [exact Hfresh|by vm_compute|by rewrite Hlen|done|by destruct rows|done|by rewrite Hlen|]. intros s1 ps H1 Hps [Ha1 Hc1].
  apply holds_bind. eapply holds_open_alive; [exact H1|by vm_compute|unfold CROWD; lia|exact Ha1|]. intros s2 c l H2 Ha2 Hal Hreg (Hid & Hk & Hst & Hcu). cbn [projT1 projT2] in *.
  destruct (standing_live _ _ _ Hst) as [s0 Hl]. apply holds_bind.
  assert (racing c (text "live") (BACKLOG + LIVE) s0 s2 l 0 false ((fun v => lift (append_event (key "boundary-race") v (text "live"))) <$> seqZ (BACKLOG + 1) LIVE)) as Hr.
  { split_and!; [exact Hl| |unfold parked_after_mark; destruct Hst as [Ht _ _ _]; by rewrite Ht|done].
    eexists _, _. rewrite Hid. change (MkStreamKey (text "boundary-race")) with (key "boundary-race"). rewrite upd_same, Hlen.
    split_and!; [exact H2|exact Hreg|done|done|done| |done|done]. cbn [app]. unfold len in *. rewrite length_zip_with, Hps. unfold BACKLOG, LIVE, ROOM in *. lia. }
  eapply (holds_boundary_loop c (text "live") (BACKLOG + LIVE) fuel s0 ltac:(done) ltac:(done) fuel s2 l 0 false); [exact Hr|done|done|rewrite length_fmap, length_seqZ; change (Z.to_nat LIVE) with 100%nat; lia|change ((201 <= fuel)%nat); lia|].
  intros s3 w3 HW. cbn [fst snd]. apply holds_bind. eapply holds_finish; [| |exact HW|]; [done|done|]. intros s4 w4 _.
  apply holds_bind. apply holds_assert; [done|]. apply holds_assert; [by apply bool_decide_eq_true|done].
Qed.
End checks.

(** *** All checks of [conformance!] *)

Definition race_checks (fuel : nat) (order schedule : list Z) (idle_plan boundary_plan : list nat) : list (check ()) :=
  [check_concurrent_same_stream_single_winner fuel order; check_concurrent_distinct_streams_all_land fuel schedule;
   check_wake_after_idle fuel idle_plan; check_caught_up_boundary_race fuel boundary_plan].

Definition conformance_checks (fuel : nat) (order schedule : list Z) (idle_plan boundary_plan : list nat) : list (check ()) :=
  (lift <$> kit_checks fuel) ++ subscription_checks fuel ++ race_checks fuel order schedule idle_plan boundary_plan.

Lemma lift_accepted s (m : program S (SError S) ()) : accepted s m -> accepted s (lift m).
Proof. unfold accepted, lift. destruct (m s) as [s' []]; cbn; by intros [= ->]. Qed.

End wakes.

(** ** The in-memory store *)

Section live.
Context {T : Target} {AS : ArrayString} {W : Watch} (debug : bool).

Definition live_sender (s : LiveStore) (r : WakeReg) : Prop := is_Some (heap (notifiers (lv_store s)) !! reg_chan r).

Lemma woken_alive n k c : is_Some (heap n !! c) -> is_Some (heap (wake n k) !! c).
Proof.
  intros Hc. unfold wake, wake_all, wake_stream, bump. cbn. rewrite lookup_alter_is_Some. destruct (map n !! k); cbn; [by rewrite lookup_alter_is_Some|done].
Qed.

#[export] Instance live_quiet : @QuietSpec LiveStore (live_raw debug) (live_raw_spec debug) live_wake (live_spec debug).
Proof.
  refine (@Build_QuietSpec LiveStore (live_raw debug) (live_raw_spec debug) live_wake (live_spec debug) live_sender _ _ _ _ _).
  - intros s r [ch Hch]. cbn. unfold wait_ready, arm. cbn. rewrite Hch. apply mark_unchanged_seen.
  - intros s t s' r [_ Hg] E. cbn in E. destruct t as [k|]; cbn in E.
    + destruct (register_entry (notifiers (lv_store s)) k) as [n [[[g c] rx]|e]] eqn:Er; [injection E as <- <-|done].
      destruct (register_entry_spec _ _ _ _ _ Hg Er) as (_ & Hc & [Hch _]). unfold live_sender. cbn.
      destruct (map n !! k) as [e|] eqn:Hk; [|done]. injection Hc as <-. by destruct (inv_live _ Hch _ _ Hk).
    + injection E as <- <-. unfold live_sender. cbn. apply (inv_all _ (proj1 Hg)).
  - intros s id expected b s' x r _ _ E Hr. cbn in E. unfold store_append in E. unfold live_sender in *.
    destruct (append_inner (inner (lv_store s)) id expected b) as [i [[p|e]|]]; [| |done]; injection E as <- _; [|exact Hr]. cbn. by apply woken_alive.
  - intros s t s' r t' E Ho. cbn in E. destruct (register (notifiers (lv_store s)) t) as [n r']. injection E as <- _. exact Ho.
  - intros s id expected b s' x t E Ho. cbn in E. destruct (store_append (lv_store s) id expected b) as [st r]. injection E as <- _. exact Ho.
Defined.
End live.

(** ** Witness *)

#[local] Existing Instance target64.
#[local] Existing Instance counter_watch.
#[local] Existing Instance list_array_string.

