(* ===== verification/Repository.v ===== *)
(** * The repository (crates/store/src/repository.rs, error.rs, conflict.rs)

    [EventStore] loads an aggregate by replaying its stream and saves decided
    events by encoding them and appending at the root's version.  The codec and the
    metadata provider are supplied by the application; the store is any
    [RawEventStore].  A load polls its stream while other writers append, so it
    runs against a schedule: the store it sees at each poll. *)

From S2P Require Import Prelude Utf8 ErrorId Version Events Aggregate Value Wire Envelope RawStore.

Inductive StoreError (A EncErr DecErr : Type) : Type :=
| SConflict (stream_id : ErrorId) (expected actual : option Version)
| SStreamNotFound (stream_id : ErrorId)
| SAdapter (e : A)
| SEncode (e : EncErr)
| SDecode (e : DecErr)
| SKernel (e : KernelError)
| SVersionOverflow
| SEnvelopeSynthesis (e : ForDecodeError)
| SEnvelope (e : EnvelopeError).
Arguments SConflict {A EncErr DecErr} _ _ _.
Arguments SStreamNotFound {A EncErr DecErr} _.
Arguments SAdapter {A EncErr DecErr} _.
Arguments SEncode {A EncErr DecErr} _.
Arguments SDecode {A EncErr DecErr} _.
Arguments SKernel {A EncErr DecErr} _.
Arguments SVersionOverflow {A EncErr DecErr}.
Arguments SEnvelopeSynthesis {A EncErr DecErr} _.
Arguments SEnvelope {A EncErr DecErr} _.

Definition is_conflict {A EncErr DecErr} (e : StoreError A EncErr DecErr) : bool :=
  match e with SConflict _ _ _ => true | _ => false end.

Inductive LoadWithError (A EncErr DecErr UpErr VerifyErr : Type) : Type :=
| LStore (e : StoreError A EncErr DecErr)
| LUpcast (e : UpErr)
| LVerification (e : VerifyErr).
Arguments LStore {A EncErr DecErr UpErr VerifyErr} _.
Arguments LUpcast {A EncErr DecErr UpErr VerifyErr} _.
Arguments LVerification {A EncErr DecErr UpErr VerifyErr} _.

(** [Encode] and [Decode]: the application's codec for its events. *)
Class Codec (Event : Type) := {
  EncErr : Type;
  DecErr : Type;
  encode : Event -> result bytes EncErr;
  decode : PersistedEnvelope -> result Event DecErr;
}.
Arguments EncErr Event {_}.
Arguments DecErr Event {_}.

(** [EventMorsel]: what an upcaster transforms (crates/store/src/upcasting.rs). *)
Record EventMorsel : Type := MkMorsel {
  m_event_type : Cow bytes;
  m_schema_version : SchemaVersion;
  m_payload : Cow bytes;
}.

Module EventMorsel.
Definition new (et : bytes) (sv : SchemaVersion) (pl : bytes) : EventMorsel := MkMorsel (Owned et) sv (Owned pl).
Definition borrowed (et : bytes) (sv : SchemaVersion) (pl : bytes) : EventMorsel := MkMorsel (Borrowed et) sv (Borrowed pl).
Definition event_type (m : EventMorsel) : bytes := cow_get (m_event_type m).
Definition schema_version (m : EventMorsel) : SchemaVersion := m_schema_version m.
Definition payload (m : EventMorsel) : bytes := cow_get (m_payload m).
Definition is_borrowed (m : EventMorsel) : bool :=
  match m_event_type m, m_payload m with Borrowed _, Borrowed _ => true | _, _ => false end.
Definition with_payload (m : EventMorsel) (pl : Cow bytes) : EventMorsel := MkMorsel (m_event_type m) (m_schema_version m) pl.
Definition with_schema_version (m : EventMorsel) (sv : SchemaVersion) : EventMorsel := MkMorsel (m_event_type m) sv (m_payload m).
Definition with_event_type (m : EventMorsel) (et : Cow bytes) : EventMorsel := MkMorsel et (m_schema_version m) (m_payload m).
End EventMorsel.

Definition first_persisted_version (current : option Version) : option Version :=
  match current with
  | None => Some INITIAL
  | Some v => next v
  end.

Section event_store.
Context {T : Target} {A : Aggregate} {S : Type} {R : RawEventStore S} {C : Codec Event}.
(** [MetadataProvider::metadata] of the facade. *)
Context (meta : Version -> Event -> Payload -> option Metadata).

Notation SErr := (StoreError (SError S) (EncErr Event) (DecErr Event)).

Definition stream_key (id : Id) : StreamKey := StreamKey.from_slice (id_as_ref id).

(** ** Loading *)

(** [try_fold] over an open stream; poll number [t] sees the store [sched t].
    [None] is a drain that has not ended within [fuel] polls. *)
Fixpoint try_fold {E} (fuel : nat) (sched : nat -> S) (t : nat) (c : Cursor S)
  (adapter : SError S -> E) (step : AggregateRoot -> PersistedEnvelope -> outcome AggregateRoot E)
  (r : AggregateRoot) : option (outcome AggregateRoot E) :=
  match fuel with
  | O => None
  | Datatypes.S fuel =>
      match stream_next (sched t) c with
      | Panics => Some Panics
      | Returns (None, _) => Some (Returns (Ok r))
      | Returns (Some (Err e), _) => Some (Returns (Err (adapter e)))
      | Returns (Some (Ok env), c') =>
          match step r env with
          | Returns (Ok r') => try_fold fuel sched (Datatypes.S t) c' adapter step r'
          | o => Some o
          end
      end
  end.

(** [r.replay(version, event)], the error converted by [f]. *)
Definition replay_into {E} (f : KernelError -> E) (r : AggregateRoot) (v : Version) (e : Event)
  : outcome AggregateRoot E :=
  match replay r v e with
  | (r', Returns (Ok _)) => Returns (Ok r')
  | (_, Returns (Err k)) => Returns (Err (f k))
  | (_, Panics) => Panics
  end.

(** The closure of [replay_from]. *)
Definition replay_step (r : AggregateRoot) (env : PersistedEnvelope) : outcome AggregateRoot SErr :=
  let version := ps_version env in
  let! out := Returns (map_err SDecode (decode env)) in
  replay_into SKernel r version out.

Definition replay_from (fuel : nat) (sched : nat -> S) (r : AggregateRoot) (from : Version)
  : option (outcome AggregateRoot SErr) :=
  match read_stream (sched O) (stream_key (root_id r)) from with
  | Err e => Some (Returns (Err (SAdapter e)))
  | Ok c => try_fold fuel sched 1 c SAdapter replay_step r
  end.

Definition load (fuel : nat) (sched : nat -> S) (id : Id) : option (outcome AggregateRoot SErr) :=
  replay_from fuel sched (root_new id) INITIAL.

Section load_with.
Context {UpErr VerifyErr : Type}.
Context (verify_original : PersistedEnvelope -> result () VerifyErr) (upcast : EventMorsel -> result EventMorsel UpErr).

Notation LErr := (LoadWithError (SError S) (EncErr Event) (DecErr Event) UpErr VerifyErr).

(** The closure of [load_with]. *)
Definition upcast_step (r : AggregateRoot) (env : PersistedEnvelope) : outcome AggregateRoot LErr :=
  let! _ := Returns (map_err LVerification (verify_original env)) in
  let version := ps_version env in
  let morsel := EventMorsel.borrowed (PersistedEnvelope.event_type env) (ps_schema_version env)
                  (PersistedEnvelope.payload env) in
  let! transformed := Returns (map_err LUpcast (upcast morsel)) in
  let! upcast_env := outcome_map_err (fun e => LStore (SEnvelopeSynthesis e))
    (PersistedEnvelope.for_transformed_decode env (EventMorsel.event_type transformed)
       (EventMorsel.schema_version transformed) (EventMorsel.payload transformed)) in
  let! out := Returns (map_err (fun e => LStore (SDecode e)) (decode (cow_get upcast_env))) in
  replay_into (fun k => LStore (SKernel k)) r version out.

Definition load_with (fuel : nat) (sched : nat -> S) (id : Id) : option (outcome AggregateRoot LErr) :=
  let r := root_new id in
  match read_stream (sched O) (stream_key (root_id r)) INITIAL with
  | Err e => Some (Returns (Err (LStore (SAdapter e))))
  | Ok c => try_fold fuel sched 1 c (fun e => LStore (SAdapter e)) upcast_step r
  end.

End load_with.

(** ** Saving *)

Definition encode_at (current_version : bytes -> option SchemaVersion) (event : Event) (version : Version)
  : outcome PendingEnvelope SErr :=
  let! payload_bytes := Returns (map_err SEncode (encode event)) in
  let! pl := Returns (map_err (fun e => SEnvelope (EnvelopeValue e)) (Payload.from_bytes payload_bytes)) in
  let sv := default SchemaVersion.INITIAL (current_version (event_name event)) in
  let metadata := meta version event pl in
  match Builder.event_type (pending_envelope version) (event_name event) with
  | Panics => Panics
  | Returns b =>
      let b := Builder.schema_version (Builder.payload b (pl_bytes pl)) sv in
      Returns (map_err SEnvelope (Builder.build
        match metadata with Some m => Builder.metadata b (md_bytes m) | None => b end))
  end.

(** The loop over the tail, from the version of the event before it. *)
Fixpoint encode_tail (current_version : bytes -> option SchemaVersion) (version : Version) (events : list Event)
  : outcome (list PendingEnvelope) SErr :=
  match events with
  | [] => Returns (Ok [])
  | event :: events =>
      let! version' := Returns (ok_or (next version) SVersionOverflow) in
      let! pe := encode_at current_version event version' in
      let! tail := encode_tail current_version version' events in
      Returns (Ok (pe :: tail))
  end.

Definition encode_batch {N} (r : AggregateRoot) (events : Events Event N)
  (current_version : bytes -> option SchemaVersion) : outcome PendingBatch.t SErr :=
  let! _ := Returns (map_err (fun e => match e with KVersionOverflow => SVersionOverflow | cause => SKernel cause end)
                      (commit_version r events)) in
  let! next_version := Returns (ok_or (first_persisted_version (root_version r)) SVersionOverflow) in
  let! head := encode_at current_version (first events) next_version in
  let! tail := encode_tail current_version next_version (rest events) in
  Returns (Ok (PendingBatch.from_parts head tail)).

Definition append_error (e : AppendError (SError S)) : SErr :=
  match e with
  | AppendConflict stream_id expected actual => SConflict stream_id expected actual
  | AppendStore e => SAdapter e
  end.

Definition save_events {N} (s : S) (r : AggregateRoot) (events : Events Event N)
  (current_version : bytes -> option SchemaVersion) : S * AggregateRoot * outcome (AllPos S) SErr :=
  match encode_batch r events current_version with
  | Panics => (s, r, Panics)
  | Returns (Err e) => (s, r, Returns (Err e))
  | Returns (Ok batch) =>
      match append s (stream_key (root_id r)) (root_version r) batch with
      | (s', Panics) => (s', r, Panics)
      | (s', Returns (Err e)) => (s', r, Returns (Err (append_error e)))
      | (s', Returns (Ok position)) =>
          match commit_persisted r events with
          | (r', Panics) => (s', r', Panics)
          | (r', Returns (Err e)) => (s', r', Returns (Err (SKernel e)))
          | (r', Returns (Ok _)) => (s', r', Returns (Ok position))
          end
      end
  end.

(** [Repository::save]: no upcaster, every event at the initial schema. *)
Definition save {N} (s : S) (r : AggregateRoot) (events : Events Event N)
  : S * AggregateRoot * outcome (AllPos S) SErr := save_events s r events (fun _ => None).

(** [EventStore::save_with]. *)
Definition save_with {N} (s : S) (r : AggregateRoot) (events : Events Event N)
  (current_version : bytes -> option SchemaVersion) : S * AggregateRoot * outcome (AllPos S) SErr :=
  save_events s r events current_version.

(** ** Save *)

Context {RS : RawEventStoreSpec S}.
(** [Metadata] values are valid by construction. *)
Context (meta_ok : forall v e p m, meta v e p = Some m -> metadata_ok m).

(** The envelope carries the event's encoding under the event's name. *)
Definition encodes (pe : PendingEnvelope) (e : Event) : Prop :=
  pending_ok pe /\ et_bytes (pe_event_type pe) = event_name e /\ encode e = Ok (pl_bytes (pe_payload pe)).

Lemma encode_at_spec cv e v pe :
  encode_at cv e v = Returns (Ok pe) -> encodes pe e /\ pe_version pe = v.
Proof using meta_ok.
  unfold encode_at. intros (b & Hb & E)%outcome_bind_Ok. apply outcome_bind_Ok in E as (pl & Hpl & E).
  injection Hb as Hb%map_err_Ok. injection Hpl as Hpl%map_err_Ok.
  apply payload_from_bytes_spec in Hpl as [-> Hpl].
  unfold Builder.event_type, EventType.from_static_str in E. simpl in E.
  destruct (Z.leb_spec (len (event_name e)) MAX_EVENT_TYPE_LEN) as [Hle|]; [|done].
  assert (event_type_ok (MkEventType (event_name e))) as Het by (split; [apply event_name_utf8|done]).
  injection E as E%map_err_Ok.
  destruct (meta v e (MkPayload b)) as [m|] eqn:Hm; simpl in E;
    apply build_spec in E as [-> Hok]; try done; by split.
Qed.

Lemma encode_at_schema cv e v pe :
  encode_at cv e v = Returns (Ok pe) -> pe_schema_version pe = default SchemaVersion.INITIAL (cv (event_name e)).
Proof using meta_ok.
  unfold encode_at. intros (b & _ & E)%outcome_bind_Ok. apply outcome_bind_Ok in E as (pl & _ & E).
  unfold Builder.event_type, EventType.from_static_str in E. simpl in E.
  destruct (Z.leb_spec (len (event_name e)) MAX_EVENT_TYPE_LEN) as [Hle|]; [|done].
  assert (event_type_ok (MkEventType (event_name e))) as Het by (split; [apply event_name_utf8|done]).
  injection E as E%map_err_Ok. destruct (meta v e pl) as [m|]; simpl in E; by apply build_spec in E as [-> _].
Qed.

Lemma encode_tail_spec cv v es pes :
  encode_tail cv v es = Returns (Ok pes) ->
  Forall2 encodes pes es /\ consecutive (as_u64 v + 1) (versions pes).
Proof using meta_ok.
  revert v pes. induction es as [|e es IH]; intros v pes; cbn [encode_tail].
  { intros [= <-]. split; [constructor|done]. }
  intros (w & Hw & E)%outcome_bind_Ok. injection Hw as Hw%ok_or_Ok. apply next_Some in Hw.
  apply outcome_bind_Ok in E as (pe & Hpe & E). apply outcome_bind_Ok in E as (tl & Htl & [= <-]).
  apply encode_at_spec in Hpe as [Henc Hv]. apply IH in Htl as [Hall Hc].
  split; [by constructor|]. csimpl. rewrite Hv, Hw. split; [done|]. by rewrite Hw in Hc.
Qed.

Lemma encode_tail_schema cv v es pes :
  encode_tail cv v es = Returns (Ok pes) ->
  Forall2 (fun pe e => pe_schema_version pe = default SchemaVersion.INITIAL (cv (event_name e))) pes es.
Proof using meta_ok.
  revert v pes. induction es as [|e es IH]; intros v pes; cbn [encode_tail]; [by intros [= <-]|].
  intros (w & _ & E)%outcome_bind_Ok. apply outcome_bind_Ok in E as (pe & Hpe%encode_at_schema & E).
  apply outcome_bind_Ok in E as (tl & Htl%IH & [= <-]). by constructor.
Qed.

(** Every envelope of a batch has the current schema of its event. *)
Lemma encode_batch_schema {N} r (es : Events Event N) cv b :
  encode_batch r es cv = Returns (Ok b) ->
  Forall2 (fun pe e => pe_schema_version pe = default SchemaVersion.INITIAL (cv (event_name e))) (PendingBatch.iter b) (iter es).
Proof using meta_ok.
  unfold encode_batch. intros (v & _ & E)%outcome_bind_Ok. apply outcome_bind_Ok in E as (w & _ & E).
  apply outcome_bind_Ok in E as (hd & Hhd%encode_at_schema & E). apply outcome_bind_Ok in E as (tl & Htl%encode_tail_schema & [= <-]).
  by constructor.
Qed.

Lemma first_persisted_spec r v :
  first_persisted_version (root_version r) = Some v <-> as_u64 v = current_of r + 1.
Proof.
  unfold first_persisted_version, current_of. destruct (root_version r) as [w|]; [apply next_Some|].
  split; [by intros [= <-]|]. intros Hv. f_equal. by apply as_u64_inj.
Qed.

Lemma encode_batch_spec {N} r (es : Events Event N) cv b :
  encode_batch r es cv = Returns (Ok b) ->
  Forall2 encodes (PendingBatch.iter b) (iter es) /\
  consecutive (current_of r + 1) (versions (PendingBatch.iter b)) /\ batch_ok b /\
  exists v, commit_version r es = Ok v.
Proof using meta_ok.
  unfold encode_batch. intros (v & Hv & E)%outcome_bind_Ok. injection Hv as Hv%map_err_Ok.
  apply outcome_bind_Ok in E as (w & Hw & E). injection Hw as Hw%ok_or_Ok. apply first_persisted_spec in Hw.
  apply outcome_bind_Ok in E as (hd & Hhd & E). apply outcome_bind_Ok in E as (tl & Htl & [= <-]).
  apply encode_at_spec in Hhd as [Henc Hver]. apply encode_tail_spec in Htl as [Hall Hc].
  assert (Forall2 encodes (hd :: tl) (iter es)) as HF by (by constructor).
  split_and!; [done| | |by eexists].
  - csimpl. rewrite Hver, Hw. split; [done|]. by rewrite Hw in Hc.
  - apply Forall_forall. intros pe (i & Hi)%list_elem_of_lookup.
    by destruct (Forall2_lookup_l _ _ _ _ _ HF Hi) as (e & _ & ? & _).
Qed.

Lemma encode_at_no_conflict cv e v x : encode_at cv e v = Returns (Err x) -> is_conflict x = false.
Proof.
  unfold encode_at. intros [He|(b & _ & E)]%outcome_bind_Err; [by destruct (encode e); simplify_eq/=|].
  apply outcome_bind_Err in E as [He|(pl & _ & E)]; [by destruct (Payload.from_bytes b); simplify_eq/=|].
  destruct (Builder.event_type _ _); [|done]. injection E as E.
  destruct (Builder.build _); by simplify_eq/=.
Qed.

Lemma encode_tail_no_conflict cv v es x : encode_tail cv v es = Returns (Err x) -> is_conflict x = false.
Proof.
  revert v. induction es as [|e es IH]; intros v; cbn [encode_tail]; [done|].
  intros [He|(w & _ & E)]%outcome_bind_Err; [by destruct (next v); simplify_eq/=|].
  apply outcome_bind_Err in E as [?%encode_at_no_conflict|(pe & _ & E)]; [done|].
  apply outcome_bind_Err in E as [?%IH|(tl & _ & E)]; done.
Qed.

(** Nothing that fails before the append is reported as a conflict. *)
Lemma encode_batch_no_conflict {N} r (es : Events Event N) cv x :
  encode_batch r es cv = Returns (Err x) -> is_conflict x = false.
Proof.
  unfold encode_batch. intros [He|(v & _ & E)]%outcome_bind_Err.
  { destruct (commit_version r es) as [|[]]; by simplify_eq/=. }
  apply outcome_bind_Err in E as [He|(w & _ & E)]; [by destruct (first_persisted_version _); simplify_eq/=|].
  apply outcome_bind_Err in E as [?%encode_at_no_conflict|(hd & _ & E)]; [done|].
  by apply outcome_bind_Err in E as [?%encode_tail_no_conflict|(tl & _ & E)].
Qed.

Lemma commit_after_check {N} r (es : Events Event N) v r' e :
  commit_version r es = Ok v -> commit_persisted r es <> (r', Returns (Err e)).
Proof.
  intros Hv. unfold commit_persisted. rewrite Hv. unfold apply_events, fold_events.
  cbn [set_version root_state]. apply commit_version_spec in Hv as [[st Hs] _]. rewrite Hs. destruct (apply_all st (iter es)); congruence.
Qed.

(** A save that returned an error, by where it failed: before the append, which leaves
    the store itself as it was, or in the append. *)
Lemma save_error_frame {N} s r (es : Events Event N) cv s' r' e :
  store_inv s -> save_events s r es cv = (s', r', Returns (Err e)) ->
  r' = r /\ store_inv s' /\
  ((s' = s /\ encode_batch r es cv = Returns (Err e)) \/
   exists b x, encode_batch r es cv = Returns (Ok b) /\ batch_ok b /\ e = append_error x /\
     append s (stream_key (root_id r)) (root_version r) b = (s', Returns (Err x))).
Proof using meta_ok.
  intros Hinv. unfold save_events. destruct (encode_batch r es cv) as [[b|e0]|] eqn:Hb; [|by intros [= <- <- <-]; auto|done].
  apply encode_batch_spec in Hb as (_ & _ & Hok & v & Hv).
  destruct (append s (stream_key (root_id r)) (root_version r) b) as [s1 [[p|e1]|]] eqn:Ea; [| |done].
  - destruct (commit_persisted r es) as [r1 [[[]|k]|]] eqn:Hc; try done.
    by destruct (commit_after_check r es v r1 k Hv).
  - intros [= <- <- <-]. destruct (append_failed _ _ _ _ _ _ Hinv Hok Ea) as (? & _). split_and!; [done..|]. eauto 8.
Qed.

(** A save of a root that is not at the head of its stream. *)
Lemma stale_save_same {N} s r (es : Events Event N) cv s' r' o :
  store_inv s -> save_events s r es cv = (s', r', o) ->
  root_version r <> head_version (len (stream_of s (stream_key (root_id r)))) ->
  r' = r /\ (forall id, stream_of s' id = stream_of s id) /\ (forall p, o <> Returns (Ok p)).
Proof using meta_ok.
  intros Hinv E Hne. unfold save_events in E.
  destruct (encode_batch r es cv) as [[b|e0]|] eqn:Hb; [|by injection E as <- <- <-..].
  apply encode_batch_spec in Hb as (_ & _ & Hok & _).
  pose proof (append_no_panic s (stream_key (root_id r)) (root_version r) b Hinv Hok) as Hnp.
  destruct (append s (stream_key (root_id r)) (root_version r) b) as [s1 [[p|x]|]] eqn:Ea; [| |done].
  - by destruct (append_committed _ _ _ _ _ _ Hinv Hok Ea) as (_ & ? & _).
  - injection E as <- <- <-. destruct (append_stale_same _ _ _ _ _ _ Hinv Hok Ea Hne) as [_ ?]. done.
Qed.

Lemma stale_save_conflict {N} s r (es : Events Event N) cv b :
  store_inv s -> encode_batch r es cv = Returns (Ok b) -> storable (stream_key (root_id r)) b ->
  root_version r <> head_version (len (stream_of s (stream_key (root_id r)))) ->
  exists s' l, save_events s r es cv =
    (s', r, Returns (Err (SConflict l (root_version r) (head_version (len (stream_of s (stream_key (root_id r)))))))).
Proof using meta_ok.
  intros Hinv Hb Hst Hne. unfold save_events. rewrite Hb. apply encode_batch_spec in Hb as (_ & _ & Hok & _).
  destruct (append_stale s _ _ b Hinv Hok Hst Hne) as [l Hl].
  destruct (append s (stream_key (root_id r)) (root_version r) b) as [s1 o]. simpl in Hl. subst o. by exists s1, l.
Qed.

(** A save that panics after the events reached the store has poisoned the root. *)
Lemma save_panics {N} s r (es : Events Event N) cv s' r' :
  store_inv s -> save_events s r es cv = (s', r', Panics) ->
  stream_of s' (stream_key (root_id r)) <> stream_of s (stream_key (root_id r)) -> root_state r' = None.
Proof using meta_ok.
  intros Hinv E Hne. unfold save_events in E.
  destruct (encode_batch r es cv) as [[b|e0]|] eqn:Hb; [|done|by simplify_eq].
  apply encode_batch_spec in Hb as (_ & _ & Hok & v & Hv).
  pose proof (append_no_panic s (stream_key (root_id r)) (root_version r) b Hinv Hok) as Hnp.
  destruct (append s (stream_key (root_id r)) (root_version r) b) as [s1 [[q|e1]|]] eqn:Ea; [|done|done].
  unfold commit_persisted in E. rewrite Hv in E. unfold apply_events in E.
  destruct (fold_events (set_version r v) (iter es)) as [r1 [[[]|k]|]] eqn:Hf; try done.
  apply fold_panics in Hf. by simplify_eq.
Qed.

(** A stream that holds a batch of the root no longer ends at the root's version. *)
Lemma landed_stale s id v b :
  store_inv s -> 0 <= v -> v + len (PendingBatch.iter b) <= len (stream_of s id) ->
  head_version v <> head_version (len (stream_of s id)).
Proof.
  intros Hinv Hv Hle Heq. destruct (stream_of_ok s id Hinv) as (_ & _ & Hb). unfold PendingBatch.iter in Hle.
  rewrite len_cons in Hle. pose proof (len_nonneg (PendingBatch.rest b)). apply head_version_inj in Heq; lia.
Qed.

(** C34: a save that returns an error may be retried without storing an event twice.
    The root is as it was, no other stream has changed, and the error tells what
    became of the events: an error before the append (a codec, kernel or envelope
    error) leaves the store itself untouched, a conflict persists nothing, and an
    error of the store's own persisted nothing or exactly the whole encoded batch, on
    top of the head the root expected, never a part of it.  In that case every later
    save of the same root, whatever was appended meanwhile, is a conflict that
    persists nothing.  A save whose events reached the store otherwise returns the
    position, or the panic of the application's fold, which poisons the root. *)
Theorem failed_save_retry_safe {N} s r (es : Events Event N) cv s' r' o :
  store_inv s -> save_events s r es cv = (s', r', o) ->
  let key := stream_key (root_id r) in
  (forall e, o = Returns (Err e) ->
     r' = r /\ (forall id, id <> key -> stream_of s' id = stream_of s id) /\
     ((exists e', encode_batch r es cv = Returns (Err e')) -> s' = s) /\
     (is_conflict e = true -> stream_of s' key = stream_of s key) /\
     (stream_of s' key = stream_of s key \/
      exists x b, e = SAdapter x /\ encode_batch r es cv = Returns (Ok b) /\
        root_version r = head_version (len (stream_of s key)) /\
        stream_of s' key = stream_of s key ++ PendingBatch.iter b /\
        forall s1, store_inv s1 -> stream_of s' key `prefix_of` stream_of s1 key -> storable key b ->
          exists s2 l, save_events s1 r es cv =
              (s2, r, Returns (Err (SConflict l (root_version r) (head_version (len (stream_of s1 key)))))) /\
            forall id, stream_of s2 id = stream_of s1 id)) /\
  (stream_of s' key <> stream_of s key ->
     (exists p, o = Returns (Ok p)) \/ (exists x, o = Returns (Err (SAdapter x))) \/ (o = Panics /\ root_state r' = None)).
Proof using meta_ok.
  intros Hinv E key. split.
  - intros e ->. destruct (save_error_frame _ _ _ _ _ _ _ Hinv E) as (-> & Hinv' & Hor). split; [done|].
    destruct Hor as [[-> Hb]|(b & x & Hb & Hok & -> & Ea)].
    { split_and!; [done..|by left]. }
    destruct (append_failed _ _ _ _ _ _ Hinv Hok Ea) as (_ & Hl & Ho).
    split_and!; [exact Ho|by rewrite Hb; intros [e' [=]]| |].
    { intros Hc. destruct Hl as [?|([y ->] & _)]; [done|]. done. }
    destruct Hl as [?|([y ->] & Hex & Hstr)]; [by left|right]. exists y, b. split_and!; [done..|].
    intros s1 Hinv1 [k Hk] Hst.
    assert (root_version r <> head_version (len (stream_of s1 key))) as Hne.
    { fold key in Hex, Hstr. rewrite Hex. rewrite Hstr in Hk. apply (landed_stale s1 key _ b); [done|apply len_nonneg|].
      rewrite Hk, !len_app. pose proof (len_nonneg k). lia. }
    destruct (stale_save_conflict s1 r es cv b Hinv1 Hb Hst Hne) as (s2 & l & E2). exists s2, l. split; [done|].
    by destruct (stale_save_same _ _ _ _ _ _ _ Hinv1 E2 Hne) as (_ & ? & _).
  - intros Hne. destruct o as [[p|e]|]; [by eauto| |].
    + right. left. destruct (save_error_frame _ _ _ _ _ _ _ Hinv E) as (_ & _ & [[-> _]|(b & x & _ & Hok & -> & Ea)]); [done|].
      destruct (append_failed _ _ _ _ _ _ Hinv Hok Ea) as (_ & [?|([y ->] & _)] & _); [done|]. by exists y.
    + right. right. split; [done|]. by eapply save_panics.
Qed.

(** C3: saving a root that is not at the head of its stream never succeeds, never
    persists anything and leaves the root as it is, whatever the save returns; and when
    the events encode to a batch of the adapter's format, what it returns is a conflict
    that names the root's version and the stream's actual head. *)
Theorem stale_save_conflicts {N} s r (es : Events Event N) cv s' r' o :
  store_inv s -> save_events s r es cv = (s', r', o) ->
  let head := head_version (len (stream_of s (stream_key (root_id r)))) in
  root_version r <> head ->
  r' = r /\ (forall id, stream_of s' id = stream_of s id) /\ (forall p, o <> Returns (Ok p)) /\
  (forall b, encode_batch r es cv = Returns (Ok b) -> storable (stream_key (root_id r)) b ->
     exists l, o = Returns (Err (SConflict l (root_version r) head)) /\
       is_conflict (SConflict l (root_version r) head : SErr) = true).
Proof using meta_ok.
  intros Hinv E head Hne. destruct (stale_save_same _ _ _ _ _ _ _ Hinv E Hne) as (-> & Hsame & Hok). split_and!; [done..|].
  intros b Hb Hst. destruct (stale_save_conflict _ _ _ _ _ Hinv Hb Hst Hne) as (s2 & l & E2).
  rewrite E2 in E. injection E as _ <-. by exists l.
Qed.

(** ** Load *)

(** A schedule of a store that other writers only append to. *)
Definition sched_ok (sched : nat -> S) : Prop :=
  forall t, store_inv (sched t) /\
    forall k, stream_of (sched t) k `prefix_of` stream_of (sched (Datatypes.S t)) k.

(** The fold of a list of envelopes. *)
Fixpoint fold_steps {E} (step : AggregateRoot -> PersistedEnvelope -> outcome AggregateRoot E)
  (r : AggregateRoot) (envs : list PersistedEnvelope) : outcome AggregateRoot E :=
  match envs with
  | [] => Returns (Ok r)
  | env :: envs =>
      match step r env with
      | Returns (Ok r') => fold_steps step r' envs
      | o => o
      end
  end.

(** The envelopes a drain delivered are the stream from version [v] on. *)
Definition delivered (s : S) (id : StreamKey) (v : Z) (envs : list PersistedEnvelope) : Prop :=
  from_persisted <$> envs `prefix_of` drop (Z.to_nat (v - 1)) (stream_of s id) /\ Forall persisted_ok envs.

Lemma delivered_nil s id v : delivered s id v [].
Proof. split; [apply prefix_nil|constructor]. Qed.

Lemma delivered_one s id v env :
  stream_of s id !! Z.to_nat (v - 1) = Some (from_persisted env) -> persisted_ok env -> delivered s id v [env].
Proof. intros Hl Hok. split; [|by constructor]. erewrite drop_S by done. csimpl. apply prefix_cons, prefix_nil. Qed.

Lemma sched_prefix sched t n id :
  sched_ok sched -> stream_of (sched t) id `prefix_of` stream_of (sched (t + n)%nat) id.
Proof.
  intros Hs. induction n as [|n IH]; [by rewrite Nat.add_0_r|]. etrans; [exact IH|].
  rewrite Nat.add_succ_r. apply Hs.
Qed.

Lemma delivered_cons s s' id v env envs :
  stream_of s id `prefix_of` stream_of s' id ->
  stream_of s id !! Z.to_nat (v - 1) = Some (from_persisted env) -> persisted_ok env -> 1 <= v ->
  delivered s' id (v + 1) envs -> delivered s' id v (env :: envs).
Proof.
  intros Hp Hl Hok Hv [Hd Hall]. split; [|by constructor].
  rewrite (drop_S (stream_of s' id) (from_persisted env)) by (eapply prefix_lookup_Some; done).
  csimpl. apply prefix_cons. by replace (Datatypes.S (Z.to_nat (v - 1))) with (Z.to_nat (v + 1 - 1)) by lia.
Qed.

(** A drain is the fold of what it was delivered; it succeeds only once everything
    the stream held when it was opened has been folded. *)
Lemma try_fold_spec {E} fuel sched t c adapter (step : AggregateRoot -> PersistedEnvelope -> outcome AggregateRoot E) r id v :
  sched_ok sched -> cursor_at (sched O) (sched t) c id v -> 1 <= v ->
  exists envs n,
    delivered (sched (t + n)%nat) id v envs /\
    match try_fold fuel sched (Datatypes.S t) c adapter step r with
    | None => length envs = fuel /\ exists r', fold_steps step r envs = Returns (Ok r')
    | Some o => o = fold_steps step r envs /\
        forall r', o = Returns (Ok r') -> len (stream_of (sched O) id) < v + len envs
    end.
Proof.
  intros Hs. revert t c r v. induction fuel as [|fuel IH]; intros t c r v Hc Hv; cbn [try_fold].
  { exists [], O. split; [apply delivered_nil|]. split; [done|]. by eexists. }
  destruct (stream_next_spec (sched O) (sched t) (sched (Datatypes.S t)) c id v) as
    [(env & c' & -> & Hl & Hok & Hc')|(c' & -> & Hend)]; [apply Hs|apply Hs|done| |].
  - destruct (step r env) as [[r1|e]|] eqn:Hstep.
    + destruct (IH (Datatypes.S t) c' r1 (v + 1) Hc' ltac:(lia)) as (envs & n & Hd & Hres).
      exists (env :: envs), (Datatypes.S n). rewrite Nat.add_succ_r, <- Nat.add_succ_l. split.
      { eapply delivered_cons; [by apply sched_prefix|done..]. }
      destruct (try_fold fuel sched _ c' adapter step r1) as [o|]; cbn [fold_steps]; rewrite Hstep.
      * destruct Hres as [-> Hlen]. split; [done|]. intros r' Hr'. specialize (Hlen r' Hr'). rewrite len_cons. lia.
      * destruct Hres as [<- Hres]. done.
    + exists [env], 1%nat. rewrite Nat.add_1_r. split; [by apply delivered_one|].
      simpl. rewrite Hstep. split; [done|]. done.
    + exists [env], 1%nat. rewrite Nat.add_1_r. split; [by apply delivered_one|].
      simpl. rewrite Hstep. split; [done|]. done.
  - exists [], O. split; [apply delivered_nil|]. split; [done|]. intros _ _. rewrite len_nil. lia.
Qed.

Lemma replay_step_Ok r env r' :
  replay_step r env = Returns (Ok r') <->
  exists e, decode env = Ok e /\ replay r (ps_version env) e = (r', Returns (Ok tt)).
Proof.
  unfold replay_step, replay_into. rewrite outcome_bind_Ok. split.
  - intros (e & [= He%map_err_Ok] & E). exists e. split; [done|].
    destruct (replay r (ps_version env) e) as [r1 [[[]|]|]]; naive_solver.
  - intros (e & He & Hr). exists e. by rewrite He, Hr.
Qed.

(** Folding envelopes with [replay_step] is decoding them and replaying. *)
Lemma fold_replay r envs r' :
  fold_steps replay_step r envs = Returns (Ok r') <->
  exists es, Forall2 (fun env e => decode env = Ok e) envs es /\
    replay_all r (zip (ps_version <$> envs) es) = (r', Returns (Ok tt)).
Proof.
  revert r. induction envs as [|env envs IH]; intros r; simpl.
  { split; [intros [= <-]; by exists []|]. intros (es & ->%Forall2_nil_inv_l & [= <-]). done. }
  split.
  - destruct (replay_step r env) as [[r1|]|] eqn:Hs; try done.
    apply replay_step_Ok in Hs as (e & He & Hr). intros (es & Hall & Hrep)%IH.
    exists (e :: es). split; [by constructor|]. simpl. by rewrite Hr.
  - intros (es & (e & es' & He & Hall & ->)%Forall2_cons_inv_l & Hrep). simpl in Hrep.
    destruct (replay r (ps_version env) e) as [r1 [[[]|]|]] eqn:Hr; try done.
    rewrite (proj2 (replay_step_Ok r env r1)) by eauto. apply IH. eauto.
Qed.

Lemma fold_replay_budget r envs r' :
  replayed_events r <= limit -> fold_steps replay_step r envs = Returns (Ok r') ->
  replayed_events r' = replayed_events r + len envs /\ replayed_events r' <= limit.
Proof.
  revert r. induction envs as [|env envs IH]; intros r Hle; simpl; [intros [= <-]; rewrite len_nil; lia|].
  destruct (replay_step r env) as [[r1|]|] eqn:Hs; try done.
  apply replay_step_Ok in Hs as (e & _ & (s & s' & _ & _ & _ & Hlt & ->)%replay_ok). intros [H1 H2]%IH; simpl in *; [|lia].
  rewrite len_cons. lia.
Qed.

Lemma versions_from_persisted envs : versions (from_persisted <$> envs) = ps_version <$> envs.
Proof. unfold versions. rewrite <- list_fmap_compose. by apply list_fmap_ext. Qed.

Lemma last_version pes : consecutive 1 (versions pes) -> len pes <= u64_max -> last (versions pes) = head_version (len pes).
Proof.
  intros Hc Hb. unfold head_version. destruct pes as [|p pes] using rev_ind; [done|].
  unfold versions in *. rewrite fmap_app in *. csimpl. rewrite last_snoc. apply consecutive_app in Hc. destruct Hc as (_ & Hv & _).
  simpl in Hv. rewrite len_app, len_cons, len_nil in *. pose proof (len_nonneg pes).
  rewrite (proj2 (Z.eqb_neq _ _)) by lia. symmetry. apply new_Some. rewrite Hv. unfold len. rewrite length_fmap. lia.
Qed.

(** One poll more than the replay budget is always enough. *)
Lemma load_ends fuel sched id : sched_ok sched -> limit < Z.of_nat fuel -> load fuel sched id <> None.
Proof using RS.
  intros Hs Hfuel. unfold load, replay_from. simpl.
  destruct (read_stream (sched O) (stream_key id) INITIAL) as [c|] eqn:Hread; [|done].
  assert (cursor_at (sched O) (sched O) c (stream_key id) 1) as Hc
    by (change 1 with (as_u64 INITIAL); apply read_stream_opens; [apply Hs|done]).
  destruct (try_fold_spec fuel sched O c SAdapter replay_step (root_new id) _ 1 Hs Hc) as (envs & n & Hd & Hres); [lia|].
  destruct (try_fold fuel sched 1 c SAdapter replay_step (root_new id)) as [o|]; [done|].
  destruct Hres as [Hl [r' Hr']]. exfalso. pose proof (nz_range MAX_REHYDRATION_EVENTS).
  apply fold_replay_budget in Hr'; [|simpl; unfold limit; lia]. simpl in Hr'. unfold len in Hr'. lia.
Qed.

(** A load that succeeds is the fold of the events delivered to it. *)
Lemma load_fold fuel sched id r :
  sched_ok sched -> load fuel sched id = Some (Returns (Ok r)) ->
  exists envs n es st, delivered (sched n) (stream_key id) 1 envs /\
    len (stream_of (sched O) (stream_key id)) <= len envs /\
    Forall2 (fun env e => decode env = Ok e) envs es /\ apply_all initial es = Returns st /\
    r = MkRoot id (Some st) (head_version (len envs)) (len envs).
Proof using RS.
  intros Hs. unfold load, replay_from. simpl.
  destruct (read_stream (sched O) (stream_key id) INITIAL) as [c|] eqn:Hread; [|done].
  assert (cursor_at (sched O) (sched O) c (stream_key id) 1) as Hc
    by (change 1 with (as_u64 INITIAL); apply read_stream_opens; [apply Hs|done]).
  destruct (try_fold_spec fuel sched O c SAdapter replay_step (root_new id) _ 1 Hs Hc) as (envs & n & Hd & Hres); [lia|].
  destruct (try_fold fuel sched 1 c SAdapter replay_step (root_new id)) as [o|]; [|done].
  destruct Hres as [-> Hlen]. intros [= Hr]. specialize (Hlen r Hr).
  apply fold_replay in Hr as (es & Hdec & Hrep). pose proof (Forall2_length _ _ _ Hdec) as Hl.
  pose proof (nz_range MAX_REHYDRATION_EVENTS).
  apply (replay_all_ok _ initial) in Hrep as (Hcons & _ & st & Ha & ->); [|done|simpl; unfold limit; lia].
  rewrite fst_zip in * by (rewrite length_fmap; lia). rewrite snd_zip in Ha by (rewrite length_fmap; lia).
  exists envs, n, es, st. split_and!; [done|lia|done|done|]. simpl.
  assert (len (zip (ps_version <$> envs) es) = len envs) as ->
    by (unfold len; rewrite length_zip_with, length_fmap; lia).
  replace (head_version (len envs)) with (last (ps_version <$> envs)); [by destruct (last _)|].
  rewrite <- versions_from_persisted in *. replace (len envs) with (len (from_persisted <$> envs)) by (unfold len; by rewrite length_fmap).
  apply last_version; [done|]. destruct Hd as [[tl Htl] _]. rewrite drop_0 in Htl.
  destruct (stream_of_ok (sched (0 + n)%nat) (stream_key id)) as (_ & _ & Hb); [apply Hs|].
  rewrite Htl, len_app in Hb. pose proof (len_nonneg tl). lia.
Qed.


(** ** Upcasting *)

Lemma try_fold_map {E F} (f : E -> F) adapter (step : AggregateRoot -> PersistedEnvelope -> outcome AggregateRoot E)
  (step' : AggregateRoot -> PersistedEnvelope -> outcome AggregateRoot F) fuel sched t c r :
  (forall r env, step' r env = outcome_map_err f (step r env)) ->
  try_fold fuel sched t c (fun e => f (adapter e)) step' r =
    outcome_map_err f <$> try_fold fuel sched t c adapter step r.
Proof.
  intros Hstep. revert t c r. induction fuel as [|fuel IH]; intros t c r; [done|]. cbn [try_fold].
  destruct (stream_next (sched t) c) as [[[[env|e]|] c']|]; try done.
  rewrite Hstep. destruct (step r env) as [[r'|e]|]; try done. simpl. apply IH.
Qed.

(** Loading through an upcaster that changes nothing, with a verifier
    that accepts everything, is loading: same root, same errors, same panics, on
    every schedule; transforming a morsel to itself re-frames nothing. *)
Theorem load_with_identity {UpErr VerifyErr} fuel sched id :
  load_with (fun _ => Ok () : result () VerifyErr) (fun m => Ok m : result EventMorsel UpErr) fuel sched id =
    outcome_map_err LStore <$> load fuel sched id.
Proof.
  unfold load_with, load, replay_from. simpl.
  destruct (read_stream (sched O) (stream_key id) INITIAL) as [c|e]; [|done].
  apply (try_fold_map LStore SAdapter). intros r env. unfold upcast_step, replay_step. cbn [map_err outcome_bind].
  unfold PersistedEnvelope.for_transformed_decode.
  rewrite !bool_decide_true by done. cbn [andb outcome_map_err map_err outcome_bind cow_get].
  destruct (decode env) as [e|]; cbn [map_err outcome_bind outcome_map_err]; [|done].
  unfold replay_into. by destruct (replay r (ps_version env) e) as [r' [[[]|]|]].
Qed.

(** ** Save, then load *)

(** The codec's contract: an envelope that carries an event's encoding under its
    name decodes to that event. *)
Context (decode_encode : forall e b env, encode e = Ok b -> PersistedEnvelope.payload env = b ->
  PersistedEnvelope.event_type env = event_name e -> persisted_ok env -> decode env = Ok e).

Lemma encodes_decodes env e : encodes (from_persisted env) e -> persisted_ok env -> decode env = Ok e.
Proof using decode_encode. intros (_ & Het & Henc) Hok. by eapply decode_encode. Qed.

(** The root is what its stream says: the fold of the stream's events, at the
    stream's head. *)
Definition root_matches_by (P : PendingEnvelope -> Event -> Prop) (s : S) (r : AggregateRoot) : Prop :=
  let stream := stream_of s (stream_key (root_id r)) in
  exists events st, Forall2 P stream events /\ apply_all initial events = Returns st /\
    root_state r = Some st /\ root_version r = head_version (len stream).
Definition root_matches : S -> AggregateRoot -> Prop := root_matches_by encodes.

(** A step that replays the event [e] an envelope stands for, whatever it does to find
    it: decoding, or upcasting and decoding. *)
Definition step_replays {E} (f : KernelError -> E) (step : AggregateRoot -> PersistedEnvelope -> outcome AggregateRoot E)
  (P : PendingEnvelope -> Event -> Prop) : Prop :=
  forall r env e, P (from_persisted env) e -> persisted_ok env -> step r env = replay_into f r (ps_version env) e.

Lemma fold_replays {E} f step (P : PendingEnvelope -> Event -> Prop) r envs es r' :
  step_replays (E := E) f step P -> Forall2 P (from_persisted <$> envs) es -> Forall persisted_ok envs ->
  replay_all r (zip (ps_version <$> envs) es) = (r', Returns (Ok tt)) -> fold_steps step r envs = Returns (Ok r').
Proof.
  intros Hstep HP Hok. rewrite Forall2_fmap_l in HP. revert r. induction HP as [|env e envs es He HP IH]; intros r; cbn.
  { by intros [= ->]. }
  apply Forall_cons in Hok as [Hok1 Hok]. rewrite (Hstep r env e He Hok1). unfold replay_into.
  destruct (replay r (ps_version env) e) as [r1 [[[]|]|]]; [|done|done]. by apply IH.
Qed.

(** Replaying envelopes of events that fold. *)
Lemma fold_matching {E} f step (P : PendingEnvelope -> Event -> Prop) id envs events st :
  step_replays (E := E) f step P ->
  Forall2 P (from_persisted <$> envs) events -> Forall persisted_ok envs ->
  consecutive 1 (ps_version <$> envs) -> apply_all initial events = Returns st -> len envs <= limit ->
  fold_steps step (root_new id) envs =
    Returns (Ok (MkRoot id (Some st) (last (ps_version <$> envs)) (len envs))).
Proof.
  intros Hstep Henc Hok Hc Ha Hle. eapply fold_replays; [done|done|done|].
  pose proof (Forall2_length _ _ _ Henc) as Hlen. rewrite length_fmap in Hlen.
  assert ((zip (ps_version <$> envs) events).*1 = ps_version <$> envs) as E1
    by (apply fst_zip; rewrite length_fmap; lia).
  assert ((zip (ps_version <$> envs) events).*2 = events) as E2 by (apply snd_zip; rewrite length_fmap; lia).
  assert (len (zip (ps_version <$> envs) events) = len envs) as E3
    by (unfold len; rewrite length_zip_with, length_fmap; lia).
  pose proof (nz_range MAX_REHYDRATION_EVENTS).
  apply (replay_all_ok _ initial); [done|simpl; unfold limit; lia|]. rewrite E1, E2, E3.
  split_and!; [done|simpl; lia|]. exists st. split; [done|]. simpl. by destruct (last _).
Qed.

(** A drain of a quiet store whose stream folds. *)
Lemma drain_matching {E} f adapter step (P : PendingEnvelope -> Event -> Prop) fuel s id c events st :
  step_replays (E := E) f step P ->
  store_inv s -> read_stream s (stream_key id) INITIAL = Ok c -> limit < Z.of_nat fuel ->
  Forall2 P (stream_of s (stream_key id)) events -> apply_all initial events = Returns st ->
  len (stream_of s (stream_key id)) <= limit ->
  try_fold fuel (fun _ => s) 1 c adapter step (root_new id) =
    Some (Returns (Ok (MkRoot id (Some st) (last (versions (stream_of s (stream_key id))))
                         (len (stream_of s (stream_key id)))))).
Proof using RS.
  intros Hstep Hinv Hread Hfuel Henc Ha Hle.
  assert (sched_ok (fun _ => s)) as Hs by (intros t; split; [done|intros; reflexivity]).
  assert (cursor_at s s c (stream_key id) 1) as Hcur
    by (change 1 with (as_u64 INITIAL); by apply read_stream_opens).
  destruct (stream_of_ok s (stream_key id) Hinv) as (_ & Hcons & _).
  destruct (try_fold_spec fuel (fun _ => s) O c adapter step (root_new id) _ 1 Hs Hcur)
    as (envs & n & [[tl Htl] Hok] & Hres); [lia|]. simpl in Htl. rewrite drop_0 in Htl.
  rewrite Htl in *. apply Forall2_app_inv_l in Henc as (ev1 & ev2 & He1 & He2 & ->).
  rewrite apply_all_app in Ha. destruct (apply_all initial ev1) as [st1|] eqn:Ha1; [|done].
  unfold versions in Hcons. rewrite fmap_app in Hcons. apply consecutive_app in Hcons as [Hcons _].
  fold (versions (from_persisted <$> envs)) in Hcons. rewrite versions_from_persisted in Hcons.
  rewrite len_app in Hle. pose proof (len_nonneg tl).
  assert (len (from_persisted <$> envs) = len envs) as Hlm by (unfold len; by rewrite length_fmap).
  pose proof (fold_matching f step P id envs ev1 st1 Hstep He1 Hok Hcons Ha1 ltac:(lia)) as Hfold.
  destruct (try_fold fuel (fun _ => s) 1 c adapter step (root_new id)) as [o|].
  - destruct Hres as [-> Hend]. specialize (Hend _ Hfold). rewrite len_app in Hend.
    assert (tl = []) as -> by (destruct tl; [done|rewrite len_cons in *; pose proof (len_nonneg tl); lia]).
    apply Forall2_nil_inv_l in He2 as ->. simpl in Ha. injection Ha as <-.
    by rewrite Hfold, app_nil_r, versions_from_persisted, Hlm.
  - destruct Hres as [Hl _]. unfold len in *. lia.
Qed.

(** A load of a quiet store whose stream folds. *)
Lemma load_matching fuel s id c events st :
  store_inv s -> read_stream s (stream_key id) INITIAL = Ok c -> limit < Z.of_nat fuel ->
  Forall2 encodes (stream_of s (stream_key id)) events -> apply_all initial events = Returns st ->
  len (stream_of s (stream_key id)) <= limit ->
  load fuel (fun _ => s) id =
    Some (Returns (Ok (MkRoot id (Some st) (last (versions (stream_of s (stream_key id))))
                         (len (stream_of s (stream_key id)))))).
Proof using decode_encode RS.
  intros Hinv Hread. unfold load, replay_from. simpl. rewrite Hread. eapply (drain_matching SKernel); [|done|done].
  intros r env e Hp Hok. unfold replay_step. by rewrite (encodes_decodes env e Hp Hok).
Qed.

Lemma current_of_head {s} r id :
  store_inv s -> root_version r = head_version (len (stream_of s id)) -> current_of r = len (stream_of s id).
Proof.
  intros Hinv Hv. destruct (stream_of_ok s id Hinv) as (_ & _ & Hb). pose proof (len_nonneg (stream_of s id)).
  change (from_option as_u64 0 (root_version r) = len (stream_of s id)). apply head_version_raw; [lia|done].
Qed.

Lemma save_keeps_match_by (P : PendingEnvelope -> Event -> Prop) {N} s r (es : Events Event N) cv s' r' p :
  (forall b, encode_batch r es cv = Returns (Ok b) -> Forall2 P (PendingBatch.iter b) (iter es)) ->
  store_inv s -> root_matches_by P s r -> save_events s r es cv = (s', r', Returns (Ok p)) ->
  store_inv s' /\ root_matches_by P s' r' /\ root_id r' = root_id r /\
  current_of r' = current_of r + len (iter es) /\
  exists st st', root_state r = Some st /\ apply_all st (iter es) = Returns st' /\ root_state r' = Some st'.
Proof using RS meta_ok.
  intros HP Hinv (evs & st & Henc & Ha & Hst & Hv). unfold save_events.
  destruct (encode_batch r es cv) as [[b|e0]|] eqn:Hb; [|done|done]. specialize (HP b eq_refl).
  apply encode_batch_spec in Hb as (Hbenc & _ & Hok & v & Hcv).
  destruct (append s (stream_key (root_id r)) (root_version r) b) as [s1 [[q|e1]|]] eqn:Ea; [|done|done].
  destruct (append_committed _ _ _ _ _ _ Hinv Hok Ea) as (Hinv1 & _ & Hstr & _).
  destruct (commit_persisted r es) as [r1 [[[]|k]|]] eqn:Hc; [|done|done]. intros [= <- <- <-].
  apply commit_ok in Hc as (s0 & s2 & w & Hs0 & Ha2 & Hw & ->). rewrite Hst in Hs0. injection Hs0 as <-.
  destruct (stream_of_ok s1 (stream_key (root_id r)) Hinv1) as (_ & _ & Hbnd).
  assert (Some w = head_version (len (stream_of s1 (stream_key (root_id r))))) as Hhead.
  { apply head_version_raw; [unfold len in *; lia|]. simpl.
    rewrite Hw, (current_of_head r _ Hinv Hv), Hstr, len_app. unfold len. by rewrite (Forall2_length _ _ _ Hbenc). }
  split_and!; [done| |done|unfold current_of at 1; simpl; lia|by exists st, s2].
  exists (evs ++ iter es), s2. split_and!; [|by rewrite apply_all_app, Ha|done|done].
  simpl. rewrite Hstr. by apply Forall2_app.
Qed.

Lemma save_keeps_match {N} s r (es : Events Event N) cv s' r' p :
  store_inv s -> root_matches s r -> save_events s r es cv = (s', r', Returns (Ok p)) ->
  store_inv s' /\ root_matches s' r' /\ root_id r' = root_id r /\
  current_of r' = current_of r + len (iter es) /\
  exists st st', root_state r = Some st /\ apply_all st (iter es) = Returns st' /\ root_state r' = Some st'.
Proof using RS decode_encode meta_ok. apply save_keeps_match_by. intros b Hb%encode_batch_spec. apply Hb. Qed.

(** C2: saving on a root that matches its stream leaves a root that
    matches the longer stream, and loading the aggregate again from the store
    gives the same state at the same version, as long as the stream fits the
    replay budget and the codec decodes what it encodes. *)
Theorem save_then_load {N} s r (es : Events Event N) cv s' r' p fuel c :
  store_inv s -> root_matches s r -> save_events s r es cv = (s', r', Returns (Ok p)) ->
  read_stream s' (stream_key (root_id r)) INITIAL = Ok c -> limit < Z.of_nat fuel ->
  len (stream_of s' (stream_key (root_id r))) <= limit ->
  root_matches s' r' /\ current_of r' = current_of r + len (iter es) /\
  exists r2, load fuel (fun _ => s') (root_id r) = Some (Returns (Ok r2)) /\
    root_state r2 = root_state r' /\ root_version r2 = root_version r'.
Proof using RS decode_encode meta_ok.
  intros Hinv Hm E Hread Hfuel Hle.
  destruct (save_keeps_match _ _ _ _ _ _ _ Hinv Hm E) as (Hinv' & Hm' & Hid & Hcur & _).
  split_and!; [done|done|]. destruct Hm' as (evs & st & Henc & Ha & Hst & Hv). rewrite Hid in *.
  destruct (stream_of_ok s' (stream_key (root_id r)) Hinv') as (_ & Hcons & Hbnd).
  eexists. split; [by eapply load_matching|]. simpl. split; [done|]. by rewrite last_version.
Qed.

End event_store.
