(* ===== verification/Transforms.v ===== *)
(** * The [transforms] macro and the upcaster it generates
      (crates/macros/src/transform.rs)

    An application declares its schema migrations as functions, one per step of one
    event's schema, and [#[transforms]] turns the impl block into an [upcast] function
    and a [current_version] table.  [expand] is the macro: it reads the arguments, checks
    the impl and every function, and validates the graph of migrations.  What it emits is
    kept as data ([Generated]), and [upcast] and [current_version] give that data the
    meaning of the emitted Rust.

    [syn]'s tree is kept as far as the macro looks at it; the parsers of types and
    literals are parameters.  Spans of errors, and the tokens of user code that are only
    copied, are left out. *)

From Stdlib Require Import String.
From S2P Require Import Prelude Utf8 Ordered ErrorId Version Value Wire Envelope RawStore Aggregate Repository.
Close Scope string_scope.
Open Scope list_scope.

(** ** What the macro sees *)

(** [syn]: literals and types as the macro parses them. *)
Class Syn := {
  Tokens : Type;
  TypeAst : Type;
  LitInt : Type;
  SynError : Type;
  parse_type : Tokens -> result TypeAst SynError;
  parse_str : Tokens -> result bytes SynError;
  parse_int : Tokens -> result LitInt SynError;
  (** [LitInt::base10_parse::<u32>]: the literal's value, if a [u32] can hold it. *)
  base10_parse : LitInt -> result Z SynError;
  base10_parse_range l n : base10_parse l = Ok n -> 0 <= n <= u32_max;
}.

Section syntax.
Context {Sy : Syn}.

(** [name = value]: the path, if it is a single identifier, and what follows it. *)
Record Meta : Type := MkMeta { meta_ident : option bytes; meta_value : Tokens }.
(** A list of arguments, and the error at which [syn] stops reading it. *)
Record MetaList : Type := MkMetaList { ml_items : list Meta; ml_error : option SynError }.
Record Attribute : Type := MkAttribute { at_ident : option bytes; at_args : MetaList }.
Inductive FnArg : Type := Receiver | Typed.
Record Signature : Type := MkSignature {
  sg_ident : bytes;
  sg_generics : bool;
  sg_where : bool;
  sg_async : bool;
  sg_unsafe : bool;
  sg_const : bool;
  sg_abi : bool;
  sg_variadic : bool;
  sg_inputs : list FnArg;
  sg_returns : bool;
}.
Record ImplItemFn : Type := MkFn { fn_attrs : list Attribute; fn_sig : Signature }.
Inductive ImplItem : Type :=
| ItemFn (f : ImplItemFn)
| ItemConst (ident : bytes)
| ItemOther.
(** The segments of a path, each with whether it has generic arguments. *)
Record TypePath : Type := MkTypePath { tp_qself : bool; tp_leading_colon : bool; tp_segments : list (bytes * bool) }.
Inductive SelfTy : Type := TyPath (p : TypePath) | TyOther.
Record ItemImpl : Type := MkItemImpl {
  im_attrs : list Attribute;
  im_generics : bool;
  im_where : bool;
  im_trait : bool;
  im_unsafe : bool;
  im_default : bool;
  im_self : SelfTy;
  im_items : list ImplItem;
}.

Inductive MacroError : Type :=
| SynFailed (e : SynError)
| DuplicateArgument
| UnexpectedArgument
| RequiredArgument (name : bytes)
| MarkerGenerics
| NotInherentImpl
| MarkerNotPlain
| MarkerUnnamed
| MethodGenerics
| MethodNotOrdinary
| MethodInputs
| MethodReturnsNothing
| MethodConditional
| DuplicateAttribute
| FromZero
| ToZero
| PastLastSchema
| NonContiguous (destination next : Z)
| UnsupportedItem
| ReservedName
| DuplicateTransform (event : bytes) (from : Z)
| NoTransformProduces (event : bytes) (from : Z)
| StopsBeforeLatest (event : bytes) (schema : Z).

Definition is_ident (i : option bytes) (name : string) : bool := bool_decide (i = Some (text name)).

(** ** Arguments *)

Definition optional_argument {T} (parse : Tokens -> result T SynError) (slot : option T) (meta : Meta) : result (option T) MacroError :=
  match slot with
  | Some _ => Err DuplicateArgument
  | None => result_map Some (map_err SynFailed (parse (meta_value meta)))
  end.

(** [syn::meta::parser]: the closure on each argument in turn, then the error the list
    ends with, if any. *)
Fixpoint parse_metas {St} (f : St -> Meta -> result St MacroError) (st : St) (items : list Meta) (error : option SynError) : result St MacroError :=
  match items with
  | [] => match error with Some e => Err (SynFailed e) | None => Ok st end
  | meta :: items => let? st := f st meta in parse_metas f st items error
  end.

Definition error_args (slots : option TypeAst * option TypeAst) (meta : Meta) : result (option TypeAst * option TypeAst) MacroError :=
  let '(aggregate, error) := slots in
  if is_ident (meta_ident meta) "aggregate" then
    let? aggregate := optional_argument parse_type aggregate meta in Ok (aggregate, error)
  else if is_ident (meta_ident meta) "error" then
    let? error := optional_argument parse_type error meta in Ok (aggregate, error)
  else Err UnexpectedArgument.

Definition error_type (args : MetaList) : result TypeAst MacroError :=
  let? (aggregate, error) := parse_metas error_args (None, None) (ml_items args) (ml_error args) in
  let? _ := ok_or aggregate (RequiredArgument (text "aggregate")) in
  ok_or error (RequiredArgument (text "error")).

Definition marker_name (ast : ItemImpl) : result bytes MacroError :=
  if im_generics ast || im_where ast then Err MarkerGenerics
  else if im_trait ast || im_unsafe ast || im_default ast then Err NotInherentImpl
  else
    match im_self ast with
    | TyOther => Err MarkerNotPlain
    | TyPath path =>
        match tp_segments path with
        | [] => Err MarkerUnnamed
        | (ident, arguments) :: rest =>
            if tp_qself path || tp_leading_colon path || negb (bool_decide (rest = [])) || arguments then Err MarkerNotPlain
            else Ok ident
        end
    end.

(** ** The functions *)

Record Transform : Type := MkTransform {
  tr_method : bytes;
  tr_event : bytes;
  tr_from : Z;
  tr_to : Z;
  tr_rename : option bytes;
}.

Definition destination (t : Transform) : bytes := default (tr_event t) (tr_rename t).

(** [Signature::receiver]. *)
Definition receiver (sig : Signature) : bool := match sg_inputs sig with Receiver :: _ => true | _ => false end.

Definition conditional (a : Attribute) : bool := is_ident (at_ident a) "cfg" || is_ident (at_ident a) "cfg_attr".

Definition validate_method (method : ImplItemFn) : result () MacroError :=
  let sig := fn_sig method in
  if sg_generics sig || sg_where sig then Err MethodGenerics
  else if sg_async sig || sg_unsafe sig || sg_const sig || sg_abi sig || sg_variadic sig then Err MethodNotOrdinary
  else if negb (len (sg_inputs sig) =? 1) || receiver sig then Err MethodInputs
  else if negb (sg_returns sig) then Err MethodReturnsNothing
  else if existsb conditional (fn_attrs method) then Err MethodConditional
  else Ok ().

Record Slots : Type := MkSlots { sl_event : option bytes; sl_from : option LitInt; sl_to : option LitInt; sl_rename : option bytes }.

Definition transform_args (s : Slots) (meta : Meta) : result Slots MacroError :=
  if is_ident (meta_ident meta) "event" then
    let? event := optional_argument parse_str (sl_event s) meta in Ok (MkSlots event (sl_from s) (sl_to s) (sl_rename s))
  else if is_ident (meta_ident meta) "from" then
    let? from := optional_argument parse_int (sl_from s) meta in Ok (MkSlots (sl_event s) from (sl_to s) (sl_rename s))
  else if is_ident (meta_ident meta) "to" then
    let? to := optional_argument parse_int (sl_to s) meta in Ok (MkSlots (sl_event s) (sl_from s) to (sl_rename s))
  else if is_ident (meta_ident meta) "rename" then
    let? rename := optional_argument parse_str (sl_rename s) meta in Ok (MkSlots (sl_event s) (sl_from s) (sl_to s) rename)
  else Err UnexpectedArgument.

(** The body of the loop over the attributes, for a [#[transform]] attribute. *)
Definition one_transform (method : ImplItemFn) (attribute : Attribute) : result Transform MacroError :=
  let? _ := validate_method method in
  let? slots := parse_metas transform_args (MkSlots None None None None) (ml_items (at_args attribute)) (ml_error (at_args attribute)) in
  let? event := ok_or (sl_event slots) (RequiredArgument (text "event")) in
  let? from := ok_or (sl_from slots) (RequiredArgument (text "from")) in
  let? to := ok_or (sl_to slots) (RequiredArgument (text "to")) in
  let? source := map_err SynFailed (base10_parse from) in
  if source =? 0 then Err FromZero
  else
    let? dest := map_err SynFailed (base10_parse to) in
    if dest =? 0 then Err ToZero
    else
      let? next := ok_or (checked_add u32_max source 1) PastLastSchema in
      if negb (dest =? next) then Err (NonContiguous dest next)
      else Ok (MkTransform (sg_ident (fn_sig method)) event source dest (sl_rename slots)).

Fixpoint transform_attrs (method : ImplItemFn) (definition : option Transform) (attrs : list Attribute) : result (option Transform) MacroError :=
  match attrs with
  | [] => Ok definition
  | attribute :: attrs =>
      if negb (is_ident (at_ident attribute) "transform") then transform_attrs method definition attrs
      else
        match definition with
        | Some _ => Err DuplicateAttribute
        | None => let? t := one_transform method attribute in transform_attrs method (Some t) attrs
        end
  end.

Definition transform (method : ImplItemFn) : result (option Transform) MacroError := transform_attrs method None (fn_attrs method).

Definition reserved (name : bytes) : bool := bool_decide (name = text "upcast") || bool_decide (name = text "current_version").

Fixpoint definitions (items : list ImplItem) : result (list Transform) MacroError :=
  match items with
  | [] => Ok []
  | ItemOther :: _ => Err UnsupportedItem
  | ItemConst name :: items => if reserved name then Err ReservedName else definitions items
  | ItemFn method :: items =>
      if reserved (sg_ident (fn_sig method)) then Err ReservedName
      else
        let? definition := transform method in
        let? rest := definitions items in
        Ok (option_list definition ++ rest)
  end.

(** ** The graph of migrations *)

(** A schema of an event. *)
Definition Node : Type := bytes * Z.
Definition source_of (e : Transform) : Node := (tr_event e, tr_from e).
Definition target_of (e : Transform) : Node := (destination e, tr_to e).

(** The first loop: every source once, and the latest schema of every name. *)
Fixpoint collect_versions (sources : gset Node) (versions : list (bytes * Z)) (edges : list Transform)
  : result (gset Node * list (bytes * Z)) MacroError :=
  match edges with
  | [] => Ok (sources, versions)
  | edge :: edges =>
      if bool_decide (source_of edge ∈ sources) then Err (DuplicateTransform (tr_event edge) (tr_from edge))
      else
        collect_versions ({[source_of edge]} ∪ sources)
          (entry_max (destination edge) (tr_to edge) (entry_max (tr_event edge) (tr_from edge) versions)) edges
  end.

Fixpoint check_produced (targets : gset Node) (edges : list Transform) : result () MacroError :=
  match edges with
  | [] => Ok ()
  | edge :: edges =>
      if negb (tr_from edge =? 1) && negb (bool_decide (source_of edge ∈ targets)) then Err (NoTransformProduces (tr_event edge) (tr_from edge))
      else check_produced targets edges
  end.

(** A declared schema below the latest of its name that no function migrates. *)
Definition stops (versions : list (bytes * Z)) (sources : gset Node) (node : Node) : bool :=
  from_option (fun latest => node.2 <? latest) false (get node.1 versions) && negb (bool_decide (node ∈ sources)).

Fixpoint check_continued (versions : list (bytes * Z)) (sources : gset Node) (edges : list Transform) : result () MacroError :=
  match edges with
  | [] => Ok ()
  | edge :: edges =>
      if stops versions sources (source_of edge) then Err (StopsBeforeLatest (tr_event edge) (tr_from edge))
      else if stops versions sources (target_of edge) then Err (StopsBeforeLatest (destination edge) (tr_to edge))
      else check_continued versions sources edges
  end.

Definition validate_graph (edges : list Transform) : result (list (bytes * Z)) MacroError :=
  let targets := list_to_set (target_of <$> edges) in
  let? (sources, versions) := collect_versions ∅ [] edges in
  let? _ := check_produced targets edges in
  let? _ := check_continued versions sources edges in
  Ok versions.

(** ** The emitted code *)

(** [(event, v) if v.get() == from => { .. }]. *)
Record MatchArm : Type := MkMatchArm { ma_event : bytes; ma_from : Z; ma_method : bytes; ma_destination : bytes; ma_to : Z }.

Record Generated : Type := MkGenerated {
  gen_attrs : list Attribute;
  gen_name : bytes;
  gen_error : TypeAst;
  gen_methods : list ImplItem;
  gen_matches : list MatchArm;
  gen_guards : list (bytes * Z);
  gen_versions : list (bytes * Z);
}.

Definition match_arms (edges : list Transform) : list MatchArm :=
  (fun e => MkMatchArm (tr_event e) (tr_from e) (tr_method e) (destination e) (tr_to e)) <$> edges.

(** One arm per entry of the map: the event and its latest schema. *)
Definition version_arms (versions : list (bytes * Z)) : list (bytes * Z) := versions.
Definition schema_guards (versions : list (bytes * Z)) : list (bytes * Z) := versions.

Definition strip_transform (item : ImplItem) : ImplItem :=
  match item with
  | ItemFn method => ItemFn (MkFn (filter (fun a => negb (is_ident (at_ident a) "transform")) (fn_attrs method)) (fn_sig method))
  | item => item
  end.

Definition expand (ast : ItemImpl) (args : MetaList) : result Generated MacroError :=
  let? error := error_type args in
  let? name := marker_name ast in
  let? edges := definitions (im_items ast) in
  let? schemas := validate_graph edges in
  Ok (MkGenerated (im_attrs ast) name error (strip_transform <$> im_items ast) (match_arms edges) (schema_guards schemas) (version_arms schemas)).
End syntax.

(** ** What the emitted code does *)

Inductive TransformError (E : Type) : Type :=
| TransformFailed (e : E)
| UnsupportedSchema (event_type : ErrorId) (schema : SchemaVersion).
Arguments TransformFailed {E} e.
Arguments UnsupportedSchema {E} event_type schema.

Section generated.
Context {Sy : Syn} {AS : ArrayString} {E : Type}.
(** The functions of the impl block, by their names. *)
Context (call : bytes -> bytes -> result bytes E).

(** [match (morsel.event_type(), morsel.schema_version()) { .. }]. *)
Inductive Turn : Type :=
| Again (m : EventMorsel)
| Leave
| Return (e : TransformError E).

Definition arm_matches (m : EventMorsel) (a : MatchArm) : bool :=
  bool_decide (ma_event a = EventMorsel.event_type m) && (SchemaVersion.get (EventMorsel.schema_version m) =? ma_from a).

Definition turn (g : Generated) (m : EventMorsel) : panicking Turn :=
  match head (filter (fun a => arm_matches m a) (gen_matches g)) with
  | Some a =>
      match call (ma_method a) (EventMorsel.payload m) with
      | Err e => Returns (Return (TransformFailed e))
      | Ok payload =>
          match SchemaVersion.from_u32 (ma_to a) with
          | Ok schema => Returns (Again (EventMorsel.new (ma_destination a) schema payload))
          | Err _ => Panics
          end
      end
  | None =>
      match get (EventMorsel.event_type m) (gen_guards g) with
      | Some latest =>
          if SchemaVersion.get (EventMorsel.schema_version m) =? latest then Returns Leave
          else Returns (Return (UnsupportedSchema (from_display DEFAULT_ERROR_ID_CAP [EventMorsel.event_type m]) (EventMorsel.schema_version m)))
      | None => Returns Leave
      end
  end.

(** [upcast]: the loop, at most [fuel] turns of it. *)
Fixpoint upcast (g : Generated) (fuel : nat) (m : EventMorsel) : option (outcome EventMorsel (TransformError E)) :=
  match fuel with
  | O => None
  | Datatypes.S fuel =>
      match turn g m with
      | Panics => Some Panics
      | Returns (Return e) => Some (Returns (Err e))
      | Returns Leave => Some (Returns (Ok m))
      | Returns (Again m) => upcast g fuel m
      end
  end.

Definition current_version (g : Generated) (event_type : bytes) : panicking (option SchemaVersion) :=
  match get event_type (gen_versions g) with
  | None => Returns None
  | Some version => match SchemaVersion.from_u32 version with Ok sv => Returns (Some sv) | Err _ => Panics end
  end.
End generated.

(** ** What a valid graph is *)

(** The schemas that the functions mention. *)
Definition nodes (edges : list Transform) : list Node := edges ≫= (fun e => [source_of e; target_of e]).

(** What one function's attribute may declare. *)
Definition edge_ok (e : Transform) : Prop := 1 <= tr_from e /\ tr_to e = tr_from e + 1 /\ tr_to e <= u32_max.

Definition is_latest (edges : list Transform) (n : Node) : Prop := n ∈ nodes edges /\ forall v, (n.1, v) ∈ nodes edges -> v <= n.2.

Record graph_ok (edges : list Transform) : Prop := MkGraphOk {
  go_sources : NoDup (source_of <$> edges);
  go_produced e : e ∈ edges -> tr_from e = 1 \/ source_of e ∈ target_of <$> edges;
  go_continued n v : n ∈ nodes edges -> (n.1, v) ∈ nodes edges -> n.2 < v -> n ∈ source_of <$> edges;
}.

Lemma nodes_elem n edges : n ∈ nodes edges <-> exists e, e ∈ edges /\ (n = source_of e \/ n = target_of e).
Proof.
  unfold nodes. rewrite list_elem_of_bind. setoid_rewrite elem_of_cons. setoid_rewrite list_elem_of_singleton. naive_solver.
Qed.

Lemma nodes_source e edges : e ∈ edges -> source_of e ∈ nodes edges.
Proof. intros He. apply nodes_elem. eauto. Qed.

Lemma nodes_target e edges : e ∈ edges -> target_of e ∈ nodes edges.
Proof. intros He. apply nodes_elem. eauto. Qed.

Lemma nodes_snoc edges e : nodes (edges ++ [e]) = nodes edges ++ [source_of e; target_of e].
Proof. unfold nodes. by rewrite bind_app. Qed.

(** A table of the highest version of every name among some nodes. *)
Definition table_of (ns : list Node) (versions : list (bytes * Z)) : Prop :=
  sorted versions.*1 /\ forall name,
    match get name versions with
    | Some v => (name, v) ∈ ns /\ forall v', (name, v') ∈ ns -> v' <= v
    | None => forall v, (name, v) ∉ ns
    end.

Lemma table_insert ns versions name v :
  table_of ns versions -> table_of (ns ++ [(name, v)]) (entry_max name v versions).
Proof.
  intros [Hs Ht]. split; [by apply entry_max_keys|]. intros k. rewrite get_max by done.
  specialize (Ht k). assert (forall u, (k, u) ∈ ns ++ [(name, v)] <-> (k, u) ∈ ns \/ (k = name /\ u = v)) as Hel.
  { intros u. rewrite elem_of_app, list_elem_of_singleton. naive_solver. }
  destruct (cmp k name) eqn:Hc; [apply cmp_eq in Hc as ->|..]; cycle 1.
  1,2: assert (k <> name) by (intros ->; by rewrite cmp_refl in Hc); destruct (get k versions); setoid_rewrite Hel; naive_solver.
  destruct (get name versions) as [w|]; cbn; setoid_rewrite Hel; [|naive_solver lia]. destruct Ht as [Hin Hmax]. split.
  - destruct (Z.max_spec w v) as [[_ ->]|[_ ->]]; [by right|by left].
  - intros u [Hu|[_ ->]]; [specialize (Hmax u Hu)|]; lia.
Qed.

(** ** Validation decides the graphs *)

Section validation.
Context {Sy : Syn}.

Lemma collect_versions_spec edges0 sources versions edges :
  NoDup (source_of <$> edges0) -> (forall n, n ∈ sources <-> n ∈ source_of <$> edges0) -> table_of (nodes edges0) versions ->
  match collect_versions sources versions edges with
  | Ok (sources', versions') =>
      NoDup (source_of <$> edges0 ++ edges) /\ (forall n, n ∈ sources' <-> n ∈ source_of <$> edges0 ++ edges) /\
      table_of (nodes (edges0 ++ edges)) versions'
  | Err e => exists l1 t l2, edges = l1 ++ t :: l2 /\ source_of t ∈ source_of <$> edges0 ++ l1 /\ e = DuplicateTransform (tr_event t) (tr_from t)
  end.
Proof.
  revert edges0 sources versions. induction edges as [|e edges IH]; intros edges0 sources versions Hnd Hs Ht; cbn [collect_versions].
  { by rewrite app_nil_r. }
  case_bool_decide as Hin.
  { exists [], e, edges. rewrite app_nil_r. split_and!; [done|by apply Hs|done]. }
  specialize (IH (edges0 ++ [e]) ({[source_of e]} ∪ sources) (entry_max (destination e) (tr_to e) (entry_max (tr_event e) (tr_from e) versions))).
  rewrite <- app_assoc in IH. cbn [app] in IH.
  assert (source_of <$> edges0 ++ [e] = (source_of <$> edges0) ++ [source_of e]) as Hmap by by rewrite fmap_app.
  destruct (collect_versions _ _ edges) as [[s' v']|err]; [apply IH|destruct IH as (l1 & t & l2 & -> & Ht' & ->)].
  1,4: rewrite Hmap; apply NoDup_app; split_and!; [done|intros n Hn ->%list_elem_of_singleton; apply Hin, Hs, Hn|apply NoDup_singleton].
  1,3: intros n; rewrite Hmap, elem_of_union, elem_of_singleton, elem_of_app, list_elem_of_singleton, Hs; tauto.
  1,2: rewrite nodes_snoc; change [source_of e; target_of e] with ([source_of e] ++ [target_of e]); rewrite app_assoc; by do 2 apply table_insert.
  exists (e :: l1), t, l2. by rewrite <- app_assoc in Ht'.
Qed.

Lemma check_produced_spec targets edges :
  match check_produced targets edges with
  | Ok _ => forall e, e ∈ edges -> tr_from e = 1 \/ source_of e ∈ targets
  | Err err => exists e, e ∈ edges /\ tr_from e <> 1 /\ source_of e ∉ targets /\ err = NoTransformProduces (tr_event e) (tr_from e)
  end.
Proof.
  induction edges as [|e edges IH]; cbn [check_produced]; [by intros e ?%elem_of_nil|].
  destruct (Z.eqb_spec (tr_from e) 1) as [H1|H1]; cbn [negb andb];
    [|case_bool_decide as Hin; cbn [negb]; [|exists e; split_and!; [left|..]; done]];
    (destruct (check_produced targets edges); [intros t [->|Ht]%elem_of_cons; [tauto|by apply IH]
      |destruct IH as (t & Ht & ?); exists t; split; [by right|done]]).
Qed.

Lemma stops_spec edges versions sources n :
  table_of (nodes edges) versions -> (forall n, n ∈ sources <-> n ∈ source_of <$> edges) -> n ∈ nodes edges ->
  stops versions sources n = true <-> (exists v, (n.1, v) ∈ nodes edges /\ n.2 < v) /\ n ∉ source_of <$> edges.
Proof.
  intros [_ Ht] Hs Hn. unfold stops. rewrite andb_true_iff, negb_true_iff, bool_decide_eq_false, Hs. specialize (Ht n.1).
  destruct (get n.1 versions) as [w|]; [|by destruct n as [name v]; apply Ht in Hn]. cbn. rewrite Z.ltb_lt.
  destruct Ht as [Hw Hmax]. split; [intros [? ?]; eauto|]. intros [(v & Hv & ?) ?]. specialize (Hmax v Hv). split; [lia|done].
Qed.

Lemma check_continued_spec all versions sources edges :
  table_of (nodes all) versions -> (forall n, n ∈ sources <-> n ∈ source_of <$> all) -> (forall e, e ∈ edges -> e ∈ all) ->
  match check_continued versions sources edges with
  | Ok _ => forall n v, n ∈ nodes edges -> (n.1, v) ∈ nodes all -> n.2 < v -> n ∈ source_of <$> all
  | Err err => exists n, n ∈ nodes edges /\ (exists v, (n.1, v) ∈ nodes all /\ n.2 < v) /\ n ∉ source_of <$> all /\ err = StopsBeforeLatest n.1 n.2
  end.
Proof.
  intros Ht Hs. induction edges as [|e edges IH]; intros Hall; cbn [check_continued]; [by intros n v ?%elem_of_nil|].
  assert (e ∈ all) as He by (apply Hall; left).
  assert (forall n, n ∈ nodes (e :: edges) <-> n = source_of e \/ n = target_of e \/ n ∈ nodes edges) as Hn.
  { intros n. change (nodes (e :: edges)) with ([source_of e; target_of e] ++ nodes edges). rewrite elem_of_app, !elem_of_cons, elem_of_nil. tauto. }
  pose proof (stops_spec all versions sources (source_of e) Ht Hs (nodes_source _ _ He)) as H1.
  pose proof (stops_spec all versions sources (target_of e) Ht Hs (nodes_target _ _ He)) as H2.
  destruct (stops versions sources (source_of e)).
  { destruct (proj1 H1 eq_refl). exists (source_of e). split_and!; [apply Hn; tauto|done..]. }
  destruct (stops versions sources (target_of e)).
  { destruct (proj1 H2 eq_refl). exists (target_of e). split_and!; [apply Hn; tauto|done..]. }
  specialize (IH (fun t Ht' => Hall t (list_elem_of_further t e edges Ht'))). destruct (check_continued versions sources edges) as [[]|err].
  - intros n v [->|[->|Hin]]%Hn Hv Hlt; [..|by eapply IH].
    + destruct (decide (source_of e ∈ source_of <$> all)); [done|]. exfalso. assert (false = true) by (apply H1; eauto). done.
    + destruct (decide (target_of e ∈ source_of <$> all)); [done|]. exfalso. assert (false = true) by (apply H2; eauto). done.
  - destruct IH as (n & Hin & ?). exists n. split; [apply Hn; tauto|done].
Qed.

(** A rejection names a schema that shows what is wrong. *)
Lemma validate_graph_spec edges :
  match validate_graph edges with
  | Ok versions => graph_ok edges /\ table_of (nodes edges) versions
  | Err (DuplicateTransform event from) =>
      exists i j t u, (i < j)%nat /\ edges !! i = Some t /\ edges !! j = Some u /\ source_of t = (event, from) /\ source_of u = (event, from)
  | Err (NoTransformProduces event from) => from <> 1 /\ (event, from) ∈ source_of <$> edges /\ (event, from) ∉ target_of <$> edges
  | Err (StopsBeforeLatest event v) =>
      (event, v) ∈ nodes edges /\ (exists w, (event, w) ∈ nodes edges /\ v < w) /\ (event, v) ∉ source_of <$> edges
  | Err _ => False
  end.
Proof.
  unfold validate_graph. assert (table_of (nodes []) []) as H0 by (split; [done|by intros name v ?%elem_of_nil]).
  pose proof (collect_versions_spec [] ∅ [] edges ltac:(constructor) ltac:(set_solver) H0) as Hc. cbn [app] in Hc.
  destruct (collect_versions ∅ [] edges) as [[sources versions]|err]; cbn [result_bind].
  2: { destruct Hc as (l1 & t & l2 & -> & (u & Hu & Hl)%list_elem_of_fmap & ->). apply list_elem_of_lookup in Hl as [i Hi].
       exists i, (length l1), u, t. pose proof (lookup_lt_Some _ _ _ Hi). split_and!; [done|by apply lookup_app_l_Some|by apply list_lookup_middle|by rewrite <- Hu|done]. }
  destruct Hc as (Hnd & Hs & Ht).
  pose proof (check_produced_spec (list_to_set (target_of <$> edges)) edges) as Hp.
  destruct (check_produced _ edges) as [[]|err]; cbn [result_bind].
  2: { destruct Hp as (e & He & H1 & Hno & ->). rewrite elem_of_list_to_set in Hno. split_and!; [done|exact (list_elem_of_fmap_2 source_of _ _ He)|done]. }
  pose proof (check_continued_spec edges versions sources edges Ht Hs ltac:(done)) as Hk.
  destruct (check_continued versions sources edges) as [[]|err]; cbn [result_bind].
  - split; [|done]. split; [done| |done]. intros e He. destruct (Hp e He) as [|Hin]; [by left|right]. by rewrite elem_of_list_to_set in Hin.
  - destruct Hk as ([name v] & Hn & Hlater & Hno & ->). done.
Qed.

(** C39: the macro accepts a set of migrations exactly when it is a valid graph: no two
    functions start from the same schema of an event, every function but those of schema
    1 starts where another one ends, and no schema below the latest of its name is left
    without a function.  The table it then computes has the latest schema of every name
    that occurs, and of no other name. *)
Theorem validate_graph_exact edges :
  (exists versions, validate_graph edges = Ok versions /\ table_of (nodes edges) versions) <-> graph_ok edges.
Proof.
  pose proof (validate_graph_spec edges) as Hv. split; [intros (versions & E & _); rewrite E in Hv; apply Hv|]. intros [Hnd Hp Hc].
  destruct (validate_graph edges) as [versions|err]; [exists versions; split; [done|apply Hv]|exfalso].
  destruct err as [e| | |name| | | | | | | | | | | | | |d n| | |event from|event from|event v]; try done.
  - destruct Hv as (i & j & t & u & Hij & Hi & Hj & Ht & Hu).
    assert (i = j); [|lia]. eapply (NoDup_lookup _ i j (event, from) Hnd); rewrite list_lookup_fmap; [by rewrite Hi, <- Ht|by rewrite Hj, <- Hu].
  - destruct Hv as (H1 & (e & [= -> ->] & He)%list_elem_of_fmap & Hno). by destruct (Hp e He).
  - destruct Hv as (Hn & (w & Hw & Hlt) & Hno). by apply Hno, (Hc _ w).
Qed.

(** ** The attributes *)

Lemma one_transform_ok method attribute t : one_transform method attribute = Ok t -> edge_ok t /\ tr_method t = sg_ident (fn_sig method).
Proof.
  unfold one_transform. intros (? & _ & (slots & _ & (event & _ & (from & _ & (to & _ & (source & Hs & H)%result_bind_Ok)%result_bind_Ok)%result_bind_Ok)%result_bind_Ok)%result_bind_Ok)%result_bind_Ok.
  assert (base10_parse from = Ok source) as Hf by (destruct (base10_parse from); naive_solver). apply base10_parse_range in Hf.
  destruct (Z.eqb_spec source 0); [done|]. apply result_bind_Ok in H as (dest & _ & H). destruct (dest =? 0); [done|].
  apply result_bind_Ok in H as (next & Hn & H). destruct (checked_add u32_max source 1) as [w|] eqn:Hw; [|done]. injection Hn as ->.
  apply checked_add_Some in Hw as [-> Hw]. destruct (Z.eqb_spec dest (source + 1)) as [->|]; [|done]. injection H as <-. split; [split_and!; cbn; lia|done].
Qed.

Lemma transform_attrs_ok method attrs definition t :
  from_option (fun d => edge_ok d /\ tr_method d = sg_ident (fn_sig method)) True definition ->
  transform_attrs method definition attrs = Ok (Some t) -> edge_ok t /\ tr_method t = sg_ident (fn_sig method).
Proof.
  revert definition. induction attrs as [|a attrs IH]; intros definition Hd; cbn [transform_attrs]; [by intros [= ->]|].
  destruct (negb _); [by apply IH|]. destruct definition as [d|]; [done|]. intros (u & Hu%one_transform_ok & H)%result_bind_Ok. by apply (IH (Some u)).
Qed.

Lemma definitions_ok items edges : definitions items = Ok edges -> Forall edge_ok edges.
Proof.
  revert edges. induction items as [|item items IH]; intros edges; cbn [definitions]; [by intros [= <-]|].
  destruct item as [f|name|]; [|destruct (reserved name); [done|apply IH]|done]. destruct (reserved _); [done|].
  intros (d & Hd & (rest & Hr & [= <-])%result_bind_Ok)%result_bind_Ok. apply Forall_app. split; [|by apply IH].
  destruct d as [t|]; [|by apply Forall_nil]. apply Forall_singleton. by apply (transform_attrs_ok f (fn_attrs f) None).
Qed.

(** What the macro has checked of a block that it expands. *)
Lemma expand_ok ast args g :
  expand ast args = Ok g ->
  exists edges versions, definitions (im_items ast) = Ok edges /\ Forall edge_ok edges /\ graph_ok edges /\ table_of (nodes edges) versions /\
    gen_matches g = match_arms edges /\ gen_guards g = versions /\ gen_versions g = versions.
Proof.
  unfold expand. intros (error & _ & (name & _ & (edges & He & (versions & Hv & [= <-])%result_bind_Ok)%result_bind_Ok)%result_bind_Ok)%result_bind_Ok.
  pose proof (validate_graph_spec edges) as Hg. rewrite Hv in Hg. exists edges, versions. cbn. split_and!; try done; [by eapply definitions_ok|tauto..].
Qed.
End validation.

(** ** The generated upcaster *)

Definition node (m : EventMorsel) : Node := (EventMorsel.event_type m, SchemaVersion.get (EventMorsel.schema_version m)).

Section upcasts.
Context {Sy : Syn} {AS : ArrayString} {E : Type} (call : bytes -> bytes -> result bytes E).

(** One function has migrated [m] to [m']. *)
Definition migrates (edges : list Transform) (m m' : EventMorsel) : Prop :=
  exists e payload schema, e ∈ edges /\ source_of e = node m /\ call (tr_method e) (EventMorsel.payload m) = Ok payload /\
    SchemaVersion.get schema = tr_to e /\ m' = EventMorsel.new (destination e) schema payload.

Lemma arm_found edges m :
  match head (filter (fun a => arm_matches m a) (match_arms edges)) with
  | Some a => exists e, e ∈ edges /\ source_of e = node m /\ a = MkMatchArm (tr_event e) (tr_from e) (tr_method e) (destination e) (tr_to e)
  | None => node m ∉ source_of <$> edges
  end.
Proof.
  unfold match_arms. induction edges as [|e edges IH]; cbn [fmap list_fmap]; [by intros ?%elem_of_nil|].
  rewrite filter_cons. destruct (decide (Is_true _)) as [Hm|Hm].
  - cbn. exists e. split_and!; [left| |done]. unfold arm_matches in Hm. cbn in Hm. apply Is_true_true, andb_true_iff in Hm as [H1%bool_decide_eq_true H2%Z.eqb_eq].
    unfold source_of, node. by rewrite H1, H2.
  - destruct (head _) as [a|].
    + destruct IH as (t & Ht & ?). exists t. split; [by right|done].
    + rewrite not_elem_of_cons. split; [|done]. intros Heq. apply Hm. unfold arm_matches. cbn. apply Is_true_true, andb_true_iff.
      unfold node, source_of in Heq. injection Heq as H1 H2. split; [by apply bool_decide_eq_true|by apply Z.eqb_eq].
Qed.

Lemma schema_of z : 1 <= z <= u32_max -> exists sv, SchemaVersion.from_u32 z = Ok sv /\ SchemaVersion.get sv = z.
Proof.
  intros Hz. unfold SchemaVersion.from_u32, SchemaVersion.get. destruct (nz_new (max := u32_max) z) as [n|] eqn:Hn; [|by apply nz_new_None in Hn].
  apply nz_new_Some in Hn as ->. by exists (MkSchemaVersion n).
Qed.

(** One turn of the loop. *)
Lemma turn_exact g edges versions m :
  Forall edge_ok edges -> graph_ok edges -> table_of (nodes edges) versions -> gen_matches g = match_arms edges -> gen_guards g = versions ->
  match turn call g m with
  | Panics => False
  | Returns (Again m') => migrates edges m m'
  | Returns (Return (TransformFailed e)) => exists t, t ∈ edges /\ source_of t = node m /\ call (tr_method t) (EventMorsel.payload m) = Err e
  | Returns Leave => node m ∉ source_of <$> edges /\ (is_latest edges (node m) \/ forall v, (EventMorsel.event_type m, v) ∉ nodes edges)
  | Returns (Return (UnsupportedSchema label schema)) =>
      node m ∉ nodes edges /\ (exists v, (EventMorsel.event_type m, v) ∈ nodes edges) /\
      label = from_display DEFAULT_ERROR_ID_CAP [EventMorsel.event_type m] /\ schema = EventMorsel.schema_version m
  end.
Proof.
  intros Hok Hgo [_ Ht] Hm Hg. unfold turn. rewrite Hm, Hg. pose proof (arm_found edges m) as Ha.
  destruct (head _) as [a|]; [destruct Ha as (e & He & Hsrc & ->)|]; cbn [ma_method ma_to ma_destination].
  - destruct (call (tr_method e) (EventMorsel.payload m)) as [p|err] eqn:Hc; [|by exists e].
    rewrite Forall_forall in Hok. destruct (Hok e He) as (H1 & H2 & H3). destruct (schema_of (tr_to e)) as (sv & -> & Hsv); [lia|]. by exists e, p, sv.
  - specialize (Ht (EventMorsel.event_type m)). destruct (get _ versions) as [latest|]; [|by split; [|right]].
    destruct (Z.eqb_spec (SchemaVersion.get (EventMorsel.schema_version m)) latest) as [<-|Hne]; [split; [done|left; exact Ht]|].
    split_and!; [|exists latest; apply Ht|done|done].
    intros Hn. apply Ha. apply (go_continued _ Hgo _ latest Hn); [apply Ht|]. pose proof (proj2 Ht _ Hn). cbn in *. lia.
Qed.

(** Each migration uses up a function: those that start below the schema that has been
    reached cannot run again. *)
Definition ahead (edges : list Transform) (m : EventMorsel) : list Transform :=
  filter (fun e => SchemaVersion.get (EventMorsel.schema_version m) <= tr_from e) edges.

Lemma filter_shorter {X} (P Q : X -> Prop) `{!forall x, Decision (P x), !forall x, Decision (Q x)} l x :
  x ∈ l -> P x -> ~ Q x -> (forall y, Q y -> P y) -> (length (filter Q l) < length (filter P l))%nat.
Proof.
  intros Hx HP HQ Himp. assert (forall l, (length (filter Q l) <= length (filter P l))%nat) as Hle.
  { clear x l Hx HP HQ. induction l as [|y l IH]; [done|]. rewrite !filter_cons. destruct (decide (Q y)) as [Hq|]; [rewrite (decide_True _ _ (Himp y Hq)); cbn; lia|].
    destruct (decide (P y)); cbn; lia. }
  induction Hx as [x l|x y l Hx IH]; rewrite !filter_cons.
  - rewrite (decide_True _ _ HP), (decide_False _ _ HQ). cbn. specialize (Hle l). lia.
  - specialize (IH HP HQ). destruct (decide (Q y)) as [Hq|]; [rewrite (decide_True _ _ (Himp y Hq)); cbn; lia|]. destruct (decide (P y)); cbn; lia.
Qed.

Lemma migrates_ahead edges m m' : Forall edge_ok edges -> migrates edges m m' -> (length (ahead edges m') < length (ahead edges m))%nat.
Proof.
  intros Hok (e & p & sv & He & Hsrc & _ & Hsv & ->). rewrite Forall_forall in Hok. destruct (Hok e He) as (_ & Hto & _).
  injection Hsrc as _ Hfrom. apply (filter_shorter _ _ _ e); cbn [EventMorsel.schema_version EventMorsel.new m_schema_version]; [done|lia..].
Qed.

(** The result of [upcast] on a morsel: the end of its chain of migrations, an event the
    macro knows nothing of unchanged, or the reason why there is none. *)
Definition upcast_result (edges : list Transform) (m : EventMorsel) (r : result EventMorsel (TransformError E)) : Prop :=
  match r with
  | Ok m' =>
      (node m ∈ nodes edges /\ rtc (migrates edges) m m' /\ node m' ∉ source_of <$> edges /\ is_latest edges (node m')) \/
      ((forall v, (EventMorsel.event_type m, v) ∉ nodes edges) /\ m' = m)
  | Err (TransformFailed e) =>
      exists m1 t, rtc (migrates edges) m m1 /\ t ∈ edges /\ source_of t = node m1 /\ call (tr_method t) (EventMorsel.payload m1) = Err e
  | Err (UnsupportedSchema label schema) =>
      node m ∉ nodes edges /\ (exists v, (EventMorsel.event_type m, v) ∈ nodes edges) /\
      label = from_display DEFAULT_ERROR_ID_CAP [EventMorsel.event_type m] /\ schema = EventMorsel.schema_version m
  end.

Lemma migrates_nodes edges m m' : migrates edges m m' -> node m ∈ nodes edges /\ node m' ∈ nodes edges.
Proof.
  intros (e & p & sv & He & Hsrc & _ & Hsv & ->). rewrite <- Hsrc. split; [by apply nodes_source|].
  assert (node (EventMorsel.new (destination e) sv p) = target_of e) as -> by (unfold node, target_of; by rewrite <- Hsv). by apply nodes_target.
Qed.

Lemma upcast_result_step edges m m' r : migrates edges m m' -> upcast_result edges m' r -> upcast_result edges m r.
Proof.
  intros Hm. destruct (migrates_nodes _ _ _ Hm) as [Hn Hn']. destruct r as [m2|[e|label schema]]; cbn.
  - intros [(_ & Hr & Hno & Hl)|[Hno _]]; [left; split_and!; [done|by eapply rtc_l|done|done]|]. by apply Hno in Hn'.
  - intros (m1 & t & Hr & ?). exists m1, t. split; [by eapply rtc_l|done].
  - by intros [Hno _].
Qed.

Lemma upcast_runs g edges versions fuel m :
  Forall edge_ok edges -> graph_ok edges -> table_of (nodes edges) versions -> gen_matches g = match_arms edges -> gen_guards g = versions ->
  (length (ahead edges m) < fuel)%nat ->
  exists r, upcast call g fuel m = Some (Returns r) /\ upcast_result edges m r.
Proof.
  intros Hok Hgo Ht Hm Hg. revert m. induction fuel as [|fuel IH]; intros m Hf; [lia|]. cbn [upcast].
  pose proof (turn_exact g edges versions m Hok Hgo Ht Hm Hg) as Hturn. destruct (turn call g m) as [[m'| |e]|]; [| | |done].
  - pose proof (migrates_ahead _ _ _ Hok Hturn). destruct (IH m' ltac:(lia)) as (r & Hr & Hres). exists r. split; [done|]. by eapply upcast_result_step.
  - exists (Ok m). split; [done|]. destruct Hturn as [Hno [Hl|Hu]]; [left|by right]. split_and!; [apply Hl|reflexivity|done|done].
  - exists (Err e). split; [done|]. destruct e as [e|label schema]; [|done]. destruct Hturn as (t & ?). by exists m, t.
Qed.

(** C32: the upcaster that an accepted block generates always returns, and on a schema
    that the block declares it ends at the latest schema of a declared event, having
    applied the declared functions one after the other; an event of an unknown name comes
    back unchanged; a schema that is not declared of a known name is refused before any
    function runs; and the only other error is that of a function of the block.  No
    [expect] of the emitted code can fail. *)
Theorem generated_upcast_exact ast args g fuel m :
  expand ast args = Ok g -> (length (gen_matches g) < fuel)%nat ->
  exists edges r, definitions (im_items ast) = Ok edges /\ upcast call g fuel m = Some (Returns r) /\ upcast_result edges m r.
Proof.
  intros (edges & versions & Hd & Hok & Hgo & Ht & Hm & Hg & _)%expand_ok Hf. exists edges.
  destruct (upcast_runs g edges versions fuel m Hok Hgo Ht Hm Hg) as (r & Hr & Hres); [|by exists r].
  rewrite Hm in Hf. unfold match_arms in Hf. rewrite length_fmap in Hf. unfold ahead. pose proof (length_filter (fun e => SchemaVersion.get (EventMorsel.schema_version m) <= tr_from e) edges). lia.
Qed.

Lemma current_version_spec g edges versions name :
  Forall edge_ok edges -> table_of (nodes edges) versions -> gen_versions g = versions ->
  exists v, current_version g name = Returns v /\
    match v with Some sv => is_latest edges (name, SchemaVersion.get sv) | None => forall z, (name, z) ∉ nodes edges end.
Proof.
  intros Hok [_ Ht] Hg. unfold current_version. rewrite Hg. specialize (Ht name). destruct (get name versions) as [v|]; [|by exists None].
  destruct (schema_of v) as (sv & -> & Hsv); [|exists (Some sv); split; [done|]; by rewrite Hsv].
  destruct Ht as [(e & He & Hn)%nodes_elem _]. rewrite Forall_forall in Hok. destruct (Hok e He) as (H1 & H2 & H3). destruct Hn as [Hn|Hn]; injection Hn as -> ->; lia.
Qed.
End upcasts.

(** A schema is reached from schema 1 of some event. *)
Definition leads (edges : list Transform) (n n' : Node) : Prop := exists e, e ∈ edges /\ source_of e = n /\ target_of e = n'.

(** Every schema that an accepted block declares is reached by its functions from
    schema 1 of some event. *)
Theorem declared_schemas_reachable {Sy : Syn} ast args g edges n :
  expand ast args = Ok g -> definitions (im_items ast) = Ok edges -> n ∈ nodes edges ->
  exists name, rtc (leads edges) (name, 1) n.
Proof.
  intros (edges' & _ & Hd & Hok & Hgo & _)%expand_ok Hd' Hn. rewrite Hd' in Hd. injection Hd as <-. rewrite Forall_forall in Hok.
  assert (forall k e, e ∈ edges -> tr_from e = Z.of_nat k -> exists name, rtc (leads edges) (name, 1) (source_of e)) as Hsrc.
  { induction k as [|k IH]; intros e He Hk; destruct (Hok e He) as (H1 & _ & _); [lia|].
    destruct (go_produced _ Hgo e He) as [H|(t & Ht & Hin)%list_elem_of_fmap]; [exists (tr_event e); unfold source_of; by rewrite H|].
    destruct (Hok t Hin) as (_ & H2 & _). injection Ht as Hname Hto.
    destruct (IH t Hin ltac:(lia)) as (name & Hr). exists name. eapply rtc_r; [exact Hr|]. exists t. split_and!; [done|done|]. unfold target_of, source_of. by f_equal. }
  apply nodes_elem in Hn as (e & He & Hn). destruct (Hok e He) as (H1 & _ & _).
  destruct (Hsrc (Z.to_nat (tr_from e)) e He ltac:(lia)) as (name & Hr). exists name. destruct Hn as [->| ->]; [done|]. eapply rtc_r; [exact Hr|]. by exists e.
Qed.
