(* ===== verification/Migration.v ===== *)
(** * Loading and saving through a generated upcaster

    The repository's [load_with] and [save_with] ([Repository]) with the functions that
    [#[transforms]] emits ([Transforms]): a stream may hold events of any declared
    schema. *)

From S2P Require Import Prelude Utf8 Ordered ErrorId Version Events Aggregate Value Wire Envelope RawStore Repository Transforms.

(** The emitted functions as the repository calls them.  [generated_upcast_exact] has
    that the loop ends within these turns and does not panic. *)
Definition run_upcast {Sy : Syn} {AS : ArrayString} {E} (call : bytes -> bytes -> result bytes E) (g : Generated) (m : EventMorsel)
  : result EventMorsel (TransformError E) :=
  match upcast call g (Datatypes.S (length (gen_matches g))) m with
  | Some (Returns r) => r
  | _ => Ok m
  end.

Definition schema_table {Sy : Syn} (g : Generated) (name : bytes) : option SchemaVersion :=
  match current_version g name with Returns v => v | Panics => None end.

(** No function takes an event of this name further than its latest schema: the name is
    not one that has been replaced by another. *)
Definition settled (edges : list Transform) (name : bytes) : Prop := forall v, is_latest edges (name, v) -> (name, v) ∉ source_of <$> edges.

Section migration.
Context {T : Target} {A : Aggregate} {S : Type} {R : RawEventStore S} {RS : RawEventStoreSpec S} {C : Codec Event}.
Context (meta : Version -> Event -> Payload -> option Metadata) (meta_ok : forall v e p m, meta v e p = Some m -> metadata_ok m).
Context (decode_encode : forall e b env, encode e = Ok b -> PersistedEnvelope.payload env = b ->
  PersistedEnvelope.event_type env = event_name e -> persisted_ok env -> decode env = Ok e).
Context {Sy : Syn} {AS : ArrayString} {E VerifyErr : Type} (call : bytes -> bytes -> result bytes E).
Context (verify : PersistedEnvelope -> result () VerifyErr) (verify_accepts : forall env, verify env = Ok ()).

Definition morsel_of (pe : PendingEnvelope) : EventMorsel :=
  EventMorsel.borrowed (et_bytes (pe_event_type pe)) (pe_schema_version pe) (pl_bytes (pe_payload pe)).

(** The envelope holds the event [e], at an older schema or at the current one: its
    migrated form is the encoding of [e], and it fits a frame. *)
Definition holds_event (g : Generated) (pe : PendingEnvelope) (e : Event) : Prop :=
  exists m, run_upcast call g (morsel_of pe) = Ok m /\ EventMorsel.event_type m = event_name e /\ encode e = Ok (EventMorsel.payload m) /\
    (m = morsel_of pe \/
     len (EventMorsel.event_type m) <= MAX_EVENT_TYPE_LEN /\ len (EventMorsel.payload m) <= MAX_PAYLOAD_LEN /\
     payload_offset HEADER_FIXED_SIZE (EventMorsel.event_type m) (md_bytes <$> pe_metadata pe) + len (EventMorsel.payload m) <= u32_max).

Lemma upcast_step_replays g :
  step_replays (fun k => LStore (SKernel k)) (upcast_step verify (run_upcast call g)) (holds_event g).
Proof using decode_encode verify_accepts.
  intros r env e (m & Hup & Hname & Henc & Hfit) Hok. unfold upcast_step. rewrite verify_accepts. cbn [map_err outcome_bind].
  change (EventMorsel.borrowed (PersistedEnvelope.event_type env) (ps_schema_version env) (PersistedEnvelope.payload env)) with (morsel_of (from_persisted env)).
  rewrite Hup. cbn [map_err outcome_bind].
  destruct (transformed_decode_exact env (EventMorsel.event_type m) (EventMorsel.schema_version m) (EventMorsel.payload m) Hok) as
    [(c & -> & Hc & Hf)|(err & Herr & Hbig)]; [rewrite Hname; apply event_name_utf8| |].
  - cbn [outcome_map_err map_err outcome_bind].
    rewrite (decode_encode e (EventMorsel.payload m) (cow_get c)); [done|done| | |done].
    + exact (f_equal (fun p => pl_bytes (pe_payload p)) Hf).
    + rewrite <- Hname. exact (f_equal (fun p => et_bytes (pe_event_type p)) Hf).
  - exfalso. destruct Hfit as [->|(H1 & H2 & H3)].
    + unfold PersistedEnvelope.for_transformed_decode in Herr. cbn in Herr. by rewrite !bool_decide_true in Herr.
    + assert (md_bytes <$> pe_metadata (from_persisted env) = PersistedEnvelope.metadata env) as Hmd
        by (cbn; unfold PersistedEnvelope.metadata_value; by destruct (PersistedEnvelope.metadata env)).
      rewrite Hmd in H3. lia.
Qed.

(** What is at its latest schema stays as it is. *)
Lemma upcast_settled ast args g edges name payload :
  expand ast args = Ok g -> definitions (im_items ast) = Ok edges -> settled edges name ->
  let m := EventMorsel.borrowed name (default SchemaVersion.INITIAL (schema_table g name)) payload in
  run_upcast call g m = Ok m.
Proof.
  intros (edges' & versions & Hd & Hok & Hgo & Ht & Hm & Hg & Hv)%expand_ok Hd' Hset m. rewrite Hd' in Hd. injection Hd as <-.
  unfold run_upcast. cbn [upcast]. unfold turn. rewrite Hm, Hg. pose proof (arm_found edges m) as Ha.
  destruct (current_version_spec g edges versions name Hok Ht Hv) as (v & Hcv & Hl).
  assert (m = EventMorsel.borrowed name (default SchemaVersion.INITIAL v) payload) as Hmv by (subst m; unfold schema_table; by rewrite Hcv).
  unfold node in Ha. destruct Ht as [_ Ht]. specialize (Ht name). rewrite Hmv in *. cbn [EventMorsel.event_type EventMorsel.schema_version EventMorsel.borrowed m_event_type m_schema_version cow_get] in *.
  destruct (head _) as [a|].
  - exfalso. destruct Ha as (e & He & Hsrc & _). destruct v as [sv|]; cbn in Hsrc.
    + apply (Hset _ Hl). rewrite <- Hsrc. by apply (list_elem_of_fmap_2 source_of).
    + apply (Hl 1). rewrite <- Hsrc. by apply nodes_source.
  - destruct (get name versions) as [latest|] eqn:Hget; [|done]. destruct v as [sv|]; cbn [from_option id].
    + assert (SchemaVersion.get sv = latest) as ->; [|by rewrite Z.eqb_refl]. destruct Hl as [H1 H2], Ht as [H3 H4]. specialize (H2 _ H3). specialize (H4 _ H1). cbn in *. lia.
    + destruct Ht as [H _]. by apply Hl in H.
Qed.

(** C35: saving through the generated table and loading through the generated upcaster is
    a round trip, on a stream that may hold events of older schemas.  If the macro
    accepts the block, the root is the fold of what its stream holds, migrated, and the
    events decided now do not have a retired name ([settled]), then after a save the
    root again is that fold; and if moreover the stream fits the replay budget, the
    codec decodes what it encodes and the verifier accepts every stored event, a load
    gives the same state at the same version. *)
Theorem migrated_history_roundtrip {N} ast args g edges s r (es : Events Event N) s' r' p fuel c :
  expand ast args = Ok g -> definitions (im_items ast) = Ok edges -> Forall (fun e => settled edges (event_name e)) (iter es) ->
  store_inv s -> root_matches_by (holds_event g) s r -> save_with meta s r es (schema_table g) = (s', r', Returns (Ok p)) ->
  read_stream s' (stream_key (root_id r)) INITIAL = Ok c -> limit < Z.of_nat fuel ->
  len (stream_of s' (stream_key (root_id r))) <= limit ->
  root_matches_by (holds_event g) s' r' /\ current_of r' = current_of r + len (iter es) /\
  exists r2, load_with verify (run_upcast call g) fuel (fun _ => s') (root_id r) = Some (Returns (Ok r2)) /\
    root_state r2 = root_state r' /\ root_version r2 = root_version r'.
Proof using All.
  intros Hg Hd Hset Hinv Hm E1 Hread Hfuel Hle.
  destruct (save_keeps_match_by meta meta_ok (holds_event g) s r es (schema_table g) s' r' p) as (Hinv' & Hm' & Hid & Hcur & _); [|done..|].
  { intros b Hb. pose proof (encode_batch_schema meta meta_ok _ _ _ _ Hb) as Hsch. destruct (encode_batch_spec meta meta_ok _ _ _ _ Hb) as (Henc & _).
    apply Forall2_same_length_lookup_2; [by eapply Forall2_length|]. intros i pe e Hpe He.
    destruct (Forall2_lookup_lr _ _ _ _ _ _ Henc Hpe He) as (_ & Het & Hpl). pose proof (Forall2_lookup_lr _ _ _ _ _ _ Hsch Hpe He) as Hs. cbn in Hs.
    exists (morsel_of pe). split_and!; [|done|done|by left]. unfold morsel_of. rewrite Het, Hs. eapply upcast_settled; [done|done|].
    rewrite Forall_forall in Hset. apply Hset. by eapply list_elem_of_lookup_2. }
  split_and!; [done|done|]. destruct Hm' as (evs & st & Hev & Ha & Hst & Hv). rewrite Hid in *.
  destruct (stream_of_ok s' (stream_key (root_id r)) Hinv') as (_ & Hcons & Hbnd).
  eexists. split.
  - unfold load_with. cbn. rewrite Hread. eapply drain_matching; [apply upcast_step_replays|done..].
  - cbn. split; [done|]. by rewrite last_version.
Qed.
End migration.
