(* ===== verification/Derive.v ===== *)
(** * The [aggregate] and [DomainEvent] macros (crates/macros/src/lib.rs)

    What the two macros accept and what they emit, over the same view of [syn] as
    [Transforms].  The emitted code is kept as data: the associated types of the
    [Aggregate] impl, and the arms of the [name] function of a [DomainEvent]. *)

From Stdlib Require Import String.
From S2P Require Import Prelude Utf8 Value Transforms.
Close Scope string_scope.
Open Scope list_scope.

Inductive Fields : Type := FieldsUnit | FieldsUnnamed | FieldsNamed.

Inductive Data : Type :=
| DataEnum (variants : list (bytes * Fields))
| DataStruct (fields : Fields)
| DataUnion.

Record DeriveInput : Type := MkDeriveInput { di_ident : bytes; di_generics : bool; di_where : bool; di_data : Data }.

Section derive.
Context {Sy : Syn}.

Inductive DeriveError : Type :=
| EmptyEnum
| StructNotEnum
| UnionUnsupported
| AggregateGenerics
| AggregateFields
| AggregateNotStruct
| AggregateArgs (e : MacroError).

(** ** [DomainEvent] *)

(** [Name::V], [Name::V(..)] and [Name::V { .. }]. *)
Inductive Pattern : Type := PatUnit | PatTuple | PatBraces.
Record NameArm : Type := MkNameArm { na_variant : bytes; na_pattern : Pattern; na_name : bytes }.

Definition variant_arm (variant : bytes * Fields) : NameArm :=
  match variant.2 with
  | FieldsUnit => MkNameArm variant.1 PatUnit variant.1
  | FieldsUnnamed => MkNameArm variant.1 PatTuple variant.1
  | FieldsNamed => MkNameArm variant.1 PatBraces variant.1
  end.

Definition parse_domain_event (ast : DeriveInput) : result (list NameArm) DeriveError :=
  match di_data ast with
  | DataEnum variants => if bool_decide (variants = []) then Err EmptyEnum else Ok (variant_arm <$> variants)
  | DataStruct _ => Err StructNotEnum
  | DataUnion => Err UnionUnsupported
  end.

(** Whether the pattern is one for a variant with these fields. *)
Definition pattern_fits (f : Fields) (p : Pattern) : bool :=
  match f, p with FieldsUnit, PatUnit | FieldsUnnamed, PatTuple | FieldsNamed, PatBraces => true | _, _ => false end.

(** The emitted [name], on a value of a variant: the first arm that matches it. *)
Fixpoint derived_name (arms : list NameArm) (variant : bytes * Fields) : option bytes :=
  match arms with
  | [] => None
  | arm :: arms =>
      if bool_decide (na_variant arm = variant.1) && pattern_fits variant.2 (na_pattern arm) then Some (na_name arm)
      else derived_name arms variant
  end.

(** ** [aggregate] *)

Record AggregateImpl : Type := MkAggregateImpl { ai_name : bytes; ai_state : TypeAst; ai_error : TypeAst; ai_id : TypeAst }.

Record AggregateSlots : Type := MkAggregateSlots { as_state : option TypeAst; as_error : option TypeAst; as_id : option TypeAst }.

Definition aggregate_args (s : AggregateSlots) (meta : Meta) : result AggregateSlots MacroError :=
  if is_ident (meta_ident meta) "state" then
    let? t := optional_argument parse_type (as_state s) meta in Ok (MkAggregateSlots t (as_error s) (as_id s))
  else if is_ident (meta_ident meta) "error" then
    let? t := optional_argument parse_type (as_error s) meta in Ok (MkAggregateSlots (as_state s) t (as_id s))
  else if is_ident (meta_ident meta) "id" then
    let? t := optional_argument parse_type (as_id s) meta in Ok (MkAggregateSlots (as_state s) (as_error s) t)
  else Err UnexpectedArgument.

Definition parse_aggregate (ast : DeriveInput) (args : MetaList) : result AggregateImpl DeriveError :=
  if di_generics ast || di_where ast then Err AggregateGenerics
  else
    let? _ := match di_data ast with
              | DataStruct FieldsUnit => Ok ()
              | DataStruct _ => Err AggregateFields
              | _ => Err AggregateNotStruct
              end in
    let? slots := map_err AggregateArgs (parse_metas aggregate_args (MkAggregateSlots None None None) (ml_items args) (ml_error args)) in
    let? state := ok_or (as_state slots) (AggregateArgs (RequiredArgument (text "state"))) in
    let? error := ok_or (as_error slots) (AggregateArgs (RequiredArgument (text "error"))) in
    let? id := ok_or (as_id slots) (AggregateArgs (RequiredArgument (text "id"))) in
    Ok (MkAggregateImpl (di_ident ast) state error id).

(** ** What they guarantee *)

(** The emitted [name] has an arm for every variant and returns the variant's own name,
    so distinct variants have distinct names. *)
Theorem derived_names_exact ast arms variants v :
  parse_domain_event ast = Ok arms -> di_data ast = DataEnum variants -> v ∈ variants -> derived_name arms v = Some v.1.
Proof.
  unfold parse_domain_event. intros H Hd Hv. rewrite Hd in H. destruct (bool_decide _); [done|]. injection H as <-. clear Hd.
  induction Hv as [v variants|v w variants Hv IH]; cbn [fmap list_fmap derived_name].
  - unfold variant_arm. destruct v as [n f]. by destruct f; cbn; rewrite bool_decide_true.
  - unfold variant_arm at 1. destruct (bool_decide _ && _) eqn:Hm; [|done].
    apply andb_true_iff in Hm as [Hm%bool_decide_eq_true _]. destruct w as [n f]. by destruct f; cbn in *; rewrite Hm.
Qed.

(** The arguments of one name, with what they parse to. *)
Definition given (name : string) (items : list Meta) : list (result TypeAst SynError) :=
  (fun m => parse_type (meta_value m)) <$> filter (fun m => is_ident (meta_ident m) name) items.

Definition known_argument (m : Meta) : Prop :=
  is_ident (meta_ident m) "state" = true \/ is_ident (meta_ident m) "error" = true \/ is_ident (meta_ident m) "id" = true.

(** A slot after some more arguments of its name. *)
Definition filled (before after : option TypeAst) (items : list (result TypeAst SynError)) : Prop :=
  match before with
  | None => after = None /\ items = [] \/ exists t, after = Some t /\ items = [Ok t]
  | Some t => after = Some t /\ items = []
  end.

Lemma ident_distinct i a b : text a <> text b -> is_ident i a = true -> is_ident i b = false.
Proof. unfold is_ident. intros Hne H%bool_decide_eq_true. apply bool_decide_eq_false. congruence. Qed.

Lemma optional_argument_ok slot m t :
  optional_argument parse_type slot m = Ok t <-> slot = None /\ exists u, parse_type (meta_value m) = Ok u /\ t = Some u.
Proof. unfold optional_argument. destruct slot as [s|]; [naive_solver|]. destruct (parse_type (meta_value m)); cbn; naive_solver. Qed.

Lemma filled_cons before after t items :
  (before = None /\ filled (Some t) after items) <-> filled before after (Ok t :: items).
Proof. unfold filled. destruct before; naive_solver. Qed.

(** The arguments of another name leave a slot alone. *)
Lemma given_cons name m items :
  given name (m :: items) = if is_ident (meta_ident m) name then parse_type (meta_value m) :: given name items else given name items.
Proof. unfold given. rewrite filter_cons. by destruct (is_ident (meta_ident m) name). Qed.

Lemma aggregate_args_spec s s' items error :
  parse_metas aggregate_args s items error = Ok s' <->
  error = None /\ Forall known_argument items /\ filled (as_state s) (as_state s') (given "state" items) /\
  filled (as_error s) (as_error s') (given "error" items) /\ filled (as_id s) (as_id s') (given "id" items).
Proof.
  assert (text "state" <> text "error" /\ text "state" <> text "id" /\ text "error" <> text "id") as (N1 & N2 & N3) by done.
  revert s. induction items as [|m items IH]; intros s; cbn [parse_metas].
  { destruct s as [a b c], s' as [a' b' c'], error as [e|]; cbn; [naive_solver|]. split.
    - intros [= -> -> ->]. split_and!; [done|by apply Forall_nil|destruct a'; cbn; naive_solver|destruct b'; cbn; naive_solver|destruct c'; cbn; naive_solver].
    - intros (_ & _ & H1 & H2 & H3). do 2 f_equal; destruct a, b, c; cbn in *; naive_solver. }
  rewrite result_bind_Ok, !given_cons, Forall_cons. unfold aggregate_args, known_argument. destruct s as [a b c]. cbn [as_state as_error as_id].
  destruct (is_ident (meta_ident m) "state") eqn:H1.
  { rewrite (ident_distinct _ _ _ N1 H1), (ident_distinct _ _ _ N2 H1). setoid_rewrite result_bind_Ok. split.
    - intros (s1 & (t & (-> & u & Hu & ->)%optional_argument_ok & [= <-]) & Hr%IH). cbn in Hr. rewrite Hu, <- filled_cons. naive_solver.
    - intros (? & [_ ?] & Hf & ?). destruct (parse_type (meta_value m)) as [u|] eqn:Hu; [|destruct a; cbn in Hf; naive_solver].
      apply filled_cons in Hf as [-> Hf]. eexists. split; [eexists; split; [apply optional_argument_ok; eauto|done]|]. apply IH. naive_solver. }
  destruct (is_ident (meta_ident m) "error") eqn:H2.
  { rewrite (ident_distinct _ _ _ N3 H2). setoid_rewrite result_bind_Ok. split.
    - intros (s1 & (t & (-> & u & Hu & ->)%optional_argument_ok & [= <-]) & Hr%IH). cbn in Hr. rewrite Hu, <- filled_cons. naive_solver.
    - intros (? & [_ ?] & ? & Hf & ?). destruct (parse_type (meta_value m)) as [u|] eqn:Hu; [|destruct b; cbn in Hf; naive_solver].
      apply filled_cons in Hf as [-> Hf]. eexists. split; [eexists; split; [apply optional_argument_ok; eauto|done]|]. apply IH. naive_solver. }
  destruct (is_ident (meta_ident m) "id") eqn:H3; [|naive_solver].
  setoid_rewrite result_bind_Ok. split.
  - intros (s1 & (t & (-> & u & Hu & ->)%optional_argument_ok & [= <-]) & Hr%IH). cbn in Hr. rewrite Hu, <- filled_cons. naive_solver.
  - intros (? & [_ ?] & ? & ? & Hf). destruct (parse_type (meta_value m)) as [u|] eqn:Hu; [|destruct c; cbn in Hf; naive_solver].
    apply filled_cons in Hf as [-> Hf]. eexists. split; [eexists; split; [apply optional_argument_ok; eauto|done]|]. apply IH. naive_solver.
Qed.

(** The [aggregate] macro accepts exactly a unit struct without generics and, in any
    order, one argument each for the state, the error and the id, and it emits those. *)
Theorem aggregate_accepts_iff ast args impl :
  parse_aggregate ast args = Ok impl <->
  di_generics ast = false /\ di_where ast = false /\ di_data ast = DataStruct FieldsUnit /\
  ml_error args = None /\ Forall known_argument (ml_items args) /\
  given "state" (ml_items args) = [Ok (ai_state impl)] /\ given "error" (ml_items args) = [Ok (ai_error impl)] /\
  given "id" (ml_items args) = [Ok (ai_id impl)] /\ ai_name impl = di_ident ast.
Proof.
  unfold parse_aggregate. destruct (di_generics ast), (di_where ast); cbn [orb]; [naive_solver..|].
  destruct (di_data ast) as [vs|[]|]; cbn [result_bind]; [naive_solver| |naive_solver..].
  destruct (parse_metas aggregate_args _ (ml_items args) (ml_error args)) as [s|e] eqn:Hp; cbn [map_err result_bind].
  - apply aggregate_args_spec in Hp as (He & Hk & H1 & H2 & H3). cbn in H1, H2, H3. destruct impl as [n st er i]. cbn.
    rewrite He. destruct H1 as [[-> H1]|(t1 & -> & H1)], H2 as [[-> H2]|(t2 & -> & H2)], H3 as [[-> H3]|(t3 & -> & H3)];
      cbn; rewrite H1, H2, H3; split; try done; try (by intros (_ & _ & _ & _ & _ & ? & ? & ? & _)); [by intros [= -> -> -> ->]|].
    by intros (_ & _ & _ & _ & _ & [= ->] & [= ->] & [= ->] & ->).
  - split; [done|]. intros (_ & _ & _ & He & Hk & H1 & H2 & H3 & _). exfalso.
    assert (parse_metas aggregate_args (MkAggregateSlots None None None) (ml_items args) (ml_error args)
      = Ok (MkAggregateSlots (Some (ai_state impl)) (Some (ai_error impl)) (Some (ai_id impl)))) as Hok; [|by rewrite Hok in Hp].
    apply aggregate_args_spec. cbn. naive_solver.
Qed.
End derive.
