(* ===== verification/Decoded.v ===== *)
(** * Decoded streams (crates/store/src/decoded.rs)

    The typed views a consumer puts over the raw streams of a store.  A stream is
    the list of the items it has yielded; a combinator maps the items of its source
    one by one.  The closure of [for_each_decoded] is a state transformer, its state
    what the closure captures. *)

From S2P Require Import Prelude Version Events Aggregate Value Wire Envelope RawStore Repository Subscription.

Record Decoded (E : Type) : Type := MkDecoded { dec_event : E; dec_version : Version; dec_metadata : option bytes }.
Arguments MkDecoded {E}.
Arguments dec_event {E}.
Arguments dec_version {E}.
Arguments dec_metadata {E}.

Inductive DecodeStreamError (R D : Type) : Type :=
| StreamRead (e : R)
| StreamDecode (e : D).
Arguments StreamRead {R D}.
Arguments StreamDecode {R D}.

Inductive FoldDecodedError (R D H : Type) : Type :=
| FoldRead (e : R)
| FoldDecode (e : D)
| FoldHandler (e : H).
Arguments FoldRead {R D H}.
Arguments FoldDecode {R D H}.
Arguments FoldHandler {R D H}.

(** [RawItem]: what carries an envelope, and its shape once decoded. *)
Class RawItem (I : Type) := {
  Typed : Type -> Type;
  item_envelope : I -> PersistedEnvelope;
  retag : forall {E}, I -> Decoded E -> Typed E;
}.
Arguments Typed I {_}.

#[export] Instance envelope_item : RawItem PersistedEnvelope := {|
  Typed := Decoded;
  item_envelope env := env;
  retag _ _ decoded := decoded;
|}.

#[export] Instance all_item {P : Type} : RawItem (P * StreamKey * PersistedEnvelope) := {|
  Typed E := (P * StreamKey * Decoded E)%type;
  item_envelope item := item.2;
  retag _ item decoded := (item.1, decoded);
|}.

Section decoded.
Context {I R E : Type} `{!RawItem I} `{!Codec E}.

(** The box of an envelope and its decoded event. *)
Definition decoded_of (env : PersistedEnvelope) (event : E) : Decoded E :=
  MkDecoded event (ps_version env) (PersistedEnvelope.metadata env).

(** [DecodedStreamExt::decoded]. *)
Definition decode_item (res : result I R) : result (Typed I E) (DecodeStreamError R (DecErr E)) :=
  let? item := map_err StreamRead res in
  let? event := map_err StreamDecode (decode (item_envelope item)) in
  Ok (retag item (decoded_of (item_envelope item) event)).

Definition decoded (items : list (result I R)) : list (result (Typed I E) (DecodeStreamError R (DecErr E))) :=
  decode_item <$> items.

(** [StepStreamExt::events] and [StepStreamExt::decoded]. *)
Definition events_item (res : result (Step I) R) : option (result I R) :=
  match res with
  | Ok (StepEvent item) => Some (Ok item)
  | Ok StepCaughtUp => None
  | Err e => Some (Err e)
  end.

Definition events (items : list (result (Step I) R)) : list (result I R) := omap events_item items.

Definition decode_step (res : result (Step I) R) : result (Step (Typed I E)) (DecodeStreamError R (DecErr E)) :=
  let? step := map_err StreamRead res in
  match step with
  | StepCaughtUp => Ok StepCaughtUp
  | StepEvent item =>
      let? event := map_err StreamDecode (decode (item_envelope item)) in
      Ok (StepEvent (retag item (decoded_of (item_envelope item) event)))
  end.

Definition step_decoded (items : list (result (Step I) R)) : list (result (Step (Typed I E)) (DecodeStreamError R (DecErr E))) :=
  decode_step <$> items.

(** [fold_one] and [for_each_decoded]. *)
Section fold.
Context {X H : Type} (f : X -> Decoded E -> X * result () H).

Definition fold_one (x : X) (env : PersistedEnvelope) : X * result () (FoldDecodedError R (DecErr E) H) :=
  match decode env with
  | Err e => (x, Err (FoldDecode e))
  | Ok window => let '(x, r) := f x (decoded_of env window) in (x, map_err FoldHandler r)
  end.

Fixpoint for_each_decoded (x : X) (items : list (result I R)) : X * result () (FoldDecodedError R (DecErr E) H) :=
  match items with
  | [] => (x, Ok ())
  | Err e :: _ => (x, Err (FoldRead e))
  | Ok item :: items =>
      match fold_one x (item_envelope item) with
      | (x, Err e) => (x, Err e)
      | (x, Ok _) => for_each_decoded x items
      end
  end.

(** The closure accepts these boxes one after another. *)
Inductive accepts : X -> list (Decoded E) -> X -> Prop :=
| accepts_nil x : accepts x [] x
| accepts_cons x d x1 ds x2 : f x d = (x1, Ok ()) -> accepts x1 ds x2 -> accepts x (d :: ds) x2.

(** What ended the fold at an item. *)
Definition stops_at (x : X) (item : result I R) (x' : X) (e : FoldDecodedError R (DecErr E) H) : Prop :=
  match e with
  | FoldRead r => item = Err r /\ x' = x
  | FoldDecode d => exists i, item = Ok i /\ decode (item_envelope i) = Err d /\ x' = x
  | FoldHandler h => exists i ev, item = Ok i /\ decode (item_envelope i) = Ok ev /\ f x (decoded_of (item_envelope i) ev) = (x', Err h)
  end.
End fold.

(** An item and the box of its event. *)
Definition boxed (item : result I R) (d : Decoded E) : Prop :=
  exists i ev, item = Ok i /\ decode (item_envelope i) = Ok ev /\ d = decoded_of (item_envelope i) ev.

(** A fold over a decoded stream hands the closure exactly the events before the
    first item that fails, in order, each with its own version and metadata.  It
    returns success only at the end of the stream; otherwise it returns the error of
    the first failing item under the name of what failed, the read, the codec or the
    closure, and nothing after that item has been read or folded. *)
Theorem for_each_decoded_exact {X H} (f : X -> Decoded E -> X * result () H) x items x' r :
  for_each_decoded f x items = (x', r) ->
  exists ok ds x1, Forall2 boxed ok ds /\ accepts f x ds x1 /\
    match r with
    | Ok _ => items = ok /\ x' = x1
    | Err e => exists item rest, items = ok ++ item :: rest /\ stops_at f x1 item x' e
    end.
Proof.
  revert x. induction items as [|[i|e] items IH]; intros x; cbn.
  - intros [= <- <-]. exists [], [], x. repeat split; constructor.
  - unfold fold_one. destruct (decode (item_envelope i)) as [ev|d] eqn:Hd.
    + destruct (f x (decoded_of (item_envelope i) ev)) as [x2 [[]|h]] eqn:Hf; cbn.
      * intros (ok & ds & x1 & Hok & Hacc & Hend)%IH. exists (Ok i :: ok), (decoded_of (item_envelope i) ev :: ds), x1.
        split; [constructor; [by exists i, ev|done]|]. split; [by econstructor|].
        destruct r as [[]|e]; [by destruct Hend as [-> ->]|]. destruct Hend as (item & rest & -> & Hst). by exists item, rest.
      * intros [= <- <-]. exists [], [], x. split; [constructor|]. split; [constructor|].
        exists (Ok i), items. split; [done|]. by exists i, ev.
    + intros [= <- <-]. exists [], [], x. split; [constructor|]. split; [constructor|].
      exists (Ok i), items. split; [done|]. by exists i.
  - intros [= <- <-]. exists [], [], x. split; [constructor|]. split; [constructor|].
    exists (Err e), items. by split.
Qed.
End decoded.

(** Dropping the phase and decoding commute: a consumer of a subscription sees
    the same typed items whether it decodes with the phase kept and then ignores the
    markers or drops the markers first.  Decoding keeps every marker and every error
    where it was, and gives each event back with the tags of its raw item. *)
Theorem decoding_keeps_the_phase {I R E : Type} `{!RawItem I, !Codec E} (items : list (result (Step I) R)) :
  omap (fun r => match r with Ok (StepEvent t) => Some (Ok t) | Ok StepCaughtUp => None | Err e => Some (Err e) end)
    (step_decoded (E := E) items) = decoded (E := E) (events items) /\
  (forall n, (step_decoded (E := E) items !! n = Some (Ok StepCaughtUp) <-> items !! n = Some (Ok StepCaughtUp)) /\
    (forall e, step_decoded (E := E) items !! n = Some (Err (StreamRead e)) <-> items !! n = Some (Err e))).
Proof.
  split.
  - induction items as [|res items IH]; [done|]. unfold step_decoded, decoded, events in *. rewrite fmap_cons.
    destruct res as [[i|]|e]; cbn -[decode]; [|exact IH|by rewrite IH].
    destruct (decode (item_envelope i)) as [ev|d]; cbn; by rewrite IH.
  - intros n. unfold step_decoded. rewrite list_lookup_fmap. destruct (items !! n) as [[[i|]|e]|]; cbn; [|naive_solver..].
    destruct (decode (item_envelope i)); cbn; naive_solver.
Qed.
