(* ===== verification/Execute.v ===== *)
(** * Commands and sagas over a repository
      (crates/store/src/execute.rs, saga.rs)

    [execute] decides a command on a root and saves what was decided;
    [react_and_save] does the same for a saga's reaction and projects the
    follow-up commands of the events it recorded.  Both are generic in the
    repository, the interface below. *)

From S2P Require Import Prelude Version Events Aggregate Value Wire Envelope RawStore Repository.

(** The [Repository] trait: what command and saga execution need of it. *)
Class Repo {T : Target} (A : Aggregate) (S : Type) := {
  RError : Type;
  Position : Type;
  repo_load : nat -> (nat -> S) -> Id -> option (outcome AggregateRoot RError);
  repo_save : forall {N}, S -> AggregateRoot -> Events Event N -> S * AggregateRoot * outcome Position RError;
  (** [ConflictPredicate]. *)
  error_is_conflict : RError -> bool;
}.
Arguments RError {T} A S {_}.
Arguments Position {T} A S {_}.

(** Its contract for saves: the root advances by the saved events, or stays; after a
    conflict it still agrees with the store, while after an error of the store's own the
    events may have been saved all the same. *)
Class RepoSpec {T : Target} (A : Aggregate) (S : Type) {RP : Repo A S} := {
  repo_inv : S -> AggregateRoot -> Prop;
  repo_save_ok : forall N s r (es : Events Event N) s' r' p,
    repo_inv s r -> repo_save s r es = (s', r', Returns (Ok p)) ->
    repo_inv s' r' /\ root_id r' = root_id r /\ current_of r' = current_of r + len (iter es) /\
    exists st st', root_state r = Some st /\ apply_all st (iter es) = Returns st' /\ root_state r' = Some st';
  repo_save_err : forall N s r (es : Events Event N) s' r' e,
    repo_inv s r -> repo_save s r es = (s', r', Returns (Err e)) ->
    r' = r /\ (error_is_conflict e = true -> repo_inv s' r);
}.

Inductive ExecuteError (DecideErr StoreErr : Type) : Type :=
| EKernel (e : KernelError)
| EDecide (e : DecideErr)
| EStore (e : StoreErr).
Arguments EKernel {DecideErr StoreErr} _.
Arguments EDecide {DecideErr StoreErr} _.
Arguments EStore {DecideErr StoreErr} _.

Inductive Execution (Ev P : Type) (N : Z) : Type :=
| Ignored
| Executed (position : P) (events : Events Ev N).
Arguments Ignored {Ev P N}.
Arguments Executed {Ev P N} _ _.

Inductive SagaError (SagaErr StoreErr : Type) : Type :=
| GKernel (e : KernelError)
| GReact (e : SagaErr)
| GStore (e : StoreErr)
| GVersionOverflow.
Arguments GKernel {SagaErr StoreErr} _.
Arguments GReact {SagaErr StoreErr} _.
Arguments GStore {SagaErr StoreErr} _.
Arguments GVersionOverflow {SagaErr StoreErr}.

Section execute.
Context {T : Target} {A : Aggregate} {S : Type} {RP : Repo A S}.

Definition execute_is_conflict {D} (e : ExecuteError D (RError A S)) : bool :=
  match e with EStore e => error_is_conflict e | _ => false end.
Definition saga_is_conflict {D} (e : SagaError D (RError A S)) : bool :=
  match e with GStore e => error_is_conflict e | _ => false end.

Definition execute_inner {Cmd N} `{!Handle A Cmd N} (s : S) (root : AggregateRoot) (command : Cmd)
  : S * AggregateRoot * outcome (Execution Event (Position A S) N) (ExecuteError AError (RError A S)) :=
  match handle root command with
  | Err (DKernel cause) => (s, root, Returns (Err (EKernel cause)))
  | Err (DDomain cause) => (s, root, Returns (Err (EDecide cause)))
  | Ok None => (s, root, Returns (Ok Ignored))
  | Ok (Some decided) =>
      match repo_save s root decided with
      | (s', root', Panics) => (s', root', Panics)
      | (s', root', Returns (Err e)) => (s', root', Returns (Err (EStore e)))
      | (s', root', Returns (Ok position)) => (s', root', Returns (Ok (Executed position decided)))
      end
  end.

(** ** Sagas *)

Context {AV : ArrayVec} {Sg : Saga A}.

Record ProjectedIntent : Type := MkIntent { saga_id : Id; source_version : Version; intent : Command }.

Definition dedup_key (i : ProjectedIntent) : Id * Version := (saga_id i, source_version i).

Record ProjectedIntents (N : Z) : Type := MkIntents {
  pi_first : option ProjectedIntent;
  pi_rest : list ProjectedIntent;
}.
Arguments MkIntents {N} _ _.
Arguments pi_first {N} _.
Arguments pi_rest {N} _.

Definition intents_new {N} : ProjectedIntents N := MkIntents None [].

(** [push] panics when the vector is full. *)
Definition intents_push {N} (p : ProjectedIntents N) (i : ProjectedIntent) : panicking (ProjectedIntents N) :=
  match pi_first p with
  | None => Returns (MkIntents (Some i) (pi_rest p))
  | Some f =>
      match try_push N (pi_rest p) i with
      | Some v => Returns (MkIntents (Some f) v)
      | None => Panics
      end
  end.

Definition intents_iter {N} (p : ProjectedIntents N) : list ProjectedIntent :=
  match pi_first p with Some f => f :: pi_rest p | None => pi_rest p end.
Definition intents_len {N} (p : ProjectedIntents N) : Z :=
  (if pi_first p then 1 else 0) + len (pi_rest p).
Definition intents_is_empty {N} (p : ProjectedIntents N) : bool := if pi_first p then false else true.

Inductive Reaction (P : Type) (N : Z) : Type :=
| ReactionIgnored
| Reacted (version : Version) (position : P) (intents : ProjectedIntents N).
Arguments ReactionIgnored {P N}.
Arguments Reacted {P N} _ _ _.

(** The projection loop: [current] is the version of the event in hand. *)
Fixpoint project_loop {N} (id : Id) (current : Version) (events : list Event) (acc : ProjectedIntents N)
  : outcome (Version * ProjectedIntents N) (SagaError AError (RError A S)) :=
  match events with
  | [] => Returns (Ok (current, acc))
  | recorded :: events =>
      match (match intent_for recorded with
             | Some i => intents_push acc (MkIntent id current i)
             | None => Returns acc
             end) with
      | Panics => Panics
      | Returns acc =>
          match events with
          | [] => Returns (Ok (current, acc))
          | _ :: _ =>
              let! current := Returns (ok_or (next current) GVersionOverflow) in
              project_loop id current events acc
          end
      end
  end.

Definition react_and_save_inner {Ev N} `{!React A Sg Ev N} (s : S) (root : AggregateRoot) (event : Ev)
  : S * AggregateRoot * outcome (Reaction (Position A S) N) (SagaError AError (RError A S)) :=
  let before := root_version root in
  match react root event with
  | Err (DKernel cause) => (s, root, Returns (Err (GKernel cause)))
  | Err (DDomain cause) => (s, root, Returns (Err (GReact cause)))
  | Ok None => (s, root, Returns (Ok ReactionIgnored))
  | Ok (Some produced) =>
      match first_persisted_version before with
      | None => (s, root, Returns (Err GVersionOverflow))
      | Some first =>
          match repo_save s root produced with
          | (s', root', Panics) => (s', root', Panics)
          | (s', root', Returns (Err e)) => (s', root', Returns (Err (GStore e)))
          | (s', root', Returns (Ok position)) =>
              match project_loop (root_id root') first (iter produced) intents_new with
              | Panics => (s', root', Panics)
              | Returns (Err e) => (s', root', Returns (Err e))
              | Returns (Ok (version, intents)) =>
                  (s', root', Returns (Ok (Reacted version position intents)))
              end
          end
      end
  end.

(** [dispatch]: load, then react. The store is [sched t] when the load has ended. *)
Definition dispatch {Ev N} `{!React A Sg Ev N} (fuel : nat) (sched : nat -> S) (t : nat) (id : Id) (event : Ev)
  : option (S * outcome (Reaction (Position A S) N) (SagaError AError (RError A S))) :=
  match repo_load fuel sched id with
  | None => None
  | Some Panics => Some (sched t, Panics)
  | Some (Returns (Err e)) => Some (sched t, Returns (Err (GStore e)))
  | Some (Returns (Ok root)) =>
      let '(s', _, o) := react_and_save_inner (sched t) root event in Some (s', o)
  end.

(** ** What is projected *)

(** The intents of a run of recorded events whose first version is [v]. *)
Fixpoint intents_of (id : Id) (v : Z) (events : list Event) : list (Id * Z * Command) :=
  match events with
  | [] => []
  | e :: events =>
      match intent_for e with
      | Some i => (id, v, i) :: intents_of id (v + 1) events
      | None => intents_of id (v + 1) events
      end
  end.

Definition intent_view (i : ProjectedIntent) : Id * Z * Command := (saga_id i, as_u64 (source_version i), intent i).

Lemma len_intents_of id v events : len (intents_of id v events) <= len events.
Proof.
  revert v. induction events as [|e events IH]; intros v; simpl; [done|].
  specialize (IH (v + 1)). destruct (intent_for e); rewrite ?len_cons; lia.
Qed.

(** The vector is used only once the first slot is taken. *)
Definition intents_wf {N} (p : ProjectedIntents N) : Prop := pi_first p = None -> pi_rest p = [].

Lemma intents_push_spec {N} (p : ProjectedIntents N) i :
  intents_wf p -> len (intents_iter p) < N + 1 -> 0 <= N ->
  exists p', intents_push p i = Returns p' /\ intents_wf p' /\ intents_iter p' = intents_iter p ++ [i].
Proof.
  intros Hwf Hlt HN. unfold intents_push, intents_iter, intents_wf in *. destruct (pi_first p) as [f|] eqn:Hf.
  - rewrite len_cons in Hlt. rewrite try_push_room by lia. eexists. split_and!; try done.
  - rewrite Hwf in * by done. eexists. split_and!; try done.
Qed.

Lemma project_loop_spec {N} id current events (acc : ProjectedIntents N) :
  intents_wf acc -> 0 <= N -> len (intents_iter acc) + len events <= N + 1 -> events <> [] ->
  as_u64 current + len events - 1 <= u64_max ->
  exists version p, project_loop id current events acc = Returns (Ok (version, p)) /\
    as_u64 version = as_u64 current + len events - 1 /\
    intent_view <$> intents_iter p = (intent_view <$> intents_iter acc) ++ intents_of id (as_u64 current) events.
Proof.
  revert current acc. induction events as [|e events IH]; intros current acc Hwf HN Hcap Hne Hb; [done|].
  rewrite len_cons in *. pose proof (len_nonneg events).
  assert (exists acc', (match intent_for e with Some i => intents_push acc (MkIntent id current i) | None => Returns acc end)
      = Returns acc' /\ intents_wf acc' /\ len (intents_iter acc') <= len (intents_iter acc) + 1 /\
      intent_view <$> intents_iter acc' = (intent_view <$> intents_iter acc) ++
        match intent_for e with Some i => [(id, as_u64 current, i)] | None => [] end) as (acc' & Hacc & Hwf' & Hl' & Hv').
  { destruct (intent_for e) as [i|]; [|exists acc; rewrite app_nil_r; split_and!; done || lia].
    destruct (intents_push_spec acc (MkIntent id current i)) as (p' & Hp & Hw & Hi); [done|lia|done|].
    exists p'. split_and!; [done|done|rewrite Hi, len_app, len_cons, len_nil; lia|by rewrite Hi, fmap_app]. }
  cbn [project_loop]. rewrite Hacc. destruct events as [|e' events].
  { exists current, acc'. rewrite len_nil. split_and!; [done|lia|]. simpl. rewrite Hv'. by destruct (intent_for e). }
  rewrite len_cons in *. destruct (next current) as [w|] eqn:Hw.
  2:{ apply next_None in Hw. pose proof (len_nonneg events). lia. }
  apply next_Some in Hw. cbn [ok_or outcome_bind].
  destruct (IH w acc' Hwf' HN) as (version & p & -> & Hver & Hp); [lia|done|lia|].
  exists version, p. split_and!; [done|lia|].
  rewrite Hp, Hv', Hw, <- app_assoc. f_equal.
  change (intents_of id (as_u64 current) (e :: e' :: events)) with
    (match intent_for e with
     | Some i => (id, as_u64 current, i) :: intents_of id (as_u64 current + 1) (e' :: events)
     | None => intents_of id (as_u64 current + 1) (e' :: events) end). by destruct (intent_for e).
Qed.

Lemma intents_of_distinct id v events : NoDup ((fun x => x.1.2) <$> intents_of id v events).
Proof.
  assert (forall v events, Forall (fun x => v <= x.1.2) (intents_of id v events)) as Hge.
  { intros v0 evs. revert v0. induction evs as [|e evs IH]; intros v0; simpl; [constructor|].
    assert (Forall (fun x => v0 <= x.1.2) (intents_of id (v0 + 1) evs)).
    { eapply Forall_impl; [apply IH|]. simpl. intros; lia. }
    destruct (intent_for e); [constructor; [simpl; lia|done]|done]. }
  revert v. induction events as [|e events IH]; intros v; simpl; [constructor|].
  destruct (intent_for e); [|apply IH]. csimpl. constructor; [|apply IH].
  intros (x & Hx & Hin)%list_elem_of_fmap. specialize (Hge (v + 1) events). rewrite Forall_forall in Hge.
  specialize (Hge _ Hin). simpl in *. lia.
Qed.

Context {RPS : RepoSpec A S}.

(** A reaction that records events projects exactly the intents of those
    events, in order, each stamped with the saga's identity and the version its
    event was recorded at, so their deduplication keys are pairwise distinct; it
    reports the last recorded version and never overflows the intent buffer. *)
Theorem reaction_projects_recorded_events {Ev N} `{!React A Sg Ev N} s root (event : Ev) s' root' version position intents :
  (forall st es, react_to st event = Ok (Some es) -> events_ok es) -> 0 <= N ->
  repo_inv s root -> react_and_save_inner s root event = (s', root', Returns (Ok (Reacted version position intents))) ->
  exists st produced, root_state root = Some st /\ react_to st event = Ok (Some produced) /\
    intent_view <$> intents_iter intents = intents_of (root_id root) (current_of root + 1) (iter produced) /\
    NoDup ((fun i => source_version i) <$> intents_iter intents) /\
    as_u64 version = current_of root' /\ current_of root' = current_of root + len (iter produced) /\
    repo_inv s' root'.
Proof.
  intros Hcap HN Hinv. unfold react_and_save_inner, react, state.
  destruct (root_state root) as [st|] eqn:Hst; cbn [ok_or map_err result_bind]; [|done].
  destruct (react_to st event) as [[produced|]|] eqn:Hreact; cbn [map_err]; [|done|done].
  destruct (first_persisted_version (root_version root)) as [fst_v|] eqn:Hf; [|done].
  apply first_persisted_spec in Hf.
  destruct (repo_save s root produced) as [[s1 root1] [[pos|e]|]] eqn:Hs; [|done|done].
  destruct (repo_save_ok _ _ _ _ _ _ _ Hinv Hs) as (Hinv1 & Hid & Hcur & _).
  specialize (Hcap _ _ Hreact). unfold events_ok in Hcap.
  assert (len (iter produced) = 1 + len (rest produced)) as Hlen by (unfold iter; by rewrite len_cons).
  destruct (project_loop_spec (N := N) (root_id root1) fst_v (iter produced) intents_new) as (ver & p & -> & Hver & Hp);
    [done|done|unfold intents_iter; simpl; rewrite len_nil; lia|done| |].
  { assert (current_of root1 <= u64_max) as Hb.
    { unfold current_of. destruct (root_version root1) as [w|]; [pose proof (version_range w); lia|done]. }
    lia. }
  intros [= <- <- <- <- <-]. exists st, produced. rewrite Hid, Hf in Hp.
  change (intent_view <$> intents_iter intents_new) with (@nil (Id * Z * Command)) in Hp. rewrite app_nil_l in Hp.
  split_and!; try done; [|lia].
  assert (NoDup (as_u64 <$> (source_version <$> intents_iter p))) as Hnd.
  { rewrite <- list_fmap_compose.
    pose proof (intents_of_distinct (root_id root) (current_of root + 1) (iter produced)) as Hd.
    rewrite <- Hp, <- list_fmap_compose in Hd. done. }
  by apply NoDup_fmap_1 in Hnd.
Qed.

(** Executing a command either leaves the store and the root exactly as they were (the
    command was ignored or rejected), or fails to save, with the root as it was, or
    returns the events the handler decided on the root's state, saved and folded into
    the root.  The root still agrees with the store unless saving failed with an error
    of the store's own. *)
Theorem execute_exact {Cmd N} `{!Handle A Cmd N} s root (command : Cmd) s' root' o :
  repo_inv s root -> execute_inner s root command = (s', root', Returns o) ->
  (match o with Err (EStore e) => error_is_conflict e = true | _ => True end -> repo_inv s' root') /\
  match o with
  | Ok (Executed _ events) => exists st st', root_state root = Some st /\
      decide_command st command = Ok (Some events) /\ apply_all st (iter events) = Returns st' /\
      root_state root' = Some st' /\ current_of root' = current_of root + len (iter events)
  | Ok Ignored => root' = root /\ s' = s /\ exists st, root_state root = Some st /\ decide_command st command = Ok None
  | Err (EDecide e) => root' = root /\ s' = s /\ exists st, root_state root = Some st /\ decide_command st command = Err e
  | Err (EKernel e) => root' = root /\ s' = s /\ root_state root = None /\ e = PoisonedAggregate
  | Err (EStore e) => root' = root
  end.
Proof.
  intros Hinv. unfold execute_inner, handle, state.
  destruct (root_state root) as [st|] eqn:Hst; simpl; [|by intros [= <- <- <-]].
  destruct (decide_command st command) as [[decided|]|e] eqn:Hd; simpl; [|intros [= <- <- <-]; eauto 10..].
  destruct (repo_save s root decided) as [[s1 root1] [[pos|e]|]] eqn:Hs; [| |done].
  - destruct (repo_save_ok _ _ _ _ _ _ _ Hinv Hs) as (Hinv1 & _ & Hcur & st0 & st' & Hst0 & Ha & Hst').
    intros [= <- <- <-]. split; [done|]. rewrite Hst in Hst0. injection Hst0 as <-. eauto 10.
  - destruct (repo_save_err _ _ _ _ _ _ _ Hinv Hs) as [-> ?]. by intros [= <- <- <-].
Qed.

End execute.

(** ** The event store is such a repository *)

Section event_store_repo.
Context {T : Target} {A : Aggregate} {S : Type} {R : RawEventStore S} {C : Codec Event} {RS : RawEventStoreSpec S}.
Context (meta : Version -> Event -> Payload -> option Metadata).

Definition event_store_repo : Repo A S :=
  {| RError := StoreError (SError S) (EncErr Event) (DecErr Event);
     Position := AllPos S;
     repo_load := load;
     repo_save N := save meta;
     error_is_conflict := is_conflict |}.

Context (meta_ok : forall v e p m, meta v e p = Some m -> metadata_ok m).
Context (decode_encode : forall e b env, encode e = Ok b -> PersistedEnvelope.payload env = b ->
  PersistedEnvelope.event_type env = event_name e -> persisted_ok env -> decode env = Ok e).

Lemma event_store_repo_spec : @RepoSpec T A S event_store_repo.
Proof using RS meta_ok decode_encode.
  refine (@Build_RepoSpec T A S event_store_repo (fun s r => store_inv s /\ root_matches s r) _ _); simpl.
  - intros N s r es s' r' p [Hinv Hm] E.
    destruct (save_keeps_match meta meta_ok decode_encode _ _ _ _ _ _ _ Hinv Hm E) as (? & ? & ? & ? & ?). done.
  - intros N s r es s' r' e [Hinv Hm] E.
    destruct (save_error_frame meta meta_ok _ _ _ _ _ _ _ Hinv E) as (-> & Hinv' & Hor). split; [done|]. intros Hc.
    destruct Hor as [[-> _]|(b & x & _ & Hok & -> & Ea)]; [done|]. destruct x as [l w a|x]; [|done].
    destruct (append_conflict_same _ _ _ _ _ _ _ _ Hinv Hok Ea) as [_ Hsame]. split; [done|].
    unfold root_matches, root_matches_by in *. by rewrite Hsame.
Defined.

End event_store_repo.
