(* ===== verification/Checkpoint.v ===== *)
(** * Conditional checkpoints (crates/store/src/checkpoint.rs,
      adapters/inmemory/src/checkpoint.rs)

    A checkpoint is one record per id: a revision that only grows, the schema of
    the state, the position it was folded up to, and the state.  Writes are
    conditional on the revision that was read. *)

From S2P Require Import Prelude Version.

Notation Revision := (NonZero u64_max).
Notation Schema := (NonZero u32_max).

(** Positions are [Copy + Ord]. *)
Class Ordered (P : Type) := {
  pos_leb : P -> P -> bool;
  pos_leb_refl p : pos_leb p p = true;
  pos_leb_total p q : pos_leb p q = true \/ pos_leb q p = true;
  pos_leb_trans p q r : pos_leb p q = true -> pos_leb q r = true -> pos_leb p r = true;
  pos_leb_antisym p q : pos_leb p q = true -> pos_leb q p = true -> p = q;
}.

#[export] Instance version_ordered : Ordered Version.
Proof.
  refine {| pos_leb := version_leb |}; unfold version_leb; intros *; rewrite ?Z.leb_le; try lia.
  intros ??. apply as_u64_inj. lia.
Defined.

Definition pos_ltb {P} `{Ordered P} (p q : P) : bool := negb (pos_leb q p).

Lemma pos_ltb_irrefl {P} `{Ordered P} p : pos_ltb p p = false.
Proof. unfold pos_ltb. by rewrite pos_leb_refl. Qed.

Lemma pos_ltb_le {P} `{Ordered P} p q : pos_ltb p q = true -> pos_leb p q = true.
Proof. unfold pos_ltb. intros Hn. destruct (pos_leb_total p q) as [?|E]; [done|]. by rewrite E in Hn. Qed.

Lemma pos_ltb_trans {P} `{Ordered P} p q r : pos_leb p q = true -> pos_ltb q r = true -> pos_ltb p r = true.
Proof.
  unfold pos_ltb. rewrite !negb_true_iff. intros H1 H2. destruct (pos_leb r p) eqn:E; [|done].
  by rewrite (pos_leb_trans r p q E H1) in H2.
Qed.

(** ** Types *)

Inductive CheckpointHydrated (S P : Type) : Type :=
| CkAbsent
| CkStale (revision : Revision) (stored_schema : Schema)
| CkFound (revision : Revision) (position : P) (st : S).
Arguments CkAbsent {S P}.
Arguments CkStale {S P} _ _.
Arguments CkFound {S P} _ _ _.

Inductive CheckpointMode : Type := Advance | Rebuild.

Record CheckpointWrite (S P : Type) : Type := MkWrite {
  cw_expected : option Revision;
  cw_schema : Schema;
  cw_position : P;
  cw_state : S;
  cw_mode : CheckpointMode;
}.
Arguments MkWrite {S P} _ _ _ _ _.
Arguments cw_expected {S P} _.
Arguments cw_schema {S P} _.
Arguments cw_position {S P} _.
Arguments cw_state {S P} _.
Arguments cw_mode {S P} _.

Inductive CheckpointRejection : Type :=
| CkConflict (expected actual : option Revision)
| CkSchemaMismatch (stored requested : Schema)
| CkInvalidRebuild
| CkNonIncreasingPosition
| CkRevisionOverflow.

Inductive CheckpointError (E : Type) : Type :=
| CkStore (e : E)
| CkRejected (r : CheckpointRejection).
Arguments CkStore {E} _.
Arguments CkRejected {E} _.

(** [CheckpointWrite::next_revision]. *)
Definition next_revision {S P} `{Ordered P} (w : CheckpointWrite S P) (current : option (Revision * Schema * P))
  : result Revision CheckpointRejection :=
  let actual := (fun c => c.1.1) <$> current in
  if negb (bool_decide (cw_expected w = actual)) then Err (CkConflict (cw_expected w) actual)
  else
    let? _ :=
      match cw_mode w, current with
      | Advance, Some (_, schema, position) =>
          if negb (bool_decide (schema = cw_schema w)) then Err (CkSchemaMismatch schema (cw_schema w))
          else if pos_leb (cw_position w) position then Err CkNonIncreasingPosition
          else Ok ()
      | Rebuild, Some (_, schema, _) =>
          if negb (bool_decide (schema = cw_schema w)) then Ok () else Err CkInvalidRebuild
      | Rebuild, None => Err CkInvalidRebuild
      | Advance, None => Ok ()
      end in
    let next := match actual with None => Some 1 | Some revision => checked_add u64_max (nz_get revision) 1 end in
    ok_or (next ≫= nz_new) CkRevisionOverflow.

(** ** The store interface *)

Record CheckpointRecord (S P : Type) : Type := MkRecord {
  rec_revision : Revision;
  rec_schema : Schema;
  rec_position : P;
  rec_state : S;
}.
Arguments MkRecord {S P} _ _ _ _.
Arguments rec_revision {S P} _.
Arguments rec_schema {S P} _.
Arguments rec_position {S P} _.
Arguments rec_state {S P} _.

Definition current_of_record {S P} (r : CheckpointRecord S P) : Revision * Schema * P :=
  (rec_revision r, rec_schema r, rec_position r).

(** The record a committed write leaves. *)
Definition written {S P} (w : CheckpointWrite S P) (revision : Revision) : CheckpointRecord S P :=
  MkRecord revision (cw_schema w) (cw_position w) (cw_state w).

(** What hydration reports of a record. *)
Definition describe {S P} (r : option (CheckpointRecord S P)) (schema : Schema) : CheckpointHydrated S P :=
  match r with
  | None => CkAbsent
  | Some r =>
      if negb (bool_decide (rec_schema r = schema)) then CkStale (rec_revision r) (rec_schema r)
      else CkFound (rec_revision r) (rec_position r) (rec_state r)
  end.

Class CheckpointStore (CS S P : Type) := {
  CkErr : Type;
  hydrate_checkpoint : CS -> bytes -> Schema -> result (CheckpointHydrated S P) CkErr;
  commit_checkpoint : CS -> bytes -> CheckpointWrite S P -> CS * result Revision (CheckpointError CkErr);
}.
Arguments CkErr CS S P {_}.

(** Its contract: reads report the record; a write is one atomic conditional
    replacement, and one that fails in the store may or may not have landed. *)
Class CheckpointStoreSpec (CS S P : Type) `{Ordered P} {K : CheckpointStore CS S P} := {
  record_of : CS -> bytes -> option (CheckpointRecord S P);
  hydrate_spec cs id schema h :
    hydrate_checkpoint cs id schema = Ok h -> h = describe (record_of cs id) schema;
  commit_spec cs id w cs' r :
    commit_checkpoint cs id w = (cs', r) ->
    (forall id', id' <> id -> record_of cs' id' = record_of cs id') /\
    let committed revision :=
      next_revision w (current_of_record <$> record_of cs id) = Ok revision /\
      record_of cs' id = Some (written w revision) in
    match r with
    | Ok revision => committed revision
    | Err (CkRejected rej) => record_of cs' id = record_of cs id
    | Err (CkStore _) => record_of cs' id = record_of cs id \/ exists revision, committed revision
    end;
}.

(** ** The in-memory store *)

Section inmemory.
Context {S P : Type} `{Ordered P}.

Record InMemoryCheckpointStore : Type := MkCheckpoints { records : gmap bytes (CheckpointRecord S P) }.

Definition checkpoints_new : InMemoryCheckpointStore := MkCheckpoints ∅.

Definition inmemory_hydrate (cs : InMemoryCheckpointStore) (id : bytes) (schema_version : Schema)
  : result (CheckpointHydrated S P) Empty_set :=
  Ok (match records cs !! id with
      | None => CkAbsent
      | Some record =>
          if negb (bool_decide (rec_schema record = schema_version))
          then CkStale (rec_revision record) (rec_schema record)
          else CkFound (rec_revision record) (rec_position record) (rec_state record)
      end).

Definition inmemory_commit (cs : InMemoryCheckpointStore) (id : bytes) (write : CheckpointWrite S P)
  : InMemoryCheckpointStore * result Revision (CheckpointError Empty_set) :=
  let current := current_of_record <$> records cs !! id in
  match next_revision write current with
  | Err e => (cs, Err (CkRejected e))
  | Ok revision =>
      (MkCheckpoints (<[id := MkRecord revision (cw_schema write) (cw_position write) (cw_state write)]> (records cs)),
       Ok revision)
  end.

#[export] Instance inmemory_checkpoints : CheckpointStore InMemoryCheckpointStore S P := {
  CkErr := Empty_set;
  hydrate_checkpoint := inmemory_hydrate;
  commit_checkpoint := inmemory_commit;
}.

#[export] Instance inmemory_checkpoints_spec : CheckpointStoreSpec InMemoryCheckpointStore S P.
Proof.
  refine (Build_CheckpointStoreSpec InMemoryCheckpointStore S P _ _ (fun cs id => records cs !! id) _ _).
  - intros cs id schema h [= <-]. by destruct (records cs !! id).
  - intros cs id w cs' r. cbn [commit_checkpoint inmemory_checkpoints]. unfold inmemory_commit.
    destruct (next_revision w _) as [revision|e] eqn:E; intros [= <- <-]; simpl.
    + split; [|by rewrite lookup_insert_eq]. intros id' Hne. by rewrite lookup_insert_ne.
    + done.
Defined.

End inmemory.

(** ** Revisions and positions only grow *)

Lemma next_revision_spec {S P} `{Ordered P} (w : CheckpointWrite S P) (old : option (CheckpointRecord S P)) revision :
  next_revision w (current_of_record <$> old) = Ok revision <->
  cw_expected w = rec_revision <$> old /\ nz_get revision = from_option (fun r => nz_get (rec_revision r)) 0 old + 1 /\
  match cw_mode w, old with
  | Advance, None => True
  | Advance, Some r => rec_schema r = cw_schema w /\ pos_ltb (rec_position r) (cw_position w) = true
  | Rebuild, Some r => rec_schema r <> cw_schema w
  | Rebuild, None => False
  end.
Proof.
  assert (forall z (n : Revision), 0 <= z -> ok_or (checked_add u64_max z 1 ≫= nz_new) CkRevisionOverflow = Ok n <-> nz_get n = z + 1) as Hnext.
  { intros z n Hz. pose proof (nz_range n). rewrite ok_or_Ok. split.
    - intros (y & Hy%checked_add_Some & Hn%nz_new_Some)%bind_Some. lia.
    - intros Hn. rewrite checked_add_ok by lia. simpl. apply nz_new_Some. lia. }
  unfold next_revision.
  assert ((fun c => c.1.1) <$> (current_of_record <$> old) = rec_revision <$> old) as -> by (by destruct old).
  case_bool_decide as He; simpl; [|split; [done|naive_solver]]. rewrite He. destruct (cw_mode w), old as [r|]; simpl.
  - case_bool_decide as Hs; simpl; [|naive_solver]. unfold pos_ltb.
    destruct (pos_leb (cw_position w) (rec_position r)); simpl; [naive_solver|].
    rewrite Hnext by (pose proof (nz_range (rec_revision r)); lia). naive_solver.
  - pose proof (Hnext 0 revision ltac:(lia)) as Hn. simpl in Hn. rewrite Hn. naive_solver.
  - case_bool_decide as Hs; simpl; [naive_solver|].
    rewrite Hnext by (pose proof (nz_range (rec_revision r)); lia). naive_solver.
  - naive_solver.
Qed.

(** A conditional write lands exactly when the writer knows the
    record's current revision and either advances the position under the same
    schema or explicitly rebuilds a different one; the revision then grows by one,
    so a writer that was overtaken can never land again, and a rejected write
    leaves every record as it was. *)
Theorem commit_checkpoint_exact {S P} `{Ordered P} (cs : InMemoryCheckpointStore (S := S) (P := P)) id w :
  let old := records cs !! id in
  let '(cs', r) := inmemory_commit cs id w in
  (is_ok r = true <->
     cw_expected w = rec_revision <$> old /\ from_option (fun r => nz_get (rec_revision r)) 0 old < u64_max /\
     match cw_mode w, old with
     | Advance, None => True
     | Advance, Some r => rec_schema r = cw_schema w /\ pos_ltb (rec_position r) (cw_position w) = true
     | Rebuild, Some r => rec_schema r <> cw_schema w
     | Rebuild, None => False
     end) /\
  (forall id', id' <> id -> records cs' !! id' = records cs !! id') /\
  match r with
  | Err _ => cs' = cs
  | Ok revision => records cs' !! id = Some (written w revision) /\
      nz_get revision = from_option (fun r => nz_get (rec_revision r)) 0 old + 1
  end.
Proof.
  intros old. unfold inmemory_commit. fold old.
  destruct (next_revision w (current_of_record <$> old)) as [revision|e] eqn:E.
  - apply next_revision_spec in E as (He & Hn & Hm). split_and!.
    + split; [intros _|done]. split_and!; [done|pose proof (nz_range revision); lia|done].
    + intros id' Hne. simpl. by rewrite lookup_insert_ne.
    + simpl. by rewrite lookup_insert_eq.
    + done.
  - split_and!; [|done|done]. split; [done|]. intros (He & Hlt & Hm).
    assert (exists n : Revision, nz_get n = from_option (fun r => nz_get (rec_revision r)) 0 old + 1) as [n Hn].
    { destruct (nz_new (max := u64_max) (from_option (fun r => nz_get (rec_revision r)) 0 old + 1)) as [n|] eqn:En.
      - exists n. by apply nz_new_Some in En.
      - apply nz_new_None in En. destruct old as [r|]; simpl in *; [pose proof (nz_range (rec_revision r))|]; lia. }
    assert (next_revision w (current_of_record <$> old) = Ok n) as E' by (by apply next_revision_spec).
    by rewrite E in E'.
Qed.
