(* ===== verification/Projection.v ===== *)
(** * Projections (crates/store/src/projection.rs)

    A projection folds the events a subscription delivers and checkpoints its
    state together with the position it represents.  Any number of workers may run
    the same projection id against one checkpoint store; [sys_step] interleaves
    them with failed and cancelled writes, redelivered events and schema rebuilds. *)

From S2P Require Import Prelude Version RawStore Checkpoint.

(** The [Projector] trait, over a state and event type shared by the schemas of one
    projection; [apply_attributed] may panic. *)
Record Projector (St Ev PErr : Type) : Type := MkProjector {
  initial_state : St;
  apply_attributed : St -> option StreamKey -> Ev -> outcome St PErr;
}.
Arguments MkProjector {St Ev PErr} _ _.
Arguments initial_state {St Ev PErr} _.
Arguments apply_attributed {St Ev PErr} _ _ _ _.

(** A decoded item split by [Positioned::into_parts]; its name is what the trigger sees. *)
Record DecodedItem (P Ev : Type) : Type := MkItem {
  it_position : P;
  it_key : option StreamKey;
  it_event : Ev;
  it_name : bytes;
}.
Arguments MkItem {P Ev} _ _ _ _.
Arguments it_position {P Ev} _.
Arguments it_key {P Ev} _.
Arguments it_event {P Ev} _.
Arguments it_name {P Ev} _.

Inductive ProjectionStateError : Type := Poisoned | ReloadRequired.

Inductive ProjectionError (PErr SErr : Type) : Type :=
| PApply (e : PErr)
| PCommit (e : CheckpointError SErr)
| PState (e : ProjectionStateError)
| PNonIncreasing.
Arguments PApply {PErr SErr} _.
Arguments PCommit {PErr SErr} _.
Arguments PState {PErr SErr} _.
Arguments PNonIncreasing {PErr SErr}.

Section projection.
Context {CS St P Ev PErr : Type} {OP : Ordered P} {D : EqDecision P} {K : CheckpointStore CS St P}.
(** The projector of each schema, and the persistence trigger. *)
Context (projector : Schema -> Projector St Ev PErr).
Context (should_persist : option P -> P -> bytes -> bool).

Notation PError := (ProjectionError PErr (CkErr CS St P)).

Record Projection : Type := MkProjection {
  pj_id : bytes;
  pj_schema : Schema;
  pj_state : option St;
  pj_revision : option Revision;
  pj_checkpoint : option P;
  pj_observed : option P;
  pj_reload_required : bool;
  pj_rebuilt_from : option Schema;
}.

(** [Projection::assemble], behind [load] and [rebuild]. *)
Definition assemble (cs : CS) (id : bytes) (schema_version : Schema) (mode : CheckpointMode)
  : result Projection (CheckpointError (CkErr CS St P)) :=
  let? hydrated := map_err CkStore (hydrate_checkpoint cs id schema_version) in
  let? x :=
    match mode, hydrated with
    | Advance, CkFound revision position st => Ok (st, Some position, Some revision, None)
    | Advance, CkAbsent => Ok (initial_state (projector schema_version), None, None, None)
    | Advance, CkStale _ stored_schema => Err (CkRejected (CkSchemaMismatch stored_schema schema_version))
    | Rebuild, CkStale revision stored_schema =>
        Ok (initial_state (projector schema_version), None, Some revision, Some stored_schema)
    | Rebuild, _ => Err (CkRejected CkInvalidRebuild)
    end in
  let '(st, checkpoint, revision, rebuilt_from) := x in
  Ok (MkProjection id schema_version (Some st) revision checkpoint checkpoint false rebuilt_from).

Definition load_projection (cs : CS) (id : bytes) (schema : Schema) := assemble cs id schema Advance.
Definition rebuild_projection (cs : CS) (id : bytes) (schema : Schema) := assemble cs id schema Rebuild.

(** [Projection::state]. *)
Definition projection_state (p : Projection) : result St ProjectionStateError :=
  if pj_reload_required p then Err ReloadRequired else ok_or (pj_state p) Poisoned.

Definition set_pj_state (p : Projection) (s : option St) : Projection :=
  MkProjection (pj_id p) (pj_schema p) s (pj_revision p) (pj_checkpoint p) (pj_observed p) (pj_reload_required p) (pj_rebuilt_from p).
Definition set_observed (p : Projection) (o : option P) : Projection :=
  MkProjection (pj_id p) (pj_schema p) (pj_state p) (pj_revision p) (pj_checkpoint p) o (pj_reload_required p) (pj_rebuilt_from p).
Definition set_reload (p : Projection) : Projection :=
  MkProjection (pj_id p) (pj_schema p) (pj_state p) (pj_revision p) (pj_checkpoint p) (pj_observed p) true (pj_rebuilt_from p).
Definition acknowledge (p : Projection) (revision : Revision) (position : P) : Projection :=
  MkProjection (pj_id p) (pj_schema p) (pj_state p) (Some revision) (Some position) (pj_observed p) false (pj_rebuilt_from p).

Definition unpersisted (p : Projection) : option P :=
  match pj_observed p with
  | Some observed => if negb (bool_decide (Some observed = pj_checkpoint p)) then Some observed else None
  | None => None
  end.

(** The write [flush] proposes: none when nothing is unpersisted. *)
Definition proposal (p : Projection) : result (option (CheckpointWrite St P)) ProjectionStateError :=
  let? _ := projection_state p in
  match unpersisted p with
  | None => Ok None
  | Some position =>
      let? st := ok_or (pj_state p) Poisoned in
      let mode := match pj_checkpoint p, pj_revision p with None, Some _ => Rebuild | _, _ => Advance end in
      Ok (Some (MkWrite (pj_revision p) (pj_schema p) position st mode))
  end.

(** [flush]: the instance is unusable from before the write until it is acknowledged. *)
Definition flush (cs : CS) (p : Projection) : CS * Projection * result () PError :=
  match proposal p with
  | Err e => (cs, p, Err (PState e))
  | Ok None => (cs, p, Ok ())
  | Ok (Some write) =>
      match commit_checkpoint cs (pj_id p) write with
      | (cs', Err e) => (cs', set_reload p, Err (PCommit e))
      | (cs', Ok revision) => (cs', acknowledge p revision (cw_position write), Ok ())
      end
  end.

(** The future of [flush] dropped while the write is pending: the write landed
    ([true]) or not. *)
Definition flush_cancelled (landed : bool) (cs : CS) (p : Projection) : CS * Projection :=
  match proposal p with
  | Ok (Some write) => ((if landed then (commit_checkpoint cs (pj_id p) write).1 else cs), set_reload p)
  | _ => (cs, p)
  end.

(** [advance]; the state is taken out before the fold, so a fold that fails or
    panics leaves none. *)
Definition advance (cs : CS) (p : Projection) (item : DecodedItem P Ev)
  : CS * Projection * panicking (result () PError) :=
  match projection_state p with
  | Err e => (cs, p, Returns (Err (PState e)))
  | Ok st =>
      if from_option (fun previous => pos_leb (it_position item) previous) false (pj_observed p)
      then (cs, p, Returns (Err PNonIncreasing))
      else
        match apply_attributed (projector (pj_schema p)) st (it_key item) (it_event item) with
        | Panics => (cs, set_pj_state p None, Panics)
        | Returns (Err e) => (cs, set_pj_state p None, Returns (Err (PApply e)))
        | Returns (Ok folded) =>
            let p := set_observed (set_pj_state p (Some folded)) (Some (it_position item)) in
            if should_persist (pj_checkpoint p) (it_position item) (it_name item)
            then let '(cs', p', r) := flush cs p in (cs', p', Returns r)
            else (cs, p, Returns (Ok ()))
        end
  end.

(** ** The system *)

Context {KS : CheckpointStoreSpec CS St P}.
Context (pid : bytes).

Record Sys : Type := MkSys { sys_store : CS; sys_workers : list Projection; sys_log : list (DecodedItem P Ev) }.

(** The log is in strictly increasing position order. *)
Definition log_sorted (l : list (DecodedItem P Ev)) : Prop :=
  forall i j x y, (i < j)%nat -> l !! i = Some x -> l !! j = Some y -> pos_ltb (it_position x) (it_position y) = true.

(** What a subscription delivers next to an instance that observed [o]. *)
Definition next_item (l : list (DecodedItem P Ev)) (o : option P) : option (DecodedItem P Ev) :=
  List.find (fun x => from_option (fun q => pos_ltb q (it_position x)) true o) l.

(** Steps of the workers of [pid] and of everyone else. *)
Inductive sys_step : Sys -> Sys -> Prop :=
| step_log cs ws l more :
    log_sorted (l ++ more) -> sys_step (MkSys cs ws l) (MkSys cs ws (l ++ more))
| step_other cs cs' ws l :
    record_of cs' pid = record_of cs pid -> sys_step (MkSys cs ws l) (MkSys cs' ws l)
| step_start cs ws l schema mode w :
    assemble cs pid schema mode = Ok w -> sys_step (MkSys cs ws l) (MkSys cs (ws ++ [w]) l)
| step_deliver cs ws l i w x cs' w' r :
    ws !! i = Some w -> next_item l (pj_observed w) = Some x ->
    advance cs w x = (cs', w', r) -> sys_step (MkSys cs ws l) (MkSys cs' (<[i := w']> ws) l)
| step_redeliver cs ws l i w x q cs' w' r :
    ws !! i = Some w -> pj_observed w = Some q -> pos_leb (it_position x) q = true ->
    advance cs w x = (cs', w', r) -> sys_step (MkSys cs ws l) (MkSys cs' (<[i := w']> ws) l)
| step_flush cs ws l i w cs' w' r :
    ws !! i = Some w -> flush cs w = (cs', w', r) -> sys_step (MkSys cs ws l) (MkSys cs' (<[i := w']> ws) l)
| step_cancel cs ws l i w landed cs' w' :
    ws !! i = Some w -> flush_cancelled landed cs w = (cs', w') -> sys_step (MkSys cs ws l) (MkSys cs' (<[i := w']> ws) l).

(** ** Correctness *)

(** Folding a log from the beginning with a schema's projector. *)
Fixpoint fold_items (pr : Projector St Ev PErr) (st : St) (l : list (DecodedItem P Ev)) : option St :=
  match l with
  | [] => Some st
  | x :: l =>
      match apply_attributed pr st (it_key x) (it_event x) with
      | Returns (Ok st') => fold_items pr st' l
      | _ => None
      end
  end.

(** [st] is the fold of the log's prefix that ends at [p]. *)
Definition folded_to (l : list (DecodedItem P Ev)) (schema : Schema) (p : option P) (st : St) : Prop :=
  exists n, (n <= length l)%nat /\ p = it_position <$> last (take n l) /\
    fold_items (projector schema) (initial_state (projector schema)) (take n l) = Some st.

Lemma fold_items_app pr st l1 l2 :
  fold_items pr st (l1 ++ l2) = fold_items pr st l1 ≫= fun st' => fold_items pr st' l2.
Proof.
  revert st. induction l1 as [|x l1 IH]; intros st; simpl; [done|].
  destruct (apply_attributed pr st (it_key x) (it_event x)) as [[st'|]|]; done.
Qed.

Lemma folded_to_grows l more schema p st : folded_to l schema p st -> folded_to (l ++ more) schema p st.
Proof.
  intros (n & Hn & Hp & Hf). exists n. rewrite length_app, take_app_le by lia. split; [lia|done].
Qed.

Lemma find_first {A} (f : A -> bool) l n x :
  l !! n = Some x -> f x = true -> (forall i y, (i < n)%nat -> l !! i = Some y -> f y = false) -> List.find f l = Some x.
Proof.
  revert n. induction l as [|y l IH]; intros [|n] Hl Hf Hb; simplify_eq/=; [by rewrite Hf|].
  rewrite (Hb 0%nat y); [|lia|done]. apply (IH n); [done|done|]. intros i z Hi Hz. apply (Hb (S i)); [lia|done].
Qed.

(** The next item after a folded prefix is the one that follows it. *)
Lemma next_after_prefix l n x :
  log_sorted l -> (n <= length l)%nat -> next_item l (it_position <$> last (take n l)) = Some x -> l !! n = Some x.
Proof.
  intros Hs Hn Hx. unfold next_item in Hx.
  assert (forall i y, (i < n)%nat -> l !! i = Some y ->
    from_option (fun q => pos_ltb q (it_position y)) true (it_position <$> last (take n l)) = false) as Hbelow.
  { intros i y Hi Hy. rewrite last_lookup, length_take_le by done.
    destruct (lookup_lt_is_Some_2 l (Nat.pred n)) as [z Hz]; [lia|].
    rewrite lookup_take_lt, Hz by lia. simpl. unfold pos_ltb. apply negb_false_iff.
    destruct (decide (i = Nat.pred n)) as [->|]; [rewrite Hy in Hz; injection Hz as ->; apply pos_leb_refl|].
    apply pos_ltb_le. eapply (Hs i (Nat.pred n)); [lia|done|done]. }
  destruct (l !! n) as [y|] eqn:Hy.
  - rewrite <- Hx. symmetry. eapply find_first; [exact Hy| |exact Hbelow].
    destruct (last (take n l)) as [z|] eqn:Hz; [|done]. simpl. rewrite last_lookup, length_take_le in Hz by done.
    destruct n as [|n]; [done|]. simpl in Hz. rewrite lookup_take_lt in Hz by lia. eapply (Hs n (S n)); [lia|done|done].
  - apply find_some in Hx as [Hin Hf]. apply list_elem_of_In, list_elem_of_lookup in Hin as [i Hi].
    rewrite (Hbelow i x) in Hf; [done| |done]. apply lookup_ge_None in Hy. apply lookup_lt_Some in Hi. lia.
Qed.

(** A usable worker's state is the fold of what it observed. *)
Definition worker_ok (l : list (DecodedItem P Ev)) (w : Projection) : Prop :=
  pj_id w = pid /\ forall st, projection_state w = Ok st -> folded_to l (pj_schema w) (pj_observed w) st.

Definition record_ok (l : list (DecodedItem P Ev)) (cs : CS) : Prop :=
  forall r, record_of cs pid = Some r -> folded_to l (rec_schema r) (Some (rec_position r)) (rec_state r).

Definition sys_ok (s : Sys) : Prop :=
  log_sorted (sys_log s) /\ record_ok (sys_log s) (sys_store s) /\ Forall (worker_ok (sys_log s)) (sys_workers s).

(** The record after an attempted write: the old one, or the next revision's. *)
Definition record_step (old new : option (CheckpointRecord St P)) : Prop :=
  new = old \/ exists r', new = Some r' /\
    nz_get (rec_revision r') = from_option (fun r => nz_get (rec_revision r)) 0 old + 1 /\
    forall r, old = Some r -> rec_schema r' = rec_schema r -> pos_ltb (rec_position r) (rec_position r') = true.

Lemma commit_record cs id w cs' r :
  commit_checkpoint cs id w = (cs', r) ->
  record_of cs' id = record_of cs id \/
  exists revision, next_revision w (current_of_record <$> record_of cs id) = Ok revision /\
    record_of cs' id = Some (written w revision).
Proof.
  intros [_ H]%commit_spec. destruct r as [revision|[e|e]]; simpl in H; [right; by exists revision|exact H|by left].
Qed.

Lemma written_step w old revision :
  next_revision w (current_of_record <$> old) = Ok revision -> record_step old (Some (written w revision)).
Proof.
  intros (He & Hn & Hm)%next_revision_spec. right. exists (written w revision). split_and!; [done|done|].
  intros r -> Hs. destruct (cw_mode w); simpl in *; [by destruct Hm|by destruct Hm].
Qed.

Lemma proposal_spec p w :
  proposal p = Ok (Some w) ->
  projection_state p = Ok (cw_state w) /\ pj_observed p = Some (cw_position w) /\ cw_schema w = pj_schema p.
Proof.
  unfold proposal. intros (st & Hst & E)%result_bind_Ok. rewrite Hst. unfold projection_state in Hst.
  destruct (pj_reload_required p); [done|]. rewrite Hst in E. unfold unpersisted in E.
  destruct (pj_observed p) as [o|]; [|done]. destruct (negb _); simplify_eq/=. done.
Qed.

(** A write by a good worker keeps the record good. *)
Lemma commit_keeps_record l cs p w cs' r :
  record_ok l cs -> worker_ok l p -> proposal p = Ok (Some w) -> commit_checkpoint cs (pj_id p) w = (cs', r) ->
  record_ok l cs' /\ record_step (record_of cs pid) (record_of cs' pid).
Proof.
  intros Hr [Hid Hw] (Hst & Ho & Hs)%proposal_spec Hc. rewrite Hid in Hc.
  apply commit_record in Hc as [E|(revision & Hn & E)]; unfold record_ok; rewrite E.
  - split; [done|by left].
  - split; [|by apply written_step]. intros r0 [= <-]. simpl. rewrite Hs, <- Ho. by apply Hw.
Qed.

Lemma flush_ok l cs p cs' p' r :
  record_ok l cs -> worker_ok l p -> flush cs p = (cs', p', r) ->
  record_ok l cs' /\ worker_ok l p' /\ record_step (record_of cs pid) (record_of cs' pid).
Proof.
  intros Hr Hw. unfold flush. destruct (proposal p) as [[w|]|e] eqn:Hp;
    [|intros [= <- <- <-]; split_and!; [done|done|by left]..].
  destruct (commit_checkpoint cs (pj_id p) w) as [cs1 [revision|e]] eqn:Hc; intros [= <- <- <-];
    destruct (commit_keeps_record _ _ _ _ _ _ Hr Hw Hp Hc) as [Hr' Hstep]; split_and!; try done.
  - destruct Hw as [Hid Hw]. split; [done|]. intros st Hst. simpl. apply Hw.
    apply proposal_spec in Hp as (Hst' & _). rewrite Hst'. unfold projection_state in *. simpl in Hst.
    destruct (pj_reload_required p); [done|]. congruence.
  - destruct Hw as [Hid _]. split; [done|]. intros st Hst. by unfold projection_state in Hst.
Qed.

Lemma cancel_ok l cs p landed cs' p' :
  record_ok l cs -> worker_ok l p -> flush_cancelled landed cs p = (cs', p') ->
  record_ok l cs' /\ worker_ok l p' /\ record_step (record_of cs pid) (record_of cs' pid).
Proof.
  intros Hr Hw. unfold flush_cancelled. destruct (proposal p) as [[w|]|e] eqn:Hp;
    [|intros [= <- <-]; split_and!; [done|done|by left]..].
  assert (worker_ok l (set_reload p)) as Hw'.
  { destruct Hw as [Hid _]. split; [done|]. intros st Hst. by unfold projection_state in Hst. }
  destruct landed; intros [= <- <-].
  - destruct (commit_checkpoint cs (pj_id p) w) as [cs1 r] eqn:Hc.
    destruct (commit_keeps_record _ _ _ _ _ _ Hr Hw Hp Hc). done.
  - split_and!; [done|done|by left].
Qed.

(** Folding the next item. *)
Lemma folded_next l schema p st x st' :
  log_sorted l -> folded_to l schema p st -> next_item l p = Some x ->
  apply_attributed (projector schema) st (it_key x) (it_event x) = Returns (Ok st') ->
  folded_to l schema (Some (it_position x)) st'.
Proof.
  intros Hs (n & Hn & -> & Hf) Hx Ha. apply next_after_prefix in Hx; [|done|done].
  exists (S n). rewrite (take_S_r _ _ _ Hx). split_and!.
  - apply lookup_lt_Some in Hx. lia.
  - by rewrite last_snoc.
  - rewrite fold_items_app, Hf. simpl. by rewrite Ha.
Qed.

Lemma advance_ok l cs p x cs' p' r :
  log_sorted l -> record_ok l cs -> worker_ok l p ->
  next_item l (pj_observed p) = Some x \/ (exists q, pj_observed p = Some q /\ pos_leb (it_position x) q = true) ->
  advance cs p x = (cs', p', r) ->
  record_ok l cs' /\ worker_ok l p' /\ record_step (record_of cs pid) (record_of cs' pid).
Proof.
  intros Hs Hr Hw Hx. unfold advance.
  destruct (projection_state p) as [st|e] eqn:Hst; [|intros [= <- <- <-]; split_and!; [done|done|by left]].
  destruct (from_option _ false (pj_observed p)) eqn:Hle; [intros [= <- <- <-]; split_and!; [done|done|by left]|].
  assert (next_item l (pj_observed p) = Some x) as Hnext.
  { destruct Hx as [?|(q & Hq & Hqx)]; [done|]. rewrite Hq in Hle. simpl in Hle. congruence. }
  assert (worker_ok l (set_pj_state p None)) as Hnone.
  { destruct Hw as [Hid _]. split; [done|]. intros st0. unfold projection_state. simpl. by destruct (pj_reload_required p). }
  destruct (apply_attributed _ st (it_key x) (it_event x)) as [[st'|e]|] eqn:Ha;
    [|intros [= <- <- <-]; split_and!; [done|done|by left]..].
  set (p1 := set_observed _ _). assert (worker_ok l p1) as Hw1.
  { destruct Hw as [Hid Hw]. split; [done|]. intros st0 Hst0. unfold projection_state in Hst, Hst0. simpl in *.
    destruct (pj_reload_required p) eqn:Hre; [done|]. injection Hst0 as <-.
    eapply folded_next; [done| |exact Hnext|exact Ha]. apply Hw. unfold projection_state. by rewrite Hre. }
  destruct (should_persist _ _ _); [|intros [= <- <- <-]; split_and!; [done|done|by left]].
  destruct (flush cs p1) as [[cs1 p2] r1] eqn:Hf. intros [= <- <- _]. by eapply flush_ok.
Qed.

Lemma assemble_ok l cs schema mode w : record_ok l cs -> assemble cs pid schema mode = Ok w -> worker_ok l w.
Proof.
  intros Hr. unfold assemble. intros (h & Hh%map_err_Ok & E)%result_bind_Ok. apply hydrate_spec in Hh as ->.
  assert (folded_to l schema None (initial_state (projector schema))) as Hinit.
  { exists O. split_and!; [lia|done|done]. }
  unfold describe in E. unfold record_ok in Hr. destruct (record_of cs pid) as [r|].
  - specialize (Hr r eq_refl). case_bool_decide as Hs; destruct mode; simplify_eq/=;
      (split; [done|]); intros st [= <-]; simpl; [done|done].
  - destruct mode; simplify_eq/=. split; [done|]. intros st [= <-]. done.
Qed.

Lemma step_ok s s' :
  sys_ok s -> sys_step s s' -> sys_ok s' /\ record_step (record_of (sys_store s) pid) (record_of (sys_store s') pid).
Proof.
  intros (Hs & Hr & Hw) Hstep. destruct Hstep as [cs ws l more Hs'|cs cs' ws l He|cs ws l schema mode w E|
    cs ws l i w x cs' w' r Hi Hx E|cs ws l i w x q cs' w' r Hi Hq Hx E|cs ws l i w cs' w' r Hi E|cs ws l i w landed cs' w' Hi E];
    unfold sys_ok in *; simpl in *.
  - split; [|by left]. split_and!; [done| |].
    + intros r E. by apply folded_to_grows, Hr.
    + eapply Forall_impl; [exact Hw|]. intros w [? Hf]. split; [done|]. intros st Hst. by apply folded_to_grows, Hf.
  - split; [|by left]. split_and!; [done| |done]. intros r. rewrite He. apply Hr.
  - split; [|by left]. split_and!; [done|done|]. apply Forall_app. split; [done|]. constructor; [|constructor].
    by eapply assemble_ok.
  - destruct (advance_ok l cs w x cs' w' r) as (? & ? & ?); [done|done|by eapply Forall_lookup_1|by left|done|].
    split; [|done]. split_and!; [done|done|by apply Forall_insert].
  - destruct (advance_ok l cs w x cs' w' r) as (? & ? & ?); [done|done|by eapply Forall_lookup_1|right; by exists q|done|].
    split; [|done]. split_and!; [done|done|by apply Forall_insert].
  - destruct (flush_ok l cs w cs' w' r) as (? & ? & ?); [done|by eapply Forall_lookup_1|done|].
    split; [|done]. split_and!; [done|done|by apply Forall_insert].
  - destruct (cancel_ok l cs w landed cs' w') as (? & ? & ?); [done|by eapply Forall_lookup_1|done|].
    split; [|done]. split_and!; [done|done|by apply Forall_insert].
Qed.

(** C11: with any number of workers on one projection, whatever events are
    redelivered, writes fail, are cancelled or race, and schemas are rebuilt, the
    durable record is always the fold, from the initial state, of exactly the log's
    events up to its position, each applied once and in order; so is the state of
    every worker that may still be used.  A step replaces the record only by the
    next revision, further on in the log unless the schema changed. *)
Theorem projection_exactly_once cs0 s :
  record_of cs0 pid = None -> rtc sys_step (MkSys cs0 [] []) s ->
  (forall r, record_of (sys_store s) pid = Some r ->
     folded_to (sys_log s) (rec_schema r) (Some (rec_position r)) (rec_state r)) /\
  (forall w st, w ∈ sys_workers s -> projection_state w = Ok st ->
     folded_to (sys_log s) (pj_schema w) (pj_observed w) st) /\
  (forall s', sys_step s s' -> record_step (record_of (sys_store s) pid) (record_of (sys_store s') pid)).
Proof.
  intros H0 Hr. assert (sys_ok s) as Hok.
  { assert (sys_ok (MkSys cs0 [] [])) as Hok0.
    { split_and!; [by intros i j x y _|intros r; simpl; by rewrite H0|constructor]. }
    induction Hr as [|s1 s2 s3 Hstep _ IH]; [done|]. apply IH. by eapply step_ok. }
  pose proof Hok as (_ & Hrec & Hw). split_and!; [done| |].
  - intros w st Hin. rewrite Forall_forall in Hw. by apply Hw.
  - intros s' Hstep. by apply step_ok.
Qed.

End projection.

(** ** A counting projection over the in-memory checkpoints *)

Definition adder : Schema -> Projector Z Z unit := fun _ =>
  MkProjector 0 (fun st _ e => Returns (if e =? 13 then Err tt else Ok (st + e))).
Definition on_demand (_ : option Version) (_ : Version) (_ : bytes) : bool := false.
Definition schema_one : Schema := MkNonZero (max := u32_max) 1 eq_refl.
Definition item_one : DecodedItem Version Z := MkItem INITIAL None 5 [].
Definition fresh_worker : Projection (St := Z) (P := Version) :=
  MkProjection [] schema_one (Some 0) None None None false None.
Definition folded_worker : Projection (St := Z) (P := Version) :=
  MkProjection [] schema_one (Some 5) None None (Some INITIAL) false None.

Notation adder_step := (sys_step (CS := InMemoryCheckpointStore) adder on_demand []).

Definition flushed := flush (PErr := unit) (K := inmemory_checkpoints) checkpoints_new folded_worker.

(** One event is appended, folded by a worker, and checkpointed. *)
Lemma adder_run :
  rtc adder_step (MkSys checkpoints_new [] []) (MkSys flushed.1.1 [flushed.1.2] [item_one]) /\
  rec_state <$> record_of (CheckpointStoreSpec := inmemory_checkpoints_spec) flushed.1.1 [] = Some 5.
Proof.
  split.
  - eapply rtc_l; [apply (step_log _ _ _ checkpoints_new [] [] [item_one])|].
    { intros [|i] [|j] x y Hij Hx Hy; simplify_eq/=; lia. }
    eapply rtc_l; [apply (step_start _ _ _ _ _ _ schema_one Advance fresh_worker); reflexivity|].
    eapply rtc_l; [apply (step_deliver _ _ _ _ _ _ 0 fresh_worker item_one checkpoints_new folded_worker (Returns (Ok ()))); reflexivity|].
    eapply rtc_l; [|apply rtc_refl].
    refine (step_flush (K := inmemory_checkpoints) adder on_demand [] checkpoints_new [folded_worker] [item_one]
      0 folded_worker flushed.1.1 flushed.1.2 flushed.2 eq_refl _).
    unfold flushed. by destruct (flush checkpoints_new folded_worker) as [[cs w] r].
  - vm_compute. reflexivity.
Qed.

Lemma projection_exactly_once_witness :
  exists cs, rec_state <$> record_of (CheckpointStoreSpec := inmemory_checkpoints_spec) cs [] = Some 5 /\
    (forall r, record_of (CheckpointStoreSpec := inmemory_checkpoints_spec) cs [] = Some r ->
       folded_to adder [item_one] (rec_schema r) (Some (rec_position r)) (rec_state r)).
Proof.
  destruct adder_run as [Hr Hs]. exists flushed.1.1. split; [exact Hs|].
  destruct (projection_exactly_once adder on_demand [] checkpoints_new (MkSys flushed.1.1 [flushed.1.2] [item_one]))
    as (H & _ & _).
  - reflexivity.
  - exact Hr.
  - exact H.
Defined.
