(* ===== verification/Todos.v ===== *)
(** * The todo service (examples/axum-todos/src: domain.rs, index.rs, http.rs)

    An application of the whole stack: one stream per todo, decided by the aggregate and
    saved through the repository, and one read model folded from the log of all streams
    by a projection that publishes its state together with the position it reached.
    HTTP, the watch channel and the subscription are parameters; the theorems show that
    the read model and the aggregates agree, and that a read that waits for the position
    of a write sees it. *)

From Stdlib Require Import String.
From S2P Require Import Prelude Utf8 Version Events Aggregate RawStore Execute Checkpoint Projection.
Close Scope string_scope.
Open Scope list_scope.

(** ** domain.rs *)

(** A [Uuid] is its 16 bytes. *)
Definition Uuid : Type := bytes.
Record TodoId : Type := MkTodoId { todo_uuid : Uuid }.

Inductive TodoEvent : Type :=
| Created (id : Uuid) (text : bytes)
| TextChanged (id : Uuid) (text : bytes)
| CompletionChanged (id : Uuid) (completed : bool)
| Deleted (id : Uuid).

Record TodoState : Type := MkTodoState { created : bool; deleted : bool; st_text : bytes; st_completed : bool }.

Definition todo_initial : TodoState := MkTodoState false false [] false.

Definition todo_apply (s : TodoState) (event : TodoEvent) : TodoState :=
  match event with
  | Created _ text => MkTodoState true (deleted s) text (st_completed s)
  | TextChanged _ text => MkTodoState (created s) (deleted s) text (st_completed s)
  | CompletionChanged _ completed => MkTodoState (created s) (deleted s) (st_text s) completed
  | Deleted _ => MkTodoState (created s) true (st_text s) (st_completed s)
  end.

Inductive TodoError : Type := AlreadyExists | NotFound.

Record Create : Type := MkCreate { cr_id : Uuid; cr_text : bytes }.
Record Update : Type := MkUpdate { up_id : Uuid; up_text : option bytes; up_completed : option bool }.
Record Delete : Type := MkDelete { de_id : Uuid }.

(** [events!] of one event, or of two in a batch with room for two. *)
Definition handle_create (s : TodoState) (cmd : Create) : result (option (Events TodoEvent 0)) TodoError :=
  if created s then Err AlreadyExists else Ok (Some (events_new (Created (cr_id cmd) (cr_text cmd)))).

Definition handle_update (s : TodoState) (cmd : Update) : result (option (Events TodoEvent 1)) TodoError :=
  if negb (created s) || deleted s then Err NotFound
  else
    match up_text cmd, up_completed cmd with
    | Some text, Some completed => Ok (Some (MkEvents (TextChanged (up_id cmd) text) [CompletionChanged (up_id cmd) completed]))
    | Some text, None => Ok (Some (events_new (TextChanged (up_id cmd) text)))
    | None, Some completed => Ok (Some (events_new (CompletionChanged (up_id cmd) completed)))
    | None, None => Ok None
    end.

Definition handle_delete (s : TodoState) (cmd : Delete) : result (option (Events TodoEvent 0)) TodoError :=
  if negb (created s) || deleted s then Err NotFound else Ok (Some (events_new (Deleted (de_id cmd)))).

(** ** index.rs: the read model *)

Record TodoView : Type := MkTodoView { vw_id : Uuid; vw_text : bytes; vw_completed : bool }.
Record TodosIndex : Type := MkTodosIndex { todos : list TodoView }.

(** [skip(offset).take(limit)] at any [usize]. *)
Definition skip {A} (n : Z) (l : list A) : list A := if len l <=? n then [] else drop (Z.to_nat n) l.
Definition take_up_to {A} (n : Z) (l : list A) : list A := if len l <=? n then l else take (Z.to_nat n) l.

Definition page (index : TodosIndex) (offset limit : Z) : list TodoView := take_up_to limit (skip offset (todos index)).
Definition contains (index : TodosIndex) (id : Uuid) : bool := existsb (fun todo => bool_decide (vw_id todo = id)) (todos index).
Definition index_len (index : TodosIndex) : nat := length (todos index).
Definition index_is_empty (index : TodosIndex) : bool := match todos index with [] => true | _ => false end.

Inductive IndexError : Type := UnknownTodo (id : Uuid).

(** [iter_mut().find(..)] and the assignment to what it found. *)
Fixpoint update_first (id : Uuid) (f : TodoView -> TodoView) (l : list TodoView) : option (list TodoView) :=
  match l with
  | [] => None
  | v :: l => if bool_decide (vw_id v = id) then Some (f v :: l) else (fun l => v :: l) <$> update_first id f l
  end.

Definition index_apply (state : TodosIndex) (event : TodoEvent) : result TodosIndex IndexError :=
  match event with
  | Created id text => Ok (MkTodosIndex (todos state ++ [MkTodoView id text false]))
  | TextChanged id text =>
      let? l := ok_or (update_first id (fun v => MkTodoView (vw_id v) text (vw_completed v)) (todos state)) (UnknownTodo id) in
      Ok (MkTodosIndex l)
  | CompletionChanged id completed =>
      let? l := ok_or (update_first id (fun v => MkTodoView (vw_id v) (vw_text v) completed) (todos state)) (UnknownTodo id) in
      Ok (MkTodosIndex l)
  | Deleted id => Ok (MkTodosIndex (filter (fun v => vw_id v <> id) (todos state)))
  end.

Definition index_initial : TodosIndex := MkTodosIndex [].

(** The projector routes by the payload, not by the stream key. *)
Definition todos_projector : Projector TodosIndex TodoEvent IndexError :=
  MkProjector index_initial (fun state _ event => Returns (index_apply state event)).

Definition INDEX_NAME : bytes := text "todos-index".
Definition INDEX_SCHEMA : Schema := MkNonZero (max := u32_max) 1 eq_refl.
Definition every_event {P} (_ : option P) (_ : P) (_ : bytes) : bool := true.

(** ** The read model mirrors the aggregates *)

Definition folded (es : list TodoEvent) : TodoState := fold_left todo_apply es todo_initial.

Lemma todo_folded_snoc es e : folded (es ++ [e]) = todo_apply (folded es) e.
Proof. unfold folded. by rewrite fold_left_app. Qed.

Definition todo_view (id : Uuid) (s : TodoState) : TodoView := MkTodoView id (st_text s) (st_completed s).

(** The streams that commands addressed to their own todo make. *)
Inductive commanded (id : Uuid) : list TodoEvent -> Prop :=
| commanded_nil : commanded id []
| commanded_create es c ds :
    commanded id es -> cr_id c = id -> handle_create (folded es) c = Ok (Some ds) -> commanded id (es ++ iter ds)
| commanded_update es c ds :
    commanded id es -> up_id c = id -> handle_update (folded es) c = Ok (Some ds) -> commanded id (es ++ iter ds)
| commanded_delete es c ds :
    commanded id es -> de_id c = id -> handle_delete (folded es) c = Ok (Some ds) -> commanded id (es ++ iter ds).

(** Their shape, event by event. *)
Definition changes (id : Uuid) (e : TodoEvent) : Prop :=
  match e with Created _ _ => False | TextChanged i _ | CompletionChanged i _ | Deleted i => i = id end.

Inductive lifecycle (id : Uuid) : list TodoEvent -> Prop :=
| lifecycle_nil : lifecycle id []
| lifecycle_created text : lifecycle id [Created id text]
| lifecycle_change es e :
    lifecycle id es -> created (folded es) = true -> deleted (folded es) = false -> changes id e -> lifecycle id (es ++ [e]).

(** What an event may follow. *)
Lemma lifecycle_snoc id es e :
  lifecycle id (es ++ [e]) ->
  lifecycle id es /\ ((es = [] /\ exists text, e = Created id text)
    \/ (created (folded es) = true /\ deleted (folded es) = false /\ changes id e)).
Proof.
  inversion 1 as [E|t E|es' e' H1 H2 H3 H4 E].
  - by destruct es.
  - destruct es as [|? [|]]; simplify_eq/=. split; [constructor|]. left. split; [done|]. by exists t.
  - apply app_inj_tail in E as [-> ->]. split; [done|]. by right.
Qed.

Lemma lifecycle_uncreated id es : lifecycle id es -> created (folded es) = false -> es = [].
Proof.
  induction 1 as [|t|es e _ IH Hc Hd He]; [done|done|]. rewrite todo_folded_snoc. destruct e; cbn; congruence.
Qed.

Lemma commanded_lifecycle id es : commanded id es -> lifecycle id es.
Proof.
  induction 1 as [|es c ds _ IH Hi E|es c ds _ IH Hi E|es c ds _ IH Hi E]; [constructor|..].
  - unfold handle_create in E. destruct (created (folded es)) eqn:Hc; simplify_eq.
    rewrite (lifecycle_uncreated _ _ IH Hc). constructor.
  - unfold handle_update in E. destruct (created (folded es)) eqn:Hc, (deleted (folded es)) eqn:Hd; simplify_eq/=.
    destruct (up_text c) as [t|], (up_completed c) as [b|]; simplify_eq/=; try (by apply lifecycle_change).
    unfold iter. cbn [first rest]. rewrite cons_middle, app_assoc.
    apply lifecycle_change; [by apply lifecycle_change|by rewrite todo_folded_snoc..|done].
  - unfold handle_delete in E. destruct (created (folded es)) eqn:Hc, (deleted (folded es)) eqn:Hd; simplify_eq/=.
    by apply lifecycle_change.
Qed.

(** The log of all streams: each event with the todo whose stream it is in. *)
Notation TodoLog := (list (Uuid * TodoEvent)).

Definition stream_events (id : Uuid) (log : TodoLog) : list TodoEvent := (filter (fun x => x.1 = id) log).*2.

Lemma stream_events_snoc id log x :
  stream_events id (log ++ [x]) = stream_events id log ++ (if bool_decide (x.1 = id) then [x.2] else []).
Proof.
  unfold stream_events. rewrite filter_app, fmap_app. f_equal. unfold filter, list_filter.
  by case_bool_decide; case_decide.
Qed.

(** Every stream was made by commands. *)
Definition commanded_log (log : TodoLog) : Prop := forall id, commanded id (stream_events id log).

(** Every stream has the shape commands give it; unlike the former this holds of every
    prefix of the log, also one that ends inside a batch. *)
Definition lifecycle_log (log : TodoLog) : Prop := forall id, lifecycle id (stream_events id log).

Lemma lifecycle_log_snoc log x : lifecycle_log (log ++ [x]) -> lifecycle_log log.
Proof.
  intros H id. specialize (H id). rewrite stream_events_snoc in H. case_bool_decide; [|by rewrite app_nil_r in H].
  by apply lifecycle_snoc in H as [? _].
Qed.

Lemma lifecycle_log_prefix log more : lifecycle_log (log ++ more) -> lifecycle_log log.
Proof.
  induction more as [|x more IH] using rev_ind; [by rewrite app_nil_r|]. rewrite app_assoc. intros H%lifecycle_log_snoc. by apply IH.
Qed.

(** The todos in the order of their creation, and those that live. *)
Definition created_id (x : Uuid * TodoEvent) : option Uuid := match x.2 with Created id _ => Some id | _ => None end.
Definition created_ids (log : TodoLog) : list Uuid := omap created_id log.
Definition living (log : TodoLog) (id : Uuid) : option TodoView :=
  let s := folded (stream_events id log) in if deleted s then None else Some (todo_view id s).
Definition living_todos (log : TodoLog) : list TodoView := omap (living log) (created_ids log).

Lemma created_ids_snoc log x : created_ids (log ++ [x]) = created_ids log ++ match created_id x with Some id => [id] | None => [] end.
Proof. unfold created_ids. rewrite omap_app. cbn. by destruct (created_id x). Qed.

(** A list of todos changed at one id. *)
Section one_changed.
Context (f g : Uuid -> option TodoView) (id : Uuid).
Context (f_id : forall j v, f j = Some v -> vw_id v = j) (same : forall j, j <> id -> g j = f j).

Lemma omap_same (ids : list Uuid) : id ∉ ids -> omap g ids = omap f ids.
Proof using same.
  induction ids as [|j ids IH]; [done|]. intros [Hj Hids]%not_elem_of_cons. cbn. by rewrite same, IH by congruence.
Qed.

Lemma update_living (ids : list Uuid) v h :
  NoDup ids -> id ∈ ids -> f id = Some v -> g id = Some (h v) ->
  update_first id h (omap f ids) = Some (omap g ids).
Proof using f_id same.
  intros Hnd Hin Hf Hg. induction Hnd as [|j ids Hj Hnd IH]; [by apply elem_of_nil in Hin|]. cbn.
  destruct (decide (j = id)) as [->|Hne].
  - rewrite Hf, Hg, (omap_same ids) by done. cbn. by rewrite bool_decide_eq_true_2 by (by apply f_id).
  - apply elem_of_cons in Hin as [?|Hin]; [congruence|]. rewrite (same j Hne). destruct (f j) as [w|] eqn:Hw; [|by apply IH].
    cbn. rewrite bool_decide_eq_false_2 by (apply f_id in Hw; congruence). by rewrite IH.
Qed.

Lemma filter_living (ids : list Uuid) : NoDup ids -> g id = None -> filter (fun v => vw_id v <> id) (omap f ids) = omap g ids.
Proof using f_id same.
  intros Hnd Hg. induction Hnd as [|j ids Hj Hnd IH]; [done|]. cbn. destruct (decide (j = id)) as [->|Hne].
  - rewrite Hg. destruct (f id) as [w|] eqn:Hw; [|done]. rewrite filter_cons_False by (apply f_id in Hw; congruence). done.
  - rewrite (same j Hne). destruct (f j) as [w|] eqn:Hw; [|done]. rewrite filter_cons_True by (apply f_id in Hw; congruence).
    by rewrite IH.
Qed.
End one_changed.

Lemma living_id log j v : living log j = Some v -> vw_id v = j.
Proof. unfold living. destruct (deleted _); [done|]. by intros [= <-]. Qed.

Lemma living_other log x j : j <> x.1 -> living (log ++ [x]) j = living log j.
Proof. intros Hne. unfold living. rewrite stream_events_snoc, bool_decide_eq_false_2, app_nil_r by congruence. done. Qed.

Lemma living_snoc log id e :
  living (log ++ [(id, e)]) id =
  let s := todo_apply (folded (stream_events id log)) e in if deleted s then None else Some (todo_view id s).
Proof. unfold living. by rewrite stream_events_snoc, bool_decide_eq_true_2, todo_folded_snoc. Qed.

Fixpoint fold_index (state : TodosIndex) (events : list TodoEvent) : result TodosIndex IndexError :=
  match events with
  | [] => Ok state
  | e :: events => let? state := index_apply state e in fold_index state events
  end.

Lemma fold_index_snoc events st e : fold_index st (events ++ [e]) = let? st := fold_index st events in index_apply st e.
Proof.
  revert st. induction events as [|f events IH]; intros st; cbn; [by destruct (index_apply st e)|].
  destruct (index_apply st f); [apply IH|done].
Qed.

Definition index_inv (log : TodoLog) : Prop :=
  NoDup (created_ids log) /\ (forall id, id ∈ created_ids log <-> created (folded (stream_events id log)) = true)
  /\ fold_index index_initial log.*2 = Ok (MkTodosIndex (living_todos log)).

(** Creation. *)
Lemma index_step_created log id t :
  index_inv log -> stream_events id log = [] -> index_inv (log ++ [(id, Created id t)]).
Proof.
  intros (Hnd & Hin & Hf) Hs. assert (id ∉ created_ids log) as Hnew by (rewrite Hin, Hs; done).
  unfold index_inv, living_todos. rewrite created_ids_snoc, fmap_app. cbn [created_id snd]. split_and!.
  - apply NoDup_app. split_and!; [done|set_solver|apply NoDup_singleton].
  - intros j. rewrite elem_of_app, list_elem_of_singleton, Hin, stream_events_snoc. cbn. case_bool_decide as Hj.
    + subst j. rewrite todo_folded_snoc. cbn. naive_solver.
    + rewrite app_nil_r. naive_solver.
  - cbn. rewrite fold_index_snoc, Hf. cbn. rewrite omap_app. cbn. rewrite living_snoc, Hs. cbn.
    by rewrite (omap_same (living log) _ id) by (done || (intros; by apply living_other)).
Qed.

(** A change of a todo that lives. *)
Lemma index_step_change log id e :
  index_inv log -> created (folded (stream_events id log)) = true -> deleted (folded (stream_events id log)) = false ->
  changes id e -> index_inv (log ++ [(id, e)]).
Proof.
  intros (Hnd & Hin & Hf) Hc Hd He. assert (created_ids (log ++ [(id, e)]) = created_ids log) as Eids
    by (rewrite created_ids_snoc; destruct e; [done|..]; apply app_nil_r).
  unfold index_inv, living_todos. rewrite Eids, fmap_app. split_and!; [done| |].
  - intros j. rewrite Hin, stream_events_snoc. cbn. case_bool_decide as Hj; [|by rewrite app_nil_r].
    subst j. rewrite todo_folded_snoc. destruct e; cbn; naive_solver.
  - cbn. rewrite fold_index_snoc, Hf. cbn. assert (living log id = Some (todo_view id (folded (stream_events id log)))) as Hl
      by (unfold living; by rewrite Hd).
    assert (forall j, j <> id -> living (log ++ [(id, e)]) j = living log j) as Hsame by (intros; by apply living_other).
    pose proof (living_snoc log id e) as Hg. destruct e as [|i t|i b|i]; cbn in He; [done|subst i..]; cbn in Hg |- *.
    + rewrite Hd in Hg. unfold living_todos. erewrite update_living; [done|apply living_id|done|done|by apply Hin|done|done].
    + rewrite Hd in Hg. unfold living_todos. erewrite update_living; [done|apply living_id|done|done|by apply Hin|done|done].
    + unfold living_todos. by rewrite (filter_living _ (living (log ++ [(id, Deleted id)])) id) by (done || apply living_id).
Qed.

Lemma lifecycle_index log : lifecycle_log log -> index_inv log.
Proof.
  induction log as [|[id e] log IH] using rev_ind; intros Hl.
  - split_and!; [constructor| |done]. intros id. cbn. split; [by intros ?%elem_of_nil|done].
  - specialize (IH (lifecycle_log_snoc _ _ Hl)). specialize (Hl id). rewrite stream_events_snoc in Hl. cbn in Hl.
    rewrite bool_decide_eq_true_2 in Hl by done. apply lifecycle_snoc in Hl as [_ [(Hs & t & ->)|(Hc & Hd & He)]].
    + by apply index_step_created.
    + by apply index_step_change.
Qed.

(** The read model of the todo service mirrors its aggregates.  Take any log in which
    the streams, each made by commands to its own todo, are interleaved in any way: the
    projection folds it without an error, and the index lists exactly the todos that were
    created and not deleted, each once, in the order of creation, with the text and the
    completion its aggregate folds from its stream. *)
Theorem index_mirrors_aggregates log :
  commanded_log log ->
  fold_index index_initial log.*2 = Ok (MkTodosIndex (living_todos log))
  /\ NoDup (created_ids log) /\ forall id, id ∈ created_ids log <-> created (folded (stream_events id log)) = true.
Proof.
  intros Hc. destruct (lifecycle_index log) as (? & ? & ?); [|done]. intros id. by apply commanded_lifecycle, Hc.
Qed.

(** ** index.rs: the projection loop *)

Section loop.
Context {CS P : Type} {OP : Ordered P} {D : EqDecision P} {K : CheckpointStore CS TodosIndex P} {ReadErr : Type}.

(** What the loop publishes: the index and the position it was folded through. *)
Record IndexState : Type := MkIndexState { is_index : TodosIndex; is_checkpoint : option P }.

(** [hydrate], the seed of the channel. *)
Definition hydrate (cs : CS) : result (TodosIndex * option P) (CheckpointError (CkErr CS TodosIndex P)) :=
  let? h := map_err CkStore (hydrate_checkpoint cs INDEX_NAME INDEX_SCHEMA) in
  match h with
  | CkFound _ position state => Ok (state, Some position)
  | CkAbsent => Ok (index_initial, None)
  | CkStale _ stored_schema => Err (CkRejected (CkSchemaMismatch stored_schema INDEX_SCHEMA))
  end.

(** The boxed error of the loop. *)
Inductive BoxErr : Type :=
| LoadErr (e : CheckpointError (CkErr CS TodosIndex P))
| StreamErr (e : ReadErr)
| AdvanceErr (e : ProjectionError IndexError (CkErr CS TodosIndex P))
| StateErr (e : ProjectionStateError).

Notation Item := (DecodedItem P TodoEvent).
Notation TodosProjection := (Projection (St := TodosIndex) (P := P)).

(** The [while let] of [run] over the items the subscription yields before it ends. *)
Fixpoint run_items (cs : CS) (proj : TodosProjection) (items : list (result Item ReadErr))
  : CS * list IndexState * panicking (result () BoxErr) :=
  match items with
  | [] => (cs, [], Returns (Ok ()))
  | Err e :: _ => (cs, [], Returns (Err (StreamErr e)))
  | Ok item :: items =>
      match advance (fun _ => todos_projector) every_event cs proj item with
      | (cs, proj, Panics) => (cs, [], Panics)
      | (cs, proj, Returns (Err e)) => (cs, [], Returns (Err (AdvanceErr e)))
      | (cs, proj, Returns (Ok _)) =>
          match projection_state proj with
          | Err e => (cs, [], Returns (Err (StateErr e)))
          | Ok st =>
              let '(cs, published, r) := run_items cs proj items in
              (cs, MkIndexState st (pj_checkpoint proj) :: published, r)
          end
      end
  end.

Definition run (cs : CS) (subscribe_all : option P -> result (list (result Item ReadErr)) ReadErr)
  : CS * list IndexState * panicking (result () BoxErr) :=
  match load_projection (fun _ => todos_projector) cs INDEX_NAME INDEX_SCHEMA with
  | Err e => (cs, [], Returns (Err (LoadErr e)))
  | Ok proj =>
      match subscribe_all (pj_checkpoint proj) with
      | Err e => (cs, [], Returns (Err (StreamErr e)))
      | Ok items => run_items cs proj items
      end
  end.

(** ** What is published *)

Context {KS : CheckpointStoreSpec CS TodosIndex P}.
Context (log : list Item).

Notation folded_to := (folded_to (fun _ => todos_projector) log INDEX_SCHEMA).
Notation record_ok := (record_ok (fun _ => todos_projector) INDEX_NAME log).
Notation worker_ok := (worker_ok (fun _ => todos_projector) INDEX_NAME log).

(** The events before the first error of a subscription. *)
Fixpoint delivered (items : list (result Item ReadErr)) : list Item :=
  match items with Ok x :: items => x :: delivered items | _ => [] end.

(** The part of the log after a position. *)
Definition after (o : option P) : list Item := filter (fun x => from_option (fun q => pos_ltb q (it_position x)) true o = true) log.

Lemma find_head {A} (f : A -> bool) l : List.find f l = head (filter (fun x => f x = true) l).
Proof.
  induction l as [|x l IH]; [done|]. cbn [List.find].
  destruct (f x) eqn:E; [by rewrite filter_cons_True|by rewrite filter_cons_False by congruence].
Qed.

Lemma after_prefix n : log_sorted log -> (n <= length log)%nat -> after (it_position <$> last (take n log)) = drop n log.
Proof.
  intros Hs Hn. unfold after. remember (it_position <$> last (take n log)) as o eqn:Ho.
  rewrite <- (take_drop n log) at 1. rewrite filter_app, filter_none, filter_all; [done|..]; subst o.
  - apply Forall_lookup. intros i y Hy. destruct (last (take n log)) as [z|] eqn:Hz; [|done]. cbn.
    rewrite last_lookup, length_take_le in Hz by done. rewrite lookup_drop in Hy. destruct n as [|n]; [done|].
    rewrite lookup_take_lt in Hz by (cbn; lia). eapply (Hs n (S n + i)%nat); [lia|done|done].
  - apply Forall_lookup. intros i y Hy. pose proof (lookup_lt_Some _ _ _ Hy) as Hi. rewrite length_take_le in Hi by done.
    rewrite last_lookup, length_take_le by done. rewrite lookup_take_lt in Hy by done.
    destruct (lookup_lt_is_Some_2 log (Nat.pred n)) as [z Hz]; [lia|]. rewrite lookup_take_lt, Hz by lia. cbn.
    unfold pos_ltb. rewrite not_true_iff_false, negb_false_iff.
    destruct (decide (i = Nat.pred n)) as [->|]; [rewrite Hy in Hz; injection Hz as ->; apply pos_leb_refl|].
    apply pos_ltb_le. eapply (Hs i (Nat.pred n)); [lia|done|done].
Qed.

(** A flush that succeeds leaves the checkpoint at what was observed. *)
Lemma flush_acknowledged cs (p : TodosProjection) cs' p' pos :
  flush (PErr := IndexError) cs p = (cs', p', Ok ()) -> pj_observed p = Some pos ->
  pj_schema p' = pj_schema p /\ pj_observed p' = Some pos /\ pj_checkpoint p' = Some pos.
Proof.
  unfold flush. intros Hf Ho. destruct (proposal p) as [[w|]|e] eqn:Hp; [| |done].
  - apply proposal_spec in Hp as (_ & Hw & _). destruct (commit_checkpoint cs (pj_id p) w) as [cs1 [revision|]]; simplify_eq; cbn.
    done.
  - simplify_eq. split_and!; [done..|]. unfold proposal in Hp. apply result_bind_Ok in Hp as (st & _ & Hp).
    unfold unpersisted in Hp. rewrite Ho in Hp. destruct (bool_decide (Some pos = pj_checkpoint p')) eqn:E; cbn in Hp.
    + by apply bool_decide_eq_true in E.
    + by destruct (pj_state p').
Qed.

(** An advance that succeeds has observed and checkpointed its item. *)
Lemma advance_acknowledged cs proj x cs' proj' :
  advance (fun _ => todos_projector) every_event cs proj x = (cs', proj', Returns (Ok ())) ->
  (exists st, projection_state proj = Ok st) /\ pj_observed proj' = Some (it_position x) /\ pj_checkpoint proj' = Some (it_position x).
Proof.
  unfold advance. destruct (projection_state proj) as [st0|] eqn:Hst; [|done]. intros Ha. split; [by eexists|].
  destruct (from_option _ _ _); [done|]. cbn in Ha. destruct (index_apply st0 (it_event x)) as [st1|]; [|done]. cbn in Ha.
  match type of Ha with context [flush cs ?p] => destruct (flush (PErr := IndexError) cs p) as [[cs1 p2] r1] eqn:Hf end.
  simplify_eq. by eapply flush_acknowledged in Hf as (_ & ? & ?).
Qed.

(** What the subscription yields is what comes next. *)
Lemma delivered_next o x items : x :: items `prefix_of` after o -> next_item log o = Some x.
Proof. intros [k Hk]. unfold next_item. rewrite find_head. fold (after o). by rewrite Hk. Qed.

(** And the rest comes next after it. *)
Lemma advance_rest cs proj x cs' proj' items :
  log_sorted log -> worker_ok proj -> x :: items `prefix_of` after (pj_observed proj) ->
  advance (fun _ => todos_projector) every_event cs proj x = (cs', proj', Returns (Ok ())) ->
  pj_checkpoint proj' = pj_observed proj' /\ items `prefix_of` after (pj_observed proj').
Proof.
  intros Hs Hw Hpre Ha. destruct (advance_acknowledged _ _ _ _ _ Ha) as ([st Hst] & Ho & Hck). split; [congruence|].
  destruct (proj2 Hw st Hst) as (n & Hn & Hobs & _). rewrite Hobs, after_prefix in Hpre by done.
  assert (log !! n = Some x) as Hx by (destruct Hpre as [k Hk]; by rewrite <- (Nat.add_0_r n), <- lookup_drop, Hk).
  rewrite Ho. pose proof (lookup_lt_Some _ _ _ Hx).
  replace (Some (it_position x)) with (it_position <$> last (take (S n) log)) by (by rewrite (take_S_r _ _ _ Hx), last_snoc).
  rewrite after_prefix by (done || lia). erewrite (drop_S log) in Hpre by done. by apply prefix_cons_inv_2 in Hpre.
Qed.

Lemma run_items_published items cs proj cs' published r :
  log_sorted log -> record_ok cs -> worker_ok proj -> delivered items `prefix_of` after (pj_observed proj) ->
  run_items cs proj items = (cs', published, r) ->
  record_ok cs' /\ Forall (fun s => folded_to (is_checkpoint s) (is_index s)) published.
Proof.
  revert cs proj published. induction items as [|[x|e] items IH]; intros cs proj published Hs Hr Hw Hpre; cbn in *;
    [by intros [= <- <- <-]| |by intros [= <- <- <-]].
  destruct (advance _ _ cs proj x) as [[cs1 proj1] o] eqn:Ha.
  destruct (advance_ok (fun _ => todos_projector) every_event INDEX_NAME log cs proj x cs1 proj1 o) as (Hr1 & Hw1 & _);
    [done..|left; by eapply delivered_next|done|].
  destruct o as [[[]|e]|]; [|by intros [= <- <- <-]..].
  destruct (advance_rest _ _ _ _ _ _ Hs Hw Hpre Ha) as (Hck & Hpre1).
  destruct (projection_state proj1) as [st|] eqn:Hst; [|by intros [= <- <- <-]].
  destruct (run_items cs1 proj1 items) as [[cs2 pub] r2] eqn:Hrun. intros [= <- <- <-].
  destruct (IH _ _ _ Hs Hr1 Hw1 Hpre1 Hrun) as [? ?]. split; [done|]. constructor; [|done]. cbn. rewrite Hck. by apply Hw1.
Qed.

Lemma hydrate_folded cs st ck : record_ok cs -> hydrate cs = Ok (st, ck) -> folded_to ck st.
Proof.
  intros Hr. unfold hydrate. intros (h & Hh%map_err_Ok & E)%result_bind_Ok. apply hydrate_spec in Hh as ->.
  unfold describe in E. unfold Projection.record_ok in Hr. destruct (record_of cs INDEX_NAME) as [rec|]; [|injection E as <- <-].
  - specialize (Hr rec eq_refl). case_bool_decide as Hs; cbn in E; [|done]. injection E as <- <-. exact Hr.
  - exists O. split_and!; [lia|done|done].
Qed.

Lemma run_published cs subscribe_all cs' published r :
  log_sorted log -> record_ok cs ->
  (forall o items, subscribe_all o = Ok items -> delivered items `prefix_of` after o) ->
  run cs subscribe_all = (cs', published, r) ->
  record_ok cs' /\ Forall (fun s => folded_to (is_checkpoint s) (is_index s)) published.
Proof.
  intros Hs Hr Hsub. unfold run. destruct (load_projection _ cs INDEX_NAME INDEX_SCHEMA) as [proj|e] eqn:Hl; [|by intros [= <- <- <-]].
  destruct (subscribe_all (pj_checkpoint proj)) as [items|e] eqn:Hi; [|by intros [= <- <- <-]].
  apply run_items_published; [done|done|by eapply assemble_ok|].
  replace (pj_observed proj) with (pj_checkpoint proj); [by apply Hsub|].
  unfold load_projection, assemble in Hl. apply result_bind_Ok in Hl as (h & _ & Hl). apply result_bind_Ok in Hl as ([[[? ?] ?] ?] & _ & Hl).
  by simplify_eq.
Qed.

(** The log of a subscription as one of streams and events. *)
Definition log_of (l : list Item) : TodoLog := (fun x : Item => (from_option sk_bytes [] (it_key x), it_event x)) <$> l.

Lemma fold_items_index (l : list Item) st : fold_items todos_projector st l = match fold_index st (it_event <$> l) with Ok st => Some st | Err _ => None end.
Proof. revert st. induction l as [|x l IH]; intros st; [done|]. cbn. destruct (index_apply st (it_event x)); [apply IH|done]. Qed.

(** A published index shows the aggregates as they were at its checkpoint. *)
Lemma folded_mirrors ck index :
  lifecycle_log (log_of log) -> folded_to ck index ->
  exists n, (n <= length log)%nat /\ ck = it_position <$> last (take n log) /\ index = MkTodosIndex (living_todos (log_of (take n log))).
Proof.
  intros Hl (n & Hn & Hck & Hf). exists n. split_and!; [done..|].
  destruct (lifecycle_index (log_of (take n log))) as (_ & _ & Hx).
  { apply (lifecycle_log_prefix _ (log_of (drop n log))). unfold log_of. by rewrite <- fmap_app, take_drop. }
  rewrite fold_items_index in Hf. unfold log_of in Hx at 1. rewrite <- list_fmap_compose in Hx.
  change (snd ∘ _) with (it_event (P := P) (Ev := TodoEvent)) in Hx. cbn in Hf. rewrite Hx in Hf. by injection Hf as <-.
Qed.
End loop.
