(* ===== verification/SignedEvents.v ===== *)
(** * A tamper-evident register (examples/signed-events/src: domain.rs, projection.rs)

    An application of the library: an aggregate whose events are signed by the owner of
    the register and carry the digest of the event before them, and a projection that
    trusts nothing it reads and checks every signature and link again.  blake3 and
    ed25519 are parameters; no theorem assumes that a hash has no collisions, those
    that depend on it produce the collision instead. *)

From Stdlib Require Import String.
From S2P Require Import Prelude Utf8 Version Events Aggregate RawStore Projection.
Close Scope string_scope.
Open Scope list_scope.

(** ** blake3 and ed25519 *)

Class Crypto := {
  (** [blake3::hash], and [blake3::Hasher::new_derive_key(context)] fed with some bytes. *)
  blake3_hash : bytes -> bytes;
  blake3_derive : bytes -> bytes -> bytes;
  blake3_hash_length b : length (blake3_hash b) = 32%nat;
  blake3_derive_length c b : length (blake3_derive c b) = 32%nat;
  SigningKey : Type;
  VerifyingKey : Type;
  verifying_key : SigningKey -> VerifyingKey;
  key_to_bytes : VerifyingKey -> bytes;
  key_from_bytes : bytes -> option VerifyingKey;
  sign : SigningKey -> bytes -> bytes;
  verify_strict : VerifyingKey -> bytes -> bytes -> bool;
  key_bytes_length k : length (key_to_bytes k) = 32%nat;
  signature_length k m : length (sign k m) = 64%nat;
  key_roundtrip k : key_from_bytes (key_to_bytes k) = Some k;
  sign_verifies k m : verify_strict (verifying_key k) m (sign k m) = true;
}.

Section register.
Context {T : Target} {K : Crypto}.

(** ** domain.rs *)

Definition INCEPT_TAG : bytes := text "incept".
Definition SET_TAG : bytes := text "set".

Inductive SignatureVersion : Type := V2.
Record SignatureVersionError : Type := MkSignatureVersionError { sv_actual : Z }.

Definition sv_get (v : SignatureVersion) : Z := match v with V2 => 2 end.
Definition sv_try_from (actual : Z) : result SignatureVersion SignatureVersionError :=
  if actual =? sv_get V2 then Ok V2 else Err (MkSignatureVersionError actual).

(** [blake3::Hasher]: its context and what it was fed. *)
Record Hasher : Type := MkHasher { h_context : bytes; h_input : bytes }.
Definition new_derive_key (context : string) : Hasher := MkHasher (text context) [].
Definition update (h : Hasher) (b : bytes) : Hasher := MkHasher (h_context h) (h_input h ++ b).
Definition finalize (h : Hasher) : bytes := blake3_derive (h_context h) (h_input h).

Definition signing_hasher (version : SignatureVersion) (event_tag : bytes) : Hasher :=
  let hasher := new_derive_key "devrandom-labs/mnesis/examples/signed-events/signing-preimage" in
  let hasher := update hasher [byte.of_Z (sv_get version)] in
  update hasher event_tag.

(** [RegisterId]: 32 bytes. *)
Definition RegisterId : Type := bytes.
Definition from_pubkey (pubkey : bytes) : RegisterId := blake3_hash pubkey.
Definition from_key_bytes (b : bytes) : option RegisterId := if len b =? 32 then Some b else None.

Inductive RegisterEvent : Type :=
| Inception (signature_version : SignatureVersion) (owner_pubkey sig : bytes)
| SetEntry (signature_version : SignatureVersion) (key val prior_digest sig : bytes).

Definition inception_preimage (version : SignatureVersion) (owner_pubkey : bytes) : bytes :=
  let hasher := signing_hasher version INCEPT_TAG in
  finalize (update hasher owner_pubkey).

Definition set_preimage (version : SignatureVersion) (key val prior_digest : bytes) : bytes :=
  let hasher := signing_hasher version SET_TAG in
  let hasher := update hasher (blake3_hash key) in
  let hasher := update hasher (blake3_hash val) in
  finalize (update hasher prior_digest).

Definition event_digest (event : RegisterEvent) : bytes :=
  let signature_version := match event with Inception v _ _ | SetEntry v _ _ _ _ => v end in
  let hasher := new_derive_key "devrandom-labs/mnesis/examples/signed-events/event-digest" in
  let hasher := update hasher [byte.of_Z (sv_get signature_version)] in
  let hasher :=
    match event with
    | Inception _ owner_pubkey sig =>
        let hasher := update hasher (text "Inception" ++ [byte.of_Z 0]) in
        let hasher := update hasher owner_pubkey in
        update hasher sig
    | SetEntry _ key val prior_digest sig =>
        let hasher := update hasher (text "Set" ++ [byte.of_Z 0]) in
        let hasher := update hasher (blake3_hash key) in
        let hasher := update hasher (blake3_hash val) in
        let hasher := update hasher prior_digest in
        update hasher sig
    end in
  finalize hasher.

Record RegisterState : Type := MkRegisterState {
  entries : gmap bytes bytes;
  last_digest : option bytes;
  owner : option VerifyingKey;
}.

Definition register_initial : RegisterState := MkRegisterState ∅ None None.

Definition register_apply (s : RegisterState) (event : RegisterEvent) : RegisterState :=
  match event with
  | Inception _ owner_pubkey _ => MkRegisterState (entries s) (Some (event_digest event)) (key_from_bytes owner_pubkey)
  | SetEntry _ key val _ _ => MkRegisterState (<[key := val]> (entries s)) (Some (event_digest event)) (owner s)
  end.

Inductive RegisterError : Type :=
| RBadSignature
| RBrokenChain (expected actual : bytes)
| RUnauthorized
| RNotIncepted
| RAlreadyIncepted.

(** What the [aggregate] attribute and the [DomainEvent] derive make of it. *)
#[export] Instance signed_register : Aggregate := {
  State := RegisterState;
  Event := RegisterEvent;
  AError := RegisterError;
  Id := RegisterId;
  initial := register_initial;
  apply s e := Returns (register_apply s e);
  event_name e := match e with Inception _ _ _ => text "Inception" | SetEntry _ _ _ _ _ => text "Set" end;
  event_name_utf8 e := match e with Inception _ _ _ | SetEntry _ _ _ _ _ => eq_refl end;
  id_as_ref id := id;
  MAX_REHYDRATION_EVENTS := DEFAULT_MAX_REHYDRATION_EVENTS;
}.

Record Incept : Type := MkIncept { in_signing_key : SigningKey }.
Record SubmitSet : Type := MkSubmitSet { ss_key : bytes; ss_val : bytes; ss_signing_key : SigningKey }.

Definition handle_incept (s : RegisterState) (cmd : Incept) : result (option (Events RegisterEvent 0)) RegisterError :=
  if bool_decide (is_Some (owner s)) then Err RAlreadyIncepted
  else
    let owner_pubkey := key_to_bytes (verifying_key (in_signing_key cmd)) in
    let signature_version := V2 in
    let preimage := inception_preimage signature_version owner_pubkey in
    let sig := sign (in_signing_key cmd) preimage in
    Ok (Some (events_new (Inception signature_version owner_pubkey sig))).

Definition handle_set (s : RegisterState) (cmd : SubmitSet) : result (option (Events RegisterEvent 0)) RegisterError :=
  let? owner := ok_or (owner s) RNotIncepted in
  let? prior_digest := ok_or (last_digest s) RNotIncepted in
  let signature_version := V2 in
  let preimage := set_preimage signature_version (ss_key cmd) (ss_val cmd) prior_digest in
  let sig := sign (ss_signing_key cmd) preimage in
  let? _ := if verify_strict owner preimage sig then Ok () else Err RUnauthorized in
  Ok (Some (events_new (SetEntry signature_version (ss_key cmd) (ss_val cmd) prior_digest sig))).

#[export] Instance incept_handler : Handle signed_register Incept 0 := {| decide_command := handle_incept |}.
#[export] Instance set_handler : Handle signed_register SubmitSet 0 := {| decide_command := handle_set |}.

(** [sig_bytes::visit_seq]: 64 elements of a sequence. *)
Inductive SigError (E : Type) : Type := SeqError (e : E) | InvalidLength (index : Z).
Fixpoint sig_visit {E} (n : nat) (index : Z) (seq : list (result byte E)) : result bytes (SigError E) :=
  match n with
  | O => Ok []
  | S n =>
      match seq with
      | [] => Err (InvalidLength E index)
      | Err e :: _ => Err (SeqError E e)
      | Ok b :: seq => let? rest := sig_visit n (index + 1) seq in Ok (b :: rest)
      end
  end.
Definition sig_deserialize {E} (seq : list (result byte E)) : result bytes (SigError E) := sig_visit 64 0 seq.

(** [sig_bytes::serialize]: 64 elements of a tuple, whose serializer may fail. *)
Definition sig_serialize {Tuple E} (serialize_element : Tuple -> byte -> result Tuple E) (tuple : Tuple) (sig : bytes) : result Tuple E :=
  fold_left (fun acc b => let? tuple := acc in serialize_element tuple b) sig (Ok tuple).

(** ** projection.rs *)

Record ChainHead : Type := MkChainHead { ch_owner : VerifyingKey; ch_last_digest : bytes }.
Record RegisterView : Type := MkView { registers : gmap RegisterId (gmap bytes bytes); chains : gmap RegisterId ChainHead }.
Definition view_initial : RegisterView := MkView ∅ ∅.
Definition entries_of (view : RegisterView) (id : RegisterId) : option (gmap bytes bytes) := registers view !! id.

Inductive ViewError : Type :=
| BadSignature
| BrokenChain (expected actual : bytes)
| IdMismatch
| NotIncepted
| AlreadyIncepted
| Unattributed
| BadStreamKey.

Definition view_apply (view : RegisterView) (event : RegisterEvent) : result RegisterView ViewError := Err Unattributed.

Definition view_apply_attributed (view : RegisterView) (stream_key : option StreamKey) (event : RegisterEvent) : result RegisterView ViewError :=
  let? id :=
    (let? k := ok_or stream_key Unattributed in ok_or (from_key_bytes (StreamKey.as_bytes k)) BadStreamKey) in
  match event with
  | Inception signature_version owner_pubkey sig =>
      if negb (bool_decide (from_pubkey owner_pubkey = id)) then Err IdMismatch
      else if bool_decide (is_Some (chains view !! id)) then Err AlreadyIncepted
      else
        let? owner := ok_or (key_from_bytes owner_pubkey) BadSignature in
        let? _ := if verify_strict owner (inception_preimage signature_version owner_pubkey) sig then Ok () else Err BadSignature in
        Ok (MkView (<[id := ∅]> (registers view)) (<[id := MkChainHead owner (event_digest event)]> (chains view)))
  | SetEntry signature_version key val prior_digest sig =>
      let? head := ok_or (chains view !! id) NotIncepted in
      if negb (bool_decide (prior_digest = ch_last_digest head)) then Err (BrokenChain (ch_last_digest head) prior_digest)
      else
        let? _ := if verify_strict (ch_owner head) (set_preimage signature_version key val prior_digest) sig then Ok () else Err BadSignature in
        let? entries := ok_or (registers view !! id) NotIncepted in
        Ok (MkView (<[id := <[key := val]> entries]> (registers view))
              (<[id := MkChainHead (ch_owner head) (event_digest event)]> (chains view)))
  end.

Definition register_projector : Projector RegisterView RegisterEvent ViewError :=
  MkProjector view_initial (fun view key event => Returns (view_apply_attributed view key event)).

(** The read side of main.rs: every event of the log with the key of its stream. *)
Fixpoint project (view : RegisterView) (log : list (StreamKey * RegisterEvent)) : result RegisterView ViewError :=
  match log with
  | [] => Ok view
  | (stream_key, event) :: log => let? view := view_apply_attributed view (Some stream_key) event in project view log
  end.

(** ** Genuine streams *)

(** The event that opens a register: its key hashes to the id, and signed it. *)
Definition opens (id : RegisterId) (owner : VerifyingKey) (e : RegisterEvent) : Prop :=
  match e with
  | Inception v pk sig => from_pubkey pk = id /\ key_from_bytes pk = Some owner /\ verify_strict owner (inception_preimage v pk) sig = true
  | SetEntry _ _ _ _ _ => False
  end.

(** An assignment that carries the digest of the event before it, signed by the owner. *)
Definition linked (owner : VerifyingKey) (prev e : RegisterEvent) : Prop :=
  match e with
  | Inception _ _ _ => False
  | SetEntry v key val prior sig => prior = event_digest prev /\ verify_strict owner (set_preimage v key val prior) sig = true
  end.

Inductive genuine (id : RegisterId) (owner : VerifyingKey) : list RegisterEvent -> Prop :=
| genuine_open e : opens id owner e -> genuine id owner [e]
| genuine_next es prev e : genuine id owner es -> last es = Some prev -> linked owner prev e -> genuine id owner (es ++ [e]).

Lemma genuine_snoc id owner es e :
  genuine id owner (es ++ [e]) <->
  (es = [] /\ opens id owner e) \/ (exists prev, genuine id owner es /\ last es = Some prev /\ linked owner prev e).
Proof.
  split.
  - intros H. remember (es ++ [e]) as l eqn:El. destruct H as [e' He|es' prev e' Hg Hl Hk].
    + destruct es as [|x [|]]; [|done|done]. injection El as ->. by left.
    + apply app_inj_2 in El as [-> [= ->]]; [|done]. right. by exists prev.
  - intros [[-> He]|(prev & Hg & Hl & Hk)]; [by apply genuine_open|by eapply genuine_next].
Qed.

Lemma genuine_nonempty id owner es : genuine id owner es -> exists prev, last es = Some prev.
Proof. destruct 1 as [e _|es prev e _ _ _]; exists e; [done|apply last_snoc]. Qed.

Lemma genuine_owner id owner owner' es : genuine id owner es -> genuine id owner' es -> owner' = owner.
Proof.
  intros H. revert owner'. induction H as [e He|es prev e Hg IH Hl _]; intros owner' H'.
  - apply (genuine_snoc id owner' [] e) in H' as [[_ He']|(prev & Hg & _)]; [|destruct (genuine_nonempty _ _ _ Hg) as [? [=]]].
    destruct e as [v pk sig|]; [|done]. destruct He as (_ & H1 & _), He' as (_ & H2 & _). congruence.
  - apply genuine_snoc in H' as [[-> _]|(prev' & Hg' & _)]; [destruct (genuine_nonempty _ _ _ Hg) as [? [=]]|by apply IH].
Qed.

Lemma genuine_prefix id owner es es' : genuine id owner (es ++ es') -> es = [] \/ genuine id owner es.
Proof.
  induction es' as [|e es' IH] using rev_ind; [rewrite app_nil_r; by right|]. rewrite app_assoc. intros [[Hn _]|(prev & Hg & _)]%genuine_snoc; [|by apply IH].
  left. by destruct es.
Qed.

(** ** What the projector accepts *)

Definition stream_events (id : RegisterId) (log : list (StreamKey * RegisterEvent)) : list RegisterEvent :=
  snd <$> filter (fun i => i.1 = MkStreamKey id) log.

Definition genuine_stream (id : RegisterId) (es : list RegisterEvent) : Prop := es = [] \/ exists owner, genuine id owner es.

Definition genuine_log (log : list (StreamKey * RegisterEvent)) : Prop :=
  Forall (fun i => len (sk_bytes i.1) = 32) log /\ forall id, genuine_stream id (stream_events id log).

Definition folded (es : list RegisterEvent) : RegisterState := fold_left register_apply es register_initial.

Lemma stream_events_app id log log' : stream_events id (log ++ log') = stream_events id log ++ stream_events id log'.
Proof. unfold stream_events. by rewrite filter_app, fmap_app. Qed.

Lemma stream_events_one id k e : stream_events id [(MkStreamKey k, e)] = if decide (k = id) then [e] else [].
Proof. unfold stream_events. rewrite filter_cons. cbn. case_decide as H1; case_decide as H2; try done; [by injection H1|by subst]. Qed.

Lemma genuine_log_prefix log log' : genuine_log (log ++ log') -> genuine_log log.
Proof.
  intros [Hk Hg]. split; [exact (proj1 (proj1 (Forall_app _ _ _) Hk))|]. intros id. destruct (Hg id) as [Hn|[owner Hgo]]; rewrite stream_events_app in *.
  - apply app_nil in Hn as [Hn _]. by left.
  - destruct (genuine_prefix _ _ _ _ Hgo) as [?|?]; [by left|right; by exists owner].
Qed.

(** The view after a log: per register, the entries of its stream and the head of its chain. *)
Definition views (log : list (StreamKey * RegisterEvent)) (view : RegisterView) : Prop :=
  forall id, match last (stream_events id log) with
    | None => registers view !! id = None /\ chains view !! id = None
    | Some prev => exists owner, genuine id owner (stream_events id log) /\
        registers view !! id = Some (entries (folded (stream_events id log))) /\
        chains view !! id = Some (MkChainHead owner (event_digest prev))
    end.

Lemma folded_snoc es e : folded (es ++ [e]) = register_apply (folded es) e.
Proof. unfold folded. by rewrite fold_left_app. Qed.

(** Only the register of the event changes. *)
Lemma views_snoc log view k e regs heads owner :
  views log view -> genuine k owner (stream_events k log ++ [e]) ->
  regs = <[k := entries (folded (stream_events k log ++ [e]))]> (registers view) ->
  heads = <[k := MkChainHead owner (event_digest e)]> (chains view) ->
  views (log ++ [(MkStreamKey k, e)]) (MkView regs heads).
Proof.
  intros Hv Hg -> -> id. rewrite stream_events_app, stream_events_one. case_decide as Hd.
  - subst id. rewrite last_snoc. exists owner. cbn. rewrite !lookup_insert_eq. done.
  - rewrite app_nil_r. specialize (Hv id). cbn. by rewrite !lookup_insert_ne.
Qed.

Lemma genuine_log_snoc log k e :
  genuine_log log -> genuine_log (log ++ [(MkStreamKey k, e)]) <-> len k = 32 /\ exists owner, genuine k owner (stream_events k log ++ [e]).
Proof.
  intros [Hk Hg]. split.
  - intros [Hk' Hg']. split; [by apply Forall_app in Hk' as [_ [? _]%Forall_cons]|]. specialize (Hg' k).
    rewrite stream_events_app, stream_events_one, decide_True in Hg' by done. destruct Hg' as [Hn|?]; [by destruct (stream_events k log)|done].
  - intros [Hl Ho]. split; [apply Forall_app; split; [done|by constructor]|]. intros id. rewrite stream_events_app, stream_events_one.
    case_decide as Hd; [subst; by right|]. rewrite app_nil_r. apply Hg.
Qed.

(** One event: accepted exactly when its stream stays genuine. *)
Lemma apply_attributed_exact log view k e :
  genuine_log log -> views log view ->
  match view_apply_attributed view (Some (MkStreamKey k)) e with
  | Ok view' => genuine_log (log ++ [(MkStreamKey k, e)]) /\ views (log ++ [(MkStreamKey k, e)]) view'
  | Err _ => ~ genuine_log (log ++ [(MkStreamKey k, e)])
  end.
Proof.
  intros Hlog Hv. unfold view_apply_attributed, from_key_bytes. cbn [ok_or result_bind StreamKey.as_bytes sk_bytes].
  pose proof (genuine_log_snoc log k e Hlog) as Hiff. destruct (Z.eqb_spec (len k) 32) as [Hlen|Hlen]; cbn [ok_or result_bind]; [|by intros [? _]%Hiff].
  pose proof (Hv k) as Hk. destruct e as [v pk sig|v key val prior sig].
  - case_bool_decide as Hid; cbn [negb].
    + destruct (last (stream_events k log)) as [prev|] eqn:Hl.
      * destruct Hk as (owner & Hg & _ & Hc). rewrite Hc, bool_decide_eq_true_2 by done.
        intros [_ [owner' [[Hn _]|(prev' & _ & _ & [])]%genuine_snoc]]%Hiff. by rewrite Hn in Hl.
      * apply last_None in Hl. destruct Hk as [_ Hc]. rewrite Hc, bool_decide_eq_false_2 by (by intros [? [=]]).
        destruct (key_from_bytes pk) as [owner|] eqn:Hkey; cbn [ok_or result_bind].
        -- destruct (verify_strict owner (inception_preimage v pk) sig) eqn:Hsig; cbn [result_bind].
           ++ assert (genuine k owner (stream_events k log ++ [Inception v pk sig])) as Hg by (rewrite Hl; by apply genuine_open).
              split; [apply Hiff; split; [done|by exists owner]|]. eapply views_snoc; [done|exact Hg| |done]. by rewrite Hl.
           ++ intros [_ [owner' [[_ (_ & Ho & Hs)]|(prev' & _ & _ & [])]%genuine_snoc]]%Hiff. congruence.
        -- intros [_ [owner' [[_ (_ & Ho & _)]|(prev' & _ & _ & [])]%genuine_snoc]]%Hiff. congruence.
    + intros [_ [owner' [[_ (? & _)]|(prev' & _ & _ & [])]%genuine_snoc]]%Hiff. done.
  - destruct (last (stream_events k log)) as [prev|] eqn:Hl.
    + destruct Hk as (owner & Hg & Hr & Hc). rewrite Hc. cbn [ok_or result_bind ch_last_digest ch_owner].
      assert (forall owner', genuine k owner' (stream_events k log ++ [SetEntry v key val prior sig]) ->
        prior = event_digest prev /\ verify_strict owner (set_preimage v key val prior) sig = true) as Hno.
      { intros owner' [[_ []]|(prev' & Hg' & Hl' & Hlink)]%genuine_snoc. rewrite Hl in Hl'. injection Hl' as <-.
        by rewrite (genuine_owner _ _ _ _ Hg Hg') in Hlink. }
      case_bool_decide as Hp; cbn [negb]; [|intros [_ [owner' Hg']]%Hiff; by destruct (Hno _ Hg')].
      destruct (verify_strict owner (set_preimage v key val prior) sig) eqn:Hsig; cbn [result_bind]; [|intros [_ [owner' Hg']]%Hiff; by destruct (Hno _ Hg')].
      rewrite Hr. cbn [ok_or result_bind].
      assert (genuine k owner (stream_events k log ++ [SetEntry v key val prior sig])) as Hg' by (eapply genuine_next; [done|exact Hl|by split]).
      split; [apply Hiff; split; [done|by exists owner]|]. eapply views_snoc; [done|exact Hg'| |done]. by rewrite folded_snoc.
    + apply last_None in Hl. destruct Hk as [_ Hc]. rewrite Hc. cbn [ok_or result_bind].
      intros [_ [owner' [[_ []]|(prev' & Hg & _)]%genuine_snoc]]%Hiff. rewrite Hl in Hg. by destruct (genuine_nonempty _ _ _ Hg) as [? [=]].
Qed.

Lemma project_exact log0 view log :
  genuine_log log0 -> views log0 view ->
  match project view log with
  | Ok view' => genuine_log (log0 ++ log) /\ views (log0 ++ log) view'
  | Err _ => ~ genuine_log (log0 ++ log)
  end.
Proof.
  revert log0 view. induction log as [|[[k] e] log IH]; intros log0 view Hg Hv; [by rewrite app_nil_r|]. cbn [project].
  pose proof (apply_attributed_exact log0 view k e Hg Hv) as Hstep. change ((MkStreamKey k, e) :: log) with ([(MkStreamKey k, e)] ++ log). rewrite app_assoc.
  destruct (view_apply_attributed view (Some (MkStreamKey k)) e) as [view1|err]; cbn [result_bind].
  - destruct Hstep. by apply IH.
  - intros Hall. by apply Hstep, (genuine_log_prefix _ log).
Qed.

Lemma views_initial : views [] view_initial.
Proof. intros id. done. Qed.

Lemma genuine_nil : genuine_log [].
Proof. split; [constructor|by left]. Qed.

(** C40: the read side of the signed register trusts nothing: folding a log of all
    events, in which registers are interleaved in any way, succeeds exactly when every
    stream key is a register id and every stream opens with an inception signed by a key
    that hashes to that id and goes on with assignments that each carry the digest of
    the event before and a signature of that owner; the view then shows for every
    register exactly the entries that the aggregate folds from its stream. *)
Theorem view_accepts_exactly_genuine log :
  match project view_initial log with
  | Ok view => genuine_log log /\ forall id, entries_of view id =
      if decide (stream_events id log = []) then None else Some (entries (folded (stream_events id log)))
  | Err _ => ~ genuine_log log
  end.
Proof.
  pose proof (project_exact [] view_initial log genuine_nil views_initial) as H. cbn [app] in H.
  destruct (project view_initial log) as [view|e]; [|done]. destruct H as [Hg Hv]. split; [done|]. intros id. specialize (Hv id). unfold entries_of.
  case_decide as Hn; [rewrite Hn in Hv; by destruct Hv|]. destruct (last (stream_events id log)) as [prev|] eqn:Hl; [|by apply last_None in Hl].
  by destruct Hv as (owner & _ & -> & _).
Qed.

(** ** Tamper evidence *)

(** Two inputs on which the hash function agrees. *)
Definition collision : Prop :=
  (exists x y, x <> y /\ blake3_hash x = blake3_hash y) \/ (exists c x y, x <> y /\ blake3_derive c x = blake3_derive c y).

Lemma hash_binds x y : blake3_hash x = blake3_hash y -> x = y \/ collision.
Proof. intros H. destruct (decide (x = y)); [by left|]. right. left. eauto. Qed.

Lemma derive_binds c x y : blake3_derive c x = blake3_derive c y -> x = y \/ collision.
Proof. intros H. destruct (decide (x = y)); [by left|]. right. right. eauto. Qed.

(** The lengths that the array types promise. *)
Definition event_ok (e : RegisterEvent) : Prop :=
  match e with
  | Inception _ pk sig => length pk = 32%nat /\ length sig = 64%nat
  | SetEntry _ _ _ prior sig => length prior = 32%nat /\ length sig = 64%nat
  end.

(** What the digest of an event is the hash of. *)
Definition digest_input (e : RegisterEvent) : bytes :=
  match e with
  | Inception v pk sig => [byte.of_Z (sv_get v)] ++ (text "Inception" ++ [byte.of_Z 0]) ++ pk ++ sig
  | SetEntry v key val prior sig => [byte.of_Z (sv_get v)] ++ (text "Set" ++ [byte.of_Z 0]) ++ blake3_hash key ++ blake3_hash val ++ prior ++ sig
  end.

Lemma event_digest_input e : event_digest e = blake3_derive (text "devrandom-labs/mnesis/examples/signed-events/event-digest") (digest_input e).
Proof. unfold event_digest, finalize, update, digest_input. destruct e; cbn [h_context h_input new_derive_key]; by rewrite <- !app_assoc. Qed.

Lemma digest_input_length e : event_ok e -> length (digest_input e) = (match e with Inception _ _ _ => 107 | SetEntry _ _ _ _ _ => 165 end)%nat.
Proof. destruct e; intros [H1 H2]; unfold digest_input; rewrite !length_app, ?blake3_hash_length, H1, H2; done. Qed.

Lemma digest_binds e e' : event_ok e -> event_ok e' -> event_digest e = event_digest e' -> e = e' \/ collision.
Proof.
  intros Hok Hok'. rewrite !event_digest_input. intros [H|?]%derive_binds; [|by right].
  pose proof (f_equal length H) as Hl. rewrite !digest_input_length in Hl by done.
  destruct e as [[] pk sig|[] key val prior sig], e' as [[] pk' sig'|[] key' val' prior' sig']; try done; destruct Hok as [H1 H2], Hok' as [H1' H2'];
    unfold digest_input in H; apply app_inv_head, app_inv_head in H.
  - apply app_inj_1 in H as [-> ->]; [by left|congruence].
  - apply app_inj_1 in H as [[->|?]%hash_binds Hr]; [|by right|by rewrite !blake3_hash_length].
    apply app_inj_1 in Hr as [[->|?]%hash_binds Hr']; [|by right|by rewrite !blake3_hash_length].
    apply app_inj_1 in Hr' as [-> ->]; [by left|congruence].
Qed.

Lemma head_binds id owner es id' owner' es' prev prev' :
  genuine id owner es -> genuine id' owner' es' -> Forall event_ok es -> Forall event_ok es' ->
  last es = Some prev -> last es' = Some prev' -> event_digest prev = event_digest prev' -> es = es' \/ collision.
Proof.
  intros Hg. revert id' owner' es' prev prev'. induction Hg as [e He|es p e Hg IH Hp Hlink]; intros id' owner' es' prev prev' Hg' Hok Hok' Hl Hl' Hd.
  - injection Hl as <-. destruct es' as [|e' es' _] using rev_ind; [done|]. rewrite last_snoc in Hl'. injection Hl' as <-.
    apply Forall_cons in Hok as [Hok _]. apply Forall_app in Hok' as [_ [Hok' _]%Forall_cons].
    destruct (digest_binds _ _ Hok Hok' Hd) as [->|?]; [|by right].
    apply genuine_snoc in Hg' as [[-> _]|(p & _ & _ & Hlink)]; [by left|]. by destruct e'.
  - rewrite last_snoc in Hl. injection Hl as <-. destruct es' as [|e' es' _] using rev_ind; [done|]. rewrite last_snoc in Hl'. injection Hl' as <-.
    apply Forall_app in Hok as [Hoks [Hok _]%Forall_cons]. apply Forall_app in Hok' as [Hoks' [Hok' _]%Forall_cons].
    destruct (digest_binds _ _ Hok Hok' Hd) as [->|?]; [|by right]. apply genuine_snoc in Hg' as [[_ He']|(p' & Hg' & Hp' & Hlink')]; [by destruct e'|].
    destruct e' as [|v key val prior sig]; [done|]. destruct Hlink as [Hpr _], Hlink' as [Hpr' _].
    destruct (IH _ _ _ p p' Hg' Hoks Hoks' Hp Hp') as [->|?]; [congruence|by left|by right].
Qed.

(** The signed register is tamper-evident: when the projector accepts two logs
    and its chain heads of some registers agree, then it has read the same events in
    the same order for them, or the two logs exhibit a collision of blake3.  Whoever
    kept the head of a register notices any change of its history. *)
Theorem chain_head_binds_history log log' view view' id id' head head' :
  project view_initial log = Ok view -> project view_initial log' = Ok view' ->
  Forall (fun i => event_ok i.2) log -> Forall (fun i => event_ok i.2) log' ->
  chains view !! id = Some head -> chains view' !! id' = Some head' -> ch_last_digest head = ch_last_digest head' ->
  stream_events id log = stream_events id' log' \/ collision.
Proof.
  assert (forall log view id head, project view_initial log = Ok view -> Forall (fun i => event_ok i.2) log -> chains view !! id = Some head ->
    exists owner prev, genuine id owner (stream_events id log) /\ last (stream_events id log) = Some prev /\ ch_last_digest head = event_digest prev /\
      Forall event_ok (stream_events id log)) as Hview.
  { clear. intros log view id head E Hok Hc. pose proof (project_exact [] view_initial log genuine_nil views_initial) as H. rewrite E in H. destruct H as [_ Hv].
    specialize (Hv id). cbn [app] in Hv. destruct (last (stream_events id log)) as [prev|] eqn:Hl; [|by destruct Hv as [_ Hn]; rewrite Hn in Hc].
    destruct Hv as (owner & Hg & _ & Hh). rewrite Hh in Hc. injection Hc as <-. exists owner, prev. split_and!; [done|done|done|].
    apply Forall_fmap, Forall_forall. intros i [_ Hi]%list_elem_of_filter. exact (proj1 (Forall_forall _ _) Hok i Hi). }
  intros E E' Hok Hok' Hc Hc' Hd. destruct (Hview _ _ _ _ E Hok Hc) as (o & p & Hg & Hl & Hh & He). destruct (Hview _ _ _ _ E' Hok' Hc') as (o' & p' & Hg' & Hl' & Hh' & He').
  eapply head_binds; [exact Hg|exact Hg'|done|done|exact Hl|exact Hl'|congruence].
Qed.

(** What a signature binds: an assignment to its place in the chain, never an inception. *)
Lemma set_preimage_binds v key val prior v' key' val' prior' :
  length prior = length prior' -> set_preimage v key val prior = set_preimage v' key' val' prior' ->
  (key, val, prior) = (key', val', prior') \/ collision.
Proof.
  destruct v, v'. intros Hl. unfold set_preimage, finalize, update. cbn [h_context h_input]. intros [H|?]%derive_binds; [|by right].
  rewrite <- !app_assoc in H. apply app_inv_head in H.
  apply app_inj_1 in H as [[->|?]%hash_binds Hr]; [|by right|by rewrite !blake3_hash_length].
  apply app_inj_1 in Hr as [[->|?]%hash_binds ->]; [by left|by right|by rewrite !blake3_hash_length].
Qed.

Lemma preimages_separate v key val prior v' pk :
  length prior = 32%nat -> length pk = 32%nat -> set_preimage v key val prior = inception_preimage v' pk -> collision.
Proof.
  intros H1 H2. unfold set_preimage, inception_preimage, finalize, update. cbn [h_context h_input signing_hasher update new_derive_key]. intros [H|?]%derive_binds; [|done].
  apply (f_equal length) in H. rewrite !length_app, !blake3_hash_length, H1, H2 in H. done.
Qed.

(** ** What the write side accepts *)

(** Roots of the kernel that got their history by commands. *)
Inductive commanded : AggregateRoot -> list RegisterEvent -> Prop :=
| commanded_new id : commanded (root_new id) []
| commanded_incept r es cmd (decided : Events RegisterEvent 0) r' :
    commanded r es -> Aggregate.handle (Handle0 := incept_handler) r cmd = Ok (Some decided) ->
    commit_persisted r decided = (r', Returns (Ok tt)) -> commanded r' (es ++ iter decided)
| commanded_set r es cmd (decided : Events RegisterEvent 0) r' :
    commanded r es -> Aggregate.handle (Handle0 := set_handler) r cmd = Ok (Some decided) ->
    commit_persisted r decided = (r', Returns (Ok tt)) -> commanded r' (es ++ iter decided).

Lemma register_folds s es : apply_all s es = Returns (fold_left register_apply es s).
Proof. revert s. induction es as [|e es IH]; intros s; [done|]. cbn. apply IH. Qed.

Lemma commit_folds r (decided : Events RegisterEvent 0) r' es :
  root_state r = Some (folded es) -> commit_persisted r decided = (r', Returns (Ok tt)) -> root_state r' = Some (folded (es ++ iter decided)).
Proof.
  intros Hst. unfold commit_persisted, apply_events, fold_events. destruct (commit_version r decided) as [v|]; [|done].
  cbn [root_state set_version]. rewrite Hst, register_folds. intros [= <-]. cbn. unfold folded. by rewrite fold_left_app.
Qed.

Lemma commanded_state r es : commanded r es -> root_state r = Some (folded es).
Proof. induction 1; [done|by eapply commit_folds..]. Qed.

(** What a genuine stream folds to. *)
Lemma genuine_folded id owner_ es prev :
  genuine id owner_ es -> last es = Some prev -> owner (folded es) = Some owner_ /\ last_digest (folded es) = Some (event_digest prev).
Proof.
  intros Hg. revert prev. induction Hg as [e He|es p e Hg IH Hp Hlink]; intros prev Hl.
  - injection Hl as <-. destruct e as [v pk sig|]; [|done]. destruct He as (_ & Hk & _). done.
  - rewrite last_snoc in Hl. injection Hl as <-. rewrite folded_snoc. destruct (IH p Hp) as [Ho _]. destruct e as [|v key val prior sig]; done.
Qed.

(** The history of a register is genuine under the id of the key that incepted it. *)
Lemma commanded_genuine r es :
  commanded r es -> es = [] \/ exists sk, genuine (from_pubkey (key_to_bytes (verifying_key sk))) (verifying_key sk) es /\ Forall event_ok es.
Proof.
  induction 1 as [id|r es cmd decided r' Hc IH Hh _|r es cmd decided r' Hc IH Hh _]; [by left|right..].
  - pose proof (commanded_state _ _ Hc) as Hst. unfold Aggregate.handle, state in Hh. rewrite Hst in Hh. cbn in Hh. unfold handle_incept in Hh.
    case_bool_decide as Ho; [done|]. injection Hh as <-. destruct IH as [->|(sk & Hg & _)].
    + exists (in_signing_key cmd). split; [apply genuine_open; split_and!; [done|apply key_roundtrip|apply sign_verifies]|].
      constructor; [|constructor]. split; [apply key_bytes_length|apply signature_length].
    + destruct (genuine_nonempty _ _ _ Hg) as [prev Hl]. destruct (genuine_folded _ _ _ _ Hg Hl) as [Hw _]. rewrite Hw in Ho. destruct Ho. by eexists.
  - pose proof (commanded_state _ _ Hc) as Hst. unfold Aggregate.handle, state in Hh. rewrite Hst in Hh. cbn in Hh. unfold handle_set in Hh.
    destruct IH as [->|(sk & Hg & Hok)]; [done|]. destruct (genuine_nonempty _ _ _ Hg) as [prev Hl]. destruct (genuine_folded _ _ _ _ Hg Hl) as [Hw Hd].
    rewrite Hw, Hd in Hh. cbn in Hh. destruct (verify_strict _ _ _) eqn:Hv; [|done]. injection Hh as <-. exists sk. split.
    + eapply genuine_next; [done|exact Hl|by split].
    + apply Forall_app. split; [done|]. constructor; [|constructor]. split; [unfold event_digest, finalize; apply blake3_derive_length|apply signature_length].
Qed.

Lemma genuine_head id owner_ es : genuine id owner_ es -> exists v pk sig, head es = Some (Inception v pk sig) /\ from_pubkey pk = id.
Proof.
  induction 1 as [e He|es prev e Hg (v & pk & sig & Hh & Hid) Hl Hlink].
  - destruct e as [v pk sig|]; [|done]. exists v, pk, sig. by destruct He.
  - exists v, pk, sig. split; [|done]. by destruct es.
Qed.

(** The stream is stored under the id of the key that opened it. *)
Definition filed (id : RegisterId) (es : list RegisterEvent) : Prop :=
  match head es with Some (Inception _ pk _) => from_pubkey pk = id | _ => False end.

(** The reader accepts whatever was written by commands, in any interleaving of the
    registers, and shows the entries of the aggregates. *)
Theorem written_log_accepted log :
  Forall (fun i => len (sk_bytes i.1) = 32) log ->
  (forall id, stream_events id log <> [] -> filed id (stream_events id log) /\ exists r, commanded r (stream_events id log)) ->
  exists view, project view_initial log = Ok view /\
    forall id r, commanded r (stream_events id log) -> stream_events id log <> [] -> entries_of view id = entries <$> root_state r.
Proof.
  intros Hk Hw. pose proof (project_exact [] view_initial log genuine_nil views_initial) as H. cbn [app] in H.
  destruct (project view_initial log) as [view|e].
  - exists view. split; [done|]. intros id r Hr Hne. destruct H as [_ Hv]. specialize (Hv id). rewrite (commanded_state _ _ Hr).
    destruct (last (stream_events id log)) as [prev|] eqn:Hl; [|by apply last_None in Hl]. by destruct Hv as (o & _ & Hreg & _).
  - destruct H. split; [done|]. intros id. destruct (decide (stream_events id log = [])) as [?|Hne]; [by left|right].
    destruct (Hw id Hne) as [Hf (r & [?|(sk & Hg & _)]%commanded_genuine)]; [done|]. exists (verifying_key sk).
    destruct (genuine_head _ _ _ Hg) as (v & pk & sig & Hh & Hid). unfold filed in Hf. rewrite Hh in Hf. rewrite Hf in Hid. rewrite <- Hid in Hg. exact Hg.
Qed.

(** The decision to incept does not look at the id of the root: a register that is
    incepted under another id is accepted by the write side, and its stream is refused
    by every reader. *)
Lemma misfiled_inception id sk view :
  len id = 32 -> id <> from_pubkey (key_to_bytes (verifying_key sk)) ->
  exists e, Aggregate.handle (Handle0 := incept_handler) (root_new id) (MkIncept sk) = Ok (Some (events_new e)) /\
    view_apply_attributed view (Some (MkStreamKey id)) e = Err IdMismatch.
Proof.
  intros Hl Hne. eexists. split; [reflexivity|]. unfold view_apply_attributed, from_key_bytes. cbn [ok_or result_bind StreamKey.as_bytes sk_bytes].
  rewrite Hl. cbn [Z.eqb Pos.eqb ok_or result_bind]. by rewrite bool_decide_eq_false_2 by (intros Heq; apply Hne; symmetry; exact Heq).
Qed.

Lemma sig_roundtrip {E F} (sig : bytes) :
  length sig = 64%nat ->
  exists elements, sig_serialize (E := F) (fun tuple b => Ok (tuple ++ [Ok b])) [] sig = Ok elements
    /\ sig_deserialize (E := E) elements = Ok sig.
Proof.
  intros Hl. exists (Ok <$> sig). split.
  - enough (forall l, sig_serialize (E := F) (fun tuple b => Ok (tuple ++ [Ok b])) l sig = Ok (l ++ (Ok <$> sig : list (result byte E)))) as Hs
      by apply Hs.
    clear Hl. unfold sig_serialize. induction sig as [|b sig IH]; intros l; cbn; [by rewrite app_nil_r|]. by rewrite IH, <- app_assoc.
  - unfold sig_deserialize. rewrite <- Hl. generalize 0. clear. induction sig as [|b sig IH]; intros i; [done|]. cbn. by rewrite IH.
Qed.
End register.

(** ** Witnesses: a hash that keeps the first 32 bytes, and two keys *)

Definition toy_key (k : bool) : bytes := replicate 32 (byte.of_Z (if k then 1 else 2)).

Definition toy_crypto : Crypto.
Proof.
  refine {| blake3_hash b := resize 32 (byte.of_Z 0) b; blake3_derive c b := resize 32 (byte.of_Z 0) (reverse b);
    SigningKey := bool; VerifyingKey := bool; verifying_key k := k; key_to_bytes := toy_key;
    key_from_bytes b := if decide (b = toy_key true) then Some true else if decide (b = toy_key false) then Some false else None;
    sign k m := toy_key k ++ resize 32 (byte.of_Z 0) m;
    verify_strict k m sig := bool_decide (sig = toy_key k ++ resize 32 (byte.of_Z 0) m) |}.
  - intros b. apply length_resize.
  - intros c b. apply length_resize.
  - intros k. apply length_replicate.
  - intros k m. rewrite length_app, length_resize. done.
  - intros []; reflexivity.
  - intros k m. by apply bool_decide_eq_true.
Defined.

#[local] Existing Instance target64.
#[local] Existing Instance toy_crypto.

Definition first_event (r : result (option (Events RegisterEvent 0)) RegisterError) : list RegisterEvent :=
  match r with Ok (Some es) => [first es] | _ => [] end.
Definition toy_inception (k : bool) : list RegisterEvent := first_event (handle_incept register_initial (MkIncept k)).
Definition toy_set (k : bool) : list RegisterEvent := first_event (handle_set (folded (toy_inception k)) (MkSubmitSet (text "city") (text "lisbon") k)).
Definition toy_id (k : bool) : RegisterId := from_pubkey (toy_key k).
Definition toy_stream (k : bool) : list (StreamKey * RegisterEvent) := (fun e => (MkStreamKey (toy_id k), e)) <$> (toy_inception k ++ toy_set k).

(** Two registers one after the other, and the first of them alone. *)
Lemma chain_head_binds_history_witness :
  stream_events (toy_id true) (toy_stream false ++ toy_stream true) = stream_events (toy_id true) (toy_stream true) \/ collision.
Proof.
  eapply chain_head_binds_history; [reflexivity|reflexivity| | |reflexivity|reflexivity|reflexivity];
    repeat (apply Forall_cons; split); try apply Forall_nil; done.
Defined.
