(* ===== verification/State.v ===== *)
(** * Snapshot storage and persistence triggers (crates/store/src/state.rs,
      adapters/inmemory/src/snapshot.rs)

    The snapshot store interface, its in-memory implementation, the bridge that
    stores typed state as bytes through a codec (for snapshots and for
    checkpoints), and the triggers that decide when to persist. *)

From S2P Require Import Prelude Utf8 ErrorId Version Value Wire Envelope RawStore Repository Checkpoint.

Inductive Hydrated (S P : Type) : Type :=
| HAbsent
| HStale (stored_schema : Schema)
| HFound (position : P) (st : S).
Arguments HAbsent {S P}.
Arguments HStale {S P} _.
Arguments HFound {S P} _ _.

Definition into_found {S P} (h : Hydrated S P) : option (P * S) :=
  match h with HFound position st => Some (position, st) | _ => None end.

(** The [SnapshotStore] trait, keyed by the id's bytes. *)
Class SnapshotStore (SS S P : Type) := {
  SnErr : Type;
  hydrate : SS -> bytes -> Schema -> panicking (result (Hydrated S P) SnErr);
  snapshot_commit : SS -> bytes -> Schema -> P -> S -> SS * result () SnErr;
}.
Arguments SnErr SS S P {_}.

(** ** Triggers *)

(** [EveryNEvents::should_persist]. *)
Definition every_n_events (n : NonZero u64_max) (old_version : option Version) (new_version : Version) : bool :=
  let n := nz_get n in
  let old_bucket := from_option (fun v => as_u64 v / n) 0 old_version in
  let new_bucket := as_u64 new_version / n in
  old_bucket <? new_bucket.

(** [AfterEventTypes::should_persist]. *)
Definition after_event_types (types event_names : list bytes) : bool :=
  existsb (fun name => existsb (fun t => bool_decide (t = name)) types) event_names.

(** Crossing a bucket boundary is passing a multiple of [n]. *)
Lemma every_n_events_spec n old new :
  every_n_events n old new = true <->
  exists k, from_option as_u64 0 old < k * nz_get n <= as_u64 new.
Proof.
  unfold every_n_events. pose proof (nz_range n). pose proof (version_range new).
  assert (from_option (fun v => as_u64 v / nz_get n) 0 old = from_option as_u64 0 old / nz_get n) as ->
    by (by destruct old).
  assert (0 <= from_option as_u64 0 old) by (destruct old as [v|]; simpl; [pose proof (version_range v)|]; lia).
  set (o := from_option as_u64 0 old) in *. rewrite Z.ltb_lt. split.
  - intros Hlt. exists (as_u64 new / nz_get n). split.
    + pose proof (Z.div_mod o (nz_get n) ltac:(lia)). pose proof (Z.mod_pos_bound o (nz_get n) ltac:(lia)). nia.
    + pose proof (Z.div_mod (as_u64 new) (nz_get n) ltac:(lia)).
      pose proof (Z.mod_pos_bound (as_u64 new) (nz_get n) ltac:(lia)). lia.
  - intros (k & Hlo & Hhi). apply Z.lt_le_trans with k.
    + apply Z.div_lt_upper_bound; lia.
    + apply Z.div_le_lower_bound; lia.
Qed.

(** ** In memory *)

Section inmemory.
Context {S P : Type}.

Record InMemorySnapshotStore : Type := MkSnapshots { snapshots : gmap bytes (Schema * P * S) }.

Definition snapshots_new : InMemorySnapshotStore := MkSnapshots ∅.

Definition inmemory_snapshot_hydrate (ss : InMemorySnapshotStore) (id : bytes) (schema_version : Schema)
  : result (Hydrated S P) Empty_set :=
  Ok (match snapshots ss !! id with
      | None => HAbsent
      | Some (stored_schema, position, st) =>
          if negb (bool_decide (stored_schema = schema_version)) then HStale stored_schema else HFound position st
      end).

Definition inmemory_snapshot_commit (ss : InMemorySnapshotStore) (id : bytes) (schema_version : Schema)
  (position : P) (st : S) : InMemorySnapshotStore * result () Empty_set :=
  (MkSnapshots (<[id := (schema_version, position, st)]> (snapshots ss)), Ok ()).

#[export] Instance inmemory_snapshots : SnapshotStore InMemorySnapshotStore S P := {
  SnErr := Empty_set;
  hydrate ss id schema := Returns (inmemory_snapshot_hydrate ss id schema);
  snapshot_commit := inmemory_snapshot_commit;
}.

(** It returns what was there, or what was just committed. *)
Lemma inmemory_adds_one (ss : InMemorySnapshotStore) key schema v st ss' r key' schema' v' st' :
  snapshot_commit ss key schema v st = (ss', r) -> hydrate ss' key' schema' = Returns (Ok (HFound v' st')) ->
  (key' = key /\ v' = v /\ st' = st) \/ hydrate ss key' schema' = Returns (Ok (HFound v' st')).
Proof.
  intros [= <- _]. simpl. unfold inmemory_snapshot_hydrate. simpl. destruct (decide (key' = key)) as [->|Hne].
  - rewrite lookup_insert_eq. case_bool_decide; simpl; naive_solver.
  - rewrite lookup_insert_ne by done. auto.
Qed.

End inmemory.

(** ** The codec bridge *)

Inductive CodecSnapshotStoreError (E EncE DecE : Type) : Type :=
| CStore (e : E)
| CEncode (e : EncE)
| CDecode (e : DecE)
| CEnvelopeSynthesis (e : ForDecodeError).
Arguments CStore {E EncE DecE} _.
Arguments CEncode {E EncE DecE} _.
Arguments CDecode {E EncE DecE} _.
Arguments CEnvelopeSynthesis {E EncE DecE} _.

Section codec.
Context {T : Target} {AS : ArrayString} {S P : Type} {C : Codec S}.
(** [Display] of the id with the given bytes. *)
Context (display_id : bytes -> list bytes).

(** [id.to_label()]. *)
Definition to_label (id : bytes) : bytes := from_display DEFAULT_ERROR_ID_CAP (display_id id).

(** Decoding stored bytes through a synthetic envelope. *)
Definition decode_state {E} (id b : bytes) : outcome S (CodecSnapshotStoreError E (EncErr S) (DecErr S)) :=
  let! env := outcome_map_err CEnvelopeSynthesis (PersistedEnvelope.for_decode (to_label id) b) in
  Returns (map_err CDecode (decode env)).

Section snapshots.
Context {SS : Type} {B : SnapshotStore SS bytes P}.

Definition codec_hydrate (ss : SS) (id : bytes) (schema_version : Schema)
  : outcome (Hydrated S P) (CodecSnapshotStoreError (SnErr SS bytes P) (EncErr S) (DecErr S)) :=
  let! h := outcome_map_err CStore (hydrate ss id schema_version) in
  match h with
  | HAbsent => Returns (Ok HAbsent)
  | HStale stored_schema => Returns (Ok (HStale stored_schema))
  | HFound position b => let! st := decode_state id b in Returns (Ok (HFound position st))
  end.

Definition codec_commit (ss : SS) (id : bytes) (schema_version : Schema) (position : P) (st : S)
  : SS * result () (CodecSnapshotStoreError (SnErr SS bytes P) (EncErr S) (DecErr S)) :=
  match encode st with
  | Err e => (ss, Err (CEncode e))
  | Ok b => let '(ss', r) := snapshot_commit ss id schema_version position b in (ss', map_err CStore r)
  end.

#[export] Instance codec_snapshots : SnapshotStore SS S P := {
  SnErr := CodecSnapshotStoreError (SnErr SS bytes P) (EncErr S) (DecErr S);
  hydrate := codec_hydrate;
  snapshot_commit := codec_commit;
}.

End snapshots.

Section checkpoints.
Context {CS : Type} {B : CheckpointStore CS bytes P}.

Definition codec_hydrate_checkpoint (cs : CS) (id : bytes) (schema_version : Schema)
  : outcome (CheckpointHydrated S P) (CodecSnapshotStoreError (CkErr CS bytes P) (EncErr S) (DecErr S)) :=
  let! h := Returns (map_err CStore (hydrate_checkpoint cs id schema_version)) in
  match h with
  | CkAbsent => Returns (Ok CkAbsent)
  | CkStale revision stored_schema => Returns (Ok (CkStale revision stored_schema))
  | CkFound revision position b => let! st := decode_state id b in Returns (Ok (CkFound revision position st))
  end.

Definition codec_commit_checkpoint (cs : CS) (id : bytes) (write : CheckpointWrite S P)
  : CS * result Revision (CheckpointError (CodecSnapshotStoreError (CkErr CS bytes P) (EncErr S) (DecErr S))) :=
  match encode (cw_state write) with
  | Err e => (cs, Err (CkStore (CEncode e)))
  | Ok b =>
      let '(cs', r) := commit_checkpoint cs id
        (MkWrite (cw_expected write) (cw_schema write) (cw_position write) b (cw_mode write)) in
      (cs', map_err (fun e => match e with CkStore source => CkStore (CStore source) | CkRejected r => CkRejected r end) r)
  end.

End checkpoints.

(** ** The bridge gives back what was stored *)

Lemma for_decode_spec et pl :
  event_type_ok (MkEventType et) -> payload_offset HEADER_FIXED_SIZE et None + len pl <= u32_max ->
  exists env, PersistedEnvelope.for_decode et pl = Returns (Ok env) /\ persisted_ok env /\
    from_persisted env = MkPendingEnvelope INITIAL (MkEventType et) SchemaVersion.INITIAL (MkPayload pl) None.
Proof.
  intros Het Hle. pose proof (payload_offset_bounds HEADER_FIXED_SIZE et None ltac:(done)) as [Hoff _].
  assert (payload_ok (MkPayload pl)) as Hpl.
  { unfold payload_ok, MAX_PAYLOAD_LEN, HEADER_FIXED_SIZE in *. simpl in *. pose proof (len_nonneg et). lia. }
  unfold PersistedEnvelope.for_decode.
  rewrite (proj2 (event_type_from_bytes_spec et (MkEventType et))), (proj2 (payload_from_bytes_spec pl (MkPayload pl))) by done.
  rewrite encode_frame_bytes by done. unfold PersistedEnvelope.from_frame. cbn [map_err result_bind].
  destruct (try_new_v2_frame INITIAL SchemaVersion.INITIAL (MkEventType et) (MkPayload pl) None) as (env & E & ? & ?);
    [done|done|done|done|]. exists env. simpl in E. simpl. by rewrite E.
Qed.

Context (display_utf8 : forall id, Forall (fun s => utf8_valid s = true) (display_id id)).
(** The state codec's contract: it reads the payload alone. *)
Context (decode_encode : forall st b env, encode st = Ok b -> PersistedEnvelope.payload env = b ->
  persisted_ok env -> decode env = Ok st).

(** Room for a frame with a label of at most 64 bytes. *)
Definition state_fits (b : bytes) : Prop := len b <= u32_max - 96.

Lemma decode_state_spec {E} id st b :
  encode st = Ok b -> state_fits b -> decode_state (E := E) id b = Returns (Ok st).
Proof using display_utf8 decode_encode.
  intros He Hfit. unfold decode_state, state_fits in *.
  destruct (from_display_valid DEFAULT_ERROR_ID_CAP (display_id id) ltac:(done) (display_utf8 id)) as [Hl Hv].
  change (len (to_label id) <= 64) in Hl. change (utf8_valid (to_label id) = true) in Hv.
  pose proof (payload_offset_bounds HEADER_FIXED_SIZE (to_label id) None ltac:(done)) as (_ & Hoff & _).
  destruct (for_decode_spec (to_label id) b) as (env & -> & Hok & Hfp).
  - split; [exact Hv|]. unfold MAX_EVENT_TYPE_LEN, u16_max. cbn [et_bytes]. lia.
  - unfold HEADER_FIXED_SIZE in *. cbn [default fmap option_fmap option_map] in Hoff. lia.
  - cbn [outcome_map_err map_err outcome_bind]. rewrite (decode_encode st b env); [done|done| |done].
    by injection Hfp as _ _ _ ?.
Qed.

(** State committed through the codec bridge comes back at the
    same schema with the position it was committed at; at any other schema it is
    reported stale and never decoded; snapshots of other ids are untouched. *)
Theorem codec_snapshot_roundtrip (ss : InMemorySnapshotStore (P := P)) id schema position st ss' b :
  codec_commit ss id schema position st = (ss', Ok ()) -> encode st = Ok b -> state_fits b ->
  codec_hydrate ss' id schema = Returns (Ok (HFound position st)) /\
  (forall schema', schema' <> schema -> codec_hydrate ss' id schema' = Returns (Ok (HStale schema))) /\
  (forall id' schema', id' <> id -> codec_hydrate ss' id' schema' = codec_hydrate ss id' schema').
Proof using display_utf8 decode_encode.
  intros Hc He Hfit. unfold codec_commit in Hc. rewrite He in Hc. injection Hc as <-.
  unfold codec_hydrate. cbn [hydrate inmemory_snapshots]. unfold inmemory_snapshot_hydrate. cbn [snapshots].
  split_and!.
  - rewrite lookup_insert_eq, bool_decide_true by done. cbn [negb outcome_map_err map_err outcome_bind].
    by rewrite (decode_state_spec id st b).
  - intros schema' Hne. rewrite lookup_insert_eq, bool_decide_false by done. done.
  - intros id' schema' Hne. by rewrite lookup_insert_ne.
Qed.

End codec.

(** ** A concrete bridge *)

#[local] Existing Instance target64.
#[local] Existing Instance list_array_string.

(** One byte of state, stored as itself. *)
#[local] Instance byte_state : Codec byte := {|
  EncErr := unit; DecErr := unit;
  encode e := Ok [e];
  decode env := match PersistedEnvelope.payload env with [b] => Ok b | _ => Err tt end |}.

Lemma codec_snapshot_roundtrip_witness :
  codec_hydrate (S := byte) (P := Version) (fun id => [[byte.of_Z 65]])
    (codec_commit (S := byte) (snapshots_new (P := Version)) [byte.of_Z 1] (MkNonZero (max := u32_max) 1 eq_refl) INITIAL (byte.of_Z 9)).1
    [byte.of_Z 1] (MkNonZero (max := u32_max) 1 eq_refl) = Returns (Ok (HFound INITIAL (byte.of_Z 9))).
Proof.
  apply (codec_snapshot_roundtrip (S := byte) (P := Version) (fun id => [[byte.of_Z 65]]))
    with (ss := snapshots_new (P := Version)) (b := [byte.of_Z 9]).
  - intros id. repeat constructor.
  - intros st b env [= <-] Hp _. simpl. by rewrite Hp.
  - reflexivity.
  - reflexivity.
  - vm_compute. discriminate.
Defined.
