(* ===== verification/Snapshot.v ===== *)
(** * Snapshot-aware repositories (crates/store/src/snapshot.rs)

    [Snapshotting] decorates the event store: loads start from a snapshot when
    there is one for the schema in use and replay only what follows; saves persist
    a snapshot when the trigger fires.  Snapshots are best effort, so every failure
    of the snapshot store degrades to the undecorated behaviour. *)

From S2P Require Import Prelude Version Events Aggregate Value Wire Envelope RawStore Repository Checkpoint State.

Section snapshotting.
Context {T : Target} {A : Aggregate} {S : Type} {R : RawEventStore S} {C : Codec Event}.
Context (meta : Version -> Event -> Payload -> option Metadata).
Context {SS : Type} {B : SnapshotStore SS State Version}.
Context (should_persist : option Version -> Version -> list bytes -> bool) (schema_version : Schema) (snapshot_on_read : bool).

Notation SErr := (StoreError (SError S) (EncErr Event) (DecErr Event)).

(** A restored root and where its tail starts; nothing at [u64::MAX]. *)
Definition try_load_from_snapshot (ss : SS) (id : Id) : panicking (option (AggregateRoot * option Version)) :=
  match hydrate ss (id_as_ref id) schema_version with
  | Panics => Panics
  | Returns (Err _) => Returns None
  | Returns (Ok (HFound version st)) => Returns (Some (restore id st version, next version))
  | Returns (Ok (HStale _)) => Returns None
  | Returns (Ok HAbsent) => Returns None
  end.

Definition try_save_snapshot (ss : SS) (r : AggregateRoot) (version : Version) : SS :=
  match state r with
  | Ok current_state => (snapshot_commit ss (id_as_ref (root_id r)) schema_version version current_state).1
  | Err _ => ss
  end.

(** [load]: the snapshot store is [ss] when it is read and [ss_end] when the lazy
    snapshot of a full replay is written. *)
Definition snapshot_load (fuel : nat) (sched : nat -> S) (ss ss_end : SS) (id : Id)
  : option (SS * outcome AggregateRoot SErr) :=
  match try_load_from_snapshot ss id with
  | Panics => Some (ss_end, Panics)
  | Returns (Some (root, Some next)) => (fun o => (ss_end, o)) <$> replay_from fuel sched root next
  | Returns (Some (root, None)) => Some (ss_end, Returns (Ok root))
  | Returns None =>
      match load fuel sched id with
      | Some (Returns (Ok root)) =>
          let ss' := match snapshot_on_read, root_version root with
                     | true, Some version => try_save_snapshot ss_end root version
                     | _, _ => ss_end
                     end in
          Some (ss', Returns (Ok root))
      | Some o => Some (ss_end, o)
      | None => None
      end
  end.

(** [save]: the inner save, then a snapshot when the trigger fires. *)
Definition snapshot_save {N} (s : S) (ss : SS) (r : AggregateRoot) (events : Events Event N)
  : S * SS * AggregateRoot * outcome (AllPos S) SErr :=
  let old_version := root_version r in
  match save meta s r events with
  | (s', r', Returns (Ok position)) =>
      match root_version r' with
      | None => (s', ss, r', Returns (Ok position))
      | Some new_version =>
          if should_persist old_version new_version (event_name <$> iter events)
          then (s', try_save_snapshot ss r' new_version, r', Returns (Ok position))
          else (s', ss, r', Returns (Ok position))
      end
  | (s', r', o) => (s', ss, r', o)
  end.

(** ** Correctness *)

Context {RS : RawEventStoreSpec S}.
Context (meta_ok : forall v e p m, meta v e p = Some m -> metadata_ok m).
Context (decode_encode : forall e b env, encode e = Ok b -> PersistedEnvelope.payload env = b ->
  PersistedEnvelope.event_type env = event_name e -> persisted_ok env -> decode env = Ok e).
(** A snapshot store invents nothing: what it returns was there, or was just committed. *)
Context (commit_adds_one : forall ss key schema v st ss' r key' schema' v' st',
  snapshot_commit ss key schema v st = (ss', r) -> hydrate ss' key' schema' = Returns (Ok (HFound v' st')) ->
  (key' = key /\ v' = v /\ st' = st) \/ hydrate ss key' schema' = Returns (Ok (HFound v' st'))).

(** [st] is the fold of the first [n] events of the stream. *)
Definition state_at (s : S) (key : bytes) (n : Z) (st : State) : Prop :=
  exists events, n <= len (stream_of s (MkStreamKey key)) /\
    Forall2 encodes (take (Z.to_nat n) (stream_of s (MkStreamKey key))) events /\ apply_all initial events = Returns st.

(** Every snapshot is the fold of the prefix it names. *)
Definition snapshots_honest (s : S) (ss : SS) : Prop :=
  forall key v st, hydrate ss key schema_version = Returns (Ok (HFound v st)) -> state_at s key (as_u64 v) st.

Lemma state_at_grows s s' key n st :
  stream_of s (MkStreamKey key) `prefix_of` stream_of s' (MkStreamKey key) -> 0 <= n ->
  state_at s key n st -> state_at s' key n st.
Proof.
  intros [tl E] Hn (evs & Hle & Henc & Ha). exists evs. rewrite E, len_app. pose proof (len_nonneg tl).
  rewrite take_app_le by (unfold len in *; lia). split_and!; [lia|done|done].
Qed.

Lemma honest_grows s s' ss :
  (forall id, stream_of s id `prefix_of` stream_of s' id) -> snapshots_honest s ss -> snapshots_honest s' ss.
Proof. intros Hp Hh key v st E. pose proof (version_range v). eapply state_at_grows; [apply Hp|lia|by apply Hh]. Qed.

Lemma save_snapshot_honest s ss r v :
  snapshots_honest s ss -> (forall st, root_state r = Some st -> state_at s (id_as_ref (root_id r)) (as_u64 v) st) ->
  snapshots_honest s (try_save_snapshot ss r v).
Proof using commit_adds_one.
  intros Hh Hr. unfold try_save_snapshot, state. destruct (root_state r) as [st|]; [|done]. simpl.
  destruct (snapshot_commit ss (id_as_ref (root_id r)) schema_version v st) as [ss' res] eqn:E. simpl.
  intros key v' st' H. destruct (commit_adds_one _ _ _ _ _ _ _ _ _ _ _ E H) as [(-> & -> & ->)|?]; auto.
Qed.

Lemma matches_state_at s r st :
  store_inv s -> root_matches s r -> root_state r = Some st ->
  state_at s (id_as_ref (root_id r)) (current_of r) st.
Proof.
  intros Hi (evs & st' & Henc & Ha & Hst & Hv) Hst'. rewrite Hst in Hst'. injection Hst' as <-.
  rewrite (current_of_head r _ Hi Hv). exists evs. unfold stream_key, StreamKey.from_slice in *.
  split_and!; [lia| |done]. unfold len. by rewrite Nat2Z.id, firstn_all.
Qed.

(** A save only extends streams, whatever its outcome. *)
Lemma save_grows {N} s r (es : Events Event N) s' r' o :
  store_inv s -> save meta s r es = (s', r', o) ->
  store_inv s' /\ forall id, stream_of s id `prefix_of` stream_of s' id.
Proof using meta_ok.
  intros Hi. unfold save, save_events. destruct (encode_batch meta r es (fun _ => None)) as [[b|e]|] eqn:Hb;
    [|by intros [= <- <- <-]..].
  apply encode_batch_spec in Hb as (_ & _ & Hok & _); [|done].
  destruct (append s (stream_key (root_id r)) (root_version r) b) as [s1 [[p|e]|]] eqn:Ea.
  - intros E. assert (s' = s1) as -> by (by destruct (commit_persisted r es) as [r1 [[[]|]|]]; injection E as <- _ _).
    by eapply append_grows.
  - intros [= <- _ _]. by eapply append_grows.
  - pose proof (append_no_panic s (stream_key (root_id r)) (root_version r) b Hi Hok) as Hnp. by rewrite Ea in Hnp.
Qed.

(** Decorating a repository changes nothing about a save: same
    store, same root, same outcome; and whatever the outcome, every stored snapshot
    is still the fold of the stream prefix it names. *)
Theorem snapshot_save_transparent {N} s ss r (es : Events Event N) s' ss' r' o :
  store_inv s -> root_matches s r -> snapshots_honest s ss ->
  snapshot_save s ss r es = (s', ss', r', o) ->
  save meta s r es = (s', r', o) /\ snapshots_honest s' ss'.
Proof using meta_ok decode_encode commit_adds_one.
  intros Hi Hm Hh. unfold snapshot_save. destruct (save meta s r es) as [[s1 r1] o1] eqn:E.
  destruct (save_grows _ _ _ _ _ _ Hi E) as [Hi1 Hp]. pose proof (honest_grows _ _ _ Hp Hh) as Hh1.
  destruct o1 as [[p|e]|]; [|by intros [= <- <- <- <-]..].
  destruct (save_keeps_match meta meta_ok decode_encode _ _ _ _ _ _ _ Hi Hm E) as (_ & Hm1 & _).
  destruct (root_version r1) as [v|] eqn:Hv; [|by intros [= <- <- <- <-]].
  destruct (should_persist _ _ _); intros [= <- <- <- <-]; split; try done.
  apply save_snapshot_honest; [done|]. intros st Hst.
  replace (as_u64 v) with (current_of r1) by (unfold current_of; by rewrite Hv). by apply matches_state_at.
Qed.

(** Replaying, onto a root at version [n], envelopes of events that fold. *)
Lemma fold_matching_from r st0 envs events st :
  root_state r = Some st0 -> replayed_events r + len envs <= limit ->
  Forall2 encodes (from_persisted <$> envs) events -> Forall persisted_ok envs ->
  consecutive (current_of r + 1) (ps_version <$> envs) -> apply_all st0 events = Returns st ->
  fold_steps replay_step r envs =
    Returns (Ok (MkRoot (root_id r) (Some st)
      (match last (ps_version <$> envs) with Some v => Some v | None => root_version r end) (replayed_events r + len envs))).
Proof using decode_encode.
  intros Hst0 Hle Henc Hok Hc Ha. apply fold_replay. exists events.
  pose proof (Forall2_length _ _ _ Henc) as Hlen. rewrite length_fmap in Hlen. pose proof (len_nonneg envs). split.
  - rewrite Forall2_fmap_l in Henc. rewrite Forall_forall in Hok. eapply Forall2_impl_in; [exact Henc|].
    intros env e Henv He. apply (encodes_decodes decode_encode); [done|]. by apply Hok.
  - assert ((zip (ps_version <$> envs) events).*1 = ps_version <$> envs) as E1
      by (apply fst_zip; rewrite length_fmap; lia).
    assert ((zip (ps_version <$> envs) events).*2 = events) as E2 by (apply snd_zip; rewrite length_fmap; lia).
    assert (len (zip (ps_version <$> envs) events) = len envs) as E3
      by (unfold len; rewrite length_zip_with, length_fmap; lia).
    apply (replay_all_ok _ st0); [done|lia|]. rewrite E1, E2, E3. split_and!; [done|done|]. by exists st.
Qed.

(** The envelopes a drain from version [n + 1] ends with. *)
Lemma delivered_versions s id n envs :
  store_inv s -> 0 <= n <= len (stream_of s id) -> delivered s id (n + 1) envs ->
  consecutive (n + 1) (ps_version <$> envs) /\
  exists tl, drop (Z.to_nat n) (stream_of s id) = (from_persisted <$> envs) ++ tl.
Proof.
  intros Hi Hn [[tl Htl] _]. replace (n + 1 - 1) with n in Htl by lia. split; [|by exists tl].
  destruct (stream_of_ok s id Hi) as (_ & Hc & _).
  rewrite <- (take_drop (Z.to_nat n) (stream_of s id)), Htl in Hc. unfold versions in Hc.
  rewrite !fmap_app in Hc. apply consecutive_app in Hc as [_ Hc]. apply consecutive_app in Hc as [Hc _].
  fold (versions (from_persisted <$> envs)) in Hc. rewrite versions_from_persisted in Hc.
  unfold len in Hc, Hn. rewrite length_fmap, length_take in Hc.
  by replace (1 + Z.of_nat (Z.to_nat n `min` length (stream_of s id))) with (n + 1) in Hc by lia.
Qed.

Lemma replay_from_matching fuel s r st0 n from c events st :
  store_inv s -> root_state r = Some st0 -> root_version r = head_version n -> 0 <= n <= len (stream_of s (stream_key (root_id r))) ->
  as_u64 from = n + 1 -> read_stream s (stream_key (root_id r)) from = Ok c -> limit < Z.of_nat fuel ->
  0 <= replayed_events r -> replayed_events r + len (stream_of s (stream_key (root_id r))) - n <= limit ->
  Forall2 encodes (drop (Z.to_nat n) (stream_of s (stream_key (root_id r)))) events -> apply_all st0 events = Returns st ->
  exists k, replay_from fuel (fun _ => s) r from =
    Some (Returns (Ok (MkRoot (root_id r) (Some st) (head_version (len (stream_of s (stream_key (root_id r))))) k))).
Proof using decode_encode RS.
  intros Hi Hst0 Hv Hn Hfrom Hread Hfuel Hrep Hle Henc Ha. unfold replay_from. rewrite Hread.
  set (id := stream_key (root_id r)) in *.
  assert (sched_ok (fun _ => s)) as Hs by (intros t; split; [done|intros; reflexivity]).
  pose proof (read_stream_opens s id from c Hi Hread) as Hcur. rewrite Hfrom in Hcur.
  destruct (try_fold_spec fuel (fun _ => s) O c SAdapter replay_step r id (n + 1) Hs Hcur)
    as (envs & k & Hd & Hres); [lia|].
  destruct (delivered_versions s id n envs Hi Hn Hd) as (Hcons & tl & Htl). destruct Hd as [_ Hok].
  rewrite Htl in Henc. apply Forall2_app_inv_l in Henc as (ev1 & ev2 & He1 & He2 & ->).
  rewrite apply_all_app in Ha. destruct (apply_all st0 ev1) as [st1|] eqn:Ha1; [|done].
  assert (len (stream_of s id) - n = len envs + len tl) as Hlen.
  { apply (f_equal length) in Htl. rewrite length_drop, length_app, length_fmap in Htl. unfold len in *. lia. }
  pose proof (len_nonneg tl). destruct (stream_of_ok s id Hi) as (_ & _ & Hb).
  assert (current_of r = n) as Hcur'.
  { change (from_option as_u64 0 (root_version r) = n). apply head_version_raw; [lia|done]. }
  pose proof (fold_matching_from r st0 envs ev1 st1 Hst0 ltac:(lia) He1 Hok ltac:(by rewrite Hcur') Ha1) as Hfold.
  destruct (try_fold fuel (fun _ => s) 1 c SAdapter replay_step r) as [o|].
  - destruct Hres as [-> Hend]. specialize (Hend _ Hfold).
    assert (tl = []) as -> by (destruct tl as [|x tl]; [done|]; rewrite len_cons in *; pose proof (len_nonneg tl); lia).
    apply Forall2_nil_inv_l in He2 as ->. simpl in Ha. injection Ha as <-.
    exists (replayed_events r + len envs). rewrite Hfold. do 4 f_equal.
    rewrite len_nil, Z.add_0_r in Hlen. apply head_version_raw; [lia|].
    destruct (last (ps_version <$> envs)) as [v|] eqn:Hlast; simpl.
    + rewrite (consecutive_last _ _ _ Hcons Hlast). unfold len in *. rewrite length_fmap. lia.
    + apply last_None in Hlast. apply fmap_nil_inv in Hlast as ->. rewrite len_nil in Hlen.
      change (current_of r = len (stream_of s id)). lia.
  - destruct Hres as [Hl _]. unfold len in *. lia.
Qed.

(** A readable stream can be read to its end. *)
Lemma stream_reads_back s (r : AggregateRoot) id c :
  store_inv s -> read_stream s id INITIAL = Ok c ->
  exists envs, Forall persisted_ok envs /\ from_persisted <$> envs = stream_of s id.
Proof using RS.
  intros Hi Hread. pose proof (read_stream_opens s id INITIAL c Hi Hread) as Hcur. rewrite as_u64_INITIAL in Hcur.
  assert (sched_ok (fun _ => s)) as Hs by (intros t; split; [done|intros; reflexivity]).
  destruct (try_fold_spec (E := unit) (Datatypes.S (length (stream_of s id))) (fun _ => s) O c (fun _ => tt)
    (fun r _ => Returns (Ok r)) r id 1 Hs Hcur) as (envs & k & [[tl Htl] Hok] & Hres); [lia|].
  simpl in Htl. rewrite drop_0 in Htl. exists envs. split; [done|].
  assert (forall l, fold_steps (E := unit) (fun r _ => Returns (Ok r)) r l = Returns (Ok r)) as Hf
    by (intros l; induction l; done).
  assert (length (stream_of s id) = length envs + length tl)%nat as Hlen by (rewrite Htl, length_app, length_fmap; done).
  destruct (try_fold _ _ _ _ _ _ _) as [o|].
  - destruct Hres as [-> Hend]. specialize (Hend r (Hf envs)). unfold len in Hend.
    destruct tl; [by rewrite app_nil_r in Htl|simpl in Hlen; lia].
  - destruct Hres as [Hl _]. lia.
Qed.

(** The events behind a readable stream are determined by it. *)
Lemma encodes_functional s (r : AggregateRoot) id c n evs1 evs2 :
  store_inv s -> read_stream s id INITIAL = Ok c ->
  Forall2 encodes (take n (stream_of s id)) evs1 -> Forall2 encodes (take n (stream_of s id)) evs2 -> evs1 = evs2.
Proof using RS decode_encode.
  intros Hi Hread H1 H2. destruct (stream_reads_back s r id c Hi Hread) as (envs & Hok & E). rewrite <- E, <- fmap_take in *.
  apply (Forall_take _ n) in Hok. clear E. revert Hok evs1 evs2 H1 H2. generalize (take n envs).
  intros l Hok. induction Hok as [|env l Hp _ IH]; intros evs1 evs2 H1 H2.
  - apply Forall2_nil_inv_l in H1 as ->. by apply Forall2_nil_inv_l in H2 as ->.
  - apply Forall2_cons_inv_l in H1 as (e1 & l1 & He1 & H1 & ->). apply Forall2_cons_inv_l in H2 as (e2 & l2 & He2 & H2 & ->).
    pose proof (encodes_decodes decode_encode _ _ He1 Hp) as D1. pose proof (encodes_decodes decode_encode _ _ He2 Hp) as D2.
    rewrite D1 in D2. injection D2 as <-. f_equal. by apply IH.
Qed.

(** A snapshot hit replays the rest of the stream. *)
Lemma snapshot_hit fuel s id v st0 events st c0 :
  store_inv s -> (forall from, is_ok (read_stream s (stream_key id) from) = true) -> limit < Z.of_nat fuel ->
  state_at s (id_as_ref id) (as_u64 v) st0 -> read_stream s (stream_key id) INITIAL = Ok c0 ->
  Forall2 encodes (stream_of s (stream_key id)) events -> apply_all initial events = Returns st ->
  len (stream_of s (stream_key id)) <= limit ->
  exists k, match next v with
    | Some w => replay_from fuel (fun _ => s) (restore id st0 v) w
    | None => Some (Returns (Ok (restore id st0 v)))
    end = Some (Returns (Ok (MkRoot id (Some st) (head_version (len (stream_of s (stream_key id)))) k))).
Proof using RS decode_encode.
  intros Hi Hread Hfuel (evs0 & Hv & Henc0 & Ha0) Hc0 Henc Ha Hle. fold (stream_key id) in Hv, Henc0.
  change (MkStreamKey (id_as_ref id)) with (stream_key id) in Hv, Henc0.
  set (stream := stream_of s (stream_key id)) in *. pose proof (version_range v).
  rewrite <- (take_drop (Z.to_nat (as_u64 v)) stream) in Henc.
  apply Forall2_app_inv_l in Henc as (e1 & e2 & He1 & He2 & ->).
  rewrite (encodes_functional s (root_new id) (stream_key id) c0 _ _ _ Hi Hc0 He1 Henc0) in *.
  rewrite apply_all_app, Ha0 in Ha. destruct (stream_of_ok s (stream_key id) Hi) as (_ & _ & Hb). fold stream in Hb.
  destruct (next v) as [w|] eqn:Hw.
  2:{ apply next_None in Hw. exists 0. unfold restore. assert (len stream = as_u64 v) as Hl by lia.
      rewrite drop_ge in He2 by (unfold len in Hl; lia). apply Forall2_nil_inv_l in He2 as ->.
      injection Ha as ->. do 4 f_equal. symmetry. rewrite Hl. unfold head_version.
      rewrite (proj2 (Z.eqb_neq _ _)) by lia. apply new_as_u64. }
  apply next_Some in Hw. specialize (Hread w). destruct (read_stream s (stream_key id) w) as [c|] eqn:Hc; [|done].
  destruct (replay_from_matching fuel s (restore id st0 v) st0 (as_u64 v) w c e2 st) as [k' Hr]; try done.
  - apply head_version_raw; [lia|done].
  - cbn [root_id restore]. fold stream. lia.
  - cbn [replayed_events root_id restore]. fold stream. lia.
  - by exists k'.
Qed.

(** The lazy snapshot of a full replay is honest. *)
Lemma lazy_snapshot_honest s ss id st k events :
  store_inv s -> snapshots_honest s ss ->
  Forall2 encodes (stream_of s (stream_key id)) events -> apply_all initial events = Returns st ->
  let v := head_version (len (stream_of s (stream_key id))) in
  snapshots_honest s (match snapshot_on_read, v with
    | true, Some version => try_save_snapshot ss (MkRoot id (Some st) v k) version
    | _, _ => ss end).
Proof using commit_adds_one.
  intros Hi Hh Henc Ha v. destruct snapshot_on_read, v as [w|] eqn:Hv; try done. apply save_snapshot_honest; [done|].
  intros st' [= <-]. exists events. cbn [root_id]. change (MkStreamKey (id_as_ref id)) with (stream_key id).
  destruct (stream_of_ok s (stream_key id) Hi) as (_ & _ & Hb). pose proof (len_nonneg (stream_of s (stream_key id))).
  assert (as_u64 w = len (stream_of s (stream_key id))) as ->.
  { change (from_option as_u64 0 (Some w) = len (stream_of s (stream_key id))). apply head_version_raw; [lia|done]. }
  split_and!; [lia|unfold len; by rewrite Nat2Z.id, firstn_all|done].
Qed.

(** With honest snapshots, loading through the decorator gives the
    state and version a full replay gives, whether it hits a snapshot, an outdated
    schema, a failing snapshot store or none; and the snapshot it may write on the
    way is honest too. *)
Theorem snapshot_load_transparent fuel s ss ss_end id events st :
  store_inv s -> (forall from, is_ok (read_stream s (stream_key id) from) = true) -> limit < Z.of_nat fuel ->
  hydrate ss (id_as_ref id) schema_version <> Panics -> snapshots_honest s ss -> snapshots_honest s ss_end ->
  Forall2 encodes (stream_of s (stream_key id)) events -> apply_all initial events = Returns st ->
  len (stream_of s (stream_key id)) <= limit ->
  exists ss' r r', load fuel (fun _ => s) id = Some (Returns (Ok r)) /\
    snapshot_load fuel (fun _ => s) ss ss_end id = Some (ss', Returns (Ok r')) /\
    root_id r' = id /\ root_state r' = root_state r /\ root_version r' = root_version r /\ root_state r = Some st /\
    snapshots_honest s ss'.
Proof using RS decode_encode commit_adds_one.
  intros Hi Hread Hfuel Hnp Hh Hh' Henc Ha Hle. pose proof (len_nonneg (stream_of s (stream_key id))) as Hnn.
  pose proof (Hread INITIAL) as Hc0. destruct (read_stream s (stream_key id) INITIAL) as [c0|] eqn:E0; [|done].
  destruct (replay_from_matching fuel s (root_new id) initial 0 INITIAL c0 events st) as [k Hload];
    try done; [cbn [replayed_events root_id root_new]; lia|].
  cbn [root_id root_new] in Hload. unfold snapshot_load, try_load_from_snapshot, load.
  destruct (hydrate ss (id_as_ref id) schema_version) as [[[| |v st0]|e]|] eqn:Eh; [| | | |done].
  3:{ destruct (snapshot_hit fuel s id v st0 events st c0) as (k' & Hr); try done; [by apply Hh|].
      exists ss_end. destruct (next v); do 2 eexists; (split; [exact Hload|]); [by rewrite Hr|].
      split; [done|]. by injection Hr as -> <- _. }
  all: do 3 eexists; split; [exact Hload|]; rewrite Hload; split_and!; try done; by eapply lazy_snapshot_honest.
Qed.

End snapshotting.
