(* ===== verification/ConformanceAtomic.v ===== *)
(** * The conformance kit for atomic appends and snapshots
      (crates/store-testing/src: atomic.rs, snapshot.rs)

    The checks of the optional capabilities of an adapter, written as those of
    [Conformance], and the proof that an adapter which keeps the contract of the
    capability, and serves what the kit asks of it without errors of its own, passes
    them. *)

From Stdlib Require Import String Sorted.
From S2P Require Import Prelude Utf8 ErrorId Version Value Wire Envelope Wake RawStore Import Log InMemory Subscription LiveInMemory Checkpoint State Conformance ConformanceSpec.
Close Scope string_scope.
Open Scope list_scope.

#[export] Instance invalid_run_eq_dec : EqDecision InvalidRun.
Proof. solve_decision. Defined.
#[export] Instance invalid_route_eq_dec : EqDecision InvalidRoute.
Proof. solve_decision. Defined.

(** ** Atomic appends (atomic.rs) *)

Section atomic.
Context {S : Type} {R : RawEventStore S} {RA : RawAllStore S} {AP : AllPosition (AllPos S)} {AA : AtomicAppend S} (fuel : nat).
(** What the factory gives: a fresh store. *)
Context (factory : S).
Notation check := (program S (SError S)).
Notation AtomicResult := (result (option (AllPos S)) (AtomicAppendError (SError S))).

(** [let (store, _guard) = factory().await]. *)
Definition fresh_store : check () := fun _ => (factory, Passed ()).

Definition kit_atomic (writes : list PlannedAppend) : check AtomicResult :=
  fun s => match atomic_append_many s writes with (s, Returns r) => (s, Passed r) | (s, Panics) => (s, Violated) end.

Definition unwrap_atomic (r : AtomicResult) : check (option (AllPos S)) :=
  match r with Ok p => pass p | Err (AtomicStore e) => refuse e | Err _ => fail end.
Definition expect_atomic_err (r : AtomicResult) : check (AtomicAppendError (SError S)) :=
  match r with Ok _ => fail | Err e => pass e end.

(** [PlannedAppend { target, expected_version, head, tail }] of rows. *)
Definition planned_rows (t : StreamKey) (expected : option Version) (head : ConformanceRow) (tail : list ConformanceRow) : panicking PlannedAppend :=
  panicking_try (envelope_for head) (fun head => panicking_try (envelopes_for tail) (fun tail => Returns (MkPlanned t expected head tail))).
Definition planned_run (t : StreamKey) (expected : option Version) (version payload : Z) : panicking PlannedAppend :=
  planned_rows t expected (row_new version (text "E") (bytes_of [payload])) [].

(** [Iterator::max]: the last of the greatest. *)
Definition max_position (ps : list (AllPos S)) : option (AllPos S) :=
  match ps with [] => None | p :: ps => Some (fold_left (fun m q => if pos_ltb q m then m else q) ps p) end.

Definition check_atomic_multi_stream_commits_all : check () :=
  let existing := key "existing" in
  let+ _ := append_rows existing [row_new 1 (text "E") (bytes_of [0])] in
  let+ a := must (planned_rows (key "fresh-a") None (row_new 1 (text "E") (bytes_of [1])) []) in
  let+ b := must (planned_rows (key "fresh-b") None (row_new 1 (text "E") (bytes_of [2])) [row_new 2 (text "E") (bytes_of [3])]) in
  let+ c := must (planned_rows existing (new 1) (row_new 2 (text "E") (bytes_of [4])) []) in
  let+ r := kit_atomic [a; b; c] in
  let+ committed := unwrap_atomic r in
  let+ got := drain_stream fuel (key "fresh-a") INITIAL in
  let+ _ := assert (len got =? 1) in
  let+ got := drain_stream fuel (key "fresh-b") INITIAL in
  let+ _ := assert (len got =? 2) in
  let+ got := drain_stream fuel existing INITIAL in
  let+ _ := assert (len got =? 2) in
  let+ all := drain_all fuel None in
  let+ _ := assert (len all =? 5) in
  let+ _ := assert_strictly_increasing all in
  let+ highest := must (expect (max_position all.*1)) in
  assert (bool_decide (committed = Some highest)).

Definition check_atomic_conflict_aborts_all : check () :=
  let existing := key "existing" in
  let+ _ := append_rows existing [row_new 1 (text "E") (bytes_of [0])] in
  let+ all_before := drain_all fuel None in
  let+ a := must (planned_rows (key "fresh-a") None (row_new 1 (text "E") (bytes_of [1])) []) in
  let+ b := must (planned_rows existing None (row_new 1 (text "E") (bytes_of [9])) []) in
  let+ r := kit_atomic [a; b] in
  let+ err := expect_atomic_err r in
  let+ _ := match err with
            | AtomicConflict index actual =>
                let+ _ := assert (index =? 1) in assert (bool_decide (actual = new 1))
            | AtomicStore e => refuse e
            | _ => fail
            end in
  let+ fresh := drain_stream fuel (key "fresh-a") INITIAL in
  let+ _ := assert (bool_decide (fresh = [])) in
  let+ all_after := drain_all fuel None in
  assert (len all_after =? len all_before).

Definition check_atomic_empty_batch_is_noop : check () :=
  let+ r := kit_atomic [] in
  let+ committed := unwrap_atomic r in
  let+ _ := assert (bool_decide (committed = None)) in
  let+ all := drain_all fuel None in
  assert (bool_decide (all = [])).

(** One case of [check_atomic_malformed_runs_reject_all]. *)
Definition malformed_case (first : Z) (second : option Z) (expected actual : Z) (existing : bool) : check () :=
  let+ _ := fresh_store in
  let target := key "malformed" in
  let+ _ := if existing then append_rows target [row_new 1 (text "E") (bytes_of [9])] else pass () in
  let+ before := drain_all fuel None in
  let fresh := key "fresh" in
  let+ malformed := must (planned_run target None first 2) in
  let+ tail := match second with
               | Some version => must (envelopes_for [row_new version (text "E") (bytes_of [3])])
               | None => pass []
               end in
  let declared := if (first =? 2) && bool_decide (is_Some second) then new 1 else None in
  let malformed := MkPlanned (Import.target malformed) declared (planned_head malformed) (planned_tail malformed ++ tail) in
  let+ w := must (planned_run fresh None 1 1) in
  let+ r := kit_atomic [w; malformed] in
  let+ error := expect_atomic_err r in
  let+ e := version_of expected in
  let+ a := version_of actual in
  let+ _ := match error with
            | AtomicInvalidRun reason => assert (bool_decide (reason = NonSequential 1 e a))
            | AtomicStore x => refuse x
            | _ => fail
            end in
  let+ all := drain_all fuel None in
  let+ _ := assert (bool_decide (all = before)) in
  let+ got := drain_stream fuel fresh INITIAL in
  assert (bool_decide (got = [])).

Definition check_atomic_malformed_runs_reject_all : check () :=
  for_each [(2, None, 1, 2); (1, Some 1, 2, 1); (1, Some 3, 2, 3); (2, Some 1, 3, 1)]
    (fun c => for_each [false; true] (malformed_case c.1.1.1 c.1.1.2 c.1.2 c.2)).

(** One case of [check_atomic_duplicate_targets_reject_all]. *)
Definition duplicate_case (second_version : Z) : check () :=
  let+ _ := fresh_store in
  let target := StreamKey.from_slice (bytes_of [255; 0]) in
  let+ _ := append_rows target [row_new 1 (text "E") (bytes_of [9])] in
  let+ before := drain_all fuel None in
  let fresh := key "fresh" in
  let+ w0 := must (planned_run fresh None 1 1) in
  let+ w1 := must (planned_run target (new 1) 2 2) in
  let+ w2 := must (planned_run (key "other") None 1 3) in
  let+ w3 := must (planned_run target (new (second_version - 1)) second_version 4) in
  let+ r := kit_atomic [w0; w1; w2; w3] in
  let+ failure := expect_atomic_err r in
  let+ _ := match failure with
            | AtomicInvalidRoute error => assert (bool_decide (error = MkInvalidRoute target 1 3))
            | AtomicStore x => refuse x
            | _ => fail
            end in
  let+ all := drain_all fuel None in
  let+ _ := assert (bool_decide (all = before)) in
  let+ got := drain_stream fuel target INITIAL in
  let+ _ := assert (bool_decide (got = [row_new 1 (text "E") (bytes_of [9])])) in
  let+ got := drain_stream fuel fresh INITIAL in
  let+ _ := assert (bool_decide (got = [])) in
  let+ got := drain_stream fuel (key "other") INITIAL in
  let+ _ := assert (bool_decide (got = [])) in
  let+ r := kit_atomic [w0; w1; w2] in
  let+ committed := unwrap_atomic r in
  let+ _ := assert (bool_decide (is_Some committed)) in
  let+ all := drain_all fuel None in
  assert (len all =? 4).

Definition check_atomic_duplicate_targets_reject_all : check () := for_each [1; 3; 5] duplicate_case.

(** [conformance_atomic_append!]. *)
Definition atomic_checks : list (check ()) :=
  [check_atomic_multi_stream_commits_all; check_atomic_conflict_aborts_all; check_atomic_empty_batch_is_noop;
   check_atomic_duplicate_targets_reject_all; check_atomic_malformed_runs_reject_all].
End atomic.

(** ** What the kit needs of an atomic append

    The contract of [AtomicAppendSpec], that what is committed is at the end of the log,
    and what each error that is not the store's own means: the shape of the input is
    refused before the store is looked at, and a conflict names the first write whose
    head has moved. *)

Definition refusal {E} (heads : StreamKey -> option Version) (ws : list PlannedAppend) (e : AtomicAppendError E) : Prop :=
  match e with
  | AtomicInvalidRoute x => validate_distinct_targets (target <$> ws) = Err x
  | AtomicInvalidRun x => is_ok (validate_distinct_targets (target <$> ws)) = true /\ validate_atomic_runs ws = Err x
  | AtomicConflict i actual =>
      is_ok (validate_distinct_targets (target <$> ws)) = true /\ is_ok (validate_atomic_runs ws) = true /\
      exists k w, i = Z.of_nat k /\ ws !! k = Some w /\ actual = heads (target w) /\ planned_expected w <> actual /\
        Forall (fun w => planned_expected w = heads (target w)) (take k ws)
  | AtomicStore _ => False
  end.

Class AtomicLogSpec (S : Type) {R : RawEventStore S} {RS : RawEventStoreSpec S} {RA : RawAllStore S} {AP : AllPosition (AllPos S)}
    {AL : AllLogSpec S} {AA : AtomicAppend S} {AAS : AtomicAppendSpec S} := {
  atomic_logged s ws s' p :
    store_inv s -> Forall write_ok ws -> atomic_append_many s ws = (s', Returns (Ok p)) ->
    exists entries, (fun i => (i.1.2, i.2)) <$> entries ≡ₚ writes_log ws /\ p = last entries.*1.*1 /\ all_log s' = all_log s ++ entries;
  atomic_refused s ws s' e :
    store_inv s -> Forall write_ok ws -> atomic_append_many s ws = (s', Returns (Err e)) ->
    (exists x, e = AtomicStore x) \/
    all_log s' = all_log s /\ refusal (fun id => head_version (len (stream_of s id))) ws e;
}.

(** In working order: no error of the store's own for what the kit writes. *)
Definition kit_write (w : PlannedAppend) : Prop := kit_key (target w) /\ kit_batch (batch w).

Class ServesAtomic (S : Type) {R : RawEventStore S} {RS : RawEventStoreSpec S} {RA : RawAllStore S} {AP : AllPosition (AllPos S)}
    {AL : AllLogSpec S} {AA : AtomicAppend S} := {
  atomic_serves s ws s' x :
    store_inv s -> Forall kit_write ws -> len (all_log s) + len (writes_log ws) <= ROOM ->
    atomic_append_many s ws <> (s', Returns (Err (AtomicStore x)));
}.

Section atomic_spec.
Context {S : Type} {R : RawEventStore S} {RS : RawEventStoreSpec S} {RA : RawAllStore S} {AP : AllPosition (AllPos S)} {AL : AllLogSpec S}.
Context {AA : AtomicAppend S} {AAS : AtomicAppendSpec S} {ALS : AtomicLogSpec S} {SK : ServesKit S} {SA : ServesAtomic S}.
Notation check := (program S (SError S)).
Notation LogRow := (AllPos S * StreamKey * ConformanceRow)%type.

Definition appended_rows (ws : list PlannedAppend) (C : StreamKey -> list ConformanceRow) : StreamKey -> list ConformanceRow :=
  fun id => C id ++ (pending_row <$> writes_to ws id).

Lemma holds_atomic s C L ws Q :
  shows s C L -> Forall kit_write ws -> len L + len (writes_log ws) <= ROOM ->
  (forall s' p (L' : list LogRow), shows s' (appended_rows ws C) (L ++ L') -> length L' = length (writes_log ws) -> p = last L'.*1.*1 ->
     NoDup (target <$> ws) -> Forall (fun w => planned_expected w = head_version (len (C (target w)))) ws -> 
     (forall id, consecutive 1 (versions (stream_of s id ++ writes_to ws id))) -> Q (Ok p) s') ->
  (forall s' e, shows s' C L -> refusal (fun id => head_version (len (C id))) ws e -> Q (Err e) s') ->
  holds s (kit_atomic ws) Q.
Proof.
  intros Hs Hkw Hroom Hok Herr. assert (Forall write_ok ws) as Hw by (eapply Forall_impl; [exact Hkw|]; intros w [_ Hb]; by apply kit_batch_ok). pose proof (fun id => shows_len s C L id Hs) as Hlen. destruct Hs as [Hi Hst Hlog]. unfold holds, kit_atomic.
  pose proof (atomic_no_panic s ws Hi Hw) as Hnp. destruct (atomic_append_many s ws) as [s' [[p|e]|]] eqn:Ha; [| |done].
  - destruct (atomic_committed _ _ _ _ Hi Hw Ha) as (Hi' & Hnd & Hh & Hid). destruct (atomic_logged _ _ _ _ Hi Hw Ha) as (entries & Hp & Hlast & Hl).
    assert ((logged <$> entries).*1 = entries.*1) as Hfst by (by rewrite <- list_fmap_compose).
    apply (Hok s' p (logged <$> entries)); [split; [done| |]| |by rewrite Hfst|done| |].
    + intros id. unfold appended_rows. by rewrite Hid, fmap_app, Hst.
    + by rewrite Hl, fmap_app, Hlog.
    + apply Permutation_length in Hp. rewrite !length_fmap in *. done.
    + eapply Forall_impl; [exact Hh|]. cbn. intros w. by rewrite Hlen.
    + intros id. rewrite <- Hid. apply (stream_of_ok s' id Hi').
  - destruct (atomic_refused _ _ _ _ Hi Hw Ha) as [[x ->]|(Hl & Hr)].
    { destruct (atomic_serves s ws s' x Hi Hkw); [|done]. rewrite <- Hlog in Hroom. unfold len in *. by rewrite length_fmap in Hroom. }
    destruct (atomic_failed _ _ _ _ Hi Hw Ha) as (Hi' & [Hsame|([x ->] & _)]); [|done]. apply (Herr s' e).
    + split; [done|intros id; by rewrite Hsame|by rewrite Hl].
    + destruct e as [x|x|i actual|x]; cbn in *; [done|done| |done].
      destruct Hr as (? & ? & k & w & -> & Hk & -> & Hne & Hall). rewrite Hlen in *. split_and!; [done|done|]. exists k, w. split_and!; [done|done|done|done|].
      eapply Forall_impl; [exact Hall|]. cbn. intros w'. by rewrite Hlen.
Qed.

Section checks.
Context (fuel : nat) (Hfuel : (2000 <= fuel)%nat).
Context (s : S) (Hfresh : shows s (fun _ => []) []).

Ltac rows H s ps H' Hl := apply holds_bind; eapply holds_append_rows; [exact H|by vm_compute|roomy|by vm_compute|done|rows_ok|by vm_compute|]; intros s ps H' Hl.
Ltac planned := apply holds_bind; eapply holds_must; [vm_compute; reflexivity|].

Lemma atomic_empty_batch_is_noop : passes s (check_atomic_empty_batch_is_noop fuel).
Proof using All.
  unfold passes, check_atomic_empty_batch_is_noop. apply holds_bind. eapply holds_atomic; [exact Hfresh|by apply Forall_nil|by vm_compute| |].
  - intros s1 p L' H1 Hl -> _ _ _. destruct L'; [|done]. apply holds_bind, holds_pass. apply holds_bind. apply holds_assert; [done|].
    apply holds_bind. eapply holds_drain_all; [exact H1|cbn; lia|]. by apply holds_assert.
  - intros s1 e _ He. apply holds_bind. destruct e as [x|x|i a|x]; cbn in He; [naive_solver|done| |done]. destruct He as (_ & _ & k & w & _ & Hk & _). by rewrite lookup_nil in Hk.
Qed.

(** Writes that are valid by evaluation, and what their validation says of an error. *)
Ltac envelopes_ok := repeat (apply Forall_cons; split); try (by apply Forall_nil); split_and!; by vm_compute.
Ltac writes_ok := repeat (apply Forall_cons; split); try (by apply Forall_nil); (split; [by vm_compute|envelopes_ok]).
Ltac no_refusal e He :=
  destruct e as [?|?|? ?|?]; cbn [refusal] in He;
    [by destruct He as [_ He]; vm_compute in He|by vm_compute in He| |].
Ltac reads H := apply holds_bind; eapply holds_drain_stream; [exact H|by vm_compute|by vm_compute; lia|].
Ltac scans H := apply holds_bind; eapply holds_drain_all; [exact H|cbn; lia|]; rewrite filter_from_start.
Ltac asserts := first [apply holds_bind; apply holds_assert; [by vm_compute|] | apply holds_assert; [by vm_compute|done]].

Lemma max_sorted (ps : list (AllPos S)) : StronglySorted (fun p q => pos_ltb p q = true) ps -> max_position ps = last ps.
Proof using All.
  destruct (pos_order (S := S)) as [Hirr Htr]. destruct ps as [|p ps]; [done|]. cbn [max_position]. intros Hs. revert p Hs.
  induction ps as [|q ps IH]; intros p Hs; [done|]. apply StronglySorted_inv in Hs as [Hs [Hpq _]%Forall_cons]. cbn [fold_left].
  assert (pos_ltb q p = false) as ->; [|by apply IH]. destruct (pos_ltb q p) eqn:E; [|done]. exfalso. apply (Hirr p). by apply (Htr p q p).
Qed.

Lemma atomic_multi_stream_commits_all : passes s (check_atomic_multi_stream_commits_all fuel).
Proof using All.
  unfold passes, check_atomic_multi_stream_commits_all. cbn zeta. rows Hfresh s1 ps H1 Hl. destruct ps as [|p0 [|]]; try done.
  planned. planned. planned. apply holds_bind. eapply holds_atomic; [exact H1|writes_ok|roomy| |].
  - intros s2 p L' H2 Hl2 -> _ _ _. cbn in Hl2. apply holds_bind, holds_pass.
    reads H2. asserts. reads H2. asserts. reads H2. asserts.
    apply holds_bind. eapply holds_drain_all; [exact H2|rewrite length_app; cbn; lia|]. rewrite filter_from_start.
    apply holds_bind. apply holds_assert; [apply Z.eqb_eq; unfold len; rewrite length_fmap, length_app, Hl2; done|].
    pose proof (shows_increasing _ _ _ H2) as Hs. rewrite positions_of.
    apply holds_bind. apply holds_assert; [rewrite positions_of; by apply increasing_sorted|].
    destruct (last L'.*1.*1) as [q|] eqn:Hq; [|apply last_None in Hq; apply (f_equal length) in Hq; rewrite !length_fmap in Hq; cbn in Hq; lia].
    apply holds_bind. apply (holds_must _ _ q); [rewrite max_sorted, !fmap_app, last_app, Hq by done; done|].
    apply holds_assert; [by apply bool_decide_eq_true|done].
  - intros s2 e H2 He. apply holds_bind. no_refusal e He; [|done].
    destruct He as (_ & _ & k & w & _ & Hk & -> & Hne & _). exfalso. destruct k as [|[|[|]]]; [..|done]; injection Hk as <-; by apply Hne; vm_compute.
Qed.

Lemma atomic_conflict_aborts_all : passes s (check_atomic_conflict_aborts_all fuel).
Proof using All.
  unfold passes, check_atomic_conflict_aborts_all. cbn zeta. rows Hfresh s1 ps H1 Hl. destruct ps as [|p0 [|]]; try done.
  scans H1. planned. planned. apply holds_bind. eapply holds_atomic; [exact H1|writes_ok|roomy| |].
  - intros s2 p L' _ _ _ _ [_ [Hh _]%Forall_cons]%Forall_cons _. by vm_compute in Hh.
  - intros s2 e H2 He. apply holds_bind, holds_pass. no_refusal e He; [|done].
    destruct He as (_ & _ & k & w & -> & Hk & -> & Hne & _).
    destruct k as [|[|]]; [injection Hk as <-; by destruct Hne|injection Hk as <-|done].
    apply holds_bind. asserts. apply holds_assert; [by vm_compute|]. reads H2. asserts. scans H2. apply holds_assert; [by apply Z.eqb_refl|done].
Qed.

(** What commits continues the numbers of its stream. *)
Lemma committed_numbers s0 C L ws id :
  shows s0 C L -> consecutive 1 (versions (stream_of s0 id ++ writes_to ws id)) ->
  cr_version <$> C id ++ (pending_row <$> writes_to ws id) = seqZ 1 (len (C id ++ (pending_row <$> writes_to ws id))).
Proof using All.
  intros Hs Hc%consecutive_rows. rewrite fmap_app in Hc. rewrite (sh_streams _ _ _ Hs id) in Hc. rewrite Hc. f_equal.
  rewrite !len_app, (shows_len _ _ _ id Hs). unfold len. by rewrite length_fmap.
Qed.

Lemma holds_fresh_store s0 (Q : () -> S -> Prop) : Q tt s -> holds s0 (fresh_store s) Q.
Proof using All. done. Qed.

(** The rest of a malformed case, after its stream has been prepared. *)
Ltac malformed H :=
  scans H; planned;
  apply holds_bind; (eapply holds_must; [vm_compute; reflexivity|] || apply holds_pass); planned; apply holds_bind;
  eapply holds_atomic; [exact H|writes_ok|roomy| |];
  [ let Hh := fresh "Hh" in let Hc := fresh "Hc" in
    intros ? ? ? _ _ _ _ [_ [Hh _]%Forall_cons]%Forall_cons Hc; specialize (Hc (key "malformed")); apply (committed_numbers _ _ _ _ _ H) in Hc;
    first [by vm_compute in Hh | by vm_compute in Hc]
  | let s2 := fresh "s" in let e := fresh "e" in let H2 := fresh "H" in let He := fresh "He" in
    intros s2 e H2 He; apply holds_bind, holds_pass; planned; planned;
    destruct e as [x|x|i a|x]; cbn [refusal] in He;
      [destruct He as [_ He]; vm_compute in He; injection He as <-|by vm_compute in He|by destruct He as (_ & He & _); vm_compute in He|done];
    asserts; scans H2; apply holds_bind; apply holds_assert; [by apply bool_decide_eq_true|]; reads H2; asserts ].

Lemma malformed_fresh first second expected actual s0 :
  (first, second, expected, actual) ∈ [(2, None, 1, 2); (1, Some 1, 2, 1); (1, Some 3, 2, 3); (2, Some 1, 3, 1)] ->
  holds s0 (malformed_case fuel s first second expected actual false) (fun _ _ => True).
Proof using All.
  intros Hin. unfold malformed_case. apply holds_bind, holds_fresh_store. apply holds_bind. apply holds_pass.
  rewrite !elem_of_cons, elem_of_nil in Hin. destruct Hin as [Hin|[Hin|[Hin|[Hin|[]]]]]; injection Hin as -> -> -> ->; malformed Hfresh.
Qed.

Lemma malformed_existing first second expected actual s0 :
  (first, second, expected, actual) ∈ [(2, None, 1, 2); (1, Some 1, 2, 1); (1, Some 3, 2, 3); (2, Some 1, 3, 1)] ->
  holds s0 (malformed_case fuel s first second expected actual true) (fun _ _ => True).
Proof using All.
  intros Hin. unfold malformed_case. apply holds_bind, holds_fresh_store. cbn zeta. rows Hfresh s1 ps H1 Hl. destruct ps as [|p0 [|]]; try done.
  rewrite !elem_of_cons, elem_of_nil in Hin. destruct Hin as [Hin|[Hin|[Hin|[Hin|[]]]]]; injection Hin as -> -> -> ->; malformed H1.
Qed.

Lemma atomic_malformed_runs_reject_all : passes s (check_atomic_malformed_runs_reject_all fuel s).
Proof using All.
  apply (holds_for_each (fun _ => True)); [done|]. intros [[[first second] expected] actual] s0 Hin _. apply (holds_for_each (fun _ => True)); [done|]. intros [] s1 _ _; [by apply malformed_existing|by apply malformed_fresh].
Qed.

Lemma duplicate_rejected second_version s0 : second_version ∈ [1; 3; 5] -> holds s0 (duplicate_case fuel s second_version) (fun _ _ => True).
Proof using All.
  intros Hin. unfold duplicate_case. apply holds_bind, holds_fresh_store. cbn zeta. rows Hfresh s1 ps H1 Hl. destruct ps as [|p0 [|]]; try done.
  rewrite !elem_of_cons, elem_of_nil in Hin. destruct Hin as [->|[->|[->|[]]]]; scans H1; planned; planned; planned; planned;
    (apply holds_bind; eapply holds_atomic; [exact H1|writes_ok|roomy| |];
     [intros ? ? ? _ _ _ Hnd; exfalso; apply NoDup_cons in Hnd as [_ [Hnd _]%NoDup_cons]; apply Hnd; right; left|]);
    intros s2 e H2 He; apply holds_bind, holds_pass;
    (destruct e as [x|x|i a|x]; cbn [refusal] in He;
      [by destruct He as [He _]; vm_compute in He|vm_compute in He; injection He as <-|by destruct He as [He _]; vm_compute in He|done]);
    asserts; scans H2; (apply holds_bind; apply holds_assert; [by apply bool_decide_eq_true|]); reads H2; asserts; reads H2; asserts; reads H2; asserts;
    (apply holds_bind; eapply holds_atomic; [exact H2|writes_ok|roomy| |]).
  all: try (intros s3 e H3 He; apply holds_bind; no_refusal e He; [|done];
    destruct He as (_ & _ & k & w & _ & Hk & -> & Hne & _); exfalso; destruct k as [|[|[|]]]; [..|done]; injection Hk as <-; by apply Hne; vm_compute).
  all: intros s3 p L' H3 Hl3 -> _ _ _; cbn in Hl3; apply holds_bind, holds_pass; apply holds_bind.
  all: (destruct L' as [|i L'] using rev_ind; [done|]); apply holds_assert; [apply bool_decide_eq_true; rewrite !fmap_app, last_app; by eexists|].
  all: apply holds_bind; eapply holds_drain_all; [exact H3|rewrite length_app, Hl3; cbn; lia|]; rewrite filter_from_start.
  all: apply holds_assert; [apply Z.eqb_eq; unfold len; rewrite length_fmap, length_app, Hl3; done|done].
Qed.

Lemma atomic_duplicate_targets_reject_all : passes s (check_atomic_duplicate_targets_reject_all fuel s).
Proof using All. apply (holds_for_each (fun _ => True)); [done|]. intros v s0 Hv _. by apply duplicate_rejected. Qed.
End checks.

(** A store that keeps the contract of atomic appends and is in working order passes
    their checks. *)
Theorem atomic_kit_accepts fuel s :
  (2000 <= fuel)%nat -> store_inv s -> (forall id, stream_of s id = []) -> all_log s = [] -> Forall (accepted s) (atomic_checks fuel s).
Proof.
  intros Hf Hi Hst Hlog. assert (shows s (fun _ => []) []) as Hs by (split; [done|intros id; by rewrite Hst|by rewrite Hlog]).
  unfold atomic_checks. repeat (apply Forall_cons; split); try apply Forall_nil; try done; apply passes_accepted.
  - by apply atomic_multi_stream_commits_all.
  - by apply atomic_conflict_aborts_all.
  - by apply atomic_empty_batch_is_noop.
  - by apply atomic_duplicate_targets_reject_all.
  - by apply atomic_malformed_runs_reject_all.
Qed.
End atomic_spec.

(** ** The in-memory store *)

Section live.
Context {T : Target} {AS : ArrayString} {W : Watch} (debug : bool).
#[local] Existing Instance live_raw.
#[local] Existing Instance live_all.
#[local] Existing Instance live_raw_spec.
#[local] Existing Instance live_log_spec.

Lemma check_heads_Err l s index ws e :
  represents l s -> check_heads s index ws = Err e ->
  exists k w, e = AtomicConflict (index + Z.of_nat k) (head_version (len (log_stream (target w) l))) /\ ws !! k = Some w /\
    planned_expected w <> head_version (len (log_stream (target w) l)) /\
    Forall (fun w => planned_expected w = head_version (len (log_stream (target w) l))) (take k ws).
Proof.
  intros Hr. revert index. induction ws as [|w ws IH]; intros index; simpl; [done|].
  rewrite (current_len_spec l) by done. simpl. pose proof (represents_bound _ _ Hr). pose proof (len_log_stream (target w) l). pose proof (len_nonneg (log_stream (target w) l)).
  assert (new (len (log_stream (target w) l)) = head_version (len (log_stream (target w) l))) as Hnew.
  { unfold head_version. destruct (Z.eqb_spec (len (log_stream (target w) l)) 0) as [->|]; [|done]. apply new_None. lia. }
  destruct (Z.eqb_spec (len (log_stream (target w) l)) (from_option as_u64 0 (planned_expected w))) as [Heq|Hne]; simpl.
  - intros (k & w' & -> & Hk & Hne & Hall)%IH. exists (S k), w'. split_and!; [f_equal; lia|done|done|]. constructor; [|done].
    apply head_version_raw; [lia|done].
  - intros [= <-]. exists 0%nat, w. rewrite Hnew. split_and!; [f_equal; lia|done| |constructor].
    intros He. apply Hne. rewrite He. symmetry. apply head_version_raw; [lia|done].
Qed.

Lemma atomic_inner_refused l s ws s' e :
  represents l s -> atomic_append_inner s ws = (s', Returns (Err e)) -> (exists x, e = AtomicStore x) \/ refusal (fun id => head_version (len (log_stream id l))) ws e.
Proof.
  intros Hr. unfold atomic_append_inner. case_bool_decide as Hws; [done|].
  destruct (validate_distinct_targets (target <$> ws)) as [[]|x] eqn:Hd; cbn [map_err outcome_bind]; [|by intros [= _ <-]; right].
  destruct (validate_atomic_runs ws) as [[]|x] eqn:Hv; cbn [map_err outcome_bind]; [|intros [= _ <-]; right; cbn; by rewrite Hd].
  destruct (check_heads s 0 ws) as [[]|x] eqn:Hh; cbn [outcome_bind].
  - destruct (stage_writes _ _ _) as [[[[staged last'] seq']|x]|]; cbn [outcome_map_err map_err]; [done|intros [= _ <-]; left; by eexists|done].
  - intros [= _ <-]. right. destruct (check_heads_Err _ _ _ _ _ Hr Hh) as (k & w & -> & Hk & Hne & Hall). cbn. rewrite Hd, Hv. split_and!; [done|done|].
    by exists k, w.
Qed.

#[export] Instance live_atomic : @AtomicAppend LiveStore (live_raw debug) :=
  Build_AtomicAppend LiveStore (live_raw debug) (fun s ws =>
    let '(st, r) := store_atomic_append (lv_store s) ws in (MkLiveStore st (lv_owed s) (lv_guards s), r)).

Lemma wake_each_inv n gs ws : reg_inv (n, gs) -> reg_inv (fold_left (fun n w => wake n (sk_bytes (target w))) ws n, gs).
Proof.
  revert n. induction ws as [|w ws IH]; intros n Hi; [done|]. cbn [fold_left]. apply IH. eapply reg_inv_steps; [exact Hi|].
  eapply reg_cons; [apply step_wake_stream|eapply reg_cons; [apply step_wake_all|apply reg_nil]].
Qed.

Lemma live_atomic_step s ws s' r :
  live_ok s -> Forall write_ok ws -> atomic_append_many (AtomicAppend := live_atomic) s ws = (s', r) ->
  match r with
  | Panics => False
  | Returns (Err e) => s' = s /\ ((exists x, e = AtomicStore x) \/ refusal (fun id => head_version (len (log_stream id (lv_log s)))) ws e)
  | Returns (Ok p) => live_ok s' /\ lv_log s' = lv_log s ++ writes_log ws /\ NoDup (target <$> ws) /\
      Forall (fun w => planned_expected w = head_version (len (log_stream (target w) (lv_log s)))) ws /\
      Pos.as_u64 <$> p = (if decide (ws = []) then None else Some (len (lv_log s) + len (writes_log ws)))
  end.
Proof.
  intros [Hr Hg] Hok E. cbn in E. unfold store_atomic_append in E. pose proof (atomic_append_spec _ _ ws Hr Hok) as Hspec.
  destruct (atomic_append_inner (inner (lv_store s)) ws) as [i [[p|e]|]] eqn:Ei; [| |done]; injection E as <- <-.
  - destruct Hspec as (Hr' & Hnd & Hh & Hp). unfold live_ok, store_represents, lv_log, lv_inner. cbn. rewrite (represents_log_of _ _ Hr').
    split_and!; [done|by apply wake_each_inv|done|done|done|done].
  - subst i. split; [by destruct s as [[]]|]. by eapply atomic_inner_refused.
Qed.

#[export] Instance live_atomic_spec : @AtomicAppendSpec LiveStore (live_raw debug) (live_raw_spec debug) live_atomic.
Proof.
  split.
  - intros s ws Hi Hok. destruct (atomic_append_many s ws) as [s' r] eqn:E. pose proof (live_atomic_step _ _ _ _ Hi Hok E). by destruct r.
  - intros s ws s' p Hi Hok E. destruct (live_atomic_step _ _ _ _ Hi Hok E) as (Hi' & Hl & Hnd & Hh & _). split_and!; [done|done|done|].
    intros id. cbn. by rewrite Hl, log_stream_app, log_stream_writes.
  - intros s ws s' e Hi Hok E. by destruct (live_atomic_step _ _ _ _ Hi Hok E) as (-> & _); split; [|left].
Qed.

Lemma numbered_log_last start l : last (numbered_log start l).*1.*1 = if decide (l = []) then None else Some (nth_pos (start + len l - 1)).
Proof.
  destruct l as [|e l _] using rev_ind; [done|]. rewrite decide_False by (by destruct l). rewrite numbered_log_app, !fmap_app, numbered_log_cons, last_app.
  cbn. rewrite len_app. do 2 f_equal. unfold len. cbn. lia.
Qed.

#[export] Instance live_atomic_log_spec :
  @AtomicLogSpec LiveStore (live_raw debug) (live_raw_spec debug) (live_all debug) inmemory_position (live_log_spec debug) live_atomic live_atomic_spec.
Proof.
  split.
  - intros s ws s' p Hi Hok E. destruct (live_atomic_step _ _ _ _ Hi Hok E) as (Hi' & Hl & _ & _ & Hp).
    exists (numbered_log (1 + len (lv_log s)) (writes_log ws)). cbn. rewrite Hl, numbered_log_app. split_and!; [| |done].
    + by rewrite numbered_log_entries.
    + rewrite numbered_log_last. pose proof (live_log_bound s' Hi') as Hb. rewrite Hl, len_app in Hb. pose proof (len_nonneg (lv_log s)).
      destruct ws as [|w ws]; [by destruct p|]. assert (0 < len (writes_log (w :: ws))) as Hpos by (unfold len; cbn; lia).
      assert (writes_log (w :: ws) <> []) as Hne by done. set (l := writes_log (w :: ws)) in *. clearbody l.
      rewrite decide_False in Hp by done. destruct p as [q|]; [|done]. injection Hp as Hq.
      rewrite decide_False by done. f_equal. apply spec_pos_inj. rewrite nth_pos_u64; lia.
  - intros s ws s' e Hi Hok E. destruct (live_atomic_step _ _ _ _ Hi Hok E) as (-> & [?|?]); [by left|by right].
Qed.

Lemma stage_writes_serves ws : Forall kit_write ws -> forall seq last x,
  Pos.as_u64 seq + len (writes_log ws) <= u64_max -> stage_writes seq last ws <> Returns (Err x).
Proof.
  induction 1 as [|w ws [_ Hw] _ IH]; intros seq last x Hle; [done|]. cbn [stage_writes]. unfold writes_log in Hle. rewrite bind_cons, len_app in Hle.
  fold (writes_log ws) in Hle. pose proof (len_nonneg (writes_log ws)). assert (len (tag_log (target w) (PendingBatch.iter (batch w))) = len (PendingBatch.iter (batch w))) as Htag
    by (unfold tag_log, len; by rewrite length_fmap).
  pose proof (stage_rows_spec (target w) seq last (PendingBatch.iter (batch w)) (kit_batch_ok _ Hw)) as Hst.
  destruct (stage_rows seq last _) as [[[[rows last1] seq1]|e]|]; cbn [outcome_bind]; [| |done].
  - destruct Hst as (_ & _ & _ & Hseq & _). pose proof (IH seq1 last1 x) as Hrest.
    destruct (stage_writes seq1 last1 ws) as [[[[staged last'] seq']|e]|]; cbn [outcome_bind]; [done| |done]. intros [= ->]. apply Hrest; [lia|done].
  - destruct Hst. split; [|lia]. eapply Forall_impl; [exact Hw|]. apply kit_fits.
Qed.

#[export] Instance live_serves_atomic :
  @ServesAtomic LiveStore (live_raw debug) (live_raw_spec debug) (live_all debug) inmemory_position (live_log_spec debug) live_atomic.
Proof.
  split. intros s ws s' x [Hr _] Hk Hroom E. cbn in E. unfold store_atomic_append in E.
  destruct (atomic_append_inner (inner (lv_store s)) ws) as [i [[p|e]|]] eqn:Ei; [done| |done]. injection E as _ ->.
  unfold atomic_append_inner in Ei. case_bool_decide; [done|].
  destruct (validate_distinct_targets (target <$> ws)) as [[]|]; cbn [map_err outcome_bind] in Ei; [|done].
  destruct (validate_atomic_runs ws) as [[]|]; cbn [map_err outcome_bind] in Ei; [|done].
  destruct (check_heads (inner (lv_store s)) 0 ws) as [[]|y] eqn:Hh; cbn [outcome_bind] in Ei.
  - pose proof (stage_writes_serves ws Hk (next_global_seq (inner (lv_store s))) (next_global_seq (inner (lv_store s))) x) as Hst.
    destruct (stage_writes _ _ _) as [[[[staged last'] seq']|y]|]; cbn [outcome_map_err map_err] in Ei; [done| |done]. injection Ei as _ ->.
    apply Hst; [|done]. rewrite (rep_next _ _ Hr). cbn in Hroom. change (log_of (inner (lv_store s))) with (lv_log s).
    unfold numbered_log, ROOM, u64_max, len in *. rewrite length_zip_with, length_seqZ in Hroom. lia.
  - injection Ei as _ ->. by destruct (check_heads_Err _ _ _ _ _ Hr Hh) as (k & w & ? & _).
Qed.
End live.

(** ** Snapshots (snapshot.rs) *)

Section snapshot.
Context {SS P : Type} {SN : SnapshotStore SS bytes P} {AP : AllPosition P}.
Notation check := (program SS (SnErr SS bytes P)).

Definition SCHEMA_1 : Schema := MkNonZero (max := u32_max) 1 eq_refl.
Definition SCHEMA_2 : Schema := MkNonZero (max := u32_max) 2 eq_refl.

Definition kit_hydrate (id : bytes) (schema : Schema) : check (Hydrated bytes P) := fun ss =>
  match hydrate ss id schema with
  | Panics => (ss, Violated)
  | Returns (Err e) => (ss, Refused e)
  | Returns (Ok h) => (ss, Passed h)
  end.

Definition kit_commit (id : bytes) (schema : Schema) (position : P) (st : bytes) : check () := fun ss =>
  match snapshot_commit ss id schema position st with
  | (ss, Err e) => (ss, Refused e)
  | (ss, Ok _) => (ss, Passed ())
  end.

Definition expect_found (h : Hydrated bytes P) : check (P * bytes) :=
  match h with HFound position st => pass (position, st) | _ => fail end.

Definition check_snapshot_absent_then_commit_then_found (p1 p2 : P) : check () :=
  let id := text "snap" in
  let+ h := kit_hydrate id SCHEMA_1 in
  let+ _ := match h with HAbsent => pass () | _ => fail end in
  let st := bytes_of [1; 2; 3] in
  let+ _ := kit_commit id SCHEMA_1 p1 st in
  let+ h := kit_hydrate id SCHEMA_1 in
  let+ found := expect_found h in
  let+ _ := assert (bool_decide (found.1 = p1)) in
  assert (bool_decide (found.2 = st)).

Definition check_snapshot_stale_on_schema_change (p1 p2 : P) : check () :=
  let id := text "snap-stale" in
  let+ _ := kit_commit id SCHEMA_1 p1 (bytes_of [1]) in
  let+ h := kit_hydrate id SCHEMA_2 in
  match h with HStale stored_schema => assert (bool_decide (stored_schema = SCHEMA_1)) | _ => fail end.

Definition check_snapshot_overwrite_latest_wins (p1 p2 : P) : check () :=
  let+ _ := assert (pos_ltb p1 p2) in
  let id := text "snap-latest" in
  let+ _ := kit_commit id SCHEMA_1 p1 (bytes_of [1]) in
  let+ _ := kit_commit id SCHEMA_1 p2 (bytes_of [2]) in
  let+ h := kit_hydrate id SCHEMA_1 in
  let+ found := expect_found h in
  let+ _ := assert (bool_decide (found.1 = p2)) in
  assert (bool_decide (found.2 = bytes_of [2])).

Definition check_snapshot_empty_state_round_trips (p1 p2 : P) : check () :=
  let id := text "snap-empty" in
  let+ _ := kit_commit id SCHEMA_1 p1 [] in
  let+ h := kit_hydrate id SCHEMA_1 in
  let+ found := expect_found h in
  let+ _ := assert (bool_decide (found.1 = p1)) in
  assert (bool_decide (found.2 = [])).

(** One edge of [check_snapshot_extreme_positions_round_trip]. *)
Definition extreme_case (label : string) (p : P) : check () :=
  let id := text "snap-extreme-" ++ text label in
  let+ _ := kit_commit id SCHEMA_1 p (bytes_of [1]) in
  let+ h := kit_hydrate id SCHEMA_1 in
  let+ found := expect_found h in
  assert (bool_decide (found.1 = p)).

Definition check_snapshot_extreme_positions_round_trip (pmin pmax : P) : check () :=
  let+ _ := assert (pos_ltb pmin pmax) in
  let+ _ := extreme_case "min" pmin in
  extreme_case "max" pmax.

(** [conformance_snapshot!]. *)
Definition snapshot_checks (p1 p2 pmin pmax : P) : list (check ()) :=
  [check_snapshot_absent_then_commit_then_found p1 p2; check_snapshot_stale_on_schema_change p1 p2;
   check_snapshot_overwrite_latest_wins p1 p2; check_snapshot_empty_state_round_trips p1 p2;
   check_snapshot_extreme_positions_round_trip pmin pmax].

(** What the kit needs of a snapshot store in working order: it is a map from ids to the
    last commit. *)
Class SnapshotSpec := {
  snap_inv : SS -> Prop;
  snap_of : SS -> bytes -> option (Schema * P * bytes);
  hydrate_spec ss id schema :
    snap_inv ss ->
    hydrate ss id schema = Returns (Ok match snap_of ss id with
      | None => HAbsent
      | Some (stored, p, st) => if decide (stored = schema) then HFound p st else HStale stored
      end);
  snapshot_commit_spec ss id schema p st :
    snap_inv ss -> exists ss', snapshot_commit ss id schema p st = (ss', Ok ()) /\
    snap_inv ss' /\ snap_of ss' id = Some (schema, p, st) /\ forall id', id' <> id -> snap_of ss' id' = snap_of ss id';
}.

Context {SSp : SnapshotSpec}.

Lemma holds_hydrate ss id schema (Q : Hydrated bytes P -> SS -> Prop) :
  snap_inv ss ->
  Q (match snap_of ss id with None => HAbsent | Some (stored, p, st) => if decide (stored = schema) then HFound p st else HStale stored end) ss ->
  holds ss (kit_hydrate id schema) Q.
Proof. intros Hi HQ. unfold holds, kit_hydrate. by rewrite (hydrate_spec ss id schema Hi). Qed.

Lemma holds_commit ss id schema p st (Q : () -> SS -> Prop) :
  snap_inv ss ->
  (forall ss', snap_inv ss' -> snap_of ss' id = Some (schema, p, st) -> Q tt ss') ->
  holds ss (kit_commit id schema p st) Q.
Proof.
  intros Hi HQ. unfold holds, kit_commit. destruct (snapshot_commit_spec ss id schema p st Hi) as (ss' & -> & ? & ? & _). by apply HQ.
Qed.

Ltac commits ss H Hs := apply holds_bind; apply holds_commit; [done|]; intros ss H Hs.
Ltac hydrates Hs := apply holds_bind; apply holds_hydrate; [done|]; rewrite Hs; cbn [decide]; rewrite ?decide_True by done.
Ltac found := apply holds_bind, holds_pass; cbn [fst snd].
Ltac asserts := first [apply holds_bind; apply holds_assert; [by apply bool_decide_eq_true|] | apply holds_assert; [by apply bool_decide_eq_true|done]].

(** A snapshot store that keeps its last commits passes the checks of snapshots, at any
    positions of the required order. *)
Theorem snapshot_kit_accepts ss p1 p2 pmin pmax :
  snap_inv ss -> (forall id, snap_of ss id = None) -> pos_ltb p1 p2 = true -> pos_ltb pmin pmax = true ->
  Forall (fun m => passes ss m) (snapshot_checks p1 p2 pmin pmax).
Proof.
  intros Hi Hnone H12 Hmm. unfold snapshot_checks, passes. repeat (apply Forall_cons; split); [..|by apply Forall_nil].
  - unfold check_snapshot_absent_then_commit_then_found. cbn zeta. hydrates (Hnone (text "snap")). apply holds_bind, holds_pass.
    commits ss1 H1 Hs1. hydrates Hs1. found. asserts. asserts.
  - unfold check_snapshot_stale_on_schema_change. cbn zeta. commits ss1 H1 Hs1. hydrates Hs1. by apply holds_assert.
  - unfold check_snapshot_overwrite_latest_wins. apply holds_bind, holds_assert; [done|]. cbn zeta.
    commits ss1 H1 Hs1. commits ss2 H2 Hs2. hydrates Hs2. found. asserts. asserts.
  - unfold check_snapshot_empty_state_round_trips. cbn zeta. commits ss1 H1 Hs1. hydrates Hs1. found. asserts. asserts.
  - unfold check_snapshot_extreme_positions_round_trip, extreme_case. apply holds_bind, holds_assert; [done|]. cbn zeta.
    apply holds_bind. commits ss1 H1 Hs1. hydrates Hs1. found. apply holds_assert; [by apply bool_decide_eq_true|].
    commits ss2 H2 Hs2. hydrates Hs2. found. asserts.
Qed.
End snapshot.

(** ** The in-memory snapshots *)

#[export] Instance inmemory_snapshot_spec {P} : SnapshotSpec (SS := InMemorySnapshotStore) (P := P).
Proof.
  refine (Build_SnapshotSpec (SS := InMemorySnapshotStore (S := bytes)) (P := P) (SN := inmemory_snapshots) (fun _ => True) (fun ss id => snapshots ss !! id) _ _).
  - intros ss id schema _. cbn. unfold inmemory_snapshot_hydrate. do 2 f_equal.
    destruct (snapshots ss !! id) as [[[stored p] st]|]; [|done]. case_bool_decide; case_decide; done.
  - intros ss id schema p st _. eexists. split; [done|]. cbn. split_and!; [done|apply lookup_insert_eq|]. intros id' ?. by apply lookup_insert_ne.
Defined.

(** ** Witnesses *)

#[local] Existing Instance target64.
#[local] Existing Instance counter_watch.
#[local] Existing Instance list_array_string.

Lemma atomic_kit_accepts_witness :
  Forall (accepted live0) (atomic_checks (R := live_raw true) (RA := live_all true) (AP := inmemory_position) (AA := live_atomic true) 2000 live0).
Proof.
  apply (atomic_kit_accepts (RS := live_raw_spec true) (AL := live_log_spec true) (AAS := live_atomic_spec true)
    (SK := live_serves true) (SA := live_serves_atomic true)); [lia|exact live0_ok|done|done].
Defined.

Lemma snapshot_kit_accepts_witness :
  Forall (passes snapshots_new) (snapshot_checks (SN := inmemory_snapshots) (AP := inmemory_position) (nth_pos 1) (nth_pos 2) Pos.INITIAL (nth_pos u64_max)).
Proof. by apply snapshot_kit_accepts. Defined.
