(* ===== verification/Command.v ===== *)
(** * Accepted commands (crates/command/src/model.rs)

    The command host keeps one stream per aggregate whose events are acceptance
    records: the request as it was received, its receipt, and the domain facts that
    were decided.  [Adapted] is the aggregate whose events are those records; its
    state is the domain state with the receipts given so far.  Serialization is
    serde_json, third-party code: class [Json] has the two calls the host makes. *)

From S2P Require Import Prelude Utf8 Version Events Aggregate Value Wire Envelope.
From S2P Require Import RawStore Repository.

Definition MAX_ACCEPTED : Z := 4096.
Definition MAX_BYTES : Z := 4096.

(** ["controller.accepted.v2"]. *)
Definition EVENT_TYPE : bytes := byte.of_Z <$>
  [99; 111; 110; 116; 114; 111; 108; 108; 101; 114; 46; 97; 99; 99; 101; 112; 116; 101; 100; 46; 118; 50].

(** ** Data *)

Inductive CodecError (J : Type) : Type :=
| CBytes (source : option J)
| CJson (e : J)
| CLossy
| CEnvelope
| CAcceptance
| CLength.
Arguments CBytes {J} _.
Arguments CJson {J} _.
Arguments CLossy {J}.
Arguments CEnvelope {J}.
Arguments CAcceptance {J}.
Arguments CLength {J}.

Record Request (C I : Type) : Type := MkRequest {
  rq_id : I;
  rq_expected : option Version;
  rq_command : C;
}.
Arguments MkRequest {C I} _ _ _.
Arguments rq_id {C I} _.
Arguments rq_expected {C I} _.
Arguments rq_command {C I} _.

Record Receipt (I : Type) : Type := MkReceipt {
  rc_id : I;
  rc_version : Version;
  rc_events : Z;
}.
Arguments MkReceipt {I} _ _ _.
Arguments rc_id {I} _.
Arguments rc_version {I} _.
Arguments rc_events {I} _.

(** The source's [Record]. *)
Record AcceptanceRecord (C I E : Type) : Type := MkRecord {
  ar_schema : Z;
  ar_request : Request C I;
  ar_receipt : Receipt I;
  ar_facts : list E;
}.
Arguments MkRecord {C I E} _ _ _ _.
Arguments ar_schema {C I E} _.
Arguments ar_request {C I E} _.
Arguments ar_receipt {C I E} _.
Arguments ar_facts {C I E} _.

#[export] Instance request_eq_dec {C I} `{!EqDecision C, !EqDecision I} : EqDecision (Request C I).
Proof. solve_decision. Defined.
#[export] Instance receipt_eq_dec {I} `{!EqDecision I} : EqDecision (Receipt I).
Proof. solve_decision. Defined.
#[export] Instance record_eq_dec {C I E} `{!EqDecision C, !EqDecision I, !EqDecision E} : EqDecision (AcceptanceRecord C I E).
Proof. solve_decision. Defined.

Inductive CommandDecisionError (D : Type) : Type :=
| DRejected (e : D)
| DHistoryFull
| DReplayLimit (maximum : Z).
Arguments DRejected {D} _.
Arguments DHistoryFull {D}.
Arguments DReplayLimit {D} _.

Inductive Cause (D E J : Type) : Type :=
| CauseRejected (e : D)
| CauseStore (e : StoreError E (CodecError J) (CodecError J))
| CauseKernel (e : KernelError)
| CauseHistoryFull
| CauseReplayLimit (maximum : Z)
| CauseCorrupt.
Arguments CauseRejected {D E J} _.
Arguments CauseStore {D E J} _.
Arguments CauseKernel {D E J} _.
Arguments CauseHistoryFull {D E J}.
Arguments CauseReplayLimit {D E J} _.
Arguments CauseCorrupt {D E J}.

Definition cause_of_decision {D E J} (e : CommandDecisionError D) : Cause D E J :=
  match e with
  | DRejected e => CauseRejected e
  | DHistoryFull => CauseHistoryFull
  | DReplayLimit maximum => CauseReplayLimit maximum
  end.

(** The source's [Error]; the runtime error carries a tokio value. *)
Inductive CommandError (D I E J : Type) : Type :=
| Failed (cause : Cause D E J)
| Mismatch
| Conflict
| QueueFull
| QueueLimit (requested maximum : Z)
| DeadlineZero
| Closed
| Scope
| Runtime
| Uncertain (command : I) (source : option (Cause D E J))
| RequestInvalid (e : CodecError J)
| Corrupt
| Timeout.
Arguments Failed {D I E J} _.
Arguments Mismatch {D I E J}.
Arguments Conflict {D I E J}.
Arguments QueueFull {D I E J}.
Arguments QueueLimit {D I E J} _ _.
Arguments DeadlineZero {D I E J}.
Arguments Closed {D I E J}.
Arguments Scope {D I E J}.
Arguments Runtime {D I E J}.
Arguments Uncertain {D I E J} _ _.
Arguments RequestInvalid {D I E J} _.
Arguments Corrupt {D I E J}.
Arguments Timeout {D I E J}.

(** ** Serialization *)

(** [serde_json::to_writer] into a cursor over a buffer of the given size, and
    [serde_json::from_slice]. *)
Class Json (J V : Type) := {
  to_writer : Z -> V -> result bytes J;
  from_slice : bytes -> result V J;
  (** A cursor over a slice holds no more than the slice. *)
  to_writer_fits : forall cap v b, to_writer cap v = Ok b -> len b <= cap;
}.

Section codec.
Context {T : Target} {J : Type} (is_write_zero : J -> bool).

Definition bounded {V} `{!Json J V} (value : V) : result bytes (CodecError J) :=
  match to_writer MAX_BYTES value with
  | Err error => Err (if is_write_zero error then CBytes (Some error) else CJson error)
  | Ok written =>
      let? length := ok_or (try_from usize_max (len written)) CLength in
      Ok (take (Z.to_nat length) written)
  end.

Section request.
Context {C I : Type} `{!EqDecision C, !EqDecision I} `{!Json J (Request C I)}.

Definition request_encode (r : Request C I) : result bytes (CodecError J) := bounded r.

Definition request_decode (b : bytes) : result (Request C I) (CodecError J) :=
  if MAX_BYTES <? len b then Err (CBytes None) else map_err CJson (from_slice b).

Definition request_validate (r : Request C I) : result () (CodecError J) :=
  let? encoded := request_encode r in
  let? decoded := request_decode encoded in
  if decide (decoded = r) then Ok () else Err CLossy.

(** A request that validates is stored and read back exactly. *)
Lemma request_validate_spec r :
  request_validate r = Ok () <-> exists b, request_encode r = Ok b /\ request_decode b = Ok r.
Proof.
  unfold request_validate. rewrite result_bind_Ok. split.
  - intros (b & Hb & E). apply result_bind_Ok in E as (d & Hd & E).
    destruct (decide (d = r)) as [->|]; [|done]. eauto.
  - intros (b & Hb & Hd). exists b. split; [done|]. rewrite Hd. simpl. by rewrite decide_True.
Qed.
End request.

Section record.
Context {C I E : Type} `{!EqDecision C, !EqDecision I, !EqDecision E} `{!Json J (AcceptanceRecord C I E)}.

Notation Rec := (AcceptanceRecord C I E).

Definition record_encode (record : Rec) : result bytes (CodecError J) :=
  let? b := bounded record in
  let? decoded := map_err CJson (from_slice b) in
  if decide (decoded = record) then Ok b else Err CLossy.

(** The checks on one record, against the envelope it came in. *)
Definition record_ok (version : Version) (record : Rec) : bool :=
  let next_version := match rq_expected (ar_request record) with None => Some INITIAL | Some v => next v end in
  (ar_schema record =? 2)
  && bool_decide (rc_version (ar_receipt record) = version)
  && bool_decide (Some (rc_version (ar_receipt record)) = next_version)
  && bool_decide (rc_id (ar_receipt record) = rq_id (ar_request record))
  && (rc_events (ar_receipt record) =? len (ar_facts record)).

(** [Codec::decode] on the fields it looks at. *)
Definition decode_fields (version : Version) (schema : Z) (event_type payload : bytes) : result Rec (CodecError J) :=
  if MAX_BYTES <? len payload then Err (CBytes None)
  else if negb (schema =? 1) || negb (bool_decide (event_type = EVENT_TYPE)) then Err CEnvelope
  else
    let? record := map_err CJson (from_slice payload) in
    if negb (record_ok version record) then Err CAcceptance else Ok record.

Definition record_decode (envelope : PersistedEnvelope) : result Rec (CodecError J) :=
  decode_fields (ps_version envelope) (SchemaVersion.get (ps_schema_version envelope))
    (PersistedEnvelope.event_type envelope) (PersistedEnvelope.payload envelope).

(** The source's [Codec]. *)
Definition command_codec : Codec Rec := {|
  EncErr := CodecError J;
  DecErr := CodecError J;
  encode := record_encode;
  decode := record_decode;
|}.

(** [Acceptance] and [AcceptanceCodec]. *)
Record Acceptance : Type := MkAcceptance { acceptance_record : Rec }.
Definition acceptance_request (a : Acceptance) : Request C I := ar_request (acceptance_record a).
Definition acceptance_receipt (a : Acceptance) : Receipt I := ar_receipt (acceptance_record a).
Definition acceptance_facts (a : Acceptance) : list E := ar_facts (acceptance_record a).
Definition acceptance_decode (envelope : PersistedEnvelope) : result Acceptance (CodecError J) :=
  result_map MkAcceptance (record_decode envelope).

Lemma bounded_spec {V} `{!Json J V} (v : V) b :
  bounded v = Ok b -> to_writer MAX_BYTES v = Ok b /\ len b <= MAX_BYTES.
Proof.
  unfold bounded. destruct (to_writer MAX_BYTES v) as [w|e] eqn:Hw; [|by destruct (is_write_zero e)].
  pose proof (to_writer_fits _ _ _ Hw) as Hle. intros (n & Hn & [= <-])%result_bind_Ok.
  apply ok_or_Ok, try_from_Some in Hn as [-> _]. unfold len in *. rewrite Nat2Z.id, firstn_all. done.
Qed.

Lemma record_encode_spec r b :
  record_encode r = Ok b -> from_slice b = Ok r /\ len b <= MAX_BYTES.
Proof.
  unfold record_encode. intros (b' & Hb & He)%result_bind_Ok. apply result_bind_Ok in He as (d & Hd & He).
  apply map_err_Ok in Hd. apply bounded_spec in Hb as [_ Hle].
  destruct (decide (d = r)) as [->|]; [|done]. by simplify_eq.
Qed.

Lemma record_ok_spec version (r : Rec) :
  record_ok version r = true <->
  ar_schema r = 2 /\ rc_version (ar_receipt r) = version /\
  as_u64 version = from_option as_u64 0 (rq_expected (ar_request r)) + 1 /\
  rc_id (ar_receipt r) = rq_id (ar_request r) /\ rc_events (ar_receipt r) = len (ar_facts r).
Proof.
  unfold record_ok. rewrite !andb_true_iff, !bool_decide_eq_true, !Z.eqb_eq.
  assert (forall v, Some v = match rq_expected (ar_request r) with None => Some INITIAL | Some w => next w end <->
    as_u64 v = from_option as_u64 0 (rq_expected (ar_request r)) + 1) as Hn.
  { intros v. destruct (rq_expected (ar_request r)) as [w|]; simpl.
    - rewrite <- next_Some. naive_solver.
    - split; [by intros [= ->]|]. intros Hv. f_equal. by apply as_u64_inj. }
  rewrite Hn. split; [intros ((((? & ?) & ?) & ?) & ?); split_and!; congruence|].
  intros (? & Hv & ? & ? & ?). split_and!; congruence.
Qed.

Lemma decode_fields_spec version schema et pl (r : Rec) :
  decode_fields version schema et pl = Ok r <->
  len pl <= MAX_BYTES /\ schema = 1 /\ et = EVENT_TYPE /\ from_slice pl = Ok r /\ record_ok version r = true.
Proof.
  unfold decode_fields. destruct (Z.ltb_spec MAX_BYTES (len pl)); [split; [done|lia]|].
  destruct (Z.eqb_spec schema 1); simpl; [|naive_solver].
  case_bool_decide; simpl; [|naive_solver].
  rewrite result_bind_Ok. setoid_rewrite map_err_Ok. split.
  - intros (d & Hd & He). destruct (record_ok version d) eqn:Hok; simpl in He; [|done]. by simplify_eq.
  - intros (_ & _ & _ & Hd & Hok). exists r. by rewrite Hok.
Qed.
End record.
End codec.

(** ** The adapted aggregate *)

Lemma max_accepted_fits {T : Target} : nz_in usize_max MAX_ACCEPTED = true.
Proof. pose proof usize_max_lo. unfold nz_in, u32_max, MAX_ACCEPTED in *. lia. Qed.

Section adapted.
Context {T : Target} {A : Aggregate} {C I : Type} {N : Z} {HA : Handle A C N}.
Context `{!EqDecision C, !EqDecision I, !Countable I}.

Notation Rec := (AcceptanceRecord C I Event).

(** The source's [State]; [BTreeMap] is a finite map. *)
Record CommandState : Type := MkCommandState {
  cs_domain : State;
  cs_receipts : gmap I (Request C I * Receipt I);
  cs_facts : Z;
  cs_integrity : result () ();
}.

Definition receipt (st : CommandState) (request : Request C I) : result (option (Receipt I)) () :=
  match cs_receipts st !! rq_id request with
  | Some (original, given) => if decide (original = request) then Ok (Some given) else Err ()
  | None => Ok None
  end.

Definition state_original (st : CommandState) (id : I) : option (Request C I) :=
  fst <$> cs_receipts st !! id.

(** The cumulative number of facts with [count] more, if allowed. *)
Definition total (st : CommandState) (count : Z) : option Z :=
  if from_option (fun tail => N <? tail) false (checked_sub count 1) then None
  else
    match checked_add usize_max (cs_facts st) count with
    | Some total => if total <=? nz_get MAX_REHYDRATION_EVENTS then Some total else None
    | None => None
    end.

Definition corrupted (st : CommandState) : CommandState :=
  MkCommandState (cs_domain st) (cs_receipts st) (cs_facts st) (Err ()).

(** [AggregateState::apply]; the domain's fold may panic. *)
Definition command_apply (st : CommandState) (record : Rec) : panicking CommandState :=
  let id := rq_id (ar_request record) in
  if negb (is_ok (cs_integrity st)) || bool_decide (is_Some (cs_receipts st !! id))
  then Returns (corrupted st)
  else
    match total st (len (ar_facts record)) with
    | None => Returns (corrupted st)
    | Some total =>
        match apply_all (cs_domain st) (ar_facts record) with
        | Panics => Panics
        | Returns domain =>
            Returns (MkCommandState domain
              (<[id := (ar_request record, ar_receipt record)]> (cs_receipts st)) total (cs_integrity st))
        end
    end.

(** The source's [Adapted]. *)
Definition Adapted : Aggregate.
Proof.
  refine {|
    Aggregate.State := CommandState;
    Aggregate.Event := Rec;
    AError := CommandDecisionError AError;
    Id := Id;
    initial := MkCommandState initial ∅ 0 (Ok ());
    apply := command_apply;
    event_name _ := EVENT_TYPE;
    id_as_ref := id_as_ref;
    MAX_REHYDRATION_EVENTS := MkNonZero MAX_ACCEPTED max_accepted_fits;
  |}.
  intros _. reflexivity.
Defined.

Record Decision : Type := MkDecision { dn_request : Request C I; dn_version : Version }.

(** [Option<Events>] flattened into a vector. *)
Definition facts_of (decided : option (Events Event N)) : list Event := from_option iter [] decided.

Definition decide_acceptance (st : CommandState) (decision : Decision)
  : result (option (Events Rec 0)) (CommandDecisionError AError) :=
  if MAX_ACCEPTED <=? Z.of_nat (size (cs_receipts st)) then Err DHistoryFull
  else
    let? decided := map_err DRejected (decide_command (cs_domain st) (rq_command (dn_request decision))) in
    let facts := facts_of decided in
    match total st (len facts) with
    | None => Err (DReplayLimit (nz_get MAX_REHYDRATION_EVENTS))
    | Some _ =>
        let given := MkReceipt (rq_id (dn_request decision)) (dn_version decision) (len facts) in
        Ok (Some (events_new (MkRecord 2 (dn_request decision) given facts)))
    end.

Definition adapted_handle : @Handle T Adapted Decision 0 := @Build_Handle T Adapted Decision 0 decide_acceptance.

(** ** Serial histories

    The specification of a stream of acceptance records: the requests were executed
    one after the other, each once, each against the domain state that all facts
    before it produce, and each at the version its sender expected. *)

Definition record_id (r : Rec) : I := rq_id (ar_request r).
Definition all_facts (recs : list Rec) : list Event := recs ≫= ar_facts.
Definition domain_of (recs : list Rec) : panicking State := apply_all initial (all_facts recs).

Record valid_next (recs : list Rec) (r : Rec) : Prop := {
  vn_expected : rq_expected (ar_request r) = head_version (len recs);
  vn_fresh : record_id r ∉ record_id <$> recs;
  vn_room : len recs < MAX_ACCEPTED;
  vn_decided : exists domain decided, domain_of recs = Returns domain /\
    decide_command domain (rq_command (ar_request r)) = Ok decided /\ ar_facts r = facts_of decided;
  vn_limit : len (all_facts (recs ++ [r])) <= limit;
  vn_tail : len (ar_facts r) = 0 \/ len (ar_facts r) <= N + 1;
  vn_receipt : exists v, ar_receipt r = MkReceipt (record_id r) v (len (ar_facts r)) /\ as_u64 v = len recs + 1;
}.

Inductive history : list Rec -> Prop :=
| history_nil : history []
| history_snoc recs r : history recs -> valid_next recs r -> history (recs ++ [r]).

(** What the host's state says of the records it has folded. *)
Record state_matches (recs : list Rec) (st : CommandState) : Prop := {
  sm_integrity : cs_integrity st = Ok ();
  sm_facts : cs_facts st = len (all_facts recs);
  sm_domain : domain_of recs = Returns (cs_domain st);
  sm_receipts : forall id x, cs_receipts st !! id = Some x <->
    exists r, r ∈ recs /\ record_id r = id /\ x = (ar_request r, ar_receipt r);
  sm_size : Z.of_nat (size (cs_receipts st)) = len recs;
}.

Lemma all_facts_snoc recs r : all_facts (recs ++ [r]) = all_facts recs ++ ar_facts r.
Proof. unfold all_facts. rewrite bind_app. csimpl. by rewrite app_nil_r. Qed.

Lemma domain_snoc recs r :
  domain_of (recs ++ [r]) = match domain_of recs with Returns d => apply_all d (ar_facts r) | Panics => Panics end.
Proof. unfold domain_of. rewrite all_facts_snoc. apply apply_all_app. Qed.

Lemma total_spec st count n :
  0 <= count ->
  total st count = Some n <-> n = cs_facts st + count /\ (count = 0 \/ count <= N + 1) /\ n <= limit.
Proof.
  intros Hc. unfold total, limit. pose proof (nz_range MAX_REHYDRATION_EVENTS) as Hl.
  assert (from_option (fun tail => N <? tail) false (checked_sub count 1) = (N <? count - 1) && (1 <=? count)) as ->.
  { unfold checked_sub. destruct (Z.leb_spec 1 count); simpl; [by rewrite andb_true_r|by rewrite andb_false_r]. }
  destruct (Z.ltb_spec N (count - 1)), (Z.leb_spec 1 count); simpl; try (split; [done|lia]).
  all: destruct (checked_add usize_max (cs_facts st) count) as [m|] eqn:E;
    [apply checked_add_Some in E as [-> ?]|apply checked_add_None in E; split; [done|lia]].
  all: destruct (Z.leb_spec (cs_facts st + count) (nz_get MAX_REHYDRATION_EVENTS)); [naive_solver lia|naive_solver lia].
Qed.

Lemma matches_initial : state_matches [] (initial (Aggregate := Adapted)).
Proof.
  split; try done. intros id x. simpl. rewrite lookup_empty. split; [done|]. by intros (r & Hr%elem_of_nil & _).
Qed.

Lemma matches_None recs st id :
  state_matches recs st -> cs_receipts st !! id = None <-> id ∉ record_id <$> recs.
Proof.
  intros Hm. rewrite list_elem_of_fmap. split.
  - intros Hn (r & -> & Hr). assert (cs_receipts st !! record_id r = Some (ar_request r, ar_receipt r)); [|congruence].
    apply (sm_receipts _ _ Hm). eauto.
  - intros Hn. destruct (cs_receipts st !! id) as [x|] eqn:E; [|done].
    apply (sm_receipts _ _ Hm) in E as (r & Hr & Hid & _). destruct Hn. by exists r.
Qed.

(** A valid record is folded: the state matches the longer history. *)
Lemma apply_valid recs st r st' :
  state_matches recs st -> valid_next recs r -> command_apply st r = Returns st' ->
  state_matches (recs ++ [r]) st'.
Proof.
  intros Hm Hv. pose proof (vn_fresh _ _ Hv) as Hf. apply (matches_None _ _ _ Hm) in Hf.
  pose proof (vn_limit _ _ Hv) as Hl. rewrite all_facts_snoc, len_app in Hl.
  pose proof (sm_facts _ _ Hm) as Hfacts.
  unfold command_apply. rewrite (sm_integrity _ _ Hm). fold (record_id r).
  rewrite bool_decide_false by (rewrite Hf; by intros []). cbn [is_ok negb orb].
  rewrite (proj2 (total_spec st (len (ar_facts r)) (cs_facts st + len (ar_facts r)) (len_nonneg _)))
    by (split_and!; [done|apply (vn_tail _ _ Hv)|lia]).
  destruct (apply_all (cs_domain st) (ar_facts r)) as [d|] eqn:Ha; [|done]. intros [= <-].
  split; simpl.
  - done.
  - rewrite all_facts_snoc, len_app. lia.
  - by rewrite domain_snoc, (sm_domain _ _ Hm).
  - intros id x. destruct (decide (id = record_id r)) as [->|Hne].
    + rewrite lookup_insert_eq. split.
      * intros [= <-]. exists r. set_solver.
      * intros (r' & Hr' & Hid & ->). apply elem_of_app in Hr' as [Hr'| ->%list_elem_of_singleton]; [|done].
        destruct (vn_fresh _ _ Hv). apply list_elem_of_fmap. by exists r'.
    + rewrite lookup_insert_ne by done. rewrite (sm_receipts _ _ Hm). split.
      * intros (r' & ? & ?). exists r'. set_solver.
      * intros (r' & Hr' & Hid & Hx). apply elem_of_app in Hr' as [Hr'| ->%list_elem_of_singleton]; [eauto|congruence].
  - rewrite map_size_insert_None by done. rewrite len_app, len_cons, len_nil.
    pose proof (sm_size _ _ Hm). lia.
Qed.

Lemma fold_history recs st :
  history recs -> apply_all (A := Adapted) initial recs = Returns st -> state_matches recs st.
Proof.
  intros Hh. revert st. induction Hh as [|recs r Hh IH Hv]; intros st.
  { intros [= <-]. apply matches_initial. }
  intros Hst. pose proof (eq_trans (eq_sym (apply_all_app (A := Adapted) initial recs [r])) Hst) as Hs.
  destruct (apply_all (A := Adapted) initial recs) as [st0|] eqn:E; [|done].
  simpl in Hs. destruct (command_apply st0 r) as [st1|] eqn:E1; [|done]. injection Hs as <-.
  by eapply apply_valid; [apply IH|..].
Qed.

(** What the handler decides on a matching state is a valid next record. *)
Lemma decide_valid recs st request version es :
  state_matches recs st -> decide_acceptance st (MkDecision request version) = Ok es ->
  cs_receipts st !! rq_id request = None -> rq_expected request = head_version (len recs) ->
  as_u64 version = len recs + 1 ->
  exists r, es = Some (events_new r) /\ ar_request r = request /\ rc_version (ar_receipt r) = version /\
    ar_schema r = 2 /\ valid_next recs r.
Proof.
  intros Hm Hd Hf Hex Hver. unfold decide_acceptance in Hd.
  destruct (Z.leb_spec MAX_ACCEPTED (Z.of_nat (size (cs_receipts st)))) as [|Hroom]; [done|].
  apply result_bind_Ok in Hd as (decided & Hdec%map_err_Ok & Hd). simpl in *.
  destruct (total st (len (facts_of decided))) as [n|] eqn:Ht; [|done]. injection Hd as <-.
  apply total_spec in Ht as (-> & Htail & Hlim); [|apply len_nonneg].
  eexists. split; [done|]. split_and!; [done|done|done|]. split; simpl.
  - done.
  - by apply (matches_None _ _ _ Hm).
  - pose proof (sm_size _ _ Hm). lia.
  - exists (cs_domain st), decided. split; [apply (sm_domain _ _ Hm)|done].
  - rewrite all_facts_snoc, len_app. pose proof (sm_facts _ _ Hm). simpl. lia.
  - done.
  - by eexists.
Qed.

(** The receipt the state has for a request is the one of its record. *)
Lemma receipt_spec recs st request given :
  state_matches recs st ->
  receipt st request = Ok (Some given) <-> exists r, r ∈ recs /\ ar_request r = request /\ ar_receipt r = given.
Proof.
  intros Hm. unfold receipt. split.
  - destruct (cs_receipts st !! rq_id request) as [[original g]|] eqn:E; [|done].
    destruct (decide (original = request)) as [->|]; [|done]. intros [= ->].
    apply (sm_receipts _ _ Hm) in E as (r & Hr & _ & [= ? ?]). by exists r.
  - intros (r & Hr & <- & <-).
    rewrite (proj2 (sm_receipts _ _ Hm _ (ar_request r, ar_receipt r))) by (by exists r).
    by rewrite decide_True.
Qed.

Lemma receipt_None recs st request :
  state_matches recs st -> receipt st request = Ok None -> cs_receipts st !! rq_id request = None.
Proof. intros Hm. unfold receipt. destruct (cs_receipts st !! rq_id request) as [[]|]; [by case_decide|done]. Qed.

Lemma history_ids recs : history recs -> NoDup (record_id <$> recs).
Proof.
  induction 1 as [|recs r _ IH Hv]; [constructor|]. rewrite fmap_app. csimpl.
  apply NoDup_app. split_and!; [done| |apply NoDup_singleton].
  intros x Hx ->%list_elem_of_singleton. by apply (vn_fresh _ _ Hv).
Qed.

Lemma history_len recs : history recs -> len recs <= MAX_ACCEPTED.
Proof. induction 1 as [|recs r _ IH Hv]; [done|]. pose proof (vn_room _ _ Hv). len_solve. Qed.

(** A prefix of a history is a history. *)
Lemma history_prefix recs recs' : recs `prefix_of` recs' -> history recs' -> history recs.
Proof.
  intros [k ->]. induction k as [|r k IH] using rev_ind; [by rewrite app_nil_r|].
  rewrite app_assoc. intros Hh. apply IH. remember ((recs ++ k) ++ [r]) as all eqn:Heq.
  destruct Hh as [|recs0 r0 Hh _]; [by destruct (recs ++ k)|]. by apply app_inj_tail in Heq as [<- _].
Qed.

End adapted.
