(* ===== verification/Engine.v ===== *)
(** * The command engine (crates/command/src/engine.rs)

    An engine serves requests for one aggregate.  A write whose outcome it does not
    learn, because the deadline passed or the adapter failed, may still land later;
    the engine remembers that request as [pending] and refuses other work until a
    later version of the stream settles it.

    The model runs [load] against the stores its polls see, and an append either
    answers at once ([Answered]) or is left in flight ([Unanswered]): an attempt
    that may land at any later time, or never. *)

From S2P Require Import Prelude Version Events Aggregate Value Wire Envelope.
From S2P Require Import RawStore Repository Execute Command.

(** One poll more than there can be records. *)
Definition LOAD_POLLS : nat := Z.to_nat (MAX_ACCEPTED + 1).

(** An append handed to the store whose answer was not awaited. *)
Record Attempt : Type := MkAttempt { at_expected : option Version; at_batch : PendingBatch.t }.

Section engine.
Context {T : Target} {A : Aggregate} {C I : Type} {N : Z} {HA : Handle A C N}.
Context `{!EqDecision C, !EqDecision I, !Countable I, !EqDecision Event}.
Context {J : Type} (is_write_zero : J -> bool) `{!Json J (AcceptanceRecord C I Event)}.
Context {S : Type} {R : RawEventStore S}.

Notation Rec := (AcceptanceRecord C I Event).
Notation Ad := (Adapted (A := A) (C := C) (I := I) (N := N)).
Notation Root := (@AggregateRoot T Ad).
Notation CErr := (CommandError (@AError T A) I (SError S) J).

#[local] Instance engine_codec : Codec (@Event T Ad) := command_codec (E := Event) is_write_zero.
#[local] Instance engine_handle : @Handle T Ad Decision 0 := adapted_handle.

(** The repository is built without a metadata provider. *)
Definition no_metadata : Version -> @Event T Ad -> Payload -> option Metadata := fun _ _ _ => None.

Definition engine_repo : Repo Ad S := event_store_repo (A := Ad) no_metadata.

Record Engine : Type := MkEngine { en_id : @Id T A; en_pending : option (Request C I) }.

(** [Engine::new]: a pending request may be handed over by a previous engine. *)
Definition engine_new (id : @Id T A) (pending : option (Request C I)) : Engine := MkEngine id pending.

(** [Drop]: what is left in the hand-off cell. *)
Definition engine_drop (e : Engine) : option (Request C I) := en_pending e.

(** [replace_pending], with the request it replaced. *)
Definition replace_pending (e : Engine) (pending : option (Request C I)) : Engine * option (Request C I) :=
  (MkEngine (en_id e) pending, en_pending e).

Definition set_pending (e : Engine) (pending : option (Request C I)) : Engine := (replace_pending e pending).1.

(** [load]; [None] is a load that ran into its deadline.  The polls allowed are
    enough for every stream within the replay limit. *)
Definition engine_load (polls : option (nat -> S)) (e : Engine) : outcome Root CErr :=
  match polls with
  | None => Returns (Err Timeout)
  | Some sched =>
      match load (A := Ad) LOAD_POLLS sched (en_id e) with
      | None => Returns (Err Timeout)
      | Some Panics => Panics
      | Some (Returns (Err error)) => Returns (Err (Failed (CauseStore error)))
      | Some (Returns (Ok root)) =>
          match state root with
          | Err k => Returns (Err (Failed (CauseKernel k)))
          | Ok st => if is_ok (cs_integrity st) then Returns (Ok root) else Returns (Err Corrupt)
          end
      end
  end.

Definition settle (e : Engine) (root : Root) : Engine * result () CErr :=
  match en_pending e with
  | Some pending =>
      if option_version_leb (root_version root) (rq_expected pending)
      then (e, Err (Uncertain (rq_id pending) None))
      else
        match state root with
        | Err k => (e, Err (Failed (CauseKernel k)))
        | Ok _ => (set_pending e None, Ok ())
        end
  | None => (set_pending e None, Ok ())
  end.

(** How an append goes: it answers, or it is left in flight, with the deadline
    passed ([None]) or an adapter error reported. *)
Inductive WriteRun : Type :=
| Answered
| Unanswered (error : option (SError S)).

Notation Executed_ := (Execution (@Event T Ad) (AllPos S) 0).
Notation SErr := (StoreError (SError S) (CodecError J) (CodecError J)).

(** [timeout(execute(..))]: the outer [None] is the deadline.  The handler and the
    encoding run before the append is first polled, so they always answer. *)
Definition execute_run (run : WriteRun) (s : S) (root : Root) (decision : Decision)
  : S * Root * list Attempt * option (outcome Executed_ (ExecuteError (CommandDecisionError AError) SErr)) :=
  match run with
  | Answered =>
      let '(s', root', o) := execute_inner (RP := engine_repo) s root decision in (s', root', [], Some o)
  | Unanswered error =>
      match handle root decision with
      | Err (DKernel cause) => (s, root, [], Some (Returns (Err (EKernel cause))))
      | Err (DDomain cause) => (s, root, [], Some (Returns (Err (EDecide cause))))
      | Ok None => (s, root, [], Some (Returns (Ok Ignored)))
      | Ok (Some decided) =>
          match encode_batch (A := Ad) (R := R) no_metadata root decided (fun _ => None) with
          | Panics => (s, root, [], Some Panics)
          | Returns (Err e) => (s, root, [], Some (Returns (Err (EStore e))))
          | Returns (Ok batch) =>
              (s, root, [MkAttempt (root_version root) batch],
               match error with None => None | Some e => Some (Returns (Err (EStore (SAdapter e)))) end)
          end
      end
  end.

(** [failure]: a definite failure leaves an older uncertain write uncertain. *)
Definition failure (e : Engine) (previous : option (Request C I)) (error : Cause AError (SError S) J)
  : Engine * result () CErr :=
  let e := set_pending e previous in
  match en_pending e with
  | Some original => (e, Err (Uncertain (rq_id original) (Some error)))
  | None => (e, Err (Failed error))
  end.

Definition store_failure (e : Engine) (id : I) (previous : option (Request C I)) (error : SErr)
  : Engine * result () CErr :=
  match error with
  | SEncode _ | SEnvelope _ | SVersionOverflow => failure e previous (CauseStore error)
  | _ => (e, Err (Uncertain id (Some (CauseStore error))))
  end.

Definition write (run : WriteRun) (s : S) (e : Engine) (root : Root) (request : Request C I)
  : S * Root * Engine * list Attempt * outcome () CErr :=
  match first_persisted_version (root_version root) with
  | None => (s, root, e, [], Returns (Err (Failed (CauseKernel KVersionOverflow))))
  | Some version =>
      let id := rq_id request in
      let '(e, previous) := replace_pending e (Some request) in
      match execute_run run s root (MkDecision request version) with
      | (s, root, flight, Some Panics) => (s, root, e, flight, Panics)
      | (s, root, flight, Some (Returns (Ok _))) => (s, root, e, flight, Returns (Ok ()))
      | (s, root, flight, None) => (s, root, e, flight, Returns (Err (Uncertain id None)))
      | (s, root, flight, Some (Returns (Err (EStore error)))) =>
          if is_conflict error
          then (s, root, set_pending e None, flight, Returns (Err Conflict))
          else let '(e, r) := store_failure e id previous error in (s, root, e, flight, Returns r)
      | (s, root, flight, Some (Returns (Err (EDecide error)))) =>
          let '(e, r) := failure e previous (cause_of_decision error) in (s, root, e, flight, Returns r)
      | (s, root, flight, Some (Returns (Err (EKernel error)))) =>
          let '(e, r) := failure e previous (CauseKernel error) in (s, root, e, flight, Returns r)
      end
  end.

(** What a call meets: the stores its load polls, the store when the load has
    ended, how its append goes, and the stores a second load polls. *)
Record CallRun : Type := MkRun {
  run_load : option (nat -> S);
  run_store : S;
  run_write : WriteRun;
  run_reload : option (nat -> S);
}.

(** The receipt a root shows for a request, with the two failures of the lookup. *)
Definition root_receipt {E} (kernel : KernelError -> E) (mismatch : E) (root : Root) (request : Request C I)
  : result (option (Receipt I)) E :=
  let? st := map_err kernel (state root) in
  map_err (fun _ => mismatch) (receipt st request).

(** The end of [submit] once the write is made. *)
Definition submit_written (run : CallRun) (e : Engine) (root : Root) (request : Request C I) (o : outcome () CErr)
  : Engine * outcome (Receipt I) CErr :=
  match o with
  | Panics => (e, Panics)
  | Returns (Err Conflict) =>
      match engine_load (run_reload run) e with
      | Panics => (e, Panics)
      | Returns (Err error) => (e, Returns (Err error))
      | Returns (Ok reloaded) =>
          (e, Returns (let? given := root_receipt (fun k => Failed (CauseKernel k)) Mismatch reloaded request in
                       ok_or given Conflict))
      end
  | Returns (Err error) => (e, Returns (Err error))
  | Returns (Ok _) =>
      match (let? given := root_receipt CauseKernel CauseCorrupt root request in ok_or given CauseCorrupt) with
      | Ok given => (set_pending e None, Returns (Ok given))
      | Err cause => (e, Returns (Err (Uncertain (rq_id request) (Some cause))))
      end
  end.

Definition submit (run : CallRun) (e : Engine) (request : Request C I)
  : S * Engine * list Attempt * outcome (Receipt I) CErr :=
  let s := run_store run in
  match engine_load (run_load run) e with
  | Panics => (s, e, [], Panics)
  | Returns (Err error) => (s, e, [], Returns (Err error))
  | Returns (Ok root) =>
      match root_receipt (fun k => Failed (CauseKernel k)) Mismatch root request with
      | Err error => (s, e, [], Returns (Err error))
      | Ok existing =>
          let can_retry := bool_decide (en_pending e = Some request)
                           && bool_decide (rq_expected request = root_version root) in
          let '(e, settled) := settle e root in
          match existing with
          | Some given => (s, e, [], Returns (Ok given))
          | None =>
              if from_option (fun original => bool_decide (rq_id original = rq_id request)
                                              && negb (bool_decide (original = request))) false (en_pending e)
              then (s, e, [], Returns (Err Mismatch))
              else
                match settled, can_retry with
                | Err error, false => (s, e, [], Returns (Err error))
                | _, _ =>
                    if negb (bool_decide (rq_expected request = root_version root))
                    then (s, e, [], Returns (Err Conflict))
                    else
                      let '(s, root, e, flight, o) := write (run_write run) s e root request in
                      let '(e, r) := submit_written run e root request o in
                      (s, e, flight, r)
                end
          end
      end
  end.

Definition read (polls : option (nat -> S)) (e : Engine) : Engine * outcome (option Version * @State T A) CErr :=
  match engine_load polls e with
  | Panics => (e, Panics)
  | Returns (Err error) => (e, Returns (Err error))
  | Returns (Ok root) =>
      match settle e root with
      | (e, Err error) => (e, Returns (Err error))
      | (e, Ok _) =>
          (e, Returns (result_map (fun st => (root_version root, cs_domain st))
                         (map_err (fun k => Failed (CauseKernel k)) (state root))))
      end
  end.

Definition original (polls : option (nat -> S)) (e : Engine) (id : I) : Engine * outcome (option (Request C I)) CErr :=
  match engine_load polls e with
  | Panics => (e, Panics)
  | Returns (Err error) => (e, Returns (Err error))
  | Returns (Ok root) =>
      match state root with
      | Err k => (e, Returns (Err (Failed (CauseKernel k))))
      | Ok st =>
          let found := state_original st id in
          let '(e, settled) := settle e root in
          match found with
          | Some request => (e, Returns (Ok (Some request)))
          | None => (e, Returns (let? _ := settled in Ok None))
          end
      end
  end.

(** [retry]; [polls] is the load of [original], when it is called. *)
Definition retry (polls : option (nat -> S)) (run : CallRun) (e : Engine) (id : I)
  : S * Engine * list Attempt * outcome (option (Receipt I)) CErr :=
  let held := match en_pending e with
              | Some pending => if bool_decide (rq_id pending = id) then Some pending else None
              | None => None
              end in
  let '(e, found) := match held with
                     | Some request => (e, Returns (Ok (Some request)))
                     | None => original polls e id
                     end in
  match found with
  | Panics => (run_store run, e, [], Panics)
  | Returns (Err error) => (run_store run, e, [], Returns (Err error))
  | Returns (Ok None) => (run_store run, e, [], Returns (Ok None))
  | Returns (Ok (Some request)) =>
      let '(s, e, flight, r) := submit run e request in
      (s, e, flight, match r with Panics => Panics | Returns r => Returns (result_map Some r) end)
  end.

(** ** The store and the attempts in flight *)

Context {RS : RawEventStoreSpec S} (key : StreamKey).

(** The record an envelope of the stream carries. *)
Definition pending_record (pe : PendingEnvelope) : result Rec (CodecError J) :=
  decode_fields (pe_version pe) (SchemaVersion.get (pe_schema_version pe))
    (et_bytes (pe_event_type pe)) (pl_bytes (pe_payload pe)).

Definition records_of (s : S) (recs : list Rec) : Prop :=
  Forall2 (fun pe r => pending_record pe = Ok r) (stream_of s key) recs.

(** An attempt is one record; if the stream still ends where the attempt expects,
    it is a valid next record. *)
Record attempt_ok (s : S) (a : Attempt) (r : Rec) : Prop := {
  ao_batch : batch_ok (at_batch a);
  ao_record : exists pe, PendingBatch.iter (at_batch a) = [pe] /\ pending_record pe = Ok r;
  ao_expected : rq_expected (ar_request r) = at_expected a;
  ao_reached : from_option as_u64 0 (at_expected a) <= len (stream_of s key);
  ao_valid : forall recs, records_of s recs -> at_expected a = head_version (len recs) -> valid_next (N := N) recs r;
}.

Notation World := (S * list Attempt)%type.

(** What any number of engines and other writers do to the store: start an attempt,
    let one land (the store decides), lose one, write to other streams. *)
Inductive move : World -> World -> Prop :=
| move_start s f a r : attempt_ok s a r -> move (s, f) (s, a :: f)
| move_land s f1 a f2 : move (s, f1 ++ a :: f2) ((append s key (at_expected a) (at_batch a)).1, f1 ++ f2)
| move_lost s f1 a f2 : move (s, f1 ++ a :: f2) (s, f1 ++ f2)
| move_other s s' f : store_inv s' -> stream_of s' key = stream_of s key ->
    (forall k, stream_of s k `prefix_of` stream_of s' k) -> move (s, f) (s', f).

Definition world_ok (w : World) : Prop :=
  store_inv w.1 /\ (exists recs, records_of w.1 recs /\ history (N := N) recs) /\
  Forall (fun a => exists r, attempt_ok w.1 a r) w.2.

Lemma record_decode_pending env : record_decode env = pending_record (from_persisted env).
Proof. reflexivity. Qed.

Lemma records_functional s r1 r2 : records_of s r1 -> records_of s r2 -> r1 = r2.
Proof. apply Forall2_Ok_functional. Qed.

Lemma records_len s recs : records_of s recs -> len recs = len (stream_of s key).
Proof. intros H%Forall2_length. unfold len. by rewrite H. Qed.

(** The stream of a later store has the records of an earlier one first. *)
Lemma records_grow s s' recs recs' :
  stream_of s key `prefix_of` stream_of s' key -> records_of s recs -> records_of s' recs' -> recs `prefix_of` recs'.
Proof.
  intros [k Hk] H1 H2. unfold records_of in *. rewrite Hk in H2.
  apply Forall2_app_inv_l in H2 as (r1 & r2 & H2 & _ & ->). exists r2. f_equal. symmetry.
  exact (records_functional s recs r1 H1 H2).
Qed.

(** Once the stream has moved past what an attempt expects, it stays valid. *)
Lemma attempt_stable s s' a r :
  store_inv s' -> stream_of s key `prefix_of` stream_of s' key -> attempt_ok s a r -> attempt_ok s' a r.
Proof.
  intros Hinv Hp Ha. destruct Hp as [k Hk]. pose proof (ao_reached _ _ _ Ha) as Hle.
  pose proof (len_nonneg k). split; [apply Ha..| |].
  - rewrite Hk, len_app. lia.
  - intros recs Hrecs Hex. apply (ao_valid _ _ _ Ha); [|done]. pose proof (records_len _ _ Hrecs) as Hl.
    destruct (stream_of_ok s' key Hinv) as (_ & _ & Hb). pose proof (len_nonneg (stream_of s' key)).
    apply head_version_raw in Hex; [|lia].
    assert (k = []) as -> by (destruct k; [done|rewrite Hk, len_app, len_cons in Hl; pose proof (len_nonneg k); lia]).
    unfold records_of in *. by rewrite Hk, app_nil_r in Hrecs.
Qed.

Lemma land_spec s a r recs s' o :
  store_inv s -> records_of s recs -> attempt_ok s a r ->
  append s key (at_expected a) (at_batch a) = (s', o) ->
  store_inv s' /\ (forall k, stream_of s k `prefix_of` stream_of s' k) /\
  match o with
  | Returns (Ok _) => at_expected a = head_version (len recs) /\ records_of s' (recs ++ [r]) /\ valid_next (N := N) recs r
  | Returns (Err e) => stream_of s' key = stream_of s key \/
      (exists x, e = AppendStore x) /\ records_of s' (recs ++ [r]) /\ valid_next (N := N) recs r
  | Panics => False
  end.
Proof.
  intros Hinv Hrecs Ha E. pose proof (ao_batch _ _ _ Ha) as Hb.
  destruct (append_grows _ _ _ _ _ _ Hinv Hb E) as [Hinv' Hg]. split_and!; [done|done|].
  assert (at_expected a = head_version (len (stream_of s key)) -> stream_of s' key = stream_of s key ++ PendingBatch.iter (at_batch a) ->
    at_expected a = head_version (len recs) /\ records_of s' (recs ++ [r]) /\ valid_next (N := N) recs r) as Hland.
  { intros Hex Hstr. rewrite <- (records_len _ _ Hrecs) in Hex. split_and!; [done| |by apply (ao_valid _ _ _ Ha)].
    unfold records_of. rewrite Hstr. apply Forall2_app; [done|].
    destruct (ao_record _ _ _ Ha) as (pe & -> & Hpe). by constructor. }
  destruct o as [[p|e]|].
  - destruct (append_committed _ _ _ _ _ _ Hinv Hb E) as (_ & Hex & Hstr & _). by apply Hland.
  - destruct (append_failed _ _ _ _ _ _ Hinv Hb E) as (_ & [Hsame|(Hx & Hex & Hstr)] & _); [by left|right].
    by destruct (Hland Hex Hstr) as (_ & ? & ?).
  - pose proof (append_no_panic _ key (at_expected a) _ Hinv Hb) as Hn. by rewrite E in Hn.
Qed.

Definition grows (s s' : S) : Prop := forall k, stream_of s k `prefix_of` stream_of s' k.

Lemma flight_stable s s' f :
  store_inv s' -> grows s s' -> Forall (fun a => exists r, attempt_ok s a r) f ->
  Forall (fun a => exists r, attempt_ok s' a r) f.
Proof. intros Hinv Hg Hf. eapply Forall_impl; [exact Hf|]. intros a [r Ha]. exists r. eapply attempt_stable; [done|apply Hg|done]. Qed.

Lemma move_ok w w' : world_ok w -> move w w' -> world_ok w' /\ grows w.1 w'.1.
Proof.
  intros (Hinv & (recs & Hrecs & Hh) & Hf) Hm. destruct Hm as [s f a r Ha|s f1 a f2|s f1 a f2|s s' f Hinv' Hsame Hg];
    simpl in *.
  - split; [|by intros k]. split_and!; [done|by exists recs|]. constructor; [by exists r|done].
  - apply Forall_app in Hf as [Hf1 [[r Ha] Hf2]%Forall_cons].
    destruct (append s key (at_expected a) (at_batch a)) as [s' o] eqn:E.
    destruct (land_spec _ _ _ _ _ _ Hinv Hrecs Ha E) as (Hinv' & Hg & Ho). simpl.
    split; [|done]. split_and!; [done| |by apply (flight_stable s), Forall_app].
    assert (records_of s' (recs ++ [r]) /\ valid_next (N := N) recs r \/ stream_of s' key = stream_of s key) as [[Hr Hv]|Hsame]
      by (destruct o as [[p|e]|]; naive_solver).
    + exists (recs ++ [r]). split; [done|by constructor].
    + exists recs. split; [unfold records_of; simpl; by rewrite Hsame|done].
  - apply Forall_app in Hf as [Hf1 [_ Hf2]%Forall_cons]. split; [|by intros k].
    split_and!; [done|by exists recs|by apply Forall_app].
  - split; [|done]. split_and!; [done|exists recs; unfold records_of; simpl; by rewrite Hsame|by apply (flight_stable s)].
Qed.

Lemma moves_ok w w' : world_ok w -> rtc move w w' -> world_ok w' /\ grows w.1 w'.1.
Proof.
  intros Hok Hm. induction Hm as [w|w1 w2 w3 H1 _ IH]; [split; [done|by intros k]|].
  destruct (move_ok _ _ Hok H1) as [Hok2 Hg]. destruct (IH Hok2) as [Hok3 Hg3]. split; [done|].
  intros k. etrans; [apply Hg|apply Hg3].
Qed.

(** The worlds the polls of a load see lie between two worlds. *)
Definition between (w0 : World) (polls : nat -> World) (w1 : World) : Prop :=
  rtc move w0 (polls O) /\ (forall t, rtc move (polls t) (polls (Datatypes.S t))) /\ (forall t, rtc move (polls t) w1).

Definition stores (polls : nat -> World) : nat -> S := fun t => (polls t).1.

(** [None]: the load ran into its deadline. *)
Definition call_between (w0 : World) (polls : option (nat -> World)) (w1 : World) : Prop :=
  match polls with Some polls => between w0 polls w1 | None => rtc move w0 w1 end.

Lemma between_world w0 polls w1 t : world_ok w0 -> between w0 polls w1 -> world_ok (polls t) /\ grows (polls t).1 w1.1.
Proof.
  intros Hok (H0 & Hs & H1). assert (world_ok (polls t)) as Ht.
  { induction t as [|t IH]; [by apply (moves_ok w0)|]. by apply (moves_ok (polls t)). }
  split; [done|]. by apply moves_ok.
Qed.

Lemma between_sched w0 polls w1 : world_ok w0 -> between w0 polls w1 -> sched_ok (stores polls).
Proof.
  intros Hok Hb t. destruct (between_world w0 polls w1 t Hok Hb) as [Ht _]. split; [apply Ht|].
  destruct Hb as (_ & Hs & _). by destruct (moves_ok _ _ Ht (Hs t)).
Qed.

Lemma call_between_ok w0 polls w1 : world_ok w0 -> call_between w0 polls w1 -> world_ok w1 /\ grows w0.1 w1.1.
Proof.
  intros Hok. destruct polls as [polls|]; simpl; [|by apply moves_ok].
  intros (H0 & _ & H1). apply moves_ok; [done|]. etrans; [exact H0|apply H1].
Qed.

(** The polls [engine_load] allows are enough: a load without a deadline answers. *)
Lemma engine_load_ends sched id : sched_ok sched -> load (A := Ad) LOAD_POLLS sched id <> None.
Proof. intros Hs. by apply load_ends. Qed.

(** What a root loaded in between knows of the store at the end. *)
Record root_of (s : S) (e : Engine) (root : Root) (recs : list Rec) (st : CommandState) : Prop := {
  ro_id : root_id root = en_id e;
  ro_prefix : forall all, records_of s all -> recs `prefix_of` all;
  ro_history : history (N := N) recs;
  ro_state : root_state root = Some st;
  ro_matches : state_matches recs st;
  ro_version : root_version root = head_version (len recs);
}.

Lemma load_spec w0 polls w1 e root :
  key = stream_key (A := Ad) (en_id e) -> world_ok w0 -> call_between w0 polls w1 ->
  engine_load (stores <$> polls) e = Returns (Ok root) ->
  exists recs st, root_of w1.1 e root recs st /\ len (stream_of w0.1 key) <= len recs.
Proof using Type.
  intros Hkey Hok Hb. destruct polls as [polls|]; [|done]. simpl in *.
  destruct (load (A := Ad) LOAD_POLLS (stores polls) (en_id e)) as [[[r|]|]|] eqn:El; [|done|done|done].
  apply load_fold in El as (envs & n & es & st & [Hd Hall] & Hlen & Hdec & Ha & ->); [|by eapply between_sched].
  rewrite <- Hkey in *. simpl. destruct (is_ok (cs_integrity st)); [|done]. intros [= <-].
  destruct (between_world w0 polls w1 n Hok Hb) as [(_ & (recs & Hrecs & Hh) & _) Hg].
  rewrite drop_0 in Hd. destruct Hd as [tl Htl]. unfold records_of in Hrecs. unfold stores in *. rewrite Htl in Hrecs.
  apply Forall2_app_inv_l in Hrecs as (r1 & r2 & Hr1 & Hr2 & ->). rewrite Forall2_fmap_l in Hr1.
  pose proof (Forall2_Ok_functional _ _ _ _ Hdec Hr1) as ->.
  apply (history_prefix r1) in Hh; [|by apply prefix_app_r].
  assert (len envs = len r1) as Hl by (unfold len; by rewrite (Forall2_length _ _ _ Hr1)).
  exists r1, st. rewrite Hl in *. split; [|etrans; [|exact Hlen]].
  - split; simpl; [done| |done|done|by apply fold_history|done].
    intros all Hrecs1. destruct (Hg key) as [k Hk]. unfold records_of in Hrecs1. rewrite Hk, Htl, <- app_assoc in Hrecs1.
    apply Forall2_app_inv_l in Hrecs1 as (x1 & x2 & Hx1 & _ & ->). rewrite Forall2_fmap_l in Hx1.
    rewrite (Forall2_Ok_functional _ _ _ _ Hr1 Hx1). by apply prefix_app_r.
  - destruct Hb as (H0 & _). destruct (moves_ok _ _ Hok H0) as [_ Hg0]. destruct (Hg0 key) as [k ->].
    rewrite len_app. pose proof (len_nonneg k). lia.
Qed.

(** ** Writing *)

Lemma root_current w e root recs st :
  root_of w e root recs st -> current_of root = len recs.
Proof.
  intros Hr. change (from_option as_u64 0 (root_version root) = len recs).
  pose proof (history_len _ (ro_history _ _ _ _ _ Hr)). pose proof (len_nonneg recs).
  apply head_version_raw; [unfold MAX_ACCEPTED, u64_max in *; lia|apply Hr].
Qed.

Lemma handle_root s e root recs st request version decided :
  root_of s e root recs st -> receipt st request = Ok None -> rq_expected request = root_version root ->
  first_persisted_version (root_version root) = Some version ->
  handle root (MkDecision request version) = Ok decided ->
  exists r, decided = Some (events_new r) /\ ar_request r = request /\ ar_schema r = 2 /\
    rc_version (ar_receipt r) = version /\ valid_next (N := N) recs r.
Proof.
  intros Hr Hrec Hex Hver. unfold handle, state. rewrite (ro_state _ _ _ _ _ Hr).
  intros Hd%map_err_Ok. apply (first_persisted_spec root) in Hver. rewrite (root_current _ _ _ _ _ Hr) in Hver.
  pose proof (ro_matches _ _ _ _ _ Hr) as Hm.
  destruct (decide_valid recs st request version decided Hm) as (r & -> & ? & ? & ? & ?);
    [done|by eapply receipt_None|by rewrite Hex, (ro_version _ _ _ _ _ Hr)|done|]. by exists r.
Qed.

Lemma root_reached s e root recs st all : root_of s e root recs st -> records_of s all -> len recs <= len all.
Proof.
  intros Hr Hall. destruct (ro_prefix _ _ _ _ _ Hr all Hall) as [k ->]. rewrite len_app. pose proof (len_nonneg k). lia.
Qed.

(** A root at the head of the stream has folded all of it. *)
Lemma root_at_head s e root recs st all :
  store_inv s -> root_of s e root recs st -> records_of s all -> root_version root = head_version (len all) -> all = recs.
Proof.
  intros Hinv Hr Hall Hhead. destruct (ro_prefix _ _ _ _ _ Hr all Hall) as [k ->].
  rewrite (ro_version _ _ _ _ _ Hr) in Hhead. destruct (stream_of_ok s key Hinv) as (_ & _ & Hbnd).
  rewrite <- (records_len _ _ Hall) in Hbnd. rewrite len_app in *. pose proof (len_nonneg recs). pose proof (len_nonneg k).
  apply head_version_inj in Hhead; [|lia..]. destruct k; [by rewrite app_nil_r|]. rewrite len_cons in *. pose proof (len_nonneg k). lia.
Qed.

(** An encoded decision is an attempt that carries its record. *)
Lemma encode_attempt s e root recs st r b :
  store_inv s -> root_of s e root recs st -> (exists all, records_of s all) -> valid_next (N := N) recs r -> ar_schema r = 2 ->
  encode_batch (A := Ad) (R := R) no_metadata root (events_new r : Events (@Event T Ad) 0) (fun _ => None) = Returns (Ok b) ->
  attempt_ok s (MkAttempt (root_version root) b) r /\
  consecutive (from_option as_u64 0 (root_version root) + 1) (versions (PendingBatch.iter b)).
Proof.
  intros Hinv Hr [all Hall] Hv Hschema Hb.
  destruct (encode_batch_spec (A := Ad) (R := R) no_metadata ltac:(done) _ _ _ _ Hb) as (Henc & Hcons & Hok & _).
  assert (pe_schema_version (PendingBatch.first b) = SchemaVersion.INITIAL) as Hsv.
  { unfold encode_batch in Hb. apply outcome_bind_Ok in Hb as (? & _ & Hb). apply outcome_bind_Ok in Hb as (? & _ & Hb).
    apply outcome_bind_Ok in Hb as (hd & Hhd & Hb). apply outcome_bind_Ok in Hb as (tl & _ & [= <-]).
    by apply encode_at_schema in Hhd. }
  destruct b as [pe tl]. simpl in *. apply Forall2_cons in Henc as [(Hpok & Het & Hpl) Htl].
  simpl in Htl. apply Forall2_nil_inv_r in Htl. subst tl. destruct Hcons as [Hpv _].
  rewrite (root_current _ _ _ _ _ Hr) in Hpv. apply record_encode_spec in Hpl as [Hfrom Hle].
  destruct (vn_receipt _ _ Hv) as (v & Hrc & Hvv).
  assert (pending_record pe = Ok r) as Hpr.
  { apply decode_fields_spec. rewrite Hsv. split_and!; [done|done|done|done|].
    apply record_ok_spec. rewrite Hrc, (vn_expected _ _ Hv), <- (ro_version _ _ _ _ _ Hr). simpl.
    change (from_option as_u64 0 (root_version root)) with (current_of root).
    rewrite (root_current _ _ _ _ _ Hr). split_and!; [done|apply as_u64_inj; lia|lia|done|done]. }
  pose proof (root_reached _ _ _ _ _ _ Hr Hall) as Hpre.
  split.
  - split; simpl.
    + done.
    + by exists pe.
    + by rewrite (vn_expected _ _ Hv), (ro_version _ _ _ _ _ Hr).
    + change (from_option as_u64 0 (root_version root)) with (current_of root).
      rewrite (root_current _ _ _ _ _ Hr), <- (records_len _ _ Hall). done.
    + intros all' Hall' Hhead. by rewrite (root_at_head _ _ _ _ _ _ Hinv Hr Hall' Hhead).
  - simpl. change (from_option as_u64 0 (root_version root)) with (current_of root).
    by rewrite (root_current _ _ _ _ _ Hr).
Qed.

(** The attempts a write left in flight are for its request, at its expected version. *)
Definition flight_of (s : S) (request : Request C I) (flight : list Attempt) : Prop :=
  Forall (fun a => exists r, attempt_ok s a r /\ ar_request r = request) flight.

(** What the answer to a write says of the store. *)
Definition answer_ok (s : S) (root : Root) (recs : list Rec) (request : Request C I) (flight : list Attempt)
  (o : option (outcome Executed_ (ExecuteError (CommandDecisionError AError) SErr))) : Prop :=
  match o with
  | Some (Returns (Ok _)) => flight = [] /\ exists r st, records_of s (recs ++ [r]) /\ ar_request r = request /\
      root_state root = Some st /\ state_matches (recs ++ [r]) st
  | Some (Returns (Err (EStore x))) => flight = [] /\ (is_conflict x = true -> len recs < len (stream_of s key)) \/
      exists error, x = SAdapter error
  | Some (Returns (Err _)) => flight = []
  | Some Panics => flight = []
  | None => True
  end.

Lemma execute_run_spec run w e root recs st request version s' root' flight o :
  key = stream_key (A := Ad) (en_id e) -> world_ok w -> root_of w.1 e root recs st ->
  receipt st request = Ok None -> rq_expected request = root_version root ->
  first_persisted_version (root_version root) = Some version ->
  execute_run run w.1 root (MkDecision request version) = (s', root', flight, o) ->
  rtc move w (s', flight ++ w.2) /\ flight_of s' request flight /\ answer_ok s' root' recs request flight o.
Proof.
  intros Hkey Hok Hr Hrec Hex Hver. destruct w as [s f]. simpl.
  pose proof Hok as (Hinv & (all & Hall & _) & _). simpl in *.
  assert (forall o', answer_ok s root recs request [] o' ->
    rtc move (s, f) (s, [] ++ f) /\ flight_of s request [] /\ answer_ok s root recs request [] o') as Hnone.
  { intros o' Ho. split_and!; [apply rtc_refl|constructor|done]. }
  destruct run as [|error]; simpl.
  - unfold execute_inner. destruct (handle root (MkDecision request version)) as [decided|[k|d]] eqn:Hh;
      [|by intros [= <- <- <- <-]; apply Hnone..].
    destruct (handle_root _ _ _ _ _ _ _ _ Hr Hrec Hex Hver Hh) as (r & -> & Hreq & Hsch & Hrv & Hv).
    simpl. unfold save, save_events.
    destruct (encode_batch _ _ _ _) as [[b|x]|] eqn:Hb.
    + destruct (encode_attempt _ _ _ _ _ _ _ Hinv Hr (ex_intro _ all Hall) Hv Hsch Hb) as [Ha Hcons].
      pose proof (ro_id _ _ _ _ _ Hr) as Hid. rewrite Hid, <- Hkey.
      destruct (append s key (root_version root) b) as [s1 a] eqn:Happ.
      destruct (land_spec _ _ _ _ _ _ Hinv Hall Ha Happ) as (Hinv1 & Hg & Ho).
      assert (rtc move (s, f) (s1, [] ++ f)) as Hmv.
      { eapply rtc_l; [by eapply move_start|]. apply rtc_once.
        pose proof (move_land s [] (MkAttempt (root_version root) b) f) as Hm. simpl in Hm. by rewrite Happ in Hm. }
      destruct a as [[p|x]|]; [| |done].
      * destruct Ho as (Hhead & Hrecs1 & _). simpl in Hhead. rewrite (root_at_head _ _ _ _ _ _ Hinv Hr Hall Hhead) in *.
        destruct (commit_persisted root _) as [r' [[[]|k]|]] eqn:Hc; intros [= <- <- <- <-];
          (split_and!; [exact Hmv|constructor|]); simpl; [|by left|done].
        apply commit_ok in Hc as (st0 & st1 & v & Hst0 & Hap & _ & ->). rewrite (ro_state _ _ _ _ _ Hr) in Hst0.
        injection Hst0 as <-. simpl in Hap. destruct (command_apply st r) as [st2|] eqn:Hap2; [|done]. injection Hap as <-.
        split; [done|]. exists r, st2. split_and!; [done|done|done|].
        by eapply apply_valid; [apply (ro_matches _ _ _ _ _ Hr)|..].
      * intros [= <- <- <- <-]. split_and!; [exact Hmv|constructor|]. simpl.
        destruct x as [l ex ac|x]; [|right; by exists x]. left. split; [done|]. intros _.
        destruct Ho as [Ho|([x [=]] & _)]. rewrite Ho.
        pose proof (append_conflict _ _ _ _ _ _ _ _ Hinv (ao_batch _ _ _ Ha) Hcons Happ) as Hne.
        pose proof (root_reached _ _ _ _ _ _ Hr Hall) as Hle. rewrite <- (records_len _ _ Hall) in *.
        rewrite (ro_version _ _ _ _ _ Hr) in Hne. destruct (decide (len recs = len all)) as [Heq|]; [by rewrite Heq in Hne|lia].
    + intros [= <- <- <- <-]. apply Hnone. simpl. left. split; [done|]. intros Hc.
      by destruct (eq_true_false_abs _ Hc (encode_batch_no_conflict (A := Ad) (R := R) no_metadata _ _ _ _ Hb)).
    + intros [= <- <- <- <-]. by apply Hnone.
  - destruct (handle root (MkDecision request version)) as [decided|[k|d]] eqn:Hh;
      [|by intros [= <- <- <- <-]; apply Hnone..].
    destruct (handle_root _ _ _ _ _ _ _ _ Hr Hrec Hex Hver Hh) as (r & -> & Hreq & Hsch & Hrv & Hv).
    destruct (encode_batch (A := Ad) (R := R) no_metadata root (events_new r : Events (@Event T Ad) 0) (fun _ => None))
      as [[b|x]|] eqn:Hb.
    + destruct (encode_attempt _ _ _ _ _ _ _ Hinv Hr (ex_intro _ all Hall) Hv Hsch Hb) as [Ha Hcons].
      intros [= <- <- <- <-]. split_and!.
      * by eapply rtc_once, move_start.
      * constructor; [|constructor]. by exists r.
      * destruct error as [x|]; simpl; [right; by exists x|done].
    + intros [= <- <- <- <-]. apply Hnone. simpl. left. split; [done|]. intros Hc.
      by destruct (eq_true_false_abs _ Hc (encode_batch_no_conflict (A := Ad) (R := R) no_metadata _ _ _ _ Hb)).
    + intros [= <- <- <- <-]. by apply Hnone.
Qed.

(** ** What is pending *)

(** The stream has moved past what the attempt expects: it can no longer land. *)
Definition dead (s : S) (a : Attempt) : Prop :=
  batch_ok (at_batch a) /\ from_option as_u64 0 (at_expected a) < len (stream_of s key).

(** Every attempt an engine has made is dead or is for its pending request. *)
Definition engine_ok (s : S) (mine : list Attempt) (pending : option (Request C I)) : Prop :=
  Forall (fun a => dead s a \/ exists r, attempt_ok s a r /\ pending = Some (ar_request r)) mine.

Lemma grows_len s s' : grows s s' -> len (stream_of s key) <= len (stream_of s' key).
Proof. intros Hg. destruct (Hg key) as [k ->]. rewrite len_app. pose proof (len_nonneg k). lia. Qed.

Lemma engine_ok_grows s s' mine pending :
  store_inv s' -> grows s s' -> engine_ok s mine pending -> engine_ok s' mine pending.
Proof.
  intros Hinv Hg Hm. eapply Forall_impl; [exact Hm|]. intros a [Hd|(r & Ha & Hp)].
  - left. destruct Hd as [Hbok Hd]. split; [done|]. pose proof (grows_len _ _ Hg). lia.
  - right. exists r. split; [|done]. eapply attempt_stable; [done|apply Hg|done].
Qed.

(** Taking up a request when nothing else is pending. *)
Lemma engine_ok_request s mine pending request :
  pending = None \/ pending = Some request -> engine_ok s mine pending -> engine_ok s mine (Some request).
Proof. intros [-> | ->] Hm; [|done]. eapply Forall_impl; [exact Hm|]. intros a [Hd|(r & _ & ?)]; [by left|done]. Qed.

(** A pending request the stream has moved past is settled. *)
Lemma engine_ok_settled s mine request :
  from_option as_u64 0 (rq_expected request) < len (stream_of s key) ->
  engine_ok s mine (Some request) -> engine_ok s mine None.
Proof.
  intros Hlt Hm. eapply Forall_impl; [exact Hm|]. intros a [Hd|(r & Ha & [= ->])]; [by left|]. left.
  split; [apply Ha|]. by rewrite <- (ao_expected _ _ _ Ha).
Qed.

Lemma engine_ok_flight s mine request flight :
  flight_of s request flight -> engine_ok s mine (Some request) -> engine_ok s (flight ++ mine) (Some request).
Proof.
  intros Hf Hm. apply Forall_app. split; [|done]. eapply Forall_impl; [exact Hf|].
  intros a (r & Ha & <-). right. by exists r.
Qed.

Lemma settle_spec s e root recs st mine e' r :
  (exists all, records_of s all) -> root_of s e root recs st -> engine_ok s mine (en_pending e) ->
  settle e root = (e', r) ->
  en_id e' = en_id e /\ engine_ok s mine (en_pending e') /\
  match r with Ok _ => en_pending e' = None | Err _ => e' = e end.
Proof.
  intros [all Hall] Hr Hm. unfold settle, state. rewrite (ro_state _ _ _ _ _ Hr). simpl.
  destruct (en_pending e) as [p|] eqn:Hp; [|by intros [= <- <-]].
  destruct (option_version_leb (root_version root) (rq_expected p)) eqn:Hle; intros [= <- <-]; [by rewrite Hp|].
  split_and!; [done| |done]. simpl. apply engine_ok_settled with p; [|done].
  rewrite <- (records_len _ _ Hall). eapply Z.lt_le_trans; [|by eapply root_reached].
  rewrite <- (root_current _ _ _ _ _ Hr). unfold current_of, option_version_leb, version_leb in *.
  destruct (root_version root) as [v|], (rq_expected p) as [x|]; simpl; try done; [lia|]. pose proof (version_range v). lia.
Qed.

(** ** Writing a request that may be written *)

Lemma write_spec run w e root recs st mine request s' root' e' flight o :
  key = stream_key (A := Ad) (en_id e) -> world_ok w -> root_of w.1 e root recs st ->
  receipt st request = Ok None -> rq_expected request = root_version root ->
  engine_ok w.1 mine (en_pending e) -> en_pending e = None \/ en_pending e = Some request ->
  write run w.1 e root request = (s', root', e', flight, o) ->
  rtc move w (s', flight ++ w.2) /\ en_id e' = en_id e /\ engine_ok s' (flight ++ mine) (en_pending e') /\
  match o with
  | Returns (Ok _) => flight = [] /\ en_pending e' = Some request /\ exists r st', records_of s' (recs ++ [r]) /\
      ar_request r = request /\ root_state root' = Some st' /\ state_matches (recs ++ [r]) st'
  | Returns (Err (Uncertain _ _)) | Panics => True
  | Returns (Err _) => en_pending e' = None \/ en_pending e' = en_pending e
  end.
Proof.
  intros Hkey Hok Hr Hrec Hex Hm Hp. unfold write. simpl.
  destruct (first_persisted_version (root_version root)) as [version|] eqn:Hver;
    [|intros [= <- <- <- <- <-]; destruct w; split_and!; [apply rtc_refl|done|done|by right]].
  destruct (execute_run run w.1 root (MkDecision request version)) as [[[s1 root1] fl] ans] eqn:He.
  destruct (execute_run_spec _ _ _ _ _ _ _ _ _ _ _ _ Hkey Hok Hr Hrec Hex Hver He) as (Hmv & Hfl & Hans).
  destruct (moves_ok _ _ Hok Hmv) as [Hok1 Hg]. simpl in Hok1, Hg.
  assert (engine_ok s1 mine (en_pending e)) as Hm1 by (eapply engine_ok_grows; [apply Hok1|done|done]).
  pose proof (engine_ok_flight _ _ _ _ Hfl (engine_ok_request _ _ _ _ Hp Hm1)) as Hm2.
  assert (forall cause e2 r2, fl = [] -> failure (MkEngine (en_id e) (Some request)) (en_pending e) cause = (e2, r2) ->
    en_id e2 = en_id e /\ engine_ok s1 (fl ++ mine) (en_pending e2) /\
    match r2 with Ok _ => False | Err (Uncertain _ _) => True | Err _ => en_pending e2 = None \/ en_pending e2 = en_pending e end) as Hfail.
  { intros cause e2 r2 -> Hf. unfold failure in Hf. simpl in Hf.
    destruct (en_pending e) as [p|]; injection Hf as <- <-; split_and!; try done. by left. }
  destruct ans as [[[x|[k|d|x]]|]|]; simpl in Hans.
  - intros [= <- <- <- <- <-]. destruct Hans as (-> & Hrest). by split_and!.
  - destruct (failure _ _ _) as [e2 r2] eqn:Hf. destruct (Hfail _ _ _ Hans Hf) as (? & ? & ?).
    intros [= <- <- <- <- <-]. split_and!; [done..|]. by destruct r2 as [|[]].
  - destruct (failure _ _ _) as [e2 r2] eqn:Hf. destruct (Hfail _ _ _ Hans Hf) as (? & ? & ?).
    intros [= <- <- <- <- <-]. split_and!; [done..|]. by destruct r2 as [|[]].
  - destruct (is_conflict x) eqn:Hc.
    + intros [= <- <- <- <- <-]. destruct Hans as [[-> Hlt]|[y ->]]; [|done].
      split_and!; [done|done| |by left]. simpl. apply engine_ok_settled with request; [|done].
      rewrite Hex. change (current_of root < len (stream_of s1 key)). rewrite (root_current _ _ _ _ _ Hr). by apply Hlt.
    + destruct (store_failure _ _ _ _) as [e2 r2] eqn:Hf. intros [= <- <- <- <- <-].
      assert (fl = [] \/ exists y, x = SAdapter y) as Hx by naive_solver.
      assert (en_id e2 = en_id e /\ engine_ok s1 (fl ++ mine) (en_pending e2) /\
        match r2 with Ok _ => False | Err (Uncertain _ _) => True
        | Err _ => en_pending e2 = None \/ en_pending e2 = en_pending e end) as (? & ? & ?).
      { destruct x; simpl in Hf; try (injection Hf as <- <-; by split_and!);
          (eapply Hfail; [|exact Hf]; by destruct Hx as [|[]]). }
      split_and!; [done..|]. by destruct r2 as [|[]].
  - intros [= <- <- <- <- <-]. by split_and!.
  - intros [= <- <- <- <- <-]. by split_and!.
Qed.

(** The stream holds the request with this receipt. *)
Definition recorded (s : S) (request : Request C I) (given : Receipt I) : Prop :=
  exists all r, records_of s all /\ r ∈ all /\ ar_request r = request /\ ar_receipt r = given.

Lemma root_recorded s e root recs st request given :
  (exists all, records_of s all) -> root_of s e root recs st -> receipt st request = Ok (Some given) ->
  recorded s request given.
Proof.
  intros [all Hall] Hr Hg. apply (receipt_spec recs) in Hg as (r & Hin & Hreq & Hrc); [|apply Hr].
  exists all, r. split_and!; [done| |done|done]. destruct (ro_prefix _ _ _ _ _ Hr all Hall) as [k ->].
  apply elem_of_app. by left.
Qed.

Lemma world_records w : world_ok w -> exists all, records_of w.1 all.
Proof. intros (_ & (all & Hall & _) & _). by exists all. Qed.

Lemma recorded_grows (w w' : World) request given :
  world_ok w' -> grows w.1 w'.1 -> recorded w.1 request given -> recorded w'.1 request given.
Proof.
  intros Hok Hg (all & r & Hall & Hin & ? & ?). destruct (world_records _ Hok) as [all' Hall'].
  destruct (records_grow _ _ _ _ (Hg key) Hall Hall') as [k ->].
  exists (all ++ k), r. split_and!; [done| |done|done]. apply elem_of_app. by left.
Qed.

(** A definite answer leaves nothing new pending. *)
Definition settled_by {V} (before after : option (Request C I)) (o : outcome V CErr) : Prop :=
  match o with
  | Panics | Returns (Err (Uncertain _ _)) => True
  | _ => after = None \/ after = before
  end.

Lemma settled_by_unchanged {V} before after (o : outcome V CErr) :
  after = None \/ after = before -> settled_by before after o.
Proof. by destruct o as [[|[]]|]. Qed.

Lemma root_receipt_state {X} s e root recs st (kernel : KernelError -> X) mismatch request :
  root_of s e root recs st ->
  root_receipt kernel mismatch root request = map_err (fun _ => mismatch) (receipt st request).
Proof. intros Hr. unfold root_receipt, state. by rewrite (ro_state _ _ _ _ _ Hr). Qed.

Lemma submit_written_spec run (reload : option (nat -> World)) w2 w3 e (root : Root) recs mine before request
  (o : outcome () CErr) e' r :
  key = stream_key (A := Ad) (en_id e) -> world_ok w2 -> run_reload run = stores <$> reload ->
  call_between w2 reload w3 -> engine_ok w2.1 mine (en_pending e) ->
  from_option as_u64 0 (rq_expected request) = len recs ->
  match o with
  | Returns (Ok _) => en_pending e = Some request /\ exists r st', records_of w2.1 (recs ++ [r]) /\
      ar_request r = request /\ root_state root = Some st' /\ state_matches (recs ++ [r]) st'
  | Returns (Err (Uncertain _ _)) | Panics => True
  | Returns (Err _) => en_pending e = None \/ en_pending e = before
  end ->
  submit_written run e root request o = (e', r) ->
  en_id e' = en_id e /\ engine_ok w3.1 mine (en_pending e') /\ settled_by before (en_pending e') r /\
  (forall given, r = Returns (Ok given) -> recorded w3.1 request given).
Proof.
  intros Hkey Hok Hrel Hb Hm Hlen Ho. destruct (call_between_ok _ _ _ Hok Hb) as [Hok3 Hg].
  pose proof (engine_ok_grows _ _ _ _ (proj1 Hok3) Hg Hm) as Hm3.
  destruct o as [[[]|error]|]; simpl.
  - destruct Ho as (Hp & rc & st & Hrecs & Hreq & Hst & Hmt). unfold root_receipt, state. rewrite Hst. simpl.
    rewrite (proj2 (receipt_spec (recs ++ [rc]) st request (ar_receipt rc) Hmt)) by (exists rc; set_solver).
    simpl. intros [= <- <-]. split_and!; [done| |by left|].
    + simpl. rewrite Hp in Hm3. apply engine_ok_settled with request; [|done].
      pose proof (grows_len _ _ Hg). rewrite <- (records_len _ _ Hrecs), len_app, len_cons, len_nil in *. lia.
    + intros given [= <-]. apply (recorded_grows w2); [done|done|].
      exists (recs ++ [rc]), rc. split_and!; [done|set_solver|done|done].
  - assert (forall x, (e, Returns (Err x)) = (e', r) -> settled_by before (en_pending e) (Returns (Err x) : outcome (Receipt I) CErr) ->
      en_id e' = en_id e /\ engine_ok w3.1 mine (en_pending e') /\ settled_by before (en_pending e') r /\
      (forall given, r = Returns (Ok given) -> recorded w3.1 request given)) as Hdone.
    { intros x [= <- <-] ?. by split_and!. }
    destruct error; try (intros Hx; by apply (Hdone _ Hx)).
    rewrite Hrel. destruct (engine_load (stores <$> reload) e) as [[root2|x]|] eqn:Hl.
    + destruct (load_spec _ _ _ _ _ Hkey Hok Hb Hl) as (recs2 & st2 & Hr2 & _).
      rewrite (root_receipt_state _ _ _ _ _ _ _ _ Hr2).
      destruct (receipt st2 request) as [[given|]|[]] eqn:Hrc; simpl; intros [= <- <-]; (split_and!; [done|done|done|]);
        try done.
      intros ? [= <-]. by eapply root_recorded; [apply world_records|..].
    + intros [= <- <-]. split_and!; [done|done| |done]. by destruct x.
    + intros [= <- <-]. by split_and!.
  - intros [= <- <-]. by split_and!.
Qed.

(** What a call promises of the world it leaves, of the engine and of its answer. *)
Definition call_ok {V} (w1 w2 w3 : World) (e e' : Engine) (mine : list Attempt) (before : option (Request C I))
  (o : outcome V CErr) : Prop :=
  rtc move w1 w2 /\ en_id e' = en_id e /\ engine_ok w3.1 mine (en_pending e') /\ settled_by before (en_pending e') o.

Lemma submit_write_spec run (reload : option (nat -> World)) w1 w3 wr e before mine root recs st request
  s2 root2 e2 flight ow e' o :
  key = stream_key (A := Ad) (en_id e) -> world_ok w1 -> root_of w1.1 e root recs st -> receipt st request = Ok None ->
  rq_expected request = root_version root -> engine_ok w1.1 mine (en_pending e) ->
  en_pending e = None \/ en_pending e = Some request -> en_pending e = None \/ en_pending e = before ->
  write wr w1.1 e root request = (s2, root2, e2, flight, ow) ->
  run_reload run = stores <$> reload -> submit_written run e2 root2 request ow = (e', o) ->
  call_between (s2, flight ++ w1.2) reload w3 ->
  call_ok w1 (s2, flight ++ w1.2) w3 e e' (flight ++ mine) before o /\
  (forall given, o = Returns (Ok given) -> recorded w3.1 request given).
Proof.
  intros Hkey Hok1 Hr Hrc Hex Hm Hpr Hp Hw Hrel Hsw Hb3.
  destruct (write_spec _ _ _ _ _ _ _ _ _ _ _ _ _ Hkey Hok1 Hr Hrc Hex Hm Hpr Hw) as (Hmv & Hid & Hm2 & Hpost).
  destruct (moves_ok _ _ Hok1 Hmv) as [Hok2 _]. rewrite <- Hid in Hkey.
  destruct (submit_written_spec run reload (s2, flight ++ w1.2) w3 e2 root2 recs (flight ++ mine) before request ow e' o)
    as (Hid3 & Hm3 & Hs3 & Hrec3); [done|done|done|done|done| | |done|].
  - rewrite Hex. change (current_of root = len recs). by eapply root_current.
  - destruct ow as [[[]|error]|]; [by destruct Hpost as (-> & ?)| |done].
    destruct error; try done; (destruct Hpost as [?| ->]; [by left|done]).
  - split; [|done]. split_and!; [done|congruence|done|done].
Qed.

(** A whole [submit], with what other tasks do before, during and after it. *)
Lemma submit_spec (polls reload : option (nat -> World)) w0 w1 w3 wr e mine request s2 e' flight o :
  key = stream_key (A := Ad) (en_id e) -> world_ok w0 -> call_between w0 polls w1 ->
  engine_ok w0.1 mine (en_pending e) ->
  submit (MkRun (stores <$> polls) w1.1 wr (stores <$> reload)) e request = (s2, e', flight, o) ->
  call_between (s2, flight ++ w1.2) reload w3 ->
  call_ok w1 (s2, flight ++ w1.2) w3 e e' (flight ++ mine) (en_pending e) o /\
  (forall given, o = Returns (Ok given) -> recorded w3.1 request given).
Proof.
  intros Hkey Hok Hb Hm0 Hsub Hb3. destruct (call_between_ok _ _ _ Hok Hb) as [Hok1 Hg1].
  pose proof (engine_ok_grows _ _ _ _ (proj1 Hok1) Hg1 Hm0) as Hm1.
  assert (forall e1 o1, (w1.1, e1, [], o1) = (s2, e', flight, o) -> en_id e1 = en_id e ->
    engine_ok w1.1 mine (en_pending e1) -> settled_by (en_pending e) (en_pending e1) o1 ->
    (forall given, o1 = Returns (Ok given) -> recorded w1.1 request given) ->
    call_ok w1 (s2, flight ++ w1.2) w3 e e' (flight ++ mine) (en_pending e) o /\
    (forall given, o = Returns (Ok given) -> recorded w3.1 request given)) as Hdone.
  { intros e1 o1 [= <- <- <- <-] Hid Hm Hs Hrec. replace (w1.1, [] ++ w1.2) with w1 in Hb3 |- * by (by destruct w1).
    destruct (call_between_ok _ _ _ Hok1 Hb3) as [Hok3 Hg3]. split; [split_and!; [apply rtc_refl|done| |done]|].
    - by eapply engine_ok_grows; [apply Hok3|..].
    - intros given Hgv. apply (recorded_grows w1); [done|done|by apply Hrec]. }
  unfold submit in Hsub. simpl in Hsub.
  destruct (engine_load (stores <$> polls) e) as [[root|x]|] eqn:Hl;
    [|by apply (Hdone _ _ Hsub); [done|done|apply settled_by_unchanged; by right|]|by apply (Hdone _ _ Hsub)].
  destruct (load_spec _ _ _ _ _ Hkey Hok Hb Hl) as (recs & st & Hr & _).
  rewrite (root_receipt_state _ _ _ _ _ _ _ _ Hr) in Hsub.
  destruct (receipt st request) as [existing|[]] eqn:Hrc; simpl in Hsub;
    [|by apply (Hdone _ _ Hsub); [done|done|by right|]].
  destruct (settle e root) as [e1 settled] eqn:Hset.
  destruct (settle_spec _ _ _ _ _ _ _ _ (world_records _ Hok1) Hr Hm1 Hset) as (Hid1 & Hme1 & Hs1).
  assert (en_pending e1 = None \/ en_pending e1 = en_pending e) as Hp1 by (destruct settled; [by left|right; by subst]).
  destruct existing as [given|].
  { apply (Hdone _ _ Hsub); [done|done|done|]. intros ? [= <-]. by eapply root_recorded; [apply world_records|..]. }
  destruct (from_option _ false (en_pending e1)) eqn:Hmis; [by apply (Hdone _ _ Hsub)|].
  set (cont := if negb (bool_decide (rq_expected request = root_version root)) then _ else _) in Hsub.
  assert ((exists x, (w1.1, e1, [], Returns (Err x)) = (s2, e', flight, o)) \/
    (en_pending e1 = None \/ en_pending e1 = Some request) /\ cont = (s2, e', flight, o)) as [[x Hx]|[Hpr Hc]].
  { destruct settled as [[]|x]; [right; split; [by left|done]|].
    destruct (bool_decide (en_pending e = Some request) && _) eqn:Hretry; [right|left; by exists x].
    apply andb_true_iff in Hretry as [Hretry%bool_decide_eq_true _]. subst e1. by split; [right|]. }
  { apply (Hdone _ _ Hx); [done|done|by apply settled_by_unchanged|done]. }
  subst cont. destruct (bool_decide_reflect (rq_expected request = root_version root)) as [Hex|]; simpl in Hc;
    [|by apply (Hdone _ _ Hc)].
  destruct (write wr w1.1 e1 root request) as [[[[s4 root4] e4] fl] ow] eqn:Hw.
  destruct (submit_written _ e4 root4 request ow) as [e5 r5] eqn:Hsw. injection Hc as -> -> -> ->.
  assert (root_of w1.1 e1 root recs st) as Hr1 by (destruct Hr; split; try done; by rewrite Hid1).
  rewrite <- Hid1 in Hkey. unfold call_ok. rewrite <- Hid1.
  by eapply submit_write_spec; [..|exact Hw| |exact Hsw|].
Qed.

(** ** Reading *)

(** A load that fails changes nothing; one that succeeds settles what it can. *)
Lemma settled_load polls w0 w1 e mine root :
  key = stream_key (A := Ad) (en_id e) -> world_ok w0 -> call_between w0 polls w1 ->
  engine_ok w0.1 mine (en_pending e) -> engine_load (stores <$> polls) e = Returns (Ok root) ->
  exists recs st e1 r, root_of w1.1 e root recs st /\ len (stream_of w0.1 key) <= len recs /\
    settle e root = (e1, r) /\ en_id e1 = en_id e /\ engine_ok w1.1 mine (en_pending e1) /\
    (en_pending e1 = None \/ en_pending e1 = en_pending e).
Proof.
  intros Hkey Hok Hb Hm Hl. destruct (call_between_ok _ _ _ Hok Hb) as [Hok1 Hg1].
  destruct (load_spec _ _ _ _ _ Hkey Hok Hb Hl) as (recs & st & Hr & Hlen).
  destruct (settle e root) as [e1 r] eqn:Hset.
  destruct (settle_spec w1.1 e root recs st mine e1 r) as (? & ? & Hs); [by apply world_records|done| |done|].
  { by eapply engine_ok_grows; [apply Hok1|..]. }
  exists recs, st, e1, r. split_and!; try done. destruct r; [by left|right; by subst].
Qed.

Lemma original_spec polls w0 w1 e mine id e' o :
  key = stream_key (A := Ad) (en_id e) -> world_ok w0 -> call_between w0 polls w1 ->
  engine_ok w0.1 mine (en_pending e) -> original (stores <$> polls) e id = (e', o) ->
  en_id e' = en_id e /\ engine_ok w1.1 mine (en_pending e').
Proof.
  intros Hkey Hok Hb Hm. destruct (call_between_ok _ _ _ Hok Hb) as [Hok1 Hg1]. unfold original.
  pose proof (engine_ok_grows _ _ _ _ (proj1 Hok1) Hg1 Hm) as Hm1.
  destruct (engine_load (stores <$> polls) e) as [[root|x]|] eqn:Hl; [|by intros [= <- <-]..].
  destruct (settled_load _ _ _ _ _ _ Hkey Hok Hb Hm Hl) as (recs & st & e1 & r & Hr & _ & -> & ? & ? & _).
  unfold state. rewrite (ro_state _ _ _ _ _ Hr). simpl.
  by destruct (state_original st id); intros [= <- <-].
Qed.

Lemma read_spec polls w0 w1 e mine e' o :
  key = stream_key (A := Ad) (en_id e) -> world_ok w0 -> call_between w0 polls w1 ->
  engine_ok w0.1 mine (en_pending e) -> read (stores <$> polls) e = (e', o) ->
  en_id e' = en_id e /\ engine_ok w1.1 mine (en_pending e').
Proof.
  intros Hkey Hok Hb Hm. destruct (call_between_ok _ _ _ Hok Hb) as [Hok1 Hg1]. unfold read.
  pose proof (engine_ok_grows _ _ _ _ (proj1 Hok1) Hg1 Hm) as Hm1.
  destruct (engine_load (stores <$> polls) e) as [[root|x]|] eqn:Hl; [|by intros [= <- <-]..].
  destruct (settled_load _ _ _ _ _ _ Hkey Hok Hb Hm Hl) as (recs & st & e1 & r & Hr & _ & -> & ? & ? & _).
  by destruct r; intros [= <- <-].
Qed.

(** ** An engine among other tasks *)

Notation EngineSys := (World * Engine * list Attempt)%type.

(** One call of the engine with everything that happens during it, the other tasks,
    or a restart that hands the pending request over. *)
Inductive engine_step : EngineSys -> EngineSys -> Prop :=
| es_others w w' e mine : rtc move w w' -> engine_step (w, e, mine) (w', e, mine)
| es_submit w0 polls w1 wr reload w3 e request s2 e' flight o mine :
    call_between w0 polls w1 ->
    submit (MkRun (stores <$> polls) w1.1 wr (stores <$> reload)) e request = (s2, e', flight, o) ->
    call_between (s2, flight ++ w1.2) reload w3 ->
    engine_step (w0, e, mine) (w3, e', flight ++ mine)
| es_retry w0 polls w1 polls' w2 wr reload w4 e id s3 e' flight o mine :
    call_between w0 polls w1 -> call_between w1 polls' w2 ->
    retry (stores <$> polls) (MkRun (stores <$> polls') w2.1 wr (stores <$> reload)) e id = (s3, e', flight, o) ->
    call_between (s3, flight ++ w2.2) reload w4 ->
    engine_step (w0, e, mine) (w4, e', flight ++ mine)
| es_read w0 polls w1 e e' o mine :
    call_between w0 polls w1 -> read (stores <$> polls) e = (e', o) -> engine_step (w0, e, mine) (w1, e', mine)
| es_original w0 polls w1 e id e' o mine :
    call_between w0 polls w1 -> original (stores <$> polls) e id = (e', o) -> engine_step (w0, e, mine) (w1, e', mine)
| es_handoff w e mine : engine_step (w, e, mine) (w, engine_new (en_id e) (engine_drop e), mine).

Definition sys_ok (x : EngineSys) : Prop :=
  let '(w, e, mine) := x in
  key = stream_key (A := Ad) (en_id e) /\ world_ok w /\ engine_ok w.1 mine (en_pending e).

Lemma call_leaves_ok {V} w1 w2 w3 polls e e' mine before (o : outcome V CErr) :
  key = stream_key (A := Ad) (en_id e) -> world_ok w1 -> call_between w2 polls w3 ->
  call_ok w1 w2 w3 e e' mine before o -> sys_ok (w3, e', mine).
Proof.
  intros Hkey Hok Hb (Hmv & Hid & Hm & _). destruct (moves_ok _ _ Hok Hmv) as [Hok2 _].
  destruct (call_between_ok _ _ _ Hok2 Hb) as [Hok3 _]. split_and!; [by rewrite Hid|done|done].
Qed.

Lemma retry_ok w0 polls w1 polls' w2 wr reload w4 e id s3 e' flight o mine :
  sys_ok (w0, e, mine) -> call_between w0 polls w1 -> call_between w1 polls' w2 ->
  retry (stores <$> polls) (MkRun (stores <$> polls') w2.1 wr (stores <$> reload)) e id = (s3, e', flight, o) ->
  call_between (s3, flight ++ w2.2) reload w4 -> sys_ok (w4, e', flight ++ mine).
Proof.
  intros (Hkey & Hok & Hm) Hb1 Hb2. destruct (call_between_ok _ _ _ Hok Hb1) as [Hok1 Hg1].
  destruct (call_between_ok _ _ _ Hok1 Hb2) as [Hok2 Hg2]. unfold retry.
  set (held := match en_pending e with Some _ => _ | None => _ end).
  assert (exists e1 found, match held with Some request => (e, Returns (Ok (Some request))) | None => original (stores <$> polls) e id end = (e1, found)
    /\ en_id e1 = en_id e /\ engine_ok w1.1 mine (en_pending e1)) as (e1 & found & -> & Hid & Hm1).
  { destruct held as [request|].
    - exists e, (Returns (Ok (Some request))). split_and!; [done|done|]. by eapply engine_ok_grows; [apply Hok1|..].
    - destruct (original (stores <$> polls) e id) as [e1 found] eqn:Ho. exists e1, found.
      split; [done|]. exact (original_spec _ _ _ _ _ _ _ _ Hkey Hok Hb1 Hm Ho). }
  assert (forall x : outcome (option (Receipt I)) CErr, (w2.1, e1, [], x) = (s3, e', flight, o) ->
    call_between (s3, flight ++ w2.2) reload w4 -> sys_ok (w4, e', flight ++ mine)) as Hdone.
  { intros x [= <- <- <- <-] Hb4. replace (w2.1, [] ++ w2.2) with w2 in Hb4 by (by destruct w2).
    destruct (call_between_ok _ _ _ Hok2 Hb4) as [Hok4 Hg4]. split_and!; [by rewrite Hid|done|].
    eapply engine_ok_grows; [apply Hok4|exact Hg4|]. by eapply engine_ok_grows; [apply Hok2|..]. }
  rewrite <- Hid in Hkey. destruct found as [[[request|]|x]|]; [|by apply Hdone..].
  destruct (submit _ e1 request) as [[[s5 e5] fl5] r5] eqn:Hs. intros [= -> -> -> <-] Hb4.
  destruct (submit_spec _ _ _ _ _ _ _ _ _ _ _ _ _ Hkey Hok1 Hb2 Hm1 Hs Hb4) as [Hc _].
  exact (call_leaves_ok _ _ _ _ _ _ _ _ _ Hkey Hok2 Hb4 Hc).
Qed.

Lemma engine_step_ok x y : sys_ok x -> engine_step x y -> sys_ok y.
Proof.
  intros Hx Hs. destruct Hs as [w w' e mine Hmv|w0 polls w1 wr reload w3 e request s2 e' flight o mine Hb Hsub Hb3
    |? ? ? ? ? ? ? ? ? ? ? ? ? ? ? Hb1 Hb2 Hret Hb4|w0 polls w1 e e' o mine Hb Hread|w0 polls w1 e id e' o mine Hb Hor|w e mine].
  - destruct Hx as (Hkey & Hok & Hm). destruct (moves_ok _ _ Hok Hmv) as [Hok' Hg].
    split_and!; [done|done|]. by eapply engine_ok_grows; [apply Hok'|..].
  - destruct Hx as (Hkey & Hok & Hm). destruct (call_between_ok _ _ _ Hok Hb) as [Hok1 _].
    destruct (submit_spec _ _ _ _ _ _ _ _ _ _ _ _ _ Hkey Hok Hb Hm Hsub Hb3) as [Hc _].
    exact (call_leaves_ok _ _ _ _ _ _ _ _ _ Hkey Hok1 Hb3 Hc).
  - by eapply retry_ok.
  - destruct Hx as (Hkey & Hok & Hm). destruct (call_between_ok _ _ _ Hok Hb) as [Hok1 _].
    destruct (read_spec _ _ _ _ _ _ _ Hkey Hok Hb Hm Hread) as [Hid ?]. split_and!; [by rewrite Hid|done|done].
  - destruct Hx as (Hkey & Hok & Hm). destruct (call_between_ok _ _ _ Hok Hb) as [Hok1 _].
    destruct (original_spec _ _ _ _ _ _ _ _ Hkey Hok Hb Hm Hor) as [Hid ?]. split_and!; [by rewrite Hid|done|done].
  - done.
Qed.

(** An attempt of an engine that lands was its pending request. *)
Lemma lands_pending w e mine a w' s' p :
  sys_ok (w, e, mine) -> a ∈ mine -> rtc move w w' -> append w'.1 key (at_expected a) (at_batch a) = (s', Returns (Ok p)) ->
  exists r pe, PendingBatch.iter (at_batch a) = [pe] /\ pending_record pe = Ok r /\ en_pending e = Some (ar_request r).
Proof.
  intros (_ & Hokw & Hm) Hin Hmv Happ. destruct (moves_ok _ _ Hokw Hmv) as [Hok' Hg].
  pose proof (engine_ok_grows _ _ _ _ (proj1 Hok') Hg Hm) as Hm'. unfold engine_ok in Hm'.
  rewrite Forall_forall in Hm'. destruct (Hm' a Hin) as [[Hb Hd]|(r & Ha & Hp)].
  - exfalso. destruct (append_committed _ _ _ _ _ _ (proj1 Hok') Hb Happ) as (_ & Hex & _).
    destruct (stream_of_ok w'.1 key (proj1 Hok')) as (_ & _ & Hbnd). pose proof (len_nonneg (stream_of w'.1 key)).
    apply head_version_raw in Hex; lia.
  - destruct (ao_record _ _ _ Ha) as (pe & Hit & Hpe). by exists r, pe.
Qed.

Lemma history_unique (recs : list Rec) (r r' : Rec) :
  history (N := N) recs -> r ∈ recs -> r' ∈ recs -> record_id r' = record_id r -> r' = r.
Proof.
  intros Hh%history_ids (i & Hi)%list_elem_of_lookup (j & Hj)%list_elem_of_lookup Hid.
  assert (i = j) as ->; [|congruence].
  eapply NoDup_lookup; [exact Hh| |]; rewrite list_lookup_fmap; [by rewrite Hi|]. rewrite Hj. simpl. by f_equal.
Qed.

(** C12: whatever other engines and writers do before, during and after a
    [submit], and whether its append answers, fails or is left in flight, the call
    only starts or lands attempts that are valid, so the stream stays a serial
    history: every request executed at most once, each on the state all earlier
    records produce, at the version it expected.  A receipt that [submit] returns is
    the one recorded with exactly this request, by the only record with its id. *)
Theorem submit_exactly_once polls reload w0 w1 w3 wr e request s2 e' flight o :
  key = stream_key (A := Ad) (en_id e) -> world_ok w0 -> call_between w0 polls w1 ->
  submit (MkRun (stores <$> polls) w1.1 wr (stores <$> reload)) e request = (s2, e', flight, o) ->
  call_between (s2, flight ++ w1.2) reload w3 ->
  rtc move w1 (s2, flight ++ w1.2) /\
  exists recs, records_of w3.1 recs /\ history (N := N) recs /\ NoDup (record_id <$> recs) /\
    forall given, o = Returns (Ok given) ->
      exists r, r ∈ recs /\ ar_request r = request /\ ar_receipt r = given /\
        forall r', r' ∈ recs -> record_id r' = rq_id request -> r' = r.
Proof.
  intros Hkey Hok Hb Hsub Hb3. destruct (call_between_ok _ _ _ Hok Hb) as [Hok1 _].
  destruct (submit_spec _ _ _ _ _ _ _ [] _ _ _ _ _ Hkey Hok Hb (Forall_nil_2 _) Hsub Hb3) as [Hc Hrec].
  destruct (call_leaves_ok _ _ _ _ _ _ _ _ _ Hkey Hok1 Hb3 Hc) as (_ & (_ & (recs & Hrecs & Hh) & _) & _).
  split; [apply Hc|]. exists recs. split_and!; [done|done|by apply history_ids|].
  intros given Hgv. destruct (Hrec given Hgv) as (all & r & Hall & Hin & Hreq & Hrc).
  rewrite (records_functional _ _ _ Hall Hrecs) in Hin. exists r. split_and!; [done|done|done|].
  intros r' Hr' Hid. eapply history_unique; [done|done|done|]. unfold record_id. by rewrite Hreq.
Qed.

(** C15: over any run of calls, restarts and other tasks, every append
    the engine ever made that could still land carries the request it holds as
    pending; with nothing pending, none can.  An answer other than "uncertain"
    leaves nothing pending that was not so before the call. *)
Theorem no_forgotten_write id w0 w e mine :
  key = stream_key (A := Ad) id -> world_ok w0 ->
  rtc engine_step (w0, engine_new id None, []) (w, e, mine) ->
  (forall a w' s' p, a ∈ mine -> rtc move w w' ->
     append w'.1 key (at_expected a) (at_batch a) = (s', Returns (Ok p)) ->
     exists r pe, PendingBatch.iter (at_batch a) = [pe] /\ pending_record pe = Ok r /\
       en_pending e = Some (ar_request r)) /\
  (forall polls w1 wr reload w3 request s2 e' flight o, call_between w polls w1 ->
     submit (MkRun (stores <$> polls) w1.1 wr (stores <$> reload)) e request = (s2, e', flight, o) ->
     call_between (s2, flight ++ w1.2) reload w3 -> settled_by (en_pending e) (en_pending e') o).
Proof.
  intros Hkey Hok Hr. assert (sys_ok (w, e, mine)) as Hsys.
  { assert (sys_ok (w0, engine_new id None, [])) as H0 by (split_and!; [done|done|constructor]).
    revert H0. generalize dependent (w0, engine_new id None, @nil Attempt). intros x Hx.
    induction Hx as [|x y z Hs _ IH]; [done|]. intros H0. by eapply IH, engine_step_ok. }
  split; [intros a w' s' p; by apply lands_pending|]. destruct Hsys as (Hke & Hokw & Hm).
  intros polls w1 wr reload w3 request s2 e' flight o Hb Hsub Hb3.
  by destruct (submit_spec _ _ _ _ _ _ _ _ _ _ _ _ _ Hke Hokw Hb Hm Hsub Hb3) as [(_ & _ & _ & ?) _].
Qed.

(** A [read] that answers reports the version and the domain state of a
    serial history that is a prefix of the stream and contains every record accepted
    before the call, and it leaves nothing pending. *)
Theorem read_serial polls w0 w1 e e' version domain :
  key = stream_key (A := Ad) (en_id e) -> world_ok w0 -> call_between w0 polls w1 ->
  read (stores <$> polls) e = (e', Returns (Ok (version, domain))) ->
  en_pending e' = None /\
  exists recs all, records_of w1.1 all /\ recs `prefix_of` all /\ history (N := N) recs /\
    len (stream_of w0.1 key) <= len recs /\ version = head_version (len recs) /\ domain_of recs = Returns domain.
Proof.
  intros Hkey Hok Hb. destruct (call_between_ok _ _ _ Hok Hb) as [Hok1 _]. unfold read.
  destruct (engine_load (stores <$> polls) e) as [[root|x]|] eqn:Hl; [|done|done].
  destruct (load_spec _ _ _ _ _ Hkey Hok Hb Hl) as (recs & st & Hr & Hlen).
  destruct (world_records _ Hok1) as [all Hall].
  destruct (settle e root) as [e1 [[]|x]] eqn:Hset; [|done].
  destruct (settle_spec _ _ _ _ _ [] _ _ (ex_intro _ all Hall) Hr (Forall_nil_2 _) Hset) as (_ & _ & Hp).
  unfold state. rewrite (ro_state _ _ _ _ _ Hr). simpl. intros [= <- <- <-]. split; [done|].
  exists recs, all. split_and!; [done|by apply (ro_prefix _ _ _ _ _ Hr)|apply Hr|done|apply Hr|].
  apply (sm_domain _ _ (ro_matches _ _ _ _ _ Hr)).
Qed.

End engine.
