(* ===== verification/Host.v ===== *)
(** * The command host (crates/command/src/host.rs)

    A host runs one engine in a task of its own.  Callers reserve a place in its
    bounded queue, take the admission lock, and either enqueue their call or are
    refused; the task executes one call at a time.  A stop, the loss of every handle,
    a panic or an abort ends the task at its next await: it closes admission, rejects
    what is still queued, and leaves the engine's unsettled request for its successor.

    [host_step] is one atomic step of any task: a caller at its reservation or under
    the lock, a stop, or the worker.  Tracing and metrics do not affect it.  The
    engine is first any [EngineOps]; the last section takes the one of [Engine]. *)

From S2P Require Import Prelude Version Events Aggregate Value Wire Envelope.
From S2P Require Import RawStore Repository Execute Command Engine.

Inductive Lifecycle : Type := LRunning | LStopping.

#[export] Instance lifecycle_eq_dec : EqDecision Lifecycle.
Proof. solve_decision. Defined.

Section host.
Context {T : Target} {D C I E J St : Type} `{!EqDecision C, !EqDecision I} `{!Json J (Request C I)}.
Context (is_write_zero : J -> bool).

Notation CErr := (CommandError D I E J).

Record Limits : Type := MkLimits { limit_queue : NonZero usize_max; limit_operation : Z }.

(** ** Messages and replies *)

Inductive Message : Type :=
| MRetry (id : I)
| MSubmit (request : Request C I)
| MRead
| MOriginal (id : I).

Inductive Reply : Type :=
| RRetry (r : result (option (Receipt I)) CErr)
| RSubmit (r : result (Receipt I) CErr)
| RRead (r : result (option Version * St) CErr)
| ROriginal (r : result (option (Request C I)) CErr).

(** The reply of the kind a message asks for, with an error. *)
Definition fails (m : Message) (e : CErr) : Reply :=
  match m with
  | MRetry _ => RRetry (Err e)
  | MSubmit _ => RSubmit (Err e)
  | MRead => RRead (Err e)
  | MOriginal _ => ROriginal (Err e)
  end.

(** [Message::reject]. *)
Definition reject (m : Message) : Reply := fails m Closed.

(** What the caller makes of a reply, or of a reply that was dropped. *)
Definition received (m : Message) (reply : option Reply) : Reply :=
  match reply with
  | Some r => r
  | None =>
      match m with
      | MRetry id => fails m (Uncertain id None)
      | MSubmit request => fails m (Uncertain (rq_id request) None)
      | MRead | MOriginal _ => fails m Closed
      end
  end.

(** What is checked before a call is sent: [submit] and [call] validate. *)
Definition precheck (m : Message) : result () CErr :=
  match m with
  | MSubmit request => map_err RequestInvalid (request_validate is_write_zero request)
  | _ => Ok ()
  end.

(** ** The host *)

(** What a host needs of an engine: how it serves a message (no reply if it
    panics), what an aborted call leaves, what other tasks do meanwhile, and what it
    hands over when dropped. *)
Class EngineOps (G : Type) := {
  serves : G -> Message -> G -> option Reply -> Prop;
  interrupts : G -> Message -> G -> Prop;
  others : G -> G -> Prop;
  hands_over : G -> option (Request C I);
}.

Notation Call := (nat * Message)%type.

(** [try_reserve]. *)
Inductive Reservation : Type := Reserved | ReserveFull | ReserveClosed.

#[export] Instance reservation_eq_dec : EqDecision Reservation.
Proof. solve_decision. Defined.

(** Where the task is in [run] and in the drop of its inbox. *)
Inductive WorkerAt : Type :=
| AtTop
| AtSelect
| AtRecv
| AtCall (c : Call)
| AtExecute (c : Call)
| AtDrop
| AtClose
| AtDrain
| AtEnd.

Record Host (G : Type) : Type := MkHost {
  h_lifecycle : Lifecycle;
  h_queue : list Call;
  h_closed : bool;
  h_handles : bool;
  (** Calls between their reservation and the lock; permits held by services. *)
  h_between : list (Call * Reservation);
  h_ready : Z;
  h_worker : WorkerAt;
  h_engine : G;
  h_handoff : option (Request C I);
  (** Answers by call, [None] for a dropped reply; calls in the order they were
      admitted, and those the engine has started. *)
  h_answers : list (nat * option Reply);
  h_admitted : list Call;
  h_started : list Call;
}.
#[global] Arguments MkHost {G}.
#[global] Arguments h_lifecycle {G}.
#[global] Arguments h_queue {G}.
#[global] Arguments h_closed {G}.
#[global] Arguments h_handles {G}.
#[global] Arguments h_between {G}.
#[global] Arguments h_ready {G}.
#[global] Arguments h_worker {G}.
#[global] Arguments h_engine {G}.
#[global] Arguments h_handoff {G}.
#[global] Arguments h_answers {G}.
#[global] Arguments h_admitted {G}.
#[global] Arguments h_started {G}.

Context {G : Type}.

Definition host_new (g : G) : Host G :=
  MkHost LRunning [] false true [] 0 AtTop g None [] [] [].

(** [launch]: [max_permits] is the channel's limit, [runtime] whether there is one. *)
Definition launch (max_permits : Z) (runtime : bool) (limits : Limits) (g : G) : result (Host G) CErr :=
  if limit_operation limits =? 0 then Err DeadlineZero
  else if max_permits <? nz_get (limit_queue limits) then Err (QueueLimit (nz_get (limit_queue limits)) max_permits)
  else if negb runtime then Err Runtime
  else Ok (host_new g).

(** [Shutdown], and [resume] from it: [g] makes the engine of the request. *)
Record Shutdown : Type := MkShutdown { sd_stream : StreamKey; sd_uncertain : option (Request C I); sd_failed : bool }.

(** [Worker::poll]: the report of a task that has ended. *)
Definition worker_poll (stream : StreamKey) (failed : bool) (h : Host G) : Shutdown := MkShutdown stream (h_handoff h) failed.

Definition resume (max_permits : Z) (runtime : bool) (limits : Limits) (id : bytes) (g : option (Request C I) -> G)
  (shutdown : Shutdown) : result (Host G) CErr :=
  if negb (bool_decide (StreamKey.as_bytes (sd_stream shutdown) = id)) then Err Scope
  else
    let? _ := (match sd_uncertain shutdown with
               | Some request => map_err RequestInvalid (request_validate is_write_zero request)
               | None => Ok ()
               end) in
    launch max_permits runtime limits (g (sd_uncertain shutdown)).

(** A host is resumed only for its own stream, and as it would be launched. *)
Lemma resume_ok max_permits runtime limits id g shutdown h :
  resume max_permits runtime limits id g shutdown = Ok h ->
  StreamKey.as_bytes (sd_stream shutdown) = id /\ h = host_new (g (sd_uncertain shutdown)).
Proof.
  unfold resume. destruct (bool_decide_reflect (StreamKey.as_bytes (sd_stream shutdown) = id)) as [Hid|]; cbn [negb]; [|done].
  destruct (match sd_uncertain shutdown with Some _ => _ | None => _ end); [|done]. cbn. unfold launch.
  repeat (case_match; try done). intros [= <-]. by split.
Qed.

Context (capacity : Z).

Definition set_worker (h : Host G) (w : WorkerAt) : Host G :=
  MkHost (h_lifecycle h) (h_queue h) (h_closed h) (h_handles h) (h_between h) (h_ready h) w (h_engine h) (h_handoff h)
    (h_answers h) (h_admitted h) (h_started h).
Definition set_engine (h : Host G) (g : G) : Host G :=
  MkHost (h_lifecycle h) (h_queue h) (h_closed h) (h_handles h) (h_between h) (h_ready h) (h_worker h) g (h_handoff h)
    (h_answers h) (h_admitted h) (h_started h).
Definition set_lifecycle (h : Host G) (l : Lifecycle) : Host G :=
  MkHost l (h_queue h) (h_closed h) (h_handles h) (h_between h) (h_ready h) (h_worker h) (h_engine h) (h_handoff h)
    (h_answers h) (h_admitted h) (h_started h).
Definition set_queue (h : Host G) (q : list Call) : Host G :=
  MkHost (h_lifecycle h) q (h_closed h) (h_handles h) (h_between h) (h_ready h) (h_worker h) (h_engine h) (h_handoff h)
    (h_answers h) (h_admitted h) (h_started h).
Definition set_waiting (h : Host G) (between : list (Call * Reservation)) (ready : Z) : Host G :=
  MkHost (h_lifecycle h) (h_queue h) (h_closed h) (h_handles h) between ready (h_worker h) (h_engine h) (h_handoff h)
    (h_answers h) (h_admitted h) (h_started h).
Definition answer (h : Host G) (c : Call) (reply : option Reply) : Host G :=
  MkHost (h_lifecycle h) (h_queue h) (h_closed h) (h_handles h) (h_between h) (h_ready h) (h_worker h) (h_engine h) (h_handoff h)
    (h_answers h ++ [(c.1, reply)]) (h_admitted h) (h_started h).
Definition enqueue (h : Host G) (c : Call) : Host G :=
  MkHost (h_lifecycle h) (h_queue h ++ [c]) (h_closed h) (h_handles h) (h_between h) (h_ready h) (h_worker h) (h_engine h) (h_handoff h)
    (h_answers h) (h_admitted h ++ [c]) (h_started h).
Definition start (h : Host G) (c : Call) : Host G :=
  MkHost (h_lifecycle h) (h_queue h) (h_closed h) (h_handles h) (h_between h) (h_ready h) (AtExecute c) (h_engine h) (h_handoff h)
    (h_answers h) (h_admitted h) (h_started h ++ [c]).
Definition close (h : Host G) : Host G :=
  MkHost (h_lifecycle h) (h_queue h) true (h_handles h) (h_between h) (h_ready h) AtDrain (h_engine h) (h_handoff h)
    (h_answers h) (h_admitted h) (h_started h).
Definition drop_handles (h : Host G) : Host G :=
  MkHost (h_lifecycle h) (h_queue h) (h_closed h) false (h_between h) (h_ready h) (h_worker h) (h_engine h) (h_handoff h)
    (h_answers h) (h_admitted h) (h_started h).
Definition finish (h : Host G) (handoff : option (Request C I)) : Host G :=
  MkHost (h_lifecycle h) (h_queue h) (h_closed h) (h_handles h) (h_between h) (h_ready h) AtEnd (h_engine h) handoff
    (h_answers h) (h_admitted h) (h_started h).

(** ** Callers *)

Definition held (between : list (Call * Reservation)) : Z := len (filter (fun e => e.2 = Reserved) between).

(** Permits of the channel that nobody holds. *)
Definition free (h : Host G) : Z := capacity - len (h_queue h) - held (h_between h) - h_ready h.

Definition try_reserve (h : Host G) : Reservation :=
  if h_closed h then ReserveClosed else if 0 <? free h then Reserved else ReserveFull.

(** The end of [send], under the lock. *)
Definition send_locked (h : Host G) (c : Call) (r : Reservation) : Host G :=
  if negb (bool_decide (h_lifecycle h = LRunning)) then answer h c (Some (fails c.2 Closed))
  else
    match r with
    | Reserved => enqueue h c
    | ReserveFull => answer h c (Some (fails c.2 QueueFull))
    | ReserveClosed => answer h c (Some (fails c.2 Closed))
    end.

(** [stop]. *)
Definition stop (h : Host G) : Host G := set_lifecycle h LStopping.

(** ** The task *)

(** The tests of the lifecycle in [run]. *)
Definition run_top (h : Host G) : Host G :=
  set_worker h (if negb (bool_decide (h_lifecycle h = LRunning)) then AtDrop else AtSelect).

(** [stopping.changed()], which is polled first. *)
Definition run_select (h : Host G) : Host G :=
  set_worker h (if negb (bool_decide (h_lifecycle h = LRunning)) then AtDrop else AtRecv).

(** [recv]: a call, the end of the channel, or wait. *)
Definition run_recv (h : Host G) : Host G :=
  match h_queue h with
  | c :: q => set_worker (set_queue h q) (AtCall c)
  | [] => set_worker h (if h_closed h || negb (h_handles h) then AtDrop else AtSelect)
  end.

(** The call received is executed only while the host runs. *)
Definition run_call (h : Host G) (c : Call) : Host G :=
  if negb (bool_decide (h_lifecycle h = LRunning)) then set_worker (answer h c (Some (reject c.2))) AtDrop
  else start h c.

(** One rejection of [Inbox::drop], or the end of it and of the engine. *)
Definition drain (handoff : option (Request C I)) (h : Host G) : Host G :=
  match h_queue h with
  | c :: q => answer (set_queue h q) c (Some (reject c.2))
  | [] => finish h handoff
  end.

Context {EO : EngineOps G}.

(** A call is new if nobody has used its number. *)
Definition fresh (h : Host G) (n : nat) : Prop :=
  n ∉ (h_answers h).*1 /\ n ∉ (h_admitted h).*1 /\ n ∉ (h_between h).*1.*1.

Inductive host_step : Host G -> Host G -> Prop :=
| step_reserve h n m :
    h_handles h = true -> fresh h n -> precheck m = Ok () ->
    host_step h (set_waiting h (h_between h ++ [((n, m), try_reserve h)]) (h_ready h))
| step_admit h b1 c r b2 :
    h_between h = b1 ++ (c, r) :: b2 -> host_step h (send_locked (set_waiting h (b1 ++ b2) (h_ready h)) c r)
(** [poll_ready] finds the host running; it may have stopped when the permit comes. *)
| step_ready h :
    h_handles h = true -> try_reserve h = Reserved ->
    host_step h (set_waiting h (h_between h) (h_ready h + 1))
| step_abort_send h : 0 < h_ready h -> host_step h (set_waiting h (h_between h) (h_ready h - 1))
| step_service_call h n m :
    0 < h_ready h -> fresh h n -> precheck m = Ok () ->
    host_step h (send_locked (set_waiting h (h_between h) (h_ready h - 1)) (n, m) Reserved)
| step_stop h : host_step h (stop h)
| step_drop_handles h : h_between h = [] -> h_ready h = 0 -> host_step h (drop_handles h)
| step_top h : h_worker h = AtTop -> host_step h (run_top h)
| step_select h : h_worker h = AtSelect -> host_step h (run_select h)
| step_recv h : h_worker h = AtRecv -> host_step h (run_recv h)
| step_call h c : h_worker h = AtCall c -> host_step h (run_call h c)
| step_execute h c g reply :
    h_worker h = AtExecute c -> serves (h_engine h) c.2 g (Some reply) ->
    host_step h (set_worker (answer (set_engine h g) c (Some reply)) AtTop)
| step_panic h c g :
    h_worker h = AtExecute c -> serves (h_engine h) c.2 g None ->
    host_step h (set_worker (answer (set_engine h g) c None) AtDrop)
| step_abort h : h_worker h = AtTop \/ h_worker h = AtSelect \/ h_worker h = AtRecv -> host_step h (set_worker h AtDrop)
| step_abort_call h c g :
    h_worker h = AtExecute c -> interrupts (h_engine h) c.2 g ->
    host_step h (set_worker (answer (set_engine h g) c None) AtDrop)
| step_drop h : h_worker h = AtDrop -> host_step h (set_worker (stop h) AtClose)
| step_close h : h_worker h = AtClose -> host_step h (close h)
| step_drain h : h_worker h = AtDrain -> host_step h (drain (hands_over (h_engine h)) h)
| step_others h g : others (h_engine h) g -> host_step h (set_engine h g).

(** ** Correctness *)

Definition executing (h : Host G) : list Call := match h_worker h with AtExecute c => [c] | _ => [] end.
Definition in_hand (h : Host G) : list Call := match h_worker h with AtCall c => [c] | _ => [] end.

(** The engine, alone with the other tasks, serves [served] one after another; a
    call may be [lost] at the end. *)
Inductive runs (g0 : G) : list (Call * Reply) -> list Call -> G -> Prop :=
| runs_nil : runs g0 [] [] g0
| runs_served served g c g' r : runs g0 served [] g -> serves g c.2 g' (Some r) -> runs g0 (served ++ [(c, r)]) [] g'
| runs_lost served g c g' :
    runs g0 served [] g -> serves g c.2 g' None \/ interrupts g c.2 g' -> runs g0 served [c] g'
| runs_others served lost g g' : runs g0 served lost g -> others g g' -> runs g0 served lost g'.

(** The task is past its loop. *)
Definition past (w : WorkerAt) : Prop := match w with AtDrop | AtClose | AtDrain | AtEnd => True | _ => False end.
(** It has closed admission. *)
Definition closing (w : WorkerAt) : Prop := match w with AtClose | AtDrain | AtEnd => True | _ => False end.

Definition refusal (a : nat * option Reply) : Prop := exists m e, a.2 = Some (fails m e) /\ (e = Closed \/ e = QueueFull).

Context (hands_over_others : forall g g', others g g' -> hands_over g' = hands_over g).

Record host_inv (g0 : G) (h : Host G) (served : list (Call * Reply)) (lost rejected : list Call)
  (refused : list (nat * option Reply)) : Prop := MkHostInv {
  hi_admitted : h_admitted h = served.*1 ++ lost ++ executing h ++ rejected ++ in_hand h ++ h_queue h;
  hi_started : h_started h = served.*1 ++ lost ++ executing h;
  hi_runs : runs g0 served lost (h_engine h);
  hi_answers : h_answers h ≡ₚ ((fun e => (e.1.1, Some e.2)) <$> served) ++ ((fun c => (c.1, None)) <$> lost) ++
    ((fun c => (c.1, Some (reject c.2))) <$> rejected) ++ refused;
  hi_nodup : NoDup ((h_between h).*1.*1 ++ (h_admitted h).*1 ++ refused.*1);
  hi_refused : Forall refusal refused;
  hi_past : lost <> [] \/ rejected <> [] -> past (h_worker h);
  hi_closing : closing (h_worker h) -> h_lifecycle h = LStopping;
  hi_end : h_worker h = AtEnd -> h_queue h = [] /\ h_handoff h = hands_over (h_engine h);
  hi_bound : 0 <= h_ready h /\ len (h_queue h) + held (h_between h) + h_ready h <= capacity;
}.

Lemma held_app b1 b2 : held (b1 ++ b2) = held b1 + held b2.
Proof. unfold held. by rewrite filter_app, len_app. Qed.

Lemma held_one c r : held [(c, r)] = if decide (r = Reserved) then 1 else 0.
Proof. unfold held. rewrite filter_cons. cbn. by destruct (decide (r = Reserved)). Qed.

Lemma held_nonneg b : 0 <= held b.
Proof. apply len_nonneg. Qed.

Lemma not_past_none g0 h served lost rejected refused :
  host_inv g0 h served lost rejected refused -> ~ past (h_worker h) -> lost = [] /\ rejected = [].
Proof.
  intros Hi Hp. split.
  - destruct lost; [done|]. destruct Hp. apply Hi. by left.
  - destruct rejected; [done|]. destruct Hp. apply Hi. by right.
Qed.

Lemma host_new_inv g : 0 <= capacity -> host_inv g (host_new g) [] [] [] [].
Proof. intros. split; cbn; try done; [apply runs_nil|constructor|by intros [|]]. Qed.

(** A call under the lock. *)
Lemma admit_inv g0 h served lost rejected refused n m r b ready :
  host_inv g0 h served lost rejected refused -> n ∉ b.*1.*1 -> b.*1.*1 ⊆ (h_between h).*1.*1 -> NoDup b.*1.*1 ->
  n ∉ (h_admitted h).*1 -> n ∉ refused.*1 ->
  0 <= ready -> len (h_queue h) + held b + ready + (if decide (r = Reserved) then 1 else 0) <= capacity ->
  exists refused', host_inv g0 (send_locked (set_waiting h b ready) (n, m) r) served lost rejected refused'.
Proof.
  intros [H1 H2 H3 H4 H5 H6 H7 H8 H9 H10] Hb Hsub Hnb Hna Hnr Hready Hcap.
  apply NoDup_app in H5 as (_ & Hdis & H5). apply NoDup_app in H5 as (Hnd & Hdis2 & Hndr).
  assert (forall e, e = Closed \/ e = QueueFull ->
    host_inv g0 (answer (set_waiting h b ready) (n, m) (Some (fails m e))) served lost rejected (refused ++ [(n, Some (fails m e))])) as Hans.
  { intros e He. split; cbn; try done.
    - rewrite H4. rewrite <- !app_assoc. done.
    - rewrite fmap_app. apply NoDup_app. split; [done|]. split.
      + intros x Hx. rewrite !elem_of_app. specialize (Hdis x (Hsub x Hx)). rewrite elem_of_app in Hdis. cbn. set_solver.
      + apply NoDup_app. split; [done|]. split; [|apply NoDup_app; split; [done|]; split; [set_solver|apply NoDup_singleton]].
        intros x Hx. specialize (Hdis2 x Hx). rewrite elem_of_app. cbn. set_solver.
    - apply Forall_app. split; [done|]. constructor; [|done]. by exists m, e.
    - destruct (decide (r = Reserved)); lia. }
  unfold send_locked. cbn [h_lifecycle set_waiting snd]. destruct (bool_decide_reflect (h_lifecycle h = LRunning)) as [Hrun|]; cbn [negb]; [|by eexists; apply Hans; left].
  destruct r; [|by eexists; apply Hans; right|by eexists; apply Hans; left].
  exists refused. split; cbn; try done.
  - rewrite H1. unfold executing, in_hand. cbn. by rewrite <- !app_assoc.
  - rewrite fmap_app. apply NoDup_app. split; [done|]. split.
    + intros x Hx. specialize (Hdis x (Hsub x Hx)). rewrite elem_of_app in Hdis. rewrite !elem_of_app. cbn. set_solver.
    + rewrite <- app_assoc. apply NoDup_app. split; [done|]. split; [|apply NoDup_app; split; [apply NoDup_singleton|]; split; [set_solver|done]].
      intros x Hx. specialize (Hdis2 x Hx). rewrite elem_of_app. cbn. set_solver.
  - intros Hw. destruct (H9 Hw) as [_ ?]. exfalso. assert (h_lifecycle h = LStopping) by (apply H8; by rewrite Hw). congruence.
  - rewrite len_app. change (len [(n, m)]) with 1. rewrite decide_True in Hcap by done. lia.
Qed.

Definition host_ok (g0 : G) (h : Host G) : Prop := exists served lost rejected refused, host_inv g0 h served lost rejected refused.

Lemma fresh_refused g0 h served lost rejected refused n :
  host_inv g0 h served lost rejected refused -> fresh h n -> n ∉ refused.*1.
Proof.
  intros Hi (Hn & _). rewrite (hi_answers _ _ _ _ _ _ Hi), !fmap_app, !elem_of_app in Hn. naive_solver.
Qed.

(** Callers. *)
Lemma reserve_ok g0 h n m :
  host_ok g0 h -> fresh h n -> host_ok g0 (set_waiting h (h_between h ++ [((n, m), try_reserve h)]) (h_ready h)).
Proof.
  intros (served & lost & rejected & refused & Hi) Hf. pose proof (fresh_refused _ _ _ _ _ _ _ Hi Hf) as Hnr.
  exists served, lost, rejected, refused. destruct Hf as (_ & Hna & Hnb). destruct Hi as [H1 H2 H3 H4 H5 H6 H7 H8 H9 H10].
  split; cbn; try done.
  - rewrite !fmap_app. rewrite <- app_assoc. apply NoDup_app in H5 as (? & Hdis & H5). apply NoDup_app. split; [done|]. split.
    + intros x Hx. specialize (Hdis x Hx). cbn. set_solver.
    + cbn. constructor; [|done]. rewrite elem_of_app. naive_solver.
  - rewrite held_app, held_one. unfold try_reserve. destruct (h_closed h); [rewrite decide_False by done; lia|].
    destruct (Z.ltb_spec 0 (free h)) as [Hfree|]; [|rewrite decide_False by done; lia]. unfold free in Hfree.
    rewrite decide_True by done. lia.
Qed.

Lemma NoDup_remove_middle {A} (l1 l2 : list A) x : NoDup (l1 ++ x :: l2) -> NoDup (l1 ++ l2) /\ x ∉ l1 ++ l2.
Proof.
  intros H. assert (NoDup (x :: l1 ++ l2)) as Hx by (by rewrite Permutation_middle). by apply NoDup_cons in Hx as [? ?].
Qed.

Lemma admit_ok g0 h b1 n m r b2 :
  host_ok g0 h -> h_between h = b1 ++ ((n, m), r) :: b2 -> host_ok g0 (send_locked (set_waiting h (b1 ++ b2) (h_ready h)) (n, m) r).
Proof.
  intros (served & lost & rejected & refused & Hi) Hb. pose proof Hi as [_ _ _ _ H5 _ _ _ _ H10].
  rewrite Hb in H5, H10. rewrite !fmap_app, !fmap_cons in H5. cbn [fst] in H5. apply NoDup_app in H5 as (Hnb & Hdis & _).
  destruct (NoDup_remove_middle _ _ _ Hnb) as [Hnb' Hn]. specialize (Hdis n ltac:(set_solver)). rewrite elem_of_app in Hdis.
  change (((n, m), r) :: b2) with ([((n, m), r)] ++ b2) in H10. rewrite !held_app, held_one in H10.
  destruct (admit_inv g0 h served lost rejected refused n m r (b1 ++ b2) (h_ready h)) as [refused' H]; try done; rewrite ?fmap_app, ?held_app; try done.
  - rewrite Hb, !fmap_app, !fmap_cons. set_solver.
  - naive_solver.
  - naive_solver.
  - lia.
  - lia.
  - by exists served, lost, rejected, refused'.
Qed.

Lemma service_call_ok g0 h n m :
  host_ok g0 h -> 0 < h_ready h -> fresh h n -> host_ok g0 (send_locked (set_waiting h (h_between h) (h_ready h - 1)) (n, m) Reserved).
Proof.
  intros (served & lost & rejected & refused & Hi) Hr Hf. pose proof (fresh_refused _ _ _ _ _ _ _ Hi Hf) as Hnr. destruct Hf as (_ & Hna & Hnb).
  pose proof Hi as [_ _ _ _ H5 _ _ _ _ H10]. apply NoDup_app in H5 as (? & _ & _).
  destruct (admit_inv g0 h served lost rejected refused n m Reserved (h_between h) (h_ready h - 1)) as [refused' H']; try done; try lia.
  - rewrite decide_True by done. lia.
  - by exists served, lost, rejected, refused'.
Qed.

Lemma ready_ok g0 h ready :
  host_ok g0 h -> 0 <= ready -> (h_ready h < ready -> ready = h_ready h + 1 /\ 0 < free h) -> host_ok g0 (set_waiting h (h_between h) ready).
Proof.
  intros (served & lost & rejected & refused & [H1 H2 H3 H4 H5 H6 H7 H8 H9 H10]) H0 Hr. exists served, lost, rejected, refused.
  split; cbn; try done. unfold free in Hr. lia.
Qed.

Lemma stop_inv g0 h served lost rejected refused :
  host_inv g0 h served lost rejected refused -> host_inv g0 (stop h) served lost rejected refused.
Proof. intros [H1 H2 H3 H4 H5 H6 H7 H8 H9 H10]. by split. Qed.

(** ** The task *)

(** A move of the task that takes or leaves no call. *)
Lemma worker_moves g0 h w served lost rejected refused :
  host_inv g0 h served lost rejected refused -> executing h = [] -> in_hand h = [] ->
  match w with AtExecute _ | AtCall _ | AtEnd => False | _ => True end -> (past (h_worker h) -> past w) ->
  (closing w -> h_lifecycle h = LStopping) -> host_inv g0 (set_worker h w) served lost rejected refused.
Proof.
  intros [H1 H2 H3 H4 H5 H6 H7 H8 H9 H10] He Hh Hw Hp Hc. rewrite He in *. rewrite Hh in *.
  assert (executing (set_worker h w) = [] /\ in_hand (set_worker h w) = [] /\ w <> AtEnd) as (Ee & Eh & Ene) by (by destruct w).
  split; rewrite ?Ee, ?Eh; cbn; try done. intros Hx. by apply Hp, H7.
Qed.

Lemma recv_ok g0 h : host_ok g0 h -> h_worker h = AtRecv -> host_ok g0 (run_recv h).
Proof.
  intros (served & lost & rejected & refused & Hi) Hw. exists served, lost, rejected, refused.
  assert (executing h = [] /\ in_hand h = []) as [He Hh] by (unfold executing, in_hand; by rewrite Hw).
  unfold run_recv. destruct (h_queue h) as [|c q] eqn:Hq.
  - apply worker_moves; try done; try (by rewrite Hw); by destruct (_ || _).
  - destruct Hi as [H1 H2 H3 H4 H5 H6 H7 H8 H9 H10]. rewrite He, Hh, Hq in *. rewrite Hw in *.
    split; cbn; try done. rewrite len_cons in H10. lia.
Qed.

Lemma call_ok g0 h c : host_ok g0 h -> h_worker h = AtCall c -> host_ok g0 (run_call h c).
Proof.
  intros (served & lost & rejected & refused & Hi) Hw.
  destruct (not_past_none _ _ _ _ _ _ Hi) as [-> ->]; [rewrite Hw; by intros []|].
  destruct Hi as [H1 H2 H3 H4 H5 H6 H7 H8 H9 H10]. unfold executing, in_hand in *. rewrite Hw in *. cbn [app] in *.
  unfold run_call. destruct (bool_decide_reflect (h_lifecycle h = LRunning)) as [Hrun|]; cbn [negb].
  - exists served, [], [], refused. split; cbn; try done. rewrite H2. by rewrite app_nil_r.
  - exists served, [], [c], refused. split; cbn; try done. rewrite H4. cbn. rewrite <- app_assoc. f_equiv.
    apply (Permutation_app_comm refused [_]).
Qed.

(** The end of an execution, with a reply or without. *)
Lemma executed_ok g0 h c g (r : option Reply) w :
  host_ok g0 h -> h_worker h = AtExecute c ->
  match r with
  | Some reply => serves (h_engine h) c.2 g (Some reply) /\ w = AtTop
  | None => (serves (h_engine h) c.2 g None \/ interrupts (h_engine h) c.2 g) /\ w = AtDrop
  end ->
  host_ok g0 (set_worker (answer (set_engine h g) c r) w).
Proof.
  intros (served & lost & rejected & refused & Hi) Hw Hr.
  destruct (not_past_none _ _ _ _ _ _ Hi) as [-> ->]; [rewrite Hw; by intros []|].
  destruct Hi as [H1 H2 H3 H4 H5 H6 H7 H8 H9 H10]. unfold executing, in_hand in *. rewrite Hw in *. cbn [app] in *.
  destruct r as [reply|]; destruct Hr as [Hs ->].
  - exists (served ++ [(c, reply)]), [], [], refused. split; cbn; try done.
    + rewrite H1, fmap_app. cbn. by rewrite <- app_assoc.
    + rewrite H2, fmap_app. cbn. by rewrite app_nil_r.
    + by eapply runs_served.
    + rewrite H4, fmap_app. cbn. rewrite <- !app_assoc. f_equiv. apply (Permutation_app_comm refused [_]).
  - exists served, [c], [], refused. split; cbn; try done.
    + by eapply runs_lost.
    + rewrite H4. cbn. rewrite <- app_assoc. f_equiv. apply (Permutation_app_comm refused [_]).
Qed.

Lemma drain_ok g0 h : host_ok g0 h -> h_worker h = AtDrain -> host_ok g0 (drain (hands_over (h_engine h)) h).
Proof.
  intros (served & lost & rejected & refused & [H1 H2 H3 H4 H5 H6 H7 H8 H9 H10]) Hw. unfold drain.
  unfold executing, in_hand in *. rewrite Hw in *. cbn [app] in *. destruct (h_queue h) as [|c q] eqn:Hq.
  - exists served, lost, rejected, refused. split; cbn; rewrite ?Hq; try done.
  - exists served, lost, (rejected ++ [c]), refused. split; unfold executing, in_hand; cbn; rewrite ?Hw; try done.
    + rewrite H1. cbn. by rewrite <- !app_assoc.
    + rewrite H4, fmap_app. cbn. rewrite <- !app_assoc. do 3 f_equiv. apply (Permutation_app_comm refused [_]).
    + rewrite len_cons in H10. lia.
Qed.

Lemma close_ok g0 h : host_ok g0 h -> h_worker h = AtClose -> host_ok g0 (close h).
Proof.
  intros (served & lost & rejected & refused & [H1 H2 H3 H4 H5 H6 H7 H8 H9 H10]) Hw. exists served, lost, rejected, refused.
  unfold executing, in_hand in *. rewrite Hw in *. split; unfold executing, in_hand; cbn; try done.
Qed.

Lemma others_ok g0 h g : host_ok g0 h -> others (h_engine h) g -> host_ok g0 (set_engine h g).
Proof using hands_over_others.
  intros (served & lost & rejected & refused & [H1 H2 H3 H4 H5 H6 H7 H8 H9 H10]) Ho. exists served, lost, rejected, refused.
  split; cbn; try done; [by eapply runs_others|]. intros Hw. destruct (H9 Hw) as [? ->]. split; [done|]. symmetry. by apply hands_over_others.
Qed.

Lemma host_step_ok g0 h h' : host_ok g0 h -> host_step h h' -> host_ok g0 h'.
Proof using hands_over_others.
  intros Hok Hs.
  assert (forall w, executing h = [] -> in_hand h = [] -> match w with AtExecute _ | AtCall _ | AtEnd => False | _ => True end ->
    (past (h_worker h) -> past w) -> (closing w -> h_lifecycle h = LStopping) -> host_ok g0 (set_worker h w)) as Hmove.
  { intros w ? ? ? ? ?. destruct Hok as (served & lost & rejected & refused & Hi). exists served, lost, rejected, refused. by apply worker_moves. }
  destruct Hs as [h n m|h b1 [n m] r b2 Hb|h|h|h n m|h|h|h Hw|h Hw|h Hw|h c Hw|h c g reply Hw|h c g Hw|h Hw|h c g Hw|h Hw|h Hw|h Hw|h g].
  - by apply reserve_ok.
  - by apply admit_ok.
  - pose proof Hok as (? & ? & ? & ? & [_ _ _ _ _ _ _ _ _ Hb]). apply ready_ok; [done|lia|]. intros _. split; [done|].
    unfold try_reserve in *. destruct (h_closed h); [done|]. by destruct (Z.ltb_spec 0 (free h)).
  - pose proof Hok as (? & ? & ? & ? & [_ _ _ _ _ _ _ _ _ Hb]). apply ready_ok; [done|lia|lia].
  - by apply service_call_ok.
  - destruct Hok as (served & lost & rejected & refused & Hi). exists served, lost, rejected, refused. by apply stop_inv.
  - destruct Hok as (served & lost & rejected & refused & [H1 H2 H3 H4 H5 H6 H7 H8 H9 H10]). by exists served, lost, rejected, refused.
  - unfold run_top. destruct (negb _); apply Hmove; unfold executing, in_hand; by rewrite ?Hw.
  - unfold run_select. destruct (negb _); apply Hmove; unfold executing, in_hand; by rewrite ?Hw.
  - by apply recv_ok.
  - by apply call_ok.
  - by apply executed_ok.
  - apply executed_ok; [done|done|]. split; [by left|done].
  - apply Hmove; unfold executing, in_hand; destruct Hw as [Hw|[Hw|Hw]]; rewrite ?Hw; done.
  - apply executed_ok; [done|done|]. split; [by right|done].
  - destruct Hok as (served & lost & rejected & refused & Hi). exists served, lost, rejected, refused.
    apply worker_moves; [by apply stop_inv|unfold executing, in_hand; cbn; by rewrite Hw..|done|cbn; by rewrite Hw|done].
  - by apply close_ok.
  - by apply drain_ok.
  - by apply others_ok.
Qed.

Lemma host_reachable_ok g0 h : 0 <= capacity -> rtc host_step (host_new g0) h -> host_ok g0 h.
Proof using hands_over_others.
  intros Hc Hr. assert (host_ok g0 (host_new g0)) as H0 by (exists [], [], [], []; by apply host_new_inv).
  revert H0. induction Hr as [|x y z Hs _ IH]; [done|]. intros H0. by eapply IH, host_step_ok.
Qed.

(** C17: a host serves the calls it admits one at a time, in the order it admitted
    them, and answers every one.  Whatever callers, stops, panics and aborts do and
    in whatever order: the calls admitted are those the engine has served, each
    answered with the engine's own reply; at most one whose reply was lost because
    the task ended during it; the one executing; those rejected as closed, which
    never ran; and those still queued, no more than the queue's capacity.  No call
    is answered twice, and a call refused at admission never ran either.  When the
    task has ended nothing is left queued, and the request the engine had not
    settled is handed over. *)
Theorem host_serves_in_order g0 h :
  0 <= capacity -> rtc host_step (host_new g0) h ->
  exists served lost rejected refused,
    h_admitted h = served.*1 ++ lost ++ executing h ++ rejected ++ in_hand h ++ h_queue h /\
    h_started h = served.*1 ++ lost ++ executing h /\
    runs g0 served lost (h_engine h) /\
    h_answers h ≡ₚ ((fun e => (e.1.1, Some e.2)) <$> served) ++ ((fun c => (c.1, None)) <$> lost) ++
      ((fun c => (c.1, Some (reject c.2))) <$> rejected) ++ refused /\
    NoDup ((h_admitted h).*1 ++ refused.*1) /\ Forall refusal refused /\ len (h_queue h) <= capacity /\
    (h_worker h = AtEnd -> h_admitted h = served.*1 ++ lost ++ rejected /\ h_handoff h = hands_over (h_engine h)).
Proof using hands_over_others.
  intros Hc Hr. destruct (host_reachable_ok g0 h Hc Hr) as (served & lost & rejected & refused & [H1 H2 H3 H4 H5 H6 H7 H8 H9 H10]).
  exists served, lost, rejected, refused. apply NoDup_app in H5 as (_ & _ & H5).
  split; [done|]. split; [done|]. split; [done|]. split; [done|]. split; [done|]. split; [done|].
  pose proof (held_nonneg (h_between h)). split; [lia|]. intros Hw. destruct (H9 Hw) as [Hq Hh]. split; [|done].
  rewrite H1, Hq. unfold executing, in_hand. rewrite Hw. cbn. by rewrite app_nil_r.
Qed.

(** ** Stopping *)

(** One step of the task, when no call is executing. *)
Definition worker_next (h : Host G) : Host G :=
  match h_worker h with
  | AtTop => run_top h
  | AtSelect => run_select h
  | AtRecv => run_recv h
  | AtCall c => run_call h c
  | AtDrop => set_worker (stop h) AtClose
  | AtClose => close h
  | AtDrain => drain (hands_over (h_engine h)) h
  | AtExecute _ | AtEnd => h
  end.

Lemma worker_next_step h : executing h = [] -> h_worker h <> AtEnd -> host_step h (worker_next h).
Proof.
  unfold executing, worker_next. destruct (h_worker h) as [| | |c|c| | | |] eqn:Hw; intros He Hne; try done;
    [by apply step_top|by apply step_select|by apply step_recv|by apply step_call|by apply step_drop|by apply step_close|by apply step_drain].
Qed.

(** The steps a stopping task still has to make. *)
Definition steps_left (h : Host G) : nat :=
  match h_worker h with
  | AtEnd => 0
  | AtDrain => length (h_queue h) + 1
  | AtClose => length (h_queue h) + 2
  | AtDrop => length (h_queue h) + 3
  | AtRecv => length (h_queue h) + 5
  | _ => length (h_queue h) + 4
  end.

Lemma worker_next_stops h :
  h_lifecycle h = LStopping -> executing h = [] -> h_worker h <> AtEnd ->
  h_lifecycle (worker_next h) = LStopping /\ executing (worker_next h) = [] /\ (steps_left (worker_next h) < steps_left h)%nat.
Proof.
  intros Hl He Hne. unfold steps_left, worker_next. unfold executing in He.
  destruct (h_worker h) as [| | |c|c| | | |] eqn:Hw; try done; unfold run_top, run_select, run_recv, run_call, drain; rewrite ?Hl;
    rewrite ?bool_decide_false by done; cbn; try (unfold executing; cbn; split; [done|split; [done|lia]]).
  - destruct (h_queue h) as [|c q] eqn:Hq; cbn; [|rewrite ?Hl; unfold executing; cbn; split; [done|split; [done|lia]]].
    destruct (h_closed h || negb (h_handles h)); cbn; rewrite Hq; unfold executing; cbn; (split; [done|split; [done|lia]]).
  - destruct (h_queue h) as [|c q] eqn:Hq; cbn; rewrite ?Hw, ?Hq; unfold executing; cbn; rewrite ?Hw; (split; [done|split; [done|cbn; lia]]).
Qed.

(** Once a host is told to stop, and no call is executing, its task ends after
    finitely many steps of its own, at most five more than there are queued calls,
    and it needs nobody else for it. *)
Theorem host_stops h :
  h_lifecycle h = LStopping -> executing h = [] -> h_worker (Nat.iter (length (h_queue h) + 5) worker_next h) = AtEnd.
Proof.
  intros Hl He. assert (forall n h', h_lifecycle h' = LStopping -> executing h' = [] -> (steps_left h' <= n)%nat ->
    h_worker (Nat.iter n worker_next h') = AtEnd) as Hrun.
  { intros n. induction n as [|n IH]; intros h' Hl' He' Hn.
    - unfold steps_left in Hn. unfold executing in He'. cbn. destruct (h_worker h'); try done; lia.
    - rewrite Nat.iter_succ_r. assert (h_worker h' = AtEnd \/ h_worker h' <> AtEnd) as [Hw|Hne] by (destruct (h_worker h'); auto).
      + assert (worker_next h' = h') as -> by (unfold worker_next; by rewrite Hw). apply IH; try done. unfold steps_left. rewrite Hw. lia.
      + destruct (worker_next_stops h' Hl' He' Hne) as (? & ? & ?). apply IH; try done. lia. }
  apply Hrun; try done. unfold steps_left. destruct (h_worker h); lia.
Qed.

End host.

(** ** The host of the command engine *)

Section engine_host.
Context {T : Target} {A : Aggregate} {C I : Type} {N : Z} {HA : Handle A C N}.
Context `{!EqDecision C, !EqDecision I, !Countable I, !EqDecision Event}.
Context {J : Type} (is_write_zero : J -> bool) `{!Json J (AcceptanceRecord C I Event), !Json J (Request C I)}.
Context {S : Type} {R : RawEventStore S} {RS : RawEventStoreSpec S} (key : StreamKey).

Notation CErr := (CommandError (@AError T A) I (SError S) J).
Notation World := (S * list Attempt)%type.
Notation Sys := (World * Engine (A := A) (C := C) (I := I) * list Attempt)%type.
Notation Message := (Message (C := C) (I := I)).
Notation Reply := (Reply (D := @AError T A) (C := C) (I := I) (E := SError S) (J := J) (St := @State T A)).

(** The reply sent, unless the engine panics. *)
Definition replied {V} (reply : result V CErr -> Reply) (o : outcome V CErr) : option Reply :=
  match o with Returns r => Some (reply r) | Panics => None end.

(** [Call::execute]: one call of the engine with everything that happens during it. *)
Inductive engine_serves : Sys -> Message -> Sys -> option Reply -> Prop :=
| serves_submit w0 polls w1 wr reload w3 e request s2 e' flight o mine :
    call_between key w0 polls w1 ->
    submit is_write_zero (N := N) (MkRun (stores <$> polls) w1.1 wr (stores <$> reload)) e request = (s2, e', flight, o) ->
    call_between key (s2, flight ++ w1.2) reload w3 ->
    engine_serves (w0, e, mine) (MSubmit request) (w3, e', flight ++ mine) (replied RSubmit o)
| serves_retry w0 polls w1 polls' w2 wr reload w4 e id s3 e' flight o mine :
    call_between key w0 polls w1 -> call_between key w1 polls' w2 ->
    retry is_write_zero (N := N) (stores <$> polls) (MkRun (stores <$> polls') w2.1 wr (stores <$> reload)) e id = (s3, e', flight, o) ->
    call_between key (s3, flight ++ w2.2) reload w4 ->
    engine_serves (w0, e, mine) (MRetry id) (w4, e', flight ++ mine) (replied RRetry o)
| serves_read w0 polls w1 e e' o mine :
    call_between key w0 polls w1 -> read is_write_zero (N := N) (stores <$> polls) e = (e', o) ->
    engine_serves (w0, e, mine) MRead (w1, e', mine) (replied RRead o)
| serves_original w0 polls w1 e id e' o mine :
    call_between key w0 polls w1 -> original is_write_zero (N := N) (stores <$> polls) e id = (e', o) ->
    engine_serves (w0, e, mine) (MOriginal id) (w1, e', mine) (replied ROriginal o).

(** A call is aborted at an await: of a load, of the append, or of the second load.
    It leaves the engine as a call does whose deadline passes there. *)
Definition engine_interrupts (x : Sys) (m : Message) (y : Sys) : Prop := exists r, engine_serves x m y r.

Inductive engine_others : Sys -> Sys -> Prop :=
| others_move w w' e mine : rtc (move (N := N) (A := A) (C := C) (I := I) key) w w' -> engine_others (w, e, mine) (w', e, mine).

#[local] Instance engine_ops : EngineOps (D := @AError T A) (C := C) (I := I) (E := SError S) (J := J) (St := @State T A) Sys := {|
  serves := engine_serves;
  interrupts := engine_interrupts;
  others := engine_others;
  hands_over x := engine_drop x.1.2;
|}.

Lemma hands_over_moved (x y : Sys) : engine_others x y -> engine_drop y.1.2 = engine_drop x.1.2.
Proof. by intros []. Qed.

Lemma serves_step x m y r : engine_serves x m y r -> engine_step is_write_zero key (N := N) x y.
Proof. intros []; [by eapply es_submit|by eapply es_retry|by eapply es_read|by eapply es_original]. Qed.

Lemma runs_ok g0 served lost g : sys_ok (N := N) key g0 -> runs g0 served lost g -> sys_ok (N := N) key g.
Proof.
  intros H0. induction 1 as [|served g c g' r _ IH Hs|served g c g' _ IH [Hs|[r Hs]]|served lost g g' _ IH Ho]; [done|..].
  - exact (engine_step_ok is_write_zero key (N := N) _ _ IH (serves_step _ _ _ _ Hs)).
  - exact (engine_step_ok is_write_zero key (N := N) _ _ IH (serves_step _ _ _ _ Hs)).
  - exact (engine_step_ok is_write_zero key (N := N) _ _ IH (serves_step _ _ _ _ Hs)).
  - apply (engine_step_ok is_write_zero key (N := N) _ _ IH). destruct Ho. by apply es_others.
Qed.

(** C16: a host that ends, however it ends, forgets no write.  Every append that its
    engine, or an engine before it, ever handed to the store and that can still land
    carries the request the host hands over; with nothing handed over, none can.  A
    host is resumed from its report only for the same stream, with an empty queue and
    an engine that holds exactly that request; it satisfies what this one started
    with, so this holds over any number of restarts. *)
Theorem host_forgets_no_write capacity w0 e0 mine0 (h : Host Sys) w e mine :
  0 <= capacity -> sys_ok (N := N) key (w0, e0, mine0) ->
  rtc (host_step (D := @AError T A) (E := SError S) (J := J) (St := @State T A) is_write_zero capacity) (host_new (w0, e0, mine0)) h ->
  h_worker h = AtEnd -> h_engine h = (w, e, mine) ->
  (forall a w' s' p, a ∈ mine -> rtc (move (N := N) (A := A) (C := C) (I := I) key) w w' ->
     append w'.1 key (at_expected a) (at_batch a) = (s', Returns (Ok p)) ->
     exists r pe, PendingBatch.iter (at_batch a) = [pe] /\ pending_record pe = Ok r /\ h_handoff h = Some (ar_request r)) /\
  (forall max_permits runtime limits failed id (h' : Host Sys),
     resume (D := @AError T A) (E := SError S) (J := J) (St := @State T A) is_write_zero max_permits runtime limits (id_as_ref id) (fun pending => (w, engine_new id pending, mine))
       (worker_poll key failed h) = Ok h' ->
     h' = host_new (w, engine_new id (h_handoff h), mine) /\ sys_ok (N := N) key (h_engine h')).
Proof.
  intros Hc H0 Hr Hw Hg.
  destruct (host_reachable_ok (EO := engine_ops) is_write_zero capacity hands_over_moved _ h Hc Hr) as (served & lost & rejected & refused & Hi).
  pose proof (runs_ok _ _ _ _ H0 (hi_runs _ _ _ _ _ _ _ Hi)) as Hok. destruct (hi_end _ _ _ _ _ _ _ Hi Hw) as [_ Hh].
  rewrite Hg in Hok, Hh. cbn in Hh. rewrite Hh. split; [intros a w' s' p Hin Hmv Happ; by eapply lands_pending|].
  intros mp rt limits failed id h' Hres. apply resume_ok in Hres as [Hid ->]. cbn in Hid. unfold worker_poll. cbn. rewrite Hh.
  split; [done|]. destruct Hok as (_ & Hw' & Hp). split; [|done]. unfold stream_key, StreamKey.from_slice. cbn. rewrite <- Hid. by destruct key.
Qed.

End engine_host.
