(* ===== verification/WireKey.v ===== *)
(** * Fjall key codecs (adapters/fjall/src/wire_key.rs, limits.rs)

    The byte layouts of the embedded store's keys and counters, and the order the
    storage engine keeps them in.  A partition is sorted by the bytes of its keys,
    so what makes a range scan read one stream in version order is a fact about
    the encoding: the byte order of two event keys is the order of their (length,
    id, version) triples. *)

From S2P Require Import Prelude Wire.

(** ** Limits *)

Definition MAX_KEY_LEN : Z := 65535.
Definition MAX_STREAM_ID_LEN : Z := MAX_KEY_LEN - 18.

(** ** Big-endian integers *)

(** [to_be_bytes] and [from_be_bytes] at [n] bytes. *)
Definition to_be_bytes (n : nat) (z : Z) : bytes := reverse (to_le_bytes n z).
Definition from_be_bytes (b : bytes) : Z := from_le_bytes (reverse b).

(** ** Codecs *)

Inductive KeyDecodeError : Type :=
| KeyInvalidSize (expected actual : Z)
| KeyValueTooShort (min actual : Z).

Inductive KeyEncodeError : Type :=
| IdTooLong (id_len max : Z).

Definition EVENT_KEY_HEADER_SIZE : Z := 2.
Definition EVENT_KEY_VERSION_SIZE : Z := 8.
Definition STREAM_VERSION_SIZE : Z := 8.

Definition event_key_size (id_len : Z) : Z := EVENT_KEY_HEADER_SIZE + id_len + EVENT_KEY_VERSION_SIZE.

Definition checked_id_len (n max : Z) : result Z KeyEncodeError :=
  if max <? n then Err (IdTooLong n max) else ok_or (try_from u16_max n) (IdTooLong n max).

Definition encode_event_key (id_bytes : bytes) (version : Z) : result bytes KeyEncodeError :=
  let max := MAX_KEY_LEN - EVENT_KEY_HEADER_SIZE - EVENT_KEY_VERSION_SIZE in
  let? id_len_u16 := checked_id_len (len id_bytes) max in
  Ok (to_be_bytes 2 id_len_u16 ++ id_bytes ++ to_be_bytes 8 version).

Definition decode_event_key (key : bytes) : result (bytes * Z) KeyDecodeError :=
  if len key <? EVENT_KEY_HEADER_SIZE then Err (KeyValueTooShort EVENT_KEY_HEADER_SIZE (len key))
  else
    let id_len := from_be_bytes (slice key 0 2) in
    let expected_total := event_key_size id_len in
    if negb (len key =? expected_total) then Err (KeyInvalidSize expected_total (len key))
    else
      let id_bytes := slice key EVENT_KEY_HEADER_SIZE (EVENT_KEY_HEADER_SIZE + id_len) in
      let version_start := EVENT_KEY_HEADER_SIZE + id_len in
      Ok (id_bytes, from_be_bytes (slice key version_start (version_start + 8))).

Definition GLOBAL_KEY_PREFIX_SIZE : Z := 8 + 2.
Definition GLOBAL_KEY_VERSION_SIZE : Z := 8.

Definition encode_global_key (global_seq : Z) (id : bytes) (version : Z) : result bytes KeyEncodeError :=
  let? id_len := checked_id_len (len id) MAX_STREAM_ID_LEN in
  Ok (to_be_bytes 8 global_seq ++ to_be_bytes 2 id_len ++ id ++ to_be_bytes 8 version).

Definition decode_global_key {T : Target} (key : bytes) : result (Z * bytes * Z) KeyDecodeError :=
  let min := GLOBAL_KEY_PREFIX_SIZE + GLOBAL_KEY_VERSION_SIZE in
  if len key <? min then Err (KeyValueTooShort min (len key))
  else
    let global_seq := from_be_bytes (slice key 0 8) in
    let id_len := from_be_bytes (slice key 8 10) in
    let? expected_total := ok_or
      (match checked_add usize_max GLOBAL_KEY_PREFIX_SIZE id_len with
       | Some n => checked_add usize_max n GLOBAL_KEY_VERSION_SIZE
       | None => None
       end) (KeyInvalidSize usize_max (len key)) in
    if negb (len key =? expected_total) then Err (KeyInvalidSize expected_total (len key))
    else
      let id_bytes := slice key GLOBAL_KEY_PREFIX_SIZE (GLOBAL_KEY_PREFIX_SIZE + id_len) in
      let version_start := GLOBAL_KEY_PREFIX_SIZE + id_len in
      Ok (global_seq, id_bytes, from_be_bytes (slice key version_start (version_start + 8))).

Definition encode_stream_version (version : Z) : bytes := to_le_bytes 8 version.

Definition decode_stream_version (value : bytes) : result Z KeyDecodeError :=
  if negb (len value =? STREAM_VERSION_SIZE) then Err (KeyInvalidSize STREAM_VERSION_SIZE (len value))
  else Ok (from_le_bytes value).

(** ** The byte order of keys *)

(** [Ord] for [[u8]]: lexicographic, a proper prefix first. *)
Fixpoint lex_lt (a b : bytes) : Prop :=
  match a, b with
  | _, [] => False
  | [], _ :: _ => True
  | x :: a, y :: b => byte.unsigned x < byte.unsigned y \/ (x = y /\ lex_lt a b)
  end.

#[export] Instance lex_lt_dec a b : Decision (lex_lt a b).
Proof. revert b. induction a as [|x a IH]; intros [|y b]; simpl; apply _. Defined.

Definition lex_le (a b : bytes) : Prop := a = b \/ lex_lt a b.

#[export] Instance lex_le_dec a b : Decision (lex_le a b).
Proof. unfold lex_le. apply _. Defined.

Lemma unsigned_inj (x y : byte) : byte.unsigned x = byte.unsigned y -> x = y.
Proof. intros H. by rewrite <- (byte.of_Z_unsigned x), H, byte.of_Z_unsigned. Qed.

Lemma lex_lt_irrefl a : ~ lex_lt a a.
Proof. induction a as [|x a IH]; simpl; [tauto|]. intros [?|[_ ?]]; [lia|done]. Qed.

Lemma lex_lt_trans a b c : lex_lt a b -> lex_lt b c -> lex_lt a c.
Proof.
  revert b c. induction a as [|x a IH]; intros [|y b] [|z c]; simpl; try done.
  intros [?|[-> ?]] [?|[-> ?]]; [left; lia|by left|by left|right; split; [done|by eapply IH]].
Qed.

Lemma lex_lt_total a b : lex_lt a b \/ a = b \/ lex_lt b a.
Proof.
  revert b. induction a as [|x a IH]; intros [|y b]; simpl; [by right; left|by left|by right; right|].
  destruct (Z.lt_total (byte.unsigned x) (byte.unsigned y)) as [?|[?%unsigned_inj|?]]; [by left; left| |by right; right; left].
  subst y. destruct (IH b) as [?|[->|?]]; [by left; right|by right; left|by right; right; right].
Qed.

Lemma lex_lt_asym a b : lex_lt a b -> ~ lex_lt b a.
Proof. intros H1 H2. by apply (lex_lt_irrefl a), (lex_lt_trans a b a). Qed.

Lemma lex_le_trans a b c : lex_le a b -> lex_le b c -> lex_le a c.
Proof. intros [->|?] [->|?]; [by left|by right|by right|right; by eapply lex_lt_trans]. Qed.

Lemma lex_lt_app p a b : lex_lt (p ++ a) (p ++ b) <-> lex_lt a b.
Proof. induction p as [|x p IH]; simpl; [done|]. rewrite IH. split; [intros [?|[_ ?]]; [lia|done]|by right]. Qed.

(** Prefixes of one length decide first. *)
Lemma lex_lt_blocks a a' b b' :
  length a = length a' -> lex_lt (a ++ b) (a' ++ b') <-> lex_lt a a' \/ (a = a' /\ lex_lt b b').
Proof.
  revert a'. induction a as [|x a IH]; intros [|x' a'] Hl; simplify_eq/=; [naive_solver|].
  rewrite IH by done. naive_solver.
Qed.

Lemma len_to_be_bytes n z : len (to_be_bytes n z) = Z.of_nat n.
Proof. unfold to_be_bytes, len. rewrite length_reverse. apply (len_to_le_bytes n z). Qed.

Lemma length_to_be_bytes n z : length (to_be_bytes n z) = n.
Proof. pose proof (len_to_be_bytes n z). unfold len in *. lia. Qed.

Lemma from_to_be_bytes n z : 0 <= z < 2 ^ (Z.of_nat n * 8) -> from_be_bytes (to_be_bytes n z) = z.
Proof. intros ?. unfold from_be_bytes, to_be_bytes. rewrite reverse_involutive. by apply from_to_le_bytes. Qed.

Lemma to_be_bytes_S n z : to_be_bytes (S n) z = to_be_bytes n (z / 256) ++ [byte.of_Z z].
Proof.
  unfold to_be_bytes, to_le_bytes.
  change (LittleEndianList.le_split (S n) z) with (byte.of_Z z :: LittleEndianList.le_split n (Z.shiftr z 8)).
  rewrite reverse_cons.
  by rewrite Z.shiftr_div_pow2 by lia.
Qed.

Lemma to_be_bytes_inj n x y :
  0 <= x < 2 ^ (Z.of_nat n * 8) -> 0 <= y < 2 ^ (Z.of_nat n * 8) -> to_be_bytes n x = to_be_bytes n y -> x = y.
Proof. intros Hx Hy H. by rewrite <- (from_to_be_bytes n x), H, from_to_be_bytes. Qed.

(** Big-endian bytes compare as the numbers do. *)
Lemma lex_lt_be n x y :
  0 <= x < 2 ^ (Z.of_nat n * 8) -> 0 <= y < 2 ^ (Z.of_nat n * 8) ->
  lex_lt (to_be_bytes n x) (to_be_bytes n y) <-> x < y.
Proof.
  revert x y. induction n as [|n IH]; intros x y Hx Hy; [simpl in *; split; [intros []|lia]|].
  assert (2 ^ (Z.of_nat (S n) * 8) = 256 * 2 ^ (Z.of_nat n * 8)) as Hpow.
  { replace (Z.of_nat (S n) * 8) with (8 + Z.of_nat n * 8) by lia. by rewrite Z.pow_add_r by lia. }
  rewrite Hpow in *. set (m := 2 ^ (Z.of_nat n * 8)) in *.
  assert (forall z, 0 <= z < 256 * m -> 0 <= z / 256 < m) as Hd
    by (intros z Hz; split; [apply Z.div_pos; lia|apply Z.div_lt_upper_bound; lia]).
  rewrite !to_be_bytes_S, lex_lt_blocks, IH by (rewrite ?length_to_be_bytes; auto).
  cbn [lex_lt]. rewrite !byte.unsigned_of_Z. unfold byte.wrap.
  pose proof (Z.div_mod x 256 ltac:(lia)). pose proof (Z.div_mod y 256 ltac:(lia)).
  pose proof (Z.mod_pos_bound x 256 ltac:(lia)). pose proof (Z.mod_pos_bound y 256 ltac:(lia)).
  change (2 ^ 8) with 256 in *.
  split.
  - intros [?|[He [?|[_ []]]]]; [lia|]. apply to_be_bytes_inj in He; [lia|auto..].
  - intros Hlt. destruct (decide (x / 256 = y / 256)) as [He|Hne]; [|left; lia].
    right. rewrite He. split; [done|]. left. lia.
Qed.

(** ** Well-formed keys *)

(** The ids a stream may have. *)
Definition valid_id (id : bytes) : Prop := 1 <= len id <= MAX_STREAM_ID_LEN.

#[export] Instance valid_id_dec id : Decision (valid_id id).
Proof. unfold valid_id. apply _. Defined.

Definition event_key (id : bytes) (version : Z) : bytes :=
  to_be_bytes 2 (len id) ++ id ++ to_be_bytes 8 version.
Definition global_key (global_seq : Z) (id : bytes) (version : Z) : bytes :=
  to_be_bytes 8 global_seq ++ to_be_bytes 2 (len id) ++ id ++ to_be_bytes 8 version.

Notation u64 z := (0 <= z <= u64_max).

Lemma checked_id_len_ok n max : 0 <= n <= max -> max <= u16_max -> checked_id_len n max = Ok n.
Proof.
  intros Hn Hm. unfold checked_id_len. rewrite (proj2 (Z.ltb_ge _ _)) by lia. by rewrite try_from_ok by lia.
Qed.

Lemma encode_event_key_ok id v : valid_id id -> encode_event_key id v = Ok (event_key id v).
Proof.
  intros [? Hm]. unfold encode_event_key. rewrite checked_id_len_ok; [done| |by vm_compute].
  unfold MAX_STREAM_ID_LEN, EVENT_KEY_HEADER_SIZE, EVENT_KEY_VERSION_SIZE in *. lia.
Qed.

Lemma encode_global_key_ok g (id : bytes) v : len id <= MAX_STREAM_ID_LEN -> encode_global_key g id v = Ok (global_key g id v).
Proof.
  intros Hm. unfold encode_global_key. pose proof (len_nonneg id). by rewrite checked_id_len_ok by done.
Qed.

Lemma id_len_be (id : bytes) : len id <= MAX_STREAM_ID_LEN -> 0 <= len id < 2 ^ (Z.of_nat 2 * 8).
Proof. intros ?. pose proof (len_nonneg id). unfold MAX_STREAM_ID_LEN, MAX_KEY_LEN in *. simpl. lia. Qed.

Lemma u64_be v : u64 v -> 0 <= v < 2 ^ (Z.of_nat 8 * 8).
Proof. unfold u64_max. simpl. lia. Qed.

Lemma len_event_key (id : bytes) v : len (event_key id v) = event_key_size (len id).
Proof. unfold event_key. rewrite !len_app, !len_to_be_bytes. unfold event_key_size, EVENT_KEY_HEADER_SIZE, EVENT_KEY_VERSION_SIZE. lia. Qed.

Lemma len_global_key g id v : len (global_key g id v) = 18 + len id.
Proof. unfold global_key. rewrite !len_app, !len_to_be_bytes. lia. Qed.

Lemma decode_event_key_ok (id : bytes) v :
  len id <= MAX_STREAM_ID_LEN -> u64 v -> decode_event_key (event_key id v) = Ok (id, v).
Proof.
  intros Hid Hv. unfold decode_event_key. rewrite len_event_key. pose proof (len_nonneg id).
  assert (from_be_bytes (slice (event_key id v) 0 2) = len id) as ->.
  { unfold event_key. rewrite slice_prefix by (rewrite len_to_be_bytes; done).
    by rewrite from_to_be_bytes by by apply id_len_be. }
  rewrite Z.eqb_refl. unfold event_key_size, EVENT_KEY_HEADER_SIZE, EVENT_KEY_VERSION_SIZE in *.
  rewrite (proj2 (Z.ltb_ge _ _)) by lia. cbn [negb]. unfold event_key. do 2 f_equal.
  - rewrite slice_middle; [done|by rewrite len_to_be_bytes|rewrite len_to_be_bytes; lia].
  - rewrite app_assoc, slice_suffix; [by apply from_to_be_bytes, u64_be| |]; rewrite !len_app, !len_to_be_bytes; lia.
Qed.

Lemma decode_global_key_ok {T : Target} g (id : bytes) v :
  len id <= MAX_STREAM_ID_LEN -> u64 g -> u64 v -> decode_global_key (global_key g id v) = Ok (g, id, v).
Proof.
  intros Hid Hg Hv. unfold decode_global_key. rewrite len_global_key. pose proof (len_nonneg id).
  pose proof usize_max_lo. unfold MAX_STREAM_ID_LEN, MAX_KEY_LEN, u32_max in *.
  unfold GLOBAL_KEY_PREFIX_SIZE, GLOBAL_KEY_VERSION_SIZE in *.
  rewrite (proj2 (Z.ltb_ge _ _)) by lia.
  assert (from_be_bytes (slice (global_key g id v) 8 10) = len id) as ->.
  { unfold global_key. rewrite slice_middle by (rewrite ?len_to_be_bytes; done).
    rewrite from_to_be_bytes; [done|]. by apply id_len_be. }
  rewrite checked_add_ok by lia. rewrite checked_add_ok by lia. cbn [ok_or result_bind].
  rewrite (proj2 (Z.eqb_eq _ _)) by lia. cbn [negb]. unfold global_key. do 3 f_equal.
  - rewrite slice_prefix by (rewrite len_to_be_bytes; done). by apply from_to_be_bytes, u64_be.
  - rewrite app_assoc, slice_middle; [done| |]; rewrite ?len_app, !len_to_be_bytes; lia.
  - rewrite !app_assoc, slice_suffix; [by apply from_to_be_bytes, u64_be| |]; rewrite !len_app, !len_to_be_bytes; lia.
Qed.

Lemma decode_stream_version_ok v : u64 v -> decode_stream_version (encode_stream_version v) = Ok v.
Proof.
  intros Hv. unfold decode_stream_version, encode_stream_version. rewrite len_to_le_bytes. simpl.
  by rewrite from_to_le_bytes by by apply u64_be.
Qed.

Lemma event_key_lt (id id' : bytes) v v' :
  len id <= MAX_STREAM_ID_LEN -> len id' <= MAX_STREAM_ID_LEN -> u64 v -> u64 v' ->
  lex_lt (event_key id v) (event_key id' v') <->
    len id < len id' \/ (len id = len id' /\ (lex_lt id id' \/ (id = id' /\ v < v'))).
Proof.
  intros Hid Hid' Hv Hv'. unfold event_key.
  rewrite lex_lt_blocks, lex_lt_be by (rewrite ?length_to_be_bytes; done || by apply id_len_be).
  split.
  - intros [?|[He Hlt]]; [by left|right].
    apply to_be_bytes_inj in He; [|by apply id_len_be..]. split; [done|].
    rewrite lex_lt_blocks, lex_lt_be in Hlt; [done|by apply u64_be..|]. unfold len in He. lia.
  - intros [?|[He Hlt]]; [by left|right]. rewrite He. split; [done|].
    rewrite lex_lt_blocks, lex_lt_be; [done|by apply u64_be..|]. unfold len in He. lia.
Qed.

(** The keys between the bounds of a stream scan are that stream's, from the
    version the scan starts at. *)
Lemma event_key_range (id id' : bytes) from v :
  len id <= MAX_STREAM_ID_LEN -> len id' <= MAX_STREAM_ID_LEN -> u64 from -> u64 v ->
  lex_le (event_key id from) (event_key id' v) /\ lex_le (event_key id' v) (event_key id u64_max) <->
    id' = id /\ from <= v.
Proof.
  intros Hid Hid' Hf Hv. assert (u64 u64_max) as Hm by (split; [by vm_compute|done]).
  assert (forall i j a b, len i <= MAX_STREAM_ID_LEN -> len j <= MAX_STREAM_ID_LEN -> u64 a -> u64 b ->
    lex_le (event_key i a) (event_key j b) ->
    (i = j /\ a <= b) \/ len i < len j \/ (len i = len j /\ lex_lt i j)) as Hle.
  { intros i j a b Hi Hj Ha Hb [E|Hlt].
    - left. pose proof (decode_event_key_ok i a Hi Ha) as D. rewrite E, (decode_event_key_ok j b Hj Hb) in D.
      injection D as -> ->. done.
    - apply event_key_lt in Hlt; [|done..]. destruct Hlt as [?|[? [?|[-> ?]]]]; [right; by left|right; right; done|].
      left. split; [done|lia]. }
  split.
  - intros [H1 H2]. apply Hle in H1; [|done..]. apply Hle in H2; [|done..].
    destruct H1 as [[-> ?]|H1]; [done|]. destruct H2 as [[-> ?]|H2].
    + destruct H1 as [?|[_ ?%lex_lt_irrefl]]; [lia|done].
    + destruct H1 as [?|[? H1]], H2 as [?|[? H2]]; try lia. by apply lex_lt_asym in H1.
  - intros [-> Hfv]. split.
    + destruct (decide (from = v)) as [->|]; [by left|]. right. apply event_key_lt; [done..|]. right. split; [done|]. right. split; [done|lia].
    + destruct (decide (v = u64_max)) as [->|]; [by left|]. right. apply event_key_lt; [done..|]. right. split; [done|]. right. split; [done|lia].
Qed.

Lemma global_key_lt g g' (id id' : bytes) v v' :
  u64 g -> u64 g' -> g < g' -> lex_lt (global_key g id v) (global_key g' id' v').
Proof.
  intros Hg Hg' Hlt. unfold global_key.
  rewrite lex_lt_blocks by (by rewrite !length_to_be_bytes). left. by apply lex_lt_be; [apply u64_be..|].
Qed.

(** The lower bound of an [$all] scan precedes exactly the keys at its position or
    after. *)
Lemma global_key_range g g' (id : bytes) v :
  valid_id id -> u64 g -> u64 g' ->
  lex_le (global_key g [] 0) (global_key g' id v) <-> g <= g'.
Proof.
  intros [Hid Hid'] Hg Hg'. split.
  - intros Hle. destruct (decide (g <= g')) as [|Hgt]; [done|exfalso].
    assert (lex_lt (global_key g' id v) (global_key g [] 0)) as Hlt by (apply global_key_lt; [done|done|lia]).
    destruct Hle as [E|Hle]; [rewrite E in Hlt; by apply lex_lt_irrefl in Hlt|by apply lex_lt_asym in Hle].
  - intros Hle. right. destruct (decide (g = g')) as [->|]; [|apply global_key_lt; [done|done|lia]].
    unfold global_key. rewrite lex_lt_app, lex_lt_blocks by (by rewrite !length_to_be_bytes). left.
    apply lex_lt_be; [by vm_compute|by apply id_len_be|]. rewrite len_nil. lia.
Qed.

Lemma event_key_inj (id id' : bytes) v v' :
  len id <= MAX_STREAM_ID_LEN -> len id' <= MAX_STREAM_ID_LEN -> u64 v -> u64 v' ->
  event_key id v = event_key id' v' -> id = id' /\ v = v'.
Proof.
  intros Hi Hi' Hv Hv' E. pose proof (decode_event_key_ok id v Hi Hv) as D.
  rewrite E, (decode_event_key_ok id' v' Hi' Hv') in D. by injection D as -> ->.
Qed.

Lemma global_key_inj g g' (id id' : bytes) v v' :
  u64 g -> u64 g' -> global_key g id v = global_key g' id' v' -> g = g'.
Proof.
  intros Hg Hg' E. destruct (Z.lt_total g g') as [Hlt|[?|Hlt]]; [|done|].
  - pose proof (global_key_lt g g' id id' v v' Hg Hg' Hlt) as H. rewrite E in H. by apply lex_lt_irrefl in H.
  - pose proof (global_key_lt g' g id' id v' v Hg' Hg Hlt) as H. rewrite E in H. by apply lex_lt_irrefl in H.
Qed.

(** ** Properties *)

(** The two key codecs are exact inverses on every id a stream may have and
    every [u64] version and position, and the byte order of two event keys is the
    order of their (id length, id, version) triples: one stream's keys are
    contiguous and in version order, also when an id is a prefix of another. *)
Theorem event_keys_sort_by_stream (id id' : bytes) v v' :
  valid_id id -> valid_id id' -> u64 v -> u64 v' ->
  (exists k, encode_event_key id v = Ok k /\ decode_event_key k = Ok (id, v)) /\
  (forall k k', encode_event_key id v = Ok k -> encode_event_key id' v' = Ok k' ->
     (lex_lt k k' <-> len id < len id' \/ (len id = len id' /\ (lex_lt id id' \/ (id = id' /\ v < v'))))).
Proof.
  intros Hid Hid' Hv Hv'. rewrite !encode_event_key_ok by done. destruct Hid, Hid'. split.
  - eexists. split; [done|]. by apply decode_event_key_ok.
  - intros k k' [= <-] [= <-]. by apply event_key_lt.
Qed.

(** ** Witness *)

Lemma event_keys_sort_by_stream_witness :
  lex_lt (event_key [byte.of_Z 102] u64_max) (event_key [byte.of_Z 102; byte.of_Z 1] 1).
Proof.
  eapply (event_keys_sort_by_stream [byte.of_Z 102] [byte.of_Z 102; byte.of_Z 1] u64_max 1);
    [by vm_compute..|reflexivity|reflexivity|]. left. reflexivity.
Defined.
