(* ===== verification/Lsm.v ===== *)
(** * The storage engine behind the embedded store

    Fjall is a third-party crate: an LSM database of named keyspaces, each an ordered
    map of byte keys to byte values, with snapshot reads and one serialized write
    transaction at a time.  [Lsm] is the part of its interface the adapter calls;
    every call may fail with an engine error.  [LsmSpec] states what the adapter
    relies on: reads return the content, an iterator yields a key range of one
    content in byte order, and a commit applies all writes of its transaction or
    none, also when it reports an error, after which either is possible.
    [LsmReads] is an engine whose reads succeed, while commits may fail in doubt;
    [LsmReliable] one whose calls all succeed. *)

From stdpp Require Import sorting.
From S2P Require Import Prelude Wire WireKey.

(** ** The interface *)

(** The keyspaces, by name: those the adapter opens, and any other. *)
Inductive Keyspace : Type :=
| Streams | Events | EventsGlobal | Global
| Snapshots | CheckpointsGlobal | CheckpointsStream
| MnesisMeta
| OtherKeyspace (name : bytes).

#[export] Instance keyspace_eq_dec : EqDecision Keyspace.
Proof. solve_decision. Defined.

Inductive PersistMode : Type := PersistBuffer | PersistSyncData | PersistSyncAll.

(** [std::ops::Bound]. *)
Inductive Bound : Type :=
| Included (key : bytes)
| Excluded (key : bytes)
| Unbounded.

(** A staged insertion. *)
Record write : Type := MkWriteRow { w_keyspace : Keyspace; w_key : bytes; w_value : bytes }.

Class Lsm := {
  Db : Type;
  LsmError : Type;
  (** [keyspace.get]. *)
  db_get : Db -> Keyspace -> bytes -> result (option bytes) LsmError;
  (** The items of an iterator over a range, on the database as it is. *)
  db_range : Db -> Keyspace -> Bound -> Bound -> list (result (bytes * bytes) LsmError);
  (** [tx.get] and [tx.is_empty] of a transaction with the staged writes. *)
  tx_get : Db -> list write -> Keyspace -> bytes -> result (option bytes) LsmError;
  tx_is_empty : Db -> list write -> Keyspace -> result bool LsmError;
  (** [tx.commit] at a durability. *)
  tx_commit : PersistMode -> Db -> list write -> Db * result () LsmError;
  (** [db.keyspace]: open or create. *)
  db_keyspace : Db -> Keyspace -> Db * result () LsmError;
  (** [db.list_keyspace_names]. *)
  db_keyspaces : Db -> list Keyspace;
  (** [db.persist]. *)
  db_persist : PersistMode -> Db -> Db * result () LsmError;
}.

(** ** What it promises *)

Notation content := (Keyspace -> gmap bytes bytes).

Definition apply_write (c : content) (w : write) : content :=
  fun ks => if decide (ks = w_keyspace w) then <[w_key w := w_value w]> (c ks) else c ks.

Definition apply_writes (c : content) (ws : list write) : content := fold_left apply_write ws c.

Definition above (lo : Bound) (k : bytes) : Prop :=
  match lo with Included l => lex_le l k | Excluded l => lex_lt l k | Unbounded => True end.
Definition below (hi : Bound) (k : bytes) : Prop :=
  match hi with Included h => lex_le k h | Excluded h => lex_lt k h | Unbounded => True end.

#[export] Instance above_dec lo k : Decision (above lo k).
Proof. destruct lo; simpl; apply _. Defined.
#[export] Instance below_dec hi k : Decision (below hi k).
Proof. destruct hi; simpl; apply _. Defined.

Definition key_lt (a b : bytes * bytes) : Prop := lex_lt a.1 b.1.

(** The rows of a key range, in byte order. *)
Definition range_of (m : gmap bytes bytes) (lo hi : Bound) (rows : list (bytes * bytes)) : Prop :=
  StronglySorted key_lt rows /\
  forall k v, (k, v) ∈ rows <-> m !! k = Some v /\ above lo k /\ below hi k.

(** An iterator that stops early stops with an error. *)
Inductive yields {E} (rows : list (bytes * bytes)) : list (result (bytes * bytes) E) -> Prop :=
| yields_all : yields rows (Ok <$> rows)
| yields_fault pre rest e tail : rows = pre ++ rest -> yields rows ((Ok <$> pre) ++ Err e :: tail).

Class LsmSpec {L : Lsm} := {
  content_of : Db -> content;
  db_get_spec db ks k v : db_get db ks k = Ok v -> v = content_of db ks !! k;
  db_range_spec db ks lo hi :
    exists rows, range_of (content_of db ks) lo hi rows /\ yields rows (db_range db ks lo hi);
  tx_get_spec db ws ks k v : tx_get db ws ks k = Ok v -> v = apply_writes (content_of db) ws ks !! k;
  tx_is_empty_spec db ws ks b : tx_is_empty db ws ks = Ok b -> b = bool_decide (apply_writes (content_of db) ws ks = ∅);
  tx_commit_ok mode db ws db' :
    tx_commit mode db ws = (db', Ok ()) -> forall ks, content_of db' ks = apply_writes (content_of db) ws ks;
  tx_commit_err mode db ws db' e :
    tx_commit mode db ws = (db', Err e) ->
    (forall ks, content_of db' ks = content_of db ks) \/
    (forall ks, content_of db' ks = apply_writes (content_of db) ws ks);
  db_keyspace_spec db ks db' r : db_keyspace db ks = (db', r) -> forall ks', content_of db' ks' = content_of db ks';
  (** A keyspace with content is listed. *)
  db_keyspaces_spec db ks : content_of db ks <> ∅ -> ks ∈ db_keyspaces db;
  db_persist_spec mode db db' r : db_persist mode db = (db', r) -> forall ks, content_of db' ks = content_of db ks;
}.

(** An engine whose calls do not fail. *)
Class LsmReads {L : Lsm} := {
  db_get_reliable db ks k : is_ok (db_get db ks k) = true;
  db_range_reliable db ks lo hi : Forall (fun r => is_ok r = true) (db_range db ks lo hi);
  tx_get_reliable db ws ks k : is_ok (tx_get db ws ks k) = true;
}.

Class LsmReliable {L : Lsm} := {
  reliable_reads :: LsmReads;
  tx_commit_reliable mode db ws : is_ok (tx_commit mode db ws).2 = true;
}.

(** ** Ranges *)

#[export] Instance key_lt_trans : Transitive key_lt.
Proof. intros a b c. apply lex_lt_trans. Qed.

(** Sorted rows with the same elements are the same rows. *)
Lemma sorted_rows_unique l1 l2 :
  StronglySorted key_lt l1 -> StronglySorted key_lt l2 -> (forall x, x ∈ l1 <-> x ∈ l2) -> l1 = l2.
Proof.
  intros H1. revert l2. induction H1 as [|x l1 Hs IH Hx]; intros l2 H2 He.
  { destruct l2 as [|y l2]; [done|]. exfalso. apply (not_elem_of_nil y), He. by left. }
  destruct H2 as [|y l2 Hs2 Hy]; [exfalso; apply (not_elem_of_nil x), He; by left|].
  rewrite Forall_forall in Hx, Hy.
  assert (x = y) as <-.
  { assert (x ∈ y :: l2) as [?|Hxy]%elem_of_cons by (apply He; by left); [done|].
    assert (y ∈ x :: l1) as [?|Hyx]%elem_of_cons by (apply He; by left); [done|].
    by destruct (lex_lt_asym _ _ (Hx _ Hyx) (Hy _ Hxy)). }
  f_equal. apply IH; [done|]. intros z. specialize (He z). rewrite !elem_of_cons in He.
  split; intros Hz.
  - destruct (proj1 He (or_intror Hz)) as [->|]; [|done]. by destruct (lex_lt_irrefl _ (Hx _ Hz)).
  - destruct (proj2 He (or_intror Hz)) as [->|]; [|done]. by destruct (lex_lt_irrefl _ (Hy _ Hz)).
Qed.

Lemma range_of_unique m lo hi l1 l2 : range_of m lo hi l1 -> range_of m lo hi l2 -> l1 = l2.
Proof.
  intros [H1 E1] [H2 E2]. apply sorted_rows_unique; [done|done|]. intros [k v]. by rewrite E1, E2.
Qed.

Lemma yields_nil_inv {E} rows : yields rows (@nil (result (bytes * bytes) E)) -> rows = [].
Proof. inversion 1 as [Hrows|pre rest e tail Hrows Happ]; [by destruct rows|by destruct pre]. Qed.

Lemma yields_cons_inv {E} rows r (it : list (result (bytes * bytes) E)) :
  yields rows (Ok r :: it) -> exists rows', rows = r :: rows' /\ yields rows' it.
Proof.
  inversion 1 as [Hrows|pre rest e tail Hrows Happ].
  - destruct rows as [|r' rows']; [done|]. injection Hrows as -> <-. eexists. split; [done|constructor].
  - destruct pre as [|r' pre]; [done|]. injection Happ as -> <-. subst rows. simpl. eexists. split; [done|]. by econstructor.
Qed.

Lemma yields_reliable {E} rows (l : list (result (bytes * bytes) E)) :
  yields rows l -> Forall (fun r => is_ok r = true) l -> l = Ok <$> rows.
Proof. intros [] Hl; [done|]. apply Forall_app in Hl as [_ [? _]%Forall_cons]. done. Qed.

Lemma db_range_exact `{LsmSpec, !LsmReads} db ks lo hi rows :
  range_of (content_of db ks) lo hi rows -> db_range db ks lo hi = Ok <$> rows.
Proof.
  intros Hr. destruct (db_range_spec db ks lo hi) as (rows' & Hr' & Hy).
  rewrite (range_of_unique _ _ _ _ _ Hr Hr'). apply yields_reliable; [done|apply db_range_reliable].
Qed.

(** ** Staged writes *)

Lemma apply_writes_app c ws1 ws2 : apply_writes c (ws1 ++ ws2) = apply_writes (apply_writes c ws1) ws2.
Proof. apply fold_left_app. Qed.

Lemma apply_write_same c w : apply_write c w (w_keyspace w) = <[w_key w := w_value w]> (c (w_keyspace w)).
Proof. unfold apply_write. by rewrite decide_True. Qed.

Lemma apply_write_other c w ks : ks <> w_keyspace w -> apply_write c w ks = c ks.
Proof. intros ?. unfold apply_write. by rewrite decide_False. Qed.

Lemma apply_writes_other c ws ks : Forall (fun w => w_keyspace w <> ks) ws -> apply_writes c ws ks = c ks.
Proof.
  revert c. induction ws as [|w ws IH]; intros c; [done|]. intros [Hw Hws]%Forall_cons. simpl.
  unfold apply_writes in *. simpl. rewrite IH by done. by apply apply_write_other.
Qed.

(** The writes of a transaction to one keyspace. *)
Definition writes_in (ks : Keyspace) (ws : list write) : list (bytes * bytes) :=
  (fun w => (w_key w, w_value w)) <$> filter (fun w => w_keyspace w = ks) ws.

Lemma writes_in_app ks ws1 ws2 : writes_in ks (ws1 ++ ws2) = writes_in ks ws1 ++ writes_in ks ws2.
Proof. unfold writes_in. by rewrite filter_app, fmap_app. Qed.

Lemma apply_writes_in c ws ks :
  apply_writes c ws ks = fold_left (fun m kv => <[kv.1 := kv.2]> m) (writes_in ks ws) (c ks).
Proof.
  revert c. induction ws as [|w ws IH]; intros c; [done|].
  unfold apply_writes in *. cbn [fold_left]. rewrite IH. unfold writes_in. rewrite filter_cons. unfold apply_write at 1.
  destruct (decide (ks = w_keyspace w)) as [->|Hne]; [by rewrite decide_True|by rewrite decide_False].
Qed.

Lemma insert_rows_lookup (rows : list (bytes * bytes)) (m : gmap bytes bytes) k v :
  NoDup rows.*1 ->
  fold_left (fun m kv => <[kv.1 := kv.2]> m) rows m !! k = Some v <->
    (k, v) ∈ rows \/ (k ∉ rows.*1 /\ m !! k = Some v).
Proof.
  revert m. induction rows as [|[k' v'] rows IH]; intros m Hnd; csimpl in *.
  { split; [right; split; [by apply not_elem_of_nil|done]|by intros [[]%elem_of_nil|[_ ?]]]. }
  apply NoDup_cons in Hnd as [Hk' Hnd]. rewrite IH by done. rewrite !elem_of_cons.
  destruct (decide (k = k')) as [->|Hne].
  - rewrite lookup_insert_eq. naive_solver.
  - rewrite lookup_insert_ne by done. naive_solver.
Qed.

(** ** An engine in memory

    The promises are met by association lists of finite maps. *)

Definition key_le (a b : bytes * bytes) : Prop := lex_le a.1 b.1.
#[export] Instance key_le_dec : RelDecision key_le.
Proof. intros a b. unfold key_le. apply _. Defined.
#[export] Instance key_le_trans : Transitive key_le.
Proof. intros a b c. apply lex_le_trans. Qed.
#[export] Instance key_le_total : Total key_le.
Proof. intros a b. unfold key_le, lex_le. destruct (lex_lt_total a.1 b.1) as [?|[->|?]]; auto. Qed.

Notation map_db := (list (Keyspace * gmap bytes bytes)).

Fixpoint map_content (db : map_db) (ks : Keyspace) : gmap bytes bytes :=
  match db with
  | [] => ∅
  | (k, m) :: db => if decide (k = ks) then m else map_content db ks
  end.

Fixpoint map_write (db : map_db) (w : write) : map_db :=
  match db with
  | [] => [(w_keyspace w, {[w_key w := w_value w]})]
  | (k, m) :: db => if decide (k = w_keyspace w) then (k, <[w_key w := w_value w]> m) :: db else (k, m) :: map_write db w
  end.

Definition map_writes (db : map_db) (ws : list write) : map_db := fold_left map_write ws db.

Definition map_range (db : map_db) (ks : Keyspace) (lo hi : Bound) : list (bytes * bytes) :=
  merge_sort key_le (filter (fun r => above lo r.1 /\ below hi r.1) (map_to_list (map_content db ks))).

Definition map_lsm : Lsm := {|
  Db := map_db;
  LsmError := Empty_set;
  db_get db ks k := Ok (map_content db ks !! k);
  db_range db ks lo hi := Ok <$> map_range db ks lo hi;
  tx_get db ws ks k := Ok (map_content (map_writes db ws) ks !! k);
  tx_is_empty db ws ks := Ok (bool_decide (map_content (map_writes db ws) ks = ∅));
  tx_commit _ db ws := (map_writes db ws, Ok tt);
  db_keyspace db _ := (db, Ok tt);
  db_keyspaces db := db.*1;
  db_persist _ db := (db, Ok tt);
|}.

Lemma map_write_content db w ks : map_content (map_write db w) ks = apply_write (map_content db) w ks.
Proof.
  unfold apply_write. induction db as [|[k m] db IH]; simpl.
  - destruct (decide (w_keyspace w = ks)) as [->|]; [by rewrite decide_True|by rewrite decide_False].
  - destruct (decide (k = w_keyspace w)) as [->|Hne]; simpl.
    + destruct (decide (w_keyspace w = ks)) as [->|]; [by rewrite decide_True|by rewrite decide_False].
    + destruct (decide (k = ks)) as [->|]; [by rewrite decide_False|by rewrite IH].
Qed.

Lemma apply_writes_ext c c' ws : (forall ks, c ks = c' ks) -> forall ks, apply_writes c ws ks = apply_writes c' ws ks.
Proof. intros H ks. rewrite !apply_writes_in. by rewrite H. Qed.

Lemma map_writes_content db ws ks : map_content (map_writes db ws) ks = apply_writes (map_content db) ws ks.
Proof.
  revert db ks. induction ws as [|w ws IH]; intros db ks; [done|].
  unfold map_writes, apply_writes in *. simpl. rewrite IH. apply apply_writes_ext, map_write_content.
Qed.

Lemma map_range_sorted db ks lo hi : range_of (map_content db ks) lo hi (map_range db ks lo hi).
Proof.
  unfold map_range. set (rows := filter _ _).
  assert (NoDup rows.*1) as Hnd.
  { apply (sublist_NoDup _ (map_to_list (map_content db ks)).*1); [apply NoDup_fst_map_to_list|].
    apply fmap_sublist, sublist_filter. }
  pose proof (merge_sort_Permutation key_le rows) as Hp. split.
  - pose proof (StronglySorted_merge_sort key_le rows) as Hs. rewrite <- Hp in Hnd. clear Hp.
    induction Hs as [|x l Hs IH Hx]; [constructor|]. csimpl in Hnd. apply NoDup_cons in Hnd as [Hn Hnd].
    constructor; [by apply IH|]. rewrite Forall_forall in *. intros y Hy. destruct (Hx y Hy) as [E|?]; [|done].
    destruct Hn. rewrite E. by apply list_elem_of_fmap_2.
  - intros k v. rewrite Hp. unfold rows. rewrite list_elem_of_filter, elem_of_map_to_list. simpl. tauto.
Qed.

Definition map_lsm_spec : LsmSpec (L := map_lsm).
Proof.
  refine (Build_LsmSpec map_lsm map_content _ _ _ _ _ _ _ _ _); simpl.
  - by intros db ks k v [= <-].
  - intros db ks lo hi. eexists. split; [apply map_range_sorted|constructor].
  - intros db ws ks k v [= <-]. by rewrite map_writes_content.
  - intros db ws ks b [= <-]. by rewrite map_writes_content.
  - intros _ db ws db' [= <-] ks. apply map_writes_content.
  - intros _ db ws db' e [=].
  - by intros db ks db' r [= <- _].
  - intros db ks H. induction db as [|[k m] db IH]; simpl in *; [done|].
    destruct (decide (k = ks)) as [->|]; [left|right; auto].
  - by intros _ db db' r [= <- _].
Defined.

Lemma map_lsm_reliable : LsmReliable (L := map_lsm).
Proof. split; [|done]. split; simpl; try done. intros. rewrite Forall_fmap. by apply Forall_forall. Qed.
