(* ===== verification/Fjall.v ===== *)
(** * The embedded adapter: operations (adapters/fjall/src)

    [Storage] is the state behind the adapter: the engine's database, the index
    mode the partitions were opened with, the acknowledgment policy and the wake
    registry.  An append prepares frames, plans keys and positions and stages them
    in one transaction; a read is a key range scan of one snapshot.  [FjallSpec]
    proves these operations simulate the event log. *)

From Stdlib Require Import String.
From S2P Require Import Prelude Utf8 ErrorId Version Value Wire Envelope RawStore Wake Import Log WireKey Lsm.

(** ** Text *)

Definition encode_error_fmt (e : KeyEncodeError) : list bytes :=
  match e with
  | IdTooLong n max => [text "stream ID too long: "; dec n; text " bytes (max "; dec max; text ")"]
  end.

Definition wire_error_fmt (e : WireError) : list bytes :=
  match e with
  | FrameLengthOverflow header padding payload =>
      [text "frame length overflow combining header="; dec header; text ", padding="; dec padding;
       text ", payload="; dec payload]
  end.

(** ** Positions *)

Record GlobalSeq : Type := MkGlobalSeq { gseq_nz : NonZero u64_max }.

#[export] Instance global_seq_eq_dec : EqDecision GlobalSeq.
Proof. solve_decision. Defined.

Module GlobalSeq.
Definition INITIAL : GlobalSeq := MkGlobalSeq (MkNonZero (max := u64_max) 1 eq_refl).
Definition next (g : GlobalSeq) : option GlobalSeq := MkGlobalSeq <$> nz_checked_add (gseq_nz g) 1.
Definition as_u64 (g : GlobalSeq) : Z := nz_get (gseq_nz g).
Definition new (v : Z) : option GlobalSeq := MkGlobalSeq <$> nz_new v.
End GlobalSeq.

(** ** Configuration and errors *)

Inductive AllIndex : Type := Denormalized | Disabled.

#[export] Instance all_index_eq_dec : EqDecision AllIndex.
Proof. solve_decision. Defined.

Inductive Durability : Type := SyncAll | SyncData | Buffered.

Definition persist_mode (d : Durability) : PersistMode :=
  match d with
  | SyncAll => PersistSyncAll
  | SyncData => PersistSyncData
  | Buffered => PersistBuffer
  end.

(** [tokio::sync::mpsc::error::TrySendError<()>]. *)
Inductive TrySendError : Type := Full | Closed.

Module FjallError.
(** Without the two errors of creating a thread or a timer. *)
Inductive t {L : Lsm} : Type :=
| ExportSessionIdOverflow
| WorkerQueueClosed
| WorkerResponseCanceled
| WorkerPanicked (message : bytes)
| OutstandingHandles (count : Z)
| ScanCapacity (e : TrySendError)
| ScanLengthOverflow
| UnmarkedDatabase
| InvalidManifest
| UnsupportedLayout (version : Z)
| IndexModeMismatch (stored requested : AllIndex)
| InvalidKey (key_len max : Z)
| StateTooLarge (payload header : Z)
| Io (e : LsmError)
| CorruptValue (stream_id : ErrorId) (version : option Z)
| EnvelopeCorrupt (stream_id : ErrorId) (version : Z) (source : EnvelopeError)
| CorruptMeta (stream_id : ErrorId)
| InvalidInput (stream_id : ErrorId) (version : Z) (reason : bytes)
| VersionOverflow
| GlobalSeqOverflow
| AllIndexDisabled
| Subscription (e : NotifyError).
End FjallError.
Notation FjallError := FjallError.t.

Section fjall.
Context {T : Target} {AS : ArrayString} {W : Watch} {L : Lsm}.

(** [reason_label]: an [ErrorId<128>]. *)
Definition reason_label (fmt : list bytes) : bytes := from_display 128 fmt.

Definition validate_key (key : bytes) (max : Z) : result () FjallError :=
  if bool_decide (key = []) || (max <? len key) then Err (FjallError.InvalidKey (len key) max) else Ok ().

(** ** Planning an append *)

Record StagedRow : Type := MkStagedRow { row_event_key : bytes; row_global_key : bytes; row_frame : bytes }.
Record PlannedRun : Type := MkPlannedRun { rows : list StagedRow; new_version : Z; ending_global : Z }.
Record PreparedRun : Type := MkPreparedRun { frames : list bytes }.

Inductive FjallPlanError : Type :=
| PlanErrVersionOverflow
| PlanErrGlobalSeqOverflow
| PlanErrInvalidInput (version : Z) (reason : bytes).

Fixpoint prepare_frames (envelopes : list PendingEnvelope) : outcome (list bytes) FjallPlanError :=
  match envelopes with
  | [] => Returns (Ok [])
  | env :: envelopes =>
      let! frame := outcome_map_err
        (fun e => PlanErrInvalidInput (as_u64 (pe_version env)) (reason_label (wire_error_fmt e)))
        (encode_frame (pe_schema_version env) (pe_event_type env) (pe_payload env) (pe_metadata env)) in
      let! frames := prepare_frames envelopes in
      Returns (Ok (ef_value frame :: frames))
  end.

Definition prepare_run (envelopes : PendingBatch.t) : outcome PreparedRun FjallPlanError :=
  let! frames := prepare_frames (PendingBatch.iter envelopes) in
  Returns (Ok (MkPreparedRun frames)).

(** The loop of [plan_prepared_run]: the rows and the last version and position. *)
Fixpoint plan_rows (id_bytes : bytes) (version global_seq : Z) (frames : list bytes)
  : result (list StagedRow * Z * Z) FjallPlanError :=
  match frames with
  | [] => Ok ([], version, global_seq)
  | frame :: frames =>
      let? version := ok_or (checked_add u64_max version 1) PlanErrVersionOverflow in
      let? global_seq := ok_or (checked_add u64_max global_seq 1) PlanErrGlobalSeqOverflow in
      let? event_key := map_err (fun e => PlanErrInvalidInput version (reason_label (encode_error_fmt e)))
        (encode_event_key id_bytes version) in
      let? global_key := map_err (fun e => PlanErrInvalidInput version (reason_label (encode_error_fmt e)))
        (encode_global_key global_seq id_bytes version) in
      let? (rows, new_version, ending_global) := plan_rows id_bytes version global_seq frames in
      Ok (MkStagedRow event_key global_key frame :: rows, new_version, ending_global)
  end.

Definition plan_prepared_run (current_version current_global : Z) (id : StreamKey) (prepared : PreparedRun)
  : result PlannedRun FjallPlanError :=
  let? (rows, new_version, ending_global) :=
    plan_rows (sk_bytes id) current_version current_global (frames prepared) in
  Ok (MkPlannedRun rows new_version ending_global).

(** ** Transactions and partitions *)

Record Tx : Type := MkTx { tx_db : Db; tx_writes : list write }.

Definition tx_insert (tx : Tx) (ks : Keyspace) (key value : bytes) : Tx :=
  MkTx (tx_db tx) (tx_writes tx ++ [MkWriteRow ks key value]).

Definition GLOBAL_SEQ_KEY : bytes := text "global_seq".

Definition read_version (tx : Tx) (id : StreamKey) : result Z FjallError :=
  let? found := map_err FjallError.Io (tx_get (tx_db tx) (tx_writes tx) Streams (sk_bytes id)) in
  match found with
  | None => Ok 0
  | Some version_bytes => map_err (fun _ => FjallError.CorruptMeta (error_id id)) (decode_stream_version version_bytes)
  end.

Definition read_global (tx : Tx) (id : StreamKey) : result Z FjallError :=
  let? found := map_err FjallError.Io (tx_get (tx_db tx) (tx_writes tx) Global GLOBAL_SEQ_KEY) in
  match found with
  | None => Ok 0
  | Some b => if len b =? 8 then Ok (from_le_bytes b) else Err (FjallError.CorruptMeta (error_id id))
  end.

Definition stage_event (mode : AllIndex) (tx : Tx) (row : StagedRow) : Tx :=
  let tx := tx_insert tx Events (row_event_key row) (row_frame row) in
  match mode with
  | Denormalized => tx_insert tx EventsGlobal (row_global_key row) (row_frame row)
  | Disabled => tx
  end.

Definition set_version (tx : Tx) (id : bytes) (version : Z) : Tx :=
  tx_insert tx Streams id (encode_stream_version version).

Definition set_global (tx : Tx) (global : Z) : Tx :=
  tx_insert tx Global GLOBAL_SEQ_KEY (to_le_bytes 8 global).

Record Storage : Type := MkStorage {
  st_durability : Durability;
  st_db : Db;
  st_mode : AllIndex;
  st_notifiers : StreamNotifiers;
}.

Definition set_db (s : Storage) (db : Db) : Storage := MkStorage (st_durability s) db (st_mode s) (st_notifiers s).
Definition set_notifiers (s : Storage) (n : StreamNotifiers) : Storage :=
  MkStorage (st_durability s) (st_db s) (st_mode s) n.

Definition write_tx (s : Storage) : Tx := MkTx (st_db s) [].

Definition commit (s : Storage) (tx : Tx) : Storage * result () FjallError :=
  let '(db, r) := tx_commit (persist_mode (st_durability s)) (tx_db tx) (tx_writes tx) in
  (set_db s db, map_err FjallError.Io r).

Definition flush (s : Storage) : Storage * result () FjallError :=
  let '(db, r) := db_persist PersistSyncAll (st_db s) in (set_db s db, map_err FjallError.Io r).

(** ** Appending *)

Definition append_plan_err (id : StreamKey) (e : FjallPlanError) : AppendError FjallError :=
  match e with
  | PlanErrVersionOverflow => AppendStore FjallError.VersionOverflow
  | PlanErrGlobalSeqOverflow => AppendStore FjallError.GlobalSeqOverflow
  | PlanErrInvalidInput version reason => AppendStore (FjallError.InvalidInput (error_id id) version reason)
  end.

Definition fjall_validation_err (id : StreamKey) (e : AppendValidationError) : AppendError FjallError :=
  match e with
  | ValidationConflict _ expected actual => AppendConflict (error_id id) expected actual
  | ValidationVersionOverflow => AppendStore FjallError.VersionOverflow
  end.

(** What happens before the transaction is opened. *)
Definition prepare_append (id : StreamKey) (envelopes : PendingBatch.t)
  : outcome PreparedRun (AppendError FjallError) :=
  let! _ := Returns (map_err AppendStore (validate_key (sk_bytes id) MAX_STREAM_ID_LEN)) in
  outcome_map_err (append_plan_err id) (prepare_run envelopes).

(** What the transaction reads and stages. *)
Definition stage_append (mode : AllIndex) (tx : Tx) (id : StreamKey) (expected_version : option Version)
  (envelopes : PendingBatch.t) (prepared : PreparedRun) : result (Tx * Z) (AppendError FjallError) :=
  let? current_version := map_err AppendStore (read_version tx id) in
  let? _ := map_err (fjall_validation_err id)
    (validate_append_versions current_version expected_version envelopes id) in
  let? current_global := map_err AppendStore (read_global tx id) in
  let? planned := map_err (append_plan_err id) (plan_prepared_run current_version current_global id prepared) in
  let tx := fold_left (stage_event mode) (rows planned) tx in
  let tx := set_global tx (ending_global planned) in
  Ok (set_version tx (sk_bytes id) (new_version planned), ending_global planned).

Definition storage_append (s : Storage) (id : StreamKey) (expected_version : option Version)
  (envelopes : PendingBatch.t) : Storage * outcome GlobalSeq (AppendError FjallError) :=
  match prepare_append id envelopes with
  | Panics => (s, Panics)
  | Returns (Err e) => (s, Returns (Err e))
  | Returns (Ok prepared) =>
      match stage_append (st_mode s) (write_tx s) id expected_version envelopes prepared with
      | Err e => (s, Returns (Err e))
      | Ok (tx, ending) =>
          match commit s tx with
          | (s, Err e) => (s, Returns (Err (AppendStore e)))
          | (s, Ok _) =>
              (set_notifiers s (wake (st_notifiers s) (sk_bytes id)),
               Returns (ok_or (GlobalSeq.new ending) (AppendStore (FjallError.CorruptMeta (error_id id)))))
          end
      end
  end.

(** ** Scanning *)

(** [align_frame] only moves the bytes to an aligned address. *)
Definition align_frame (b : bytes) : bytes := b.

Definition build_envelope (value : bytes) (decoded : DecodedFrame) (raw_version : Z) (stream_id : ErrorId)
  : result PersistedEnvelope FjallError :=
  let? version := ok_or (new raw_version) (FjallError.CorruptValue stream_id (Some raw_version)) in
  map_err (FjallError.EnvelopeCorrupt stream_id raw_version)
    (PersistedEnvelope.try_new version (align_frame value) (df_schema_version decoded)
       (fo_event_type (df_offsets decoded)) (fo_payload (df_offsets decoded)) (fo_metadata (df_offsets decoded))).

(** [ScanStrategy]. *)
Class ScanStrategy (S : Type) := {
  SPosition : Type;
  SItem : Type;
  lower_key : S -> SPosition -> result bytes FjallError;
  upper_key : S -> result (option bytes) FjallError;
  scan_decode : S -> bytes -> bytes -> result SItem FjallError;
}.

Record StreamScan : Type := MkStreamScan { scan_id : StreamKey; scan_label : ErrorId }.
Inductive GlobalScan : Type := MkGlobalScan.

Definition stream_bound (s : StreamScan) (version : Z) : result bytes FjallError :=
  map_err (fun e => FjallError.InvalidInput (scan_label s) version (reason_label (encode_error_fmt e)))
    (encode_event_key (sk_bytes (scan_id s)) version).

Definition stream_decode (s : StreamScan) (key value : bytes) : result PersistedEnvelope FjallError :=
  let? (_, version) := map_err (fun _ => FjallError.CorruptValue (scan_label s) None) (decode_event_key key) in
  let? decoded := map_err (fun _ => FjallError.CorruptValue (scan_label s) (Some version)) (decode_frame value) in
  build_envelope value decoded version (scan_label s).

#[export] Instance stream_scan : ScanStrategy StreamScan := {
  SPosition := Version;
  SItem := PersistedEnvelope;
  lower_key s from := stream_bound s (as_u64 from);
  upper_key s := result_map Some (stream_bound s u64_max);
  scan_decode := stream_decode;
}.

Definition global_decode (key value : bytes) : result (GlobalSeq * StreamKey * PersistedEnvelope) FjallError :=
  let? (key_global_seq, id_bytes, version_raw) :=
    map_err (fun _ => FjallError.CorruptValue [] None) (decode_global_key key) in
  let id_len := len id_bytes in
  if bool_decide (id_bytes = []) then Err (FjallError.CorruptValue [] (Some version_raw))
  else
    let stream := StreamKey.from_bytes (slice key GLOBAL_KEY_PREFIX_SIZE (GLOBAL_KEY_PREFIX_SIZE + id_len)) in
    let label := error_id stream in
    let? position := ok_or (GlobalSeq.new key_global_seq) (FjallError.CorruptValue label (Some version_raw)) in
    let? decoded := map_err (fun _ => FjallError.CorruptValue label (Some version_raw)) (decode_frame value) in
    let? env := build_envelope value decoded version_raw label in
    Ok (position, stream, env).

#[export] Instance global_scan : ScanStrategy GlobalScan := {
  SPosition := GlobalSeq;
  SItem := GlobalSeq * StreamKey * PersistedEnvelope;
  lower_key _ from :=
    map_err (fun e => FjallError.InvalidInput [] (GlobalSeq.as_u64 from) (reason_label (encode_error_fmt e)))
      (encode_global_key (GlobalSeq.as_u64 from) [] 0);
  upper_key _ := Ok None;
  scan_decode _ := global_decode;
}.

Section cursor.
Context {S : Type} {SS : ScanStrategy S}.

(** [iter] is what the engine's iterator still yields from its snapshot. *)
Record ScanCursor : Type := MkScanCursor {
  iter : list (result (bytes * bytes) LsmError);
  strategy : S;
  poisoned : bool;
}.

Definition open_using (strategy : S) (from : SPosition)
  (range : bytes -> option bytes -> list (result (bytes * bytes) LsmError)) : result ScanCursor FjallError :=
  let? lower := lower_key strategy from in
  let? upper := upper_key strategy in
  Ok (MkScanCursor (range lower upper) strategy false).

(** [open_snapshot], and [open], whose iterator pins its own snapshot. *)
Definition open_snapshot (db : Db) (ks : Keyspace) (strategy : S) (from : SPosition) : result ScanCursor FjallError :=
  open_using strategy from (fun lower upper =>
    match upper with
    | Some upper => db_range db ks (Included lower) (Included upper)
    | None => db_range db ks (Included lower) Unbounded
    end).

Definition open_empty (db : Db) (ks : Keyspace) (strategy : S) : ScanCursor :=
  MkScanCursor (db_range db ks (Included [byte.of_Z 0]) (Excluded [byte.of_Z 0])) strategy false.

Definition next_sized (c : ScanCursor) : option (result SItem FjallError * Z) * ScanCursor :=
  if poisoned c then (None, c)
  else
    match iter c with
    | [] => (None, c)
    | Err e :: iter => (Some (Err (FjallError.Io e), 0), MkScanCursor iter (strategy c) true)
    | Ok (key, value) :: iter =>
        match checked_add usize_max (len key) (len value) with
        | None => (Some (Err FjallError.ScanLengthOverflow, 0), MkScanCursor iter (strategy c) true)
        | Some size =>
            let item := scan_decode (strategy c) key value in
            (Some (item, size), MkScanCursor iter (strategy c) (negb (is_ok item)))
        end
    end.

Definition poll_one (c : ScanCursor) : option (result SItem FjallError) * ScanCursor :=
  let '(r, c) := next_sized c in (fst <$> r, c).
End cursor.
Arguments ScanCursor S : clear implicits.

Definition storage_read_stream (s : Storage) (id : StreamKey) (from : Version)
  : result (ScanCursor StreamScan) FjallError :=
  let? _ := validate_key (sk_bytes id) MAX_STREAM_ID_LEN in
  open_snapshot (st_db s) Events (MkStreamScan id (error_id id)) from.

Definition storage_read_all (s : Storage) (from : option GlobalSeq) : result (ScanCursor GlobalScan) FjallError :=
  match st_mode s with
  | Disabled => Err FjallError.AllIndexDisabled
  | Denormalized =>
      match from_option GlobalSeq.next (Some GlobalSeq.INITIAL) from with
      | None => Ok (open_empty (st_db s) EventsGlobal MkGlobalScan)
      | Some after => open_snapshot (st_db s) EventsGlobal MkGlobalScan after
      end
  end.

(** ** Atomic appends *)

Definition atomic_plan_err (target : StreamKey) (e : FjallPlanError) : AtomicAppendError FjallError :=
  match e with
  | PlanErrVersionOverflow => AtomicStore FjallError.VersionOverflow
  | PlanErrGlobalSeqOverflow => AtomicStore FjallError.GlobalSeqOverflow
  | PlanErrInvalidInput version reason => AtomicStore (FjallError.InvalidInput (error_id target) version reason)
  end.

Fixpoint validate_atomic_writes (tx : Tx) (index : Z) (writes : list PlannedAppend)
  : result () (AtomicAppendError FjallError) :=
  match writes with
  | [] => Ok ()
  | w :: writes =>
      let? actual := map_err AtomicStore (read_version tx (target w)) in
      let expected := from_option as_u64 0 (planned_expected w) in
      if negb (actual =? expected) then Err (AtomicConflict index (new actual))
      else validate_atomic_writes tx (index + 1) writes
  end.

(** The loop of [write_atomic_runs]: the running position is threaded through. *)
Fixpoint stage_runs (mode : AllIndex) (tx : Tx) (global : Z) (prepared : list (PlannedAppend * PreparedRun))
  : result (Tx * Z) (AtomicAppendError FjallError) :=
  match prepared with
  | [] => Ok (tx, global)
  | (w, frames) :: prepared =>
      let current_version := from_option as_u64 0 (planned_expected w) in
      let? planned := map_err (atomic_plan_err (target w))
        (plan_prepared_run current_version global (target w) frames) in
      let tx := fold_left (stage_event mode) (rows planned) tx in
      let tx := set_version tx (sk_bytes (target w)) (new_version planned) in
      stage_runs mode tx (ending_global planned) prepared
  end.

(** [first] is the target of [prepared[0]]. *)
Definition write_atomic_runs (mode : AllIndex) (tx : Tx) (first : StreamKey)
  (prepared : list (PlannedAppend * PreparedRun)) : result (Tx * GlobalSeq) (AtomicAppendError FjallError) :=
  let? start_global := map_err AtomicStore (read_global tx first) in
  let? (tx, global) := stage_runs mode tx start_global prepared in
  let tx := set_global tx global in
  let? last := ok_or (GlobalSeq.new global) (AtomicStore (FjallError.CorruptMeta (error_id first))) in
  Ok (tx, last).

Fixpoint validate_targets (writes : list PlannedAppend) : result () (AtomicAppendError FjallError) :=
  match writes with
  | [] => Ok ()
  | w :: writes =>
      let? _ := map_err AtomicStore (validate_key (sk_bytes (target w)) MAX_STREAM_ID_LEN) in
      validate_targets writes
  end.

Fixpoint prepare_writes (writes : list PlannedAppend)
  : outcome (list (PlannedAppend * PreparedRun)) (AtomicAppendError FjallError) :=
  match writes with
  | [] => Returns (Ok [])
  | w :: writes =>
      let! frames := outcome_map_err (atomic_plan_err (target w)) (prepare_run (batch w)) in
      let! prepared := prepare_writes writes in
      Returns (Ok ((w, frames) :: prepared))
  end.

Definition prepare_atomic (writes : list PlannedAppend)
  : outcome (list (PlannedAppend * PreparedRun)) (AtomicAppendError FjallError) :=
  let! _ := Returns (map_err AtomicInvalidRoute (validate_distinct_targets (target <$> writes))) in
  let! _ := Returns (map_err AtomicInvalidRun (validate_atomic_runs writes)) in
  let! _ := Returns (validate_targets writes) in
  prepare_writes writes.

Definition storage_atomic_append (s : Storage) (writes : list PlannedAppend)
  : Storage * outcome (option GlobalSeq) (AtomicAppendError FjallError) :=
  match writes with
  | [] => (s, Returns (Ok None))
  | first :: _ =>
      match prepare_atomic writes with
      | Panics => (s, Panics)
      | Returns (Err e) => (s, Returns (Err e))
      | Returns (Ok prepared) =>
          let tx := write_tx s in
          match (let? _ := validate_atomic_writes tx 0 writes in
                 write_atomic_runs (st_mode s) tx (target first) prepared) with
          | Err e => (s, Returns (Err e))
          | Ok (tx, last_position) =>
              match commit s tx with
              | (s, Err e) => (s, Returns (Err (AtomicStore e)))
              | (s, Ok _) =>
                  (set_notifiers s (fold_left (fun n w => wake n (sk_bytes (target w))) writes (st_notifiers s)),
                   Returns (Ok (Some last_position)))
              end
          end
      end
  end.

(** ** Listing streams *)

Record StreamIdCursor : Type := MkStreamIdCursor {
  id_iter : list (result (bytes * bytes) LsmError);
  id_poisoned : bool;
}.

Definition stream_ids_after (db : Db) (after : option StreamKey) : list (result (bytes * bytes) LsmError) :=
  match after with
  | None => db_range db Streams Unbounded Unbounded
  | Some id => db_range db Streams (Excluded (sk_bytes id)) Unbounded
  end.

Definition id_poll_one (c : StreamIdCursor) : option (result StreamKey FjallError) * StreamIdCursor :=
  if id_poisoned c then (None, c)
  else
    match id_iter c with
    | [] => (None, c)
    | Ok (key, _) :: iter => (Some (Ok (StreamKey.from_bytes key)), MkStreamIdCursor iter false)
    | Err e :: iter => (Some (Err (FjallError.Io e)), MkStreamIdCursor iter true)
    end.

Definition id_next_row (c : StreamIdCursor) : option (result StreamKey FjallError * Z) * StreamIdCursor :=
  let '(r, c) := id_poll_one c in
  ((fun item => (item, match item with Ok id => len (sk_bytes id) | Err _ => 0 end)) <$> r, c).

Definition storage_list_streams (s : Storage) : StreamIdCursor := MkStreamIdCursor (stream_ids_after (st_db s) None) false.

(** ** Opening a database *)

Definition LAYOUT_VERSION : Z := 2.
Definition MANIFEST_KEY : bytes := text "layout".

Definition mode_byte (mode : AllIndex) : Z := match mode with Disabled => 0 | Denormalized => 1 end.

Definition check_manifest (value : bytes) (requested : AllIndex) : result () FjallError :=
  match value with
  | [version; mode] =>
      if negb (byte.unsigned version =? LAYOUT_VERSION)
      then Err (FjallError.UnsupportedLayout (byte.unsigned version))
      else
        let? stored := (match byte.unsigned mode with
                        | 0 => Ok Disabled
                        | 1 => Ok Denormalized
                        | _ => Err FjallError.InvalidManifest
                        end) in
        if negb (bool_decide (stored = requested)) then Err (FjallError.IndexModeMismatch stored requested) else Ok ()
  | _ => Err FjallError.InvalidManifest
  end.

(** The loop over the keyspaces of a database without a manifest. *)
Fixpoint require_empty (db : Db) (names : list Keyspace) : Db * result () FjallError :=
  match names with
  | [] => (db, Ok ())
  | name :: names =>
      match db_keyspace db name with
      | (db, Err e) => (db, Err (FjallError.Io e))
      | (db, Ok _) =>
          match tx_is_empty db [] name with
          | Err e => (db, Err (FjallError.Io e))
          | Ok false => (db, Err FjallError.UnmarkedDatabase)
          | Ok true => require_empty db names
          end
      end
  end.

Definition validate_manifest (db : Db) (requested : AllIndex) : Db * result () FjallError :=
  match db_keyspace db MnesisMeta with
  | (db, Err e) => (db, Err (FjallError.Io e))
  | (db, Ok _) =>
      match tx_get db [] MnesisMeta MANIFEST_KEY with
      | Err e => (db, Err (FjallError.Io e))
      | Ok (Some value) => (db, check_manifest value requested)
      | Ok None =>
          match require_empty db (db_keyspaces db) with
          | (db, Err e) => (db, Err e)
          | (db, Ok _) =>
              let value := [byte.of_Z LAYOUT_VERSION; byte.of_Z (mode_byte requested)] in
              let '(db, r) := tx_commit PersistSyncAll db [MkWriteRow MnesisMeta MANIFEST_KEY value] in
              (db, map_err FjallError.Io r)
          end
      end
  end.

Fixpoint open_keyspaces (db : Db) (names : list Keyspace) : Db * result () FjallError :=
  match names with
  | [] => (db, Ok ())
  | name :: names =>
      match db_keyspace db name with
      | (db, Err e) => (db, Err (FjallError.Io e))
      | (db, Ok _) => open_keyspaces db names
      end
  end.

(** [open], once the engine has opened its directory. *)
Definition storage_open (db : Db) (all_index : AllIndex) (durability : Durability) : Db * result Storage FjallError :=
  match validate_manifest db all_index with
  | (db, Err e) => (db, Err e)
  | (db, Ok _) =>
      match open_keyspaces db [Streams; Events; EventsGlobal; Snapshots; CheckpointsGlobal; CheckpointsStream; Global] with
      | (db, Err e) => (db, Err e)
      | (db, Ok _) => (db, Ok (MkStorage durability db all_index notifiers_new))
      end
  end.

End fjall.
Arguments ScanCursor {L} S.
