(* ===== verification/FjallSpec.v ===== *)
(** * The embedded adapter: correctness

    [db_represents mode l c]: the content [c] of the engine's keyspaces stores the
    event log [l].  An append moves from one represented log to the next in one
    commit, a stream scan reads one stream of it in version order, an [$all] scan
    the whole of it in position order.  On an engine whose calls succeed the
    adapter meets the contracts of [RawStore] and [Import], so everything proved
    of repositories, subscriptions and imports against those contracts holds of
    it. *)

From stdpp Require Import sorting.
From S2P Require Import Prelude Utf8 ErrorId Version Value Wire Envelope RawStore Wake Import Log WireKey Lsm Fjall.

(** ** Rows *)

(** The rows of a stream from version [v] on, and of the log from position [g] on. *)
Fixpoint stream_rows (id : bytes) (v : Z) (envs : list PendingEnvelope) : list (bytes * bytes) :=
  match envs with
  | [] => []
  | pe :: envs => (event_key id v, frame_bytes pe) :: stream_rows id (v + 1) envs
  end.

Fixpoint log_rows (g : Z) (l : Log) : list (bytes * bytes) :=
  match l with
  | [] => []
  | (id, pe) :: l => (global_key g (sk_bytes id) (as_u64 (pe_version pe)), frame_bytes pe) :: log_rows (g + 1) l
  end.

Lemma elem_of_stream_rows id v envs k b :
  (k, b) ∈ stream_rows id v envs <->
  exists i pe, envs !! i = Some pe /\ k = event_key id (v + Z.of_nat i) /\ b = frame_bytes pe.
Proof.
  revert v. induction envs as [|pe envs IH]; intros v; simpl.
  { split; [by intros []%elem_of_nil|]. intros (i & pe & Hi & _). by rewrite lookup_nil in Hi. }
  rewrite elem_of_cons, IH. split.
  - intros [[= -> ->]|(i & pe' & Hi & -> & ->)].
    + exists O, pe. simpl. by rewrite Z.add_0_r.
    + exists (S i), pe'. split_and!; [done|f_equal; lia|done].
  - intros ([|i] & pe' & Hi & -> & ->); simpl in Hi.
    + injection Hi as ->. left. by rewrite Z.add_0_r.
    + right. exists i, pe'. split_and!; [done|f_equal; lia|done].
Qed.

Lemma elem_of_log_rows g l k b :
  (k, b) ∈ log_rows g l <->
  exists i id pe, l !! i = Some (id, pe) /\
    k = global_key (g + Z.of_nat i) (sk_bytes id) (as_u64 (pe_version pe)) /\ b = frame_bytes pe.
Proof.
  revert g. induction l as [|[id pe] l IH]; intros g; simpl.
  { split; [by intros []%elem_of_nil|]. intros (i & id & pe & Hi & _). by rewrite lookup_nil in Hi. }
  rewrite elem_of_cons, IH. split.
  - intros [[= -> ->]|(i & id' & pe' & Hi & -> & ->)].
    + exists O, id, pe. simpl. by rewrite Z.add_0_r.
    + exists (S i), id', pe'. split_and!; [done|f_equal; lia|done].
  - intros ([|i] & id' & pe' & Hi & -> & ->); simpl in Hi.
    + injection Hi as -> ->. left. by rewrite Z.add_0_r.
    + right. exists i, id', pe'. split_and!; [done|f_equal; lia|done].
Qed.

Lemma stream_rows_sorted (id : bytes) v envs :
  len id <= MAX_STREAM_ID_LEN -> 0 <= v -> v + len envs - 1 <= u64_max -> StronglySorted key_lt (stream_rows id v envs).
Proof.
  intros Hid. revert v. induction envs as [|pe envs IH]; intros v Hv Hb; simpl; [constructor|].
  rewrite len_cons in Hb. pose proof (len_nonneg envs). constructor; [apply IH; lia|].
  apply Forall_forall. intros [k b] (i & pe' & Hi & -> & ->)%elem_of_stream_rows.
  apply lookup_lt_Some in Hi. unfold key_lt. simpl. unfold len in *.
  apply event_key_lt; [done|done|lia|lia|]. right. split; [done|]. right. split; [done|lia].
Qed.

Lemma log_rows_sorted g l : 0 <= g -> g + len l - 1 <= u64_max -> StronglySorted key_lt (log_rows g l).
Proof.
  revert g. induction l as [|[id pe] l IH]; intros g Hg Hb; simpl; [constructor|].
  rewrite len_cons in Hb. pose proof (len_nonneg l). constructor; [apply IH; lia|].
  apply Forall_forall. intros [k b] (i & id' & pe' & Hi & -> & ->)%elem_of_log_rows.
  apply lookup_lt_Some in Hi. unfold key_lt. simpl. unfold len in *. apply global_key_lt; lia.
Qed.

(** Sorted keys are distinct. *)
Lemma sorted_keys_NoDup rows : StronglySorted key_lt rows -> NoDup rows.*1.
Proof.
  induction 1 as [|[k v] rows Hs IH Hx]; csimpl; [constructor|]. constructor; [|done].
  intros ([k' v'] & -> & Hin)%list_elem_of_fmap. rewrite Forall_forall in Hx.
  apply (lex_lt_irrefl k'), (Hx _ Hin).
Qed.

Lemma stream_rows_app id v es1 es2 : stream_rows id v (es1 ++ es2) = stream_rows id v es1 ++ stream_rows id (v + len es1) es2.
Proof.
  revert v. induction es1 as [|pe es1 IH]; intros v; simpl; [by rewrite Z.add_0_r|].
  rewrite IH, len_cons. do 3 f_equal. lia.
Qed.

(** ** The log a database represents *)

(** The stored counter of a number of events. *)
Definition counter (n : Z) : option bytes := if n =? 0 then None else Some (to_le_bytes 8 n).

Definition entry_ok (e : StreamKey * PendingEnvelope) : Prop :=
  pending_ok e.2 /\ fits e.2 /\ valid_id (sk_bytes e.1).

(** Everything but the position counter. *)
Record rows_represent (mode : AllIndex) (l : Log) (c : content) : Prop := MkRowsRepresent {
  rr_ok : Forall entry_ok l;
  rr_versions : forall id, consecutive 1 (versions (log_stream id l));
  rr_bound : len l <= u64_max;
  rr_streams : forall id, c Streams !! sk_bytes id = counter (len (log_stream id l));
  rr_events : forall k v, c Events !! k = Some v <-> exists id, (k, v) ∈ stream_rows (sk_bytes id) 1 (log_stream id l);
  rr_all : mode = Denormalized -> forall k v, c EventsGlobal !! k = Some v <-> (k, v) ∈ log_rows 1 l;
}.

Record db_represents (mode : AllIndex) (l : Log) (c : content) : Prop := MkDbRepresents {
  dr_rows : rows_represent mode l c;
  dr_global : c Global !! GLOBAL_SEQ_KEY = counter (len l);
}.

Lemma rows_represent_ext mode l c c' :
  (forall ks, ks <> Global -> c' ks = c ks) -> rows_represent mode l c -> rows_represent mode l c'.
Proof. intros E [H1 H2 H3 H4 H5 H6]. split; try done; intros; rewrite E by done; auto. Qed.

Lemma db_represents_ext mode l c c' : (forall ks, c' ks = c ks) -> db_represents mode l c -> db_represents mode l c'.
Proof. intros E [H1 H2]. split; [eapply rows_represent_ext; [|done]; auto|by rewrite E]. Qed.

Lemma log_stream_id_ok mode l c id pe :
  rows_represent mode l c -> pe ∈ log_stream id l -> valid_id (sk_bytes id) /\ pending_ok pe /\ fits pe.
Proof.
  intros Hr. unfold log_stream. intros ([id' pe'] & -> & [Hid Hin]%list_elem_of_filter)%list_elem_of_fmap.
  simpl in *. subst id'. pose proof (rr_ok _ _ _ Hr) as Hok. rewrite Forall_forall in Hok.
  destruct (Hok _ Hin) as (? & ? & ?). done.
Qed.

Lemma stream_bound_len mode l c id : rows_represent mode l c -> 0 <= len (log_stream id l) <= u64_max.
Proof. intros Hr. pose proof (rr_bound _ _ _ Hr). pose proof (len_log_stream id l). pose proof (len_nonneg (log_stream id l)). lia. Qed.

Lemma represents_empty mode c :
  c Streams = ∅ -> c Events = ∅ -> c EventsGlobal = ∅ -> c Global = ∅ -> db_represents mode [] c.
Proof.
  intros H1 H2 H3 H4. split; [split|]; simpl; try done.
  - intros id. by rewrite H1, lookup_empty.
  - intros k v. rewrite H2, lookup_empty. split; [done|]. by intros [id []%elem_of_nil].
  - intros _ k v. rewrite H3, lookup_empty. split; [done|by intros []%elem_of_nil].
  - by rewrite H4, lookup_empty.
Qed.

Lemma log_rows_app g l1 l2 : log_rows g (l1 ++ l2) = log_rows g l1 ++ log_rows (g + len l1) l2.
Proof.
  revert g. induction l1 as [|[id pe] l1 IH]; intros g; simpl; [by rewrite Z.add_0_r|].
  rewrite IH, len_cons. do 3 f_equal. lia.
Qed.

(** The old and the new event keys of an extended log are disjoint. *)
Lemma old_key_not_new mode l c id id' es k v :
  rows_represent mode l c -> valid_id (sk_bytes id) -> len (log_stream id l) + len es <= u64_max ->
  (k, v) ∈ stream_rows (sk_bytes id') 1 (log_stream id' l) ->
  k ∉ (stream_rows (sk_bytes id) (len (log_stream id l) + 1) es).*1.
Proof.
  intros Hr [_ Hid] Hb (i & pe & Hi & -> & _)%elem_of_stream_rows.
  destruct (log_stream_id_ok _ _ _ id' pe Hr) as [[_ Hid'] _]; [by eapply list_elem_of_lookup_2|].
  pose proof (stream_bound_len _ _ _ id' Hr) as Hb'. pose proof (lookup_lt_Some _ _ _ Hi) as Hlt.
  pose proof (stream_bound_len _ _ _ id Hr).
  intros ([k' v'] & Hk & (j & pe' & Hj & -> & _)%elem_of_stream_rows)%list_elem_of_fmap. simpl in Hk.
  apply lookup_lt_Some in Hj. unfold len in *.
  apply event_key_inj in Hk as [E ?]; [|done|done|lia|lia].
  destruct id, id'. simpl in E. subst. lia.
Qed.

(** Staged writes that store a run at the end of a stream. *)
Record stages_run (mode : AllIndex) (l : Log) (id : StreamKey) (es : list PendingEnvelope) (ws : list write) : Prop := MkStagesRun {
  sr_streams : writes_in Streams ws = [(sk_bytes id, encode_stream_version (len (log_stream id l) + len es))];
  sr_events : writes_in Events ws = stream_rows (sk_bytes id) (len (log_stream id l) + 1) es;
  sr_all : mode = Denormalized -> writes_in EventsGlobal ws = log_rows (len l + 1) (tag_log id es);
}.

Lemma rows_extend mode l c id es ws :
  rows_represent mode l c -> stages_run mode l id es ws -> es <> [] ->
  valid_id (sk_bytes id) -> Forall pending_ok es -> Forall fits es ->
  consecutive (len (log_stream id l) + 1) (versions es) -> len l + len es <= u64_max ->
  rows_represent mode (l ++ tag_log id es) (apply_writes c ws).
Proof.
  intros Hr [Hws1 Hws2 Hws3] Hne Hid Hok Hf Hc Hb.
  pose proof (len_log_stream id l) as Hls. pose proof (stream_bound_len _ _ _ id Hr) as Hsb. destruct (Hid) as [_ Hid2].
  pose proof (len_nonneg es). split.
  - apply Forall_app. split; [apply (rr_ok _ _ _ Hr)|]. unfold tag_log. rewrite Forall_fmap.
    rewrite Forall_forall in *. intros pe Hpe. split_and!; [by apply Hok|by apply Hf|done].
  - intros k. apply consecutive_extend; [apply (rr_versions _ _ _ Hr)|done].
  - rewrite len_app, len_tag_log. lia.
  - intros k. rewrite apply_writes_in, Hws1. simpl. rewrite log_stream_app, len_app.
    destruct (decide (k = id)) as [->|Hk].
    + rewrite lookup_insert_eq, log_stream_tag. unfold counter, encode_stream_version.
      rewrite (proj2 (Z.eqb_neq _ _)); [done|]. destruct es; [done|]. rewrite len_cons in *. pose proof (len_nonneg es). lia.
    + rewrite lookup_insert_ne by (destruct k, id; simpl; congruence).
      rewrite log_stream_tag_ne, len_nil, Z.add_0_r by done. apply (rr_streams _ _ _ Hr).
  - intros k v. rewrite apply_writes_in, Hws2, insert_rows_lookup
      by (apply sorted_keys_NoDup, stream_rows_sorted; [done|lia|lia]).
    rewrite (rr_events _ _ _ Hr). split.
    + intros [Hin|[_ [id' Hin]]].
      * exists id. rewrite log_stream_app, log_stream_tag, stream_rows_app. apply elem_of_app. right. by rewrite Z.add_comm.
      * exists id'. rewrite log_stream_app, stream_rows_app. apply elem_of_app. by left.
    + intros [id' Hin]. rewrite log_stream_app, stream_rows_app in Hin. apply elem_of_app in Hin as [Hin|Hin].
      * right. split; [by eapply old_key_not_new; [exact Hr|done|lia|]|by exists id'].
      * left. destruct (decide (id' = id)) as [->|?].
        -- rewrite log_stream_tag, Z.add_comm in Hin. done.
        -- rewrite log_stream_tag_ne in Hin by done. by apply elem_of_nil in Hin.
  - intros Hm k v. rewrite apply_writes_in, Hws3 by done.
    assert (len (tag_log id es) = len es) as Hlt by apply len_tag_log. pose proof (len_nonneg l).
    rewrite insert_rows_lookup by (apply sorted_keys_NoDup, log_rows_sorted; lia).
    rewrite (rr_all _ _ _ Hr Hm), log_rows_app, elem_of_app. rewrite (Z.add_comm 1). split; [tauto|].
    intros [Hin|?]; [|by left]. right. split; [|done].
    apply elem_of_log_rows in Hin as (i & id1 & pe1 & Hi & -> & _). apply lookup_lt_Some in Hi.
    intros ([k' v'] & Hk & (j & id2 & pe2 & Hj & -> & _)%elem_of_log_rows)%list_elem_of_fmap. simpl in Hk.
    apply lookup_lt_Some in Hj. unfold len in *. apply global_key_inj in Hk; lia.
Qed.

Section spec.
Context {T : Target} {AS : ArrayString} {W : Watch} {L : Lsm}.

(** ** Planning *)

Lemma validate_key_Ok key max : 0 <= max -> is_ok (validate_key key max) = true <-> 1 <= len key <= max.
Proof.
  intros Hm. unfold validate_key. case_bool_decide as E; simpl.
  - subst. rewrite len_nil. split; [done|lia].
  - destruct key as [|b key]; [done|]. rewrite len_cons in *. pose proof (len_nonneg key).
    destruct (Z.ltb_spec max (1 + len key)); simpl; split; done || lia.
Qed.

Lemma validate_id id : is_ok (validate_key (sk_bytes id) MAX_STREAM_ID_LEN) = true <-> valid_id (sk_bytes id).
Proof. by apply validate_key_Ok. Qed.

Lemma prepare_frames_spec es :
  Forall pending_ok es ->
  (Forall fits es /\ prepare_frames es = Returns (Ok (frame_bytes <$> es))) \/
  (~ Forall fits es /\ exists v r, prepare_frames es = Returns (Err (PlanErrInvalidInput v r))).
Proof.
  induction 1 as [|pe es (He & Hp & Hm) Hes IH]; [by left|]. cbn [prepare_frames].
  destruct (decide (fits pe)) as [Hf|Hnf].
  - rewrite encode_frame_bytes by done. cbn [outcome_map_err map_err outcome_bind].
    destruct IH as [[Hfs ->]|[Hnf (v & r & ->)]]; [left|right]; (split; [|by eauto]).
    + by constructor.
    + by intros [_ ?]%Forall_cons.
  - right. split; [by intros [? _]%Forall_cons|].
    destruct (compute_layout_Err (et_bytes (pe_event_type pe)) (md_bytes <$> pe_metadata pe)
      (pl_bytes (pe_payload pe))) as (h & p & E); [unfold fits in Hnf; lia|].
    unfold encode_frame, plan. rewrite E. simpl. eauto.
Qed.

(** The rows a plan gives to the run that continues a stream of [v] events. *)
Fixpoint planned_rows (id : bytes) (v g : Z) (es : list PendingEnvelope) : list StagedRow :=
  match es with
  | [] => []
  | pe :: es => MkStagedRow (event_key id (v + 1)) (global_key (g + 1) id (v + 1)) (frame_bytes pe)
                  :: planned_rows id (v + 1) (g + 1) es
  end.

Lemma plan_rows_spec id v g es :
  valid_id id -> v <= u64_max -> g <= u64_max ->
  (v + len es <= u64_max /\ g + len es <= u64_max ->
     plan_rows id v g (frame_bytes <$> es) = Ok (planned_rows id v g es, v + len es, g + len es)) /\
  (~ (v + len es <= u64_max /\ g + len es <= u64_max) ->
     exists e, plan_rows id v g (frame_bytes <$> es) = Err e /\ (e = PlanErrVersionOverflow \/ e = PlanErrGlobalSeqOverflow)).
Proof.
  intros Hid. revert v g. induction es as [|pe es IH]; intros v g Hv Hg.
  { rewrite len_nil, !Z.add_0_r. split; [done|]. intros []. done. }
  rewrite len_cons. csimpl. pose proof (len_nonneg es).
  destruct (checked_add u64_max v 1) as [v'|] eqn:Ev; cbn [ok_or result_bind].
  2:{ apply checked_add_None in Ev. split; [lia|]. intros _. eauto. }
  apply checked_add_Some in Ev as [-> Hv'].
  destruct (checked_add u64_max g 1) as [g'|] eqn:Eg; cbn [ok_or result_bind].
  2:{ apply checked_add_None in Eg. split; [lia|]. intros _. eauto. }
  apply checked_add_Some in Eg as [-> Hg'].
  rewrite encode_event_key_ok, encode_global_key_ok by (done || apply Hid). cbn [map_err result_bind].
  destruct (IH (v + 1) (g + 1) Hv' Hg') as [IH1 IH2]. split; intros Hb.
  - rewrite IH1 by lia. cbn [result_bind]. by rewrite !Z.add_assoc.
  - destruct IH2 as (e & -> & He); [lia|]. eauto.
Qed.

(** ** Staging *)

Definition row_writes (mode : AllIndex) (row : StagedRow) : list write :=
  MkWriteRow Events (row_event_key row) (row_frame row) ::
  match mode with
  | Denormalized => [MkWriteRow EventsGlobal (row_global_key row) (row_frame row)]
  | Disabled => []
  end.

Lemma stage_event_writes mode tx row : stage_event mode tx row = MkTx (tx_db tx) (tx_writes tx ++ row_writes mode row).
Proof. destruct mode; [|done]. unfold stage_event, tx_insert. simpl. by rewrite <- app_assoc. Qed.

Lemma stage_events_writes mode rs tx :
  fold_left (stage_event mode) rs tx = MkTx (tx_db tx) (tx_writes tx ++ (rs ≫= row_writes mode)).
Proof.
  revert tx. induction rs as [|r rs IH]; intros tx; simpl.
  - rewrite app_nil_r. by destruct tx.
  - rewrite IH, stage_event_writes. simpl. by rewrite <- app_assoc.
Qed.

Lemma planned_writes mode (id : StreamKey) v g es :
  consecutive (v + 1) (versions es) ->
  let ws := planned_rows (sk_bytes id) v g es ≫= row_writes mode in
  writes_in Streams ws = [] /\ writes_in Global ws = [] /\
  writes_in Events ws = stream_rows (sk_bytes id) (v + 1) es /\
  (mode = Denormalized -> writes_in EventsGlobal ws = log_rows (g + 1) (tag_log id es)).
Proof.
  revert v g. induction es as [|pe es IH]; intros v g; [done|]. intros [Hv Hc]. cbn zeta.
  destruct (IH (v + 1) (g + 1) Hc) as (H1 & H2 & H3 & H4).
  cbn [planned_rows mbind list_bind]. fold (mbind (M := list) (row_writes mode)). rewrite !writes_in_app.
  rewrite H1, H2, H3. split_and!; [by destruct mode|by destruct mode|by destruct mode|].
  intros ->. rewrite H4 by done. unfold tag_log. csimpl. by rewrite Hv.
Qed.

Context {LS : LsmSpec}.

(** The store holds the log [l]. *)
Definition stores (s : Storage) (l : Log) : Prop := db_represents (st_mode s) l (content_of (st_db s)).

Lemma stores_other s s' l :
  st_mode s' = st_mode s ->
  (forall ks, ks = Streams \/ ks = Events \/ ks = EventsGlobal \/ ks = Global -> content_of (st_db s') ks = content_of (st_db s) ks) ->
  stores s l -> stores s' l.
Proof.
  intros Hm Hc [[H1 H2 H3 H4 H5 H6] Hg]. unfold stores. rewrite Hm.
  split; [split; try done; intros; rewrite Hc by tauto; auto|rewrite Hc by tauto; done].
Qed.

Lemma counter_range n : 0 <= n <= u64_max -> forall b, counter n = Some b -> len b = 8 /\ from_le_bytes b = n.
Proof.
  intros Hn b. unfold counter. destruct (n =? 0); [done|]. intros [= <-]. split; [apply len_to_le_bytes|].
  by apply from_to_le_bytes, u64_be.
Qed.

Lemma counter_None n : counter n = None -> n = 0.
Proof. unfold counter. by destruct (Z.eqb_spec n 0). Qed.

Lemma read_version_spec s l id :
  stores s l ->
  read_version (write_tx s) id = Ok (len (log_stream id l)) \/
  exists e, tx_get (st_db s) [] Streams (sk_bytes id) = Err e /\ read_version (write_tx s) id = Err (FjallError.Io e).
Proof.
  intros [Hr _]. unfold read_version. simpl.
  destruct (tx_get (st_db s) [] Streams (sk_bytes id)) as [v|e] eqn:E; [left|right; by eauto].
  apply tx_get_spec in E. simpl in E. rewrite (rr_streams _ _ _ Hr) in E. subst v. cbn [map_err result_bind].
  pose proof (stream_bound_len _ _ _ id Hr) as Hb.
  destruct (counter (len (log_stream id l))) as [b|] eqn:Ec; [|by rewrite (counter_None _ Ec)].
  destruct (counter_range _ Hb _ Ec) as [Hl Hd]. unfold decode_stream_version. rewrite Hl. simpl. by rewrite Hd.
Qed.

Lemma read_global_spec s l id :
  stores s l ->
  read_global (write_tx s) id = Ok (len l) \/
  exists e, tx_get (st_db s) [] Global GLOBAL_SEQ_KEY = Err e /\ read_global (write_tx s) id = Err (FjallError.Io e).
Proof.
  intros [Hr Hg]. unfold read_global. simpl.
  destruct (tx_get (st_db s) [] Global GLOBAL_SEQ_KEY) as [v|e] eqn:E; [left|right; by eauto].
  apply tx_get_spec in E. simpl in E. rewrite Hg in E. subst v. cbn [map_err result_bind].
  pose proof (rr_bound _ _ _ Hr) as Hb. pose proof (len_nonneg l).
  destruct (counter (len l)) as [b|] eqn:Ec; [|by rewrite (counter_None _ Ec)].
  destruct (counter_range (len l) ltac:(lia) _ Ec) as [Hl Hd]. by rewrite Hl, Hd.
Qed.

(** ** Appending *)

Lemma prepare_append_spec id b :
  batch_ok b ->
  (valid_id (sk_bytes id) /\ Forall fits (PendingBatch.iter b) /\
     prepare_append id b = Returns (Ok (MkPreparedRun (frame_bytes <$> PendingBatch.iter b)))) \/
  (~ (valid_id (sk_bytes id) /\ Forall fits (PendingBatch.iter b)) /\
     exists e, prepare_append id b = Returns (Err (AppendStore e))).
Proof.
  intros Hb. unfold prepare_append. pose proof (validate_id id) as Hv.
  destruct (validate_key (sk_bytes id) MAX_STREAM_ID_LEN) as [[]|e]; cbn [is_ok map_err outcome_bind] in *.
  2:{ right. split; [intros [?%Hv _]; done|by eauto]. }
  unfold prepare_run. destruct (prepare_frames_spec (PendingBatch.iter b) Hb) as [[Hf ->]|[Hnf (v & r & ->)]].
  - left. split_and!; [by apply Hv|done|done].
  - right. split; [tauto|]. simpl. eauto.
Qed.

(** The writes of an accepted append. *)
Definition append_writes (mode : AllIndex) (l : Log) (id : StreamKey) (es : list PendingEnvelope) : list write :=
  (planned_rows (sk_bytes id) (len (log_stream id l)) (len l) es ≫= row_writes mode) ++
  [MkWriteRow Global GLOBAL_SEQ_KEY (to_le_bytes 8 (len l + len es));
   MkWriteRow Streams (sk_bytes id) (encode_stream_version (len (log_stream id l) + len es))].

Lemma append_writes_store mode l c id es :
  db_represents mode l c -> es <> [] -> valid_id (sk_bytes id) -> Forall pending_ok es -> Forall fits es ->
  consecutive (len (log_stream id l) + 1) (versions es) -> len l + len es <= u64_max ->
  db_represents mode (l ++ tag_log id es) (apply_writes c (append_writes mode l id es)).
Proof.
  intros [Hr _] Hne Hid Hok Hf Hc Hb.
  destruct (planned_writes mode id _ (len l) es Hc) as (H1 & H2 & H3 & H4). unfold append_writes. split.
  - apply rows_extend; try done. split; rewrite ?writes_in_app, ?H1, ?H3; try done.
    + by rewrite app_nil_r.
    + intros Hm. by rewrite H4, app_nil_r.
  - rewrite apply_writes_in, writes_in_app, H2. simpl. rewrite lookup_insert_eq, len_app, len_tag_log.
    unfold counter. destruct es as [|pe es]; [done|]. rewrite len_cons. pose proof (len_nonneg l). pose proof (len_nonneg es).
    by rewrite (proj2 (Z.eqb_neq _ _)) by lia.
Qed.

(** What the transaction of an append stages, or why it stages nothing. *)
Lemma stage_append_spec s l id expected b :
  stores s l -> valid_id (sk_bytes id) ->
  let es := PendingBatch.iter b in
  let n := len (log_stream id l) in
  let prepared := MkPreparedRun (frame_bytes <$> es) in
  (expected = head_version n /\ consecutive (n + 1) (versions es) /\ len l + len es <= u64_max /\
     stage_append (st_mode s) (write_tx s) id expected b prepared =
       Ok (MkTx (st_db s) (append_writes (st_mode s) l id es), len l + len es)) \/
  (exists e, stage_append (st_mode s) (write_tx s) id expected b prepared = Err e /\
     ((exists io, e = AppendStore (FjallError.Io io) /\
         (tx_get (st_db s) [] Streams (sk_bytes id) = Err io \/ tx_get (st_db s) [] Global GLOBAL_SEQ_KEY = Err io)) \/
      (expected <> head_version n /\ e = AppendConflict (error_id id) expected (head_version n)) \/
      (expected = head_version n /\ ~ consecutive (n + 1) (versions es)) \/
      (expected = head_version n /\ u64_max < len l + len es /\ exists f, e = AppendStore f))).
Proof.
  intros Hs Hid es n prepared. unfold stage_append.
  destruct (read_version_spec s l id Hs) as [->|(io & Ht & ->)]; cbn [map_err result_bind].
  2:{ right. eexists. split; [done|]. left. eauto. }
  fold n. destruct (decide (expected = head_version n)) as [He|Hne].
  2:{ right. unfold validate_append_versions. fold (head_version n). rewrite bool_decide_false by done.
      eexists. split; [done|]. right. left. done. }
  destruct (validate_append_versions n expected b id) as [[]|e] eqn:Ev; cbn [map_err result_bind].
  2:{ right. eexists. split; [done|]. right. right. left. split; [done|]. intros Hc.
      unfold validate_append_versions in Ev. fold (head_version n) in Ev. rewrite bool_decide_true in Ev by done.
      cbn [negb] in Ev. apply (validate_sequence_Ok id) in Hc. unfold es in Hc. by rewrite Ev in Hc. }
  assert (consecutive (n + 1) (versions es)) as Hc.
  { unfold validate_append_versions in Ev. fold (head_version n) in Ev. rewrite bool_decide_true in Ev by done.
    cbn [negb] in Ev. apply (validate_sequence_Ok id). unfold es. by rewrite Ev. }
  destruct (read_global_spec s l id Hs) as [->|(io & Ht & ->)]; cbn [map_err result_bind].
  2:{ right. eexists. split; [done|]. left. eauto. }
  destruct Hs as [Hr Hg]. pose proof (stream_bound_len _ _ _ id Hr). pose proof (rr_bound _ _ _ Hr).
  pose proof (len_log_stream id l).
  destruct (plan_rows_spec (sk_bytes id) n (len l) es Hid ltac:(lia) ltac:(lia)) as [Hp1 Hp2].
  unfold plan_prepared_run, prepared. cbn [frames].
  destruct (decide (len l + len es <= u64_max)) as [Hle|Hgt].
  - left. rewrite Hp1 by lia. cbn [map_err result_bind rows ending_global new_version].
    rewrite stage_events_writes. split_and!; try done. unfold set_version, set_global, tx_insert.
    cbn [tx_db tx_writes write_tx]. unfold append_writes. rewrite app_nil_l, <- app_assoc. done.
  - right. destruct Hp2 as (e & He2 & Hor); [lia|]. rewrite He2. cbn [map_err result_bind].
    eexists. split; [done|]. right. right. right. split; [done|]. split; [lia|].
    destruct Hor as [-> | ->]; eexists; done.
Qed.

(** The commit of some transaction reports the engine error [io]. *)
Definition commit_fails (s : Storage) (io : LsmError) : Prop :=
  exists ws, (tx_commit (persist_mode (st_durability s)) (st_db s) ws).2 = Err io.

(** The outcomes of an append against the log, with or without engine errors. *)
Lemma storage_append_spec s l id expected b :
  stores s l -> batch_ok b ->
  let es := PendingBatch.iter b in
  let n := len (log_stream id l) in
  match storage_append s id expected b with
  | (_, Panics) => False
  | (s', Returns (Ok p)) =>
      stores s' (l ++ tag_log id es) /\ GlobalSeq.as_u64 p = len l + len es /\
      st_notifiers s' = wake (st_notifiers s) (sk_bytes id) /\
      valid_id (sk_bytes id) /\ Forall fits es /\
      expected = head_version n /\ consecutive (n + 1) (versions es) /\ len l + len es <= u64_max
  | (s', Returns (Err e)) =>
      st_notifiers s' = st_notifiers s /\
      (stores s' l \/ (stores s' (l ++ tag_log id es) /\ expected = head_version n /\
         exists io, e = AppendStore (FjallError.Io io) /\ commit_fails s io))
  end.
Proof.
  intros Hs Hb es n. unfold storage_append.
  destruct (prepare_append_spec id b Hb) as [(Hid & Hf & ->)|[_ [e ->]]]; [|split; [done|by left]].
  destruct (stage_append_spec s l id expected b Hs Hid) as [(He & Hc & Hle & ->)|(e & -> & _)]; [|split; [done|by left]].
  assert (db_represents (st_mode s) (l ++ tag_log id es) (apply_writes (content_of (st_db s)) (append_writes (st_mode s) l id es)))
    as Hnew by (by apply append_writes_store).
  unfold commit. cbn [tx_db tx_writes].
  destruct (tx_commit _ (st_db s) _) as [db' [[]|io]] eqn:Ec; cbn [map_err].
  - pose proof (tx_commit_ok _ _ _ _ Ec) as Hc'.
    assert (1 <= len l + len es) as Hpos by (unfold es, PendingBatch.iter; rewrite len_cons;
      pose proof (len_nonneg l); pose proof (len_nonneg (PendingBatch.rest b)); lia).
    destruct (GlobalSeq.new (len l + len es)) as [p|] eqn:Ep.
    2:{ apply fmap_None, nz_new_None in Ep. unfold es in *. lia. }
    unfold es in Ep. rewrite Ep. cbn [ok_or]. apply fmap_Some in Ep as (nz & Enz & ->). apply nz_new_Some in Enz.
    split_and!; try done. by apply (db_represents_ext _ _ _ _ Hc').
  - split; [done|]. destruct (tx_commit_err _ _ _ _ _ Ec) as [Hsame|Hall].
    + left. by apply (db_represents_ext _ _ _ _ Hsame).
    + right. split; [by apply (db_represents_ext _ _ _ _ Hall)|]. split; [done|]. exists io. split; [done|].
      eexists. by rewrite Ec.
Qed.

(** C7: an append to the embedded store is atomic on any engine that commits
    atomically, whatever engine calls fail: when it returns a position the log has
    grown by the whole batch and the position is the last event's; when it returns
    an error the log is unchanged, or, only if the engine's commit reported that
    error, has grown by the whole batch; it never stores a part, never panics and wakes
    subscribers exactly when it succeeds. *)
Theorem fjall_append_atomic s l id expected b s' o :
  stores s l -> batch_ok b -> storage_append s id expected b = (s', o) ->
  let grown := l ++ tag_log id (PendingBatch.iter b) in
  (exists p, o = Returns (Ok p) /\ stores s' grown /\ GlobalSeq.as_u64 p = len grown /\
     st_notifiers s' = wake (st_notifiers s) (sk_bytes id)) \/
  (exists e, o = Returns (Err e) /\ st_notifiers s' = st_notifiers s /\
     (stores s' l \/ (stores s' grown /\ exists io, e = AppendStore (FjallError.Io io) /\ commit_fails s io))).
Proof.
  intros Hs Hb E grown. pose proof (storage_append_spec s l id expected b Hs Hb) as H. rewrite E in H.
  destruct o as [[p|e]|]; [left|right; exists e; by destruct H as (? & [?|(? & _ & ?)]); auto|done]. exists p. unfold grown. rewrite len_app, len_tag_log.
  destruct H as (? & ? & ? & _). done.
Qed.

(** ** Reading *)

Lemma row_reads_back pe label :
  pending_ok pe -> fits pe ->
  exists d env, decode_frame (frame_bytes pe) = Ok d /\
    build_envelope (frame_bytes pe) d (as_u64 (pe_version pe)) label = Ok env /\
    persisted_ok env /\ from_persisted env = pe.
Proof.
  intros (He & Hp & Hm) Hf.
  destruct (try_new_v2_frame (pe_version pe) (pe_schema_version pe) _ _ _ He Hp Hm Hf) as (env & E & ? & Hfp).
  exists (MkDecodedFrame (pe_schema_version pe) (ef_offsets (v2_frame (pe_schema_version pe) (pe_event_type pe) (pe_payload pe) (pe_metadata pe)))), env.
  split_and!; [|unfold build_envelope; rewrite new_as_u64; cbn [ok_or result_bind df_schema_version df_offsets]|done|by destruct pe].
  - apply (decode_frame_fields V2); auto using fields_header_ok; done.
  - unfold align_frame, frame_bytes. by rewrite E.
Qed.

Lemma stream_range mode l c id from :
  rows_represent mode l c -> valid_id (sk_bytes id) -> 1 <= from <= u64_max ->
  range_of (c Events) (Included (event_key (sk_bytes id) from)) (Included (event_key (sk_bytes id) u64_max))
    (stream_rows (sk_bytes id) from (drop (Z.to_nat (from - 1)) (log_stream id l))).
Proof.
  intros Hr [_ Hid] Hf. pose proof (stream_bound_len _ _ _ id Hr) as Hb. split.
  { apply stream_rows_sorted; [done|lia|]. unfold len in *. rewrite length_drop. lia. }
  intros k v. rewrite (rr_events _ _ _ Hr), elem_of_stream_rows. split.
  - intros (i & pe & Hi & -> & ->). rewrite lookup_drop in Hi. pose proof (lookup_lt_Some _ _ _ Hi) as Hlt.
    unfold len in Hb. split.
    + exists id. apply elem_of_stream_rows. eexists _, pe. split_and!; [exact Hi|f_equal; lia|done].
    + apply event_key_range; [done|done|lia|lia|]. split; [done|lia].
  - intros [[id' (i & pe & Hi & -> & ->)%elem_of_stream_rows] Hrange].
    pose proof (lookup_lt_Some _ _ _ Hi) as Hlt. pose proof (stream_bound_len _ _ _ id' Hr) as Hb'. unfold len in Hb'.
    destruct (log_stream_id_ok _ _ _ id' pe Hr) as [[_ Hid'] _]; [by eapply list_elem_of_lookup_2|].
    apply event_key_range in Hrange as [E Hle]; [|done|done|lia|lia].
    assert (id' = id) as -> by (destruct id, id'; simpl in *; congruence).
    exists (i - Z.to_nat (from - 1))%nat, pe. rewrite lookup_drop.
    replace (Z.to_nat (from - 1) + (i - Z.to_nat (from - 1)))%nat with i by lia.
    split_and!; [done|f_equal; lia|done].
Qed.

Lemma log_range l c g :
  rows_represent Denormalized l c -> 1 <= g <= u64_max ->
  range_of (c EventsGlobal) (Included (global_key g [] 0)) Unbounded (log_rows g (drop (Z.to_nat (g - 1)) l)).
Proof.
  intros Hr Hg. pose proof (rr_bound _ _ _ Hr) as Hb. pose proof (rr_ok _ _ _ Hr) as Hok. rewrite Forall_forall in Hok. split.
  { apply log_rows_sorted; [lia|]. unfold len in *. rewrite length_drop. lia. }
  intros k v. rewrite (rr_all _ _ _ Hr eq_refl), !elem_of_log_rows. split.
  - intros (i & id & pe & Hi & -> & ->). rewrite lookup_drop in Hi. pose proof (lookup_lt_Some _ _ _ Hi) as Hlt.
    unfold len in Hb. split.
    + eexists _, id, pe. split_and!; [exact Hi|f_equal; lia|done].
    + split; [|done]. apply global_key_range; [|lia|lia|lia]. apply (Hok (id, pe)). by eapply list_elem_of_lookup_2.
  - intros [(i & id & pe & Hi & -> & ->) [Hrange _]]. pose proof (lookup_lt_Some _ _ _ Hi) as Hlt. unfold len in Hb.
    apply global_key_range in Hrange; [|apply (Hok (id, pe)); by eapply list_elem_of_lookup_2|lia|lia].
    exists (i - Z.to_nat (g - 1))%nat, id, pe. rewrite lookup_drop.
    replace (Z.to_nat (g - 1) + (i - Z.to_nat (g - 1)))%nat with i by lia.
    split_and!; [done|f_equal; lia|done].
Qed.

(** A 64-bit address space, so that the size of a row is a [usize]. *)
Context (wide : u32_max + MAX_KEY_LEN <= usize_max).

Lemma row_size_ok (key : bytes) pe : len key <= MAX_KEY_LEN -> fits pe ->
  checked_add usize_max (len key) (len (frame_bytes pe)) = Some (len key + len (frame_bytes pe)).
Proof using wide.
  intros Hk Hf. apply checked_add_ok. unfold frame_bytes. rewrite len_v2_frame. unfold fits in Hf. lia.
Qed.

(** Decoding a row of a stream. *)
Lemma stream_decode_row id label v pe :
  valid_id (sk_bytes id) -> pending_ok pe -> fits pe -> as_u64 (pe_version pe) = v ->
  exists env, stream_decode (MkStreamScan id label) (event_key (sk_bytes id) v) (frame_bytes pe) = Ok env /\
    persisted_ok env /\ from_persisted env = pe.
Proof.
  intros [_ Hid] Hok Hf <-. destruct (row_reads_back pe label Hok Hf) as (d & env & Hd & He & ? & ?).
  exists env. unfold stream_decode. pose proof (version_range (pe_version pe)).
  rewrite decode_event_key_ok by (done || lia). cbn [map_err result_bind scan_label]. rewrite Hd. done.
Qed.

(** Decoding a row of the whole log. *)
Lemma global_decode_row id g pe :
  valid_id (sk_bytes id) -> pending_ok pe -> fits pe -> 1 <= g <= u64_max ->
  exists p env, global_decode (global_key g (sk_bytes id) (as_u64 (pe_version pe))) (frame_bytes pe) = Ok (p, id, env) /\
    GlobalSeq.as_u64 p = g /\ persisted_ok env /\ from_persisted env = pe.
Proof.
  intros [Hid1 Hid] Hok Hf Hg. destruct (row_reads_back pe (error_id id) Hok Hf) as (d & env & Hd & He & ? & ?).
  pose proof (version_range (pe_version pe)).
  destruct (GlobalSeq.new g) as [p|] eqn:Ep; [|apply fmap_None, nz_new_None in Ep; lia].
  exists p, env. unfold global_decode. rewrite decode_global_key_ok by (done || lia). cbn [map_err result_bind].
  rewrite bool_decide_false by (intros E; rewrite E in Hid1; by rewrite len_nil in Hid1).
  assert (slice (global_key g (sk_bytes id) (as_u64 (pe_version pe))) GLOBAL_KEY_PREFIX_SIZE
    (GLOBAL_KEY_PREFIX_SIZE + len (sk_bytes id)) = sk_bytes id) as ->.
  { unfold global_key. rewrite app_assoc. apply slice_middle; rewrite len_app, !len_to_be_bytes; done || (unfold GLOBAL_KEY_PREFIX_SIZE; lia). }
  rewrite Ep. cbn [ok_or result_bind]. destruct id as [idb]. cbn [sk_bytes StreamKey.from_bytes] in *.
  rewrite Hd. cbn [map_err result_bind]. unfold StreamKey.from_bytes. rewrite He.
  apply fmap_Some in Ep as (nz & Enz & ->). apply nz_new_Some in Enz. done.
Qed.

(** ** Scans *)

(** The results of polling a cursor until it ends. *)
Fixpoint drain {S} {SS : ScanStrategy S} (fuel : nat) (c : ScanCursor S) : list (result SItem FjallError) :=
  match fuel with
  | O => []
  | Datatypes.S fuel =>
      match poll_one c with
      | (None, _) => []
      | (Some r, c) => r :: drain fuel c
      end
  end.

Lemma drain_poisoned {S} {SS : ScanStrategy S} fuel (c : ScanCursor S) : poisoned c = true -> drain fuel c = [].
Proof. intros H. destruct fuel; [done|]. simpl. unfold poll_one, next_sized. by rewrite H. Qed.

(** A scan of rows that decode delivers them in order, all of them or up to one
    final engine error. *)
Lemma drain_rows {S} {SS : ScanStrategy S} fuel (c : ScanCursor S) rows items :
  yields rows (iter c) -> poisoned c = false -> (length (iter c) < fuel)%nat ->
  Forall2 (fun row item => is_Some (checked_add usize_max (len row.1) (len row.2)) /\
             scan_decode (strategy c) row.1 row.2 = Ok item) rows items ->
  drain fuel c = Ok <$> items \/
  exists pre e, pre `prefix_of` items /\ drain fuel c = (Ok <$> pre) ++ [Err (FjallError.Io e)].
Proof.
  revert c rows items. induction fuel as [|fuel IH]; intros c rows items Hy Hp Hfuel Hd; [lia|]. simpl.
  unfold poll_one, next_sized. rewrite Hp. destruct (iter c) as [|[[k v]|e] it] eqn:Hi.
  - apply yields_nil_inv in Hy as ->. apply Forall2_nil_inv_l in Hd as ->. by left.
  - destruct (yields_cons_inv _ _ _ Hy) as (rows' & -> & Hy').
    apply Forall2_cons_inv_l in Hd as (item & items' & [[size Hsz] Hdec] & Hd & ->). simpl in Hsz, Hdec.
    rewrite Hsz, Hdec. simpl. destruct (IH (MkScanCursor it (strategy c) false) rows' items') as [->|(pre & e & Hpre & ->)];
      [done|done|simpl in *; lia|done| |].
    + by left.
    + right. exists (item :: pre), e. split; [by apply prefix_cons|done].
  - right. exists [], e. split; [apply prefix_nil|]. simpl. by rewrite drain_poisoned.
Qed.

(** The items a stream scan from version [v] decodes. *)
Lemma stream_items mode l c id label v envs :
  rows_represent mode l c -> valid_id (sk_bytes id) -> (forall pe, pe ∈ envs -> pe ∈ log_stream id l) ->
  consecutive v (versions envs) ->
  exists items, Forall2 (fun row item => is_Some (checked_add usize_max (len row.1) (len row.2)) /\
      stream_decode (MkStreamScan id label) row.1 row.2 = Ok item) (stream_rows (sk_bytes id) v envs) items /\
    Forall persisted_ok items /\ from_persisted <$> items = envs.
Proof using wide.
  intros Hr Hid. revert v. induction envs as [|pe envs IH]; intros v Hin Hc; [by exists []|].
  destruct Hc as [Hv Hc].
  destruct (IH (v + 1)) as (items & Hf & Hok & Hm); [intros pe' ?; apply Hin; by right|done|].
  destruct (log_stream_id_ok _ _ _ id pe Hr) as (_ & Hpo & Hfit); [apply Hin; by left|].
  destruct (stream_decode_row id label v pe Hid Hpo Hfit Hv) as (env & Hd & Henv & Hfp).
  exists (env :: items). split_and!; [|by constructor|csimpl; by rewrite Hfp, Hm].
  constructor; [|done]. simpl. rewrite row_size_ok; [by eauto| |done]. rewrite len_event_key.
  destruct Hid. unfold event_key_size, EVENT_KEY_HEADER_SIZE, EVENT_KEY_VERSION_SIZE, MAX_STREAM_ID_LEN in *. lia.
Qed.

Lemma log_items l c g es :
  rows_represent Denormalized l c -> (forall e, e ∈ es -> e ∈ l) -> 1 <= g -> g + len es - 1 <= u64_max ->
  exists items, Forall2 (fun row item => is_Some (checked_add usize_max (len row.1) (len row.2)) /\
      global_decode row.1 row.2 = Ok item) (log_rows g es) items /\
    Forall (fun item => persisted_ok item.2) items /\
    ((fun '(_, id, env) => (id, from_persisted env)) <$> items) = es /\
    ((fun '(p, _, _) => GlobalSeq.as_u64 p) <$> items) = (fun i => g + Z.of_nat i) <$> seq 0 (length es).
Proof using wide.
  intros Hr. revert g. induction es as [|[id pe] es IH]; intros g Hin Hg Hb; [by exists []|].
  rewrite len_cons in Hb. pose proof (len_nonneg es).
  destruct (IH (g + 1)) as (items & Hf & Hok & Hm & Hp); [intros e ?; apply Hin; by right|lia|lia|].
  pose proof (rr_ok _ _ _ Hr) as Ho. rewrite Forall_forall in Ho.
  destruct (Ho (id, pe)) as (Hpo & Hfit & Hid); [apply Hin; by left|]. simpl in *.
  destruct (global_decode_row id g pe Hid Hpo Hfit ltac:(lia)) as (p & env & Hd & Hpg & Henv & Hfp).
  exists ((p, id, env) :: items). split_and!.
  - constructor; [|done]. simpl. rewrite row_size_ok; [by eauto| |done]. rewrite len_global_key.
    destruct Hid. unfold MAX_STREAM_ID_LEN in *. lia.
  - by constructor.
  - csimpl. by rewrite Hfp, Hm.
  - csimpl. rewrite Hp, Hpg. f_equal; [lia|]. rewrite <- fmap_S_seq, <- list_fmap_compose. apply list_fmap_ext. intros; simpl; lia.
Qed.

(** The rows behind an open stream cursor, and the items they decode to. *)
Lemma read_stream_rows s l id from c :
  stores s l -> storage_read_stream s id from = Ok c ->
  exists rows envs, yields rows (iter c) /\ poisoned c = false /\
    Forall2 (fun row item => is_Some (checked_add usize_max (len row.1) (len row.2)) /\
               scan_decode (strategy c) row.1 row.2 = Ok item) rows envs /\
    from_persisted <$> envs = drop (Z.to_nat (as_u64 from - 1)) (log_stream id l) /\ Forall persisted_ok envs /\
    Forall (fun row => len row.1 + len row.2 <= u32_max + MAX_KEY_LEN) rows.
Proof using wide.
  intros [Hr _] Hread. unfold storage_read_stream in Hread. pose proof (validate_id id) as Hv.
  destruct (validate_key _ _) as [[]|]; [|done]. cbn [result_bind] in Hread.
  pose proof (proj1 Hv eq_refl) as Hid. pose proof (version_range from) as Hfr.
  unfold open_snapshot, open_using in Hread. cbn [lower_key upper_key stream_scan] in Hread. unfold stream_bound in Hread.
  cbn [scan_id] in Hread. rewrite !encode_event_key_ok in Hread by done. cbn [map_err result_bind result_map] in Hread.
  injection Hread as <-. cbn [iter strategy].
  destruct (db_range_spec (st_db s) Events (Included (event_key (sk_bytes id) (as_u64 from)))
    (Included (event_key (sk_bytes id) u64_max))) as (rows & Hrange & Hy).
  rewrite (range_of_unique _ _ _ _ _ Hrange (stream_range _ _ _ id (as_u64 from) Hr Hid Hfr)) in Hy.
  assert (forall pe, pe ∈ drop (Z.to_nat (as_u64 from - 1)) (log_stream id l) -> pe ∈ log_stream id l) as Hin
    by (intros pe Hpe; by apply elem_of_drop in Hpe).
  destruct (stream_items _ _ _ id (error_id id) (as_u64 from) _ Hr Hid Hin) as (items & Hf & Hok & Hm).
  { pose proof (rr_versions _ _ _ Hr id) as Hc. unfold versions in *. rewrite fmap_drop.
    replace (as_u64 from) with (1 + Z.of_nat (Z.to_nat (as_u64 from - 1))) at 1 by lia. by apply consecutive_drop. }
  do 2 eexists. split_and!; [exact Hy|done|exact Hf|done|done|].
  apply Forall_forall. intros [k b] (i & pe & Hi & -> & ->)%elem_of_stream_rows. simpl.
  destruct (log_stream_id_ok _ _ _ id pe Hr) as (_ & _ & Hfit); [apply Hin; by eapply list_elem_of_lookup_2|].
  rewrite len_event_key. unfold frame_bytes. rewrite len_v2_frame. unfold fits in Hfit. destruct Hid.
  unfold event_key_size, EVENT_KEY_HEADER_SIZE, EVENT_KEY_VERSION_SIZE, MAX_STREAM_ID_LEN in *. lia.
Qed.

(** A stream read of the embedded store, on any engine, delivers the envelopes
    of exactly that stream from the requested version on, in version order and as
    they were appended: all of them, or a prefix followed by one engine error, after
    which the cursor is finished; it never skips or reorders a row and never yields
    a row of another stream. *)
Theorem fjall_read_stream_exact s l id from c fuel :
  stores s l -> storage_read_stream s id from = Ok c -> (length (iter c) < fuel)%nat ->
  exists envs, from_persisted <$> envs = drop (Z.to_nat (as_u64 from - 1)) (log_stream id l) /\
    Forall persisted_ok envs /\
    (drain fuel c = Ok <$> envs \/
     exists pre e, pre `prefix_of` envs /\ drain fuel c = (Ok <$> pre) ++ [Err (FjallError.Io e)]).
Proof using wide.
  intros Hs Hread Hfuel. destruct (read_stream_rows s l id from c Hs Hread) as (rows & envs & Hy & Hp & Hf & Hm & Hok & _).
  exists envs. split_and!; [done|done|]. by apply (drain_rows (SS := stream_scan) fuel c rows envs).
Qed.

(** Reading [$all] strictly after a position delivers the rest of the log, in
    log order, each event with its position (its place in the log) and its origin
    stream: all of it, or a prefix followed by one engine error; at the last
    position of the [u64] range it delivers nothing; and a store without the index
    refuses the read. *)
Theorem fjall_read_all_exact s l from fuel :
  stores s l ->
  (st_mode s = Disabled -> storage_read_all s from = Err FjallError.AllIndexDisabled) /\
  (st_mode s = Denormalized -> exists c, storage_read_all s from = Ok c /\
     ((length (iter c) < fuel)%nat ->
      let after := from_option GlobalSeq.as_u64 0 from in
      exists items,
        ((fun '(_, id, env) => (id, from_persisted env)) <$> items) = drop (Z.to_nat after) l /\
        ((fun '(p, _, _) => GlobalSeq.as_u64 p) <$> items) =
          (fun i => after + 1 + Z.of_nat i) <$> seq 0 (length (drop (Z.to_nat after) l)) /\
        (drain fuel c = Ok <$> items \/
         exists pre e, pre `prefix_of` items /\ drain fuel c = (Ok <$> pre) ++ [Err (FjallError.Io e)]))).
Proof using wide.
  intros [Hr _]. unfold storage_read_all. split; intros Hmode; rewrite Hmode in *; [done|].
  set (after := from_option GlobalSeq.as_u64 0 from). pose proof (rr_bound _ _ _ Hr) as Hb.
  assert (0 <= after <= u64_max) as Ha.
  { unfold after. destruct from as [g|]; simpl; [pose proof (nz_range (gseq_nz g)); unfold GlobalSeq.as_u64|unfold u64_max]; lia. }
  destruct (from_option GlobalSeq.next (Some GlobalSeq.INITIAL) from) as [g|] eqn:Eg.
  - assert (GlobalSeq.as_u64 g = after + 1) as Hg.
    { unfold after. destruct from as [f|]; simpl in *; [|by injection Eg as <-].
      apply fmap_Some in Eg as (nz & Enz & ->). by apply nz_new_Some in Enz. }
    pose proof (nz_range (gseq_nz g)) as Hgr. unfold GlobalSeq.as_u64 in Hg.
    unfold open_snapshot, open_using. cbn [lower_key upper_key global_scan]. unfold GlobalSeq.as_u64 at 2.
    rewrite encode_global_key_ok by by vm_compute. cbn [map_err result_bind].
    eexists. split; [done|]. cbn [iter]. rewrite Hg. intros Hfuel.
    destruct (db_range_spec (st_db s) EventsGlobal (Included (global_key (after + 1) [] 0)) Unbounded) as (rows & Hrange & Hy).
    rewrite (range_of_unique _ _ _ _ _ Hrange (log_range _ _ (after + 1) Hr ltac:(lia))) in Hy.
    replace (Z.to_nat (after + 1 - 1)) with (Z.to_nat after) in Hy by lia.
    destruct (log_items _ _ (after + 1) (drop (Z.to_nat after) l) Hr) as (items & Hf & _ & Hm & Hp);
      [intros e; apply elem_of_drop|lia|unfold len in *; rewrite length_drop; lia|].
    exists items. split_and!; [done|done|]. by apply (drain_rows (SS := global_scan) fuel (MkScanCursor _ _ false) _ items Hy).
  - assert (after = u64_max) as Hmax.
    { unfold after. destruct from as [f|]; [|done]. simpl in *. apply fmap_None, nz_new_None in Eg.
      pose proof (nz_range (gseq_nz f)). unfold GlobalSeq.as_u64. lia. }
    eexists. split; [done|]. cbn [iter open_empty]. intros Hfuel. exists [].
    assert (drop (Z.to_nat after) l = []) as -> by (apply drop_ge; unfold len in *; lia).
    split_and!; [done|done|].
    destruct (db_range_spec (st_db s) EventsGlobal (Included [byte.of_Z 0]) (Excluded [byte.of_Z 0])) as (rows & [_ Hrange] & Hy).
    assert (rows = []) as ->.
    { destruct rows as [|[k v] rows]; [done|]. destruct (proj1 (Hrange k v)) as (_ & Hlo & Hhi); [by left|].
      simpl in Hlo, Hhi. exfalso. destruct Hlo as [<-|Hlo]; [by apply lex_lt_irrefl in Hhi|by apply lex_lt_asym in Hhi]. }
    by apply (drain_rows (SS := global_scan) fuel (MkScanCursor _ _ false) [] [] Hy).
Qed.

End spec.
