(* ===== verification/FjallContract.v ===== *)
(** * The embedded adapter: contracts (adapters/fjall/src/store.rs, manifest.rs)

    Atomic appends of several runs, the listing of streams and the manifest, and the
    proof that the adapter, on an engine whose reads succeed and whose commits may fail
    in doubt, meets the contracts [RawEventStoreSpec] and [AtomicAppendSpec] that the
    repositories, the subscriptions and the importer are verified against. *)

From stdpp Require Import sorting.
From S2P Require Import Prelude Utf8 ErrorId Version Value Wire Envelope RawStore Wake Import Log WireKey Lsm Fjall FjallSpec.

Section contract.
Context {T : Target} {AS : ArrayString} {W : Watch} {L : Lsm} {LS : LsmSpec}.
Context (wide : u32_max + MAX_KEY_LEN <= usize_max).

(** ** Atomic appends *)

Definition prepared_of (w : PlannedAppend) : PlannedAppend * PreparedRun :=
  (w, MkPreparedRun (frame_bytes <$> PendingBatch.iter (batch w))).

Lemma validate_targets_Ok ws :
  is_ok (validate_targets ws) = true <-> Forall (fun w => valid_id (sk_bytes (target w))) ws.
Proof.
  induction ws as [|w ws IH]; simpl; [by split|]. pose proof (validate_id (target w)) as Hv.
  rewrite Forall_cons. destruct (validate_key _ _) as [[]|]; simpl in *; rewrite ?IH; naive_solver.
Qed.

Lemma prepare_writes_spec ws :
  Forall write_ok ws ->
  (Forall (fun w => Forall fits (PendingBatch.iter (batch w))) ws /\
     prepare_writes ws = Returns (Ok (prepared_of <$> ws))) \/
  exists e, prepare_writes ws = Returns (Err e).
Proof.
  induction 1 as [|w ws Hw Hws IH]; [by left|]. cbn [prepare_writes]. unfold prepare_run.
  destruct (prepare_frames_spec _ Hw) as [[Hf ->]|[_ (v & r & ->)]]; cbn [outcome_bind outcome_map_err map_err]; [|by right; eauto].
  destruct IH as [[Hfs ->]|[e ->]]; cbn [outcome_bind]; [|by right; eauto]. left. split; [by constructor|done].
Qed.

Lemma prepare_atomic_spec ws :
  Forall write_ok ws ->
  (NoDup (target <$> ws) /\
   Forall (fun w => consecutive (from_option as_u64 0 (planned_expected w) + 1) (versions (PendingBatch.iter (batch w)))) ws /\
   Forall (fun w => valid_id (sk_bytes (target w))) ws /\
   Forall (fun w => Forall fits (PendingBatch.iter (batch w))) ws /\
   prepare_atomic ws = Returns (Ok (prepared_of <$> ws))) \/
  exists e, prepare_atomic ws = Returns (Err e).
Proof.
  intros Hok. unfold prepare_atomic.
  destruct (validate_distinct_targets (target <$> ws)) as [[]|] eqn:Hd; cbn [map_err outcome_bind]; [|by right; eauto].
  destruct (validate_atomic_runs ws) as [[]|] eqn:Hv; cbn [map_err outcome_bind]; [|by right; eauto].
  pose proof (validate_targets_Ok ws) as Ht. destruct (validate_targets ws) as [[]|]; cbn [is_ok outcome_bind] in *; [|by right; eauto].
  destruct (prepare_writes_spec ws Hok) as [[Hf ->]|?]; [left|by right].
  split_and!; [| |by apply Ht|done|done].
  - apply (validate_distinct_Ok ∅ 0). unfold validate_distinct_targets in Hd. by rewrite Hd.
  - apply (validate_atomic_runs_Ok 0). unfold validate_atomic_runs in Hv. by rewrite Hv.
Qed.

Lemma validate_atomic_writes_Ok s l index ws :
  stores s l -> is_ok (validate_atomic_writes (write_tx s) index ws) = true ->
  Forall (fun w => len (log_stream (target w) l) = from_option as_u64 0 (planned_expected w)) ws.
Proof.
  intros Hs. revert index. induction ws as [|w ws IH]; intros index; simpl; [done|].
  destruct (read_version_spec s l (target w) Hs) as [->|(io & _ & ->)]; simpl; [|done].
  destruct (Z.eqb_spec (len (log_stream (target w) l)) (from_option as_u64 0 (planned_expected w))); simpl; [|done].
  intros. constructor; [done|by eapply IH].
Qed.

(** Staging distinct runs that continue their streams, from a transaction that
    has already staged part of the log. *)
Lemma stage_runs_spec mode c tx l ws :
  rows_represent mode l (apply_writes c (tx_writes tx)) ->
  writes_in Global (tx_writes tx) = [] ->
  Forall write_ok ws -> NoDup (target <$> ws) ->
  Forall (fun w => valid_id (sk_bytes (target w))) ws ->
  Forall (fun w => Forall fits (PendingBatch.iter (batch w))) ws ->
  Forall (fun w => consecutive (from_option as_u64 0 (planned_expected w) + 1) (versions (PendingBatch.iter (batch w)))) ws ->
  Forall (fun w => len (log_stream (target w) l) = from_option as_u64 0 (planned_expected w)) ws ->
  match stage_runs mode tx (len l) (prepared_of <$> ws) with
  | Ok (tx', global) =>
      tx_db tx' = tx_db tx /\ global = len (l ++ writes_log ws) /\ writes_in Global (tx_writes tx') = [] /\
      rows_represent mode (l ++ writes_log ws) (apply_writes c (tx_writes tx'))
  | Err _ => True
  end.
Proof.
  revert tx l. induction ws as [|w ws IH]; intros tx l Hr Hg Hok Hnd Hid Hf Hc Hh.
  { simpl. unfold writes_log. simpl. by rewrite app_nil_r. }
  apply Forall_cons in Hok as [Hw Hok], Hid as [Hidw Hid], Hf as [Hfw Hf], Hc as [Hcw Hc], Hh as [Hhw Hh].
  rewrite fmap_cons in Hnd. apply NoDup_cons in Hnd as [Hni Hnd].
  rewrite fmap_cons. unfold prepared_of at 1. cbn [stage_runs]. unfold plan_prepared_run. cbn [frames].
  set (es := PendingBatch.iter (batch w)) in *. set (id := target w) in *.
  rewrite <- Hhw in Hcw. rewrite <- Hhw.
  pose proof (stream_bound_len _ _ _ id Hr) as Hsb. pose proof (rr_bound _ _ _ Hr) as Hb. pose proof (len_log_stream id l).
  destruct (plan_rows_spec (sk_bytes id) (len (log_stream id l)) (len l) es Hidw ltac:(lia) ltac:(lia)) as [Hp1 Hp2].
  destruct (decide (len l + len es <= u64_max)) as [Hle|Hgt].
  2:{ destruct Hp2 as (e & -> & _); [lia|]. done. }
  rewrite Hp1 by lia. cbn [map_err result_bind rows new_version ending_global].
  rewrite stage_events_writes. unfold set_version, tx_insert. cbn [tx_db tx_writes].
  destruct (planned_writes mode id _ (len l) es Hcw) as (H1 & H2 & H3 & H4).
  set (ws1 := planned_rows _ _ _ _ ≫= row_writes mode) in *.
  set (tx1 := MkTx (tx_db tx) ((tx_writes tx ++ ws1) ++ [MkWriteRow Streams (sk_bytes id) (encode_stream_version (len (log_stream id l) + len es))])).
  assert (rows_represent mode (l ++ tag_log id es) (apply_writes c (tx_writes tx1))) as Hr1.
  { unfold tx1. cbn [tx_writes]. rewrite <- app_assoc, apply_writes_app. apply rows_extend; try done.
    split; rewrite ?writes_in_app, ?H1, ?H3; try done; [by rewrite app_nil_r|]. intros Hm. by rewrite H4, app_nil_r. }
  replace (len l + len es) with (len (l ++ tag_log id es)) by (by rewrite len_app, len_tag_log).
  specialize (IH tx1 (l ++ tag_log id es) Hr1). lapply IH; clear IH.
  2:{ unfold tx1. cbn [tx_writes]. rewrite !writes_in_app, Hg, H2. done. }
  intros IH. specialize (IH Hok Hnd Hid Hf Hc). lapply IH; clear IH.
  2:{ rewrite Forall_forall in *. intros w' Hw'.
      rewrite log_stream_app, log_stream_tag_ne, app_nil_r; [by apply Hh|].
      intros E. apply Hni. rewrite <- E. by apply list_elem_of_fmap_2. }
  destruct (stage_runs _ _ _ _) as [[tx' global]|e]; [|done].
  intros (Hdb & Hgl & Hg' & Hrep). unfold writes_log in *. rewrite bind_cons, app_assoc. done.
Qed.

(** The outcomes of an atomic append against the log. *)
Lemma storage_atomic_spec s l ws :
  stores s l -> Forall write_ok ws ->
  match storage_atomic_append s ws with
  | (_, Panics) => False
  | (s', Returns (Ok p)) =>
      stores s' (l ++ writes_log ws) /\ NoDup (target <$> ws) /\
      Forall (fun w => planned_expected w = head_version (len (log_stream (target w) l))) ws /\
      GlobalSeq.as_u64 <$> p = (if decide (ws = []) then None else Some (len (l ++ writes_log ws)))
  | (s', Returns (Err e)) =>
      stores s' l \/ (stores s' (l ++ writes_log ws) /\ NoDup (target <$> ws) /\
        Forall (fun w => planned_expected w = head_version (len (log_stream (target w) l))) ws /\
        exists io, e = AtomicStore (FjallError.Io io) /\ commit_fails s io)
  end.
Proof.
  intros Hs Hok. unfold storage_atomic_append. destruct ws as [|w0 ws0].
  { unfold writes_log. simpl. rewrite app_nil_r. split_and!; try done. constructor. }
  remember (w0 :: ws0) as ws eqn:Hws.
  destruct (prepare_atomic_spec ws Hok) as [(Hnd & Hc & Hid & Hf & ->)|[e ->]]; [|by left].
  destruct (validate_atomic_writes (write_tx s) 0 ws) as [[]|e] eqn:Hv; cbn [result_bind]; [|by left].
  assert (Forall (fun w => len (log_stream (target w) l) = from_option as_u64 0 (planned_expected w)) ws) as Hh
    by (apply (validate_atomic_writes_Ok s l 0); [done|by rewrite Hv]).
  unfold write_atomic_runs. destruct (read_global_spec s l (target w0) Hs) as [->|(io & _ & ->)]; cbn [map_err result_bind]; [|by left].
  destruct Hs as [Hr Hg].
  pose proof (stage_runs_spec (st_mode s) (content_of (st_db s)) (write_tx s) l ws Hr eq_refl Hok Hnd Hid Hf Hc Hh) as Hst.
  destruct (stage_runs _ _ _ _) as [[tx global]|e]; cbn [result_bind]; [|by left; split].
  destruct Hst as (Hdb & -> & Hg' & Hrep). cbn [write_tx tx_db] in Hdb.
  destruct (GlobalSeq.new (len (l ++ writes_log ws))) as [p|] eqn:Ep; cbn [ok_or result_bind]; [|by left; split].
  assert (db_represents (st_mode s) (l ++ writes_log ws)
    (apply_writes (content_of (st_db s)) (tx_writes (set_global tx (len (l ++ writes_log ws)))))) as Hnew.
  { unfold set_global, tx_insert. cbn [tx_writes]. split.
    - eapply rows_represent_ext; [|exact Hrep]. intros ks Hks. rewrite apply_writes_app. apply apply_write_other. done.
    - rewrite apply_writes_in, writes_in_app, Hg'. simpl. rewrite lookup_insert_eq. unfold counter.
      rewrite (proj2 (Z.eqb_neq _ _)); [done|]. apply fmap_Some in Ep as (nz & Enz & _). apply nz_new_Some in Enz.
      pose proof (nz_range nz). lia. }
  assert (Forall (fun w => planned_expected w = head_version (len (log_stream (target w) l))) ws) as Hheads.
  { rewrite Forall_forall in *. intros w Hw. apply head_version_raw; [by eapply stream_bound_len|]. symmetry. by apply Hh. }
  unfold commit. replace (tx_db (set_global tx (len (l ++ writes_log ws)))) with (st_db s) by (symmetry; exact Hdb).
  destruct (tx_commit _ (st_db s) _) as [db' [[]|io]] eqn:Ec; cbn [map_err].
  - split_and!; [by apply (db_represents_ext _ _ _ _ (tx_commit_ok _ _ _ _ Ec))|done|done|].
    rewrite decide_False by (by rewrite Hws). apply fmap_Some in Ep as (nz & Enz & ->). apply nz_new_Some in Enz.
    simpl. by rewrite Enz.
  - destruct (tx_commit_err _ _ _ _ _ Ec) as [Hsame|Hall].
    + left. by apply (db_represents_ext _ _ _ _ Hsame).
    + right. split; [by apply (db_represents_ext _ _ _ _ Hall)|]. split; [done|]. split; [done|]. exists io. split; [done|]. eexists. by rewrite Ec.
Qed.

(** C26: an atomic append of several runs to the embedded store writes every run
    or none, on any engine that commits atomically: it returns a position only when
    the targets are distinct and each expected version names its stream's head, and
    then the log has grown by all runs in order and the position is the last
    event's; on any error the log is unchanged, or, only if the engine's commit
    reported that error, has grown by all of them; it never panics. *)
Theorem fjall_atomic_all_or_nothing s l ws s' o :
  stores s l -> Forall write_ok ws -> storage_atomic_append s ws = (s', o) ->
  let grown := l ++ writes_log ws in
  (exists p, o = Returns (Ok p) /\ stores s' grown /\ NoDup (target <$> ws) /\
     Forall (fun w => planned_expected w = head_version (len (log_stream (target w) l))) ws /\
     (ws <> [] -> GlobalSeq.as_u64 <$> p = Some (len grown))) \/
  (exists e, o = Returns (Err e) /\
     (stores s' l \/ (stores s' grown /\ exists io, e = AtomicStore (FjallError.Io io) /\ commit_fails s io))).
Proof.
  intros Hs Hok E grown. pose proof (storage_atomic_spec s l ws Hs Hok) as H. rewrite E in H.
  destruct o as [[p|e]|]; [left|right; exists e; by destruct H as [?|(? & _ & _ & ?)]; auto|done]. destruct H as (? & ? & ? & Hp).
  exists p. split_and!; try done. intros Hne. by rewrite Hp, decide_False.
Qed.

(** ** The streams of a database *)

(** The envelope stored as version [v] of a stream. *)
Definition stored_envelope (c : content) (id : StreamKey) (v : Z) : option PendingEnvelope :=
  match c Events !! event_key (sk_bytes id) v with
  | Some b =>
      match stream_decode (MkStreamScan id []) (event_key (sk_bytes id) v) b with
      | Ok env => Some (from_persisted env)
      | Err _ => None
      end
  | None => None
  end.

Definition fjall_stream (s : Storage) (id : StreamKey) : list PendingEnvelope :=
  let c := content_of (st_db s) in
  let n := from_option from_le_bytes 0 (c Streams !! sk_bytes id) in
  omap (fun i => stored_envelope c id (1 + Z.of_nat i)) (seq 0 (Z.to_nat n)).

Lemma omap_seq {A} (f : nat -> option A) (l : list A) k :
  (forall i x, l !! i = Some x -> f (k + i)%nat = Some x) -> omap f (seq k (length l)) = l.
Proof.
  revert k. induction l as [|x l IH]; intros k Hf; [done|]. csimpl.
  rewrite <- (Nat.add_0_r k) at 1. rewrite (Hf O x eq_refl). f_equal. apply IH. intros i y Hi.
  rewrite <- (Hf (S i) y Hi). f_equal. lia.
Qed.

Lemma fjall_stream_stores s l id : stores s l -> fjall_stream s id = log_stream id l.
Proof.
  intros [Hr _]. unfold fjall_stream. rewrite (rr_streams _ _ _ Hr).
  pose proof (stream_bound_len _ _ _ id Hr) as Hb.
  assert (from_option from_le_bytes 0 (counter (len (log_stream id l))) = len (log_stream id l)) as ->.
  { destruct (counter _) as [b|] eqn:E; simpl; [by apply (counter_range _ Hb)|by rewrite (counter_None _ E)]. }
  unfold len. rewrite Nat2Z.id. apply omap_seq. intros i pe Hi. simpl.
  destruct (log_stream_id_ok _ _ _ id pe Hr) as (Hid & Hpo & Hfit); [by eapply list_elem_of_lookup_2|].
  unfold stored_envelope.
  assert (content_of (st_db s) Events !! event_key (sk_bytes id) (1 + Z.of_nat i) = Some (frame_bytes pe)) as ->.
  { apply (rr_events _ _ _ Hr). exists id. apply elem_of_stream_rows. by eauto. }
  destruct (stream_decode_row id [] (1 + Z.of_nat i) pe Hid Hpo Hfit) as (env & -> & _ & ->); [|done].
  by eapply stream_version; [apply (rr_versions _ _ _ Hr)|].
Qed.

Lemma log_stream_stored s l id : stores s l -> stream_ok (log_stream id l) /\ Forall fits (log_stream id l).
Proof.
  intros [Hr _]. pose proof (stream_bound_len _ _ _ id Hr).
  assert (Forall (fun pe => pending_ok pe /\ fits pe) (log_stream id l)) as Hall.
  { apply Forall_forall. intros pe Hpe. by destruct (log_stream_id_ok _ _ _ id pe Hr Hpe) as (_ & ? & ?). }
  apply Forall_and in Hall as [??]. split; [|done]. split_and!; [done|apply (rr_versions _ _ _ Hr)|lia].
Qed.

(** ** The interface *)

#[export] Instance fjall_raw : RawEventStore Storage := {
  SError := FjallError;
  AllPos := GlobalSeq;
  Cursor := ScanCursor StreamScan;
  append := storage_append;
  read_stream := storage_read_stream;
  stream_next _ c := Returns (poll_one c);
}.

#[export] Instance fjall_atomic : AtomicAppend Storage := {
  atomic_append_many := storage_atomic_append;
}.

Context {LR : LsmReads}.

Lemma tx_get_never_fails db ws ks k e : tx_get db ws ks k <> Err e.
Proof using LR. intros H. pose proof (tx_get_reliable db ws ks k) as Hr. by rewrite H in Hr. Qed.

(** The cursor is open on the rest of the stream [id] of [s0], from version [v]. *)
Definition fjall_cursor_at (s0 s : Storage) (c : ScanCursor StreamScan) (id : StreamKey) (v : Z) : Prop :=
  valid_id (sk_bytes id) /\ 1 <= v /\ poisoned c = false /\ scan_id (strategy c) = id /\
  (exists l0, stores s0 l0) /\ fjall_stream s0 id `prefix_of` fjall_stream s id /\
  iter c = Ok <$> stream_rows (sk_bytes id) v (drop (Z.to_nat (v - 1)) (fjall_stream s0 id)).

Lemma fjall_opens s l id from c :
  stores s l -> storage_read_stream s id from = Ok c -> fjall_cursor_at s s c id (as_u64 from).
Proof using LR.
  intros Hs Hread. unfold storage_read_stream in Hread. pose proof (validate_id id) as Hv.
  destruct (validate_key _ _) as [[]|]; [|done]. cbn [result_bind] in Hread.
  pose proof (proj1 Hv eq_refl) as Hid. pose proof (version_range from) as Hfr.
  unfold open_snapshot, open_using in Hread. cbn [lower_key upper_key stream_scan] in Hread. unfold stream_bound in Hread.
  cbn [scan_id] in Hread. rewrite !encode_event_key_ok in Hread by done. cbn [map_err result_bind result_map] in Hread.
  injection Hread as <-. split_and!; try done; [lia|by eauto|]. cbn [iter].
  rewrite (fjall_stream_stores s l id Hs). apply db_range_exact, (stream_range _ _ _ _ _ (dr_rows _ _ _ Hs) Hid Hfr).
Qed.

Lemma fjall_next s0 s s' c id v :
  (exists l, stores s' l) -> fjall_stream s id `prefix_of` fjall_stream s' id -> fjall_cursor_at s0 s c id v ->
  (exists env c', poll_one c = (Some (Ok env), c') /\
     fjall_stream s' id !! Z.to_nat (v - 1) = Some (from_persisted env) /\
     persisted_ok env /\ fjall_cursor_at s0 s' c' id (v + 1)) \/
  (exists c', poll_one c = (None, c') /\ len (fjall_stream s0 id) < v).
Proof using wide.
  intros [l' Hs'] Hpre (Hid & Hv & Hp & Hst & [l0 Hs0] & Hpre0 & Hi).
  assert (fjall_stream s0 id `prefix_of` fjall_stream s' id) as Hpre' by (by etrans).
  unfold poll_one, next_sized. rewrite Hp, Hi.
  destruct (drop (Z.to_nat (v - 1)) (fjall_stream s0 id)) as [|pe rest] eqn:Hd; simpl.
  { right. eexists. split; [done|]. apply drop_nil_inv in Hd. unfold len. lia. }
  left. assert (fjall_stream s0 id !! Z.to_nat (v - 1) = Some pe) as Hl.
  { rewrite <- (Nat.add_0_r (Z.to_nat (v - 1))), <- lookup_drop, Hd. done. }
  rewrite (fjall_stream_stores s0 l0 id Hs0) in *.
  destruct (log_stream_id_ok _ _ _ id pe (dr_rows _ _ _ Hs0)) as (_ & Hpo & Hfit); [by eapply list_elem_of_lookup_2|].
  pose proof (stream_version _ _ _ (rr_versions _ _ _ (dr_rows _ _ _ Hs0) id) Hl) as Hver.
  destruct (stream_decode_row id (scan_label (strategy c)) v pe Hid Hpo Hfit ltac:(lia)) as (env & Hdec & Henv & Hfp).
  rewrite (row_size_ok wide); [| |done].
  2:{ rewrite len_event_key. destruct Hid. unfold event_key_size, EVENT_KEY_HEADER_SIZE, EVENT_KEY_VERSION_SIZE, MAX_STREAM_ID_LEN in *. lia. }
  assert (MkStreamScan id (scan_label (strategy c)) = strategy c) as Hsc by (destruct (strategy c); simpl in *; by subst).
  rewrite Hsc in Hdec. rewrite Hdec. simpl. do 2 eexists. split_and!; [done| |done|].
  - rewrite Hfp. by eapply prefix_lookup_Some.
  - split_and!; try done; [lia|by eauto|by rewrite (fjall_stream_stores s0 l0 id Hs0)|]. cbn [iter].
    rewrite (fjall_stream_stores s0 l0 id Hs0). f_equal.
    replace (Z.to_nat (v + 1 - 1)) with (Z.to_nat (v - 1) + 1)%nat by lia. by rewrite <- drop_drop, Hd.
Qed.

Definition fjall_storable (id : StreamKey) (b : PendingBatch.t) : Prop :=
  valid_id (sk_bytes id) /\ Forall fits (PendingBatch.iter b).

Lemma fjall_stale s l id expected b :
  stores s l -> batch_ok b -> fjall_storable id b -> expected <> head_version (len (log_stream id l)) ->
  storage_append s id expected b =
    (s, Returns (Err (AppendConflict (error_id id) expected (head_version (len (log_stream id l)))))).
Proof using LR.
  intros Hs Hb [Hid Hf] Hne. unfold storage_append.
  destruct (prepare_append_spec id b Hb) as [(_ & _ & ->)|[[] _]]; [|done].
  destruct (stage_append_spec s l id expected b Hs Hid) as [(? & _)|(e & -> & He)]; [done|].
  destruct He as [(io & _ & [Ht|Ht])|[[_ ->]|[[? _]|[? _]]]]; try done; by apply tx_get_never_fails in Ht.
Qed.

Lemma fjall_conflict s l id expected b s' k wanted actual :
  stores s l -> batch_ok b -> consecutive (from_option as_u64 0 expected + 1) (versions (PendingBatch.iter b)) ->
  storage_append s id expected b = (s', Returns (Err (AppendConflict k wanted actual))) ->
  expected <> head_version (len (log_stream id l)).
Proof.
  intros Hs Hb Hc E He. unfold storage_append in E.
  destruct (prepare_append_spec id b Hb) as [(Hid & _ & Hp)|[_ [e Hp]]]; rewrite Hp in E; [|done].
  assert (from_option as_u64 0 expected = len (log_stream id l)) as Hn
    by (apply head_version_raw; [by eapply stream_bound_len, dr_rows|done]). rewrite Hn in Hc.
  destruct (stage_append_spec s l id expected b Hs Hid) as [(_ & _ & _ & Hst)|(e & Hst & H)]; rewrite Hst in E.
  - by destruct (commit s _) as [s1 [[]|]]; [destruct (GlobalSeq.new _)|].
  - destruct H as [(io & -> & _)|[[? _]|[[_ ?]|(_ & _ & f & ->)]]]; done.
Qed.

#[export] Instance fjall_spec : RawEventStoreSpec Storage.
Proof using LR wide LS.
  refine (Build_RawEventStoreSpec Storage fjall_raw (fun s => exists l, stores s l) fjall_stream
    fjall_cursor_at fjall_storable _ _ _ _ _ _ _ _); simpl.
  - intros s id [l Hs]. rewrite (fjall_stream_stores s l) by done. by destruct (log_stream_stored s l id Hs).
  - intros s id expected b [l Hs] Hb. pose proof (storage_append_spec s l id expected b Hs Hb) as H.
    by destruct (storage_append s id expected b) as [s' [[|]|]].
  - intros s id expected b s' p [l Hs] Hb E. pose proof (storage_append_spec s l id expected b Hs Hb) as H.
    rewrite E in H. destruct H as (Hs' & _ & _ & _ & _ & He & _). rewrite (fjall_stream_stores s l) by done.
    rewrite (fjall_stream_stores s' _ id Hs'). split_and!; [by eauto|done|by rewrite log_stream_app, log_stream_tag|].
    intros id' ?. rewrite (fjall_stream_stores s' _ id' Hs'), (fjall_stream_stores s l) by done.
    by rewrite log_stream_app, log_stream_tag_ne, app_nil_r.
  - intros s id expected b s' e [l Hs] Hb E. pose proof (storage_append_spec s l id expected b Hs Hb) as H. rewrite E in H.
    destruct H as (_ & [Hs'|(Hs' & He & io & -> & _)]).
    + split_and!; [by eauto|left|intros id' _]; by rewrite (fjall_stream_stores s' l), (fjall_stream_stores s l).
    + rewrite (fjall_stream_stores s l) by done. rewrite (fjall_stream_stores s' _ id Hs'), log_stream_app, log_stream_tag.
      split_and!; [by eauto|right; by eauto|]. intros id' ?.
      rewrite (fjall_stream_stores s' _ id' Hs'), (fjall_stream_stores s l) by done. by rewrite log_stream_app, log_stream_tag_ne, app_nil_r.
  - intros s id expected b [l Hs] Hb Hst Hne. rewrite (fjall_stream_stores s l) in * by done.
    rewrite (fjall_stale s l) by done. by eexists.
  - intros s id expected b s' k w a [l Hs] Hb Hc E. rewrite (fjall_stream_stores s l) by done. by eapply fjall_conflict.
  - intros s id from c [l Hs] E. by eapply fjall_opens.
  - intros s0 s s' c id v Hs' Hpre Hc. destruct (fjall_next s0 s s' c id v Hs' (Hpre id) Hc)
      as [(env & c' & -> & ? & ? & ?)|(c' & -> & ?)]; [left|right]; eauto 8.
Defined.

#[export] Instance fjall_atomic_spec : AtomicAppendSpec Storage.
Proof using LR wide LS.
  split; simpl.
  - intros s ws [l Hs] Hok. pose proof (storage_atomic_spec s l ws Hs Hok) as H.
    by destruct (storage_atomic_append s ws) as [s' [[|]|]].
  - intros s ws s' p [l Hs] Hok E. pose proof (storage_atomic_spec s l ws Hs Hok) as H. rewrite E in H.
    destruct H as (Hs' & Hnd & He & _). split_and!; [by eauto|done| |].
    + eapply Forall_impl; [exact He|]. simpl. intros w. by rewrite (fjall_stream_stores s l).
    + intros id. rewrite (fjall_stream_stores s' _ id Hs'), (fjall_stream_stores s l id Hs).
      by rewrite log_stream_app, log_stream_writes.
  - intros s ws s' e [l Hs] Hok E. pose proof (storage_atomic_spec s l ws Hs Hok) as H. rewrite E in H.
    destruct H as [Hs'|(Hs' & Hnd & Hh & io & -> & _)]; (split; [by eauto|]); [left|right].
    + intros id. by rewrite (fjall_stream_stores s' l), (fjall_stream_stores s l).
    + split_and!; [by eauto|done| |].
      * eapply Forall_impl; [exact Hh|]. simpl. intros w. by rewrite (fjall_stream_stores s l).
      * intros id. rewrite (fjall_stream_stores s' _ id Hs'), (fjall_stream_stores s l id Hs).
        by rewrite log_stream_app, log_stream_writes.
Qed.

End contract.

(** ** Engines whose calls succeed *)

Section reliable.
Context {T : Target} {AS : ArrayString} {W : Watch} {L : Lsm} {LS : LsmSpec} {LR : LsmReliable}.

Lemma no_commit_fails s io : ~ commit_fails s io.
Proof using LR. intros [ws H]. pose proof (tx_commit_reliable (persist_mode (st_durability s)) (st_db s) ws) as Hr. by rewrite H in Hr. Qed.

(** On such an engine a rejected append changes nothing. *)
Lemma fjall_rejected s l id expected b s' e :
  stores s l -> batch_ok b -> storage_append s id expected b = (s', Returns (Err e)) -> stores s' l.
Proof using LR.
  intros Hs Hb E. pose proof (storage_append_spec s l id expected b Hs Hb) as H. rewrite E in H.
  destruct H as [_ [?|(_ & _ & io & _ & Hc)]]; [done|]. by apply no_commit_fails in Hc.
Qed.

(** C6: on an engine whose calls succeed, an append to the embedded store is
    exactly an append to the abstract log: it succeeds when the id is one the key
    layout can hold, every envelope fits a frame, [expected] names the stream's
    head, the batch continues it and positions remain, and otherwise changes
    nothing. *)
Theorem fjall_append_refines_log s l id expected b :
  stores s l -> batch_ok b ->
  let es := PendingBatch.iter b in
  let n := len (log_stream id l) in
  (forall s' p, storage_append s id expected b = (s', Returns (Ok p)) ->
     stores s' (l ++ tag_log id es) /\ GlobalSeq.as_u64 p = len l + len es) /\
  ((exists s' p, storage_append s id expected b = (s', Returns (Ok p))) <->
     valid_id (sk_bytes id) /\ Forall fits es /\ expected = head_version n /\
     consecutive (n + 1) (versions es) /\ len l + len es <= u64_max) /\
  (forall s' e, storage_append s id expected b = (s', Returns (Err e)) -> stores s' l).
Proof using LR.
  intros Hs Hb es n. pose proof (storage_append_spec s l id expected b Hs Hb) as Hspec. split_and!.
  - intros s' p E. rewrite E in Hspec. by destruct Hspec as (? & ? & _).
  - split.
    + intros (s' & p & E). rewrite E in Hspec. by destruct Hspec as (_ & _ & _ & ? & ? & ? & ? & ?).
    + intros (Hid & Hf & He & Hc & Hle).
      destruct (storage_append s id expected b) as [s' [[p|e]|]] eqn:E; [by eauto| |done].
      exfalso. unfold storage_append in E.
      destruct (prepare_append_spec id b Hb) as [(_ & _ & Hp)|[[] _]]; [|done]. rewrite Hp in E.
      destruct (stage_append_spec s l id expected b Hs Hid) as [(_ & _ & _ & Hst)|(e' & Hst & H)]; rewrite Hst in E.
      * unfold commit in E. cbn [tx_db tx_writes] in E.
        destruct (tx_commit _ _ _) as [db' r] eqn:Ec.
        pose proof (tx_commit_reliable (persist_mode (st_durability s)) (st_db s) (append_writes (st_mode s) l id es)) as Hr.
        unfold es in Hr. rewrite Ec in Hr. simpl in Hr. destruct r as [[]|]; [|done]. cbn [map_err] in E.
        destruct (GlobalSeq.new _) eqn:Eg; [done|]. apply fmap_None, nz_new_None in Eg.
        pose proof (len_nonneg l). unfold es, PendingBatch.iter in *. rewrite len_cons in *.
        pose proof (len_nonneg (PendingBatch.rest b)). lia.
      * unfold es, n in *. destruct H as [(io & _ & [Ht|Ht])|[[? _]|[[_ ?]|(_ & ? & _)]]]; try done; try lia;
          by apply tx_get_never_fails in Ht.
  - intros s' e E. by eapply fjall_rejected.
Qed.

End reliable.

(** ** Listing streams *)

Section listing.
Context {T : Target} {AS : ArrayString} {W : Watch} {L : Lsm} {LS : LsmSpec}.

Fixpoint drain_ids (fuel : nat) (c : StreamIdCursor) : list (result StreamKey FjallError) :=
  match fuel with
  | O => []
  | S fuel =>
      match id_poll_one c with
      | (None, _) => []
      | (Some r, c) => r :: drain_ids fuel c
      end
  end.

Lemma drain_id_rows fuel c rows :
  yields rows (id_iter c) -> id_poisoned c = false -> (length (id_iter c) < fuel)%nat ->
  let ids := (fun r => MkStreamKey r.1) <$> rows in
  drain_ids fuel c = Ok <$> ids \/
  exists pre e, pre `prefix_of` ids /\ drain_ids fuel c = (Ok <$> pre) ++ [Err (FjallError.Io e)].
Proof.
  revert c rows. induction fuel as [|fuel IH]; intros c rows Hy Hp Hfuel; [lia|]. simpl.
  unfold id_poll_one. rewrite Hp. destruct (id_iter c) as [|[[k v]|e] it] eqn:Hi.
  - apply yields_nil_inv in Hy as ->. by left.
  - destruct (yields_cons_inv _ _ _ Hy) as (rows' & -> & Hy').
    destruct (IH (MkStreamIdCursor it false) rows') as [->|(pre & e & Hpre & ->)]; [done|done|simpl in *; lia| |].
    + by left.
    + right. exists (MkStreamKey k :: pre), e. split; [by apply prefix_cons|done].
  - right. exists [], e. split; [apply prefix_nil|]. destruct fuel; done.
Qed.

(** The ids of the stored counters: the streams that have events, in byte order. *)
Lemma stream_ids_spec mode l c rows :
  rows_represent mode l c -> range_of (c Streams) Unbounded Unbounded rows ->
  let ids := (fun r => MkStreamKey r.1) <$> rows in
  NoDup ids /\ (forall id, id ∈ ids <-> log_stream id l <> []) /\
  StronglySorted (fun a b => lex_lt (sk_bytes a) (sk_bytes b)) ids.
Proof.
  intros Hr [Hsort Hrange]. cbv zeta.
  assert (StronglySorted (fun a b => lex_lt (sk_bytes a) (sk_bytes b)) ((fun r => MkStreamKey r.1) <$> rows)) as Hs.
  { clear Hrange. induction Hsort as [|r rows Hs IH Hx]; csimpl; constructor; [done|].
    rewrite Forall_fmap. eapply Forall_impl; [exact Hx|]. done. }
  split_and!; [|intros [idb]|done].
  - clear -Hs. induction Hs as [|x ids Hs IH Hx]; constructor; [|done]. intros Hin. rewrite Forall_forall in Hx.
    by apply (lex_lt_irrefl (sk_bytes x)), Hx.
  - pose proof (rr_streams _ _ _ Hr (MkStreamKey idb)) as Hc. cbn [sk_bytes] in Hc. split.
    + intros ([k v] & [= ->] & Hin)%list_elem_of_fmap. apply Hrange in Hin as (Hl & _). simpl in *. rewrite Hl in Hc.
      intros E. rewrite E in Hc. done.
    + intros Hne. apply list_elem_of_fmap. unfold counter in Hc.
      destruct (Z.eqb_spec (len (log_stream (MkStreamKey idb) l)) 0) as [E|].
      { destruct (log_stream (MkStreamKey idb) l) as [|x xs]; [done|]. rewrite len_cons in E. pose proof (len_nonneg xs). lia. }
      eexists (idb, _). split; [done|]. apply Hrange. split; [exact Hc|done].
Qed.

(** Listing the streams of the embedded store yields every stream that has an
    event, once each, in byte order, and nothing else: all of them, or a prefix
    followed by one engine error. *)
Theorem fjall_list_streams_exact s l fuel :
  stores s l -> (length (id_iter (storage_list_streams s)) < fuel)%nat ->
  exists ids, NoDup ids /\ (forall id, id ∈ ids <-> log_stream id l <> []) /\
    StronglySorted (fun a b => lex_lt (sk_bytes a) (sk_bytes b)) ids /\
    (drain_ids fuel (storage_list_streams s) = Ok <$> ids \/
     exists pre e, pre `prefix_of` ids /\
       drain_ids fuel (storage_list_streams s) = (Ok <$> pre) ++ [Err (FjallError.Io e)]).
Proof.
  intros [Hr _] Hfuel. unfold storage_list_streams in *. cbn [id_iter stream_ids_after] in *.
  destruct (db_range_spec (st_db s) Streams Unbounded Unbounded) as (rows & Hrange & Hy).
  destruct (stream_ids_spec _ _ _ _ Hr Hrange) as (? & ? & ?).
  exists ((fun r => MkStreamKey r.1) <$> rows). split_and!; [done|done|done|by apply drain_id_rows].
Qed.

(** ** Opening *)

Definition manifest (mode : AllIndex) : bytes := [byte.of_Z LAYOUT_VERSION; byte.of_Z (mode_byte mode)].

Lemma check_manifest_spec m requested :
  check_manifest (manifest m) requested =
    if bool_decide (m = requested) then Ok () else Err (FjallError.IndexModeMismatch m requested).
Proof. by destruct m, requested. Qed.

Lemma check_manifest_Ok value requested : check_manifest value requested = Ok () -> value = manifest requested.
Proof.
  destruct value as [|v [|m [|? ?]]]; try done. simpl. unfold manifest.
  destruct (Z.eqb_spec (byte.unsigned v) LAYOUT_VERSION) as [Ev|]; simpl; [|done].
  assert (v = byte.of_Z LAYOUT_VERSION) as -> by (by rewrite <- (byte.of_Z_unsigned v), Ev).
  destruct (byte.unsigned m) as [|[]|] eqn:Em; simpl; try done; case_bool_decide as Hr; simpl; try done; intros _;
    rewrite <- Hr; simpl; by rewrite <- Em, byte.of_Z_unsigned.
Qed.

Lemma require_empty_content db names db' r :
  require_empty db names = (db', r) ->
  (forall ks, content_of db' ks = content_of db ks) /\
  (r = Ok () -> Forall (fun ks => content_of db ks = ∅) names).
Proof.
  revert db. induction names as [|n names IH]; intros db; simpl; [by intros [= <- <-]|].
  destruct (db_keyspace db n) as [db1 [[]|e]] eqn:Ek; pose proof (db_keyspace_spec _ _ _ _ Ek) as Hk; [|by intros [= <- <-]].
  destruct (tx_is_empty db1 [] n) as [[]|e] eqn:Et; [|by intros [= <- <-]..].
  intros H. destruct (IH db1 H) as [Hc Hr]. split; [intros ks; by rewrite Hc, Hk|].
  intros E. apply tx_is_empty_spec in Et. simpl in Et. symmetry in Et. apply bool_decide_eq_true in Et.
  constructor; [by rewrite <- Hk|]. eapply Forall_impl; [by apply Hr|]. simpl. intros ks. by rewrite Hk.
Qed.

Lemma open_keyspaces_content db names db' r :
  open_keyspaces db names = (db', r) -> forall ks, content_of db' ks = content_of db ks.
Proof.
  revert db. induction names as [|n names IH]; intros db; simpl; [by intros [= <- _]|].
  destruct (db_keyspace db n) as [db1 [[]|e]] eqn:Ek; pose proof (db_keyspace_spec _ _ _ _ Ek) as Hk; [|by intros [= <- _]].
  intros H ks. by rewrite (IH _ H), Hk.
Qed.

Lemma validate_manifest_spec db mode db' r :
  validate_manifest db mode = (db', r) ->
  (forall ks, ks <> MnesisMeta -> content_of db' ks = content_of db ks) /\
  (r = Ok () -> content_of db' MnesisMeta !! MANIFEST_KEY = Some (manifest mode) /\
     (content_of db MnesisMeta !! MANIFEST_KEY = Some (manifest mode) \/ forall ks, content_of db ks = ∅)) /\
  (forall m, content_of db MnesisMeta !! MANIFEST_KEY = Some (manifest m) ->
     (forall ks, content_of db' ks = content_of db ks) /\
     (r = (if bool_decide (m = mode) then Ok () else Err (FjallError.IndexModeMismatch m mode)) \/ exists e, r = Err (FjallError.Io e))).
Proof.
  unfold validate_manifest.
  destruct (db_keyspace db MnesisMeta) as [db1 [[]|e]] eqn:Ek; pose proof (db_keyspace_spec _ _ _ _ Ek) as Hk.
  2:{ intros [= <- <-]. split_and!; [by auto|done|]. intros m _. split; [done|by eauto]. }
  destruct (tx_get db1 [] MnesisMeta MANIFEST_KEY) as [[v|]|e] eqn:Et.
  3:{ intros [= <- <-]. split_and!; [by auto|done|]. intros m _. split; [done|by eauto]. }
  - apply tx_get_spec in Et. simpl in Et. rewrite Hk in Et. intros [= <- <-]. split_and!; [by auto| |].
    + intros ->%check_manifest_Ok. rewrite Hk. by auto.
    + intros m Hm. split; [done|]. left. rewrite Hm in Et. injection Et as ->. apply check_manifest_spec.
  - apply tx_get_spec in Et. simpl in Et. rewrite Hk in Et.
    destruct (require_empty db1 (db_keyspaces db1)) as [db2 [[]|e]] eqn:Er;
      destruct (require_empty_content _ _ _ _ Er) as [Hc He].
    2:{ intros [= <- <-]. split_and!; [intros ks _; by rewrite Hc, Hk|done|]. intros m Hm. congruence. }
    destruct (tx_commit PersistSyncAll db2 _) as [db3 r3] eqn:Ecm. intros [= <- <-]. split_and!.
    + intros ks Hks. destruct r3 as [[]|e3].
      * rewrite (tx_commit_ok _ _ _ _ Ecm). simpl. rewrite apply_write_other by done. by rewrite Hc, Hk.
      * destruct (tx_commit_err _ _ _ _ _ Ecm) as [H|H]; rewrite H; [by rewrite Hc, Hk|].
        simpl. rewrite apply_write_other by done. by rewrite Hc, Hk.
    + destruct r3 as [[]|e3]; [|done]. intros _. split.
      * rewrite (tx_commit_ok _ _ _ _ Ecm). simpl. unfold apply_write. simpl. by rewrite lookup_insert_eq.
      * right. intros ks. specialize (He eq_refl). rewrite Forall_forall in He.
        destruct (decide (content_of db ks = ∅)) as [|Hne]; [done|]. rewrite <- Hk in Hne |- *.
        by apply He, db_keyspaces_spec.
    + intros m Hm. congruence.
Qed.

Lemma storage_open_content db mode d db' r :
  storage_open db mode d = (db', r) -> forall ks, ks <> MnesisMeta -> content_of db' ks = content_of db ks.
Proof.
  unfold storage_open. destruct (validate_manifest db mode) as [db1 r1] eqn:Ev.
  destruct (validate_manifest_spec _ _ _ _ Ev) as (Hc & _ & _). destruct r1 as [[]|e1]; [|by intros [= <- _]].
  set (names := [Streams; _; _; _; _; _; _]). destruct (open_keyspaces db1 names) as [db2 r2] eqn:Eo.
  pose proof (open_keyspaces_content _ _ _ _ Eo) as Hc2.
  destruct r2 as [[]|e2]; intros [= <- _] ks ?; by rewrite Hc2, Hc.
Qed.

Lemma represents_other mode l c c' :
  (forall ks, ks <> MnesisMeta -> c' ks = c ks) -> db_represents mode l c -> db_represents mode l c'.
Proof.
  intros Hc [[H1 H2 H3 H4 H5 H6] Hg]. split; [|by rewrite Hc]. split; try done; intros; rewrite Hc by done; auto.
Qed.

Lemma storage_open_Ok db mode d db' s :
  storage_open db mode d = (db', Ok s) ->
  st_mode s = mode /\ content_of (st_db s) MnesisMeta !! MANIFEST_KEY = Some (manifest mode) /\
  ((content_of db MnesisMeta !! MANIFEST_KEY = Some (manifest mode) /\
    forall l, db_represents mode l (content_of db) -> stores s l) \/
   ((forall ks, content_of db ks = ∅) /\ stores s [])).
Proof.
  intros E. pose proof (storage_open_content _ _ _ _ _ E) as Hks. unfold storage_open in E.
  destruct (validate_manifest db mode) as [db1 r1] eqn:Ev.
  destruct (validate_manifest_spec _ _ _ _ Ev) as (_ & Hok & _). destruct r1 as [[]|e1]; [|done].
  specialize (Hok eq_refl) as [Hman1 Hor].
  set (names := [Streams; _; _; _; _; _; _]) in E. destruct (open_keyspaces db1 names) as [db2 [[]|e2]] eqn:Eo; [|done].
  pose proof (open_keyspaces_content _ _ _ _ Eo) as Hc2. injection E as <- <-. unfold stores. cbn [st_mode st_db].
  split_and!; [done|by rewrite Hc2|]. destruct Hor as [Hman|Hempty]; [left; split; [done|]|right; split; [done|]].
  - intros l. by apply represents_other.
  - apply (represents_other mode [] (content_of db)); [done|]. apply represents_empty; apply Hempty.
Qed.

Lemma storage_open_mismatch db mode d db' r m :
  storage_open db mode d = (db', r) -> content_of db MnesisMeta !! MANIFEST_KEY = Some (manifest m) -> m <> mode ->
  r = Err (FjallError.IndexModeMismatch m mode) \/ exists e, r = Err (FjallError.Io e).
Proof.
  unfold storage_open. destruct (validate_manifest db mode) as [db1 r1] eqn:Ev.
  destruct (validate_manifest_spec _ _ _ _ Ev) as (_ & _ & Hm). intros E Hman Hne.
  destruct (Hm m Hman) as [_ [H|[e H]]]; [rewrite bool_decide_false in H by done|]; subst r1; injection E as <- <-; eauto.
Qed.

(** Opening a database never changes a stored event, counter or state; it
    succeeds only if the manifest names the requested index mode, or there was none
    and every keyspace was empty, in which case it writes one.  So a store that
    opens holds exactly the log the database held (the empty log for a new one),
    and a database whose manifest names the other mode is refused. *)
Theorem fjall_open_keeps_log db mode d db' r :
  storage_open db mode d = (db', r) ->
  (forall ks, ks <> MnesisMeta -> content_of db' ks = content_of db ks) /\
  (forall s, r = Ok s ->
     st_mode s = mode /\ content_of (st_db s) MnesisMeta !! MANIFEST_KEY = Some (manifest mode) /\
     ((content_of db MnesisMeta !! MANIFEST_KEY = Some (manifest mode) /\
       forall l, db_represents mode l (content_of db) -> stores s l) \/
      ((forall ks, content_of db ks = ∅) /\ stores s []))) /\
  (forall m, content_of db MnesisMeta !! MANIFEST_KEY = Some (manifest m) -> m <> mode ->
     r = Err (FjallError.IndexModeMismatch m mode) \/ exists e, r = Err (FjallError.Io e)).
Proof.
  intros E. split_and!; [by eapply storage_open_content| |].
  - intros s ->. by eapply storage_open_Ok.
  - intros m. by eapply storage_open_mismatch.
Qed.

End listing.
