(* ===== verification/FjallState.v ===== *)
(** * The embedded adapter: state (adapters/fjall/src/snapshot.rs, checkpoint.rs, limits.rs)

    Snapshots and projection checkpoints are records in keyspaces of their own: a
    fixed header and the state's bytes.  A checkpoint commit reads the stored
    header and replaces the record in one transaction. *)

From S2P Require Import Prelude Utf8 ErrorId Version Value Wire Envelope RawStore Repository Checkpoint State.
From S2P Require Import Wake Import Log WireKey Lsm Fjall FjallSpec.

Definition HEADER_SIZE : Z := 20.
Definition SNAPSHOT_VALUE_HEADER_SIZE : Z := 12.

(** ** Positions *)

Lemma gseq_inj p q : GlobalSeq.as_u64 p = GlobalSeq.as_u64 q -> p = q.
Proof. destruct p, q. unfold GlobalSeq.as_u64. simpl. by intros ->%nz_get_inj. Qed.

#[export] Instance gseq_ordered : Ordered GlobalSeq.
Proof.
  refine {| pos_leb p q := GlobalSeq.as_u64 p <=? GlobalSeq.as_u64 q |}; intros *; rewrite ?Z.leb_le; try lia.
  intros ??. apply gseq_inj. lia.
Defined.

(** The crate's [Position] trait. *)
Class Position (P : Type) := {
  pos_keyspace : Keyspace;
  pos_from_u64 : Z -> option P;
  pos_as_u64 : P -> Z;
  pos_range p : 1 <= pos_as_u64 p <= u64_max;
  pos_from_as p : pos_from_u64 (pos_as_u64 p) = Some p;
  pos_state_keyspace : pos_keyspace = CheckpointsStream \/ pos_keyspace = CheckpointsGlobal;
}.
Arguments pos_keyspace P {_}.

#[export] Instance version_position : Position Version.
Proof.
  refine {| pos_keyspace := CheckpointsStream; pos_from_u64 := new; pos_as_u64 := as_u64 |}.
  - apply version_range.
  - apply new_as_u64.
  - by left.
Defined.

#[export] Instance gseq_position : Position GlobalSeq.
Proof.
  refine {| pos_keyspace := CheckpointsGlobal; pos_from_u64 := GlobalSeq.new; pos_as_u64 := GlobalSeq.as_u64 |}.
  - intros [n]. apply nz_range.
  - intros [n]. unfold GlobalSeq.new, GlobalSeq.as_u64. simpl. by rewrite nz_new_get.
  - by right.
Defined.

Section state.
Context {T : Target} {AS : ArrayString} {W : Watch} {L : Lsm}.
(** [Display] of an id. *)
Context (display_id : bytes -> list bytes).

Definition id_label (id : bytes) : ErrorId := from_display DEFAULT_ERROR_ID_CAP (display_id id).

(** ** Sizes *)

Definition value_len (payload header : Z) : result Z FjallError :=
  ok_or (match checked_add usize_max payload header with
         | Some n => if bool_decide (is_Some (try_from u32_max n)) then Some n else None
         | None => None
         end) (FjallError.StateTooLarge payload header).

Definition state_value_len (payload : Z) : result Z FjallError := value_len payload 12.
Definition checkpoint_value_len (payload : Z) : result Z FjallError := value_len payload HEADER_SIZE.

(** ** Snapshots *)

Definition encode_snapshot_value (schema_version version : Z) (payload : bytes) : result bytes FjallError :=
  let? _ := state_value_len (len payload) in
  Ok (to_le_bytes 4 schema_version ++ to_be_bytes 8 version ++ payload).

Definition decode_snapshot_value (value : bytes) : result (Z * Z * bytes) KeyDecodeError :=
  if len value <? SNAPSHOT_VALUE_HEADER_SIZE then Err (KeyValueTooShort SNAPSHOT_VALUE_HEADER_SIZE (len value))
  else Ok (from_le_bytes (slice value 0 4), from_be_bytes (slice value 4 12), drop 12 value).

Definition fjall_hydrate (s : Storage) (id : bytes) (schema_version : Schema)
  : result (Hydrated bytes Version) FjallError :=
  let? _ := validate_key id MAX_KEY_LEN in
  let? found := map_err FjallError.Io (db_get (st_db s) Snapshots id) in
  match found with
  | None => Ok HAbsent
  | Some b =>
      let corrupt := FjallError.CorruptValue (id_label id) None in
      let? (schema_version_raw, version_raw, payload) := map_err (fun _ => corrupt) (decode_snapshot_value b) in
      let? stored_schema := ok_or (nz_new schema_version_raw) corrupt in
      if negb (bool_decide (stored_schema = schema_version)) then Ok (HStale stored_schema)
      else
        let? position := ok_or (new version_raw) corrupt in
        Ok (HFound position payload)
  end.

Definition fjall_snapshot_commit (s : Storage) (id : bytes) (schema_version : Schema) (position : Version) (state : bytes)
  : Storage * result () FjallError :=
  match (let? _ := validate_key id MAX_KEY_LEN in
         encode_snapshot_value (nz_get schema_version) (as_u64 position) state) with
  | Err e => (s, Err e)
  | Ok buf => commit s (tx_insert (write_tx s) Snapshots id buf)
  end.

#[export] Instance fjall_snapshots : SnapshotStore Storage bytes Version := {
  SnErr := FjallError;
  hydrate s id schema := Returns (fjall_hydrate s id schema);
  snapshot_commit := fjall_snapshot_commit;
}.

(** ** Checkpoints *)

Section checkpoint.
Context {P : Type} `{!Ordered P} {PP : Position P}.

Definition corrupt (id : bytes) : FjallError := FjallError.CorruptValue (id_label id) None.

Definition decode_checkpoint (b : bytes) (id : bytes) : result (Revision * Schema * P * bytes) FjallError :=
  if len b <? HEADER_SIZE then Err (corrupt id)
  else
    let? schema := ok_or (nz_new (from_le_bytes (slice b 0 4))) (corrupt id) in
    let? revision := ok_or (nz_new (from_be_bytes (slice b 4 12))) (corrupt id) in
    let? position := ok_or (pos_from_u64 (from_be_bytes (slice b 12 20))) (corrupt id) in
    Ok (revision, schema, position, drop (Z.to_nat HEADER_SIZE) b).

Definition fjall_hydrate_checkpoint (s : Storage) (id : bytes) (schema_version : Schema)
  : result (CheckpointHydrated bytes P) FjallError :=
  let? _ := validate_key id MAX_KEY_LEN in
  let? found := map_err FjallError.Io (db_get (st_db s) (pos_keyspace P) id) in
  match found with
  | None => Ok CkAbsent
  | Some b =>
      let? (revision, schema, position, payload) := decode_checkpoint b id in
      if negb (bool_decide (schema = schema_version)) then Ok (CkStale revision schema)
      else Ok (CkFound revision position payload)
  end.

(** The value prepared before the writer is acquired, its revision still zero. *)
Definition prepare_checkpoint (write : CheckpointWrite bytes P) : bytes :=
  to_le_bytes 4 (nz_get (cw_schema write)) ++ to_be_bytes 8 0 ++ to_be_bytes 8 (pos_as_u64 (cw_position write)) ++
  cw_state write.

(** [bytes[4..12].copy_from_slice(revision)]. *)
Definition fill_revision (b : bytes) (revision : Revision) : bytes :=
  take 4 b ++ to_be_bytes 8 (nz_get revision) ++ drop 12 b.

Definition stage_checkpoint (tx : Tx) (id : bytes) (write : CheckpointWrite bytes P) (value : bytes)
  : result (Tx * Revision) (CheckpointError FjallError) :=
  let? current := map_err CkStore (map_err FjallError.Io (tx_get (tx_db tx) (tx_writes tx) (pos_keyspace P) id)) in
  let? metadata := map_err CkStore (transpose
    ((fun v => result_map (fun '(revision, schema, position, _) => (revision, schema, position)) (decode_checkpoint v id)) <$> current)) in
  let? next := map_err CkRejected (next_revision write metadata) in
  Ok (tx_insert tx (pos_keyspace P) id (fill_revision value next), next).

Definition fjall_commit_checkpoint (s : Storage) (id : bytes) (write : CheckpointWrite bytes P)
  : Storage * result Revision (CheckpointError FjallError) :=
  match (let? _ := map_err CkStore (validate_key id MAX_KEY_LEN) in
         let? _ := map_err CkStore (checkpoint_value_len (len (cw_state write))) in
         stage_checkpoint (write_tx s) id write (prepare_checkpoint write)) with
  | Err e => (s, Err e)
  | Ok (tx, next) =>
      match commit s tx with
      | (s, Err e) => (s, Err (CkStore e))
      | (s, Ok _) => (s, Ok next)
      end
  end.

#[export] Instance fjall_checkpoints : CheckpointStore Storage bytes P := {
  CkErr := FjallError;
  hydrate_checkpoint := fjall_hydrate_checkpoint;
  commit_checkpoint := fjall_commit_checkpoint;
}.
End checkpoint.

(** ** Correctness *)

Context {LS : LsmSpec}.

Lemma from_le_u32 (n : NonZero u32_max) : from_le_bytes (to_le_bytes 4 (nz_get n)) = nz_get n.
Proof. apply from_to_le_bytes. pose proof (nz_range n). unfold u32_max in *. simpl. lia. Qed.

Lemma decode_snapshot_encoded (schema : Schema) v payload :
  decode_snapshot_value (to_le_bytes 4 (nz_get schema) ++ to_be_bytes 8 (as_u64 v) ++ payload) =
    Ok (nz_get schema, as_u64 v, payload).
Proof.
  unfold decode_snapshot_value. rewrite !len_app, len_to_le_bytes, len_to_be_bytes. pose proof (len_nonneg payload).
  rewrite (proj2 (Z.ltb_ge _ _)) by (unfold SNAPSHOT_VALUE_HEADER_SIZE; lia).
  rewrite slice_prefix by (by rewrite len_to_le_bytes). rewrite from_le_u32.
  rewrite slice_middle by (by rewrite ?len_to_le_bytes, ?len_to_be_bytes).
  pose proof (version_range v). rewrite from_to_be_bytes by (apply u64_be; lia).
  rewrite app_assoc. rewrite drop_app_length' ; [done|].
  pose proof (len_to_le_bytes 4 (nz_get schema)). pose proof (len_to_be_bytes 8 (as_u64 v)). unfold len in *.
  rewrite length_app. lia.
Qed.

(** Committing one write: its keyspace has it or not, the rest is untouched. *)
Lemma commit_one s ks key v s' r :
  commit s (tx_insert (write_tx s) ks key v) = (s', r) ->
  st_mode s' = st_mode s /\
  (forall ks', ks' <> ks -> content_of (st_db s') ks' = content_of (st_db s) ks') /\
  (forall k, k <> key -> content_of (st_db s') ks !! k = content_of (st_db s) ks !! k) /\
  (r = Ok () -> content_of (st_db s') ks !! key = Some v) /\
  (content_of (st_db s') ks !! key = content_of (st_db s) ks !! key \/ content_of (st_db s') ks !! key = Some v).
Proof.
  unfold commit. cbn [tx_db tx_writes tx_insert write_tx app].
  destruct (tx_commit _ (st_db s) _) as [db' r'] eqn:Ec. intros [= <- <-]. cbn [st_db set_db st_mode]. split; [done|].
  assert (forall c : content, (forall ks', c ks' = apply_writes (content_of (st_db s)) [MkWriteRow ks key v] ks') ->
    (forall ks', ks' <> ks -> c ks' = content_of (st_db s) ks') /\
    (forall k, k <> key -> c ks !! k = content_of (st_db s) ks !! k) /\ c ks !! key = Some v) as Happ.
  { intros c Hc. split_and!.
    - intros ks' ?. rewrite Hc. simpl. by apply apply_write_other.
    - intros k ?. rewrite Hc. simpl. unfold apply_write. simpl. rewrite decide_True by done. by rewrite lookup_insert_ne.
    - rewrite Hc. simpl. unfold apply_write. simpl. rewrite decide_True by done. by rewrite lookup_insert_eq. }
  destruct r' as [[]|e].
  - destruct (Happ _ (tx_commit_ok _ _ _ _ Ec)) as (? & ? & ?). split_and!; auto.
  - destruct (tx_commit_err _ _ _ _ _ Ec) as [Hs|Hs].
    + split_and!; try done; [intros; by rewrite Hs..|left; by rewrite Hs].
    + destruct (Happ _ Hs) as (? & ? & ?). split_and!; auto; done.
Qed.

Lemma snapshot_commit_effect s id schema v st s' r :
  fjall_snapshot_commit s id schema v st = (s', r) ->
  st_mode s' = st_mode s /\
  (forall ks, ks <> Snapshots -> content_of (st_db s') ks = content_of (st_db s) ks) /\
  (forall k, k <> id -> content_of (st_db s') Snapshots !! k = content_of (st_db s) Snapshots !! k) /\
  let value := to_le_bytes 4 (nz_get schema) ++ to_be_bytes 8 (as_u64 v) ++ st in
  (r = Ok () -> is_ok (validate_key id MAX_KEY_LEN) = true /\ content_of (st_db s') Snapshots !! id = Some value) /\
  (content_of (st_db s') Snapshots !! id = content_of (st_db s) Snapshots !! id \/
   content_of (st_db s') Snapshots !! id = Some value).
Proof.
  unfold fjall_snapshot_commit, encode_snapshot_value.
  destruct (validate_key id MAX_KEY_LEN) as [[]|e] eqn:Hv; cbn [result_bind]; [|intros [= <- <-]; split_and!; [done..|by left]].
  destruct (state_value_len (len st)) as [n|e]; cbn [result_bind]; [|intros [= <- <-]; split_and!; [done..|by left]].
  intros (? & ? & ? & ? & ?)%commit_one. split_and!; auto.
Qed.

Section reliable.
Context {LR : LsmReliable}.

Lemma db_get_content db ks k : db_get db ks k = Ok (content_of db ks !! k).
Proof using LR LS.
  pose proof (db_get_reliable db ks k) as Hr. destruct (db_get db ks k) as [v|] eqn:E; [|done].
  by rewrite <- (db_get_spec _ _ _ _ E).
Qed.

(** A committed snapshot is read back as it was, with the version it was taken
    at, by a reader of the same schema; a reader of another schema is told the
    stored one; the snapshots of other ids and the event log are untouched. *)
Theorem fjall_snapshot_roundtrip s id schema v st s' :
  fjall_snapshot_commit s id schema v st = (s', Ok ()) ->
  (forall schema', fjall_hydrate s' id schema' =
     Ok (if bool_decide (schema = schema') then HFound v st else HStale schema)) /\
  (forall id' schema', id' <> id -> fjall_hydrate s' id' schema' = fjall_hydrate s id' schema') /\
  (forall l, stores s l -> stores s' l).
Proof using LR LS.
  intros (Hmode & Hks & Hother & Hok & _)%snapshot_commit_effect. destruct (Hok eq_refl) as [Hv Hc]. split_and!.
  - intros schema'. unfold fjall_hydrate. destruct (validate_key id MAX_KEY_LEN) as [[]|]; [|done]. cbn [result_bind].
    rewrite db_get_content, Hc. cbn [map_err result_bind]. rewrite decode_snapshot_encoded. cbn [map_err result_bind].
    rewrite nz_new_get. cbn [ok_or result_bind]. case_bool_decide; cbn [negb]; [|done]. by rewrite new_as_u64.
  - intros id' schema' Hne. unfold fjall_hydrate. rewrite !db_get_content, Hother by done. done.
  - intros l. apply stores_other; [done|]. intros ks Hor. apply Hks. intros ->. naive_solver.
Qed.

(** The snapshot store invents nothing. *)
Lemma fjall_adds_one (s : Storage) key schema v st s' r key' schema' v' st' :
  snapshot_commit s key schema v st = (s', r) -> hydrate s' key' schema' = Returns (Ok (HFound v' st')) ->
  (key' = key /\ v' = v /\ st' = st) \/ hydrate s key' schema' = Returns (Ok (HFound v' st')).
Proof using LR LS.
  intros (_ & _ & Hother & _ & Hc)%snapshot_commit_effect. cbn [hydrate fjall_snapshots]. unfold fjall_hydrate.
  rewrite !db_get_content. destruct (decide (key' = key)) as [->|Hne]; [|rewrite Hother by done; auto].
  destruct Hc as [-> | ->]; [auto|]. destruct (validate_key key MAX_KEY_LEN) as [[]|]; [|done].
  cbn [map_err result_bind]. rewrite decode_snapshot_encoded. cbn [map_err result_bind].
  rewrite nz_new_get. cbn [ok_or result_bind]. case_bool_decide; cbn [negb]; [|done]. rewrite new_as_u64.
  cbn [ok_or result_bind]. intros [= -> ->]. auto.
Qed.
End reliable.

Section checkpoint_spec.
Context {P : Type} `{!Ordered P} {PP : Position P}.

Definition checkpoint_value (schema : Schema) (revision : Revision) (position : P) (state : bytes) : bytes :=
  to_le_bytes 4 (nz_get schema) ++ to_be_bytes 8 (nz_get revision) ++ to_be_bytes 8 (pos_as_u64 position) ++ state.

Lemma fill_prepared (w : CheckpointWrite bytes P) revision :
  fill_revision (prepare_checkpoint w) revision = checkpoint_value (cw_schema w) revision (cw_position w) (cw_state w).
Proof. reflexivity. Qed.

Lemma decode_checkpoint_value schema revision (position : P) state id :
  decode_checkpoint (checkpoint_value schema revision position state) id = Ok (revision, schema, position, state).
Proof.
  unfold decode_checkpoint, checkpoint_value. pose proof (len_nonneg state).
  rewrite !len_app, len_to_le_bytes, !len_to_be_bytes. rewrite (proj2 (Z.ltb_ge _ _)) by (unfold HEADER_SIZE; lia).
  pose proof (nz_range revision). pose proof (pos_range position).
  rewrite slice_prefix by (by rewrite len_to_le_bytes). rewrite from_le_u32, nz_new_get. cbn [ok_or result_bind].
  rewrite slice_middle by (by rewrite ?len_to_le_bytes, ?len_to_be_bytes).
  rewrite from_to_be_bytes by (apply u64_be; lia). rewrite nz_new_get. cbn [ok_or result_bind].
  rewrite app_assoc. rewrite slice_middle by (by rewrite !len_app, ?len_to_le_bytes, ?len_to_be_bytes).
  rewrite from_to_be_bytes by (apply u64_be; lia). rewrite pos_from_as. cbn [ok_or result_bind]. done.
Qed.

(** The record stored under an id. *)
Definition fjall_record (s : Storage) (id : bytes) : option (CheckpointRecord bytes P) :=
  match content_of (st_db s) (pos_keyspace P) !! id with
  | Some b =>
      match decode_checkpoint b id with
      | Ok (revision, schema, position, payload) => Some (MkRecord revision schema position payload)
      | Err _ => None
      end
  | None => None
  end.

(** What the transaction of a commit stages. *)
Lemma stage_checkpoint_spec s id (w : CheckpointWrite bytes P) :
  match stage_checkpoint (write_tx s) id w (prepare_checkpoint w) with
  | Ok (tx, revision) =>
      next_revision w (current_of_record <$> fjall_record s id) = Ok revision /\
      tx = tx_insert (write_tx s) (pos_keyspace P) id (checkpoint_value (cw_schema w) revision (cw_position w) (cw_state w))
  | Err _ => True
  end.
Proof.
  unfold stage_checkpoint, fjall_record. cbn [tx_db tx_writes write_tx].
  destruct (tx_get (st_db s) [] (pos_keyspace P) id) as [v|e] eqn:Eg; cbn [map_err result_bind]; [|done].
  apply tx_get_spec in Eg. simpl in Eg. rewrite <- Eg.
  destruct v as [b|]; csimpl.
  - destruct (decode_checkpoint b id) as [[[[rev schema] pos] payload]|e]; csimpl; [|done].
    destruct (next_revision w _) as [n|e] eqn:En; csimpl; [|done]. rewrite fill_prepared. done.
  - destruct (next_revision w None) as [n|e] eqn:En; csimpl; [|done]. rewrite fill_prepared. done.
Qed.

Lemma fjall_commit_effect s id (w : CheckpointWrite bytes P) s' r :
  fjall_commit_checkpoint s id w = (s', r) ->
  (st_mode s' = st_mode s) /\
  (forall ks, ks <> pos_keyspace P -> content_of (st_db s') ks = content_of (st_db s) ks) /\
  (forall id', id' <> id -> fjall_record s' id' = fjall_record s id') /\
  let committed revision :=
    next_revision w (current_of_record <$> fjall_record s id) = Ok revision /\
    fjall_record s' id = Some (written w revision) in
  match r with
  | Ok revision => committed revision
  | Err (CkRejected rej) => fjall_record s' id = fjall_record s id
  | Err (CkStore _) => fjall_record s' id = fjall_record s id \/ exists revision, committed revision
  end.
Proof.
  unfold fjall_commit_checkpoint. destruct (validate_key id MAX_KEY_LEN) as [[]|e]; cbn [map_err result_bind];
    [|intros [= <- <-]; split_and!; [done..|by left]].
  destruct (checkpoint_value_len _) as [n|e]; cbn [map_err result_bind]; [|intros [= <- <-]; split_and!; [done..|by left]].
  pose proof (stage_checkpoint_spec s id w) as Hst.
  destruct (stage_checkpoint _ _ _ _) as [[tx revision]|[e|e]]; [|intros [= <- <-]; split_and!; first [done|by left]..].
  destruct Hst as [Hrev ->]. destruct (commit s _) as [s1 r1] eqn:Ec.
  destruct (commit_one _ _ _ _ _ _ Ec) as (Hm & Hks & Hother & Hok & Hor).
  assert (forall s2, content_of (st_db s2) (pos_keyspace P) !! id =
    Some (checkpoint_value (cw_schema w) revision (cw_position w) (cw_state w)) ->
    fjall_record s2 id = Some (written w revision)) as Hrec.
  { intros s2 H. unfold fjall_record. by rewrite H, decode_checkpoint_value. }
  destruct r1 as [[]|e]; intros [= <- <-]; split_and!; try done.
  - intros id' Hne. unfold fjall_record. by rewrite Hother.
  - by apply Hrec, Hok.
  - intros id' Hne. unfold fjall_record. by rewrite Hother.
  - destruct Hor as [H|H]; [left; unfold fjall_record; by rewrite H|right]. exists revision. split; [done|by apply Hrec].
Qed.

#[export] Instance fjall_checkpoints_spec : CheckpointStoreSpec Storage bytes P (K := fjall_checkpoints).
Proof using LS.
  refine (Build_CheckpointStoreSpec Storage bytes P _ fjall_checkpoints fjall_record _ _).
  - intros s id schema h. cbn [hydrate_checkpoint fjall_checkpoints]. unfold fjall_hydrate_checkpoint, fjall_record.
    destruct (validate_key id MAX_KEY_LEN) as [[]|]; cbn [result_bind]; [|done].
    destruct (db_get (st_db s) (pos_keyspace P) id) as [v|] eqn:E; cbn [map_err result_bind]; [|done].
    rewrite <- (db_get_spec _ _ _ _ E). destruct v as [b|]; [|by intros [= <-]].
    destruct (decode_checkpoint b id) as [[[[rev sc] pos] payload]|]; cbn [result_bind]; [|done].
    simpl. case_bool_decide; cbn [negb]; by intros [= <-].
  - intros s id w s' r E. by destruct (fjall_commit_effect s id w s' r E) as (_ & _ & ? & ?).
Defined.
End checkpoint_spec.

End state.
