(* ===== verification/TodosHttp.v ===== *)
(** * The todo service: requests (examples/axum-todos/src/http.rs)

    The handlers of the four routes.  A write loads the todo, executes a command and
    answers with the position at which it landed; a read may name such a position and
    waits until the read model has reached it.  The values a receiver of the watch
    channel gets, and what ends its wait, are arguments. *)

From Stdlib Require Import String.
From S2P Require Import Prelude Utf8 Version Events Aggregate RawStore Execute Checkpoint Projection Fjall FjallState Todos.
Close Scope string_scope.
Open Scope list_scope.

Inductive StatusCode : Type :=
| OK | CREATED | NO_CONTENT | NOT_FOUND | CONFLICT | INTERNAL_SERVER_ERROR | SERVICE_UNAVAILABLE.

(** ** Read your writes *)

(** [HeaderValue::to_str]: visible ASCII and tabs. *)
Definition to_str (value : bytes) : option bytes :=
  if forallb (fun c => let n := byte.unsigned c in (n =? 9) || ((32 <=? n) && (n <? 127))) value then Some value else None.

(** The value of the position header, if there is one. *)
Definition requested_position (header : option bytes) : option GlobalSeq :=
  value ← header; raw ← to_str value; n ← parse_u64 raw; GlobalSeq.new n.

Record Pagination : Type := MkPagination { offset : option Z; limit : option Z }.

(** What ends a wait that was not satisfied. *)
Inductive WaitEnd : Type := Elapsed | Closed.

Section get.
Context {T : Target} {P : Type} {OP : Ordered P}.

(** [checkpoint >= Some(target)]. *)
Definition reached (target : P) (s : IndexState (P := P)) : bool :=
  match is_checkpoint s with Some p => pos_leb target p | None => false end.

(** [todos_index]: [dead] is the dropped sender, [current] the value of the channel and
    [later] the values the receiver is woken for until the wait ends. *)
Definition todos_index (dead : bool) (pagination : Pagination) (requested : option P)
    (current : IndexState (P := P)) (later : list IndexState) (ended : WaitEnd) : result (list TodoView) StatusCode :=
  if dead then Err SERVICE_UNAVAILABLE
  else
    let offset := default 0 (offset pagination) in
    let limit := default usize_max (limit pagination) in
    match requested with
    | Some target =>
        match List.find (reached target) (current :: later) with
        | Some snapshot => Ok (page (is_index snapshot) offset limit)
        | None =>
            match ended with
            | Closed => Err SERVICE_UNAVAILABLE
            | Elapsed => Ok (page (is_index (default current (last later))) offset limit)
            end
        end
    | None => Ok (page (is_index current) offset limit)
    end.
End get.

(** The token a write hands out is the position a read waits for. *)
Lemma token_roundtrip p : requested_position (Some (dec (GlobalSeq.as_u64 p))) = Some p.
Proof.
  unfold requested_position. pose proof (nz_range (gseq_nz p)) as Hp. cbn. unfold to_str.
  rewrite (proj2 (forallb_forall _ (dec (GlobalSeq.as_u64 p)))).
  - cbn. unfold GlobalSeq.as_u64. rewrite parse_u64_dec by lia. cbn. unfold GlobalSeq.new.
    by rewrite nz_new_get; destruct p.
  - intros c Hc. pose proof (digits_chars (N.to_uint (Z.to_N (GlobalSeq.as_u64 p)))) as Hd. rewrite Forall_forall in Hd.
    apply list_elem_of_In, Hd in Hc. destruct (Z.leb_spec 32 (byte.unsigned c)), (Z.ltb_spec (byte.unsigned c) 127); lia.
Qed.

(** ** Reads *)

Section reads.
Context {T : Target} {CS P : Type} {OP : Ordered P} {D : EqDecision P} {K : CheckpointStore CS TodosIndex P} {ReadErr : Type}.
Context {KS : CheckpointStoreSpec CS TodosIndex P}.

(** C22: a read of the todo service that names the position of a write sees that write.
    Let the projection loop run from any checkpoint of earlier runs, on what a
    subscription delivers of a log whose streams were made by commands, and let a
    receiver see any of the values it publishes: whatever a read returns is a page of
    the living todos as they were after some prefix of the log, and unless the wait for
    the requested position timed out, that prefix holds every event up to the position. *)
Theorem read_your_writes (log : list (DecodedItem P TodoEvent)) cs subscribe_all seed seed_checkpoint cs' published r :
  commanded_log (log_of log) -> log_sorted log ->
  record_ok (fun _ => todos_projector) INDEX_NAME log cs ->
  (forall o items, subscribe_all o = Ok items -> delivered (ReadErr := ReadErr) items `prefix_of` after log o) ->
  hydrate cs = Ok (seed, seed_checkpoint) -> run cs subscribe_all = (cs', published, r) ->
  forall current later dead pagination target ended views,
    Forall (fun s => s ∈ MkIndexState seed seed_checkpoint :: published) (current :: later) ->
    todos_index dead pagination (Some target) current later ended = Ok views ->
    exists n, views = page (MkTodosIndex (living_todos (log_of (take n log)))) (default 0 (offset pagination)) (default usize_max (limit pagination))
      /\ ((forall i x, log !! i = Some x -> pos_leb (it_position x) target = true -> (i < n)%nat)
          \/ (ended = Elapsed /\ Forall (fun s => reached target s = false) (current :: later))).
Proof.
  intros Hc Hs Hr Hsub Hseed Hrun current later dead pagination target ended views Hseen. unfold todos_index.
  destruct dead; [done|].
  assert (forall s, s ∈ current :: later -> exists n, (n <= length log)%nat /\ is_checkpoint s = it_position <$> last (take n log)
    /\ is_index s = MkTodosIndex (living_todos (log_of (take n log)))) as Hshow.
  { intros s Hin. rewrite Forall_forall in Hseen. specialize (Hseen s Hin). apply folded_mirrors.
    - intros id. apply commanded_lifecycle, Hc.
    - destruct (run_published _ _ _ _ _ _ Hs Hr Hsub Hrun) as [_ Hpub]. rewrite Forall_forall in Hpub.
      apply elem_of_cons in Hseen as [->|Hin']; [by eapply hydrate_folded|by apply Hpub]. }
  destruct (List.find (reached target) (current :: later)) as [s|] eqn:Hf.
  - intros [= <-]. apply find_some in Hf as [Hin Hre]. destruct (Hshow s) as (n & Hn & Hck & ->); [by apply list_elem_of_In|].
    exists n. split; [done|]. left. intros i x Hx Hle. unfold reached in Hre. rewrite Hck in Hre.
    destruct (last (take n log)) as [z|] eqn:Hz; [|done]. cbn in Hre. rewrite last_lookup, length_take_le in Hz by done.
    destruct n as [|n]; [done|]. rewrite lookup_take_lt in Hz by (cbn; lia).
    destruct (decide (i < S n)%nat); [done|]. exfalso. pose proof (Hs n i z x ltac:(lia) Hz Hx) as Hlt. unfold pos_ltb in Hlt.
    by rewrite (pos_leb_trans _ _ _ Hle Hre) in Hlt.
  - destruct ended; [|done]. intros [= <-]. destruct (Hshow (default current (last later))) as (n & Hn & _ & ->).
    { destruct (last later) as [x|] eqn:E; [|apply list_elem_of_here]. apply last_Some in E as [l ->]. set_solver. }
    exists n. split; [done|]. right. split; [done|]. apply Forall_forall. intros s Hin. by apply (find_none _ _ Hf), list_elem_of_In.
Qed.
End reads.

(** ** Writes *)

Section writes.
Context {T : Target}.

(** What the [aggregate] attribute and the [DomainEvent] derive make of the domain. *)
#[export] Instance todo_aggregate : Aggregate := {
  State := TodoState;
  Event := TodoEvent;
  AError := TodoError;
  Id := TodoId;
  initial := todo_initial;
  apply s e := Returns (todo_apply s e);
  event_name e := match e with
    | Created _ _ => text "Created" | TextChanged _ _ => text "TextChanged"
    | CompletionChanged _ _ => text "CompletionChanged" | Deleted _ => text "Deleted" end;
  event_name_utf8 e := match e with Created _ _ | TextChanged _ _ | CompletionChanged _ _ | Deleted _ => eq_refl end;
  id_as_ref := todo_uuid;
  MAX_REHYDRATION_EVENTS := DEFAULT_MAX_REHYDRATION_EVENTS;
}.

#[export] Instance create_handler : Handle todo_aggregate Create 0 := {| decide_command := handle_create |}.
#[export] Instance update_handler : Handle todo_aggregate Update 1 := {| decide_command := handle_update |}.
#[export] Instance delete_handler : Handle todo_aggregate Delete 0 := {| decide_command := handle_delete |}.

Context {S : Type} {RP : Repo todo_aggregate S}.
(** The position of the store as the number in the header. *)
Context (as_u64 : Execute.Position todo_aggregate S -> Z).

Record Response : Type := MkResponse { rs_status : StatusCode; rs_position : option bytes; rs_body : option TodoView }.

Definition token (p : Execute.Position todo_aggregate S) : option bytes := Some (dec (as_u64 p)).

(** [todo.state().map_err(internal)?]. *)
Definition todo_state (root : AggregateRoot) : result TodoState StatusCode :=
  map_err (fun _ => INTERNAL_SERVER_ERROR) (state root).

(** [version().is_none() || state()?.deleted] of a loaded todo. *)
Definition require_living (root : AggregateRoot) : result () StatusCode :=
  match root_version root with
  | None => Err NOT_FOUND
  | Some _ => let? st := todo_state root in if deleted st then Err NOT_FOUND else Ok ()
  end.

(** The error arms of the handlers. *)
Definition execute_status (e : ExecuteError TodoError (RError todo_aggregate S)) : StatusCode :=
  if execute_is_conflict (A := todo_aggregate) (S := S) e then CONFLICT
  else match e with EDecide NotFound => NOT_FOUND | _ => INTERNAL_SERVER_ERROR end.

(** [todos_create]; [id] is the random [Uuid]. *)
Definition todos_create (s : S) (id : Uuid) (text : bytes) : S * panicking (result Response StatusCode) :=
  match execute_inner s (root_new (A := todo_aggregate) (MkTodoId id)) (MkCreate id text) with
  | (s, _, Panics) => (s, Panics)
  | (s, _, Returns (Err _)) => (s, Returns (Err INTERNAL_SERVER_ERROR))
  | (s, _, Returns (Ok Ignored)) => (s, Returns (Err INTERNAL_SERVER_ERROR))
  | (s, todo, Returns (Ok (Executed position _))) =>
      (s, Returns (let? st := todo_state todo in Ok (MkResponse CREATED (token position) (Some (todo_view id st)))))
  end.

(** A todo loaded for a write: [load(..)?] and the guard. *)
Definition load_living (fuel : nat) (sched : nat -> S) (id : Uuid) : option (panicking (result AggregateRoot StatusCode)) :=
  match repo_load fuel sched (MkTodoId id) with
  | None => None
  | Some Panics => Some Panics
  | Some (Returns (Err _)) => Some (Returns (Err INTERNAL_SERVER_ERROR))
  | Some (Returns (Ok todo)) => Some (Returns (let? _ := require_living todo in Ok todo))
  end.

(** [todos_update] from the loaded todo on. *)
Definition update_loaded (s : S) (todo : AggregateRoot) (id : Uuid) (text : option bytes) (completed : option bool)
  : S * panicking (result Response StatusCode) :=
  match execute_inner s todo (MkUpdate id text completed) with
  | (s, _, Panics) => (s, Panics)
  | (s, todo, Returns (Ok (Executed position _))) =>
      (s, Returns (let? st := todo_state todo in Ok (MkResponse OK (token position) (Some (todo_view id st)))))
  | (s, todo, Returns (Ok Ignored)) => (s, Returns (let? st := todo_state todo in Ok (MkResponse OK None (Some (todo_view id st)))))
  | (s, _, Returns (Err e)) => (s, Returns (Err (execute_status e)))
  end.

Definition todos_update (fuel : nat) (sched : nat -> S) (s : S) (id : Uuid) (text : option bytes) (completed : option bool)
  : option (S * panicking (result Response StatusCode)) :=
  match load_living fuel sched id with
  | None => None
  | Some Panics => Some (s, Panics)
  | Some (Returns (Err e)) => Some (s, Returns (Err e))
  | Some (Returns (Ok todo)) => Some (update_loaded s todo id text completed)
  end.

(** [todos_delete]. *)
Definition delete_loaded (s : S) (todo : AggregateRoot) (id : Uuid) : S * panicking (result Response StatusCode) :=
  match execute_inner s todo (MkDelete id) with
  | (s, _, Panics) => (s, Panics)
  | (s, _, Returns (Ok (Executed position _))) => (s, Returns (Ok (MkResponse NO_CONTENT (token position) None)))
  | (s, _, Returns (Ok Ignored)) => (s, Returns (Ok (MkResponse NO_CONTENT None None)))
  | (s, _, Returns (Err e)) => (s, Returns (Err (execute_status e)))
  end.

Definition todos_delete (fuel : nat) (sched : nat -> S) (s : S) (id : Uuid) : option (S * panicking (result Response StatusCode)) :=
  match load_living fuel sched id with
  | None => None
  | Some Panics => Some (s, Panics)
  | Some (Returns (Err e)) => Some (s, Returns (Err e))
  | Some (Returns (Ok todo)) => Some (delete_loaded s todo id)
  end.

(** ** What an answer means *)

Context {RPS : RepoSpec todo_aggregate S}.

Lemma apply_all_todo st (es : list TodoEvent) st' :
  apply_all (A := todo_aggregate) st es = Returns st' <-> st' = fold_left todo_apply es st.
Proof. revert st. induction es as [|e es IH]; intros st; cbn; [naive_solver|apply IH]. Qed.

(** An update that is answered with success shows the todo after exactly the events it
    decided, and carries a token exactly when it recorded any; one answered 404 was of a
    todo that does not live, and changed nothing; on any other error the root is as it was loaded. *)
Lemma update_answer s todo id text completed s' answer :
  repo_inv s todo -> update_loaded s todo id text completed = (s', Returns answer) ->
  match answer with
  | Ok response => exists st decided, root_state todo = Some st /\ created st = true /\ deleted st = false
      /\ handle_update st (MkUpdate id text completed) = Ok decided
      /\ rs_status response = OK /\ (is_Some (rs_position response) <-> is_Some decided)
      /\ rs_body response = Some (todo_view id (fold_left todo_apply (from_option Events.iter [] decided) st))
  | Err NOT_FOUND => s' = s /\ exists st, root_state todo = Some st /\ (created st = false \/ deleted st = true)
  | Err e => e = CONFLICT \/ e = INTERNAL_SERVER_ERROR
  end.
Proof.
  intros Hinv. unfold update_loaded. destruct (execute_inner s todo _) as [[s1 root1] o] eqn:He. destruct o as [o|]; [|done].
  pose proof (execute_exact _ _ _ _ _ _ Hinv He) as [_ Hx].
  assert (forall st, created st = false \/ deleted st = true \/ exists d, handle_update st (MkUpdate id text completed) = Ok d /\ created st = true /\ deleted st = false) as Hh.
  { intros st. unfold handle_update. destruct (created st), (deleted st); cbn; [by auto| |by auto..].
    right; right. destruct text, completed; by eexists. }
  destruct o as [[|position decided]|e].
  - destruct Hx as (-> & -> & st & Hst & Hd). unfold todo_state, state. rewrite Hst. intros [= <- <-].
    destruct (Hh st) as [Hc|[Hc|(d & Hd' & Hc & Hdel)]];
      [cbn in Hd; unfold handle_update in Hd; rewrite Hc in Hd; cbn in Hd; try rewrite orb_true_r in Hd; done..|].
    exists st, None. cbn. split_and!; try done; by split; intros [? ?].
  - destruct Hx as (st & st' & Hst & Hd & Ha%apply_all_todo & Hst' & _). unfold todo_state, state. rewrite Hst'. intros [= <- <-].
    destruct (Hh st) as [Hc|[Hc|(d & Hd' & Hc & Hdel)]];
      [cbn in Hd; unfold handle_update in Hd; rewrite Hc in Hd; cbn in Hd; try rewrite orb_true_r in Hd; done..|].
    exists st, (Some decided). cbn. subst st'. split_and!; try done; split; intros _; by eexists.
  - intros [= <- <-]. unfold execute_status. destruct (execute_is_conflict (D := TodoError) e); [by left|].
    destruct e as [e|[]|e]; [by right|by right| |by right]. destruct Hx as (-> & -> & st & Hst & Hd).
    split; [done|]. exists st. split; [done|]. destruct (Hh st) as [?|[?|(d & Hd' & _)]]; [by left|by right|]. cbn in Hd. congruence.
Qed.
End writes.

(** ** Witness: a todo created and renamed, read back at the position of the rename *)

Section sample.
#[local] Existing Instance target64.

Definition sample_id : Uuid := replicate 16 (byte.of_Z 7).
Definition second : Version := MkVersion (MkNonZero (max := u64_max) 2 eq_refl).
Definition sample_log : list (DecodedItem Version TodoEvent) :=
  [MkItem INITIAL (Some (MkStreamKey sample_id)) (Created sample_id (text "milk")) (text "Created");
   MkItem second (Some (MkStreamKey sample_id)) (TextChanged sample_id (text "oat milk")) (text "TextChanged")].
Definition sample_subscribe (o : option Version) : result (list (result (DecodedItem Version TodoEvent) ())) () :=
  Ok (Ok <$> after sample_log o).
Definition sample_store : InMemoryCheckpointStore (S := TodosIndex) (P := Version) := checkpoints_new.
Definition sample_run := run (K := inmemory_checkpoints) sample_store sample_subscribe.
Definition sample_seen : list IndexState := sample_run.1.2.

Lemma delivered_all (l : list (DecodedItem Version TodoEvent)) : delivered (ReadErr := ()) (Ok <$> l) = l.
Proof. induction l as [|x l IH]; [done|]. cbn. by rewrite IH. Qed.

Lemma sample_commanded : commanded_log (log_of sample_log).
Proof.
  intros id. destruct (decide (id = sample_id)) as [->|Hne].
  - change (commanded sample_id ([Created sample_id (text "milk")] ++ Events.iter (N := 1) (events_new (TextChanged sample_id (text "oat milk"))))).
    apply (commanded_update _ _ (MkUpdate sample_id (Some (text "oat milk")) None)); [|done|done].
    apply (commanded_create _ [] (MkCreate sample_id (text "milk")) (events_new (Created sample_id (text "milk")))); [constructor|done|done].
  - unfold stream_events. cbn. rewrite !decide_False by (by intros E; apply Hne). constructor.
Qed.

Lemma read_your_writes_witness :
  exists n, [MkTodoView sample_id (text "oat milk") false] =
      page (MkTodosIndex (living_todos (log_of (take n sample_log)))) 0 usize_max
    /\ ((forall i x, sample_log !! i = Some x -> pos_leb (it_position x) second = true -> (i < n)%nat)
        \/ (Closed = Elapsed /\ Forall (fun s => reached second s = false) (MkIndexState index_initial None :: sample_seen))).
Proof.
  apply (read_your_writes (KS := inmemory_checkpoints_spec) (ReadErr := ()) sample_log sample_store sample_subscribe index_initial None
    sample_run.1.1 sample_seen sample_run.2) with (dead := false) (pagination := MkPagination None None).
  - exact sample_commanded.
  - intros [|[|i]] [|[|j]] x y Hij Hx Hy; try lia; try discriminate; cbn in Hx, Hy; simplify_eq. reflexivity.
  - intros rec Hrec. by cbn in Hrec; rewrite lookup_empty in Hrec.
  - intros o items [= <-]. by rewrite delivered_all.
  - reflexivity.
  - reflexivity.
  - apply Forall_cons_2; [apply list_elem_of_here|]. apply Forall_forall. intros s Hs. by apply list_elem_of_further.
  - reflexivity.
Defined.
End sample.
