(* ===== verification/FjallHistory.v ===== *)
(** * The embedded adapter: histories

    A database's life is a sequence of operations: appends, atomic appends, snapshot
    and checkpoint commits, flushes, closings and reopenings, each of which may fail.
    No operation, failed or not, loses or reorders a committed event, and the index
    mode chosen when the database was created never changes. *)

From S2P Require Import Prelude Utf8 ErrorId Version Value Wire Envelope RawStore Repository Checkpoint State.
From S2P Require Import Wake Import Log WireKey Lsm Fjall FjallSpec FjallContract FjallState.

Section history.
Context {T : Target} {AS : ArrayString} {W : Watch} {L : Lsm} {LS : LsmSpec}.
Context (display_id : bytes -> list bytes).

(** ** Which keyspaces an operation writes *)

(** Writes that do not touch the manifest. *)
Definition spares_manifest (ws : list write) : Prop := Forall (fun w => w_keyspace w <> MnesisMeta) ws.

Lemma stage_events_spare mode rs tx : spares_manifest (tx_writes tx) -> spares_manifest (tx_writes (fold_left (stage_event mode) rs tx)).
Proof.
  intros H. rewrite stage_events_writes. apply Forall_app. split; [done|]. apply Forall_forall.
  intros w (row & Hw & _)%list_elem_of_bind. destruct mode; unfold row_writes in Hw; rewrite ?elem_of_cons, elem_of_nil in Hw;
    naive_solver.
Qed.

Lemma tx_insert_spare tx ks k v : ks <> MnesisMeta -> spares_manifest (tx_writes tx) -> spares_manifest (tx_writes (tx_insert tx ks k v)).
Proof. intros Hks H. apply Forall_app. split; [done|]. by constructor. Qed.

Lemma stage_append_spare mode tx id expected b prepared tx' g :
  spares_manifest (tx_writes tx) -> stage_append mode tx id expected b prepared = Ok (tx', g) ->
  tx_db tx' = tx_db tx /\ spares_manifest (tx_writes tx').
Proof.
  intros Htx. unfold stage_append. destruct (read_version tx id) as [n|]; cbn [map_err result_bind]; [|done].
  destruct (validate_append_versions n expected b id) as [[]|]; cbn [map_err result_bind]; [|done].
  destruct (read_global tx id) as [n'|]; cbn [map_err result_bind]; [|done].
  destruct (plan_prepared_run n n' id prepared) as [p|]; cbn [map_err result_bind]; [|done].
  intros [= <- _]. split; [by rewrite stage_events_writes|]. by apply tx_insert_spare, tx_insert_spare, stage_events_spare.
Qed.

Lemma stage_runs_spare mode tx g prepared tx' g' :
  spares_manifest (tx_writes tx) -> stage_runs mode tx g prepared = Ok (tx', g') ->
  tx_db tx' = tx_db tx /\ spares_manifest (tx_writes tx').
Proof.
  revert tx g. induction prepared as [|[w frames] prepared IH]; intros tx g Htx; simpl; [by intros [= <- _]|].
  destruct (plan_prepared_run _ _ _ _) as [p|]; cbn [map_err result_bind]; [|done].
  intros E. apply IH in E as [E ?]; [|by apply tx_insert_spare, stage_events_spare].
  split; [rewrite E, stage_events_writes; done|done].
Qed.

Lemma write_runs_spare mode tx first prepared tx' p :
  spares_manifest (tx_writes tx) -> write_atomic_runs mode tx first prepared = Ok (tx', p) ->
  tx_db tx' = tx_db tx /\ spares_manifest (tx_writes tx').
Proof.
  intros Htx. unfold write_atomic_runs. destruct (read_global tx first) as [n|]; cbn [map_err result_bind]; [|done].
  destruct (stage_runs mode tx n prepared) as [[tx1 g]|] eqn:E; cbn [result_bind]; [|done].
  destruct (GlobalSeq.new g) as [q|]; cbn [ok_or result_bind]; [|done]. intros [= <- _].
  apply stage_runs_spare in E as [E ?]; [|done]. split; [done|]. by apply tx_insert_spare.
Qed.

Definition manifest_of (s : Storage) : option bytes := content_of (st_db s) MnesisMeta !! MANIFEST_KEY.

Lemma commit_keeps_manifest s tx s' r :
  tx_db tx = st_db s -> spares_manifest (tx_writes tx) -> commit s tx = (s', r) ->
  st_mode s' = st_mode s /\ manifest_of s' = manifest_of s.
Proof.
  intros Hdb Hws. unfold commit. rewrite Hdb. destruct (tx_commit _ (st_db s) (tx_writes tx)) as [db' r'] eqn:E.
  intros [= <- _]. split; [done|]. unfold manifest_of. cbn [st_db set_db].
  destruct r' as [[]|e]; [by rewrite (tx_commit_ok _ _ _ _ E), apply_writes_other|].
  destruct (tx_commit_err _ _ _ _ _ E) as [H|H]; by rewrite H, ?apply_writes_other.
Qed.

Lemma append_keeps_manifest s id expected b s' o :
  storage_append s id expected b = (s', o) -> st_mode s' = st_mode s /\ manifest_of s' = manifest_of s.
Proof.
  unfold storage_append. destruct (prepare_append id b) as [[p|e]|]; [|by intros [= <- _]..].
  destruct (stage_append _ _ _ _ _ _) as [[tx g]|e] eqn:Es; [|by intros [= <- _]].
  apply stage_append_spare in Es as [Hdb Hsp]; [|constructor].
  destruct (commit s tx) as [s1 r] eqn:Ec. pose proof (commit_keeps_manifest _ _ _ _ Hdb Hsp Ec) as H.
  destruct r as [[]|e]; by intros [= <- _].
Qed.

Lemma atomic_keeps_manifest s ws s' o :
  storage_atomic_append s ws = (s', o) -> st_mode s' = st_mode s /\ manifest_of s' = manifest_of s.
Proof.
  unfold storage_atomic_append. destruct ws as [|w ws]; [by intros [= <- _]|].
  destruct (prepare_atomic (w :: ws)) as [[p|e]|]; [|by intros [= <- _]..].
  destruct (validate_atomic_writes _ _ _) as [[]|e]; cbn [result_bind]; [|by intros [= <- _]].
  destruct (write_atomic_runs _ _ _ _) as [[tx q]|e] eqn:Es; [|by intros [= <- _]].
  apply write_runs_spare in Es as [Hdb Hsp]; [|constructor].
  destruct (commit s tx) as [s1 r] eqn:Ec. pose proof (commit_keeps_manifest _ _ _ _ Hdb Hsp Ec) as H.
  destruct r as [[]|e]; by intros [= <- _].
Qed.

(** ** Histories *)

(** The whole open keeps a manifest that was there, failed or not: the engine's
    faults, a mismatched mode and an unmarked database change nothing. *)
Lemma storage_open_keeps db mode d db' r m :
  storage_open db mode d = (db', r) -> content_of db MnesisMeta !! MANIFEST_KEY = Some (manifest m) ->
  forall ks, content_of db' ks = content_of db ks.
Proof.
  unfold storage_open. destruct (validate_manifest db mode) as [db1 r1] eqn:Ev.
  destruct (validate_manifest_spec _ _ _ _ Ev) as (_ & _ & Hm). intros E Hman. destruct (Hm m Hman) as [Hc _].
  destruct r1 as [[]|e1]; [|by injection E as <- _].
  set (names := [Streams; _; _; _; _; _; _]) in E. destruct (open_keyspaces db1 names) as [db2 r2] eqn:Eo.
  pose proof (open_keyspaces_content _ _ _ _ Eo) as Hc2. intros ks. rewrite <- Hc, <- Hc2.
  by destruct r2 as [[]|e2]; injection E as <- _.
Qed.

(** A database directory: held by an open store, or closed.  A store that failed to
    open leaves its directory closed, as the failed open left it. *)
Inductive Directory :=
| Opened (s : Storage)
| Closed (db : Db).

(** One operation on a directory, whatever it returns. *)
Inductive fjall_step : Directory -> Directory -> Prop :=
| step_append s id expected b s' o :
    batch_ok b -> storage_append s id expected b = (s', o) -> fjall_step (Opened s) (Opened s')
| step_atomic s ws s' o :
    Forall write_ok ws -> storage_atomic_append s ws = (s', o) -> fjall_step (Opened s) (Opened s')
| step_snapshot s id schema v st s' r :
    fjall_snapshot_commit s id schema v st = (s', r) -> fjall_step (Opened s) (Opened s')
| step_checkpoint {P} `{Ordered P, Position P} s id (w : CheckpointWrite bytes P) s' r :
    fjall_commit_checkpoint display_id s id w = (s', r) -> fjall_step (Opened s) (Opened s')
| step_flush s s' r : flush s = (s', r) -> fjall_step (Opened s) (Opened s')
| step_close s : fjall_step (Opened s) (Closed (st_db s))
| step_open db mode d db' s : storage_open db mode d = (db', Ok s) -> fjall_step (Closed db) (Opened s)
| step_open_failed db mode d db' e : storage_open db mode d = (db', Err e) -> fjall_step (Closed db) (Closed db').

(** The content of the keyspaces of a directory. *)
Definition directory_content (x : Directory) : content :=
  match x with Opened s => content_of (st_db s) | Closed db => content_of db end.

(** A directory created in a mode, with the log [l]; a store that holds it open
    works in that mode. *)
Record fjall_inv (mode : AllIndex) (x : Directory) (l : Log) : Prop := {
  fi_log : db_represents mode l (directory_content x);
  fi_manifest : directory_content x MnesisMeta !! MANIFEST_KEY = Some (manifest mode);
  fi_mode : forall s, x = Opened s -> st_mode s = mode }.

(** An operation of an open store that stores [l'] and spares the manifest. *)
Lemma opened_inv mode s l s' l' :
  fjall_inv mode (Opened s) l -> stores s' l' -> st_mode s' = st_mode s -> manifest_of s' = manifest_of s ->
  fjall_inv mode (Opened s') l'.
Proof.
  intros [_ Hm Hmode] Hs E1 E2. specialize (Hmode s eq_refl). subst mode.
  split; [unfold stores in Hs; by rewrite E1 in Hs|unfold manifest_of in E2; cbn [directory_content] in *; by rewrite E2|].
  by intros ? [= <-].
Qed.

(** An open in the mode the directory was created in, or a refused one. *)
Lemma open_inv mode db l m d db' r :
  fjall_inv mode (Closed db) l -> storage_open db m d = (db', r) ->
  fjall_inv mode (Closed db') l /\ forall s, r = Ok s -> fjall_inv mode (Opened s) l.
Proof.
  intros [Hl Hm _] E. cbn [directory_content] in *. pose proof (storage_open_keeps _ _ _ _ _ _ E Hm) as Hc. split.
  - split; cbn [directory_content]; [apply (represents_other _ _ (content_of db)); [by intros|done]|by rewrite Hc|done].
  - intros s ->. assert (mode = m) as <-.
    { destruct (decide (mode = m)) as [|Hne]; [done|].
      by destruct (storage_open_mismatch _ _ _ _ _ _ E Hm Hne) as [H|[e H]]. }
    destruct (storage_open_Ok _ _ _ _ _ E) as (E1 & E2 & [[_ Hor]|[Hempty _]]);
      [|by rewrite Hempty, lookup_empty in Hm].
    specialize (Hor l Hl). unfold stores in Hor. rewrite E1 in Hor. split; [done|done|]. by intros ? [= <-].
Qed.

Lemma fjall_step_inv mode x l x' :
  fjall_inv mode x l -> fjall_step x x' -> exists l', l `prefix_of` l' /\ fjall_inv mode x' l'.
Proof.
  intros Hinv Hstep.
  assert (forall s, x = Opened s -> stores s l) as Hstores.
  { intros s ->. destruct Hinv as [Hs _ Hmode]. unfold stores. by rewrite (Hmode s eq_refl). }
  destruct Hstep as [s id expected b s' o Hb E|s ws s' o Hok E|s id schema v st s' r E|P HO HP s id w s' r E|s s' r E|s
    |db m d db' s E|db m d db' e E]; try specialize (Hstores s eq_refl) as Hs.
  - destruct (append_keeps_manifest _ _ _ _ _ _ E) as [E1 E2].
    pose proof (storage_append_spec s l id expected b Hs Hb) as H. rewrite E in H.
    assert (stores s' l \/ stores s' (l ++ tag_log id (PendingBatch.iter b))) as [?|Hnew] by (destruct o as [[]|]; naive_solver);
      eexists; (split; [|by eapply opened_inv]); [reflexivity|by eexists].
  - destruct (atomic_keeps_manifest _ _ _ _ E) as [E1 E2].
    pose proof (storage_atomic_spec s l ws Hs Hok) as H. rewrite E in H.
    assert (stores s' l \/ stores s' (l ++ writes_log ws)) as [?|Hnew] by (destruct o as [[]|]; naive_solver);
      eexists; (split; [|by eapply opened_inv]); [reflexivity|by eexists].
  - destruct (snapshot_commit_effect _ _ _ _ _ _ _ E) as (E1 & Hks & _). exists l. split; [reflexivity|].
    apply (opened_inv _ s l); [done| |done|unfold manifest_of; by rewrite Hks].
    apply (stores_other s); [done| |done]. intros ks Hor. apply Hks. naive_solver.
  - destruct (fjall_commit_effect _ _ _ _ _ _ E) as (E1 & Hks & _). pose proof (pos_state_keyspace (P := P)) as Hp.
    exists l. split; [reflexivity|].
    apply (opened_inv _ s l); [done| |done|unfold manifest_of; rewrite Hks; [done|destruct Hp as [-> | ->]; done]].
    apply (stores_other s); [done| |done]. intros ks Hor. apply Hks. destruct Hp as [-> | ->]; naive_solver.
  - unfold flush in E. destruct (db_persist PersistSyncAll (st_db s)) as [db' r'] eqn:Ep. injection E as <- _.
    pose proof (db_persist_spec _ _ _ _ Ep) as Hc. exists l. split; [reflexivity|].
    apply (opened_inv _ s l); [done| |done|unfold manifest_of; cbn [st_db set_db]; by rewrite Hc].
    apply (stores_other s); [done| |done]. intros ks _. apply Hc.
  - exists l. split; [reflexivity|]. by destruct Hinv as [Hl Hm _]; split.
  - exists l. split; [reflexivity|]. by eapply open_inv.
  - exists l. split; [reflexivity|]. by eapply open_inv.
Qed.

(** C20: from any database, open or closed, whatever sequence of appends, atomic
    appends, snapshot and checkpoint commits, flushes, closings and reopenings
    follows, in whichever mode, and whichever of them fail, the database holds a log
    that extends the one it held before and a manifest of the mode it was created
    with, and every store that opens it works in that mode. *)
Theorem fjall_history_grows mode x l x' :
  fjall_inv mode x l -> rtc fjall_step x x' -> exists l', l `prefix_of` l' /\ fjall_inv mode x' l'.
Proof.
  intros Hinv Hsteps. revert l Hinv. induction Hsteps as [x|x x1 x' Hstep _ IH]; intros l Hinv; [by exists l|].
  destruct (fjall_step_inv _ _ _ _ Hinv Hstep) as (l1 & Hp1 & Hinv1).
  destruct (IH l1 Hinv1) as (l2 & Hp2 & ?). exists l2. split; [by etrans|done].
Qed.

End history.
