(* ===== verification/FjallBlocking.v ===== *)
(** * The blocking worker (adapters/fjall/src/blocking.rs)

    Storage calls block, so one worker thread runs them from two bounded queues, jobs
    and cleanups, and a scan is a stream whose rows the worker fetches in batches.
    A batch in flight is a future; what it does when it is polled is chosen by its
    environment ([Answer]). *)

From S2P Require Import Prelude ErrorId RawStore WireKey Lsm Fjall.

(** ** Batched scans *)

Section scans.
Context {T : Target} {L : Lsm}.

Record BlockingConfig : Type := MkBlockingConfig {
  queue_capacity : NonZero usize_max;
  max_open_scans : NonZero usize_max;
  scan_batch_rows : NonZero usize_max;
  scan_batch_bytes : NonZero usize_max;
}.

(** [Cursor]. *)
Class RowCursor (C : Type) := {
  RowItem : Type;
  next_row : C -> option (result RowItem FjallError * Z) * C;
}.
Arguments RowItem C {_}.

#[export] Instance scan_rows {S} {SS : ScanStrategy S} : RowCursor (ScanCursor S) := {
  RowItem := SItem;
  next_row := next_sized;
}.

#[export] Instance id_rows : RowCursor StreamIdCursor := {
  RowItem := StreamKey;
  next_row := id_next_row;
}.

Context {C : Type} {RC : RowCursor C}.
Notation Row := (result (RowItem C) FjallError).

Record Batch : Type := MkFetched { batch_cursor : option C; batch_rows : list Row }.

(** The loop of [fetch]: at most [n] more rows. *)
Fixpoint fetch_loop (n : nat) (c : C) (config : BlockingConfig) (rows : list Row) (total : Z) : Batch :=
  match n with
  | O => MkFetched (Some c) rows
  | S n =>
      match next_row c with
      | (None, _) => MkFetched None rows
      | (Some (Err e, _), _) => MkFetched None (rows ++ [Err e])
      | (Some (Ok item, size), c) =>
          match checked_add usize_max total size with
          | None => MkFetched None (rows ++ [Err FjallError.ScanLengthOverflow])
          | Some total =>
              let rows := rows ++ [Ok item] in
              if nz_get (scan_batch_bytes config) <=? total then MkFetched (Some c) rows
              else fetch_loop n c config rows total
          end
      end
  end.

Definition fetch (c : C) (config : BlockingConfig) : Batch :=
  fetch_loop (Z.to_nat (nz_get (scan_batch_rows config))) c config [] 0.

(** [bs_pending] is the cursor a batch in flight owns. *)
Record BlockingStream : Type := MkBlockingStream {
  bs_cursor : option C;
  bs_executor : bool;
  bs_config : BlockingConfig;
  bs_rows : list Row;
  bs_pending : option C;
}.

Definition stream_new (c : C) (config : BlockingConfig) : BlockingStream :=
  MkBlockingStream (Some c) true config [] None.

Inductive Poll (A : Type) : Type := Ready (a : A) | Pending.
#[global] Arguments Ready {A} _.
#[global] Arguments Pending {A}.

(** A poll of the batch in flight: not yet, the queue or the worker fails, or the
    worker has run it. *)
Inductive Answer : Type := NotYet | Fails (e : FjallError) | Runs.

Definition answered (a : Answer) : bool := match a with NotYet => false | _ => true end.

(** The end of [poll_next], once a batch is in flight. *)
Definition poll_pending (s : BlockingStream) (c : C) (a : Answer) : Poll (option Row) * BlockingStream :=
  let finish (cursor : option C) (rows : list Row) :=
    let executor := bs_executor s && bool_decide (is_Some cursor) in
    (Ready (head rows), MkBlockingStream cursor executor (bs_config s) (tail rows) None) in
  match a with
  | NotYet => (Pending, MkBlockingStream None (bs_executor s) (bs_config s) [] (Some c))
  | Fails e => finish None [Err e]
  | Runs => let b := fetch c (bs_config s) in finish (batch_cursor b) (batch_rows b)
  end.

Definition poll_next (s : BlockingStream) (a : Answer) : Poll (option Row) * BlockingStream :=
  match bs_rows s with
  | row :: rows => (Ready (Some row), MkBlockingStream (bs_cursor s) (bs_executor s) (bs_config s) rows (bs_pending s))
  | [] =>
      match bs_pending s with
      | Some c => poll_pending s c a
      | None =>
          match bs_cursor s with
          | None => (Ready None, s)
          | Some c =>
              if bs_executor s then poll_pending s c a
              else (Ready None, MkBlockingStream None false (bs_config s) [] None)
          end
      end
  end.

(** The values a sequence of polls returns. *)
Fixpoint polls (s : BlockingStream) (answers : list Answer) : list (option Row) :=
  match answers with
  | [] => []
  | a :: answers =>
      match poll_next s a with
      | (Ready r, s) => r :: polls s answers
      | (Pending, s) => polls s answers
      end
  end.

(** ** Correctness of batched scans *)

(** Polling the cursor directly yields [l]; no row is larger than [m]. *)
Inductive drains (m : Z) : C -> list Row -> Prop :=
| drains_end c c' : next_row c = (None, c') -> drains m c []
| drains_error c e size c' : next_row c = (Some (Err e, size), c') -> drains m c [Err e]
| drains_row c item size c' l :
    next_row c = (Some (Ok item, size), c') -> 0 <= size <= m -> drains m c' l -> drains m c (Ok item :: l).

Lemma fetch_loop_spec m n c config rows total l :
  drains m c l -> 0 <= total -> total + m <= usize_max -> nz_get (scan_batch_bytes config) + m <= usize_max ->
  total < nz_get (scan_batch_bytes config) ->
  let b := fetch_loop n c config rows total in
  match batch_cursor b with
  | None => batch_rows b = rows ++ l
  | Some c' => exists k l', batch_rows b = rows ++ (Ok <$> k) /\ l = (Ok <$> k) ++ l' /\ drains m c' l' /\ (n <> O -> k <> [])
  end.
Proof.
  revert c rows total l. induction n as [|n IH]; intros c rows total l Hd Ht Hm Hb Hlt; simpl.
  { exists [], l. rewrite app_nil_r. split_and!; try done. }
  destruct Hd as [c c' E|c e size c' E|c item size c' l E Hsize Hd]; rewrite E; simpl; [by rewrite app_nil_r|done|].
  rewrite checked_add_ok by lia. destruct (Z.leb_spec (nz_get (scan_batch_bytes config)) (total + size)).
  - simpl. exists [item], l. done.
  - specialize (IH c' (rows ++ [Ok item]) (total + size) l Hd). cbv zeta in IH.
    destruct (batch_cursor _) as [c1|].
    + destruct IH as (k & l' & Hr & -> & Hd' & _); [lia..|].
      exists (item :: k), l'. rewrite Hr, <- app_assoc. done.
    + rewrite IH by lia. by rewrite <- app_assoc.
Qed.

Lemma fetch_spec m c config l :
  drains m c l -> nz_get (scan_batch_bytes config) + m <= usize_max -> 0 <= m ->
  match batch_cursor (fetch c config) with
  | None => batch_rows (fetch c config) = l
  | Some c' => exists k l', batch_rows (fetch c config) = Ok <$> k /\ l = (Ok <$> k) ++ l' /\ drains m c' l' /\ k <> []
  end.
Proof.
  intros Hd Hm H0. pose proof (nz_range (scan_batch_bytes config)). pose proof (nz_range (scan_batch_rows config)).
  pose proof (fetch_loop_spec m (Z.to_nat (nz_get (scan_batch_rows config))) c config [] 0 l Hd
    ltac:(lia) ltac:(lia) Hm ltac:(lia)) as Hf.
  cbv zeta in Hf. fold (fetch c config) in Hf. destruct (batch_cursor (fetch c config)) as [c1|]; [|done].
  destruct Hf as (k & l' & ? & ? & ? & Hk). exists k, l'. split_and!; try done. apply Hk. lia.
Qed.

(** What a stream still delivers; while it can still fetch, its buffer has no error. *)
Definition stream_rest (m : Z) (s : BlockingStream) (l : list Row) : Prop :=
  nz_get (scan_batch_bytes (bs_config s)) + m <= usize_max /\
  exists k, l = bs_rows s ++ k /\
  match bs_cursor s, bs_pending s with
  | Some c, None => bs_executor s = true /\ drains m c k /\ exists items, bs_rows s = Ok <$> items
  | None, Some c => bs_executor s = true /\ drains m c k /\ bs_rows s = []
  | None, None => k = []
  | Some _, Some _ => False
  end.

(** EOF and errors are fused. *)
Definition drained (s : BlockingStream) : Prop := bs_cursor s = None /\ bs_pending s = None.
Definition finished (s : BlockingStream) : Prop := bs_rows s = [] /\ drained s.

(** The row a poll returns: an error leaves nothing to fetch. *)
Definition row_ok (r : option Row) (s : BlockingStream) : Prop :=
  match r with Some (Err _) => drained s | _ => True end.

Lemma poll_pending_spec m s c a l :
  nz_get (scan_batch_bytes (bs_config s)) + m <= usize_max -> 0 <= m -> bs_executor s = true -> drains m c l ->
  match poll_pending s c a with
  | (Pending, s') => a = NotYet /\ stream_rest m s' l
  | (Ready r, s') =>
      (r = head l /\ stream_rest m s' (tail l) /\ row_ok r s' /\ (l = [] -> finished s')) \/
      (exists e, a = Fails e /\ r = Some (Err e) /\ finished s')
  end.
Proof.
  intros Hm H0 He Hd. destruct a as [|e|]; simpl.
  - split; [done|]. split; [done|]. exists l. done.
  - right. exists e. split_and!; done.
  - left. pose proof (fetch_spec m c (bs_config s) l Hd Hm H0) as Hf.
    destruct (fetch c (bs_config s)) as [[c'|] rows]; simpl in *.
    + destruct Hf as (k & l' & -> & -> & Hd' & Hk). destruct k as [|r k]; [done|]. split; [done|]. split; [|done].
      split; [done|]. exists l'. simpl. rewrite He. eauto.
    + subst rows. split; [done|]. split; [|split; [by destruct (head l) as [[]|]|by intros ->]].
      split; [done|]. exists []. simpl. by rewrite app_nil_r.
Qed.

Lemma poll_next_spec m s a l :
  0 <= m -> stream_rest m s l ->
  match poll_next s a with
  | (Pending, s') => a = NotYet /\ stream_rest m s' l
  | (Ready r, s') =>
      (r = head l /\ stream_rest m s' (tail l) /\ row_ok r s' /\ (l = [] -> finished s')) \/
      (exists e, a = Fails e /\ r = Some (Err e) /\ finished s')
  end.
Proof.
  intros H0 [Hm (k & -> & Hk)]. unfold poll_next. destruct (bs_rows s) as [|row rows] eqn:Hrows.
  - destruct (bs_pending s) as [c|] eqn:Hp, (bs_cursor s) as [c'|] eqn:Hc; try done; simpl.
    + destruct Hk as (He & Hd & _). by apply poll_pending_spec.
    + destruct Hk as (He & Hd & _). rewrite He. by apply poll_pending_spec.
    + subst k. left. split; [done|]. split; [|done]. split; [done|]. exists []. by rewrite Hrows, Hc, Hp.
  - left. split; [done|]. destruct (bs_cursor s) as [c|] eqn:Hc, (bs_pending s) as [c'|] eqn:Hp; try done.
    + destruct Hk as (He & Hd & [|item items] & Hitems); [done|]. injection Hitems as -> ->.
      split; [|done]. split; [done|]. exists k. simpl. eauto.
    + by destruct Hk as (_ & _ & ?).
    + split; [|by destruct row]. split; [done|]. exists k. done.
Qed.

Lemma polls_finished s answers : finished s -> polls s answers = replicate (length answers) None.
Proof.
  intros (Hr & Hc & Hp). induction answers as [|a answers IH]; [done|]. simpl. unfold poll_next.
  rewrite Hr, Hp, Hc. by rewrite IH.
Qed.

(** Nothing left to fetch: the buffer, whatever the environment does. *)
Lemma polls_drained s answers : drained s -> polls s answers = ended (length answers) (bs_rows s).
Proof.
  revert s. induction answers as [|a answers IH]; intros s [Hc Hp]; [done|]. simpl. unfold poll_next.
  rewrite Hp, Hc. destruct (bs_rows s) as [|row rows] eqn:Hr; simpl; [by rewrite IH, Hr|by rewrite IH].
Qed.

Lemma stream_rest_drained m s l : stream_rest m s l -> drained s -> l = bs_rows s.
Proof. intros (_ & k & -> & Hk) [Hc Hp]. rewrite Hc, Hp in Hk. by rewrite Hk, app_nil_r. Qed.

Lemma stream_new_rest m c config l :
  drains m c l -> nz_get (scan_batch_bytes config) + m <= usize_max -> stream_rest m (stream_new c config) l.
Proof. intros Hd Hb. split; [done|]. exists l. do 3 (split; [done|]). by exists []. Qed.

Lemma polls_rest m s l answers :
  0 <= m -> stream_rest m s l ->
  let out := polls s answers in
  (out = ended (length out) l \/
   exists pre e, Fails e ∈ answers /\ Ok <$> pre `prefix_of` l /\ out = ended (length out) ((Ok <$> pre) ++ [Err e])) /\
  (length (filter (fun a => answered a = true) answers) <= length out <= length answers)%nat.
Proof.
  intros H0. revert s l. induction answers as [|a answers IH]; intros s l Hs; [by split; [left|simpl; lia]|].
  cbv zeta. cbn [polls]. pose proof (poll_next_spec m s a l H0 Hs) as Hp. rewrite filter_cons.
  pose proof (length_filter (fun a => answered a = true) answers) as Hfl.
  destruct (poll_next s a) as [[r|] s'].
  - destruct Hp as [(-> & Hs' & Hrow & Hend)|(e & -> & -> & Hf)].
    + cbn [length ended]. destruct l as [|r l].
      { rewrite polls_finished by auto. split.
        - left. cbn [tail]. by rewrite length_replicate, ended_nil.
        - rewrite length_replicate. destruct (decide _); simpl; lia. }
      destruct (IH s' l Hs') as [Hout Hlen]. split; [|destruct (decide _); simpl; lia]. simpl in *.
      destruct Hout as [<-|(pre & e & Hin & Hpre & Hout)]; [by left|]. destruct r as [item|e'].
      * right. exists (item :: pre), e. split; [by right|]. split; [by apply prefix_cons|]. cbn. by f_equal.
      * left. rewrite polls_drained, (stream_rest_drained _ _ _ Hs') by done. f_equal. f_equal.
        clear. generalize (bs_rows s'). induction answers as [|? ? IH]; intros k; simpl; [done|by rewrite <- IH].
    + rewrite polls_finished by done. cbn [length]. rewrite length_replicate. split; [|destruct (decide _); simpl; lia].
      right. exists [], e. split; [left|]. split; [apply prefix_nil|]. simpl. by rewrite ended_nil.
  - destruct Hp as [-> Hs']. destruct (IH s' l Hs') as [Hout Hlen]. rewrite decide_False by done. split; [|simpl; lia].
    destruct Hout as [?|(pre & e & ? & ? & ?)]; [by left|]. right. exists pre, e. split; [by right|done].
Qed.

(** Reading a cursor through the worker in batches is reading the cursor:
    whatever the row and byte limits and however long each batch takes, the stream
    returns exactly the rows the cursor yields, in order, and then ends for good;
    a poll that finds its batch done always returns; if the queue or the worker
    fails, the stream returns a prefix of the rows, that error, and then ends. *)
Theorem blocking_stream_exact m c config l answers :
  drains m c l -> 0 <= m -> nz_get (scan_batch_bytes config) + m <= usize_max ->
  let out := polls (stream_new c config) answers in
  (out = ended (length out) l \/
   exists pre e, Fails e ∈ answers /\ Ok <$> pre `prefix_of` l /\ out = ended (length out) ((Ok <$> pre) ++ [Err e])) /\
  (length (filter (fun a => answered a = true) answers) <= length out <= length answers)%nat.
Proof.
  intros Hd H0 Hb. by apply (polls_rest m), stream_new_rest.
Qed.

End scans.

(** ** The worker

    The worker's two channels, what it has run, and the environment's sends: a
    channel is closed once its senders are gone, after which it only drains. *)

Section worker.
Context {Job : Type}.

Inductive Queue : Type := Jobs | Cleanup.
Inductive OpenQueues : Type := Both (priority : Queue) | OnlyJobs | OnlyCleanup | NoneOpen.

#[export] Instance queue_eq_dec : EqDecision Queue.
Proof. solve_decision. Defined.

Record Channel : Type := MkChannel { waiting : list Job; closed : bool }.

Inductive WorkerEvent : Type :=
| RunJob (work : Job) (next : OpenQueues)
| ChannelClosed (next : OpenQueues).

(** [receiver.recv()]: nothing yet, the end of the channel, or a job. *)
Definition recv (c : Channel) : option (option Job * Channel) :=
  match waiting c with
  | job :: waiting => Some (Some job, MkChannel waiting (closed c))
  | [] => if closed c then Some (None, c) else None
  end.

Definition received (work : option Job) (next closed : OpenQueues) : WorkerEvent :=
  match work with
  | None => ChannelClosed closed
  | Some ready => RunJob ready next
  end.

Record Channels : Type := MkChannels { receiver : Channel; discarded : Channel }.

Definition from_jobs (c : Channels) : option (option Job * Channels) :=
  (fun '(v, ch) => (v, MkChannels ch (discarded c))) <$> recv (receiver c).
Definition from_cleanup (c : Channels) : option (option Job * Channels) :=
  (fun '(v, ch) => (v, MkChannels (receiver c) ch)) <$> recv (discarded c).

(** [next_job]; [None] while every open channel is idle.  [select] polls its first
    argument first. *)
Definition next_job (c : Channels) (open : OpenQueues) : option (WorkerEvent * Channels) :=
  let on_cleanup := (fun '(v, c) => (received v (Both Jobs) OnlyJobs, c)) <$> from_cleanup c in
  let on_jobs := (fun '(v, c) => (received v (Both Cleanup) OnlyCleanup, c)) <$> from_jobs c in
  match open with
  | Both Cleanup => match on_cleanup with Some r => Some r | None => on_jobs end
  | Both Jobs => match on_jobs with Some r => Some r | None => on_cleanup end
  | OnlyJobs => (fun '(v, c) => (received v OnlyJobs NoneOpen, c)) <$> from_jobs c
  | OnlyCleanup => (fun '(v, c) => (received v OnlyCleanup NoneOpen, c)) <$> from_cleanup c
  | NoneOpen => Some (ChannelClosed NoneOpen, c)
  end.

(** The worker between two iterations of its loop; [ran] is ghost: what it has run,
    in order, with the queue it came from. *)
Record Worker : Type := MkWorker { w_open : OpenQueues; w_channels : Channels; w_ran : list (Queue * Job) }.

Definition worker_new : Worker :=
  MkWorker (Both Cleanup) (MkChannels (MkChannel [] false) (MkChannel [] false)) [].

Definition chan (q : Queue) (c : Channels) : Channel := match q with Jobs => receiver c | Cleanup => discarded c end.
Definition set_chan (q : Queue) (ch : Channel) (c : Channels) : Channels :=
  match q with Jobs => MkChannels ch (discarded c) | Cleanup => MkChannels (receiver c) ch end.

(** Which queue an event took its job from. *)
Definition served (c c' : Channels) : Queue :=
  if decide (length (waiting (receiver c')) < length (waiting (receiver c)))%nat then Jobs else Cleanup.

(** One iteration of [run_worker]. *)
Definition worker_step (w : Worker) : option Worker :=
  match w_open w with
  | NoneOpen => None
  | open =>
      match next_job (w_channels w) open with
      | None => None
      | Some (RunJob job next, c) => Some (MkWorker next c (w_ran w ++ [(served (w_channels w) c, job)]))
      | Some (ChannelClosed next, c) => Some (MkWorker next c (w_ran w))
      end
  end.

(** ** What the worker runs *)

(** Sends, closings and worker iterations, with the jobs sent so far. *)
Inductive worker_moves : Worker -> list (Queue * Job) -> Prop :=
| moves_start : worker_moves worker_new []
| moves_send w sent q job :
    worker_moves w sent -> closed (chan q (w_channels w)) = false ->
    worker_moves
      (MkWorker (w_open w) (set_chan q (MkChannel (waiting (chan q (w_channels w)) ++ [job]) false) (w_channels w)) (w_ran w))
      (sent ++ [(q, job)])
| moves_close w sent q :
    worker_moves w sent ->
    worker_moves (MkWorker (w_open w) (set_chan q (MkChannel (waiting (chan q (w_channels w))) true) (w_channels w)) (w_ran w)) sent
| moves_run w sent w' : worker_moves w sent -> worker_step w = Some w' -> worker_moves w' sent.

Definition jobs_of (q : Queue) (l : list (Queue * Job)) : list Job := (filter (fun e => e.1 = q) l).*2.

Lemma jobs_of_app q l k : jobs_of q (l ++ k) = jobs_of q l ++ jobs_of q k.
Proof. unfold jobs_of. by rewrite filter_app, fmap_app. Qed.

Lemma jobs_of_one q q' job : jobs_of q [(q', job)] = if decide (q' = q) then [job] else [].
Proof. unfold jobs_of. rewrite filter_cons. simpl. by destruct (decide (q' = q)). Qed.

(** The queues the worker still listens to. *)
Definition listens (open : OpenQueues) (q : Queue) : bool :=
  match open, q with
  | Both _, _ => true
  | OnlyJobs, Jobs => true
  | OnlyCleanup, Cleanup => true
  | _, _ => false
  end.

(** Every job sent has run or waits, in order; a queue the worker left is closed
    and empty. *)
Definition worker_inv (w : Worker) (sent : list (Queue * Job)) : Prop :=
  forall q, jobs_of q sent = jobs_of q (w_ran w) ++ waiting (chan q (w_channels w)) /\
    (listens (w_open w) q = false -> waiting (chan q (w_channels w)) = [] /\ closed (chan q (w_channels w)) = true).

(** A worker iteration takes the head of one queue, or leaves a queue that has
    ended. *)
Inductive taken (w w' : Worker) : Prop :=
| taken_job q job rest :
    waiting (chan q (w_channels w)) = job :: rest -> listens (w_open w) q = true ->
    w_channels w' = set_chan q (MkChannel rest (closed (chan q (w_channels w)))) (w_channels w) ->
    w_ran w' = w_ran w ++ [(q, job)] ->
    (forall q', listens (w_open w') q' = listens (w_open w) q') ->
    (forall p, w_open w = Both p -> exists p', w_open w' = Both p' /\ p' <> q) ->
    taken w w'
| taken_end q :
    waiting (chan q (w_channels w)) = [] -> closed (chan q (w_channels w)) = true -> listens (w_open w) q = true ->
    w_channels w' = w_channels w -> w_ran w' = w_ran w ->
    (forall q', listens (w_open w') q' = (listens (w_open w) q' && negb (bool_decide (q' = q)))) ->
    taken w w'.

Lemma worker_step_taken w w' : worker_step w = Some w' -> taken w w'.
Proof.
  destruct w as [open [[js jc] [cs cc]] ran]. unfold worker_step. cbn [w_open w_channels w_ran].
  intros E. destruct open as [[]| | |]; cbn in E; destruct js as [|j js], cs as [|c cs], jc, cc; cbn in E;
    try discriminate; injection E as <-.
  all: unfold served; cbn [receiver waiting length].
  all: rewrite ?decide_True by lia; rewrite ?decide_False by lia.
  all: first
    [ solve [eapply (taken_job _ _ Jobs); [reflexivity..|by intros []|by intros ? [=]; eexists]]
    | solve [eapply (taken_job _ _ Cleanup); [reflexivity..|by intros []|by intros ? [=]; eexists]]
    | solve [eapply (taken_end _ _ Jobs); [reflexivity..|by intros []]]
    | solve [eapply (taken_end _ _ Cleanup); [reflexivity..|by intros []]] ].
Qed.

Lemma chan_set q q' ch c : chan q (set_chan q' ch c) = if decide (q' = q) then ch else chan q c.
Proof. by destruct q, q'. Qed.

Lemma worker_inv_step w w' sent : worker_inv w sent -> worker_step w = Some w' -> worker_inv w' sent.
Proof.
  intros Hinv Hstep q'. destruct (Hinv q') as [Hsent Hleft].
  destruct (worker_step_taken _ _ Hstep) as [q job rest Hw Hl Hc Hr Hlisten _|q Hw Hcl Hl Hc Hr Hlisten].
  - rewrite Hc, Hr, Hlisten, chan_set, jobs_of_app, jobs_of_one, Hsent. destruct (decide (q = q')) as [<-|Hne].
    + rewrite Hw, <- app_assoc. cbn [waiting closed]. rewrite Hl. done.
    + rewrite app_nil_r. done.
  - rewrite Hc, Hr, Hlisten. split; [done|]. destruct (decide (q' = q)) as [->|Hne]; [done|].
    rewrite bool_decide_false by done. rewrite andb_true_r. done.
Qed.

Lemma worker_inv_moves w sent : worker_moves w sent -> worker_inv w sent.
Proof.
  induction 1 as [|w sent q job _ IH Hc|w sent q _ IH|w sent w' _ IH Hs]; [by intros []| | |by eapply worker_inv_step].
  - intros q'. destruct (IH q') as [Hsent Hleft]. cbn [w_open w_channels w_ran].
    rewrite chan_set, jobs_of_app, jobs_of_one, Hsent. destruct (decide (q = q')) as [<-|Hne].
    + cbn [waiting closed]. rewrite <- app_assoc. split; [done|]. intros Hl. by destruct (Hleft Hl) as [_ ?]; rewrite Hc in *.
    + by rewrite app_nil_r.
  - intros q'. destruct (IH q') as [Hsent Hleft]. cbn [w_open w_channels w_ran]. rewrite chan_set.
    destruct (decide (q = q')) as [<-|Hne]; [|done]. cbn [waiting closed]. split; [done|]. intros Hl. by destruct (Hleft Hl).
Qed.

(** Iterations the worker can still make once both channels are closed. *)
Definition work_left (w : Worker) : nat :=
  length (waiting (receiver (w_channels w))) + length (waiting (discarded (w_channels w))) +
  (if listens (w_open w) Jobs then 1 else 0) + (if listens (w_open w) Cleanup then 1 else 0).

Lemma work_left_step w w' : worker_step w = Some w' -> work_left w = S (work_left w').
Proof.
  intros Hstep. unfold work_left.
  destruct (worker_step_taken _ _ Hstep) as [q job rest Hw Hl Hc Hr Hlisten _|q Hw Hcl Hl Hc Hr Hlisten]; rewrite Hc, !Hlisten.
  - destruct q; simpl in *; rewrite Hw; simpl; lia.
  - destruct q; rewrite Hl.
    + rewrite (bool_decide_true (Jobs = Jobs)), (bool_decide_false (Cleanup = Jobs)) by done.
      destruct (listens (w_open w) Cleanup); simpl; lia.
    + rewrite (bool_decide_true (Cleanup = Cleanup)), (bool_decide_false (Jobs = Cleanup)) by done.
      destruct (listens (w_open w) Jobs); simpl; lia.
Qed.

Fixpoint iterate (n : nat) (w : Worker) : Worker :=
  match n with
  | O => w
  | S n => match worker_step w with Some w' => iterate n w' | None => w end
  end.

Lemma worker_ready w :
  (exists q, listens (w_open w) q = true /\ (waiting (chan q (w_channels w)) <> [] \/ closed (chan q (w_channels w)) = true)) ->
  is_Some (worker_step w).
Proof.
  destruct w as [open [[js jc] [cs cc]] ran]. unfold worker_step. cbn [w_open w_channels w_ran].
  intros (q & Hl & Hq). destruct open as [[]| | |], q; cbn in *; try done;
    destruct js as [|j js], cs as [|c cs], jc, cc; cbn; first [eexists; reflexivity | exfalso; naive_solver].
Qed.

Lemma iterate_closed n w :
  (forall q, closed (chan q (w_channels w)) = true) -> (work_left w <= n)%nat -> w_open (iterate n w) = NoneOpen.
Proof.
  revert w. induction n as [|n IH]; intros w Hc Hn; simpl.
  - unfold work_left in Hn. destruct (w_open w) as [[]| | |]; simpl in Hn; done || lia.
  - destruct (worker_step w) as [w'|] eqn:E.
    + apply IH; [|apply work_left_step in E; lia]. intros q. specialize (Hc q).
      destruct (worker_step_taken _ _ E) as [q' job rest _ _ H _ _ _|q' _ _ _ H _ _]; rewrite H; [|done].
      rewrite chan_set. by destruct (decide (q' = q)) as [->|].
    + destruct (w_open w) as [p| | |] eqn:Ho; [| | |done]; exfalso;
        assert (is_Some (worker_step w)) as [? ?] by (apply worker_ready;
          first [exists Jobs; rewrite Ho; split; [done|by right; apply Hc] | exists Cleanup; rewrite Ho; split; [done|by right; apply Hc]]);
        congruence.
Qed.

Lemma worker_inv_iterate n w sent : worker_inv w sent -> worker_inv (iterate n w) sent.
Proof.
  revert w. induction n as [|n IH]; intros w Hinv; simpl; [done|].
  destruct (worker_step w) as [w'|] eqn:E; [|done]. apply IH. by eapply worker_inv_step.
Qed.

(** The worker runs every job it was sent, once and in the order of its queue,
    before it stops; and once the senders are gone it does stop, after at most one
    iteration per waiting job and two more. *)
Theorem worker_runs_every_job w sent :
  worker_moves w sent ->
  (w_open w = NoneOpen -> forall q, jobs_of q (w_ran w) = jobs_of q sent) /\
  ((forall q, closed (chan q (w_channels w)) = true) ->
   forall n, (length (waiting (receiver (w_channels w))) + length (waiting (discarded (w_channels w))) + 2 <= n)%nat ->
   w_open (iterate n w) = NoneOpen /\ forall q, jobs_of q (w_ran (iterate n w)) = jobs_of q sent).
Proof.
  intros Hm%worker_inv_moves.
  assert (forall w', worker_inv w' sent -> w_open w' = NoneOpen -> forall q, jobs_of q (w_ran w') = jobs_of q sent) as Hend.
  { intros w' Hinv Ho q. destruct (Hinv q) as [-> Hl]. rewrite Ho in Hl. destruct (Hl ltac:(by destruct q)) as [-> _].
    by rewrite app_nil_r. }
  split; [by apply Hend|]. intros Hc n Hn.
  assert (w_open (iterate n w) = NoneOpen) as Ho.
  { apply iterate_closed; [done|]. unfold work_left. destruct (listens _ Jobs), (listens _ Cleanup); lia. }
  split; [done|]. apply Hend; [by apply worker_inv_iterate|done].
Qed.

(** With the priority, or alone, a queue is served first. *)
Lemma step_serves w q job rest w' :
  w_open w = Both q \/ (listens (w_open w) q = true /\ forall q', listens (w_open w) q' = true -> q' = q) ->
  waiting (chan q (w_channels w)) = job :: rest -> worker_step w = Some w' -> w_ran w' = w_ran w ++ [(q, job)].
Proof.
  destruct w as [open [[js jc] [cs cc]] ran]. unfold worker_step. cbn [w_open w_channels w_ran].
  intros Hopen Hw E.
  destruct Hopen as [->|[Hl Hu]].
  2:{ destruct open as [p| | |]; [by destruct q; [specialize (Hu Cleanup eq_refl)|specialize (Hu Jobs eq_refl)]|..|done];
      destruct q; try done; cbn in *; subst; cbn in E; injection E as <-; unfold served; cbn [receiver waiting length w_ran];
      rewrite ?decide_True by lia; rewrite ?decide_False by lia; done. }
  destruct q; cbn in *; subst; cbn in E; injection E as <-; unfold served; cbn [receiver waiting length w_ran];
    rewrite ?decide_True by lia; rewrite ?decide_False by lia; done.
Qed.

(** What senders may do between two iterations. *)
Definition sends (w w' : Worker) : Prop :=
  w_open w' = w_open w /\ w_ran w' = w_ran w /\
  forall q, waiting (chan q (w_channels w)) `prefix_of` waiting (chan q (w_channels w')).

(** Neither queue starves the other: while both are open, the job at the head
    of a queue has run after at most two iterations, however many jobs are sent to
    the other queue meanwhile. *)
Theorem worker_is_fair w w1 w2 w3 p q job rest :
  w_open w = Both p -> waiting (chan q (w_channels w)) = job :: rest ->
  worker_step w = Some w1 -> sends w1 w2 -> worker_step w2 = Some w3 ->
  (q, job) ∈ w_ran w3.
Proof.
  intros Ho Hw H1 (Ho2 & Hr2 & Hpre) H3.
  destruct (worker_step_taken _ _ H1) as [q1 job1 rest1 Hw1 Hl1 Hc1 Hran1 _ Hflip|q1 Hw1 Hcl1 Hl1 Hc1 Hran1 Hlisten1].
  - assert (forall x, x ∈ w_ran w1 -> x ∈ w_ran w3) as Hgrow.
    { intros x Hx. rewrite <- Hr2 in Hx.
      destruct (worker_step_taken _ _ H3) as [? ? ? _ _ _ Hran3 _ _|? _ _ _ _ Hran3 _]; rewrite Hran3; [|done].
      apply elem_of_app. by left. }
    destruct (decide (q1 = q)) as [->|Hne].
    + rewrite Hw in Hw1. injection Hw1 as <- <-. apply Hgrow. rewrite Hran1. apply elem_of_app. right. by left.
    + destruct (Hflip p Ho) as (p' & Ho1 & Hp'). assert (p' = q) as -> by (destruct p', q1, q; done).
      specialize (Hpre q). rewrite Hc1, chan_set, decide_False, Hw in Hpre by done.
      destruct Hpre as [tl Hw2]. rewrite (step_serves w2 q job (rest ++ tl) w3); [|by left; rewrite Ho2|done|done].
      apply elem_of_app. right. by left.
  - assert (q1 <> q) as Hne by (intros ->; congruence).
    specialize (Hpre q). rewrite Hc1, Hw in Hpre. destruct Hpre as [tl Hw2].
    rewrite (step_serves w2 q job (rest ++ tl) w3); [| |done|done]; [apply elem_of_app; right; by left|].
    right. rewrite Ho2. split.
    + rewrite Hlisten1, Ho, bool_decide_false by done. done.
    + intros q'. rewrite Hlisten1. case_bool_decide; [by rewrite andb_false_r|]. by destruct q', q, q1.
Qed.

End worker.
