(* ===== verification/FjallAsync.v ===== *)
(** * The embedded adapter's public store (adapters/fjall/src/async_store.rs, blocking.rs)

    [FjallStore] runs every storage operation on the worker.  Admission may fail, the
    worker may be gone, and a panic of the operation is caught there; [Admission] is
    what happens to one submitted job. *)

From S2P Require Import Prelude Utf8 ErrorId Version Value Wire Envelope RawStore Repository Checkpoint State.
From S2P Require Import Wake Import Log WireKey Lsm Fjall FjallSpec FjallContract FjallState FjallBlocking.

(** The queue is closed, the job is dropped unrun, or the worker runs it. *)
Inductive Admission : Type := QueueClosed | Canceled | Executed.

Section async.
Context {T : Target} {AS : ArrayString} {W : Watch} {L : Lsm}.
Context (display_id : bytes -> list bytes) (panic_message : bytes).

(** [reserve], [submit_with] and [Completion::poll]. *)
Definition submit {A} (a : Admission) (s : Storage) (operation : Storage -> Storage * panicking A)
  : Storage * result A FjallError :=
  match a with
  | QueueClosed => (s, Err FjallError.WorkerQueueClosed)
  | Canceled => (s, Err FjallError.WorkerResponseCanceled)
  | Executed =>
      match operation s with
      | (s, Returns r) => (s, Ok r)
      | (s, Panics) => (s, Err (FjallError.WorkerPanicked (reason_label [panic_message])))
      end
  end.

(** A read: the operation does not change the store. *)
Definition submit_read {A} (a : Admission) (r : panicking (result A FjallError)) : result A FjallError :=
  match a with
  | QueueClosed => Err FjallError.WorkerQueueClosed
  | Canceled => Err FjallError.WorkerResponseCanceled
  | Executed => match r with Returns r => r | Panics => Err (FjallError.WorkerPanicked (reason_label [panic_message])) end
  end.

(** [reserve_cursor]: a free cleanup slot, or why there is none. *)
Definition reserve_cursor (slot : option TrySendError) : result () FjallError :=
  match slot with None => Ok () | Some e => Err (FjallError.ScanCapacity e) end.

Definition store_flush (s : Storage) (a : Admission) : Storage * result () FjallError :=
  match submit a s (fun s => let '(s, r) := flush s in (s, Returns r)) with
  | (s, Ok r) => (s, r)
  | (s, Err e) => (s, Err e)
  end.

Definition store_append (s : Storage) (id : StreamKey) (expected_version : option Version) (envelopes : PendingBatch.t)
  (a : Admission) : Storage * result GlobalSeq (AppendError FjallError) :=
  match validate_key (sk_bytes id) MAX_STREAM_ID_LEN with
  | Err e => (s, Err (AppendStore e))
  | Ok _ =>
      match submit a s (fun s => storage_append s id expected_version
              (PendingBatch.from_parts (PendingBatch.first envelopes) (PendingBatch.rest envelopes))) with
      | (s, Ok r) => (s, r)
      | (s, Err e) => (s, Err (AppendStore e))
      end
  end.

Definition store_read_stream (s : Storage) (id : StreamKey) (from : Version) (config : BlockingConfig)
  (slot : option TrySendError) (a : Admission) : result (BlockingStream (C := ScanCursor StreamScan)) FjallError :=
  let? _ := validate_key (sk_bytes id) MAX_STREAM_ID_LEN in
  let? _ := reserve_cursor slot in
  let? cursor := submit_read a (Returns (storage_read_stream s id from)) in
  Ok (stream_new cursor config).

Definition store_read_all (s : Storage) (from : option GlobalSeq) (config : BlockingConfig)
  (slot : option TrySendError) (a : Admission) : result (BlockingStream (C := ScanCursor GlobalScan)) FjallError :=
  let? _ := reserve_cursor slot in
  let? cursor := submit_read a (Returns (storage_read_all s from)) in
  Ok (stream_new cursor config).

Definition store_list_streams (s : Storage) (config : BlockingConfig) (slot : option TrySendError) (a : Admission)
  : result (BlockingStream (C := StreamIdCursor)) FjallError :=
  let? _ := reserve_cursor slot in
  let? cursor := submit_read a (Returns (Ok (storage_list_streams s))) in
  Ok (stream_new cursor config).

Definition store_atomic_append_many (s : Storage) (writes : list PlannedAppend) (a : Admission)
  : Storage * result (option GlobalSeq) (AtomicAppendError FjallError) :=
  match writes with
  | [] => (s, Ok None)
  | _ =>
      match (let? _ := map_err AtomicInvalidRoute (validate_distinct_targets (target <$> writes)) in
             let? _ := map_err AtomicInvalidRun (validate_atomic_runs writes) in
             validate_targets writes) with
      | Err e => (s, Err e)
      | Ok _ =>
          match submit a s (fun s => storage_atomic_append s writes) with
          | (s, Ok r) => (s, r)
          | (s, Err e) => (s, Err (AtomicStore e))
          end
      end
  end.

Definition store_hydrate (s : Storage) (id : bytes) (schema : Schema) (a : Admission)
  : result (Hydrated bytes Version) FjallError :=
  let? _ := validate_key id MAX_KEY_LEN in
  submit_read a (Returns (fjall_hydrate display_id s id schema)).

Definition store_commit_snapshot (s : Storage) (id : bytes) (schema : Schema) (position : Version) (st : bytes)
  (a : Admission) : Storage * result () FjallError :=
  match (let? _ := validate_key id MAX_KEY_LEN in state_value_len (len st)) with
  | Err e => (s, Err e)
  | Ok _ =>
      match submit a s (fun s => let '(s, r) := fjall_snapshot_commit s id schema position st in (s, Returns r)) with
      | (s, Ok r) => (s, r)
      | (s, Err e) => (s, Err e)
      end
  end.

Definition store_hydrate_checkpoint {P} `{Ordered P, Position P} (s : Storage) (id : bytes) (schema : Schema) (a : Admission)
  : result (CheckpointHydrated bytes P) FjallError :=
  let? _ := validate_key id MAX_KEY_LEN in
  submit_read a (Returns (fjall_hydrate_checkpoint display_id s id schema)).

Definition store_commit_checkpoint {P} `{Ordered P, Position P} (s : Storage) (id : bytes) (write : CheckpointWrite bytes P)
  (a : Admission) : Storage * result Revision (CheckpointError FjallError) :=
  match (let? _ := map_err CkStore (validate_key id MAX_KEY_LEN) in
         map_err CkStore (checkpoint_value_len (len (cw_state write)))) with
  | Err e => (s, Err e)
  | Ok _ =>
      match submit a s (fun s => let '(s, r) := fjall_commit_checkpoint display_id s id write in (s, Returns r)) with
      | (s, Ok r) => (s, r)
      | (s, Err e) => (s, Err (CkStore e))
      end
  end.

(** [close]: the worker must not be shared with other handles. *)
Definition close (handles : Z) (a : Admission) : result () FjallError :=
  if negb (handles =? 1) then Err (FjallError.OutstandingHandles handles)
  else match a with Executed => Ok () | _ => Err FjallError.WorkerResponseCanceled end.

(** ** Cleanup slots

    A slot is held by a live cursor or by its queued cleanup; the worker frees it
    when it takes the cleanup. *)

Record Slots : Type := MkSlots { live : Z; queued : Z }.

Inductive slot_step (config : BlockingConfig) : Slots -> Slots -> Prop :=
| slot_reserve n : live n + queued n < nz_get (max_open_scans config) -> slot_step config n (MkSlots (live n + 1) (queued n))
| slot_drop n : 0 < live n -> slot_step config n (MkSlots (live n - 1) (queued n + 1))
| slot_clean n : 0 < queued n -> slot_step config n (MkSlots (live n) (queued n - 1)).

Lemma slots_bounded config n n' :
  rtc (slot_step config) n n' -> 0 <= live n -> 0 <= queued n -> live n + queued n <= nz_get (max_open_scans config) ->
  0 <= live n' /\ 0 <= queued n' /\ live n' + queued n' <= nz_get (max_open_scans config).
Proof. induction 1 as [|n n1 n' Hs _ IH]; intros; [done|]. destruct Hs; apply IH; simpl; lia. Qed.

(** ** Correctness *)

Context {LS : LsmSpec}.

Lemma from_parts_batch b : PendingBatch.from_parts (PendingBatch.first b) (PendingBatch.rest b) = b.
Proof. by destruct b. Qed.

(** An append through the worker is an append to the log, or changes nothing:
    a position means the log has grown by the batch; an error, whether of the input,
    the queue, the worker or the engine, means it is unchanged, or, only when the
    engine's commit reported that error, has grown by the whole batch. *)
Theorem store_append_atomic s l id expected b a s' r :
  stores s l -> batch_ok b -> store_append s id expected b a = (s', r) ->
  let grown := l ++ tag_log id (PendingBatch.iter b) in
  match r with
  | Ok p => stores s' grown /\ GlobalSeq.as_u64 p = len grown
  | Err e => stores s' l \/ (stores s' grown /\ exists io, e = AppendStore (FjallError.Io io) /\ commit_fails s io)
  end.
Proof.
  intros Hs Hb. unfold store_append. destruct (validate_key _ _) as [[]|e]; [|by intros [= <- <-]; left].
  rewrite from_parts_batch. destruct a; cbn [submit]; [by intros [= <- <-]; left..|].
  pose proof (storage_append_spec s l id expected b Hs Hb) as H.
  destruct (storage_append s id expected b) as [s1 [[p|e]|]]; intros [= <- <-]; [| |done].
  - destruct H as (? & ? & _). split; [done|]. by rewrite len_app, len_tag_log.
  - by destruct H as (_ & [?|(? & _ & ?)]); [left|right].
Qed.

(** The delivered items of a run that may end in an error. *)
Lemma prefix_oks {A E} (k l : list A) (tl : list (result A E)) :
  Forall (fun r => is_ok r = false) tl -> Ok <$> k `prefix_of` (Ok <$> l) ++ tl -> k `prefix_of` l.
Proof.
  intros Htl. revert l. induction k as [|x k IH]; intros l H; [apply prefix_nil|].
  destruct l as [|y l].
  - destruct tl as [|t tl]; [by apply prefix_nil_not in H|]. apply prefix_cons_inv_1 in H as <-. by inversion Htl.
  - pose proof (prefix_cons_inv_1 _ _ _ _ H) as [= <-]. apply prefix_cons, IH. by apply prefix_cons_inv_2 in H.
Qed.

(** A scan of rows that decode, as a cursor of the worker. *)
Lemma scan_drains {S} {SS : ScanStrategy S} m (c : ScanCursor S) rows items :
  yields rows (iter c) -> poisoned c = false ->
  Forall2 (fun row item => is_Some (checked_add usize_max (len row.1) (len row.2)) /\
             scan_decode (strategy c) row.1 row.2 = Ok item) rows items ->
  Forall (fun row => len row.1 + len row.2 <= m) rows ->
  drains m c (Ok <$> items) \/
  exists pre e, pre `prefix_of` items /\ drains m c ((Ok <$> pre) ++ [Err (FjallError.Io e)]).
Proof.
  intros Hy. remember (iter c) as it eqn:Hit. revert c rows items Hit Hy.
  induction it as [|[[k v]|e] it IH]; intros c rows items Hit Hy Hp Hd Hm.
  - left. apply yields_nil_inv in Hy as ->. apply Forall2_nil_inv_l in Hd as ->. change (drains m c []). eapply (drains_end (RC := scan_rows)).
    cbn [next_row scan_rows]. unfold next_sized. by rewrite Hp, <- Hit.
  - destruct (yields_cons_inv _ _ _ Hy) as (rows' & -> & Hy').
    apply Forall2_cons_inv_l in Hd as (item & items' & [[size Hsz] Hdec] & Hd & ->). simpl in Hsz, Hdec.
    apply Forall_cons in Hm as [Hm1 Hm]. simpl in Hm1. apply checked_add_Some in Hsz as [-> Hsz].
    pose proof (len_nonneg k). pose proof (len_nonneg v).
    assert (next_row c = (Some (Ok item, len k + len v), MkScanCursor it (strategy c) false)) as Hn.
    { cbn [next_row scan_rows]. unfold next_sized. rewrite Hp, <- Hit, checked_add_ok, Hdec by done. done. }
    destruct (IH (MkScanCursor it (strategy c) false) rows' items') as [Hdr|(pre & e & Hpre & Hdr)]; try done.
    + left. csimpl. by apply (drains_row (RC := scan_rows) m c item _ _ _ Hn ltac:(lia)).
    + right. exists (item :: pre), e. split; [by apply prefix_cons|]. csimpl. by apply (drains_row (RC := scan_rows) m c item _ _ _ Hn ltac:(lia)).
  - right. exists [], e. split; [apply prefix_nil|]. change (drains m c [Err (FjallError.Io e)]). eapply (drains_error (RC := scan_rows)).
    cbn [next_row scan_rows]. unfold next_sized. rewrite Hp, <- Hit. done.
Qed.

(** Reading a stream through the public store, whatever the batch limits and
    however long each batch takes, delivers the events of that stream from the
    requested version on, in order, and then ends; after a failure of the engine,
    the queue or the worker it has delivered a prefix of them and then one error. *)
Theorem store_read_stream_exact s l id from config a bs answers :
  u32_max + MAX_KEY_LEN <= usize_max ->
  nz_get (scan_batch_bytes config) + (u32_max + MAX_KEY_LEN) <= usize_max ->
  stores s l -> store_read_stream s id from config None a = Ok bs ->
  let out := polls bs answers in
  exists envs, from_persisted <$> envs = drop (Z.to_nat (as_u64 from - 1)) (log_stream id l) /\
    (out = ended (length out) (Ok <$> envs) \/
     exists pre e, pre `prefix_of` envs /\ out = ended (length out) ((Ok <$> pre) ++ [Err e])) /\
    (length (filter (fun x => answered x = true) answers) <= length out)%nat.
Proof.
  intros wide Hbudget Hs Hread. unfold store_read_stream in Hread.
  destruct (validate_key _ _) as [[]|]; [|done]. destruct a; [done|done|]. cbn [reserve_cursor result_bind submit_read] in Hread.
  destruct (storage_read_stream s id from) as [c|] eqn:Hc; [|done]. injection Hread as <-. cbv zeta.
  destruct (read_stream_rows wide s l id from c Hs Hc) as (rows & envs & Hy & Hp & Hf & Hm & _ & Hsz).
  exists envs. split; [done|].
  assert (0 <= u32_max + MAX_KEY_LEN) as H0 by (by vm_compute).
  destruct (scan_drains _ c rows envs Hy Hp Hf Hsz) as [Hd|(pre & e & Hpre & Hd)];
    destruct (polls_rest _ (stream_new c config) _ answers H0 (stream_new_rest _ _ _ _ Hd Hbudget))
      as [[?|(pre1 & e1 & _ & Hpre1 & ?)] [? _]]; (split; [|done]).
  - by left.
  - right. exists pre1, e1. split; [|done]. apply (prefix_oks (E := FjallError) pre1 envs []); [constructor|]. by rewrite app_nil_r.
  - right. by exists pre, (FjallError.Io e).
  - right. exists pre1, e1. split; [|done]. etrans; [|exact Hpre]. apply (prefix_oks pre1 pre [Err (FjallError.Io e)]); [by repeat constructor|done].
Qed.

End async.
