(* ===== verification/Cbor.v ===== *)
(** * The backup format (crates/store/src/cbor.rs)

    A backup is a CBOR sequence: a header, then per stream a heading and its event
    blocks, each with a checksum of its body, and at the end a completion record
    with the counts, the length and the checksum of everything before it.

    The CBOR library (minicbor) and the checksum (crc32c) are third-party code:
    [Minicbor] and [Crc] are the parts of their interface the source calls. *)

From Stdlib Require Import String.
From S2P Require Import Prelude Utf8 Version Value Wire Envelope RawStore Import.

(** ** The CBOR library *)

(** [minicbor::Decoder]: its input and position. *)
Record Decoder : Type := MkDecoder { d_input : bytes; d_position : Z }.

(** [minicbor::data::Type], as far as it is matched on. *)
Inductive CborType : Type := TypeMap | TypeArray | TypeTag | TypeOther.

(** What an [Encoder] is asked to write. *)
Inductive Item : Type :=
| IMap (n : Z)
| IArray (n : Z)
| ITag (n : Z)
| IU32 (n : Z)
| IU64 (n : Z)
| IBytes (b : bytes)
| IStr (b : bytes).

(** ** Wire shapes *)

Record HeaderRepr : Type := MkHeaderRepr { h_magic : bytes; h_format_version : Z; h_origin : option bytes }.
Record HeadingRepr : Type := MkHeadingRepr { hd_stream_id : bytes }.
Record BodyRepr : Type := MkBodyRepr {
  b_version : Z;
  b_schema_version : Z;
  b_event_type : bytes;
  b_metadata : option bytes;
  b_payload : bytes;
}.
Record BlockRepr : Type := MkBlockRepr { bl_crc : Z; bl_body : bytes }.

(** A decoding step: a value and the decoder behind it. *)
Notation decoding A E := (Decoder -> result (A * Decoder) E).

Class Minicbor := {
  CborError : Type;
  is_end_of_input : CborError -> bool;
  (** [decode::Error::message]. *)
  message : bytes -> CborError;
  (** The chunks an item is written in, one [write_all] each. *)
  enc : Item -> list bytes;
  datatype : Decoder -> result CborType CborError;
  dec_map : decoding (option Z) CborError;
  dec_array : decoding (option Z) CborError;
  dec_tag : decoding Z CborError;
  dec_u32 : decoding Z CborError;
  dec_u64 : decoding Z CborError;
  dec_bytes : decoding bytes CborError;
  skip : decoding () CborError;
  (** The derived [Decode] of the three map shapes. *)
  dec_header : decoding HeaderRepr CborError;
  dec_heading : decoding HeadingRepr CborError;
  dec_body : decoding BodyRepr CborError;
}.

Class Crc := {
  crc32c : bytes -> Z;
  crc32c_append : Z -> bytes -> Z;
}.

(** The derived [Encode]: a definite map from field index to value, absent fields
    left out, and for a block a definite array. *)
Definition field (index : Z) (value : Item) : list Item := [IU32 index; value].
Definition optional (index : Z) (value : option Item) : list Item :=
  match value with Some value => field index value | None => [] end.
Definition count {A} (o : option A) : Z := match o with Some _ => 1 | None => 0 end.

Definition header_items (h : HeaderRepr) : list Item :=
  IMap (2 + count (h_origin h)) :: field 0 (IBytes (h_magic h)) ++ field 1 (IU32 (h_format_version h))
    ++ optional 2 (IBytes <$> h_origin h).
Definition heading_items (h : HeadingRepr) : list Item := IMap 1 :: field 0 (IBytes (hd_stream_id h)).
Definition body_items (b : BodyRepr) : list Item :=
  IMap (4 + count (b_metadata b)) :: field 0 (IU64 (b_version b)) ++ field 1 (IU32 (b_schema_version b))
    ++ field 2 (IStr (b_event_type b)) ++ optional 3 (IBytes <$> b_metadata b) ++ field 4 (IBytes (b_payload b)).
Definition block_items (b : BlockRepr) : list Item := [IArray 2; IU32 (bl_crc b); IBytes (bl_body b)].

(** ** Constants and errors *)

Definition MAGIC : bytes := text "nxch".
Definition FORMAT_VERSION : Z := 2.
Definition COMPLETION_TAG : Z := 60000.

Inductive BackupEventError : Type :=
| VersionZero
| EventValue (e : ValueError)
| EventLengthOverflow
| EventOffset
| EventWire (e : WireError)
| EventEnvelope (e : EnvelopeError).

Section format.
Context {T : Target} {M : Minicbor} {K : Crc}.

Inductive CompletionError : Type :=
| Legacy
| Missing
| CompletionDecode (source : CborError)
| Shape
| Counts (declared_sections sections declared_events events : Z)
| CompletionLength (declared actual : Z)
| Checksum
| TrailingBytes
| CountConversion
| CompletionCountOverflow.

Inductive ChunkError : Type :=
| Malformed (reason : bytes)
| ChunkDecode (context : bytes) (source : CborError)
| ChunkEvent (e : BackupEventError)
| ChunkCompletion (e : CompletionError)
| CorruptBlock.

Record ChunkHeader : Type := MkChunkHeader { format_version : Z; header_origin : option bytes }.

Record SalvagedChunk : Type := MkSalvaged {
  header : ChunkHeader;
  sections : list StreamSection;
  completion : result () CompletionError;
}.

(** ** Decoding *)

(** The loop of [decode_map]'s probe. *)
Fixpoint probe_fields (n : nat) (keys : gset Z) (d : Decoder) : result Decoder CborError :=
  match n with
  | O => Ok d
  | S n =>
      let? (key, d) := dec_u32 d in
      if decide (key ∈ keys) then Err (message (text "duplicate backup map key"))
      else
        let? (_, d) := skip d in
        probe_fields n ({[key]} ∪ keys) d
  end.

Definition decode_map {A} (decode : decoding A CborError) : decoding A CborError := fun d =>
  let? (length, probe) := dec_map d in
  let? length := ok_or length (message (text "indefinite backup map")) in
  let? _ := probe_fields (Z.to_nat length) ∅ probe in
  decode d.

Definition validate_header (magic : bytes) (format_version : Z) : result () ChunkError :=
  if negb (bool_decide (magic = MAGIC)) then Err (Malformed (text "bad magic"))
  else if negb ((format_version =? 1) || (format_version =? FORMAT_VERSION))
  then Err (Malformed (text "unknown format version"))
  else Ok ().

Definition header_at : decoding ChunkHeader ChunkError := fun d =>
  let? (repr, d) := map_err (ChunkDecode (text "unreadable header")) (decode_map dec_header d) in
  let? _ := validate_header (h_magic repr) (h_format_version repr) in
  Ok (MkChunkHeader (h_format_version repr) (h_origin repr), d).

Definition decode_header (b : bytes) : result ChunkHeader ChunkError :=
  result_map fst (header_at (MkDecoder b 0)).

(** [Bytes::slice] and [&bytes[..n]]: out of range panics. *)
Definition bytes_slice (b : bytes) (start stop : Z) : panicking bytes :=
  if (0 <=? start) && (start <=? stop) && (stop <=? len b) then Returns (slice b start stop) else Panics.

Definition lift {A E} (r : panicking A) : outcome A E :=
  match r with Returns a => Returns (Ok a) | Panics => Panics end.

(** The size checks of [reconstruct], before it copies. *)
Definition check_body (body : BodyRepr) : result () ValueError :=
  let event_type := b_event_type body in
  if MAX_EVENT_TYPE_LEN <? len event_type then Err (EventTypeTooLong (len event_type))
  else
    let? _ := match b_metadata body with
      | None => Ok ()
      | Some metadata =>
          if bool_decide (metadata = []) then Err MetadataEmpty
          else if MAX_METADATA_LEN <? len metadata then Err (MetadataTooLong (len metadata))
          else Ok ()
      end in
    if MAX_PAYLOAD_LEN <? len (b_payload body) then Err (PayloadTooLong (len (b_payload body))) else Ok ().

Definition reconstruct (body : BodyRepr) : outcome PersistedEnvelope BackupEventError :=
  let! version := Returns (ok_or (Version.new (b_version body)) VersionZero) in
  let! schema := Returns (map_err EventValue (SchemaVersion.from_u32 (b_schema_version body))) in
  let! _ := Returns (map_err EventValue (check_body body)) in
  let event_type := b_event_type body in
  let metadata_len := from_option len 0 (b_metadata body) in
  let! metadata_end := Returns (ok_or (checked_add usize_max (len event_type) metadata_len) EventLengthOverflow) in
  let! total := Returns (ok_or (checked_add usize_max metadata_end (len (b_payload body))) EventLengthOverflow) in
  let! _ := Returns (ok_or (try_from u32_max total) EventOffset) in
  let compact := event_type ++ default [] (b_metadata body) ++ b_payload body in
  let! kind_bytes := lift (bytes_slice compact 0 (len event_type)) in
  let! event_kind := Returns (map_err EventValue (EventType.from_bytes kind_bytes)) in
  let! payload_bytes := lift (bytes_slice compact metadata_end total) in
  let! payload := Returns (map_err EventValue (Payload.from_bytes payload_bytes)) in
  let! metadata := (match b_metadata body with
    | None => Returns (Ok None)
    | Some _ =>
        let! metadata_bytes := lift (bytes_slice compact (len (et_bytes event_kind)) metadata_end) in
        Returns (map_err EventValue (result_map Some (Metadata.from_bytes metadata_bytes)))
    end) in
  let! frame := outcome_map_err EventWire (encode_frame schema event_kind payload metadata) in
  Returns (map_err EventEnvelope
    (PersistedEnvelope.try_new version (ef_value frame) schema (fo_event_type (ef_offsets frame))
       (fo_payload (ef_offsets frame)) (fo_metadata (ef_offsets frame)))).

(** One field of a block: [None] is the end of the input. *)
Definition torn {A} (context : bytes) (r : result (A * Decoder) CborError)
  : result (option (A * Decoder)) ChunkError :=
  match r with
  | Ok r => Ok (Some r)
  | Err e => if is_end_of_input e then Ok None else Err (ChunkDecode context e)
  end.

(** The array head, checksum and body bytes of a block. *)
Definition block_parts (d : Decoder) : result (option (Z * bytes * Decoder)) ChunkError :=
  let? head := torn (text "malformed block array") (dec_array d) in
  match head with
  | None => Ok None
  | Some (None, _) => Err (Malformed (text "indefinite-length block array"))
  | Some (Some n, d) =>
      if negb (n =? 2) then Err (Malformed (text "block array must have exactly 2 elements"))
      else
        let? crc := torn (text "malformed block crc") (dec_u32 d) in
        match crc with
        | None => Ok None
        | Some (crc, d) =>
            let? body := torn (text "malformed block body bytes") (dec_bytes d) in
            Ok ((fun '(body, d) => (crc, body, d)) <$> body)
        end
  end.

Definition body_event (body : bytes) : outcome ImportBlock ChunkError :=
  let! (parsed, d) := Returns (map_err (ChunkDecode (text "crc-valid body failed to decode"))
                                 (decode_map dec_body (MkDecoder body 0))) in
  if negb (d_position d =? len body) then Returns (Err (Malformed (text "trailing bytes in block body")))
  else
    let! event := outcome_map_err ChunkEvent (reconstruct parsed) in
    Returns (Ok (BlockEvent event)).

Definition decode_block (d : Decoder) : outcome (option (ImportBlock * Decoder)) ChunkError :=
  let! parts := Returns (block_parts d) in
  match parts with
  | None => Returns (Ok None)
  | Some (crc, body, d) =>
      if negb (crc32c body =? crc) then Returns (Ok (Some (BlockCorrupt, d)))
      else
        let! block := body_event body in
        Returns (Ok (Some (block, d)))
  end.

(** The completion record: declared sections, events, length and checksum. *)
Definition completion_parts (d : Decoder) : result (Z * Z * Z * Z * Decoder) CompletionError :=
  let read {A} (r : result A CborError) : result A CompletionError :=
    map_err (fun e => if is_end_of_input e then Missing else CompletionDecode e) r in
  let? (tag, d) := read (dec_tag d) in
  if negb (tag =? COMPLETION_TAG) then Err Shape
  else
    let? (n, d) := read (dec_array d) in
    if negb (bool_decide (n = Some 4)) then Err Shape
    else
      let? (declared_sections, d) := read (dec_u64 d) in
      let? (declared_events, d) := read (dec_u64 d) in
      let? (declared, d) := read (dec_u64 d) in
      let? (crc, d) := read (dec_u32 d) in
      Ok (declared_sections, declared_events, declared, crc, d).

Definition decode_completion (d : Decoder) (b : bytes) (prefix sections events : Z) : outcome () CompletionError :=
  let! (declared_sections, declared_events, declared, crc, d) := Returns (completion_parts d) in
  if negb (d_position d =? len b) then Returns (Err TrailingBytes)
  else if negb ((declared_sections =? sections) && (declared_events =? events))
  then Returns (Err (Counts declared_sections sections declared_events events))
  else
    let! actual := Returns (ok_or (try_from u64_max prefix) CountConversion) in
    if negb (declared =? actual) then Returns (Err (CompletionLength declared actual))
    else
      let! covered := lift (bytes_slice b 0 prefix) in
      if negb (crc =? crc32c covered) then Returns (Err Checksum) else Returns (Ok ()).

(** [sections.last_mut()] gets one more block. *)
Fixpoint push_block (block : ImportBlock) (secs : list StreamSection) : list StreamSection :=
  match secs with
  | [] => []
  | [sec] => [MkSection (origin sec) (blocks sec ++ [block])]
  | sec :: secs => sec :: push_block block secs
  end.

(** The loop of [salvage_chunk]; [None] is out of fuel. *)
Fixpoint salvage_loop (fuel : nat) (format : Z) (d : Decoder) (secs : list StreamSection) (event_count : Z)
  : option (outcome (list StreamSection * result () CompletionError) ChunkError) :=
  let incomplete := Err (if format =? 1 then Legacy else Missing) in
  match fuel with
  | O => None
  | S fuel =>
      if negb (d_position d <? len (d_input d)) then Some (Returns (Ok (secs, incomplete)))
      else
        match datatype d with
        | Err e => Some (Returns (if is_end_of_input e then Ok (secs, incomplete)
                                  else Err (ChunkDecode (text "decode error") e)))
        | Ok TypeTag =>
            if format =? FORMAT_VERSION then
              match try_from u64_max (len secs) with
              | None => Some (Returns (Err (ChunkCompletion CountConversion)))
              | Some section_count =>
                  match decode_completion d (d_input d) (d_position d) section_count event_count with
                  | Panics => Some Panics
                  | Returns c => Some (Returns (Ok (secs, c)))
                  end
              end
            else Some (Returns (Err (Malformed (text "unexpected item type"))))
        | Ok TypeMap =>
            match torn (text "malformed section heading") (decode_map dec_heading d) with
            | Err e => Some (Returns (Err e))
            | Ok None => Some (Returns (Ok (secs, incomplete)))
            | Ok (Some (heading, d)) =>
                salvage_loop fuel format d (secs ++ [MkSection (hd_stream_id heading) []]) event_count
            end
        | Ok TypeArray =>
            if bool_decide (secs = []) then Some (Returns (Err (Malformed (text "block before section heading"))))
            else
              match decode_block d with
              | Panics => Some Panics
              | Returns (Err e) => Some (Returns (Err e))
              | Returns (Ok None) => Some (Returns (Ok (secs, incomplete)))
              | Returns (Ok (Some (block, d))) =>
                  match checked_add u64_max event_count 1 with
                  | None => Some (Returns (Err (ChunkCompletion CompletionCountOverflow)))
                  | Some event_count => salvage_loop fuel format d (push_block block secs) event_count
                  end
              end
        | Ok TypeOther => Some (Returns (Err (Malformed (text "unexpected item type"))))
        end
  end.

Definition salvage_chunk (fuel : nat) (b : bytes) : option (outcome SalvagedChunk ChunkError) :=
  match header_at (MkDecoder b 0) with
  | Err e => Some (Returns (Err e))
  | Ok (h, d) =>
      match salvage_loop fuel (format_version h) d [] 0 with
      | None => None
      | Some Panics => Some Panics
      | Some (Returns (Err e)) => Some (Returns (Err e))
      | Some (Returns (Ok (secs, c))) => Some (Returns (Ok (MkSalvaged h secs c)))
      end
  end.

Definition is_corrupt (block : ImportBlock) : bool := match block with BlockCorrupt => true | _ => false end.

Definition decode_chunk (fuel : nat) (b : bytes) : option (outcome (list StreamSection) ChunkError) :=
  match salvage_chunk fuel b with
  | None => None
  | Some Panics => Some Panics
  | Some (Returns (Err e)) => Some (Returns (Err e))
  | Some (Returns (Ok recovered)) => Some (Returns (
      let? _ := map_err ChunkCompletion (completion recovered) in
      if existsb is_corrupt (sections recovered ≫= blocks) then Err CorruptBlock
      else Ok (sections recovered)))
  end.

(** ** Writing *)

(** [minicbor::encode::Write]. *)
Class Sink (W : Type) := {
  SinkError : Type;
  sink_write : W -> bytes -> W * result () SinkError;
}.
Arguments SinkError W {_}.

Inductive ChunkSinkError (E : Type) : Type := SinkFailed (e : E) | LengthConversion | SinkLengthOverflow.
(** [Scratch] is left out: its source is [Infallible]. *)
Inductive WriteError (E : Type) : Type := WEncode (e : ChunkSinkError E) | WPoisoned | WCountOverflow.
Inductive SectionError (E R : Type) : Type := SectionWrite (e : WriteError E) | SectionRead (e : R).
#[global] Arguments SinkFailed {E} _.
#[global] Arguments LengthConversion {E}.
#[global] Arguments SinkLengthOverflow {E}.
#[global] Arguments WEncode {E} _.
#[global] Arguments WPoisoned {E}.
#[global] Arguments WCountOverflow {E}.
#[global] Arguments SectionWrite {E R} _.
#[global] Arguments SectionRead {E R} _.

Inductive WriterState : Type := WriterReady | WriterPoisoned.

Context {W : Type} {SW : Sink W}.

Record TrackedSink : Type := MkTracked { ts_inner : W; ts_bytes : Z; ts_crc : Z }.

Definition write_all (t : TrackedSink) (b : bytes) : TrackedSink * result () (ChunkSinkError (SinkError W)) :=
  match try_from u64_max (len b) with
  | None => (t, Err LengthConversion)
  | Some n =>
      match checked_add u64_max (ts_bytes t) n with
      | None => (t, Err SinkLengthOverflow)
      | Some next =>
          match sink_write (ts_inner t) b with
          | (inner, Err e) => (MkTracked inner (ts_bytes t) (ts_crc t), Err (SinkFailed e))
          | (inner, Ok _) => (MkTracked inner next (crc32c_append (ts_crc t) b), Ok ())
          end
      end
  end.

(** The encoder writes its chunks until one fails. *)
Fixpoint write_chunks (t : TrackedSink) (chunks : list bytes) : TrackedSink * result () (ChunkSinkError (SinkError W)) :=
  match chunks with
  | [] => (t, Ok ())
  | b :: chunks =>
      match write_all t b with
      | (t, Err e) => (t, Err e)
      | (t, Ok _) => write_chunks t chunks
      end
  end.

Definition encode (t : TrackedSink) (items : list Item) : TrackedSink * result () (WriteError (SinkError W)) :=
  let '(t, r) := write_chunks t (items ≫= enc) in (t, map_err WEncode r).

(** [minicbor::to_vec]. *)
Definition to_vec (items : list Item) : bytes := concat (items ≫= enc).

Record ChunkWriter : Type := MkWriter { w_enc : TrackedSink; w_state : WriterState; w_sections : Z; w_events : Z }.

Definition set_enc (w : ChunkWriter) (t : TrackedSink) : ChunkWriter := MkWriter t (w_state w) (w_sections w) (w_events w).
Definition set_state (w : ChunkWriter) (st : WriterState) : ChunkWriter := MkWriter (w_enc w) st (w_sections w) (w_events w).

(** [ChunkWriter::new]; the sink is also given back for what it holds. *)
Definition writer_new (sink : W) (origin : option bytes) : W * result ChunkWriter (WriteError (SinkError W)) :=
  let '(t, r) := encode (MkTracked sink 0 0) (header_items (MkHeaderRepr MAGIC FORMAT_VERSION origin)) in
  (ts_inner t, result_map (fun _ => MkWriter t WriterReady 0 0) r).

Definition ensure_ready (w : ChunkWriter) : result () (WriteError (SinkError W)) :=
  match w_state w with WriterReady => Ok () | WriterPoisoned => Err WPoisoned end.

Definition section (w : ChunkWriter) (stream_id : bytes) : ChunkWriter * result () (WriteError (SinkError W)) :=
  match ensure_ready w with
  | Err e => (w, Err e)
  | Ok _ =>
      let w := set_state w WriterPoisoned in
      match checked_add u64_max (w_sections w) 1 with
      | None => (w, Err WCountOverflow)
      | Some next =>
          match encode (w_enc w) (heading_items (MkHeadingRepr stream_id)) with
          | (t, Err e) => (set_enc w t, Err e)
          | (t, Ok _) => (MkWriter t WriterReady next (w_events w), Ok ())
          end
      end
  end.

Definition body_of (event : PersistedEnvelope) : BodyRepr :=
  MkBodyRepr (as_u64 (ps_version event)) (SchemaVersion.get (ps_schema_version event))
    (PersistedEnvelope.event_type event) (PersistedEnvelope.metadata event) (PersistedEnvelope.payload event).

Definition block_of (event : PersistedEnvelope) : BlockRepr :=
  let body_bytes := to_vec (body_items (body_of event)) in MkBlockRepr (crc32c body_bytes) body_bytes.

Definition write_block (w : ChunkWriter) (event : PersistedEnvelope) : ChunkWriter * result () (WriteError (SinkError W)) :=
  match checked_add u64_max (w_events w) 1 with
  | None => (w, Err WCountOverflow)
  | Some next =>
      match encode (w_enc w) (block_items (block_of event)) with
      | (t, Err e) => (set_enc w t, Err e)
      | (t, Ok _) => (MkWriter t (w_state w) (w_sections w) next, Ok ())
      end
  end.

(** [SectionWriter::block]. *)
Definition block (w : ChunkWriter) (event : PersistedEnvelope) : ChunkWriter * result () (WriteError (SinkError W)) :=
  match ensure_ready w with
  | Err e => (w, Err e)
  | Ok _ =>
      match write_block (set_state w WriterPoisoned) event with
      | (w, Err e) => (w, Err e)
      | (w, Ok _) => (set_state w WriterReady, Ok ())
      end
  end.

(** What a source of events does while it is drained: it yields, fails or ends, or
    the drain is dropped at a suspension. *)
Inductive Source (R : Type) : Type :=
| SourceEnds
| SourceFails (e : R)
| SourceDropped
| SourceYields (event : PersistedEnvelope) (rest : Source R).
#[global] Arguments SourceEnds {R}.
#[global] Arguments SourceFails {R} _.
#[global] Arguments SourceDropped {R}.
#[global] Arguments SourceYields {R} _ _.

(** The loop of [try_extend]; no result when it is dropped. *)
Fixpoint drain_source {R} (w : ChunkWriter) (events : Source R)
  : ChunkWriter * option (result () (SectionError (SinkError W) R)) :=
  match events with
  | SourceEnds => (set_state w WriterReady, Some (Ok ()))
  | SourceFails e => (w, Some (Err (SectionRead e)))
  | SourceDropped => (w, None)
  | SourceYields event rest =>
      match write_block w event with
      | (w, Err e) => (w, Some (Err (SectionWrite e)))
      | (w, Ok _) => drain_source w rest
      end
  end.

Definition try_extend {R} (w : ChunkWriter) (events : Source R)
  : ChunkWriter * option (result () (SectionError (SinkError W) R)) :=
  match ensure_ready w with
  | Err e => (w, Some (Err (SectionWrite e)))
  | Ok _ => drain_source (set_state w WriterPoisoned) events
  end.

Definition completion_items (w : ChunkWriter) : list Item :=
  [ITag COMPLETION_TAG; IArray 4; IU64 (w_sections w); IU64 (w_events w);
   IU64 (ts_bytes (w_enc w)); IU32 (ts_crc (w_enc w))].

(** [finish]; the sink is also given back for what it holds. *)
Definition finish (w : ChunkWriter) : W * result () (WriteError (SinkError W)) :=
  match ensure_ready w with
  | Err e => (ts_inner (w_enc w), Err e)
  | Ok _ => let '(t, r) := encode (w_enc w) (completion_items w) in (ts_inner t, r)
  end.

Definition into_unfinished_sink (w : ChunkWriter) : W := ts_inner (w_enc w).

End format.
