(* ===== verification/CborSpec.v ===== *)
(** * The backup format: laws of its libraries, and decoding what was encoded

    [MinicborSpec] and [CrcSpec] state the documented behaviour of the two
    third-party libraries: an item decodes to what was encoded, wherever it is in
    the input; a truncated item is reported as the end of the input; a decoding step
    moves forward; the checksum can be continued. *)

From Stdlib Require Import String.
From S2P Require Import Prelude Utf8 Version Value Wire Envelope RawStore Import Log Cbor.

Section laws.
Context {M : Minicbor}.

(** [f] decodes [code] to [a], and fails with [cut] on each truncation of it. *)
Definition reads_as {A E} (cut : E -> Prop) (f : decoding A E) (code : bytes) (a : A) : Prop :=
  (forall pre rest, f (MkDecoder (pre ++ code ++ rest) (len pre)) =
     Ok (a, MkDecoder (pre ++ code ++ rest) (len pre + len code))) /\
  (forall pre k rest, code = k ++ rest -> rest <> [] ->
     exists e, f (MkDecoder (pre ++ k) (len pre)) = Err e /\ cut e).

Definition reads {A} (f : decoding A CborError) (code : bytes) (a : A) : Prop :=
  reads_as (fun e => is_end_of_input e = true) f code a.

(** A decoding step consumes input and stays within it. *)
Definition advances {A E} (f : decoding A E) : Prop :=
  forall d a d', f d = Ok (a, d') ->
    d_input d' = d_input d /\ d_position d < d_position d' <= len (d_input d).

Definition item_ok (i : Item) : Prop :=
  match i with
  | IMap n | IArray n | ITag n | IU64 n => 0 <= n <= u64_max
  | IU32 n => 0 <= n <= u32_max
  | IBytes b => len b <= u64_max
  | IStr b => utf8_valid b = true /\ len b <= u64_max
  end.

(** The bytes an item carries besides its head. *)
Definition item_len (i : Item) : Z := match i with IBytes b | IStr b => len b | _ => 0 end.

Definition is_scalar (i : Item) : Prop := match i with IU32 _ | IU64 _ | IBytes _ | IStr _ => True | _ => False end.

Class MinicborSpec := {
  dec_map_reads n : item_ok (IMap n) -> reads dec_map (to_vec [IMap n]) (Some n);
  dec_array_reads n : item_ok (IArray n) -> reads dec_array (to_vec [IArray n]) (Some n);
  dec_tag_reads n : item_ok (ITag n) -> reads dec_tag (to_vec [ITag n]) n;
  dec_u32_reads n : item_ok (IU32 n) -> reads dec_u32 (to_vec [IU32 n]) n;
  dec_u64_reads n : item_ok (IU64 n) -> reads dec_u64 (to_vec [IU64 n]) n;
  dec_bytes_reads b : item_ok (IBytes b) -> reads dec_bytes (to_vec [IBytes b]) b;
  skip_reads i : is_scalar i -> item_ok i -> reads skip (to_vec [i]) ();
  (** The derived decoders invert the derived encoders. *)
  dec_header_reads h : Forall item_ok (header_items h) -> reads dec_header (to_vec (header_items h)) h;
  dec_heading_reads h : Forall item_ok (heading_items h) -> reads dec_heading (to_vec (heading_items h)) h;
  dec_body_reads b : Forall item_ok (body_items b) -> reads dec_body (to_vec (body_items b)) b;
  (** The type of an item is that of its first byte. *)
  datatype_map n x tl pre rest :
    item_ok (IMap n) -> to_vec [IMap n] = x :: tl -> datatype (MkDecoder (pre ++ x :: rest) (len pre)) = Ok TypeMap;
  datatype_array n x tl pre rest :
    item_ok (IArray n) -> to_vec [IArray n] = x :: tl -> datatype (MkDecoder (pre ++ x :: rest) (len pre)) = Ok TypeArray;
  datatype_tag n x tl pre rest :
    item_ok (ITag n) -> to_vec [ITag n] = x :: tl -> datatype (MkDecoder (pre ++ x :: rest) (len pre)) = Ok TypeTag;
  (** A head is at most nine bytes. *)
  enc_len i : item_ok i -> len (to_vec [i]) <= 9 + item_len i;
  dec_map_advances : advances dec_map;
  dec_array_advances : advances dec_array;
  dec_tag_advances : advances dec_tag;
  dec_u32_advances : advances dec_u32;
  dec_u64_advances : advances dec_u64;
  dec_bytes_advances : advances dec_bytes;
  dec_header_advances : advances dec_header;
  dec_heading_advances : advances dec_heading;
}.

Class CrcSpec {K : Crc} := {
  crc32c_nil : crc32c [] = 0;
  crc32c_app a b : crc32c_append (crc32c a) b = crc32c (a ++ b);
  crc32c_range b : 0 <= crc32c b <= u32_max;
}.

(** ** Composition *)

Lemma to_vec_app l k : to_vec (l ++ k) = to_vec l ++ to_vec k.
Proof. unfold to_vec. by rewrite bind_app, concat_app. Qed.

Lemma to_vec_cons i l : to_vec (i :: l) = to_vec [i] ++ to_vec l.
Proof. apply (to_vec_app [i]). Qed.

(** A truncation of two codes ends in the first or in the second. *)
Lemma app_truncated (c1 c2 k rest : bytes) :
  c1 ++ c2 = k ++ rest -> rest <> [] ->
  (exists r, c1 = k ++ r /\ r <> []) \/ (exists k2, k = c1 ++ k2 /\ c2 = k2 ++ rest).
Proof.
  intros E Hr. apply app_eq_inv in E as [(m & -> & ->)|(m & -> & ->)].
  - destruct m as [|x m]; [right; exists []; by rewrite !app_nil_r|left; eauto].
  - right. eauto.
Qed.

Section combinators.
Context {E : Type} {cut : E -> Prop}.

Lemma reads_bind {A B} (f : decoding A E) (g : A -> decoding B E) c1 c2 a b :
  reads_as cut f c1 a -> reads_as cut (g a) c2 b -> reads_as cut (fun d => let? (x, d) := f d in g x d) (c1 ++ c2) b.
Proof.
  intros [Hf Hft] [Hg Hgt]. split.
  - intros pre rest. rewrite <- (app_assoc c1). rewrite Hf. cbn [result_bind].
    specialize (Hg (pre ++ c1) rest). rewrite len_app, <- !app_assoc in Hg. rewrite Hg, len_app. do 3 f_equal. lia.
  - intros pre k rest Ec Hr. destruct (app_truncated _ _ _ _ Ec Hr) as [(r & -> & Hr')|(k2 & -> & ->)].
    + destruct (Hft pre k r eq_refl Hr') as (e & -> & He). by exists e.
    + rewrite Hf. cbn [result_bind]. destruct (Hgt (pre ++ c1) k2 rest eq_refl Hr) as (e & Hge & He).
      rewrite len_app, <- app_assoc in Hge. by exists e.
Qed.

Lemma reads_ret {A} (a : A) : reads_as cut (fun d => Ok (a, d)) [] a.
Proof.
  split; [intros pre rest; simpl; by rewrite Z.add_0_r|]. intros pre k rest Ec Hr.
  by destruct k, rest.
Qed.

Lemma reads_ext {A} (f g : decoding A E) c a : (forall d, f d = g d) -> reads_as cut f c a -> reads_as cut g c a.
Proof.
  intros H [H1 H2]. split.
  - intros pre rest. by rewrite <- H.
  - intros pre k rest Ec Hr. destruct (H2 pre k rest Ec Hr) as (e & ? & ?). exists e. by rewrite <- H.
Qed.

Lemma reads_map_err {A F} (cut' : F -> Prop) (h : E -> F) (f : decoding A E) c a :
  (forall e, cut e -> cut' (h e)) -> reads_as cut f c a -> reads_as cut' (fun d => map_err h (f d)) c a.
Proof.
  intros Hh [H1 H2]. split.
  - intros pre rest. by rewrite H1.
  - intros pre k rest Ec Hr. destruct (H2 pre k rest Ec Hr) as (e & -> & ?). exists (h e). auto.
Qed.

End combinators.

Lemma advances_reads_nonempty {A} (f : decoding A CborError) c a : advances f -> reads f c a -> c <> [].
Proof.
  intros Hf [Hr _] ->. specialize (Hr [] []). apply Hf in Hr. cbn in Hr. rewrite len_nil in Hr. lia.
Qed.

Context {MS : MinicborSpec}.

Lemma to_vec_len l : Forall item_ok l -> len (to_vec l) <= foldr (fun i n => 9 + item_len i + n) 0 l.
Proof.
  induction 1 as [|i l Hi _ IH]; [done|]. rewrite to_vec_cons, len_app. cbn [foldr]. pose proof (enc_len i Hi). lia.
Qed.

(** ** Maps *)

Definition fields_items (fs : list (Z * Item)) : list Item := fs ≫= (fun f => field f.1 f.2).

Lemma probe_reads fs keys :
  NoDup fs.*1 -> Forall (fun f => f.1 ∉ keys /\ item_ok (IU32 f.1) /\ is_scalar f.2 /\ item_ok f.2) fs ->
  reads (fun d => result_map (fun d => ((), d)) (probe_fields (length fs) keys d)) (to_vec (fields_items fs)) ().
Proof.
  revert keys. induction fs as [|[k i] fs IH]; intros keys Hnd Hf; [by apply (reads_ret ())|].
  csimpl in Hnd. apply NoDup_cons in Hnd as [Hk Hnd]. apply Forall_cons in Hf as [(Hkeys & Hku & Hs & Hi) Hf]. cbn in Hkeys, Hs, Hi.
  unfold fields_items. rewrite bind_cons, to_vec_app. cbn [fst snd]. unfold field. rewrite to_vec_cons, <- app_assoc.
  pose (next (key : Z) (d : Decoder) := if decide (key ∈ keys) then Err (message (text "duplicate backup map key"))
     else let? (_, d) := skip d in probe_fields (length fs) ({[key]} ∪ keys) d).
  apply (reads_ext (fun d => let? (key, d) := dec_u32 d in result_map (fun d => ((), d)) (next key d))).
  { intros d. cbn [length probe_fields]. destruct (dec_u32 d) as [[key d']|]; [|done]. cbn [result_bind]. unfold next.
    by destruct (decide _). }
  eapply (reads_bind dec_u32 (fun key d => result_map (fun d => ((), d)) (next key d))); [by apply dec_u32_reads|].
  apply (reads_ext (fun d => let? (_, d) := skip d in
     result_map (fun d => ((), d)) (probe_fields (length fs) ({[k]} ∪ keys) d))).
  { intros d. unfold next. rewrite decide_False by done. by destruct (skip d) as [[[] d']|]. }
  eapply (reads_bind skip (fun _ d => result_map (fun d => ((), d)) (probe_fields (length fs) ({[k]} ∪ keys) d)));
    [by apply skip_reads|].
  apply IH; [done|]. rewrite Forall_forall in *. intros f Hin. destruct (Hf f Hin) as (Hfk & ?). split; [|done].
  rewrite elem_of_union, elem_of_singleton. intros [Heq|?]; [|done]. apply Hk. rewrite <- Heq. by apply list_elem_of_fmap_2.
Qed.

(** The duplicate-key probe accepts what the derived encoders write. *)
Lemma decode_map_reads {A} (f : decoding A CborError) fs a :
  NoDup fs.*1 -> Forall (fun f => item_ok (IU32 f.1) /\ is_scalar f.2 /\ item_ok f.2) fs -> len fs <= u64_max ->
  reads f (to_vec (IMap (len fs) :: fields_items fs)) a ->
  reads (decode_map f) (to_vec (IMap (len fs) :: fields_items fs)) a.
Proof.
  intros Hnd Hf Hlen [Hr Ht]. pose proof (len_nonneg fs).
  assert (reads (fun d => let? (n, d) := dec_map d in
     (fun d => let? n := ok_or n (message (text "indefinite backup map")) in
        result_map (fun d => ((), d)) (probe_fields (Z.to_nat n) ∅ d)) d) (to_vec (IMap (len fs) :: fields_items fs)) ()) as [Hp Hpt].
  { rewrite to_vec_cons. eapply (reads_bind dec_map (fun n d => let? n := ok_or n (message (text "indefinite backup map")) in
      result_map (fun d => ((), d)) (probe_fields (Z.to_nat n) ∅ d))); [by apply dec_map_reads|].
    cbn [ok_or result_bind]. unfold len at 1. rewrite Nat2Z.id. apply probe_reads; [done|].
    eapply Forall_impl; [exact Hf|]. intros x Hx. split; [set_solver|done]. }
  split.
  - intros pre rest. specialize (Hp pre rest). unfold decode_map.
    destruct (dec_map _) as [[[n|] d]|]; cbn [result_bind ok_or result_map] in *; try done.
    destruct (probe_fields _ _ _); [apply Hr|done].
  - intros pre k rest E Hrest. destruct (Hpt pre k rest E Hrest) as (e & He & Heoi). exists e. split; [|done].
    unfold decode_map. destruct (dec_map _) as [[[n|] d]|]; cbn [result_bind ok_or result_map] in *; [|by injection He as ->..].
    destruct (probe_fields _ _ _); [done|by injection He as ->].
Qed.

(** ** The records of a chunk *)

Definition header_code (o : option bytes) : bytes := to_vec (header_items (MkHeaderRepr MAGIC FORMAT_VERSION o)).
Definition heading_code (id : bytes) : bytes := to_vec (heading_items (MkHeadingRepr id)).

Lemma header_reads o :
  from_option (fun b => len b <= u64_max) True o ->
  reads (decode_map dec_header) (header_code o) (MkHeaderRepr MAGIC FORMAT_VERSION o).
Proof.
  intros Ho. unfold header_code.
  assert (Forall item_ok (header_items (MkHeaderRepr MAGIC FORMAT_VERSION o))) as Hok.
  { destruct o; cbn in *; repeat constructor; cbn; try done; lia. }
  pose proof (dec_header_reads _ Hok) as Hr. revert Hr.
  set (fs := [(0, IBytes MAGIC); (1, IU32 FORMAT_VERSION)] ++ match o with Some b => [(2, IBytes b)] | None => [] end).
  assert (header_items (MkHeaderRepr MAGIC FORMAT_VERSION o) = IMap (len fs) :: fields_items fs) as -> by (by destruct o).
  apply decode_map_reads; [by destruct o; cbn; repeat constructor; set_solver| |by destruct o].
  destruct o; cbn in *; repeat constructor; cbn; try done; lia.
Qed.

Lemma heading_reads id : len id <= u64_max -> reads (decode_map dec_heading) (heading_code id) (MkHeadingRepr id).
Proof.
  intros Hid. unfold heading_code.
  assert (Forall item_ok (heading_items (MkHeadingRepr id))) as Hok by (repeat constructor; cbn; try done; lia).
  apply (decode_map_reads _ [(0, IBytes id)]); [apply NoDup_singleton| |done|exact (dec_heading_reads (MkHeadingRepr id) Hok)].
  repeat constructor; cbn; try done; lia.
Qed.

Definition body_ok (b : BodyRepr) : Prop :=
  0 <= b_version b <= u64_max /\ 0 <= b_schema_version b <= u32_max /\
  (utf8_valid (b_event_type b) = true /\ len (b_event_type b) <= u64_max) /\
  from_option (fun m => len m <= u64_max) True (b_metadata b) /\ len (b_payload b) <= u64_max.

Lemma body_items_ok b : body_ok b -> Forall item_ok (body_items b).
Proof.
  intros (Hv & Hs & He & Hm & Hp). unfold body_items.
  destruct (b_metadata b); cbn in *; repeat constructor; cbn; try done; try lia; by destruct He.
Qed.

Lemma body_reads b : body_ok b -> reads (decode_map dec_body) (to_vec (body_items b)) b.
Proof.
  intros Hb. pose proof (dec_body_reads _ (body_items_ok b Hb)) as Hr. revert Hr. destruct Hb as (Hv & Hs & He & Hm & Hp).
  set (fs := [(0, IU64 (b_version b)); (1, IU32 (b_schema_version b)); (2, IStr (b_event_type b))]
    ++ (match b_metadata b with Some m => [(3, IBytes m)] | None => [] end) ++ [(4, IBytes (b_payload b))]).
  assert (body_items b = IMap (len fs) :: fields_items fs) as ->
    by (unfold body_items, fs; by destruct (b_metadata b)).
  apply decode_map_reads; unfold fs; destruct (b_metadata b); cbn in *; try done;
    repeat constructor; cbn; try done; try set_solver; try lia; by destruct He.
Qed.

End laws.

(** ** Events *)

Section events.
Context {T : Target}.

Lemma bytes_slice_ok b lo hi : 0 <= lo <= hi -> hi <= len b -> bytes_slice b lo hi = Returns (slice b lo hi).
Proof. intros ? ?. unfold bytes_slice. by rewrite !(proj2 (Z.leb_le _ _)) by lia. Qed.

(** The last steps of [reconstruct]. *)
Lemma frame_event_spec v sv et pl md :
  event_type_ok et -> payload_ok pl -> from_option metadata_ok True md ->
  exists r, (let! frame := outcome_map_err EventWire (encode_frame sv et pl md) in
     Returns (map_err EventEnvelope (PersistedEnvelope.try_new v (ef_value frame) sv (fo_event_type (ef_offsets frame))
       (fo_payload (ef_offsets frame)) (fo_metadata (ef_offsets frame))))) = Returns r /\
    (forall env, r = Ok env -> persisted_ok env /\ from_persisted env = MkPendingEnvelope v et sv pl md) /\
    (fits (MkPendingEnvelope v et sv pl md) -> is_ok r = true).
Proof.
  intros He Hp Hm. unfold fits. cbn [pe_event_type pe_metadata pe_payload].
  destruct (decide (payload_offset HEADER_FIXED_SIZE (et_bytes et) (md_bytes <$> md) + len (pl_bytes pl) <= u32_max)) as [Hle|Hgt].
  - destruct (try_new_v2_frame v sv _ _ _ He Hp Hm Hle) as (env & E & ? & Hf).
    rewrite encode_frame_bytes by done. cbn [outcome_map_err outcome_bind map_err]. rewrite E.
    eexists. split; [done|]. split; [|done]. intros env' [= <-]. done.
  - destruct (compute_layout_Err (et_bytes et) (md_bytes <$> md) (pl_bytes pl)) as (h & p & E'); [lia|].
    eexists. unfold encode_frame, plan. rewrite E'. split; [done|]. split; [done|lia].
Qed.

(** What the size checks establish. *)
Lemma check_body_Ok b :
  is_ok (check_body b) = true ->
  len (b_event_type b) <= MAX_EVENT_TYPE_LEN /\ len (b_payload b) <= MAX_PAYLOAD_LEN /\
  from_option (fun m => 1 <= len m <= MAX_METADATA_LEN) True (b_metadata b).
Proof.
  unfold check_body. destruct (Z.ltb_spec MAX_EVENT_TYPE_LEN (len (b_event_type b))); [done|].
  destruct (b_metadata b) as [m|]; cbn [result_bind].
  - case_bool_decide; cbn [result_bind]; [done|]. destruct (Z.ltb_spec MAX_METADATA_LEN (len m)); cbn [result_bind]; [done|].
    destruct (Z.ltb_spec MAX_PAYLOAD_LEN (len (b_payload b))); [done|]. intros _. split; [lia|]. split; [lia|]. cbn.
    assert (m <> []) by done. destruct m; [done|]. rewrite len_cons in *. pose proof (len_nonneg m). lia.
  - destruct (Z.ltb_spec MAX_PAYLOAD_LEN (len (b_payload b))); [done|]. intros _. split; [lia|]. split; [lia|done].
Qed.

Lemma check_body_complete b :
  len (b_event_type b) <= MAX_EVENT_TYPE_LEN -> len (b_payload b) <= MAX_PAYLOAD_LEN ->
  from_option (fun m => 1 <= len m <= MAX_METADATA_LEN) True (b_metadata b) -> check_body b = Ok ().
Proof.
  intros He Hp Hm. unfold check_body. rewrite ltb_false by done.
  destruct (b_metadata b) as [m|]; cbn in Hm |- *; [|by rewrite ltb_false].
  rewrite bool_decide_false by (intros ->; rewrite len_nil in Hm; lia). rewrite ltb_false by lia. cbn. by rewrite ltb_false.
Qed.

(** The event of a body that passes the checks. *)
Definition body_envelope (v : Version) (sv : SchemaVersion) (b : BodyRepr) : PendingEnvelope :=
  MkPendingEnvelope v (MkEventType (b_event_type b)) sv (MkPayload (b_payload b)) (MkMetadata <$> b_metadata b).

(** [reconstruct] on any body: no panic, and a valid event with the body's fields
    or an error; an error only if a field or the frame is out of bounds. *)
Lemma reconstruct_spec b :
  exists r, reconstruct b = Returns r /\
    (forall env, r = Ok env -> persisted_ok env /\
       exists v sv, b_version b = as_u64 v /\ b_schema_version b = SchemaVersion.get sv /\
         from_persisted env = body_envelope v sv b) /\
    (forall v sv, b_version b = as_u64 v -> b_schema_version b = SchemaVersion.get sv ->
       pending_ok (body_envelope v sv b) -> fits (body_envelope v sv b) -> is_ok r = true).
Proof.
  unfold reconstruct.
  destruct (Version.new (b_version b)) as [v|] eqn:Hv; cbn [ok_or outcome_bind].
  2:{ eexists. split; [done|]. split; [done|]. intros v sv E. rewrite E, new_as_u64 in Hv. done. }
  destruct (SchemaVersion.from_u32 (b_schema_version b)) as [sv|] eqn:Hsv; cbn [map_err outcome_bind].
  2:{ eexists. split; [done|]. split; [done|]. intros v' sv _ E. rewrite E, schema_from_u32_get in Hsv. done. }
  destruct (check_body b) as [[]|e] eqn:Hc; cbn [map_err outcome_bind].
  2:{ eexists. split; [done|]. split; [done|]. intros v' sv' _ _ ((_ & He) & Hp & Hm) _. rewrite check_body_complete in Hc; [done..|].
      cbn in Hm. by destruct (b_metadata b). }
  destruct (check_body_Ok b ltac:(by rewrite Hc)) as (Hel & Hpl & Hml).
  set (ml := from_option len 0 (b_metadata b)).
  assert (0 <= ml) as Hml0 by (unfold ml; destruct (b_metadata b); cbn; [apply len_nonneg|lia]).
  pose proof (len_nonneg (b_event_type b)) as Het0. pose proof (len_nonneg (b_payload b)) as Hpl0.
  assert (forall v sv, fits (body_envelope v sv b) -> len (b_event_type b) + ml + len (b_payload b) <= u32_max) as Hfits.
  { intros v' sv'. unfold fits, body_envelope, ml. cbn [pe_event_type pe_metadata pe_payload et_bytes pl_bytes].
    pose proof (payload_offset_bounds HEADER_FIXED_SIZE (b_event_type b) (md_bytes <$> (MkMetadata <$> b_metadata b))) as (H1 & H2 & _); [done|].
    assert (0 <= HEADER_FIXED_SIZE) by done. destruct (b_metadata b); cbn in *; lia. }
  pose proof usize_max_lo as Husz.
  destruct (checked_add usize_max (len (b_event_type b)) ml) as [me|] eqn:Hme; cbn [ok_or outcome_bind].
  2:{ eexists. split; [done|]. split; [done|]. intros v' sv' _ _ _ Hf. apply checked_add_None in Hme. specialize (Hfits _ _ Hf). lia. }
  apply checked_add_Some in Hme as [-> Hme].
  destruct (checked_add usize_max (len (b_event_type b) + ml) (len (b_payload b))) as [total|] eqn:Htot; cbn [ok_or outcome_bind].
  2:{ eexists. split; [done|]. split; [done|]. intros v' sv' _ _ _ Hf. apply checked_add_None in Htot. specialize (Hfits _ _ Hf). lia. }
  apply checked_add_Some in Htot as [-> Htot].
  destruct (try_from u32_max _) as [n|] eqn:Htry; cbn [ok_or outcome_bind].
  2:{ eexists. split; [done|]. split; [done|]. intros v' sv' _ _ _ Hf. apply try_from_None in Htry. specialize (Hfits _ _ Hf). lia. }
  apply try_from_Some in Htry as [-> Htry].
  set (compact := b_event_type b ++ default [] (b_metadata b) ++ b_payload b).
  assert (len (default [] (b_metadata b)) = ml) as Hdl by (unfold ml; by destruct (b_metadata b)).
  assert (len compact = len (b_event_type b) + ml + len (b_payload b)) as Hcl by (unfold compact; rewrite !len_app, Hdl; lia).
  rewrite bytes_slice_ok by lia. cbn [lift outcome_bind].
  assert (slice compact 0 (len (b_event_type b)) = b_event_type b) as -> by (unfold compact; by apply slice_prefix).
  destruct (EventType.from_bytes (b_event_type b)) as [et|] eqn:Het; cbn [map_err outcome_bind].
  2:{ eexists. split; [done|]. split; [done|]. intros v' sv' _ _ (He & _) _.
      by rewrite (proj2 (event_type_from_bytes_spec _ _) (conj eq_refl He)) in Het. }
  apply event_type_from_bytes_spec in Het as [-> Hetok].
  rewrite bytes_slice_ok by lia. cbn [lift outcome_bind].
  assert (slice compact (len (b_event_type b) + ml) (len (b_event_type b) + ml + len (b_payload b)) = b_payload b) as ->.
  { unfold compact. rewrite app_assoc. apply slice_suffix; rewrite !len_app, Hdl; lia. }
  assert (payload_ok (MkPayload (b_payload b))) as Hplok by done.
  rewrite (proj2 (payload_from_bytes_spec _ _) (conj eq_refl Hplok)). cbn [map_err outcome_bind].
  assert ((match b_metadata b with
    | None => Returns (Ok None)
    | Some _ => let! metadata_bytes := lift (bytes_slice compact (len (et_bytes (MkEventType (b_event_type b)))) (len (b_event_type b) + ml)) in
        Returns (map_err EventValue (result_map Some (Metadata.from_bytes metadata_bytes)))
    end : outcome (option Metadata) BackupEventError) = Returns (Ok (MkMetadata <$> b_metadata b))) as ->.
  { destruct (b_metadata b) as [m|] eqn:Em; [|done]. cbn [et_bytes]. rewrite bytes_slice_ok by (cbn in *; lia). cbn [lift outcome_bind].
    unfold compact. change (default [] (Some m)) with m. rewrite slice_middle; [|done|cbn in Hdl |- *; lia].
    by rewrite (proj2 (metadata_from_bytes_spec m (MkMetadata m)) (conj eq_refl Hml)). }
  cbn [outcome_bind].
  destruct (frame_event_spec v sv (MkEventType (b_event_type b)) (MkPayload (b_payload b)) (MkMetadata <$> b_metadata b) Hetok Hplok)
    as (r & -> & Hok & Hfit); [by destruct (b_metadata b)|].
  apply new_Some in Hv.
  exists r. split; [done|]. split.
  - intros env ->. destruct (Hok env eq_refl) as [? Hf]. split; [done|]. exists v, sv. split; [done|]. split; [|done].
    unfold SchemaVersion.from_u32 in Hsv. apply ok_or_Ok in Hsv. destruct (nz_new _) as [z|] eqn:Hz; [|done]. injection Hsv as <-. by apply nz_new_Some in Hz.
  - intros v' sv' Hv' Hsv' _ Hf. rewrite Hsv', schema_from_u32_get in Hsv. injection Hsv as <-.
    assert (v' = v) as -> by (apply (f_equal new) in Hv; rewrite Hv', !new_as_u64 in Hv; congruence). by apply Hfit.
Qed.

(** The event a block carries. *)
Definition restored (ev : PersistedEnvelope) : PersistedEnvelope :=
  match reconstruct (body_of ev) with Returns (Ok env) => env | _ => ev end.

(** An event that a frame of the current format can hold. *)
Definition backup_ok (ev : PersistedEnvelope) : Prop := persisted_ok ev /\ fits (from_persisted ev).

Lemma reconstruct_body_of ev :
  backup_ok ev ->
  reconstruct (body_of ev) = Returns (Ok (restored ev)) /\ persisted_ok (restored ev) /\
  from_persisted (restored ev) = from_persisted ev.
Proof.
  intros [(_ & _ & _ & Hok) Hf]. destruct (reconstruct_spec (body_of ev)) as (r & E & Hr & Hc).
  assert (body_envelope (ps_version ev) (ps_schema_version ev) (body_of ev) = from_persisted ev) as Hb by done.
  specialize (Hc (ps_version ev) (ps_schema_version ev) eq_refl eq_refl). rewrite Hb in Hc. specialize (Hc Hok Hf).
  unfold restored. rewrite E. destruct r as [env|]; [|done].
  destruct (Hr env eq_refl) as (? & v & sv & Hv & Hsv & ->). split; [done|]. split; [done|]. rewrite <- Hb. cbn in Hv, Hsv.
  apply (f_equal new) in Hv. rewrite !new_as_u64 in Hv. injection Hv as ->.
  assert (ps_schema_version ev = sv) as -> by (pose proof (schema_from_u32_get sv) as Hg; rewrite <- Hsv, schema_from_u32_get in Hg; congruence).
  done.
Qed.

End events.
