(* ===== verification/CborChunk.v ===== *)
(** * The backup format: whole chunks

    A finished chunk decodes to what was written, an unfinished or truncated one is
    rejected, and salvage recovers the records that are whole. *)

From Stdlib Require Import String.
From S2P Require Import Prelude Utf8 Version Value Wire Envelope RawStore Import Log Cbor CborSpec.

Section chunk.
Context {T : Target} {M : Minicbor} {MS : MinicborSpec} {K : Crc} {KS : CrcSpec}.

(** ** Blocks *)

Definition body_code (ev : PersistedEnvelope) : bytes := to_vec (body_items (body_of ev)).
Definition block_code (ev : PersistedEnvelope) : bytes := to_vec (block_items (block_of ev)).

Lemma body_of_ok ev : persisted_ok ev -> body_ok (body_of ev).
Proof.
  intros (_ & _ & _ & (Hu & He) & Hp & Hm). unfold body_ok, body_of. cbn in *.
  pose proof (version_range (ps_version ev)). pose proof (schema_range (ps_schema_version ev)).
  assert (MAX_EVENT_TYPE_LEN <= u64_max /\ MAX_PAYLOAD_LEN <= u64_max /\ MAX_METADATA_LEN <= u64_max /\ u32_max <= u64_max) by done.
  unfold payload_ok in Hp. cbn in Hp. split; [lia|]. split; [lia|]. split; [split; [done|lia]|]. split; [|lia].
  unfold PersistedEnvelope.metadata_value in Hm. destruct (PersistedEnvelope.metadata ev); cbn in *; [|done]. unfold metadata_ok in Hm. cbn in Hm. lia.
Qed.

(** The encoded body is a slice the format can hold. *)
Lemma body_code_len ev : persisted_ok ev -> len (body_code ev) <= u64_max.
Proof.
  intros Hok. pose proof (to_vec_len _ (body_items_ok _ (body_of_ok _ Hok)) : len (body_code ev) <= _) as Hlen.
  destruct Hok as (_ & _ & _ & (_ & Het) & Hpl & Hmd). unfold payload_ok in Hpl. cbn in Het, Hpl, Hmd.
  assert (MAX_EVENT_TYPE_LEN <= 2 ^ 32 /\ MAX_PAYLOAD_LEN <= 2 ^ 32 /\ MAX_METADATA_LEN <= 2 ^ 32 /\ 2 ^ 36 <= u64_max) by done.
  revert Hlen. generalize (len (body_code ev)). intros n. unfold body_items, field. cbn [b_metadata b_event_type b_payload body_of].
  unfold PersistedEnvelope.metadata_value in Hmd. destruct (PersistedEnvelope.metadata ev) as [m|]; cbn in Hmd |- *; [|lia].
  unfold metadata_ok in Hmd. cbn in Hmd. lia.
Qed.

Lemma block_items_ok ev : persisted_ok ev -> Forall item_ok (block_items (block_of ev)).
Proof.
  intros Hok. pose proof (crc32c_range (body_code ev)). pose proof (body_code_len ev Hok).
  unfold block_items. rewrite !Forall_cons. cbn. split; [done|]. split; [done|]. split; [done|constructor].
Qed.

Lemma torn_truncated {A} (f : decoding A CborError) c a context pre k rest :
  reads f c a -> c = k ++ rest -> rest <> [] -> torn context (f (MkDecoder (pre ++ k) (len pre))) = Ok None.
Proof. intros [_ H] E Hr. destruct (H pre k rest E Hr) as (e & -> & He). cbn. by rewrite He. Qed.

(** The parts of a whole block, and of a truncated one. *)
Lemma block_parts_spec ev pre :
  persisted_ok ev ->
  (forall rest, block_parts (MkDecoder (pre ++ block_code ev ++ rest) (len pre)) =
     Ok (Some (crc32c (body_code ev), body_code ev, MkDecoder (pre ++ block_code ev ++ rest) (len pre + len (block_code ev))))) /\
  (forall k rest, block_code ev = k ++ rest -> rest <> [] -> block_parts (MkDecoder (pre ++ k) (len pre)) = Ok None).
Proof.
  intros Hok. pose proof (block_items_ok ev Hok) as Hi. unfold block_items in Hi. rewrite !Forall_cons in Hi. destruct Hi as (H1 & H2 & H3 & _).
  pose proof (dec_array_reads 2 H1) as Ra. pose proof (dec_u32_reads _ H2) as Rc. pose proof (dec_bytes_reads _ H3) as Rb.
  unfold block_code, block_items. rewrite to_vec_cons, (to_vec_cons (IU32 _)).
  set (ca := to_vec [IArray 2]) in *. set (cc := to_vec [IU32 (bl_crc (block_of ev))]) in *. set (cb := to_vec [IBytes (bl_body (block_of ev))]) in *.
  split.
  - intros rest. unfold block_parts. rewrite <- (app_assoc ca), (proj1 Ra). cbn [torn result_bind negb Z.eqb Pos.eqb].
    rewrite <- (app_assoc cc). pose proof (proj1 Rc (pre ++ ca) (cb ++ rest)) as E. rewrite len_app, <- !app_assoc in E. rewrite E.
    cbn [torn result_bind]. pose proof (proj1 Rb (pre ++ ca ++ cc) rest) as E'. rewrite !len_app, <- !app_assoc in E'.
    rewrite Z.add_assoc in E'. rewrite E'. cbn. rewrite !len_app. do 4 f_equal. lia.
  - intros k rest E Hr. unfold block_parts. destruct (app_truncated _ _ _ _ E Hr) as [(r & Ec & Hr')|(k1 & -> & E1)].
    { by rewrite (torn_truncated _ _ _ _ _ _ _ Ra Ec Hr'). }
    rewrite (proj1 Ra). cbn [torn result_bind negb Z.eqb Pos.eqb].
    destruct (app_truncated _ _ _ _ E1 Hr) as [(r & Ec & Hr')|(k2 & -> & E2)].
    { pose proof (torn_truncated dec_u32 cc _ (text "malformed block crc") (pre ++ ca) k1 r Rc Ec Hr') as Et.
      rewrite len_app, <- app_assoc in Et. by rewrite Et. }
    pose proof (proj1 Rc (pre ++ ca) k2) as Ec. rewrite len_app, <- !app_assoc in Ec. rewrite Ec. cbn [torn result_bind].
    pose proof (torn_truncated dec_bytes cb _ (text "malformed block body bytes") (pre ++ ca ++ cc) k2 rest Rb E2 Hr) as Et.
    rewrite !len_app, <- !app_assoc, Z.add_assoc in Et. by rewrite Et.
Qed.

Lemma body_event_spec ev : backup_ok ev -> body_event (body_code ev) = Returns (Ok (BlockEvent (restored ev))).
Proof.
  intros Hok. unfold body_event.
  pose proof (proj1 (body_reads (body_of ev) (body_of_ok ev (proj1 Hok))) [] []) as E. cbn [app] in E. rewrite app_nil_r in E.
  fold (body_code ev) in E. rewrite len_nil in E. rewrite E. cbn [map_err outcome_bind d_position]. rewrite Z.add_0_l, Z.eqb_refl.
  cbn [negb]. destruct (reconstruct_body_of ev Hok) as (-> & _). done.
Qed.

Lemma decode_block_spec ev pre :
  backup_ok ev ->
  (forall rest, decode_block (MkDecoder (pre ++ block_code ev ++ rest) (len pre)) =
     Returns (Ok (Some (BlockEvent (restored ev), MkDecoder (pre ++ block_code ev ++ rest) (len pre + len (block_code ev)))))) /\
  (forall k rest, block_code ev = k ++ rest -> rest <> [] -> decode_block (MkDecoder (pre ++ k) (len pre)) = Returns (Ok None)).
Proof.
  intros Hok. destruct (block_parts_spec ev pre (proj1 Hok)) as [Hw Ht]. split.
  - intros rest. unfold decode_block. rewrite Hw. cbn [outcome_bind]. rewrite Z.eqb_refl. cbn [negb].
    rewrite body_event_spec by done. done.
  - intros k rest E Hr. unfold decode_block. by rewrite (Ht k rest E Hr).
Qed.

(** ** Sequences of records *)

Inductive entry : Type := EHeading (id : bytes) | EBlock (ev : PersistedEnvelope).

Definition entry_code (e : entry) : bytes :=
  match e with EHeading id => heading_code id | EBlock ev => block_code ev end.

Definition entry_ok (e : entry) : Prop :=
  match e with EHeading id => len id <= u64_max | EBlock ev => backup_ok ev end.

(** What a decoded entry does to the sections read so far. *)
Definition add_entry (secs : list StreamSection) (e : entry) : list StreamSection :=
  match e with
  | EHeading id => secs ++ [MkSection id []]
  | EBlock ev => push_block (BlockEvent (restored ev)) secs
  end.

Definition is_block (e : entry) : bool := match e with EBlock _ => true | _ => false end.
Definition block_count (es : list entry) : Z := len (filter (fun e => is_block e = true) es).
Definition heading_count (es : list entry) : Z := len (filter (fun e => is_block e = false) es).

(** No block before the first heading. *)
Definition grounded (es : list entry) : Prop := match es with EBlock _ :: _ => False | _ => True end.

Definition codes (es : list entry) : bytes := concat (entry_code <$> es).

Lemma block_count_cons e es : block_count (e :: es) = (if is_block e then 1 else 0) + block_count es.
Proof. unfold block_count. rewrite filter_cons. destruct (is_block e); [rewrite decide_True by done; apply len_cons|by rewrite decide_False]. Qed.
Lemma heading_count_cons e es : heading_count (e :: es) = (if is_block e then 0 else 1) + heading_count es.
Proof. unfold heading_count. rewrite filter_cons. destruct (is_block e); [by rewrite decide_False|rewrite decide_True by done; apply len_cons]. Qed.
Lemma block_count_app l k : block_count (l ++ k) = block_count l + block_count k.
Proof. unfold block_count. by rewrite filter_app, len_app. Qed.
Lemma heading_count_app l k : heading_count (l ++ k) = heading_count l + heading_count k.
Proof. unfold heading_count. by rewrite filter_app, len_app. Qed.
Lemma block_count_nonneg l : 0 <= block_count l.
Proof. apply len_nonneg. Qed.
Lemma codes_cons e es : codes (e :: es) = entry_code e ++ codes es.
Proof. done. Qed.
Lemma codes_app l k : codes (l ++ k) = codes l ++ codes k.
Proof. unfold codes. by rewrite fmap_app, concat_app. Qed.

Lemma push_block_len b secs : len (push_block b secs) = len secs.
Proof. induction secs as [|sec secs IH]; [done|]. destruct secs; [done|]. cbn [push_block] in *. rewrite !len_cons in *. lia. Qed.

Lemma add_entry_len secs e : len (add_entry secs e) = len secs + (if is_block e then 0 else 1).
Proof. destruct e; cbn; [by rewrite len_app|]. rewrite push_block_len. lia. Qed.

Lemma add_entry_nonempty secs e : secs <> [] -> add_entry secs e <> [].
Proof.
  intros H E. apply (f_equal len) in E. rewrite add_entry_len in E. change (@len StreamSection []) with 0 in E.
  destruct secs as [|sec secs]; [done|]. rewrite len_cons in E. pose proof (len_nonneg secs). destruct (is_block e); lia.
Qed.

(** The head of an entry starts it and tells its kind. *)
Lemma heading_starts id : len id <= u64_max -> exists x tl, heading_code id = x :: tl /\
  forall pre rest, datatype (MkDecoder (pre ++ x :: rest) (len pre)) = Ok TypeMap.
Proof.
  intros Hid. assert (item_ok (IMap 1)) as Hi by done.
  pose proof (advances_reads_nonempty _ _ _ dec_map_advances (dec_map_reads 1 Hi)) as Hne.
  destruct (to_vec [IMap 1]) as [|x tl] eqn:E; [done|].
  exists x, (tl ++ to_vec (field 0 (IBytes id))). split.
  - unfold heading_code, heading_items. cbn [hd_stream_id]. by rewrite to_vec_cons, E.
  - intros pre rest. by apply (datatype_map 1 x tl).
Qed.

Lemma block_starts ev : exists x tl, block_code ev = x :: tl /\
  forall pre rest, datatype (MkDecoder (pre ++ x :: rest) (len pre)) = Ok TypeArray.
Proof.
  assert (item_ok (IArray 2)) as Hi by done.
  pose proof (advances_reads_nonempty _ _ _ dec_array_advances (dec_array_reads 2 Hi)) as Hne.
  destruct (to_vec [IArray 2]) as [|x tl] eqn:E; [done|].
  exists x, (tl ++ to_vec [IU32 (bl_crc (block_of ev)); IBytes (bl_body (block_of ev))]). split.
  - unfold block_code, block_items. by rewrite to_vec_cons, E.
  - intros pre rest. by apply (datatype_array 2 x tl).
Qed.

Lemma entry_code_nonempty e : entry_ok e -> entry_code e <> [].
Proof.
  destruct e as [id|ev]; cbn [entry_ok entry_code]; intros H.
  - destruct (heading_starts id H) as (x & tl & -> & _). done.
  - destruct (block_starts ev) as (x & tl & -> & _). done.
Qed.

Lemma position_ltb pre (x : byte) rest : (len pre <? len (pre ++ x :: rest)) = true.
Proof. rewrite len_app, len_cons. pose proof (len_nonneg rest). lia. Qed.

(** One entry of the loop. *)
Lemma salvage_entry fuel e pre rest secs n :
  entry_ok e -> (is_block e = true -> secs <> [] /\ n + 1 <= u64_max) ->
  salvage_loop (S fuel) FORMAT_VERSION (MkDecoder (pre ++ entry_code e ++ rest) (len pre)) secs n =
  salvage_loop fuel FORMAT_VERSION (MkDecoder (pre ++ entry_code e ++ rest) (len pre + len (entry_code e)))
    (add_entry secs e) (n + if is_block e then 1 else 0).
Proof.
  destruct e as [id|ev]; cbn [entry_ok entry_code is_block add_entry]; intros Hok Hb.
  - destruct (heading_starts id Hok) as (x & tl & E & Hd). pose proof (proj1 (heading_reads id Hok) pre rest) as Hr.
    specialize (Hd pre (tl ++ rest)). pose proof (position_ltb pre x (tl ++ rest)) as Hp.
    rewrite app_comm_cons, <- E in Hd, Hp. cbn [salvage_loop d_position d_input]. rewrite Hp, Hd, Hr. cbn [negb torn].
    by rewrite Z.add_0_r.
  - destruct (block_starts ev) as (x & tl & E & Hd). pose proof (proj1 (decode_block_spec ev pre Hok) rest) as Hr.
    destruct (Hb eq_refl) as [Hs Hn]. specialize (Hd pre (tl ++ rest)). pose proof (position_ltb pre x (tl ++ rest)) as Hp.
    rewrite app_comm_cons, <- E in Hd, Hp. cbn [salvage_loop d_position d_input]. rewrite Hp, Hd, Hr. cbn [negb].
    rewrite bool_decide_false by done. by rewrite checked_add_ok.
Qed.

(** The input ends, or is cut within an entry: what was read before is kept. *)
Lemma salvage_cut fuel e pre k rest secs n :
  entry_ok e -> (is_block e = true -> secs <> []) -> entry_code e = k ++ rest -> rest <> [] ->
  salvage_loop (S fuel) FORMAT_VERSION (MkDecoder (pre ++ k) (len pre)) secs n = Some (Returns (Ok (secs, Err Missing))).
Proof.
  intros Hok Hb E Hrest. destruct k as [|y k].
  { cbn [salvage_loop d_position d_input]. rewrite app_nil_r, Z.ltb_irrefl. done. }
  cbn [salvage_loop d_position d_input]. rewrite position_ltb. cbn [negb].
  destruct e as [id|ev]; cbn [entry_ok entry_code is_block] in *.
  - destruct (heading_starts id Hok) as (x & tl & E' & Hd). rewrite E' in E. injection E as <- E.
    rewrite Hd, (torn_truncated _ _ _ _ _ _ rest (heading_reads id Hok)); [done| |done]. by rewrite E', E.
  - destruct (block_starts ev) as (x & tl & E' & Hd). rewrite E' in E. injection E as <- E.
    rewrite Hd, bool_decide_false by auto. rewrite (proj2 (decode_block_spec ev pre Hok) _ rest); [done| |done]. by rewrite E', E.
Qed.

(** All entries of a sequence. *)
Lemma salvage_entries es fuel pre rest secs n :
  Forall entry_ok es -> (secs <> [] \/ grounded es) -> n + block_count es <= u64_max ->
  salvage_loop (length es + fuel) FORMAT_VERSION (MkDecoder (pre ++ codes es ++ rest) (len pre)) secs n =
  salvage_loop fuel FORMAT_VERSION (MkDecoder (pre ++ codes es ++ rest) (len pre + len (codes es)))
    (fold_left add_entry es secs) (n + block_count es).
Proof.
  revert pre secs n. induction es as [|e es IH]; intros pre secs n Hok Hg Hn.
  { cbn. by rewrite !Z.add_0_r. }
  apply Forall_cons in Hok as [He Hok]. rewrite block_count_cons in Hn. pose proof (block_count_nonneg es).
  rewrite codes_cons, <- app_assoc. cbn [length Nat.add fold_left].
  rewrite salvage_entry; [|done|].
  2:{ intros Hb. rewrite Hb in Hn. split; [|lia]. destruct Hg as [|Hg]; [done|]. by destruct e. }
  specialize (IH (pre ++ entry_code e) (add_entry secs e) (n + if is_block e then 1 else 0) Hok).
  rewrite len_app, <- app_assoc in IH. rewrite IH; [| |lia].
  - rewrite len_app, block_count_cons. f_equal; [f_equal|]; lia.
  - left. destruct e as [id|ev]; [by destruct secs|]. apply add_entry_nonempty. by destruct Hg.
Qed.

(** ** The completion record *)

Definition completion_code (nsections nevents nbytes crc : Z) : bytes :=
  to_vec [ITag COMPLETION_TAG; IArray 4; IU64 nsections; IU64 nevents; IU64 nbytes; IU32 crc].

Definition count_ok (n : Z) : Prop := 0 <= n <= u64_max.

Lemma completion_code_app a b c crc :
  completion_code a b c crc =
  to_vec [ITag COMPLETION_TAG] ++ to_vec [IArray 4] ++ to_vec [IU64 a] ++ to_vec [IU64 b] ++ to_vec [IU64 c] ++ to_vec [IU32 crc] ++ [].
Proof. unfold completion_code. rewrite app_nil_r, <- !to_vec_app. done. Qed.

Lemma completion_reads a b c crc :
  count_ok a -> count_ok b -> count_ok c -> 0 <= crc <= u32_max ->
  reads_as (eq Missing) (completion_parts (M := M)) (completion_code a b c crc) (a, b, c, crc).
Proof.
  intros Ha Hb Hc Hcrc. rewrite completion_code_app.
  pose (read A (r : result A CborError) := map_err (fun e => if is_end_of_input e then Missing else CompletionDecode e) r).
  assert (forall A (f : decoding A CborError) code x, reads f code x -> reads_as (eq Missing) (fun d => read _ (f d)) code x) as Hread.
  { intros A f code x. apply reads_map_err. intros e He. by rewrite He. }
  pose (p6 (x y z : Z) (w : Z) (d : Decoder) := @Ok (Z * Z * Z * Z * Decoder) CompletionError (x, y, z, w, d)).
  pose (p5 (x y z : Z) (d : Decoder) := let? (w, d) := read _ (dec_u32 d) in p6 x y z w d).
  pose (p4 (x y : Z) (d : Decoder) := let? (z, d) := read _ (dec_u64 d) in p5 x y z d).
  pose (p3 (x : Z) (d : Decoder) := let? (y, d) := read _ (dec_u64 d) in p4 x y d).
  pose (p2 (d : Decoder) := let? (x, d) := read _ (dec_u64 d) in p3 x d).
  pose (p1 (n : option Z) (d : Decoder) := if negb (bool_decide (n = Some 4)) then Err Shape else p2 d).
  pose (p0 (tag : Z) (d : Decoder) := if negb (tag =? COMPLETION_TAG) then Err Shape else let? (n, d) := read _ (dec_array d) in p1 n d).
  change (completion_parts (M := M)) with (fun d => let? (tag, d) := read _ (dec_tag d) in p0 tag d).
  eapply (reads_bind _ p0); [by apply Hread, dec_tag_reads|].
  eapply (reads_bind (fun d => read _ (dec_array d)) p1); [by apply Hread, dec_array_reads|].
  eapply (reads_bind (fun d => read _ (dec_u64 d)) p3); [by apply Hread, dec_u64_reads|].
  eapply (reads_bind (fun d => read _ (dec_u64 d)) (p4 a)); [by apply Hread, dec_u64_reads|].
  eapply (reads_bind (fun d => read _ (dec_u64 d)) (p5 a b)); [by apply Hread, dec_u64_reads|].
  eapply (reads_bind (fun d => read _ (dec_u32 d)) (p6 a b c)); [by apply Hread, dec_u32_reads|].
  apply (reads_ret (a, b, c, crc)).
Qed.

Lemma completion_starts a b c crc : exists x tl, completion_code a b c crc = x :: tl /\
  forall pre rest, datatype (MkDecoder (pre ++ x :: rest) (len pre)) = Ok TypeTag.
Proof.
  assert (item_ok (ITag COMPLETION_TAG)) as Hi by done.
  pose proof (advances_reads_nonempty _ _ _ dec_tag_advances (dec_tag_reads _ Hi)) as Hne.
  rewrite completion_code_app. destruct (to_vec [ITag COMPLETION_TAG]) as [|x tl] eqn:E; [done|].
  eexists x, _. split; [done|]. intros pre rest. by apply (datatype_tag COMPLETION_TAG x tl).
Qed.

(** ** Whole chunks *)

Definition chunk_prefix (o : option bytes) (es : list entry) : bytes := header_code o ++ codes es.

Definition completion_of (o : option bytes) (es : list entry) : bytes :=
  completion_code (heading_count es) (block_count es) (len (chunk_prefix o es)) (crc32c (chunk_prefix o es)).

(** The bytes of a finished chunk. *)
Definition complete_chunk (o : option bytes) (es : list entry) : bytes := chunk_prefix o es ++ completion_of o es.

(** Entries the format can hold, with their producer. *)
Record chunk_ok (o : option bytes) (es : list entry) : Prop := {
  chunk_origin_ok : from_option (fun b => len b <= u64_max) True o;
  chunk_entries_ok : Forall entry_ok es;
  chunk_grounded : grounded es;
  chunk_sections_ok : heading_count es <= u64_max;
  chunk_events_ok : block_count es <= u64_max;
  chunk_length_ok : len (chunk_prefix o es) <= u64_max;
}.

Definition chunk_sections (es : list entry) : list StreamSection := fold_left add_entry es [].

Lemma fold_sections_len es secs : len (fold_left add_entry es secs) = len secs + heading_count es.
Proof.
  revert secs. induction es as [|e es IH]; intros secs; [cbn; change (heading_count []) with 0; lia|].
  cbn [fold_left]. rewrite IH, add_entry_len, heading_count_cons. destruct (is_block e); lia.
Qed.

Lemma completion_reads_of o es :
  chunk_ok o es -> reads_as (eq Missing) (completion_parts (M := M)) (completion_of o es)
    (heading_count es, block_count es, len (chunk_prefix o es), crc32c (chunk_prefix o es)).
Proof.
  intros [_ _ _ H1 H2 H3]. pose proof (crc32c_range (chunk_prefix o es)). pose proof (len_nonneg (chunk_prefix o es)).
  pose proof (block_count_nonneg es). assert (0 <= heading_count es) by apply len_nonneg.
  apply completion_reads; unfold count_ok; lia.
Qed.

(** The completion record of a chunk verifies. *)
Lemma decode_completion_ok o es :
  chunk_ok o es ->
  decode_completion (MkDecoder (complete_chunk o es) (len (chunk_prefix o es))) (complete_chunk o es)
    (len (chunk_prefix o es)) (heading_count es) (block_count es) = Returns (Ok ()).
Proof.
  intros Hok. unfold decode_completion.
  pose proof (proj1 (completion_reads_of o es Hok) (chunk_prefix o es) []) as E. rewrite app_nil_r in E.
  fold (complete_chunk o es) in E. rewrite E. cbn [outcome_bind d_position].
  unfold complete_chunk at 1. rewrite len_app, !Z.eqb_refl. cbn [negb andb].
  destruct Hok as [_ _ _ _ _ Hl]. pose proof (len_nonneg (chunk_prefix o es)). rewrite try_from_ok by lia.
  cbn [ok_or outcome_bind]. rewrite Z.eqb_refl. cbn [negb].
  rewrite bytes_slice_ok; [|lia|unfold complete_chunk; rewrite len_app; pose proof (len_nonneg (completion_of o es)); lia].
  cbn [lift outcome_bind]. unfold complete_chunk. rewrite slice_prefix by done. by rewrite Z.eqb_refl.
Qed.

Lemma decode_completion_cut o es pre k rest b p m n :
  chunk_ok o es -> completion_of o es = k ++ rest -> rest <> [] ->
  decode_completion (MkDecoder (pre ++ k) (len pre)) b p m n = Returns (Err Missing).
Proof.
  intros Hok E Hr. unfold decode_completion.
  destruct (proj2 (completion_reads_of o es Hok) pre k rest E Hr) as (e & -> & <-). done.
Qed.

Lemma header_at_ok o rest :
  from_option (fun b => len b <= u64_max) True o ->
  header_at (MkDecoder (header_code o ++ rest) 0) =
    Ok (MkChunkHeader FORMAT_VERSION o, MkDecoder (header_code o ++ rest) (len (header_code o))).
Proof.
  intros Ho. unfold header_at. pose proof (proj1 (header_reads o Ho) [] rest) as E. cbn [app] in E. rewrite len_nil in E. rewrite E. done.
Qed.

Lemma codes_length es : Forall entry_ok es -> (length es <= length (codes es))%nat.
Proof.
  induction 1 as [|e es He _ IH]; [done|]. rewrite codes_cons, length_app. cbn [length].
  pose proof (entry_code_nonempty e He). destruct (entry_code e); [done|]. cbn [length]. lia.
Qed.

(** The loop over the entries of a chunk, whatever follows them. *)
Lemma salvage_chunk_entries o es rest fuel :
  from_option (fun b => len b <= u64_max) True o -> Forall entry_ok es -> grounded es -> block_count es <= u64_max ->
  salvage_chunk (length es + fuel) (chunk_prefix o es ++ rest) =
  match salvage_loop fuel FORMAT_VERSION (MkDecoder (chunk_prefix o es ++ rest) (len (chunk_prefix o es)))
          (chunk_sections es) (block_count es) with
  | None => None
  | Some Panics => Some Panics
  | Some (Returns (Err e)) => Some (Returns (Err e))
  | Some (Returns (Ok (secs, c))) => Some (Returns (Ok (MkSalvaged (MkChunkHeader FORMAT_VERSION o) secs c)))
  end.
Proof.
  intros Ho He Hg Hb. unfold salvage_chunk, chunk_prefix. rewrite <- app_assoc. rewrite header_at_ok by done. cbn [format_version].
  rewrite salvage_entries by (auto; lia). by rewrite len_app.
Qed.

Lemma salvage_complete o es fuel :
  chunk_ok o es -> (length (complete_chunk o es) < fuel)%nat ->
  salvage_chunk fuel (complete_chunk o es) =
    Some (Returns (Ok (MkSalvaged (MkChunkHeader FORMAT_VERSION o) (chunk_sections es) (Ok ())))).
Proof.
  intros Hok Hfuel. pose proof Hok as [Ho He Hg Hs Hb _].
  pose proof (codes_length es He) as Hlen. unfold complete_chunk in Hfuel. rewrite !length_app in Hfuel.
  unfold chunk_prefix in Hfuel. rewrite length_app in Hfuel.
  replace fuel with (length es + S (fuel - length es - 1))%nat by lia.
  unfold complete_chunk at 1. rewrite salvage_chunk_entries by done. fold (complete_chunk o es).
  destruct (completion_starts (heading_count es) (block_count es) (len (chunk_prefix o es)) (crc32c (chunk_prefix o es)))
    as (x & tl & E & Hd). fold (completion_of o es) in E.
  specialize (Hd (chunk_prefix o es) tl). pose proof (position_ltb (chunk_prefix o es) x tl) as Hp. rewrite <- E in Hd, Hp.
  fold (complete_chunk o es) in Hd, Hp. cbn [salvage_loop d_position d_input]. rewrite Hp, Hd. cbn [negb].
  rewrite Z.eqb_refl. unfold chunk_sections. rewrite fold_sections_len, len_nil, Z.add_0_l.
  rewrite try_from_ok by (split; [apply len_nonneg|done]). by rewrite decode_completion_ok.
Qed.

(** A truncation of a list of codes ends within one of them. *)
Lemma codes_truncated es k rest :
  codes es = k ++ rest -> rest <> [] ->
  exists i e k' r, es !! i = Some e /\ k = codes (take i es) ++ k' /\ entry_code e = k' ++ r /\ r <> [].
Proof.
  revert k. induction es as [|e es IH]; intros k E Hr.
  { destruct k, rest; done. }
  rewrite codes_cons in E. destruct (app_truncated _ _ _ _ E Hr) as [(r & Ee & Hr')|(k2 & -> & E2)].
  - exists O, e, k, r. done.
  - destruct (IH k2 E2 Hr) as (i & e' & k' & r & Hi & -> & ? & ?). exists (S i), e', k', r. split; [done|].
    split; [|done]. cbn [take]. by rewrite codes_cons, app_assoc.
Qed.

Lemma grounded_take es i : grounded es -> grounded (take i es).
Proof. by destruct es, i. Qed.

Lemma block_count_take es i : block_count (take i es) <= block_count es.
Proof. rewrite <- (take_drop i es) at 2. rewrite block_count_app. pose proof (block_count_nonneg (drop i es)). lia. Qed.

Lemma sections_nonempty es i e :
  grounded es -> es !! i = Some e -> is_block e = true -> chunk_sections (take i es) <> [].
Proof.
  intros Hg Hi Hb E. apply (f_equal len) in E. unfold chunk_sections in E. rewrite fold_sections_len in E.
  change (@len StreamSection []) with 0 in E.
  destruct es as [|e0 es]; [done|]. destruct i as [|i]; [injection Hi as ->; by destruct e|].
  destruct e0 as [id|]; [|done]. cbn [take] in E. rewrite heading_count_cons in E.
  assert (0 <= heading_count (take i es)) by apply len_nonneg. cbn [is_block] in E. lia.
Qed.

(** What salvage recovers from the first [i] entries of a chunk. *)
Definition salvaged_at (o : option bytes) (es : list entry) (i : nat) : SalvagedChunk :=
  MkSalvaged (MkChunkHeader FORMAT_VERSION o) (chunk_sections (take i es)) (Err Missing).

(** The input ends after all entries. *)
Lemma salvage_ends o es fuel :
  from_option (fun b => len b <= u64_max) True o -> Forall entry_ok es -> grounded es -> block_count es <= u64_max ->
  (length (chunk_prefix o es) < fuel)%nat ->
  salvage_chunk fuel (chunk_prefix o es) = Some (Returns (Ok (salvaged_at o es (length es)))).
Proof.
  intros Ho He Hg Hb Hfuel. pose proof (codes_length es He) as Hlen. unfold chunk_prefix in Hfuel. rewrite length_app in Hfuel.
  replace fuel with (length es + S (fuel - length es - 1))%nat by lia.
  rewrite <- (app_nil_r (chunk_prefix o es)), salvage_chunk_entries by done.
  cbn [salvage_loop d_position d_input]. unfold salvaged_at. by rewrite app_nil_r, Z.ltb_irrefl, firstn_all.
Qed.

(** The records that are whole in the input [k]: the longest list of first entries of a
    chunk whose bytes [k] holds. *)
Definition whole_records (o : option bytes) (es : list entry) (k : bytes) (whole : list entry) : Prop :=
  whole `prefix_of` es /\ chunk_prefix o whole `prefix_of` k /\
  forall more, more `prefix_of` es -> chunk_prefix o more `prefix_of` k -> more `prefix_of` whole.

Lemma whole_all o es k : chunk_prefix o es `prefix_of` k -> whole_records o es k (take (length es) es).
Proof. rewrite firstn_all. by intros ?. Qed.

Lemma whole_cut o es i e k' r :
  es !! i = Some e -> entry_code e = k' ++ r -> r <> [] ->
  whole_records o es (header_code o ++ codes (take i es) ++ k') (take i es).
Proof.
  intros Hi Ee Hr. unfold whole_records, chunk_prefix. split; [apply prefix_take|]. split; [rewrite app_assoc; by eexists|].
  intros more [rest Hmore] Hk. destruct (decide (length more <= i)%nat) as [Hle|Hgt].
  { rewrite Hmore, take_app_ge by lia. by eexists. }
  exfalso. apply prefix_length in Hk. rewrite !length_app in Hk.
  assert (exists tl, more = take i es ++ e :: tl) as [tl ->].
  { exists (drop (S i) more). rewrite <- (take_drop i more) at 1. rewrite Hmore, take_app_le by lia. f_equal.
    rewrite Hmore, lookup_app_l in Hi by lia. by rewrite (drop_S _ _ _ Hi). }
  rewrite codes_app, codes_cons, Ee, !length_app in Hk. destruct r; [done|]. cbn [length] in Hk. lia.
Qed.

(** The input is cut within the entries. *)
Lemma salvage_cut_entries o es k rest fuel :
  from_option (fun b => len b <= u64_max) True o -> Forall entry_ok es -> grounded es -> block_count es <= u64_max ->
  codes es = k ++ rest -> (length (header_code o ++ k) < fuel)%nat ->
  exists i, whole_records o es (header_code o ++ k) (take i es) /\
    salvage_chunk fuel (header_code o ++ k) = Some (Returns (Ok (salvaged_at o es i))).
Proof.
  intros Ho He Hg Hb Ec Hfuel. destruct (decide (rest = [])) as [->|Hr].
  { rewrite app_nil_r in Ec. rewrite <- Ec in *. exists (length es). split; [by apply whole_all|by apply salvage_ends]. }
  destruct (codes_truncated _ _ _ Ec Hr) as (i & e & k' & r' & Hi & -> & Ee & Hr''). exists i.
  split; [by eapply whole_cut|].
  assert (Forall entry_ok (take i es)) as Het by (by apply Forall_take).
  pose proof (codes_length _ Het) as Hlen. rewrite !length_app in Hfuel.
  replace fuel with (length (take i es) + S (fuel - length (take i es) - 1))%nat by lia.
  rewrite app_assoc. fold (chunk_prefix o (take i es)). pose proof (block_count_take es i).
  rewrite salvage_chunk_entries; [|done|done|by apply grounded_take|lia].
  erewrite salvage_cut; [done| | |exact Ee|done].
  - rewrite Forall_lookup in He. by eapply He.
  - intros Hblock. by eapply sections_nonempty.
Qed.

Lemma salvage_cut_chunk o es k rest fuel :
  chunk_ok o es -> complete_chunk o es = header_code o ++ k ++ rest -> rest <> [] ->
  (length (header_code o ++ k) < fuel)%nat ->
  exists i, whole_records o es (header_code o ++ k) (take i es) /\
    salvage_chunk fuel (header_code o ++ k) = Some (Returns (Ok (salvaged_at o es i))).
Proof.
  intros Hok E Hr Hfuel. pose proof Hok as [Ho He Hg Hs Hb _].
  unfold complete_chunk, chunk_prefix in E. rewrite <- app_assoc in E. apply app_inv_head in E.
  destruct (app_truncated _ _ _ _ E Hr) as [(r & Ec & Hr')|(k2 & -> & E2)]; [by eapply salvage_cut_entries|].
  exists (length es). split; [apply whole_all; unfold chunk_prefix; rewrite app_assoc; by eexists|].
  pose proof (codes_length es He) as Hlen. rewrite !length_app in Hfuel.
  replace fuel with (length es + S (fuel - length es - 1))%nat by lia.
  rewrite app_assoc. fold (chunk_prefix o es). rewrite salvage_chunk_entries by done.
  unfold salvaged_at. rewrite firstn_all. destruct k2 as [|y k2].
  { cbn [salvage_loop d_position d_input]. by rewrite app_nil_r, Z.ltb_irrefl. }
  destruct (completion_starts (heading_count es) (block_count es) (len (chunk_prefix o es)) (crc32c (chunk_prefix o es)))
    as (x & tl & E' & Hd). fold (completion_of o es) in E'. pose proof E2 as E3. rewrite E' in E3. injection E3 as <- _.
  cbn [salvage_loop d_position d_input]. rewrite position_ltb, Hd. cbn [negb].
  rewrite Z.eqb_refl. unfold chunk_sections at 1. rewrite fold_sections_len, len_nil, Z.add_0_l.
  rewrite try_from_ok by (split; [apply len_nonneg|done]).
  by rewrite (decode_completion_cut o es _ _ _ _ _ _ _ Hok E2 Hr).
Qed.

Lemma salvage_cut_header o k rest fuel :
  from_option (fun b => len b <= u64_max) True o -> header_code o = k ++ rest -> rest <> [] ->
  exists e, salvage_chunk fuel k = Some (Returns (Err e)).
Proof.
  intros Ho E Hr. destruct (proj2 (header_reads o Ho) [] k rest E Hr) as (e & He & _).
  unfold salvage_chunk, header_at. cbn [app] in He. rewrite len_nil in He. rewrite He. by eexists.
Qed.

(** ** Recovered sections *)

(** The sections of [secs], each with the first of its blocks, in [full]. *)
Definition partial_of (secs full : list StreamSection) : Prop :=
  forall i sec, secs !! i = Some sec ->
    exists sec', full !! i = Some sec' /\ origin sec' = origin sec /\ blocks sec `prefix_of` blocks sec'.

Lemma partial_refl secs : partial_of secs secs.
Proof. intros i sec Hi. by exists sec. Qed.

Lemma partial_trans a b c : partial_of a b -> partial_of b c -> partial_of a c.
Proof.
  intros H1 H2 i sec Hi. destruct (H1 i sec Hi) as (sec1 & Hi1 & Ho1 & Hb1). destruct (H2 i sec1 Hi1) as (sec2 & ? & ? & ?).
  exists sec2. split; [done|]. split; [congruence|]. by etrans.
Qed.

Lemma partial_push b secs : partial_of secs (push_block b secs).
Proof.
  induction secs as [|sec secs IH]; [by apply partial_refl|]. intros i s Hi. destruct secs as [|sec' secs].
  - destruct i as [|i]; [|done]. injection Hi as <-. eexists. split; [done|]. split; [done|]. by eexists.
  - destruct i as [|i]; [exists s; by cbn in *|]. by apply IH.
Qed.

Lemma partial_add secs e : partial_of secs (add_entry secs e).
Proof.
  destruct e as [id|ev]; [|apply partial_push]. intros i sec Hi. exists sec. split; [|done]. by apply lookup_app_l_Some.
Qed.

Lemma partial_take es i : partial_of (chunk_sections (take i es)) (chunk_sections es).
Proof.
  unfold chunk_sections. rewrite <- (take_drop i es) at 2. rewrite fold_left_app.
  generalize (fold_left add_entry (take i es) []). generalize (drop i es). clear. intros es.
  induction es as [|e es IH]; intros secs; [apply partial_refl|]. cbn [fold_left].
  eapply partial_trans; [apply partial_add|apply IH].
Qed.

(** The entries of a list of streams, and what they decode to. *)
Notation streams := (list (bytes * list PersistedEnvelope)).

Definition entries_of (ss : streams) : list entry := ss ≫= (fun s => EHeading s.1 :: (EBlock <$> s.2)).

Definition restored_section (s : bytes * list PersistedEnvelope) : StreamSection :=
  MkSection s.1 ((fun ev => BlockEvent (restored ev)) <$> s.2).

Lemma push_block_last b secs sec :
  push_block b (secs ++ [sec]) = secs ++ [MkSection (origin sec) (blocks sec ++ [b])].
Proof.
  induction secs as [|s secs IH]; [done|]. cbn [app]. destruct (secs ++ [sec]) eqn:E; [by destruct secs|].
  cbn [push_block]. f_equal. exact IH.
Qed.

Lemma add_blocks secs sec evs :
  fold_left add_entry (EBlock <$> evs) (secs ++ [sec]) =
  secs ++ [MkSection (origin sec) (blocks sec ++ ((fun ev => BlockEvent (restored ev)) <$> evs))].
Proof.
  revert sec. induction evs as [|ev evs IH]; intros sec; [cbn; rewrite app_nil_r; by destruct sec|].
  rewrite !fmap_cons. cbn [fold_left add_entry]. rewrite push_block_last, IH. cbn [origin blocks]. by rewrite <- app_assoc.
Qed.

Lemma chunk_sections_of ss : chunk_sections (entries_of ss) = restored_section <$> ss.
Proof.
  unfold chunk_sections. assert (forall secs, fold_left add_entry (entries_of ss) secs = secs ++ (restored_section <$> ss)) as H; [|apply H].
  induction ss as [|[id evs] ss IH]; intros secs; [cbn; by rewrite app_nil_r|].
  unfold entries_of. rewrite bind_cons, fold_left_app. cbn [fst snd fold_left add_entry]. rewrite add_blocks. fold (entries_of ss).
  rewrite IH. cbn [origin blocks app]. rewrite fmap_cons, <- app_assoc. done.
Qed.

(** ** Arbitrary input *)

Lemma decode_map_advances {A} (f : decoding A CborError) : advances f -> advances (decode_map f).
Proof.
  intros Hf d a d'. unfold decode_map. intros ([n probe] & _ & E)%result_bind_Ok. apply result_bind_Ok in E as (n' & _ & E).
  apply result_bind_Ok in E as (u & _ & E). by apply Hf in E.
Qed.

Lemma torn_Some {A} context (r : result (A * Decoder) CborError) x : torn context r = Ok (Some x) -> r = Ok x.
Proof. destruct r as [y|e]; cbn; [by intros [= ->]|]. by destruct (is_end_of_input e). Qed.

Lemma block_parts_advances d crc body d' :
  block_parts d = Ok (Some (crc, body, d')) -> d_input d' = d_input d /\ d_position d < d_position d' <= len (d_input d).
Proof.
  unfold block_parts. intros (h & E1 & E)%result_bind_Ok. destruct h as [[[n|] d1]|]; try done.
  apply torn_Some, dec_array_advances in E1. destruct (negb (n =? 2)); [done|].
  apply result_bind_Ok in E as (c & E2 & E). destruct c as [[c d2]|]; [|done]. apply torn_Some, dec_u32_advances in E2.
  apply result_bind_Ok in E as (b & E3 & E). destruct b as [[b d3]|]; [|done]. apply torn_Some, dec_bytes_advances in E3.
  injection E as <- <- <-. destruct E1 as [E1 ?], E2 as [E2 ?], E3 as [E3 ?]. rewrite E3, E2, E1 in *. split; [done|lia].
Qed.

Definition block_valid (b : ImportBlock) : Prop := match b with BlockEvent ev => persisted_ok ev | BlockCorrupt => True end.

Lemma decode_block_sound d :
  exists r, decode_block d = Returns r /\
    forall b d', r = Ok (Some (b, d')) ->
      block_valid b /\ d_input d' = d_input d /\ d_position d < d_position d' <= len (d_input d).
Proof.
  unfold decode_block. destruct (block_parts d) as [[[[crc body] d1]|]|e] eqn:E; cbn [outcome_bind]; [|by eexists..].
  apply block_parts_advances in E. destruct (negb (crc32c body =? crc)).
  { eexists. split; [done|]. by intros b d' [= <- <-]. }
  unfold body_event. destruct (decode_map dec_body _) as [[parsed d2]|]; cbn [map_err outcome_bind]; [|by eexists].
  destruct (negb _); [by eexists|]. destruct (reconstruct_spec parsed) as (r & -> & Hr & _).
  destruct r as [env|]; cbn [outcome_map_err map_err outcome_bind]; [|by eexists]. eexists. split; [done|].
  intros b d' [= <- <-]. split; [|done]. by destruct (Hr env eq_refl).
Qed.

Lemma decode_completion_returns d b p m n : 0 <= p <= len b -> exists r, decode_completion d b p m n = Returns r.
Proof.
  intros Hp. unfold decode_completion. destruct (completion_parts d) as [[[[[x y] z] w] d']|]; cbn [outcome_bind]; [|by eexists].
  destruct (negb _); [by eexists|]. destruct (negb _); [by eexists|]. destruct (try_from _ _) as [q|]; cbn [ok_or outcome_bind]; [|by eexists].
  destruct (negb _); [by eexists|]. rewrite bytes_slice_ok by lia. cbn [lift outcome_bind]. destruct (negb _); by eexists.
Qed.

Definition sections_valid (secs : list StreamSection) : Prop := Forall (fun sec => Forall block_valid (blocks sec)) secs.

Lemma push_block_valid b secs : block_valid b -> sections_valid secs -> sections_valid (push_block b secs).
Proof.
  intros Hb. induction 1 as [|sec secs Hsec Hsecs IH]; [constructor|]. destruct secs as [|sec' secs].
  - constructor; [|constructor]. cbn. apply Forall_app. auto.
  - cbn [push_block] in *. by constructor.
Qed.

(** The loop has returned, with valid sections if any. *)
Definition settled (x : option (outcome (list StreamSection * result () CompletionError) ChunkError)) : Prop :=
  exists r, x = Some (Returns r) /\ forall secs c, r = Ok (secs, c) -> sections_valid secs.

Lemma salvage_loop_sound fuel format d secs n :
  sections_valid secs -> 0 <= d_position d <= len (d_input d) -> len (d_input d) - d_position d < Z.of_nat fuel ->
  settled (salvage_loop fuel format d secs n).
Proof.
  revert d secs n. induction fuel as [|fuel IH]; intros d secs n Hv Hp Hfuel; [lia|]. cbn [salvage_loop].
  assert (forall c, settled (Some (Returns (Ok (secs, c))))) as Hstop by (intros c; eexists; split; [done|]; by intros ? ? [= <- _]).
  assert (forall e, settled (Some (Returns (Err e)))) as Herr by (intros e; by eexists).
  destruct (Z.ltb_spec (d_position d) (len (d_input d))) as [Hlt|]; cbn [negb]; [|apply Hstop].
  destruct (datatype d) as [[]|e].
  - destruct (torn _ _) as [[[heading d']|]|] eqn:E; [|apply Hstop|apply Herr].
    apply torn_Some, (decode_map_advances _ dec_heading_advances) in E as [E ?]. apply IH; [|rewrite E; lia..].
    apply Forall_app. split; [done|]. constructor; [constructor|constructor].
  - case_bool_decide; [apply Herr|]. destruct (decode_block_sound d) as (r & -> & Hr).
    destruct r as [[[b d']|]|]; [|apply Hstop|apply Herr]. destruct (Hr b d' eq_refl) as (Hb & E & ?).
    destruct (checked_add _ _ _); [|apply Herr]. apply IH; [by apply push_block_valid|rewrite E; lia..].
  - destruct (format =? FORMAT_VERSION); [|apply Herr]. destruct (try_from _ _); [|apply Herr].
    destruct (decode_completion_returns d (d_input d) (d_position d) z n) as (c & ->); [lia|]. apply Hstop.
  - apply Herr.
  - destruct (is_end_of_input e); [apply Hstop|apply Herr].
Qed.

Lemma salvage_sound fuel b :
  (length b < fuel)%nat ->
  exists r, salvage_chunk fuel b = Some (Returns r) /\ forall s, r = Ok s -> sections_valid (sections s).
Proof.
  intros Hf. unfold salvage_chunk. destruct (header_at _) as [[h d]|e] eqn:E; [|by eexists].
  assert (d_input d = b /\ 0 < d_position d <= len b) as [Hi Hp].
  { unfold header_at in E. apply result_bind_Ok in E as ([repr d'] & E1 & E). apply map_err_Ok, (decode_map_advances _ dec_header_advances) in E1.
    apply result_bind_Ok in E as (u & _ & E). injection E as _ <-. done. }
  destruct (salvage_loop_sound fuel (format_version h) d [] 0) as (r & -> & Hr); [constructor|rewrite Hi; lia| |].
  { rewrite Hi. unfold len in *. lia. }
  destruct r as [[secs c]|]; [|by eexists]. eexists. split; [done|]. intros s [= <-]. by apply (Hr secs c).
Qed.

End chunk.
