(* ===== verification/CborWriter.v ===== *)
(** * The backup format: the writer

    A [ChunkWriter] over any sink, which may fail in the middle of any write.  An
    operation that fails, and a drain that is dropped, poison it, so that a chunk
    can be finished only when everything asked for was written.  The theorems join
    the writer to the decoder of [Cbor]. *)

From S2P Require Import Prelude Utf8 Version Value Wire Envelope RawStore Import Log Cbor CborSpec CborChunk.

(** What is assumed of a sink: it appends, possibly only a part when it fails. *)
Class SinkSpec (W : Type) {SW : Sink W} := {
  sink_content : W -> bytes;
  sink_write_ok w b w' : sink_write w b = (w', Ok ()) -> sink_content w' = sink_content w ++ b;
  sink_write_err w b w' e :
    sink_write w b = (w', Err e) -> exists k, k `prefix_of` b /\ sink_content w' = sink_content w ++ k;
}.

Section writer.
Context {T : Target} {M : Minicbor} {MS : MinicborSpec} {K : Crc} {KS : CrcSpec}.
Context {W : Type} {SW : Sink W} {SS : SinkSpec W} {R : Type}.

(** ** What a caller does *)

(** The calls on a section handle; a caller may go on after an error. *)
Inductive SectionOp : Type := OpBlock (ev : PersistedEnvelope) | OpExtend (events : Source R).

Definition run_op (w : ChunkWriter (W := W)) (op : SectionOp) : ChunkWriter (W := W) :=
  match op with
  | OpBlock ev => (block w ev).1
  | OpExtend events => (try_extend w events).1
  end.

(** A section and the calls on it; without a handle there are none. *)
Definition run_section (w : ChunkWriter (W := W)) (sec : bytes * list SectionOp) : ChunkWriter (W := W) :=
  match section w sec.1 with
  | (w, Err _) => w
  | (w, Ok _) => fold_left run_op sec.2 w
  end.

Definition run_program (w : ChunkWriter (W := W)) (program : list (bytes * list SectionOp)) : ChunkWriter (W := W) :=
  fold_left run_section program w.

Fixpoint source_events (events : Source R) : list PersistedEnvelope :=
  match events with SourceYields ev rest => ev :: source_events rest | _ => [] end.

Definition op_events (op : SectionOp) : list PersistedEnvelope :=
  match op with OpBlock ev => [ev] | OpExtend events => source_events events end.

(** A source was read to its end. *)
Fixpoint source_ended (events : Source R) : Prop :=
  match events with
  | SourceEnds => True
  | SourceYields _ rest => source_ended rest
  | SourceFails _ | SourceDropped => False
  end.

Definition op_complete (op : SectionOp) : Prop := match op with OpBlock _ => True | OpExtend events => source_ended events end.

(** The streams a program asks to be written. *)
Definition program_streams (program : list (bytes * list SectionOp)) : list (bytes * list PersistedEnvelope) :=
  (fun sec => (sec.1, sec.2 ≫= op_events)) <$> program.

(** ** The tracked sink *)

Context (base : bytes).

(** The sink holds [base] and then [c], and the counters are those of [c]. *)
Definition tracks (t : TrackedSink) (c : bytes) : Prop :=
  sink_content (ts_inner t) = base ++ c /\ ts_bytes t = len c /\ ts_crc t = crc32c c /\ len c <= u64_max.

(** The sink holds [base] and a part of [c]. *)
Definition holds_part (inner : W) (c : bytes) : Prop := exists k, k `prefix_of` c /\ sink_content inner = base ++ k.

Lemma write_chunks_spec t chunks c :
  tracks t c ->
  match write_chunks t chunks with
  | (t', Ok _) => tracks t' (c ++ concat chunks)
  | (t', Err _) => holds_part (ts_inner t') (c ++ concat chunks)
  end.
Proof.
  revert t c. induction chunks as [|b chunks IH]; intros t c Ht; cbn [write_chunks concat]; [by rewrite app_nil_r|].
  destruct Ht as (Hc & Hb & Hcrc & Hlen). unfold write_all.
  assert (holds_part (ts_inner t) (c ++ b ++ concat chunks)) as Hpart by (exists c; split; [by apply prefix_app_r|done]).
  destruct (try_from u64_max (len b)) as [n|] eqn:E1; [|done]. apply try_from_Some in E1 as [-> _].
  destruct (checked_add u64_max (ts_bytes t) (len b)) as [n|] eqn:E2; [|done]. apply checked_add_Some in E2 as [-> E2].
  destruct (sink_write (ts_inner t) b) as [inner [[]|e]] eqn:Es.
  - rewrite (app_assoc c). apply IH. split; [cbn; by rewrite (sink_write_ok _ _ _ Es), Hc, app_assoc|].
    cbn. rewrite Hb, Hcrc, crc32c_app, len_app. rewrite Hb in E2. done.
  - destruct (sink_write_err _ _ _ _ Es) as (k & [r ->] & Ek). exists (c ++ k). split; [|cbn; by rewrite Ek, Hc, app_assoc].
    exists (r ++ concat chunks). by rewrite <- !app_assoc.
Qed.

Lemma encode_spec t items c :
  tracks t c ->
  match encode t items with
  | (t', Ok _) => tracks t' (c ++ to_vec items)
  | (t', Err _) => holds_part (ts_inner t') (c ++ to_vec items)
  end.
Proof.
  intros Ht. unfold encode, to_vec. pose proof (write_chunks_spec t (items ≫= enc) c Ht) as H.
  by destruct (write_chunks t _) as [t' []].
Qed.

(** ** The writer's states *)

Context (o : option bytes).

(** Ready: everything asked for, [es], has been written. *)
Definition ready (w : ChunkWriter (W := W)) (es : list entry) : Prop :=
  w_state w = WriterReady /\ tracks (w_enc w) (chunk_prefix o es) /\
  w_sections w = heading_count es /\ w_events w = block_count es /\
  heading_count es <= u64_max /\ block_count es <= u64_max.

(** Poisoned: a part of some entries has been written. *)
Definition poisoned_with (w : ChunkWriter (W := W)) : Prop :=
  w_state w = WriterPoisoned /\ exists es, Forall entry_ok es /\ grounded es /\ block_count es <= u64_max /\
    holds_part (ts_inner (w_enc w)) (chunk_prefix o es).

(** What an operation that writes [new] leaves; it can succeed only if [full]. *)
Definition leaves (w : ChunkWriter (W := W)) (es new : list entry) (full : Prop) : Prop :=
  (full /\ ready w (es ++ new)) \/ poisoned_with w.

Lemma chunk_prefix_snoc es e : chunk_prefix o (es ++ [e]) = chunk_prefix o es ++ entry_code e.
Proof. unfold chunk_prefix. rewrite codes_app, app_assoc. unfold codes at 2. cbn. by rewrite app_nil_r. Qed.

Lemma part_poisons w es :
  w_state w = WriterPoisoned -> Forall entry_ok es -> grounded es -> block_count es <= u64_max ->
  holds_part (ts_inner (w_enc w)) (chunk_prefix o es) -> poisoned_with w.
Proof. intros. split; [done|]. by exists es. Qed.

Lemma tracks_part t c : tracks t c -> holds_part (ts_inner t) c.
Proof. intros (Hc & _). by exists c. Qed.

Lemma grounded_app es new : (es <> [] \/ grounded new) -> grounded es -> grounded (es ++ new).
Proof. destruct es; [by intros [?|?]|done]. Qed.

Lemma section_spec w es id w' r :
  Forall entry_ok es -> grounded es -> len id <= u64_max -> ready w es -> section w id = (w', r) ->
  match r with Ok _ => ready w' (es ++ [EHeading id]) | Err _ => poisoned_with w' end.
Proof.
  intros He Hg Hid (Hst & Ht & Hs & Hn & Hsb & Hnb). unfold section, ensure_ready. rewrite Hst. cbn [w_sections set_state].
  destruct (checked_add u64_max (w_sections w) 1) as [next|] eqn:E.
  2:{ intros [= <- <-]. apply (part_poisons _ es); try done. by apply tracks_part. }
  apply checked_add_Some in E as [-> E]. cbn [w_enc].
  pose proof (encode_spec (w_enc w) (heading_items (MkHeadingRepr id)) _ Ht) as H. fold (heading_code id) in H.
  change (heading_code id) with (entry_code (EHeading id)) in H. rewrite <- chunk_prefix_snoc in H.
  destruct (encode _ _) as [t [u|e]]; intros [= <- <-].
  - split; [done|]. split; [done|]. cbn [w_sections w_events set_state]. rewrite heading_count_app, block_count_app, Hs, Hn.
    change (heading_count [EHeading id]) with 1. change (block_count [EHeading id]) with 0. lia.
  - apply (part_poisons _ (es ++ [EHeading id])); try done.
    + apply Forall_app. split; [done|]. by constructor.
    + by apply grounded_app; [right|].
    + rewrite block_count_app. change (block_count [EHeading id]) with 0. lia.
Qed.

(** The writer with its state set aside: [write_block] does not look at it. *)
Definition written (w : ChunkWriter (W := W)) (es : list entry) : Prop :=
  tracks (w_enc w) (chunk_prefix o es) /\ w_sections w = heading_count es /\ w_events w = block_count es /\
  heading_count es <= u64_max /\ block_count es <= u64_max.

Lemma write_block_spec w es ev w' r :
  Forall entry_ok es -> grounded es -> es <> [] -> backup_ok ev -> w_state w = WriterPoisoned -> written w es ->
  write_block w ev = (w', r) ->
  w_state w' = WriterPoisoned /\ match r with Ok _ => written w' (es ++ [EBlock ev]) | Err _ => poisoned_with w' end.
Proof.
  intros He Hg Hne Hev Hst (Ht & Hs & Hn & Hsb & Hnb). unfold write_block.
  destruct (checked_add u64_max (w_events w) 1) as [next|] eqn:E.
  2:{ intros [= <- <-]. split; [done|]. apply (part_poisons _ es); try done. by apply tracks_part. }
  apply checked_add_Some in E as [-> E].
  pose proof (encode_spec (w_enc w) (block_items (block_of ev)) _ Ht) as H. fold (block_code ev) in H.
  change (block_code ev) with (entry_code (EBlock ev)) in H. rewrite <- chunk_prefix_snoc in H.
  destruct (encode _ _) as [t [u|e]]; intros [= <- <-]; (split; [done|]).
  - split; [done|]. cbn [w_sections w_events]. rewrite heading_count_app, block_count_app, Hs, Hn.
    change (heading_count [EBlock ev]) with 0. change (block_count [EBlock ev]) with 1. lia.
  - apply (part_poisons _ (es ++ [EBlock ev])); try done.
    + apply Forall_app. split; [done|]. by constructor.
    + by apply grounded_app; [left|].
    + rewrite block_count_app. change (block_count [EBlock ev]) with 1. lia.
Qed.

Lemma written_ready w es : written w es -> ready (set_state w WriterReady) es.
Proof. by intros (? & ? & ? & ? & ?). Qed.

Lemma ready_written w es : ready w es -> written (set_state w WriterPoisoned) es.
Proof. by intros (_ & ? & ? & ? & ? & ?). Qed.

Lemma block_spec w es ev :
  Forall entry_ok es -> grounded es -> es <> [] -> backup_ok ev -> ready w es -> leaves (block w ev).1 es [EBlock ev] True.
Proof.
  intros He Hg Hne Hev Hr. pose proof (ready_written _ _ Hr) as Hw. destruct Hr as (Hst & _).
  unfold block, ensure_ready. rewrite Hst. destruct (write_block _ ev) as [w' r] eqn:E.
  destruct (write_block_spec (set_state w WriterPoisoned) es ev w' r He Hg Hne Hev eq_refl Hw E) as [_ H]. destruct r; [left; split; [done|]; by apply written_ready|by right].
Qed.

Lemma drain_spec w es events :
  Forall entry_ok es -> grounded es -> es <> [] -> Forall backup_ok (source_events events) ->
  w_state w = WriterPoisoned -> written w es -> leaves (drain_source w events).1 es (EBlock <$> source_events events) (source_ended events).
Proof.
  revert w es. induction events as [|e| |ev rest IH]; intros w es He Hg Hne Hev Hst Hw.
  - left. split; [done|]. rewrite app_nil_r. by apply written_ready.
  - right. destruct Hw as (Ht & _ & _ & _ & Hb). apply (part_poisons _ es); try done. by apply tracks_part.
  - right. destruct Hw as (Ht & _ & _ & _ & Hb). apply (part_poisons _ es); try done. by apply tracks_part.
  - cbn [source_events] in *. apply Forall_cons in Hev as [Hev Hrest]. cbn [drain_source]. destruct (write_block w ev) as [w' r] eqn:E.
    destruct (write_block_spec _ _ _ _ _ He Hg Hne Hev Hst Hw E) as [Hst' H]. destruct r; [|by right].
    destruct (IH w' (es ++ [EBlock ev])) as [[Hend Hr]|Hp]; try done; [| |by destruct es| |by right].
    + apply Forall_app. split; [done|]. by constructor.
    + by apply grounded_app; [left|].
    + left. split; [done|]. rewrite fmap_cons. by rewrite <- app_assoc in Hr.
Qed.

Definition op_ok (op : SectionOp) : Prop := Forall backup_ok (op_events op).

Lemma run_op_spec w es op :
  Forall entry_ok es -> grounded es -> es <> [] -> op_ok op -> ready w es -> leaves (run_op w op) es (EBlock <$> op_events op) (op_complete op).
Proof.
  intros He Hg Hne Hop Hr. destruct op as [ev|events]; cbn [run_op op_events].
  - apply block_spec; try done. by inversion Hop.
  - pose proof (ready_written _ _ Hr) as Hw. destruct Hr as (Hst & _). unfold try_extend, ensure_ready. rewrite Hst. by apply drain_spec.
Qed.

(** A poisoned writer refuses everything. *)
Lemma run_op_poisoned w op : w_state w = WriterPoisoned -> run_op w op = w.
Proof. intros Hst. destruct op; cbn [run_op]; unfold block, try_extend, ensure_ready; by rewrite Hst. Qed.

Lemma run_ops_poisoned w ops : w_state w = WriterPoisoned -> fold_left run_op ops w = w.
Proof. intros Hst. induction ops as [|op ops IH]; [done|]. cbn [fold_left]. by rewrite run_op_poisoned. Qed.

Lemma run_program_poisoned w program : w_state w = WriterPoisoned -> run_program w program = w.
Proof.
  intros Hst. unfold run_program. induction program as [|sec program IH]; [done|]. cbn [fold_left].
  unfold run_section at 2. unfold section, ensure_ready. by rewrite Hst.
Qed.

Lemma blocks_ok evs : Forall backup_ok evs -> Forall entry_ok (EBlock <$> evs).
Proof. intros. by apply Forall_fmap. Qed.

Lemma run_ops_spec w es ops :
  Forall entry_ok es -> grounded es -> es <> [] -> Forall op_ok ops -> ready w es ->
  leaves (fold_left run_op ops w) es (EBlock <$> (ops ≫= op_events)) (Forall op_complete ops).
Proof.
  revert w es. induction ops as [|op ops IH]; intros w es He Hg Hne Hops Hr; [left; by rewrite app_nil_r|].
  apply Forall_cons in Hops as [Hop Hops]. cbn [fold_left]. rewrite bind_cons, fmap_app.
  destruct (run_op_spec w es op He Hg Hne Hop Hr) as [[Hc1 Hr1]|[Hst Hp]].
  - destruct (IH _ _ (proj2 (Forall_app _ _ _) (conj He (blocks_ok _ Hop))) (grounded_app _ _ (or_introl Hne) Hg)
      ltac:(by destruct es) Hops Hr1) as [[Hc H]|H]; [left; rewrite app_assoc; split; [by constructor|done]|by right].
  - right. rewrite run_ops_poisoned by done. by split.
Qed.

Definition section_input_ok (sec : bytes * list SectionOp) : Prop := len sec.1 <= u64_max /\ Forall op_ok sec.2.

Lemma run_program_spec w es program :
  Forall entry_ok es -> grounded es -> Forall section_input_ok program -> ready w es ->
  leaves (run_program w program) es (entries_of (program_streams program)) (Forall (fun sec => Forall op_complete sec.2) program).
Proof.
  revert w es. induction program as [|[id ops] program IH]; intros w es He Hg Hin Hr; [left; by rewrite app_nil_r|].
  apply Forall_cons in Hin as [[Hid Hops] Hin]. cbn [fst snd] in *.
  unfold program_streams. rewrite fmap_cons. unfold entries_of. rewrite bind_cons. fold (program_streams program). fold (entries_of (program_streams program)).
  cbn [fst snd]. unfold run_program. cbn [fold_left]. fold (run_program (run_section w (id, ops)) program).
  unfold run_section. cbn [fst snd]. destruct (section w id) as [w1 r] eqn:Es.
  pose proof (section_spec _ _ _ _ _ He Hg Hid Hr Es) as H1. destruct r as [u|e].
  2:{ right. destruct H1 as [Hst H1]. rewrite run_program_poisoned by done. by split. }
  assert (Forall entry_ok (es ++ [EHeading id])) as He1 by (apply Forall_app; split; [done|by constructor]).
  assert (grounded (es ++ [EHeading id])) as Hg1 by (by apply grounded_app; [right|]).
  assert (es ++ [EHeading id] <> []) as Hne1 by (by destruct es).
  destruct (run_ops_spec w1 _ ops He1 Hg1 Hne1 Hops H1) as [[Hc2 H2]|[Hst H2]].
  2:{ right. rewrite run_program_poisoned by done. by split. }
  assert (Forall backup_ok (ops ≫= op_events)) as Hevs by (by apply Forall_bind).
  destruct (IH _ _ (proj2 (Forall_app _ _ _) (conj He1 (blocks_ok _ Hevs))) (grounded_app _ _ (or_introl Hne1) Hg1) Hin H2) as [[Hc H]|H];
    [left|by right]. split; [by constructor|]. rewrite <- !app_assoc in H. exact H.
Qed.

Lemma writer_new_spec sink sink1 w :
  sink_content sink = base -> writer_new sink o = (sink1, Ok w) -> ready w [].
Proof.
  intros Hb. unfold writer_new.
  assert (tracks (MkTracked sink 0 0) []) as Ht by (split; [cbn; by rewrite app_nil_r|]; cbn; by rewrite crc32c_nil).
  pose proof (encode_spec _ (header_items (MkHeaderRepr MAGIC FORMAT_VERSION o)) _ Ht) as H. fold (header_code o) in H.
  destruct (encode _ _) as [t [u|e]]; [|done]. intros [= <- <-]. cbn [app] in H. split; [done|].
  unfold chunk_prefix. change (codes []) with (@nil byte). rewrite app_nil_r. done.
Qed.

End writer.

(** ** Correctness of the format *)

Section correctness.
Context {T : Target} {M : Minicbor} {MS : MinicborSpec} {K : Crc} {KS : CrcSpec}.
Context {W : Type} {SW : Sink W} {SS : SinkSpec W} {R : Type}.

(** A decoded section holds the stream's events, all of them and as they were. *)
Definition restores (stream : bytes * list PersistedEnvelope) (sec : StreamSection) : Prop :=
  origin sec = stream.1 /\
  exists evs, blocks sec = BlockEvent <$> evs /\ Forall persisted_ok evs /\ from_persisted <$> evs = from_persisted <$> stream.2.

Lemma restored_restores stream : Forall backup_ok stream.2 -> restores stream (restored_section stream).
Proof.
  intros Hok. split; [done|]. exists (restored <$> stream.2). split; [cbn; by rewrite <- list_fmap_compose|].
  rewrite Forall_fmap, <- list_fmap_compose. split.
  - eapply Forall_impl; [exact Hok|]. intros ev Hev. by destruct (reconstruct_body_of ev Hev) as (_ & ? & _).
  - induction Hok as [|ev evs Hev _ IH]; [done|]. rewrite !fmap_cons, IH. cbn.
    by destruct (reconstruct_body_of ev Hev) as (_ & _ & ->).
Qed.

Lemma restored_not_corrupt ss : existsb is_corrupt ((restored_section <$> ss) ≫= blocks) = false.
Proof.
  induction ss as [|s ss IH]; [done|]. rewrite fmap_cons, bind_cons, existsb_app, IH, orb_false_r. cbn.
  induction s.2 as [|ev evs IHe]; [done|]. exact IHe.
Qed.

Lemma decode_complete o ss fuel :
  chunk_ok o (entries_of ss) -> (length (complete_chunk o (entries_of ss)) < fuel)%nat ->
  decode_chunk fuel (complete_chunk o (entries_of ss)) = Some (Returns (Ok (restored_section <$> ss))).
Proof.
  intros Hok Hf. unfold decode_chunk. rewrite salvage_complete by done. cbn [completion sections map_err result_bind].
  by rewrite chunk_sections_of, restored_not_corrupt.
Qed.

Lemma salvaged_rejected o es i fuel b :
  salvage_chunk fuel b = Some (Returns (Ok (salvaged_at o es i))) -> exists e, decode_chunk fuel b = Some (Returns (Err e)).
Proof. intros E. unfold decode_chunk. rewrite E. by eexists. Qed.

(** A prefix of the unfinished bytes. *)
Lemma part_rejected o es k fuel :
  from_option (fun b => len b <= u64_max) True o -> Forall entry_ok es -> grounded es -> block_count es <= u64_max ->
  k `prefix_of` chunk_prefix o es -> (length k < fuel)%nat -> exists e, decode_chunk fuel k = Some (Returns (Err e)).
Proof.
  intros Ho He Hg Hb [rest E] Hf. unfold chunk_prefix in E. apply app_eq_inv in E as [(m & E1 & E2)|(m & -> & E)].
  - destruct m as [|x m].
    + rewrite app_nil_r in E1. subst k. destruct (salvage_cut_entries o es [] rest fuel Ho He Hg Hb) as (i & _ & Hi); [by rewrite E2|by rewrite app_nil_r|].
      rewrite app_nil_r in Hi. by eapply salvaged_rejected.
    + destruct (salvage_cut_header o k (x :: m) fuel Ho E1) as [e Hs]; [done|]. exists e. unfold decode_chunk. by rewrite Hs.
  - destruct (salvage_cut_entries o es m rest fuel Ho He Hg Hb E Hf) as (i & _ & Hi). by eapply salvaged_rejected.
Qed.

Lemma entries_of_grounded ss : grounded (entries_of ss).
Proof. by destruct ss. Qed.

Lemma streams_ok (program : list (bytes * list (SectionOp (R := R)))) :
  Forall section_input_ok program -> Forall (fun s => len s.1 <= u64_max /\ Forall backup_ok s.2) (program_streams program).
Proof.
  intros H. unfold program_streams. apply Forall_fmap. eapply Forall_impl; [exact H|]. intros [id ops] [Hid Hops]. cbn in *.
  split; [done|]. by apply Forall_bind.
Qed.

Lemma entries_of_ok ss :
  Forall (fun s => len s.1 <= u64_max /\ Forall backup_ok s.2) ss -> Forall entry_ok (entries_of ss).
Proof.
  intros H. unfold entries_of. apply Forall_bind. eapply Forall_impl; [exact H|]. intros s [Hid Hevs].
  constructor; [done|]. by apply blocks_ok.
Qed.

(** What a successful [finish] leaves in the sink. *)
Lemma finish_spec sink o (program : list (bytes * list (SectionOp (R := R)))) sink1 w sink' :
  from_option (fun b => len b <= u64_max) True o -> Forall section_input_ok program ->
  writer_new sink o = (sink1, Ok w) -> finish (run_program w program) = (sink', Ok ()) ->
  let es := entries_of (program_streams program) in
  Forall (fun sec => Forall op_complete sec.2) program /\ chunk_ok o es /\
  sink_content sink' = sink_content sink ++ complete_chunk o es.
Proof.
  intros Ho Hin Hnew Hfin es. pose proof (entries_of_ok _ (streams_ok program Hin)) as Hes.
  pose proof (writer_new_spec (sink_content sink) o sink sink1 w eq_refl Hnew) as Hr.
  destruct (run_program_spec (sink_content sink) o w [] program) as [[Hfull Hready]|[Hst _]]; try done;
    unfold finish, ensure_ready in Hfin; [|by rewrite Hst in Hfin].
  destruct Hready as (Hst & Ht & Hs & Hn & Hsb & Hnb). rewrite Hst in Hfin. cbn [app] in *. fold es in Hes, Ht, Hs, Hn, Hsb, Hnb.
  assert (completion_of o es = to_vec (completion_items (run_program w program))) as Hcomp.
  { unfold completion_of, completion_code, completion_items. destruct Ht as (_ & -> & -> & _). by rewrite Hs, Hn. }
  pose proof (encode_spec (sink_content sink) _ (completion_items (run_program w program)) _ Ht) as H. rewrite <- Hcomp in H.
  destruct (encode _ _) as [t r]. injection Hfin as <- ->. destruct H as (Hc & _). split; [done|]. split; [|done].
  split; try done; [apply entries_of_grounded|apply Ht].
Qed.

Lemma restored_all ss :
  Forall (fun s => len s.1 <= u64_max /\ Forall backup_ok s.2) ss -> Forall2 restores ss (restored_section <$> ss).
Proof.
  intros Hss. apply Forall2_fmap_r, Forall_Forall2_diag. eapply Forall_impl; [exact Hss|]. intros s [_ Hs]. by apply restored_restores.
Qed.

(** What a writer leaves in the sink when it is given up. *)
Lemma unfinished_spec sink o (program : list (bytes * list (SectionOp (R := R)))) sink1 w :
  Forall section_input_ok program -> writer_new sink o = (sink1, Ok w) ->
  exists es, Forall entry_ok es /\ grounded es /\ block_count es <= u64_max /\
    holds_part (sink_content sink) (into_unfinished_sink (run_program w program)) (chunk_prefix o es).
Proof.
  intros Hin Hnew. pose proof (entries_of_ok _ (streams_ok program Hin)) as Hes.
  pose proof (writer_new_spec (sink_content sink) o sink sink1 w eq_refl Hnew) as Hr.
  destruct (run_program_spec (sink_content sink) o w [] program) as [(_ & _ & Ht & _ & _ & _ & Hnb)|[_ Hp]]; try done.
  eexists. split; [exact Hes|]. split; [apply entries_of_grounded|]. split; [done|]. by apply tracks_part.
Qed.

Lemma salvaged_whole o ss k i fuel :
  whole_records o (entries_of ss) k (take i (entries_of ss)) ->
  salvage_chunk fuel k = Some (Returns (Ok (salvaged_at o (entries_of ss) i))) ->
  exists s whole, salvage_chunk fuel k = Some (Returns (Ok s)) /\ completion s = Err Missing /\
    header s = MkChunkHeader FORMAT_VERSION o /\
    whole_records o (entries_of ss) k whole /\ sections s = chunk_sections whole /\
    partial_of (sections s) (restored_section <$> ss).
Proof.
  intros Hw Hi. eexists _, _. split; [exact Hi|]. split; [done|]. split; [done|]. split; [exact Hw|]. split; [done|].
  rewrite <- chunk_sections_of. apply partial_take.
Qed.

(** C14: a backup decodes exactly when it was finished.  Whatever sections, blocks and
    drains a caller asks of a writer, in any order and going on after errors, and
    wherever the sink or a source fails or a drain is dropped: if [finish] succeeds,
    every source was read to its end and the bytes written decode to every stream
    asked for, in order, with all of its events and their fields; and if the writer
    is given up instead, the bytes it leaves are refused. *)
Theorem chunk_decodes_iff_finished sink o (program : list (bytes * list (SectionOp (R := R)))) sink1 w :
  from_option (fun b => len b <= u64_max) True o -> Forall section_input_ok program ->
  writer_new sink o = (sink1, Ok w) ->
  let w' := run_program w program in
  (forall sink', finish w' = (sink', Ok ()) ->
     Forall (fun sec => Forall op_complete sec.2) program /\
     exists out, sink_content sink' = sink_content sink ++ out /\ decode_header out = Ok (MkChunkHeader FORMAT_VERSION o) /\
       forall fuel, (length out < fuel)%nat ->
         exists secs, decode_chunk fuel out = Some (Returns (Ok secs)) /\ Forall2 restores (program_streams program) secs) /\
  (exists out, sink_content (into_unfinished_sink w') = sink_content sink ++ out /\
     forall fuel, (length out < fuel)%nat -> exists e, decode_chunk fuel out = Some (Returns (Err e))).
Proof.
  intros Ho Hin Hnew w'. split.
  - intros sink' Hfin. destruct (finish_spec _ _ _ _ _ _ Ho Hin Hnew Hfin) as (Hfull & Hok & Hc). split; [done|].
    eexists. split; [exact Hc|]. split; [unfold decode_header, complete_chunk, chunk_prefix; by rewrite <- app_assoc, header_at_ok|].
    intros fuel Hf. eexists. split; [by apply decode_complete|]. by apply restored_all, streams_ok.
  - destruct (unfinished_spec _ o _ _ _ Hin Hnew) as (es & He & Hg & Hb & k & Hk & Hc).
    exists k. split; [done|]. intros fuel Hf. by eapply part_rejected.
Qed.


(** C33: decoding arbitrary bytes always ends, never panics, and whatever it accepts
    consists of valid events: field ranges within the frame, a UTF-8 event type,
    lengths within the caps and no corrupt block. *)
Theorem decode_chunk_sound b fuel :
  (length b < fuel)%nat ->
  exists r, decode_chunk fuel b = Some (Returns r) /\
    forall secs, r = Ok secs ->
      Forall (fun sec => exists evs, blocks sec = BlockEvent <$> evs /\ Forall persisted_ok evs) secs.
Proof.
  intros Hf. destruct (salvage_sound fuel b Hf) as (r & E & Hr). unfold decode_chunk. rewrite E.
  destruct r as [s|e]; [|by eexists]. eexists. split; [done|]. intros secs.
  destruct (completion s) as [[]|]; cbn [map_err result_bind]; [|done].
  destruct (existsb is_corrupt _) eqn:Hx; [done|]. intros [= <-]. specialize (Hr s eq_refl).
  rewrite Forall_forall. intros sec Hsec. unfold sections_valid in Hr. rewrite Forall_forall in Hr. specialize (Hr sec Hsec).
  assert (Forall (fun b => is_corrupt b = false) (blocks sec)) as Hnc.
  { rewrite Forall_forall. intros b' Hb'. destruct (is_corrupt b') eqn:Hb; [|done].
    assert (existsb is_corrupt (sections s ≫= blocks) = true) as Ht; [|congruence]. apply existsb_exists. exists b'.
    split; [|done]. apply list_elem_of_In, list_elem_of_bind. by exists sec. }
  clear Hx Hsec. induction (blocks sec) as [|b' bs IH]; [by exists []|].
  apply Forall_cons in Hr as [Hv Hr], Hnc as [Hc Hnc]. destruct (IH Hr Hnc) as (evs & -> & Hevs).
  destruct b' as [ev|]; [|done]. exists (ev :: evs). split; [done|]. by constructor.
Qed.

End correctness.
