(* ===== verification/Export.v ===== *)
(** * Consistent export (crates/store/src/export.rs, adapters/inmemory/src/export.rs)

    A session freezes the heads of all streams under the store's lock; every cursor
    it opens reads up to those heads, while other tasks go on appending, until the
    session's deadline.  Instants are numbers, and each poll has the instant it
    happens at. *)

From S2P Require Import Prelude ErrorId Version Value Wire Envelope RawStore Wake Import Log InMemory.

Inductive ExportError (E : Type) : Type :=
| ExportStore (e : E)
| InvalidLifetime (lifetime : Z)
| Expired.
Arguments ExportStore {E} _.
Arguments InvalidLifetime {E} _.
Arguments Expired {E}.

(** [Iterator::take_while]. *)
Fixpoint take_while {A} (p : A -> bool) (l : list A) : list A :=
  match l with
  | [] => []
  | x :: l => if p x then x :: take_while p l else []
  end.

Section export.
Context {T : Target}.
(** The largest [Instant]. *)
Context (instant_max : Z).

Notation Error := (ExportError InMemoryStoreError).

Record ExportSession : Type := MkExportSession {
  es_heads : gmap StreamKey Z;
  es_batch_size : BatchSize;
  es_deadline : Z;
}.

Definition open_export_session (i : Inner) (batch_size : BatchSize) (now lifetime : Z) : result ExportSession Error :=
  if lifetime =? 0 then Err (InvalidLifetime lifetime)
  else
    let? deadline := ok_or (checked_add instant_max now lifetime) (InvalidLifetime lifetime) in
    let heads := omap (fun rows => sf_version <$> last rows) (streams i) in
    Ok (MkExportSession heads batch_size deadline).

Definition check_live (s : ExportSession) (now : Z) : result () Error :=
  if es_deadline s <=? now then Err Expired else Ok ().

(** ** Cursors *)

(** [InMemoryExportCursor]; [S] is the state of the stream inside. *)
Record ExportCursor (S : Type) : Type := MkExportCursor { ec_inner : option S; ec_deadline : Z }.
Arguments MkExportCursor {S} _ _.
Arguments ec_inner {S} _.
Arguments ec_deadline {S} _.

Definition export_poll {S A} (next : S -> option (result A Error * S)) (now : Z) (c : ExportCursor S)
  : option (result A Error) * ExportCursor S :=
  match ec_inner c with
  | None => (None, c)
  | Some s =>
      if ec_deadline c <=? now then (Some (Err Expired), MkExportCursor None (ec_deadline c))
      else
        match next s with
        | None => (None, MkExportCursor None (ec_deadline c))
        | Some (Err e, _) => (Some (Err e), MkExportCursor None (ec_deadline c))
        | Some (Ok item, s) => (Some (Ok item), MkExportCursor (Some s) (ec_deadline c))
        end
  end.

(** The ids, in the order of the map. *)
Definition session_list_streams (s : ExportSession) (now : Z) : result (ExportCursor (list StreamKey)) Error :=
  let? _ := check_live s now in
  Ok (MkExportCursor (Some (map_to_list (es_heads s)).*1) (es_deadline s)).

Definition next_id (ids : list StreamKey) : option (result StreamKey Error * list StreamKey) :=
  match ids with [] => None | id :: ids => Some (Ok id, ids) end.

(** The state of [export_stream]'s [unfold]: the version to read next and the rows
    read ahead. *)
Record Unfold : Type := MkUnfold { uf_next : option Version; uf_buffer : list StoredFrame }.

(** The rows read when the buffer is empty; [None] ends the stream. *)
Definition export_page (i : Inner) (key : StreamKey) (head : option Z) (batch_size : BatchSize) (next : option Version)
  : option (list StoredFrame) :=
  start ← next;
  ceiling ← head;
  if ceiling <? as_u64 start then None
  else
    history ← streams i !! key;
    let first := partition_point (fun row => sf_version row <? as_u64 start) history in
    Some (take (Z.to_nat (BatchSize.get batch_size))
            (take_while (fun row => sf_version row <=? ceiling) (drop first history))).

Definition next_event (i : Inner) (key : StreamKey) (head : option Z) (batch_size : BatchSize) (u : Unfold)
  : option (result PersistedEnvelope Error * Unfold) :=
  buffer ← (match uf_buffer u with
            | [] => export_page i key head batch_size (uf_next u)
            | buffer => Some buffer
            end);
  match buffer with
  | [] => None
  | row :: buffer =>
      let envelope := map_err ExportStore (frame_to_envelope row) in
      let following := match envelope with Ok event => next (ps_version event) | Err _ => None end in
      Some (envelope, MkUnfold following buffer)
  end.

Definition session_export_stream (s : ExportSession) (id : StreamKey) (from : Version) (now : Z)
  : result (ExportCursor Unfold) Error :=
  let? _ := check_live s now in
  Ok (MkExportCursor (Some (MkUnfold (Some from) [])) (es_deadline s)).

(** The results of polls at given instants, each on the store as it then is. *)
Fixpoint export_drive (s : ExportSession) (key : StreamKey) (polls : list (Z * Inner)) (c : ExportCursor Unfold)
  : list (option (result PersistedEnvelope Error)) :=
  match polls with
  | [] => []
  | (now, i) :: polls =>
      let '(r, c) := export_poll (next_event i key (es_heads s !! key) (es_batch_size s)) now c in
      r :: export_drive s key polls c
  end.

(** ** Correctness *)

Lemma head_of l i id :
  represents l i ->
  omap (fun rows => sf_version <$> last rows) (streams i) !! id =
    (if decide (log_stream id l = []) then None else Some (len (log_stream id l))).
Proof.
  intros Hr. rewrite lookup_omap. pose proof (rep_streams _ _ Hr id) as Hs.
  destruct (decide (log_stream id l = [])) as [E|Hne].
  - rewrite E in Hs. destruct (streams i !! id); cbn in *; [by subst|done].
  - destruct (streams i !! id) as [rows|]; cbn in *; [|by destruct (log_stream id l)]. subst rows.
    destruct (exists_last Hne) as (envs & pe & E). rewrite E, fmap_app. cbn [fmap list_fmap]. rewrite last_snoc. cbn [fmap option_fmap option_map].
    f_equal. cbn [frame_of sf_version].
    pose proof (rep_versions _ _ Hr id) as Hc. rewrite E in Hc.
    rewrite (stream_version _ (length envs) pe Hc) by (rewrite lookup_app_r, Nat.sub_diag by lia; done).
    rewrite len_app. unfold len. cbn. lia.
Qed.

Lemma take_while_consecutive start ceiling envs :
  consecutive start (versions envs) ->
  take_while (fun row => sf_version row <=? ceiling) (frame_of <$> envs) = frame_of <$> take (Z.to_nat (ceiling - start + 1)) envs.
Proof.
  revert start. induction envs as [|pe envs IH]; intros start; [by rewrite take_nil|].
  intros [Hv Hc]. rewrite fmap_cons. cbn [take_while]. cbn [frame_of sf_version].
  destruct (Z.leb_spec (as_u64 (pe_version pe)) ceiling).
  - rewrite (IH (start + 1)) by done. replace (Z.to_nat (ceiling - start + 1)) with (S (Z.to_nat (ceiling - (start + 1) + 1))) by lia. done.
  - by replace (Z.to_nat (ceiling - start + 1)) with O by lia.
Qed.

(** A page of the frozen stream, read from a store that may have grown. *)
Lemma export_page_spec l l' i id batch_size v :
  represents l' i -> l `prefix_of` l' -> as_u64 v <= len (log_stream id l) ->
  export_page i id (Some (len (log_stream id l))) batch_size (Some v) =
    Some (frame_of <$> take (Z.to_nat (BatchSize.get batch_size)) (drop (Z.to_nat (as_u64 v - 1)) (log_stream id l))).
Proof.
  intros Hr Hpre Hv. unfold export_page. cbn [mbind option_bind]. rewrite ltb_false by done.
  pose proof (version_range v). pose proof (rep_streams _ _ Hr id) as Hs. pose proof (rep_versions _ _ Hr id) as Hc.
  destruct (log_stream_prefix id l l' Hpre) as [k Hk]. rewrite Hk in *.
  destruct (streams i !! id) as [rows|]; cbn in Hs |- *.
  2:{ destruct (log_stream id l); [rewrite len_nil in Hv; lia|done]. }
  subst rows. f_equal. rewrite (partition_point_consecutive _ _ 1) by done.
  rewrite Nat.min_l by (rewrite length_app; unfold len in Hv; lia).
  rewrite <- fmap_drop, (take_while_consecutive (as_u64 v)).
  2:{ unfold versions. rewrite fmap_drop. replace (as_u64 v) with (1 + Z.of_nat (Z.to_nat (as_u64 v - 1))) at 1 by lia. by apply consecutive_drop. }
  rewrite <- fmap_take. do 2 f_equal. rewrite drop_app_le by (unfold len in Hv; lia).
  rewrite take_app_le; [|rewrite length_drop; unfold len; lia]. apply take_ge. rewrite length_drop. unfold len. lia.
Qed.
(** The stream inside a cursor has version [v] of the frozen stream [envs] next. *)
Definition unfold_at (envs : list PendingEnvelope) (u : Unfold) (v : Z) : Prop :=
  1 <= v /\ uf_next u = new v /\ uf_buffer u `prefix_of` frame_of <$> drop (Z.to_nat (v - 1)) envs.

Lemma next_event_spec l l' i id batch_size u v :
  represents l i -> forall i', represents l' i' -> l `prefix_of` l' -> unfold_at (log_stream id l) u v ->
  let head := omap (fun rows => sf_version <$> last rows) (streams i) !! id in
  match log_stream id l !! Z.to_nat (v - 1) with
  | None => next_event i' id head batch_size u = None
  | Some pe => exists env u', next_event i' id head batch_size u = Some (Ok env, u') /\
      frame_to_envelope (frame_of pe) = Ok env /\ unfold_at (log_stream id l) u' (v + 1)
  end.
Proof.
  intros Hr i' Hr' Hpre (Hv1 & Hn & Hb). cbv zeta. unfold next_event. rewrite (head_of l i id Hr). set (envs := log_stream id l) in *.
  destruct (envs !! Z.to_nat (v - 1)) as [pe|] eqn:Hpe.
  - assert (Z.to_nat (v - 1) < length envs)%nat as Hlt by (by eapply lookup_lt_Some).
    destruct (log_stream_ok l i id Hr) as [(Hok & Hc & Hmax) Hfit]. fold envs in Hok, Hc, Hmax, Hfit.
    rewrite Forall_lookup in Hok, Hfit. destruct (frame_reads_back pe (Hok _ _ Hpe) (Hfit _ _ Hpe)) as (env & Hread & Henv & Hfrom).
    assert (as_u64 (ps_version env) = v) as Hver.
    { change (ps_version env) with (pe_version (from_persisted env)). rewrite Hfrom, (stream_version _ _ _ Hc Hpe). lia. }
    assert (exists rest, (match uf_buffer u with
       | [] => export_page i' id (if decide (envs = []) then None else Some (len envs)) batch_size (uf_next u)
       | buffer => Some buffer end) = Some (frame_of pe :: rest) /\
       rest `prefix_of` frame_of <$> drop (Z.to_nat (v + 1 - 1)) envs) as (rest & -> & Hrest).
    { rewrite (drop_S envs pe _ Hpe), fmap_cons in Hb. replace (Z.to_nat (v + 1 - 1)) with (S (Z.to_nat (v - 1))) by lia.
      destruct (uf_buffer u) as [|row buffer].
      - rewrite decide_False by (intros ->; cbn in Hlt; lia). rewrite Hn.
        destruct (new_in_range v) as (w & -> & Hw); [unfold len in Hmax; lia|].
        unfold envs. rewrite (export_page_spec l l' i' id batch_size w Hr' Hpre) by (fold envs; unfold len; lia). fold envs. rewrite Hw.
        pose proof (nz_range (bs_value batch_size)) as Hbs. rewrite (drop_S envs pe _ Hpe).
        replace (Z.to_nat (BatchSize.get batch_size)) with (S (Z.to_nat (BatchSize.get batch_size - 1))) by (unfold BatchSize.get; lia).
        exists (frame_of <$> take (Z.to_nat (BatchSize.get batch_size - 1)) (drop (S (Z.to_nat (v - 1))) envs)).
        split; [done|]. rewrite fmap_take. apply prefix_take.
      - pose proof (prefix_cons_inv_1 _ _ _ _ Hb) as ->. eexists. split; [done|]. by apply prefix_cons_inv_2 in Hb. }
    cbn [mbind option_bind]. rewrite Hread. cbn [map_err]. eexists _, _. split; [done|]. split; [done|].
    split; [lia|]. split; [|done]. cbn [uf_next]. by rewrite next_new, Hver.
  - apply lookup_ge_None in Hpe. rewrite drop_ge in Hb by done. apply prefix_nil_inv in Hb. rewrite Hb.
    unfold export_page. destruct (uf_next u) as [w|]; [|done]. cbn [mbind option_bind].
    destruct (decide (envs = [])); [done|]. cbn [mbind option_bind].
    symmetry in Hn. apply new_Some in Hn. rewrite (proj2 (Z.ltb_lt _ _)); [done|]. unfold len. lia.
Qed.

Lemma export_drive_fused s key polls c : ec_inner c = None -> export_drive s key polls c = replicate (length polls) None.
Proof.
  revert c. induction polls as [|[now i] polls IH]; intros c Hc; [done|]. cbn [export_drive length replicate]. unfold export_poll. rewrite Hc.
  by rewrite IH.
Qed.

(** The polls of a cursor: the frozen stream, or a part of it and the expiry. *)
Lemma export_drive_spec l l' i batch_size id polls lf c u v evs :
  let s := MkExportSession (omap (fun rows => sf_version <$> last rows) (streams i)) batch_size (ec_deadline c) in
  represents l i -> l `prefix_of` l' -> grows l' polls.*2 lf -> ec_inner c = Some u -> unfold_at (log_stream id l) u v ->
  Forall2 (fun pe env => frame_to_envelope (frame_of pe) = Ok env) (drop (Z.to_nat (v - 1)) (log_stream id l)) evs ->
  export_drive s id polls c = ended (length polls) (Ok <$> evs) \/
  exists pre, pre `prefix_of` evs /\ Exists (fun p => ec_deadline c <= p.1) polls /\
    export_drive s id polls c = ended (length polls) ((Ok <$> pre) ++ [Err Expired]).
Proof.
  cbv zeta. intros Hr. revert l' c u v evs. induction polls as [|[now i'] polls IH]; intros l' c u v evs Hpre Hg Hc Hu Hevs; [by left|].
  csimpl in Hg. inversion Hg as [|? l1 ? ? ? Hpre1 Hr1 Hg1]; subst. assert (l `prefix_of` l1) as Hl1 by (by etrans).
  cbn [export_drive es_heads es_batch_size length ended]. unfold export_poll. rewrite Hc.
  destruct (Z.leb_spec (ec_deadline c) now) as [Hexp|Hlive].
  { right. exists []. split; [apply prefix_nil|]. split; [by left|]. rewrite export_drive_fused by done. cbn. by rewrite ended_nil. }
  pose proof (next_event_spec l l1 i id batch_size u v Hr i' Hr1 Hl1 Hu) as Hstep. cbv zeta in Hstep.
  destruct (log_stream id l !! Z.to_nat (v - 1)) as [pe|] eqn:Hpe.
  - destruct Hstep as (env & u' & -> & Hread & Hu'). rewrite (drop_S _ _ _ Hpe) in Hevs.
    apply Forall2_cons_inv_l in Hevs as (env' & evs' & Hread' & Hevs & ->). assert (env' = env) as -> by congruence.
    destruct Hu as [Hv1 _]. replace (S (Z.to_nat (v - 1))) with (Z.to_nat (v + 1 - 1)) in Hevs by lia.
    destruct (IH l1 (MkExportCursor (Some u') (ec_deadline c)) u' (v + 1) evs' Hl1 Hg1 eq_refl Hu' Hevs) as [Hout|(pre & Hp & Hex & Hout)];
      cbn [ec_deadline] in *.
    + left. cbn. by rewrite Hout.
    + right. exists (env :: pre). split; [by apply prefix_cons|]. split; [by right|]. cbn. by rewrite Hout.
  - rewrite Hstep. left. apply lookup_ge_None in Hpe. rewrite drop_ge in Hevs by done. apply Forall2_nil_inv_l in Hevs as ->.
    rewrite export_drive_fused by done. cbn. by rewrite ended_nil.
Qed.

(** The events of a stream of the store read back. *)
Lemma log_stream_reads_back l i id n :
  represents l i ->
  exists evs, Forall2 (fun pe env => frame_to_envelope (frame_of pe) = Ok env) (drop n (log_stream id l)) evs /\
    from_persisted <$> evs = drop n (log_stream id l) /\ Forall persisted_ok evs.
Proof.
  intros Hr. destruct (log_stream_ok l i id Hr) as [(Hok & _ & _) Hfit].
  assert (Forall (fun pe => pending_ok pe /\ fits pe) (drop n (log_stream id l))) as Hall.
  { apply Forall_drop. rewrite Forall_forall in *. auto. }
  induction Hall as [|pe envs [Hp Hf] _ (evs & Hb & Hfrom & Hpe)]; [by exists []|].
  destruct (frame_reads_back pe Hp Hf) as (env & ? & ? & ?). exists (env :: evs). split; [by constructor|].
  split; [by rewrite fmap_cons, Hfrom; f_equal|by constructor].
Qed.

(** The streams of a session. *)
Lemma session_streams l i batch_size now lifetime s k :
  represents l i -> open_export_session i batch_size now lifetime = Ok s ->
  k ∈ (map_to_list (es_heads s)).*1 <-> log_stream k l <> [].
Proof.
  intros Hr Hopen. unfold open_export_session in Hopen. destruct (lifetime =? 0); [done|].
  apply result_bind_Ok in Hopen as (deadline & _ & Hopen). injection Hopen as <-. cbn [es_heads]. rewrite list_elem_of_fmap. split.
  - intros ([k' n] & -> & Hk). apply elem_of_map_to_list in Hk. rewrite (head_of l i k' Hr) in Hk. by case_decide.
  - intros Hne. pose proof (head_of l i k Hr) as Hk. rewrite decide_False in Hk by done.
    apply elem_of_map_to_list in Hk. by exists (k, len (log_stream k l)).
Qed.

(** What the polls of a session's cursor deliver. *)
Lemma session_polls l i batch_size now lifetime s id from opened c polls lf :
  represents l i -> open_export_session i batch_size now lifetime = Ok s ->
  session_export_stream s id from opened = Ok c -> grows l polls.*2 lf ->
  exists evs, from_persisted <$> evs = drop (Z.to_nat (as_u64 from - 1)) (log_stream id l) /\ Forall persisted_ok evs /\
    (export_drive s id polls c = ended (length polls) (Ok <$> evs) \/
     exists pre, pre `prefix_of` evs /\ Exists (fun p => es_deadline s <= p.1) polls /\
       export_drive s id polls c = ended (length polls) ((Ok <$> pre) ++ [Err Expired])).
Proof.
  intros Hr Hopen Hexp Hg. unfold open_export_session in Hopen. destruct (lifetime =? 0); [done|].
  apply result_bind_Ok in Hopen as (deadline & _ & Hopen). injection Hopen as <-. unfold session_export_stream in Hexp.
  apply result_bind_Ok in Hexp as (u & _ & Hexp). injection Hexp as <-. cbn [es_heads es_deadline].
  destruct (log_stream_reads_back l i id (Z.to_nat (as_u64 from - 1)) Hr) as (evs & Hevs & Hfrom & Hok).
  exists evs. split; [done|]. split; [done|]. pose proof (version_range from).
  apply (export_drive_spec l l i batch_size id polls lf (MkExportCursor (Some (MkUnfold (Some from) [])) deadline) (MkUnfold (Some from) []) (as_u64 from));
    try done.
  split; [lia|]. split; [cbn; by rewrite new_as_u64|apply prefix_nil].
Qed.

(** An export session sees the store as it was when the session was opened.
    Whatever is appended meanwhile, listing gives exactly the streams that had
    events then, and a cursor on a stream, at whatever instants it is polled,
    delivers the events that stream had then from the requested version on, in
    order, and ends for good; past the deadline it delivers a part of them and the
    expiry instead. *)
Theorem export_session_frozen l i batch_size now lifetime s id from opened c polls lf :
  represents l i -> open_export_session i batch_size now lifetime = Ok s ->
  session_export_stream s id from opened = Ok c -> grows l polls.*2 lf ->
  (forall k, k ∈ (map_to_list (es_heads s)).*1 <-> log_stream k l <> []) /\
  exists evs, from_persisted <$> evs = drop (Z.to_nat (as_u64 from - 1)) (log_stream id l) /\ Forall persisted_ok evs /\
    (export_drive s id polls c = ended (length polls) (Ok <$> evs) \/
     exists pre, pre `prefix_of` evs /\ Exists (fun p => es_deadline s <= p.1) polls /\
       export_drive s id polls c = ended (length polls) ((Ok <$> pre) ++ [Err Expired])).
Proof. intros Hr Ho Hc Hg. split; [intros k; by eapply session_streams|by eapply session_polls]. Qed.

End export.
