(* ===== verification/FjallExport.v ===== *)
(** * Export sessions of the embedded adapter (adapters/fjall/src/export.rs)

    A session is a view: an engine snapshot the worker keeps in its registry until
    the session's deadline or close.  A cursor of the session fetches its rows in
    batches, each fetch a job that looks the view up, opens a fresh iterator where
    the last one stopped and closes it again.  What happens to one fetch, and the
    state of the registry when the worker runs it, is chosen by the environment. *)

From stdpp Require Import sorting.
From S2P Require Import Prelude Utf8 ErrorId Version Value Wire Envelope RawStore Repository Checkpoint State.
From S2P Require Import Wake Import Log WireKey Lsm Fjall FjallSpec FjallContract FjallState FjallBlocking FjallAsync.
From S2P Require Import InMemory Export.

Section export.
Context {T : Target} {AS : ArrayString} {W : Watch} {L : Lsm}.
(** The largest [Instant]. *)
Context (instant_max : Z).

Notation Error := (ExportError FjallError).

(** ** Views *)

Record View : Type := MkView { view_snapshot : Db; view_deadline : Z }.
Record Views : Type := MkViews { active : gmap Z View; views_next_id : option Z }.
Record Lease : Type := MkLease { lease_id : Z; lease_deadline : Z }.

Definition views_default : Views := MkViews ∅ (Some 1).

Definition expire (now : Z) (v : Views) : Views :=
  MkViews (filter (fun e => now < view_deadline e.2) (active v)) (views_next_id v).

(** The earliest deadline: when the worker's timer is to fire. *)
Definition views_deadline (v : Views) : option Z :=
  fold_left (fun acc d => Some (from_option (Z.min d) d acc)) (view_deadline <$> (map_to_list (active v)).*2) None.

Definition views_get (v : Views) (id now : Z) : result Db Error :=
  let? view := ok_or (active v !! id) Expired in
  if view_deadline view <=? now then Err Expired else Ok (view_snapshot view).

(** [Views::open]; [db.read_tx()] is the database as it is. *)
Definition views_open (v : Views) (s : Storage) (lifetime now : Z) : Views * result Lease Error :=
  match views_next_id v with
  | None => (v, Err (ExportStore FjallError.ExportSessionIdOverflow))
  | Some id =>
      match (deadline ← checked_add instant_max now lifetime; if lifetime =? 0 then None else Some deadline) with
      | None => (v, Err (InvalidLifetime lifetime))
      | Some deadline =>
          (MkViews (<[id := MkView (st_db s) deadline]> (active v)) (checked_add u64_max id 1), Ok (MkLease id deadline))
      end
  end.

(** The cleanup of a lease. *)
Definition views_remove (v : Views) (id : Z) : Views := MkViews (delete id (active v)) (views_next_id v).

(** [open_export_session]: [now] at the call, [worker_now] when the worker runs it. *)
Definition fjall_open_export_session (s : Storage) (v : Views) (lifetime now : Z) (slot : option TrySendError)
  (a : Admission) (worker_now : Z) : Views * result Lease Error :=
  if (lifetime =? 0) || bool_decide (checked_add instant_max now lifetime = None) then (v, Err (InvalidLifetime lifetime))
  else
    match reserve_cursor slot with
    | Err e => (v, Err (ExportStore e))
    | Ok _ =>
        match a with
        | QueueClosed => (v, Err (ExportStore FjallError.WorkerQueueClosed))
        | Canceled => (v, Err (ExportStore FjallError.WorkerResponseCanceled))
        | Executed => views_open v s lifetime worker_now
        end
    end.

(** [close]: the cleanup, and word that it has run. *)
Definition session_close (v : Views) (lease : Lease) (a : Admission) : Views * result () Error :=
  match a with
  | Executed => (views_remove v (lease_id lease), Ok ())
  | _ => (v, Err (ExportStore FjallError.WorkerResponseCanceled))
  end.

(** ** Scans of a session *)

(** [SessionScan]; [advance] gives the scan behind an item, or none when there can
    be no more. *)
Class SessionScan (S : Type) := {
  scan_cursor : Type;
  scan_cursor_rows :: RowCursor scan_cursor;
  session_scan_open : S -> Db -> result scan_cursor FjallError;
  advance : S -> RowItem (C := scan_cursor) -> option S;
}.

Record Listing : Type := MkListing { list_after : option StreamKey }.
Record EventsScan : Type := MkEventsScan { events_id : StreamKey; events_from : Version }.

#[export] Instance listing_scan : SessionScan Listing := {
  scan_cursor := StreamIdCursor;
  session_scan_open scan snapshot := Ok (MkStreamIdCursor (stream_ids_after snapshot (list_after scan)) false);
  advance scan item := Some (MkListing (Some item));
}.

#[export] Instance events_scan : SessionScan EventsScan := {
  scan_cursor := ScanCursor StreamScan;
  session_scan_open scan snapshot :=
    open_snapshot snapshot Events (MkStreamScan (events_id scan) (error_id (events_id scan))) (events_from scan);
  advance scan item := MkEventsScan (events_id scan) <$> next (ps_version item);
}.

Section cursor.
Context {Q : Type} {SQ : SessionScan Q}.
Notation Row := (result (RowItem (C := scan_cursor)) Error).

Record SessionBatch : Type := MkSessionBatch { sb_scan : option Q; sb_rows : list Row }.

(** The loop of [fetch]. *)
Fixpoint session_fetch_loop (n : nat) (c : scan_cursor) (scan : Q) (config : BlockingConfig) (rows : list Row) (bytes : Z)
  : SessionBatch :=
  match n with
  | O => MkSessionBatch (Some scan) rows
  | S n =>
      match next_row c with
      | (None, _) => MkSessionBatch None rows
      | (Some (Err e, _), _) => MkSessionBatch None (rows ++ [Err (ExportStore e)])
      | (Some (Ok item, size), c) =>
          match checked_add usize_max bytes size with
          | None => MkSessionBatch None (rows ++ [Err (ExportStore FjallError.ScanLengthOverflow)])
          | Some total =>
              let rows := rows ++ [Ok item] in
              match advance scan item with
              | None => MkSessionBatch None rows
              | Some scan =>
                  if nz_get (scan_batch_bytes config) <=? total then MkSessionBatch (Some scan) rows
                  else session_fetch_loop n c scan config rows total
              end
          end
      end
  end.

Definition session_fetch (snapshot : Db) (scan : Q) (config : BlockingConfig) : result SessionBatch Error :=
  let? c := map_err ExportStore (session_scan_open scan snapshot) in
  Ok (session_fetch_loop (Z.to_nat (nz_get (scan_batch_rows config))) c scan config [] 0).

(** What a poll finds of the fetch in flight: nothing yet, a failure of the queue or
    the worker, or that the worker has run it with these views at this instant. *)
Inductive FetchAnswer : Type := FetchPending | FetchFailed (e : FjallError) | FetchRan (views : Views) (now : Z).

(** The state of the [unfold]: the last batch, or the scan a fetch in flight owns. *)
Record SessionStream : Type := MkSessionStream { ss_batch : SessionBatch; ss_flight : option Q }.

(** The batch a finished fetch leaves. *)
Definition fetched (lease : Lease) (config : BlockingConfig) (scan : Q) (a : result (Views * Z) FjallError) : SessionBatch :=
  let result :=
    let? (views, now) := map_err ExportStore a in
    let? snapshot := views_get views (lease_id lease) now in
    session_fetch snapshot scan config in
  match result with
  | Ok batch => batch
  | Err e => MkSessionBatch None [Err e]
  end.

Definition pop_row (b : SessionBatch) : Poll (option Row) * SessionStream :=
  (Ready (head (sb_rows b)), MkSessionStream (MkSessionBatch (sb_scan b) (tail (sb_rows b))) None).

Definition stream_poll (lease : Lease) (config : BlockingConfig) (st : SessionStream) (a : FetchAnswer)
  : Poll (option Row) * SessionStream :=
  let await scan :=
    match a with
    | FetchPending => (Pending, MkSessionStream (MkSessionBatch None []) (Some scan))
    | FetchFailed e => pop_row (fetched lease config scan (Err e))
    | FetchRan views now => pop_row (fetched lease config scan (Ok (views, now)))
    end in
  match ss_flight st with
  | Some scan => await scan
  | None =>
      match sb_rows (ss_batch st) with
      | _ :: _ => pop_row (ss_batch st)
      | [] =>
          match sb_scan (ss_batch st) with
          | None => (Ready None, st)
          | Some scan => await scan
          end
      end
  end.

(** [FjallExportCursor]; the cleanup is the slot it holds. *)
Record FjallExportCursor : Type := MkFjallCursor { fc_inner : option SessionStream; fc_deadline : Z; fc_cleanup : bool }.

Definition cursor_poll (lease : Lease) (config : BlockingConfig) (c : FjallExportCursor) (now : Z) (a : FetchAnswer)
  : Poll (option Row) * FjallExportCursor :=
  let closed := MkFjallCursor None (fc_deadline c) false in
  match fc_inner c with
  | None => (Ready None, c)
  | Some inner =>
      if fc_deadline c <=? now then (Ready (Some (Err Expired)), closed)
      else
        match stream_poll lease config inner a with
        | (Pending, inner) => (Pending, MkFjallCursor (Some inner) (fc_deadline c) (fc_cleanup c))
        | (Ready (Some (Ok item)), inner) => (Ready (Some (Ok item)), MkFjallCursor (Some inner) (fc_deadline c) (fc_cleanup c))
        | (Ready r, _) => (Ready r, closed)
        end
  end.

Definition session_check_live (lease : Lease) (now : Z) : result () Error :=
  if lease_deadline lease <=? now then Err Expired else Ok ().

(** [FjallExportSession::cursor]. *)
Definition session_cursor (lease : Lease) (initial : Q) (now : Z) (slot : option TrySendError) : result FjallExportCursor Error :=
  let? _ := session_check_live lease now in
  let? _ := map_err ExportStore (reserve_cursor slot) in
  Ok (MkFjallCursor (Some (MkSessionStream (MkSessionBatch (Some initial) []) None)) (lease_deadline lease) true).

(** The values a sequence of polls returns. *)
Fixpoint cursor_polls (lease : Lease) (config : BlockingConfig) (c : FjallExportCursor) (polls : list (Z * FetchAnswer))
  : list (option Row) :=
  match polls with
  | [] => []
  | (now, a) :: polls =>
      match cursor_poll lease config c now a with
      | (Ready r, c) => r :: cursor_polls lease config c polls
      | (Pending, c) => cursor_polls lease config c polls
      end
  end.

End cursor.

Definition fjall_session_list_streams (lease : Lease) (now : Z) (slot : option TrySendError)
  : result (FjallExportCursor (Q := Listing)) Error :=
  session_cursor lease (MkListing None) now slot.

Definition fjall_session_export_stream (lease : Lease) (id : StreamKey) (from : Version) (now : Z) (slot : option TrySendError)
  : result (FjallExportCursor (Q := EventsScan)) Error :=
  let? _ := session_check_live lease now in
  let? _ := map_err ExportStore (validate_key (sk_bytes id) MAX_STREAM_ID_LEN) in
  session_cursor lease (MkEventsScan id from) now slot.

(** ** The registry *)

(** The registry and the clock. *)
Record ViewWorld : Type := MkViewWorld { vw_views : Views; vw_now : Z }.

(** What may happen to the registry while the session [id] is alive: it borrows its
    lease, so every cleanup is of another one. *)
Inductive view_step (id : Z) : ViewWorld -> ViewWorld -> Prop :=
| view_tick v now now' : now <= now' -> view_step id (MkViewWorld v now) (MkViewWorld v now')
| view_expire v now : view_step id (MkViewWorld v now) (MkViewWorld (expire now v) now)
| view_open v now s lifetime v' r :
    views_open v s lifetime now = (v', r) -> view_step id (MkViewWorld v now) (MkViewWorld v' now)
| view_cleanup v now other : other <> id -> view_step id (MkViewWorld v now) (MkViewWorld (views_remove v other) now).

(** The registry holds the view of the lease until its deadline, and will not give
    its id to another. *)
Record holds_view (lease : Lease) (snapshot : Db) (w : ViewWorld) : Prop := MkHoldsView {
  hv_fresh : from_option (fun n => lease_id lease < n) True (views_next_id (vw_views w));
  hv_frozen : forall view, active (vw_views w) !! lease_id lease = Some view -> view = MkView snapshot (lease_deadline lease);
  hv_live : vw_now w < lease_deadline lease -> is_Some (active (vw_views w) !! lease_id lease);
}.

Lemma holds_view_step lease snapshot w w' :
  view_step (lease_id lease) w w' -> holds_view lease snapshot w -> holds_view lease snapshot w'.
Proof.
  intros Hs [Hf Hz Hl]. destruct Hs as [v now now' Hle|v now|v now s lifetime v' r Ho|v now other Hne]; cbn in *.
  - split; cbn; try done. intros. apply Hl. lia.
  - split; cbn; [done| |].
    + intros view. rewrite map_lookup_filter_Some. intros [? _]. auto.
    + intros Hlt. destruct (Hl Hlt) as [view Hv]. exists view. rewrite map_lookup_filter_Some. split; [done|].
      by rewrite (Hz view Hv).
  - unfold views_open in Ho. destruct (views_next_id v) as [n|] eqn:En; [|injection Ho as <- _; split; cbn; by rewrite ?En].
    cbn in Hf. destruct (_ ≫= _) as [deadline|]; injection Ho as <- _; [|split; cbn; by rewrite ?En].
    split; cbn.
    + destruct (checked_add u64_max n 1) as [m|] eqn:E; [|done]. apply checked_add_Some in E as [-> _]. cbn. lia.
    + rewrite lookup_insert_ne by lia. done.
    + rewrite lookup_insert_ne by lia. done.
  - split; cbn; [done|by rewrite lookup_delete_ne by done|by rewrite lookup_delete_ne by done].
Qed.

Lemma holds_view_steps lease snapshot w w' :
  rtc (view_step (lease_id lease)) w w' -> holds_view lease snapshot w -> holds_view lease snapshot w'.
Proof. induction 1; [done|]. intros. eauto using holds_view_step. Qed.

Lemma views_open_holds v s lifetime now v' lease :
  views_open v s lifetime now = (v', Ok lease) -> holds_view lease (st_db s) (MkViewWorld v' now).
Proof.
  unfold views_open. destruct (views_next_id v) as [id|]; [|done]. destruct (_ ≫= _) as [deadline|]; [|done].
  intros [= <- <-]. split; cbn.
  - destruct (checked_add u64_max id 1) as [m|] eqn:E; [|done]. apply checked_add_Some in E as [-> _]. cbn. lia.
  - intros view. rewrite lookup_insert_eq. by intros [= <-].
  - rewrite lookup_insert_eq. by eexists.
Qed.

Lemma views_get_spec lease snapshot w :
  holds_view lease snapshot w ->
  views_get (vw_views w) (lease_id lease) (vw_now w) = if lease_deadline lease <=? vw_now w then Err Expired else Ok snapshot.
Proof.
  intros [_ Hz Hl]. unfold views_get. destruct (active (vw_views w) !! lease_id lease) as [view|] eqn:E; cbn [ok_or result_bind].
  - by rewrite (Hz view eq_refl).
  - destruct (Z.leb_spec (lease_deadline lease) (vw_now w)) as [|Hlt]; [done|]. by destruct (Hl Hlt).
Qed.

(** ** Batches of a frozen scan *)

Section batches.
Context {Q : Type} {SQ : SessionScan Q} {V : Type}.
Notation Item := (RowItem (C := scan_cursor)).
(** What an item shows, and what holds of every item. *)
Context (view : Item -> V) (P : Item -> Prop) (snapshot : Db) (m : Z).
(** What a scan still delivers from the snapshot. *)
Context (rest : Q -> list V -> Prop).
Context (open_rest : forall scan vs, rest scan vs ->
  exists c items, session_scan_open scan snapshot = Ok c /\ view <$> items = vs /\ Forall P items /\
    (drains m c (Ok <$> items) \/ exists pre e, pre `prefix_of` items /\ drains m c ((Ok <$> pre) ++ [Err (FjallError.Io e)]))).
Context (advance_rest : forall scan item vs, rest scan (view item :: vs) ->
  match advance scan item with Some scan => rest scan vs | None => vs = [] end).

(** The rows of a batch that ends the scan: the rest, or a part and an engine error. *)
Definition last_rows (rows : list (result Item Error)) (items : list Item) : Prop :=
  rows = Ok <$> items \/ exists pre e, pre `prefix_of` items /\ rows = (Ok <$> pre) ++ [Err (ExportStore (FjallError.Io e))].

Definition batch_of (b : SessionBatch) (items : list Item) : Prop :=
  match sb_scan b with
  | Some scan => exists k l, sb_rows b = Ok <$> k /\ items = k ++ l /\ rest scan (view <$> l) /\ k <> []
  | None => last_rows (sb_rows b) items
  end.

(** The part a cursor yields before it ends or fails. *)
Definition cursor_yields (c : scan_cursor) (items : list Item) : Prop :=
  drains m c (Ok <$> items) \/ exists pre e, pre `prefix_of` items /\ drains m c ((Ok <$> pre) ++ [Err (FjallError.Io e)]).

(** One row of such a cursor. *)
Lemma cursor_yields_row c items :
  cursor_yields c items ->
  match next_row c with
  | (None, _) => items = []
  | (Some (Err e, _), _) => exists io, e = FjallError.Io io
  | (Some (Ok item, size), c') => 0 <= size <= m /\ exists items', items = item :: items' /\ cursor_yields c' items'
  end.
Proof.
  intros [Hd|(pre & e & [k ->] & Hd)].
  - remember (Ok <$> items) as l eqn:El. destruct Hd as [c c' E|c e size c' E|c item size c' l E Hs Hd]; rewrite E.
    + by destruct items.
    + by destruct items.
    + destruct items as [|x items]; [done|]. injection El as -> ->. split; [done|]. exists items. split; [done|]. by left.
  - destruct pre as [|x pre].
    + inversion Hd as [|c1 e1 size c' E|]; subst; rewrite E; eauto.
    + inversion Hd as [| |c1 item size c' l E Hs Hd' Hc El]; subst; rewrite E. split; [done|].
      exists (pre ++ k). split; [done|]. right. exists pre, e. split; [by apply prefix_app_r|done].
Qed.

Lemma session_fetch_loop_spec config n c scan rows bytes items :
  cursor_yields c items -> rest scan (view <$> items) -> 0 <= bytes < nz_get (scan_batch_bytes config) ->
  nz_get (scan_batch_bytes config) + m <= usize_max ->
  let b := session_fetch_loop n c scan config rows bytes in
  match sb_scan b with
  | Some scan => exists k l, sb_rows b = rows ++ (Ok <$> k) /\ items = k ++ l /\ rest scan (view <$> l) /\ (n <> O -> k <> [])
  | None => exists new, sb_rows b = rows ++ new /\ last_rows new items
  end.
Proof using advance_rest.
  revert c scan rows bytes items. induction n as [|n IH]; intros c scan rows bytes items Hc Hr Hb Hbudget; cbn [session_fetch_loop].
  { exists [], items. by rewrite app_nil_r. }
  pose proof (cursor_yields_row c items Hc) as Hrow. destruct (next_row c) as [[[[item|e] size]|] c'].
  - destruct Hrow as (Hsize & items' & -> & Hc'). rewrite checked_add_ok by lia. rewrite fmap_cons in Hr.
    pose proof (advance_rest scan item _ Hr) as Ha. destruct (advance scan item) as [scan'|].
    + destruct (Z.leb_spec (nz_get (scan_batch_bytes config)) (bytes + size)).
      * cbn. exists [item], items'. done.
      * specialize (IH c' scan' (rows ++ [Ok item]) (bytes + size) items' Hc' Ha ltac:(lia) Hbudget). cbv zeta in IH.
        destruct (sb_scan _) as [scan''|].
        -- destruct IH as (k & l & -> & -> & Hl & _). exists (item :: k), l. by rewrite <- app_assoc.
        -- destruct IH as (new & -> & Hnew). exists (Ok item :: new). split; [by rewrite <- app_assoc|].
           destruct Hnew as [->|(pre & e & Hpre & ->)]; [by left|]. right. exists (item :: pre), e. split; [by apply prefix_cons|done].
    + cbn. exists [Ok item]. split; [done|]. left. apply fmap_nil_inv in Ha as ->. done.
  - destruct Hrow as [io ->]. cbn. eexists. split; [done|]. right. exists [], io. split; [apply prefix_nil|done].
  - subst items. cbn. exists []. rewrite app_nil_r. split; [done|]. by left.
Qed.

Lemma session_fetch_spec config scan vs :
  rest scan vs -> nz_get (scan_batch_bytes config) + m <= usize_max ->
  exists b items, session_fetch snapshot scan config = Ok b /\ view <$> items = vs /\ Forall P items /\ batch_of b items.
Proof using open_rest advance_rest.
  intros Hr Hbudget. destruct (open_rest scan vs Hr) as (c & items & Ho & <- & HP & Hy). unfold session_fetch. rewrite Ho.
  cbn [map_err result_bind]. pose proof (nz_range (scan_batch_bytes config)). pose proof (nz_range (scan_batch_rows config)).
  pose proof (session_fetch_loop_spec config (Z.to_nat (nz_get (scan_batch_rows config))) c scan [] 0 items Hy Hr ltac:(lia) Hbudget) as Hf.
  eexists _, items. split; [done|]. split; [done|]. split; [done|]. cbv zeta in Hf. unfold batch_of. destruct (sb_scan _) as [scan'|].
  - destruct Hf as (k & l & ? & ? & ? & Hk). exists k, l. split; [done|]. split; [done|]. split; [done|]. apply Hk. lia.
  - destruct Hf as (new & -> & Hnew). exact Hnew.
Qed.

(** ** Polls of a frozen scan *)

(** A batch and the scan behind it still deliver [vs]. *)
Definition batch_state (b : SessionBatch) (vs : list V) : Prop :=
  match sb_scan b with
  | Some scan => exists k vs', sb_rows b = Ok <$> k /\ Forall P k /\ rest scan vs' /\ vs = (view <$> k) ++ vs'
  | None => exists items, view <$> items = vs /\ Forall P items /\ last_rows (sb_rows b) items
  end.

Definition stream_state (st : SessionStream) (vs : list V) : Prop :=
  match ss_flight st with Some scan => rest scan vs | None => batch_state (ss_batch st) vs end.

Lemma stream_state_complete st vs : stream_state st vs -> exists items, view <$> items = vs /\ Forall P items.
Proof using open_rest.
  unfold stream_state, batch_state. destruct (ss_flight st) as [scan|].
  - intros Hr. destruct (open_rest scan vs Hr) as (_ & items & _ & ? & ? & _). eauto.
  - destruct (sb_scan (ss_batch st)) as [scan|].
    + intros (k & vs' & _ & Hk & Hr & ->). destruct (open_rest scan vs' Hr) as (_ & items & _ & <- & ? & _).
      exists (k ++ items). rewrite fmap_app, Forall_app. done.
    + intros (items & ? & ? & _). eauto.
Qed.

(** What a poll that returns finds. *)
Definition polled (r : option (result Item Error)) (st : SessionStream) (vs : list V) : Prop :=
  match r with
  | None => vs = []
  | Some (Ok item) => exists vs', vs = view item :: vs' /\ P item /\ stream_state st vs'
  | Some (Err e) => exists io, e = ExportStore (FjallError.Io io)
  end.

Lemma pop_row_spec b vs r st :
  batch_state b vs -> (sb_rows b <> [] \/ sb_scan b = None) -> pop_row b = (r, st) -> exists row, r = Ready row /\ polled row st vs.
Proof.
  intros Hb Hne [= <- <-]. eexists. split; [done|]. unfold batch_state in Hb. unfold polled, stream_state, batch_state. cbn [ss_flight ss_batch sb_scan sb_rows].
  destruct (sb_scan b) as [scan|].
  - destruct Hb as (k & vs' & Hk & HP & Hr & ->). rewrite Hk. destruct k as [|x k]; [rewrite Hk in Hne; by destruct Hne|].
    apply Forall_cons in HP as [Hx HP]. cbn. eexists. split; [done|]. split; [done|]. exists k, vs'. done.
  - destruct Hb as (items & <- & HP & [->|(pre & e & [k ->] & ->)]).
    + destruct items as [|x items]; [done|]. apply Forall_cons in HP as [Hx HP]. cbn. eexists. split; [done|]. split; [done|].
      exists items. split; [done|]. split; [done|]. by left.
    + destruct pre as [|x pre]; [cbn; eauto|]. cbn in *. apply Forall_cons in HP as [Hx HP]. eexists. split; [done|]. split; [done|].
      exists (pre ++ k). split; [done|]. split; [done|]. right. exists pre, e. split; [by apply prefix_app_r|done].
Qed.

Lemma batch_of_state b items : Forall P items -> batch_of b items -> batch_state b (view <$> items) /\ (sb_rows b <> [] \/ sb_scan b = None).
Proof.
  intros HP. unfold batch_of, batch_state. destruct (sb_scan b) as [scan|].
  - intros (k & l & Hk & -> & Hr & Hne). apply Forall_app in HP as [Hk' _]. split; [|left; rewrite Hk; by destruct k].
    exists k, (view <$> l). rewrite fmap_app. done.
  - intros Hl. split; [eauto|by right].
Qed.

Context (lease : Lease) (config : BlockingConfig) (budget : nz_get (scan_batch_bytes config) + m <= usize_max).

(** Why a cursor may end in an error. *)
Definition justified (polls : list (Z * FetchAnswer)) (e : Error) : Prop :=
  match e with
  | Expired => exists now a, (now, a) ∈ polls /\
      (lease_deadline lease <= now \/ exists v worker_now, a = FetchRan v worker_now /\ lease_deadline lease <= worker_now)
  | ExportStore fe => (exists now, (now, FetchFailed fe) ∈ polls) \/ exists io, fe = FjallError.Io io
  | InvalidLifetime _ => False
  end.

(** The registries a run of polls meets, one after another. *)
Inductive meets : ViewWorld -> list (Z * FetchAnswer) -> Prop :=
| meets_nil w : meets w []
| meets_other w now a polls : (forall v n, a <> FetchRan v n) -> meets w polls -> meets w ((now, a) :: polls)
| meets_ran w w' now polls :
    rtc (view_step (lease_id lease)) w w' -> meets w' polls -> meets w ((now, FetchRan (vw_views w') (vw_now w')) :: polls).

(** A scan waiting for its fetch. *)
Lemma fetched_spec w scan vs :
  holds_view lease snapshot w -> rest scan vs ->
  let b := fetched lease config scan (Ok (vw_views w, vw_now w)) in
  (lease_deadline lease <= vw_now w /\ b = MkSessionBatch None [Err Expired]) \/
  (batch_state b vs /\ (sb_rows b <> [] \/ sb_scan b = None)).
Proof using open_rest advance_rest budget.
  intros Hw Hr. cbv zeta. unfold fetched. cbn [map_err result_bind]. rewrite (views_get_spec _ _ _ Hw).
  destruct (Z.leb_spec (lease_deadline lease) (vw_now w)); [by left|]. cbn [result_bind].
  destruct (session_fetch_spec config scan vs Hr budget) as (b & items & -> & <- & HP & Hb). right. by apply batch_of_state.
Qed.

Lemma stream_poll_spec w st vs now a polls :
  holds_view lease snapshot w -> stream_state st vs -> meets w ((now, a) :: polls) ->
  match stream_poll lease config st a with
  | (Pending, st') => a = FetchPending /\ stream_state st' vs
  | (Ready (Some (Err e)), _) => justified ((now, a) :: polls) e
  | (Ready r, st') => polled r st' vs
  end.
Proof using open_rest advance_rest budget.
  intros Hw Hst Hm.
  assert (forall scan, rest scan vs -> match (match a with
    | FetchPending => (Pending, MkSessionStream (MkSessionBatch None []) (Some scan))
    | FetchFailed e => pop_row (fetched lease config scan (Err e))
    | FetchRan views now => pop_row (fetched lease config scan (Ok (views, now)))
    end) with
  | (Pending, st') => a = FetchPending /\ stream_state st' vs
  | (Ready (Some (Err e)), _) => justified ((now, a) :: polls) e
  | (Ready r, st') => polled r st' vs
  end) as Hawait.
  { intros scan Hr. destruct a as [|e|v n]; [done| |].
    - cbn. left. exists now. by left.
    - inversion Hm as [| |? w' ? ? Hsteps]; subst; [naive_solver|].
      pose proof (holds_view_steps _ _ _ _ Hsteps Hw) as Hw'. destruct (fetched_spec w' scan vs Hw' Hr) as [[Hd ->]|[Hb Hne]].
      + cbn. exists now, (FetchRan (vw_views w') (vw_now w')). split; [by left|]. right. eauto.
      + destruct (pop_row _) as [r st'] eqn:Ep. destruct (pop_row_spec _ _ _ _ Hb Hne Ep) as (row & -> & Hrow).
        destruct row as [[item|e]|]; [done| |done]. destruct Hrow as [io ->]. right. eauto. }
  unfold stream_poll. unfold stream_state in Hst. destruct (ss_flight st) as [scan|] eqn:Hf; [by apply Hawait|].
  destruct (sb_rows (ss_batch st)) as [|row rows] eqn:Hrows.
  - unfold batch_state in Hst. rewrite Hrows in Hst. destruct (sb_scan (ss_batch st)) as [scan|].
    + destruct Hst as ([|] & vs' & [=] & _ & Hr & ->). by apply Hawait.
    + destruct Hst as (items & <- & _ & [Hl|([|] & e & _ & [=])]). by destruct items.
  - destruct (pop_row _) as [r st'] eqn:Ep. destruct (pop_row_spec _ _ _ _ Hst ltac:(left; by rewrite Hrows) Ep) as (row' & -> & Hrow).
    destruct row' as [[item|e]|]; [done| |done]. destruct Hrow as [io ->]. right. eauto.
Qed.

Lemma cursor_polls_closed (c : FjallExportCursor) polls : fc_inner c = None -> cursor_polls lease config c polls = replicate (length polls) None.
Proof.
  intros Hc. induction polls as [|[now a] polls IH]; [done|]. cbn [cursor_polls length replicate]. unfold cursor_poll. rewrite Hc. by rewrite IH.
Qed.

Definition ran (a : FetchAnswer) : bool := match a with FetchPending => false | _ => true end.

Lemma meets_tail w p polls : holds_view lease snapshot w -> meets w (p :: polls) -> exists w', holds_view lease snapshot w' /\ meets w' polls.
Proof. intros Hw. inversion 1; subst; [by exists w|]. eexists. split; [by eapply holds_view_steps|done]. Qed.

Lemma justified_cons p polls e : justified polls e -> justified (p :: polls) e.
Proof.
  destruct e as [fe|lifetime|]; cbn; [|done|].
  - intros [[now ?]|?]; [left; exists now; by right|by right].
  - intros (now & a & ? & ?). exists now, a. split; [by right|done].
Qed.

(** What the polls of a cursor return: all that is left, or a part and one error. *)
Definition outcome_of (out : list (option (result Item Error))) (polls : list (Z * FetchAnswer)) (items : list Item) : Prop :=
  (out = ended (length out) (Ok <$> items) \/
   exists pre e, pre `prefix_of` items /\ justified polls e /\ out = ended (length out) ((Ok <$> pre) ++ [Err e])) /\
  (length (filter (fun p => ran p.2 = true) polls) <= length out)%nat.

Lemma outcome_of_row item out p polls items : outcome_of out polls items -> outcome_of (Some (Ok item) :: out) (p :: polls) (item :: items).
Proof.
  intros [Hout Hlen]. split; [|rewrite filter_cons; destruct (decide _); cbn [length]; lia]. cbn [length ended].
  destruct Hout as [Hout|(pre & e & Hpre & Hj & Hout)]; rewrite fmap_cons.
  - left. cbn. by rewrite <- Hout.
  - right. exists (item :: pre), e. split; [by apply prefix_cons|]. split; [by apply justified_cons|]. cbn. by rewrite <- Hout.
Qed.

(** The last value and what follows it. *)
Lemma outcome_of_last (r : option (result Item Error)) p polls items :
  (r = None /\ items = [] \/ exists e, r = Some (Err e) /\ justified (p :: polls) e) ->
  outcome_of (r :: replicate (length polls) None) (p :: polls) items.
Proof.
  intros Hr. split.
  - cbn [length ended]. destruct Hr as [[-> ->]|(e & -> & Hj)].
    + left. cbn. by rewrite ended_nil, length_replicate.
    + right. exists [], e. split; [apply prefix_nil|]. split; [done|]. cbn. by rewrite ended_nil, length_replicate.
  - cbn [length]. rewrite length_replicate. apply (length_filter (fun p => ran p.2 = true) (p :: polls)).
Qed.

Lemma cursor_polls_spec w (c : FjallExportCursor) st vs polls :
  holds_view lease snapshot w -> fc_inner c = Some st -> fc_deadline c = lease_deadline lease -> stream_state st vs -> meets w polls ->
  exists items, view <$> items = vs /\ Forall P items /\ outcome_of (cursor_polls lease config c polls) polls items.
Proof using open_rest advance_rest budget.
  revert w c st vs. induction polls as [|[now a] polls IH]; intros w c st vs Hw Hc Hd Hst Hm.
  { destruct (stream_state_complete st vs Hst) as (items & ? & ?). exists items. split; [done|]. split; [done|]. split; [by left|done]. }
  destruct (stream_state_complete st vs Hst) as (all & Hall & HPall).
  destruct (meets_tail _ _ _ Hw Hm) as (w' & Hw' & Hm').
  cbn [cursor_polls]. unfold cursor_poll. rewrite Hc. destruct (Z.leb_spec (fc_deadline c) now) as [Hlate|Htime].
  { exists all. split; [done|]. split; [done|]. rewrite cursor_polls_closed by done. apply outcome_of_last. right. exists Expired.
    split; [done|]. exists now, a. split; [by left|]. left. by rewrite <- Hd. }
  pose proof (stream_poll_spec w st vs now a polls Hw Hst Hm) as Hpoll.
  destruct (stream_poll lease config st a) as [[[[item|e]|]|] st'].
  - destruct Hpoll as (vs' & -> & HP & Hst').
    destruct (IH w' (MkFjallCursor (Some st') (fc_deadline c) (fc_cleanup c)) st' vs' Hw' eq_refl Hd Hst' Hm') as (items & <- & HPs & Hout).
    exists (item :: items). split; [done|]. split; [by constructor|]. by apply outcome_of_row.
  - exists all. split; [done|]. split; [done|]. rewrite cursor_polls_closed by done. apply outcome_of_last. eauto.
  - cbn in Hpoll. subst vs. exists []. split; [done|]. split; [done|]. rewrite cursor_polls_closed by done. apply outcome_of_last. by left.
  - destruct Hpoll as [-> Hst'].
    destruct (IH w' (MkFjallCursor (Some st') (fc_deadline c) (fc_cleanup c)) st' vs Hw' eq_refl Hd Hst' Hm') as (items & Hv & HPs & [Hout Hlen]).
    exists items. split; [done|]. split; [done|]. split; [|rewrite filter_cons, decide_False by done; done].
    destruct Hout as [?|(pre & e & ? & ? & ?)]; [by left|]. right. exists pre, e. split; [done|]. split; [by apply justified_cons|done].
Qed.

End batches.

(** ** The two scans *)

Context {LS : LsmSpec}.
(** A row is addressable. *)
Context (wide : u32_max + MAX_KEY_LEN <= usize_max).

Definition row_max : Z := u32_max + MAX_KEY_LEN.

Section scans.
Context (s : Storage) (l : Log) (Hstores : stores s l).

(** The events of a stream from a version on. *)
Definition events_rest (id : StreamKey) (scan : EventsScan) (vs : list PendingEnvelope) : Prop :=
  events_id scan = id /\ vs = drop (Z.to_nat (as_u64 (events_from scan) - 1)) (log_stream id l).

Lemma events_open id scan vs :
  valid_id (sk_bytes id) -> events_rest id scan vs ->
  exists c items, session_scan_open scan (st_db s) = Ok c /\ from_persisted <$> items = vs /\ Forall persisted_ok items /\
    (drains row_max c (Ok <$> items) \/
     exists pre e, pre `prefix_of` items /\ drains row_max c ((Ok <$> pre) ++ [Err (FjallError.Io e)])).
Proof using Hstores wide.
  intros Hid [Hsid ->]. destruct scan as [sid from]. cbn in Hsid |- *. subst sid. pose proof (version_range from).
  assert (exists c, open_snapshot (st_db s) Events (MkStreamScan id (error_id id)) from = Ok c) as [c Hc].
  { unfold open_snapshot, open_using. cbn [lower_key upper_key stream_scan]. unfold stream_bound. cbn [scan_id].
    rewrite !encode_event_key_ok by done. by eexists. }
  assert (storage_read_stream s id from = Ok c) as Hread.
  { unfold storage_read_stream. pose proof (validate_id id) as Hv. destruct (validate_key _ _) as [[]|]; [done|].
    exfalso. by discriminate (proj2 Hv Hid). }
  destruct (read_stream_rows wide s l id from c Hstores Hread) as (rows & envs & Hy & Hp & Hf & Hm & Hok & Hsz).
  exists c, envs. split; [done|]. split; [done|]. split; [done|]. by apply (scan_drains row_max c rows envs Hy Hp Hf).
Qed.

Lemma events_advance id scan item vs :
  events_rest id scan (from_persisted item :: vs) ->
  match advance scan item with Some scan => events_rest id scan vs | None => vs = [] end.
Proof using Hstores.
  intros [Hsid E]. destruct Hstores as [Hr _]. pose proof (rr_versions _ _ _ Hr id) as Hc. pose proof (stream_bound_len _ _ _ id Hr) as Hmax.
  pose proof (version_range (events_from scan)) as Hf.
  assert (log_stream id l !! Z.to_nat (as_u64 (events_from scan) - 1) = Some (from_persisted item)) as Hpe.
  { rewrite <- (Nat.add_0_r (Z.to_nat _)), <- lookup_drop, <- E. done. }
  pose proof (stream_version _ _ _ Hc Hpe) as Hv. cbn in Hv. rewrite (drop_S _ _ _ Hpe) in E. injection E as ->.
  cbn. destruct (next (ps_version item)) as [v|] eqn:En; cbn.
  - split; [done|]. apply next_Some in En. cbn. do 2 f_equal. lia.
  - apply next_None in En. apply drop_ge. unfold len in Hmax. lia.
Qed.

(** The ids after one. *)
Definition listing_rest (ids : list StreamKey) (scan : Listing) (vs : list StreamKey) : Prop :=
  match list_after scan with
  | None => vs = ids
  | Some id => exists pre, ids = pre ++ id :: vs
  end.

Lemma id_drains m c rows :
  yields rows (id_iter c) -> id_poisoned c = false -> Forall (fun r => len r.1 <= m) rows ->
  let ids := (fun r => MkStreamKey r.1) <$> rows in
  drains m c (Ok <$> ids) \/ exists pre e, pre `prefix_of` ids /\ drains m c ((Ok <$> pre) ++ [Err (FjallError.Io e)]).
Proof.
  intros Hy. remember (id_iter c) as it eqn:Hit. revert c rows Hit Hy.
  induction it as [|[[k v]|e] it IH]; intros c rows Hit Hy Hp Hm; cbv zeta.
  - left. apply yields_nil_inv in Hy as ->. change (drains m c []). eapply (drains_end (RC := id_rows)).
    cbn [next_row id_rows]. unfold id_next_row, id_poll_one. rewrite Hp, <- Hit. done.
  - destruct (yields_cons_inv _ _ _ Hy) as (rows' & -> & Hy'). apply Forall_cons in Hm as [Hk Hm]. cbn in Hk. pose proof (len_nonneg k).
    assert (next_row c = (Some (Ok (MkStreamKey k), len k), MkStreamIdCursor it false)) as Hn.
    { cbn [next_row id_rows]. unfold id_next_row, id_poll_one. rewrite Hp, <- Hit. done. }
    destruct (IH (MkStreamIdCursor it false) rows' eq_refl Hy' eq_refl Hm) as [Hd|(pre & e & Hpre & Hd)].
    + left. rewrite !fmap_cons. by apply (drains_row (RC := id_rows) m c (MkStreamKey k) _ _ _ Hn).
    + right. exists (MkStreamKey k :: pre), e. rewrite !fmap_cons. split; [by apply prefix_cons|].
      by apply (drains_row (RC := id_rows) m c (MkStreamKey k) _ _ _ Hn).
  - right. exists [], e. split; [apply prefix_nil|]. change (drains m c [Err (FjallError.Io e)]). eapply (drains_error (RC := id_rows)).
    cbn [next_row id_rows]. unfold id_next_row, id_poll_one. rewrite Hp, <- Hit. done.
Qed.

(** The rows after a key of a sorted range. *)
Lemma range_after (m : gmap bytes bytes) rows pre k v tail :
  range_of m Unbounded Unbounded rows -> rows = pre ++ (k, v) :: tail -> range_of m (Excluded k) Unbounded tail.
Proof.
  intros [Hs Hr] ->. apply StronglySorted_app in Hs as (Hpre & _ & Htail). apply StronglySorted_cons in Htail as [Hk Htail].
  rewrite Forall_forall in Hk. split; [done|]. intros k' v'. cbn. split.
  - intros Hin. split; [apply Hr; apply elem_of_app; right; by right|]. split; [|done]. by apply (Hk (k', v')).
  - intros (Hl & Hlt & _). assert ((k', v') ∈ pre ++ (k, v) :: tail) as Hin by (by apply Hr).
    apply elem_of_app in Hin as [Hin|Hin].
    + exfalso. destruct (lex_lt_asym k k' Hlt). by apply (Hpre (k', v') (k, v) Hin); left.
    + apply elem_of_cons in Hin as [[= -> ->]|?]; [|done]. by apply lex_lt_irrefl in Hlt.
Qed.

Lemma listing_open rows scan vs :
  range_of (content_of (st_db s) Streams) Unbounded Unbounded rows ->
  listing_rest ((fun r => MkStreamKey r.1) <$> rows) scan vs ->
  exists c items, session_scan_open scan (st_db s) = Ok c /\ id <$> items = vs /\ Forall (fun _ => True) items /\
    (drains row_max c (Ok <$> items) \/
     exists pre e, pre `prefix_of` items /\ drains row_max c ((Ok <$> pre) ++ [Err (FjallError.Io e)])).
Proof using Hstores.
  intros Hrange Hrest. destruct Hstores as [Hr _]. destruct (stream_ids_spec _ _ _ _ Hr Hrange) as (_ & Hin & _).
  assert (Forall (fun r => len r.1 <= row_max) rows) as Hsize.
  { apply Forall_forall. intros [k v] Hkv. assert (MkStreamKey k ∈ (fun r => MkStreamKey r.1) <$> rows) as Hk by (apply list_elem_of_fmap; by exists (k, v)).
    apply Hin in Hk. destruct (log_stream (MkStreamKey k) l) as [|pe es] eqn:E; [done|].
    destruct (log_stream_id_ok _ _ _ (MkStreamKey k) pe Hr) as ([_ Hl] & _); [rewrite E; by left|]. cbn in *.
    unfold row_max, MAX_STREAM_ID_LEN, u32_max in *. lia. }
  assert (exists tail, range_of (content_of (st_db s) Streams)
      (match list_after scan with None => Unbounded | Some id => Excluded (sk_bytes id) end) Unbounded tail /\
      vs = (fun r => MkStreamKey r.1) <$> tail /\ Forall (fun r => len r.1 <= row_max) tail) as (tail & Htail & -> & Hts).
  { unfold listing_rest in Hrest. destruct (list_after scan) as [id|]; [|exists rows; by subst].
    destruct Hrest as [pre E]. apply fmap_app_inv in E as (rows1 & rows2 & -> & E2 & ->). symmetry in E2.
    apply fmap_cons_inv in E2 as ([k v] & tail & -> & -> & ->). exists tail. split; [by eapply range_after|]. split; [done|].
    apply Forall_app in Hsize as [_ Hsize]. by apply Forall_cons in Hsize as [_ ?]. }
  destruct (db_range_spec (st_db s) Streams (match list_after scan with None => Unbounded | Some id => Excluded (sk_bytes id) end) Unbounded)
    as (rows' & Hrows' & Hy). rewrite (range_of_unique _ _ _ _ _ Hrows' Htail) in Hy.
  eexists _, ((fun r => MkStreamKey r.1) <$> tail). split; [done|]. split; [apply list_fmap_id|]. split; [by apply Forall_true|].
  apply id_drains; [|done|done]. cbn [id_iter]. unfold stream_ids_after. by destruct (list_after scan).
Qed.

Lemma listing_advance ids scan item vs :
  listing_rest ids scan (id item :: vs) ->
  match advance scan item with Some scan => listing_rest ids scan vs | None => vs = [] end.
Proof.
  cbn. unfold listing_rest. cbn. destruct (list_after scan) as [a|].
  - intros [pre ->]. exists (pre ++ [a]). by rewrite <- app_assoc.
  - intros <-. by exists [].
Qed.

End scans.

(** ** Correctness *)

Lemma open_session_holds s v lifetime now slot a worker_now v' lease :
  fjall_open_export_session s v lifetime now slot a worker_now = (v', Ok lease) ->
  holds_view lease (st_db s) (MkViewWorld v' worker_now).
Proof.
  unfold fjall_open_export_session. destruct (_ || _); [done|]. destruct (reserve_cursor slot); [|done]. destruct a; [done|done|].
  apply views_open_holds.
Qed.

Section session.
Context (s : Storage) (l : Log) (v : Views) (lifetime now : Z) (slot : option TrySendError) (a : Admission) (worker_now : Z).
Context (v' : Views) (lease : Lease) (config : BlockingConfig).
Context (Hstores : stores s l) (Hopen : fjall_open_export_session s v lifetime now slot a worker_now = (v', Ok lease)).
Context (budget : nz_get (scan_batch_bytes config) + row_max <= usize_max).

Lemma session_events_spec id from opened slot' c polls :
  fjall_session_export_stream lease id from opened slot' = Ok c -> meets lease (MkViewWorld v' worker_now) polls ->
  exists evs, from_persisted <$> evs = drop (Z.to_nat (as_u64 from - 1)) (log_stream id l) /\ Forall persisted_ok evs /\
    outcome_of lease (cursor_polls lease config c polls) polls evs.
Proof using Hstores Hopen budget wide.
  intros Hc Hm. unfold fjall_session_export_stream in Hc. destruct (session_check_live _ _); [|done]. cbn [result_bind] in Hc.
  pose proof (validate_id id) as Hv. destruct (validate_key _ _) as [[]|]; [|done]. pose proof (proj1 Hv eq_refl) as Hid.
  cbn [map_err result_bind] in Hc. unfold session_cursor in Hc. destruct (session_check_live _ _); [|done].
  destruct (reserve_cursor slot'); [|done]. cbn [map_err result_bind] in Hc. injection Hc as <-.
  eapply (cursor_polls_spec (SQ := events_scan) from_persisted persisted_ok (st_db s) row_max (events_rest l id)
    (fun scan vs => events_open s l Hstores id scan vs Hid) (events_advance s l Hstores id) lease config budget);
    [by eapply open_session_holds|done|done| |exact Hm].
  cbn. by exists [], (drop (Z.to_nat (as_u64 from - 1)) (log_stream id l)).
Qed.

Lemma session_listing_spec opened slot' c polls :
  fjall_session_list_streams lease opened slot' = Ok c -> meets lease (MkViewWorld v' worker_now) polls ->
  exists ids, NoDup ids /\ (forall id, id ∈ ids <-> log_stream id l <> []) /\
    StronglySorted (fun a b => lex_lt (sk_bytes a) (sk_bytes b)) ids /\
    outcome_of lease (cursor_polls lease config c polls) polls ids.
Proof using Hstores Hopen budget.
  intros Hc Hm. unfold fjall_session_list_streams, session_cursor in Hc. destruct (session_check_live _ _); [|done].
  destruct (reserve_cursor slot'); [|done]. cbn [map_err result_bind] in Hc. injection Hc as <-.
  destruct (db_range_spec (st_db s) Streams Unbounded Unbounded) as (rows & Hrange & _).
  pose proof Hstores as [Hr _]. destruct (stream_ids_spec _ _ _ _ Hr Hrange) as (Hnd & Hin & Hs).
  set (ids := (fun r => MkStreamKey r.1) <$> rows) in *.
  destruct (cursor_polls_spec (SQ := listing_scan) id (fun _ => True) (st_db s) row_max (listing_rest ids)
    (fun scan vs => listing_open s l Hstores rows scan vs Hrange) (listing_advance ids) lease config budget
    (MkViewWorld v' worker_now) (MkFjallCursor (Some (MkSessionStream (MkSessionBatch (Some (MkListing None)) []) None)) (lease_deadline lease) true)
    (MkSessionStream (MkSessionBatch (Some (MkListing None)) []) None) ids polls) as (items & Hitems & _ & Hout); [by eapply open_session_holds|done|done| |exact Hm|].
  - cbn. by exists [], ids.
  - rewrite list_fmap_id in Hitems. subst items. by exists ids.
Qed.

(** C31: an export session of the embedded store sees the log as it was when the worker
    opened it, whatever is appended, and whatever other sessions are opened, expired
    or closed, meanwhile.  Listing delivers exactly the streams that had events
    then, once each and in byte order, and a cursor on a stream the events it had
    then from the requested version on, in order, whatever the batch limits and
    however long each fetch takes; an error ends a cursor after a part of them, and
    is the expiry only if the deadline had passed.  Every poll that does not wait
    for a fetch returns a value. *)
Theorem fjall_export_frozen opened slot' :
  (forall id from c polls, fjall_session_export_stream lease id from opened slot' = Ok c ->
     meets lease (MkViewWorld v' worker_now) polls ->
     exists evs, from_persisted <$> evs = drop (Z.to_nat (as_u64 from - 1)) (log_stream id l) /\ Forall persisted_ok evs /\
       outcome_of lease (cursor_polls lease config c polls) polls evs) /\
  (forall c polls, fjall_session_list_streams lease opened slot' = Ok c -> meets lease (MkViewWorld v' worker_now) polls ->
     exists ids, NoDup ids /\ (forall id, id ∈ ids <-> log_stream id l <> []) /\
       StronglySorted (fun a b => lex_lt (sk_bytes a) (sk_bytes b)) ids /\
       outcome_of lease (cursor_polls lease config c polls) polls ids).
Proof using Hstores Hopen budget wide. split; intros; [by eapply session_events_spec|by eapply session_listing_spec]. Qed.

End session.

End export.
