(* ===== verification/Backup.v ===== *)
(** * Backup and restore, end to end

    The path a backup takes: an export session on the in-memory store, a chunk
    writer that drains each of its cursors into a section, the decoder, and a
    whole-chunk import into any store that keeps the atomic-append contract. *)

From S2P Require Import Prelude ErrorId Version Value Wire Envelope RawStore Wake Import Log InMemory Cbor CborSpec CborChunk CborWriter Export.

Section source.
Context {E : Type}.

(** What [try_extend] sees of a cursor: its polls, and the drop of the drain if they
    stop before the cursor ends. *)
Fixpoint source_of (polls : list (option (result PersistedEnvelope E))) : Source E :=
  match polls with
  | [] => SourceDropped
  | None :: _ => SourceEnds
  | Some (Err e) :: _ => SourceFails e
  | Some (Ok ev) :: polls => SourceYields ev (source_of polls)
  end.

(** A drain that reaches the end has seen every event. *)
Lemma source_ended_all n evs :
  let events := source_of (ended n (Ok <$> evs)) in
  source_events events `prefix_of` evs /\ (source_ended events -> source_events events = evs).
Proof.
  revert evs. induction n as [|n IH]; intros evs; [by split; [apply prefix_nil|]|].
  destruct evs as [|ev evs]; [by split; [apply prefix_nil|]|]. rewrite fmap_cons. cbn.
  destruct (IH evs) as [Hp He]. split; [by apply prefix_cons|]. intros Hend. by rewrite He.
Qed.

(** One that meets an error does not. *)
Lemma source_failed n pre e :
  let events := source_of (ended n ((Ok <$> pre) ++ [Err e])) in
  source_events events `prefix_of` pre /\ ~ source_ended events.
Proof.
  revert pre. induction n as [|n IH]; intros pre; [by split; [apply prefix_nil|intros []]|].
  destruct pre as [|ev pre]; [by split; [apply prefix_nil|intros []]|]. rewrite fmap_cons. cbn.
  destruct (IH pre) as [Hp He]. split; [by apply prefix_cons|done].
Qed.

End source.

Section backup.
Context {T : Target} {M : Minicbor} {MS : MinicborSpec} {K : Crc} {KS : CrcSpec}.
Context {W : Type} {SW : Sink W} {SS : SinkSpec W}.
Context (instant_max : Z).

Notation Error := (ExportError InMemoryStoreError).

(** The cursor of a stream, opened at [opened] and polled as given. *)
Definition stream_source (s : ExportSession) (id : StreamKey) (opened : Z) (polls : list (Z * Inner)) : Source Error :=
  match session_export_stream s id INITIAL opened with
  | Err e => SourceFails e
  | Ok c => source_of (export_drive s id polls c)
  end.

(** One section per stream the session lists, its cursor drained into it. *)
Definition backup_program (s : ExportSession) (opened : StreamKey -> Z) (polls : StreamKey -> list (Z * Inner))
  : list (bytes * list (SectionOp (R := Error))) :=
  (fun id => (sk_bytes id, [OpExtend (stream_source s id (opened id) (polls id))])) <$> (map_to_list (es_heads s)).*1.

(** ** The source side *)

Section session.
Context (l : Log) (i : Inner) (batch_size : BatchSize) (now lifetime : Z) (s : ExportSession).
Context (Hrep : represents l i) (Hopen : open_export_session instant_max i batch_size now lifetime = Ok s).

Lemma stream_source_spec id opened polls lf :
  grows l polls.*2 lf ->
  let events := stream_source s id opened polls in
  Forall backup_ok (source_events events) /\
  (source_ended events -> from_persisted <$> source_events events = log_stream id l).
Proof.
  intros Hg. cbv zeta. unfold stream_source. destruct (session_export_stream s id INITIAL opened) as [c|e] eqn:Ec; [|by split].
  destruct (session_polls _ l i batch_size now lifetime s id INITIAL opened c polls lf Hrep Hopen Ec Hg) as (evs & Hfrom & Hok & Hout).
  change (Z.to_nat (as_u64 INITIAL - 1)) with O in Hfrom. rewrite drop_0 in Hfrom.
  assert (Forall backup_ok evs) as Hback.
  { destruct (log_stream_ok l i id Hrep) as [_ Hfit]. rewrite <- Hfrom, Forall_fmap in Hfit.
    apply Forall_and. split; [done|exact Hfit]. }
  destruct Hout as [->|(pre & Hpre & _ & ->)].
  - destruct (source_ended_all (E := Error) (length polls) evs) as [Hp He]. split.
    + destruct Hp as [r Hr]. rewrite Hr in Hback. by apply Forall_app in Hback as [? _].
    + intros Hend. by rewrite He.
  - destruct (source_failed (E := Error) (length polls) pre Expired) as [Hp He]. split; [|done].
    destruct Hpre as [r1 ->], Hp as [r2 Hr2]. apply Forall_app in Hback as [Hback _]. rewrite Hr2 in Hback.
    by apply Forall_app in Hback as [? _].
Qed.

Lemma backup_program_ok opened polls :
  (forall id, exists lf, grows l (polls id).*2 lf) -> (forall id, log_stream id l <> [] -> len (sk_bytes id) <= u64_max) ->
  Forall section_input_ok (backup_program s opened polls).
Proof.
  intros Hg Hlen. unfold backup_program. apply Forall_fmap, Forall_forall. intros id Hid. split; cbn.
  - apply Hlen. by apply (session_streams instant_max l i batch_size now lifetime s id).
  - destruct (Hg id) as [lf Hlf]. constructor; [|done]. by apply (stream_source_spec id (opened id) (polls id) lf).
Qed.

(** The streams of a program that is complete. *)
Lemma backup_program_streams opened polls stream :
  (forall id, exists lf, grows l (polls id).*2 lf) ->
  Forall (fun sec => Forall op_complete sec.2) (backup_program s opened polls) ->
  stream ∈ program_streams (backup_program s opened polls) ->
  from_persisted <$> stream.2 = log_stream (MkStreamKey stream.1) l.
Proof.
  intros Hg Hc Hin. unfold program_streams in Hin. apply list_elem_of_fmap in Hin as (sec & -> & Hsec).
  rewrite Forall_forall in Hc. specialize (Hc sec Hsec). unfold backup_program in Hsec. apply list_elem_of_fmap in Hsec as (id & -> & _).
  cbn in *. apply Forall_cons in Hc as [Hend _]. destruct (Hg id) as [lf Hlf].
  rewrite app_nil_r. destruct id as [b]. by apply (stream_source_spec (MkStreamKey b) (opened _) (polls _) lf).
Qed.

Lemma backup_program_origins opened polls :
  (fun stream => MkStreamKey stream.1) <$> program_streams (backup_program s opened polls) = (map_to_list (es_heads s)).*1.
Proof.
  unfold program_streams, backup_program. rewrite <- (list_fmap_id (_.*1)) at 2.
  generalize (map_to_list (es_heads s)).*1. intros ids. rewrite <- !list_fmap_compose. apply list_fmap_ext. intros _ [b] _. done.
Qed.

End session.

(** ** The target side *)

Context {S : Type} {R : RawEventStore S} {RS : RawEventStoreSpec S} {AA : AtomicAppend S} {AS : AtomicAppendSpec S}.

(** Restored sections imported to the streams they came from. *)
Lemma import_restored ss secs t t' rep :
  store_inv t -> Forall2 restores ss secs -> import_whole_chunk t secs MkStreamKey = (t', Returns (Ok rep)) ->
  (forall stream, stream ∈ ss -> stream_of t' (MkStreamKey stream.1) = stream_of t (MkStreamKey stream.1) ++ (from_persisted <$> stream.2)) /\
  forall id, id ∉ (fun stream => MkStreamKey stream.1) <$> ss -> stream_of t' id = stream_of t id.
Proof.
  intros Hinv Hall Himp.
  assert (Forall section_ok secs) as Hok.
  { rewrite Forall_forall. intros sec Hsec. apply list_elem_of_lookup in Hsec as [n Hn].
    destruct (Forall2_lookup_r _ _ _ _ _ Hall Hn) as (stream & _ & _ & evs & Hb & Hev & _).
    unfold section_ok. rewrite Hb, Forall_fmap. exact Hev. }
  destruct (import_whole_chunk_spec t secs MkStreamKey t' _ Hinv Hok Himp) as [_ [(e & [=] & _)|(rep' & _ & _ & _ & Hin & Hout)]].
  split.
  - intros stream Hstream. apply list_elem_of_lookup in Hstream as [n Hn].
    destruct (Forall2_lookup_l _ _ _ _ _ Hall Hn) as (sec & Hsec & Ho & evs & Hb & _ & Hfrom).
    destruct (Hin sec (list_elem_of_lookup_2 _ _ _ Hsec)) as (evs' & Hb' & Hst). rewrite Ho in Hst. rewrite Hst, <- Hfrom.
    rewrite Hb in Hb'. by apply list_fmap_eq_inj in Hb' as <-; [|intros ?? [=]].
  - intros id Hid. apply Hout. intros Hsec. apply Hid. apply list_elem_of_fmap in Hsec as (sec & -> & Hsec).
    apply list_elem_of_lookup in Hsec as [n Hn]. destruct (Forall2_lookup_r _ _ _ _ _ Hall Hn) as (stream & Hs & -> & _).
    apply list_elem_of_fmap. exists stream. split; [done|]. by eapply list_elem_of_lookup_2.
Qed.

(** C13: a backup restores exactly the store it was taken of.  Every stream an export
    session lists is drained into a chunk while other tasks append, and the chunk
    is decoded and imported whole, under the same ids, into any store that keeps the
    contract.  If the chunk was finished it decodes, and if the import succeeds,
    every stream of the target is what it was followed by all the events, field for
    field, that the stream had when the session was opened. *)
Theorem backup_restore_exact l i batch_size now lifetime s opened polls sink o sink1 w sink' :
  represents l i -> open_export_session instant_max i batch_size now lifetime = Ok s ->
  (forall id, exists lf, grows l (polls id).*2 lf) -> (forall id, log_stream id l <> [] -> len (sk_bytes id) <= u64_max) ->
  from_option (fun b => len b <= u64_max) True o -> writer_new sink o = (sink1, Ok w) ->
  finish (run_program w (backup_program s opened polls)) = (sink', Ok ()) ->
  exists out, sink_content sink' = sink_content sink ++ out /\
    forall fuel, (length out < fuel)%nat ->
      exists secs, decode_chunk fuel out = Some (Returns (Ok secs)) /\
        forall t t' rep, store_inv t -> import_whole_chunk t secs MkStreamKey = (t', Returns (Ok rep)) ->
          forall id, stream_of t' id = stream_of t id ++ log_stream id l.
Proof.
  intros Hr Ho Hg Hlen Horigin Hnew Hfin. pose proof (backup_program_ok l i batch_size now lifetime s Hr Ho opened polls Hg Hlen) as Hin.
  destruct (finish_spec _ _ _ _ _ _ Horigin Hin Hnew Hfin) as (Hfull & Hok & Hc). eexists. split; [exact Hc|]. intros fuel Hf.
  eexists. split; [by apply decode_complete|]. intros t t' rep Hinv Himp id.
  destruct (import_restored _ _ _ _ _ Hinv (restored_all _ (streams_ok _ Hin)) Himp) as [Himported Hother].
  destruct (decide (id ∈ (fun stream => MkStreamKey stream.1) <$> program_streams (backup_program s opened polls))) as [Hid|Hid].
  - apply list_elem_of_fmap in Hid as (stream & -> & Hstream). rewrite Himported by done. f_equal.
    by apply (backup_program_streams l i batch_size now lifetime s Hr Ho opened polls).
  - rewrite Hother by done. rewrite backup_program_origins in Hid.
    destruct (decide (log_stream id l = [])) as [->|Hne]; [by rewrite app_nil_r|].
    destruct Hid. by apply (session_streams instant_max l i batch_size now lifetime s id).
Qed.

End backup.
