(* ===== verification/CborCodec.v ===== *)
(** * A CBOR codec that keeps the laws

    The laws the backup format relies on are those of CBOR itself: they hold of a
    codec that writes every head in its nine-byte form, of an additive checksum and
    of a growing buffer.  The example runs use these. *)

From S2P Require Import Prelude Utf8 Version Value Wire WireKey Envelope RawStore Import Log Cbor CborSpec CborChunk CborWriter.

Inductive CodecError : Type := CodecEnd | CodecShape.

Notation step A := (Decoder -> result (A * Decoder) CodecError).

(** The next [n] bytes. *)
Definition take_bytes (n : Z) : step bytes := fun d =>
  if (0 <=? n) && (0 <=? d_position d) && (d_position d + n <=? len (d_input d))
  then Ok (slice (d_input d) (d_position d) (d_position d + n), MkDecoder (d_input d) (d_position d + n))
  else Err CodecEnd.

Definition head_byte (major : Z) : byte := byte.of_Z (32 * major + 27).
Definition head (major n : Z) : bytes := head_byte major :: to_be_bytes 8 n.

Definition step_ret {A} (a : A) : step A := fun d => Ok (a, d).
Definition step_bind {A B} (f : step A) (g : A -> step B) : step B := fun d => let? (a, d) := f d in g a d.
Definition step_fail {A} : step A := fun _ => Err CodecShape.

#[local] Notation "'let>' x := f 'in' g" := (step_bind f (fun x => g)) (at level 200, x pattern).

(** A head of the given major type: its argument. *)
Definition dec_head (major : Z) : step Z :=
  let> b := take_bytes 9 in
  match b with
  | x :: b => if bool_decide (x = head_byte major) then step_ret (from_be_bytes b) else step_fail
  | [] => step_fail
  end.

Definition dec_string (major : Z) : step bytes := let> n := dec_head major in take_bytes n.

(** A head that must carry the given argument. *)
Definition expect (major n : Z) : step () :=
  let> m := dec_head major in if m =? n then step_ret () else step_fail.

Definition codec_enc (i : Item) : list bytes :=
  match i with
  | IMap n => [head 5 n]
  | IArray n => [head 4 n]
  | ITag n => [head 6 n]
  | IU32 n | IU64 n => [head 0 n]
  | IBytes b => [head 2 (len b); b]
  | IStr b => [head 3 (len b); b]
  end.

Definition codec_datatype (d : Decoder) : result CborType CodecError :=
  match d_input d !! Z.to_nat (d_position d) with
  | None => Err CodecEnd
  | Some x =>
      Ok (if bool_decide (x = head_byte 5) then TypeMap else if bool_decide (x = head_byte 4) then TypeArray
          else if bool_decide (x = head_byte 6) then TypeTag else TypeOther)
  end.

Definition codec_skip : step () :=
  let> b := take_bytes 9 in
  match b with
  | x :: b =>
      if bool_decide (x = head_byte 0) then step_ret ()
      else if bool_decide (x = head_byte 2 \/ x = head_byte 3) then let> _ := take_bytes (from_be_bytes b) in step_ret ()
      else step_fail
  | [] => step_fail
  end.

Definition codec_header : step HeaderRepr :=
  let> n := dec_head 5 in
  let> _ := expect 0 0 in
  let> magic := dec_string 2 in
  let> _ := expect 0 1 in
  let> version := dec_head 0 in
  if n =? 3 then
    let> _ := expect 0 2 in
    let> origin := dec_string 2 in
    step_ret (MkHeaderRepr magic version (Some origin))
  else step_ret (MkHeaderRepr magic version None).

Definition codec_heading : step HeadingRepr :=
  let> _ := expect 5 1 in
  let> _ := expect 0 0 in
  let> id := dec_string 2 in
  step_ret (MkHeadingRepr id).

Definition codec_body : step BodyRepr :=
  let> n := dec_head 5 in
  let> _ := expect 0 0 in
  let> version := dec_head 0 in
  let> _ := expect 0 1 in
  let> schema := dec_head 0 in
  let> _ := expect 0 2 in
  let> event_type := dec_string 3 in
  let> metadata := (if n =? 5 then let> _ := expect 0 3 in let> metadata := dec_string 2 in step_ret (Some metadata) else step_ret None) in
  let> _ := expect 0 4 in
  let> payload := dec_string 2 in
  step_ret (MkBodyRepr version schema event_type metadata payload).

#[export] Instance codec : Minicbor := {|
  CborError := CodecError;
  is_end_of_input e := match e with CodecEnd => true | CodecShape => false end;
  message _ := CodecShape;
  enc := codec_enc;
  datatype := codec_datatype;
  dec_map := let> n := dec_head 5 in step_ret (Some n);
  dec_array := let> n := dec_head 4 in step_ret (Some n);
  dec_tag := dec_head 6;
  dec_u32 := dec_head 0;
  dec_u64 := dec_head 0;
  dec_bytes := dec_string 2;
  skip := codec_skip;
  dec_header := codec_header;
  dec_heading := codec_heading;
  dec_body := codec_body;
|}.

(** ** Its laws *)

Lemma take_bytes_reads b : reads (M := codec) (take_bytes (len b)) b b.
Proof.
  split.
  - intros pre rest. unfold take_bytes. cbn [d_position d_input]. rewrite !len_app.
    pose proof (len_nonneg pre). pose proof (len_nonneg rest). pose proof (len_nonneg b). rewrite !(proj2 (Z.leb_le _ _)) by lia. cbn [andb].
    do 2 f_equal. by apply slice_middle.
  - intros pre k rest -> Hr. exists CodecEnd. split; [|done]. unfold take_bytes. cbn [d_position d_input].
    assert (0 < len rest) by (destruct rest; [done|rewrite len_cons; pose proof (len_nonneg rest); lia]).
    rewrite !len_app, (proj2 (Z.leb_gt (len pre + _) _)) by lia. by rewrite andb_false_r.
Qed.

Lemma step_bind_reads {A B} (f : step A) (g : A -> step B) c1 c2 a b :
  reads (M := codec) f c1 a -> reads (M := codec) (g a) c2 b -> reads (M := codec) (step_bind f g) (c1 ++ c2) b.
Proof. apply reads_bind. Qed.

Lemma step_ret_reads {A} (a : A) : reads (M := codec) (step_ret a) [] a.
Proof. apply reads_ret. Qed.

(** The last step of a sequence. *)
Lemma step_last_reads {A B} (f : step A) (g : A -> B) c a :
  reads (M := codec) f c a -> reads (M := codec) (step_bind f (fun x => step_ret (g x))) c (g a).
Proof. intros H. rewrite <- (app_nil_r c). by eapply step_bind_reads; [|apply step_ret_reads]. Qed.

Lemma step_last_eq {A B} (f : step A) (g : A -> B) c a b :
  reads (M := codec) f c a -> b = g a -> reads (M := codec) (step_bind f (fun x => step_ret (g x))) c b.
Proof. intros ? ->. by apply step_last_reads. Qed.

Lemma step_skip_reads {A B} (a : A) (g : A -> step B) c b :
  reads (M := codec) (g a) c b -> reads (M := codec) (step_bind (step_ret a) g) c b.
Proof. done. Qed.

Lemma len_head major n : len (head major n) = 9.
Proof. unfold head. by rewrite len_cons, len_to_be_bytes. Qed.

Lemma dec_head_reads major n : 0 <= n <= u64_max -> reads (M := codec) (dec_head major) (head major n) n.
Proof.
  intros Hn. unfold dec_head. rewrite <- (app_nil_r (head major n)). rewrite <- (len_head major n).
  eapply step_bind_reads; [apply take_bytes_reads|]. cbn [head]. rewrite bool_decide_true by done.
  rewrite from_to_be_bytes by (apply u64_be; lia). apply step_ret_reads.
Qed.

Lemma dec_string_reads major b : len b <= u64_max -> reads (M := codec) (dec_string major) (head major (len b) ++ b) b.
Proof. intros Hb. pose proof (len_nonneg b). eapply step_bind_reads; [by apply dec_head_reads|apply take_bytes_reads]. Qed.

Lemma expect_reads major n : 0 <= n <= u64_max -> reads (M := codec) (expect major n) (head major n) ().
Proof.
  intros Hn. rewrite <- (app_nil_r (head _ _)). eapply step_bind_reads; [by apply dec_head_reads|]. rewrite Z.eqb_refl. apply step_ret_reads.
Qed.

Lemma codec_skip_reads i : is_scalar i -> item_ok i -> reads (M := codec) codec_skip (to_vec [i]) ().
Proof.
  intros Hs Hi. unfold codec_skip. destruct i as [| | |n|n|b|b]; try done; unfold to_vec; cbn -[head take_bytes].
  1,2: rewrite <- (len_head 0 n); eapply step_bind_reads; [apply take_bytes_reads|]; apply step_ret_reads.
  - rewrite app_nil_r. rewrite <- (len_head 2 (len b)). eapply step_bind_reads; [apply take_bytes_reads|]. cbn [head].
    change (bool_decide (head_byte 2 = head_byte 0)) with false. rewrite bool_decide_true by auto. cbv iota.
    pose proof (len_nonneg b). rewrite from_to_be_bytes by (apply u64_be; cbn in Hi; lia). by eapply (step_last_reads _ (fun _ => ())), take_bytes_reads.
  - rewrite app_nil_r. rewrite <- (len_head 3 (len b)). eapply step_bind_reads; [apply take_bytes_reads|]. cbn [head].
    change (bool_decide (head_byte 3 = head_byte 0)) with false. rewrite bool_decide_true by auto. cbv iota.
    pose proof (len_nonneg b). destruct Hi as [_ Hi]. rewrite from_to_be_bytes by (apply u64_be; lia). by eapply (step_last_reads _ (fun _ => ())), take_bytes_reads.
Qed.

Lemma head_reads_last {B} major n (g : Z -> B) :
  0 <= n <= u64_max -> reads (M := codec) (step_bind (dec_head major) (fun x => step_ret (g x))) (head major n) (g n).
Proof. intros. by apply step_last_reads, dec_head_reads. Qed.

(** Each step of a derived decoder. *)
Ltac read_steps :=
  repeat first
    [ eapply step_last_eq; [apply dec_string_reads|reflexivity]
    | eapply step_bind_reads; [first [apply expect_reads; unfold u64_max; lia|apply dec_head_reads|apply dec_string_reads]|]
    | apply step_ret_reads ].

Lemma to_vec_codec i l : to_vec (M := codec) (i :: l) = concat (codec_enc i) ++ to_vec (M := codec) l.
Proof. unfold to_vec. cbn [enc codec]. by rewrite bind_cons, concat_app. Qed.

Lemma codec_heading_reads h : Forall item_ok (heading_items h) -> reads (M := codec) codec_heading (to_vec (heading_items h)) h.
Proof.
  destruct h as [id]. unfold heading_items, field. rewrite !to_vec_codec. cbn [app concat codec_enc hd_stream_id].
  change (to_vec []) with (@nil byte). rewrite !app_nil_r. intros Hok. rewrite !Forall_cons in Hok. destruct Hok as (_ & _ & Hid & _).
  unfold codec_heading. read_steps. exact Hid.
Qed.

Lemma codec_header_reads h : Forall item_ok (header_items h) -> reads (M := codec) codec_header (to_vec (header_items h)) h.
Proof.
  destruct h as [magic version origin]. unfold header_items, field. intros Hok. rewrite !Forall_cons, !Forall_app in Hok.
  destruct Hok as (Hn & Hm & Hv & Ho). rewrite !Forall_cons in Hm, Hv. destruct Hm as (_ & Hm & _), Hv as (_ & Hv & _).
  unfold codec_header. destruct origin as [origin|]; cbn [optional option_map fmap option_fmap h_origin app count] in *;
    unfold field in *; rewrite !to_vec_codec; cbn [concat codec_enc h_magic h_format_version]; change (to_vec []) with (@nil byte); rewrite !app_nil_r.
  - rewrite !Forall_cons in Ho. destruct Ho as (_ & Ho & _). cbn [item_ok h_magic h_format_version] in *. read_steps; unfold u32_max, u64_max in *; lia || done.
  - cbn [item_ok h_magic h_format_version] in *. change (2 + 0 =? 3) with false. cbv iota.
    read_steps; try (eapply step_last_eq; [apply dec_head_reads|done]); unfold u32_max, u64_max in *; lia || done.
Qed.

Lemma codec_body_reads b : Forall item_ok (body_items b) -> reads (M := codec) codec_body (to_vec (body_items b)) b.
Proof.
  destruct b as [version schema et md pl]. unfold body_items, field. intros Hok. rewrite !Forall_cons, !Forall_app in Hok.
  destruct Hok as (Hn & Hv & Hs & He & Hm & Hp). rewrite !Forall_cons in Hv, Hs, He, Hp.
  destruct Hv as (_ & Hv & _), Hs as (_ & Hs & _), He as (_ & He & _), Hp as (_ & Hp & _).
  unfold codec_body. destruct md as [md|]; cbn [optional option_map fmap option_fmap b_metadata app count] in *;
    unfold field in *; cbn [app]; rewrite !to_vec_codec; cbn [concat codec_enc b_version b_schema_version b_event_type b_payload];
    change (to_vec []) with (@nil byte); rewrite !app_nil_r.
  - rewrite !Forall_cons in Hm. destruct Hm as (_ & Hm & _). cbn [item_ok b_version b_schema_version b_event_type b_payload] in *.
    do 7 (eapply step_bind_reads; [first [apply expect_reads|apply dec_head_reads|apply dec_string_reads]; unfold u32_max, u64_max in *; lia || apply He|]).
    rewrite (app_assoc (head 0 3)). eapply step_bind_reads; [|read_steps; done]. read_steps. done.
  - cbn [item_ok b_version b_schema_version b_event_type b_payload] in *.
    do 7 (eapply step_bind_reads; [first [apply expect_reads|apply dec_head_reads|apply dec_string_reads]; unfold u32_max, u64_max in *; lia || apply He|]).
    change (4 + 0 =? 5) with false. cbv iota. apply step_skip_reads. read_steps. done.
Qed.

(** ** Progress *)

(** A step that stays within the input. *)
Definition forward {A} (f : step A) : Prop :=
  forall d a d', f d = Ok (a, d') -> d_input d' = d_input d /\ d_position d <= d_position d' /\ (d_position d <= len (d_input d) -> d_position d' <= len (d_input d)).

Lemma step_ret_forward {A} (a : A) : forward (step_ret a).
Proof. intros d x d' [= <- <-]. done. Qed.

Lemma step_fail_forward {A} : forward (A := A) step_fail.
Proof. done. Qed.

Lemma take_bytes_forward n : forward (take_bytes n).
Proof.
  intros d x d'. unfold take_bytes. destruct ((_ && _) && _) eqn:E; [|done]. intros [= <- <-]. cbn.
  rewrite !andb_true_iff, !Z.leb_le in E. split; [done|lia].
Qed.

Lemma step_bind_forward {A B} (f : step A) (g : A -> step B) : forward f -> (forall a, forward (g a)) -> forward (step_bind f g).
Proof.
  intros Hf Hg d b d'. unfold step_bind. destruct (f d) as [[a d1]|] eqn:E; [|done]. cbn [result_bind]. intros E2.
  apply Hf in E as (Hi & Hp & Hl). apply Hg in E2 as (Hi2 & Hp2 & Hl2). rewrite Hi in *. split; [done|]. lia.
Qed.

Lemma take_bytes_advances n : 0 < n -> advances (take_bytes n).
Proof.
  intros Hn d x d'. unfold take_bytes. destruct ((_ && _) && _) eqn:E; [|done]. intros [= <- <-]. cbn.
  rewrite !andb_true_iff, !Z.leb_le in E. split; [done|lia].
Qed.

Lemma step_bind_advances {A B} (f : step A) (g : A -> step B) : advances f -> (forall a, forward (g a)) -> advances (step_bind f g).
Proof.
  intros Hf Hg d b d'. unfold step_bind. destruct (f d) as [[a d1]|] eqn:E; [|done]. cbn [result_bind]. intros E2.
  apply Hf in E as (Hi & Hp & Hl). apply Hg in E2 as (Hi2 & Hp2 & Hl2). rewrite Hi in *. split; [done|]. lia.
Qed.

Create HintDb codec.
#[local] Hint Resolve step_ret_forward step_fail_forward take_bytes_forward step_bind_forward : codec.

Lemma dec_head_forward major : forward (dec_head major).
Proof. unfold dec_head. apply step_bind_forward; [auto with codec|]. intros [|x b]; [|destruct (bool_decide _)]; auto with codec. Qed.

Lemma dec_head_advances major : advances (dec_head major).
Proof.
  unfold dec_head. apply step_bind_advances; [by apply take_bytes_advances|]. intros [|x b]; [|destruct (bool_decide _)]; auto with codec.
Qed.

#[local] Hint Resolve dec_head_forward dec_head_advances : codec.

Lemma dec_string_forward major : forward (dec_string major).
Proof. unfold dec_string. auto with codec. Qed.

Lemma expect_forward major n : forward (expect major n).
Proof. unfold expect. apply step_bind_forward; [auto with codec|]. intros m. destruct (m =? n); auto with codec. Qed.

Lemma expect_advances major n : advances (expect major n).
Proof. unfold expect. apply step_bind_advances; [auto with codec|]. intros m. destruct (m =? n); auto with codec. Qed.

#[local] Hint Resolve dec_string_forward expect_forward expect_advances step_bind_advances : codec.

Lemma datatype_first major x tl pre rest n :
  head major n = x :: tl ->
  codec_datatype (MkDecoder (pre ++ x :: rest) (len pre)) =
    Ok (if bool_decide (head_byte major = head_byte 5) then TypeMap else if bool_decide (head_byte major = head_byte 4) then TypeArray
        else if bool_decide (head_byte major = head_byte 6) then TypeTag else TypeOther).
Proof.
  intros [= <- _]. unfold codec_datatype. cbn [d_input d_position]. unfold len. rewrite Nat2Z.id, list_lookup_middle by done. done.
Qed.

#[export] Instance codec_spec : MinicborSpec (M := codec).
Proof.
  split.
  - intros n Hn. unfold to_vec. cbn -[head]. rewrite app_nil_r. apply (step_last_reads _ Some). by apply dec_head_reads.
  - intros n Hn. unfold to_vec. cbn -[head]. rewrite app_nil_r. apply (step_last_reads _ Some). by apply dec_head_reads.
  - intros n Hn. unfold to_vec. cbn -[head]. rewrite app_nil_r. by apply dec_head_reads.
  - intros n Hn. unfold to_vec. cbn -[head]. rewrite app_nil_r. apply dec_head_reads. cbn in Hn. unfold u32_max, u64_max in *. lia.
  - intros n Hn. unfold to_vec. cbn -[head]. rewrite app_nil_r. by apply dec_head_reads.
  - intros b Hb. unfold to_vec. cbn -[head]. rewrite app_nil_r. by apply dec_string_reads.
  - apply codec_skip_reads.
  - apply codec_header_reads.
  - apply codec_heading_reads.
  - apply codec_body_reads.
  - intros n x tl pre rest _ E. unfold to_vec in E. cbn -[head] in E. rewrite app_nil_r in E. cbn [datatype codec]. by rewrite (datatype_first 5 x tl pre rest n).
  - intros n x tl pre rest _ E. unfold to_vec in E. cbn -[head] in E. rewrite app_nil_r in E. cbn [datatype codec]. by rewrite (datatype_first 4 x tl pre rest n).
  - intros n x tl pre rest _ E. unfold to_vec in E. cbn -[head] in E. rewrite app_nil_r in E. cbn [datatype codec]. by rewrite (datatype_first 6 x tl pre rest n).
  - intros i _. unfold to_vec. destruct i; cbn -[head]; rewrite ?app_nil_r, ?len_app, len_head; lia.
  - cbn. auto with codec.
  - cbn. auto with codec.
  - apply dec_head_advances.
  - apply dec_head_advances.
  - apply dec_head_advances.
  - cbn. unfold dec_string. auto with codec.
  - cbn. unfold codec_header. apply step_bind_advances; [auto with codec|]. intros n. do 4 (apply step_bind_forward; [auto with codec|]; intros ?).
    destruct (n =? 3); auto with codec.
  - cbn. unfold codec_heading. auto 10 with codec.
Qed.

(** ** Checksum and sink *)

(** The sum of the bytes. *)
Definition byte_sum (b : bytes) : Z := foldr (fun x n => byte.unsigned x + n) 0 b.

#[export] Instance sum_crc : Crc := {|
  crc32c b := byte_sum b mod 2 ^ 32;
  crc32c_append crc b := (crc + byte_sum b) mod 2 ^ 32;
|}.

Lemma byte_sum_app a b : byte_sum (a ++ b) = byte_sum a + byte_sum b.
Proof. unfold byte_sum. induction a as [|x a IH]; cbn; [done|]. rewrite IH. lia. Qed.

#[export] Instance sum_crc_spec : CrcSpec (K := sum_crc).
Proof.
  split; cbn -[Z.pow].
  - done.
  - intros a b. by rewrite byte_sum_app, Zplus_mod_idemp_l.
  - intros b. pose proof (Z.mod_pos_bound (byte_sum b) (2 ^ 32)). unfold u32_max. lia.
Qed.

(** A buffer of bounded capacity: a write that does not fit leaves what fits. *)
Record Buffer : Type := MkBuffer { buf_content : bytes; buf_capacity : Z }.

#[export] Instance buffer_sink : Sink Buffer := {|
  SinkError := ();
  sink_write w b :=
    if len (buf_content w) + len b <=? buf_capacity w then (MkBuffer (buf_content w ++ b) (buf_capacity w), Ok ())
    else (MkBuffer (buf_content w ++ take (Z.to_nat (buf_capacity w - len (buf_content w))) b) (buf_capacity w), Err ());
|}.

#[export] Instance buffer_sink_spec : SinkSpec Buffer.
Proof.
  refine {| sink_content := buf_content |}.
  - intros w b w'. cbn. destruct (_ <=? _); [|done]. by intros [= <-].
  - intros w b w' e. cbn. destruct (_ <=? _); [done|]. intros [= <- _]. eexists. split; [apply prefix_take|done].
Defined.
