(* ===== verification/Pg.v ===== *)
(** * The values of the PostgreSQL adapter (adapters/postgres/src: error.rs, hex.rs,
      history.rs, limits.rs, page.rs, position.rs, and the pure helpers of store.rs)

    Errors, resume positions, the size checks, the conversion of a row into an
    envelope, the selection of a page and the hexadecimal payload of a notification.
    A label made from an error's [Display] keeps the error itself ([Reason]); numbers
    the driver transfers as text are the numbers. *)

From Stdlib Require Import String.
From S2P Require Import Prelude Utf8 ErrorId Version Value Wire Envelope RawStore InMemory.
Close Scope string_scope.
Open Scope list_scope.

Definition i64_max : Z := 2 ^ 63 - 1.

(** A text literal of the source. *)
Definition str (s : string) : bytes := list_byte_of_string s.

(** ** Hexadecimal payloads (hex.rs) *)

Definition HEX : bytes := str "0123456789abcdef".

(** [HEX[i]], for a nibble [i]. *)
Definition hex_char (i : Z) : byte := nth (Z.to_nat i) HEX (byte.of_Z 0).

Definition hex_encode (b : bytes) : bytes :=
  b ≫= (fun b => [hex_char (Z.shiftr (byte.unsigned b) 4); hex_char (Z.land (byte.unsigned b) 15)]).

Definition nibble (c : byte) : option Z :=
  let c := byte.unsigned c in
  if (48 <=? c) && (c <=? 57) then Some (c - 48)
  else if (97 <=? c) && (c <=? 102) then Some (c - 97 + 10)
  else if (65 <=? c) && (c <=? 70) then Some (c - 65 + 10)
  else None.

(** The pairs of [as_chunks], collected; an odd length is refused first. *)
Fixpoint hex_pairs (s : bytes) : option bytes :=
  match s with
  | hi :: lo :: s =>
      h ← nibble hi; l ← nibble lo; rest ← hex_pairs s;
      Some (byte.of_Z (Z.lor (Z.shiftl h 4) l) :: rest)
  | _ => Some []
  end.

Definition hex_decode (s : bytes) : option bytes :=
  if negb (len s mod 2 =? 0) then None else hex_pairs s.

(** Every byte survives, by inspection of all 256. *)
Lemma hex_byte_roundtrip b :
  nibble (hex_char (Z.shiftr (byte.unsigned b) 4)) = Some (Z.shiftr (byte.unsigned b) 4) /\
  nibble (hex_char (Z.land (byte.unsigned b) 15)) = Some (Z.land (byte.unsigned b) 15) /\
  byte.of_Z (Z.lor (Z.shiftl (Z.shiftr (byte.unsigned b) 4) 4) (Z.land (byte.unsigned b) 15)) = b.
Proof. by destruct b. Qed.

(** A stream id survives the payload of a notification: what a writer encodes the
    listener of every store decodes to the same bytes, which are two characters per
    byte; an odd length is refused, so a truncated payload never wakes another
    stream. *)
Theorem hex_roundtrip b :
  hex_decode (hex_encode b) = Some b /\ len (hex_encode b) = 2 * len b /\
  (forall s, hex_decode s <> None -> len s mod 2 = 0).
Proof.
  assert (len (hex_encode b) = 2 * len b) as Hlen.
  { induction b as [|x b IH]; [done|]. unfold hex_encode in *. rewrite bind_cons, len_app, IH, !len_cons, len_nil. lia. }
  split_and!; [|done|].
  - unfold hex_decode. rewrite Hlen, Z.mul_comm, Z_mod_mult. cbn [negb Z.eqb]. clear Hlen.
    induction b as [|x b IH]; [done|]. unfold hex_encode in *. rewrite bind_cons. cbn [app hex_pairs].
    destruct (hex_byte_roundtrip x) as (Hh & Hl & Hx). rewrite Hh, Hl. cbn [mbind option_bind]. rewrite IH. cbn. by rewrite Hx.
  - intros s. unfold hex_decode. destruct (Z.eqb_spec (len s mod 2) 0); done.
Qed.

(** ** Histories and positions (history.rs, position.rs) *)

Record History : Type := MkHistory { history_bytes : bytes }.

#[export] Instance history_eq_dec : EqDecision History.
Proof. solve_decision. Defined.

Record PgAllPos : Type := MkPgPos { pg_history : History; pg_txid : Z; pg_seq : Z }.

#[export] Instance pg_pos_eq_dec : EqDecision PgAllPos.
Proof. solve_decision. Defined.

(** The order of positions within a history: [(txid, seq)], the transaction first. *)
Definition pos_lt (p q : Z * Z) : Prop := p.1 < q.1 \/ p.1 = q.1 /\ p.2 < q.2.

#[export] Instance pos_lt_dec : RelDecision pos_lt.
Proof. intros p q. unfold pos_lt. apply _. Defined.

#[export] Instance pos_lt_trans : Transitive pos_lt.
Proof. intros x y z. unfold pos_lt. lia. Qed.

#[export] Instance pos_lt_irrefl : Irreflexive pos_lt.
Proof. intros x. unfold complement, pos_lt. lia. Qed.

Lemma pos_lt_total p q : pos_lt p q \/ p = q \/ pos_lt q p.
Proof. destruct p as [a b], q as [c d]. unfold pos_lt. cbn. destruct (Z.lt_total a c) as [?|[->|?]], (Z.lt_total b d) as [?|[->|?]]; auto. Qed.

(** ** Errors (error.rs) *)

(** A database error as the driver reports it. *)
Record DbError : Type := MkDbError {
  db_code : option bytes;
  db_schema : option bytes;
  db_table : option bytes;
  db_constraint : option bytes;
}.

(** [sqlx::Error]: what the code tells apart. *)
Inductive SqlxError : Type :=
| Database (e : DbError)
| RowNotFound
| OtherError (kind : bytes).

(** What a label displays: a fixed text or the error of a checked conversion. *)
Inductive Reason : Type :=
| Text (text : bytes)
| OfValue (e : ValueError)
| OfWire (e : WireError)
| OfNumber (raw : Z).

Module PostgresError.
Inductive t : Type :=
| Migration (source : bytes)
| Schema (reason : Reason)
| HistoryMismatch (expected actual : History)
| DatabaseHistory
| FutureTransaction
| RowLimit (actual limit : Z)
| SizeOverflow (source : option Z)
| PoolCapacity (actual : Z)
| Durability (setting : bytes)
| Sqlx (e : SqlxError)
| CommitUnknown (e : SqlxError)
| EnvelopeCorrupt (stream_id : ErrorId) (version : Z) (source : EnvelopeError)
| CorruptRow (stream_id : ErrorId) (reason : Reason)
| Frame (stream_id : ErrorId) (version : Z) (reason : Reason)
| Wake (e : SqlxError)
| ExportRequest
| ExportReply
| ExportTask.
End PostgresError.
Notation PostgresError := PostgresError.t.

(** [str::starts_with]. *)
Definition starts_with (s prefix : bytes) : bool := bool_decide (take (length prefix) s = prefix).

(** A server error that proves the transaction was rolled back. *)
Definition rejects_commit (e : SqlxError) : bool :=
  match e with
  | Database db =>
      match db_code db with
      | Some value => starts_with value (str "23") || bool_decide (value = str "40001") || bool_decide (value = str "40P01")
      | None => false
      end
  | _ => false
  end.

(** [PostgresError::commit]. *)
Definition commit_error (e : SqlxError) : PostgresError :=
  if rejects_commit e then PostgresError.Sqlx e else PostgresError.CommitUnknown e.

(** [is_unique_violation]: SQLSTATE 23505. *)
Definition is_unique_violation (db : DbError) : bool := bool_decide (db_code db = Some (str "23505")).

Definition is_stream_conflict (e : SqlxError) : bool :=
  match e with
  | Database db =>
      is_unique_violation db && bool_decide (db_schema db = Some (str "mnesis")) &&
      bool_decide (db_table db = Some (str "events")) &&
      bool_decide (db_constraint db = Some (str "events_stream_id_version_key"))
  | _ => false
  end.

(** [History::check]. *)
Definition history_check (self actual : History) : result () PostgresError :=
  if bool_decide (self = actual) then Ok () else Err (PostgresError.HistoryMismatch self actual).

(** ** Limits and sizes (limits.rs, store.rs) *)

Record Limits : Type := MkLimits { limit_rows : BatchSize; limit_bytes : NonZero u32_max }.

Definition limits_default : Limits := MkLimits BatchSize.DEFAULT (MkNonZero (max := u32_max) 16777216 eq_refl).

(** The fold of [validate_bytes], at the width of [i64]. *)
Fixpoint sum_lengths (total : Z) (lengths : list Z) : result Z PostgresError :=
  match lengths with
  | [] => Ok total
  | length :: lengths =>
      let? size := ok_or (try_from i64_max length) (PostgresError.SizeOverflow (Some length)) in
      let? total := ok_or (checked_add i64_max total size) (PostgresError.SizeOverflow None) in
      sum_lengths total lengths
  end.

Definition validate_bytes (lengths : list Z) (limits : Limits) : result () PostgresError :=
  let? actual := sum_lengths 32 lengths in
  let limit := nz_get (limit_bytes limits) in
  if limit <? actual then Err (PostgresError.RowLimit actual limit) else Ok ().

Definition event_lengths (id : bytes) (event : PendingEnvelope) : list Z :=
  [len id; len (et_bytes (pe_event_type event)); len (pl_bytes (pe_payload event));
   from_option (fun m => len (md_bytes m)) 0 (pe_metadata event)].

Fixpoint validate_events (id : bytes) (events : list PendingEnvelope) (limits : Limits) : result () PostgresError :=
  match events with
  | [] => Ok ()
  | event :: events =>
      let? _ := validate_bytes (event_lengths id event) limits in
      validate_events id events limits
  end.

Definition validate_sizes (id : StreamKey) (envelopes : PendingBatch.t) (limits : Limits) : result () PostgresError :=
  validate_events (StreamKey.as_bytes id) (PendingBatch.iter envelopes) limits.

(** ** Rows (store.rs) *)

Record EventRow : Type := MkEventRow {
  row_version : Z;
  row_event_type : bytes;
  row_schema_version : Z;
  row_payload : bytes;
  row_metadata : option bytes;
}.

Record AllEventRow : Type := MkAllEventRow {
  all_stream_id : bytes;
  all_txid : Z;
  all_global_seq : Z;
  all_event : EventRow;
}.

Section rows.
Context {T : Target} {AS : ArrayString}.

Definition corrupt (stream_id : ErrorId) (reason : bytes) : PostgresError := PostgresError.CorruptRow stream_id (Text reason).
Definition corrupt_value (stream_id : ErrorId) (e : ValueError) : PostgresError := PostgresError.CorruptRow stream_id (OfValue e).

(** [parse::<u64>] of a transferred number, and [Version::new]. *)
Definition parse_version (raw : Z) : option Version := z ← try_from u64_max raw; new z.

Definition row_to_envelope (row : EventRow) (stream_label : ErrorId) : outcome PersistedEnvelope PostgresError :=
  let! version := Returns (ok_or (parse_version (row_version row)) (corrupt stream_label (str "version <= 0 or out of range"))) in
  let! schema := Returns (ok_or (z ← try_from u32_max (row_schema_version row); MkSchemaVersion <$> nz_new z)
                            (corrupt stream_label (str "schema_version == 0 or out of range"))) in
  let! event_type := Returns (map_err (corrupt_value stream_label) (EventType.from_bytes (row_event_type row))) in
  let! payload := Returns (map_err (corrupt_value stream_label) (Payload.from_bytes (row_payload row))) in
  let! metadata := Returns (map_err (corrupt_value stream_label) (transpose (Metadata.from_bytes <$> row_metadata row))) in
  let! frame := outcome_map_err (fun e => PostgresError.Frame stream_label (as_u64 version) (OfWire e))
                  (encode_frame schema event_type payload metadata) in
  Returns (map_err (PostgresError.EnvelopeCorrupt stream_label (as_u64 version))
    (PersistedEnvelope.try_new version (ef_value frame) schema (fo_event_type (ef_offsets frame))
       (fo_payload (ef_offsets frame)) (fo_metadata (ef_offsets frame)))).

(** The columns an insert binds for an envelope. *)
Definition row_of (pe : PendingEnvelope) : EventRow :=
  MkEventRow (as_u64 (pe_version pe)) (et_bytes (pe_event_type pe)) (SchemaVersion.get (pe_schema_version pe))
    (pl_bytes (pe_payload pe)) (md_bytes <$> pe_metadata pe).

Definition row_fits (pe : PendingEnvelope) : Prop :=
  payload_offset HEADER_FIXED_SIZE (et_bytes (pe_event_type pe)) (md_bytes <$> pe_metadata pe) + len (pl_bytes (pe_payload pe)) <= u32_max.

(** A row that an append wrote comes back as the envelope it was written from. *)
Lemma row_to_envelope_of pe label :
  pending_ok pe -> row_fits pe ->
  exists env, row_to_envelope (row_of pe) label = Returns (Ok env) /\ persisted_ok env /\ from_persisted env = pe.
Proof.
  intros (He & Hp & Hm) Hfit. destruct pe as [v et sv pl md]. cbn in *.
  destruct (try_new_v2_frame v sv et pl md He Hp Hm Hfit) as (env & Htry & Hok & Hfrom). exists env.
  unfold row_to_envelope, row_of. cbn [row_version row_event_type row_schema_version row_payload row_metadata pe_version pe_event_type pe_schema_version pe_payload pe_metadata].
  assert (parse_version (as_u64 v) = Some v) as ->.
  { unfold parse_version. pose proof (version_range v). rewrite try_from_ok by lia. cbn. by apply new_Some. }
  cbn [ok_or outcome_bind]. pose proof (schema_range sv). rewrite try_from_ok by lia. cbn [mbind option_bind].
  assert (MkSchemaVersion <$> nz_new (SchemaVersion.get sv) = Some sv) as ->.
  { unfold SchemaVersion.get. rewrite nz_new_get. by destruct sv. }
  cbn [ok_or outcome_bind].
  assert (EventType.from_bytes (et_bytes et) = Ok et) as -> by (apply event_type_from_bytes_spec; by destruct et).
  assert (Payload.from_bytes (pl_bytes pl) = Ok pl) as -> by (apply payload_from_bytes_spec; by destruct pl).
  assert (transpose (Metadata.from_bytes <$> (md_bytes <$> md)) = Ok md) as ->.
  { destruct md as [m|]; [|done]. cbn. assert (Metadata.from_bytes (md_bytes m) = Ok m) as -> by (apply metadata_from_bytes_spec; by destruct m). done. }
  cbn [map_err outcome_bind]. rewrite encode_frame_bytes by done. cbn [outcome_map_err map_err outcome_bind]. by rewrite Htry.
Qed.

(** ** Pages (page.rs) *)

Inductive PageRow (R : Type) : Type :=
| PageValue (row : R)
| Oversized (actual limit : Z).
#[global] Arguments PageValue {R}.
#[global] Arguments Oversized {R}.

Definition into_value {R} (p : PageRow R) : result R PostgresError :=
  match p with
  | PageValue row => Ok row
  | Oversized actual limit => Err (PostgresError.RowLimit actual limit)
  end.

(** [from_row]: the body of an oversized row is not transferred. *)
Definition page_row {R} (limit : Z) (c : Z * R) : PageRow R := if limit <? c.1 then Oversized c.1 limit else PageValue c.2.

(** [WHERE total_bytes <= byte_limit OR ordinal = 1] over the running total. *)
Fixpoint within_budget {R} (limit total : Z) (first : bool) (cands : list (Z * R)) : list (Z * R) :=
  match cands with
  | [] => []
  | c :: cands =>
      let total := total + c.1 in
      if first || (total <=? limit) then c :: within_budget limit total false cands
      else within_budget limit total false cands
  end.

(** The rows of a page, from the candidates in order with their sizes. *)
Definition page {R} (limits : Limits) (cands : list (Z * R)) : list (PageRow R) :=
  page_row (nz_get (limit_bytes limits)) <$>
    within_budget (nz_get (limit_bytes limits)) 0 true (take (Z.to_nat (BatchSize.get (limit_rows limits))) cands).

Lemma within_budget_nil {R} limit total (cands : list (Z * R)) :
  Forall (fun c => 0 < c.1) cands -> limit < total -> within_budget limit total false cands = [].
Proof.
  revert total. induction cands as [|c cands IH]; intros total; [done|]. intros [Hc Hcs]%Forall_cons Hlt. cbn.
  rewrite (proj2 (Z.leb_gt _ _)) by lia. by apply IH; [|lia].
Qed.

Lemma within_budget_prefix {R} limit total first (cands : list (Z * R)) :
  Forall (fun c => 0 < c.1) cands -> exists k, within_budget limit total first cands = take k cands.
Proof.
  revert total first. induction cands as [|c cands IH]; intros total first; [by exists 0%nat|]. intros [Hc Hcs]%Forall_cons. cbn.
  destruct first; cbn [orb].
  - destruct (IH (total + c.1) false Hcs) as [k ->]. by exists (S k).
  - destruct (Z.leb_spec (total + c.1) limit).
    + destruct (IH (total + c.1) false Hcs) as [k ->]. by exists (S k).
    + exists 0%nat. by apply within_budget_nil.
Qed.

Lemma page_spec {R} limits (cands : list (Z * R)) :
  Forall (fun c => 0 < c.1) cands ->
  let limit := nz_get (limit_bytes limits) in
  exists k, page limits cands = page_row limit <$> take k cands /\
    (cands <> [] -> (1 <= k)%nat) /\ Z.of_nat k <= BatchSize.get (limit_rows limits) /\
    (foldr Z.add 0 (take k cands).*1 <= limit \/
     exists c rest, cands = c :: rest /\ limit < c.1 /\ page limits cands = [Oversized c.1 limit]).
Proof.
  intros Hpos limit. unfold page. fold limit. set (rows := Z.to_nat (BatchSize.get (limit_rows limits))).
  pose proof (nz_range (bs_value (limit_rows limits))) as Hrows. fold (BatchSize.get (limit_rows limits)) in Hrows.
  assert (forall total, total <= limit -> forall cs, Forall (fun c : Z * R => 0 < c.1) cs ->
    total + foldr Z.add 0 (within_budget limit total false cs).*1 <= limit) as Hsum.
  { intros total Ht cs. revert total Ht. induction cs as [|c cs IH]; intros total Ht; cbn; [lia|]. intros [Hc Hcs]%Forall_cons.
    destruct (Z.leb_spec (total + c.1) limit); [cbn; specialize (IH _ ltac:(eassumption) Hcs); lia|].
    rewrite within_budget_nil by done. cbn. lia. }
  destruct cands as [|c cands].
  - exists 0%nat. rewrite take_nil. cbn. split_and!; try done; [lia|]. left. unfold limit. pose proof (nz_range (limit_bytes limits)). lia.
  - assert (exists n, rows = S n) as [n Hn] by (exists (Nat.pred rows); unfold rows; lia). rewrite Hn. cbn [take within_budget orb].
    apply Forall_cons in Hpos as [Hc Hcs]. assert (Forall (fun c : Z * R => 0 < c.1) (take n cands)) as Hcs' by by apply Forall_take.
    destruct (within_budget_prefix limit (0 + c.1) false (take n cands) Hcs') as [k Hk].
    exists (S (k `min` n)). cbn [take]. rewrite <- take_take, <- Hk. split_and!; [done|lia|lia|].
    destruct (Z.le_gt_cases c.1 limit) as [Hle|Hgt].
    + left. cbn. specialize (Hsum c.1 Hle _ Hcs'). rewrite Z.add_0_l. lia.
    + right. exists c, cands. split_and!; [done|done|]. rewrite within_budget_nil by (done || lia). cbn. unfold page_row.
      by rewrite (proj2 (Z.ltb_lt _ _)) by lia.
Qed.

(** C29: a page of a scan is never empty while there are rows left, is cut at a row and
    never skips one, holds at most the configured number of rows, and at most the
    configured bytes unless its first row alone exceeds them; then that row is all it
    holds, and it is reported as too large without its body. *)
Theorem page_bounded {R} limits (cands : list (Z * R)) :
  Forall (fun c => 0 < c.1) cands ->
  let limit := nz_get (limit_bytes limits) in
  exists k, page limits cands = page_row limit <$> take k cands /\
    (cands <> [] -> (1 <= k)%nat) /\ Z.of_nat k <= BatchSize.get (limit_rows limits) /\
    (foldr Z.add 0 (take k cands).*1 <= limit \/
     exists c rest, cands = c :: rest /\ limit < c.1 /\ page limits cands = [Oversized c.1 limit]).
Proof. apply page_spec. Qed.

End rows.
