(* ===== verification/PgDb.v ===== *)
(** * Programs over a PostgreSQL database, and what the database documents

    The adapter's code is a program over SQL statements: a tree whose nodes are the
    statements it awaits, each continued by its response ([prog]).  The database is a
    parameter ([Postgres]): its behaviour refines [documented], which states for each
    statement of the adapter what the manual says of it, over what can be observed of
    a database ([View]): the committed rows, the open transactions with the rows they
    have written, and the counters of transaction ids, sequence values and key
    numbers.  Other sessions run between any two statements, and any statement may
    fail; a failed COMMIT may still take effect, then or later. *)

From Stdlib Require Import Sorted.
From S2P Require Import Prelude Utf8 ErrorId Version Value Wire Envelope RawStore InMemory Pg.

(** ** Observations *)

(** A row of [mnesis.events]. *)
Record Event : Type := MkEvent {
  e_seq : Z;
  e_stream : Z;
  e_txid : Z;
  e_row : EventRow;
}.

Definition e_version (e : Event) : Z := row_version (e_row e).
Definition e_pos (e : Event) : Z * Z := (e_txid e, e_seq e).

(** Rows of [mnesis.checkpoints] and [mnesis.snapshots], by key number. *)
Record CheckpointMeta : Type := MkCheckpointMeta {
  ck_revision : Z;
  ck_schema_version : Z;
  ck_txid : Z;
  ck_global_seq : Z;
  ck_history : History;
}.
Record CheckpointRow : Type := MkCheckpointRow { ck_meta : CheckpointMeta; ck_state : bytes }.
Record SnapshotRow : Type := MkSnapshotRow { sr_schema_version : Z; sr_version : Z; sr_state : bytes }.

Record Side : Type := MkSide { sd_checkpoints : gmap Z CheckpointRow; sd_snapshots : gmap Z SnapshotRow }.

(** The rows of these tables a transaction has written, and the checkpoints it has
    locked. *)
Record Held : Type := MkHeld { hd_rows : Side; hd_locks : gset Z }.

Definition nothing_held : Held := MkHeld (MkSide ∅ ∅) ∅.

Definition merge_side (new old : Side) : Side :=
  MkSide (sd_checkpoints new ∪ sd_checkpoints old) (sd_snapshots new ∪ sd_snapshots old).

(** [Active] serves statements, [Aborted] refuses them until it is rolled back, [Lost]
    has no client any more, [InDoubt] was told to commit and has not answered. *)
Inductive TxStatus : Type := Active | Aborted | Lost | InDoubt.

#[export] Instance tx_status_eq_dec : EqDecision TxStatus.
Proof. solve_decision. Defined.

Record Tx : Type := MkTx {
  tx_status : TxStatus;
  tx_xid : option Z;
  tx_keys : list (Z * bytes);
  tx_events : list Event;
  tx_held : Held;
}.

Definition tx_new : Tx := MkTx Active None [] [] nothing_held.
Definition set_status (tx : Tx) (st : TxStatus) : Tx := MkTx st (tx_xid tx) (tx_keys tx) (tx_events tx) (tx_held tx).

(** A transaction that may still commit. *)
Definition live (tx : Tx) : Prop := tx_status tx = Active \/ tx_status tx = InDoubt.

Record View : Type := MkView {
  v_keys : list (Z * bytes);
  v_events : list Event;
  v_open : gmap nat Tx;
  v_next_xid : Z;
  v_next_seq : Z;
  v_next_key : Z;
  v_side : Side;
}.

Definition set_open (v : View) (s : nat) (tx : Tx) : View :=
  MkView (v_keys v) (v_events v) (<[s := tx]> (v_open v)) (v_next_xid v) (v_next_seq v) (v_next_key v) (v_side v).
Definition drop_tx (v : View) (s : nat) : View :=
  MkView (v_keys v) (v_events v) (delete s (v_open v)) (v_next_xid v) (v_next_seq v) (v_next_key v) (v_side v).
Definition commit_tx (v : View) (s : nat) (tx : Tx) : View :=
  MkView (v_keys v ++ tx_keys tx) (v_events v ++ tx_events tx) (delete s (v_open v)) (v_next_xid v) (v_next_seq v) (v_next_key v)
    (merge_side (hd_rows (tx_held tx)) (v_side v)).

(** What the statements of a session see: committed rows and its own. *)
Definition own_keys (v : View) (s : nat) : list (Z * bytes) := from_option tx_keys [] (v_open v !! s).
Definition own_events (v : View) (s : nat) : list Event := from_option tx_events [] (v_open v !! s).
Definition seen_keys (v : View) (s : nat) : list (Z * bytes) := v_keys v ++ own_keys v s.
Definition seen_events (v : View) (s : nat) : list Event := v_events v ++ own_events v s.

(** ** Statements *)

(** A position that a scan of all events continues after: a pair, or a whole
    transaction when the sequence value is beyond the column's type. *)
Inductive After : Type :=
| AfterPair (txid seq : Z)
| AfterTxid (txid : Z).

(** [pg_snapshot]: which transactions are visible. *)
Record Snapshot : Type := MkSnapshot { sn_xmin : Z; sn_xmax : Z; sn_xip : list Z }.

Definition visible_in_snapshot (txid : Z) (snapshot : Snapshot) : bool :=
  (txid <? sn_xmin snapshot) || (txid <? sn_xmax snapshot) && bool_decide (txid ∉ sn_xip snapshot).

(** A row of [mnesis.keys] (listing.rs). *)
Record Key : Type := MkKey { key_row_number : Z; key_row_value : bytes }.

Inductive Stmt : Type :=
| SAcquire
| SBegin
| SReadKey (value : bytes)
| SReadHead (value : bytes)
| SInsertKey (value : bytes)
| SInsertEvent (number : Z) (row : EventRow)
| SSetConstraints
| SSettings
| SCommit
| SRollback
| SPageStream (number lower upper : Z) (after : option Z) (limits : Limits)
| SXmin
| SPageAll (ceiling : Z) (after : option After) (limits : Limits)
| SSnapshot
| SPageKeys (after : option Z) (snapshot : Snapshot) (limits : Limits)
| SReadCheckpoint (value : bytes) (schema limit : Z) (history : History)
| SLockCheckpoint (key : Z)
| SUpdateCheckpoint (key : Z) (row : CheckpointRow)
| SInsertCheckpoint (key : Z) (row : CheckpointRow)
| SReadSnapshot (value : bytes) (schema limit : Z)
| SUpsertSnapshot (key : Z) (row : SnapshotRow)
(** Read-only views and the catalog. *)
| SBeginView
| SMigrated
| SMigrations (checksum rows : Z)
| SShape (table : bytes)
| SSnapshotsShape
| SCheckpointsShape
| SHistoryShape
| SHistory
| SFutureTxid
| SCheckInterval (millis : Z)
(** Wakes of the process's own registry, and the hints sent to other processes, touch
    no table. *)
| AWake (stream : bytes)
| SNotify (payload : bytes)
(** Whether a timer has run out by now. *)
| AElapsed.

(** The rows a statement returns. *)
Definition Rows (a : Stmt) : Type :=
  match a with
  | SReadKey _ | SInsertKey _ => option Z
  | SReadHead _ => option (Z * option Z)
  | SInsertEvent _ _ => Z * Z
  | SSettings => option bytes
  | SPageStream _ _ _ _ _ => list (PageRow EventRow)
  | SXmin => Z
  | SPageAll _ _ _ => list (PageRow AllEventRow)
  | SSnapshot => Snapshot
  | SPageKeys _ _ _ => list (PageRow Key)
  | SReadCheckpoint _ _ _ _ => option (CheckpointMeta * Z * option bytes)
  | SLockCheckpoint _ => option CheckpointMeta
  | SUpdateCheckpoint _ _ | SInsertCheckpoint _ _ => option Z
  | SReadSnapshot _ _ _ => option (Z * Z * Z * option bytes)
  | SUpsertSnapshot _ _ => Z
  | SMigrated | SShape _ | SSnapshotsShape | SCheckpointsShape | SHistoryShape | SFutureTxid => bool
  | SMigrations _ _ => list (Z * bool * bytes)
  | SHistory => bytes
  | AElapsed => bool
  | _ => ()
  end.

Definition Resp (a : Stmt) : Type := result (Rows a) SqlxError.

(** ** Programs *)

Inductive prog (A : Type) : Type :=
| ret (a : A)
| act (s : Stmt) (k : Resp s -> prog A).
Arguments ret {A}.
Arguments act {A}.

Fixpoint prog_bind {A B} (p : prog A) (f : A -> prog B) : prog B :=
  match p with
  | ret a => f a
  | act s k => act s (fun r => prog_bind (k r) f)
  end.

(** The [?] of a fallible step. *)
Definition prog_try {A B E} (p : prog (result A E)) (f : A -> prog (result B E)) : prog (result B E) :=
  prog_bind p (fun r => match r with Ok a => f a | Err e => ret (Err e) end).

Notation "'let*' x ':=' p 'in' k" := (prog_bind p (fun x => k))
  (at level 10, x pattern, p at level 200, k at level 200) : mnesis_scope.
Notation "'let*?' x ':=' p 'in' k" := (prog_try p (fun x => k))
  (at level 10, x pattern, p at level 200, k at level 200) : mnesis_scope.

Definition sql_err {A} (r : result A SqlxError) : result A PostgresError := map_err PostgresError.Sqlx r.

(** A statement whose error is the adapter's [Sqlx] error. *)
Definition sql (s : Stmt) : prog (result (Rows s) PostgresError) := act s (fun r => ret (sql_err r)).

Definition prog_map {A B} (f : A -> B) (p : prog A) : prog B := prog_bind p (fun a => ret (f a)).

(** ** The documented behaviour of each statement *)

(** A failed statement aborts the transaction it ran in; counters may have advanced. *)
Definition failed (v : View) (s : nat) (v' : View) : Prop :=
  exists x q n, v_next_xid v <= x /\ v_next_seq v <= q /\ v_next_key v <= n /\
    v' = MkView (v_keys v) (v_events v)
      (match v_open v !! s with
       | Some tx => <[s := set_status tx (match tx_status tx with InDoubt => InDoubt | Lost => Lost | _ => Aborted end)]> (v_open v)
       | None => v_open v
       end) x q n (v_side v).

(** A statement can be served: no transaction, or an active one. *)
Definition serving (v : View) (s : nat) : Prop := from_option (fun tx => tx_status tx = Active) True (v_open v !! s).

(** A read changes nothing; only an insert into [mnesis.events] violates a constraint
    of that table. *)
Definition reads {R} (v : View) (s : nat) (answer : R -> Prop) (r : result R SqlxError) (v' : View) : Prop :=
  match r with Ok x => serving v s /\ answer x /\ v' = v | Err e => failed v s v' /\ is_stream_conflict e = false end.

(** The first write of a transaction gives it an id no transaction had before. *)
Definition assigns (v : View) (tx : Tx) (x next : Z) : Prop :=
  match tx_xid tx with
  | Some y => x = y /\ next = v_next_xid v
  | None => v_next_xid v <= x <= u64_max /\ next = x + 1
  end.

(** A row conflicts with what is committed, what the session wrote, and what any other
    transaction wrote that may still commit (the statement waits for that one). *)
Definition taken {R} (committed : list R) (own : Tx -> list R) (v : View) (s : nat) (same : R -> Prop) : Prop :=
  exists r, same r /\ (r ∈ committed \/ exists s' tx, v_open v !! s' = Some tx /\ (s' = s \/ live tx) /\ r ∈ own tx).

Definition same_version (number version : Z) (e : Event) : Prop := e_stream e = number /\ e_version e = version.

(** The highest version among the rows of a stream. *)
Definition max_version (events : list Event) (number : Z) : option Z :=
  foldr (fun e m => if e_stream e =? number then Some (from_option (Z.max (e_version e)) (e_version e) m) else m) None events.

Definition key_number (keys : list (Z * bytes)) (value : bytes) : option Z :=
  (fun e => e.1) <$> head (filter (fun e => e.2 = value) keys).

Definition key_value (keys : list (Z * bytes)) (number : Z) : option bytes :=
  (fun e => e.2) <$> head (filter (fun e => e.1 = number) keys).

(** [row_bytes]: scalars, stream id, type, payload and metadata. *)
Definition row_bytes (keys : list (Z * bytes)) (e : Event) : Z :=
  32 + from_option len 0 (key_value keys (e_stream e)) + len (row_event_type (e_row e)) + len (row_payload (e_row e)) +
  from_option len 0 (row_metadata (e_row e)).

Definition all_row (keys : list (Z * bytes)) (e : Event) : AllEventRow :=
  MkAllEventRow (default [] (key_value keys (e_stream e))) (e_txid e) (e_seq e) (e_row e).

(** [ORDER BY]: the selected rows, in an order. *)
Definition ordered {R} (lt : R -> R -> Prop) (rows : list R) (P : R -> Prop) (cands : list R) : Prop :=
  StronglySorted lt cands /\ forall e, e ∈ cands <-> e ∈ rows /\ P e.

Definition version_lt (a b : Event) : Prop := e_version a < e_version b.
Definition event_lt (a b : Event) : Prop := pos_lt (e_pos a) (e_pos b).

(** The [WHERE] of the two scans. *)
Definition stream_selected (number lower upper : Z) (after : option Z) (e : Event) : Prop :=
  e_stream e = number /\ lower <= e_version e <= upper /\ from_option (fun a => a < e_version e) True after.
Definition beyond (after : After) (e : Event) : Prop :=
  match after with
  | AfterPair txid seq => pos_lt (txid, seq) (e_pos e)
  | AfterTxid txid => txid < e_txid e
  end.
Definition all_selected (ceiling : Z) (after : option After) (e : Event) : Prop :=
  e_txid e < ceiling /\ from_option (fun a => beyond a e) True after.

(** The keys a listing selects: those with an event that the snapshot shows. *)
Definition number_lt (a b : Z * bytes) : Prop := a.1 < b.1.
Definition keys_selected (events : list Event) (after : option Z) (snapshot : Snapshot) (k : Z * bytes) : Prop :=
  from_option (fun a => a < k.1) True after /\
  exists e, e ∈ events /\ e_stream e = k.1 /\ visible_in_snapshot (e_txid e) snapshot = true.

(** [pg_snapshot_xmin]: the lowest id of a transaction still in progress, or the next
    one to be given out. *)
Definition xmin (v : View) (x : Z) : Prop :=
  (forall s tx y, v_open v !! s = Some tx -> live tx -> tx_xid tx = Some y -> x <= y) /\ x <= v_next_xid v /\
  (x = v_next_xid v \/ exists s tx, v_open v !! s = Some tx /\ tx_xid tx = Some x).

(** [pg_current_snapshot]: it shows what is committed, and nothing of a transaction in
    progress or to come. *)
Definition current_snapshot (v : View) (sn : Snapshot) : Prop :=
  (forall e, e ∈ v_events v -> visible_in_snapshot (e_txid e) sn = true) /\
  (forall s tx y, v_open v !! s = Some tx -> live tx -> tx_xid tx = Some y -> visible_in_snapshot y sn = false) /\
  (forall y, v_next_xid v <= y -> visible_in_snapshot y sn = false).

(** The constraints of [mnesis.events] that a row satisfies. *)
Definition row_constraints (row : EventRow) : Prop :=
  0 < row_version row <= u64_max /\ 0 < row_schema_version row <= u32_max.

Definition inserts_key (v : View) (s : nat) (value : bytes) (r : option Z) (v' : View) : Prop :=
  exists tx x next, v_open v !! s = Some tx /\ tx_status tx = Active /\
    match r with
    | Some n =>
        assigns v tx x next /\ ~ taken (v_keys v) tx_keys v s (fun e => e.2 = value) /\ v_next_key v <= n /\
        v' = MkView (v_keys v) (v_events v) (<[s := MkTx Active (Some x) (tx_keys tx ++ [(n, value)]) (tx_events tx) (tx_held tx)]> (v_open v))
               next (v_next_seq v) (n + 1) (v_side v)
    | None =>
        (exists n, (n, value) ∈ seen_keys v s) /\ exists n, v_next_key v <= n /\
        (v' = MkView (v_keys v) (v_events v) (v_open v) (v_next_xid v) (v_next_seq v) n (v_side v) \/
         assigns v tx x next /\
         v' = MkView (v_keys v) (v_events v) (<[s := MkTx Active (Some x) (tx_keys tx) (tx_events tx) (tx_held tx)]> (v_open v)) next (v_next_seq v) n (v_side v))
    end.

Definition inserts_event (v : View) (s : nat) (number : Z) (row : EventRow) (q x : Z) (v' : View) : Prop :=
  exists tx next, v_open v !! s = Some tx /\ tx_status tx = Active /\ assigns v tx x next /\
    row_constraints row /\ number ∈ (seen_keys v s).*1 /\
    ~ taken (v_events v) tx_events v s (same_version number (row_version row)) /\
    v_next_seq v <= q <= i64_max /\ 0 < q /\
    v' = MkView (v_keys v) (v_events v)
           (<[s := MkTx Active (Some x) (tx_keys tx) (tx_events tx ++ [MkEvent q number x row]) (tx_held tx)]> (v_open v))
           next (q + 1) (v_next_key v) (v_side v).

(** The checkpoint and the snapshot of a key as a session sees them. *)
Definition own_side (v : View) (s : nat) : Side := from_option (fun tx => hd_rows (tx_held tx)) (MkSide ∅ ∅) (v_open v !! s).
Definition seen_checkpoint (v : View) (s : nat) (n : Z) : option CheckpointRow := sd_checkpoints (merge_side (own_side v s) (v_side v)) !! n.
Definition seen_snapshot (v : View) (s : nat) (n : Z) : option SnapshotRow := sd_snapshots (merge_side (own_side v s) (v_side v)) !! n.

(** A row lock waits for every other transaction that holds it. *)
Definition locked_elsewhere (v : View) (s : nat) (n : Z) : Prop :=
  exists s' tx, s' <> s /\ v_open v !! s' = Some tx /\ live tx /\ n ∈ hd_locks (tx_held tx).

(** A statement of an active transaction that writes or locks rows of these tables. *)
Definition holds (v : View) (s : nat) (upd : Held -> Held) (v' : View) : Prop :=
  exists tx x next, v_open v !! s = Some tx /\ tx_status tx = Active /\ assigns v tx x next /\
    v' = MkView (v_keys v) (v_events v) (<[s := MkTx Active (Some x) (tx_keys tx) (tx_events tx) (upd (tx_held tx))]> (v_open v))
           next (v_next_seq v) (v_next_key v) (v_side v).

Definition lock_row (n : Z) (h : Held) : Held := MkHeld (hd_rows h) ({[n]} ∪ hd_locks h).
Definition write_checkpoint (n : Z) (row : CheckpointRow) (h : Held) : Held :=
  MkHeld (MkSide (<[n := row]> (sd_checkpoints (hd_rows h))) (sd_snapshots (hd_rows h))) ({[n]} ∪ hd_locks h).
Definition write_snapshot (n : Z) (row : SnapshotRow) (h : Held) : Held :=
  MkHeld (MkSide (sd_checkpoints (hd_rows h)) (<[n := row]> (sd_snapshots (hd_rows h)))) (hd_locks h).

(** [SELECT ... FOR UPDATE]: the row as it is once the lock is granted; nothing is
    locked if there is none. *)
Definition locks_checkpoint (v : View) (s : nat) (n : Z) (r : option CheckpointMeta) (v' : View) : Prop :=
  r = ck_meta <$> seen_checkpoint v s n /\
  match r with
  | Some _ => ~ locked_elsewhere v s n /\ holds v s (lock_row n) v'
  | None => from_option (fun tx => tx_status tx = Active) False (v_open v !! s) /\ v' = v
  end.

(** [UPDATE ... RETURNING key]. *)
Definition updates_checkpoint (v : View) (s : nat) (n : Z) (row : CheckpointRow) (r : option Z) (v' : View) : Prop :=
  match r with
  | Some m => m = n /\ seen_checkpoint v s n <> None /\ ~ locked_elsewhere v s n /\ holds v s (write_checkpoint n row) v'
  | None => seen_checkpoint v s n = None /\ v' = v
  end.

(** [INSERT ... ON CONFLICT (key) DO NOTHING RETURNING key]: it waits for a transaction
    that has inserted the key. *)
Definition inserts_checkpoint (v : View) (s : nat) (n : Z) (row : CheckpointRow) (r : option Z) (v' : View) : Prop :=
  match r with
  | Some m => m = n /\ seen_checkpoint v s n = None /\ ~ locked_elsewhere v s n /\ holds v s (write_checkpoint n row) v'
  | None => seen_checkpoint v s n <> None /\ (v' = v \/ holds v s id v')
  end.

(** The columns a hydration asks for: the state only where it can be used. *)
Definition checkpoint_columns (value : bytes) (schema limit : Z) (history : History) (row : CheckpointRow) : CheckpointMeta * Z * option bytes :=
  let size := len value + len (ck_state row) + 48 in
  (ck_meta row, size,
   if (ck_schema_version (ck_meta row) =? schema) && bool_decide (ck_history (ck_meta row) = history) && (size <=? limit) then Some (ck_state row) else None).
Definition snapshot_columns (value : bytes) (schema limit : Z) (row : SnapshotRow) : Z * Z * Z * option bytes :=
  let size := len value + len (sr_state row) + 32 in
  (sr_schema_version row, sr_version row, size,
   if (sr_schema_version row =? schema) && (size <=? limit) then Some (sr_state row) else None).

(** A failed COMMIT: rolled back for sure, or not known, and then it may have happened,
    happen later, or never. *)
Definition commit_fails (v : View) (s : nat) (e : SqlxError) (v' : View) : Prop :=
  v' = drop_tx v s \/
  rejects_commit e = false /\ exists tx, v_open v !! s = Some tx /\ tx_status tx = Active /\
    (v' = commit_tx v s tx \/ v' = set_open v s (set_status tx InDoubt)).

Definition documented (v : View) (s : nat) (a : Stmt) : Resp a -> View -> Prop :=
  match a return Resp a -> View -> Prop with
  | SBegin => fun r v' =>
      match r with
      | Ok _ => v_open v !! s = None /\ v' = set_open v s tx_new
      | Err _ => v' = v
      end
  | SAcquire => reads v s (fun _ => True)
  | SReadKey value => reads v s (fun r => r = key_number (seen_keys v s) value)
  | SReadHead value => reads v s (fun r =>
      r = (fun n => (n, max_version (seen_events v s) n)) <$> key_number (seen_keys v s) value)
  | SInsertKey value => fun r v' => match r with Ok n => inserts_key v s value n v' | Err e => failed v s v' /\ is_stream_conflict e = false end
  | SInsertEvent number row => fun r v' =>
      match r with
      | Ok (q, x) => inserts_event v s number row q x v'
      | Err e =>
          failed v s v' /\
          (is_stream_conflict e = true -> exists tx d, v_open v !! s = Some tx /\ tx_status tx = Active /\
             d ∈ seen_events v s /\ same_version number (row_version row) d)
      end
  | SSetConstraints => reads v s (fun _ => True)
  | SSettings => reads v s (fun _ => True)
  | SCommit => fun r v' =>
      match r with
      | Ok _ =>
          exists tx, v_open v !! s = Some tx /\
            (tx_status tx = Active /\ v' = commit_tx v s tx \/ tx_status tx = Aborted /\ v' = drop_tx v s)
      | Err e => commit_fails v s e v'
      end
  | SRollback => fun r v' => match r with Ok _ => v' = drop_tx v s | Err _ => failed v s v' end
  | SPageStream number lower upper after limits => reads v s (fun r => exists cands,
      ordered version_lt (seen_events v s) (stream_selected number lower upper after) cands /\
      r = page limits ((fun e => (row_bytes (seen_keys v s) e, e_row e)) <$> cands))
  | SXmin => reads v s (xmin v)
  | SPageAll ceiling after limits => reads v s (fun r => exists cands,
      ordered event_lt (seen_events v s) (all_selected ceiling after) cands /\
      r = page limits ((fun e => (row_bytes (seen_keys v s) e, all_row (seen_keys v s) e)) <$> cands))
  | SSnapshot => reads v s (current_snapshot v)
  | SPageKeys after snapshot limits => reads v s (fun r => exists cands,
      ordered number_lt (seen_keys v s) (keys_selected (seen_events v s) after snapshot) cands /\
      r = page limits ((fun k => (32 + len k.2, MkKey k.1 k.2)) <$> cands))
  | SReadCheckpoint value schema limit history => reads v s (fun r =>
      r = (n ← key_number (seen_keys v s) value; checkpoint_columns value schema limit history <$> seen_checkpoint v s n))
  | SLockCheckpoint key => fun r v' => match r with Ok row => locks_checkpoint v s key row v' | Err e => failed v s v' /\ is_stream_conflict e = false end
  | SUpdateCheckpoint key row => fun r v' =>
      match r with Ok saved => updates_checkpoint v s key row saved v' | Err e => failed v s v' /\ is_stream_conflict e = false end
  | SInsertCheckpoint key row => fun r v' =>
      match r with Ok saved => inserts_checkpoint v s key row saved v' | Err e => failed v s v' /\ is_stream_conflict e = false end
  | SReadSnapshot value schema limit => reads v s (fun r =>
      r = (n ← key_number (seen_keys v s) value; snapshot_columns value schema limit <$> seen_snapshot v s n))
  | SUpsertSnapshot key row => fun r v' =>
      match r with Ok _ => holds v s (write_snapshot key row) v' | Err e => failed v s v' /\ is_stream_conflict e = false end
  | SBeginView | SMigrated | SMigrations _ _ | SShape _ | SSnapshotsShape | SCheckpointsShape | SHistoryShape | SHistory
  | SFutureTxid | SCheckInterval _ => reads v s (fun _ => True)
  | AWake _ => fun _ v' => v' = v
  | SNotify _ => fun _ v' => v' = v
  | AElapsed => fun _ v' => v' = v
  end.

(** What happens without a statement: a client disappears, a transaction in doubt is
    settled either way, a dead one is removed. *)
Definition settles (v v' : View) : Prop :=
  exists s tx, v_open v !! s = Some tx /\
    match tx_status tx with
    | Active => v' = set_open v s (set_status tx Lost)
    | InDoubt => v' = commit_tx v s tx \/ v' = drop_tx v s
    | Aborted | Lost => v' = drop_tx v s
    end.

(** ** The database as a parameter *)

Class Postgres := {
  Db : Type;
  view : Db -> View;
  exec : Db -> nat -> forall a : Stmt, Resp a -> Db -> Prop;
  background : Db -> Db -> Prop;
  exec_documented d s a r d' : exec d s a r d' -> documented (view d) s a r (view d');
  background_documented d d' : background d d' -> settles (view d) (view d');
}.

(** The database that does everything the manual allows. *)
Definition manual : Postgres := {|
  Db := View;
  view v := v;
  exec := documented;
  background := settles;
  exec_documented _ _ _ _ _ H := H;
  background_documented _ _ H := H;
|}.
