(* ===== verification/PgInv.v ===== *)
(** * The invariant of the tables

    Every stream holds the versions 1, 2, 3, ... without a gap, its transactions and
    sequence values grow with its versions, positions and keys are unique, and this
    stays true whatever transactions commit, although every session works under READ
    COMMITTED: of two transactions that write the same version one fails.  It holds for
    sessions that insert a version only right after the ones they see, and only in a
    transaction that is younger than the rows before it ([legit]). *)

From Stdlib Require Import Sorted.
From S2P Require Import Prelude Utf8 ErrorId Version Value Wire Envelope RawStore InMemory Pg PgDb.

(** ** Unique columns

    A column over the committed rows [c] and the rows of the transactions that may
    still commit. *)

Section unique.
Context {R X : Type} (f : R -> X).

Record unique (c : list R) (o : nat -> option (list R)) : Prop := MkUnique {
  uq_committed : NoDup (f <$> c);
  uq_own s l : o s = Some l -> NoDup (f <$> (c ++ l));
  uq_apart s1 s2 l1 l2 a b : s1 <> s2 -> o s1 = Some l1 -> o s2 = Some l2 -> a ∈ l1 -> b ∈ l2 -> f a <> f b;
}.

Lemma unique_carried c o o' : unique c o -> (forall s l, o' s = Some l -> o s = Some l \/ l = []) -> unique c o'.
Proof.
  intros [Hc Ho Ha] Hsub. split; [done| |].
  - intros s l [Hl| ->]%Hsub; [by eapply Ho|by rewrite app_nil_r].
  - intros s1 s2 l1 l2 a b Hne [H1| ->]%Hsub [H2| ->]%Hsub Hin1 Hin2; [by eapply Ha|set_solver..].
Qed.

Lemma unique_insert c o o' s l new :
  unique c o -> o s = Some l -> NoDup (f <$> new) ->
  (forall r r', r ∈ new -> r' ∈ c \/ (exists s' l', o s' = Some l' /\ r' ∈ l') -> f r' <> f r) ->
  (forall s', o' s' = if decide (s' = s) then Some (l ++ new) else o s') -> unique c o'.
Proof.
  intros [Hc Ho Ha] Hs Hnd Hnew Ho'. split; [done| |].
  - intros s' l'. rewrite Ho'. case_decide; [intros [= <-]; subst s'|by apply Ho].
    rewrite app_assoc, fmap_app. apply NoDup_app. split_and!; [by eapply Ho| |done].
    intros x (r & -> & Hr)%list_elem_of_fmap (r' & Heq & Hr')%list_elem_of_fmap.
    apply (Hnew r' r); [done| |done]. apply elem_of_app in Hr as [?|?]; [by left|right; by exists s, l].
  - intros s1 s2 l1 l2 a b Hne. rewrite !Ho'. repeat case_decide; subst; try done.
    + intros [= <-] H2 [Hin|Hin]%elem_of_app Hb; [by eapply (Ha s s2)|]. apply not_eq_sym, (Hnew a b); [done|]. right. by exists s2, l2.
    + intros H1 [= <-] Hin [Hb|Hb]%elem_of_app; [by eapply (Ha s1 s)|]. apply (Hnew b a); [done|]. right. by exists s1, l1.
    + by apply Ha.
Qed.

Lemma unique_commit c o o' s l :
  unique c o -> o s = Some l -> (forall s', o' s' = if decide (s' = s) then None else o s') -> unique (c ++ l) o'.
Proof.
  intros [Hc Ho Ha] Hs Ho'. split; [by eapply Ho| |].
  - intros s' l'. rewrite Ho'. case_decide; [done|]. intros Hl'. rewrite <- app_assoc, fmap_app. apply NoDup_app.
    pose proof (Ho _ _ Hs) as Hn. pose proof (Ho _ _ Hl') as Hn'. rewrite fmap_app in Hn, Hn'.
    apply NoDup_app in Hn as (_ & Hcl & Hl). apply NoDup_app in Hn' as (_ & Hcl' & Hl2). split_and!; [done| |].
    + intros x Hx. rewrite fmap_app, not_elem_of_app. auto.
    + rewrite fmap_app. apply NoDup_app. split_and!; [done| |done].
      intros x (r & -> & Hr)%list_elem_of_fmap (r' & Heq & Hr')%list_elem_of_fmap.
      by eapply (Ha s s' l l' r r').
  - intros s1 s2 l1 l2 a b Hne. rewrite !Ho'. repeat case_decide; try done. by apply Ha.
Qed.
End unique.

(** The rows of a session that may still commit. *)
Definition owned {R} (own : Tx -> list R) (v : View) (s : nat) : option (list R) :=
  tx ← v_open v !! s; if decide (tx_status tx = Active \/ tx_status tx = InDoubt) then Some (own tx) else None.

Lemma owned_Some {R} (own : Tx -> list R) v s l :
  owned own v s = Some l <-> exists tx, v_open v !! s = Some tx /\ live tx /\ l = own tx.
Proof.
  unfold owned, live. destruct (v_open v !! s) as [tx|]; cbn; [|naive_solver]. case_decide; naive_solver.
Qed.

(** ** Streams *)

Definition of_stream (n : Z) (events : list Event) : list Event := filter (fun e => e_stream e = n) events.

(** The events of a stream, in the order in which they were committed. *)
Definition stream_at (v : View) (n : Z) : list Event := of_stream n (v_events v).

(** Versions 1, 2, 3, ... *)
Definition numbered (l : list Event) : Prop := e_version <$> l = seqZ 1 (len l).

Lemma of_stream_app n l k : of_stream n (l ++ k) = of_stream n l ++ of_stream n k.
Proof. apply filter_app. Qed.

Lemma of_stream_one n e : of_stream n [e] = if decide (e_stream e = n) then [e] else [].
Proof. unfold of_stream. rewrite filter_cons. by case_decide. Qed.

Lemma elem_of_stream n e l : e ∈ of_stream n l <-> e_stream e = n /\ e ∈ l.
Proof. unfold of_stream. by rewrite list_elem_of_filter. Qed.

Lemma numbered_lookup l i e : numbered l -> l !! i = Some e -> e_version e = Z.of_nat i + 1.
Proof.
  intros Hn Hl. assert ((e_version <$> l) !! i = Some (e_version e)) as H by (by rewrite list_lookup_fmap, Hl).
  rewrite Hn in H. apply lookup_seqZ in H. lia.
Qed.

Lemma numbered_snoc l e : numbered l -> e_version e = len l + 1 -> numbered (l ++ [e]).
Proof.
  intros Hn He. unfold numbered in *. rewrite fmap_app, Hn, len_app, len_cons, len_nil. cbn. rewrite He.
  replace (len l + (1 + 0)) with (len l + 1) by lia. rewrite seqZ_app by (pose proof (len_nonneg l); lia).
  f_equal. replace (1 + len l) with (len l + 1) by lia. done.
Qed.

Lemma numbered_app l k : numbered (l ++ k) -> numbered l.
Proof.
  unfold numbered. rewrite fmap_app, len_app. rewrite seqZ_app by apply len_nonneg.
  intros H. apply app_inj_1 in H as [H _]; [done|]. rewrite length_fmap, length_seqZ. unfold len. lia.
Qed.

(** The versions of the part after [l]. *)
Lemma numbered_after l k i e : numbered (l ++ k) -> k !! i = Some e -> e_version e = len l + Z.of_nat i + 1.
Proof.
  intros Hn Hk. pose proof (numbered_lookup (l ++ k) (length l + i) e Hn) as H. rewrite H; [unfold len; lia|].
  rewrite lookup_app_r by lia. by replace (length l + i - length l)%nat with i by lia.
Qed.

Lemma sorted_app_inv {A} (lt : A -> A -> Prop) l k :
  StronglySorted lt (l ++ k) -> StronglySorted lt l /\ StronglySorted lt k /\ forall a b, a ∈ l -> b ∈ k -> lt a b.
Proof.
  induction l as [|x l IH]; cbn; [intros H; split_and!; [constructor|done|set_solver]|].
  intros [H Hx]%StronglySorted_inv. destruct (IH H) as (Hl & Hk & Hlk). apply Forall_app in Hx as [Hxl Hxk].
  split_and!; [by constructor|done|]. intros a b [->|Ha]%elem_of_cons Hb; [|by apply Hlk].
  by eapply Forall_forall in Hxk.
Qed.

Lemma sorted_app {A} (lt : A -> A -> Prop) l k :
  StronglySorted lt l -> StronglySorted lt k -> (forall a b, a ∈ l -> b ∈ k -> lt a b) -> StronglySorted lt (l ++ k).
Proof.
  intros Hl Hk Hlk. induction Hl as [|x l Hl IH Hx]; cbn; [done|]. constructor.
  - apply IH. intros a b Ha. apply Hlk. by right.
  - apply Forall_app. split; [done|]. apply Forall_forall. intros b Hb. apply Hlk; [by left|done].
Qed.

(** ** The invariant *)

Definition key_of (e : Event) : Z * Z := (e_stream e, e_version e).

Record view_inv (v : View) : Prop := MkViewInv {
  vi_numbered n : numbered (stream_at v n);
  vi_order n : StronglySorted event_lt (stream_at v n);
  vi_own s tx n : v_open v !! s = Some tx -> live tx -> of_stream n (tx_events tx) <> [] ->
    numbered (stream_at v n ++ of_stream n (tx_events tx)) /\ StronglySorted event_lt (stream_at v n ++ of_stream n (tx_events tx));
  vi_versions : unique key_of (v_events v) (owned tx_events v);
  vi_seqs : unique e_seq (v_events v) (owned tx_events v);
  vi_numbers : unique fst (v_keys v) (owned tx_keys v);
  vi_values : unique snd (v_keys v) (owned tx_keys v);
  vi_events e : e ∈ v_events v -> (0 < e_seq e <= i64_max /\ e_seq e < v_next_seq v) /\ e_txid e < v_next_xid v /\ row_constraints (e_row e) /\ e_stream e ∈ (v_keys v).*1;
  vi_written s tx e : v_open v !! s = Some tx -> live tx -> e ∈ tx_events tx ->
    (0 < e_seq e <= i64_max /\ e_seq e < v_next_seq v) /\ tx_xid tx = Some (e_txid e) /\ row_constraints (e_row e) /\ e_stream e ∈ (v_keys v ++ tx_keys tx).*1;
  vi_xid s tx x : v_open v !! s = Some tx -> live tx -> tx_xid tx = Some x -> x < v_next_xid v;
  vi_keys k : k ∈ v_keys v -> k.1 < v_next_key v;
  vi_own_keys s tx k : v_open v !! s = Some tx -> live tx -> k ∈ tx_keys tx -> k.1 < v_next_key v;
  vi_locks s1 s2 tx1 tx2 n : s1 <> s2 -> v_open v !! s1 = Some tx1 -> v_open v !! s2 = Some tx2 -> live tx1 -> live tx2 ->
    n ∈ hd_locks (tx_held tx1) -> n ∈ hd_locks (tx_held tx2) -> False;
  vi_held s tx n : v_open v !! s = Some tx -> live tx -> is_Some (sd_checkpoints (hd_rows (tx_held tx)) !! n) -> n ∈ hd_locks (tx_held tx);
}.

(** What a session of the adapter may insert: the version after those it sees, in a
    transaction younger than the committed rows of the stream. *)
Definition legit (v : View) (s : nat) (a : Stmt) : Resp a -> Prop :=
  match a return Resp a -> Prop with
  | SInsertEvent n row => fun r =>
      match r with
      | Ok (_, x) =>
          row_version row = len (stream_at v n ++ of_stream n (own_events v s)) + 1 /\
          forall e, e ∈ stream_at v n -> e_txid e < x
      | Err _ => True
      end
  | _ => fun _ => True
  end.

(** ** What statements do to a view *)

(** A transaction that may commit was there before with the same rows, or is new. *)
Definition carried (v v' : View) : Prop :=
  forall s tx', v_open v' !! s = Some tx' -> live tx' ->
    tx' = tx_new \/ exists tx, v_open v !! s = Some tx /\ live tx /\ tx_xid tx' = tx_xid tx /\ tx_keys tx' = tx_keys tx /\ tx_events tx' = tx_events tx /\ tx_held tx' = tx_held tx.

(** The rows one statement adds to a transaction with id [x]. *)
Definition adds_key (v : View) (s : nat) (k : Z * bytes) : Prop :=
  ~ taken (v_keys v) tx_keys v s (fun e => e.2 = k.2) /\ v_next_key v <= k.1.
Definition adds_event (v : View) (s : nat) (x : Z) (e : Event) : Prop :=
  e_txid e = x /\ row_constraints (e_row e) /\ e_stream e ∈ (seen_keys v s).*1 /\
  ~ taken (v_events v) tx_events v s (same_version (e_stream e) (e_version e)) /\
  v_next_seq v <= e_seq e <= i64_max /\ 0 < e_seq e /\
  e_version e = len (stream_at v (e_stream e) ++ of_stream (e_stream e) (own_events v s)) + 1 /\
  forall c, c ∈ stream_at v (e_stream e) -> e_txid c < x.

Inductive change (v : View) (s : nat) (v' : View) : Prop :=
| change_none :
    v_keys v' = v_keys v -> v_events v' = v_events v -> v_next_xid v <= v_next_xid v' -> v_next_seq v <= v_next_seq v' ->
    v_next_key v <= v_next_key v' -> v_side v' = v_side v -> carried v v' -> change v s v'
| change_write tx x next ks es held q n :
    v_open v !! s = Some tx -> tx_status tx = Active -> assigns v tx x next ->
    (ks = [] \/ exists k, ks = [k] /\ adds_key v s k) -> (es = [] \/ exists e, es = [e] /\ adds_event v s x e) ->
    v_next_seq v <= q -> Forall (fun e => e_seq e < q) es -> v_next_key v <= n -> Forall (fun k => k.1 < n) ks ->
    (forall m, m ∈ hd_locks held -> m ∈ hd_locks (tx_held tx) \/ ~ locked_elsewhere v s m) ->
    (forall m, is_Some (sd_checkpoints (hd_rows held) !! m) -> m ∈ hd_locks held \/ is_Some (sd_checkpoints (hd_rows (tx_held tx)) !! m)) ->
    (forall m, m ∈ hd_locks (tx_held tx) -> m ∈ hd_locks held) ->
    v' = MkView (v_keys v) (v_events v) (<[s := MkTx Active (Some x) (tx_keys tx ++ ks) (tx_events tx ++ es) held]> (v_open v)) next q n (v_side v) ->
    change v s v'
| change_commit tx : v_open v !! s = Some tx -> live tx -> v' = commit_tx v s tx -> change v s v'.

Lemma carried_refl v : carried v v.
Proof. intros s tx Hs Hl. right. by exists tx. Qed.

Lemma carried_set v s tx tx' :
  v_open v !! s = Some tx -> (live tx' -> live tx /\ tx_xid tx' = tx_xid tx /\ tx_keys tx' = tx_keys tx /\ tx_events tx' = tx_events tx /\ tx_held tx' = tx_held tx) ->
  carried v (set_open v s tx').
Proof.
  intros Hs Hl s' t. cbn. rewrite lookup_insert. case_decide; [intros [= <-] Hlive; subst s'|intros ?; apply carried_refl; done].
  right. exists tx. destruct (Hl Hlive) as (? & ? & ? & ? & ?). done.
Qed.

Lemma carried_drop v s : carried v (drop_tx v s).
Proof. intros s' t. cbn. rewrite lookup_delete_Some. intros [_ Hs] Hl. right. by exists t. Qed.

Lemma dead_not_live tx st : st = Lost \/ st = Aborted -> ~ live (set_status tx st).
Proof. unfold live. cbn. intros [->| ->] [|]; done. Qed.

Lemma failed_change v s v' : failed v s v' -> change v s v'.
Proof.
  intros (x & q & n & Hx & Hq & Hn & ->). apply change_none; cbn; try done. destruct (v_open v !! s) as [tx|] eqn:Hs.
  - intros s' t. cbn. rewrite lookup_insert. case_decide; [intros [= <-]; subst s'|intros ?; by apply carried_refl].
    intros Hl. right. exists tx. destruct tx as [[] xid ks es held]; cbn in *; try done; by destruct Hl.
  - intros s' t. cbn. apply carried_refl.
Qed.

Lemma reads_change {R} v s (P : R -> Prop) r v' : reads v s P r v' -> change v s v'.
Proof.
  destruct r as [x|e]; cbn; [|by intros [?%failed_change _]]. intros (_ & _ & ->).
  apply change_none; try done; [lia..|apply carried_refl].
Qed.

Lemma same_change v s : change v s v.
Proof. apply change_none; try done; [lia..|apply carried_refl]. Qed.

Lemma drop_change v s : change v s (drop_tx v s).
Proof. apply change_none; cbn; try done; [lia..|apply carried_drop]. Qed.

(** Row locks and rows of the side tables. *)
Lemma holds_change v s upd v' :
  holds v s upd v' ->
  (forall tx, v_open v !! s = Some tx -> (forall m, m ∈ hd_locks (upd (tx_held tx)) -> m ∈ hd_locks (tx_held tx) \/ ~ locked_elsewhere v s m) /\
    (forall m, is_Some (sd_checkpoints (hd_rows (upd (tx_held tx))) !! m) -> m ∈ hd_locks (upd (tx_held tx)) \/ is_Some (sd_checkpoints (hd_rows (tx_held tx)) !! m)) /\
    (forall m, m ∈ hd_locks (tx_held tx) -> m ∈ hd_locks (upd (tx_held tx)))) ->
  change v s v'.
Proof.
  intros (tx & x & next & Hs & Ha & Has & ->) Hupd. destruct (Hupd tx Hs) as (H1 & H2 & H3).
  apply (change_write v s _ tx x next [] [] (upd (tx_held tx)) (v_next_seq v) (v_next_key v)); auto; try lia; try done. by rewrite !app_nil_r.
Qed.

Lemma lock_change v s n v' : ~ locked_elsewhere v s n -> holds v s (lock_row n) v' -> change v s v'.
Proof.
  intros Hn Hh. eapply holds_change; [exact Hh|]. intros tx _. cbn. split_and!; [|auto|set_solver].
  intros m [->%elem_of_singleton|?]%elem_of_union; auto.
Qed.

Lemma write_checkpoint_change v s n row v' : ~ locked_elsewhere v s n -> holds v s (write_checkpoint n row) v' -> change v s v'.
Proof.
  intros Hn Hh. eapply holds_change; [exact Hh|]. intros tx _. cbn. split_and!; [| |set_solver].
  - intros m [->%elem_of_singleton|?]%elem_of_union; auto.
  - intros m. destruct (decide (m = n)) as [->|Hne]; [left; set_solver|]. rewrite lookup_insert_ne by done. auto.
Qed.

Lemma documented_change v s a r v' : documented v s a r v' -> legit v s a r -> change v s v'.
Proof.
  destruct a; cbn [documented legit]; try (by intros ?%reads_change); try (intros -> _; apply same_change).
  - destruct r as [u|e]; [|intros -> _; apply same_change]. intros [Hs ->] _.
    apply change_none; cbn; try done; [lia..|]. intros s' t. cbn. rewrite lookup_insert.
    case_decide; [intros [= <-]; by left|]. intros Ht Hl. by apply carried_refl.
  - destruct r as [n|e]; [|by intros [?%failed_change _]]. intros (tx & x & next & Hs & Ha & H) _. destruct n as [n|].
    + destruct H as (Has & Hnt & Hn & ->). apply (change_write v s _ tx x next [(n, value)] [] (tx_held tx) (v_next_seq v) (n + 1)); auto; try lia; try done.
      * right. eexists. split; [done|]. by split.
      * repeat constructor. cbn. lia.
      * by rewrite app_nil_r.
    + destruct H as (_ & n & Hn & [->|[Has ->]]); [apply change_none; cbn; try done; [lia..|exact (carried_refl v)]|].
      apply (change_write v s _ tx x next [] [] (tx_held tx) (v_next_seq v) n); auto; try lia; try done. by rewrite !app_nil_r.
  - destruct r as [[q x]|e]; [|by intros [?%failed_change _]].
    intros (tx & next & Hs & Ha & Has & Hrc & Hk & Hnt & Hq & Hq0 & ->) [Hv Hx].
    apply (change_write v s _ tx x next [] [MkEvent q number x row] (tx_held tx) (q + 1) (v_next_key v)); auto; try lia; try done.
    + right. eexists. split; [done|]. unfold adds_event, e_version. cbn. split_and!; try done; lia.
    + repeat constructor. cbn. lia.
    + by rewrite app_nil_r.
  - destruct r as [u|e].
    + intros (tx & Hs & [[Ha ->]|[_ ->]]) _; [eapply change_commit; [done|by left|done]|apply drop_change].
    + intros [->|(_ & tx & Hs & Ha & [->| ->])] _; [apply drop_change|eapply change_commit; [done|by left|done]|].
      apply change_none; cbn; try done; [lia..|]. apply (carried_set v s tx); [done|]. intros _. split; [by left|done].
  - destruct r as [u|e]; [intros -> _; apply drop_change|by intros ?%failed_change].
  - destruct r as [row|e]; [|by intros [?%failed_change _]]. intros [_ H] _. destruct row; [by destruct H; eapply lock_change|]. destruct H as [_ ->]. apply same_change.
  - destruct r as [[m|]|e]; [| |by intros [?%failed_change _]]; intros H _; [destruct H as (_ & _ & ? & ?); by eapply write_checkpoint_change|].
    destruct H as [_ ->]. apply same_change.
  - destruct r as [[m|]|e]; [| |by intros [?%failed_change _]]; intros H _; [destruct H as (_ & _ & ? & ?); by eapply write_checkpoint_change|].
    destruct H as [_ [->|H]]; [apply same_change|]. eapply holds_change; [exact H|]. intros tx _. unfold id. auto.
  - destruct r as [m|e]; [|by intros [?%failed_change _]]. intros H _. eapply holds_change; [exact H|]. intros tx _. cbn. auto.
Qed.

Lemma settles_change v v' : settles v v' -> exists s, change v s v'.
Proof.
  intros (s & tx & Hs & H). exists s. destruct (tx_status tx) eqn:Hst.
  - subst v'. apply change_none; cbn; try done; [lia..|]. apply (carried_set v s tx); [done|]. intros Hl. by apply dead_not_live in Hl; [|left].
  - subst v'. apply drop_change.
  - subst v'. apply drop_change.
  - destruct H as [->| ->]; [eapply change_commit; [done|by right|done]|apply drop_change].
Qed.

(** ** Preservation *)

Lemma carried_owned {R} (own : Tx -> list R) v v' :
  own tx_new = [] -> (forall t t', tx_keys t = tx_keys t' -> tx_events t = tx_events t' -> own t = own t') -> carried v v' ->
  forall s l, owned own v' s = Some l -> owned own v s = Some l \/ l = [].
Proof.
  intros Hnew Hext Hc s l (tx' & Hs & Hl & ->)%owned_Some. destruct (Hc s tx' Hs Hl) as [->|(tx & Hs' & Hl' & _ & Hk & He & _)]; [by right|].
  left. apply owned_Some. exists tx. split_and!; [done|done|]. by apply Hext.
Qed.

Lemma none_inv v s v' : view_inv v -> v_keys v' = v_keys v -> v_events v' = v_events v -> v_next_xid v <= v_next_xid v' ->
  v_next_seq v <= v_next_seq v' -> v_next_key v <= v_next_key v' -> carried v v' -> change v s v' -> view_inv v'.
Proof.
  intros [H1 H2 H3 H4 H5 H6 H7 H8 H9 H10 H11 H12 H13 H14] Hk He Hx Hq Hn Hc _.
  assert (forall n, stream_at v' n = stream_at v n) as Hst by (intros n; unfold stream_at; by rewrite He).
  assert (forall s tx', v_open v' !! s = Some tx' -> live tx' -> tx' = tx_new \/ exists tx, v_open v !! s = Some tx /\ live tx /\
    tx_xid tx' = tx_xid tx /\ tx_keys tx' = tx_keys tx /\ tx_events tx' = tx_events tx /\ tx_held tx' = tx_held tx) as Hold by exact Hc.
  split; try (intros n; rewrite ?Hst; auto; done).
  - intros s' t n Hs Hl Hne. rewrite Hst. destruct (Hold s' t Hs Hl) as [->|(tx & Hs' & Hl' & _ & _ & Hev & _)]; [done|]. rewrite Hev in *. by eapply H3.
  - rewrite He. eapply unique_carried; [done|]. by eapply carried_owned.
  - rewrite He. eapply unique_carried; [done|]. by eapply carried_owned.
  - rewrite Hk. eapply unique_carried; [done|]. by eapply carried_owned.
  - rewrite Hk. eapply unique_carried; [done|]. by eapply carried_owned.
  - intros e. rewrite He, Hk. intros Hin. destruct (H8 e Hin) as (? & ? & ? & ?). split_and!; try done; lia.
  - intros s' t e Hs Hl Hin. rewrite Hk. destruct (Hold s' t Hs Hl) as [->|(tx & Hs' & Hl' & Hxid & Hks & Hev & _)]; [by apply elem_of_nil in Hin|].
    rewrite Hev in Hin. rewrite Hxid, Hks. destruct (H9 s' tx e Hs' Hl' Hin) as (? & ? & ? & ?). split_and!; try done; lia.
  - intros s' t x Hs Hl Ht. destruct (Hold s' t Hs Hl) as [->|(tx & Hs' & Hl' & Hxid & _)]; [done|]. rewrite Hxid in Ht.
    specialize (H10 s' tx x Hs' Hl' Ht). lia.
  - intros k. rewrite Hk. intros ?%H11. lia.
  - intros s' t k Hs Hl Hin. destruct (Hold s' t Hs Hl) as [->|(tx & Hs' & Hl' & _ & Hks & _)]; [by apply elem_of_nil in Hin|].
    rewrite Hks in Hin. specialize (H12 s' tx k Hs' Hl' Hin). lia.
  - intros s1 s2 t1 t2 n Hne Ht1 Ht2 Hl1 Hl2. destruct (Hold s1 t1 Ht1 Hl1) as [->|(u1 & Hu1 & Hlu1 & _ & _ & _ & ->)]; [by intros ?%elem_of_empty|].
    destruct (Hold s2 t2 Ht2 Hl2) as [->|(u2 & Hu2 & Hlu2 & _ & _ & _ & ->)]; [by intros _ ?%elem_of_empty|]. by eapply H13.
  - intros s' t n Hs Hl. destruct (Hold s' t Hs Hl) as [->|(tx & Hs' & Hl' & _ & _ & _ & ->)]; [cbn; rewrite lookup_empty; by intros [? ?]|by eapply H14].
Qed.

Lemma assigns_bounds v tx x next : assigns v tx x next -> (forall y, tx_xid tx = Some y -> y < v_next_xid v) ->
  x < next /\ v_next_xid v <= next /\ (forall y, tx_xid tx = Some y -> x = y).
Proof.
  unfold assigns. destruct (tx_xid tx) as [y|]; intros [H1 H2] Hy.
  - specialize (Hy y eq_refl). split_and!; [lia|lia|]. intros ? [= <-]. done.
  - split_and!; [lia|lia|done].
Qed.

Lemma owned_write {R} (own : Tx -> list R) v s tx' keys events next q n side :
  tx_status tx' = Active ->
  forall s', owned own (MkView keys events (<[s := tx']> (v_open v)) next q n side) s' = if decide (s' = s) then Some (own tx') else owned own v s'.
Proof.
  intros Ha s'. unfold owned. cbn. destruct (decide (s' = s)) as [->|Hne]; [|by rewrite lookup_insert_ne].
  rewrite lookup_insert_eq. cbn. rewrite decide_True; auto.
Qed.

Lemma owned_live {R} (own : Tx -> list R) v s tx : v_open v !! s = Some tx -> live tx -> owned own v s = Some (own tx).
Proof. intros ??. apply owned_Some. by exists tx. Qed.

Lemma not_taken {R} (c : list R) own v s (same : R -> Prop) r :
  ~ taken c own v s same -> r ∈ c \/ (exists s' l, owned own v s' = Some l /\ r ∈ l) -> ~ same r.
Proof.
  intros Hnt Hr Hsame. apply Hnt. exists r. split; [done|]. destruct Hr as [?|(s' & l & (tx & ? & ? & ->)%owned_Some & ?)]; [by left|].
  right. exists s', tx. auto.
Qed.

(** The stream a session writes, after one more row. *)
Lemma write_own v s tx x next e n :
  view_inv v -> v_open v !! s = Some tx -> live tx -> assigns v tx x next -> adds_event v s x e ->
  of_stream n (tx_events tx ++ [e]) <> [] ->
  numbered (stream_at v n ++ of_stream n (tx_events tx ++ [e])) /\
  StronglySorted event_lt (stream_at v n ++ of_stream n (tx_events tx ++ [e])).
Proof.
  intros Hi Hs Hl Has (Htx & _ & _ & _ & Hq & _ & Hver & Hyoung) Hne.
  assert (own_events v s = tx_events tx) as Hown by (unfold own_events; by rewrite Hs). rewrite Hown in Hver.
  assert (numbered (stream_at v n ++ of_stream n (tx_events tx)) /\ StronglySorted event_lt (stream_at v n ++ of_stream n (tx_events tx))) as [Hnum Hord].
  { destruct (of_stream n (tx_events tx)) eqn:E; [rewrite app_nil_r; split; apply Hi|]. rewrite <- E. eapply vi_own; eauto. by rewrite E. }
  rewrite of_stream_app, of_stream_one in *. case_decide as Hn; [|by rewrite app_nil_r in *]. subst n. rewrite app_assoc. split.
  - by apply numbered_snoc.
  - apply sorted_app; [done|repeat constructor|]. intros a b Ha ->%list_elem_of_singleton. unfold event_lt, pos_lt, e_pos. cbn.
    apply elem_of_app in Ha as [Ha|Ha]; [left; rewrite Htx; by apply Hyoung|]. apply elem_of_stream in Ha as [_ Ha].
    destruct (vi_written v Hi s tx a Hs Hl Ha) as (Hqa & Hxa & _). right.
    destruct (assigns_bounds v tx x next Has) as (_ & _ & Hsame); [intros y; by eapply vi_xid|]. rewrite Htx, (Hsame _ Hxa). lia.
Qed.

Lemma write_inv v s tx x next ks es held q n :
  view_inv v -> v_open v !! s = Some tx -> tx_status tx = Active -> assigns v tx x next ->
  (ks = [] \/ exists k, ks = [k] /\ adds_key v s k) -> (es = [] \/ exists e, es = [e] /\ adds_event v s x e) ->
  v_next_seq v <= q -> Forall (fun e => e_seq e < q) es -> v_next_key v <= n -> Forall (fun k => k.1 < n) ks ->
  (forall m, m ∈ hd_locks held -> m ∈ hd_locks (tx_held tx) \/ ~ locked_elsewhere v s m) ->
  (forall m, is_Some (sd_checkpoints (hd_rows held) !! m) -> m ∈ hd_locks held \/ is_Some (sd_checkpoints (hd_rows (tx_held tx)) !! m)) ->
  (forall m, m ∈ hd_locks (tx_held tx) -> m ∈ hd_locks held) ->
  view_inv (MkView (v_keys v) (v_events v) (<[s := MkTx Active (Some x) (tx_keys tx ++ ks) (tx_events tx ++ es) held]> (v_open v)) next q n (v_side v)).
Proof.
  intros Hi Hs Ha Has Hks Hes Hq Hqe Hn Hnk Hlk Hrw Hkeep. assert (live tx) as Hl by (by left). set (tx' := MkTx Active (Some x) (tx_keys tx ++ ks) (tx_events tx ++ es) held).
  destruct (assigns_bounds v tx x next Has) as (Hxn & Hnext & Hsame); [intros y; by eapply vi_xid|].
  assert (forall s' t, (<[s := tx']> (v_open v)) !! s' = Some t -> live t -> s' = s /\ t = tx' \/ v_open v !! s' = Some t) as Hcase.
  { intros s' t. rewrite lookup_insert. case_decide; [intros [= <-]; auto|auto]. }
  destruct Hi as [H1 H2 H3 H4 H5 H6 H7 H8 H9 H10 H11 H12 H13 H14] eqn:Heq. clear Heq. pose proof (MkViewInv _ H1 H2 H3 H4 H5 H6 H7 H8 H9 H10 H11 H12 H13 H14) as Hi'.
  split; try done; cbn.
  - intros s' t m Ht Hlt Hne. destruct (Hcase s' t Ht Hlt) as [[-> ->]|Ht']; [|by eapply H3]. cbn in *.
    destruct Hes as [->|(e & -> & He)]; [rewrite app_nil_r in *; by eapply H3|by eapply write_own].
  - apply (unique_insert _ _ (owned tx_events v) _ s (tx_events tx) es); [done|by apply owned_live| | |by apply (owned_write tx_events v s tx')].
    + destruct Hes as [->|(e & -> & _)]; [constructor|apply NoDup_singleton].
    + intros e c Hin Hc. destruct Hes as [->|(e' & -> & He)]; [by apply elem_of_nil in Hin|]. apply list_elem_of_singleton in Hin as ->.
      destruct He as (_ & _ & _ & Hnt & _). apply (not_taken _ _ _ _ _ _ Hnt) in Hc. intros [= H1e H2e]. by apply Hc.
  - apply (unique_insert _ _ (owned tx_events v) _ s (tx_events tx) es); [done|by apply owned_live| | |by apply (owned_write tx_events v s tx')].
    + destruct Hes as [->|(e & -> & _)]; [constructor|apply NoDup_singleton].
    + intros e c Hin Hc. destruct Hes as [->|(e' & -> & He)]; [by apply elem_of_nil in Hin|]. apply list_elem_of_singleton in Hin as ->.
      destruct He as (_ & _ & _ & _ & Hqe' & _). assert (e_seq c < v_next_seq v); [|lia].
      destruct Hc as [Hc|(s' & l & (t & Ht & Hlt & ->)%owned_Some & Hc)]; [by apply H8|by eapply H9].
  - apply (unique_insert _ _ (owned tx_keys v) _ s (tx_keys tx) ks); [done|by apply owned_live| | |by apply (owned_write tx_keys v s tx')].
    + destruct Hks as [->|(k & -> & _)]; [constructor|apply NoDup_singleton].
    + intros k c Hin Hc. destruct Hks as [->|(k' & -> & Hk)]; [by apply elem_of_nil in Hin|]. apply list_elem_of_singleton in Hin as ->.
      destruct Hk as [_ Hk]. assert (c.1 < v_next_key v); [|lia].
      destruct Hc as [Hc|(s' & l & (t & Ht & Hlt & ->)%owned_Some & Hc)]; [by apply H11|by eapply H12].
  - apply (unique_insert _ _ (owned tx_keys v) _ s (tx_keys tx) ks); [done|by apply owned_live| | |by apply (owned_write tx_keys v s tx')].
    + destruct Hks as [->|(k & -> & _)]; [constructor|apply NoDup_singleton].
    + intros k c Hin Hc. destruct Hks as [->|(k' & -> & Hk)]; [by apply elem_of_nil in Hin|]. apply list_elem_of_singleton in Hin as ->.
      destruct Hk as [Hk _]. by apply (not_taken _ _ _ _ _ _ Hk) in Hc.
  - intros e Hin. destruct (H8 e Hin) as (? & ? & ? & ?). split_and!; try done; lia.
  - intros s' t e Ht Hlt Hin. destruct (Hcase s' t Ht Hlt) as [[-> ->]|Ht']; cbn in *.
    + apply elem_of_app in Hin as [Hin|Hin].
      * destruct (H9 s tx e Hs Hl Hin) as (? & Hx & ? & Hk). rewrite (Hsame _ Hx). split_and!; try done; try lia.
        rewrite !fmap_app in *. set_solver.
      * destruct Hes as [->|(e' & -> & He)]; [by apply elem_of_nil in Hin|]. apply list_elem_of_singleton in Hin as ->.
        destruct He as (<- & ? & Hk & _ & ? & ? & _). apply Forall_cons_1 in Hqe as [Hqe _]. split_and!; try done; try lia.
        unfold seen_keys, own_keys in Hk. rewrite Hs in Hk. cbn in Hk. rewrite !fmap_app in *. set_solver.
    + destruct (H9 s' t e Ht' Hlt Hin) as (? & ? & ? & ?). split_and!; try done; lia.
  - intros s' t y Ht Hlt Hy. destruct (Hcase s' t Ht Hlt) as [[-> ->]|Ht']; [by injection Hy as <-|]. specialize (H10 s' t y Ht' Hlt Hy). lia.
  - intros k ?%H11. lia.
  - intros s' t k Ht Hlt Hin. destruct (Hcase s' t Ht Hlt) as [[-> ->]|Ht']; cbn in *; [|specialize (H12 s' t k Ht' Hlt Hin); lia].
    apply elem_of_app in Hin as [Hin|Hin]; [specialize (H12 s tx k Hs Hl Hin); lia|]. by eapply Forall_forall in Hnk.
  - assert (forall s2 t2 m, s2 <> s -> v_open v !! s2 = Some t2 -> live t2 -> m ∈ hd_locks held -> m ∈ hd_locks (tx_held t2) -> False) as Hoth.
    { intros s2 t2 m Hne Ht2 Hl2 Hm Hm2. destruct (Hlk m Hm) as [Hold|Hnot]; [by eapply (H13 s s2)|]. apply Hnot. exists s2, t2. auto. }
    intros s1 s2 t1 t2 m Hne Ht1 Ht2 Hl1 Hl2 Hm1 Hm2. destruct (Hcase s1 t1 Ht1 Hl1) as [[-> ->]|Ho1].
    + rewrite lookup_insert_ne in Ht2 by done. by eapply (Hoth s2 t2 m).
    + destruct (Hcase s2 t2 Ht2 Hl2) as [[-> ->]|Ho2]; [rewrite lookup_insert_ne in Ht1 by done; by eapply (Hoth s1 t1 m)|by eapply (H13 s1 s2)].
  - intros s' t m Ht Hlt Hm. destruct (Hcase s' t Ht Hlt) as [[-> ->]|Ht']; [|by eapply H14]. cbn in *. destruct (Hrw m Hm) as [?|Hold]; [done|].
    apply Hkeep. by eapply H14.
Qed.

(** Two transactions that may commit never write the same stream. *)
Lemma streams_apart v s1 s2 tx1 tx2 n :
  view_inv v -> s1 <> s2 -> v_open v !! s1 = Some tx1 -> v_open v !! s2 = Some tx2 -> live tx1 -> live tx2 ->
  of_stream n (tx_events tx1) <> [] -> of_stream n (tx_events tx2) = [].
Proof.
  intros Hi Hne H1 H2 Hl1 Hl2 Hn1. destruct (of_stream n (tx_events tx2)) as [|e2 l2] eqn:E2; [done|exfalso].
  destruct (of_stream n (tx_events tx1)) as [|e1 l1] eqn:E1; [done|].
  assert (forall s tx e l, v_open v !! s = Some tx -> live tx -> of_stream n (tx_events tx) = e :: l ->
    e ∈ tx_events tx /\ key_of e = (n, len (stream_at v n) + 1)) as Hfirst.
  { intros s tx e l Hs Hl He. assert (e ∈ of_stream n (tx_events tx)) as [He1 He2]%elem_of_stream by (rewrite He; left).
    split; [done|]. unfold key_of. rewrite He1. f_equal. destruct (vi_own v Hi s tx n Hs Hl) as [Hnum _]; [by rewrite He|].
    rewrite He in Hnum. rewrite (numbered_after _ _ 0 e Hnum); [lia|done]. }
  destruct (Hfirst _ _ _ _ H1 Hl1 E1) as [Hin1 Hk1], (Hfirst _ _ _ _ H2 Hl2 E2) as [Hin2 Hk2].
  eapply (uq_apart _ _ _ (vi_versions v Hi) s1 s2); [done|by apply owned_live|by apply owned_live|done|done|congruence].
Qed.

Lemma stream_at_commit v s tx n : stream_at (commit_tx v s tx) n = stream_at v n ++ of_stream n (tx_events tx).
Proof. apply of_stream_app. Qed.

Lemma owned_commit {R} (own : Tx -> list R) v s tx s' :
  owned own (commit_tx v s tx) s' = if decide (s' = s) then None else owned own v s'.
Proof. unfold owned. cbn. destruct (decide (s' = s)) as [->|]; [by rewrite lookup_delete_eq|by rewrite lookup_delete_ne]. Qed.

Lemma commit_inv v s tx : view_inv v -> v_open v !! s = Some tx -> live tx -> view_inv (commit_tx v s tx).
Proof.
  intros Hi Hs Hl.
  assert (forall n, numbered (stream_at (commit_tx v s tx) n) /\ StronglySorted event_lt (stream_at (commit_tx v s tx) n)) as Hst.
  { intros n. rewrite stream_at_commit. destruct (of_stream n (tx_events tx)) eqn:E; [rewrite app_nil_r; split; apply Hi|].
    rewrite <- E. eapply vi_own; eauto. by rewrite E. }
  assert (forall s' t, v_open (commit_tx v s tx) !! s' = Some t -> s' <> s /\ v_open v !! s' = Some t) as Hother.
  { intros s' t. cbn. rewrite lookup_delete_Some. intros [? ?]. by split. }
  split.
  - apply Hst.
  - apply Hst.
  - intros s' t n Ht Hlt Hne. destruct (Hother s' t Ht) as [Hss Ht']. rewrite stream_at_commit.
    rewrite (streams_apart v s' s t tx n) by done. rewrite app_nil_r. by eapply vi_own.
  - eapply unique_commit; [apply Hi|by apply owned_live|intros ?; apply owned_commit].
  - eapply unique_commit; [apply Hi|by apply owned_live|intros ?; apply owned_commit].
  - eapply unique_commit; [apply Hi|by apply owned_live|intros ?; apply owned_commit].
  - eapply unique_commit; [apply Hi|by apply owned_live|intros ?; apply owned_commit].
  - intros e. cbn. rewrite fmap_app. intros [Hin|Hin]%elem_of_app.
    + destruct (vi_events v Hi e Hin) as (? & ? & ? & ?). split_and!; try done; [lia..|set_solver].
    + destruct (vi_written v Hi s tx e Hs Hl Hin) as (? & Hx & ? & Hk). pose proof (vi_xid v Hi s tx _ Hs Hl Hx).
      rewrite fmap_app in Hk. split_and!; try done; lia.
  - intros s' t e Ht Hlt Hin. destruct (Hother s' t Ht) as [Hss Ht'].
    destruct (vi_written v Hi s' t e Ht' Hlt Hin) as (? & ? & ? & Hk). cbn. split_and!; try done; try lia.
    rewrite !fmap_app in *. set_solver.
  - intros s' t x Ht Hlt Hx. destruct (Hother s' t Ht) as [Hss Ht']. cbn. by eapply vi_xid.
  - intros k. cbn. intros [Hin|Hin]%elem_of_app; [by apply (vi_keys v Hi)|by eapply (vi_own_keys v Hi)].
  - intros s' t k Ht Hlt Hin. destruct (Hother s' t Ht) as [Hss Ht']. cbn. by eapply (vi_own_keys v Hi).
  - intros s1 s2 t1 t2 m Hne Ht1 Ht2. destruct (Hother s1 t1 Ht1) as [_ H1], (Hother s2 t2 Ht2) as [_ H2]. by eapply (vi_locks v Hi s1 s2).
  - intros s' t m Ht. destruct (Hother s' t Ht) as [_ Ht']. by eapply (vi_held v Hi).
Qed.

Lemma change_inv v s v' : view_inv v -> change v s v' -> view_inv v'.
Proof.
  intros Hi [Hk He Hx Hq Hn Hsd Hc|tx x next ks es held q n Hs Ha Has Hks Hes Hq Hqe Hn Hnk Hlk Hrw Hkeep ->|tx Hs Hl ->].
  - eapply (none_inv v s); try done. by apply change_none.
  - by eapply write_inv.
  - by apply commit_inv.
Qed.

(** A committed row stays, and so does the order of commits. *)
Lemma change_grows v s v' : change v s v' ->
  exists ks es, v_keys v' = v_keys v ++ ks /\ v_events v' = v_events v ++ es.
Proof.
  intros [Hk He ? ? ? ? ?|tx x next ks es held q n Hs Ha Has Hks Hes Hq Hqe Hn Hnk Hlk Hrw Hkeep ->|tx Hs Hl ->].
  - exists [], []. by rewrite !app_nil_r.
  - exists [], []. by rewrite !app_nil_r.
  - by exists (tx_keys tx), (tx_events tx).
Qed.

(** ** Other sessions *)

Inductive move (s : nat) (v v' : View) : Prop :=
| move_other s' a r : s' <> s -> documented v s' a r v' -> legit v s' a r -> move s v v'
| move_settles : settles v v' -> move s v v'.

Lemma move_change s v v' : move s v v' -> exists s', change v s' v'.
Proof. intros [s' a r _ Hd Hl|Hs]; [exists s'; by eapply documented_change|by apply settles_change]. Qed.

Lemma moves_inv s v v' : rtc (move s) v v' -> view_inv v -> view_inv v'.
Proof. induction 1 as [|x y z Hm _ IH]; [done|]. intros Hi. apply IH. destruct (move_change _ _ _ Hm) as [s' Hc]. by eapply change_inv. Qed.

Lemma moves_grow s v v' : rtc (move s) v v' ->
  exists ks es, v_keys v' = v_keys v ++ ks /\ v_events v' = v_events v ++ es.
Proof.
  induction 1 as [x|x y z Hm _ (ks & es & Hk & He)]; [exists [], []; by rewrite !app_nil_r|].
  destruct (move_change _ _ _ Hm) as [s' Hc]. destruct (change_grows _ _ _ Hc) as (ks1 & es1 & Hk1 & He1).
  exists (ks1 ++ ks), (es1 ++ es). by rewrite Hk, He, Hk1, He1, !app_assoc.
Qed.
