(* ===== verification/PgStore.v ===== *)
(** * The PostgreSQL store (adapters/postgres/src/store.rs, durability.rs)

    [append] as a program over the database, and what it does under any interleaving
    with other sessions: the rules of a weakest precondition in which other sessions
    move between two statements ([wp]), and the specification of each step. *)

From Stdlib Require Import String Sorted.
From S2P Require Import Prelude Utf8 ErrorId Version Value Wire Envelope RawStore InMemory Pg PgDb PgInv.
Close Scope string_scope.
Open Scope list_scope.

(** ** The code *)

Section store.
Context {T : Target} {AS : ArrayString}.

Definition lift {A E F} (f : E -> F) (p : prog (result A E)) : prog (result A F) := prog_map (map_err f) p.

Definition read_key (id : bytes) : prog (result (option Z) PostgresError) := sql (SReadKey id).
Definition read_head (id : StreamKey) : prog (result (option (Z * option Z)) PostgresError) := sql (SReadHead (StreamKey.as_bytes id)).

Definition create_key (id : bytes) : prog (result Z PostgresError) :=
  let*? inserted := sql (SInsertKey id) in
  match inserted with
  | Some number => ret (Ok number)
  | None => let*? found := read_key id in ret (ok_or found (PostgresError.Sqlx RowNotFound))
  end.

Definition assigned_position (id : StreamKey) (global_seq txid : Z) : result (Z * Z) PostgresError :=
  let? seq := ok_or (try_from u64_max global_seq) (corrupt (error_id id) (str "assigned global_seq is negative")) in
  let? txid := ok_or (try_from u64_max txid) (corrupt (error_id id) (str "assigned txid out of range")) in
  Ok (txid, seq).

Definition insert_one (id : StreamKey) (number : Z) (row : PendingEnvelope) : prog (result (Z * Z) PostgresError) :=
  act (SInsertEvent number (row_of row)) (fun returned =>
    ret (match returned with
         | Ok (global_seq, txid) => assigned_position id global_seq txid
         | Err error => Err (PostgresError.Sqlx error)
         end)).

Fixpoint insert_rest (id : StreamKey) (number : Z) (assigned : Z * Z) (rows : list PendingEnvelope)
  : prog (result (Z * Z) PostgresError) :=
  match rows with
  | [] => ret (Ok assigned)
  | row :: rows =>
      let*? assigned := insert_one id number row in
      insert_rest id number assigned rows
  end.

Definition insert_run (id : StreamKey) (number : Z) (envelopes : PendingBatch.t) : prog (result (Z * Z) PostgresError) :=
  let*? assigned := insert_one id number (PendingBatch.first envelopes) in
  insert_rest id number assigned (PendingBatch.rest envelopes).

Definition pg_append_error (id : StreamKey) (expected : option Version) (error : PostgresError) : AppendError PostgresError :=
  match error with
  | PostgresError.Sqlx source =>
      if is_stream_conflict source then AppendConflict (error_id id) expected None else AppendStore error
  | _ => AppendStore error
  end.

(** A key can exist without an event; an invalid number is not absence. *)
Definition pg_head_version (head : option (Z * option Z)) (id : StreamKey) : result (option Version) PostgresError :=
  match head with
  | Some (_, Some raw) => result_map Some (ok_or (parse_version raw) (corrupt (error_id id) (str "invalid stored version")))
  | _ => Ok None
  end.

Definition postgres_validation_err (id : StreamKey) (e : AppendValidationError) : AppendError PostgresError :=
  match e with
  | ValidationConflict _ expected actual => AppendConflict (error_id id) expected actual
  | ValidationVersionOverflow => AppendStore (corrupt (error_id id) (str "version overflow"))
  end.

(** durability.rs. *)
Definition durability_validate : prog (result () PostgresError) :=
  let*? setting := sql SSettings in
  ret (match setting with Some unsafe_setting => Err (PostgresError.Durability unsafe_setting) | None => Ok () end).

Definition durability_commit : prog (result () PostgresError) :=
  let*? _ := sql SSetConstraints in
  let*? _ := durability_validate in
  act SCommit (fun r => ret (map_err commit_error r)).

Definition publish_hint (stream : bytes) : prog () :=
  if 4000 <=? len stream then ret () else act (SNotify (hex_encode stream)) (fun _ => ret ()).

Definition notify_committed (stream : bytes) : prog () := act (AWake stream) (fun _ => publish_hint stream).

Definition append (limits : Limits) (history : History) (id : StreamKey) (expected_version : option Version)
  (envelopes : PendingBatch.t) : prog (result PgAllPos (AppendError PostgresError)) :=
  let*? _ := ret (map_err AppendStore (validate_sizes id envelopes limits)) in
  let*? _ := lift AppendStore (sql SBegin) in
  let*? head := lift AppendStore (read_head id) in
  let*? current := ret (map_err AppendStore (pg_head_version head id)) in
  let*? _ := ret (map_err (postgres_validation_err id)
                    (validate_append_versions (from_option as_u64 0 current) expected_version envelopes id)) in
  let*? number := match head with
                  | Some (number, _) => ret (Ok number)
                  | None => lift AppendStore (create_key (StreamKey.as_bytes id))
                  end in
  let*? assigned := lift (pg_append_error id expected_version) (insert_run id number envelopes) in
  let*? _ := lift AppendStore durability_commit in
  let* _ := notify_committed (StreamKey.as_bytes id) in
  ret (Ok (MkPgPos history assigned.1 assigned.2)).

End store.

(** ** Weakest preconditions with interference

    The log is the list of the session's own steps, each with the view it found and
    the view it left. *)

Definition Log : Type := list (View * View).

Fixpoint wp {A} (s : nat) (p : prog A) (Q : A -> View -> Log -> Prop) (v : View) (log : Log) : Prop :=
  match p with
  | ret a => Q a v log
  | act a k => forall v1, rtc (move s) v v1 -> forall r v2, documented v1 s a r v2 ->
      legit v1 s a r /\ wp s (k r) Q v2 (log ++ [(v1, v2)])
  end.

Lemma wp_mono {A} s (p : prog A) (Q Q' : A -> View -> Log -> Prop) v log :
  wp s p Q v log -> (forall a v log, Q a v log -> Q' a v log) -> wp s p Q' v log.
Proof.
  intros Hp HQ. revert v log Hp. induction p as [a|a k IH]; intros v log; cbn; [apply HQ|].
  intros Hp v1 Hm r v2 Hd. destruct (Hp v1 Hm r v2 Hd) as [Hl Hk]. auto.
Qed.

Lemma wp_ret {A} s (a : A) (Q : A -> View -> Log -> Prop) v log : Q a v log -> wp s (ret a) Q v log.
Proof. done. Qed.

Lemma wp_bind {A B} s (p : prog A) (f : A -> prog B) Q v log :
  wp s p (fun a v log => wp s (f a) Q v log) v log -> wp s (prog_bind p f) Q v log.
Proof.
  revert v log. induction p as [a|a k IH]; intros v log; cbn; [done|].
  intros Hp v1 Hm r v2 Hd. destruct (Hp v1 Hm r v2 Hd) as [Hl Hk]. auto.
Qed.

Lemma wp_try {A B E} s (p : prog (result A E)) (f : A -> prog (result B E)) Q v log :
  wp s p (fun r v log => match r with Ok a => wp s (f a) Q v log | Err e => Q (Err e) v log end) v log ->
  wp s (prog_try p f) Q v log.
Proof. intros Hp. apply wp_bind. eapply wp_mono; [done|]. by intros [a|e]. Qed.

Lemma wp_lift {A E F} s (f : E -> F) (p : prog (result A E)) Q v log :
  wp s p (fun r => Q (map_err f r)) v log -> wp s (lift f p) Q v log.
Proof. intros Hp. apply wp_bind. by eapply wp_mono. Qed.

(** The log only grows. *)
Lemma wp_frame {A} s (p : prog A) Q v log log0 :
  wp s p Q v log -> wp s p (fun a v l => exists l', l = log0 ++ l' /\ Q a v l') v (log0 ++ log).
Proof.
  revert v log. induction p as [a|a k IH]; intros v log; cbn; [by exists log|].
  intros Hp v1 Hm r v2 Hd. destruct (Hp v1 Hm r v2 Hd) as [Hl Hk]. split; [done|]. rewrite <- app_assoc. by apply IH.
Qed.

Lemma wp_log {A} s (p : prog A) Q v log :
  wp s p Q v log -> wp s p (fun a v l => Q a v l /\ exists ext, l = log ++ ext) v log.
Proof.
  revert v log. induction p as [a|a k IH]; intros v log; cbn; [intros HQ; split; [done|]; exists []; by rewrite app_nil_r|].
  intros Hp v1 Hm r v2 Hd. destruct (Hp v1 Hm r v2 Hd) as [Hl Hk]. split; [done|]. eapply wp_mono; [by apply IH|].
  intros a' v' l [HQ [ext ->]]. split; [done|]. exists ((v1, v2) :: ext). by rewrite <- app_assoc.
Qed.

(** A program's precondition survives the moves of others. *)
Lemma wp_moves {A} s (p : prog A) (Q : A -> View -> Log -> Prop) v v' log :
  (forall a v v' log, rtc (move s) v v' -> Q a v log -> Q a v' log) -> rtc (move s) v v' -> wp s p Q v log -> wp s p Q v' log.
Proof. intros HQ Hm. destruct p as [a|a k]; cbn; [by apply HQ|]. intros Hp v1 Hm1. apply Hp. by etrans. Qed.

Lemma wp_act {A} s a (k : Resp a -> prog A) Q v log :
  view_inv v ->
  (forall v1, view_inv v1 -> rtc (move s) v v1 -> forall r v2, documented v1 s a r v2 ->
     legit v1 s a r /\ (view_inv v2 -> wp s (k r) Q v2 (log ++ [(v1, v2)]))) ->
  wp s (act a k) Q v log.
Proof.
  intros Hi Hk v1 Hm r v2 Hd. pose proof (moves_inv _ _ _ Hm Hi) as Hi1. destruct (Hk v1 Hi1 Hm r v2 Hd) as [Hl Hw].
  split; [done|]. apply Hw. by eapply change_inv, documented_change.
Qed.

(** ** The session's own transaction *)

(** [tx] is open, or its client is gone. *)
Definition mine (s : nat) (tx : Tx) (v : View) : Prop :=
  v_open v !! s = Some tx \/ v_open v !! s = Some (set_status tx Lost) \/ v_open v !! s = None.

Lemma documented_other v s a r v' s' : documented v s a r v' -> s' <> s -> v_open v' !! s' = v_open v !! s'.
Proof.
  intros Hd Hne.
  assert (forall v', failed v s v' -> v_open v' !! s' = v_open v !! s') as Hf.
  { intros w (x & q & n & _ & _ & _ & ->). cbn. destruct (v_open v !! s); [by rewrite lookup_insert_ne|done]. }
  assert (forall R P (r : result R SqlxError) v', reads v s P r v' -> v_open v' !! s' = v_open v !! s') as Hr.
  { intros R P [x|e] w; cbn; [by intros (_ & _ & ->)|intros [? _]; by apply Hf]. }
  assert (forall upd v', holds v s upd v' -> v_open v' !! s' = v_open v !! s') as Hh.
  { intros upd w (tx & x & next & _ & _ & _ & ->). cbn. by rewrite lookup_insert_ne. }
  destruct a; cbn in Hd; try (by eapply Hr, Hd); try (by subst v').
  - destruct r; [destruct Hd as [_ ->]; cbn; by rewrite lookup_insert_ne|by subst v'].
  - destruct r as [[n|]|]; [| |by apply Hf, Hd].
    + destruct Hd as (tx & x & next & _ & _ & _ & _ & _ & ->). cbn. by rewrite lookup_insert_ne.
    + destruct Hd as (tx & x & next & _ & _ & _ & n & _ & [->|[_ ->]]); cbn; [done|by rewrite lookup_insert_ne].
  - destruct r as [[q x]|]; [|by apply Hf, Hd]. destruct Hd as (tx & next & _ & _ & _ & _ & _ & _ & _ & _ & ->). cbn. by rewrite lookup_insert_ne.
  - destruct r as [u|e].
    + destruct Hd as (tx & _ & [[_ ->]|[_ ->]]); cbn; by rewrite lookup_delete_ne.
    + destruct Hd as [->|(_ & tx & _ & _ & [->| ->])]; cbn; by rewrite ?lookup_delete_ne, ?lookup_insert_ne.
  - destruct r; [subst v'; cbn; by rewrite lookup_delete_ne|by apply Hf].
  - destruct r as [row|e]; [|by apply Hf, Hd]. destruct Hd as [_ H]. destruct row; [by apply (Hh (lock_row key)), H|]. by destruct H as [_ ->].
  - destruct r as [[m|]|e]; [| |by apply Hf, Hd]; cbn in Hd; [by eapply Hh, Hd|]. by destruct Hd as [_ ->].
  - destruct r as [[m|]|e]; [| |by apply Hf, Hd]; cbn in Hd; [by eapply Hh, Hd|]. destruct Hd as [_ [->|H]]; [done|by eapply Hh].
  - destruct r; [by eapply Hh|by apply Hf, Hd].
Qed.

Lemma move_mine s tx v v' : tx_status tx = Active -> mine s tx v -> move s v v' -> mine s tx v'.
Proof.
  intros Ha Hm [s' a r Hne Hd _|(s' & t & Ht & H)]; [unfold mine in *; by rewrite (documented_other _ _ _ _ _ s Hd)|].
  destruct (decide (s' = s)) as [->|Hne].
  - destruct Hm as [Ho|[Ho|Ho]]; rewrite Ho in Ht; [..|done]; injection Ht as <-; cbn in H; rewrite ?Ha in H; subst v';
      unfold mine; cbn; rewrite ?lookup_insert_eq, ?lookup_delete_eq; auto.
  - unfold mine in *. assert (v_open v' !! s = v_open v !! s) as ->; [|done].
    destruct (tx_status t); [| | |destruct H]; subst v'; cbn; by rewrite ?lookup_insert_ne, ?lookup_delete_ne.
Qed.

Lemma moves_mine s tx v v' : tx_status tx = Active -> rtc (move s) v v' -> mine s tx v -> mine s tx v'.
Proof. intros Ha. induction 1 as [|x y z Hm _ IH]; [done|]. intros. apply IH. by eapply move_mine. Qed.

(** Statements other than COMMIT commit nothing. *)
Definition quiet (v v' : View) : Prop := v_keys v' = v_keys v /\ v_events v' = v_events v /\ v_side v' = v_side v.

Lemma failed_quiet v s v' : failed v s v' -> quiet v v'.
Proof. by intros (x & q & n & _ & _ & _ & ->). Qed.

Lemma documented_quiet v s a r v' : documented v s a r v' -> a <> SCommit -> quiet v v'.
Proof.
  intros Hd Hne. assert (forall R P (r : result R SqlxError) v', reads v s P r v' -> quiet v v') as Hr.
  { intros R P [x|e] w; cbn; [by intros (_ & _ & ->)|intros [? _]; by eapply failed_quiet]. }
  assert (forall upd v', holds v s upd v' -> quiet v v') as Hh by (by intros upd w (tx & x & next & _ & _ & _ & ->)).
  destruct a; cbn in Hd; try done; try (by eapply Hr, Hd); try (by subst v').
  - destruct r; [by destruct Hd as [_ ->]|by subst v'].
  - destruct r as [[n|]|]; [by destruct Hd as (tx & x & next & _ & _ & _ & _ & _ & ->)| |by eapply failed_quiet, Hd].
    by destruct Hd as (tx & x & next & _ & _ & _ & n & _ & [->|[_ ->]]).
  - destruct r as [[q x]|]; [by destruct Hd as (tx & next & _ & _ & _ & _ & _ & _ & _ & _ & ->)|by eapply failed_quiet, Hd].
  - destruct r; [by subst v'|by eapply failed_quiet].
  - destruct r as [row|e]; [|by eapply failed_quiet, Hd]. destruct Hd as [_ H]. destruct row; [by apply (Hh (lock_row key)), H|]. by destruct H as [_ ->].
  - destruct r as [[m|]|e]; [| |by eapply failed_quiet, Hd]; cbn in Hd; [by eapply Hh, Hd|]. by destruct Hd as [_ ->].
  - destruct r as [[m|]|e]; [| |by eapply failed_quiet, Hd]; cbn in Hd; [by eapply Hh, Hd|]. destruct Hd as [_ [->|H]]; [done|by eapply Hh].
  - destruct r; [by eapply Hh|by eapply failed_quiet, Hd].
Qed.

Lemma quiet_stream v v' n : quiet v v' -> stream_at v' n = stream_at v n.
Proof. intros (_ & He & _). unfold stream_at. by rewrite He. Qed.
