(* ===== verification/PgAppend.v ===== *)
(** * The append of the PostgreSQL store under interleaving

    What [append] promises: success means that one COMMIT appended the whole batch to
    a stream whose length was the expected version; a failure means that this session
    committed nothing, except for an unknown COMMIT, which is all or nothing. *)

From Stdlib Require Import Sorted.
From S2P Require Import Prelude Utf8 ErrorId Version Value Wire Envelope RawStore InMemory Pg PgDb PgInv PgStore.

(** ** Programs that do not commit *)

Fixpoint quiet_prog {A} (p : prog A) : Prop :=
  match p with
  | ret _ => True
  | act a k => a <> SCommit /\ forall r, quiet_prog (k r)
  end.

Lemma quiet_bind {A B} (p : prog A) (f : A -> prog B) : quiet_prog p -> (forall a, quiet_prog (f a)) -> quiet_prog (prog_bind p f).
Proof. intros Hp Hf. induction p as [a|a k IH]; cbn in *; [done|]. destruct Hp as [Hne Hk]. split; [done|]. auto. Qed.

Lemma quiet_try {A B E} (p : prog (result A E)) (f : A -> prog (result B E)) :
  quiet_prog p -> (forall a, quiet_prog (f a)) -> quiet_prog (prog_try p f).
Proof. intros Hp Hf. apply quiet_bind; [done|]. by intros [a|e]. Qed.

Lemma quiet_lift {A E F} (f : E -> F) (p : prog (result A E)) : quiet_prog p -> quiet_prog (lift f p).
Proof. intros Hp. by apply quiet_bind. Qed.

Lemma quiet_sql a : a <> SCommit -> quiet_prog (sql a).
Proof. done. Qed.

Create HintDb pg.
#[export] Hint Resolve quiet_try quiet_lift quiet_sql : pg.

(** No COMMIT of the session is in doubt. *)
Definition calm (s : nat) (v : View) : Prop :=
  view_inv v /\ forall tx, v_open v !! s = Some tx -> tx_status tx <> InDoubt.

Definition quiet_log (log : Log) : Prop := Forall (fun x => quiet x.1 x.2) log.

Lemma move_calm s v v' : calm s v -> move s v v' -> calm s v'.
Proof.
  intros [Hi Hc] Hm. split; [destruct (move_change _ _ _ Hm) as [s' ?]; by eapply change_inv|].
  destruct Hm as [s' a r Hne Hd _|(s' & t & Ht & H)]; [by rewrite (documented_other _ _ _ _ _ s Hd)|].
  destruct (decide (s' = s)) as [->|Hne].
  - specialize (Hc _ Ht). intros tx. destruct (tx_status t) eqn:Hst; [subst v'; cbn; rewrite lookup_insert_eq; by intros [= <-]| | |done];
      subst v'; cbn; by rewrite lookup_delete_eq.
  - destruct (tx_status t); [| | |destruct H]; subst v'; cbn; by rewrite ?lookup_insert_ne, ?lookup_delete_ne.
Qed.

Lemma moves_calm s v v' : rtc (move s) v v' -> calm s v -> calm s v'.
Proof. induction 1 as [|x y z Hm _ IH]; [done|]. intros. apply IH. by eapply move_calm. Qed.

Lemma documented_calm s v a r v' : calm s v -> documented v s a r v' -> legit v s a r -> a <> SCommit -> calm s v'.
Proof.
  intros [Hi Hc] Hd Hl Hne. split; [by eapply change_inv, documented_change|].
  assert (forall v', failed v s v' -> forall tx, v_open v' !! s = Some tx -> tx_status tx <> InDoubt) as Hf.
  { intros w (x & q & n & _ & _ & _ & ->) tx. cbn. destruct (v_open v !! s) as [t|] eqn:Ht; [|by rewrite Ht].
    specialize (Hc _ eq_refl). rewrite lookup_insert_eq. intros [= <-]. cbn. by destruct (tx_status t). }
  assert (forall R P (r : result R SqlxError) v', reads v s P r v' -> forall tx, v_open v' !! s = Some tx -> tx_status tx <> InDoubt) as Hr.
  { intros R P [x|e] w; cbn; [by intros (_ & _ & ->)|intros [? _]; by apply Hf]. }
  assert (forall upd v', holds v s upd v' -> forall tx, v_open v' !! s = Some tx -> tx_status tx <> InDoubt) as Hh.
  { intros upd w (tx & x & next & _ & _ & _ & ->) t. cbn. rewrite lookup_insert_eq. by intros [= <-]. }
  destruct a; cbn in Hd; try done; try (by eapply Hr, Hd); try (by subst v').
  - destruct r; [|by subst v']. destruct Hd as [_ ->]. intros tx. cbn. rewrite lookup_insert_eq. by intros [= <-].
  - destruct r as [[n|]|]; [| |by apply Hf, Hd].
    + destruct Hd as (tx & x & next & _ & _ & _ & _ & _ & ->). intros t. cbn. rewrite lookup_insert_eq. by intros [= <-].
    + destruct Hd as (tx & x & next & _ & _ & _ & n & _ & [->|[_ ->]]); [done|]. intros t. cbn. rewrite lookup_insert_eq. by intros [= <-].
  - destruct r as [[q x]|]; [|by apply Hf, Hd]. destruct Hd as (tx & next & _ & _ & _ & _ & _ & _ & _ & _ & ->).
    intros t. cbn. rewrite lookup_insert_eq. by intros [= <-].
  - destruct r; [|by apply Hf]. subst v'. intros t. cbn. by rewrite lookup_delete_eq.
  - destruct r as [row|e]; [|by apply Hf, Hd]. destruct Hd as [_ H]. destruct row; [by apply (Hh (lock_row key)), H|]. by destruct H as [_ ->].
  - destruct r as [[m|]|e]; [| |by apply Hf, Hd]; cbn in Hd; [by eapply Hh, Hd|]. by destruct Hd as [_ ->].
  - destruct r as [[m|]|e]; [| |by apply Hf, Hd]; cbn in Hd; [by eapply Hh, Hd|]. destruct Hd as [_ [->|H]]; [done|by eapply Hh].
  - destruct r; [by eapply Hh|by apply Hf, Hd].
Qed.

(** What a program that does not commit guarantees besides its postcondition. *)
Lemma wp_quiet {A} s (p : prog A) Q v log :
  quiet_prog p -> calm s v -> wp s p Q v log ->
  wp s p (fun a v' log' => Q a v' log' /\ calm s v' /\ exists ext, log' = log ++ ext /\ quiet_log ext) v log.
Proof.
  revert v log. induction p as [a|a k IH]; intros v log; cbn.
  - intros _ Hc Hq. split_and!; [done|done|]. exists []. split; [by rewrite app_nil_r|constructor].
  - intros [Hne Hk] Hc Hp v1 Hm r v2 Hd. destruct (Hp v1 Hm r v2 Hd) as [Hl Hw]. split; [done|].
    pose proof (moves_calm _ _ _ Hm Hc) as Hc1. pose proof (documented_calm _ _ _ _ _ Hc1 Hd Hl Hne) as Hc2.
    eapply wp_mono; [by apply IH|]. intros a' v' log' (HQ & Hc' & ext & -> & Hext). split_and!; [done|done|].
    exists ((v1, v2) :: ext). split; [by rewrite <- app_assoc|]. constructor; [by eapply documented_quiet|done].
Qed.

(** The same for one statement, whose error is the driver's. *)
Lemma wp_sql s a Q v log :
  a <> SCommit -> calm s v -> wp s (sql a) Q v log ->
  wp s (sql a) (fun r v' log' => Q r v' log' /\ (forall e, r = Err e -> forall x, e <> PostgresError.CommitUnknown x) /\ calm s v' /\
    exists ext, log' = log ++ ext /\ quiet_log ext) v log.
Proof.
  intros Hne Hc Hw. eapply wp_mono; [apply (wp_quiet s (sql a) (fun r v' log' => Q r v' log' /\ forall e, r = Err e -> forall x, e <> PostgresError.CommitUnknown x)); [by apply quiet_sql|done|]|].
  - intros v1 Hm r v2 Hd. destruct (Hw v1 Hm r v2 Hd) as [Hl HQ]. split; [done|]. split; [exact HQ|]. intros e. by destruct r; [|intros [= <-]].
  - intros r v' log' ([HQ He] & Hc' & Hext). auto.
Qed.

(** What is committed stays. *)
Definition grown (v v' : View) : Prop := exists ks es, v_keys v' = v_keys v ++ ks /\ v_events v' = v_events v ++ es.

#[export] Instance grown_refl : Reflexive grown.
Proof. intros v. exists [], []. by rewrite !app_nil_r. Qed.

#[export] Instance grown_trans : Transitive grown.
Proof. intros u v w (ks & es & Hk & He) (ks' & es' & Hk' & He'). exists (ks ++ ks'), (es ++ es'). by rewrite Hk', He', Hk, He, !app_assoc. Qed.

Lemma grown_keys v v' k : grown v v' -> k ∈ v_keys v -> k ∈ v_keys v'.
Proof. intros (ks & es & -> & _). set_solver. Qed.

(** ** The state of an append *)

Lemma change_xid v s v' : view_inv v -> change v s v' -> v_next_xid v <= v_next_xid v'.
Proof.
  intros Hi [Hk He Hx Hq Hn Hsd Hc|tx x next ks es held q n Hs Ha Has Hks Hes Hq Hqe Hn Hnk Hlk Hrw Hkeep ->|tx Hs Hl ->]; cbn; [done| |lia].
  apply (assigns_bounds v tx x next Has). intros y. eapply vi_xid; [done..|by left].
Qed.

Lemma moves_xid s v v' : rtc (move s) v v' -> view_inv v -> v_next_xid v <= v_next_xid v'.
Proof.
  induction 1 as [|x y z Hm _ IH]; [lia|]. intros Hi. destruct (move_change _ _ _ Hm) as [s' Hc].
  pose proof (change_xid _ _ _ Hi Hc). specialize (IH (change_inv _ _ _ Hi Hc)). lia.
Qed.

(** The views of the log are earlier ones. *)
Definition traced (v : View) (log : Log) : Prop := Forall (fun y => grown y.1 v) log.

Lemma traced_grown v v' log : traced v log -> grown v v' -> traced v' log.
Proof. intros Ht Hg. eapply Forall_impl; [exact Ht|]. intros y Hy. etrans; [exact Hy|done]. Qed.

(** What every program keeps. *)
Lemma wp_grown {A} s (p : prog A) Q v log :
  view_inv v -> traced v log -> wp s p Q v log ->
  wp s p (fun a v' l => Q a v' l /\ view_inv v' /\ grown v v' /\ v_next_xid v <= v_next_xid v' /\ traced v' l) v log.
Proof.
  revert v log. induction p as [a|a k IH]; intros v log Hi Ht; cbn; [intros HQ; split_and!; [done|done|done|lia|done]|].
  intros Hp v1 Hm r v2 Hd. destruct (Hp v1 Hm r v2 Hd) as [Hl Hk]. split; [done|]. pose proof (moves_inv _ _ _ Hm Hi) as Hi1.
  pose proof (documented_change _ _ _ _ _ Hd Hl) as Hc. assert (grown v v1) as Hg1 by exact (moves_grow _ _ _ Hm).
  assert (grown v1 v2) as Hg2 by exact (change_grows _ _ _ Hc). eapply wp_mono; [apply IH; [by eapply change_inv| |done]|].
  { apply Forall_app. split; [eapply traced_grown; [done|by etrans]|by repeat constructor]. }
  intros a' v' l (HQ & Hi' & Hg & Hx & Ht'). pose proof (moves_xid _ _ _ Hm Hi). pose proof (change_xid _ _ _ Hi1 Hc).
  split_and!; [done|done| |lia|done]. etrans; [exact Hg1|]. by etrans.
Qed.

(** The session works in [tx], whose id is or will be at least [b]. *)
Record doing (s : nat) (tx : Tx) (b : Z) (v : View) : Prop := MkDoing {
  do_inv : view_inv v;
  do_mine : mine s tx v;
  do_active : tx_status tx = Active;
  do_young : from_option (fun x => b <= x) (b <= v_next_xid v) (tx_xid tx);
}.

(** The first [h] events of the stream [n] of [key] are committed, older than [b]. *)
Definition knows (tx : Tx) (b : Z) (key : bytes) (n h : Z) (v : View) : Prop :=
  (n, key) ∈ v_keys v ++ tx_keys tx /\ 0 <= h <= len (stream_at v n) /\
  forall e, e ∈ take (Z.to_nat h) (stream_at v n) -> e_txid e < b.

Lemma doing_moves s tx b v v' : doing s tx b v -> rtc (move s) v v' -> doing s tx b v'.
Proof.
  intros [Hi Hm Ha Hy] Hr. split; [by eapply moves_inv|by eapply moves_mine|done|].
  pose proof (moves_xid _ _ _ Hr Hi). destruct (tx_xid tx); cbn in *; lia.
Qed.

Lemma knows_grows tx b key n h v v' ks es :
  knows tx b key n h v -> v_keys v' = v_keys v ++ ks -> v_events v' = v_events v ++ es -> knows tx b key n h v'.
Proof.
  intros (Hk & Hh & Hb) Hks Hes. unfold knows, stream_at in *. rewrite Hks, Hes, of_stream_app. split_and!.
  - set_solver.
  - lia.
  - rewrite len_app. pose proof (len_nonneg (of_stream n es)). lia.
  - rewrite take_app_le by (unfold len in *; lia). done.
Qed.

Lemma knows_moves s tx b key n h v v' : knows tx b key n h v -> rtc (move s) v v' -> knows tx b key n h v'.
Proof. intros Hk Hr. destruct (moves_grow _ _ _ Hr) as (ks & es & ? & ?). by eapply knows_grows. Qed.

(** A session that is served has its transaction. *)
Lemma mine_active s tx v t : mine s tx v -> v_open v !! s = Some t -> tx_status t = Active -> t = tx.
Proof. intros [H|[H|H]] Ht; rewrite H in Ht; [by injection Ht as <-|injection Ht as <-; done|done]. Qed.

(** The rows the session has written to the stream so far follow version [h]. *)
Definition follows (h : Z) (es : list Event) : Prop := forall i e, es !! i = Some e -> e_version e = h + Z.of_nat i + 1.

(** If the next version of the stream is not taken, the stream has not grown. *)
Lemma stream_length_known s tx b key n h v es :
  doing s tx b v -> knows tx b key n h v -> v_open v !! s = Some tx -> of_stream n (tx_events tx) = es -> follows h es ->
  ~ taken (v_events v) tx_events v s (same_version n (h + len es + 1)) -> len (stream_at v n) = h.
Proof.
  intros [Hi _ Ha _] (_ & Hh & _) Hs Hes Hf Hnt. destruct (decide (len (stream_at v n) = h)) as [|Hne]; [done|exfalso].
  destruct es as [|e es].
  - assert (exists c, stream_at v n !! Z.to_nat h = Some c) as [c Hc] by (apply lookup_lt_is_Some; unfold len in *; lia).
    apply Hnt. exists c. pose proof (numbered_lookup _ _ _ (vi_numbered v Hi n) Hc) as Hv. pose proof (list_elem_of_lookup_2 _ _ _ Hc) as Hin.
    apply elem_of_stream in Hin as [Hst Hin]. split; [split; [done|]|by left]. change (len (@nil Event)) with 0. lia.
  - destruct (vi_own v Hi s tx n Hs ltac:(by left)) as [Hnum _]; [by rewrite Hes|]. rewrite Hes in Hnum.
    pose proof (numbered_after _ _ 0 e Hnum eq_refl). pose proof (Hf 0%nat e eq_refl). lia.
Qed.

Lemma knows_len tx b key n h v e : knows tx b key n h v -> len (stream_at v n) = h -> e ∈ stream_at v n -> e_txid e < b.
Proof. intros (_ & _ & Hb) Hl He. apply Hb. by rewrite take_ge by (unfold len in *; lia). Qed.

Section append.
Context {T : Target} {AS : ArrayString}.

(** ** Inserting *)

(** The session's transaction with one more event. *)
Definition tx_insert (tx : Tx) (x : Z) (e : Event) : Tx := MkTx Active (Some x) (tx_keys tx) (tx_events tx ++ [e]) (tx_held tx).

Definition inserted (n : Z) (row : PendingEnvelope) (x q : Z) (e : Event) : Prop :=
  e_row e = row_of row /\ e_stream e = n /\ e_pos e = (x, q).

Lemma assigned_position_Ok id q x p : assigned_position id q x = Ok p -> p = (x, q).
Proof.
  unfold assigned_position. destruct (try_from u64_max q) as [q'|] eqn:Hq; [|done]. destruct (try_from u64_max x) as [x'|] eqn:Hx; [|done].
  apply try_from_Some in Hq as [-> _], Hx as [-> _]. cbn. by intros [= <-].
Qed.

(** A failed insert is not an unknown COMMIT, and a unique violation proves that the
    stream has grown. *)
Definition outrun (key : bytes) (n h : Z) (e : PostgresError) (log : Log) : Prop :=
  (forall err, e <> PostgresError.CommitUnknown err) /\
  forall err, e = PostgresError.Sqlx err -> is_stream_conflict err = true ->
    exists y, y ∈ log /\ view_inv y.1 /\ (n, key) ∈ v_keys y.1 /\ h < len (stream_at y.1 n).

Lemma wp_insert_one s tx b id key n h es row v log :
  doing s tx b v -> knows tx b key n h v -> of_stream n (tx_events tx) = es -> follows h es ->
  as_u64 (pe_version row) = h + len es + 1 ->
  wp s (insert_one id n row) (fun r v' log' =>
    match r with
    | Ok (x, q) => exists e, inserted n row x q e /\ from_option (eq x) True (tx_xid tx) /\
        doing s (tx_insert tx x e) b v' /\ knows (tx_insert tx x e) b key n h v'
    | Err e => outrun key n h e log'
    end) v log.
Proof.
  intros Hdo Hkn Hes Hf Hver. apply wp_act; [apply Hdo|]. intros v1 Hi1 Hm r v2 Hd.
  pose proof (doing_moves _ _ _ _ _ Hdo Hm) as Hdo1. pose proof (knows_moves _ _ _ _ _ _ _ _ Hkn Hm) as Hkn1.
  destruct r as [[q x]|err]; cbn in Hd.
  - destruct Hd as (t & next & Ho & Hact & Has & Hrc & Hkey & Hnt & Hq & Hq0 & ->).
    pose proof (mine_active _ _ _ _ (do_mine _ _ _ _ Hdo1) Ho Hact) as ->. cbn [row_version row_of] in Hnt. rewrite Hver in Hnt.
    pose proof (stream_length_known s tx b key n h v1 es Hdo1 Hkn1 Ho Hes Hf Hnt) as Hlen.
    assert (b <= x) as Hbx.
    { pose proof (do_young _ _ _ _ Hdo1) as Hy. unfold assigns in Has. destruct (tx_xid tx); cbn in Hy; lia. }
    split.
    + cbn [legit row_version row_of]. unfold own_events. rewrite Ho. cbn [from_option]. rewrite Hes, len_app, Hver. split; [lia|]. intros e He.
      pose proof (knows_len _ _ _ _ _ _ _ Hkn1 Hlen He). lia.
    + intros Hi2. cbn. destruct (assigned_position id q x) as [p|e] eqn:Hp.
      * apply assigned_position_Ok in Hp as ->. exists (MkEvent q n x (row_of row)). split_and!; [done| |split; cbn; [done| |done|done]|].
        -- unfold assigns in Has. destruct (tx_xid tx); cbn; [by destruct Has|done].
        -- left. cbn. by rewrite lookup_insert_eq.
        -- exact Hkn1.
      * unfold assigned_position in Hp. destruct (try_from u64_max q); cbn in Hp; [destruct (try_from u64_max x); cbn in Hp; [done|]|]; by injection Hp as <-; split.
  - split; [done|]. intros Hi2. cbn. split; [done|]. intros ? [= <-] Hcf. destruct Hd as [_ Hd]. destruct (Hd Hcf) as (t & d & Ho & Hact & Hin & Hst & Hdv).
    pose proof (mine_active _ _ _ _ (do_mine _ _ _ _ Hdo1) Ho Hact) as ->.
    exists (v1, v2). cbn [fst]. cbn [row_version row_of] in Hdv. rewrite Hver in Hdv. pose proof (len_nonneg es) as Hnn.
    assert (d ∈ v_events v1) as Hc.
    { unfold seen_events, own_events in Hin. rewrite Ho in Hin. cbn [from_option] in Hin. apply elem_of_app in Hin as [?|Hin]; [done|exfalso].
      assert (d ∈ es) as [i Hi]%list_elem_of_lookup by (rewrite <- Hes; by apply elem_of_stream).
      pose proof (Hf _ _ Hi). apply lookup_lt_Some in Hi. unfold len in *. lia. }
    assert (d ∈ stream_at v1 n) as [i Hi]%list_elem_of_lookup by (by apply elem_of_stream).
    pose proof (numbered_lookup _ _ _ (vi_numbered v1 Hi1 n) Hi) as Hvi. apply lookup_lt_Some in Hi as Hlt.
    split_and!; [set_solver|done| |unfold len in *; lia].
    destruct Hkn1 as (Hk & _). apply elem_of_app in Hk as [?|Hk]; [done|exfalso].
    destruct (vi_events v1 Hi1 d Hc) as (_ & _ & _ & Hdk). rewrite Hst in Hdk.
    pose proof (uq_own _ _ _ (vi_numbers v1 Hi1) s (tx_keys tx) ltac:(apply owned_live; [done|by left])) as Hnd.
    rewrite fmap_app in Hnd. apply NoDup_app in Hnd as (_ & Hdis & _). apply (Hdis n Hdk). apply list_elem_of_fmap. by exists (n, key).
Qed.

(** The rows of a run, all of one transaction. *)
Definition written (n x : Z) (row : PendingEnvelope) (e : Event) : Prop := e_row e = row_of row /\ e_stream e = n /\ e_txid e = x.

Definition tx_run (tx : Tx) (x : Z) (es : list Event) : Tx := MkTx Active (Some x) (tx_keys tx) (tx_events tx ++ es) (tx_held tx).

Definition run_post (s : nat) (tx : Tx) (b : Z) (key : bytes) (n h q : Z) (rows : list PendingEnvelope)
  (r : result (Z * Z) PostgresError) (v' : View) (log' : Log) : Prop :=
  match r with
  | Ok (x, q') => exists es, Forall2 (written n x) rows es /\ q' = from_option e_seq q (last es) /\
      from_option (eq x) True (tx_xid tx) /\ doing s (tx_run tx x es) b v' /\ knows (tx_run tx x es) b key n h v'
  | Err e => outrun key n h e log'
  end.

Lemma follows_snoc h es e : follows h es -> e_version e = h + len es + 1 -> follows h (es ++ [e]).
Proof.
  intros Hf He i d. rewrite lookup_app_Some. intros [Hd|[Hle Hd]]; [by apply Hf|].
  apply list_lookup_singleton_Some in Hd as [Hz <-]. unfold len in *. lia.
Qed.

Lemma last_seq_cons q e es : from_option e_seq (e_seq e) (last es) = from_option e_seq q (last (e :: es)).
Proof. rewrite last_cons. by destruct (last es). Qed.

Lemma wp_insert_rest s b id key n h rows tx es x q v log :
  doing s tx b v -> knows tx b key n h v -> of_stream n (tx_events tx) = es -> follows h es -> (rows = [] -> tx_xid tx = Some x) ->
  consecutive (h + len es + 1) (versions rows) ->
  wp s (insert_rest id n (x, q) rows) (run_post s tx b key n h q rows) v log.
Proof.
  revert tx es x q v log. induction rows as [|row rows IH]; intros tx es x q v log Hdo Hkn Hes Hf Hx Hcons; cbn [insert_rest].
  - specialize (Hx eq_refl). cbn. exists []. split_and!; [constructor|done|by rewrite Hx| |].
    + destruct tx as [st xid ks evs held]. pose proof (do_active _ _ _ _ Hdo) as Ha. cbn in *. subst st xid. unfold tx_run. cbn. by rewrite app_nil_r.
    + exact Hkn.
  - destruct Hcons as [Hv Hcons]. apply wp_try. eapply wp_mono; [by eapply wp_insert_one|]. intros [[x' q']|e] v' log'.
    + intros (e & (Hrow & Hst & Hpos) & Hsame & Hdo' & Hkn'). injection Hpos as Htx <-.
      assert (of_stream n (tx_events (tx_insert tx x' e)) = es ++ [e]) as Hes'.
      { cbn [tx_insert tx_events]. rewrite of_stream_app, of_stream_one, Hes. by rewrite decide_True. }
      eapply wp_mono; [eapply (IH (tx_insert tx x' e)); [done|done|exact Hes'| |done|]|].
      * apply follows_snoc; [done|]. unfold e_version. rewrite Hrow. exact Hv.
      * rewrite len_app, len_cons, len_nil. by replace (h + (len es + (1 + 0)) + 1) with (h + len es + 1 + 1) by lia.
      * intros [[x2 q2]|e2] v2 log2; [|done]. intros (es2 & Hw & Hq & Hsx & Hdo2 & Hkn2). cbn in Hsx. subst x2.
        exists (e :: es2). split_and!; [by constructor|by rewrite Hq, <- last_seq_cons|done| |].
        -- unfold tx_run, tx_insert in *. cbn in Hdo2. by rewrite <- app_assoc in Hdo2.
        -- exact Hkn2.
    + done.
Qed.

Lemma wp_insert_run s b id key n h batch tx v log :
  doing s tx b v -> knows tx b key n h v -> of_stream n (tx_events tx) = [] ->
  consecutive (h + 1) (versions (PendingBatch.iter batch)) ->
  wp s (insert_run id n batch) (run_post s tx b key n h 0 (PendingBatch.iter batch)) v log.
Proof.
  intros Hdo Hkn Hes Hcons. apply (wp_insert_rest s b id key n h (PendingBatch.iter batch) tx [] 0 0); [done|done|done|by intros ? ?|done|].
  change (len (@nil Event)) with 0. by rewrite Z.add_0_r.
Qed.

(** ** Keys and heads *)

Lemma key_number_Some keys value n : key_number keys value = Some n -> (n, value) ∈ keys.
Proof.
  unfold key_number. destruct (filter _ keys) as [|[m w] l] eqn:Hf; [done|]. cbn. intros [= ->].
  assert ((n, w) ∈ filter (fun e => e.2 = value) keys) as [Hw Hin]%list_elem_of_filter by (rewrite Hf; left). cbn in Hw. by subst w.
Qed.

Lemma key_number_None keys value n : key_number keys value = None -> (n, value) ∉ keys.
Proof.
  unfold key_number. destruct (filter _ keys) as [|e l] eqn:Hf; [|done]. intros _ Hin.
  assert ((n, value) ∈ filter (fun e => e.2 = value) keys) as Hin' by (by apply list_elem_of_filter). rewrite Hf in Hin'. by apply elem_of_nil in Hin'.
Qed.

Lemma NoDup_snd_inj {A B} (l : list (A * B)) a a' b : NoDup l.*2 -> (a, b) ∈ l -> (a', b) ∈ l -> a = a'.
Proof.
  induction l as [|[x y] l IH]; [by intros _ ?%elem_of_nil|]. cbn. intros [Hn Hnd]%NoDup_cons [H1|H1]%elem_of_cons [H2|H2]%elem_of_cons.
  - congruence.
  - injection H1 as -> ->. destruct Hn. apply list_elem_of_fmap. by exists (a', y).
  - injection H2 as -> ->. destruct Hn. apply list_elem_of_fmap. by exists (a, y).
  - by apply IH.
Qed.

Lemma key_number_in v n key : view_inv v -> (n, key) ∈ v_keys v -> key_number (v_keys v) key = Some n.
Proof.
  intros Hi Hin. destruct (key_number (v_keys v) key) as [m|] eqn:Hk; [|by eapply key_number_None in Hk].
  f_equal. apply key_number_Some in Hk. eapply (NoDup_snd_inj (v_keys v)); [apply (vi_values v Hi)|done|done].
Qed.

(** The length of the stream of a key. *)
Definition length_at (v : View) (key : bytes) : Z := from_option (fun n => len (stream_at v n)) 0 (key_number (v_keys v) key).

Lemma stream_length_bound v n : view_inv v -> 0 <= len (stream_at v n) <= u64_max.
Proof.
  intros Hi. split; [apply len_nonneg|]. destruct (last (stream_at v n)) as [e|] eqn:Hl.
  - rewrite last_lookup in Hl. pose proof (numbered_lookup _ _ _ (vi_numbered v Hi n) Hl) as Hv. apply list_elem_of_lookup_2 in Hl as Hin.
    apply elem_of_stream in Hin as [_ Hin]. destruct (vi_events v Hi e Hin) as (_ & _ & [Hr _] & _). unfold e_version in Hv.
    apply lookup_lt_Some in Hl. unfold len. lia.
  - apply last_None in Hl. rewrite Hl. done.
Qed.

Lemma length_at_bound v key : view_inv v -> 0 <= length_at v key <= u64_max.
Proof. intros Hi. unfold length_at. destruct (key_number _ _); cbn; [by apply stream_length_bound|done]. Qed.

Lemma max_version_of_stream l n :
  max_version l n = foldr (fun z m => Some (from_option (Z.max z) z m)) None (e_version <$> of_stream n l).
Proof.
  induction l as [|e l IH]; [done|]. unfold of_stream in *. rewrite filter_cons. cbn [max_version foldr] in *. fold (max_version l n). rewrite IH.
  destruct (Z.eqb_spec (e_stream e) n); case_decide; done.
Qed.

Lemma max_of_seqZ a k : 0 <= k -> foldr (fun z m => Some (from_option (Z.max z) z m)) None (seqZ a k) = if k =? 0 then None else Some (a + k - 1).
Proof.
  intros Hk. revert a. pattern k. apply natlike_ind; [done| |done]. clear k Hk. intros k Hk IH a.
  rewrite seqZ_cons by lia. cbn [foldr]. replace (Z.pred (Z.succ k)) with k by lia. rewrite IH.
  destruct (Z.eqb_spec k 0), (Z.eqb_spec (Z.succ k) 0); cbn; try lia; f_equal; lia.
Qed.

Lemma max_version_head v n : view_inv v -> max_version (v_events v) n = if len (stream_at v n) =? 0 then None else Some (len (stream_at v n)).
Proof.
  intros Hi. rewrite max_version_of_stream. fold (stream_at v n). rewrite (vi_numbered v Hi n), max_of_seqZ by apply len_nonneg.
  destruct (_ =? 0); [done|f_equal; lia].
Qed.

(** The answer to a head query is the length of the stream. *)
Lemma pg_head_answer v id :
  view_inv v -> pg_head_version ((fun n => (n, max_version (v_events v) n)) <$> key_number (v_keys v) (StreamKey.as_bytes id)) id =
    Ok (head_version (length_at v (StreamKey.as_bytes id))).
Proof.
  intros Hi. unfold length_at. destruct (key_number (v_keys v) (StreamKey.as_bytes id)) as [n|]; cbn; [|done]. rewrite max_version_head by done.
  pose proof (stream_length_bound v n Hi) as Hb. unfold head_version. destruct (Z.eqb_spec (len (stream_at v n)) 0) as [|Hne]; [done|].
  unfold parse_version. rewrite try_from_ok by lia. cbn. destruct (new (len (stream_at v n))) eqn:Hnew; [done|]. apply new_None in Hnew. lia.
Qed.

(** What a head read before any write tells about the stream of [key]. *)
Definition head_known (b : Z) (key : bytes) (head : option (Z * option Z)) (h : Z) (v : View) : Prop :=
  match head with
  | Some (n, _) => knows tx_new b key n h v
  | None => h = 0
  end.

Lemma head_known_moves s b key head h v v' : head_known b key head h v -> rtc (move s) v v' -> head_known b key head h v'.
Proof. destruct head as [[n m]|]; [apply knows_moves|done]. Qed.

Lemma wp_read_head s id v log :
  view_inv v -> mine s tx_new v ->
  wp s (read_head id) (fun r v' log' =>
    match r with
    | Ok head => view_inv v' /\ mine s tx_new v' /\ exists h, head_known (v_next_xid v') (StreamKey.as_bytes id) head h v' /\
        0 <= h <= u64_max /\ pg_head_version head id = Ok (head_version h) /\
        exists y, y ∈ log' /\ view_inv y.1 /\ length_at y.1 (StreamKey.as_bytes id) = h
    | Err _ => True
    end) v log.
Proof.
  intros Hi Hm. set (key := StreamKey.as_bytes id). apply wp_act; [done|]. intros v1 Hi1 Hr r v2 Hd. split; [done|]. intros Hi2. cbn.
  pose proof (moves_mine s tx_new v v1 eq_refl Hr Hm) as Hm1. destruct r as [head|e]; cbn in Hd |- *; [|done].
  destruct Hd as (Hserve & -> & ->). fold key. split; [done|]. split; [done|].
  assert (seen_keys v1 s = v_keys v1 /\ seen_events v1 s = v_events v1) as [-> ->].
  { unfold seen_keys, seen_events, own_keys, own_events. unfold serving in Hserve.
    destruct Hm1 as [Ho|[Ho|Ho]]; rewrite Ho in *; cbn in *; rewrite ?app_nil_r; done. }
  exists (length_at v1 key). split; [|split; [by apply length_at_bound|split; [|exists (v1, v1); split_and!; [set_solver|done|done]]]].
  - unfold length_at. destruct (key_number (v_keys v1) key) as [n|] eqn:Hk; cbn; [|done].
    apply key_number_Some in Hk. pose proof (stream_length_bound v1 n Hi1) as Hb. unfold knows. cbn [tx_keys tx_new]. rewrite app_nil_r.
    split_and!; [done|lia|lia|]. intros e (i & He & _)%elem_of_take. apply list_elem_of_lookup_2, elem_of_stream in He as [_ He].
    by apply (vi_events v1 Hi1 e).
  - by apply pg_head_answer.
Qed.

Lemma wp_create_key s tx b key v log :
  doing s tx b v ->
  wp s (create_key key) (fun r v' log' =>
    match r with
    | Ok n => exists tx', doing s tx' b v' /\ tx_events tx' = tx_events tx /\ (forall k, k ∈ tx_keys tx -> k ∈ tx_keys tx') /\
        (forall x, tx_xid tx = Some x -> tx_xid tx' = Some x) /\ (n, key) ∈ v_keys v' ++ tx_keys tx' /\ tx_held tx' = tx_held tx
    | Err e => exists err, e = PostgresError.Sqlx err /\ is_stream_conflict err = false
    end) v log.
Proof.
  intros Hdo. unfold create_key. apply wp_try. apply wp_act; [apply Hdo|]. intros v1 Hi1 Hr r v2 Hd. split; [done|]. intros Hi2.
  pose proof (doing_moves _ _ _ _ _ Hdo Hr) as [_ Hm1 Ha Hy]. destruct r as [[n|]|e]; [| |exists e; split; [done|apply Hd]].
  - destruct Hd as (t & x & next & Ho & Hact & Has & Hnt & Hn & ->). pose proof (mine_active _ _ _ _ Hm1 Ho Hact) as ->. cbn.
    exists (MkTx Active (Some x) (tx_keys tx ++ [(n, key)]) (tx_events tx) (tx_held tx)). unfold assigns in Has. split_and!.
    + split; [done|left; cbn; by rewrite lookup_insert_eq|done|]. cbn. destruct (tx_xid tx); cbn in Hy; lia.
    + done.
    + set_solver.
    + intros y Hy'. rewrite Hy' in Has. by destruct Has as [-> _].
    + set_solver.
    + done.
  - assert (exists tx', doing s tx' b v2 /\ tx_events tx' = tx_events tx /\ tx_keys tx' = tx_keys tx /\ (forall x, tx_xid tx = Some x -> tx_xid tx' = Some x) /\ tx_held tx' = tx_held tx)
      as (tx' & Hdo2 & Hev & Hks & Hx & Hhd).
    { destruct Hd as (t & x & next & Ho & Hact & _ & n & Hn & Hv2). pose proof (mine_active _ _ _ _ Hm1 Ho Hact) as ->.
      destruct Hv2 as [->|[Has ->]].
      - exists tx. by split_and!.
      - exists (MkTx Active (Some x) (tx_keys tx) (tx_events tx) (tx_held tx)). unfold assigns in Has. split_and!; [|done|done| |done].
        + split; [done|left; cbn; by rewrite lookup_insert_eq|done|]. cbn. destruct (tx_xid tx); cbn in Hy; lia.
        + intros y Hy'. rewrite Hy' in Has. by destruct Has as [-> _]. }
    cbn [wp sql_err map_err]. apply wp_try. apply wp_act; [done|]. intros v3 Hi3 Hr3 r3 v4 Hd3. split; [done|]. intros Hi4.
    pose proof (doing_moves _ _ _ _ _ Hdo2 Hr3) as Hdo3. destruct r3 as [found|e]; cbn in Hd3 |- *; [|exists e; split; [done|apply Hd3]].
    destruct Hd3 as (Hserve & -> & ->). destruct (key_number (seen_keys v3 s) key) as [n|] eqn:Hk; cbn; [|by exists RowNotFound].
    exists tx'. split_and!; [done|done|by rewrite Hks|done| |done]. apply key_number_Some in Hk. unfold seen_keys, own_keys in Hk.
    destruct (do_mine _ _ _ _ Hdo3) as [Ho|[Ho|Ho]]; rewrite Ho in Hk; cbn in Hk; [done|done|set_solver].
Qed.

(** ** Committing *)

(** What the session knows of the tables as long as others move. *)
Definition kept (s : nat) (K : View -> Prop) : Prop := forall v v', view_inv v -> rtc (move s) v v' -> K v -> K v'.

Lemma grown_kept s v : kept s (grown v).
Proof. intros v1 v2 _ Hr Hg. etrans; [exact Hg|exact (moves_grow _ _ _ Hr)]. Qed.

(** What a COMMIT of [tx] did, by its answer. *)
Definition commit_post (s : nat) (tx : Tx) (K : View -> Prop) (log : Log) (r : result () PostgresError) (v' : View) (log' : Log) : Prop :=
  match r with
  | Ok _ => exists ext v1, log' = log ++ ext ++ [(v1, v')] /\ quiet_log ext /\ view_inv v1 /\ K v1 /\ v_open v1 !! s = Some tx /\ v' = commit_tx v1 s tx
  | Err (PostgresError.CommitUnknown _) => exists ext v1, log' = log ++ ext ++ [(v1, v')] /\ quiet_log ext /\ view_inv v1 /\ K v1 /\
      (v' = drop_tx v1 s \/ v_open v1 !! s = Some tx /\ (v' = commit_tx v1 s tx \/ v' = set_open v1 s (set_status tx InDoubt)))
  | Err _ => exists ext, log' = log ++ ext /\ quiet_log ext /\ calm s v'
  end.

(** A session whose transaction is over. *)
Lemma drop_calm s v : view_inv v -> calm s (drop_tx v s).
Proof. intros Hi. split; [by eapply (change_inv v s), drop_change|]. intros t. cbn. by rewrite lookup_delete_eq. Qed.

Lemma commit_calm s v tx : view_inv v -> v_open v !! s = Some tx -> live tx -> calm s (commit_tx v s tx).
Proof. intros Hi Ho Hl. split; [by apply commit_inv|]. intros t. cbn. by rewrite lookup_delete_eq. Qed.

Lemma in_doubt_inv s v tx : view_inv v -> v_open v !! s = Some tx -> tx_status tx = Active -> view_inv (set_open v s (set_status tx InDoubt)).
Proof.
  intros Hi Ho Ha. eapply (change_inv v s); [done|]. apply change_none; cbn; try done; [lia..|]. apply (carried_set v s tx); [done|]. intros _. split; [by left|done].
Qed.

Lemma wp_check s tx b a K v log :
  kept s K -> doing s tx b v -> calm s v -> K v -> (forall v r v', documented v s a r v' = reads v s (fun _ => True) r v') -> a <> SCommit -> (forall v r, legit v s a r) ->
  wp s (sql a) (fun r v' log' => (is_ok r = true -> doing s tx b v' /\ K v') /\ calm s v' /\ (exists e, r = Err (PostgresError.Sqlx e) \/ is_ok r = true) /\
    exists ext, log' = log ++ ext /\ quiet_log ext) v log.
Proof.
  intros HK Hdo Hc HKv Hreads Hne Hlegit. eapply wp_mono; [apply (wp_quiet s (sql a) (fun r v' _ => (is_ok r = true -> doing s tx b v' /\ K v') /\
    (exists e, r = Err (PostgresError.Sqlx e) \/ is_ok r = true))); [by apply quiet_sql|done|]|].
  - apply wp_act; [apply Hdo|]. intros v1 Hi1 Hr r v2 Hd. split; [apply Hlegit|]. intros Hi2. rewrite Hreads in Hd. cbn.
    destruct r as [x|e]; cbn in *; [|split; [done|by exists e; left]]. destruct Hd as (_ & _ & ->).
    split; [intros _; split; [by eapply doing_moves|eapply HK; [apply Hdo|done|done]]|exists RowNotFound; by right].
  - intros r v' log' ([Hd He] & Hcalm & Hext). auto.
Qed.

Lemma wp_durability_commit s tx b K v log :
  kept s K -> doing s tx b v -> calm s v -> K v -> wp s durability_commit (commit_post s tx K log) v log.
Proof.
  intros HK Hdo Hc HKv. unfold durability_commit. apply wp_try. eapply wp_mono; [by eapply (wp_check s tx b SSetConstraints)|].
  intros r v1 log1 (Hdo1 & Hc1 & He1 & ext1 & -> & Hq1). destruct r as [u|e].
  2: { destruct He1 as (e' & [[= ->]|]); [|done]. by exists ext1. }
  destruct (Hdo1 eq_refl) as [Hd1 HK1].
  unfold durability_validate. apply wp_try, wp_try. eapply wp_mono; [by eapply (wp_check s tx b SSettings)|].
  intros r v2 log2 (Hdo2 & Hc2 & He2 & ext2 & -> & Hq2). destruct r as [[setting|]|e]; [apply wp_ret..|].
  - exists (ext1 ++ ext2). rewrite app_assoc. split_and!; [done|by apply Forall_app|done].
  - destruct (Hdo2 eq_refl) as [Hd2 HK2]. apply wp_act; [apply Hc2|]. intros v3 Hi3 Hr r v4 Hd. split; [done|]. intros Hi4. cbn.
    pose proof (doing_moves _ _ _ _ _ Hd2 Hr) as Hdo3. pose proof (moves_calm _ _ _ Hr Hc2) as Hc3.
    assert (K v3) as HK3 by (eapply HK; [apply Hd2|done|done]).
    assert (quiet_log (ext1 ++ ext2)) as Hq by (by apply Forall_app). destruct r as [u'|e]; cbn in Hd |- *.
    + destruct Hd as (t & Ho & [[Ha ->]|[Ha ->]]).
      * pose proof (mine_active _ _ _ _ (do_mine _ _ _ _ Hdo3) Ho Ha) as ->. exists (ext1 ++ ext2), v3. by rewrite !app_assoc.
      * exfalso. destruct (do_mine _ _ _ _ Hdo3) as [H|[H|H]]; rewrite H in Ho; [injection Ho as <-; by rewrite (do_active _ _ _ _ Hdo3) in Ha|by injection Ho as <-|done].
    + unfold commit_error. destruct (rejects_commit e) eqn:Hrej.
      * destruct Hd as [->|[? _]]; [|congruence]. exists (ext1 ++ ext2 ++ [(v3, drop_tx v3 s)]). rewrite !app_assoc. split; [done|]. split.
        -- apply Forall_app. split; [done|]. by repeat constructor.
        -- split; [done|]. intros t. cbn. by rewrite lookup_delete_eq.
      * exists (ext1 ++ ext2), v3. rewrite !app_assoc. split_and!; [done|done|done|done|]. destruct Hd as [->|(_ & t & Ho & Ha & H)]; [by left|right].
        by pose proof (mine_active _ _ _ _ (do_mine _ _ _ _ Hdo3) Ho Ha) as ->.
  - destruct He2 as (e' & [[= ->]|]); [|done]. exists (ext1 ++ ext2). rewrite app_assoc. split_and!; [done|by apply Forall_app|done].
Qed.

(** ** The whole append *)

(** From [v] to [v'] exactly [rows] were appended to the stream of [id], which had the
    expected length; they are one transaction's, and the last one is at [pos]. *)
Definition appended (id : StreamKey) (expected : option Version) (rows : list PendingEnvelope) (pos : Z * Z) (v v' : View) : Prop :=
  exists n es, (n, StreamKey.as_bytes id) ∈ v_keys v' /\ len (stream_at v n) = from_option as_u64 0 expected /\
    v_events v' = v_events v ++ es /\ Forall2 (written n pos.1) rows es /\ pos.2 = from_option e_seq 0 (last es).

(** A conflict has a reason: the batch does not continue the expected version, or the
    stream was seen with another length. *)
Definition contended (id : StreamKey) (expected : option Version) (rows : list PendingEnvelope) (log : Log) : Prop :=
  ~ consecutive (from_option as_u64 0 expected + 1) (versions rows) \/
  exists y, y ∈ log /\ view_inv y.1 /\ head_version (length_at y.1 (StreamKey.as_bytes id)) <> expected.

Definition append_post (s : nat) (history : History) (id : StreamKey) (expected : option Version) (rows : list PendingEnvelope)
  (r : result PgAllPos (AppendError PostgresError)) (v' : View) (log : Log) : Prop :=
  match r with
  | Ok p => exists l1 v1 v2 l2, log = l1 ++ (v1, v2) :: l2 /\ quiet_log l1 /\ quiet_log l2 /\ view_inv v1 /\
      pg_history p = history /\ appended id expected rows (pg_txid p, pg_seq p) v1 v2
  | Err (AppendStore (PostgresError.CommitUnknown _)) => exists l1 v1 v2 pos, log = l1 ++ [(v1, v2)] /\ quiet_log l1 /\ view_inv v1 /\
      (quiet v1 v2 /\ calm s v2 \/ appended id expected rows pos v1 v2 \/
       quiet v1 v2 /\ forall v3 tx, rtc (move s) v2 v3 -> v_open v3 !! s = Some tx -> appended id expected rows pos v3 (commit_tx v3 s tx))
  | Err e => quiet_log log /\ calm s v' /\ match e with AppendConflict _ _ _ => contended id expected rows log | AppendStore _ => True end
  end.

(** A transaction that holds the run appends it whenever it commits. *)
Lemma commit_appends s tx id expected rows n h x es v :
  view_inv v -> v_open v !! s = Some tx -> live tx -> tx_events tx = es -> Forall2 (written n x) rows es -> rows <> [] ->
  consecutive (h + 1) (versions rows) -> h = from_option as_u64 0 expected -> (n, StreamKey.as_bytes id) ∈ v_keys v ++ tx_keys tx ->
  appended id expected rows (x, from_option e_seq 0 (last es)) v (commit_tx v s tx).
Proof.
  intros Hi Ho Hl Hev Hw Hne Hcons Hh Hk. exists n, es. split_and!; [done| |by cbn; rewrite Hev|done|done].
  assert (of_stream n es = es) as Hes.
  { clear - Hw. induction Hw as [|row e rows es (_ & Hst & _) _ IH]; [done|]. unfold of_stream in *. by rewrite filter_cons_True, IH. }
  destruct Hw as [|row e rows es (Hrow & _) _]; [done|]. destruct (vi_own v Hi s tx n Ho Hl) as [Hnum _]; [by rewrite Hev, Hes|].
  rewrite Hev, Hes in Hnum. pose proof (numbered_after _ _ 0 e Hnum eq_refl) as He. unfold e_version in He. rewrite Hrow in He.
  destruct Hcons as [Hv _]. cbn in He. lia.
Qed.

(** After an unknown COMMIT the transaction is what it was, as long as it is there. *)
Lemma moves_in_doubt s tx v v' t :
  tx_status tx = InDoubt -> v_open v !! s = Some tx -> rtc (move s) v v' -> v_open v' !! s = Some t -> t = tx.
Proof.
  intros Hst Ho Hr. assert (v_open v !! s = Some tx \/ v_open v !! s = None) as H0 by (by left). clear Ho. revert H0.
  induction Hr as [v|v w u Hm _ IH]; [intros [Ho|Ho] Ht; rewrite Ho in Ht; [by injection Ht|done]|]. intros H0. apply IH.
  destruct Hm as [s' a r Hne Hd _|(s' & t' & Ht' & H)]; [by rewrite (documented_other _ _ _ _ _ s Hd)|].
  destruct (decide (s' = s)) as [->|Hne].
  - destruct H0 as [H0|H0]; rewrite H0 in Ht'; [|done]. injection Ht' as <-. rewrite Hst in H. right.
    destruct H as [->| ->]; cbn; by rewrite lookup_delete_eq.
  - assert (v_open w !! s = v_open v !! s) as ->; [|done].
    destruct (tx_status t'); [| | |destruct H]; subst w; cbn; by rewrite ?lookup_insert_ne, ?lookup_delete_ne.
Qed.

Lemma quiet_create_key key : quiet_prog (create_key key).
Proof. unfold create_key. apply quiet_try; [by apply quiet_sql|]. intros [n|]; [done|]. by apply quiet_try. Qed.

Lemma quiet_insert_rest id n rows assigned : quiet_prog (insert_rest id n assigned rows).
Proof. revert assigned. induction rows as [|row rows IH]; intros assigned; cbn [insert_rest]; [done|]. apply quiet_try; [done|]. intros. apply IH. Qed.

Lemma quiet_notify stream : quiet_prog (notify_committed stream).
Proof. unfold notify_committed, publish_hint. split; [done|]. intros _. by destruct (4000 <=? len stream). Qed.

(** An error before the COMMIT. *)
Lemma append_post_err s history id expected rows e v log :
  quiet_log log -> calm s v -> (forall x, e <> PostgresError.CommitUnknown x) -> append_post s history id expected rows (Err (AppendStore e)) v log.
Proof. intros Hq Hc Hne. destruct e; try done. by destruct (Hne e). Qed.

Lemma wp_append_commit s tx b history id expected rows n h x q es v log :
  doing s tx b v -> calm s v -> quiet_log log -> tx_events tx = es -> Forall2 (written n x) rows es -> rows <> [] ->
  consecutive (h + 1) (versions rows) -> h = from_option as_u64 0 expected -> (n, StreamKey.as_bytes id) ∈ v_keys v ++ tx_keys tx ->
  q = from_option e_seq 0 (last es) ->
  wp s (let*? _ := lift AppendStore durability_commit in
        let* _ := notify_committed (StreamKey.as_bytes id) in ret (Ok (MkPgPos history x q)))
    (append_post s history id expected rows) v log.
Proof.
  intros Hdo Hc Hq Hev Hw Hne Hcons Hh Hk ->. apply wp_try, wp_lift.
  assert (forall v1 t, grown v v1 -> tx_keys t = tx_keys tx -> (n, StreamKey.as_bytes id) ∈ v_keys v1 ++ tx_keys t) as Hkeys.
  { intros v1 t (ks & es' & -> & _) ->. set_solver. }
  eapply wp_mono; [by apply (wp_durability_commit s tx b (grown v) v log (grown_kept s v))|]. intros [u|e] v' log'.
  - intros (ext & v1 & -> & Hext & Hi1 & Hg & Ho & ->). cbn [map_err]. apply wp_bind.
    eapply wp_mono; [apply (wp_quiet s _ (fun _ _ _ => True)); [apply quiet_notify| |]|].
    + apply commit_calm; [done|done|left; apply Hdo].
    + unfold notify_committed, publish_hint. intros v2 _ r v3 _. split; [done|]. by destruct (4000 <=? _); [|intros v4 _ r' v5 _].
    + intros _ v2 log2 (_ & _ & ext2 & -> & Hq2). cbn.
      exists (log ++ ext), v1, (commit_tx v1 s tx), ext2. rewrite <- !app_assoc. split_and!; [done|by apply Forall_app|done|done|done|].
      eapply commit_appends; eauto. left. apply Hdo.
  - destruct e; cbn [map_err]; try (intros (ext & -> & Hext & Hcalm); apply append_post_err; [by apply Forall_app|done|done]).
    intros (ext & v1 & -> & Hext & Hi1 & Hg & Hcase). exists (log ++ ext), v1, v', (x, from_option e_seq 0 (last es)).
    rewrite <- app_assoc. split_and!; [done|by apply Forall_app|done|]. destruct Hcase as [->|[Ho [->| ->]]].
    + left. split; [done|by apply drop_calm].
    + right. left. eapply commit_appends; eauto. left. apply Hdo.
    + right. right. split; [done|]. intros v3 t Hr Ht.
      assert (view_inv (set_open v1 s (set_status tx InDoubt))) as Hi2 by (apply in_doubt_inv; [done|done|apply Hdo]).
      assert (t = set_status tx InDoubt) as -> by (eapply moves_in_doubt; [| |exact Hr|exact Ht]; [done|cbn; by rewrite lookup_insert_eq]).
      eapply commit_appends; eauto; [by eapply moves_inv|by right|]. apply Hkeys; [|done]. etrans; [exact Hg|]. exact (moves_grow _ _ _ Hr).
Qed.

Lemma wp_begin s v log :
  view_inv v -> wp s (sql SBegin) (fun r v' _ => is_ok r = true -> view_inv v' /\ mine s tx_new v') v log.
Proof.
  intros Hi. apply wp_act; [done|]. intros v1 Hi1 _ r v2 Hd. split; [done|]. intros Hi2. cbn. destruct r as [u|e]; cbn; [|done].
  intros _. split; [done|]. destruct Hd as [_ ->]. left. cbn. by rewrite lookup_insert_eq.
Qed.

Lemma validate_sizes_err id batch limits e : validate_sizes id batch limits = Err e -> forall x, e <> PostgresError.CommitUnknown x.
Proof.
  assert (forall total lengths e, sum_lengths total lengths = Err e -> forall x, e <> PostgresError.CommitUnknown x) as Hsum.
  { intros total lengths. revert total. induction lengths as [|l lengths IH]; intros total e' He'; [done|]. cbn in He'.
    destruct (try_from i64_max l); cbn in He'; [|by injection He' as <-]. destruct (checked_add _ _ _); cbn in He'; [by eapply IH|by injection He' as <-]. }
  unfold validate_sizes. induction (PendingBatch.iter batch) as [|pe l IH]; [done|]. cbn [validate_events]. unfold validate_bytes at 1.
  destruct (sum_lengths _ _) as [n|e'] eqn:Hs; cbn [result_bind]; [|intros [= <-]; by eapply Hsum]. case_match; [by intros [= <-]|]. exact IH.
Qed.

Lemma validated h expected batch id :
  0 <= h <= u64_max -> validate_append_versions (from_option as_u64 0 (head_version h)) expected batch id = Ok () ->
  expected = head_version h /\ consecutive (h + 1) (versions (PendingBatch.iter batch)).
Proof.
  intros Hh. rewrite (proj2 (head_version_raw (head_version h) h Hh) eq_refl). by apply (validate_append_exact h expected batch id Hh).
Qed.

(** The stages of [append] after the head was read and validated. *)
Lemma wp_append_insert s tx b history id expected batch n h v log :
  doing s tx b v -> knows tx b (StreamKey.as_bytes id) n h v -> tx_events tx = [] -> calm s v -> quiet_log log ->
  0 <= h <= u64_max -> expected = head_version h -> consecutive (h + 1) (versions (PendingBatch.iter batch)) ->
  wp s (let*? assigned := lift (pg_append_error id expected) (insert_run id n batch) in
        let*? _ := lift AppendStore durability_commit in
        let* _ := notify_committed (StreamKey.as_bytes id) in ret (Ok (MkPgPos history assigned.1 assigned.2)))
    (append_post s history id expected (PendingBatch.iter batch)) v log.
Proof.
  intros Hdo Hkn Hev Hc Hq Hh Hexp Hcons. apply wp_try, wp_lift.
  eapply wp_mono; [apply wp_quiet; [apply (quiet_insert_rest id n (PendingBatch.iter batch) (0, 0))|done|eapply (wp_insert_run s b id (StreamKey.as_bytes id) n h batch tx v log); [done|done|by rewrite Hev|done]]|].
  intros [[x q]|e] v' log' (Hpost & Hc' & ext & -> & Hext); cbn [map_err].
  - destruct Hpost as (es & Hw & Hq' & _ & Hdo' & Hkn'). eapply (wp_append_commit s _ b _ _ _ _ n h _ _ es); try done.
    + by apply Forall_app.
    + cbn. by rewrite Hev.
    + symmetry. rewrite Hexp. by apply head_version_raw.
    + apply Hkn'.
  - destruct Hpost as [Hnc Hpost]. unfold pg_append_error. destruct e; try (apply append_post_err; [by apply Forall_app|done|done]).
    destruct (is_stream_conflict e) eqn:Hcf; [|apply append_post_err; [by apply Forall_app|done|done]].
    split_and!; [by apply Forall_app|done|]. right. destruct (Hpost e eq_refl Hcf) as (y & Hy & Hiy & Hky & Hlt). exists y. split_and!; [done|done|].
    unfold length_at. rewrite (key_number_in y.1 n) by done. cbn. rewrite Hexp. intros Heq.
    apply head_version_inj in Heq; [lia|by apply stream_length_bound|done].
Qed.

Lemma wp_append s limits history id expected batch v :
  view_inv v -> v_open v !! s = None ->
  wp s (append limits history id expected batch) (append_post s history id expected (PendingBatch.iter batch)) v [].
Proof.
  intros Hi Ho. assert (calm s v) as Hc by (split; [done|by rewrite Ho]). unfold append.
  apply wp_try, wp_ret. destruct (validate_sizes id batch limits) as [[]|e] eqn:Hsz; cbn [map_err].
  2: { apply append_post_err; [constructor|done|by eapply validate_sizes_err]. }
  apply wp_try, wp_lift. eapply wp_mono; [apply wp_sql; [done|done|by apply wp_begin]|].
  intros [u|e] v1 log1 (Hb & He1 & Hc1 & ext1 & -> & Hq1); cbn [map_err]; [|apply append_post_err; [done|done|by apply He1]].
  destruct (Hb eq_refl) as [Hi1 Hm1]. apply wp_try, wp_lift.
  eapply wp_mono; [apply wp_sql; [done|done|by apply wp_read_head]|].
  intros [head|e] v2 log2 (Hhead & He2 & Hc2 & ext2 & -> & Hq2); cbn [map_err]; [|apply append_post_err; [by apply Forall_app|done|by apply He2]].
  destruct Hhead as (Hi2 & Hm2 & h & Hkn & Hh & Hpg & y & Hy & Hiy & Hly).
  assert (quiet_log (([] ++ ext1) ++ ext2)) as Hq by (by apply Forall_app). revert Hy. generalize dependent (([] ++ ext1) ++ ext2). intros log Hq Hy.
  apply wp_try, wp_ret. rewrite Hpg. cbn [map_err]. apply wp_try, wp_ret.
  destruct (validate_append_versions _ expected batch id) as [[]|e] eqn:Hval; cbn [map_err].
  2: { destruct e as [l exp act|]; cbn [postgres_validation_err]; [|by apply append_post_err]. split_and!; [done|done|].
    destruct (decide (expected = head_version h)) as [Heq|Hne]; [|right; exists y; split_and!; [done|done|by rewrite Hly]].
    left. intros Hcons. rewrite Heq, (proj2 (head_version_raw (head_version h) h Hh) eq_refl) in Hcons.
    rewrite (proj2 (head_version_raw (head_version h) h Hh) eq_refl) in Hval.
    destruct (validate_append_exact h expected batch id Hh) as [Hex _]. rewrite (proj2 Hex) in Hval; [done|by split]. }
  destruct (validated h expected batch id Hh Hval) as [Hexp Hcons]. apply wp_try.
  assert (doing s tx_new (v_next_xid v2) v2) as Hdo by (split; [done|done|done|cbn; lia]).
  destruct head as [[n m]|].
  - apply wp_ret. by eapply wp_append_insert.
  - apply wp_lift. eapply wp_mono; [apply wp_quiet; [apply quiet_create_key|done|by eapply wp_create_key]|].
    intros [n|e] v3 log3 (Hk & Hc3 & ext3 & -> & Hq3); cbn [map_err].
    + destruct Hk as (tx' & Hdo' & Hev & _ & _ & Hin & _). cbn in Hkn. subst h. eapply wp_append_insert; eauto; [|by apply Forall_app].
      split_and!; [done|lia|apply len_nonneg|]. by intros e ?%elem_of_nil.
    + destruct Hk as (err & -> & _). apply append_post_err; [by apply Forall_app|done|done].
Qed.
End append.
