(* ===== verification/PgScan.v ===== *)
(** * Scans of the PostgreSQL store

    Every scan of the adapter is the same loop: take a row from a buffer, refill the
    buffer with a page when it is empty, continue after the last row delivered, and
    hold neither a transaction nor a connection between pages.  This file has what the
    scans share: the loop that consumes them, what stays true while other sessions
    commit between two pages ([settled]), and the specification of a scan over a fixed
    list of candidate rows ([scanned]). *)

From Stdlib Require Import Sorted.
From stdpp Require Import sorting.
From S2P Require Import Prelude Utf8 ErrorId Version Value Wire Envelope RawStore InMemory Pg PgDb PgInv PgStore PgAppend.

(** ** The loop *)

(** How a consumer that asked for some items left the stream. *)
Inductive Finish (St : Type) : Type :=
| Ended
| More (st : St)
| Failed (e : PostgresError)
| Panicked.
Arguments Ended {St}.
Arguments More {St}.
Arguments Failed {St}.
Arguments Panicked {St}.

(** At most [n] items of a [try_unfold] stream. *)
Fixpoint collect {A St} (next : St -> prog (outcome (option (A * St)) PostgresError)) (n : nat) (st : St) : prog (list A * Finish St) :=
  match n with
  | O => ret ([], More st)
  | S n =>
      let* polled := next st in
      match polled with
      | Returns (Ok (Some (a, st))) => prog_map (fun r => (a :: r.1, r.2)) (collect next n st)
      | Returns (Ok None) => ret ([], Ended)
      | Returns (Err e) => ret ([], Failed e)
      | Panics => ret ([], Panicked)
      end
  end.

(** What every step does with its buffer: end, or convert the first row and continue
    after it. *)
Definition pop {R A P St} (convert : R -> outcome (A * P) PostgresError) (resume : P -> list (PageRow R) -> St) (rows : list (PageRow R))
  : outcome (option (A * St)) PostgresError :=
  match rows with
  | [] => Returns (Ok None)
  | buffered :: rows =>
      let! row := Returns (into_value buffered) in
      let! (item, position) := convert row in
      Returns (Ok (Some (item, resume position rows)))
  end.

(** ** Sorted candidates *)

Lemma ordered_unique {R} (lt : R -> R -> Prop) l k :
  (forall x, ~ lt x x) -> Transitive lt -> StronglySorted lt l -> StronglySorted lt k -> (forall x, x ∈ l <-> x ∈ k) -> l = k.
Proof.
  intros Hir Htr Hl. revert k. induction Hl as [|x l Hl IH Hx]; intros k Hk Hin.
  - destruct k as [|y k]; [done|]. assert (y ∈ []) as ?%elem_of_nil by (apply Hin; left). done.
  - destruct Hk as [|y k Hk Hy]; [assert (x ∈ []) as ?%elem_of_nil by (apply Hin; left); done|].
    rewrite Forall_forall in Hx, Hy.
    assert (x = y) as ->.
    { assert (x ∈ y :: k) as [->|H1]%elem_of_cons by (apply Hin; left); [done|].
      assert (y ∈ x :: l) as [->|H2]%elem_of_cons by (apply Hin; left); [done|].
      destruct (Hir x). etrans; [by apply Hx|by apply Hy]. }
    f_equal. apply IH; [done|]. intros z. split; intros Hz.
    + assert (z ∈ y :: k) as [->|?]%elem_of_cons by (apply Hin; by right); [by destruct (Hir y); apply Hx|done].
    + assert (z ∈ y :: l) as [->|?]%elem_of_cons by (apply Hin; by right); [by destruct (Hir y); apply Hy|done].
Qed.

Lemma sorted_drop {R} (lt : R -> R -> Prop) l k : StronglySorted lt l -> StronglySorted lt (drop k l).
Proof. intros Hl. rewrite <- (take_drop k l) in Hl. apply sorted_app_inv in Hl. apply Hl. Qed.

(** What follows an element is what is greater. *)
Lemma drop_selected {R} (lt : R -> R -> Prop) l k c x :
  (forall x, ~ lt x x) -> Transitive lt -> StronglySorted lt l -> l !! k = Some c -> x ∈ drop (S k) l <-> x ∈ l /\ lt c x.
Proof.
  intros Hir Htr Hl Hc. rewrite <- (take_drop_middle l k c Hc) in Hl. destruct (sorted_app_inv _ _ _ Hl) as (_ & Hr & Hlt).
  apply StronglySorted_inv in Hr as [_ Hr]. rewrite Forall_forall in Hr. split.
  - intros Hx. split; [|by apply Hr]. rewrite <- (take_drop_middle l k c Hc). set_solver.
  - intros [Hx Hcx]. rewrite <- (take_drop_middle l k c Hc) in Hx. apply elem_of_app in Hx as [Hx|[->|Hx]%elem_of_cons]; [exfalso|by destruct (Hir c)|done].
    destruct (Hir c). etrans; [exact Hcx|]. apply Hlt; [done|left].
Qed.

#[export] Instance event_lt_trans : Transitive event_lt.
Proof. intros a b c. unfold event_lt. apply transitivity. Qed.

Lemma event_lt_irrefl x : ~ event_lt x x.
Proof. unfold event_lt, pos_lt. lia. Qed.

#[export] Instance version_lt_trans : Transitive version_lt.
Proof. intros a b c. unfold version_lt. lia. Qed.

Lemma version_lt_irrefl x : ~ version_lt x x.
Proof. unfold version_lt. lia. Qed.

#[export] Instance number_lt_trans : Transitive number_lt.
Proof. intros a b c. unfold number_lt. lia. Qed.

Lemma number_lt_irrefl x : ~ number_lt x x.
Proof. unfold number_lt. lia. Qed.

(** Sorting by a key that no two rows share. *)
Section sorting.
Context {R X : Type} (key : R -> X) (lt : X -> X -> Prop) `{!RelDecision lt, !Transitive lt, !Irreflexive lt}.
Context (total : forall x y, lt x y \/ x = y \/ lt y x).

Definition key_le (a b : R) : Prop := ~ lt (key b) (key a).
#[local] Instance key_le_dec a b : Decision (key_le a b).
Proof using RelDecision0. unfold key_le. apply _. Defined.

Definition sort_by (l : list R) : list R := merge_sort key_le l.

Lemma sort_by_sorted l : NoDup (key <$> l) -> StronglySorted (fun a b => lt (key a) (key b)) (sort_by l).
Proof using All.
  intros Hnd. unfold sort_by. pose proof (merge_sort_Permutation key_le l) as Hp.
  assert (StronglySorted key_le (merge_sort key_le l)) as Hs.
  { apply StronglySorted_merge_sort.
    - intros a b c Hab Hbc Hca. unfold key_le in *. destruct (total (key a) (key b)) as [H|[H|H]]; [|rewrite H in Hca; done|done].
      apply Hbc. by etrans.
    - intros a b. unfold key_le. destruct (decide (lt (key b) (key a))) as [H|H]; [right|by left]. intros H2.
      apply (irreflexivity lt (key a)). by etrans. }
  rewrite <- Hp in Hnd. revert Hs Hnd. clear Hp. generalize (merge_sort key_le l). induction 1 as [|x k Hk IH Hx]; [constructor|]. cbn. intros [Hn Hnd]%NoDup_cons.
  constructor; [by apply IH|]. rewrite Forall_forall in *. intros y Hy. specialize (Hx y Hy). unfold key_le in Hx.
  destruct (total (key x) (key y)) as [?|[H|?]]; [done| |done]. destruct Hn. rewrite H. by apply list_elem_of_fmap_2.
Qed.

Lemma elem_of_sort_by l x : x ∈ sort_by l <-> x ∈ l.
Proof. unfold sort_by. by rewrite merge_sort_Permutation. Qed.
End sorting.

(** ** What holds while a scan is suspended *)

(** The session has no transaction. *)
Definition idle (s : nat) (v : View) : Prop := view_inv v /\ v_open v !! s = None.

Definition stable (I : View -> Prop) : Prop := forall v s v', view_inv v -> I v -> change v s v' -> I v'.

Lemma moves_stable I s v v' : stable I -> rtc (move s) v v' -> view_inv v -> I v -> I v'.
Proof.
  intros HI. induction 1 as [|x y z Hm _ IH]; [done|]. intros Hi HIx. destruct (move_change _ _ _ Hm) as [s' Hc].
  apply IH; [by eapply change_inv|by eapply HI].
Qed.

Lemma move_idle s v v' : move s v v' -> idle s v -> idle s v'.
Proof.
  intros Hm [Hi Ho]. split; [destruct (move_change _ _ _ Hm) as [s' ?]; by eapply change_inv|].
  destruct Hm as [s' a r Hne Hd _|(s' & t & Ht & H)]; [by rewrite (documented_other _ _ _ _ _ s Hd)|].
  destruct (decide (s' = s)) as [->|Hne]; [by rewrite Ho in Ht|].
  destruct (tx_status t); [| | |destruct H]; subst v'; cbn; by rewrite ?lookup_insert_ne, ?lookup_delete_ne.
Qed.

Lemma moves_idle s v v' : rtc (move s) v v' -> idle s v -> idle s v'.
Proof. induction 1 as [|x y z Hm _ IH]; [done|]. intros. apply IH. by eapply move_idle. Qed.

(** The statements that start no transaction. *)
Definition reading (a : Stmt) : Prop :=
  match a with SBegin | SInsertKey _ | SInsertEvent _ _ | SCommit | SRollback | SLockCheckpoint _ | SUpdateCheckpoint _ _ | SInsertCheckpoint _ _ | SUpsertSnapshot _ _ => False | _ => True end.

Lemma reading_idle s v a r v' : reading a -> idle s v -> documented v s a r v' -> change v s v' /\ idle s v'.
Proof.
  intros Ha [Hi Ho] Hd. assert (legit v s a r) as Hl by (by destruct a). pose proof (documented_change _ _ _ _ _ Hd Hl) as Hc.
  split; [done|]. split; [by eapply change_inv|].
  assert (forall R P (r : result R SqlxError) v', reads v s P r v' -> v_open v' !! s = None) as Hr.
  { intros R P [x|e] w; cbn; [by intros (_ & _ & ->)|]. intros [(x & q & n & _ & _ & _ & ->) _]. cbn. by rewrite Ho. }
  destruct a; cbn in Hd; try done; try (by eapply Hr, Hd); by subst v'.
Qed.

(** A statement of a session without a transaction sees what is committed. *)
Lemma wp_reading s a (I : View -> Prop) Q v log :
  reading a -> stable I -> idle s v -> I v ->
  (forall v1 r v2, idle s v1 -> I v1 -> seen_keys v1 s = v_keys v1 -> seen_events v1 s = v_events v1 -> idle s v2 -> I v2 ->
    documented v1 s a r v2 -> Q (sql_err r) v2 (log ++ [(v1, v2)])) ->
  wp s (sql a) Q v log.
Proof.
  intros Ha HI Hid HIv HQ v1 Hm r v2 Hd. pose proof (moves_idle _ _ _ Hm Hid) as Hid1.
  pose proof (moves_stable _ _ _ _ HI Hm (proj1 Hid) HIv) as HI1. destruct (reading_idle _ _ _ _ _ Ha Hid1 Hd) as [Hc Hid2].
  split; [by destruct a|]. apply wp_ret, (HQ v1); try done; [| |eapply HI; [apply Hid1|done|done]];
    unfold seen_keys, seen_events, own_keys, own_events; rewrite (proj2 Hid1); by rewrite app_nil_r.
Qed.

(** The transactions that [P] selects are over in [v0]: what they committed is there,
    and no transaction that can still commit is selected. *)
Record settled (P : Z -> Prop) (v0 v : View) : Prop := MkSettled {
  st_grown : grown v0 v;
  st_events e : e ∈ v_events v -> P (e_txid e) -> e ∈ v_events v0;
  st_open s tx x : v_open v !! s = Some tx -> live tx -> tx_xid tx = Some x -> ~ P x;
  st_next x : v_next_xid v <= x -> ~ P x;
}.

Lemma settled_stable P v0 : stable (settled P v0).
Proof.
  intros v s v' Hi [Hg He Ho Hn] Hc. pose proof (change_grows _ _ _ Hc) as Hg2. pose proof (change_xid _ _ _ Hi Hc) as Hx2.
  assert (grown v0 v') as Hg' by (by etrans). split; [done| | |intros x Hx; apply Hn; lia].
  - destruct Hc as [Hk Hev ? ? ? ? ?|tx x next ks es held q n Hs Ha Has Hks Hes Hq Hqe Hn' Hnk Hlk Hrw Hkeep ->|tx Hs Hl ->]; cbn; [by rewrite Hev|done|].
    intros e [Hin|Hin]%elem_of_app HP; [by apply He|exfalso]. destruct (vi_written v Hi s tx e Hs Hl Hin) as (_ & Hx & _).
    by eapply (Ho s tx).
  - intros s' t x Ht Hl Hx. destruct Hc as [Hk Hev ? ? ? ? Hcar|tx y next ks es held q n Hs Ha Has Hks Hes Hq Hqe Hn' Hnk Hlk Hrw Hkeep ->|tx Hs Hlv ->].
    + destruct (Hcar s' t Ht Hl) as [->|(t0 & Ht0 & Hl0 & Hx0 & _)]; [done|]. eapply Ho; [done|done|congruence].
    + cbn in Ht. rewrite lookup_insert in Ht. case_decide; [|by eapply Ho]. injection Ht as <-. cbn in Hx. injection Hx as <-.
      unfold assigns in Has. destruct (tx_xid tx) as [z|] eqn:Hz; [destruct Has as [-> _]; eapply Ho; [done|by left|done]|apply Hn; lia].
    + cbn in Ht. apply lookup_delete_Some in Ht as [_ Ht]. by eapply Ho.
Qed.

Lemma settled_xmin v x : view_inv v -> xmin v x -> settled (fun t => t < x) v v.
Proof. intros Hi (Hx & Hn & _). split; [done|done| |lia]. intros s tx y Ht Hl Hy. specialize (Hx s tx y Ht Hl Hy). lia. Qed.

Lemma settled_snapshot v sn : current_snapshot v sn -> settled (fun t => visible_in_snapshot t sn = true) v v.
Proof.
  intros (_ & Ho & Hn). split; [done|done| |].
  - intros s tx y Ht Hl Hy Hv. by rewrite (Ho s tx y Ht Hl Hy) in Hv.
  - intros y Hy Hv. by rewrite (Hn y Hy) in Hv.
Qed.

(** ** A scan over a fixed list *)

Section scan.
Context {C R A P St : Type} (limits : Limits) (size : C -> Z) (row : C -> R) (convert : R -> outcome (A * P) PostgresError).

(** A candidate as its page transfers it, and the item made of it. *)
Definition transferred (c : C) : PageRow R := page_row (nz_get (limit_bytes limits)) (size c, row c).
Definition item_of (c : C) : outcome (A * P) PostgresError := let! r := Returns (into_value (transferred c)) in convert r.

(** [k] candidates are delivered, the buffer holds the next ones. *)
Definition buffered (E : list C) (k : nat) (rows : list (PageRow R)) : Prop :=
  exists B rest, drop k E = B ++ rest /\ rows = transferred <$> B.

Lemma buffered_page E k :
  (forall c, 0 < size c) ->
  let rows := page limits ((fun c => (size c, row c)) <$> drop k E) in buffered E k rows /\ (rows = [] -> drop k E = []).
Proof.
  intros Hpos. destruct (page_spec limits ((fun c => (size c, row c)) <$> drop k E)) as (j & -> & Hj & _).
  { apply Forall_fmap, Forall_forall. intros c _. apply Hpos. }
  rewrite <- fmap_take, <- list_fmap_compose. split.
  - exists (take j (drop k E)), (drop j (drop k E)). by rewrite take_drop.
  - intros Hnil%fmap_nil_inv. destruct (drop k E) as [|c l]; [done|]. destruct j; [specialize (Hj ltac:(done)); lia|done].
Qed.

(** What one step of the scan answers after [k] items. *)
Definition popped (resume : P -> list (PageRow R) -> St) (E : list C) (k : nat) (r : outcome (option (A * St)) PostgresError) : Prop :=
  match r with
  | Returns (Ok (Some (a, st))) => exists c p rows, E !! k = Some c /\ item_of c = Returns (Ok (a, p)) /\ st = resume p rows /\ buffered E (S k) rows
  | Returns (Ok None) => (length E <= k)%nat
  | Returns (Err e) => exists c, E !! k = Some c /\ item_of c = Returns (Err e)
  | Panics => exists c, E !! k = Some c /\ item_of c = Panics
  end.

Lemma pop_spec resume E k rows : buffered E k rows -> (rows = [] -> drop k E = []) -> popped resume E k (pop convert resume rows).
Proof.
  intros (B & rest & Hd & ->) Hnil. destruct B as [|c B]; cbn [fmap list_fmap pop].
  - specialize (Hnil eq_refl). apply (f_equal length) in Hnil. rewrite length_drop in Hnil. cbn in Hnil |- *. lia.
  - assert (E !! k = Some c) as Hc by (rewrite <- (Nat.add_0_r k), <- lookup_drop, Hd; done).
    assert (item_of c = (let! r := Returns (into_value (transferred c)) in convert r)) as Hit by done.
    destruct (into_value (transferred c)) as [r|e]; cbn [outcome_bind] in *; [|by exists c].
    destruct (convert r) as [[[a p]|e]|]; cbn [outcome_bind]; [|by exists c|by exists c].
    exists c, p, (transferred <$> B). split_and!; [done|done|done|]. exists B, rest. split; [|done].
    rewrite (drop_S _ _ _ Hc) in Hd. by injection Hd.
Qed.

(** One step: refill the buffer if it is empty, and convert its first row.  [J] is what
    the session knows of the tables. *)
Lemma wp_step s rows q (resume : P -> list (PageRow R) -> St) E k (J : View -> Prop) v log :
  (forall c, 0 < size c) -> buffered E k rows -> J v ->
  (rows = [] -> wp s q (fun r v' _ => J v' /\
     match r with
     | Ok rows => rows = page limits ((fun c => (size c, row c)) <$> drop k E)
     | Err e => exists err, e = PostgresError.Sqlx err
     end) v log) ->
  wp s (let* fetched := match rows with [] => q | _ => ret (Ok rows) end in
        ret (let! rows := Returns fetched in pop convert resume rows))
    (fun r v' _ => J v' /\ (popped resume E k r \/ exists err, r = Returns (Err (PostgresError.Sqlx err)))) v log.
Proof.
  intros Hpos Hb HJ Hq. apply wp_bind. destruct rows as [|r rows].
  - eapply wp_mono; [by apply Hq|]. intros [rows|e] v' log' [HJ' H]; apply wp_ret; split; try done; cbn [outcome_bind].
    + left. subst rows. destruct (buffered_page E k Hpos). by apply pop_spec.
    + right. destruct H as [err ->]. by exists err.
  - apply wp_ret, wp_ret. split; [done|]. left. cbn [outcome_bind]. by apply pop_spec.
Qed.

(** The result of a consumer that asked for at most [n] items: the first candidates in
    order, up to the first one that cannot be transferred or converted, and all of them
    if the stream ended. *)
Definition scanned (E : list C) (n : nat) (items : list A) (fin : Finish St) : Prop :=
  Forall2 (fun c a => exists p, item_of c = Returns (Ok (a, p))) (take (length items) E) items /\
  match fin with
  | Ended => length items = length E
  | More _ => length items = n
  | Failed e => (exists err, e = PostgresError.Sqlx err) \/ exists c, E !! length items = Some c /\ item_of c = Returns (Err e)
  | Panicked => exists c, E !! length items = Some c /\ item_of c = Panics
  end.

(** The invariant [I k st v] of a cursor makes its consumer deliver the list. *)
Lemma wp_collect s (next : St -> prog (outcome (option (A * St)) PostgresError)) (I : nat -> St -> View -> Prop) (E : list C) n k st v log :
  (forall k st v log, I k st v -> wp s (next st) (fun r v' log' =>
     match r with
     | Returns (Ok (Some (a, st'))) => exists c p, E !! k = Some c /\ item_of c = Returns (Ok (a, p)) /\ I (S k) st' v'
     | Returns (Ok None) => (length E <= k)%nat
     | Returns (Err e) => (exists err, e = PostgresError.Sqlx err) \/ exists c, E !! k = Some c /\ item_of c = Returns (Err e)
     | Panics => exists c, E !! k = Some c /\ item_of c = Panics
     end /\ exists st', I k st' v') v log) ->
  I k st v -> (k <= length E)%nat ->
  wp s (collect next n st) (fun r v' _ => scanned (drop k E) n r.1 r.2 /\ exists k' st', I k' st' v') v log.
Proof.
  intros Hnext. revert k st v log. induction n as [|n IH]; intros k st v log Hk Hle; cbn [collect].
  - split; [split; cbn; [constructor|done]|by eauto].
  - apply wp_bind. eapply wp_mono; [by apply Hnext|]. intros [[[[a st']|]|e]|] v' log' [H (st1 & HI1)].
    + destruct H as (c & p & Hc & Hit & HI). apply wp_bind. eapply wp_mono; [apply IH; [exact HI|]|].
      { apply lookup_lt_Some in Hc. lia. }
      intros [items fin] v2 log2 [[Hf Hfin] HI2]. apply wp_ret. cbn [fst snd length] in *. split; [|done].
      rewrite (drop_S _ _ _ Hc). split; [cbn; constructor; [by exists p|done]|]. destruct fin; cbn in *; try lia; done.
    + split; [split; [constructor|]; cbn; rewrite length_drop; lia|by eauto].
    + split; [split; [constructor|]|by eauto]. cbn. rewrite lookup_drop, Nat.add_0_r. done.
    + split; [split; [constructor|]|by eauto]. cbn. rewrite lookup_drop, Nat.add_0_r. done.
Qed.
End scan.
