(* ===== verification/PgRead.v ===== *)
(** * The reads of the PostgreSQL store (adapters/postgres/src/store.rs, store/listing.rs)

    [read_stream], [read_all] and [list_streams] as programs over the database, and
    what a consumer gets from them while other sessions append: one finite, repeatable
    list each, although every page is a statement of its own. *)

From Stdlib Require Import String Sorted.
From stdpp Require Import sorting.
From S2P Require Import Prelude Utf8 ErrorId Version Value Wire Envelope RawStore InMemory Pg PgDb PgInv PgStore PgAppend PgScan.
Close Scope string_scope.
Open Scope list_scope.

Section reads.
Context {T : Target} {AS : ArrayString}.

(** ** [read_stream] *)

(** The state of the cursor: [None] is the empty stream. *)
Record StreamScan : Type := MkStreamScan {
  ss_key : Z;
  ss_after : option Z;
  ss_rows : list (PageRow EventRow);
  ss_floor : Z;
  ss_ceiling : Z;
}.

Definition read_stream (id : StreamKey) (from : Version) : prog (result (option StreamScan) PostgresError) :=
  let*? _ := sql SAcquire in
  let*? head := read_head id in
  ret (Ok (match head with
           | Some (number, Some upper) => Some (MkStreamScan number None [] (as_u64 from) upper)
           | _ => None
           end)).

Definition stream_convert (label : ErrorId) (row : EventRow) : outcome (PersistedEnvelope * Z) PostgresError :=
  let! event := row_to_envelope row label in
  Returns (Ok (event, as_u64 (ps_version event))).

Definition stream_fetch (limits : Limits) (st : StreamScan) : prog (result (list (PageRow EventRow)) PostgresError) :=
  match ss_rows st with
  | [] => sql (SPageStream (ss_key st) (ss_floor st) (ss_ceiling st) (ss_after st) limits)
  | _ => ret (Ok (ss_rows st))
  end.

Definition stream_resume (st : StreamScan) (next : Z) (rows : list (PageRow EventRow)) : option StreamScan :=
  Some (MkStreamScan (ss_key st) (Some next) rows (ss_floor st) (ss_ceiling st)).

Definition stream_next (limits : Limits) (label : ErrorId) (cursor : option StreamScan)
  : prog (outcome (option (PersistedEnvelope * option StreamScan)) PostgresError) :=
  match cursor with
  | None => ret (Returns (Ok None))
  | Some st =>
      let* fetched := stream_fetch limits st in
      ret (let! rows := Returns fetched in pop (stream_convert label) (stream_resume st) rows)
  end.

(** A consumer of at most [n] events of a stream. *)
Definition read_stream_events (limits : Limits) (n : nat) (id : StreamKey) (from : Version)
  : prog (result (list PersistedEnvelope * Finish (option StreamScan)) PostgresError) :=
  let*? cursor := read_stream id from in
  prog_map Ok (collect (stream_next limits (error_id id)) n cursor).

(** ** [read_all] *)

Record AllScan : Type := MkAllScan {
  as_after : option PgAllPos;
  as_rows : list (PageRow AllEventRow);
  as_ceiling : Z;
}.

Definition read_all (history : History) (from : option PgAllPos) : prog (result AllScan PostgresError) :=
  let*? _ := ret (match from with Some position => history_check history (pg_history position) | None => Ok () end) in
  let*? upper := sql SXmin in
  ret (Ok (MkAllScan from [] upper)).

(** The condition a page continues with. *)
Definition after_position (position : PgAllPos) : After :=
  match try_from i64_max (pg_seq position) with
  | Some sequence => AfterPair (pg_txid position) sequence
  | None => AfterTxid (pg_txid position)
  end.

Definition all_convert (history : History) (row : AllEventRow) : outcome ((PgAllPos * StreamKey * PersistedEnvelope) * PgAllPos) PostgresError :=
  let stream := StreamKey.from_bytes (all_stream_id row) in
  let row_label := error_id stream in
  let! txid := Returns (ok_or (try_from u64_max (all_txid row)) (corrupt row_label (str "txid out of range"))) in
  let! seq := Returns (ok_or (try_from u64_max (all_global_seq row)) (corrupt row_label (str "global_seq out of range"))) in
  let! _ := Returns (if seq =? 0 then Err (corrupt row_label (str "global_seq is zero")) else Ok ()) in
  let! event := row_to_envelope (all_event row) row_label in
  let position := MkPgPos history txid seq in
  Returns (Ok ((position, stream, event), position)).

Definition all_fetch (limits : Limits) (st : AllScan) : prog (result (list (PageRow AllEventRow)) PostgresError) :=
  match as_rows st with
  | [] => sql (SPageAll (as_ceiling st) (after_position <$> as_after st) limits)
  | _ => ret (Ok (as_rows st))
  end.

Definition all_resume (st : AllScan) (position : PgAllPos) (rows : list (PageRow AllEventRow)) : AllScan :=
  MkAllScan (Some position) rows (as_ceiling st).

Definition all_next (limits : Limits) (history : History) (st : AllScan)
  : prog (outcome (option ((PgAllPos * StreamKey * PersistedEnvelope) * AllScan)) PostgresError) :=
  let* fetched := all_fetch limits st in
  ret (let! rows := Returns fetched in pop (all_convert history) (all_resume st) rows).

Definition read_all_events (limits : Limits) (history : History) (n : nat) (from : option PgAllPos)
  : prog (result (list (PgAllPos * StreamKey * PersistedEnvelope) * Finish AllScan) PostgresError) :=
  let*? st := read_all history from in
  prog_map Ok (collect (all_next limits history) n st).

(** ** [list_streams] (listing.rs) *)

Record KeyScan : Type := MkKeyScan {
  ks_after : option Z;
  ks_rows : list (PageRow Key);
  ks_snapshot : Snapshot;
}.

Definition list_streams : prog (result KeyScan PostgresError) :=
  let*? captured := sql SSnapshot in
  ret (Ok (MkKeyScan None [] captured)).

Definition listing_page (after : option Z) (snapshot : Snapshot) (limits : Limits) : prog (result (list (PageRow Key)) PostgresError) :=
  sql (SPageKeys after snapshot limits).

Definition key_convert (key : Key) : outcome (StreamKey * Z) PostgresError :=
  Returns (Ok (StreamKey.from_bytes (key_row_value key), key_row_number key)).

Definition key_fetch (limits : Limits) (st : KeyScan) : prog (result (list (PageRow Key)) PostgresError) :=
  match ks_rows st with
  | [] => listing_page (ks_after st) (ks_snapshot st) limits
  | _ => ret (Ok (ks_rows st))
  end.

Definition key_resume (st : KeyScan) (number : Z) (rows : list (PageRow Key)) : KeyScan := MkKeyScan (Some number) rows (ks_snapshot st).

Definition key_next (limits : Limits) (st : KeyScan) : prog (outcome (option (StreamKey * KeyScan)) PostgresError) :=
  let* fetched := key_fetch limits st in
  ret (let! rows := Returns fetched in pop key_convert (key_resume st) rows).

Definition list_stream_keys (limits : Limits) (n : nat) : prog (result (list StreamKey * Finish KeyScan) PostgresError) :=
  let*? st := list_streams in
  prog_map Ok (collect (key_next limits) n st).

(** ** What a stream scan delivers *)

(** The events of a stream from a version on, as a view has them. *)
Definition stream_of_key (v : View) (key : bytes) : list Event := from_option (stream_at v) [] (key_number (v_keys v) key).
Definition stream_from (v : View) (key : bytes) (from : Z) : list Event := filter (fun e => from <= e_version e) (stream_of_key v key).

(** The bytes a page accounts for an event. *)
Definition stored_bytes (key : bytes) (e : Event) : Z :=
  32 + len key + len (row_event_type (e_row e)) + len (row_payload (e_row e)) + from_option len 0 (row_metadata (e_row e)).

Lemma stored_bytes_pos key e : 0 < stored_bytes key e.
Proof.
  unfold stored_bytes. pose proof (len_nonneg key). pose proof (len_nonneg (row_event_type (e_row e))). pose proof (len_nonneg (row_payload (e_row e))).
  destruct (row_metadata (e_row e)) as [m|]; cbn; [pose proof (len_nonneg m)|]; lia.
Qed.

Lemma key_value_in keys n key : NoDup keys.*1 -> (n, key) ∈ keys -> key_value keys n = Some key.
Proof.
  unfold key_value. induction keys as [|[m w] keys IH]; [by intros _ ?%elem_of_nil|]. cbn [fmap list_fmap fst]. intros [Hn Hnd]%NoDup_cons [Heq|Hin]%elem_of_cons.
  - injection Heq as -> ->. by rewrite filter_cons_True.
  - rewrite filter_cons_False; [by apply IH|]. cbn. intros ->. destruct Hn. apply list_elem_of_fmap. by exists (n, key).
Qed.

Lemma row_to_envelope_version row label event : row_to_envelope row label = Returns (Ok event) -> as_u64 (ps_version event) = row_version row.
Proof.
  unfold row_to_envelope. intros (ver & Hv & H)%outcome_bind_Ok. repeat (apply outcome_bind_Ok in H as (? & _ & H)).
  assert (ps_version event = ver) as ->.
  { unfold PersistedEnvelope.try_new in H. destruct (MAX_EVENT_TYPE_LEN <? _); cbn in H; unfold result_bind, map_err in H; repeat (case_match; try done); by simplify_eq/=. }
  unfold parse_version in Hv. destruct (try_from u64_max (row_version row)) as [z|] eqn:Hz; cbn in Hv; [|done].
  apply try_from_Some in Hz as [-> _]. destruct (new (row_version row)) eqn:Hn; cbn in Hv; [|done]. injection Hv as <-. by apply new_Some in Hn.
Qed.

Lemma numbered_sorted l : numbered l -> StronglySorted version_lt l.
Proof.
  intros Hn. assert (forall k m, l = k ++ m -> StronglySorted version_lt m) as H; [|by apply (H [])].
  intros k m. revert k. induction m as [|e m IH]; intros k Heq; [constructor|]. constructor; [apply (IH (k ++ [e])); by rewrite <- app_assoc|].
  apply Forall_forall. intros d Hd. apply list_elem_of_lookup in Hd as [i Hi]. unfold version_lt. rewrite Heq in Hn.
  rewrite (numbered_after k (e :: m) 0 e Hn eq_refl), (numbered_after k (e :: m) (S i) d Hn Hi). lia.
Qed.

Lemma filter_sorted {R} (lt : R -> R -> Prop) (Q : R -> Prop) `{!forall x, Decision (Q x)} l : StronglySorted lt l -> StronglySorted lt (filter Q l).
Proof.
  induction 1 as [|x l Hl IH Hx]; [constructor|]. rewrite filter_cons. case_decide; [|done]. constructor; [done|].
  rewrite Forall_forall in *. intros y [_ Hy]%list_elem_of_filter. by apply Hx.
Qed.

(** The first [len L] events of the stream are [L]. *)
Definition stream_kept (key : bytes) (n : Z) (L : list Event) (v : View) : Prop :=
  (n, key) ∈ v_keys v /\ exists more, stream_at v n = L ++ more.

Lemma stream_kept_stable key n L : stable (stream_kept key n L).
Proof.
  intros v s v' _ [Hk [more Hm]] Hc. destruct (change_grows _ _ _ Hc) as (ks & es & Hks & Hes). split; [rewrite Hks; set_solver|].
  exists (more ++ of_stream n es). unfold stream_at in *. by rewrite Hes, of_stream_app, Hm, app_assoc.
Qed.

(** What is selected at any later view is what was selected at first. *)
Lemma stream_page key n L from after k v cands :
  view_inv v -> stream_kept key n L v ->
  (match k with O => after = None | S j => exists c, filter (fun e => from <= e_version e) L !! j = Some c /\ after = Some (e_version c) end) ->
  ordered version_lt (v_events v) (stream_selected n from (len L) after) cands ->
  cands = drop k (filter (fun e => from <= e_version e) L).
Proof.
  intros Hi [Hkey [more Hm]] Hafter [Hs Hin]. pose proof (vi_numbered v Hi n) as Hnum. rewrite Hm in Hnum.
  pose proof (numbered_sorted _ (numbered_app _ _ Hnum)) as HsL. set (E := filter (fun e => from <= e_version e) L).
  assert (StronglySorted version_lt E) as HsE by (by apply filter_sorted).
  apply (ordered_unique version_lt); [apply version_lt_irrefl|apply _|done|by apply sorted_drop|]. intros e. rewrite Hin. unfold stream_selected.
  assert (e ∈ E <-> e ∈ v_events v /\ e_stream e = n /\ from <= e_version e <= len L) as HE.
  { unfold E. rewrite list_elem_of_filter. split.
    - intros [Hf HeL]. assert (e ∈ stream_at v n) as [Hst Hev]%elem_of_stream by (rewrite Hm; set_solver). split_and!; try done.
      apply list_elem_of_lookup in HeL as [i Hi']. rewrite (numbered_lookup _ _ _ (numbered_app _ _ Hnum) Hi'). apply lookup_lt_Some in Hi'. unfold len. lia.
    - intros (Hev & Hst & Hf & Hu). split; [done|]. assert (e ∈ stream_at v n) as He by (by apply elem_of_stream). rewrite Hm in He.
      apply elem_of_app in He as [?|He]; [done|exfalso]. apply list_elem_of_lookup in He as [i Hi']. rewrite (numbered_after _ _ _ _ Hnum Hi') in Hu. lia. }
  destruct k as [|j].
  - subst after. rewrite drop_0, HE. cbn. naive_solver.
  - destruct Hafter as (c & Hc & ->). fold E in Hc. rewrite (drop_selected version_lt E j c) by (done || apply version_lt_irrefl || apply _).
    rewrite HE. unfold version_lt. cbn. naive_solver.
Qed.

(** The cursor after [k] events. *)
Definition stream_cursor (s : nat) (limits : Limits) (key : bytes) (from : Z) (E : list Event) (k : nat) (cursor : option StreamScan) (v : View) : Prop :=
  idle s v /\
  match cursor with
  | None => E = []
  | Some st => exists L, E = filter (fun e => from <= e_version e) L /\ stream_kept key (ss_key st) L v /\ ss_floor st = from /\ ss_ceiling st = len L /\
      match k with O => ss_after st = None | S j => exists c, E !! j = Some c /\ ss_after st = Some (e_version c) end /\
      buffered limits (stored_bytes key) e_row E k (ss_rows st)
  end.

Lemma stream_item limits key label c a p : item_of limits (stored_bytes key) e_row (stream_convert label) c = Returns (Ok (a, p)) -> p = e_version c.
Proof.
  unfold item_of, transferred, page_row. cbn [fst snd]. destruct (_ <? _); cbn [into_value outcome_bind]; [done|].
  unfold stream_convert. intros (ev & Hev%row_to_envelope_version & [= _ <-])%outcome_bind_Ok. done.
Qed.

Lemma wp_stream_next s limits key label from E k cursor v log :
  stream_cursor s limits key from E k cursor v ->
  wp s (stream_next limits label cursor) (fun r v' _ =>
    match r with
    | Returns (Ok (Some (a, st'))) => exists c p, E !! k = Some c /\ item_of limits (stored_bytes key) e_row (stream_convert label) c = Returns (Ok (a, p)) /\
        stream_cursor s limits key from E (S k) st' v'
    | Returns (Ok None) => (length E <= k)%nat
    | Returns (Err e) => (exists err, e = PostgresError.Sqlx err) \/ exists c, E !! k = Some c /\ item_of limits (stored_bytes key) e_row (stream_convert label) c = Returns (Err e)
    | Panics => exists c, E !! k = Some c /\ item_of limits (stored_bytes key) e_row (stream_convert label) c = Panics
    end /\ exists st', stream_cursor s limits key from E k st' v') v log.
Proof.
  intros [Hid Hcur]. destruct cursor as [st|]; cbn [stream_next]; [|subst E; split; [cbn; lia|by exists None]].
  destruct Hcur as (L & HE & Hk & Hfl & Hce & Haf & Hb). unfold stream_fetch.
  eapply wp_mono; [apply (wp_step limits (stored_bytes key) e_row (stream_convert label) s (ss_rows st)
    (sql (SPageStream (ss_key st) (ss_floor st) (ss_ceiling st) (ss_after st) limits)) (stream_resume st) E k
    (fun v => idle s v /\ stream_kept key (ss_key st) L v)); [apply stored_bytes_pos|done|done|]|].
  - intros _. apply (wp_reading s (SPageStream (ss_key st) (ss_floor st) (ss_ceiling st) (ss_after st) limits) (stream_kept key (ss_key st) L)); [done|apply stream_kept_stable|done|done|].
    intros v1 r v2 Hid1 Hk1 Hsk Hse Hid2 Hk2 Hd. split; [done|]. destruct r as [rows|e]; cbn; [|by exists e].
    cbn in Hd. destruct Hd as (_ & (cands & Hord & ->) & _). rewrite Hse, Hfl, Hce in Hord. rewrite Hsk.
    assert (cands = drop k E) as ->; [rewrite HE in *; by eapply stream_page; [apply Hid1|..]|].
    f_equal. apply list_fmap_ext. intros i e He. f_equal. unfold row_bytes, stored_bytes.
    assert (e ∈ drop k E) as Hin by by eapply list_elem_of_lookup_2. apply Hord in Hin as (_ & Hst & _). rewrite Hst.
    rewrite (key_value_in (v_keys v1) (ss_key st) key); [done|apply (vi_numbers v1 (proj1 Hid1))|apply Hk1].
  - intros r v' log' [[Hid' Hk'] Hr].
    split; [|exists (Some st); split; [done|]; exists L; by split_and!].
    destruct Hr as [Hr|[err ->]]; [|left; by exists err]. destruct r as [[[[a st']|]|e]|]; cbn in Hr; [|done|by right|done].
    destruct Hr as (c & p & rows & Hc & Hit & -> & Hb'). exists c, p. split_and!; [done|done|]. split; [done|]. exists L.
    cbn. split_and!; try done. exists c. split; [done|]. f_equal. by eapply stream_item.
Qed.

(** The outcome of a consumer of [read_stream]: the stream as it was when its head was
    read, from the version asked for. *)
Definition read_stream_post (limits : Limits) (n : nat) (id : StreamKey) (from : Version)
  (r : result (list PersistedEnvelope * Finish (option StreamScan)) PostgresError) (log : Log) : Prop :=
  match r with
  | Ok (items, fin) => exists y, y ∈ log /\ view_inv y.1 /\
      scanned limits (stored_bytes (StreamKey.as_bytes id)) e_row (stream_convert (error_id id))
        (stream_from y.1 (StreamKey.as_bytes id) (as_u64 from)) n items fin
  | Err e => exists err, e = PostgresError.Sqlx err
  end.

Lemma wp_read_stream_events s limits n id from v :
  idle s v ->
  wp s (read_stream_events limits n id from) (fun r v' log => idle s v' /\ read_stream_post limits n id from r log) v [].
Proof.
  intros Hid. set (key := StreamKey.as_bytes id). unfold read_stream_events, read_stream. apply wp_try, wp_try.
  apply (wp_reading s SAcquire (fun _ => True)); [done|done|done|done|]. intros v1 r v2 _ _ _ _ Hid2 _ _.
  destruct r as [u|e]; cbn [sql_err map_err]; [|split; [done|by exists e]]. apply wp_try.
  apply (wp_reading s (SReadHead key) (fun _ => True)); [done|done|done|done|]. intros v3 r v4 Hid3 _ Hsk Hse Hid4 _ Hd.
  destruct r as [head|e]; cbn [sql_err map_err]; [|split; [done|by exists e]]. cbn in Hd. destruct Hd as (_ & -> & ->). apply wp_ret.
  rewrite Hsk, Hse. set (E := stream_from v3 key (as_u64 from)). set (log := ([] ++ [(v1, v2)]) ++ [(v3, v3)]). apply wp_bind.
  eapply wp_mono; [apply wp_log; eapply (wp_collect limits (stored_bytes key) e_row (stream_convert (error_id id)) s _ (stream_cursor s limits key (as_u64 from) E) E n 0)|].
  - intros. by apply wp_stream_next.
  - split; [done|]. unfold E, stream_from, stream_of_key. destruct (key_number (v_keys v3) key) as [m|] eqn:Hkn; cbn; [|done].
    rewrite max_version_head by apply Hid3. destruct (Z.eqb_spec (len (stream_at v3 m)) 0) as [Hz|Hnz].
    + assert (stream_at v3 m = []) as -> by (destruct (stream_at v3 m); [done|rewrite len_cons in Hz; pose proof (len_nonneg l); lia]). done.
    + exists (stream_at v3 m). cbn. split_and!; try done.
      * split; [by apply key_number_Some|]. exists []. by rewrite app_nil_r.
      * by eexists [], _.
  - lia.
  - intros [items fin] v' log' [[Hs (k' & st' & HI)] [ext ->]]. apply wp_ret. split; [apply HI|]. exists (v3, v3).
    split_and!; [set_solver|apply Hid3|exact Hs].
Qed.

(** ** What a scan of all events delivers *)

(** The committed events of the transactions below [x] that come after [from], by
    position. *)
Definition all_after (from : option PgAllPos) (e : Event) : Prop :=
  match from with Some p => pos_lt (pg_txid p, pg_seq p) (e_pos e) | None => True end.
#[global] Instance all_after_dec from e : Decision (all_after from e).
Proof. unfold all_after. destruct from; apply _. Defined.

Definition all_from (v : View) (x : Z) (from : option PgAllPos) : list Event :=
  sort_by e_pos pos_lt (filter (fun e => e_txid e < x /\ all_after from e) (v_events v)).

Lemma positions_unique v : view_inv v -> NoDup (e_pos <$> v_events v).
Proof.
  intros Hi. assert (NoDup (snd <$> (e_pos <$> v_events v))) as H by (rewrite <- list_fmap_compose; apply (vi_seqs v Hi)).
  by apply NoDup_fmap_1 in H.
Qed.

Lemma filter_unique {R X} (f : R -> X) (Q : R -> Prop) `{!forall x, Decision (Q x)} l : NoDup (f <$> l) -> NoDup (f <$> filter Q l).
Proof.
  induction l as [|x l IH]; [done|]. rewrite fmap_cons, NoDup_cons, filter_cons. intros [Hn Hnd]. case_decide; [|by apply IH].
  rewrite fmap_cons. constructor; [|by apply IH].
  intros (y & Hy & [_ Hin]%list_elem_of_filter)%list_elem_of_fmap. destruct Hn. rewrite Hy. by apply list_elem_of_fmap_2.
Qed.

Lemma all_from_ordered v x from : view_inv v -> ordered event_lt (v_events v) (fun e => e_txid e < x /\ all_after from e) (all_from v x from).
Proof.
  intros Hi. split.
  - apply (sort_by_sorted e_pos pos_lt pos_lt_total). by apply filter_unique, positions_unique.
  - intros e. unfold all_from. rewrite elem_of_sort_by, list_elem_of_filter. tauto.
Qed.

(** No event ever appears below the watermark. *)
Lemma all_from_settled v0 v x from :
  view_inv v0 -> view_inv v -> settled (fun t => t < x) v0 v -> all_from v x from = all_from v0 x from.
Proof.
  intros Hi0 Hi Hs. destruct (all_from_ordered v x from Hi) as [H1 H2], (all_from_ordered v0 x from Hi0) as [H3 H4].
  apply (ordered_unique event_lt); [apply event_lt_irrefl|apply _|done|done|]. intros e. rewrite H2, H4. split; intros [Hin [Hx Ha]]; (split; [|done]).
  - by eapply st_events.
  - destruct (st_grown _ _ _ Hs) as (ks & es & _ & ->). set_solver.
Qed.

(** The condition of a page is the position, for the sequence values of the column. *)
Lemma after_position_spec p e : 0 <= pg_seq p -> e_seq e <= i64_max -> beyond (after_position p) e <-> pos_lt (pg_txid p, pg_seq p) (e_pos e).
Proof.
  intros Hp He. unfold after_position. destruct (try_from i64_max (pg_seq p)) as [q|] eqn:Hq; cbn.
  - by apply try_from_Some in Hq as [-> _].
  - apply try_from_None in Hq. unfold pos_lt. cbn. lia.
Qed.

Lemma all_page v0 v x from after k cands :
  view_inv v0 -> view_inv v -> settled (fun t => t < x) v0 v -> from_option (fun p => 0 <= pg_seq p) True from ->
  (match k with
   | O => after = after_position <$> from
   | S j => exists c h, all_from v0 x from !! j = Some c /\ after = Some (after_position (MkPgPos h (e_txid c) (e_seq c))) /\ 0 <= e_seq c
   end) ->
  ordered event_lt (v_events v) (all_selected x after) cands -> cands = drop k (all_from v0 x from).
Proof.
  intros Hi0 Hi Hs Hfrom Hafter [Hsc Hin]. rewrite <- (all_from_settled v0 v) in * by done.
  destruct (all_from_ordered v x from Hi) as [HsE HinE].
  apply (ordered_unique event_lt); [apply event_lt_irrefl|apply _|done|by apply sorted_drop|]. intros e. rewrite Hin. unfold all_selected.
  assert (e ∈ v_events v -> e_seq e <= i64_max) as Hseq by (intros He; destruct (vi_events v Hi e He) as (? & _); lia).
  destruct k as [|j].
  - subst after. rewrite drop_0, HinE. destruct from as [p|]; cbn; [|tauto].
    split; intros (He & Hx & Hb); (split_and!; [done..|]); by apply (after_position_spec p e Hfrom (Hseq He)).
  - destruct Hafter as (c & h & Hc & -> & Hc0). rewrite (drop_selected event_lt _ j c) by (done || apply event_lt_irrefl || apply _).
    assert (c ∈ all_from v x from) as (_ & _ & Hca)%HinE by by eapply list_elem_of_lookup_2.
    rewrite HinE. cbn. split.
    + intros (He & Hx & Hb). apply after_position_spec in Hb; [|done|by apply Hseq]. split_and!; [done..| |done].
      destruct from as [p|]; cbn in *; [by etrans|done].
    + intros ((He & Hx & _) & Hlt). split_and!; [done..|]. by apply after_position_spec; [..|apply Hseq|].
Qed.

(** The cursor after [k] events: below the watermark [x] the tables are those of [v0]. *)
Definition all_cursor (s : nat) (limits : Limits) (history : History) (v0 : View) (x : Z) (from : option PgAllPos) (k : nat) (st : AllScan) (v : View) : Prop :=
  (idle s v /\ settled (fun t => t < x) v0 v) /\ as_ceiling st = x /\
  match k with
  | O => as_after st = from
  | S j => exists c, all_from v0 x from !! j = Some c /\ as_after st = Some (MkPgPos history (e_txid c) (e_seq c))
  end /\
  buffered limits (row_bytes (v_keys v0)) (all_row (v_keys v0)) (all_from v0 x from) k (as_rows st).

Lemma row_bytes_pos keys e : 0 < row_bytes keys e.
Proof.
  unfold row_bytes. pose proof (len_nonneg (row_event_type (e_row e))). pose proof (len_nonneg (row_payload (e_row e))).
  destruct (key_value keys (e_stream e)) as [k|]; [pose proof (len_nonneg k)|]; (destruct (row_metadata (e_row e)) as [m|]; [pose proof (len_nonneg m)|]); cbn; lia.
Qed.

Lemma key_value_app keys ks n : n ∈ keys.*1 -> key_value (keys ++ ks) n = key_value keys n.
Proof.
  intros (k & -> & Hin)%list_elem_of_fmap. unfold key_value. rewrite filter_app. destruct (filter _ keys) as [|d l] eqn:Hf; [|done].
  assert (k ∈ filter (fun e => e.1 = k.1) keys) as H by (by apply list_elem_of_filter). rewrite Hf in H. by apply elem_of_nil in H.
Qed.

Lemma all_item limits history keys c a p :
  item_of limits (row_bytes keys) (all_row keys) (all_convert history) c = Returns (Ok (a, p)) -> p = MkPgPos history (e_txid c) (e_seq c).
Proof.
  unfold item_of, transferred, page_row. cbn [fst snd]. destruct (_ <? _); cbn [into_value outcome_bind]; [done|].
  unfold all_convert. cbn [all_row all_stream_id all_txid all_global_seq all_event].
  destruct (try_from u64_max (e_txid c)) as [t|] eqn:Ht; cbn [ok_or outcome_bind]; [|done]. apply try_from_Some in Ht as [-> _].
  destruct (try_from u64_max (e_seq c)) as [q|] eqn:Hq; cbn [ok_or outcome_bind]; [|done]. apply try_from_Some in Hq as [-> _].
  destruct (e_seq c =? 0); cbn [outcome_bind]; [done|]. by intros (ev & _ & [= _ <-])%outcome_bind_Ok.
Qed.

Lemma wp_all_next s limits history v0 x from k st v log :
  view_inv v0 -> from_option (fun p => 0 <= pg_seq p) True from -> all_cursor s limits history v0 x from k st v ->
  let E := all_from v0 x from in let item := item_of limits (row_bytes (v_keys v0)) (all_row (v_keys v0)) (all_convert history) in
  wp s (all_next limits history st) (fun r v' _ =>
    match r with
    | Returns (Ok (Some (a, st'))) => exists c p, E !! k = Some c /\ item c = Returns (Ok (a, p)) /\ all_cursor s limits history v0 x from (S k) st' v'
    | Returns (Ok None) => (length E <= k)%nat
    | Returns (Err e) => (exists err, e = PostgresError.Sqlx err) \/ exists c, E !! k = Some c /\ item c = Returns (Err e)
    | Panics => exists c, E !! k = Some c /\ item c = Panics
    end /\ exists st', all_cursor s limits history v0 x from k st' v') v log.
Proof.
  intros Hi0 Hfrom (HJ & Hce & Haf & Hb) E item. unfold all_next, all_fetch.
  eapply wp_mono; [apply (wp_step limits (row_bytes (v_keys v0)) (all_row (v_keys v0)) (all_convert history) s (as_rows st)
    (sql (SPageAll (as_ceiling st) (after_position <$> as_after st) limits)) (all_resume st) E k
    (fun v => idle s v /\ settled (fun t => t < x) v0 v)); [apply row_bytes_pos|done|done|]|].
  - intros _. apply (wp_reading s (SPageAll (as_ceiling st) (after_position <$> as_after st) limits) (settled (fun t => t < x) v0));
      [done|apply settled_stable|apply HJ|apply HJ|].
    intros v1 r v2 Hid1 Hs1 Hsk Hse Hid2 Hs2 Hd. split; [done|]. destruct r as [rows|e]; cbn; [|by exists e].
    cbn in Hd. destruct Hd as (_ & (cands & Hord & ->) & _). rewrite Hse, Hce in Hord. rewrite Hsk.
    assert (cands = drop k E) as ->.
    { eapply (all_page v0 v1); [done|apply Hid1|done|done| |exact Hord]. destruct k as [|j]; [by rewrite Haf|].
      destruct Haf as (c & Hc & ->). exists c, history. split_and!; [done|done|].
      assert (c ∈ all_from v0 x from) as (Hcv & _)%(all_from_ordered v0 x from Hi0) by by eapply list_elem_of_lookup_2.
      destruct (vi_events v0 Hi0 c Hcv) as (? & _). lia. }
    f_equal. apply list_fmap_ext. intros i e He.
    assert (e ∈ all_from v0 x from) as (Hev & _)%(all_from_ordered v0 x from Hi0).
    { apply list_elem_of_lookup_2 in He. rewrite <- (take_drop k (all_from v0 x from)). fold E. set_solver. }
    destruct (vi_events v0 Hi0 e Hev) as (_ & _ & _ & Hk). destruct (st_grown _ _ _ Hs1) as (ks & es & -> & _).
    unfold row_bytes, all_row. by rewrite (key_value_app (v_keys v0) ks _ Hk).
  - intros r v' log' [HJ' Hr]. split; [|by exists st].
    destruct Hr as [Hr|[err ->]]; [|left; by exists err]. destruct r as [[[[a st']|]|e]|]; cbn in Hr; [|done|by right|done].
    destruct Hr as (c & p & rows & Hc & Hit & -> & Hb'). exists c, p. split_and!; [done|done|]. split_and!; try done; [apply HJ'|apply HJ'|].
    exists c. split; [done|]. cbn. f_equal. by eapply all_item.
Qed.

(** The outcome of a consumer of [read_all]: the events below a watermark in the order
    of their positions, to which no later commit adds. *)
Definition read_all_post (limits : Limits) (history : History) (n : nat) (from : option PgAllPos)
  (r : result (list (PgAllPos * StreamKey * PersistedEnvelope) * Finish AllScan) PostgresError) (v' : View) (log : Log) : Prop :=
  match r with
  | Ok (items, fin) => from_option (fun p => pg_history p = history) True from /\
      exists y x, y ∈ log /\ view_inv y.1 /\ xmin y.1 x /\ settled (fun t => t < x) y.1 v' /\
      scanned limits (row_bytes (v_keys y.1)) (all_row (v_keys y.1)) (all_convert history) (all_from y.1 x from) n items fin
  | Err e => (exists err, e = PostgresError.Sqlx err) \/
      exists p, from = Some p /\ pg_history p <> history /\ e = PostgresError.HistoryMismatch history (pg_history p)
  end.

Lemma wp_read_all_events s limits history n from v :
  idle s v -> from_option (fun p => 0 <= pg_seq p) True from ->
  wp s (read_all_events limits history n from) (fun r v' log => idle s v' /\ read_all_post limits history n from r v' log) v [].
Proof.
  intros Hid Hfrom. unfold read_all_events, read_all. apply wp_try, wp_try, wp_ret.
  destruct (match from with Some position => history_check history (pg_history position) | None => Ok () end) as [[]|e] eqn:Hh.
  2: { split; [done|]. right. destruct from as [p|]; [|done]. exists p. unfold history_check in Hh. case_bool_decide; [done|]. by injection Hh as <-. }
  assert (from_option (fun p => pg_history p = history) True from) as Hhist.
  { destruct from as [p|]; cbn; [|done]. unfold history_check in Hh. by case_bool_decide. }
  apply wp_try. apply (wp_reading s SXmin (fun _ => True)); [done|done|done|done|]. intros v1 r v2 Hid1 _ _ _ Hid2 _ Hd.
  destruct r as [x|e]; cbn [sql_err map_err]; [|split; [done|left; by exists e]]. cbn in Hd. destruct Hd as (_ & Hx & ->). apply wp_ret, wp_bind.
  eapply wp_mono; [apply wp_log; eapply (wp_collect limits _ _ _ s _ (all_cursor s limits history v1 x from) (all_from v1 x from) n 0)|].
  - intros. by apply wp_all_next; [apply Hid1|..].
  - split_and!; try done.
    + apply settled_xmin; [apply Hid1|done].
    + by eexists [], _.
  - lia.
  - intros [items fin] v' log' [[Hs (k' & st' & (HJ & _))] [ext ->]]. apply wp_ret. split; [apply HJ|]. split; [done|].
    exists (v1, v1), x. split_and!; [set_solver|apply Hid1|done|apply HJ|exact Hs].
Qed.

(** ** What a listing delivers *)

(** The keys that have an event, by number. *)
Definition listed (v : View) : list (Z * bytes) := sort_by fst Z.lt (filter (fun k => stream_at v k.1 <> []) (v_keys v)).

Lemma listed_ordered v : view_inv v -> ordered number_lt (v_keys v) (fun k => stream_at v k.1 <> []) (listed v).
Proof.
  intros Hi. split.
  - apply (sort_by_sorted fst Z.lt); [intros x y; lia|]. apply filter_unique, (vi_numbers v Hi).
  - intros k. unfold listed. rewrite elem_of_sort_by, list_elem_of_filter. tauto.
Qed.

Definition key_bytes (k : Z * bytes) : Z := 32 + len k.2.
Definition key_row (k : Z * bytes) : Key := MkKey k.1 k.2.

Lemma key_page v0 v sn after k cands :
  view_inv v0 -> view_inv v -> current_snapshot v0 sn -> settled (fun t => visible_in_snapshot t sn = true) v0 v ->
  (match k with O => after = None | S j => exists c, listed v0 !! j = Some c /\ after = Some c.1 end) ->
  ordered number_lt (v_keys v) (keys_selected (v_events v) after sn) cands -> cands = drop k (listed v0).
Proof.
  intros Hi0 Hi Hsn Hs Hafter [Hsc Hin]. destruct (listed_ordered v0 Hi0) as [HsE HinE].
  apply (ordered_unique number_lt); [apply number_lt_irrefl|apply _|done|by apply sorted_drop|]. intros c. rewrite Hin. unfold keys_selected.
  destruct (st_grown _ _ _ Hs) as (ks & es & Hks & Hes).
  assert ((c ∈ v_keys v /\ exists e, e ∈ v_events v /\ e_stream e = c.1 /\ visible_in_snapshot (e_txid e) sn = true) <-> c ∈ listed v0) as Hsel.
  { rewrite HinE. split.
    - intros (Hc & e & He & Hst & Hv). apply (st_events _ _ _ Hs e) in He; [|done]. split.
      + destruct (vi_events v0 Hi0 e He) as (_ & _ & _ & (d & Hd & Hin0)%list_elem_of_fmap). rewrite Hst in Hd.
        assert (d = c) as <-; [|done]. assert (d ∈ v_keys v) as Hdv by (rewrite Hks; set_solver). destruct c as [m w], d as [m' w']; cbn in *; subst m'.
        f_equal. assert (key_value (v_keys v) m = Some w) as H1 by (apply key_value_in; [apply (vi_numbers v Hi)|done]).
        assert (key_value (v_keys v) m = Some w') as H2 by (apply key_value_in; [apply (vi_numbers v Hi)|done]). congruence.
      + intros Hnil. assert (e ∈ stream_at v0 c.1) as H by (by apply elem_of_stream). rewrite Hnil in H. by apply elem_of_nil in H.
    - intros [Hc Hne]. split; [rewrite Hks; set_solver|]. destruct (stream_at v0 c.1) as [|e l] eqn:He; [done|].
      assert (e ∈ stream_at v0 c.1) as [Hst Hev]%elem_of_stream by (rewrite He; left). exists e. split_and!; [rewrite Hes; set_solver|done|by apply Hsn]. }
  destruct k as [|j].
  - subst after. rewrite drop_0, <- Hsel. cbn. tauto.
  - destruct Hafter as (d & Hd & ->). rewrite (drop_selected number_lt _ j d) by (done || apply number_lt_irrefl || apply _).
    rewrite <- Hsel. cbn. unfold number_lt. tauto.
Qed.

Definition key_cursor (s : nat) (limits : Limits) (v0 : View) (sn : Snapshot) (k : nat) (st : KeyScan) (v : View) : Prop :=
  (idle s v /\ settled (fun t => visible_in_snapshot t sn = true) v0 v) /\ ks_snapshot st = sn /\
  match k with O => ks_after st = None | S j => exists c, listed v0 !! j = Some c /\ ks_after st = Some c.1 end /\
  buffered limits key_bytes key_row (listed v0) k (ks_rows st).

Lemma wp_key_next s limits v0 sn k st v log :
  view_inv v0 -> current_snapshot v0 sn -> key_cursor s limits v0 sn k st v ->
  wp s (key_next limits st) (fun r v' _ =>
    match r with
    | Returns (Ok (Some (a, st'))) => exists c p, listed v0 !! k = Some c /\ item_of limits key_bytes key_row key_convert c = Returns (Ok (a, p)) /\
        key_cursor s limits v0 sn (S k) st' v'
    | Returns (Ok None) => (length (listed v0) <= k)%nat
    | Returns (Err e) => (exists err, e = PostgresError.Sqlx err) \/ exists c, listed v0 !! k = Some c /\ item_of limits key_bytes key_row key_convert c = Returns (Err e)
    | Panics => exists c, listed v0 !! k = Some c /\ item_of limits key_bytes key_row key_convert c = Panics
    end /\ exists st', key_cursor s limits v0 sn k st' v') v log.
Proof.
  intros Hi0 Hsn (HJ & Hce & Haf & Hb). unfold key_next, key_fetch, listing_page.
  eapply wp_mono; [apply (wp_step limits key_bytes key_row key_convert s (ks_rows st)
    (sql (SPageKeys (ks_after st) (ks_snapshot st) limits)) (key_resume st) (listed v0) k
    (fun v => idle s v /\ settled (fun t => visible_in_snapshot t sn = true) v0 v)); [|done|done|]|].
  - intros c. unfold key_bytes. pose proof (len_nonneg c.2). lia.
  - intros _. apply (wp_reading s (SPageKeys (ks_after st) (ks_snapshot st) limits) (settled (fun t => visible_in_snapshot t sn = true) v0));
      [done|apply settled_stable|apply HJ|apply HJ|].
    intros v1 r v2 Hid1 Hs1 Hsk Hse Hid2 Hs2 Hd. split; [done|]. destruct r as [rows|e]; cbn; [|by exists e].
    cbn in Hd. destruct Hd as (_ & (cands & Hord & ->) & _). rewrite Hsk, Hse, Hce in Hord. f_equal. f_equal.
    eapply (key_page v0 v1); [done|apply Hid1|done|done|exact Haf|exact Hord].
  - intros r v' log' [HJ' Hr]. split; [|by exists st].
    destruct Hr as [Hr|[err ->]]; [|left; by exists err]. destruct r as [[[[a st']|]|e]|]; cbn in Hr; [|done|by right|done].
    destruct Hr as (c & p & rows & Hc & Hit & -> & Hb'). exists c, p. split_and!; [done|done|]. split_and!; try done; [apply HJ'|apply HJ'|].
    exists c. split; [done|]. cbn. f_equal. revert Hit. unfold item_of, transferred, page_row. cbn [fst snd]. destruct (_ <? _); cbn; [done|]. by intros [= _ <-].
Qed.

Definition list_streams_post (limits : Limits) (n : nat) (r : result (list StreamKey * Finish KeyScan) PostgresError) (log : Log) : Prop :=
  match r with
  | Ok (items, fin) => exists y, y ∈ log /\ view_inv y.1 /\ scanned limits key_bytes key_row key_convert (listed y.1) n items fin
  | Err e => exists err, e = PostgresError.Sqlx err
  end.

Lemma wp_list_stream_keys s limits n v :
  idle s v -> wp s (list_stream_keys limits n) (fun r v' log => idle s v' /\ list_streams_post limits n r log) v [].
Proof.
  intros Hid. unfold list_stream_keys, list_streams. apply wp_try, wp_try. apply (wp_reading s SSnapshot (fun _ => True)); [done|done|done|done|].
  intros v1 r v2 Hid1 _ _ _ Hid2 _ Hd. destruct r as [sn|e]; cbn [sql_err map_err]; [|split; [done|by exists e]].
  cbn in Hd. destruct Hd as (_ & Hsn & ->). apply wp_ret, wp_bind.
  eapply wp_mono; [apply wp_log; eapply (wp_collect limits _ _ _ s _ (key_cursor s limits v1 sn) (listed v1) n 0)|].
  - intros. by apply wp_key_next; [apply Hid1|..].
  - split_and!; try done; [by apply settled_snapshot|by eexists [], _].
  - lia.
  - intros [items fin] v' log' [[Hs (k' & st' & (HJ & _))] [ext ->]]. apply wp_ret. split; [apply HJ|].
    exists (v1, v1). split_and!; [set_solver|apply Hid1|exact Hs].
Qed.

End reads.
