(* ===== verification/PgView.v ===== *)
(** * Read-only views and opening the PostgreSQL store
      (adapters/postgres/src/schema.rs, history.rs, builder.rs)

    A REPEATABLE READ, READ ONLY transaction answers every query from the state the
    database had at its first one, whatever is committed meanwhile; so a program that
    runs in such a transaction runs against one fixed [View] and one fixed catalog.
    Opening a store validates the installed schema in such a view and changes
    nothing.  The embedded migrations are generated by the build: a parameter. *)

From Stdlib Require Import String Sorted.
From S2P Require Import Prelude Utf8 ErrorId Version Value Wire Envelope RawStore InMemory Pg PgDb PgInv PgStore.
Close Scope string_scope.
Open Scope list_scope.

(** ** Views *)

(** What the catalog queries of schema.rs, history.rs and durability.rs find: an unsafe
    setting, the migration table by version, the verdicts of the shape queries, and the
    history row. *)
Record Catalog : Type := MkCatalog {
  c_unsafe : option bytes;
  c_migrations : option (list (Z * bool * bytes));
  c_shape : bytes -> bool;
  c_snapshots : bool;
  c_checkpoints : bool;
  c_history_shape : bool;
  c_history : bytes;
}.

(** The first row [ORDER BY txid DESC]. *)
Definition newest_txid (events : list Event) : option Z :=
  foldr (fun e m => Some (from_option (Z.max (e_txid e)) (e_txid e) m)) None events.

(** The cluster gave out the transaction id and its transaction has ended. *)
Definition completed (f : View) (t : Z) : Prop :=
  t < v_next_xid f /\ forall s tx, v_open f !! s = Some tx -> tx_xid tx <> Some t.

(** [pg_snapshot_xmax]: one past the highest completed transaction id. *)
Definition snapshot_xmax (f : View) (x : Z) : Prop := x <= v_next_xid f /\ forall t, completed f t -> t < x.

(** The answer of a statement in a view; any statement can fail. *)
Definition frozen_answer (c : Catalog) (f : View) (a : Stmt) : Rows a -> Prop :=
  match a return Rows a -> Prop with
  | SAcquire | SBeginView | SRollback | SCheckInterval _ => fun _ => True
  | SSettings => fun r => r = c_unsafe c
  | SMigrated => fun r => r = bool_decide (is_Some (c_migrations c))
  | SMigrations checksum rows => fun r => exists ms, c_migrations c = Some ms /\
      r = take (Z.to_nat rows) ((fun m => (m.1.1, m.1.2, take (Z.to_nat checksum) m.2)) <$> ms)
  | SShape table => fun r => r = c_shape c table
  | SSnapshotsShape => fun r => r = c_snapshots c
  | SCheckpointsShape => fun r => r = c_checkpoints c
  | SHistoryShape => fun r => r = c_history_shape c
  | SHistory => fun r => r = c_history c
  | SFutureTxid => fun r => exists xmax, snapshot_xmax f xmax /\ r = from_option (fun t => xmax <=? t) false (newest_txid (v_events f))
  | SSnapshot => current_snapshot f
  | SReadKey value => fun r => r = key_number (v_keys f) value
  | SPageKeys after snapshot limits => fun r => exists cands,
      ordered number_lt (v_keys f) (keys_selected (v_events f) after snapshot) cands /\
      r = page limits ((fun k => (32 + len k.2, MkKey k.1 k.2)) <$> cands)
  | SPageStream number lower upper after limits => fun r => exists cands,
      ordered version_lt (v_events f) (stream_selected number lower upper after) cands /\
      r = page limits ((fun e => (row_bytes (v_keys f) e, e_row e)) <$> cands)
  | _ => fun _ => False
  end.

Definition frozen_resp (c : Catalog) (f : View) (a : Stmt) (r : Resp a) : Prop :=
  match r with Ok x => frozen_answer c f a x | Err _ => True end.

(** A program can run in a view and return [x]. *)
Fixpoint answered (c : Catalog) (f : View) {A} (p : prog A) (x : A) : Prop :=
  match p with
  | ret a => x = a
  | act a k => exists r, frozen_resp c f a r /\ answered c f (k r) x
  end.

Lemma answered_bind c f {A B} (p : prog A) (g : A -> prog B) x :
  answered c f (prog_bind p g) x <-> exists a, answered c f p a /\ answered c f (g a) x.
Proof.
  revert x. induction p as [a|a k IH]; intros x; cbn; [naive_solver|]. setoid_rewrite IH. naive_solver.
Qed.

Lemma answered_try c f {A B E} (p : prog (result A E)) (g : A -> prog (result B E)) x :
  answered c f (prog_try p g) x <-> (exists a, answered c f p (Ok a) /\ answered c f (g a) x) \/ (exists e, answered c f p (Err e) /\ x = Err e).
Proof.
  unfold prog_try. rewrite answered_bind. split.
  - intros ([a|e] & Hp & Hg); [left; by exists a|right; by exists e].
  - intros [(a & Hp & Hg)|(e & Hp & ->)]; [by exists (Ok a)|by exists (Err e)].
Qed.

Lemma answered_sql c f a r :
  answered c f (sql a) r <-> (exists x, frozen_answer c f a x /\ r = Ok x) \/ (exists e, r = Err (PostgresError.Sqlx e)).
Proof.
  unfold sql. cbn. split.
  - intros ([x|e] & Hr & ->); cbn; [left; by exists x|right; by exists e].
  - intros [(x & Hx & ->)|[e ->]]; [by exists (Ok x)|by exists (Err e)].
Qed.

(** A query and what follows its answer. *)
Lemma answered_query c f {B} a (g : Rows a -> prog (result B PostgresError)) r :
  answered c f (prog_try (sql a) g) r -> (exists x, frozen_answer c f a x /\ answered c f (g x) r) \/ (exists e, r = Err (PostgresError.Sqlx e)).
Proof.
  rewrite answered_try. setoid_rewrite answered_sql. intros [(x & [(y & Hy & [= ->])|[? [=]]] & Hg)|(e & [(? & _ & [=])|[e' [= ->]]] & ->)]; eauto.
Qed.

(** ** Opening (schema.rs, history.rs, builder.rs) *)

Section open.
Context {T : Target} {AS : ArrayString}.

(** The migrations built into the binary: versions and checksums. *)
Context (MIGRATIONS : list (Z * bytes)).

Definition incompatible (reason : bytes) : PostgresError := PostgresError.Schema (Text reason).

Definition validate_shape (table : bytes) : prog (result () PostgresError) :=
  let*? valid := sql (SShape table) in
  ret (if negb valid then Err (incompatible (str "events columns, defaults, constraints or watermark index differ from the required schema")) else Ok ()).

(** history.rs, [load]. *)
Definition history_load : prog (result History PostgresError) :=
  let*? valid := sql SHistoryShape in
  if negb valid then ret (Err PostgresError.DatabaseHistory)
  else
    let*? value := sql SHistory in
    let*? future := sql SFutureTxid in
    ret (if future : bool then Err PostgresError.FutureTransaction else Ok (MkHistory value)).

Definition longest (l : list (Z * bytes)) : option Z :=
  foldr (fun m o => Some (from_option (Z.max (len m.2)) (len m.2) o)) None l.

Definition same_migration (actual : Z * bool * bytes) (known : Z * bytes) : bool :=
  (actual.1.1 =? known.1) && actual.1.2 && bool_decide (actual.2 = known.2).

Definition validate_current : prog (result History PostgresError) :=
  let*? ready := sql SMigrated in
  if negb ready then ret (Err (incompatible (str "schema is not migrated; run PostgresStore::migrate with the migration role")))
  else
    let*? checksum := ret (ok_or (n ← longest MIGRATIONS; checked_add usize_max n 1)
                             (incompatible (str "embedded migration checksums have no finite bound"))) in
    let*? rows := ret (ok_or (checked_add usize_max (len MIGRATIONS) 1)
                         (incompatible (str "embedded migration count has no finite bound"))) in
    let*? applied := sql (SMigrations checksum rows) in
    if negb (len applied =? len MIGRATIONS) || negb (forallb (fun p => same_migration p.1 p.2) (zip applied MIGRATIONS)) then
      ret (Err (incompatible (str "migration version, checksum or completion differs; use a compatible binary or repair the upgrade")))
    else
      let*? _ := validate_shape (str "mnesis.events") in
      let*? snapshots := sql SSnapshotsShape in
      if negb snapshots then ret (Err (incompatible (str "snapshot columns, bounds, logging, primary key or identity reference differ")))
      else
        let*? checkpoints := sql SCheckpointsShape in
        if negb checkpoints then ret (Err (incompatible (str "checkpoint columns, bounds, logging, primary key or identity reference differ")))
        else history_load.

(** [validate] and [validate_pool]. *)
Definition schema_validate : prog (result History PostgresError) :=
  let*? _ := durability_validate in
  let*? _ := sql SBeginView in
  let*? history := validate_current in
  let*? _ := sql SRollback in
  ret (Ok history).

Definition validate_pool : prog (result History PostgresError) :=
  let*? _ := sql SAcquire in
  schema_validate.

(** [Inner] without its handles. *)
Record Opened : Type := MkOpened { o_limits : Limits; o_history : History }.

Definition from_pool_with_limits (capacity : Z) (limits : Limits) : prog (result Opened PostgresError) :=
  if capacity <? 2 then ret (Err (PostgresError.PoolCapacity capacity))
  else
    let*? history := validate_pool in
    ret (Ok (MkOpened limits history)).

Definition from_pool (capacity : Z) : prog (result Opened PostgresError) := from_pool_with_limits capacity limits_default.

(** ** What an open store has found *)

(** The table of this binary's migrations, all of them completed. *)
Definition known_rows : list (Z * bool * bytes) := (fun m => (m.1, true, m.2)) <$> MIGRATIONS.

(** The database is the one this binary works with. *)
Record migrated (c : Catalog) : Prop := MkMigrated {
  mg_table : c_migrations c = Some known_rows;
  mg_events : c_shape c (str "mnesis.events") = true;
  mg_snapshots : c_snapshots c = true;
  mg_checkpoints : c_checkpoints c = true;
}.

Lemma longest_bound l n : longest l = Some n -> Forall (fun m => len m.2 <= n) l.
Proof.
  revert n. induction l as [|m l IH]; intros n; [done|]. cbn. fold (longest l). intros [= <-]. constructor.
  - destruct (longest l); cbn; lia.
  - destruct (longest l) as [k|] eqn:E; cbn; [|destruct l; [constructor|done]].
    eapply Forall_impl; [by apply IH|]. cbn. lia.
Qed.

Lemma same_migration_exact m k n :
  len k.2 <= n -> same_migration (m.1.1, m.1.2, take (Z.to_nat (n + 1)) m.2) k = true <-> m = (k.1, true, k.2).
Proof.
  intros Hk. unfold same_migration. cbn [fst snd]. rewrite !andb_true_iff, Z.eqb_eq, bool_decide_eq_true.
  destruct m as [[v ok] d], k as [v' d']. cbn in *. pose proof (len_nonneg d'). split.
  - intros [[-> ->] Heq]. f_equal. assert (length d <= Z.to_nat (n + 1))%nat as Hl.
    { assert (length (take (Z.to_nat (n + 1)) d) = length d') as Hl by (by rewrite Heq). rewrite length_take in Hl. unfold len in *. lia. }
    by rewrite take_ge in Heq.
  - intros [= -> -> ->]. split; [done|]. apply take_ge. unfold len in *. lia.
Qed.

(** A truncated table that matches is the whole table. *)
Lemma applied_exact n (known : list (Z * bytes)) ms :
  Forall (fun m => len m.2 <= n) known ->
  let applied := take (S (length known)) ((fun m => (m.1.1, m.1.2, take (Z.to_nat (n + 1)) m.2)) <$> ms) in
  len applied = len known /\ forallb (fun p => same_migration p.1 p.2) (zip applied known) = true <->
  ms = (fun m => (m.1, true, m.2)) <$> known.
Proof.
  intros Hall. revert ms. induction Hall as [|k known Hk _ IH]; intros ms; cbn zeta.
  - destruct ms as [|m ms]; [done|]. split; [|done]. intros [Hl _]. done.
  - destruct ms as [|m ms]; [split; [by intros [? _]|done]|].
    rewrite fmap_cons. cbn [length take zip zip_with forallb fst snd]. rewrite !len_cons, andb_true_iff, (same_migration_exact m k n Hk), fmap_cons.
    specialize (IH ms). cbn zeta in IH. split.
    + intros [Hl [-> Hz]]. f_equal. apply IH. split; [lia|done].
    + intros [= -> Hms]. apply IH in Hms as [Hl Hz]. split; [lia|]. by split.
Qed.

Lemma newest_bound events x : from_option (fun t => x <=? t) false (newest_txid events) = false <-> Forall (fun e => e_txid e < x) events.
Proof.
  induction events as [|e events IH]; [done|]. cbn. fold (newest_txid events). rewrite Forall_cons, <- IH.
  destruct (newest_txid events) as [t|]; cbn; rewrite ?Z.leb_gt; lia.
Qed.

(** The binary's own bounds: it has migrations, and their count and checksums are of
    ordinary size. *)
Definition embedded (n : Z) : Prop :=
  longest MIGRATIONS = Some n /\ n + 1 <= usize_max /\ len MIGRATIONS + 1 <= usize_max.

Definition history_post (c : Catalog) (f : View) (r : result History PostgresError) : Prop :=
  match r with
  | Ok h => c_history_shape c = true /\ h = MkHistory (c_history c) /\ forall e, e ∈ v_events f -> e_txid e < v_next_xid f
  | Err PostgresError.DatabaseHistory => c_history_shape c = false
  | Err PostgresError.FutureTransaction => exists e, e ∈ v_events f /\ ~ completed f (e_txid e)
  | Err (PostgresError.Sqlx _) => True
  | Err _ => False
  end.

Lemma history_load_exact c f r : answered c f history_load r -> history_post c f r.
Proof.
  intros [(valid & -> & H)|[? ->]]%answered_query; [|done]. destruct (c_history_shape c) eqn:Hs; cbn [negb] in H; [|by rewrite H].
  apply answered_query in H as [(value & -> & H)|[? ->]]; [|done].
  apply answered_query in H as [(future & (x & [Hle Hdone] & Hb) & ->)|[? ->]]; [|done]. destruct future; cbn.
  - assert (~ Forall (fun e => e_txid e < x) (v_events f)) as Hn by (rewrite <- newest_bound; congruence).
    apply not_Forall_Exists, Exists_exists in Hn as (e & He & Hlt); [|apply _]. cbn in Hlt. exists e. split; [done|]. by intros Hx%Hdone.
  - symmetry in Hb. apply newest_bound in Hb. split_and!; [done..|]. intros e He. rewrite Forall_forall in Hb. specialize (Hb e He). lia.
Qed.

(** What is wrong with the schema, by the reason given: the first check that fails. *)
Inductive schema_fault (c : Catalog) : bytes -> Prop :=
| fault_unmigrated :
    c_migrations c = None ->
    schema_fault c (str "schema is not migrated; run PostgresStore::migrate with the migration role")
| fault_migrations ms :
    c_migrations c = Some ms -> ms <> known_rows ->
    schema_fault c (str "migration version, checksum or completion differs; use a compatible binary or repair the upgrade")
| fault_events :
    c_migrations c = Some known_rows -> c_shape c (str "mnesis.events") = false ->
    schema_fault c (str "events columns, defaults, constraints or watermark index differ from the required schema")
| fault_snapshots :
    c_migrations c = Some known_rows -> c_shape c (str "mnesis.events") = true -> c_snapshots c = false ->
    schema_fault c (str "snapshot columns, bounds, logging, primary key or identity reference differ")
| fault_checkpoints :
    c_migrations c = Some known_rows -> c_shape c (str "mnesis.events") = true -> c_snapshots c = true -> c_checkpoints c = false ->
    schema_fault c (str "checkpoint columns, bounds, logging, primary key or identity reference differ").

Lemma fault_not_migrated c text : schema_fault c text -> ~ migrated c.
Proof. intros Hf [Ht He Hs Hc]. destruct Hf; congruence. Qed.

Definition current_post (c : Catalog) (f : View) (r : result History PostgresError) : Prop :=
  match r with
  | Err (PostgresError.Schema reason) => exists text, reason = Text text /\ schema_fault c text
  | Err (PostgresError.Sqlx _) => True
  | _ => migrated c /\ history_post c f r
  end.

Lemma validate_current_exact c f n r : embedded n -> answered c f validate_current r -> current_post c f r.
Proof.
  intros (Hn & Hb1 & Hb2) [(ready & -> & H)|[? ->]]%answered_query; [|done]. case_bool_decide as Hms; cbn [negb] in H.
  2:{ rewrite H. eexists. split; [done|]. apply fault_unmigrated. destruct (c_migrations c) as [ms|]; [|done]. by destruct Hms. }
  destruct Hms as [ms Hms]. rewrite Hn in H. cbn [mbind option_bind] in H. rewrite !checked_add_ok in H by done.
  cbn [ok_or] in H. cbn [prog_try prog_bind] in H.
  apply answered_query in H as [(applied & (ms' & Hms' & Happ) & H)|[? ->]]; [|done]. rewrite Hms in Hms'. injection Hms' as <-.
  pose proof (applied_exact n MIGRATIONS ms (longest_bound _ _ Hn)) as Hx. cbn zeta in Hx.
  replace (Z.to_nat (len MIGRATIONS + 1)) with (S (length MIGRATIONS)) in Happ by (unfold len; lia). rewrite <- Happ in Hx.
  destruct (Z.eqb_spec (len applied) (len MIGRATIONS)) as [Hl|Hl]; cbn [negb orb] in H.
  2:{ rewrite H. eexists. split; [done|]. apply (fault_migrations c ms Hms). intros ->. apply Hl. by apply Hx. }
  destruct (forallb _ _) eqn:Hz; cbn [negb] in H.
  2:{ rewrite H. eexists. split; [done|]. apply (fault_migrations c ms Hms). intros ->. destruct (proj2 Hx eq_refl). congruence. }
  assert (c_migrations c = Some known_rows) as Htab by (rewrite Hms; f_equal; by apply Hx).
  apply answered_try in H as [(u & Hsh & H)|(e & Hsh & ->)].
  2:{ apply answered_query in Hsh as [(valid & -> & Hv)|[e' [= ->]]]; [|done]. destruct (c_shape c _) eqn:Hs; cbn in Hv; [done|].
      injection Hv as ->. eexists. split; [done|]. by apply fault_events. }
  apply answered_query in Hsh as [(valid & -> & Hv)|[e' [=]]]. destruct (c_shape c _) eqn:Hs; [|done].
  apply answered_query in H as [(snaps & -> & H)|[? ->]]; [|done]. destruct (c_snapshots c) eqn:Hsn; cbn [negb] in H.
  2:{ rewrite H. eexists. split; [done|]. by apply fault_snapshots. }
  apply answered_query in H as [(cks & -> & H)|[? ->]]; [|done]. destruct (c_checkpoints c) eqn:Hck; cbn [negb] in H.
  2:{ rewrite H. eexists. split; [done|]. by apply fault_checkpoints. }
  apply history_load_exact in H. assert (migrated c) as Hm by done. destruct r as [h|[]]; cbn in *; try done; by split.
Qed.

(** What opening a store returns. *)
Definition open_post (c : Catalog) (f : View) (capacity : Z) (limits : Limits) (r : result Opened PostgresError) : Prop :=
  match r with
  | Ok o => 2 <= capacity /\ c_unsafe c = None /\ migrated c /\ c_history_shape c = true /\
      o = MkOpened limits (MkHistory (c_history c)) /\ (forall e, e ∈ v_events f -> e_txid e < v_next_xid f)
  | Err (PostgresError.PoolCapacity n) => n = capacity /\ capacity < 2
  | Err (PostgresError.Durability setting) => c_unsafe c = Some setting
  | Err (PostgresError.Schema reason) => exists text, reason = Text text /\ schema_fault c text
  | Err PostgresError.DatabaseHistory => migrated c /\ c_history_shape c = false
  | Err PostgresError.FutureTransaction => migrated c /\ exists e, e ∈ v_events f /\ ~ completed f (e_txid e)
  | Err (PostgresError.Sqlx _) => True
  | Err _ => False
  end.

Lemma open_post_holds c f n capacity limits r :
  embedded n -> answered c f (from_pool_with_limits capacity limits) r -> open_post c f capacity limits r.
Proof.
  intros Hn. unfold from_pool_with_limits. destruct (Z.ltb_spec capacity 2) as [Hc|Hc]; [by intros ->|].
  intros H. assert (exists r', answered c f validate_pool r' /\ r = result_map (MkOpened limits) r') as (r' & Hv & ->).
  { apply answered_try in H as [(h & Hv & ->)|(e & Hv & ->)]; [by exists (Ok h)|by exists (Err e)]. }
  clear H. apply answered_query in Hv as [(u & _ & Hv)|[? ->]]; [|done]. unfold schema_validate in Hv.
  apply answered_try in Hv as [(u' & Hd & Hv)|(e & Hd & ->)].
  2:{ apply answered_query in Hd as [(setting & -> & Hd)|[? [= ->]]]; [|done]. destruct (c_unsafe c) eqn:Hu; [|done]. by injection Hd as ->. }
  apply answered_query in Hd as [(setting & -> & Hd)|[? [=]]]. destruct (c_unsafe c) eqn:Hu; [done|].
  apply answered_query in Hv as [(u'' & _ & Hv)|[? ->]]; [|done].
  apply answered_try in Hv as [(h & Hcur & Hv)|(e & Hcur & ->)].
  - apply (validate_current_exact c f n _ Hn) in Hcur as (Hm & Hsh & -> & Hev).
    apply answered_query in Hv as [(u3 & _ & ->)|[? ->]]; [|done]. cbn. split_and!; try done; by destruct Hm.
  - apply (validate_current_exact c f n _ Hn) in Hcur. destruct e; cbn in *; try done; by destruct Hcur.
Qed.

(** A database and a pool that have all a store needs: its events are the work of
    transactions that this cluster completed. *)
Record fit (c : Catalog) (f : View) (capacity : Z) : Prop := MkFit {
  fit_pool : 2 <= capacity;
  fit_settings : c_unsafe c = None;
  fit_migrated : migrated c;
  fit_history : c_history_shape c = true;
  fit_events : forall e, e ∈ v_events f -> completed f (e_txid e);
}.

Lemma fit_opens c f capacity limits r :
  fit c f capacity -> open_post c f capacity limits r ->
  r = Ok (MkOpened limits (MkHistory (c_history c))) \/ exists e, r = Err (PostgresError.Sqlx e).
Proof.
  intros [Hp Hu Hm Hh He]. destruct r as [o|e]; cbn; [by intros (_ & _ & _ & _ & -> & _); left|].
  destruct e; try done; intros H.
  - by destruct H as (text & _ & Hf%fault_not_migrated).
  - destruct H as [_ H]. congruence.
  - destruct H as (_ & e & Hin & Hn). by destruct (Hn (He e Hin)).
  - destruct H. lia.
  - congruence.
  - right. by eexists.
Qed.

(** C37: opening a store validates and changes nothing.  It succeeds only with room in
    the pool for the listener and a query, on safe settings, on exactly the migrations
    of this binary, completed and with their whole checksums, on tables of the required
    shape, and when no stored event has a transaction id the cluster has not given out
    yet; it then reports the stored history.  Every refusal names what is wrong: the
    pool, the setting, the first part of the schema that differs, the history row, or
    that a stored event is of a transaction this cluster has not completed.  So a
    database that has all of this is refused only by a database error. *)
Theorem pg_open_exact c f n capacity limits r :
  embedded n -> answered c f (from_pool_with_limits capacity limits) r ->
  open_post c f capacity limits r /\
  (fit c f capacity ->
   r = Ok (MkOpened limits (MkHistory (c_history c))) \/ exists e, r = Err (PostgresError.Sqlx e)).
Proof.
  intros Hn H. assert (open_post c f capacity limits r) as Hpost by (by eapply open_post_holds).
  split; [done|]. intros Hfit. by eapply fit_opens.
Qed.
End open.
