(* ===== verification/PgExport.v ===== *)
(** * Export sessions of the PostgreSQL store (adapters/postgres/src/store/export.rs)

    A session is a task that owns one connection with one REPEATABLE READ, READ ONLY
    transaction, and a handle that sends it requests.  [own_step] is the owner: it opens
    its view, answers requests one at a time from that view, and ends when it is stopped,
    when the deadline passes or when the handle is gone.  The handle's operations are
    programs that look at the clock and ask the owner; a request is answered by the
    owner, or it is not because the owner is gone. *)

From Stdlib Require Import String Sorted.
From S2P Require Import Prelude Utf8 ErrorId Version Value Wire Envelope RawStore InMemory Export.
From S2P Require Import Pg PgDb PgInv PgStore PgAppend PgScan PgRead PgView.
Close Scope string_scope.
Open Scope list_scope.

Section export.
Context {T : Target} {AS : ArrayString}.

(** ** Requests and the owner *)

Inductive Request : Type :=
| ReqKey (id : StreamKey)
| ReqList (after : option Z)
| ReqEvents (key : Z) (from : Version).

(** The type of a reply. *)
Definition Replied (q : Request) : Type :=
  match q with
  | ReqKey _ => option Z
  | ReqList _ => list (PageRow Key)
  | ReqEvents _ _ => list (PageRow EventRow)
  end.

(** [serve]: its beginning, and its answer to a request. *)
Definition serve_open : prog (result Snapshot PostgresError) :=
  let*? _ := sql SBeginView in
  let*? _ := sql (SCheckInterval 1000) in
  sql SSnapshot.

Definition serve_request (captured : Snapshot) (limits : Limits) (q : Request) : prog (result (Replied q) PostgresError) :=
  match q with
  | ReqKey id => read_key (StreamKey.as_bytes id)
  | ReqList after => listing_page after captured limits
  | ReqEvents key from => sql (SPageStream key (as_u64 from) u64_max None limits)
  end.

Inductive Owner : Type :=
| Starting
| Serving (captured : Snapshot)
| Closing (r : result () PostgresError)
| OwnerEnded (r : result () PostgresError).

(** What the owner sends. *)
Inductive Sent : Type :=
| Ready (r : result () PostgresError)
| Served (q : Request) (r : result (Replied q) PostgresError).

(** [Result::and]. *)
Definition and_result {A B E} (r : result A E) (s : result B E) : result B E := match r with Ok _ => s | Err e => Err e end.

(** [own] and [serve] at their awaits, against the view [f]; [connected] is whether the
    session is still waiting for its start. *)
Inductive own_step (c : Catalog) (f : View) (limits : Limits) : Owner -> list Sent -> Owner -> Prop :=
| own_opened captured :
    answered c f serve_open (Ok captured) -> own_step c f limits Starting [Ready (Ok ())] (Serving captured)
| own_refused e :
    answered c f serve_open (Err e) -> own_step c f limits Starting [Ready (Err e)] (Closing (Ok ()))
| own_abandoned captured r :
    answered c f serve_open (Ok captured) -> answered c f (sql SRollback) r -> own_step c f limits Starting [] (Closing r)
| own_served captured q r :
    answered c f (serve_request captured limits q) r -> own_step c f limits (Serving captured) [Served q r] (Serving captured)
| own_finished captured r :
    answered c f (sql SRollback) r -> own_step c f limits (Serving captured) [] (Closing r)
(** The stop signal, the closed pool or the deadline, at any await. *)
| own_stopped o : (forall r, o <> Closing r) -> (forall r, o <> OwnerEnded r) -> own_step c f limits o [] (Closing (Ok ()))
| own_closed r (closed : result () PostgresError) :
    (forall e, closed = Err e -> exists err, e = PostgresError.Sqlx err) -> own_step c f limits (Closing r) [] (OwnerEnded (and_result r closed)).

(** ** The handle *)

Definition XError : Type := ExportError PostgresError.

(** What happened to a request. *)
Inductive Asked (q : Request) : Type :=
| Answered (r : result (Replied q) PostgresError)
| NoPermit
| NoReply.
#[global] Arguments Answered {q}.
#[global] Arguments NoPermit {q}.
#[global] Arguments NoReply {q}.

Inductive xprog (A : Type) : Type :=
| xret (a : A)
| xnow (k : Z -> xprog A)
| xask (q : Request) (k : Asked q -> xprog A).
#[global] Arguments xret {A}.
#[global] Arguments xnow {A}.
#[global] Arguments xask {A}.

Fixpoint xbind {A B} (p : xprog A) (g : A -> xprog B) : xprog B :=
  match p with
  | xret a => g a
  | xnow k => xnow (fun now => xbind (k now) g)
  | xask q k => xask q (fun a => xbind (k a) g)
  end.

Definition xtry {A B} (p : xprog (result A XError)) (g : A -> xprog (outcome B XError)) : xprog (outcome B XError) :=
  xbind p (fun r => match r with Ok a => g a | Err e => xret (Returns (Err e)) end).

Record Window : Type := MkWindow { w_deadline : Z; w_limits : Limits }.

Definition live (w : Window) : xprog (result () XError) :=
  xnow (fun now => xret (if w_deadline w <=? now then Err Expired else Ok ())).

Definition unavailable (w : Window) (source : PostgresError) : xprog XError :=
  xnow (fun now => xret (if w_deadline w <=? now then Expired else ExportStore source)).

Definition request (w : Window) (q : Request) : xprog (result (Replied q) XError) :=
  xbind (live w) (fun r =>
    match r with
    | Err e => xret (Err e)
    | Ok _ =>
        xask q (fun a =>
          match a with
          | NoPermit => xbind (unavailable w PostgresError.ExportRequest) (fun e => xret (Err e))
          | NoReply => xbind (unavailable w PostgresError.ExportReply) (fun e => xret (Err e))
          | Answered r => xret (map_err ExportStore r)
          end)
    end).

(** The cursors, as the steps of their [try_unfold]. *)
Record ListCursor : Type := MkListCursor { lc_after : option Z; lc_rows : list (PageRow Key) }.
Record EventCursor : Type := MkEventCursor { xc_lower : option Version; xc_rows : list (PageRow EventRow) }.

Definition list_open (w : Window) : xprog (outcome ListCursor XError) :=
  xtry (live w) (fun _ => xret (Returns (Ok (MkListCursor None [])))).

Definition list_next (w : Window) (st : ListCursor) : xprog (outcome (option (StreamKey * ListCursor)) XError) :=
  xtry (live w) (fun _ =>
    xtry (match lc_rows st with [] => request w (ReqList (lc_after st)) | rows => xret (Ok rows) end) (fun rows =>
      xret (outcome_map_err ExportStore (pop key_convert (fun number rows => MkListCursor (Some number) rows) rows)))).

Definition event_convert (label : ErrorId) (row : EventRow) : outcome (PersistedEnvelope * option Version) PostgresError :=
  let! event := row_to_envelope row label in
  Returns (Ok (event, next (ps_version event))).

(** [export_stream]: the key it found is kept by the cursor. *)
Definition export_open (w : Window) (id : StreamKey) (from : Version) : xprog (outcome (option Z * EventCursor) XError) :=
  xtry (live w) (fun _ =>
    xtry (xret (map_err ExportStore (validate_bytes [len (StreamKey.as_bytes id)] (w_limits w)))) (fun _ =>
      xtry (request w (ReqKey id)) (fun key => xret (Returns (Ok (key, MkEventCursor (Some from) [])))))).

Definition export_next (w : Window) (label : ErrorId) (key : option Z) (st : EventCursor)
  : xprog (outcome (option (PersistedEnvelope * EventCursor)) XError) :=
  xtry (live w) (fun _ =>
    match key with
    | None => xret (Returns (Ok None))
    | Some number =>
        match xc_rows st, xc_lower st with
        | [], None => xret (Returns (Ok None))
        | [], Some position =>
            xtry (request w (ReqEvents number position)) (fun rows =>
              xret (outcome_map_err ExportStore (pop (event_convert label) (fun next rows => MkEventCursor next rows) rows)))
        | rows, _ => xret (outcome_map_err ExportStore (pop (event_convert label) (fun next rows => MkEventCursor next rows) rows))
        end
    end).

(** At most [n] items of a cursor. *)
Inductive XFinish (St : Type) : Type :=
| XEnded
| XMore (st : St)
| XFailed (e : XError)
| XPanicked.
#[global] Arguments XEnded {St}.
#[global] Arguments XMore {St}.
#[global] Arguments XFailed {St}.
#[global] Arguments XPanicked {St}.

Fixpoint xcollect {A St} (next : St -> xprog (outcome (option (A * St)) XError)) (n : nat) (st : St) : xprog (list A * XFinish St) :=
  match n with
  | O => xret ([], XMore st)
  | S n =>
      xbind (next st) (fun polled =>
        match polled with
        | Returns (Ok (Some (a, st))) => xbind (xcollect next n st) (fun r => xret (a :: r.1, r.2))
        | Returns (Ok None) => xret ([], XEnded)
        | Returns (Err e) => xret ([], XFailed e)
        | Panics => xret ([], XPanicked)
        end)
  end.

(** A consumer of a listing and of an export. *)
Definition list_some (w : Window) (n : nat) : xprog (outcome (list StreamKey * XFinish ListCursor) XError) :=
  xbind (list_open w) (fun opened =>
    match opened with
    | Returns (Ok st) => xbind (xcollect (list_next w) n st) (fun r => xret (Returns (Ok r)))
    | Returns (Err e) => xret (Returns (Err e))
    | Panics => xret Panics
    end).

Definition export_some (w : Window) (n : nat) (id : StreamKey) (from : Version) : xprog (outcome (list PersistedEnvelope * XFinish EventCursor) XError) :=
  xbind (export_open w id from) (fun opened =>
    match opened with
    | Returns (Ok (key, st)) => xbind (xcollect (export_next w (error_id id) key) n st) (fun r => xret (Returns (Ok r)))
    | Returns (Err e) => xret (Returns (Err e))
    | Panics => xret Panics
    end).

(** [open_export_session], with the clock at its three looks, the pool's answer and what
    came back from the owner. *)
Definition pg_open_export_session (instant_max lifetime now now2 now3 : Z) (limits : Limits) (acquired : result () SqlxError)
  (started : option (result () PostgresError)) : result Window XError :=
  if (lifetime =? 0) || bool_decide (checked_add instant_max now lifetime = None) then Err (InvalidLifetime lifetime)
  else
    let? _ := map_err (fun e => ExportStore (PostgresError.Sqlx e)) acquired in
    let? deadline := ok_or (checked_add instant_max now2 lifetime) (InvalidLifetime lifetime) in
    match started with
    | None => Err (if deadline <=? now3 then Expired else ExportStore PostgresError.ExportReply)
    | Some r => let? _ := map_err ExportStore r in Ok (MkWindow deadline limits)
    end.

(** [close]: the owner's result once its task is joined; [None] is a failed task. *)
Definition pg_session_close (joined : option (result () PostgresError)) : result () XError :=
  match joined with
  | None => Err (ExportStore PostgresError.ExportTask)
  | Some completed => map_err ExportStore completed
  end.

(** ** What the owner sends *)

Inductive own_run (c : Catalog) (f : View) (limits : Limits) : Owner -> list Sent -> Owner -> Prop :=
| own_run_nil o : own_run c f limits o [] o
| own_run_step o sent o1 sents o2 :
    own_step c f limits o sent o1 -> own_run c f limits o1 sents o2 -> own_run c f limits o (sent ++ sents) o2.

(** The replies of an owner come from one snapshot of one view. *)
Definition sent_from (c : Catalog) (f : View) (limits : Limits) (captured : Snapshot) (x : Sent) : Prop :=
  match x with Ready _ => True | Served q r => answered c f (serve_request captured limits q) r end.

Definition is_served (x : Sent) : bool := match x with Ready _ => false | Served _ _ => true end.

Lemma own_run_closing c f limits o sent o' :
  (exists r, o = Closing r \/ o = OwnerEnded r) -> own_run c f limits o sent o' -> sent = [].
Proof.
  intros Ho Hr. induction Hr as [|o sent o1 sents o2 Hs Hr IH]; [done|]. destruct Ho as [r Ho].
  destruct Hs as [| | | | |o Hc He|r' closed]; try (by destruct Ho).
  - destruct Ho as [->| ->]; [by destruct (Hc r)|by destruct (He r)].
  - apply IH. exists (and_result r' closed). by right.
Qed.

Lemma own_run_served c f limits captured o sent o' :
  o = Serving captured -> own_run c f limits o sent o' -> Forall (sent_from c f limits captured) sent.
Proof.
  intros Ho Hr. induction Hr as [|o sent o1 sents o2 Hs Hr IH]; [constructor|].
  destruct Hs as [| | |cap q r Ha|cap r Ha|o _ _|r closed]; try done.
  - injection Ho as ->. constructor; [done|by apply IH].
  - by rewrite (own_run_closing _ _ _ _ _ _ (ex_intro _ r (or_introl eq_refl)) Hr).
  - by rewrite (own_run_closing _ _ _ _ _ _ (ex_intro _ (Ok ()) (or_introl eq_refl)) Hr).
Qed.

Lemma own_run_started c f limits o sent o' :
  o = Starting -> own_run c f limits o sent o' ->
  Forall (fun x => is_served x = false) sent \/
  exists captured, answered c f serve_open (Ok captured) /\ Forall (sent_from c f limits captured) sent.
Proof.
  intros Ho Hr. destruct Hr as [|o sent o1 sents o2 Hs Hr]; [left; constructor|].
  destruct Hs as [captured Ha|e Ha|cap r Ha Hb|cap q r Ha|cap r Ha|o _ _|r closed]; try done.
  - right. exists captured. split; [done|]. constructor; [done|]. by eapply own_run_served.
  - left. rewrite (own_run_closing _ _ _ _ _ _ (ex_intro _ (Ok ()) (or_introl eq_refl)) Hr). by repeat constructor.
  - left. by rewrite (own_run_closing _ _ _ _ _ _ (ex_intro _ r (or_introl eq_refl)) Hr).
  - left. by rewrite (own_run_closing _ _ _ _ _ _ (ex_intro _ (Ok ()) (or_introl eq_refl)) Hr).
Qed.

(** ** What the handle delivers *)

(** A run of the handle from one instant to another; its replies are among those the
    owner sent. *)
Fixpoint xruns (sent : list Sent) (t : Z) {A} (p : xprog A) (x : A) (t' : Z) : Prop :=
  match p with
  | xret a => x = a /\ t' = t
  | xnow k => exists t1, t <= t1 /\ xruns sent t1 (k t1) x t'
  | xask q k => exists a, (match a with Answered r => Served q r ∈ sent | _ => True end) /\ xruns sent t (k a) x t'
  end.

Lemma xruns_bind sent t {A B} (p : xprog A) (g : A -> xprog B) x t' :
  xruns sent t (xbind p g) x t' <-> exists a t1, xruns sent t p a t1 /\ xruns sent t1 (g a) x t'.
Proof.
  revert t. induction p as [a|k IH|q k IH]; intros t; cbn; [naive_solver| |]; setoid_rewrite IH; naive_solver.
Qed.

Lemma xruns_try sent t {A B} (p : xprog (result A XError)) (g : A -> xprog (outcome B XError)) x t' :
  xruns sent t (xtry p g) x t' <->
  exists r t1, xruns sent t p r t1 /\ match r with Ok a => xruns sent t1 (g a) x t' | Err e => x = Returns (Err e) /\ t' = t1 end.
Proof. unfold xtry. rewrite xruns_bind. split; intros ([a|e] & t1 & Hp & H); [by exists (Ok a), t1|by exists (Err e), t1|by exists (Ok a), t1|by exists (Err e), t1]. Qed.

Lemma xruns_time sent t {A} (p : xprog A) x t' : xruns sent t p x t' -> t <= t'.
Proof.
  revert t. induction p as [a|k IH|q k IH]; intros t; cbn.
  - intros [_ ->]. lia.
  - intros (t1 & Hle & H%IH). lia.
  - by intros (a & _ & H%IH).
Qed.

(** An expiry is reported only once the deadline has passed. *)
Lemma live_run sent w t r t' : xruns sent t (live w) r t' -> t <= t' /\ (r = Ok () \/ r = Err Expired /\ w_deadline w <= t').
Proof. intros (t1 & Hle & -> & ->). split; [done|]. destruct (Z.leb_spec (w_deadline w) t1); auto. Qed.

(** Why a request failed. *)
Definition refused (w : Window) (t : Z) (e : XError) : Prop :=
  match e with
  | Expired => w_deadline w <= t
  | ExportStore pe => (exists err, pe = PostgresError.Sqlx err) \/ pe = PostgresError.ExportRequest \/ pe = PostgresError.ExportReply
  | InvalidLifetime _ => False
  end.

Lemma answered_request_err c f captured limits q e :
  answered c f (serve_request captured limits q) (Err e) -> exists err, e = PostgresError.Sqlx err.
Proof.
  destruct q as [id|after|key from]; intros H;
    [apply (answered_sql c f (SReadKey (StreamKey.as_bytes id))) in H|apply (answered_sql c f (SPageKeys after captured limits)) in H|
     apply (answered_sql c f (SPageStream key (as_u64 from) u64_max None limits)) in H];
    destruct H as [(? & _ & [=])|[err [= ->]]]; by exists err.
Qed.

Lemma request_run c f captured sent w t q r t' :
  Forall (sent_from c f (w_limits w) captured) sent -> xruns sent t (request w q) r t' ->
  match r with
  | Ok a => Served q (Ok a) ∈ sent /\ answered c f (serve_request captured (w_limits w) q) (Ok a)
  | Err e => refused w t' e
  end.
Proof.
  intros Hs. unfold request. rewrite xruns_bind. intros (l & t1 & Hl%live_run & H). destruct Hl as [_ [->|[-> Hd]]].
  2:{ by destruct H as [-> ->]. }
  destruct H as (a & Ha & H). destruct a as [a| |].
  - destruct H as [-> ->]. rewrite Forall_forall in Hs. specialize (Hs _ Ha). cbn in Hs.
    destruct a as [a|e]; [done|]. cbn. left. by eapply answered_request_err.
  - cbn in H. destruct H as (t2 & _ & -> & ->). cbn. destruct (Z.leb_spec (w_deadline w) t2); cbn; auto.
  - cbn in H. destruct H as (t2 & _ & -> & ->). cbn. destruct (Z.leb_spec (w_deadline w) t2); cbn; auto.
Qed.

(** ** Cursors over a fixed list *)

Section cursor.
Context {C R A P St : Type} (w : Window) (size : C -> Z) (row : C -> R) (convert : R -> outcome (A * P) PostgresError).
Notation limits := (w_limits w).
Notation item_of := (item_of limits size row convert).
Notation buffered := (buffered limits size row).

(** The result of a consumer that asked for at most [n] items, at the instant [t]. *)
Definition exported (E : list C) (n : nat) (items : list A) (fin : XFinish St) (t : Z) : Prop :=
  Forall2 (fun c a => exists p, item_of c = Returns (Ok (a, p))) (take (length items) E) items /\
  match fin with
  | XEnded => length items = length E
  | XMore _ => length items = n
  | XFailed e => refused w t e \/ exists c pe, e = ExportStore pe /\ E !! length items = Some c /\ item_of c = Returns (Err pe)
  | XPanicked => exists c, E !! length items = Some c /\ item_of c = Panics
  end.

(** What one step answers after [k] items. *)
Definition step_post (I : nat -> St -> Prop) (E : list C) (k : nat) (x : outcome (option (A * St)) XError) (t : Z) : Prop :=
  match x with
  | Returns (Ok (Some (a, st))) => exists c p, E !! k = Some c /\ item_of c = Returns (Ok (a, p)) /\ I (S k) st
  | Returns (Ok None) => (length E <= k)%nat
  | Returns (Err e) => refused w t e \/ exists c pe, e = ExportStore pe /\ E !! k = Some c /\ item_of c = Returns (Err pe)
  | Panics => exists c, E !! k = Some c /\ item_of c = Panics
  end.

Lemma xcollect_run sent (next : St -> xprog (outcome (option (A * St)) XError)) (I : nat -> St -> Prop) (E : list C) n k st t r t' :
  (forall k st t x t', I k st -> xruns sent t (next st) x t' -> step_post I E k x t') ->
  I k st -> (k <= length E)%nat -> xruns sent t (xcollect next n st) r t' -> exported (drop k E) n r.1 r.2 t'.
Proof.
  intros Hnext. revert k st t r. induction n as [|n IH]; intros k st t r Hk Hle; cbn [xcollect].
  - intros [-> ->]. split; [constructor|done].
  - rewrite xruns_bind. intros (x & t1 & Hx & H). pose proof (Hnext _ _ _ _ _ Hk Hx) as Hp. destruct x as [[[[a st']|]|e]|]; cbn in Hp.
    + destruct Hp as (c & p & Hc & Hit & HI). apply xruns_bind in H as ([items fin] & t2 & H & -> & ->).
      destruct (IH (S k) st' t1 (items, fin) HI ltac:(apply lookup_lt_Some in Hc; lia) H) as [Hf Hfin]. cbn [fst snd length] in *. rewrite (drop_S _ _ _ Hc).
      split; [cbn; constructor; [by exists p|done]|]. destruct fin; cbn in *; try lia; done.
    + destruct H as [-> ->]. split; [constructor|]. cbn. rewrite length_drop. lia.
    + destruct H as [-> ->]. split; [constructor|]. cbn. rewrite lookup_drop, Nat.add_0_r. done.
    + destruct H as [-> ->]. split; [constructor|]. cbn. rewrite lookup_drop, Nat.add_0_r. done.
Qed.

(** Converting the first row of a buffer. *)
Lemma pop_post (I : nat -> St -> Prop) (resume : P -> list (PageRow R) -> St) E k rows t :
  buffered E k rows -> (rows = [] -> drop k E = []) ->
  (forall c a p rows, E !! k = Some c -> item_of c = Returns (Ok (a, p)) -> buffered E (S k) rows -> I (S k) (resume p rows)) ->
  step_post I E k (outcome_map_err ExportStore (pop convert resume rows)) t.
Proof.
  intros Hb Hnil HI. pose proof (pop_spec limits size row convert resume E k rows Hb Hnil) as Hp.
  destruct (pop convert resume rows) as [[[[a st]|]|e]|]; cbn in *; [| |right|]; try done.
  - destruct Hp as (c & p & rows' & Hc & Hit & -> & Hb'). exists c, p. eauto.
  - destruct Hp as (c & Hc & Hit). by exists c, e.
Qed.

(** Refilling the buffer. *)
Lemma refill_post (I : nat -> St -> Prop) (resume : P -> list (PageRow R) -> St) sent E k (q : xprog (result (list (PageRow R)) XError)) t x t' :
  (forall c, 0 < size c) ->
  (forall r, xruns sent t q r t' -> match r with Ok rows => rows = page limits ((fun c => (size c, row c)) <$> drop k E) | Err e => refused w t' e end) ->
  (forall c a p rows, E !! k = Some c -> item_of c = Returns (Ok (a, p)) -> buffered E (S k) rows -> I (S k) (resume p rows)) ->
  xruns sent t (xtry q (fun rows => xret (outcome_map_err ExportStore (pop convert resume rows)))) x t' -> step_post I E k x t'.
Proof.
  intros Hpos Hq HI. unfold xtry. rewrite xruns_bind. intros (r & t1 & Hr & H). destruct r as [rows|e].
  - destruct H as [-> ->]. apply Hq in Hr as ->. destruct (buffered_page limits size row E k Hpos). by apply pop_post.
  - destruct H as [-> ->]. left. by apply (Hq (Err e)).
Qed.
End cursor.

(** ** The listing *)

Section session.
Context (c : Catalog) (f : View) (captured : Snapshot) (sent : list Sent) (w : Window).
Context (Hinv : view_inv f) (Hsnap : forall q r, Served q r ∈ sent -> current_snapshot f captured) (Hsent : Forall (sent_from c f (w_limits w) captured) sent).

Definition list_at (k : nat) (st : ListCursor) : Prop :=
  buffered (w_limits w) key_bytes key_row (listed f) k (lc_rows st) /\
  match k with O => lc_after st = None | S j => exists c, listed f !! j = Some c /\ lc_after st = Some c.1 end.

Lemma list_next_run k st t x t' :
  list_at k st -> xruns sent t (list_next w st) x t' -> step_post w key_bytes key_row key_convert list_at (listed f) k x t'.
Proof using All.
  intros [Hb Ha] H. apply xruns_try in H as (l & t1 & Hl%live_run & H). destruct Hl as [_ [->|[-> Hd]]]; [|by destruct H as [-> ->]; left].
  assert (forall c0 a p rows, listed f !! k = Some c0 -> item_of (w_limits w) key_bytes key_row key_convert c0 = Returns (Ok (a, p)) ->
    buffered (w_limits w) key_bytes key_row (listed f) (S k) rows -> list_at (S k) (MkListCursor (Some p) rows)) as HI.
  { intros c0 a p rows Hc Hit Hb'. split; [done|]. exists c0. split; [done|]. cbn. f_equal. revert Hit.
    unfold item_of, transferred, page_row. cbn [fst snd]. destruct (_ <? _); cbn; [done|]. by intros [= _ <-]. }
  destruct (lc_rows st) as [|r rows] eqn:Hrows.
  - eapply (refill_post w key_bytes key_row key_convert list_at _ sent _ k (request w (ReqList (lc_after st)))); [|clear H|exact HI|exact H].
    + intros k0. unfold key_bytes. pose proof (len_nonneg k0.2). lia.
    + intros r Hr. pose proof (request_run c f captured sent w _ (ReqList (lc_after st)) r _ Hsent Hr) as Hq. destruct r as [rows|e]; [|done].
      destruct Hq as [Hserved%Hsnap Hq].
      apply (answered_sql c f (SPageKeys (lc_after st) captured (w_limits w))) in Hq as [(rows' & (cands & Hord & ->) & [= ->])|[? [=]]].
      f_equal. f_equal. eapply (key_page f f captured); [done|done|done|by apply settled_snapshot|exact Ha|exact Hord].
  - apply xruns_try in H as (l & t2 & [-> ->] & [-> ->]). apply pop_post; [done|done|exact HI].
Qed.

Lemma list_some_run n t r t' :
  xruns sent t (list_some w n) r t' ->
  match r with
  | Returns (Ok (items, fin)) => exported w key_bytes key_row key_convert (listed f) n items fin t'
  | Returns (Err e) => refused w t' e
  | Panics => False
  end.
Proof using All.
  unfold list_some. rewrite xruns_bind. intros (x & t1 & Hx & H). apply xruns_try in Hx as (l & t2 & Hl%live_run & Hx).
  destruct Hl as [_ [->|[-> Hd]]]; destruct Hx as [-> ->]; [|by destruct H as [-> ->]].
  apply xruns_bind in H as ([items fin] & t3 & H & -> & ->).
  apply (xcollect_run w key_bytes key_row key_convert sent (list_next w) list_at (listed f) n 0 _ _ (items, fin)) in H;
    [by rewrite drop_0 in H|by intros ? ? ? ? ?; apply list_next_run|by split; [eexists [], _|]|lia].
Qed.

(** ** The events of a stream *)

Section stream.
Context (label : ErrorId) (key : bytes) (number : Z) (from : Version).
Context (Hkey : (number, key) ∈ v_keys f).
Notation E := (filter (fun e => as_u64 from <= e_version e) (stream_at f number)).

(** The position the cursor goes on from, after [k] events. *)
Definition lower_at (k : nat) (lower : option Version) : Prop :=
  match k with O => lower = Some from | S j => exists e v, E !! j = Some e /\ as_u64 v = e_version e /\ lower = next v end.

Definition event_at (k : nat) (st : EventCursor) : Prop :=
  buffered (w_limits w) (stored_bytes key) e_row E k (xc_rows st) /\ lower_at k (xc_lower st).

Lemma event_item e a p :
  item_of (w_limits w) (stored_bytes key) e_row (event_convert label) e = Returns (Ok (a, p)) -> exists v, as_u64 v = e_version e /\ p = next v.
Proof.
  unfold item_of, transferred, page_row. cbn [fst snd]. destruct (_ <? _); cbn [into_value outcome_bind]; [done|].
  unfold event_convert. intros (ev & Hev%row_to_envelope_version & [= _ <-])%outcome_bind_Ok. by exists (ps_version ev).
Qed.

(** A stream fits its versions. *)
Lemma frozen_version e : e ∈ v_events f -> e_stream e = number -> 0 < e_version e <= u64_max /\ e_version e <= len (stream_at f number).
Proof using Hinv.
  intros He Hst. split; [apply (vi_events f Hinv e He)|].
  assert (e ∈ stream_at f number) as [i Hi]%list_elem_of_lookup by (by apply elem_of_stream).
  rewrite (numbered_lookup _ _ _ (vi_numbered f Hinv number) Hi). apply lookup_lt_Some in Hi. unfold len. lia.
Qed.

Lemma and_congr (P Q R : Prop) : (P -> Q <-> R) -> P /\ Q <-> P /\ R.
Proof. tauto. Qed.

Lemma export_page k position cands :
  lower_at k (Some position) ->
  ordered version_lt (v_events f) (stream_selected number (as_u64 position) u64_max None) cands -> cands = drop k E.
Proof using All.
  intros Hk [Hs Hin]. set (after := match k with O => None | S j => e_version <$> E !! j end).
  apply (stream_page key number (stream_at f number) (as_u64 from) after k f); [done| | |split; [done|]].
  - split; [done|]. exists []. by rewrite app_nil_r.
  - destruct k as [|j]; [done|]. destruct Hk as (e & v & He & _). exists e. split; [done|]. unfold after. by rewrite He.
  - intros e. rewrite Hin. unfold after, stream_selected. apply and_congr. intros He. destruct k as [|j].
    + injection Hk as ->. cbn. split; intros (Hst & Hb & _); destruct (frozen_version e He Hst); split_and!; (done || lia).
    + destruct Hk as (d & v & Hd & Hv & Hnext). rewrite Hd. symmetry in Hnext. apply next_Some in Hnext. cbn.
      assert (as_u64 from <= e_version d) by (by apply list_elem_of_lookup_2, list_elem_of_filter in Hd as [? _]).
      split; intros (Hst & Hb & Ha); destruct (frozen_version e He Hst); split_and!; (done || lia).
Qed.

(** The last version has none after it. *)
Lemma export_exhausted k : lower_at k None -> drop k E = [].
Proof using All.
  destruct k as [|j]; [done|]. intros (d & v & Hd & Hv & Hnext). symmetry in Hnext. apply next_None in Hnext.
  assert (StronglySorted version_lt E) as Hs by (apply filter_sorted, numbered_sorted, (vi_numbered f Hinv)).
  apply elem_of_nil_inv. intros e. rewrite (drop_selected version_lt E j d) by (done || apply version_lt_irrefl || apply _).
  intros [[_ [Hst Hin]%elem_of_stream]%list_elem_of_filter Hlt]. destruct (frozen_version e Hin Hst) as [Hb _]. unfold version_lt in Hlt. lia.
Qed.

Lemma export_next_run k st t x t' :
  event_at k st -> xruns sent t (export_next w label (Some number) st) x t' ->
  step_post w (stored_bytes key) e_row (event_convert label) event_at E k x t'.
Proof using All.
  intros [Hb Hlow] H. apply xruns_try in H as (l & t1 & Hl%live_run & H). destruct Hl as [_ [->|[-> Hd]]]; [|by destruct H as [-> ->]; left].
  assert (forall e a p rows, E !! k = Some e -> item_of (w_limits w) (stored_bytes key) e_row (event_convert label) e = Returns (Ok (a, p)) ->
    buffered (w_limits w) (stored_bytes key) e_row E (S k) rows -> event_at (S k) (MkEventCursor p rows)) as HI.
  { intros e a p rows He (v & Hv & ->)%event_item Hb'. split; [done|]. by exists e, v. }
  destruct (xc_rows st) as [|r rows] eqn:Hrows; [destruct (xc_lower st) as [position|]|].
  - eapply (refill_post w (stored_bytes key) e_row (event_convert label) event_at _ sent _ k (request w (ReqEvents number position)));
      [apply stored_bytes_pos|clear H|exact HI|exact H].
    intros r Hr. pose proof (request_run c f captured sent w _ (ReqEvents number position) r _ Hsent Hr) as Hq. destruct r as [rows|e]; [|done].
    destruct Hq as [_ Hq].
    apply (answered_sql c f (SPageStream number (as_u64 position) u64_max None (w_limits w))) in Hq as [(rows' & (cands & Hord & ->) & [= ->])|[? [=]]].
    assert (cands = drop k E) as -> by (by eapply export_page). f_equal. apply list_fmap_ext. intros i e He. f_equal.
    apply list_elem_of_lookup_2, Hord in He as (_ & Hst & _). unfold row_bytes, stored_bytes. rewrite Hst.
    rewrite (key_value_in (v_keys f) number key); [done|apply (vi_numbers f Hinv)|done].
  - destruct H as [-> ->]. cbn. pose proof (export_exhausted k Hlow) as Hd. apply (f_equal length) in Hd. rewrite length_drop in Hd. cbn in Hd. lia.
  - destruct H as [-> ->]. apply pop_post; [done|done|exact HI].
Qed.
End stream.

(** An export of an absent stream ends at once. *)
Lemma absent_next_run label st k t x t' :
  xruns sent t (export_next w label None st) x t' ->
  forall key, step_post w (stored_bytes key) e_row (event_convert label) (fun _ _ => True) [] k x t'.
Proof.
  intros H key. apply xruns_try in H as (l & t1 & Hl%live_run & H). destruct Hl as [_ [->|[-> Hd]]]; destruct H as [-> ->]; [cbn; lia|by left].
Qed.

Lemma export_some_run n id from t r t' :
  xruns sent t (export_some w n id from) r t' ->
  match r with
  | Returns (Ok (items, fin)) =>
      exported w (stored_bytes (StreamKey.as_bytes id)) e_row (event_convert (error_id id)) (stream_from f (StreamKey.as_bytes id) (as_u64 from)) n items fin t'
  | Returns (Err e) => refused w t' e \/ exists pe, e = ExportStore pe /\ validate_bytes [len (StreamKey.as_bytes id)] (w_limits w) = Err pe
  | Panics => False
  end.
Proof using All.
  set (key := StreamKey.as_bytes id). unfold export_some. rewrite xruns_bind. intros (x & t1 & Hx & H).
  apply xruns_try in Hx as (l & t2 & Hl%live_run & Hx). destruct Hl as [_ [->|[-> Hd]]].
  2:{ destruct Hx as [-> ->]. destruct H as [-> ->]. by left. }
  apply xruns_try in Hx as (l & t3 & [Hv ->] & Hx). fold key in Hv. destruct (validate_bytes [len key] (w_limits w)) as [u|pe]; cbn in Hv; subst l.
  2:{ destruct Hx as [-> ->]. destruct H as [-> ->]. right. by exists pe. }
  apply xruns_try in Hx as (found & t4 & Hr & Hx). pose proof (request_run c f captured sent w _ (ReqKey id) found _ Hsent Hr) as Hq.
  destruct found as [found|e].
  2:{ destruct Hx as [-> ->]. destruct H as [-> ->]. by left. }
  destruct Hx as [-> ->]. apply xruns_bind in H as ([items fin] & t5 & H & -> & ->).
  destruct Hq as [_ Hq]. apply (answered_sql c f (SReadKey key)) in Hq as [(m & Hm & [= ->])|[? [=]]].
  unfold stream_from, stream_of_key. rewrite <- Hm. clear Hr. destruct m as [number|]; cbn [from_option].
  - pose proof (key_number_Some _ _ _ (eq_sym Hm)) as Hin.
    apply (xcollect_run w (stored_bytes key) e_row (event_convert (error_id id)) sent _ (event_at key number from)
      (filter (fun e => as_u64 from <= e_version e) (stream_at f number)) n 0 _ _ (items, fin)) in H;
      [by rewrite drop_0 in H|by intros ? ? ? ? ?; apply export_next_run|by split; [eexists [], _|]|lia].
  - apply (xcollect_run w (stored_bytes key) e_row (event_convert (error_id id)) sent _ (fun _ _ => True) [] n 0 _ _ (items, fin)) in H; [done| |done|done].
    intros k st ? ? ? _ Hx. by eapply absent_next_run in Hx.
Qed.
End session.

(** What an owner that starts has sent comes from one snapshot of its view. *)
Lemma own_run_captured c f limits sent o :
  own_run c f limits Starting sent o ->
  exists captured, (forall q r, Served q r ∈ sent -> current_snapshot f captured) /\ Forall (sent_from c f limits captured) sent.
Proof.
  intros Hr. destruct (own_run_started _ _ _ _ _ _ eq_refl Hr) as [Hno|(captured & Ho & Hs)].
  - exists (MkSnapshot 0 0 []). rewrite Forall_forall in Hno. split; [|apply Forall_forall]; [by intros q r ?%Hno|]. intros [r|q r] Hx; [done|by apply Hno in Hx].
  - exists captured. split; [|done]. intros _ _ _. unfold serve_open in Ho.
    apply answered_query in Ho as [(? & _ & Ho)|[? [=]]]. apply answered_query in Ho as [(? & _ & Ho)|[? [=]]].
    by apply answered_sql in Ho as [(sn & Hsn & [= ->])|[? [=]]].
Qed.

(** An export session shows one state of the store.  Whatever its owner was stopped
    by, and in whatever order the cursors of the session were advanced, each cursor
    delivers a prefix of the keys, or of the events of one stream from a version on, as
    they were when the owner's view was taken: without gap, repetition or reordering,
    across pages of any size and up to the last version there is.  It ends only when
    all was delivered; it fails only with a row that cannot be delivered, with a database
    error, with an owner that is gone, or, once the deadline has passed, as expired. *)
Theorem pg_export_frozen c f w sent o n :
  view_inv f -> own_run c f (w_limits w) Starting sent o ->
  (forall t r t', xruns sent t (list_some w n) r t' ->
    match r with
    | Returns (Ok (items, fin)) => exported w key_bytes key_row key_convert (listed f) n items fin t'
    | Returns (Err e) => refused w t' e
    | Panics => False
    end) /\
  (forall id from t r t', xruns sent t (export_some w n id from) r t' ->
    match r with
    | Returns (Ok (items, fin)) =>
        exported w (stored_bytes (StreamKey.as_bytes id)) e_row (event_convert (error_id id)) (stream_from f (StreamKey.as_bytes id) (as_u64 from)) n items fin t'
    | Returns (Err e) => refused w t' e \/ exists pe, e = ExportStore pe /\ validate_bytes [len (StreamKey.as_bytes id)] (w_limits w) = Err pe
    | Panics => False
    end).
Proof.
  intros Hinv (captured & Hsnap & Hs)%own_run_captured. split.
  - intros. by eapply list_some_run.
  - intros. by eapply export_some_run.
Qed.

(** What opening a session answers. *)
Lemma open_export_session_exact instant_max lifetime now now2 now3 limits acquired started :
  0 <= lifetime -> now <= now2 <= now3 ->
  match pg_open_export_session instant_max lifetime now now2 now3 limits acquired started with
  | Ok w => w = MkWindow (now2 + lifetime) limits /\ 0 < lifetime /\ acquired = Ok () /\ started = Some (Ok ())
  | Err (InvalidLifetime l) => l = lifetime /\ (lifetime = 0 \/ instant_max < now2 + lifetime)
  | Err Expired => now2 + lifetime <= now3 /\ started = None
  | Err (ExportStore e) => (exists s, e = PostgresError.Sqlx s /\ acquired = Err s) \/ (e = PostgresError.ExportReply /\ started = None) \/ started = Some (Err e)
  end.
Proof.
  intros Hl Hnow. unfold pg_open_export_session.
  destruct (Z.eqb_spec lifetime 0) as [->|Hnz]; cbn [orb]; [by auto|].
  case_bool_decide as Hc; [apply checked_add_None in Hc; split; [done|lia]|].
  destruct acquired as [[]|s]; cbn [map_err result_bind]; [|left; by exists s].
  destruct (checked_add instant_max now2 lifetime) as [d|] eqn:Hd; cbn [ok_or result_bind]; [|apply checked_add_None in Hd; split; [done|lia]].
  apply checked_add_Some in Hd as [-> _]. destruct started as [[[]|e]|]; cbn [map_err result_bind]; [split_and!; done || lia|by auto|].
  destruct (Z.leb_spec (now2 + lifetime) now3); [done|by auto].
Qed.

End export.
