(* ===== verification/PgWake.v ===== *)
(** * Wakes of the PostgreSQL store (adapters/postgres/src/wake.rs, the listener of store.rs)

    A store wakes its subscribers for its own commits, and a listener task wakes them for
    the notifications of other stores; a registration also has a deadline of its own, so
    a lost notification delays a scan and loses nothing.  The registry of [Wake] is
    shared by all tasks: the listener is a machine at its awaits, between whose steps
    anyone may register, drop and wake.  The clock counts milliseconds. *)

From S2P Require Import Prelude Wake Pg.

Definition RESCAN_INTERVAL : Z := 1000.
Definition RETRY_INTERVAL : Z := 1000.

Section pgwake.
Context {T : Target} {W : Watch}.

(** ** Registrations (wake.rs) *)

Record PgRegistration : Type := MkPgRegistration { pr_inner : WakeReg }.

Definition pg_register (n : StreamNotifiers) (stream : option bytes) : StreamNotifiers * result PgRegistration NotifyError :=
  let '(n, r) := register n stream in (n, result_map MkPgRegistration r).

(** The future of [arm]: the wake is captured by the call, the timer is set by the
    first poll. *)
Record PgWait : Type := MkPgWait { pw_wake : Wait; pw_deadline : option Z }.

Definition pg_arm (n : StreamNotifiers) (r : PgRegistration) : PgWait := MkPgWait (arm n (pr_inner r)) None.

(** A poll of its [select!]: whether it is ready, and the future afterwards. *)
Definition pg_poll (n : StreamNotifiers) (now : Z) (w : PgWait) : bool * PgWait :=
  let deadline := default (now + RESCAN_INTERVAL) (pw_deadline w) in
  (wait_ready n (pw_wake w) || (deadline <=? now), MkPgWait (pw_wake w) (Some deadline)).

(** ** The listener (store.rs) *)

Inductive Listener : Type :=
| Connecting
| Subscribing
| Receiving
| Waking
| ListenFailed
| Sleeping (until : Z)
| Stopped.

Record Hub : Type := MkHub {
  h_registry : StreamNotifiers;
  h_guards : list bytes;
  h_listener : Listener;
  h_closed : bool;
  h_now : Z;
}.

(** [assemble]: the registry is new and the task is spawned. *)
Definition assemble (now : Z) : Hub := MkHub notifiers_new [] Connecting false now.

(** What [try_recv] returns: an error, a reconnection or a payload. *)
Definition listen_recv (n : StreamNotifiers) (received : result (option bytes) SqlxError) : StreamNotifiers * Listener :=
  match received with
  | Err _ => (n, ListenFailed)
  | Ok None => (n, Receiving)
  | Ok (Some payload) =>
      match hex_decode payload with
      | Some stream => (wake_stream n stream, Waking)
      | None => (n, Receiving)
      end
  end.

(** After [listen] returned its error. *)
Definition listener_retry (closed : bool) (now : Z) : Listener := if closed then Stopped else Sleeping (now + RETRY_INTERVAL).

Inductive Label : Type :=
| Registry (o : op)
| Attempt
| Received (r : result (option bytes) SqlxError)
| Quiet.

Inductive hub_step : Hub -> Label -> Hub -> Prop :=
(** Any other task: registrations, their drops, and the wakes of this store's commits. *)
| hub_registry n gs l c t o n' gs' :
    reg_step (n, gs) o (n', gs') -> hub_step (MkHub n gs l c t) (Registry o) (MkHub n' gs' l c t)
| hub_time n gs l c t t' : t <= t' -> hub_step (MkHub n gs l c t) Quiet (MkHub n gs l c t')
| hub_close n gs l c t : hub_step (MkHub n gs l c t) Quiet (MkHub n gs l true t)
(** The task is aborted when the store is dropped. *)
| hub_drop n gs l c t : hub_step (MkHub n gs l c t) Quiet (MkHub n gs Stopped c t)
| hub_connect n gs c t (r : result () SqlxError) :
    hub_step (MkHub n gs Connecting c t) Attempt (MkHub n gs (if is_ok r then Subscribing else ListenFailed) c t)
| hub_listen n gs c t (r : result () SqlxError) :
    hub_step (MkHub n gs Subscribing c t) Quiet (MkHub n gs (if is_ok r then Receiving else ListenFailed) c t)
| hub_recv n gs c t r :
    hub_step (MkHub n gs Receiving c t) (Received r) (MkHub (listen_recv n r).1 gs (listen_recv n r).2 c t)
| hub_wake n gs c t : hub_step (MkHub n gs Waking c t) (Registry OpWakeAll) (MkHub (wake_all n) gs Receiving c t)
| hub_failed n gs c t : hub_step (MkHub n gs ListenFailed c t) Quiet (MkHub n gs (listener_retry c t) c t)
| hub_slept n gs c t until : until <= t -> hub_step (MkHub n gs (Sleeping until) c t) Quiet (MkHub n gs Connecting c t)
| hub_closed n gs t until : hub_step (MkHub n gs (Sleeping until) true t) Quiet (MkHub n gs Stopped true t).

Inductive hub_steps : Hub -> list Label -> Hub -> Prop :=
| hub_nil h : hub_steps h [] h
| hub_cons h l h1 ls h2 : hub_step h l h1 -> hub_steps h1 ls h2 -> hub_steps h (l :: ls) h2.

(** ** What a step does to the registry *)

Definition op_of (l : Label) : list op :=
  match l with
  | Registry o => [o]
  | Received (Ok (Some payload)) => match hex_decode payload with Some stream => [OpWakeStream stream] | None => [] end
  | _ => []
  end.

Lemma reg_one s o s' : reg_step s o s' -> reg_steps s [o] s'.
Proof. intros H. eapply reg_cons; [exact H|apply reg_nil]. Qed.

Lemma reg_app s os s1 os' s2 : reg_steps s os s1 -> reg_steps s1 os' s2 -> reg_steps s (os ++ os') s2.
Proof. induction 1; intros H2; [done|]. eapply reg_cons; [done|by auto]. Qed.

Lemma hub_step_registry h l h' :
  hub_step h l h' -> reg_steps (h_registry h, h_guards h) (op_of l) (h_registry h', h_guards h') /\ h_now h <= h_now h'.
Proof.
  intros []; cbn [op_of h_registry h_guards h_now]; (split; [|lia || done]); try apply reg_nil; try (apply reg_one; done || constructor).
  destruct r as [[payload|]|e]; cbn; try apply reg_nil. destruct (hex_decode payload); cbn; [apply reg_one; constructor|apply reg_nil].
Qed.

Lemma hub_steps_registry h ls h' :
  hub_steps h ls h' -> reg_steps (h_registry h, h_guards h) (ls ≫= op_of) (h_registry h', h_guards h') /\ h_now h <= h_now h'.
Proof.
  induction 1 as [h|h l h1 ls h2 Hs _ [IH Ht]]; [split; [apply reg_nil|lia]|]. apply hub_step_registry in Hs as [Hs Hn].
  rewrite bind_cons. split; [by eapply reg_app|lia].
Qed.

(** The label wakes a registration on [target]. *)
Definition label_wakes (target : option bytes) (l : Label) : bool := existsb (wakes target) (op_of l).

Lemma ops_wake target ls :
  (exists o, o ∈ ls ≫= op_of /\ wakes target o = true) <-> (exists l, l ∈ ls /\ label_wakes target l = true).
Proof.
  unfold label_wakes. setoid_rewrite existsb_exists. setoid_rewrite <- list_elem_of_In. setoid_rewrite list_elem_of_bind. naive_solver.
Qed.

(** A subscriber of the PostgreSQL store never waits longer than the rescan interval,
    and not at all for a commit it hears of.  However registrations, drops, commits, the
    listener, its failures and the clock interleave, the future armed on a registration
    is ready exactly when its target was woken after it was armed (by a commit of this
    store or by a received notification that carries exactly that stream), its channel
    was reaped, or a second has passed since its first poll; so it is ready then
    although the listener has died. *)
Theorem pg_wait_ready_iff now target ls0 h0 n1 reg ls1 h2 ls2 h3 ls3 h4 :
  hub_steps (assemble now) ls0 h0 -> pg_register (h_registry h0) target = (n1, Ok reg) ->
  hub_steps (MkHub n1 (match target with Some key => key :: h_guards h0 | None => h_guards h0 end) (h_listener h0) (h_closed h0) (h_now h0)) ls1 h2 ->
  hub_steps h2 ls2 h3 -> hub_steps h3 ls3 h4 ->
  let polled := pg_poll (h_registry h3) (h_now h3) (pg_arm (h_registry h2) reg) in
  (pg_poll (h_registry h4) (h_now h4) polled.2).1 = true <->
  (exists l, l ∈ ls2 ++ ls3 /\ label_wakes target l = true) \/ heap (h_registry h4) !! reg_chan (pr_inner reg) = None \/
  h_now h3 + RESCAN_INTERVAL <= h_now h4.
Proof.
  intros [H0 _]%hub_steps_registry Hreg [H1 _]%hub_steps_registry [H2 _]%hub_steps_registry [H3 _]%hub_steps_registry polled.
  unfold pg_register in Hreg. destruct (register (h_registry h0) target) as [n [r|]] eqn:Hr; cbn in Hreg; simplify_eq/=.
  apply reg_inv_steps in H0; [|apply reg_inv_new]. destruct (register_tracks _ _ _ _ _ H0 Hr) as [Hinv1 Ht1].
  assert (Hready := armed_ready target r _ _ _ _ _ (reg_inv_steps _ _ _ Hinv1 H1) (tracks_run _ _ _ _ _ Hinv1 H1 Ht1) (reg_app _ _ _ _ _ H2 H3)).
  rewrite <- bind_app, ops_wake in Hready. cbn. rewrite orb_true_iff, Z.leb_le, Hready. tauto.
Qed.

(** The payload another store publishes wakes its stream, and no other. *)
Lemma hint_wakes stream target : label_wakes target (Received (Ok (Some (hex_encode stream)))) = bool_decide (target = Some stream).
Proof.
  unfold label_wakes. cbn [op_of]. destruct (hex_roundtrip stream) as [-> _]. cbn. rewrite orb_false_r.
  destruct target as [key|]; [|done]. apply bool_decide_ext. naive_solver.
Qed.

(** ** The pace of the listener *)

Definition is_attempt (l : Label) : bool := match l with Attempt => true | _ => false end.

(** The earliest next attempt. *)
Definition next_attempt (h : Hub) : Z :=
  match h_listener h with
  | Connecting => h_now h
  | Sleeping until => Z.max (h_now h) until
  | _ => h_now h + RETRY_INTERVAL
  end.

Definition sleeps_briefly (h : Hub) : Prop := match h_listener h with Sleeping until => until <= h_now h + RETRY_INTERVAL | _ => True end.

Lemma attempt_step h l h' :
  sleeps_briefly h -> hub_step h l h' -> sleeps_briefly h' /\ next_attempt h + (if is_attempt l then RETRY_INTERVAL else 0) <= next_attempt h'.
Proof.
  intros Hb Hs. unfold sleeps_briefly, next_attempt, RETRY_INTERVAL in *.
  destruct Hs as [n gs l c t o n' gs' _|n gs l c t t' Ht|n gs l c t|n gs l c t|n gs c t r|n gs c t r|n gs c t r|n gs c t|n gs c t|n gs c t u Hu|n gs t u];
    cbn [h_listener h_now is_attempt] in *; try (destruct l; lia).
  - destruct r; cbn; lia.
  - destruct r; cbn; lia.
  - destruct r as [[payload|]|e]; cbn; [|lia..]. destruct (hex_decode payload); cbn; lia.
  - lia.
  - unfold listener_retry, RETRY_INTERVAL. destruct c; lia.
  - lia.
  - lia.
Qed.

Lemma attempts_step h ls h' :
  hub_steps h ls h' -> sleeps_briefly h -> sleeps_briefly h' /\ next_attempt h + RETRY_INTERVAL * len (filter is_attempt ls) <= next_attempt h'.
Proof.
  induction 1 as [h|h l h1 ls h2 Hs _ IH]; intros Hb; [split; [done|]; change (filter is_attempt []) with (@nil Label); rewrite (len_nil (A:=Label)); lia|].
  destruct (attempt_step _ _ _ Hb Hs) as [Hb1 H1]. destruct (IH Hb1) as [Hb2 H2]. split; [done|].
  rewrite filter_cons. destruct (is_attempt l); cbn [Is_true decide]; [rewrite decide_True, len_cons by exact I|rewrite decide_False by (by intros [])]; lia.
Qed.

(** The listener of a store tries to connect at most once a second, however often its
    connections fail, and at once only after it was started. *)
Theorem pg_listener_paced now ls h :
  hub_steps (assemble now) ls h -> RETRY_INTERVAL * (len (filter is_attempt ls) - 1) <= h_now h - now.
Proof.
  intros Hs. destruct (attempts_step _ _ _ Hs ltac:(done)) as [Hb H]. unfold next_attempt, sleeps_briefly, RETRY_INTERVAL in *. cbn in H.
  destruct (h_listener h); lia.
Qed.

(** A listener that is still there after its pool was closed stops instead of trying
    again. *)
Lemma closed_listener_stops h h' l :
  h_closed h = true -> hub_step h l h' -> h_closed h' = true /\
  (h_listener h = ListenFailed -> h_listener h' = ListenFailed \/ h_listener h' = Stopped).
Proof. intros Hc Hs. destruct Hs; cbn in *; subst; (split; [done|]); intros Hl; simplify_eq; cbn; auto. Qed.

End pgwake.

(** ** Witness: a second store's commit, and a lost one *)

#[local] Existing Instance target64.
#[local] Existing Instance counter_watch.

Definition hub_registered : Hub := MkHub (register notifiers_new (Some stream_a)).1 [stream_a] Connecting false 0.
Definition hub_receiving (t : Z) : Hub := MkHub (h_registry hub_registered) [stream_a] Receiving false t.
Definition sample_registration : PgRegistration := MkPgRegistration (MkWakeReg 1 O (Some (MkGuard stream_a))).

Lemma pg_wait_ready_iff_witness :
  let polled := pg_poll (h_registry hub_registered) 0 (pg_arm (h_registry hub_registered) sample_registration) in
  polled.1 = false /\
  (pg_poll (listen_recv (h_registry hub_registered) (Ok (Some (hex_encode stream_a)))).1 5 polled.2).1 = true.
Proof.
  intros polled. split; [reflexivity|].
  apply (pg_wait_ready_iff 0 (Some stream_a) [] (assemble 0) (h_registry hub_registered) sample_registration [] hub_registered [] hub_registered
    [Attempt; Quiet; Quiet; Received (Ok (Some (hex_encode stream_a)))]
    (MkHub (listen_recv (h_registry hub_registered) (Ok (Some (hex_encode stream_a)))).1 [stream_a] Waking false 5)).
  - apply hub_nil.
  - reflexivity.
  - apply hub_nil.
  - apply hub_nil.
  - eapply hub_cons; [apply (hub_connect _ _ _ _ (Ok ()))|]. eapply hub_cons; [apply (hub_listen _ _ _ _ (Ok ()))|].
    eapply hub_cons; [apply (hub_time _ _ _ _ _ 5); lia|]. eapply hub_cons; [apply (hub_recv _ _ _ _ (Ok (Some (hex_encode stream_a))))|apply hub_nil].
  - left. exists (Received (Ok (Some (hex_encode stream_a)))). split; [set_solver|reflexivity].
Defined.

Lemma pg_listener_paced_witness : RETRY_INTERVAL * (len (filter is_attempt [Attempt; Quiet; Quiet; Quiet; Attempt]) - 1) <= 1000 - 0.
Proof.
  apply (pg_listener_paced 0 _ (MkHub notifiers_new [] Subscribing false 1000)).
  eapply hub_cons; [apply (hub_connect _ _ _ _ (Err RowNotFound))|]. eapply hub_cons; [apply hub_failed|].
  eapply hub_cons; [apply (hub_time _ _ _ _ _ 1000); lia|]. eapply hub_cons; [apply hub_slept; reflexivity|].
  eapply hub_cons; [apply (hub_connect _ _ _ _ (Ok ()))|apply hub_nil].
Defined.
