(* ===== verification/PgAtomic.v ===== *)
(** * Atomic appends of the PostgreSQL store (adapters/postgres/src/store/atomic.rs)

    [atomic_append_many] reads every head before its first write, so that its
    transaction is younger than everything it continues, and writes all runs in one
    transaction: all of them are appended by one COMMIT, or none is. *)

From Stdlib Require Import Sorted.
From S2P Require Import Prelude Utf8 ErrorId Version Value Wire Envelope RawStore Import InMemory Pg PgDb PgInv PgStore PgAppend PgScan.

Section atomic.
Context {T : Target} {AS : ArrayString}.

(** ** The code *)

Definition prepare (index : Z) (write : PlannedAppend) : prog (result (option Z) (AtomicAppendError PostgresError)) :=
  let*? head := lift AtomicStore (read_head (target write)) in
  let*? actual := ret (map_err AtomicStore (pg_head_version head (target write))) in
  ret (if negb (bool_decide (actual = planned_expected write)) then Err (AtomicConflict index actual) else Ok (fst <$> head)).

(** The loop over the tail. *)
Fixpoint prepare_rest (index : Z) (writes : list PlannedAppend)
  : prog (result (list (Z * PlannedAppend * option Z)) (AtomicAppendError PostgresError)) :=
  match writes with
  | [] => ret (Ok [])
  | write :: writes =>
      let*? key := prepare index write in
      let*? prepared := prepare_rest (index + 1) writes in
      ret (Ok ((index, write, key) :: prepared))
  end.

Definition atomic_insert (write : PlannedAppend) (key : option Z) : prog (result (Z * Z) PostgresError) :=
  let*? number := match key with
                  | Some number => ret (Ok number)
                  | None => create_key (StreamKey.as_bytes (target write))
                  end in
  insert_run (target write) number (batch write).

Fixpoint insert_prepared (assigned : Z * Z) (prepared : list (Z * PlannedAppend * option Z))
  : prog (result (Z * Z) (Z * PlannedAppend * PostgresError)) :=
  match prepared with
  | [] => ret (Ok assigned)
  | (index, write, key) :: prepared =>
      let*? assigned := lift (fun error => (index, write, error)) (atomic_insert write key) in
      insert_prepared assigned prepared
  end.

(** The head a loser of the race observes. *)
Definition observe (write : PlannedAppend) : prog (result (option Version) PostgresError) :=
  let*? _ := sql SAcquire in
  let*? head := read_head (target write) in
  ret (pg_head_version head (target write)).

Definition rejected (index : Z) (write : PlannedAppend) (error : PostgresError) : prog (AtomicAppendError PostgresError) :=
  match error with
  | PostgresError.Sqlx source =>
      if is_stream_conflict source then
        act SRollback (fun rolled_back =>
          match rolled_back with
          | Ok _ =>
              let* observed := observe write in
              ret (match observed with
                   | Ok (Some actual) => AtomicConflict index (Some actual)
                   | _ => AtomicStore error
                   end)
          | Err _ => ret (AtomicStore error)
          end)
      else ret (AtomicStore error)
  | _ => ret (AtomicStore error)
  end.

Fixpoint atomic_sizes (writes : list PlannedAppend) (limits : Limits) : result () PostgresError :=
  match writes with
  | [] => Ok ()
  | write :: writes =>
      let? _ := validate_sizes (target write) (batch write) limits in
      atomic_sizes writes limits
  end.

Fixpoint wake_all (writes : list PlannedAppend) : prog () :=
  match writes with
  | [] => ret ()
  | write :: writes => act (AWake (StreamKey.as_bytes (target write))) (fun _ => wake_all writes)
  end.

(** The hints, until the timer of all of them runs out. *)
Fixpoint publish_hints (writes : list PlannedAppend) : prog () :=
  match writes with
  | [] => ret ()
  | write :: writes =>
      act AElapsed (fun elapsed =>
        match elapsed with
        | Ok true => ret ()
        | _ => let* _ := publish_hint (StreamKey.as_bytes (target write)) in publish_hints writes
        end)
  end.

Definition atomic_append_many (limits : Limits) (history : History) (writes : list PlannedAppend)
  : prog (result (option PgAllPos) (AtomicAppendError PostgresError)) :=
  let*? _ := ret (map_err AtomicInvalidRoute (validate_distinct_targets (target <$> writes))) in
  let*? _ := ret (map_err AtomicInvalidRun (validate_atomic_runs writes)) in
  let*? _ := ret (map_err AtomicStore (atomic_sizes writes limits)) in
  match writes with
  | [] => ret (Ok None)
  | first :: tail =>
      let*? _ := lift AtomicStore (sql SBegin) in
      let*? first_key := prepare 0 first in
      let*? prepared := prepare_rest 1 tail in
      let* staged :=
        let*? assigned := lift (fun error => (0, first, error)) (atomic_insert first first_key) in
        insert_prepared assigned prepared in
      match staged with
      | Err (index, write, error) => prog_map Err (rejected index write error)
      | Ok assigned =>
          let*? _ := lift AtomicStore durability_commit in
          let* _ := wake_all writes in
          let* _ := publish_hints writes in
          ret (Ok (Some (MkPgPos history assigned.1 assigned.2)))
      end
  end.

(** ** Programs that touch no table *)

Fixpoint hints_only {A} (p : prog A) : Prop :=
  match p with
  | ret _ => True
  | act a k => match a with AWake _ | SNotify _ | AElapsed => True | _ => False end /\ forall r, hints_only (k r)
  end.

Lemma hints_bind {A B} (p : prog A) (f : A -> prog B) : hints_only p -> (forall a, hints_only (f a)) -> hints_only (prog_bind p f).
Proof. intros Hp Hf. induction p as [a|a k IH]; cbn in *; [done|]. destruct Hp as [Ha Hk]. split; [done|]. auto. Qed.

Lemma hints_publish stream : hints_only (publish_hint stream).
Proof. unfold publish_hint. by destruct (4000 <=? len stream). Qed.

Lemma hints_wake writes : hints_only (wake_all writes).
Proof. induction writes as [|w writes IH]; [done|]. split; [done|]. by intros _. Qed.

Lemma hints_publish_all writes : hints_only (publish_hints writes).
Proof.
  induction writes as [|w writes IH]; [done|]. split; [done|]. intros [[]|e]; [done|..]; (apply hints_bind; [apply hints_publish|by intros _]).
Qed.

Lemma wp_hints {A} s (p : prog A) v log :
  hints_only p -> calm s v -> wp s p (fun _ v' log' => calm s v' /\ exists ext, log' = log ++ ext /\ quiet_log ext) v log.
Proof.
  intros Hp Hc. eapply wp_mono; [apply (wp_quiet s p (fun _ _ _ => True)); [|done|]|by intros a v' log' (_ & ? & ?)].
  - clear -Hp. induction p as [a|a k IH]; cbn in *; [done|]. destruct Hp as [Ha Hk]. split; [by destruct a|]. auto.
  - clear -Hp. revert v log. induction p as [a|a k IH]; intros v log; cbn in *; [done|]. destruct Hp as [Ha Hk]. intros v1 _ r v2 _. split; [by destruct a|]. auto.
Qed.

(** ** Preparing *)

Definition key_of_write (w : PlannedAppend) : bytes := StreamKey.as_bytes (target w).
Definition rows_of_write (w : PlannedAppend) : list PendingEnvelope := PendingBatch.iter (batch w).
Definition expected_length (w : PlannedAppend) : Z := from_option as_u64 0 (planned_expected w).

(** The stream of a write has the expected length, as far as a transaction that begins
    at [b] is concerned. *)
Definition ready (tx : Tx) (b : Z) (v : View) (w : PlannedAppend) (key : option Z) : Prop :=
  match key with
  | Some n => knows tx b (key_of_write w) n (expected_length w) v
  | None => expected_length w = 0
  end.

Lemma ready_grown tx tx' b b' v v' w key :
  ready tx b v w key -> b <= b' -> (forall k, k ∈ tx_keys tx -> k ∈ tx_keys tx') -> grown v v' -> ready tx' b' v' w key.
Proof.
  destruct key as [n|]; [|done]. cbn. intros Hk Hb Hks (ks & es & H1 & H2). destruct (knows_grows _ _ _ _ _ _ _ _ _ Hk H1 H2) as (Hin & Hh & Hold).
  split_and!; [|lia|lia|intros e He; specialize (Hold e He); lia]. set_solver.
Qed.

(** A conflict names the head that was seen. *)
Definition refuted (writes : list PlannedAppend) (index : Z) (actual : option Version) (log : Log) : Prop :=
  exists w y, writes !! Z.to_nat index = Some w /\ y ∈ log /\ view_inv y.1 /\
    actual = head_version (length_at y.1 (key_of_write w)) /\ actual <> planned_expected w.

(** What an error before the COMMIT says. *)
Definition refused (writes : list PlannedAppend) (e : AtomicAppendError PostgresError) (log : Log) : Prop :=
  match e with
  | AtomicConflict index actual => refuted writes index actual log
  | AtomicInvalidRun _ => ~ Forall (fun w => consecutive (expected_length w + 1) (versions (rows_of_write w))) writes
  | AtomicInvalidRoute _ => ~ NoDup (target <$> writes)
  | AtomicStore e => forall x, e <> PostgresError.CommitUnknown x
  end.

Definition reading_state (s : nat) (v : View) (log : Log) : Prop := calm s v /\ mine s tx_new v /\ traced v log.

Lemma wp_prepare s writes index w v log :
  reading_state s v log -> writes !! Z.to_nat index = Some w ->
  wp s (prepare index w) (fun r v' log' =>
    (calm s v' /\ exists ext, log' = log ++ ext /\ quiet_log ext) /\
    match r with
    | Ok key => reading_state s v' log' /\ grown v v' /\ v_next_xid v <= v_next_xid v' /\ ready tx_new (v_next_xid v') v' w key
    | Err e => refused writes e log'
    end) v log.
Proof.
  intros (Hc & Hm & Ht) Hw. unfold prepare. apply wp_try, wp_lift.
  eapply wp_mono; [apply wp_sql; [done|done|]; apply wp_grown; [apply Hc|done|by apply wp_read_head; [apply Hc|]]|].
  intros [head|e] v1 log1 ((Hhead & Hi1 & Hg & Hx & Ht1) & He & Hc1 & ext & -> & Hq); cbn [map_err]; [|split; [split; [done|by exists ext]|exact (He e eq_refl)]].
  destruct Hhead as (_ & Hm1 & h & Hkn & Hh & Hpg & y & Hy & Hiy & Hly). apply wp_try, wp_ret. rewrite Hpg. cbn [map_err]. apply wp_ret.
  split; [split; [done|by exists ext]|]. case_bool_decide as Hexp; cbn [negb].
  - split; [done|]. split_and!; [done|done|]. assert (expected_length w = h) as Hel by (unfold expected_length; rewrite <- Hexp; by apply head_version_raw).
    destruct head as [[n m]|]; cbn; [by rewrite Hel|]. cbn in Hkn. lia.
  - exists w, y. split_and!; try done. cbn. unfold key_of_write. by rewrite Hly.
Qed.

Definition prepared_ok (b : Z) (v : View) (p : Z * PlannedAppend * option Z) : Prop := ready tx_new b v p.1.2 p.2.

Lemma wp_prepare_rest s writes index tail v log :
  reading_state s v log -> 0 <= index -> (exists front, writes = front ++ tail /\ len front = index) ->
  wp s (prepare_rest index tail) (fun r v' log' =>
    (calm s v' /\ exists ext, log' = log ++ ext /\ quiet_log ext) /\
    match r with
    | Ok prepared => reading_state s v' log' /\ grown v v' /\ v_next_xid v <= v_next_xid v' /\
        Forall (prepared_ok (v_next_xid v') v') prepared /\
        Forall2 (fun w p => p.1.2 = w /\ writes !! Z.to_nat p.1.1 = Some w) tail prepared
    | Err e => refused writes e log'
    end) v log.
Proof.
  revert index v log. induction tail as [|w tail IH]; intros index v log Hs Hidx (front & Hwr & Hlen); cbn [prepare_rest].
  - apply wp_ret. split; [split; [apply Hs|exists []; split; [by rewrite app_nil_r|constructor]]|]. split; [done|]. split_and!; [done|lia|constructor|constructor].
  - assert (writes !! Z.to_nat index = Some w) as Hw by (rewrite Hwr; apply list_lookup_middle; unfold len in Hlen; lia).
    apply wp_try. eapply wp_mono; [by apply (wp_prepare s writes)|]. intros [key|e] v1 log1 [[Hc1 (ext & -> & Hq)] H]; [|by eauto].
    destruct H as (Hs1 & Hg1 & Hx1 & Hready). apply wp_try. eapply wp_mono; [apply (IH (index + 1)); [done|lia|]|].
    { exists (front ++ [w]). rewrite <- app_assoc. split; [done|]. rewrite len_app, len_cons, len_nil. lia. }
    intros [prepared|e] v2 log2 [[Hc2 (ext2 & -> & Hq2)] H]; [apply wp_ret|];
      (split; [split; [done|exists (ext ++ ext2); split; [by rewrite app_assoc|by apply Forall_app]]|]); [|done].
    destruct H as (Hs2 & Hg2 & Hx2 & Hall & Hf2). split; [done|]. split_and!; [by etrans|lia| |by constructor].
    constructor; [|done]. eapply ready_grown; [done|lia|done|done].
Qed.

(** ** Inserting *)

(** The client of the transaction is gone. *)
Definition gone (s : nat) (v : View) : Prop := from_option (fun t => tx_status t = Lost) True (v_open v !! s).

Lemma moves_gone s v v' : rtc (move s) v v' -> gone s v -> gone s v'.
Proof.
  induction 1 as [|x y z Hm _ IH]; [done|]. intros Hg. apply IH. unfold gone in *. destruct Hm as [s' a r Hne Hd _|(s' & t & Ht & H)].
  - by rewrite (documented_other _ _ _ _ _ s Hd).
  - destruct (decide (s' = s)) as [->|Hne].
    + rewrite Ht in Hg. cbn in Hg. rewrite Hg in H. subst y. cbn. by rewrite lookup_delete_eq.
    + destruct (tx_status t); [| | |destruct H]; subst y; cbn; by rewrite ?lookup_insert_ne, ?lookup_delete_ne.
Qed.

Lemma wp_insert_run_gone s id n b v log :
  view_inv v -> gone s v ->
  wp s (insert_run id n b) (fun r _ _ => exists err, r = Err (PostgresError.Sqlx err) /\ is_stream_conflict err = false) v log.
Proof.
  intros Hi Hg. unfold insert_run, insert_one. apply wp_try, wp_act; [done|]. intros v1 Hi1 Hr r v2 Hd. pose proof (moves_gone _ _ _ Hr Hg) as Hg1.
  unfold gone in Hg1. destruct r as [[q x]|err]; cbn in Hd.
  - exfalso. destruct Hd as (t & next & Ho & Ha & _). rewrite Ho in Hg1. cbn in Hg1. congruence.
  - split; [done|]. intros _. apply wp_ret. exists err. split; [done|]. destruct (is_stream_conflict err); [|done].
    destruct Hd as [_ Hd]. destruct (Hd eq_refl) as (t & d & Ho & Ha & _). rewrite Ho in Hg1. cbn in Hg1. congruence.
Qed.

Lemma mine_cases s tx v : mine s tx v -> v_open v !! s = Some tx \/ gone s v.
Proof. unfold gone. intros [H|[H|H]]; rewrite H; cbn; auto. Qed.

Lemma NoDup_fst_inj {A B} (l : list (A * B)) a b b' : NoDup l.*1 -> (a, b) ∈ l -> (a, b') ∈ l -> b = b'.
Proof.
  intros Hnd H1 H2. apply list_elem_of_lookup in H1 as [i Hi], H2 as [j Hj].
  assert (i = j) as ->; [|congruence]. eapply (NoDup_lookup (l.*1)); [done|rewrite list_lookup_fmap, Hi; done|rewrite list_lookup_fmap, Hj; done].
Qed.

(** The events a transaction has written belong to other keys. *)
Definition elsewhere (tx : Tx) (v : View) (key : bytes) : Prop :=
  forall e, e ∈ tx_events tx -> exists key', (e_stream e, key') ∈ v_keys v ++ tx_keys tx /\ key' <> key.

Lemma elsewhere_empty s tx v n key :
  view_inv v -> v_open v !! s = Some tx -> live tx -> elsewhere tx v key -> (n, key) ∈ v_keys v ++ tx_keys tx -> of_stream n (tx_events tx) = [].
Proof.
  intros Hi Ho Hl He Hn. destruct (of_stream n (tx_events tx)) as [|e l] eqn:Hf; [done|exfalso].
  assert (e ∈ of_stream n (tx_events tx)) as [Hst Hin]%elem_of_stream by (rewrite Hf; left). destruct (He e Hin) as (key' & Hk & Hne). rewrite Hst in Hk.
  apply Hne. eapply (NoDup_fst_inj (v_keys v ++ tx_keys tx)); [|done|done]. by apply (uq_own _ _ _ (vi_numbers v Hi) s), owned_live.
Qed.

(** What one write leaves. *)
Definition insert_post (s : nat) (tx : Tx) (b : Z) (w : PlannedAppend) (r : result (Z * Z) PostgresError) (v' : View) (log' : Log) : Prop :=
  match r with
  | Ok (x, q) => exists tx' n es, doing s tx' b v' /\ (n, key_of_write w) ∈ v_keys v' ++ tx_keys tx' /\ tx_events tx' = tx_events tx ++ es /\
      Forall2 (written n x) (rows_of_write w) es /\ q = from_option e_seq 0 (last es) /\ (forall k, k ∈ tx_keys tx -> k ∈ tx_keys tx') /\
      tx_xid tx' = Some x /\ from_option (eq x) True (tx_xid tx)
  | Err e => (forall err, e <> PostgresError.CommitUnknown err) /\
      forall err, e = PostgresError.Sqlx err -> is_stream_conflict err = true ->
        exists y, y ∈ log' /\ view_inv y.1 /\ expected_length w < length_at y.1 (key_of_write w)
  end.

Lemma wp_insert_known s tx b w n v log :
  doing s tx b v -> knows tx b (key_of_write w) n (expected_length w) v -> elsewhere tx v (key_of_write w) ->
  consecutive (expected_length w + 1) (versions (rows_of_write w)) ->
  wp s (insert_run (target w) n (batch w)) (insert_post s tx b w) v log.
Proof.
  intros Hdo Hkn Hel Hcons. destruct (mine_cases _ _ _ (do_mine _ _ _ _ Hdo)) as [Ho|Hg].
  - assert (of_stream n (tx_events tx) = []) as Hes.
    { eapply elsewhere_empty; [apply Hdo|done|left; apply Hdo|done|apply Hkn]. }
    eapply wp_mono; [by apply (wp_insert_run s b (target w) (key_of_write w) n (expected_length w))|].
    intros [[x q]|e] v' log'.
    + intros (es & Hw & Hq & Hsame & Hdo' & Hkn'). exists (tx_run tx x es), n, es. split_and!; try done. apply Hkn'.
    + intros [Hne Hout]. split; [done|]. intros err Herr Hcf. destruct (Hout err Herr Hcf) as (y & Hy & Hiy & Hky & Hlt). exists y.
      split_and!; [done|done|]. unfold length_at. by rewrite (key_number_in y.1 n) by done.
  - eapply wp_mono; [by apply wp_insert_run_gone; [apply Hdo|]|]. intros r v' log' (err & -> & Hcf). split; [done|]. intros err' [= <-]. congruence.
Qed.

Lemma elsewhere_grown tx tx' v v' key :
  elsewhere tx v key -> tx_events tx' = tx_events tx -> (forall k, k ∈ tx_keys tx -> k ∈ tx_keys tx') -> grown v v' -> elsewhere tx' v' key.
Proof. intros He Hev Hks Hg e. rewrite Hev. intros Hin. destruct (He e Hin) as (k & Hk & Hne). exists k. split; [|done]. apply elem_of_app in Hk as [Hk|Hk]; apply elem_of_app; [left; by eapply grown_keys|right; auto]. Qed.

Lemma wp_atomic_insert s tx b w key v log :
  doing s tx b v -> traced v log -> ready tx b v w key -> elsewhere tx v (key_of_write w) ->
  consecutive (expected_length w + 1) (versions (rows_of_write w)) ->
  wp s (atomic_insert w key) (insert_post s tx b w) v log.
Proof.
  intros Hdo Ht Hr Hel Hcons. unfold atomic_insert. apply wp_try. destruct key as [n|]; [apply wp_ret; by apply wp_insert_known|].
  eapply wp_mono; [apply wp_grown; [apply Hdo|done|by apply wp_create_key]|]. intros [n|e] v1 log1 (H & Hi1 & Hg & _).
  - destruct H as (tx' & Hdo' & Hev & Hks & Hx & Hin & _). cbn in Hr. eapply wp_mono; [apply (wp_insert_known s tx' b w n); [done| | |done]|].
    + split_and!; [done|lia|rewrite Hr; apply len_nonneg|]. rewrite Hr. by intros e ?%elem_of_nil.
    + by eapply elsewhere_grown.
    + intros [[x q]|e] v' log'; [|done]. intros (tx2 & n' & es & Hdo2 & Hin2 & Hev2 & Hw & Hq & Hks2 & Hx2 & Hsame).
      exists tx2, n', es. split_and!; try done; [by rewrite Hev2, Hev|auto|]. destruct (tx_xid tx) as [y|] eqn:Hy; cbn; [|done].
      rewrite (Hx y eq_refl) in Hsame. done.
  - destruct H as (err & -> & Hcf). split; [done|]. intros err' [= <-]. congruence.
Qed.

(** The runs written so far: the write, its stream and its events. *)
Definition placed (x : Z) (tx : Tx) (v : View) (w : PlannedAppend) (run : Z * list Event) : Prop :=
  (run.1, key_of_write w) ∈ v_keys v ++ tx_keys tx /\ Forall2 (written run.1 x) (rows_of_write w) run.2.

Record staging (s : nat) (tx : Tx) (b x q : Z) (writes : list PlannedAppend) (runs : list (Z * list Event)) (v : View) : Prop := MkStaging {
  sg_doing : doing s tx b v;
  sg_events : tx_events tx = mjoin runs.*2;
  sg_placed : Forall2 (placed x tx v) writes runs;
  sg_xid : from_option (eq x) True (tx_xid tx);
  sg_seq : writes <> [] -> q = from_option e_seq 0 (last (mjoin runs.*2));
}.

Lemma placed_grown x tx tx' v v' w run :
  placed x tx v w run -> (forall k, k ∈ tx_keys tx -> k ∈ tx_keys tx') -> grown v v' -> placed x tx' v' w run.
Proof. intros [Hk Hw] Hks Hg. split; [|done]. apply elem_of_app in Hk as [Hk|Hk]; apply elem_of_app; [left; by eapply grown_keys|right; auto]. Qed.

Lemma written_stream n x rows es e : Forall2 (written n x) rows es -> e ∈ es -> e_stream e = n.
Proof. intros Hw. induction Hw as [|row d rows es (_ & Hst & _) _ IH]; [by intros ?%elem_of_nil|]. intros [->|?]%elem_of_cons; auto. Qed.

Lemma staging_elsewhere s tx b x q writes runs v w :
  staging s tx b x q writes runs v -> target w ∉ (target <$> writes) -> elsewhere tx v (key_of_write w).
Proof.
  intros [_ Hev Hp _ _] Hw e. rewrite Hev. intros (es & Hin & (run & -> & Hrun)%list_elem_of_fmap)%list_elem_of_join.
  apply list_elem_of_lookup in Hrun as [i Hi]. destruct (Forall2_lookup_r _ _ _ _ _ Hp Hi) as (w' & Hw' & Hk & Hwr).
  exists (key_of_write w'). rewrite (written_stream _ _ _ _ _ Hwr Hin). split; [done|]. unfold key_of_write, StreamKey.as_bytes. intros Heq.
  apply Hw. apply list_elem_of_fmap. exists w'. split; [by destruct (target w), (target w'); cbn in *; subst|]. by eapply list_elem_of_lookup_2.
Qed.

Lemma staging_snoc s tx b x q writes runs v w x' q' v' log' :
  staging s tx b x q writes runs v -> (writes <> [] -> tx_xid tx = Some x) -> rows_of_write w <> [] -> grown v v' ->
  insert_post s tx b w (Ok (x', q')) v' log' ->
  exists tx' run, staging s tx' b x' q' (writes ++ [w]) (runs ++ [run]) v' /\ tx_xid tx' = Some x' /\ (forall k, k ∈ tx_keys tx -> k ∈ tx_keys tx').
Proof.
  intros [Hdo Hev Hp Hx Hq] Hxid Hrows Hg (tx' & n & es & Hdo' & Hn & Hev' & Hw & Hq' & Hks & Hx' & Hsame). exists tx', (n, es). split_and!; [|done|done].
  split; [done| | |by rewrite Hx'|].
  - rewrite fmap_app, join_app, Hev', Hev. cbn. by rewrite app_nil_r.
  - apply Forall2_app; [|by repeat constructor]. destruct (decide (writes = [])) as [->|Hne]; [apply Forall2_nil_inv_l in Hp as ->; constructor|].
    rewrite (Hxid Hne) in Hsame. cbn in Hsame. subst x'. eapply Forall2_impl; [exact Hp|]. intros w' run Hpl. by eapply placed_grown.
  - intros _. rewrite Hq', fmap_app, join_app. cbn. rewrite app_nil_r. destruct Hw as [|row e rows es Hr Hw]; [done|].
    rewrite last_app. destruct (last (e :: es)) eqn:Hl; [done|]. by apply last_None in Hl.
Qed.

Definition staged_post (s : nat) (b : Z) (writes : list PlannedAppend) (r : result (Z * Z) (Z * PlannedAppend * PostgresError)) (v' : View) (log' : Log) : Prop :=
  match r with
  | Ok (x, q) => exists tx runs, staging s tx b x q writes runs v' /\ tx_xid tx = Some x
  | Err (index, w, e) => writes !! Z.to_nat index = Some w /\ insert_post s tx_new b w (Err e) v' log'
  end.

Lemma wp_insert_prepared s b all prepared done_ x q tx runs v log :
  staging s tx b x q done_ runs v -> tx_xid tx = Some x -> traced v log ->
  Forall (fun p => ready tx b v p.1.2 p.2 /\ all !! Z.to_nat p.1.1 = Some p.1.2) prepared -> all = done_ ++ ((fun p => p.1.2) <$> prepared) ->
  NoDup (target <$> all) -> Forall (fun w => rows_of_write w <> [] /\ consecutive (expected_length w + 1) (versions (rows_of_write w))) all ->
  wp s (insert_prepared (x, q) prepared) (staged_post s b all) v log.
Proof.
  revert done_ x q tx runs v log. induction prepared as [|[[index w] key] prepared IH]; intros done_ x q tx runs v log Hst Hx Ht Hp Hall Hnd Hcons; cbn [insert_prepared].
  - apply wp_ret. rewrite app_nil_r in Hall. subst all. by exists tx, runs.
  - apply Forall_cons in Hp as [[Hr Hidx] Hp]. cbn in Hr, Hidx. apply wp_try, wp_lift. cbn [fmap list_fmap fst snd] in Hall.
    assert (target w ∉ (target <$> done_)) as Hni.
    { rewrite Hall, fmap_app in Hnd. apply NoDup_app in Hnd as (_ & Hdis & _). intros H. apply (Hdis _ H). left. }
    assert (w ∈ all) as Hwin by (rewrite Hall; set_solver). rewrite Forall_forall in Hcons. destruct (Hcons w Hwin) as [Hrows Hcw].
    eapply wp_mono; [apply wp_grown; [apply Hst|done|eapply wp_atomic_insert; [apply Hst|done|exact Hr|by eapply staging_elsewhere|exact Hcw]]|].
    intros [[x' q']|e] v' log' (Hpost & Hi' & Hg & _ & Ht'); cbn [map_err]; [|done].
    destruct (staging_snoc _ _ _ _ _ _ _ _ _ _ _ _ _ Hst ltac:(done) Hrows Hg Hpost) as (tx' & run & Hst' & Hx' & Hks).
    eapply (IH (done_ ++ [w])); [exact Hst'|done|done| |by rewrite <- app_assoc|done|by apply Forall_forall].
    eapply Forall_impl; [exact Hp|]. intros p [Hpr Hpi]. split; [|done]. eapply ready_grown; [exact Hpr|lia|done|done].
Qed.

(** All runs, from the first write on. *)
Lemma wp_atomic_stage s b first key tail prepared v log :
  let writes := first :: tail in
  staging s tx_new b 0 0 [] [] v -> traced v log -> ready tx_new b v first key -> Forall (prepared_ok b v) prepared ->
  Forall2 (fun w p => p.1.2 = w /\ writes !! Z.to_nat p.1.1 = Some w) tail prepared -> NoDup (target <$> writes) ->
  Forall (fun w => rows_of_write w <> [] /\ consecutive (expected_length w + 1) (versions (rows_of_write w))) writes ->
  wp s (let*? assigned := lift (fun error => (0, first, error)) (atomic_insert first key) in insert_prepared assigned prepared) (staged_post s b writes) v log.
Proof.
  intros writes Hst Ht Hr Hall Hf2 Hnd Hcons. destruct (Forall_cons_1 _ _ _ Hcons) as [[Hrows Hc] _]. apply wp_try, wp_lift.
  eapply wp_mono; [apply wp_grown; [apply Hst|exact Ht|]; eapply wp_atomic_insert; [apply Hst|exact Ht|exact Hr| |exact Hc]|].
  { by intros e ?%elem_of_nil. }
  intros [[x q]|e] v' log' (Hpost & Hi' & Hg & _ & Ht'); cbn [map_err]; [|done].
  destruct (staging_snoc _ _ _ _ _ _ _ _ _ _ _ _ _ Hst ltac:(done) Hrows Hg Hpost) as (tx' & run & Hst' & Hx' & Hks).
  assert ((fun p : Z * PlannedAppend * option Z => p.1.2) <$> prepared = tail) as Htail.
  { clear -Hf2. induction Hf2 as [|w p ? ? [Hw _] _ IH]; [done|]. cbn. by rewrite Hw, IH. }
  eapply (wp_insert_prepared s b writes prepared ([] ++ [first])); [exact Hst'|done|done| |by cbn; rewrite Htail|done|done].
  apply Forall_lookup. intros i p Hp. destruct (Forall2_lookup_r _ _ _ _ _ Hf2 Hp) as (w & _ & <- & Hidx). split; [|done].
  eapply ready_grown; [by eapply Forall_lookup_1 in Hall|lia|done|done].
Qed.

Lemma quiet_atomic_insert w key : quiet_prog (atomic_insert w key).
Proof. unfold atomic_insert. apply quiet_try; [destruct key; [done|apply quiet_create_key]|]. intros n. apply (quiet_insert_rest _ _ (PendingBatch.iter (batch w)) (0, 0)). Qed.

Lemma quiet_insert_prepared prepared assigned : quiet_prog (insert_prepared assigned prepared).
Proof.
  revert assigned. induction prepared as [|[[index w] key] prepared IH]; intros assigned; cbn [insert_prepared]; [done|].
  apply quiet_try; [apply quiet_lift, quiet_atomic_insert|intros; apply IH].
Qed.

(** ** Committing *)

(** From [v] to [v'] every write of the set was appended to its stream, which had the
    expected length; the events are one transaction's, the last of them at [pos]. *)
Definition all_appended (writes : list PlannedAppend) (pos : Z * Z) (v v' : View) : Prop :=
  exists runs, v_events v' = v_events v ++ mjoin runs.*2 /\ pos.2 = from_option e_seq 0 (last (mjoin runs.*2)) /\
    Forall2 (fun w run => (run.1, key_of_write w) ∈ v_keys v' /\ len (stream_at v run.1) = expected_length w /\
               Forall2 (written run.1 pos.1) (rows_of_write w) run.2) writes runs.

Lemma of_stream_runs x (writes : list PlannedAppend) (runs : list (Z * list Event)) keys w run :
  Forall2 (fun w run => (run.1, key_of_write w) ∈ keys /\ Forall2 (written run.1 x) (rows_of_write w) run.2) writes runs ->
  NoDup keys.*1 -> NoDup (target <$> writes) -> (w, run) ∈ zip writes runs -> of_stream run.1 (mjoin runs.*2) = run.2.
Proof.
  intros Hf Hnd. revert w run. induction Hf as [|w' run' writes runs [Hk Hw] Hf IH]; [by intros w run _ ?%elem_of_nil|].
  cbn [fmap list_fmap zip_with]. intros w run [Hni Hndt]%NoDup_cons Hin. fold ((snd : Z * list Event -> _) <$> runs).
  change (mjoin (run'.2 :: runs.*2)) with (run'.2 ++ mjoin runs.*2). rewrite of_stream_app.
  assert (forall w run, (w, run) ∈ zip writes runs -> target w <> target w' /\ (run.1, key_of_write w) ∈ keys /\ Forall2 (written run.1 x) (rows_of_write w) run.2) as Hother.
  { intros w2 run2 H2. apply list_elem_of_lookup in H2 as [i Hi]. rewrite lookup_zip_with in Hi.
    destruct (writes !! i) as [w3|] eqn:Hw3; [|done]. destruct (runs !! i) as [run3|] eqn:Hr3; [|done]. cbn in Hi. injection Hi as <- <-.
    split; [|by eapply (Forall2_lookup_lr _ _ _ _ _ _ Hf)]. intros Heq. apply Hni. rewrite <- Heq. apply list_elem_of_fmap_2. by eapply list_elem_of_lookup_2. }
  assert (forall w1 w2 n, target w1 <> target w2 -> (n, key_of_write w1) ∈ keys -> (n, key_of_write w2) ∈ keys -> False) as Hinj.
  { intros w1 w2 n Hne H1 H2. apply Hne. pose proof (NoDup_fst_inj _ _ _ _ Hnd H1 H2) as Heq. unfold key_of_write, StreamKey.as_bytes in Heq.
    by destruct (target w1), (target w2); cbn in Heq; subst. }
  assert (forall n es rows, Forall2 (written n x) rows es -> of_stream n es = es) as Hsame.
  { intros n es rows. induction 1 as [|row e rows' es' (_ & Hst & _) _ IHw]; [done|]. unfold of_stream in *. by rewrite filter_cons_True, IHw. }
  assert (forall n m es rows, n <> m -> Forall2 (written m x) rows es -> of_stream n es = []) as Hdiff.
  { intros n m es rows Hne. induction 1 as [|row e rows' es' (_ & Hst & _) _ IHw]; [done|]. unfold of_stream in *. rewrite filter_cons_False; [done|congruence]. }
  apply elem_of_cons in Hin as [Heq|Hin].
  - injection Heq as -> ->. rewrite (Hsame _ _ _ Hw). replace (of_stream run'.1 (mjoin runs.*2)) with (@nil Event); [by rewrite app_nil_r|]. symmetry.
    destruct (of_stream run'.1 (mjoin runs.*2)) as [|e l] eqn:He; [done|exfalso].
    assert (e ∈ of_stream run'.1 (mjoin runs.*2)) as [Hst Hev]%elem_of_stream by (rewrite He; left).
    apply list_elem_of_join in Hev as (es & Hes & (run & -> & Hrun)%list_elem_of_fmap). apply list_elem_of_lookup in Hrun as [i Hi].
    destruct (Forall2_lookup_r _ _ _ _ _ Hf Hi) as (w2 & Hw2 & Hk2 & Hwr2). pose proof (written_stream _ _ _ _ _ Hwr2 Hes) as Hst2.
    assert ((w2, run) ∈ zip writes runs) as Hz by (apply (list_elem_of_lookup_2 _ i); rewrite lookup_zip_with, Hw2, Hi; done).
    destruct (Hother _ _ Hz) as (Hne & _). rewrite <- Hst, Hst2 in Hk. by eapply Hinj.
  - destruct (Hother _ _ Hin) as (Hne & Hk2 & Hw2). rewrite (IH w run Hndt Hin). rewrite (Hdiff run.1 run'.1 _ _) with (2 := Hw); [done|].
    intros Heq. rewrite Heq in Hk2. by eapply Hinj.
Qed.

Lemma commit_appends_all s tx tx0 b x q writes runs v0 v :
  staging s tx0 b x q writes runs v0 -> writes <> [] -> NoDup (target <$> writes) ->
  Forall (fun w => rows_of_write w <> [] /\ consecutive (expected_length w + 1) (versions (rows_of_write w))) writes ->
  grown v0 v -> view_inv v -> v_open v !! s = Some tx -> live tx -> tx_keys tx = tx_keys tx0 -> tx_events tx = tx_events tx0 ->
  all_appended writes (x, q) v (commit_tx v s tx).
Proof.
  intros [Hdo Hev Hp _ Hq] Hne Hnd Hcons Hg Hi Ho Hl Hks Hes. exists runs. split_and!; [by cbn; rewrite Hes, Hev|by rewrite Hq|].
  assert (Forall2 (fun w run => (run.1, key_of_write w) ∈ v_keys v ++ tx_keys tx /\ Forall2 (written run.1 x) (rows_of_write w) run.2) writes runs) as Hf.
  { eapply Forall2_impl; [exact Hp|]. intros w run Hpl. rewrite Hks. by eapply placed_grown. }
  pose proof (uq_own _ _ _ (vi_numbers v Hi) s (tx_keys tx) ltac:(by apply owned_live)) as Hnum.
  apply Forall2_same_length_lookup. split; [by eapply Forall2_length|]. intros i w run Hw Hrun.
  destruct (Forall2_lookup_lr _ _ _ _ _ _ Hf Hw Hrun) as [Hk Hwr]. split_and!; [done| |done].
  assert ((w, run) ∈ zip writes runs) as Hz by (apply (list_elem_of_lookup_2 _ i); rewrite lookup_zip_with, Hw, Hrun; done).
  pose proof (of_stream_runs x writes runs _ w run Hf Hnum Hnd Hz) as Hof.
  rewrite Forall_forall in Hcons. destruct (Hcons w) as [Hrows Hc]; [by eapply list_elem_of_lookup_2|].
  destruct run as [n es]. cbn [fst snd] in *. clear Hz Hrun. revert Hrows Hc Hof. destruct Hwr as [|row e rows es (Hrow & _) Hwr]; [done|]. intros _ Hc Hof.
  destruct (vi_own v Hi s tx n Ho Hl) as [Hnumb _]; [by rewrite Hes, Hev, Hof|]. rewrite Hes, Hev, Hof in Hnumb.
  pose proof (numbered_after _ _ 0 e Hnumb eq_refl) as He. unfold e_version in He. rewrite Hrow in He. destruct Hc as [Hv _]. cbn in He. lia.
Qed.

(** ** The whole operation *)

Definition atomic_post (s : nat) (history : History) (writes : list PlannedAppend)
  (r : result (option PgAllPos) (AtomicAppendError PostgresError)) (v' : View) (log : Log) : Prop :=
  match r with
  | Ok None => writes = [] /\ log = [] /\ calm s v'
  | Ok (Some p) => writes <> [] /\ exists l1 v1 v2 l2, log = l1 ++ (v1, v2) :: l2 /\ quiet_log l1 /\ quiet_log l2 /\ view_inv v1 /\ pg_history p = history /\
      all_appended writes (pg_txid p, pg_seq p) v1 v2
  | Err (AtomicStore (PostgresError.CommitUnknown _)) => exists l1 v1 v2 pos, log = l1 ++ [(v1, v2)] /\ quiet_log l1 /\ view_inv v1 /\
      (quiet v1 v2 /\ calm s v2 \/ all_appended writes pos v1 v2 \/
       quiet v1 v2 /\ forall v3 tx, rtc (move s) v2 v3 -> v_open v3 !! s = Some tx -> all_appended writes pos v3 (commit_tx v3 s tx))
  | Err e => quiet_log log /\ calm s v' /\ refused writes e log
  end.

Lemma atomic_post_err s history writes e v log :
  quiet_log log -> calm s v -> refused writes e log -> atomic_post s history writes (Err e) v log.
Proof. intros Hq Hc Hr. destruct e as [| | |e]; try done. destruct e; try done. by destruct (Hr e). Qed.

Lemma wp_atomic_commit s tx b x q history writes runs v log :
  staging s tx b x q writes runs v -> calm s v -> quiet_log log -> writes <> [] -> NoDup (target <$> writes) ->
  Forall (fun w => rows_of_write w <> [] /\ consecutive (expected_length w + 1) (versions (rows_of_write w))) writes ->
  wp s (let*? _ := lift AtomicStore durability_commit in
        let* _ := wake_all writes in let* _ := publish_hints writes in ret (Ok (Some (MkPgPos history x q))))
    (atomic_post s history writes) v log.
Proof.
  intros Hst Hc Hq Hne Hnd Hcons. pose proof (sg_doing _ _ _ _ _ _ _ _ Hst) as Hdo. apply wp_try, wp_lift. eapply wp_mono; [by apply (wp_durability_commit s tx b (grown v) v log (grown_kept s v))|].
  assert (forall v1 t, grown v v1 -> view_inv v1 -> v_open v1 !! s = Some t -> live t -> tx_keys t = tx_keys tx -> tx_events t = tx_events tx ->
    all_appended writes (x, q) v1 (commit_tx v1 s t)) as Happ by (intros; by eapply commit_appends_all).
  intros [u|e] v' log'.
  - intros (ext & v1 & -> & Hext & Hi1 & Hg & Ho & ->). cbn [map_err]. apply wp_bind.
    eapply wp_mono; [apply wp_hints; [apply hints_wake|]|].
    { apply commit_calm; [done|done|left; apply Hdo]. }
    intros _ v2 log2 (Hc2 & ext2 & -> & Hq2). apply wp_bind. eapply wp_mono; [apply wp_hints; [apply hints_publish_all|done]|].
    intros _ v3 log3 (Hc3 & ext3 & -> & Hq3). apply wp_ret. split; [done|]. exists (log ++ ext), v1, (commit_tx v1 s tx), (ext2 ++ ext3).
    rewrite <- !app_assoc. split_and!; [done|by apply Forall_app|by apply Forall_app|done|done|]. apply Happ; try done. left. apply Hdo.
  - destruct e; cbn [map_err]; try (intros (ext & -> & Hext & Hcalm); apply atomic_post_err; [by apply Forall_app|done|done]).
    intros (ext & v1 & -> & Hext & Hi1 & Hg & Hcase). exists (log ++ ext), v1, v', (x, q).
    rewrite <- app_assoc. split_and!; [done|by apply Forall_app|done|]. destruct Hcase as [->|[Ho [->| ->]]].
    + left. split; [done|by apply drop_calm].
    + right. left. apply Happ; try done. left. apply Hdo.
    + right. right. split; [done|]. intros v3 t Hr Ht.
      assert (view_inv (set_open v1 s (set_status tx InDoubt))) as Hi2 by (apply in_doubt_inv; [done|done|apply Hdo]).
      assert (t = set_status tx InDoubt) as -> by (eapply moves_in_doubt; [| |exact Hr|exact Ht]; [done|cbn; by rewrite lookup_insert_eq]).
      apply Happ; try done; [etrans; [exact Hg|]; exact (moves_grow _ _ _ Hr)|by eapply moves_inv|by right].
Qed.

Lemma length_at_grown v v' key : view_inv v -> view_inv v' -> grown v v' -> length_at v key <= length_at v' key.
Proof.
  intros Hi Hi' (ks & es & Hks & Hes). unfold length_at at 1. destruct (key_number (v_keys v) key) as [n|] eqn:Hn; cbn; [|by apply length_at_bound].
  apply key_number_Some in Hn. unfold length_at. rewrite (key_number_in v' n key) by (done || rewrite Hks; set_solver). cbn.
  unfold stream_at. rewrite Hes, of_stream_app, len_app. pose proof (len_nonneg (of_stream n es)). lia.
Qed.

Lemma quiet_rejected index w e : quiet_prog (rejected index w e).
Proof.
  unfold rejected. destruct e; try done. destruct (is_stream_conflict e); [|done]. split; [done|]. intros [u|err]; [|done].
  apply quiet_bind; [|done]. unfold observe. apply quiet_try; [done|]. intros _. by apply quiet_try.
Qed.

(** The loser of a race reports a head that is not the expected one. *)
Lemma wp_rejected s writes index w e v log :
  calm s v -> traced v log -> writes !! Z.to_nat index = Some w -> (forall err, e <> PostgresError.CommitUnknown err) ->
  (forall err, e = PostgresError.Sqlx err -> is_stream_conflict err = true ->
     exists y, y ∈ log /\ view_inv y.1 /\ expected_length w < length_at y.1 (key_of_write w)) ->
  wp s (rejected index w e) (fun r _ log' => refused writes r log') v log.
Proof.
  intros Hc Ht Hw Hne Hconf. unfold rejected. assert (refused writes (AtomicStore e) log) as Hstore by done.
  destruct e; try (by apply wp_ret). rename e into err. destruct (is_stream_conflict err) eqn:Hcf; [|by apply wp_ret].
  destruct (Hconf err eq_refl Hcf) as (y & Hy & Hiy & Hlt). apply wp_act; [apply Hc|]. intros v1 Hi1 Hr r v2 Hd. split; [done|]. intros Hi2.
  destruct r as [u|err2]; [|by apply wp_ret]. cbn in Hd. apply wp_bind. unfold observe. apply wp_try.
  assert (idle s v2) as Hid2 by (split; [done|subst v2; cbn; by rewrite lookup_delete_eq]).
  assert (grown y.1 v2) as Hg2.
  { etrans; [by eapply (proj1 (Forall_forall _ log) Ht)|]. etrans; [exact (moves_grow _ _ _ Hr)|]. subst v2. exists [], []. by rewrite !app_nil_r. }
  assert (stable (grown y.1)) as Hst by (intros u0 s0 u1 _ Hg Hch; etrans; [exact Hg|exact (change_grows _ _ _ Hch)]).
  apply (wp_reading s SAcquire (grown y.1)); [done|done|done|done|]. intros v3 r v4 _ _ _ _ Hid4 Hg4 _.
  destruct r as [u2|err2]; cbn [sql_err map_err]; [|by apply wp_ret]. apply wp_try.
  apply (wp_reading s (SReadHead (StreamKey.as_bytes (target w))) (grown y.1)); [done|done|done|done|]. intros v5 r v6 Hid5 Hg5 Hsk Hse Hid6 Hg6 Hd6.
  destruct r as [head|err2]; cbn [sql_err map_err]; [|by apply wp_ret]. cbn in Hd6. destruct Hd6 as (_ & -> & ->). apply wp_ret, wp_ret.
  rewrite Hsk, Hse, pg_head_answer by apply Hid5. fold (key_of_write w). set (h := length_at v5 (key_of_write w)).
  assert (expected_length w < h) as Hlt5 by (pose proof (length_at_grown y.1 v5 (key_of_write w) Hiy (proj1 Hid5) Hg5); unfold h; lia).
  destruct (head_version h) as [actual|] eqn:Hh; [|done]. exists w, (v5, v5). split_and!; [done|set_solver|apply Hid5|by rewrite <- Hh|].
  intros Heq. unfold expected_length in Hlt5. rewrite <- Heq, <- Hh in Hlt5.
  rewrite (proj2 (head_version_raw (head_version h) h (length_at_bound v5 (key_of_write w) (proj1 Hid5))) eq_refl) in Hlt5. lia.
Qed.

Lemma validate_run_Err index v envs e : validate_run index (new v) envs = Err e -> ~ consecutive v (versions envs).
Proof.
  revert v. induction envs as [|env envs IH]; intros v; cbn [validate_run]; [done|]. destruct (new v) as [w|] eqn:E; cbn [ok_or result_bind].
  - apply new_Some in E as ->. case_bool_decide as Hv; cbn [negb]; [|intros _ [Hc _]; apply Hv; by apply as_u64_inj].
    rewrite next_new. intros He [_ Hc]. by eapply IH.
  - intros _ [Hc _]. apply new_None in E. pose proof (version_range (pe_version env)). lia.
Qed.

Lemma validate_atomic_runs_Err index ws e :
  validate_atomic_runs_from index ws = Err e -> ~ Forall (fun w => consecutive (expected_length w + 1) (versions (rows_of_write w))) ws.
Proof.
  revert index. induction ws as [|w ws IH]; intros index; cbn [validate_atomic_runs_from]; [done|]. rewrite first_of_run_new.
  destruct (validate_run _ _ _) as [[]|e'] eqn:E; cbn [result_bind].
  - intros He [_ Hf]%Forall_cons. by eapply IH.
  - intros _ [Hc _]%Forall_cons. by eapply validate_run_Err.
Qed.

Lemma atomic_sizes_err writes limits e : atomic_sizes writes limits = Err e -> forall x, e <> PostgresError.CommitUnknown x.
Proof.
  induction writes as [|w writes IH]; [done|]. cbn [atomic_sizes]. destruct (validate_sizes _ _ _) as [[]|e'] eqn:E; cbn [result_bind]; [done|].
  intros [= <-]. by eapply validate_sizes_err.
Qed.

Lemma wp_atomic_append_many s limits history writes v :
  view_inv v -> v_open v !! s = None ->
  wp s (atomic_append_many limits history writes) (atomic_post s history writes) v [].
Proof.
  intros Hi Ho. assert (calm s v) as Hc by (split; [done|by rewrite Ho]). unfold atomic_append_many.
  apply wp_try, wp_ret. destruct (validate_distinct_targets (target <$> writes)) as [[]|e] eqn:Hdis; cbn [map_err].
  2: { apply atomic_post_err; [constructor|done|]. intros Hnd. unfold validate_distinct_targets in Hdis.
    assert (is_ok (validate_distinct_from ∅ 0 (target <$> writes)) = true) as H; [|by rewrite Hdis in H].
    apply validate_distinct_Ok. split; [done|]. by apply Forall_forall. }
  assert (NoDup (target <$> writes)) as Hnd.
  { apply (validate_distinct_Ok ∅ 0). unfold validate_distinct_targets in Hdis. by rewrite Hdis. }
  apply wp_try, wp_ret. destruct (validate_atomic_runs writes) as [[]|e] eqn:Hruns; cbn [map_err].
  2: { apply atomic_post_err; [constructor|done|]. by eapply validate_atomic_runs_Err. }
  assert (Forall (fun w => rows_of_write w <> [] /\ consecutive (expected_length w + 1) (versions (rows_of_write w))) writes) as Hcons.
  { eapply Forall_impl; [apply (validate_atomic_runs_Ok 0); unfold validate_atomic_runs in Hruns; by rewrite Hruns|]. done. }
  apply wp_try, wp_ret. destruct (atomic_sizes writes limits) as [[]|e] eqn:Hsz; cbn [map_err].
  2: { apply atomic_post_err; [constructor|done|]. exact (atomic_sizes_err _ _ _ Hsz). }
  destruct writes as [|first tail]; [by apply wp_ret|]. set (writes := first :: tail) in *.
  apply wp_try, wp_lift. eapply wp_mono; [apply wp_sql; [done|done|]; apply wp_grown; [done|constructor|by apply wp_begin]|].
  intros [u|e] v1 log1 ((Hb & Hi1 & Hg1 & _ & Ht1) & He1 & Hc1 & ext1 & -> & Hq1); cbn [map_err]; [|apply atomic_post_err; [done|done|exact (He1 e eq_refl)]].
  destruct (Hb eq_refl) as [_ Hm1]. assert (reading_state s v1 ([] ++ ext1)) as Hrs by done. clear Ht1.
  apply wp_try. eapply wp_mono; [by apply (wp_prepare s writes 0 first)|].
  intros [key|e] v2 log2 [[Hc2 (ext2 & -> & Hq2)] H]; [|apply atomic_post_err; [by apply Forall_app|done|done]].
  destruct H as (Hrs2 & Hg2 & Hx2 & Hready). apply wp_try. eapply wp_mono; [apply (wp_prepare_rest s writes 1 tail); [done|lia|by exists [first]]|].
  intros [prepared|e] v3 log3 [[Hc3 (ext3 & -> & Hq3)] H]; [|apply atomic_post_err; [apply Forall_app; split; [by apply Forall_app|done]|done|done]].
  destruct H as (Hrs3 & Hg3 & Hx3 & Hall & Hf2).
  assert (quiet_log ((([] ++ ext1) ++ ext2) ++ ext3)) as Hq by (rewrite <- !app_assoc; repeat (apply Forall_app; split; [done|]); done).
  destruct Hrs3 as (_ & Hm3 & Ht3). revert Ht3 Hq. generalize ((([] ++ ext1) ++ ext2) ++ ext3). intros log Ht Hq.
  set (b := v_next_xid v3) in *. assert (staging s tx_new b 0 0 [] [] v3) as Hst0 by (split; [split; [apply Hc3|done|done|unfold b; cbn; lia]|done|constructor|done|done]).
  apply wp_bind. eapply wp_mono; [apply wp_quiet; [|exact Hc3|]|].
  - apply quiet_try; [apply quiet_lift, quiet_atomic_insert|intros; apply quiet_insert_prepared].
  - apply wp_grown; [apply Hc3|exact Ht|]. apply (wp_atomic_stage s b first key tail prepared); try done. eapply ready_grown; [exact Hready|unfold b; lia|done|done].
  - intros [[x q]|[[index w] e]] v4 log4 ((Hpost & Hi4 & Hg4 & _ & Ht4) & Hc4 & ext4 & -> & Hq4).
    + destruct Hpost as (tx & runs & Hst & _). eapply wp_atomic_commit; [exact Hst|done|by apply Forall_app|done|done|done].
    + destruct Hpost as [Hw [Hne Hconf]]. apply wp_bind.
      eapply wp_mono; [apply wp_quiet; [apply quiet_rejected|done|by apply (wp_rejected s writes)]|].
      intros e' v5 log5 (Href & Hc5 & ext5 & -> & Hq5). apply wp_ret, atomic_post_err; [apply Forall_app; split; [by apply Forall_app|done]|done|done].
Qed.

End atomic.
