(* ===== verification/PgSide.v ===== *)
(** * Checkpoints and snapshots of the PostgreSQL store
      (adapters/postgres/src/store/checkpoint.rs, store/snapshot.rs)

    A checkpoint is replaced conditionally: the row is locked, the write is validated
    against it, and nothing can change it before the COMMIT.  A snapshot is replaced
    unconditionally. *)

From Stdlib Require Import String.
From S2P Require Import Prelude Utf8 ErrorId Version Value Wire Envelope RawStore InMemory Checkpoint State WireKey Pg PgDb PgInv PgStore PgAppend PgScan.
Close Scope string_scope.
Open Scope list_scope.

(** The derived order of positions: history, transaction, sequence. *)
Definition pg_pos_leb (p q : PgAllPos) : bool :=
  bool_decide (lex_lt (history_bytes (pg_history p)) (history_bytes (pg_history q)) \/
    pg_history p = pg_history q /\ ~ pos_lt (pg_txid q, pg_seq q) (pg_txid p, pg_seq p)).

#[export] Instance pg_pos_ordered : Ordered PgAllPos.
Proof.
  assert (forall h k : History, history_bytes h = history_bytes k -> h = k) as Hinj by (by intros [] []; cbn; intros ->).
  refine {| pos_leb := pg_pos_leb |}; unfold pg_pos_leb.
  - intros p. apply bool_decide_eq_true. right. split; [done|]. unfold pos_lt. lia.
  - intros p q. rewrite !bool_decide_eq_true. destruct (lex_lt_total (history_bytes (pg_history p)) (history_bytes (pg_history q))) as [?|[Heq%Hinj|?]]; [auto| |auto].
    destruct (pos_lt_total (pg_txid p, pg_seq p) (pg_txid q, pg_seq q)) as [H|[[= H1 H2]|H]].
    + left. right. split; [done|]. intros H2. apply (irreflexivity pos_lt (pg_txid p, pg_seq p)). by etrans.
    + left. right. split; [done|]. rewrite H1, H2. apply (irreflexivity pos_lt).
    + right. right. split; [done|]. intros H2. apply (irreflexivity pos_lt (pg_txid p, pg_seq p)). by etrans.
  - intros p q r. rewrite !bool_decide_eq_true. intros [H1|[H1 H1']] [H2|[H2 H2']].
    + left. by eapply lex_lt_trans.
    + left. by rewrite <- H2.
    + left. by rewrite H1.
    + right. split; [congruence|]. unfold pos_lt in *. cbn in *. lia.
  - intros [h t q] [h' t' q']. rewrite !bool_decide_eq_true. cbn. intros [H1|[H1 H1']] [H2|[H2 H2']]; try (subst; exfalso; by eapply lex_lt_irrefl).
    + exfalso. by eapply lex_lt_asym.
    + subst. unfold pos_lt in *. cbn in *. f_equal; lia.
Defined.

Section side.
Context {T : Target} {AS : ArrayString}.

(** An id: its bytes, and the label of its display. *)
Record IdArg : Type := MkIdArg { id_bytes : bytes; id_label : ErrorId }.

(** ** Checkpoints (checkpoint.rs) *)

Definition Current : Type := Revision * Schema * PgAllPos.

(** [value.parse()] and [try_from], keeping the error. *)
Definition number (label : ErrorId) (max raw : Z) : result Z PostgresError :=
  ok_or (try_from max raw) (PostgresError.CorruptRow label (OfNumber raw)).

Definition meta_validate (meta : CheckpointMeta) (id : IdArg) (history : History) : result Current PostgresError :=
  let? _ := history_check history (ck_history meta) in
  let label := id_label id in
  let? raw := number label u64_max (ck_revision meta) in
  let? revision := ok_or (nz_new raw) (corrupt label (str "zero checkpoint revision")) in
  let? raw := number label u32_max (ck_schema_version meta) in
  let? schema := ok_or (nz_new raw) (corrupt label (str "zero checkpoint schema")) in
  let? txid := number label u64_max (ck_txid meta) in
  let? seq := number label u64_max (ck_global_seq meta) in
  Ok (revision, schema, MkPgPos history txid seq).

Definition checkpoint_row_hydrate (row : CheckpointMeta * Z * option bytes) (id : IdArg) (schema : Schema) (limit : Z) (history : History)
  : result (CheckpointHydrated bytes PgAllPos) PostgresError :=
  let '(meta, size, state) := row in
  let? (revision, stored_schema, position) := meta_validate meta id history in
  if negb (bool_decide (stored_schema = schema)) then Ok (CkStale revision stored_schema)
  else if limit <? size then Err (PostgresError.RowLimit size limit)
  else
    let? state := ok_or state (corrupt (id_label id) (str "matching checkpoint body is absent")) in
    Ok (CkFound revision position state).

Definition checkpoint_lock (key : Z) (id : IdArg) (history : History) : prog (result (option Current) PostgresError) :=
  let*? row := sql (SLockCheckpoint key) in
  ret (transpose ((fun value => meta_validate value id history) <$> row)).

Definition pg_hydrate_checkpoint (limits : Limits) (history : History) (id : IdArg) (schema_version : Schema)
  : prog (result (CheckpointHydrated bytes PgAllPos) PostgresError) :=
  let limit := nz_get (limit_bytes limits) in
  let*? row := sql (SReadCheckpoint (id_bytes id) (nz_get schema_version) limit history) in
  ret (match row with
       | None => Ok CkAbsent
       | Some value => checkpoint_row_hydrate value id schema_version limit history
       end).

(** The columns a commit binds. *)
Definition checkpoint_row (write : CheckpointWrite bytes PgAllPos) (revision : Revision) : CheckpointRow :=
  MkCheckpointRow (MkCheckpointMeta (nz_get revision) (nz_get (cw_schema write)) (pg_txid (cw_position write)) (pg_seq (cw_position write))
    (pg_history (cw_position write))) (cw_state write).

Definition find_key (id : IdArg) : prog (result Z PostgresError) :=
  let*? found := read_key (id_bytes id) in
  match found with
  | Some number => ret (Ok number)
  | None => create_key (id_bytes id)
  end.

Definition pg_commit_checkpoint (limits : Limits) (history : History) (id : IdArg) (write : CheckpointWrite bytes PgAllPos)
  : prog (result Revision (CheckpointError PostgresError)) :=
  let*? _ := ret (map_err CkStore (history_check history (pg_history (cw_position write)))) in
  let*? _ := ret (map_err CkStore (validate_bytes [len (id_bytes id); len (cw_state write); 16] limits)) in
  let*? _ := lift CkStore (sql SBegin) in
  let*? key := lift CkStore (find_key id) in
  let*? current := lift CkStore (checkpoint_lock key id history) in
  let*? revision := ret (map_err CkRejected (next_revision write current)) in
  let*? saved := lift CkStore (match current with
                               | Some _ => sql (SUpdateCheckpoint key (checkpoint_row write revision))
                               | None => sql (SInsertCheckpoint key (checkpoint_row write revision))
                               end) in
  match saved with
  | None =>
      let*? observed := lift CkStore (checkpoint_lock key id history) in
      let*? _ := ret (map_err CkRejected (next_revision write observed)) in
      ret (Err (CkStore (PostgresError.Sqlx RowNotFound)))
  | Some _ =>
      let*? _ := lift CkStore durability_commit in
      ret (Ok revision)
  end.

(** ** Snapshots (snapshot.rs) *)

Definition snapshot_row_hydrate (row : Z * Z * Z * option bytes) (id : IdArg) (schema : Schema) (limit : Z)
  : result (Hydrated bytes Version) PostgresError :=
  let '(schema_version, version, size, state) := row in
  let label := id_label id in
  let? raw := number label u32_max schema_version in
  let? stored_schema := ok_or (nz_new raw) (corrupt label (str "zero snapshot schema")) in
  let? raw := number label u64_max version in
  let? position := ok_or (new raw) (corrupt label (str "zero snapshot version")) in
  if negb (bool_decide (stored_schema = schema)) then Ok (HStale stored_schema)
  else if limit <? size then Err (PostgresError.RowLimit size limit)
  else
    let? state := ok_or state (corrupt label (str "matching snapshot body is absent")) in
    Ok (HFound position state).

Definition pg_hydrate (limits : Limits) (id : IdArg) (schema_version : Schema) : prog (result (Hydrated bytes Version) PostgresError) :=
  let limit := nz_get (limit_bytes limits) in
  let*? row := sql (SReadSnapshot (id_bytes id) (nz_get schema_version) limit) in
  ret (match row with
       | None => Ok HAbsent
       | Some value => snapshot_row_hydrate value id schema_version limit
       end).

Definition snapshot_row (schema_version : Schema) (position : Version) (state : bytes) : SnapshotRow :=
  MkSnapshotRow (nz_get schema_version) (as_u64 position) state.

Definition pg_snapshot_commit (limits : Limits) (id : IdArg) (schema_version : Schema) (position : Version) (state : bytes)
  : prog (result () PostgresError) :=
  let*? _ := ret (validate_bytes [len (id_bytes id); len state] limits) in
  let*? _ := sql SBegin in
  let*? key := find_key id in
  let*? _ := sql (SUpsertSnapshot key (snapshot_row schema_version position state)) in
  durability_commit.

(** ** Reading *)

Definition checkpoint_at (v : View) (id : bytes) : option CheckpointRow :=
  n ← key_number (v_keys v) id; sd_checkpoints (v_side v) !! n.
Definition snapshot_at (v : View) (id : bytes) : option SnapshotRow :=
  n ← key_number (v_keys v) id; sd_snapshots (v_side v) !! n.

(** What hydration reports of a row: the record if it has the schema asked for. *)
Definition hydrated_checkpoint (row : option CheckpointRow) (id : IdArg) (schema : Schema) (history : History) (h : CheckpointHydrated bytes PgAllPos) : Prop :=
  match row with
  | None => h = CkAbsent
  | Some row => exists revision stored position, meta_validate (ck_meta row) id history = Ok (revision, stored, position) /\
      h = describe (Some (MkRecord revision stored position (ck_state row))) schema
  end.

(** It fails only for a row of another history, an invalid number or a state beyond the
    limit, never for a state that was not transferred. *)
Definition checkpoint_unreadable (row : CheckpointRow) (id : IdArg) (limit : Z) (history : History) (e : PostgresError) : Prop :=
  meta_validate (ck_meta row) id history = Err e \/ exists size, limit < size /\ size = len (id_bytes id) + len (ck_state row) + 48 /\ e = PostgresError.RowLimit size limit.

Lemma number_Ok label max raw z : number label max raw = Ok z -> z = raw.
Proof. unfold number. destruct (try_from max raw) eqn:H; cbn; [|done]. apply try_from_Some in H as [-> _]. by intros [= <-]. Qed.

Lemma meta_validate_Ok meta id history revision schema position :
  meta_validate meta id history = Ok (revision, schema, position) ->
  ck_history meta = history /\ nz_get revision = ck_revision meta /\ nz_get schema = ck_schema_version meta /\
  position = MkPgPos history (ck_txid meta) (ck_global_seq meta).
Proof.
  unfold meta_validate, history_check. case_bool_decide as Hh; cbn; [|done]. intros H.
  repeat (apply result_bind_Ok in H as (? & ? & H)). injection H as <- <- <-.
  repeat match goal with Hn : number _ _ _ = Ok _ |- _ => apply number_Ok in Hn; subst end.
  repeat match goal with Hn : ok_or (nz_new _) _ = Ok _ |- _ => apply ok_or_Ok, nz_new_Some in Hn end. by subst.
Qed.

Lemma checkpoint_row_hydrate_spec row id schema limit history :
  match checkpoint_row_hydrate (checkpoint_columns (id_bytes id) (nz_get schema) limit history row) id schema limit history with
  | Ok h => hydrated_checkpoint (Some row) id schema history h
  | Err e => checkpoint_unreadable row id limit history e
  end.
Proof.
  unfold checkpoint_row_hydrate, checkpoint_columns. destruct (meta_validate (ck_meta row) id history) as [[[revision stored] position]|e] eqn:Hm; cbn [result_bind]; [|by left].
  destruct (meta_validate_Ok _ _ _ _ _ _ Hm) as (Hh & Hr & Hs & Hp). case_bool_decide as Hsch; cbn [negb].
  - subst stored. rewrite <- Hs, Z.eqb_refl, bool_decide_eq_true_2 by done. cbn [andb].
    destruct (Z.ltb_spec limit (len (id_bytes id) + len (ck_state row) + 48)) as [Hl|Hl]; [right; by eexists|].
    rewrite (proj2 (Z.leb_le _ _)) by lia. cbn. exists revision, schema, position. split; [done|]. unfold describe. cbn. by rewrite bool_decide_eq_true_2.
  - exists revision, stored, position. split; [done|]. unfold describe. cbn. by rewrite bool_decide_eq_false_2.
Qed.

Definition hydrate_checkpoint_post (limits : Limits) (history : History) (id : IdArg) (schema : Schema)
  (r : result (CheckpointHydrated bytes PgAllPos) PostgresError) (log : Log) : Prop :=
  match r with
  | Ok h => exists y, y ∈ log /\ view_inv y.1 /\ hydrated_checkpoint (checkpoint_at y.1 (id_bytes id)) id schema history h
  | Err e => (exists err, e = PostgresError.Sqlx err) \/
      exists y row, y ∈ log /\ view_inv y.1 /\ checkpoint_at y.1 (id_bytes id) = Some row /\ checkpoint_unreadable row id (nz_get (limit_bytes limits)) history e
  end.

(** A session without a transaction sees the committed rows. *)
Lemma idle_seen s v n : idle s v -> seen_checkpoint v s n = sd_checkpoints (v_side v) !! n /\ seen_snapshot v s n = sd_snapshots (v_side v) !! n.
Proof. intros [_ Ho]. unfold seen_checkpoint, seen_snapshot, own_side. rewrite Ho. cbn. by rewrite !map_empty_union. Qed.

Lemma wp_hydrate_checkpoint s limits history id schema v :
  idle s v -> wp s (pg_hydrate_checkpoint limits history id schema) (fun r v' log => idle s v' /\ hydrate_checkpoint_post limits history id schema r log) v [].
Proof.
  intros Hid. unfold pg_hydrate_checkpoint. apply wp_try.
  apply (wp_reading s (SReadCheckpoint (id_bytes id) (nz_get schema) (nz_get (limit_bytes limits)) history) (fun _ => True)); [done|done|done|done|].
  intros v1 r v2 Hid1 _ Hsk _ Hid2 _ Hd. destruct r as [row|e]; cbn [sql_err map_err]; [|split; [done|left; by exists e]].
  cbn in Hd. destruct Hd as (_ & -> & ->). apply wp_ret. split; [done|]. rewrite Hsk.
  assert (((n ← key_number (v_keys v1) (id_bytes id); checkpoint_columns (id_bytes id) (nz_get schema) (nz_get (limit_bytes limits)) history <$> seen_checkpoint v1 s n) : option _) =
    checkpoint_columns (id_bytes id) (nz_get schema) (nz_get (limit_bytes limits)) history <$> checkpoint_at v1 (id_bytes id)) as ->.
  { unfold checkpoint_at. destruct (key_number (v_keys v1) (id_bytes id)) as [n|]; cbn; [|done]. by rewrite (proj1 (idle_seen s v1 n Hid1)). }
  destruct (checkpoint_at v1 (id_bytes id)) as [row|] eqn:Hat; cbn [fmap option_fmap option_map].
  - pose proof (checkpoint_row_hydrate_spec row id schema (nz_get (limit_bytes limits)) history) as Hspec. destruct (checkpoint_row_hydrate _ _ _ _ _) as [h|e].
    + exists (v1, v1). split_and!; [set_solver|apply Hid1|cbn [fst]; by rewrite Hat].
    + right. exists (v1, v1), row. split_and!; [set_solver|apply Hid1|done|done].
  - exists (v1, v1). split_and!; [set_solver|apply Hid1|cbn [fst]; by rewrite Hat].
Qed.

(** ** Row locks *)

(** While the session's transaction holds the lock, the committed row is [old]. *)
Definition frozen (s : nat) (n : Z) (old : option CheckpointRow) (v : View) : Prop :=
  forall t, v_open v !! s = Some t -> live t -> n ∈ hd_locks (tx_held t) -> sd_checkpoints (v_side v) !! n = old.

Lemma commit_other v s s' t t' n :
  view_inv v -> s' <> s -> v_open v !! s = Some t -> live t -> n ∈ hd_locks (tx_held t) -> v_open v !! s' = Some t' -> live t' ->
  sd_checkpoints (v_side (commit_tx v s' t')) !! n = sd_checkpoints (v_side v) !! n.
Proof.
  intros Hi Hne Ho Hl Hn Ho' Hl'. cbn. apply lookup_union_r. destruct (sd_checkpoints (hd_rows (tx_held t')) !! n) as [row|] eqn:Hrow; [exfalso|done].
  apply (vi_locks v Hi s s' t t' n); try done. eapply (vi_held v Hi); [done|done|]. by exists row.
Qed.

Lemma frozen_other s n old v s' v' : change v s' v' -> s' <> s -> view_inv v -> frozen s n old v -> frozen s n old v'.
Proof.
  intros Hc Hne Hi Hf t Ht Hl Hn. destruct Hc as [? ? ? ? ? Hsd Hcar|tx x next ks es held q m Hs Ha Has Hks Hes Hq Hqe Hn' Hnk Hlk Hrw Hkeep ->|tx Hs Hlv ->].
  - rewrite Hsd. destruct (Hcar s t Ht Hl) as [->|(t0 & Ht0 & Hl0 & _ & _ & _ & Hh)]; [by apply elem_of_empty in Hn|]. apply (Hf t0); [done|done|]. by rewrite <- Hh.
  - cbn in Ht |- *. rewrite lookup_insert_ne in Ht by done. by eapply Hf.
  - cbn in Ht. rewrite lookup_delete_ne in Ht by done. rewrite (commit_other v s s' t tx n); try done. by eapply Hf.
Qed.

Lemma frozen_settles s n old v v' : settles v v' -> view_inv v -> frozen s n old v -> frozen s n old v'.
Proof.
  intros (s' & tx & Hs & H) Hi Hf t Ht Hl Hn. destruct (decide (s' = s)) as [->|Hne].
  - destruct (tx_status tx); [| | |destruct H]; subst v'; cbn in Ht; rewrite ?lookup_insert_eq, ?lookup_delete_eq in Ht; try done.
    injection Ht as <-. by apply dead_not_live in Hl; [|left].
  - destruct (tx_status tx) eqn:Hst; [| | |destruct H]; subst v'; cbn in Ht; rewrite ?lookup_insert_ne, ?lookup_delete_ne in Ht by done;
      [by eapply Hf|by eapply Hf|by eapply Hf| |by eapply Hf].
    rewrite (commit_other v s s' t tx n); try done; [by eapply Hf|by right].
Qed.

Lemma frozen_kept s n old : kept s (frozen s n old).
Proof.
  intros v v' Hi Hr. revert Hi. induction Hr as [|x y z Hm _ IH]; [done|]. intros Hi Hf. apply IH; [destruct (move_change _ _ _ Hm) as [s' ?]; by eapply change_inv|].
  destruct Hm as [s' a r Hne Hd Hl|Hs]; [eapply frozen_other; [by eapply documented_change|done|done|done]|by eapply frozen_settles].
Qed.

(** ** Committing a checkpoint *)

(** What the stored row says, as the commit reads it. *)
Definition recorded (id : IdArg) (history : History) (row : option CheckpointRow) : result (option Current) PostgresError :=
  transpose ((fun meta => meta_validate meta id history) <$> (ck_meta <$> row)).

(** From [v] to [v'] the row of [id] was replaced, and the write was valid for the row
    it replaced. *)
Definition replaced (history : History) (id : IdArg) (w : CheckpointWrite bytes PgAllPos) (revision : Revision) (v v' : View) : Prop :=
  exists n current, (n, id_bytes id) ∈ v_keys v' /\ recorded id history (sd_checkpoints (v_side v) !! n) = Ok current /\ next_revision w current = Ok revision /\
    v_events v' = v_events v /\ v_side v' = MkSide (<[n := checkpoint_row w revision]> (sd_checkpoints (v_side v))) (sd_snapshots (v_side v)).

Definition checkpoint_post (s : nat) (history : History) (id : IdArg) (w : CheckpointWrite bytes PgAllPos)
  (r : result Revision (CheckpointError PostgresError)) (v' : View) (log : Log) : Prop :=
  match r with
  | Ok revision => exists l1 v1 v2, log = l1 ++ [(v1, v2)] /\ quiet_log l1 /\ view_inv v1 /\ replaced history id w revision v1 v2
  | Err (CkStore (PostgresError.CommitUnknown _)) => exists l1 v1 v2 revision, log = l1 ++ [(v1, v2)] /\ quiet_log l1 /\ view_inv v1 /\
      (quiet v1 v2 /\ calm s v2 \/ replaced history id w revision v1 v2 \/
       quiet v1 v2 /\ forall v3 tx, rtc (move s) v2 v3 -> v_open v3 !! s = Some tx -> replaced history id w revision v3 (commit_tx v3 s tx))
  | Err (CkStore _) => quiet_log log /\ calm s v'
  | Err (CkRejected e) => quiet_log log /\ calm s v' /\ exists y n current, y ∈ log /\ view_inv y.1 /\ (n, id_bytes id) ∈ v_keys y.1 ++ own_keys y.1 s /\
      recorded id history (sd_checkpoints (v_side y.1) !! n) = Ok current /\ next_revision w current = Err e
  end.

Lemma checkpoint_post_err s history id w e v log :
  quiet_log log -> calm s v -> (forall x, e <> PostgresError.CommitUnknown x) -> checkpoint_post s history id w (Err (CkStore e)) v log.
Proof. intros Hq Hc Hne. destruct e; try done. by destruct (Hne e). Qed.

(** The transaction of a commit: it has written nothing but perhaps the key. *)
Record keyed (s : nat) (id : IdArg) (n : Z) (tx : Tx) (b : Z) (v : View) : Prop := MkKeyed {
  kd_doing : doing s tx b v;
  kd_key : (n, id_bytes id) ∈ v_keys v ++ tx_keys tx;
  kd_events : tx_events tx = [];
}.

Lemma keyed_moves s id n tx b v v' : keyed s id n tx b v -> rtc (move s) v v' -> keyed s id n tx b v'.
Proof.
  intros [Hd Hk He] Hr. split; [by eapply doing_moves| |done]. destruct (moves_grow _ _ _ Hr) as (ks & es & -> & _). set_solver.
Qed.

Lemma quiet_find_key id : quiet_prog (find_key id).
Proof. unfold find_key. apply quiet_try; [done|]. intros [n|]; [done|apply quiet_create_key]. Qed.

Lemma wp_find_key s id b v log :
  doing s tx_new b v ->
  wp s (find_key id) (fun r v' log' =>
    match r with
    | Ok n => exists tx, keyed s id n tx b v' /\ tx_held tx = nothing_held
    | Err e => forall x, e <> PostgresError.CommitUnknown x
    end) v log.
Proof.
  intros Hdo. unfold find_key. apply wp_try. apply wp_act; [apply Hdo|]. intros v1 Hi1 Hr r v2 Hd. split; [done|]. intros Hi2.
  pose proof (doing_moves _ _ _ _ _ Hdo Hr) as Hdo1. destruct r as [found|e]; cbn in Hd |- *; [|by intros x]. destruct Hd as (Hserve & -> & ->).
  destruct (key_number (seen_keys v1 s) (id_bytes id)) as [n|] eqn:Hk.
  - exists tx_new. split; [|done]. split; [done| |done]. apply key_number_Some in Hk. unfold seen_keys, own_keys in Hk.
    destruct (do_mine _ _ _ _ Hdo1) as [Ho|[Ho|Ho]]; rewrite Ho in Hk; cbn in Hk |- *; set_solver.
  - eapply wp_mono; [by apply wp_create_key|]. intros [n|e] v' log'; [|by intros (err & -> & _) x].
    intros (tx & Hdo' & Hev & _ & _ & Hin & Hh). exists tx. split; [by split|by rewrite Hh].
Qed.

(** A statement that locks or writes rows keeps the rest. *)
Lemma keyed_holds s id n tx b v upd v' t :
  keyed s id n tx b v -> view_inv v' -> holds v s upd v' -> v_open v' !! s = Some t ->
  keyed s id n t b v' /\ tx_held t = upd (tx_held tx) /\ v_side v' = v_side v.
Proof.
  intros [Hdo Hk He] Hi' (t0 & x & next & Ho & Ha & Has & ->) Ht. pose proof (mine_active _ _ _ _ (do_mine _ _ _ _ Hdo) Ho Ha) as ->.
  cbn in Ht. rewrite lookup_insert_eq in Ht. injection Ht as <-. split_and!; [|done|done]. split; [|done|done].
  split; [done|left; cbn; by rewrite lookup_insert_eq|done|]. pose proof (do_young _ _ _ _ Hdo) as Hy. cbn. unfold assigns in Has. destruct (tx_xid tx); cbn in Hy; lia.
Qed.

Lemma holds_open v s upd v' : holds v s upd v' -> exists t, v_open v' !! s = Some t.
Proof. intros (t0 & x & next & _ & _ & _ & ->). cbn. rewrite lookup_insert_eq. by eexists. Qed.

Lemma seen_own_empty s tx v n : v_open v !! s = Some tx -> hd_rows (tx_held tx) = MkSide ∅ ∅ -> seen_checkpoint v s n = sd_checkpoints (v_side v) !! n.
Proof. intros Ho Hh. unfold seen_checkpoint, own_side. rewrite Ho. cbn. rewrite Hh. cbn. by rewrite map_empty_union. Qed.

(** The lock reads the committed row, and freezes it. *)
Definition lock_post (s : nat) (id : IdArg) (history : History) (n b : Z) (r : result (option Current) PostgresError) (v' : View) (log' : Log) : Prop :=
  match r with
  | Ok current => exists tx old y, keyed s id n tx b v' /\ hd_rows (tx_held tx) = MkSide ∅ ∅ /\ frozen s n old v' /\ (is_Some current -> n ∈ hd_locks (tx_held tx)) /\
      recorded id history old = Ok current /\ y ∈ log' /\ view_inv y.1 /\ (n, id_bytes id) ∈ v_keys y.1 ++ own_keys y.1 s /\ sd_checkpoints (v_side y.1) !! n = old
  | Err e => forall x, e <> PostgresError.CommitUnknown x
  end.

Lemma meta_validate_err meta id history e : meta_validate meta id history = Err e -> forall x, e <> PostgresError.CommitUnknown x.
Proof.
  unfold meta_validate, history_check, number, corrupt. case_bool_decide; cbn [result_bind]; [|by intros [= <-]].
  repeat match goal with |- result_bind (ok_or ?o _) _ = _ -> _ => destruct o; cbn [ok_or result_bind]; [|by intros [= <-]] end. done.
Qed.

Lemma wp_checkpoint_lock s id history n tx b v log :
  keyed s id n tx b v -> hd_rows (tx_held tx) = MkSide ∅ ∅ ->
  wp s (checkpoint_lock n id history) (lock_post s id history n b) v log.
Proof.
  intros Hkd Hrows. unfold checkpoint_lock. apply wp_try. apply wp_act; [apply Hkd|]. intros v1 Hi1 Hr r v2 Hd. split; [done|]. intros Hi2.
  pose proof (keyed_moves _ _ _ _ _ _ _ Hkd Hr) as Hkd1. destruct r as [meta|e]; cbn in Hd |- *; [|by intros x].
  destruct Hd as [Hmeta Hd].
  assert (exists t, v_open v1 !! s = Some t /\ tx_status t = Active) as (t & Ho & Ha).
  { destruct meta as [m|]; [destruct Hd as [_ (t & x & next & Ho & Ha & _)]; by exists t|]. destruct Hd as [Hact _]. destruct (v_open v1 !! s) as [t|]; [by exists t|done]. }
  pose proof (mine_active _ _ _ _ (do_mine _ _ _ _ (kd_doing _ _ _ _ _ _ Hkd1)) Ho Ha) as ->.
  rewrite (seen_own_empty s tx v1 n Ho Hrows) in Hmeta. set (old := sd_checkpoints (v_side v1) !! n) in *.
  assert (recorded id history old = transpose ((fun value => meta_validate value id history) <$> meta)) as Hrec by (unfold recorded; by rewrite <- Hmeta).
  assert ((n, id_bytes id) ∈ v_keys v1 ++ own_keys v1 s) as Hown by (unfold own_keys; rewrite Ho; apply Hkd1).
  destruct (transpose _) as [current|e] eqn:Ht; [|destruct meta as [m|]; cbn in Ht; [|done]; destruct (meta_validate m id history) eqn:Hv; [done|]; injection Ht as <-; exact (meta_validate_err _ _ _ _ Hv)].
  destruct meta as [m|].
  - destruct Hd as [_ Hh]. destruct (holds_open _ _ _ _ Hh) as [t2 Ht2]. destruct (keyed_holds _ _ _ _ _ _ _ _ _ Hkd1 Hi2 Hh Ht2) as (Hkd2 & Hheld & Hside).
    exists t2, old, (v1, v2). split_and!; try done; [by rewrite Hheld|by intros ? _ _ _; rewrite Hside|intros _; rewrite Hheld; cbn; set_solver|set_solver].
  - destruct Hd as [_ ->]. cbn in Ht. injection Ht as <-. exists tx, old, (v1, v1). split_and!; try done. set_solver.
Qed.

Lemma quiet_checkpoint_lock n id history : quiet_prog (checkpoint_lock n id history).
Proof. unfold checkpoint_lock. by apply quiet_try. Qed.

(** The transaction that has written the new row. *)
Definition saved_post (s : nat) (id : IdArg) (n b : Z) (old : option CheckpointRow) (row : CheckpointRow) (r : result (option Z) PostgresError) (v' : View) : Prop :=
  match r with
  | Ok (Some _) => exists tx, keyed s id n tx b v' /\ hd_rows (tx_held tx) = MkSide {[n := row]} ∅ /\ n ∈ hd_locks (tx_held tx) /\ frozen s n old v'
  | Ok None => exists tx, keyed s id n tx b v' /\ hd_rows (tx_held tx) = MkSide ∅ ∅
  | Err e => exists err, e = PostgresError.Sqlx err
  end.

Lemma wp_save s id history n tx b old current row v log :
  keyed s id n tx b v -> hd_rows (tx_held tx) = MkSide ∅ ∅ -> frozen s n old v -> (is_Some current -> n ∈ hd_locks (tx_held tx)) ->
  recorded id history old = Ok current ->
  wp s (match current with Some _ => sql (SUpdateCheckpoint n row) | None => sql (SInsertCheckpoint n row) end)
    (fun r v' _ => saved_post s id n b old row r v') v log.
Proof.
  intros Hkd Hrows Hf Hlock Hrec.
  assert (forall v1 v2, view_inv v1 -> rtc (move s) v v1 -> view_inv v2 -> holds v1 s (write_checkpoint n row) v2 -> sd_checkpoints (v_side v1) !! n = old ->
    saved_post s id n b old row (Ok (Some n)) v2) as Hwrite.
  { intros v1 v2 Hi1 Hr Hi2 Hh Hold. pose proof (keyed_moves _ _ _ _ _ _ _ Hkd Hr) as Hkd1. destruct (holds_open _ _ _ _ Hh) as [t2 Ht2].
    destruct (keyed_holds _ _ _ _ _ _ _ _ _ Hkd1 Hi2 Hh Ht2) as (Hkd2 & Hheld & Hside). exists t2. split_and!; [done| | |by intros t _ _ _; rewrite Hside].
    - rewrite Hheld. cbn. rewrite Hrows. cbn. by rewrite insert_empty.
    - rewrite Hheld. cbn. set_solver. }
  assert (forall v1 upd v2, rtc (move s) v v1 -> holds v1 s upd v2 -> v_open v1 !! s = Some tx) as Hopen.
  { intros v1 upd v2 Hr (t & x & next & Ho & Ha & _). pose proof (keyed_moves _ _ _ _ _ _ _ Hkd Hr) as Hkd1.
    by rewrite (mine_active _ _ _ _ (do_mine _ _ _ _ (kd_doing _ _ _ _ _ _ Hkd1)) Ho Ha) in Ho. }
  destruct current as [c|]; (apply wp_act; [apply Hkd|]; intros v1 Hi1 Hr r v2 Hd; split; [done|]; intros Hi2;
    destruct r as [[m|]|e]; cbn in Hd |- *; [| |by exists e]).
  - destruct Hd as (-> & _ & _ & Hh). apply (Hwrite v1 v2 Hi1 Hr Hi2 Hh). pose proof (Hopen _ _ _ Hr Hh) as Ho.
    apply (frozen_kept s n old v v1 (do_inv _ _ _ _ (kd_doing _ _ _ _ _ _ Hkd)) Hr Hf tx Ho); [left; apply Hkd|]. apply Hlock. by exists c.
  - destruct Hd as [_ ->]. exists tx. split; [by eapply keyed_moves|done].
  - destruct Hd as (-> & Hseen & _ & Hh). apply (Hwrite v1 v2 Hi1 Hr Hi2 Hh). pose proof (Hopen _ _ _ Hr Hh) as Ho. rewrite (seen_own_empty s tx v1 n Ho Hrows) in Hseen. rewrite Hseen.
    unfold recorded in Hrec. destruct old as [row0|]; [|done]. cbn in Hrec. by destruct (meta_validate _ _ _).
  - destruct Hd as [_ [->|Hh]]; [exists tx; split; [by eapply keyed_moves|done]|]. destruct (holds_open _ _ _ _ Hh) as [t2 Ht2].
    destruct (keyed_holds _ _ _ _ _ _ _ _ _ (keyed_moves _ _ _ _ _ _ _ Hkd Hr) Hi2 Hh Ht2) as (Hkd2 & Hheld & _). exists t2. split; [done|]. rewrite Hheld. exact Hrows.
Qed.

(** A transaction that holds the new row replaces the old one whenever it commits. *)
Lemma commit_replaces s id history n tx t b old current w revision v0 v :
  keyed s id n tx b v0 -> hd_rows (tx_held tx) = MkSide {[n := checkpoint_row w revision]} ∅ -> n ∈ hd_locks (tx_held tx) ->
  recorded id history old = Ok current -> next_revision w current = Ok revision ->
  grown v0 v -> frozen s n old v -> v_open v !! s = Some t -> live t -> tx_keys t = tx_keys tx -> tx_events t = tx_events tx -> tx_held t = tx_held tx ->
  replaced history id w revision v (commit_tx v s t).
Proof.
  intros [_ Hk He] Hrows Hn Hrec Hrev Hg Hf Ho Hl Hks Hes Hh. exists n, current. cbn. rewrite Hks, Hes, Hh, He, Hrows, app_nil_r. cbn. split_and!; try done.
  - destruct Hg as (ks & es & -> & _). set_solver.
  - rewrite (Hf t Ho Hl) by (by rewrite Hh). done.
  - unfold merge_side. cbn. by rewrite <- insert_empty, <- insert_union_l, !map_empty_union.
Qed.

Lemma wp_checkpoint_commit s id history n tx b old current w revision v log :
  keyed s id n tx b v -> hd_rows (tx_held tx) = MkSide {[n := checkpoint_row w revision]} ∅ -> n ∈ hd_locks (tx_held tx) -> frozen s n old v ->
  recorded id history old = Ok current -> next_revision w current = Ok revision -> calm s v -> quiet_log log ->
  wp s (let*? _ := lift CkStore durability_commit in ret (Ok revision)) (checkpoint_post s history id w) v log.
Proof.
  intros Hkd Hrows Hn Hf Hrec Hrev Hc Hq. apply wp_try, wp_lift. pose proof (kd_doing _ _ _ _ _ _ Hkd) as Hdo. pose proof (do_active _ _ _ _ Hdo) as Hact.
  set (K := fun v' => grown v v' /\ frozen s n old v').
  assert (kept s K) as HK by (intros u u' Hi Hr [H1 H2]; split; [by eapply grown_kept|by eapply frozen_kept]).
  eapply wp_mono; [apply (wp_durability_commit s tx b K v log HK); [done|done|by split]|].
  assert (forall v1 t, K v1 -> v_open v1 !! s = Some t -> live t -> tx_keys t = tx_keys tx -> tx_events t = tx_events tx -> tx_held t = tx_held tx ->
    replaced history id w revision v1 (commit_tx v1 s t)) as Hrep by (intros v1 t [? ?]; intros; by eapply commit_replaces).
  intros [u|e] v' log'.
  - intros (ext & v1 & -> & Hext & Hi1 & HK1 & Ho & ->). cbn [map_err]. apply wp_ret. exists (log ++ ext), v1, (commit_tx v1 s tx).
    rewrite <- app_assoc. split_and!; [done|by apply Forall_app|done|]. apply Hrep; try done. by left.
  - destruct e; cbn [map_err]; try (intros (ext & -> & Hext & Hcalm); apply checkpoint_post_err; [by apply Forall_app|done|done]).
    intros (ext & v1 & -> & Hext & Hi1 & HK1 & Hcase). exists (log ++ ext), v1, v', revision.
    rewrite <- app_assoc. split_and!; [done|by apply Forall_app|done|]. destruct Hcase as [->|[Ho [->| ->]]].
    + left. split; [done|by apply drop_calm].
    + right. left. apply Hrep; try done. by left.
    + right. right. split; [done|]. intros v3 t Hr Ht.
      assert (view_inv (set_open v1 s (set_status tx InDoubt))) as Hi2 by (apply in_doubt_inv; [done|done|apply Hdo]).
      assert (t = set_status tx InDoubt) as -> by (eapply moves_in_doubt; [| |exact Hr|exact Ht]; [done|cbn; by rewrite lookup_insert_eq]).
      apply Hrep; try done; [|by right]. apply (HK _ v3 Hi2 Hr). destruct HK1 as [Hg1 Hf1]. split; [done|].
      intros t0 Ht0 _ Hn0. cbn in Ht0. rewrite lookup_insert_eq in Ht0. injection Ht0 as <-. apply (Hf1 tx); [done|by left|done].
Qed.

Lemma validate_bytes_err lengths limits e : validate_bytes lengths limits = Err e -> forall x, e <> PostgresError.CommitUnknown x.
Proof.
  unfold validate_bytes. destruct (sum_lengths 32 lengths) as [n|e'] eqn:Hs; cbn; [case_match; [by intros [= <-]|done]|]. intros [= <-]. clear -Hs.
  revert Hs. generalize 32. induction lengths as [|l lengths IH]; intros total; [done|]. cbn.
  destruct (try_from i64_max l); cbn; [|by intros [= <-]]. destruct (checked_add _ _ _); cbn; [apply IH|by intros [= <-]].
Qed.

Lemma wp_commit_checkpoint s limits history id w v :
  view_inv v -> v_open v !! s = None ->
  wp s (pg_commit_checkpoint limits history id w) (checkpoint_post s history id w) v [].
Proof.
  intros Hi Ho. assert (calm s v) as Hc by (split; [done|by rewrite Ho]). unfold pg_commit_checkpoint.
  apply wp_try, wp_ret. destruct (history_check history (pg_history (cw_position w))) as [[]|e] eqn:Hh; cbn [map_err].
  2: { apply checkpoint_post_err; [constructor|done|]. unfold history_check in Hh. case_bool_decide; [done|]. by injection Hh as <-. }
  apply wp_try, wp_ret. destruct (validate_bytes _ limits) as [[]|e] eqn:Hsz; cbn [map_err].
  2: { apply checkpoint_post_err; [constructor|done|exact (validate_bytes_err _ _ _ Hsz)]. }
  apply wp_try, wp_lift. eapply wp_mono; [apply wp_sql; [done|done|by apply wp_begin]|].
  intros [u|e] v1 log1 (Hb & He1 & Hc1 & ext1 & -> & Hq1); cbn [map_err]; [|apply checkpoint_post_err; [done|done|exact (He1 e eq_refl)]].
  destruct (Hb eq_refl) as [Hi1 Hm1]. set (b := v_next_xid v1). assert (doing s tx_new b v1) as Hdo by (split; [done|done|done|unfold b; cbn; lia]).
  apply wp_try, wp_lift. eapply wp_mono; [apply wp_quiet; [apply quiet_find_key|done|by apply wp_find_key]|].
  intros [n|e] v2 log2 (Hk & Hc2 & ext2 & -> & Hq2); cbn [map_err]; [|apply checkpoint_post_err; [by apply Forall_app|done|done]].
  destruct Hk as (tx & Hkd & Hheld). apply wp_try, wp_lift.
  eapply wp_mono; [apply wp_quiet; [apply quiet_checkpoint_lock|done|apply (wp_checkpoint_lock s id history n tx b); [done|by rewrite Hheld]]|].
  assert (quiet_log (([] ++ ext1) ++ ext2)) as Hq by (by apply Forall_app). revert Hq. generalize (([] ++ ext1) ++ ext2). intros log Hq.
  assert (forall e log' y old current n', quiet_log log' -> forall v', calm s v' -> y ∈ log' -> view_inv y.1 -> (n', id_bytes id) ∈ v_keys y.1 ++ own_keys y.1 s ->
    sd_checkpoints (v_side y.1) !! n' = old -> recorded id history old = Ok current -> next_revision w current = Err e -> checkpoint_post s history id w (Err (CkRejected e)) v' log') as Hrej.
  { intros e log' y old current n' ? v' ? ? ? ? <- ? ?. split_and!; try done. by exists y, n', current. }
  intros [current|e] v3 log3 (Hl & Hc3 & ext3 & -> & Hq3); cbn [map_err]; [|apply checkpoint_post_err; [by apply Forall_app|done|done]].
  destruct Hl as (tx2 & old & y & Hkd2 & Hrows & Hf & Hlock & Hrec & Hy & Hiy & Hky & Hoy). apply wp_try, wp_ret.
  destruct (next_revision w current) as [revision|rej] eqn:Hrev; cbn [map_err]; [|by eapply (Hrej _ _ y); [apply Forall_app|..]].
  apply wp_try, wp_lift. eapply wp_mono; [apply wp_quiet; [by destruct current|done|by eapply (wp_save s id history n tx2 b old current (checkpoint_row w revision))]|].
  intros [saved|e] v4 log4 (Hs & Hc4 & ext4 & -> & Hq4); cbn [map_err].
  2: { destruct Hs as [err ->]. apply checkpoint_post_err; [apply Forall_app; split; [by apply Forall_app|done]|done|done]. }
  assert (quiet_log ((log ++ ext3) ++ ext4)) as Hq' by (apply Forall_app; split; [by apply Forall_app|done]). destruct saved as [m|].
  - destruct Hs as (tx3 & Hkd3 & Hrows3 & Hn3 & Hf3). by eapply wp_checkpoint_commit.
  - destruct Hs as (tx3 & Hkd3 & Hrows3). apply wp_try, wp_lift.
    eapply wp_mono; [apply wp_quiet; [apply quiet_checkpoint_lock|done|by apply (wp_checkpoint_lock s id history n tx3 b)]|].
    intros [observed|e] v5 log5 (Hl5 & Hc5 & ext5 & -> & Hq5); cbn [map_err]; [|apply checkpoint_post_err; [by apply Forall_app|done|done]].
    destruct Hl5 as (tx5 & old5 & y5 & _ & _ & _ & _ & Hrec5 & Hy5 & Hiy5 & Hky5 & Hoy5). apply wp_try, wp_ret.
    destruct (next_revision w observed) as [rev5|rej] eqn:Hrev5; cbn [map_err]; [|by eapply (Hrej _ _ y5); [apply Forall_app|..]].
    apply wp_ret, checkpoint_post_err; [by apply Forall_app|done|done].
Qed.

(** ** Snapshots *)

(** What hydration reports of a snapshot row. *)
Definition hydrated_snapshot (row : option SnapshotRow) (schema : Schema) (h : Hydrated bytes Version) : Prop :=
  match row with
  | None => h = HAbsent
  | Some row => exists stored position, nz_get stored = sr_schema_version row /\ as_u64 position = sr_version row /\
      h = if bool_decide (stored = schema) then HFound position (sr_state row) else HStale stored
  end.

(** It fails only for an invalid number or a state beyond the limit. *)
Definition snapshot_unreadable (row : SnapshotRow) (id : IdArg) (limit : Z) (e : PostgresError) : Prop :=
  (~ (0 < sr_schema_version row <= u32_max) \/ ~ (0 < sr_version row <= u64_max)) /\ (exists reason, e = PostgresError.CorruptRow (id_label id) reason) \/
  exists size, limit < size /\ size = len (id_bytes id) + len (sr_state row) + 32 /\ e = PostgresError.RowLimit size limit.

Lemma snapshot_row_hydrate_spec row id schema limit :
  match snapshot_row_hydrate (snapshot_columns (id_bytes id) (nz_get schema) limit row) id schema limit with
  | Ok h => hydrated_snapshot (Some row) schema h
  | Err e => snapshot_unreadable row id limit e
  end.
Proof.
  unfold snapshot_row_hydrate, snapshot_columns, number.
  destruct (try_from u32_max (sr_schema_version row)) as [z|] eqn:Hz; cbn [ok_or result_bind].
  2: { apply try_from_None in Hz. left. split; [left; lia|by eexists]. }
  apply try_from_Some in Hz as [-> Hz]. destruct (nz_new (sr_schema_version row)) as [stored|] eqn:Hst; cbn [ok_or result_bind].
  2: { apply nz_new_None in Hst. left. split; [left; lia|by eexists]. }
  destruct (try_from u64_max (sr_version row)) as [z|] eqn:Hv; cbn [ok_or result_bind].
  2: { apply try_from_None in Hv. left. split; [right; lia|by eexists]. }
  apply try_from_Some in Hv as [-> Hv]. destruct (new (sr_version row)) as [position|] eqn:Hp; cbn [ok_or result_bind].
  2: { apply new_None in Hp. left. split; [right; lia|by eexists]. }
  apply nz_new_Some in Hst. apply new_Some in Hp. case_bool_decide as Hsch; cbn [negb].
  - subst stored. rewrite Hst, Z.eqb_refl. cbn [andb].
    destruct (Z.ltb_spec limit (len (id_bytes id) + len (sr_state row) + 32)) as [Hl|Hl]; [right; by eexists|].
    rewrite (proj2 (Z.leb_le _ _)) by lia. cbn. exists schema, position. split_and!; [done|done|]. by rewrite bool_decide_eq_true_2.
  - exists stored, position. split_and!; [done|done|]. by rewrite bool_decide_eq_false_2.
Qed.

Definition hydrate_post (limits : Limits) (id : IdArg) (schema : Schema) (r : result (Hydrated bytes Version) PostgresError) (log : Log) : Prop :=
  match r with
  | Ok h => exists y, y ∈ log /\ view_inv y.1 /\ hydrated_snapshot (snapshot_at y.1 (id_bytes id)) schema h
  | Err e => (exists err, e = PostgresError.Sqlx err) \/
      exists y row, y ∈ log /\ view_inv y.1 /\ snapshot_at y.1 (id_bytes id) = Some row /\ snapshot_unreadable row id (nz_get (limit_bytes limits)) e
  end.

Lemma wp_hydrate s limits id schema v :
  idle s v -> wp s (pg_hydrate limits id schema) (fun r v' log => idle s v' /\ hydrate_post limits id schema r log) v [].
Proof.
  intros Hid. unfold pg_hydrate. apply wp_try.
  apply (wp_reading s (SReadSnapshot (id_bytes id) (nz_get schema) (nz_get (limit_bytes limits))) (fun _ => True)); [done|done|done|done|].
  intros v1 r v2 Hid1 _ Hsk _ Hid2 _ Hd. destruct r as [row|e]; cbn [sql_err map_err]; [|split; [done|left; by exists e]].
  cbn in Hd. destruct Hd as (_ & -> & ->). apply wp_ret. split; [done|]. rewrite Hsk.
  assert (((n ← key_number (v_keys v1) (id_bytes id); snapshot_columns (id_bytes id) (nz_get schema) (nz_get (limit_bytes limits)) <$> seen_snapshot v1 s n) : option _) =
    snapshot_columns (id_bytes id) (nz_get schema) (nz_get (limit_bytes limits)) <$> snapshot_at v1 (id_bytes id)) as ->.
  { unfold snapshot_at. destruct (key_number (v_keys v1) (id_bytes id)) as [n|]; cbn; [|done]. by rewrite (proj2 (idle_seen s v1 n Hid1)). }
  destruct (snapshot_at v1 (id_bytes id)) as [row|] eqn:Hat; cbn [fmap option_fmap option_map].
  - pose proof (snapshot_row_hydrate_spec row id schema (nz_get (limit_bytes limits))) as Hspec. destruct (snapshot_row_hydrate _ _ _ _) as [h|e].
    + exists (v1, v1). split_and!; [set_solver|apply Hid1|cbn [fst]; by rewrite Hat].
    + right. exists (v1, v1), row. split_and!; [set_solver|apply Hid1|done|done].
  - exists (v1, v1). split_and!; [set_solver|apply Hid1|cbn [fst]; by rewrite Hat].
Qed.

(** From [v] to [v'] the snapshot of [id] was replaced by [row]. *)
Definition stored (id : IdArg) (row : SnapshotRow) (v v' : View) : Prop :=
  exists n, (n, id_bytes id) ∈ v_keys v' /\ v_events v' = v_events v /\
    v_side v' = MkSide (sd_checkpoints (v_side v)) (<[n := row]> (sd_snapshots (v_side v))).

Definition snapshot_post (s : nat) (id : IdArg) (row : SnapshotRow) (r : result () PostgresError) (v' : View) (log : Log) : Prop :=
  match r with
  | Ok _ => exists l1 v1 v2, log = l1 ++ [(v1, v2)] /\ quiet_log l1 /\ view_inv v1 /\ stored id row v1 v2
  | Err (PostgresError.CommitUnknown _) => exists l1 v1 v2, log = l1 ++ [(v1, v2)] /\ quiet_log l1 /\ view_inv v1 /\
      (quiet v1 v2 /\ calm s v2 \/ stored id row v1 v2 \/
       quiet v1 v2 /\ forall v3 tx, rtc (move s) v2 v3 -> v_open v3 !! s = Some tx -> stored id row v3 (commit_tx v3 s tx))
  | Err _ => quiet_log log /\ calm s v'
  end.

Lemma snapshot_post_err s id row e v log :
  quiet_log log -> calm s v -> (forall x, e <> PostgresError.CommitUnknown x) -> snapshot_post s id row (Err e) v log.
Proof. intros Hq Hc Hne. destruct e; try done. by destruct (Hne e). Qed.

Lemma commit_stores s id row n tx t b v0 v :
  keyed s id n tx b v0 -> hd_rows (tx_held tx) = MkSide ∅ {[n := row]} -> grown v0 v ->
  tx_keys t = tx_keys tx -> tx_events t = tx_events tx -> tx_held t = tx_held tx -> stored id row v (commit_tx v s t).
Proof.
  intros [_ Hk He] Hrows (ks & es & Hks & _) H1 H2 H3. exists n. cbn. rewrite H1, H2, H3, He, Hrows, app_nil_r. cbn. split_and!; [rewrite Hks; set_solver|done|].
  unfold merge_side. cbn. by rewrite <- insert_empty, <- insert_union_l, !map_empty_union.
Qed.

Lemma wp_snapshot_save s id row n tx b v log :
  keyed s id n tx b v -> tx_held tx = nothing_held ->
  wp s (sql (SUpsertSnapshot n row)) (fun r v' _ => is_ok r = true -> exists tx', keyed s id n tx' b v' /\ hd_rows (tx_held tx') = MkSide ∅ {[n := row]}) v log.
Proof.
  intros Hkd Hheld. apply wp_act; [apply Hkd|]. intros v1 Hi1 Hr r v2 Hd. split; [done|]. intros Hi2. destruct r as [m|e]; cbn; [|done]. intros _.
  cbn in Hd. destruct (holds_open _ _ _ _ Hd) as [t2 Ht2].
  destruct (keyed_holds _ _ _ _ _ _ _ _ _ (keyed_moves _ _ _ _ _ _ _ Hkd Hr) Hi2 Hd Ht2) as (Hkd2 & Hh & _). exists t2. split; [done|].
  rewrite Hh, Hheld. cbn. by rewrite insert_empty.
Qed.

Lemma wp_snapshot_commit s limits id schema position state v :
  view_inv v -> v_open v !! s = None ->
  wp s (pg_snapshot_commit limits id schema position state) (snapshot_post s id (snapshot_row schema position state)) v [].
Proof.
  intros Hi Ho. assert (calm s v) as Hc by (split; [done|by rewrite Ho]). unfold pg_snapshot_commit. set (row := snapshot_row schema position state).
  apply wp_try, wp_ret. destruct (validate_bytes _ limits) as [[]|e] eqn:Hsz; [|apply snapshot_post_err; [constructor|done|exact (validate_bytes_err _ _ _ Hsz)]].
  apply wp_try. eapply wp_mono; [apply wp_sql; [done|done|by apply wp_begin]|].
  intros [u|e] v1 log1 (Hb & He1 & Hc1 & ext1 & -> & Hq1); [|apply snapshot_post_err; [done|done|exact (He1 e eq_refl)]].
  destruct (Hb eq_refl) as [Hi1 Hm1]. set (b := v_next_xid v1). assert (doing s tx_new b v1) as Hdo by (split; [done|done|done|unfold b; cbn; lia]).
  apply wp_try. eapply wp_mono; [apply wp_quiet; [apply quiet_find_key|done|by apply wp_find_key]|].
  intros [n|e] v2 log2 (Hk & Hc2 & ext2 & -> & Hq2); [|apply snapshot_post_err; [by apply Forall_app|done|done]].
  destruct Hk as (tx & Hkd & Hheld). apply wp_try. eapply wp_mono; [apply wp_sql; [done|done|by eapply (wp_snapshot_save s id row n tx b)]|].
  intros r v3 log3 (Hs & He3 & Hc3 & ext3 & -> & Hq3). assert (quiet_log ((([] ++ ext1) ++ ext2) ++ ext3)) as Hq by (repeat (apply Forall_app; split; [|done]); done).
  destruct r as [m|e]; [|apply snapshot_post_err; [done|done|exact (He3 e eq_refl)]]. destruct (Hs eq_refl) as (tx3 & Hkd3 & Hrows3).
  pose proof (kd_doing _ _ _ _ _ _ Hkd3) as Hdo3. pose proof (do_active _ _ _ _ Hdo3) as Hact.
  eapply wp_mono; [by apply (wp_durability_commit s tx3 b (grown v3) v3 _ (grown_kept s v3))|]. revert Hq. generalize ((([] ++ ext1) ++ ext2) ++ ext3). intros log Hq [u'|e] v' log'.
  - intros (ext & v4 & -> & Hext & Hi4 & Hg & Ho4 & ->). exists (log ++ ext), v4, (commit_tx v4 s tx3). rewrite <- app_assoc. split_and!; [done|by apply Forall_app|done|]. by eapply commit_stores.
  - destruct e; try (intros (ext & -> & Hext & Hcalm); apply snapshot_post_err; [by apply Forall_app|done|done]).
    intros (ext & v4 & -> & Hext & Hi4 & Hg & Hcase). exists (log ++ ext), v4, v'. rewrite <- app_assoc. split_and!; [done|by apply Forall_app|done|].
    destruct Hcase as [->|[Ho4 [->| ->]]].
    + left. split; [done|by apply drop_calm].
    + right. left. by eapply commit_stores.
    + right. right. split; [done|]. intros v5 t Hr Ht.
      assert (t = set_status tx3 InDoubt) as -> by (eapply moves_in_doubt; [| |exact Hr|exact Ht]; [done|cbn; by rewrite lookup_insert_eq]).
      eapply commit_stores; try done. etrans; [exact Hg|]. exact (moves_grow _ _ _ Hr).
Qed.

End side.
