(* ===== verification/PgSystem.v ===== *)
(** * Many callers on one PostgreSQL database

    The state machine of a database and the calls that run on it: every call is a
    program of the adapter in a session of its own, the statements of all sessions
    interleave in any order, a call may be dropped at any statement, and the database
    may lose clients and settle doubtful transactions in between.  Nothing is assumed
    about the calls: that each of them inserts only what keeps the tables consistent is
    proved from its code, while it relies on the others to do the same. *)

From Stdlib Require Import Sorted.
From S2P Require Import Prelude Utf8 ErrorId Version Value Wire Envelope RawStore Import InMemory Checkpoint State Pg PgDb PgInv PgStore PgAppend PgScan PgRead PgAtomic PgSide.

Section system.
Context {T : Target} {AS : ArrayString} {PG : Postgres} (history : History).

(** ** Calls *)

Inductive Op : Type :=
| OpAppend (id : StreamKey) (expected : option Version) (envelopes : PendingBatch.t)
| OpAtomic (writes : list PlannedAppend)
| OpReadStream (n : nat) (id : StreamKey) (from : Version)
| OpReadAll (n : nat) (from : option PgAllPos)
| OpList (n : nat)
| OpHydrateCheckpoint (id : IdArg) (schema : Schema)
| OpCommitCheckpoint (id : IdArg) (write : CheckpointWrite bytes PgAllPos)
| OpHydrate (id : IdArg) (schema : Schema)
| OpSnapshot (id : IdArg) (schema : Schema) (position : Version) (state : bytes).

Definition Result (o : Op) : Type :=
  match o with
  | OpAppend _ _ _ => result PgAllPos (AppendError PostgresError)
  | OpAtomic _ => result (option PgAllPos) (AtomicAppendError PostgresError)
  | OpReadStream _ _ _ => result (list PersistedEnvelope * Finish (option StreamScan)) PostgresError
  | OpReadAll _ _ => result (list (PgAllPos * StreamKey * PersistedEnvelope) * Finish AllScan) PostgresError
  | OpList _ => result (list StreamKey * Finish KeyScan) PostgresError
  | OpHydrateCheckpoint _ _ => result (CheckpointHydrated bytes PgAllPos) PostgresError
  | OpCommitCheckpoint _ _ => result Revision (CheckpointError PostgresError)
  | OpHydrate _ _ => result (Hydrated bytes Version) PostgresError
  | OpSnapshot _ _ _ _ => result () PostgresError
  end.

Definition run_op (limits : Limits) (o : Op) : prog (Result o) :=
  match o with
  | OpAppend id expected envelopes => append limits history id expected envelopes
  | OpAtomic writes => atomic_append_many limits history writes
  | OpReadStream n id from => read_stream_events limits n id from
  | OpReadAll n from => read_all_events limits history n from
  | OpList n => list_stream_keys limits n
  | OpHydrateCheckpoint id schema => pg_hydrate_checkpoint limits history id schema
  | OpCommitCheckpoint id write => pg_commit_checkpoint limits history id write
  | OpHydrate id schema => pg_hydrate limits id schema
  | OpSnapshot id schema position state => pg_snapshot_commit limits id schema position state
  end.

(** The sequence value of a position is unsigned. *)
Definition op_ok (o : Op) : Prop :=
  match o with OpReadAll _ from => from_option (fun p => 0 <= pg_seq p) True from | _ => True end.

(** ** The state machine *)

Record Call : Type := MkCall {
  c_limits : Limits;
  c_op : Op;
  c_prog : prog (Result c_op);
  c_log : Log;
}.

Record Sys : Type := MkSys { sys_db : Db; sys_calls : gmap nat Call }.

Definition sys_view (sys : Sys) : View := view (sys_db sys).

Inductive step (sys : Sys) : Sys -> Prop :=
| step_start s limits o :
    sys_calls sys !! s = None -> v_open (sys_view sys) !! s = None -> op_ok o ->
    step sys (MkSys (sys_db sys) (<[s := MkCall limits o (run_op limits o) []]> (sys_calls sys)))
| step_exec s limits o a k log r d' :
    sys_calls sys !! s = Some (MkCall limits o (act a k) log) -> exec (sys_db sys) s a r d' ->
    step sys (MkSys d' (<[s := MkCall limits o (k r) (log ++ [(sys_view sys, view d')])]> (sys_calls sys)))
| step_cancel s : step sys (MkSys (sys_db sys) (delete s (sys_calls sys)))
| step_background d' : background (sys_db sys) d' -> step sys (MkSys d' (sys_calls sys)).

Definition initial (sys : Sys) : Prop := view_inv (sys_view sys) /\ sys_calls sys = ∅.
Definition reachable (sys : Sys) : Prop := exists sys0, initial sys0 /\ rtc step sys0 sys.

(** A call that runs to its end before any other session moves. *)
Inductive runs (s : nat) {A} : Db -> prog A -> Log -> A -> Db -> Log -> Prop :=
| runs_ret d a log : runs s d (ret a) log a d log
| runs_act d a k log r d1 res d2 log' :
    exec d s a r d1 -> runs s d1 (k r) (log ++ [(view d, view d1)]) res d2 log' -> runs s d (act a k) log res d2 log'.

Lemma runs_steps s limits o p d log r d' log' calls :
  runs s d p log r d' log' ->
  rtc step (MkSys d (<[s := MkCall limits o p log]> calls)) (MkSys d' (<[s := MkCall limits o (ret r) log']> calls)).
Proof.
  induction 1 as [|d a k log r d1 res d2 log' He _ IH]; [done|]. eapply rtc_l; [|exact IH].
  pose proof (step_exec (MkSys d (<[s := MkCall limits o (act a k) log]> calls)) s limits o a k log r d1 (lookup_insert_eq _ _ _) He) as Hs.
  cbn in Hs. rewrite insert_insert_eq in Hs. exact Hs.
Qed.

Lemma call_runs s limits o d r d' log' calls :
  calls !! s = None -> v_open (view d) !! s = None -> op_ok o -> runs s d (run_op limits o) [] r d' log' ->
  rtc step (MkSys d calls) (MkSys d' (<[s := MkCall limits o (ret r) log']> calls)).
Proof.
  intros Hc Ho Hok Hr. eapply rtc_l; [by apply (step_start (MkSys d calls) s limits o)|]. by apply runs_steps.
Qed.

(** ** What a call has done when it returns *)

Definition post (limits : Limits) (s : nat) (o : Op) : Result o -> View -> Log -> Prop :=
  match o return Result o -> View -> Log -> Prop with
  | OpAppend id expected envelopes => append_post s history id expected (PendingBatch.iter envelopes)
  | OpAtomic writes => atomic_post s history writes
  | OpReadStream n id from => fun r v log => idle s v /\ read_stream_post limits n id from r log
  | OpReadAll n from => fun r v log => idle s v /\ read_all_post limits history n from r v log
  | OpList n => fun r v log => idle s v /\ list_streams_post limits n r log
  | OpHydrateCheckpoint id schema => fun r v log => idle s v /\ hydrate_checkpoint_post limits history id schema r log
  | OpCommitCheckpoint id write => checkpoint_post s history id write
  | OpHydrate id schema => fun r v log => idle s v /\ hydrate_post limits id schema r log
  | OpSnapshot id schema position state => snapshot_post s id (snapshot_row schema position state)
  end.

Lemma append_post_moves s id expected rows r v v' log :
  rtc (move s) v v' -> append_post s history id expected rows r v log -> append_post s history id expected rows r v' log.
Proof.
  intros Hm. destruct r as [p|[l ex ac|e]]; cbn; [done| |destruct e; try done; intros (? & ? & ?); split_and!; try done; by eapply moves_calm].
  intros (? & ? & ?). split_and!; try done. by eapply moves_calm.
Qed.

Lemma post_moves limits s o r v v' log : rtc (move s) v v' -> post limits s o r v log -> post limits s o r v' log.
Proof.
  intros Hm. destruct o; cbn.
  - by apply append_post_moves.
  - destruct r as [[p|]|e]; cbn; [done|intros (? & ? & ?); split_and!; try done; by eapply moves_calm|].
    destruct e as [| | |e]; [..|destruct e; try done]; intros (? & ? & ?); split_and!; try done; by eapply moves_calm.
  - intros [Hid ?]. split; [by eapply moves_idle|done].
  - intros [Hid Hp]. split; [by eapply moves_idle|]. destruct r as [[items fin]|e]; cbn in *; [|done].
    destruct Hp as (? & y & x & ? & ? & ? & Hs & ?). split; [done|]. exists y, x. split_and!; try done.
    eapply (moves_stable (settled (fun t => t < x) y.1)); [apply settled_stable|done|apply Hid|done].
  - intros [Hid ?]. split; [by eapply moves_idle|done].
  - intros [Hid ?]. split; [by eapply moves_idle|done].
  - destruct r as [p|[e|rej]]; cbn; [done|destruct e; try done; intros [? ?]; (split; [done|by eapply moves_calm])|].
    intros (? & ? & ?). split_and!; try done. by eapply moves_calm.
  - intros [Hid ?]. split; [by eapply moves_idle|done].
  - destruct r as [p|e]; cbn; [done|destruct e; try done; intros [? ?]; (split; [done|by eapply moves_calm])].
Qed.

Lemma wp_run_op limits s o v : view_inv v -> v_open v !! s = None -> op_ok o -> wp s (run_op limits o) (post limits s o) v [].
Proof.
  intros Hi Ho Hok. destruct o; cbn [run_op post].
  - by apply wp_append.
  - by apply wp_atomic_append_many.
  - by apply wp_read_stream_events.
  - by apply wp_read_all_events.
  - by apply wp_list_stream_keys.
  - by apply wp_hydrate_checkpoint.
  - by apply wp_commit_checkpoint.
  - by apply wp_hydrate.
  - by apply wp_snapshot_commit.
Qed.

(** ** The invariant of the system *)

Definition sys_inv (sys : Sys) : Prop :=
  view_inv (sys_view sys) /\
  forall s c, sys_calls sys !! s = Some c -> wp s (c_prog c) (post (c_limits c) s (c_op c)) (sys_view sys) (c_log c).

Lemma wp_moved limits s o p v v' log :
  move s v v' -> wp s p (post limits s o) v log -> wp s p (post limits s o) v' log.
Proof. intros Hm. apply wp_moves; [|by apply rtc_once]. intros a u u' l. apply post_moves. Qed.

Lemma step_inv sys sys' : sys_inv sys -> step sys sys' -> sys_inv sys'.
Proof.
  intros [Hi Hc] Hs. destruct Hs as [s limits o Hs Ho Hok|s limits o a k log r d' Hs Hd|s|d' Hb].
  - split; [done|]. intros s' c. cbn. rewrite lookup_insert. case_decide; [intros [= <-]; subst s'; by apply wp_run_op|by apply Hc].
  - pose proof (Hc s _ Hs) as Hw. cbn in Hw. apply exec_documented in Hd. destruct (Hw _ (rtc_refl _ _) r _ Hd) as [Hl Hk].
    split; [by eapply change_inv, documented_change|]. intros s' c. cbn. rewrite lookup_insert. case_decide as Hss; [intros [= <-]; by subst s'|].
    intros Hs'. eapply wp_moved; [|by apply Hc]. eapply move_other; [|exact Hd|exact Hl]. done.
  - split; [done|]. intros s' c. cbn. rewrite lookup_delete_Some. intros [_ ?]. by apply Hc.
  - apply background_documented in Hb. split.
    + cbn. destruct (settles_change _ _ Hb) as [s Hch]. by eapply change_inv.
    + intros s c Hs. eapply wp_moved; [|by apply Hc]. by apply move_settles.
Qed.

Lemma reachable_inv sys : reachable sys -> sys_inv sys.
Proof.
  intros (sys0 & [Hi Hc] & Hr). assert (sys_inv sys0) as H0 by (split; [done|]; intros s c; by rewrite Hc, lookup_empty).
  clear Hi Hc. induction Hr as [|x y z Hs _ IH]; [done|]. apply IH. by eapply step_inv.
Qed.

Lemma returned_post sys s limits o r log :
  reachable sys -> sys_calls sys !! s = Some (MkCall limits o (ret r) log) -> post limits s o r (sys_view sys) log.
Proof. intros Hr Hs. destruct (reachable_inv sys Hr) as [_ Hc]. exact (Hc s _ Hs). Qed.

(** ** The promises *)

(** C9: under any interleaving of appends, atomic appends and scans, with
    transactions failing, clients disappearing and doubtful commits settling at any
    point, the committed tables stay consistent: every stream has the versions 1, 2, 3,
    ... without a gap, keys and positions are unique, and the events of a stream have
    positions in the order of their versions. *)
Theorem pg_tables_consistent sys : reachable sys -> view_inv (sys_view sys).
Proof. intros Hr. apply (reachable_inv sys Hr). Qed.

(** C8: an append that returned success was one COMMIT that appended exactly its
    batch to a stream whose length was the expected version, at the position it
    reports; a conflict has a reason; after any other error the session has committed
    nothing and never will, except for an unknown COMMIT, which appends the whole batch
    or nothing, then or later. *)
Theorem pg_append_exact sys s limits id expected envelopes r log :
  reachable sys -> sys_calls sys !! s = Some (MkCall limits (OpAppend id expected envelopes) (ret r) log) ->
  append_post s history id expected (PendingBatch.iter envelopes) r (sys_view sys) log.
Proof. intros Hr Hs. exact (returned_post sys s limits _ r log Hr Hs). Qed.

(** C18: an atomic append that returned success was one COMMIT that appended
    every write of the set to its stream, each of which had the expected length; a
    conflict names a write and a head that was really seen and is not the expected one;
    after any other error nothing of the set is or will be committed, except for an
    unknown COMMIT, which commits all of it or nothing. *)
Theorem pg_atomic_exact sys s limits writes r log :
  reachable sys -> sys_calls sys !! s = Some (MkCall limits (OpAtomic writes) (ret r) log) ->
  atomic_post s history writes r (sys_view sys) log.
Proof. intros Hr Hs. exact (returned_post sys s limits _ r log Hr Hs). Qed.

(** A consumer of [read_stream], page by page between other sessions'
    commits, gets the stream as it was when its head was read: its events from the
    version asked for, in order and without a gap, all of them if the stream ended;
    it stops early only at a database error or at a row that is too large or corrupt. *)
Theorem pg_read_stream_exact sys s limits n id from r log :
  reachable sys -> sys_calls sys !! s = Some (MkCall limits (OpReadStream n id from) (ret r) log) ->
  read_stream_post limits n id from r log.
Proof. intros Hr Hs. exact (proj2 (returned_post sys s limits _ r log Hr Hs)). Qed.

(** A consumer of [list_streams] gets the keys that had an event when the
    snapshot was taken, once each and in order, all of them if the listing ended. *)
Theorem pg_list_streams_exact sys s limits n r log :
  reachable sys -> sys_calls sys !! s = Some (MkCall limits (OpList n) (ret r) log) ->
  list_streams_post limits n r log.
Proof. intros Hr Hs. exact (proj2 (returned_post sys s limits _ r log Hr Hs)). Qed.

(** C19: a checkpoint commit that returned success was one COMMIT that replaced
    exactly the row of its id, and the write was valid for the row that was committed at
    that very moment: no other writer came between its check and its COMMIT, although
    all of them run under READ COMMITTED; a rejection was computed from a row that was
    committed; after any other error nothing is written, except for an unknown COMMIT,
    which replaces the row under the same conditions or not at all. *)
Theorem pg_checkpoint_cas sys s limits id write r log :
  reachable sys -> sys_calls sys !! s = Some (MkCall limits (OpCommitCheckpoint id write) (ret r) log) ->
  checkpoint_post s history id write r (sys_view sys) log.
Proof. intros Hr Hs. exact (returned_post sys s limits _ r log Hr Hs). Qed.

(** A consumer of [read_all] gets the committed events whose transaction is
    older than every transaction in progress when the watermark was read, from its
    position on, in the order of positions, all of them if the scan ended; a position of
    another history is refused. *)
Theorem pg_read_all_exact sys s limits n from r log :
  reachable sys -> sys_calls sys !! s = Some (MkCall limits (OpReadAll n from) (ret r) log) ->
  read_all_post limits history n from r (sys_view sys) log.
Proof. intros Hr Hs. exact (proj2 (returned_post sys s limits _ r log Hr Hs)). Qed.

(** The position an item reports. *)
Definition item_pos (i : PgAllPos * StreamKey * PersistedEnvelope) : Z * Z := (pg_txid i.1.1, pg_seq i.1.1).

Lemma all_item_pos limits keys c a p :
  item_of limits (row_bytes keys) (all_row keys) (all_convert history) c = Returns (Ok (a, p)) -> item_pos a = e_pos c.
Proof.
  intros Hit. pose proof (all_item _ _ _ _ _ _ Hit) as Hp. unfold item_of in Hit. apply outcome_bind_Ok in Hit as (row & _ & Hit).
  unfold all_convert in Hit. repeat (apply outcome_bind_Ok in Hit as (? & _ & Hit)). injection Hit as <- <-. injection Hp as Ht Hq.
  unfold item_pos, e_pos. cbn. by rewrite Ht, Hq.
Qed.

(** A prefix of a sorted list has everything up to its last element. *)
Lemma sorted_prefix {R} (lt : R -> R -> Prop) l k c d :
  (forall x, ~ lt x x) -> Transitive lt -> StronglySorted lt l -> c ∈ take k l -> d ∈ l -> ~ lt c d -> d ∈ take k l.
Proof.
  intros Hir Htr Hs Hc Hd Hn. rewrite <- (take_drop k l) in Hs, Hd. apply elem_of_app in Hd as [?|Hd]; [done|].
  destruct Hn. by apply (sorted_app_inv _ _ _ Hs).
Qed.

(** C10: a subscriber of all events that resumes from the last position it was
    delivered misses nothing: in the tables as they are now, whatever was committed
    since, every event between the start of the scan and a delivered position was
    itself delivered by that scan, and the positions it delivers increase. *)
Theorem pg_read_all_gapless sys s limits n from items fin log e i :
  reachable sys -> sys_calls sys !! s = Some (MkCall limits (OpReadAll n from) (ret (Ok (items, fin))) log) ->
  StronglySorted pos_lt (item_pos <$> items) /\
  (e ∈ v_events (sys_view sys) -> all_after from e -> i ∈ items -> ~ pos_lt (item_pos i) (e_pos e) -> e_pos e ∈ (item_pos <$> items)).
Proof.
  intros Hr Hs. destruct (returned_post sys s limits _ _ log Hr Hs) as [[Hi _] Hp]. cbn in Hp.
  destruct Hp as (_ & y & x & _ & Hiy & _ & Hset & [Hf _]).
  assert (item_pos <$> items = e_pos <$> take (length items) (all_from y.1 x from)) as Heq.
  { clear -Hf. induction Hf as [|c a cs items [p Hit] _ IH]; [done|]. cbn. f_equal; [by eapply all_item_pos|exact IH]. }
  destruct (all_from_ordered y.1 x from Hiy) as [Hsort Hin]. rewrite Heq. split.
  - assert (StronglySorted event_lt (take (length items) (all_from y.1 x from))) as Hst.
    { rewrite <- (take_drop (length items)) in Hsort. by apply sorted_app_inv in Hsort as (? & _). }
    clear -Hst. induction Hst as [|c l Hl IH Hc]; [constructor|]. cbn. constructor; [done|]. by apply Forall_fmap.
  - intros He Hafter Hii Hle. apply (list_elem_of_fmap_2 item_pos) in Hii. rewrite Heq in Hii. apply list_elem_of_fmap in Hii as (c & Hc & Hct).
    apply list_elem_of_fmap_2. apply (sorted_prefix event_lt _ _ c); [apply event_lt_irrefl|apply _|done|done| |by unfold event_lt; rewrite <- Hc].
    apply Hin. assert (c ∈ all_from y.1 x from) as (_ & Hcx & _)%Hin by (apply elem_of_take in Hct as (j & Hj & _); by eapply list_elem_of_lookup_2).
    assert (e_txid e < x) as Hex by (rewrite Hc in Hle; unfold pos_lt in Hle; cbn in Hle; lia). split_and!; [by eapply st_events|done|done].
Qed.

End system.
