(* ===== verification/Gate.v ===== *)
(** * The mutation-testing gate (mutants-gate/src: model.rs, gate.rs, main.rs)

    The tool that turns a report of a mutation run into a verdict: it checks that the
    report accounts for every candidate exactly once, tallies the outcomes per function
    and compares them with the committed floors.  Sets and maps are those of
    [Ordered]; files and JSON are parameters. *)

From Stdlib Require Import String.
From stdpp Require Import sorting.
From S2P Require Import Prelude Ordered.
Close Scope string_scope.
Open Scope list_scope.

(** ** The report (model.rs) *)

Record Position : Type := MkPosition { line : NonZero u64_max; column : NonZero u64_max }.
Record Span : Type := MkSpan { span_start : Position; span_end : Position }.
Inductive Genre : Type := FnValue | BinaryOperator | UnaryOperator | MatchArm | MatchArmGuard | StructField.
Record FunctionInfo : Type := MkFunctionInfo { function_name : bytes; return_type : bytes; function_span : Span }.
Record MutantInfo : Type := MkMutantInfo {
  package : bytes;
  file : bytes;
  function : option FunctionInfo;
  span : Span;
  replacement : bytes;
  genre : Genre;
}.
Notation Candidate := MutantInfo.

Inductive Summary : Type := Success | CaughtMutant | MissedMutant | Unviable | Timeout | Failure.
Inductive Scenario : Type := ScenarioBaseline | ScenarioMutant (info : MutantInfo).
Record Outcome : Type := MkOutcome { summary : Summary; scenario : Scenario }.
Record Report : Type := MkReport { outcomes : list Outcome }.
Record Baseline : Type := MkBaseline { floors : list (bytes * Z); known_zero_viable : list bytes }.

#[export] Instance summary_eq_dec : EqDecision Summary.
Proof. solve_decision. Defined.
#[export] Instance genre_eq_dec : EqDecision Genre.
Proof. solve_decision. Defined.

#[export] Instance ord_position : Ord Position.
Proof. apply (ord_of (fun p => (line p, column p))). by intros [] [] [= -> ->]. Defined.
#[export] Instance ord_span : Ord Span.
Proof. apply (ord_of (fun s => (span_start s, span_end s))). by intros [] [] [= -> ->]. Defined.
Definition genre_rank (g : Genre) : Z :=
  match g with FnValue => 0 | BinaryOperator => 1 | UnaryOperator => 2 | MatchArm => 3 | MatchArmGuard => 4 | StructField => 5 end.
#[export] Instance ord_genre : Ord Genre.
Proof. apply (ord_of genre_rank). by intros [] []. Defined.
#[export] Instance ord_function : Ord FunctionInfo.
Proof. apply (ord_of (fun f => (function_name f, return_type f, function_span f))). by intros [] [] [= -> -> ->]. Defined.
#[export] Instance ord_mutant : Ord MutantInfo.
Proof. apply (ord_of (fun i => (package i, file i, function i, span i, replacement i, genre i))). by intros [] [] [= -> -> -> -> -> ->]. Defined.

#[export] Instance mutant_eq_dec : EqDecision MutantInfo.
Proof. intros x y. destruct (cmp x y) eqn:H; [left; by apply cmp_eq|right; intros ->; by rewrite cmp_refl in H..]. Defined.

(** ** Validation (gate.rs) *)

Inductive BaselinePolicy : Type := Required | Skipped.
#[export] Instance policy_eq_dec : EqDecision BaselinePolicy.
Proof. solve_decision. Defined.

Inductive RunError : Type :=
| Empty
| InvalidIdentity (i : MutantInfo)
| DuplicateCandidate (i : MutantInfo)
| UnknownOutcome (i : MutantInfo)
| DuplicateOutcome (i : MutantInfo)
| MissingOutcome (i : MutantInfo)
| InvalidSummary (s : Summary)
| BaselineFailed (s : Summary)
| BaselineCount (count : Z) (policy : BaselinePolicy)
| UncleanSeed.

Notation Tallies := (list (bytes * list Summary)).
Record ValidatedRun : Type := MkValidatedRun { tallies : Tallies }.

Definition lit (s : string) : bytes := list_byte_of_string s.

Definition key (info : MutantInfo) : bytes :=
  match function info with
  | None => file info ++ lit "::<module>"
  | Some f => file info ++ lit "::" ++ function_name f
  end.

Definition is_empty (b : bytes) : bool := bool_decide (b = []).
Definition le_position (p q : Position) : bool := match cmp p q with Gt => false | _ => true end.

Definition valid_identity (info : MutantInfo) : bool :=
  negb (is_empty (package info)) && negb (is_empty (file info)) && le_position (span_start (span info)) (span_end (span info))
  && (negb (bool_decide (genre info = FnValue)) || bool_decide (is_Some (function info)))
  && match function info with
     | None => true
     | Some f =>
         negb (is_empty (function_name f)) && le_position (span_start (function_span f)) (span_start (span info))
         && le_position (span_end (span info)) (span_end (function_span f))
     end.

Definition is_baseline (o : Outcome) : bool := match scenario o with ScenarioBaseline => true | ScenarioMutant _ => false end.

(** The loop over the baselines. *)
Fixpoint baselines_pass (baselines : list Outcome) : result () RunError :=
  match baselines with
  | [] => Ok ()
  | b :: baselines =>
      if negb (bool_decide (summary b = Success)) then Err (BaselineFailed (summary b)) else baselines_pass baselines
  end.

Definition baseline_check (report : Report) (policy : BaselinePolicy) : result () RunError :=
  let baselines := filter is_baseline (outcomes report) in
  let expected := if bool_decide (policy = Required) then 1 else 0 in
  if negb (len baselines =? expected) then Err (BaselineCount (len baselines) policy)
  else baselines_pass baselines.

(** The first loop of [validate]: the set of candidates. *)
Fixpoint collect_candidates (pending : list MutantInfo) (candidates : list Candidate) : result (list MutantInfo) RunError :=
  match candidates with
  | [] => Ok pending
  | candidate :: candidates =>
      if negb (valid_identity candidate) then Err (InvalidIdentity candidate)
      else match set_insert candidate pending with
           | (false, _) => Err (DuplicateCandidate candidate)
           | (true, pending) => collect_candidates pending candidates
           end
  end.

(** The second loop: each outcome takes its candidate off the pending ones. *)
Fixpoint tally (expected pending : list MutantInfo) (m : Tallies) (outs : list Outcome) : result (list MutantInfo * Tallies) RunError :=
  match outs with
  | [] => Ok (pending, m)
  | o :: outs =>
      match scenario o with
      | ScenarioBaseline => tally expected pending m outs
      | ScenarioMutant info =>
          if negb (contains info expected) then Err (UnknownOutcome info)
          else match set_remove info pending with
               | (false, _) => Err (DuplicateOutcome info)
               | (true, pending) =>
                   match summary o with
                   | Success | Failure => Err (InvalidSummary (summary o))
                   | _ => tally expected pending (entry_push (key info) (summary o) m) outs
                   end
               end
      end
  end.

Definition validate (report : Report) (candidates : list Candidate) (policy : BaselinePolicy) : result ValidatedRun RunError :=
  let? _ := baseline_check report policy in
  if bool_decide (candidates = []) then Err Empty
  else
    let? pending := collect_candidates [] candidates in
    let? (pending, m) := tally pending pending [] (outcomes report) in
    match pending with
    | missing :: _ => Err (MissingOutcome missing)
    | [] => Ok (MkValidatedRun m)
    end.

(** ** Evaluation *)

Inductive GateFailure : Type :=
| Survivor (key : bytes)
| TimedOut (key : bytes)
| Collapse (key : bytes) (floor viable : Z)
| Unaccounted (key : bytes) (viable : Z)
| StaleFloor (key : bytes) (floor : Z)
| InvalidFloor (key : bytes)
| InvalidKnownZero (key : bytes).

Definition is_viable (s : Summary) : bool := match s with CaughtMutant | MissedMutant | Timeout => true | _ => false end.
Definition viable (summaries : list Summary) : Z := len (filter is_viable summaries).

(** The three loops of [evaluate]. *)
Fixpoint zero_failures (baseline : Baseline) (zero : list bytes) (names : list bytes) : list bytes * list GateFailure :=
  match names with
  | [] => (zero, [])
  | name :: names =>
      let '(fresh, zero) := set_insert name zero in
      let '(zero, failures) := zero_failures baseline zero names in
      (zero, (if negb fresh || bool_decide (is_Some (get name (floors baseline))) then [InvalidKnownZero name] else []) ++ failures)
  end.

Definition floor_failures (run : ValidatedRun) (entry : bytes * Z) : list GateFailure :=
  (if entry.2 =? 0 then [InvalidFloor entry.1] else []) ++
  (if negb (bool_decide (is_Some (get entry.1 (tallies run)))) then [StaleFloor entry.1 entry.2] else []).

Definition tally_failures (baseline : Baseline) (zero : list bytes) (entry : bytes * list Summary) : list GateFailure :=
  let '(name, summaries) := entry in
  (if bool_decide (MissedMutant ∈ summaries) then [Survivor name] else []) ++
  (if bool_decide (Timeout ∈ summaries) then [TimedOut name] else []) ++
  match get name (floors baseline) with
  | Some floor => if viable summaries <? floor then [Collapse name floor (viable summaries)] else []
  | None => if negb (contains name zero) then [Unaccounted name (viable summaries)] else []
  end.

Definition evaluate (run : ValidatedRun) (baseline : Baseline) : list GateFailure :=
  let '(zero, failures) := zero_failures baseline [] (known_zero_viable baseline) in
  failures ++ (floors baseline ≫= floor_failures run) ++ (tallies run ≫= tally_failures baseline zero).

(** [emit_baseline], before its JSON is printed. *)
Definition is_unclean (s : Summary) : bool := match s with MissedMutant | Timeout => true | _ => false end.

Definition emitted (run : ValidatedRun) : result Baseline RunError :=
  if existsb (fun e => existsb is_unclean e.2) (tallies run) then Err UncleanSeed
  else Ok (MkBaseline
    (omap (fun e => if negb (viable e.2 =? 0) then Some (e.1, viable e.2) else None) (tallies run))
    (omap (fun e => if viable e.2 =? 0 then Some e.1 else None) (tallies run))).

(** ** What validation accepts *)

(** The mutants an outcome list reports on. *)
Definition mutant_of (o : Outcome) : option MutantInfo := match scenario o with ScenarioMutant i => Some i | ScenarioBaseline => None end.
Definition mutants (outs : list Outcome) : list MutantInfo := omap mutant_of outs.

(** The outcome of a mutant says whether a test caught it, or that it does not build. *)
Definition settled (s : Summary) : Prop := s <> Success /\ s <> Failure.
Fixpoint settles (outs : list Outcome) : Prop :=
  match outs with [] => True | o :: outs => (is_Some (mutant_of o) -> settled (summary o)) /\ settles outs end.

(** The summaries of a function's mutants, in report order. *)
Definition summaries_of (name : bytes) (outs : list Outcome) : list Summary :=
  omap (fun o => i ← mutant_of o; if decide (key i = name) then Some (summary o) else None) outs.

(** The table of a whole report. *)
Definition push_outcome (m : Tallies) (o : Outcome) : Tallies :=
  match mutant_of o with Some i => entry_push (key i) (summary o) m | None => m end.
Definition tallied (outs : list Outcome) (m : Tallies) : Tallies := foldl push_outcome m outs.

Lemma collect_candidates_exact pending cands :
  sorted pending ->
  match collect_candidates pending cands with
  | Ok r => Forall (fun c => valid_identity c = true) cands /\ NoDup cands /\ (forall c, c ∈ cands -> c ∉ pending) /\
      sorted r /\ (forall y, y ∈ r <-> y ∈ pending \/ y ∈ cands)
  | Err _ => ~ (Forall (fun c => valid_identity c = true) cands /\ NoDup cands /\ (forall c, c ∈ cands -> c ∉ pending))
  end.
Proof.
  revert pending. induction cands as [|c cands IH]; intros pending Hs; cbn.
  - split_and!; [constructor|constructor|by intros c ?%elem_of_nil|done|]. intros y. rewrite elem_of_nil. tauto.
  - destruct (valid_identity c) eqn:Hv; cbn; [|by intros ([? _]%Forall_cons & _); congruence].
    destruct (set_insert c pending) as [b p] eqn:Hi. destruct (set_insert_spec _ _ _ _ Hs Hi) as (Hp & Hb & Hin).
    destruct b.
    + assert (c ∉ pending) as Hc by (by apply Hb). specialize (IH p Hp). destruct (collect_candidates p cands) as [r|e].
      * destruct IH as (Hf & Hn & Hd & Hr & Hm). split_and!; [by constructor|constructor; [|done]| |done|].
        -- intros H%Hd. apply H, Hin. by left.
        -- intros x [->|Hx]%elem_of_cons; [done|]. intros Hx'. apply (Hd x Hx), Hin. by right.
        -- intros y. rewrite Hm, Hin, elem_of_cons. tauto.
      * intros ([_ Hf]%Forall_cons & [Hc' Hn]%NoDup_cons & Hd). apply IH. split_and!; [done..|].
        intros x Hx [->|Hx']%Hin; [done|]. apply (Hd x); [by right|done].
    + intros (_ & _ & Hd). assert (false = true) as ?; [|done]. apply Hb, Hd. by left.
Qed.

Lemma mutants_cons o outs : mutants (o :: outs) = match mutant_of o with Some i => i :: mutants outs | None => mutants outs end.
Proof. unfold mutants. cbn. by destruct (mutant_of o). Qed.

Lemma settles_spec outs : settles outs <-> forall o, o ∈ outs -> is_Some (mutant_of o) -> settled (summary o).
Proof.
  induction outs as [|o outs IH]; cbn; [split; [by intros _ o ?%elem_of_nil|done]|]. rewrite IH. split.
  - intros [H1 H2] o' [->|Ho']%elem_of_cons; [done|by apply H2].
  - intros H. split; [apply H; by left|]. intros o' Ho'. apply H. by right.
Qed.

Lemma tally_exact expected pending m outs :
  sorted pending -> (forall y, y ∈ pending -> y ∈ expected) ->
  match tally expected pending m outs with
  | Ok (p, m') => NoDup (mutants outs) /\ (forall i, i ∈ mutants outs -> i ∈ pending) /\ settles outs /\ m' = tallied outs m /\
      (forall y, y ∈ p <-> y ∈ pending /\ y ∉ mutants outs)
  | Err _ => ~ (NoDup (mutants outs) /\ (forall i, i ∈ mutants outs -> i ∈ pending) /\ settles outs)
  end.
Proof.
  revert pending m. induction outs as [|o outs IH]; intros pending m Hs He; cbn [tally].
  { split_and!; [constructor|by intros i ?%elem_of_nil|done|done|]. intros y. cbn. rewrite elem_of_nil. tauto. }
  change (tallied (o :: outs) m) with (tallied outs (push_outcome m o)). unfold push_outcome.
  rewrite mutants_cons. cbn [settles]. unfold mutant_of. destruct (scenario o) as [|info] eqn:Hsc.
  { specialize (IH pending m Hs He). destruct (tally expected pending m outs) as [[p m']|e].
    - destruct IH as (? & ? & ? & ? & ?). split_and!; try done.
    - intros (? & ? & _ & ?). by apply IH. }
  destruct (contains info expected) eqn:Hc; cbn [negb].
  2:{ intros (_ & Hin & _). assert (contains info expected = true); [|congruence]. apply contains_spec, He, Hin. by left. }
  destruct (set_remove info pending) as [b p] eqn:Hr. destruct (set_remove_spec _ _ _ _ Hs Hr) as (Hp & Hb & Hin).
  destruct b; [|intros (_ & Hi & _); assert (false = true); [apply Hb, Hi; by left|done]].
  assert (info ∈ pending) as Hi by (by apply Hb).
  specialize (IH p (entry_push (key info) (summary o) m) Hp ltac:(intros y [_ ?]%Hin; auto)).
  assert (forall outs', (forall i, i ∈ mutants outs' -> i ∈ p) <-> info ∉ mutants outs' /\ forall i, i ∈ mutants outs' -> i ∈ pending) as Hsub.
  { intros outs'. setoid_rewrite Hin. split; [intros H; split; [by intros []%H|by intros i []%H]|]. intros [H1 H2] i Hm. split; [by intros ->|auto]. }
  assert (settled (summary o) -> match tally expected p (entry_push (key info) (summary o) m) outs with
    | Ok (p0, m') => NoDup (info :: mutants outs) /\ (forall i, i ∈ info :: mutants outs -> i ∈ pending) /\
        ((is_Some (Some info) -> settled (summary o)) /\ settles outs) /\ m' = tallied outs (entry_push (key info) (summary o) m) /\
        (forall y, y ∈ p0 <-> y ∈ pending /\ y ∉ info :: mutants outs)
    | Err _ => ~ (NoDup (info :: mutants outs) /\ (forall i, i ∈ info :: mutants outs -> i ∈ pending) /\ (is_Some (Some info) -> settled (summary o)) /\ settles outs)
    end) as Hgo.
  { intros Hset. destruct (tally expected p _ outs) as [[p0 m']|e].
    - destruct IH as (Hn & Hm%Hsub & Hst & -> & Hp0). destruct Hm as [Hni Hm]. split_and!; [by constructor| |done|done|done|].
      + intros i [->|?]%elem_of_cons; auto.
      + intros y. rewrite Hp0, Hin, elem_of_cons. tauto.
    - intros ([Hni Hn]%NoDup_cons & Hm & _ & Hst). apply IH. split_and!; [done| |done]. apply Hsub. split; [done|].
      intros i Hi'. apply Hm. by right. }
  destruct (summary o) eqn:Hsum; try (apply Hgo; done).
  - intros (_ & _ & H & _). by destruct (H ltac:(eauto)).
  - intros (_ & _ & H & _). by destruct (H ltac:(eauto)).
Qed.

Definition accepted (report : Report) (cands : list Candidate) (policy : BaselinePolicy) : Prop :=
  baseline_check report policy = Ok () /\ cands <> [] /\ Forall (fun c => valid_identity c = true) cands /\ NoDup cands /\
  mutants (outcomes report) ≡ₚ cands /\ settles (outcomes report).

Lemma validate_exact report cands policy run :
  validate report cands policy = Ok run <-> accepted report cands policy /\ run = MkValidatedRun (tallied (outcomes report) []).
Proof.
  unfold validate, accepted. destruct (baseline_check report policy) as [[]|e]; cbn [result_bind]; [|naive_solver].
  destruct (bool_decide_reflect (cands = [])) as [->|Hne]; [naive_solver|].
  pose proof (collect_candidates_exact [] cands I) as Hc. destruct (collect_candidates [] cands) as [pending|e]; cbn [result_bind].
  2:{ split; [done|]. intros [(_ & _ & Hf & Hn & _) _]. destruct Hc. split_and!; [done..|]. intros c _ ?%elem_of_nil. done. }
  destruct Hc as (Hf & Hn & _ & Hs & Hin). assert (forall y, y ∈ pending <-> y ∈ cands) as Hpc by (intros y; rewrite Hin, elem_of_nil; tauto).
  pose proof (tally_exact pending pending [] (outcomes report) Hs (fun y H => H)) as Ht.
  destruct (tally pending pending [] (outcomes report)) as [[p m]|e]; cbn [result_bind].
  - destruct Ht as (Hnd & Hsub & Hst & -> & Hp). destruct p as [|x p].
    + split; [intros [= <-]|by intros [_ ->]]. split; [|done]. split_and!; [done..| |done].
      apply NoDup_Permutation; [done..|]. intros y. rewrite <- Hpc. split; [apply Hsub|]. intros Hy.
      destruct (decide (y ∈ mutants (outcomes report))) as [|Hno]; [done|]. exfalso. apply (not_elem_of_nil y), Hp. done.
    + split; [done|]. intros [(_ & _ & _ & _ & Hperm & _) _]. exfalso. assert (x ∈ x :: p) as [Hx Hno]%Hp by (by left).
      apply Hno. rewrite Hperm. by apply Hpc.
  - split; [done|]. intros [(_ & _ & _ & _ & Hperm & Hst) _]. destruct Ht. split_and!; [by rewrite Hperm| |done].
    intros i. rewrite Hperm. apply Hpc.
Qed.

Lemma summaries_cons name o outs :
  summaries_of name (o :: outs) =
    match mutant_of o with
    | Some i => if decide (key i = name) then summary o :: summaries_of name outs else summaries_of name outs
    | None => summaries_of name outs
    end.
Proof. unfold summaries_of. cbn. destruct (mutant_of o); cbn; [by case_decide|done]. Qed.

(** The table lists each function with the outcomes of its mutants. *)
Lemma tallied_exact outs m :
  sorted m.*1 -> sorted (tallied outs m).*1 /\
  (forall name, get name (tallied outs m) =
     match summaries_of name outs with [] => get name m | l => Some (default [] (get name m) ++ l) end).
Proof.
  revert m. induction outs as [|o outs IH]; intros m Hs; [done|]. change (tallied (o :: outs) m) with (tallied outs (push_outcome m o)).
  setoid_rewrite summaries_cons. unfold push_outcome. destruct (mutant_of o) as [i|] eqn:Hm; [|by apply IH].
  destruct (IH (entry_push (key i) (summary o) m)) as [Hs' Hg]; [by apply entry_push_keys|]. split; [done|].
  intros name. rewrite Hg, get_push by done. destruct (decide (key i = name)) as [->|Hne].
  - rewrite cmp_refl. destruct (summaries_of name outs) as [|x l]; [done|]. cbn. by rewrite <- app_assoc.
  - destruct (cmp name (key i)) eqn:Hc; [by apply cmp_eq in Hc; congruence|done..].
Qed.

(** ** What evaluation accepts *)

Lemma zero_failures_exact baseline zero names zero' fs :
  sorted zero -> zero_failures baseline zero names = (zero', fs) ->
  sorted zero' /\ (forall y, y ∈ zero' <-> y ∈ zero \/ y ∈ names) /\
  (fs = [] <-> NoDup names /\ (forall n, n ∈ names -> n ∉ zero /\ get n (floors baseline) = None)).
Proof.
  revert zero zero' fs. induction names as [|n names IH]; intros zero zero' fs Hs; cbn [zero_failures].
  { intros [= <- <-]. split_and!; [done|intros y; rewrite elem_of_nil; tauto|]. split; [|done]. intros _. split; [constructor|by intros n ?%elem_of_nil]. }
  destruct (set_insert n zero) as [fresh z] eqn:Hi. destruct (set_insert_spec _ _ _ _ Hs Hi) as (Hz & Hfr & Hin).
  destruct (zero_failures baseline z names) as [z' fs'] eqn:Hzf. destruct (IH _ _ _ Hz Hzf) as (Hs' & Hm & Hfs). intros [= <- <-].
  split_and!; [done|intros y; rewrite Hm, Hin, elem_of_cons; tauto|].
  rewrite app_nil, Hfs, NoDup_cons. setoid_rewrite elem_of_cons. setoid_rewrite Hin.
  assert ((if negb fresh || bool_decide (is_Some (get n (floors baseline))) then [InvalidKnownZero n] else []) = [] <->
    n ∉ zero /\ get n (floors baseline) = None) as ->.
  { rewrite <- Hfr, eq_None_not_Some. destruct fresh; cbn; [|naive_solver]. case_bool_decide; naive_solver. }
  split.
  - intros ([Hn Hg] & Hnd & Hall). split; [split; [|done]|].
    + intros Hin'. destruct (Hall n Hin') as [H _]. apply H. by left.
    + intros x [->|Hx]; [done|]. destruct (Hall x Hx). naive_solver.
  - intros ([Hn Hnd] & Hall). split_and!; [by apply Hall; left|apply Hall; by left|done|].
    intros x Hx. destruct (Hall x (or_intror Hx)). split; [|done]. naive_solver.
Qed.

(** The table and the floors are in balance. *)
Record balanced (run : ValidatedRun) (baseline : Baseline) : Prop := MkBalanced {
  ba_zero : NoDup (known_zero_viable baseline);
  ba_disjoint : forall n, n ∈ known_zero_viable baseline -> get n (floors baseline) = None;
  ba_floors : forall n floor, (n, floor) ∈ floors baseline -> floor <> 0 /\ is_Some (get n (tallies run));
  ba_tallies : forall n ss, (n, ss) ∈ tallies run -> MissedMutant ∉ ss /\ Timeout ∉ ss /\
    match get n (floors baseline) with Some floor => floor <= viable ss | None => n ∈ known_zero_viable baseline end;
}.

Lemma bind_nil {X Y} (f : X -> list Y) l : l ≫= f = [] <-> forall x, x ∈ l -> f x = [].
Proof.
  induction l as [|x l IH]; [split; [by intros _ x ?%elem_of_nil|done]|]. rewrite bind_cons, app_nil, IH. setoid_rewrite elem_of_cons. naive_solver.
Qed.

Lemma evaluate_exact run baseline : evaluate run baseline = [] <-> balanced run baseline.
Proof.
  unfold evaluate. destruct (zero_failures baseline [] (known_zero_viable baseline)) as [zero fs] eqn:Hz.
  destruct (zero_failures_exact _ [] _ _ _ I Hz) as (_ & Hm & Hfs). rewrite !app_nil, Hfs, !bind_nil. clear Hfs Hz.
  assert (forall n, contains n zero = true <-> n ∈ known_zero_viable baseline) as Hc.
  { intros n. rewrite contains_spec, Hm, elem_of_nil. tauto. }
  assert (forall n floor, floor_failures run (n, floor) = [] <-> floor <> 0 /\ is_Some (get n (tallies run))) as Hff.
  { intros n floor. unfold floor_failures. cbn [fst snd]. rewrite app_nil. destruct (Z.eqb_spec floor 0); case_bool_decide; cbn; naive_solver. }
  assert (forall n ss, tally_failures baseline zero (n, ss) = [] <-> MissedMutant ∉ ss /\ Timeout ∉ ss /\
    match get n (floors baseline) with Some floor => floor <= viable ss | None => n ∈ known_zero_viable baseline end) as Htf.
  { intros n ss. unfold tally_failures. rewrite !app_nil.
    assert ((if bool_decide (MissedMutant ∈ ss) then [Survivor n] else []) = [] <-> MissedMutant ∉ ss) as -> by (case_bool_decide; naive_solver).
    assert ((if bool_decide (Timeout ∈ ss) then [TimedOut n] else []) = [] <-> Timeout ∉ ss) as -> by (case_bool_decide; naive_solver).
    destruct (get n (floors baseline)) as [floor|].
    - destruct (Z.ltb_spec (viable ss) floor); intuition (done || lia).
    - rewrite <- Hc. destruct (contains n zero); naive_solver. }
  split.
  - intros ((Hn & Hd) & Hf & Ht). split; [done|by intros n Hn'; apply Hd|intros n fl Hin; by apply Hff, Hf|intros n ss Hin; by apply Htf, Ht].
  - intros [Hn Hd Hf Ht]. split_and!; [done| |intros [n fl] Hin; by apply Hff, Hf|intros [n ss] Hin; by apply Htf, Ht].
    intros n Hn'. split; [apply not_elem_of_nil|by apply Hd].
Qed.

(** ** A baseline seeded from a run *)

Lemma sorted_omap {A V W} `{!Ord A} (h : A * V -> option W) (proj : W -> A) m :
  (forall e w, h e = Some w -> proj w = e.1) -> sorted m.*1 -> sorted (proj <$> omap h m).
Proof.
  intros Hh. induction m as [|e m IH]; [done|]. cbn. intros [Hk Hs]. destruct (h e) as [w|] eqn:He; [|by apply IH]. cbn. split; [|by apply IH].
  rewrite (Hh _ _ He). intros y (w' & -> & Hw')%list_elem_of_fmap. apply list_elem_of_omap in Hw' as (e' & Hin & He').
  rewrite (Hh _ _ He'). apply Hk. by apply (list_elem_of_fmap_2 fst).
Qed.

Lemma sorted_NoDup {A} `{!Ord A} (l : list A) : sorted l -> NoDup l.
Proof. induction l as [|x l IH]; [constructor|]. intros [Hx Hs]. constructor; [|auto]. intros H%Hx. by rewrite cmp_refl in H. Qed.

Lemma viable_nonneg ss : 0 <= viable ss.
Proof. apply len_nonneg. Qed.

Lemma emitted_ordered run b : sorted (tallies run).*1 -> emitted run = Ok b -> sorted (floors b).*1 /\ Forall (fun e => 0 <= e.2) (floors b).
Proof.
  intros Hs. unfold emitted. destruct (existsb _ _); [done|]. intros [= <-]. cbn [floors]. split.
  - apply sorted_omap; [|done]. intros e w. destruct (negb _); [|done]. by intros [= <-].
  - apply Forall_forall. intros w (e & _ & Hw)%list_elem_of_omap. destruct (negb _); [|done]. injection Hw as <-. apply viable_nonneg.
Qed.

Lemma emitted_balanced run b : sorted (tallies run).*1 -> emitted run = Ok b -> balanced run b.
Proof.
  intros Hs Hb. pose proof (emitted_ordered _ _ Hs Hb) as [Hfs _]. unfold emitted in Hb.
  destruct (existsb _ (tallies run)) eqn:Hcl; [done|]. injection Hb as <-.
  assert (forall n fl, (n, fl) ∈ omap (fun e => if negb (viable e.2 =? 0) then Some (e.1, viable e.2) else None) (tallies run) <->
    exists ss, (n, ss) ∈ tallies run /\ fl = viable ss /\ fl <> 0) as Hfl.
  { intros n fl. rewrite list_elem_of_omap. split.
    - intros ([n' ss] & Hin & He). cbn in He. destruct (Z.eqb_spec (viable ss) 0); [done|]. cbn in He. injection He as <- <-. by exists ss.
    - intros (ss & Hin & -> & Hne). exists (n, ss). split; [done|]. cbn. by rewrite (proj2 (Z.eqb_neq _ _) Hne). }
  assert (forall n, n ∈ omap (fun e => if viable e.2 =? 0 then Some e.1 else None) (tallies run) <->
    exists ss, (n, ss) ∈ tallies run /\ viable ss = 0) as Hz.
  { intros n. rewrite list_elem_of_omap. split.
    - intros ([n' ss] & Hin & He). cbn in He. destruct (Z.eqb_spec (viable ss) 0); [|done]. injection He as <-. by exists ss.
    - intros (ss & Hin & Hv). exists (n, ss). split; [done|]. cbn. by rewrite Hv. }
  assert (forall n ss ss', (n, ss) ∈ tallies run -> (n, ss') ∈ tallies run -> ss = ss') as Huq.
  { intros n ss ss' H1 H2. apply (get_Some _ _ _ Hs) in H1, H2. congruence. }
  split; cbn [floors known_zero_viable].
  - apply sorted_NoDup. rewrite <- (list_fmap_id (omap _ _)). apply sorted_omap; [|done]. intros e w. destruct (_ =? _); [|done]. by intros [= <-].
  - intros n (ss & Hin & Hv)%Hz. destruct (get n _) as [fl|] eqn:Hg; [|done]. apply (get_Some _ _ _ Hfs) in Hg.
    apply Hfl in Hg as (ss' & Hin' & -> & Hne). by rewrite (Huq _ _ _ Hin' Hin) in Hne.
  - intros n fl (ss & Hin & -> & Hne)%Hfl. split; [done|]. exists ss. by apply get_Some.
  - intros n ss Hin. assert (forall x, x ∈ ss -> is_unclean x = false) as Hclean.
    { intros x Hx. destruct (is_unclean x) eqn:E; [|done]. exfalso. rewrite <- not_true_iff_false in Hcl. apply Hcl, existsb_exists.
      exists (n, ss). split; [by apply list_elem_of_In|]. apply existsb_exists. exists x. split; [by apply list_elem_of_In|done]. }
    split_and!; [by intros ?%Hclean|by intros ?%Hclean|]. destruct (get n _) as [fl|] eqn:Hg.
    + apply (get_Some _ _ _ Hfs), Hfl in Hg as (ss' & Hin' & -> & _). by rewrite (Huq _ _ _ Hin' Hin).
    + apply Hz. exists ss. split; [done|]. destruct (Z.eq_dec (viable ss) 0) as [|Hne]; [done|]. exfalso.
      assert ((n, viable ss) ∈ omap (fun e => if negb (viable e.2 =? 0) then Some (e.1, viable e.2) else None) (tallies run)) as Hin' by (apply Hfl; eauto).
      apply (get_Some _ _ _ Hfs) in Hin'. cbn [floors] in Hin'. congruence.
Qed.

(** ** The command (main.rs) *)

(** Files and JSON. *)
Class GateHost := {
  IoError : Type;
  JsonError : Type;
  read_to_string : bytes -> result bytes IoError;
  join : bytes -> bytes -> bytes;
  parse_report : bytes -> result Report JsonError;
  parse_candidates : bytes -> result (list Candidate) JsonError;
  parse_baseline : bytes -> result Baseline JsonError;
  print_baseline : Baseline -> result bytes JsonError;
  (** [serde] fills a [BTreeMap<String, usize>]. *)
  parse_baseline_sorted s b : parse_baseline s = Ok b -> sorted (floors b).*1 /\ Forall (fun e => 0 <= e.2) (floors b);
  (** Printing a map and a list and parsing the printed line gives them back. *)
  print_parse b s : sorted (floors b).*1 -> Forall (fun e => 0 <= e.2) (floors b) ->
    print_baseline b = Ok s -> parse_baseline (s ++ [byte.of_Z 10]) = Ok b;
}.

Section main.
Context `{H : GateHost}.

Inductive EmitError : Type :=
| EmitRun (e : RunError)
| EmitSerialize (e : JsonError).

Definition emit_baseline (run : ValidatedRun) : result bytes EmitError :=
  let? b := map_err EmitRun (emitted run) in
  map_err EmitSerialize (print_baseline b).

Inductive GateError : Type :=
| Usage
| Io (path : bytes) (e : IoError)
| Parse (path : bytes) (e : JsonError).

Definition read_json {X} (parse : bytes -> result X JsonError) (path : bytes) : result X GateError :=
  let? raw := map_err (Io path) (read_to_string path) in
  map_err (Parse path) (parse raw).

(** [args.pop()] of a trailing flag. *)
Definition policy_of (args : list bytes) : BaselinePolicy * list bytes :=
  if bool_decide (last args = Some (lit "--skip-baseline")) then (Skipped, removelast args) else (Required, args).

Inductive Mode : Type :=
| EmitBaseline
| Check (baseline_path : bytes).

Definition mode_of (args : list bytes) : result (Mode * bytes) GateError :=
  match args with
  | [mode; directory] => if bool_decide (mode = lit "emit-baseline") then Ok (EmitBaseline, directory) else Err Usage
  | [mode; directory; baseline] => if bool_decide (mode = lit "check") then Ok (Check baseline, directory) else Err Usage
  | _ => Err Usage
  end.

(** [run]: the verdict, and the baseline it prints. *)
Definition gate_run (args : list bytes) : result (bool * option bytes) GateError :=
  let '(policy, args) := policy_of args in
  let? (mode, directory) := mode_of args in
  let? report := read_json parse_report (join directory (lit "outcomes.json")) in
  let? candidates := read_json parse_candidates (join directory (lit "mutants.json")) in
  match validate report candidates policy with
  | Err _ => Ok (false, None)
  | Ok run =>
      match mode with
      | EmitBaseline =>
          match emit_baseline run with
          | Ok text => Ok (true, Some text)
          | Err _ => Ok (false, None)
          end
      | Check baseline_path =>
          let? baseline := read_json parse_baseline baseline_path in
          Ok (bool_decide (length (evaluate run baseline) = 0%nat), None)
      end
  end.

(** [main]: the exit code. *)
Definition exit_code (args : list bytes) : Z :=
  match gate_run args with Ok (true, _) => 0 | Ok (false, _) => 1 | Err _ => 2 end.

(** The caught mutants of a function. *)
Definition caught (name : bytes) (outs : list Outcome) : Z := len (filter (fun s => s = CaughtMutant) (summaries_of name outs)).

Lemma elem_of_summaries name outs s :
  s ∈ summaries_of name outs <-> exists o i, o ∈ outs /\ mutant_of o = Some i /\ key i = name /\ summary o = s.
Proof.
  unfold summaries_of. rewrite list_elem_of_omap. split.
  - intros (o & Ho & He). destruct (mutant_of o) as [i|] eqn:Hm; [|done]. cbn in He. case_decide; [|done]. injection He as <-. by exists o, i.
  - intros (o & i & Ho & Hm & Hk & <-). exists o. split; [done|]. rewrite Hm. cbn. by rewrite decide_True.
Qed.

(** Clean summaries: what is viable was caught. *)
Lemma viable_caught ss : MissedMutant ∉ ss -> Timeout ∉ ss -> viable ss = len (filter (fun s => s = CaughtMutant) ss).
Proof.
  intros Hm Ht. unfold viable. f_equal. induction ss as [|s ss IH]; [done|]. apply not_elem_of_cons in Hm as [Hm Hms], Ht as [Ht Hts].
  specialize (IH Hms Hts). rewrite !filter_cons. destruct s; cbn; by rewrite IH.
Qed.

Lemma baseline_check_exact report policy :
  baseline_check report policy = Ok () <->
  match policy with
  | Required => exists o, filter is_baseline (outcomes report) = [o] /\ summary o = Success
  | Skipped => filter is_baseline (outcomes report) = []
  end.
Proof.
  unfold baseline_check. set (bs := filter is_baseline (outcomes report)). destruct policy.
  - rewrite bool_decide_true by done. destruct bs as [|o [|o' bs]]; cbn -[bool_decide]; [naive_solver| |].
    + case_bool_decide; cbn; naive_solver.
    + assert (len (o :: o' :: bs) =? 1 = false) as Hl by (apply Z.eqb_neq; unfold len; cbn; lia).
      rewrite Hl. naive_solver.
  - rewrite bool_decide_false by done. destruct bs as [|o bs]; [by cbn|].
    assert (len (o :: bs) =? 0 = false) as Hl by (apply Z.eqb_neq; unfold len; cbn; lia). rewrite Hl. naive_solver.
Qed.

Lemma exit_zero args : exit_code args = 0 <-> exists out, gate_run args = Ok (true, out).
Proof. unfold exit_code. destruct (gate_run args) as [[[] out]|]; naive_solver. Qed.

(** C38: a green verdict is never vacuous.  If the check exits with success, the run had
    candidates, the report accounts for every one of them exactly once and for nothing
    else, its unmutated baseline passed, no mutant survived or timed out, every committed
    floor is positive and reached by mutants that were caught, and every function with
    mutants has a floor or is listed as having none. *)
Theorem gate_never_vacuous args policy directory path :
  policy_of args = (policy, [lit "check"; directory; path]) -> exit_code args = 0 ->
  exists report candidates baseline,
    read_json parse_report (join directory (lit "outcomes.json")) = Ok report /\
    read_json parse_candidates (join directory (lit "mutants.json")) = Ok candidates /\
    read_json parse_baseline path = Ok baseline /\
    candidates <> [] /\ NoDup candidates /\ mutants (outcomes report) ≡ₚ candidates /\
    (policy = Required -> exists o, filter is_baseline (outcomes report) = [o] /\ summary o = Success) /\
    (forall o, o ∈ outcomes report -> is_Some (mutant_of o) -> summary o = CaughtMutant \/ summary o = Unviable) /\
    (forall name floor, (name, floor) ∈ floors baseline -> 1 <= floor <= caught name (outcomes report)) /\
    (forall c, c ∈ candidates -> key c ∈ (floors baseline).*1 \/ key c ∈ known_zero_viable baseline).
Proof.
  intros Hp [out Hrun]%exit_zero. unfold gate_run in Hrun. rewrite Hp in Hrun. cbn [mode_of] in Hrun. rewrite bool_decide_true in Hrun by done.
  cbn [result_bind] in Hrun. destruct (read_json parse_report _) as [report|] eqn:Hr; [|done]. cbn [result_bind] in Hrun.
  destruct (read_json parse_candidates _) as [cands|] eqn:Hc; [|done]. cbn [result_bind] in Hrun.
  destruct (validate report cands policy) as [run|] eqn:Hv; [|done]. apply validate_exact in Hv as [(Hb & Hne & _ & Hnd & Hperm & Hst) ->].
  destruct (read_json parse_baseline path) as [baseline|] eqn:Hbl; [|done]. cbn [result_bind] in Hrun. injection Hrun as Hev _.
  apply bool_decide_eq_true, length_zero_iff_nil, evaluate_exact in Hev as [_ _ Hfl Hta]. cbn [tallies] in Hfl, Hta.
  destruct (tallied_exact (outcomes report) [] I) as [Hs Hget].
  assert (exists raw, parse_baseline raw = Ok baseline) as [raw Hraw].
  { unfold read_json in Hbl. destruct (read_to_string path); [|done]. cbn in Hbl. destruct (parse_baseline a) eqn:E; [|done]. injection Hbl as <-. by exists a. }
  destruct (parse_baseline_sorted _ _ Hraw) as [Hsb Hnn].
  (* The table entry of a name with mutants. *)
  assert (forall name ss, summaries_of name (outcomes report) = ss -> ss <> [] -> (name, ss) ∈ tallied (outcomes report) []) as Hent.
  { intros name ss Hss Hne'. apply (get_Some _ _ _ Hs). rewrite Hget, Hss. by destruct ss. }
  exists report, cands, baseline. split_and!; try done.
  - intros ->. by apply baseline_check_exact in Hb.
  - intros o Ho [i Hi]. assert (summary o ∈ summaries_of (key i) (outcomes report)) as Hin by (apply elem_of_summaries; by exists o, i).
    destruct (Hta _ _ (Hent (key i) _ eq_refl (elem_of_not_nil _ _ Hin))) as (Hm & Ht & _).
    destruct (proj1 (settles_spec _) Hst o Ho (ex_intro _ i Hi)) as [Hx Hy]. destruct (summary o); auto; contradiction.
  - intros name fl Hin. destruct (Hfl _ _ Hin) as [Hz [ss Hss]].
    assert (0 <= fl) as Hfl0 by (by apply (proj1 (Forall_forall _ _) Hnn (name, fl))).
    apply (get_Some _ _ _ Hsb) in Hin. apply (get_Some _ _ _ Hs) in Hss. destruct (Hta _ _ Hss) as (Hm & Ht & Hge). rewrite Hin in Hge.
    apply (get_Some _ _ _ Hs) in Hss. rewrite Hget in Hss. cbn in Hss.
    assert (summaries_of name (outcomes report) = ss) as Heq by (destruct (summaries_of name (outcomes report)); [done|by injection Hss]).
    unfold caught. rewrite Heq, <- viable_caught by done. lia.
  - intros c Hc'. rewrite <- Hperm in Hc'. apply list_elem_of_omap in Hc' as (o & Ho & Hm).
    assert (summary o ∈ summaries_of (key c) (outcomes report)) as Hin by (apply elem_of_summaries; by exists o, c).
    destruct (Hta _ _ (Hent (key c) _ eq_refl (elem_of_not_nil _ _ Hin))) as (_ & _ & Hf).
    destruct (get (key c) (floors baseline)) as [fl|] eqn:Hg; [left|by right].
    apply (get_Some _ _ _ Hsb) in Hg. by apply (list_elem_of_fmap_2 fst _ _ Hg).
Qed.

(** A baseline seeded from a run passes the check of that run: if seeding succeeds
    and its output is stored, checking the same directory against it succeeds. *)
Theorem emitted_baseline_passes args args' policy directory path text :
  policy_of args = (policy, [lit "emit-baseline"; directory]) -> gate_run args = Ok (true, Some text) ->
  policy_of args' = (policy, [lit "check"; directory; path]) -> read_to_string path = Ok (text ++ [byte.of_Z 10]) ->
  exit_code args' = 0.
Proof.
  intros Hp Hrun Hp' Hread. apply exit_zero. exists None. unfold gate_run in *. rewrite Hp in Hrun. rewrite Hp'.
  cbn [mode_of] in *. rewrite bool_decide_true in Hrun by done. rewrite bool_decide_true by done. cbn [result_bind] in *.
  destruct (read_json parse_report _) as [report|]; [|done]. cbn [result_bind] in *.
  destruct (read_json parse_candidates _) as [cands|]; [|done]. cbn [result_bind] in *.
  destruct (validate report cands policy) as [run|] eqn:Hv; [|done]. apply validate_exact in Hv as [_ ->].
  destruct (tallied_exact (outcomes report) [] I) as [Hs _]. unfold emit_baseline in Hrun.
  destruct (emitted _) as [b|] eqn:Hb; [|done]. cbn in Hrun. destruct (print_baseline b) as [s|] eqn:Hpr; [|done]. cbn in Hrun. injection Hrun as ->.
  destruct (emitted_ordered (MkValidatedRun _) b Hs Hb) as [Ho Hn]. unfold read_json. rewrite Hread. cbn [result_bind map_err].
  rewrite (print_parse _ _ Ho Hn Hpr). cbn [result_bind map_err]. rewrite bool_decide_true; [done|].
  by rewrite (proj2 (evaluate_exact _ _) (emitted_balanced (MkValidatedRun _) b Hs Hb)).
Qed.

End main.

(** ** A concrete run

    One function with one caught mutant; a baseline is printed in binary, ended by the
    newline. *)

Fixpoint sortedb {A} `{!Ord A} (l : list A) : bool :=
  match l with [] => true | x :: l => forallb (fun y => match cmp x y with Lt => true | _ => false end) l && sortedb l end.

Lemma sortedb_spec {A} `{!Ord A} (l : list A) : sortedb l = true <-> sorted l.
Proof.
  induction l as [|x l IH]; [done|]. cbn. rewrite andb_true_iff, forallb_forall, IH. setoid_rewrite <- list_elem_of_In.
  split; intros [H Hs]; (split; [|done]); intros y Hy; specialize (H y Hy); by destruct (cmp x y).
Qed.

Fixpoint bits (p : positive) : bytes :=
  match p with xH => [] | xO p => byte.of_Z 0 :: bits p | xI p => byte.of_Z 1 :: bits p end.
Fixpoint unbits (b : bytes) : positive :=
  match b with
  | [] => xH
  | c :: b => if byte.unsigned c =? 0 then xO (unbits b) else if byte.unsigned c =? 1 then xI (unbits b) else xH
  end.

Lemma unbits_bits p : unbits (bits p ++ [byte.of_Z 10]) = p.
Proof. induction p as [p IH|p IH|]; cbn -[byte.unsigned byte.of_Z]; [|by rewrite IH..|done]; by rewrite IH. Qed.

Definition code (b : Baseline) : positive := encode (floors b, known_zero_viable b).
Definition uncode (p : positive) : option Baseline := '(f, z) ← decode p; Some (MkBaseline f z).

Definition parse_binary (s : bytes) : result Baseline () :=
  match uncode (unbits s) with
  | Some b => if sortedb (floors b).*1 && forallb (fun e => 0 <=? e.2) (floors b) then Ok b else Err tt
  | None => Err tt
  end.

Definition sample_position (n : Z) (H : nz_in u64_max n = true) : Position := MkPosition (MkNonZero n H) (MkNonZero n H).
Definition sample_span : Span := MkSpan (sample_position 1 eq_refl) (sample_position 2 eq_refl).
Definition sample_mutant : MutantInfo :=
  MkMutantInfo (lit "mnesis") (lit "a.rs") (Some (MkFunctionInfo (lit "f") [] sample_span)) sample_span (lit "()") FnValue.
Definition sample_report : Report :=
  MkReport [MkOutcome Success ScenarioBaseline; MkOutcome CaughtMutant (ScenarioMutant sample_mutant)].
Definition sample_baseline : Baseline := MkBaseline [(lit "a.rs::f", 1)] [].

Definition sample_host : GateHost.
Proof.
  refine {| IoError := (); JsonError := ();
    read_to_string _ := Ok (bits (code sample_baseline) ++ [byte.of_Z 10]); join d f := d ++ lit "/" ++ f;
    parse_report _ := Ok sample_report; parse_candidates _ := Ok [sample_mutant];
    parse_baseline := parse_binary; print_baseline b := Ok (bits (code b)) |}.
  - intros s b. unfold parse_binary. destruct (uncode (unbits s)) as [b'|]; [|done].
    destruct (sortedb _ && forallb _ _) eqn:Hc; [|done]. intros [= <-]. apply andb_true_iff in Hc as [Hs Hf].
    split; [by apply sortedb_spec|]. apply Forall_forall. intros e He. rewrite forallb_forall in Hf. apply Z.leb_le, Hf. by apply list_elem_of_In.
  - intros b s Hs Hf [= <-]. unfold parse_binary. rewrite unbits_bits. unfold uncode, code. rewrite decode_encode. cbn.
    rewrite (proj2 (sortedb_spec _) Hs). cbn. assert (forallb (fun e => 0 <=? e.2) (floors b) = true) as ->.
    { apply forallb_forall. intros e He%list_elem_of_In. apply Z.leb_le. by apply (proj1 (Forall_forall _ _) Hf). }
    by destruct b.
Defined.

Definition check_args : list bytes := [lit "check"; lit "out"; lit "baseline.json"].
Definition emit_args : list bytes := [lit "emit-baseline"; lit "out"].

Lemma gate_never_vacuous_witness :
  exists report candidates baseline,
    read_json (H := sample_host) parse_report (join (GateHost := sample_host) (lit "out") (lit "outcomes.json")) = Ok report /\
    candidates <> [] /\ mutants (outcomes report) ≡ₚ candidates /\
    (forall name floor, (name, floor) ∈ floors baseline -> 1 <= floor <= caught name (outcomes report)).
Proof.
  destruct (gate_never_vacuous (H := sample_host) check_args Required (lit "out") (lit "baseline.json"))
    as (report & cands & baseline & Hr & _ & _ & Hne & _ & Hperm & _ & _ & Hfl & _).
  - vm_compute. reflexivity.
  - vm_compute. reflexivity.
  - exists report, cands, baseline. split; [exact Hr|]. split; [exact Hne|]. split; [exact Hperm|exact Hfl].
Defined.

Lemma emitted_baseline_passes_witness : exit_code (H := sample_host) check_args = 0.
Proof.
  apply (emitted_baseline_passes (H := sample_host) emit_args check_args Required (lit "out") (lit "baseline.json") (bits (code sample_baseline))).
  - vm_compute. reflexivity.
  - reflexivity.
  - vm_compute. reflexivity.
  - reflexivity.
Defined.
