(* ===== verification/Examples.v ===== *)
(** * Concrete runs over the in-memory store

    A counter aggregate stored as single-byte payloads in the in-memory adapter:
    the hypotheses of the repository, command and saga theorems hold together
    there, and the theorems are applied to actual runs. *)

From S2P Require Import Prelude Utf8 ErrorId Version Events Aggregate Value Wire Envelope.
From S2P Require Import Wake RawStore Import Log InMemory Repository Decoded Execute Checkpoint State Snapshot.

#[local] Existing Instance target64.
#[local] Existing Instance counter.
#[local] Existing Instance counter_watch.
#[local] Existing Instance list_array_string.
#[local] Existing Instance list_array_vec.
#[local] Instance raw : RawEventStore InMemoryStore := inmemory_raw true.
#[local] Instance raw_spec : RawEventStoreSpec InMemoryStore := inmemory_spec true.

(** One byte of payload per event. *)
#[local] Instance byte_codec : Codec byte := {|
  EncErr := unit; DecErr := unit;
  encode e := Ok [e];
  decode env := match PersistedEnvelope.payload env with [b] => Ok b | _ => Err tt end |}.

Lemma byte_codec_roundtrip (e : byte) b env :
  encode e = Ok b -> PersistedEnvelope.payload env = b ->
  PersistedEnvelope.event_type env = event_name (T := target64) (e : Event) -> persisted_ok env -> decode env = Ok e.
Proof. intros [= <-] Hp _ _. simpl. by rewrite Hp. Qed.

Definition no_meta (v : Version) (e : Event) (p : Payload) : option Metadata := None.

Lemma no_meta_ok v e p m : no_meta v e p = Some m -> metadata_ok m.
Proof. done. Qed.

Definition two_events : Events Event 1 := MkEvents (byte.of_Z 5) [byte.of_Z 2].

Lemma sample_inv : store_inv sample_store.
Proof. apply represents_default. Qed.

Lemma empty_matches : root_matches sample_store counter_root.
Proof. exists [], 0. split_and!; try done. Qed.

(** The store and the root after saving both events on a fresh counter. *)
Definition saved := save no_meta sample_store counter_root two_events.

Lemma saved_ok : exists p, saved = (saved.1.1, saved.1.2, Returns (Ok p)).
Proof. eexists. vm_compute. reflexivity. Qed.

Lemma save_then_load_witness :
  exists r2, load 4 (fun _ => saved.1.1) (root_id counter_root) = Some (Returns (Ok r2)) /\
    root_state r2 = Some 7.
Proof.
  destruct saved_ok as [p Hp].
  destruct (save_then_load no_meta no_meta_ok byte_codec_roundtrip (N := 1) sample_store counter_root two_events
    (fun _ => None) saved.1.1 saved.1.2 p 4
    (Some (MkReadState (stream_key (root_id counter_root)) INITIAL None 256 [] false None)))
    as (_ & _ & r2 & Hr2 & Hst & _).
  - apply represents_default.
  - apply empty_matches.
  - exact Hp.
  - reflexivity.
  - reflexivity.
  - vm_compute. discriminate.
  - exists r2. split; [exact Hr2|]. rewrite Hst. vm_compute. reflexivity.
Defined.

(** A second writer that still holds the fresh root. *)
Lemma saved_store_inv : store_inv saved.1.1.
Proof.
  destruct saved_ok as [p Hp].
  by destruct (save_keeps_match no_meta no_meta_ok byte_codec_roundtrip (N := 1) _ _ _ _ _ _ _
    sample_inv empty_matches Hp).
Qed.

Definition second_batch : PendingBatch.t :=
  match encode_batch no_meta counter_root two_events (fun _ => None) with
  | Returns (Ok b) => b
  | _ => sample_batch
  end.

Lemma stale_save_conflicts_witness :
  exists s' e, save_events no_meta saved.1.1 counter_root two_events (fun _ => None) =
    (s', counter_root, Returns (Err e)) /\ is_conflict e = true.
Proof.
  destruct (save_events no_meta saved.1.1 counter_root two_events (fun _ => None)) as [[s' r'] o] eqn:E.
  destruct (stale_save_conflicts no_meta no_meta_ok (N := 1) saved.1.1 counter_root two_events (fun _ => None) s' r' o)
    as (-> & _ & _ & H).
  - apply saved_store_inv.
  - exact E.
  - vm_compute. discriminate.
  - destruct (H second_batch) as (l & -> & Hc); [vm_compute; reflexivity|exact I|]. eexists _, _. split; [reflexivity|exact Hc].
Defined.

(** A store whose acknowledgements are lost: what it commits it reports as an error. *)
Definition lossy_append (s : InMemoryStore) (id : StreamKey) (expected : option Version) (b : PendingBatch.t)
  : InMemoryStore * panicking (result InMemoryAllPos (AppendError InMemoryStoreError)) :=
  match append s id expected b with
  | (s', Returns (Ok _)) => (s', Returns (Err (AppendStore StoreVersionOverflow)))
  | x => x
  end.

Definition lossy : RawEventStore InMemoryStore :=
  {| SError := SError InMemoryStore; AllPos := AllPos InMemoryStore; Cursor := Cursor InMemoryStore;
     append := lossy_append; read_stream := read_stream; stream_next := stream_next |}.

Lemma lossy_spec : @RawEventStoreSpec InMemoryStore lossy.
Proof.
  refine (@Build_RawEventStoreSpec InMemoryStore lossy store_inv stream_of (@cursor_at _ raw raw_spec) storable _ _ _ _ _ _ _ _);
    cbn [append read_stream stream_next lossy]; unfold lossy_append.
  - apply stream_of_ok.
  - intros s id expected b Hi Hb. pose proof (append_no_panic s id expected b Hi Hb).
    by destruct (append s id expected b) as [s' [[|]|]].
  - intros s id expected b s' p Hi Hb. by destruct (append s id expected b) as [s1 [[|]|]].
  - intros s id expected b s' e Hi Hb. destruct (append s id expected b) as [s1 [[p|x]|]] eqn:E; intros [= <- <-].
    + destruct (append_committed _ _ _ _ _ _ Hi Hb E) as (? & ? & ? & ?). split_and!; [done| |done]. right. by eauto.
    + exact (append_failed (RawEventStoreSpec := raw_spec) _ _ _ _ _ _ Hi Hb E).
  - intros s id expected b Hi Hb Hst Hne. destruct (append_stale s id expected b Hi Hb Hst Hne) as [l Hl]. exists l.
    destruct (append s id expected b) as [s1 [[p|x]|]]; done.
  - intros s id expected b s' l w a Hi Hb Hc. destruct (append s id expected b) as [s1 [[p|x]|]] eqn:E; intros [= <- Hx].
    subst x. exact (append_conflict (RawEventStoreSpec := raw_spec) _ _ _ _ _ _ _ _ Hi Hb Hc E).
  - exact (read_stream_opens (RawEventStoreSpec := raw_spec)).
  - exact (stream_next_spec (RawEventStoreSpec := raw_spec)).
Defined.

(** The save fails, both events are stored, and the retry is a conflict. *)
Lemma failed_save_retry_safe_witness :
  exists s' e l, save_events (R := lossy) no_meta sample_store counter_root two_events (fun _ => None) =
      (s', counter_root, Returns (Err e)) /\
    len (stream_of s' (stream_key (root_id counter_root))) = 2 /\
    (save_events (R := lossy) no_meta s' counter_root two_events (fun _ => None)).2 = Returns (Err (SConflict l None (new 2))).
Proof.
  destruct (save_events (R := lossy) no_meta sample_store counter_root two_events (fun _ => None)) as [[s' r'] o] eqn:E.
  assert (len (stream_of s' (stream_key (root_id counter_root))) = 2) as Hlen
    by (apply (f_equal (fun x => len (stream_of x.1.1 (stream_key (root_id counter_root))))) in E; cbn [fst] in E;
        rewrite <- E; vm_compute; reflexivity).
  destruct (failed_save_retry_safe (R := lossy) (RS := lossy_spec) no_meta no_meta_ok (N := 1) sample_store counter_root two_events
    (fun _ => None) s' r' o) as [He _].
  - apply represents_default.
  - exact E.
  - assert (exists e, o = Returns (Err e)) as [e ->].
    { apply (f_equal snd) in E. cbn [snd] in E. rewrite <- E. eexists. vm_compute. reflexivity. }
    destruct (He e eq_refl) as (-> & _ & _ & _ & [Hsame|(x & b & _ & _ & _ & Hstr & Hretry)]).
    + exfalso. change (stream_of s' (stream_key (root_id counter_root)) = stream_of sample_store (stream_key (root_id counter_root))) in Hsame.
      rewrite Hsame in Hlen. vm_compute in Hlen. discriminate Hlen.
    + destruct (Hretry s') as (s2 & l & Hs2 & _); [|reflexivity|exact I|].
      { apply (save_grows (R := lossy) (RS := lossy_spec) no_meta no_meta_ok _ _ _ _ _ _ sample_inv E). }
      exists s', e, l. split; [reflexivity|]. split; [exact Hlen|]. rewrite Hs2. cbn [snd].
      change (len (@stream_of _ _ lossy_spec s' (stream_key (root_id counter_root))))
        with (len (stream_of s' (stream_key (root_id counter_root)))). rewrite Hlen. reflexivity.
Defined.


(** ** Commands and reactions *)

#[local] Instance repo : Repo (counter target64) InMemoryStore := event_store_repo no_meta.
#[local] Instance repo_spec : RepoSpec (counter target64) InMemoryStore :=
  event_store_repo_spec no_meta no_meta_ok byte_codec_roundtrip.

(** A command adds its byte; zero is ignored. *)
#[local] Instance add_handler : Handle (counter target64) byte 0 := {|
  decide_command st c := if byte.unsigned c =? 0 then Ok None else Ok (Some (MkEvents c [])) |}.

Lemma execute_exact_witness :
  exists s' r' p, execute_inner sample_store counter_root (byte.of_Z 3) =
      (s', r', Returns (Ok (Executed p (MkEvents (byte.of_Z 3) [])))) /\ current_of r' = 1.
Proof.
  destruct (execute_inner sample_store counter_root (byte.of_Z 3)) as [[s' r'] [o|]] eqn:E.
  - destruct (execute_exact sample_store counter_root (byte.of_Z 3) s' r' o) as [_ H].
    + split; [apply represents_default|apply empty_matches].
    + exact E.
    + destruct o as [[|p es]|e];
        [exfalso; apply (f_equal snd) in E; vm_compute in E; discriminate E| |
         exfalso; apply (f_equal snd) in E; vm_compute in E; discriminate E].
      destruct H as (st & st' & Hst & Hd & _ & _ & Hc). simpl in Hst. injection Hst as <-.
      vm_compute in Hd. injection Hd as <-. exists s', r', p. split; [reflexivity|].
      rewrite Hc. reflexivity.
  - exfalso. apply (f_equal snd) in E. vm_compute in E. discriminate E.
Defined.

(** A saga that records every byte it sees and asks for its double. *)
#[local] Instance doubler : Saga (counter target64) := {|
  CorrelationKey := bytes; Command := Z; intent_for e := Some (2 * byte.unsigned e) |}.
#[local] Instance doubler_react : React (counter target64) doubler byte 0 := {|
  correlate _ := Some [byte.of_Z 1]; react_to st e := Ok (Some (MkEvents e [])) |}.

Lemma reaction_projects_recorded_events_witness :
  exists s' r' v p i, react_and_save_inner sample_store counter_root (byte.of_Z 3) =
      (s', r', Returns (Ok (Reacted _ _ v p i))) /\
    intent_view <$> intents_iter i = [([byte.of_Z 1], 1, 6)].
Proof.
  destruct (react_and_save_inner sample_store counter_root (byte.of_Z 3)) as [[s' r'] [[[|v p i]|e]|]] eqn:E;
    [exfalso; apply (f_equal snd) in E; vm_compute in E; discriminate E| |
     exfalso; apply (f_equal snd) in E; vm_compute in E; discriminate E..].
  destruct (reaction_projects_recorded_events sample_store counter_root (byte.of_Z 3) s' r' v p i)
    as (st & produced & Hst & Hp & Hi & _).
  - intros st es Hes. simpl in Hes. injection Hes as <-. vm_compute. discriminate.
  - reflexivity.
  - split; [apply represents_default|apply empty_matches].
  - exact E.
  - exists s', r', v, p, i. split; [reflexivity|]. rewrite Hi. vm_compute in Hp. injection Hp as <-. reflexivity.
Defined.

(** ** Snapshots *)

Definition schema_one : Schema := MkNonZero (max := u32_max) 1 eq_refl.
Definition always (_ : option Version) (_ : Version) (_ : list bytes) : bool := true.

Notation SnapStore := (@InMemorySnapshotStore (State (Aggregate := counter target64)) Version).

Lemma none_honest (s : InMemoryStore) : snapshots_honest schema_one s (snapshots_new : SnapStore).
Proof. intros key v st H. discriminate H. Qed.

Lemma snapshot_save_transparent_witness :
  exists s' ss' r' o, snapshot_save no_meta always schema_one sample_store (snapshots_new : SnapStore) counter_root two_events =
      (s', ss', r', o) /\ snapshots_honest schema_one s' ss'.
Proof.
  destruct (snapshot_save no_meta always schema_one sample_store (snapshots_new : SnapStore) counter_root two_events)
    as [[[s' ss'] r'] o] eqn:E.
  exists s', ss', r', o. split; [reflexivity|].
  apply (snapshot_save_transparent no_meta always schema_one no_meta_ok byte_codec_roundtrip inmemory_adds_one
    sample_store (snapshots_new : SnapStore) counter_root two_events s' ss' r' o).
  - apply sample_inv.
  - apply empty_matches.
  - apply none_honest.
  - exact E.
Defined.

(** A snapshot of the saved root, and a load that starts from it. *)
Definition saved_snapshots : SnapStore := try_save_snapshot schema_one (snapshots_new : SnapStore) saved.1.2 version_two.

Lemma saved_matches : root_matches saved.1.1 saved.1.2.
Proof.
  destruct saved_ok as [p Hp].
  by destruct (save_keeps_match no_meta no_meta_ok byte_codec_roundtrip (N := 1) _ _ _ _ _ _ _
    sample_inv empty_matches Hp) as (_ & ? & _).
Qed.

Lemma saved_honest : snapshots_honest schema_one saved.1.1 saved_snapshots.
Proof.
  apply (save_snapshot_honest schema_one inmemory_adds_one); [apply none_honest|]. intros st Hst.
  assert (as_u64 version_two = current_of saved.1.2) as -> by (vm_compute; reflexivity).
  apply matches_state_at; [apply saved_store_inv|apply saved_matches|exact Hst].
Qed.

Lemma snapshot_load_transparent_witness :
  exists ss' r, snapshot_load schema_one true 4 (fun _ => saved.1.1) saved_snapshots saved_snapshots (root_id counter_root) =
      Some (ss', Returns (Ok r)) /\ root_state r = Some 7.
Proof.
  destruct saved_matches as (evs & st & Henc & Ha & Hst & _).
  destruct (snapshot_load_transparent (A := counter target64) (R := raw) (C := byte_codec) schema_one true byte_codec_roundtrip inmemory_adds_one 4 saved.1.1
    saved_snapshots saved_snapshots (root_id counter_root) evs st) as (ss' & r & r' & _ & Hl & _ & Hs & _ & Hr & _).
  - apply saved_store_inv.
  - intros from. reflexivity.
  - reflexivity.
  - discriminate.
  - apply saved_honest.
  - apply saved_honest.
  - exact Henc.
  - exact Ha.
  - vm_compute. discriminate.
  - exists ss', r'. split; [exact Hl|]. rewrite Hs, Hr, <- Hst. vm_compute. reflexivity.
Defined.

(** ** Decoded streams *)

(** A fold that takes one event and refuses the second. *)
Definition one_only (n : nat) (_ : Decoded bytes) : nat * result () unit :=
  match n with O => (1%nat, Ok ()) | S _ => (n, Err tt) end.

#[local] Instance whole_codec : Codec bytes := {|
  EncErr := unit; DecErr := unit;
  encode e := Ok e;
  decode env := Ok (PersistedEnvelope.payload env) |}.

Lemma for_each_decoded_exact_witness :
  exists ok ds x1, Forall2 (boxed (R := unit)) ok ds /\ accepts one_only 0%nat ds x1 /\
    exists item rest, [Ok sample_persisted; Ok sample_persisted; Err tt] = ok ++ item :: rest /\
      stops_at one_only x1 item 1%nat (FoldHandler tt).
Proof.
  apply (for_each_decoded_exact one_only 0%nat [Ok sample_persisted; Ok sample_persisted; Err tt] 1%nat (Err (FoldHandler tt))).
  reflexivity.
Defined.
