(* ===== verification/MigrationExample.v ===== *)
(** * A migration applied to a stored stream

    The counter of [Examples] with a [#[transforms]] block that takes its events from
    schema 1 to schema 2: two events have been stored at schema 1, a third is saved at
    schema 2, and a load goes through both. *)

From Stdlib Require Import String.
From S2P Require Import Prelude Utf8 Ordered ErrorId Version Events Aggregate Value Wire Envelope Wake RawStore Import Log InMemory Repository.
From S2P Require Import Transforms Migration Examples.
Close Scope string_scope.
Open Scope list_scope.

#[local] Existing Instance target64.
#[local] Existing Instance counter.
#[local] Existing Instance counter_watch.
#[local] Existing Instance list_array_string.
#[local] Existing Instance raw.
#[local] Existing Instance raw_spec.
#[local] Existing Instance byte_codec.

(** A stand-in for the parsers of [syn]: a token is a string, a number or a type. *)
Inductive Token : Type := TStr (s : bytes) | TInt (n : Z) | TType (t : bytes).

Definition token_number (n : Z) : result Z () := if (0 <=? n) && (n <=? u32_max) then Ok n else Err tt.

Lemma token_number_range l n : token_number l = Ok n -> 0 <= n <= u32_max.
Proof. unfold token_number. destruct (Z.leb_spec 0 l), (Z.leb_spec l u32_max); cbn; [|done..]. intros [= <-]. lia. Qed.

#[local] Instance token_syn : Syn := {|
  Tokens := Token; TypeAst := bytes; LitInt := Z; SynError := ();
  parse_type t := match t with TType b => Ok b | _ => Err tt end;
  parse_str t := match t with TStr b => Ok b | _ => Err tt end;
  parse_int t := match t with TInt n => Ok n | _ => Err tt end;
  base10_parse := token_number;
  base10_parse_range := token_number_range |}.

Definition arg (name : string) (value : Token) : Meta := MkMeta (Some (text name)) value.
Definition migration (event : bytes) (from to : Z) : Attribute :=
  MkAttribute (Some (text "transform")) (MkMetaList [arg "event" (TStr event); arg "from" (TInt from); arg "to" (TInt to)] None).
Definition function (name : string) (attrs : list Attribute) : ImplItem :=
  ItemFn (MkFn attrs (MkSignature (text name) false false false false false false false [Typed] true)).

(** [impl Migrations { #[transform(event = .., from = 1, to = 2)] fn widen(payload: &[u8]) -> .. }]. *)
Definition counted : bytes := event_name (byte.of_Z 0 : Event).
Definition block (items : list ImplItem) : ItemImpl := MkItemImpl [] false false false false false (TyPath (MkTypePath false false [(text "Migrations", false)])) items.
Definition one_step : ItemImpl := block [function "widen" [migration counted 1 2]].
Definition block_args : MetaList := MkMetaList [arg "aggregate" (TType (text "Counter")); arg "error" (TType (text "Never"))] None.

Definition one_step_edges : list Transform := [MkTransform (text "widen") counted 1 2 None].
Definition one_step_code : Generated := MkGenerated [] (text "Migrations") (text "Never") [function "widen" []]
  [MkMatchArm counted 1 (text "widen") counted 2] [(counted, 2)] [(counted, 2)].

Lemma one_step_expands : expand one_step block_args = Ok one_step_code.
Proof. reflexivity. Qed.

(** A gap, a second function from the same schema, and a chain that stops early are
    refused. *)
Example rejected_blocks :
  expand (block [function "f" [migration counted 1 3]]) block_args = Err (NonContiguous 3 2) /\
  expand (block [function "f" [migration counted 2 3]]) block_args = Err (NoTransformProduces counted 2) /\
  expand (block [function "f" [migration counted 1 2]; function "g" [migration counted 1 2]]) block_args = Err (DuplicateTransform counted 1) /\
  expand (block [function "f" [migration counted u32_max 1]]) block_args = Err PastLastSchema.
Proof. split_and!; reflexivity. Qed.

(** The function of the block: payloads stay as they are. *)
Definition widen (method payload : bytes) : result bytes Empty_set := Ok payload.

Lemma generated_upcast_exact_witness :
  exists edges r, definitions (im_items one_step) = Ok edges /\
    upcast widen one_step_code 2 (EventMorsel.borrowed counted SchemaVersion.INITIAL [byte.of_Z 7]) = Some (Returns r) /\
    upcast_result widen edges (EventMorsel.borrowed counted SchemaVersion.INITIAL [byte.of_Z 7]) r.
Proof. apply (generated_upcast_exact widen one_step block_args); [exact one_step_expands|cbn; lia]. Defined.

Lemma declared_schemas_reachable_witness : exists name, rtc (leads one_step_edges) (name, 1) (counted, 2).
Proof.
  apply (declared_schemas_reachable one_step block_args one_step_code); [exact one_step_expands|reflexivity|].
  right. left.
Defined.

(** The stream of schema 1 stands for the same events. *)
Lemma saved_matches_migrated : root_matches_by (holds_event widen one_step_code) saved.1.1 saved.1.2.
Proof.
  exists [byte.of_Z 5; byte.of_Z 2], 7. split_and!; [|vm_compute; reflexivity..].
  assert (exists p1 p2, stream_of saved.1.1 (stream_key (root_id saved.1.2)) = [p1; p2] /\
    (morsel_of p1 = EventMorsel.borrowed counted SchemaVersion.INITIAL [byte.of_Z 5] /\ pe_metadata p1 = None) /\
    (morsel_of p2 = EventMorsel.borrowed counted SchemaVersion.INITIAL [byte.of_Z 2] /\ pe_metadata p2 = None)) as (p1 & p2 & -> & [H1 M1] & [H2 M2]).
  { eexists _, _. split; [vm_compute; reflexivity|]. split_and!; vm_compute; reflexivity. }
  assert (forall pe (e : byte), morsel_of pe = EventMorsel.borrowed counted SchemaVersion.INITIAL [e] -> pe_metadata pe = None -> holds_event widen one_step_code pe (e : Event)) as Hold.
  { intros pe e Hm Hmd. unfold holds_event. rewrite Hm, Hmd. eexists. split; [reflexivity|]. split_and!; [reflexivity|reflexivity|right]. by vm_compute. }
  repeat constructor; by apply Hold.
Qed.

(** The store and the root after a third event, saved at schema 2. *)
Definition one_event : Events Event 0 := MkEvents (byte.of_Z 1) [].
Definition widened := save_with no_meta saved.1.1 saved.1.2 one_event (schema_table one_step_code).

Lemma widened_ok : exists p, widened = (widened.1.1, widened.1.2, Returns (Ok p)).
Proof. eexists. vm_compute. reflexivity. Qed.

Lemma migrated_history_roundtrip_witness :
  exists r2, load_with (fun _ => Ok () : result () ()) (run_upcast widen one_step_code) 4 (fun _ => widened.1.1) (root_id saved.1.2) = Some (Returns (Ok r2)) /\
    root_state r2 = Some 8.
Proof.
  destruct widened_ok as [p Hp].
  destruct (migrated_history_roundtrip no_meta no_meta_ok byte_codec_roundtrip widen (fun _ => Ok () : result () ()) (fun _ => eq_refl) (N := 0)
    one_step block_args one_step_code one_step_edges saved.1.1 saved.1.2 one_event widened.1.1 widened.1.2 p 4
    (Some (MkReadState (stream_key (root_id counter_root)) INITIAL None 256 [] false None))) as (_ & _ & r2 & Hl & Hst & _).
  - exact one_step_expands.
  - reflexivity.
  - constructor; [|constructor]. intros v [_ Hmax] Hin. apply list_elem_of_singleton in Hin. injection Hin as ->.
    assert (2 <= 1); [|lia]. apply (Hmax 2). right. left.
  - exact saved_store_inv.
  - exact saved_matches_migrated.
  - exact Hp.
  - reflexivity.
  - reflexivity.
  - vm_compute. discriminate.
  - exists r2. split; [exact Hl|]. rewrite Hst. vm_compute. reflexivity.
Defined.
