(* ===== verification/EngineExample.v ===== *)
(** * The command engine on a concrete store

    The counter aggregate behind a command engine over the in-memory store, with
    requests, receipts and facts of one byte each: the theorems of [Engine] applied
    to calls on an empty stream. *)

From S2P Require Import Prelude Utf8 ErrorId Version Events Aggregate Value Wire Envelope.
From S2P Require Import Wake RawStore Import Log InMemory Repository Execute Command Engine Host.

#[local] Existing Instance target64.
#[local] Existing Instance counter.
#[local] Existing Instance counter_watch.
#[local] Existing Instance list_array_string.
#[local] Existing Instance list_array_vec.
#[local] Instance raw : RawEventStore InMemoryStore := inmemory_raw true.
#[local] Instance raw_spec : RawEventStoreSpec InMemoryStore := inmemory_spec true.

(** Adding zero is accepted and changes nothing. *)
#[local] Instance add_handler : Handle (counter target64) byte 0 := {|
  decide_command st c := if byte.unsigned c =? 0 then Ok None else Ok (Some (MkEvents c [])) |}.

(** A serialization of small records: one byte per field, then the facts. *)
Definition small_to_writer (cap : Z) (r : AcceptanceRecord byte byte byte) : result bytes () :=
  let b := [byte.of_Z (ar_schema r); rq_id (ar_request r);
            byte.of_Z (from_option as_u64 0 (rq_expected (ar_request r))); rq_command (ar_request r);
            rc_id (ar_receipt r); byte.of_Z (as_u64 (rc_version (ar_receipt r)));
            byte.of_Z (rc_events (ar_receipt r))] ++ ar_facts r in
  if len b <=? cap then Ok b else Err ().

Definition small_from_slice (b : bytes) : result (AcceptanceRecord byte byte byte) () :=
  match b with
  | schema :: id :: expected :: command :: rid :: version :: events :: facts =>
      match new (byte.unsigned version) with
      | Some v => Ok (MkRecord (byte.unsigned schema) (MkRequest id (new (byte.unsigned expected)) command)
                       (MkReceipt rid v (byte.unsigned events)) facts)
      | None => Err ()
      end
  | _ => Err ()
  end.

#[local] Instance small_json : Json () (AcceptanceRecord byte byte (@Event target64 (counter target64))).
Proof.
  refine {| to_writer := small_to_writer; from_slice := small_from_slice |}.
  intros cap v b. unfold small_to_writer. cbv zeta. set (w := _ ++ _).
  destruct (Z.leb_spec (len w) cap); [|done]. by intros [= <-].
Defined.

Notation no_write_zero := (fun _ : () => false).

Definition first_request : Request byte byte := MkRequest (byte.of_Z 9) None (byte.of_Z 5).
Definition counter_engine : Engine (C := byte) (I := byte) := engine_new [byte.of_Z 1] None.
Definition counter_key : StreamKey := stream_key (A := counter target64) [byte.of_Z 1].

Definition quiet : InMemoryStore * list Attempt := (sample_store, []).

Lemma quiet_ok : world_ok (N := 0) (A := counter target64) (C := byte) (I := byte) counter_key quiet.
Proof.
  split_and!; [apply represents_default| |constructor]. exists []. split; [constructor|constructor].
Qed.

Definition still (w : InMemoryStore * list Attempt) : nat -> InMemoryStore * list Attempt := fun _ => w.

Definition served (wr : WriteRun) :=
  submit no_write_zero (N := 0) (MkRun (stores <$> Some (still quiet)) quiet.1 wr None) counter_engine first_request.

Lemma served_receipt : (served Answered).2 = Returns (Ok (MkReceipt (byte.of_Z 9) INITIAL 1)).
Proof. vm_compute. reflexivity. Qed.

Lemma submit_exactly_once_witness :
  exists recs r, records_of counter_key (served Answered).1.1.1 recs /\ r ∈ recs /\ ar_request r = first_request /\
    ar_receipt r = MkReceipt (byte.of_Z 9) INITIAL 1.
Proof.
  destruct (served Answered) as [[[s2 e'] flight] o] eqn:Hs.
  destruct (submit_exactly_once no_write_zero counter_key (N := 0) (Some (still quiet)) None quiet quiet
    (s2, flight ++ quiet.2) Answered counter_engine first_request s2 e' flight o) as (_ & recs & Hrecs & _ & _ & Hr).
  - reflexivity.
  - apply quiet_ok.
  - split_and!; intros; apply rtc_refl.
  - exact Hs.
  - apply rtc_refl.
  - destruct (Hr (MkReceipt (byte.of_Z 9) INITIAL 1)) as (r & Hin & Hreq & Hrc & _).
    + pose proof served_receipt as Ho. rewrite Hs in Ho. exact Ho.
    + exists recs, r. split_and!; [exact Hrecs|exact Hin|exact Hreq|exact Hrc].
Defined.

(** The append of the first request is left in flight: the engine holds the request. *)
Lemma held_request : en_pending (served (Unanswered None)).1.1.2 = Some first_request.
Proof. vm_compute. reflexivity. Qed.

Lemma no_forgotten_write_witness :
  let '(s2, e', flight, _) := served (Unanswered None) in
  forall a w' s' p, a ∈ flight ++ [] -> rtc (move (N := 0) (A := counter target64) (C := byte) (I := byte) counter_key) (s2, flight ++ quiet.2) w' ->
    append w'.1 counter_key (at_expected a) (at_batch a) = (s', Returns (Ok p)) ->
    exists r pe, PendingBatch.iter (at_batch a) = [pe] /\ pending_record pe = Ok r /\ ar_request r = first_request.
Proof.
  destruct (served (Unanswered None)) as [[[s2 e'] flight] o] eqn:Hs.
  destruct (no_forgotten_write (A := counter target64) no_write_zero counter_key (N := 0) [byte.of_Z 1] quiet
    (s2, flight ++ quiet.2) e' (flight ++ [])) as [Hland _].
  - reflexivity.
  - apply quiet_ok.
  - apply rtc_once. eapply (es_submit no_write_zero counter_key quiet (Some (still quiet)) quiet (Unanswered None) None).
    + split_and!; intros; apply rtc_refl.
    + exact Hs.
    + apply rtc_refl.
  - intros a w' s' p Ha Hm Happ. destruct (Hland a w' s' p Ha Hm Happ) as (r & pe & Hit & Hpe & Hp).
    exists r, pe. split_and!; [exact Hit|exact Hpe|]. pose proof held_request as Hh. rewrite Hs in Hh. simpl in Hh.
    rewrite Hh in Hp. injection Hp as Hp. exact (eq_sym Hp).
Defined.

Lemma read_serial_witness :
  exists recs, records_of (A := counter target64) (C := byte) (I := byte) counter_key sample_store recs /\
    domain_of recs = Returns 0.
Proof.
  destruct (read no_write_zero (N := 0) (stores <$> Some (still quiet)) counter_engine) as [e' o] eqn:Hr.
  assert (o = Returns (Ok (None, 0))) as Ho by (apply (f_equal snd) in Hr; vm_compute in Hr; exact (eq_sym Hr)).
  rewrite Ho in Hr.
  destruct (read_serial no_write_zero counter_key (N := 0) (Some (still quiet)) quiet quiet counter_engine e' None 0)
    as (_ & recs & all & Hall & [k Hk] & _ & _ & Hv & Hd).
  - reflexivity.
  - apply quiet_ok.
  - split_and!; intros; apply rtc_refl.
  - exact Hr.
  - exists all. assert (all = []) as E by (by apply Forall2_nil_inv_l in Hall).
    rewrite E in *. destruct recs as [|r recs]; [|discriminate Hk]. split; [exact Hall|exact Hd].
Defined.

(** ** A host *)

Definition request_to_writer (cap : Z) (r : Request byte byte) : result bytes () :=
  let b := [rq_id r; byte.of_Z (from_option as_u64 0 (rq_expected r)); rq_command r] in
  if len b <=? cap then Ok b else Err ().

Definition request_from_slice (b : bytes) : result (Request byte byte) () :=
  match b with
  | [id; expected; command] => Ok (MkRequest id (new (byte.unsigned expected)) command)
  | _ => Err ()
  end.

#[local] Instance request_json : Json () (Request byte byte).
Proof.
  refine {| to_writer := request_to_writer; from_slice := request_from_slice |}.
  intros cap v b. unfold request_to_writer. cbv zeta. set (w := [_; _; _]).
  destruct (Z.leb_spec (len w) cap); [|done]. by intros [= <-].
Defined.

Notation CounterSys := ((InMemoryStore * list Attempt) * Engine (A := counter target64) (C := byte) (I := byte) * list Attempt)%type.

#[local] Instance counter_ops : EngineOps (D := @AError target64 (counter target64)) (C := byte) (I := byte) (E := SError InMemoryStore) (J := ())
  (St := @State target64 (counter target64)) CounterSys := engine_ops (N := 0) no_write_zero counter_key.

Notation CounterHost := (Host (D := @AError target64 (counter target64)) (C := byte) (I := byte) (E := SError InMemoryStore) (J := ())
  (St := @State target64 (counter target64)) CounterSys).

Notation counter_host_step := (host_step (D := @AError target64 (counter target64)) (E := SError InMemoryStore) (J := ())
  (St := @State target64 (counter target64)) (G := CounterSys) no_write_zero 4).

(** The engine after its append is left in flight. *)
Definition left_sys : CounterSys :=
  ((served (Unanswered None)).1.1.1, (served (Unanswered None)).1.2 ++ quiet.2, (served (Unanswered None)).1.1.2, (served (Unanswered None)).1.2 ++ []).

Definition first_call : nat * Message (C := byte) (I := byte) := (0%nat, MSubmit first_request).

Lemma first_serves : serves ((quiet, counter_engine, []) : CounterSys) first_call.2 left_sys
  (replied (A := counter target64) (C := byte) (I := byte) (J := ()) (S := InMemoryStore) RSubmit (served (Unanswered None)).2).
Proof.
  refine (serves_submit no_write_zero counter_key quiet (Some (still quiet)) quiet (Unanswered None) None _ counter_engine
    first_request (served (Unanswered None)).1.1.1 _ _ _ [] _ _ _).
  - repeat split; intros; apply rtc_refl.
  - transitivity (served (Unanswered None)); [reflexivity|]. by destruct (served (Unanswered None)) as [[[? ?] ?] ?].
  - apply rtc_refl.
Qed.

(** One call is admitted and its append left in flight; the host is stopped and ends. *)
Definition begun : CounterHost := host_new (quiet, counter_engine, []).
Definition waiting : CounterHost := set_waiting begun [(first_call, Reserved)] 0.
Definition queued : CounterHost := send_locked (set_waiting waiting [] 0) first_call Reserved.
Definition running : CounterHost := run_call (run_recv (run_select (run_top queued))) first_call.
Definition replied_sys : CounterHost := set_worker (answer (set_engine running left_sys) first_call (Some (RSubmit (Err (Uncertain (byte.of_Z 9) None))))) AtTop.
Definition told : CounterHost := stop replied_sys.
Definition ended_host : CounterHost :=
  drain (hands_over left_sys) (close (set_worker (stop (run_top told)) AtClose)).

Lemma uncertain_reply :
  replied (A := counter target64) (C := byte) (I := byte) (J := ()) (S := InMemoryStore) RSubmit (served (Unanswered None)).2 =
    Some (RSubmit (Err (Uncertain (byte.of_Z 9) None))).
Proof. vm_compute. reflexivity. Qed.

Lemma told_reachable : rtc counter_host_step begun told.
Proof.
  eapply rtc_l; [apply (step_reserve no_write_zero 4 begun 0%nat (MSubmit first_request)); [reflexivity|by split_and!; apply not_elem_of_nil|vm_compute; reflexivity]|].
  eapply rtc_l; [apply (step_admit no_write_zero 4 waiting [] first_call Reserved []); reflexivity|].
  eapply rtc_l; [apply (step_top no_write_zero 4 queued); reflexivity|].
  eapply rtc_l; [apply (step_select no_write_zero 4 (run_top queued)); reflexivity|].
  eapply rtc_l; [apply (step_recv no_write_zero 4 (run_select (run_top queued))); reflexivity|].
  eapply rtc_l; [apply (step_call no_write_zero 4 (run_recv (run_select (run_top queued))) first_call); reflexivity|].
  eapply rtc_l; [apply (step_execute no_write_zero 4 running first_call left_sys (RSubmit (Err (Uncertain (byte.of_Z 9) None)))); [reflexivity|]|].
  { rewrite <- uncertain_reply. apply first_serves. }
  apply rtc_once. apply (step_stop no_write_zero 4 replied_sys).
Qed.

Lemma ended_reachable : rtc counter_host_step begun ended_host.
Proof.
  transitivity told; [apply told_reachable|].
  eapply rtc_l; [apply (step_top no_write_zero 4 told); reflexivity|].
  eapply rtc_l; [apply (step_drop no_write_zero 4 (run_top told)); reflexivity|].
  eapply rtc_l; [apply (step_close no_write_zero 4 (set_worker (stop (run_top told)) AtClose)); reflexivity|].
  apply rtc_once. apply (step_drain no_write_zero 4 (close (set_worker (stop (run_top told)) AtClose))). reflexivity.
Qed.

Lemma host_serves_in_order_witness :
  exists served lost rejected, h_admitted ended_host = served.*1 ++ lost ++ rejected /\
    runs (EO := counter_ops) (quiet, counter_engine, []) served lost left_sys /\
    h_handoff ended_host = engine_drop left_sys.1.2.
Proof.
  destruct (host_serves_in_order (EO := counter_ops) no_write_zero 4 (hands_over_moved counter_key) (quiet, counter_engine, []) ended_host)
    as (served & lost & rejected & refused & _ & _ & Hruns & _ & _ & _ & _ & Hend).
  - lia.
  - exact ended_reachable.
  - destruct (Hend eq_refl) as [Hadm Hhand]. exists served, lost, rejected. split_and!; [exact Hadm|exact Hruns|exact Hhand].
Defined.

(** The host that was told to stop needs five steps of its own. *)
Lemma host_stops_witness : h_worker (Nat.iter 5 (worker_next (EO := counter_ops)) told) = AtEnd.
Proof. apply (host_stops (EO := counter_ops) told); reflexivity. Defined.

(** The append it left in flight is the one of the request it hands over. *)
Lemma host_forgets_no_write_witness :
  h_handoff ended_host = Some first_request /\
  (forall a w' s' p, a ∈ left_sys.2 -> rtc (move (N := 0) (A := counter target64) (C := byte) (I := byte) counter_key) left_sys.1.1 w' ->
    append w'.1 counter_key (at_expected a) (at_batch a) = (s', Returns (Ok p)) ->
    exists r pe, PendingBatch.iter (at_batch a) = [pe] /\ pending_record pe = Ok r /\ h_handoff ended_host = Some (ar_request r)).
Proof.
  destruct (host_forgets_no_write (A := counter target64) no_write_zero counter_key (N := 0) 4 quiet counter_engine [] ended_host
    left_sys.1.1 left_sys.1.2 left_sys.2) as [Hland _].
  - lia.
  - split_and!; [reflexivity|apply quiet_ok|constructor].
  - exact ended_reachable.
  - reflexivity.
  - reflexivity.
  - split; [exact held_request|exact Hland].
Defined.
