(* ===== verification/FjallExample.v ===== *)
(** * Concrete runs of the embedded adapter

    A new database on the in-memory engine, one appended event, and the adapter's
    theorems applied to it: their hypotheses hold together there. *)

From S2P Require Import Prelude Utf8 ErrorId Version Value Wire Envelope RawStore Repository Checkpoint State.
From S2P Require Import Wake Import Log InMemory WireKey Lsm Fjall FjallSpec FjallContract FjallState FjallHistory.
From S2P Require Import FjallBlocking FjallAsync Export FjallExport.

#[local] Existing Instance target64.
#[local] Existing Instance counter_watch.
#[local] Existing Instance list_array_string.
#[local] Existing Instance map_lsm.
#[local] Existing Instance map_lsm_spec.
#[local] Existing Instance map_lsm_reliable.

Lemma wide64 : u32_max + MAX_KEY_LEN <= usize_max.
Proof. vm_compute. discriminate. Qed.

(** ** A database with one event *)

(** The database [storage_open] leaves for a new directory. *)
Definition new_db : Db (Lsm := map_lsm) := (storage_open [] Denormalized Buffered).1.
Definition new_store : Storage := MkStorage Buffered new_db Denormalized notifiers_new.

Lemma new_reopens : storage_open new_db Denormalized Buffered = (new_db, Ok new_store).
Proof. vm_cast_no_check (eq_refl (new_db, Ok (E := FjallError) new_store)). Qed.

Lemma new_opens : storage_open [] Denormalized Buffered = (new_db, Ok new_store).
Proof. vm_cast_no_check (eq_refl (new_db, Ok (E := FjallError) new_store)). Qed.

Lemma new_stores : stores new_store [].
Proof.
  destruct (storage_open_Ok _ _ _ _ _ new_opens) as (_ & _ & [[H _]|[_ H]]); [vm_compute in H; discriminate|exact H].
Qed.

Definition one_store : Storage := (storage_append new_store sample_key None sample_batch).1.
Definition one_log : Log := [(sample_key, sample_envelope INITIAL)].

Definition accepted {A B} (o : panicking (result A B)) : bool := match o with Returns (Ok _) => true | _ => false end.

Lemma accepted_Ok {A B} (o : panicking (result A B)) : accepted o = true -> exists a, o = Returns (Ok a).
Proof. destruct o as [[a|b]|]; [eauto|done..]. Qed.

Lemma one_appends : exists p, storage_append new_store sample_key None sample_batch = (one_store, Returns (Ok p)).
Proof.
  destruct (accepted_Ok (storage_append new_store sample_key None sample_batch).2) as [p Hp]; [vm_compute; reflexivity|].
  exists p. rewrite <- Hp. apply surjective_pairing.
Qed.

Lemma one_stores : stores one_store one_log.
Proof.
  destruct one_appends as [p Hp]. pose proof (storage_append_spec new_store [] sample_key None sample_batch new_stores sample_batch_ok) as H.
  rewrite Hp in H. by destruct H as (? & _).
Qed.

(** ** Writing *)

Lemma fjall_append_atomic_witness : exists s' p, storage_append new_store sample_key None sample_batch = (s', Returns (Ok p)) /\ stores s' one_log.
Proof.
  destruct one_appends as [p Hp].
  destruct (fjall_append_atomic new_store [] sample_key None sample_batch _ _ new_stores sample_batch_ok Hp)
    as [(p' & E & Hs & _)|(e & E & _)]; [|discriminate E].
  exists one_store, p. split; [exact Hp|exact Hs].
Defined.

Lemma fjall_append_refines_log_witness : exists s' p, storage_append new_store sample_key None sample_batch = (s', Returns (Ok p)).
Proof.
  destruct (fjall_append_refines_log new_store [] sample_key None sample_batch new_stores sample_batch_ok) as (_ & [_ H] & _).
  apply H. split; [split; vm_compute; discriminate|]. split; [repeat constructor; vm_compute; discriminate|].
  split; [reflexivity|]. split; [repeat constructor|vm_compute; discriminate].
Defined.

(** Two runs on two fresh streams. *)
Definition other_key : StreamKey := MkStreamKey [byte.of_Z 98].
Definition two_writes : list PlannedAppend :=
  [MkPlanned sample_key None (sample_envelope INITIAL) []; MkPlanned other_key None (sample_envelope INITIAL) []].

Lemma two_writes_ok : Forall write_ok two_writes.
Proof. constructor; [exact sample_batch_ok|]. constructor; [exact sample_batch_ok|constructor]. Qed.

Lemma fjall_atomic_all_or_nothing_witness :
  exists s' p, storage_atomic_append new_store two_writes = (s', Returns (Ok p)) /\ stores s' (writes_log two_writes).
Proof.
  destruct (accepted_Ok (storage_atomic_append new_store two_writes).2) as [p Hp]; [vm_compute; reflexivity|].
  destruct (fjall_atomic_all_or_nothing new_store [] two_writes _ _ new_stores
    two_writes_ok (surjective_pairing _)) as [(p' & E & Hs & _)|(e & E & _)];
    [|rewrite Hp in E; discriminate E].
  eexists _, p'. split; [rewrite <- E; apply surjective_pairing|exact Hs].
Defined.

(** ** Reading *)

Lemma is_ok_Ok {A E} (r : result A E) : is_ok r = true -> exists a, r = Ok a.
Proof. destruct r; [eauto|done]. Qed.

Lemma one_reads : exists c, storage_read_stream one_store sample_key INITIAL = Ok c.
Proof. apply is_ok_Ok. vm_compute. reflexivity. Qed.

Lemma fjall_read_stream_exact_witness :
  exists c envs, storage_read_stream one_store sample_key INITIAL = Ok c /\
    from_persisted <$> envs = [sample_envelope INITIAL] /\
    (drain (S (length (iter c))) c = Ok <$> envs \/
     exists pre e, pre `prefix_of` envs /\ drain (S (length (iter c))) c = (Ok <$> pre) ++ [Err (FjallError.Io e)]).
Proof.
  destruct one_reads as [c Hc].
  destruct (fjall_read_stream_exact wide64 one_store one_log sample_key INITIAL c (S (length (iter c))) one_stores Hc)
    as (envs & Henvs & _ & Hd); [apply Nat.lt_succ_diag_r|].
  exists c, envs. split; [exact Hc|]. split; [exact Henvs|exact Hd].
Defined.

Lemma fjall_read_all_exact_witness : exists c, storage_read_all one_store None = Ok c.
Proof.
  destruct (fjall_read_all_exact wide64 one_store one_log None 1 one_stores) as [_ H].
  destruct (H eq_refl) as (c & Hc & _). exists c. exact Hc.
Defined.

Lemma fjall_list_streams_exact_witness : exists ids : list StreamKey, forall id, id ∈ ids <-> log_stream id one_log <> [].
Proof.
  destruct (fjall_list_streams_exact one_store one_log (S (length (id_iter (storage_list_streams one_store)))) one_stores)
    as (ids & _ & H & _); [apply Nat.lt_succ_diag_r|].
  exists ids. exact H.
Defined.

(** ** Opening and state *)

Lemma fjall_open_keeps_log_witness : stores new_store [].
Proof.
  destruct (fjall_open_keeps_log ([] : Db (Lsm := map_lsm)) Denormalized Buffered new_db (Ok new_store) new_opens) as (_ & H & _).
  destruct (H new_store eq_refl) as (_ & _ & [[E _]|[_ Hs]]); [vm_compute in E; discriminate E|exact Hs].
Defined.

Definition show_id (id : bytes) : list bytes := [id].
Definition schema1 : Schema := MkNonZero (max := u32_max) 1 eq_refl.

Definition snapped : Storage := (fjall_snapshot_commit one_store [byte.of_Z 97] schema1 INITIAL [byte.of_Z 7]).1.

Lemma one_snapshots : fjall_snapshot_commit one_store [byte.of_Z 97] schema1 INITIAL [byte.of_Z 7] = (snapped, Ok ()).
Proof.
  destruct (is_ok_Ok (fjall_snapshot_commit one_store [byte.of_Z 97] schema1 INITIAL [byte.of_Z 7]).2) as [[] H];
    [vm_compute; reflexivity|]. rewrite <- H. apply surjective_pairing.
Qed.

Lemma fjall_snapshot_roundtrip_witness :
  fjall_hydrate show_id snapped [byte.of_Z 97] schema1 = Ok (HFound INITIAL [byte.of_Z 7]) /\ stores snapped one_log.
Proof.
  destruct (fjall_snapshot_roundtrip show_id one_store [byte.of_Z 97] schema1 INITIAL [byte.of_Z 7] snapped one_snapshots)
    as (H & _ & Hs).
  split; [rewrite H, bool_decide_true by reflexivity; reflexivity|apply Hs, one_stores].
Defined.

(** The directory of [snapped] closed, refused in the other mode, and opened again. *)
Definition refused_db : Db (Lsm := map_lsm) := (storage_open (st_db snapped) Disabled Buffered).1.

Lemma snapped_refused :
  exists e, storage_open (st_db snapped) Disabled Buffered = (refused_db, Err e).
Proof.
  destruct (storage_open (st_db snapped) Disabled Buffered).2 as [s|e] eqn:E; [|exists e; rewrite <- E; apply surjective_pairing].
  apply (f_equal is_ok) in E. vm_compute in E. discriminate E.
Qed.

Lemma snapped_reopens : exists db' s, storage_open refused_db Denormalized Buffered = (db', Ok s).
Proof.
  destruct (is_ok_Ok (storage_open refused_db Denormalized Buffered).2) as [s Hs]; [vm_compute; reflexivity|].
  eexists _, s. rewrite <- Hs. apply surjective_pairing.
Qed.

Lemma fjall_history_grows_witness : exists s l, fjall_inv Denormalized (Opened s) l.
Proof.
  destruct one_appends as [p Hp]. destruct snapped_refused as [e Hbad]. destruct snapped_reopens as (db' & s & Hgood).
  destruct (fjall_history_grows show_id Denormalized (Closed new_db) [] (Opened s)) as (l & _ & Hl).
  - split; [exact new_stores|vm_compute; reflexivity|discriminate].
  - eapply rtc_l; [exact (step_open show_id _ _ _ _ _ new_reopens)|].
    eapply rtc_l; [exact (step_append show_id _ _ _ _ _ _ sample_batch_ok Hp)|].
    eapply rtc_l; [exact (step_snapshot show_id _ _ _ _ _ _ _ one_snapshots)|].
    eapply rtc_l; [apply step_close|].
    eapply rtc_l; [exact (step_open_failed show_id _ _ _ _ _ Hbad)|].
    apply rtc_once. exact (step_open show_id _ _ _ _ _ Hgood).
  - exists s, l. exact Hl.
Defined.

(** ** The worker *)

Definition nz_usize (z : Z) (H : nz_in usize_max z = true) : NonZero usize_max := MkNonZero z H.

(** Two rows, or one byte, per batch. *)
Definition small_config : BlockingConfig :=
  MkBlockingConfig (nz_usize 4 eq_refl) (nz_usize 4 eq_refl) (nz_usize 2 eq_refl) (nz_usize 1 eq_refl).

Lemma store_append_atomic_witness : exists s' p,
  store_append [byte.of_Z 33] new_store sample_key None sample_batch Executed = (s', Ok p) /\ stores s' one_log.
Proof.
  destruct (store_append [byte.of_Z 33] new_store sample_key None sample_batch Executed) as [s' r] eqn:E.
  pose proof (store_append_atomic [byte.of_Z 33] new_store [] sample_key None sample_batch Executed s' r
    new_stores sample_batch_ok E) as H.
  assert (is_ok r = true) as [p ->]%is_ok_Ok by (apply (f_equal (fun x => is_ok x.2)) in E; cbn [snd] in E; rewrite <- E; vm_compute; reflexivity).
  exists s', p. split; [reflexivity|apply H].
Defined.

Lemma one_streams : exists bs, store_read_stream [byte.of_Z 33] one_store sample_key INITIAL small_config None Executed = Ok bs.
Proof. apply is_ok_Ok. vm_compute. reflexivity. Qed.

Lemma store_read_stream_exact_witness :
  exists bs envs, store_read_stream [byte.of_Z 33] one_store sample_key INITIAL small_config None Executed = Ok bs /\
    from_persisted <$> envs = [sample_envelope INITIAL].
Proof.
  destruct one_streams as [bs Hbs].
  destruct (store_read_stream_exact [byte.of_Z 33] one_store one_log sample_key INITIAL small_config Executed bs [NotYet; Runs]
    wide64 ltac:(vm_compute; discriminate) one_stores Hbs) as (envs & H & _).
  exists bs, envs. split; [exact Hbs|exact H].
Defined.

(** A cursor over numbers, one byte each. *)
#[local] Instance nat_rows : RowCursor (list nat) := {|
  RowItem := nat;
  next_row c := match c with [] => (None, []) | n :: c => (Some (Ok n, 1), c) end;
|}.

Lemma nat_drains l : drains (C := list nat) 1 l (Ok <$> l).
Proof.
  induction l as [|n l IH]; [by eapply (drains_end (RC := nat_rows))|].
  by apply (drains_row (RC := nat_rows) 1 (n :: l) n 1 l).
Qed.

Lemma blocking_stream_exact_witness :
  (2 <= length (polls (stream_new [5%nat; 6%nat; 7%nat] small_config) [NotYet; Runs; NotYet; Runs]))%nat.
Proof.
  destruct (blocking_stream_exact 1 [5%nat; 6%nat; 7%nat] small_config (Ok <$> [5%nat; 6%nat; 7%nat])
    [NotYet; Runs; NotYet; Runs] (nat_drains _)) as [_ [H _]]; [lia|vm_compute; discriminate|].
  exact H.
Defined.

(** One job in each queue; both closed. *)
Definition busy_channels (b : bool) : Channels := MkChannels (MkChannel [1%nat] b) (MkChannel [2%nat] b).
Definition busy (b : bool) : Worker := MkWorker (Both Cleanup) (busy_channels b) [].
Definition busy_sent : list (Queue * nat) := [(Jobs, 1%nat); (Cleanup, 2%nat)].

Lemma busy_moves : worker_moves (busy true) busy_sent.
Proof.
  apply (moves_close (MkWorker (Both Cleanup) (MkChannels (MkChannel [1%nat] true) (MkChannel [2%nat] false)) []) busy_sent Cleanup).
  apply (moves_close (busy false) busy_sent Jobs).
  apply (moves_send (MkWorker (Both Cleanup) (MkChannels (MkChannel [1%nat] false) (MkChannel [] false)) []) [(Jobs, 1%nat)] Cleanup 2%nat);
    [|done].
  apply (moves_send worker_new [] Jobs 1%nat); [constructor|done].
Qed.

Lemma worker_runs_every_job_witness : w_open (iterate 4 (busy true)) = NoneOpen.
Proof.
  destruct (worker_runs_every_job (busy true) busy_sent busy_moves) as [_ H].
  apply H; [intros []; reflexivity|apply Nat.le_refl].
Defined.

Lemma worker_is_fair_witness : (Jobs, 1%nat) ∈ w_ran (iterate 2 (busy false)).
Proof.
  apply (worker_is_fair (busy false) (iterate 1 (busy false)) (iterate 1 (busy false)) (iterate 2 (busy false))
    Cleanup Jobs 1%nat []); [reflexivity..| |reflexivity].
  split; [reflexivity|]. split; [reflexivity|]. intros q. reflexivity.
Defined.

(** ** An export session *)

Definition one_views : Views := MkViews {[1 := MkView (st_db one_store) 161]} (Some 2).
Definition one_lease : Lease := MkLease 1 161.

Lemma one_session : fjall_open_export_session 1000 one_store views_default 60 100 None Executed 101 = (one_views, Ok one_lease).
Proof. reflexivity. Qed.

(** A fetch that is awaited once, while another session is opened and closed. *)
Definition two_views : Views := (views_open 1000 one_views one_store 60 111).1.

Definition session_polls : list (Z * FetchAnswer) :=
  [(110, FetchPending); (120, FetchRan (views_remove two_views 2) 111); (130, FetchPending)].

Lemma session_polls_meet : meets 1000 one_lease (MkViewWorld one_views 101) session_polls.
Proof.
  apply meets_other; [done|].
  apply (meets_ran 1000 one_lease (MkViewWorld one_views 101) (MkViewWorld (views_remove two_views 2) 111)).
  - eapply rtc_l; [apply (view_tick 1000 1 one_views 101 111); lia|].
    eapply rtc_l; [exact (view_open 1000 1 one_views 111 one_store 60 two_views _ (surjective_pairing _))|].
    apply rtc_once. apply (view_cleanup 1000 1 two_views 111 2). discriminate.
  - apply meets_other; [done|]. constructor.
Qed.

Definition one_cursor : FjallExportCursor (Q := EventsScan) :=
  MkFjallCursor (Some (MkSessionStream (MkSessionBatch (Some (MkEventsScan sample_key INITIAL)) []) None)) 161 true.

Lemma fjall_export_frozen_witness :
  exists evs, from_persisted <$> evs = [sample_envelope INITIAL] /\
    (1 <= length (cursor_polls one_lease small_config one_cursor session_polls))%nat.
Proof.
  destruct (fjall_export_frozen 1000 wide64 one_store one_log views_default 60 100 None Executed 101 one_views one_lease small_config
    one_stores one_session ltac:(vm_compute; discriminate) 105 None) as [Hevents _].
  destruct (Hevents sample_key INITIAL one_cursor session_polls) as (evs & Hfrom & _ & _ & Hlen).
  - reflexivity.
  - apply session_polls_meet.
  - exists evs. split; [exact Hfrom|exact Hlen].
Defined.
