(* ===== verification/BackupExample.v ===== *)
(** * A backup taken and restored

    A store with one event, exported through a session, written to a buffer, decoded
    and imported into a new store: the theorems on the backup format hold together
    there, with the codec of [CborCodec]. *)

From S2P Require Import Prelude Utf8 ErrorId Version Value Wire Envelope RawStore Wake Import Log InMemory.
From S2P Require Import Cbor CborSpec CborChunk CborWriter Export Backup CborCodec.

#[local] Existing Instance target64.
#[local] Existing Instance counter_watch.
#[local] Existing Instance list_array_string.
#[local] Instance raw : RawEventStore InMemoryStore := inmemory_raw true.
#[local] Instance raw_spec : RawEventStoreSpec InMemoryStore := inmemory_spec true.
#[local] Instance atomic : AtomicAppend InMemoryStore := inmemory_atomic true.
#[local] Instance atomic_spec : AtomicAppendSpec InMemoryStore := inmemory_atomic_spec true.

Definition sample_log : Log := [(sample_key, sample_envelope INITIAL)].

(** ** The session *)

Definition session : ExportSession :=
  MkExportSession (omap (fun rows => sf_version <$> last rows) (streams sample_inner)) BatchSize.DEFAULT 160.

Lemma session_opens : open_export_session 1000 sample_inner BatchSize.DEFAULT 100 60 = Ok session.
Proof. reflexivity. Qed.

(** Two polls in time. *)
Definition polls : list (Z * Inner) := [(110, sample_inner); (120, sample_inner)].

Lemma polls_grow : grows sample_log polls.*2 sample_log.
Proof.
  econstructor; [reflexivity|apply sample_inner_represents|]. econstructor; [reflexivity|apply sample_inner_represents|constructor].
Qed.

Lemma export_session_frozen_witness :
  (forall k, k ∈ (map_to_list (es_heads session)).*1 <-> log_stream k sample_log <> []) /\
  exists evs, from_persisted <$> evs = [sample_envelope INITIAL] /\
    export_drive session sample_key polls (MkExportCursor _ (Some (MkUnfold (Some INITIAL) [])) 160) = ended 2 (Ok <$> evs).
Proof.
  destruct (export_session_frozen 1000 sample_log sample_inner BatchSize.DEFAULT 100 60 session sample_key INITIAL 105
    (MkExportCursor _ (Some (MkUnfold (Some INITIAL) [])) 160) polls sample_log) as (Hids & evs & Hfrom & _ & Hout).
  - apply sample_inner_represents.
  - apply session_opens.
  - reflexivity.
  - apply polls_grow.
  - split; [exact Hids|]. exists evs. split; [exact Hfrom|]. destruct Hout as [Hout|(pre & _ & Hex & _)]; [exact Hout|].
    exfalso. cbn in Hex. apply Exists_cons in Hex as [H|H]; [cbn in H; lia|]. apply Exists_cons in H as [H|H]; [cbn in H; lia|].
    by apply Exists_nil in H.
Defined.

(** ** The chunk *)

Definition room : Buffer := MkBuffer [] 10000.

(** The results of a run, without their proofs. *)
Definition finished (r : Buffer * result () (WriteError ())) : bool := is_ok r.2.

Lemma finished_Ok (r : Buffer * result () (WriteError ())) : finished r = true -> r = (r.1, Ok ()).
Proof. destruct r as [sink [[]|e]]; [reflexivity|done]. Qed.

Definition new_writer : ChunkWriter (W := Buffer) := MkWriter (encode (MkTracked room 0 0) (header_items (MkHeaderRepr MAGIC FORMAT_VERSION None))).1 WriterReady 0 0.

Lemma writer_opens : writer_new room None = (ts_inner (w_enc new_writer), Ok new_writer).
Proof. vm_cast_no_check (eq_refl (ts_inner (w_enc new_writer), Ok (E := WriteError ()) new_writer)). Qed.

(** One section, a block and a drain of one more event. *)
Definition program : list (bytes * list (SectionOp (R := ()))) :=
  [([byte.of_Z 97], [OpBlock sample_persisted; OpExtend (SourceYields sample_persisted SourceEnds)])].

Lemma sample_backup_ok : backup_ok sample_persisted.
Proof. split; [apply sample_persisted_ok|vm_compute; discriminate]. Qed.

Lemma program_ok : Forall section_input_ok program.
Proof.
  repeat first [apply sample_backup_ok|constructor]; vm_compute; discriminate.
Qed.

Lemma chunk_decodes_iff_finished_witness :
  (exists sink' out, finish (run_program new_writer program) = (sink', Ok ()) /\ sink_content sink' = sink_content room ++ out /\
     exists secs, decode_chunk (S (length out)) out = Some (Returns (Ok secs)) /\ Forall2 restores (program_streams program) secs) /\
  exists out e, sink_content (into_unfinished_sink (run_program new_writer program)) = sink_content room ++ out /\
    decode_chunk (S (length out)) out = Some (Returns (Err e)).
Proof.
  destruct (chunk_decodes_iff_finished room None program (ts_inner (w_enc new_writer)) new_writer) as [Hfin Hunf].
  - exact I.
  - apply program_ok.
  - apply writer_opens.
  - split.
    + assert (finish (run_program new_writer program) = ((finish (run_program new_writer program)).1, Ok ())) as E
        by (apply finished_Ok; vm_compute; reflexivity).
      destruct (Hfin _ E) as (_ & out & Hout & _ & Hdec). eexists _, out. split; [exact E|]. split; [exact Hout|].
      apply Hdec. constructor.
    + destruct Hunf as (out & Hout & Hdec). destruct (Hdec (S (length out))) as [e He]; [constructor|]. exists out, e. split; [exact Hout|exact He].
Defined.

Definition streams_of_program : list (bytes * list PersistedEnvelope) := program_streams program.
Definition whole : bytes := complete_chunk None (entries_of streams_of_program).

Lemma whole_ok : chunk_ok None (entries_of streams_of_program).
Proof.
  split.
  - exact I.
  - repeat first [apply sample_backup_ok|constructor]; vm_compute; discriminate.
  - exact I.
  - vm_compute. discriminate.
  - vm_compute. discriminate.
  - vm_compute. discriminate.
Qed.

(** The chunk cut one byte before the end of its second event: the heading and the
    first event are whole. *)
Definition cut_at : nat := length (chunk_prefix None (entries_of streams_of_program)) - 1.


Lemma decode_chunk_sound_witness : exists r, decode_chunk 4 [byte.of_Z 1; byte.of_Z 2; byte.of_Z 3] = Some (Returns r).
Proof.
  destruct (decode_chunk_sound [byte.of_Z 1; byte.of_Z 2; byte.of_Z 3] 4) as (r & Hr & _); [cbn; lia|]. exists r. exact Hr.
Defined.

(** ** End to end *)

Definition backup : Buffer * result () (WriteError ()) :=
  finish (run_program new_writer (backup_program session (fun _ => 105) (fun _ => polls))).

(** Decode and import into a new store. *)
Definition restore (out : bytes) : option (InMemoryStore * ImportReport) :=
  match decode_chunk (S (length out)) out with
  | Some (Returns (Ok secs)) =>
      match import_whole_chunk sample_store secs MkStreamKey with (t, Returns (Ok rep)) => Some (t, rep) | _ => None end
  | _ => None
  end.

Definition is_restored (out : bytes) : bool := match restore out with Some _ => true | None => false end.

Lemma backup_restore_exact_witness :
  exists t rep, restore (buf_content backup.1) = Some (t, rep) /\ forall id, stream_of t id = log_stream id sample_log.
Proof.
  assert (backup = (backup.1, Ok ())) as E by (apply finished_Ok; vm_compute; reflexivity).
  destruct (backup_restore_exact 1000 (S := InMemoryStore) sample_log sample_inner BatchSize.DEFAULT 100 60 session (fun _ => 105) (fun _ => polls)
    room None (ts_inner (w_enc new_writer)) new_writer backup.1) as (out & Hout & Hdec).
  - apply sample_inner_represents.
  - apply session_opens.
  - intros _. exists sample_log. apply polls_grow.
  - intros id Hid. assert (id = sample_key) as ->.
    { destruct (decide (sample_key = id)) as [|Hne]; [done|]. destruct Hid. by apply (log_stream_tag_ne sample_key id [sample_envelope INITIAL]). }
    vm_compute. discriminate.
  - exact I.
  - apply writer_opens.
  - exact E.
  - cbn in Hout. destruct (Hdec (S (length out))) as (secs & Hsecs & Himp); [constructor|].
    destruct (restore (buf_content backup.1)) as [[t rep]|] eqn:Hr.
    2:{ exfalso. assert (is_restored (buf_content backup.1) = true) as Ht by (vm_compute; reflexivity). unfold is_restored in Ht. rewrite Hr in Ht. discriminate Ht. }
    exists t, rep. split; [reflexivity|]. intros id. unfold restore in Hr. rewrite Hout, Hsecs in Hr.
    destruct (import_whole_chunk sample_store secs MkStreamKey) as [t' [[rep'|e]|]] eqn:Hi; try discriminate Hr. injection Hr as -> ->.
    apply (Himp sample_store t rep (represents_default) Hi id).
Defined.
