(* ===== verification/PgExample.v ===== *)
(** * A concrete run on a PostgreSQL database

    An append, the scans and a checkpoint on an empty database that does what the
    manual says: the hypotheses of the theorems about the PostgreSQL store hold
    together there. *)

From Stdlib Require Import Sorted.
From S2P Require Import Prelude Utf8 ErrorId Version Value Wire Envelope RawStore Import InMemory Checkpoint State.
From S2P Require Import Export Pg PgDb PgInv PgStore PgAppend PgScan PgRead PgView PgExport PgAtomic PgSide PgSystem.

#[local] Existing Instance target64.
#[local] Existing Instance list_array_string.
#[local] Existing Instance manual.

Definition sample_history : History := MkHistory [byte.of_Z 7].
Definition sample_limits : Limits := limits_default.

(** ** The append *)

Definition empty_view : View := MkView [] [] ∅ 100 1 1 (MkSide ∅ ∅).

Definition key_tx : Tx := MkTx Active (Some 100) [(1, StreamKey.as_bytes sample_key)] [] nothing_held.
Definition key_view : View := MkView [] [] {[1%nat := key_tx]} 101 1 2 (MkSide ∅ ∅).
Definition sample_event : PgDb.Event := MkEvent 1 1 100 (row_of (sample_envelope INITIAL)).
Definition event_tx : Tx := MkTx Active (Some 100) [(1, StreamKey.as_bytes sample_key)] [sample_event] nothing_held.
Definition event_view : View := MkView [] [] {[1%nat := event_tx]} 101 2 2 (MkSide ∅ ∅).
Definition full_view : View := MkView [(1, StreamKey.as_bytes sample_key)] [sample_event] ∅ 101 2 2 (MkSide ∅ ∅).

Lemma empty_unique {R X} (f : R -> X) own : unique f [] (owned own empty_view).
Proof. split; [constructor|..]; intros *; unfold owned; cbn; rewrite ?lookup_empty; done. Qed.

Lemma empty_inv : view_inv empty_view.
Proof.
  split; try apply empty_unique; cbn; try done; intros *; rewrite ?lookup_empty; try done; try (by intros ?%elem_of_nil).
  intros ?. constructor.
Qed.

(** One statement of a session. *)
Lemma run_stmt {A} s v a k log r v1 (res : A) v2 log' :
  documented v s a r v1 -> runs s v1 (k r) (log ++ [(v, v1)]) res v2 log' -> runs s v (act a k) log res v2 log'.
Proof. exact (runs_act (PG := manual) s v a k log r v1 res v2 log'). Qed.

(** A row conflicts with nothing when there is no other transaction. *)
Lemma only_own_taken {R} (c : list R) own v s tx (same : R -> Prop) :
  v_open v = {[s := tx]} -> Forall (fun r => ~ same r) (c ++ own tx) -> ~ taken c own v s same.
Proof.
  intros Ho Hf (r & Hr & [Hin|(s' & t & Hs & _ & Hin)]); rewrite Forall_forall in Hf; apply (Hf r); try done; [set_solver|].
  rewrite Ho, lookup_singleton_Some in Hs. destruct Hs as [_ <-]. set_solver.
Qed.

Definition sample_append : Op := OpAppend sample_key None sample_batch.

Lemma append_runs : exists log, runs 1 empty_view (run_op sample_history sample_limits sample_append) [] (Ok (MkPgPos sample_history 100 1)) full_view log.
Proof.
  eexists. eapply (run_stmt 1 _ SBegin _ _ (Ok tt)); [by split|].
  eapply (run_stmt 1 _ (SReadHead _) _ _ (Ok None)); [by split_and!|].
  eapply (run_stmt 1 _ (SInsertKey _) _ _ (Ok (Some 1)) key_view).
  { exists tx_new, 100, 101. split_and!; try done. by apply (only_own_taken _ _ _ 1 tx_new). }
  eapply (run_stmt 1 _ (SInsertEvent _ _) _ _ (Ok (1, 100)) event_view).
  { exists key_tx, 101. split_and!; try done; try lia; [left|]. by apply (only_own_taken _ _ _ 1 key_tx). }
  eapply (run_stmt 1 _ SSetConstraints _ _ (Ok tt)); [by split_and!|].
  eapply (run_stmt 1 _ SSettings _ _ (Ok None)); [by split_and!|].
  eapply (run_stmt 1 _ SCommit _ _ (Ok tt) full_view); [exists event_tx; split; [done|by left]|].
  eapply (run_stmt 1 _ (AWake _) _ _ (Ok tt)); [done|].
  eapply (run_stmt 1 _ (SNotify _) _ _ (Ok tt)); [done|].
  apply runs_ret.
Qed.

(** ** The scans *)

Lemma full_open s : v_open full_view !! s = None.
Proof. apply lookup_empty. Qed.

Lemma full_seen s : seen_keys full_view s = [(1, StreamKey.as_bytes sample_key)] /\ seen_events full_view s = [sample_event].
Proof. unfold seen_keys, seen_events, own_keys, own_events. by rewrite full_open. Qed.

Lemma full_serving s : serving full_view s.
Proof. unfold serving. by rewrite full_open. Qed.

Lemma ordered_one {R} (lt : R -> R -> Prop) (P : R -> Prop) x : P x -> ordered lt [x] P [x].
Proof. intros HP. split; [repeat constructor|]. intros e. rewrite list_elem_of_singleton. split; [by intros ->|by intros [-> _]]. Qed.

Lemma ordered_none {R} (lt : R -> R -> Prop) (P : R -> Prop) x : ~ P x -> ordered lt [x] P [].
Proof. intros HP. split; [constructor|]. intros e. rewrite list_elem_of_singleton. split; [by intros ?%elem_of_nil|by intros [-> ?]]. Qed.

Definition sample_item : PersistedEnvelope :=
  match row_to_envelope (row_of (sample_envelope INITIAL)) (error_id sample_key) with Returns (Ok env) => env | _ => sample_persisted end.

Lemma read_stream_runs : exists log,
  runs 2 full_view (run_op sample_history sample_limits (OpReadStream 2 sample_key INITIAL)) [] (Ok ([sample_item], Ended)) full_view log.
Proof.
  eexists. eapply (run_stmt 2 _ SAcquire _ _ (Ok tt)); [split_and!; [apply full_serving|done|done]|].
  eapply (run_stmt 2 _ (SReadHead _) _ _ (Ok (Some (1, Some 1)))); [split_and!; [apply full_serving| |done]; by destruct (full_seen 2) as [-> ->]|].
  eapply (run_stmt 2 _ (SPageStream 1 1 1 None _) _ _ (Ok [PageValue (row_of (sample_envelope INITIAL))]) full_view).
  { split_and!; [apply full_serving| |done]. destruct (full_seen 2) as [-> ->]. exists [sample_event]. split; [by apply ordered_one|]. vm_compute. reflexivity. }
  eapply (run_stmt 2 _ (SPageStream 1 1 1 (Some 1) _) _ _ (Ok []) full_view).
  { split_and!; [apply full_serving| |done]. destruct (full_seen 2) as [-> ->]. exists []. split; [|done]. apply ordered_none. intros (_ & _ & H). cbn in H. lia. }
  apply runs_ret.
Qed.

Lemma read_all_runs : exists log,
  runs 3 full_view (run_op sample_history sample_limits (OpReadAll 2 None)) []
    (Ok ([(MkPgPos sample_history 100 1, sample_key, sample_item)], Ended)) full_view log.
Proof.
  eexists. eapply (run_stmt 3 _ SXmin _ _ (Ok 101)).
  { split_and!; [apply full_serving| |done]. split_and!; [intros s tx y; by rewrite full_open|done|by left]. }
  eapply (run_stmt 3 _ (SPageAll 101 None _) _ _ (Ok [PageValue (all_row [(1, StreamKey.as_bytes sample_key)] sample_event)]) full_view).
  { split_and!; [apply full_serving| |done]. destruct (full_seen 3) as [-> ->]. exists [sample_event]. split; [by apply ordered_one|]. vm_compute. reflexivity. }
  eapply (run_stmt 3 _ (SPageAll 101 (Some (AfterPair 100 1)) _) _ _ (Ok []) full_view).
  { split_and!; [apply full_serving| |done]. destruct (full_seen 3) as [-> ->]. exists []. split; [|done]. apply ordered_none. intros [_ H]. cbn in H. unfold pos_lt in H. cbn in H. lia. }
  apply runs_ret.
Qed.

Definition sample_snapshot : Snapshot := MkSnapshot 101 101 [].

Lemma list_runs : exists log, runs 4 full_view (run_op sample_history sample_limits (OpList 2)) [] (Ok ([sample_key], Ended)) full_view log.
Proof.
  eexists. eapply (run_stmt 4 _ SSnapshot _ _ (Ok sample_snapshot)).
  { split_and!; [apply full_serving| |done]. split_and!; [by intros e ->%list_elem_of_singleton|intros s tx y; by rewrite full_open|].
    intros y Hy. unfold visible_in_snapshot. cbn in *. rewrite (proj2 (Z.ltb_ge y 101)) by lia. done. }
  eapply (run_stmt 4 _ (SPageKeys None _ _) _ _ (Ok [PageValue (MkKey 1 (StreamKey.as_bytes sample_key))]) full_view).
  { split_and!; [apply full_serving| |done]. destruct (full_seen 4) as [-> ->]. exists [(1, StreamKey.as_bytes sample_key)]. split; [|vm_compute; reflexivity].
    apply ordered_one. split; [done|]. exists sample_event. split_and!; [left|done|done]. }
  eapply (run_stmt 4 _ (SPageKeys (Some 1) _ _) _ _ (Ok []) full_view).
  { split_and!; [apply full_serving| |done]. destruct (full_seen 4) as [-> ->]. exists []. split; [|done]. apply ordered_none. intros [H _]. cbn in H. lia. }
  apply runs_ret.
Qed.

(** ** An atomic append to two streams *)

Definition second : Version := from_option id INITIAL (new 2).
Definition other_key : StreamKey := MkStreamKey [byte.of_Z 98].
Definition two_writes : list PlannedAppend :=
  [MkPlanned sample_key (Some INITIAL) (sample_envelope second) []; MkPlanned other_key None (sample_envelope INITIAL) []].

Definition event2 : PgDb.Event := MkEvent 2 1 101 (row_of (sample_envelope second)).
Definition event3 : PgDb.Event := MkEvent 3 2 101 (row_of (sample_envelope INITIAL)).
Definition both_keys : list (Z * bytes) := [(1, StreamKey.as_bytes sample_key); (2, StreamKey.as_bytes other_key)].

Definition atomic_view (tx : Tx) (x q n : Z) : View := MkView (v_keys full_view) (v_events full_view) {[5%nat := tx]} x q n (MkSide ∅ ∅).
Definition atomic_tx1 : Tx := MkTx Active (Some 101) [] [event2] nothing_held.
Definition atomic_tx2 : Tx := MkTx Active (Some 101) [(2, StreamKey.as_bytes other_key)] [event2] nothing_held.
Definition atomic_tx3 : Tx := MkTx Active (Some 101) [(2, StreamKey.as_bytes other_key)] [event2; event3] nothing_held.
Definition last_view : View := MkView both_keys [sample_event; event2; event3] ∅ 102 4 3 (MkSide ∅ ∅).

Lemma atomic_runs : exists log,
  runs 5 full_view (run_op sample_history sample_limits (OpAtomic two_writes)) [] (Ok (Some (MkPgPos sample_history 101 3))) last_view log.
Proof.
  eexists. eapply (run_stmt 5 _ SBegin _ _ (Ok tt) (atomic_view tx_new 101 2 2)); [by split|].
  eapply (run_stmt 5 _ (SReadHead _) _ _ (Ok (Some (1, Some 1)))); [by split_and!|].
  eapply (run_stmt 5 _ (SReadHead _) _ _ (Ok None)); [by split_and!|].
  eapply (run_stmt 5 _ (SInsertEvent 1 _) _ _ (Ok (2, 101)) (atomic_view atomic_tx1 102 3 2)).
  { exists tx_new, 102. split_and!; try done; try lia; [left|]. apply (only_own_taken _ _ _ 5 tx_new); [done|]. by repeat constructor; intros [_ H]. }
  eapply (run_stmt 5 _ (SInsertKey _) _ _ (Ok (Some 2)) (atomic_view atomic_tx2 102 3 3)).
  { exists atomic_tx1, 101, 102. split_and!; try done. apply (only_own_taken _ _ _ 5 atomic_tx1); [done|]. by repeat constructor. }
  eapply (run_stmt 5 _ (SInsertEvent 2 _) _ _ (Ok (3, 101)) (atomic_view atomic_tx3 102 4 3)).
  { exists atomic_tx2, 102. split_and!; try done; try lia; [right; left|]. apply (only_own_taken _ _ _ 5 atomic_tx2); [done|]. by repeat constructor; intros [H _]. }
  eapply (run_stmt 5 _ SSetConstraints _ _ (Ok tt)); [by split_and!|].
  eapply (run_stmt 5 _ SSettings _ _ (Ok None)); [by split_and!|].
  eapply (run_stmt 5 _ SCommit _ _ (Ok tt) last_view); [exists atomic_tx3; split; [done|by left]|].
  do 2 (eapply (run_stmt 5 _ (AWake _) _ _ (Ok tt)); [done|]).
  do 2 (eapply (run_stmt 5 _ AElapsed _ _ (Ok false)); [done|]; eapply (run_stmt 5 _ (SNotify _) _ _ (Ok tt)); [done|]).
  apply runs_ret.
Qed.

(** ** A checkpoint *)

Definition sample_id : IdArg := MkIdArg (StreamKey.as_bytes sample_key) (error_id sample_key).
Definition sample_write : CheckpointWrite bytes PgAllPos :=
  MkWrite None (MkNonZero (max := u32_max) 1 eq_refl) (MkPgPos sample_history 100 1) [byte.of_Z 5] Advance.
Definition first_revision : Revision := MkNonZero (max := u64_max) 1 eq_refl.
Definition sample_row : CheckpointRow := checkpoint_row sample_write first_revision.

Definition checkpoint_tx : Tx := MkTx Active (Some 101) [] [] (MkHeld (MkSide {[1 := sample_row]} ∅) {[1]}).
Definition checkpoint_view : View := MkView (v_keys full_view) (v_events full_view) {[6%nat := checkpoint_tx]} 102 2 2 (MkSide ∅ ∅).
Definition saved_view : View := MkView (v_keys full_view) (v_events full_view) ∅ 102 2 2 (MkSide {[1 := sample_row]} ∅).

Lemma checkpoint_runs : exists log,
  runs 6 full_view (run_op sample_history sample_limits (OpCommitCheckpoint sample_id sample_write)) [] (Ok first_revision) saved_view log.
Proof.
  eexists. eapply (run_stmt 6 _ SBegin _ _ (Ok tt)); [by split|].
  eapply (run_stmt 6 _ (SReadKey _) _ _ (Ok (Some 1))); [by split_and!|].
  eapply (run_stmt 6 _ (SLockCheckpoint 1) _ _ (Ok None)); [by split_and!|].
  eapply (run_stmt 6 _ (SInsertCheckpoint 1 sample_row) _ _ (Ok (Some 1)) checkpoint_view).
  { split_and!; [done|done| |exists tx_new, 101, 102; by split_and!]. intros (s & tx & Hne & Hs & _). cbn in Hs. by rewrite lookup_insert_ne, lookup_empty in Hs. }
  eapply (run_stmt 6 _ SSetConstraints _ _ (Ok tt)); [by split_and!|].
  eapply (run_stmt 6 _ SSettings _ _ (Ok None)); [by split_and!|].
  eapply (run_stmt 6 _ SCommit _ _ (Ok tt) saved_view); [exists checkpoint_tx; split; [done|by left]|].
  apply runs_ret.
Qed.

(** ** The theorems on these runs *)

Lemma call_reachable s limits o v r v' log :
  view_inv v -> op_ok o -> v_open v !! s = None -> runs s v (run_op sample_history limits o) [] r v' log ->
  reachable sample_history (MkSys (PG := manual) v' {[s := MkCall limits o (ret r) log]}).
Proof.
  intros Hi Hok Ho Hr. exists (MkSys (PG := manual) v ∅). split; [by split|]. by apply (call_runs (PG := manual) sample_history s limits o v r v' log ∅).
Qed.

Lemma full_inv : view_inv full_view.
Proof.
  destruct append_runs as [log Hr]. apply (reachable_inv sample_history (MkSys (PG := manual) full_view {[1%nat := MkCall sample_limits sample_append (ret (Ok (MkPgPos sample_history 100 1))) log]})).
  by apply (call_reachable 1 sample_limits sample_append empty_view _ full_view log empty_inv).
Qed.

Lemma pg_tables_consistent_witness : exists sys, sys_view (PG := manual) sys = full_view /\ view_inv (sys_view sys).
Proof.
  destruct append_runs as [log Hr]. pose proof (call_reachable 1 sample_limits sample_append empty_view _ full_view log empty_inv I eq_refl Hr) as Hreach.
  eexists. split; [|exact (pg_tables_consistent sample_history _ Hreach)]. done.
Defined.

Lemma pg_append_exact_witness : exists log,
  append_post 1 sample_history sample_key None (PendingBatch.iter sample_batch) (Ok (MkPgPos sample_history 100 1)) full_view log.
Proof.
  destruct append_runs as [log Hr]. exists log.
  pose proof (call_reachable 1 sample_limits sample_append empty_view _ full_view log empty_inv I eq_refl Hr) as Hreach.
  exact (pg_append_exact sample_history _ 1 sample_limits sample_key None sample_batch _ log Hreach (lookup_singleton_eq _ _)).
Defined.

Lemma pg_atomic_exact_witness : exists log, atomic_post 5 sample_history two_writes (Ok (Some (MkPgPos sample_history 101 3))) last_view log.
Proof.
  destruct atomic_runs as [log Hr]. exists log.
  pose proof (call_reachable 5 sample_limits (OpAtomic two_writes) full_view _ last_view log full_inv I eq_refl Hr) as Hreach.
  exact (pg_atomic_exact sample_history _ 5 sample_limits two_writes _ log Hreach (lookup_singleton_eq _ _)).
Defined.

Lemma pg_read_stream_exact_witness : exists log, read_stream_post sample_limits 2 sample_key INITIAL (Ok ([sample_item], Ended)) log.
Proof.
  destruct read_stream_runs as [log Hr]. exists log.
  pose proof (call_reachable 2 sample_limits (OpReadStream 2 sample_key INITIAL) full_view _ full_view log full_inv I eq_refl Hr) as Hreach.
  exact (pg_read_stream_exact sample_history _ 2 sample_limits 2 sample_key INITIAL _ log Hreach (lookup_singleton_eq _ _)).
Defined.

Lemma pg_list_streams_exact_witness : exists log, list_streams_post sample_limits 2 (Ok ([sample_key], Ended)) log.
Proof.
  destruct list_runs as [log Hr]. exists log.
  pose proof (call_reachable 4 sample_limits (OpList 2) full_view _ full_view log full_inv I eq_refl Hr) as Hreach.
  exact (pg_list_streams_exact sample_history _ 4 sample_limits 2 _ log Hreach (lookup_singleton_eq _ _)).
Defined.

Lemma pg_checkpoint_cas_witness : exists log, checkpoint_post 6 sample_history sample_id sample_write (Ok first_revision) saved_view log.
Proof.
  destruct checkpoint_runs as [log Hr]. exists log.
  pose proof (call_reachable 6 sample_limits (OpCommitCheckpoint sample_id sample_write) full_view _ saved_view log full_inv I eq_refl Hr) as Hreach.
  exact (pg_checkpoint_cas sample_history _ 6 sample_limits sample_id sample_write _ log Hreach (lookup_singleton_eq _ _)).
Defined.

Lemma pg_read_all_exact_witness : exists log,
  read_all_post sample_limits sample_history 2 None (Ok ([(MkPgPos sample_history 100 1, sample_key, sample_item)], Ended)) full_view log.
Proof.
  destruct read_all_runs as [log Hr]. exists log.
  pose proof (call_reachable 3 sample_limits (OpReadAll 2 None) full_view _ full_view log full_inv I eq_refl Hr) as Hreach.
  exact (pg_read_all_exact sample_history _ 3 sample_limits 2 None _ log Hreach (lookup_singleton_eq _ _)).
Defined.

Lemma pg_read_all_gapless_witness : e_pos sample_event ∈ (item_pos <$> [(MkPgPos sample_history 100 1, sample_key, sample_item)]).
Proof.
  destruct read_all_runs as [log Hr].
  pose proof (call_reachable 3 sample_limits (OpReadAll 2 None) full_view _ full_view log full_inv I eq_refl Hr) as Hreach.
  apply (pg_read_all_gapless sample_history _ 3 sample_limits 2 None _ Ended log sample_event (MkPgPos sample_history 100 1, sample_key, sample_item) Hreach (lookup_singleton_eq _ _)).
  - left.
  - done.
  - left.
  - unfold item_pos, e_pos, pos_lt. cbn. lia.
Defined.

Lemma page_bounded_witness : exists k, page sample_limits [(40, tt); (50, tt)] = page_row 16777216 <$> take k [(40, tt); (50, tt)].
Proof. destruct (page_bounded sample_limits [(40, tt); (50, tt)]) as (k & Hk & _); [by repeat constructor|]. by exists k. Defined.

(** ** Opening a store *)

Definition sample_migrations : list (Z * bytes) := [(1, [byte.of_Z 1; byte.of_Z 2]); (2, [byte.of_Z 3])].
Definition sample_catalog : Catalog :=
  MkCatalog None (Some [(1, true, [byte.of_Z 1; byte.of_Z 2]); (2, true, [byte.of_Z 3])]) (fun _ => true) true true true [byte.of_Z 7].

Lemma open_answers :
  answered sample_catalog full_view (from_pool_with_limits sample_migrations 4 sample_limits) (Ok (MkOpened sample_limits sample_history)).
Proof.
  exists (Ok tt). split; [done|]. exists (Ok None). split; [done|]. exists (Ok tt). split; [done|]. exists (Ok true). split; [done|].
  exists (Ok [(1, true, [byte.of_Z 1; byte.of_Z 2]); (2, true, [byte.of_Z 3])]). split; [by eexists|].
  exists (Ok true). split; [done|]. exists (Ok true). split; [done|]. exists (Ok true). split; [done|]. exists (Ok true). split; [done|].
  exists (Ok [byte.of_Z 7]). split; [done|]. exists (Ok false). split; [|by exists (Ok tt)]. exists 101. split; [by split; [|intros t [? _]]|done].
Qed.

(** The same database restored into a cluster that has not yet given out transaction 100. *)
Definition young_view : View :=
  MkView (v_keys full_view) (v_events full_view) ∅ 7 (v_next_seq full_view) (v_next_key full_view) (v_side full_view).

Lemma young_answers :
  answered sample_catalog young_view (from_pool_with_limits sample_migrations 4 sample_limits) (Err PostgresError.FutureTransaction).
Proof.
  exists (Ok tt). split; [done|]. exists (Ok None). split; [done|]. exists (Ok tt). split; [done|]. exists (Ok true). split; [done|].
  exists (Ok [(1, true, [byte.of_Z 1; byte.of_Z 2]); (2, true, [byte.of_Z 3])]). split; [by eexists|].
  exists (Ok true). split; [done|]. exists (Ok true). split; [done|]. exists (Ok true). split; [done|]. exists (Ok true). split; [done|].
  exists (Ok [byte.of_Z 7]). split; [done|]. exists (Ok true). split; [|done]. exists 7. split; [by split; [|intros t [? _]]|done].
Qed.

Lemma pg_open_exact_witness :
  open_post sample_migrations sample_catalog full_view 4 sample_limits (Ok (MkOpened sample_limits sample_history)) /\
  open_post sample_migrations sample_catalog young_view 4 sample_limits (Err PostgresError.FutureTransaction).
Proof.
  split.
  - apply (pg_open_exact sample_migrations sample_catalog full_view 2 4 sample_limits); [done|exact open_answers].
  - apply (pg_open_exact sample_migrations sample_catalog young_view 2 4 sample_limits); [done|exact young_answers].
Defined.

(** ** An export session *)

Definition sample_window : Window := MkWindow 10 sample_limits.
Definition key_page1 : list (PageRow Key) := [PageValue (MkKey 1 (StreamKey.as_bytes sample_key))].
Definition event_page1 : list (PageRow EventRow) := [PageValue (row_of (sample_envelope INITIAL))].
Definition sample_sent : list Sent :=
  [Ready (Ok tt); Served (ReqList None) (Ok key_page1); Served (ReqKey sample_key) (Ok (Some 1)); Served (ReqEvents 1 INITIAL) (Ok event_page1)].

Lemma full_snapshot : current_snapshot full_view sample_snapshot.
Proof.
  split_and!; [by intros e ->%list_elem_of_singleton|intros s tx y; by rewrite full_open|].
  intros y Hy. unfold visible_in_snapshot. cbn in *. rewrite (proj2 (Z.ltb_ge y 101)) by lia. done.
Qed.

Lemma sample_owner : own_run sample_catalog full_view sample_limits Starting sample_sent (Serving sample_snapshot).
Proof.
  apply (own_run_step _ _ _ _ [Ready (Ok tt)] (Serving sample_snapshot) (tail sample_sent)).
  { constructor. exists (Ok tt). split; [done|]. exists (Ok tt). split; [done|]. exists (Ok sample_snapshot). split; [apply full_snapshot|done]. }
  apply (own_run_step _ _ _ _ [Served (ReqList None) (Ok key_page1)] (Serving sample_snapshot) (tail (tail sample_sent))).
  { constructor. exists (Ok key_page1). split; [|done]. exists [(1, StreamKey.as_bytes sample_key)]. split; [|vm_compute; reflexivity].
    apply ordered_one. split; [done|]. exists sample_event. split_and!; [left|done|done]. }
  apply (own_run_step _ _ _ _ [Served (ReqKey sample_key) (Ok (Some 1))] (Serving sample_snapshot) (tail (tail (tail sample_sent)))).
  { constructor. by exists (Ok (Some 1)). }
  apply (own_run_step _ _ _ _ [Served (ReqEvents 1 INITIAL) (Ok event_page1)] (Serving sample_snapshot) []); [|constructor].
  constructor. exists (Ok event_page1). split; [|done]. exists [sample_event]. split; [by apply ordered_one|vm_compute; reflexivity].
Qed.

Lemma pg_export_frozen_witness :
  exported sample_window key_bytes key_row key_convert (listed full_view) 1 [sample_key] (XMore (MkListCursor (Some 1) [])) 0 /\
  exported sample_window (stored_bytes (StreamKey.as_bytes sample_key)) e_row (event_convert (error_id sample_key))
    (stream_from full_view (StreamKey.as_bytes sample_key) 1) 1 [sample_item] (XMore (MkEventCursor (new 2) [])) 0.
Proof.
  destruct (pg_export_frozen sample_catalog full_view sample_window sample_sent (Serving sample_snapshot) 1 full_inv sample_owner) as [Hl He]. split.
  - apply (Hl 0 (Returns (Ok ([sample_key], XMore (MkListCursor (Some 1) []))))).
    exists 0. split; [done|]. exists 0. split; [done|]. exists 0. split; [done|]. exists (Answered (q := ReqList None) (Ok key_page1)). split; [right; left|done].
  - apply (He sample_key INITIAL 0 (Returns (Ok ([sample_item], XMore (MkEventCursor (new 2) []))))).
    exists 0. split; [done|]. exists 0. split; [done|]. exists (Answered (q := ReqKey sample_key) (Ok (Some 1))). split; [right; right; left|].
    exists 0. split; [done|]. exists 0. split; [done|]. exists (Answered (q := ReqEvents 1 INITIAL) (Ok event_page1)). split; [right; right; right; left|].
    split; reflexivity.
Defined.
